(* ===== verification/_CoqProject ===== *)
-Q . S2P
Prelude.v
Errors.v
Path.v
Range.v
Buffer.v
Types.v
Access.v
Context.v
Writers.v
Tasks.v
Uploads.v
Listers.v
Deleters.v
Simulate.v
Readers.v
Fetch.v
Retry.v
Memory.v
Layers.v
Copiers.v
Sinks.v
Streams.v
Operator.v
Stack.v
Index.v
PathCache.v
Gdrive.v
GdriveRecent.v
TailCut.v
Foyer.v
Route.v
Text.v
Http.v
Multipart.v
Uris.v
Limits.v
Fs.v
Kv.v
KvServices.v
KvMongo.v
KvFamily.v
Memcached.v
SqlText.v
Sql.v
Caches.v
KvRemote.v
SmallLayers.v
Futures.v
Config.v
Registry.v
S3Core.v
S3.v
