(* ===== verification/Prelude.v ===== *)
(** * OpenDAL core: a verification development

    Apache OpenDAL gives one interface to many storage services.  A user's
    [Operator] calls an accessor: a service wrapped in layers.  Reading, writing,
    listing, deleting and copying go through handles (reader, writer, lister,
    deleter, copier) that split large objects into ranges and parts, run requests
    concurrently, buffer, batch, and check what the service returns.  This library
    models that core, [src/core/core/src], the layers of [src/core/layers] that act
    on calls, and services: those that are programs of their own (memory, the file
    system, the path index of Google Drive), nineteen more that keep their objects
    in a database or cache, and S3.  It proves that data is neither lost, repeated,
    reordered nor invented on its way through them.

    ** The files, in dependency order

    The core:

    - [Prelude]: results with panics, state passing, machine integers, byte
      strings, decimal numbers, the shared lemmas and the hint database.
    - [Errors]: [types/error.rs], [raw/std_io_util.rs].
    - [Path]: [raw/path.rs], [types/mode.rs]: normalizing, joining and splitting
      paths.
    - [Range]: [raw/http_util/bytes_range.rs], [bytes_content_range.rs]: byte
      ranges, their headers and parsers.
    - [Buffer]: [types/buffer.rs], [raw/oio/buf/*.rs]: the non-contiguous buffer,
      the queue of buffers and the reusable buffer.
    - [Types]: [types/metadata.rs], [types/capability.rs], [raw/ops.rs],
      [raw/operation.rs], [raw/oio/entry.rs] and the [oio] traits as classes.
    - [Access]: [raw/accessor.rs] and [layers/correctness_check.rs].
    - [Context]: [layers/error_context.rs].
    - [Writers]: [types/context/write.rs], [types/write/writer.rs],
      [raw/oio/write/{append,one_shot}_write.rs].
    - [Tasks]: [ConcurrentTasks] of [raw/futures_util.rs].
    - [Uploads]: [raw/oio/write/{multipart,block,position}_write.rs], on [Tasks].
    - [Listers]: [raw/oio/list/*.rs], [types/list.rs].
    - [Deleters]: [raw/oio/delete/*.rs], [types/delete/*.rs].
    - [Simulate]: [layers/simulate.rs], on [Listers] and [Deleters].
    - [Readers]: [types/context/read.rs], [types/read/buffer_stream.rs].
    - [Fetch]: [Reader::fetch] of [types/read/reader.rs], on [Tasks] and [Buffer].
    - [Retry]: [core/layers/retry/src/lib.rs], on [Readers].
    - [Memory]: [services/memory/*.rs], the reference service.
    - [Layers]: [layers/complete.rs].
    - [Copiers]: [raw/oio/copy/*.rs], [types/copy.rs], on [Tasks].
    - [Sinks]: [types/write/{buffer_sink,futures_*}.rs],
      [types/delete/futures_delete_sink.rs].
    - [Streams]: [types/read/{reader,futures_*}.rs], [Seek] of [Buffer].
    - [Operator]: [types/operator/operator.rs], [types/options.rs]: every
      operation with its checks and handles.
    - [Stack]: the default layers of [types/operator/builder.rs] over the memory
      service, with the operator on top.

    Layers, services and HTTP:

    - [Index]: [layers/immutable-index], [layers/capability-check].
    - [PathCache]: [raw/path_cache.rs].
    - [Gdrive], [GdriveRecent]: [services/gdrive/src/{path_index,core}.rs].
    - [TailCut]: [layers/tail-cut].
    - [Foyer]: [layers/foyer], the cache.
    - [Route]: [layers/route].
    - [Text]: what the code uses of [str]: searching, lines, words, UTF-8.
    - [Http]: [raw/http_util/{client,body,header}.rs].
    - [Multipart]: [raw/http_util/multipart.rs], on [Http].
    - [Uris]: [raw/http_util/uri.rs].
    - [Limits]: [layers/concurrent-limit], [layers/timeout].
    - [Fs]: [services/fs/src/*.rs], [raw/oio/buf/pooled_buf.rs].
    - [SmallLayers]: [layers/capability_override.rs] of the core, and
      [layers/{mime-guess,chaos,throttle}].

    Services on databases and caches:

    - [Kv]: the writer, deleter, lister and backend that the key-value services
      repeat, over the class [KvMap] of what their cores promise; the histories of
      a map, and the theorem that such a service has only those.
    - [KvServices]: [services/{sled,rocksdb,tikv,foundationdb,redb,persy}].
    - [KvMongo]: [services/{mongodb,gridfs}].
    - [KvFamily]: the theorems about these eight.
    - [Memcached]: [services/memcached], with the binary protocol on a socket.
    - [SqlText]: the text of SQL statements, read back by a lexer and the grammars
      of the three SQL databases.
    - [Sql]: [services/{postgresql,mysql,sqlite,surrealdb}]: their statements, on
      [SqlText].
    - [Caches]: [services/{dashmap,moka,mini_moka}].
    - [KvRemote]: [services/{redis,etcd,cacache}].

    S3:

    - [S3Core]: [services/s3/src/core.rs]: every request, and what a server that
      follows the API reads from it.
    - [S3]: [services/s3/src/{error,writer,lister,deleter,copier,backend}.rs], on
      [S3Core], [Uploads], [Listers], [Deleters] and [Copiers].

    Making and calling operators:

    - [Futures]: [types/operator/operator_futures.rs], on [Operator].
    - [Config]: [raw/serde_util.rs], [Configurator::from_iter].
    - [Registry]: [types/operator/{uri,registry,builder}.rs], on [Config] and
      [Stack].

    ** How code becomes definitions

    A method with [&mut self] is a computation [M S E A] on the state record of
    its struct; what was assigned before an early return stays assigned.  [Result]
    is [outcome], which also has panics.  [async] functions are their sequential
    meaning; where the order of completion matters it is part of the history: in
    [Tasks] tasks finish at any time, in any order; in [Limits] tasks interleave
    step by step and may be cancelled.  A poll function takes the number of futures
    it finds ready.  Handles that share the state of their service work on pairs of
    both.  Clocks, timers and random numbers are arguments; [f64] is the binary64
    of SpecFloat.

    Traits are type classes, and what a component needs of an implementation is a
    class of laws ([WriteLog], [AppendLog], [DeleteLog], [Backon], [ObjectStore],
    [PartText]) or a relation on its states ([Lists], [Serves], [served]).  Crates
    and the operating system are classes too ([HybridCache], [GlobCrate],
    [HttpCrate], [Reqwest], [PercentEncoding], [FileSystem], the databases of the
    key-value services, [Socket], [ConnPool], [RateLimiter], [UrlParser], [S3Crates],
    [S3Xml], [S3Client]), with
    what their documentation promises as laws, and each has a concrete instance;
    a database of SQL is a function on the texts of statements, and its laws are
    about the statements these texts are read as by the grammar of [SqlText].  The
    accessor is the record [Access], and a layer is a function between accessors.  Callees
    that may answer differently each time ([aread], [alist], [astat]) are
    parameters of the call, so that a theorem about a sequence of calls quantifies
    over all their answers.

    Offsets and sizes are [Z] with the bounds of [u64] written out: [checked_*] and
    [saturating_*] as in the code, and [wrap64] for plain operators, which wrap
    around in a release build; [debug_assert!]s, which a release build does not
    run, are left out.  Lengths of things in memory are [nat].  A [str] is the list
    of its UTF-8 bytes.

    ** What the theorems show

    - Paths, ranges and URLs: normalizing yields normalized paths, relative and
      absolute paths, range headers, encoded paths and queries round-trip, bounds
      select the positions they say.
    - Buffers: every operation of [Buffer], [QueueBuf] and [FlexBuf] is the
      operation on the bytes it holds, for every division into parts.
    - Writing: what is acknowledged is handed on once and in order, in chunks of
      the promised size; multipart, block and position uploads complete with
      exactly the bytes written, whatever fails and is repeated; so do the sinks
      and the asynchronous writer, however they are polled.
    - Copying: a copy in parts names every byte of the source once, and when the
      service answers it comes to its end with the metadata of the service.
    - Concurrency: results come in the order of submission, and the number of
      tasks is bounded; behind the concurrency limit never more calls and handles
      than permits are in the service, and every task can come to its end.
    - Reading: streamed, chunked and fetched reads return exactly the requested
      bytes; the seekable reader is a cursor on them; the retry layer resumes a
      broken read at the right byte; an HTTP response is delivered whole or fails.
    - Listing: paging, prefix filter, one-level and recursive listing produce the
      entries they should, once each; so does listing from an index.
    - Deleting: a batch deleter that closes has deleted everything; so has a
      recursive delete simulated on a service that has none, and the deleter of the
      routing layer.
    - Layers: the completing layer passes no truncated read or write off as
      complete and keeps the writer's protocol; the correctness layer lets exactly
      the supported arguments through; the error context layer changes nothing
      callers depend on; a retried call makes the attempts it may; the tail-cut
      layer counts the samples of its window and keeps deadlines within bounds; the
      cache answers what the service would on every path that no bypassing call
      and no failed, oversized or versioned write has touched; the router sends a
      path to its first match.
    - The operator: paths are normalized and guarded before the accessor sees
      them; over the default layers and the memory service it is a map from paths
      to contents.
    - Services: memory implements a map; the file system publishes a file whole or
      not at all, reads the range of a file that was asked for and fails to read
      a directory; path caches resolve like a
      walk through the tree, and recent changes are read back.  The key-value
      services, PostgreSQL and MySQL (over a key column that compares bytes) have
      only the histories of a map from paths to bytes, memcached and redis those of a map that may forget, also when the
      database fails at any call; the in-process caches keep the metadata they
      were given; sqlite returns the bytes of a range.
    - S3: a server reads every request as it was meant, with its method, key,
      parameters and headers, for all keys, markers and tokens; an upload stores the data whose writes succeeded, its parts named by
      the numbers and ETags the server knows; listings in pages return every
      object, common prefix and version once, under the path that leads to it; a
      batch of deletions is reported target by target as the server answered.
    - Construction: a URI or scheme with options chooses the factory registered
      last and merges options by keys of any case; configurations are read field by
      field; a memory service opened this way is an empty map at the root it asked
      for; the builders of calls say the same as the records of options.
    - The small layers: overrides that parse apply to every capability and change
      those they name; reads under chaos and retry are exact or fail; the throttle
      charges every write its length; guessed types never replace given ones.
    - Multipart messages are read back by a decoder that follows RFC 2046, and
      batch responses are parsed as they were printed.

    Theorems whose names say what goes wrong state behaviour of the code that its
    documentation or its intent contradicts: [normalize_path_not_idempotent],
    [range_from_str_overflow], [buffer_empty_part_diverges],
    [chunks_vectored_past_end], [writer_zero_chunk_diverges],
    [tasks_exceed_concurrent], [flat_lister_error_loses_directory],
    [streaming_error_then_end], [chunked_sequential_error_skips],
    [chunked_zero_chunk_reads_nothing], [retried_marks_permanent],
    [retry_reader_panics_on_excess], [retry_at_end_panics],
    [error_context_zero_range_panics], [oneshot_retry_hides_failure],
    [multipart_abort_not_repeated], [copier_pending_looks_done],
    [async_write_empty_panics], [async_flush_stops_at_sink],
    [buffer_seek_cannot_rewind], [io_error_roundtrip],
    [delete_iter_keeps_object], [path_remove_keeps_below],
    [recent_same_instant_survives], [histogram_ignores_first_slice],
    [histogram_loses_window], [crossed_limits_panic], those of [Foyer] after
    [foyer_reads_current], [body_empty_frame_ends], [batch_body_keeps_break],
    [batch_body_cut_at_blank], [mixed_request_loses_query],
    [query_base_with_query], [fs_if_not_exists_overwrites],
    [fs_lists_backslash_elsewhere], [fs_dir_path_deletes_file],
    [kv_read_past_end_panics], [foundationdb_failure_not_found],
    [gridfs_failed_write_loses], [persy_overwrite_leaks],
    [memcached_key_length_wraps], [sqlite_open_range_wrong],
    [sqlite_stat_pattern], [postgresql_delete_unquoted],
    [mysql_collation_conflates],
    [surreal_failed_write_is_ok], [dashmap_read_past_end_panics],
    [redis_range_of_missing], [redis_empty_range_is_all], [throttle_reads_free],
    [chaos_percent_truncated], [s3_version_not_encoded], [s3_delete_errors_panic],
    [s3_versions_endless].

    ** Fuel

    Loops that are not structural take fuel and panic without it.  The theorems
    say how much is enough: one more than the number of entries, buffers, frames,
    pages or directories a loop visits, and [S (size buffer)] or
    [S (outstanding tasks)] where the code's own state bounds the loop.  Loops that
    wait for [k] more polls take [k + 2]; the operator over the default stack takes
    at least 4; loops over the components of a path and searches
    in a text take its length.  Loops the code never leaves are shown not to end
    for any fuel.

    ** Not modelled

    Services other than S3 that are clients of web services: what they do is build
    requests, sign them with a crate, and read answers in formats of the provider,
    which other crates decode.  The builder of the S3 service: credentials, the
    templates of endpoints, and the detection of regions.  Layers that only observe calls (metrics, tracing,
    logging).  The builders of the database services, which open connections from a
    configuration, except where they are short enough to matter.  Presigning, which
    returns a signed request; the blocking API, which runs the asynchronous one on a
    runtime; time, of a third-party crate; floats in configurations; bindings and
    integrations.  [str::to_lowercase] is a parameter, known for ASCII text. *)

From Stdlib Require Export Ascii.
From stdpp Require Export base gmap strings numbers list.
From stdpp Require Import options.

(** ** Outcomes: Rust's [Result] plus panics *)

(** What a call can do: return, return an error, or panic ([expect], [assert!],
    an out-of-bounds index, [unreachable!]). *)
Inductive outcome (E A : Type) : Type :=
  | Ok (a : A)
  | Err (e : E)
  | Panic.
Arguments Ok {E A} a.
Arguments Err {E A} e.
Arguments Panic {E A}.

#[export] Instance outcome_eq_dec {E A} `{EqDecision E, EqDecision A} :
  EqDecision (outcome E A).
Proof. solve_decision. Defined.

#[export] Instance outcome_ret {E} : MRet (outcome E) := fun A a => Ok a.
#[export] Instance outcome_bind {E} : MBind (outcome E) := fun A B f m =>
  match m with Ok a => f a | Err e => Err e | Panic => Panic end.
#[export] Instance outcome_fmap {E} : FMap (outcome E) := fun A B f m =>
  match m with Ok a => Ok (f a) | Err e => Err e | Panic => Panic end.

(** [Result::map_err]. *)
Definition map_err {E F A} (f : E -> F) (m : outcome E A) : outcome F A :=
  match m with Ok a => Ok a | Err e => Err (f e) | Panic => Panic end.

(** [Option::ok_or] and [Option::expect]. *)
Definition ok_or {E A} (e : E) (o : option A) : outcome E A :=
  match o with Some a => Ok a | None => Err e end.
Definition expect {E A} (o : option A) : outcome E A :=
  match o with Some a => Ok a | None => Panic end.

Definition is_ok {E A} (m : outcome E A) : bool :=
  match m with Ok _ => true | _ => false end.

(** ** State passing

    A method with [&mut self] is a function from the state to an outcome and
    the new state.  The state survives an error: what was assigned before the
    early return stays assigned. *)
Definition M (S E A : Type) : Type := S -> outcome E A * S.

#[export] Instance M_ret {S E} : MRet (M S E) := fun A a s => (Ok a, s).
#[export] Instance M_bind {S E} : MBind (M S E) := fun A B f m s =>
  match m s with
  | (Ok a, s') => f a s'
  | (Err e, s') => (Err e, s')
  | (Panic, s') => (Panic, s')
  end.

Definition get {S E} : M S E S := fun s => (Ok s, s).
Definition put {S E} (s : S) : M S E unit := fun _ => (Ok tt, s).
Definition modify {S E} (f : S -> S) : M S E unit := fun s => (Ok tt, f s).
Definition gets {S E A} (f : S -> A) : M S E A := fun s => (Ok (f s), s).
Definition throw {S E A} (e : E) : M S E A := fun s => (Err e, s).
Definition panic {S E A} : M S E A := fun s => (Panic, s).
Definition lift {S E A} (m : outcome E A) : M S E A := fun s => (m, s).

(** What a poll of a future or a stream returns. *)
Inductive Poll (A : Type) : Type := Pending | Ready (a : A).
Arguments Pending {A}.
Arguments Ready {A}.

(** Run a method of a field of the state: [self.field.method()]. *)
Definition zoom {S F E A} (getf : S -> F) (setf : F -> S -> S) (m : M F E A) : M S E A :=
  fun s => let '(r, f) := m (getf s) in (r, setf f s).

Declare Scope opendal_scope.
Delimit Scope opendal_scope with opendal.
Open Scope opendal_scope.

Notation "'assert!' b ; k" :=
  (if b then k else Panic)
  (at level 100, b at level 99, k at level 200, right associativity,
   only parsing) : opendal_scope.

(** ** Machine integers

    [u64] and [usize] offsets are [Z] with their bounds written out. *)
Section Integers.
  Local Open Scope Z_scope.

Definition u64_max : Z := 18446744073709551615.
Definition i64_max : Z := 9223372036854775807.
Definition is_u64 (n : Z) : Prop := 0 <= n <= u64_max.
#[global] Instance is_u64_dec n : Decision (is_u64 n).
Proof. unfold is_u64. apply _. Defined.

Definition checked_add (a b : Z) : option Z :=
  if bool_decide (a + b <= u64_max) then Some (a + b) else None.
Definition checked_sub (a b : Z) : option Z :=
  if bool_decide (b <= a) then Some (a - b) else None.
Definition checked_mul (a b : Z) : option Z :=
  if bool_decide (a * b <= u64_max) then Some (a * b) else None.
(** [a + b] of a release build wraps around. *)
Definition wrap64 (n : Z) : Z := n mod (u64_max + 1).
Definition saturating_add (a b : Z) : Z := Z.min (a + b) u64_max.
Definition saturating_sub (a b : Z) : Z := Z.max (a - b) 0.

Lemma wrap64_id n : is_u64 n -> wrap64 n = n.
Proof. unfold is_u64, wrap64. intros. apply Z.mod_small. lia. Qed.

Lemma checked_add_Some a b c :
  checked_add a b = Some c <-> c = a + b /\ a + b <= u64_max.
Proof. unfold checked_add. case_bool_decide; naive_solver. Qed.

Lemma checked_add_is a b : a + b <= u64_max -> checked_add a b = Some (a + b).
Proof. intros. by apply checked_add_Some. Qed.

Lemma checked_sub_Some a b c : checked_sub a b = Some c <-> c = a - b /\ b <= a.
Proof. unfold checked_sub. case_bool_decide; naive_solver. Qed.

Lemma checked_mul_Some a b c :
  checked_mul a b = Some c <-> c = a * b /\ a * b <= u64_max.
Proof. unfold checked_mul. case_bool_decide; naive_solver. Qed.

End Integers.

(** ** Byte strings

    A Rust [str] is its UTF-8 bytes.  The separators the code searches for are
    ASCII, so searching and splitting act on bytes; slicing checks the char
    boundary as the language does. *)
Abbreviation str := (list ascii).
Definition b (s : string) : str := String.list_ascii_of_string s.

Definition slash : ascii := "/"%char.

Definition starts_with (p s : str) : bool := bool_decide (p `prefix_of` s).
Definition ends_with (p s : str) : bool := bool_decide (p `suffix_of` s).

Definition strip_prefix (p s : str) : option str :=
  if starts_with p s then Some (drop (length p) s) else None.

(** UTF-8 continuation bytes are [0x80..0xBF]: bit 7 set, bit 6 clear. *)
Definition is_continuation (c : ascii) : bool :=
  match c with Ascii _ _ _ _ _ _ b6 b7 => b7 && negb b6 end.
Definition is_char_boundary (s : str) (i : nat) : bool :=
  if bool_decide (i = 0) then true else
  match s !! i with
  | Some c => negb (is_continuation c)
  | None => bool_decide (i = length s)
  end.
(** [&s[i..]] and [&s[..i]]. *)
Definition slice_from {E} (s : str) (i : nat) : outcome E str :=
  if is_char_boundary s i then Ok (drop i s) else Panic.
Definition slice_to {E} (s : str) (i : nat) : outcome E str :=
  if is_char_boundary s i then Ok (take i s) else Panic.

(** [s.split(c)]: always at least one piece. *)
Fixpoint split (c : ascii) (s : str) : list str :=
  match s with
  | [] => [[]]
  | x :: s' =>
      if decide (x = c) then [] :: split c s'
      else match split c s' with
           | [] => [[x]]
           | w :: ws => (x :: w) :: ws
           end
  end.

(** [pieces.join(sep)]. *)
Fixpoint join (sep : str) (ws : list str) : str :=
  match ws with
  | [] => []
  | [w] => w
  | w :: ws' => w ++ sep ++ join sep ws'
  end.

(** [s.find(c)] and [s.rfind(c)]. *)
Fixpoint find_char (c : ascii) (s : str) : option nat :=
  match s with
  | [] => None
  | x :: s' => if decide (x = c) then Some 0 else S <$> find_char c s'
  end.
Fixpoint rfind_char (c : ascii) (s : str) : option nat :=
  match s with
  | [] => None
  | x :: s' =>
      match rfind_char c s' with
      | Some i => Some (S i)
      | None => if decide (x = c) then Some 0 else None
      end
  end.

(** Generic list facts used by several components. *)
Section Lists.
  Context {A : Type}.
  Implicit Types l k : list A.

Lemma last_snoc_cases l : l = [] \/ exists l' x, l = l' ++ [x].
Proof. destruct l as [|x l' _] using rev_ind; eauto. Qed.

Lemma take_drop_app (n : nat) l : take n l ++ drop n l = l.
Proof. apply take_drop. Qed.

Lemma drop_app_exact l k : drop (length l) (l ++ k) = k.
Proof. by rewrite drop_app_length. Qed.

Lemma filter_none (P : A -> Prop) `{forall x, Decision (P x)} l : Forall (fun x => ~ P x) l -> filter P l = [].
Proof. induction 1; [done|]. by rewrite filter_cons_False. Qed.

Lemma filter_all (P : A -> Prop) `{forall x, Decision (P x)} l : Forall P l -> filter P l = l.
Proof. induction 1 as [|? ? ? ? IH]; [done|]. rewrite filter_cons_True by done. by rewrite IH. Qed.

Lemma suffix_snoc_inv (x y : A) l k : l ++ [x] `suffix_of` k ++ [y] -> x = y.
Proof. intros [z Hz]. rewrite app_assoc in Hz. by apply app_inj_tail in Hz as [_ ->]. Qed.

End Lists.

Lemma starts_with_true p s : starts_with p s = true <-> exists k, s = p ++ k.
Proof. unfold starts_with. rewrite bool_decide_eq_true. done. Qed.

Lemma starts_with_app p k : starts_with p (p ++ k) = true.
Proof. apply starts_with_true. by exists k. Qed.

Lemma ends_with_true p s : ends_with p s = true <-> exists k, s = k ++ p.
Proof. unfold ends_with. rewrite bool_decide_eq_true. done. Qed.

Lemma ends_with_app p k : ends_with p (k ++ p) = true.
Proof. apply ends_with_true. by exists k. Qed.

Lemma ends_with_snoc (c x : ascii) s :
  ends_with [c] (s ++ [x]) = bool_decide (x = c).
Proof.
  unfold ends_with. apply bool_decide_ext. split.
  - intros [k Hk]. by apply app_inj_tail in Hk as [_ ->].
  - intros ->. by exists s.
Qed.

Lemma starts_with_cons (c x : ascii) s :
  starts_with [c] (x :: s) = bool_decide (x = c).
Proof.
  unfold starts_with. apply bool_decide_ext. split.
  - intros [k Hk]. by simplify_eq/=.
  - intros ->. by exists s.
Qed.

(** ** Splitting and joining *)

Lemma split_not_nil c s : split c s <> [].
Proof. destruct s as [|x s]; simpl; [done|]. by repeat case_match. Qed.

Lemma split_cons_ne c x s :
  x <> c -> exists w ws, split c s = w :: ws /\ split c (x :: s) = (x :: w) :: ws.
Proof.
  intros Hx. simpl. rewrite decide_False by done.
  destruct (split c s) as [|w ws] eqn:E; [by apply split_not_nil in E|]. eauto.
Qed.

Lemma split_Forall c s : Forall (fun w => c ∉ w) (split c s).
Proof.
  induction s as [|x s IH]; simpl.
  - repeat constructor. set_solver.
  - case_decide as Hx.
    + constructor; [set_solver | done].
    + destruct (split c s); inversion IH; subst; repeat constructor; set_solver.
Qed.

Lemma split_no_sep c w : c ∉ w -> split c w = [w].
Proof.
  induction w as [|x w IH]; intros Hc; [done|]. simpl.
  apply not_elem_of_cons in Hc as [Hx Hw].
  rewrite decide_False by congruence. by rewrite IH.
Qed.

Lemma split_app_sep c w s : c ∉ w -> split c (w ++ c :: s) = w :: split c s.
Proof.
  induction w as [|x w IH]; intros Hc; simpl.
  - by rewrite decide_True.
  - apply not_elem_of_cons in Hc as [Hx Hw].
    rewrite decide_False by congruence. by rewrite IH.
Qed.

(** Joining pieces without the separator and splitting again is the identity. *)
Lemma split_join c ws :
  ws <> [] -> Forall (fun w => c ∉ w) ws -> split c (join [c] ws) = ws.
Proof.
  induction ws as [|w ws IH]; intros Hne Hall; [done|].
  inversion Hall; subst. destruct ws as [|w' ws].
  - by apply split_no_sep.
  - change (join [c] (w :: w' :: ws)) with (w ++ c :: join [c] (w' :: ws)).
    rewrite split_app_sep by done. by rewrite IH.
Qed.

(** Joining what a split returns gives the string back. *)
Lemma join_split c s : join [c] (split c s) = s.
Proof.
  induction s as [|x s IH]; [done|]. simpl. case_decide as Hx; subst.
  - destruct (split c s) eqn:E; [by apply split_not_nil in E|]. simpl in *. by rewrite IH.
  - destruct (split c s) as [|w ws] eqn:E; [by apply split_not_nil in E|].
    destruct ws; simpl in *; by rewrite <- IH.
Qed.

Lemma split_snoc_sep c s : split c (s ++ [c]) = split c s ++ [[]].
Proof.
  induction s as [|x s IH]; simpl; [by rewrite decide_True|].
  case_decide; [by rewrite IH|]. rewrite IH.
  destruct (split c s) eqn:E; [by apply split_not_nil in E|]. done.
Qed.

Lemma rfind_char_None c s : rfind_char c s = None <-> c ∉ s.
Proof.
  induction s as [|x s IH]; simpl; [set_solver|].
  destruct (rfind_char c s); [|case_decide]; set_solver.
Qed.

Lemma rfind_char_Some c s i :
  rfind_char c s = Some i <-> s = take i s ++ c :: drop (S i) s /\ c ∉ drop (S i) s.
Proof.
  revert i; induction s as [|x s IH]; intros i; simpl.
  - rewrite take_nil. split; [done | by intros []].
  - destruct (rfind_char c s) as [j|] eqn:Hj.
    + destruct (proj1 (IH j) eq_refl) as [Hs Hn]. split.
      * intros ?; simplify_eq/=. split; [by f_equal | done].
      * intros [Hi Hni]. destruct i as [|i]; simpl in *.
        { rewrite drop_0 in *. simplify_eq. exfalso. apply Hni.
          rewrite Hs. set_solver. }
        { injection Hi as Hi. pose proof (proj2 (IH i) (conj Hi Hni)). congruence. }
    + apply rfind_char_None in Hj. case_decide as Hx; subst.
      * split; [by intros [= <-]|]. intros [Hi Hni]. destruct i as [|i]; [done|].
        simpl in *. exfalso. apply Hj. simplify_eq. rewrite Hi. set_solver.
      * split; [done|]. intros [Hi Hni]. destruct i as [|i]; simpl in *.
        { by simplify_eq. }
        { simplify_eq. exfalso. apply Hj. rewrite Hi. set_solver. }
Qed.

Lemma rfind_char_app c s w : c ∉ w -> rfind_char c (s ++ c :: w) = Some (length s).
Proof.
  intros Hc. apply rfind_char_Some. rewrite take_app_length.
  replace (S (length s)) with (length (s ++ [c])) by (rewrite length_app; simpl; lia).
  replace (s ++ c :: w) with ((s ++ [c]) ++ w) by (by rewrite <- app_assoc).
  by rewrite drop_app_length, <- app_assoc.
Qed.

Lemma join_snoc sep ws w :
  ws <> [] -> join sep (ws ++ [w]) = join sep ws ++ sep ++ w.
Proof.
  induction ws as [|v [|v' ws] IH]; intros Hne; [done | done |].
  change (v ++ sep ++ join sep ((v' :: ws) ++ [w]) = (v ++ sep ++ join sep (v' :: ws)) ++ sep ++ w).
  rewrite IH by done. by rewrite <- !app_assoc.
Qed.

(** ** Decimal numbers: [u64]'s [Display] and [FromStr] *)
Section Decimal.
  Local Open Scope Z_scope.

Definition digit (d : Z) : ascii := ascii_of_N (Z.to_N (48 + d)).
Definition digit_value (c : ascii) : option Z :=
  let d := Z.of_N (N_of_ascii c) - 48 in
  if bool_decide (0 <= d < 10) then Some d else None.

(** Least significant digit first; twenty digits hold every [u64]. *)
Fixpoint dec_rev (fuel : nat) (n : Z) : str :=
  match fuel with
  | O => []
  | S f => digit (n mod 10) :: (if bool_decide (n < 10) then [] else dec_rev f (n / 10))
  end.
Definition show_u64 (n : Z) : str := rev (dec_rev 20 n).

Definition parse_step (acc : option Z) (c : ascii) : option Z :=
  a ← acc; d ← digit_value c; m ← checked_mul a 10; checked_add m d.

(** [str::parse::<u64>]: an optional [+], then at least one digit, no overflow. *)
Definition parse_u64 (s : str) : option Z :=
  let digits := match s with "+"%char :: s' => s' | _ => s end in
  match digits with
  | [] => None
  | _ => fold_left parse_step digits (Some 0)
  end.

Lemma digit_value_digit d : 0 <= d < 10 -> digit_value (digit d) = Some d.
Proof.
  intros Hd. unfold digit_value, digit. rewrite N_ascii_embedding by lia.
  rewrite bool_decide_eq_true_2 by lia. f_equal. lia.
Qed.

(** A digit is none of the separators of the headers that carry numbers. *)
Lemma digit_not_sep d c :
  0 <= d < 10 -> digit_value c = None -> digit d <> c.
Proof. intros Hd Hc <-. by rewrite digit_value_digit in Hc. Qed.

Lemma parse_dec_rev fuel n :
  (0 < fuel)%nat -> 0 <= n < 10 ^ Z.of_nat fuel -> n <= u64_max ->
  fold_left parse_step (rev (dec_rev fuel n)) (Some 0) = Some n.
Proof.
  revert n. induction fuel as [|f IH]; intros n Hf Hn Hmax; [lia|].
  rewrite Nat2Z.inj_succ, Z.pow_succ_r in Hn by lia.
  assert (0 <= n mod 10 < 10) by (apply Z.mod_pos_bound; lia).
  pose proof (Z.div_mod n 10 ltac:(lia)) as Hdm.
  cbn [dec_rev rev]. rewrite fold_left_app. cbn [fold_left].
  case_bool_decide as Hlt.
  - cbn [rev fold_left]. unfold parse_step; simpl.
    rewrite digit_value_digit by done. simpl.
    assert (n mod 10 = n) as -> by (apply Z.mod_small; lia).
    apply checked_add_Some. lia.
  - rewrite IH.
    + unfold parse_step; simpl. rewrite digit_value_digit by done. simpl.
      destruct (checked_mul (n / 10) 10) as [m|] eqn:E.
      * apply checked_mul_Some in E as [-> ?]. simpl. apply checked_add_Some. lia.
      * unfold checked_mul in E. case_bool_decide; [done|]. lia.
    + destruct f; [simpl in Hn; lia | lia].
    + split; [apply Z.div_pos; lia | apply Z.div_lt_upper_bound; lia].
    + lia.
Qed.

Lemma dec_rev_digits fuel n c :
  digit_value c = None -> c ∉ dec_rev fuel n.
Proof.
  intros Hc. revert n; induction fuel as [|f IH]; intros n; simpl; [set_solver|].
  apply not_elem_of_cons; split.
  - intros ->. apply (digit_not_sep (n mod 10) _ ltac:(apply Z.mod_pos_bound; lia) Hc). done.
  - case_bool_decide; [set_solver | apply IH].
Qed.

Lemma show_u64_no_sep n c : digit_value c = None -> c ∉ show_u64 n.
Proof.
  intros Hc. unfold show_u64.
  rewrite list_elem_of_In, <- in_rev, <- list_elem_of_In. by apply dec_rev_digits.
Qed.

Lemma show_u64_not_nil n : show_u64 n <> [].
Proof.
  unfold show_u64. intros H. apply (f_equal length) in H.
  rewrite length_rev in H. cbn [dec_rev length] in H. lia.
Qed.

(** Printing a [u64] and parsing it back. *)
Lemma parse_show_u64 n : is_u64 n -> parse_u64 (show_u64 n) = Some n.
Proof.
  intros [H0 Hmax]. unfold parse_u64.
  assert (match show_u64 n with "+"%char :: s' => s' | _ => show_u64 n end = show_u64 n) as ->.
  { pose proof (show_u64_no_sep n "+"%char eq_refl) as Hp.
    destruct (show_u64 n) as [|c s]; [done|]. apply not_elem_of_cons in Hp as [Hp _].
    by repeat case_match. }
  destruct (show_u64 n) eqn:E; [by apply show_u64_not_nil in E|]. rewrite <- E.
  apply parse_dec_rev; [lia | | done].
  unfold u64_max in Hmax. change (10 ^ Z.of_nat 20) with 100000000000000000000. lia.
Qed.

End Decimal.

#[global] Arguments show_u64 : simpl never.
#[global] Arguments parse_u64 : simpl never.

(** ** Automation *)

(** Simplify without unfolding string literals. *)
Ltac ssimpl := cbn -[app b] in *.

Create HintDb opendal.
Create Rewrite HintDb opendal.
#[export] Hint Resolve starts_with_app ends_with_app show_u64_not_nil : opendal.
#[export] Hint Rewrite @drop_app_exact @length_app @app_nil_r : opendal.

(** Destruct the scrutinees of the goal's matches and clean up. *)
Ltac cases := repeat (case_match || case_decide || case_bool_decide); simplify_eq/=.

(** Solve a goal about a definition by unfolding it and case analysis. *)
Tactic Notation "crush" := cases; try done; try lia; eauto with opendal.

(** ** [String]'s order *)

(** Byte-wise lexicographic, as [str]'s [Ord]. *)
Fixpoint str_le (s t : str) : bool :=
  match s, t with
  | [], _ => true
  | _ :: _, [] => false
  | c :: s', d :: t' =>
      if decide (c = d) then str_le s' t' else bool_decide (N_of_ascii c < N_of_ascii d)%N
  end.
Definition str_leP (s t : str) : Prop := str_le s t = true.
#[export] Instance str_leP_dec : RelDecision str_leP.
Proof. intros s t. unfold str_leP. apply _. Defined.

Lemma N_of_ascii_inj c d : N_of_ascii c = N_of_ascii d -> c = d.
Proof. intros E. by rewrite <- (ascii_N_embedding c), E, ascii_N_embedding. Qed.

#[export] Instance str_leP_trans : Transitive str_leP.
Proof.
  unfold str_leP. intros s t u. revert t u. induction s as [|c s IH]; intros t u; [done|].
  destruct t as [|d t]; [done|]. destruct u as [|e u]; [by simpl|]. simpl.
  repeat case_decide; simplify_eq; try done; [apply IH | |]; rewrite ?bool_decide_eq_true; try lia.
Qed.
#[export] Instance str_leP_total : Total str_leP.
Proof.
  unfold str_leP. intros s. induction s as [|c s IH]; intros t; [by left|].
  destruct t as [|d t]; [by right|]. simpl. destruct (decide (c = d)) as [->|Hcd].
  - rewrite decide_True by done. apply IH.
  - rewrite decide_False by done. rewrite !bool_decide_eq_true.
    assert (N_of_ascii c <> N_of_ascii d) by (intros E; by apply Hcd, N_of_ascii_inj). lia.
Qed.

(** A prefix is before everything that starts with it, and what lies between
    them starts with it too. *)
Lemma prefix_le p k : starts_with p k = true -> str_le p k = true.
Proof.
  intros [q ->]%starts_with_true. induction p as [|c p IH]; [done|]. simpl. by rewrite decide_True.
Qed.
Lemma prefix_between p a k :
  str_le p a = true -> str_le a k = true -> starts_with p k = true -> starts_with p a = true.
Proof.
  intros H1 H2 [q ->]%starts_with_true. apply starts_with_true. revert a H1 H2.
  induction p as [|c p IH]; intros a H1 H2; [by exists a|].
  destruct a as [|d a]; [done|]. simpl in *. destruct (decide (c = d)) as [->|Hcd].
  - rewrite decide_True in H2 by done. destruct (IH a H1 H2) as [k ->]. by exists k.
  - rewrite decide_False in H2 by done. rewrite bool_decide_eq_true in *. lia.
Qed.
