(* ===== verification/Errors.v ===== *)
(** * Errors ([types/error.rs])

    [ErrorKind], [ErrorStatus] and [Error] with its builders and its [Display],
    and the [Result] type every other component returns.  The anyhow source is
    kept as its printed form; the backtrace, which only [Debug] reads, is left
    out. *)

From S2P Require Import Prelude.
From stdpp Require Import options.

Inductive ErrorKind : Type :=
  | Unexpected
  | Unsupported
  | ConfigInvalid
  | NotFound
  | PermissionDenied
  | IsADirectory
  | NotADirectory
  | AlreadyExists
  | RateLimited
  | IsSameFile
  | ConditionNotMatch
  | RangeNotSatisfied.

#[export] Instance ErrorKind_eq_dec : EqDecision ErrorKind.
Proof. solve_decision. Defined.

Inductive ErrorStatus : Type := Permanent | Temporary | Persistent.

#[export] Instance ErrorStatus_eq_dec : EqDecision ErrorStatus.
Proof. solve_decision. Defined.

(** [impl From<ErrorKind> for &'static str], also what [Display] prints. *)
Definition into_static (v : ErrorKind) : str :=
  match v with
  | Unexpected => b "Unexpected"
  | Unsupported => b "Unsupported"
  | ConfigInvalid => b "ConfigInvalid"
  | NotFound => b "NotFound"
  | PermissionDenied => b "PermissionDenied"
  | IsADirectory => b "IsADirectory"
  | NotADirectory => b "NotADirectory"
  | AlreadyExists => b "AlreadyExists"
  | RateLimited => b "RateLimited"
  | IsSameFile => b "IsSameFile"
  | ConditionNotMatch => b "ConditionNotMatch"
  | RangeNotSatisfied => b "RangeNotSatisfied"
  end.

Definition show_status (s : ErrorStatus) : str :=
  match s with
  | Permanent => b "permanent"
  | Temporary => b "temporary"
  | Persistent => b "persistent"
  end.

Record Error : Type := mkError {
  kind : ErrorKind;
  message : str;
  status : ErrorStatus;
  operation : str;
  context : list (str * str);
  source : option str;
}.

#[export] Instance Error_eq_dec : EqDecision Error.
Proof. solve_decision. Defined.

(** [Result<T>], with panics. *)
Abbreviation result := (outcome Error).

Definition error (k : ErrorKind) (msg : string) : Error :=
  {| kind := k; message := b msg; status := Permanent; operation := [];
     context := []; source := None |}.

Definition with_operation (op : str) (e : Error) : Error :=
  {| kind := kind e; message := message e; status := status e;
     operation := op;
     context := if bool_decide (operation e = []) then context e
                else context e ++ [(b "called", operation e)];
     source := source e |}.

Definition with_context (key value : str) (e : Error) : Error :=
  {| kind := kind e; message := message e; status := status e;
     operation := operation e; context := context e ++ [(key, value)];
     source := source e |}.

Definition set_source (src : str) (e : Error) : Error :=
  {| kind := kind e; message := message e; status := status e;
     operation := operation e; context := context e; source := Some src |}.

Definition set_status (s : ErrorStatus) (e : Error) : Error :=
  {| kind := kind e; message := message e; status := s;
     operation := operation e; context := context e; source := source e |}.

Definition set_permanent : Error -> Error := set_status Permanent.
Definition set_temporary : Error -> Error := set_status Temporary.
Definition set_persistent : Error -> Error := set_status Persistent.
Definition with_permanent (p : bool) (e : Error) : Error := if p then set_permanent e else e.
Definition with_temporary (p : bool) (e : Error) : Error := if p then set_temporary e else e.
Definition with_persistent (p : bool) (e : Error) : Error := if p then set_persistent e else e.

Definition is_permanent (e : Error) : bool := bool_decide (status e = Permanent).
Definition is_temporary (e : Error) : bool := bool_decide (status e = Temporary).
Definition is_persistent (e : Error) : bool := bool_decide (status e = Persistent).

(** [impl Display for Error]. *)
Definition show_error (e : Error) : str :=
  into_static (kind e) ++ b " (" ++ show_status (status e) ++ b ") at " ++ operation e ++
  (if bool_decide (context e = []) then []
   else b ", context: { " ++
        join (b ", ") (map (fun '(k, v) => k ++ b ": " ++ v) (context e)) ++ b " }") ++
  (if bool_decide (message e = []) then [] else b " => " ++ message e) ++
  match source e with None => [] | Some s => b ", source: " ++ s end.

(** ** [raw/std_io_util.rs] *)

(** The [std::io::ErrorKind]s the code names or builds; any other is [IoOther]. *)
Inductive IoErrorKind : Type :=
  | IoNotFound | IoPermissionDenied | IoAlreadyExists | IoUnsupported | IoInterrupted | IoUnexpectedEof
  | IoTimedOut | IoWouldBlock | IoInvalidInput | IoNotADirectory | IoOther.

#[export] Instance IoErrorKind_eq_dec : EqDecision IoErrorKind.
Proof. solve_decision. Defined.

(** Its [Display], of the standard library. *)
Definition show_io_kind (k : IoErrorKind) : string :=
  match k with
  | IoNotFound => "entity not found"
  | IoPermissionDenied => "permission denied"
  | IoAlreadyExists => "entity already exists"
  | IoUnsupported => "unsupported"
  | IoInterrupted => "operation interrupted"
  | IoUnexpectedEof => "unexpected end of file"
  | IoTimedOut => "timed out"
  | IoWouldBlock => "operation would block"
  | IoInvalidInput => "invalid input parameter"
  | IoNotADirectory => "not a directory"
  | IoOther => "other error"
  end%string.

(** [io::Error::new(kind, payload)]: the payload is one of ours or a message. *)
Record IoError : Type := mkIoError { io_kind : IoErrorKind; io_payload : Error + str }.
Definition show_io_error (e : IoError) : str :=
  match io_payload e with inl e => show_error e | inr msg => msg end.

Definition new_std_io_error (err : IoError) : Error :=
  let '(k, retryable) := match io_kind err with
    | IoNotFound => (NotFound, false)
    | IoPermissionDenied => (PermissionDenied, false)
    | IoAlreadyExists => (AlreadyExists, false)
    | IoUnsupported => (Unsupported, false)
    | IoInterrupted | IoUnexpectedEof | IoTimedOut | IoWouldBlock => (Unexpected, true)
    | _ => (Unexpected, true)
    end in
  let e := set_source (show_io_error err) (error k (show_io_kind (io_kind err))) in
  if retryable then set_temporary e else e.

Definition format_std_io_error (err : Error) : IoError :=
  let k := match kind err with
           | NotFound => IoNotFound
           | PermissionDenied => IoPermissionDenied
           | _ => IoInterrupted
           end in
  mkIoError k (inl err).

(** An error that crosses the [std::io] traits and comes back keeps its kind only
    when it is one of the two that have a counterpart; every other one comes
    back unexpected and temporary, also when it was permanent. *)
Theorem io_error_roundtrip e :
  let e' := new_std_io_error (format_std_io_error e) in
  if bool_decide (kind e = NotFound \/ kind e = PermissionDenied)
  then kind e' = kind e /\ is_permanent e' = true
  else kind e' = Unexpected /\ is_temporary e' = true.
Proof. destruct e as [k m s o c src]. by destruct k. Qed.

(** The operations an error went through, outermost first: the current one and
    the ones [with_operation] pushed into the context under [called]. *)
Definition call_chain (e : Error) : list str :=
  operation e ::
  reverse (snd <$> filter (fun kv => kv.1 = b "called") (context e)).

(** Exactly one of the three status predicates holds. *)
Lemma status_exclusive e :
  (is_permanent e, is_temporary e, is_persistent e) =
  match status e with
  | Permanent => (true, false, false)
  | Temporary => (false, true, false)
  | Persistent => (false, false, true)
  end.
Proof. unfold is_permanent, is_temporary, is_persistent. by destruct (status e). Qed.

Lemma into_static_inj : Inj (=) (=) into_static.
Proof. intros [] [] H; by vm_compute in H. Qed.

(** Wrapping an error never changes what callers branch on. *)
Lemma with_operation_kind op e :
  kind (with_operation op e) = kind e /\ status (with_operation op e) = status e.
Proof. done. Qed.

(** An error that passes through a list of layers, each adding its operation,
    records all of them, outermost first. *)
Lemma with_operation_chain op e :
  operation e <> [] -> call_chain (with_operation op e) = op :: call_chain e.
Proof.
  intros Hop. unfold call_chain, with_operation; simpl.
  rewrite bool_decide_eq_false_2 by done.
  rewrite list.filter_app, fmap_app, reverse_app. done.
Qed.

#[export] Hint Rewrite @with_operation_chain using done : opendal.
