(* ===== verification/Path.v ===== *)
(** * Paths ([raw/path.rs], [types/mode.rs])

    Normalisation of paths and roots, absolute and relative paths, parent and
    basename, and [EntryMode].  The functions are those of a release build:
    [debug_assert!] is not executed, and its condition is a hypothesis of the
    theorem that needs it. *)

From S2P Require Import Prelude Errors.
From stdpp Require Import options.

(** ** [EntryMode] *)

Inductive EntryMode : Type := FILE | DIR | Unknown.

#[export] Instance EntryMode_eq_dec : EqDecision EntryMode.
Proof. solve_decision. Defined.

Definition is_file (m : EntryMode) : bool := bool_decide (m = FILE).
Definition is_dir (m : EntryMode) : bool := bool_decide (m = DIR).
Definition from_path (path : str) : EntryMode :=
  if ends_with [slash] path then DIR else FILE.
Definition show_mode (m : EntryMode) : str :=
  match m with FILE => b "file" | DIR => b "dir" | Unknown => b "unknown" end.

(** ** [str::trim]: the UTF-8 encodings of Unicode's [White_Space] *)

Definition white_space : list str :=
  map (map ascii_of_N)
    [[9]; [10]; [11]; [12]; [13]; [32]; [0xC2; 0x85]; [0xC2; 0xA0]; [0xE1; 0x9A; 0x80];
     [0xE2; 0x80; 0x80]; [0xE2; 0x80; 0x81]; [0xE2; 0x80; 0x82]; [0xE2; 0x80; 0x83];
     [0xE2; 0x80; 0x84]; [0xE2; 0x80; 0x85]; [0xE2; 0x80; 0x86]; [0xE2; 0x80; 0x87];
     [0xE2; 0x80; 0x88]; [0xE2; 0x80; 0x89]; [0xE2; 0x80; 0x8A]; [0xE2; 0x80; 0xA8];
     [0xE2; 0x80; 0xA9]; [0xE2; 0x80; 0xAF]; [0xE2; 0x81; 0x9F]; [0xE3; 0x80; 0x80]]%N.

Fixpoint strip_any (ps : list str) (s : str) : option str :=
  match ps with
  | [] => None
  | p :: ps' => match strip_prefix p s with Some r => Some r | None => strip_any ps' s end
  end.

(** Every step removes at least one byte, so the length is enough fuel. *)
Fixpoint trim_with (ps : list str) (fuel : nat) (s : str) : str :=
  match fuel with
  | O => s
  | S f => match strip_any ps s with Some r => trim_with ps f r | None => s end
  end.
Definition trim_start (s : str) : str := trim_with white_space (length s) s.
Definition trim_end (s : str) : str :=
  rev (trim_with (map (@rev _) white_space) (length s) (rev s)).
Definition trim (s : str) : str := trim_end (trim_start s).

(** [trim_start_matches('/')]. *)
Fixpoint trim_slashes (s : str) : str :=
  match s with
  | x :: s' => if decide (x = slash) then trim_slashes s' else s
  | [] => []
  end.

(** ** The path functions *)

Definition build_abs_path (root path : str) : result str :=
  p ← slice_from root 1;
  if bool_decide (path = [slash]) then Ok p else Ok (p ++ path).

Definition build_rooted_abs_path (root path : str) : str :=
  if bool_decide (path = [slash]) then root else root ++ path.

Definition build_rel_path (root path : str) : result str :=
  if starts_with [slash] path then slice_from path (length root)
  else slice_from path (length root - 1).

(** [.split('/').filter(|v| !v.is_empty()).collect().join("/")]. *)
Definition components (path : str) : list str :=
  filter (fun v => v <> []) (split slash path).
Definition squeeze (path : str) : str := join [slash] (components path).

Definition normalize_path (path : str) : str :=
  let path := trim_slashes (trim path) in
  if bool_decide (path = []) then [slash]
  else
    let has_trailing := ends_with [slash] path in
    let p := squeeze path in
    if has_trailing then p ++ [slash] else p.

Definition normalize_root (v : str) : str :=
  let v := squeeze v in
  let v := if starts_with [slash] v then v else slash :: v in
  if ends_with [slash] v then v else v ++ [slash].

(** [path] ends with ['/'] where the last byte is cut, so the cut is on a char
    boundary, and so is every index after a ['/']. *)
Definition get_basename (path : str) : str :=
  if bool_decide (path = [slash]) then [slash]
  else if negb (ends_with [slash] path) then default [] (last (split slash path))
  else match S <$> rfind_char slash (take (length path - 1) path) with
       | Some v => drop v path
       | None => path
       end.

Definition get_parent (path : str) : str :=
  if bool_decide (path = [slash]) then [slash]
  else if negb (ends_with [slash] path) then
    match rfind_char slash path with
    | Some v => take (v + 1) path
    | None => [slash]
    end
  else match S <$> rfind_char slash (take (length path - 1) path) with
       | Some v => take v path
       | None => [slash]
       end.

Definition RANDOM_TMP_PATH_POSTFIX_LENGTH : nat := 8.
Definition CHARS : str := b "ABCDEFGHIJKLMNOPQRSTUVWXYZabcdefghijklmnopqrstuvwxyz0123456789".

(** [random] is the sequence of values the hashers of [RandomState] return. *)
Definition build_tmp_path_of (random : nat -> N) (path : str) : str :=
  get_basename path ++ b "." ++
  map (fun i => default slash (CHARS !! N.to_nat (random i mod N.of_nat (length CHARS))))
      (seq 0 RANDOM_TMP_PATH_POSTFIX_LENGTH).

Definition validate_path (path : str) (mode : EntryMode) : bool :=
  match mode with
  | FILE => negb (ends_with [slash] path)
  | DIR => ends_with [slash] path
  | Unknown => false
  end.

(** [trim_end_matches('/')], for the services that use it. *)
Definition trim_end_slashes (s : str) : str := rev (trim_slashes (rev s)).

(** ** What the results look like *)

(** Non-empty path components without separators. *)
Definition component (w : str) : Prop := w <> [] /\ slash ∉ w.

Inductive normalized : str -> Prop :=
  | norm_root : normalized [slash]
  | norm_file ws : ws <> [] -> Forall component ws -> normalized (join [slash] ws)
  | norm_dir ws : ws <> [] -> Forall component ws -> normalized (join [slash] ws ++ [slash]).

Inductive normalized_root : str -> Prop :=
  | root_top : normalized_root [slash]
  | root_dir ws :
      ws <> [] -> Forall component ws -> normalized_root (slash :: join [slash] ws ++ [slash]).

(** [spells ws s]: read from the left, [s] is the components [ws], each ended by
    a slash or by the end of the string, with any number of slashes around
    them.  It does not mention the functions of the code. *)
Inductive spells : list str -> str -> Prop :=
  | spells_end : spells [] []
  | spells_slash ws s : spells ws s -> spells ws (slash :: s)
  | spells_component w ws s :
      component w -> s = [] \/ starts_with [slash] s = true -> spells ws s ->
      spells (w :: ws) (w ++ s).

(** The first byte of a valid UTF-8 string starts a character. *)
Definition starts_char (s : str) : Prop :=
  match s with [] => True | c :: _ => is_continuation c = false end.

(** ** Lemmas on the pieces *)

Lemma components_ok path : Forall component (components path).
Proof.
  unfold components. pose proof (split_Forall slash path) as H.
  induction H as [|w ws Hw _ IH]; [done|]. rewrite filter_cons.
  case_decide; [constructor; [by split | done] | done].
Qed.

Lemma filter_components ws : Forall component ws -> filter (fun v => v <> []) ws = ws.
Proof.
  induction 1 as [|w ws [Hw _] _ IH]; [done|]. by rewrite filter_cons_True, IH.
Qed.

Lemma component_no_slash ws : Forall component ws -> Forall (fun w => slash ∉ w) ws.
Proof. intros H. eapply Forall_impl; [exact H|]. by intros w []. Qed.

Lemma join_head ws :
  ws <> [] -> Forall component ws ->
  exists x s, join [slash] ws = x :: s /\ x <> slash.
Proof.
  destruct ws as [|w ws]; [done|]. intros _ Hall.
  inversion Hall as [|? ? [Hw Hs] _]; subst. destruct w as [|x w]; [done|].
  apply not_elem_of_cons in Hs as [Hx _].
  destruct ws; [by exists x, w | by exists x, (w ++ slash :: join [slash] (l :: ws))].
Qed.

Lemma component_snoc w : component w -> exists w' x, w = w' ++ [x] /\ x <> slash.
Proof.
  intros [Hne Hs]. destruct (last_snoc_cases w) as [->|(w' & x & ->)]; [done|].
  exists w', x. set_solver.
Qed.

Lemma join_last ws :
  ws <> [] -> Forall component ws ->
  exists s x, join [slash] ws = s ++ [x] /\ x <> slash.
Proof.
  intros Hne Hall. destruct (last_snoc_cases ws) as [->|(ws' & w & ->)]; [done|].
  apply Forall_app in Hall as [_ Hw]. inversion Hw as [|? ? Hc _]; subst.
  destruct (component_snoc w Hc) as (w' & x & -> & Hx).
  destruct ws' as [|v ws'].
  - by exists w', x.
  - rewrite join_snoc by done. eexists (_ ++ [slash] ++ w'), x.
    by rewrite !app_assoc.
Qed.

Lemma trim_slashes_head s :
  trim_slashes s = [] \/ exists x s', trim_slashes s = x :: s' /\ x <> slash.
Proof. induction s as [|x s IH]; simpl; [by left|]. case_decide; [done|]. right. eauto. Qed.

Lemma components_cons x s : x <> slash -> components (x :: s) <> [].
Proof.
  intros Hx. unfold components.
  destruct (split_cons_ne slash x s Hx) as (w & ws & _ & ->).
  by rewrite filter_cons_True.
Qed.

Lemma components_join ws :
  ws <> [] -> Forall component ws -> components (join [slash] ws) = ws.
Proof.
  intros Hne Hall. unfold components.
  rewrite split_join by auto using component_no_slash. by apply filter_components.
Qed.

Lemma components_join_slash ws :
  ws <> [] -> Forall component ws -> components (join [slash] ws ++ [slash]) = ws.
Proof.
  intros Hne Hall. unfold components. rewrite split_snoc_sep.
  rewrite split_join by auto using component_no_slash.
  rewrite list.filter_app, filter_components by done. simpl. apply app_nil_r.
Qed.

Lemma components_slash_join ws :
  ws <> [] -> Forall component ws ->
  components (slash :: join [slash] ws ++ [slash]) = ws.
Proof.
  intros Hne Hall. rewrite <- (components_join_slash ws) at 2 by done.
  reflexivity.
Qed.

Lemma ends_with_join ws :
  ws <> [] -> Forall component ws -> ends_with [slash] (join [slash] ws) = false.
Proof.
  intros Hne Hall. destruct (join_last ws Hne Hall) as (s & x & -> & Hx).
  rewrite ends_with_snoc. by apply bool_decide_eq_false.
Qed.

Lemma starts_with_join ws :
  ws <> [] -> Forall component ws -> starts_with [slash] (join [slash] ws) = false.
Proof.
  intros Hne Hall. destruct (join_head ws Hne Hall) as (x & s & -> & Hx).
  rewrite starts_with_cons. by apply bool_decide_eq_false.
Qed.

Lemma join_not_nil ws : ws <> [] -> Forall component ws -> join [slash] ws <> [].
Proof. intros Hne Hall. by destruct (join_head ws Hne Hall) as (x & s & -> & _). Qed.

Lemma trim_slashes_join ws k :
  ws <> [] -> Forall component ws ->
  trim_slashes (join [slash] ws ++ k) = join [slash] ws ++ k.
Proof.
  intros Hne Hall. destruct (join_head ws Hne Hall) as (x & s & -> & Hx).
  simpl. by rewrite decide_False.
Qed.

#[export] Hint Resolve components_ok join_not_nil component_no_slash : opendal.

(** ** Trimming *)

Lemma strip_any_shorter ps s r :
  Forall (fun p => p <> []) ps -> strip_any ps s = Some r -> length r < length s.
Proof.
  induction 1 as [|p ps Hp _ IH]; simpl; [done|]. unfold strip_prefix.
  destruct (starts_with p s) eqn:E; [|done]. intros [= <-].
  apply starts_with_true in E as [k ->]. rewrite drop_app_length, length_app.
  destruct p; [done|]. simpl. lia.
Qed.

Lemma trim_with_done ps fuel s :
  Forall (fun p => p <> []) ps -> length s <= fuel ->
  strip_any ps (trim_with ps fuel s) = None.
Proof.
  intros Hps. revert s; induction fuel as [|f IH]; intros s Hlen; simpl.
  - destruct s; [|simpl in Hlen; lia].
    destruct (strip_any ps []) as [r|] eqn:E; [|done].
    apply strip_any_shorter in E; [simpl in E; lia | done].
  - destruct (strip_any ps s) as [r|] eqn:E; [|done].
    apply IH. apply strip_any_shorter in E; [lia | done].
Qed.

Lemma trim_with_None ps fuel s : strip_any ps s = None -> trim_with ps fuel s = s.
Proof. intros E. destruct fuel; [done|]. simpl. by rewrite E. Qed.

Lemma strip_any_None_prefix ps s k :
  strip_any ps (s ++ k) = None -> strip_any ps s = None.
Proof.
  induction ps as [|p ps IH]; simpl; [done|]. unfold strip_prefix.
  destruct (starts_with p s) eqn:E.
  - apply starts_with_true in E as [z ->]. rewrite <- app_assoc.
    by rewrite starts_with_app.
  - destruct (starts_with p (s ++ k)); [done|]. exact IH.
Qed.

Lemma trim_with_suffix ps fuel s : exists k, s = k ++ trim_with ps fuel s.
Proof.
  revert s; induction fuel as [|f IH]; intros s; simpl; [by exists []|].
  destruct (strip_any ps s) as [r|] eqn:E; [|by exists []].
  destruct (IH r) as [k Hk].
  assert (exists z, s = z ++ r) as [z ->].
  { clear -E. induction ps as [|p ps IH]; simpl in *; [done|].
    unfold strip_prefix in E. destruct (starts_with p s) eqn:Hp; [|auto].
    simplify_eq. apply starts_with_true in Hp as [k ->]. exists p.
    by rewrite drop_app_length. }
  exists (z ++ k). rewrite <- app_assoc. congruence.
Qed.

Lemma white_space_not_nil : Forall (fun p => p <> []) white_space.
Proof. repeat constructor; done. Qed.

Lemma trim_end_prefix s : exists k, s = trim_end s ++ k.
Proof.
  unfold trim_end.
  destruct (trim_with_suffix (map (@rev _) white_space) (length s) (rev s)) as [k Hk].
  exists (rev k). apply (f_equal (@rev _)) in Hk. by rewrite rev_involutive, rev_app_distr in Hk.
Qed.

Lemma rev_white_space_not_nil : Forall (fun p => p <> []) (map (@rev _) white_space).
Proof. repeat constructor; done. Qed.

(** Neither end of a trimmed string is white space. *)
Lemma trim_ends s :
  strip_any white_space (trim s) = None /\
  strip_any (map (@rev _) white_space) (rev (trim s)) = None.
Proof.
  unfold trim. split.
  - destruct (trim_end_prefix (trim_start s)) as [k Hk].
    apply (strip_any_None_prefix _ _ k). rewrite <- Hk.
    apply trim_with_done; [apply white_space_not_nil | done].
  - unfold trim_end. rewrite rev_involutive.
    apply trim_with_done; [apply rev_white_space_not_nil | by rewrite length_rev].
Qed.

Lemma trim_fixpoint s :
  strip_any white_space s = None -> strip_any (map (@rev _) white_space) (rev s) = None ->
  trim s = s.
Proof.
  intros H1 H2. unfold trim, trim_end, trim_start.
  rewrite (trim_with_None _ _ s) by done. rewrite trim_with_None by done.
  apply rev_involutive.
Qed.

(** ** Normalisation *)

Lemma normalized_path path : normalized (normalize_path path).
Proof.
  unfold normalize_path, squeeze.
  destruct (trim_slashes_head (trim path)) as [->|(x & s & -> & Hx)]; [constructor|].
  rewrite bool_decide_eq_false_2 by done.
  destruct (ends_with _ _); constructor; eauto using components_cons, components_ok.
Qed.

Lemma components_slash s : components (slash :: s) = components s.
Proof. unfold components. simpl. by rewrite filter_cons_False by (intros E; by destruct E). Qed.

Lemma components_trim_slashes s : components (trim_slashes s) = components s.
Proof.
  induction s as [|x s IH]; [done|]. simpl. case_decide as E; [|done].
  by rewrite E, components_slash.
Qed.

Lemma ends_with_trim_slashes s :
  trim_slashes s <> [] -> ends_with [slash] (trim_slashes s) = ends_with [slash] s.
Proof.
  induction s as [|x s IH]; [done|]. simpl. case_decide as E; [|done]. intros Hne.
  rewrite IH by done. destruct (last_snoc_cases s) as [->|(s' & y & ->)]; [done|].
  by rewrite (app_comm_cons s' [y] x), !ends_with_snoc.
Qed.

Lemma spells_join ws :
  Forall (fun w => slash ∉ w) ws -> spells (filter (fun v => v <> []) ws) (join [slash] ws).
Proof.
  induction 1 as [|w ws Hw _ IH]; [constructor|].
  destruct ws as [|v ws].
  - destruct w as [|x w]; [constructor|]. rewrite filter_cons_True by done. simpl.
    rewrite <- (app_nil_r (x :: w)) at 2. constructor; [by split | by left | constructor].
  - change (join [slash] (w :: v :: ws)) with (w ++ slash :: join [slash] (v :: ws)).
    rewrite filter_cons. case_decide as Hne.
    + constructor; [by split | right; by rewrite starts_with_cons, bool_decide_eq_true_2 |].
      by constructor.
    + subst w. by constructor.
Qed.

(** What a string spells is unique: the components the code computes. *)
Lemma components_spells s : spells (components s) s.
Proof.
  unfold components. rewrite <- (join_split slash s) at 2. apply spells_join, split_Forall.
Qed.

Lemma spells_components ws s : spells ws s -> components s = ws.
Proof.
  induction 1 as [|ws s _ IH|w ws s [Hw Hs] Hend _ IH]; [done| |].
  - by rewrite components_slash.
  - destruct Hend as [->|[k ->]%starts_with_true].
    + rewrite <- IH, app_nil_r. unfold components. by rewrite split_no_sep, filter_cons_True.
    + rewrite <- IH. unfold components at 1. simpl. rewrite split_app_sep by done.
      by rewrite components_slash, filter_cons_True.
Qed.

Lemma normalize_path_components path :
  normalize_path path =
  match components (trim path) with
  | [] => [slash]
  | ws => join [slash] ws ++ (if ends_with [slash] (trim path) then [slash] else [])
  end.
Proof.
  unfold normalize_path, squeeze. rewrite <- (components_trim_slashes (trim path)).
  destruct (trim_slashes_head (trim path)) as [E|(x & s & E & Hx)].
  - by rewrite E.
  - rewrite <- (ends_with_trim_slashes (trim path)) by (by rewrite E). rewrite E.
    rewrite bool_decide_eq_false_2 by done. pose proof (components_cons x s Hx) as Hne.
    destruct (components (x :: s)); [done|]. destruct (ends_with _ _); [done|].
    by rewrite app_nil_r.
Qed.

(** C38.  Whatever string a caller passes, the trimmed string spells exactly one
    list of components (non-empty, without slashes, read between the slashes),
    and the normalised path is those components separated by single slashes,
    with no leading slash, followed by a slash exactly when the trimmed string
    ended with one; it is the root exactly when there is no component.  So it is
    in normal form. *)
Theorem normalize_path_normalized path :
  exists ws,
    spells ws (trim path) /\
    (forall ws', spells ws' (trim path) -> ws' = ws) /\
    normalize_path path =
      match ws with
      | [] => [slash]
      | _ => join [slash] ws ++ (if ends_with [slash] (trim path) then [slash] else [])
      end /\
    normalized (normalize_path path).
Proof.
  exists (components (trim path)). split_and!.
  - apply components_spells.
  - intros ws' Hs. by rewrite (spells_components _ _ Hs).
  - rewrite normalize_path_components. by destruct (components (trim path)).
  - apply normalized_path.
Qed.

(** A normalised path with no white space at its ends is left alone, so
    every path the operator stores or compares is a fixed point. *)
Theorem normalize_path_fixpoint p :
  normalized p -> trim p = p -> normalize_path p = p.
Proof.
  intros Hn Ht. unfold normalize_path, squeeze. rewrite Ht. destruct Hn.
  - done.
  - rewrite <- (app_nil_r (join _ _)), trim_slashes_join, app_nil_r by done.
    rewrite bool_decide_eq_false_2 by auto with opendal.
    by rewrite ends_with_join, components_join.
  - rewrite trim_slashes_join by done.
    rewrite bool_decide_eq_false_2 by (intros E; by apply app_nil in E as [_ ?]).
    by rewrite ends_with_app, components_join_slash.
Qed.

Lemma normalize_path_fixpoint_witness :
  normalize_path (b "dir/file.txt") = b "dir/file.txt".
Proof.
  apply normalize_path_fixpoint; [|vm_compute; reflexivity].
  apply (norm_file [b "dir"; b "file.txt"]); [done|].
  repeat constructor; try done; vm_compute; set_solver.
Defined.

(** Normalisation is not idempotent: white space that hides behind leading
    slashes survives the first pass and is trimmed by a second one, although
    the rules promise that all white space is trimmed. *)
Theorem normalize_path_not_idempotent :
  exists p, normalize_path (normalize_path p) <> normalize_path p.
Proof. exists (b "/ abc"). vm_compute. congruence. Qed.

Lemma squeeze_root v : squeeze v = [] \/ squeeze v <> [] /\ components v <> [].
Proof.
  unfold squeeze. destruct (components v) as [|w ws] eqn:E; [by left|]. right.
  split; [|done]. rewrite <- E. apply join_not_nil; [congruence | apply components_ok].
Qed.

Lemma normalize_root_cases v :
  normalize_root v = [slash] /\ components v = [] \/
  normalize_root v = slash :: squeeze v ++ [slash] /\ components v <> [].
Proof.
  unfold normalize_root, squeeze. destruct (components v) as [|w ws] eqn:E; [by left|].
  right. split; [|done].
  assert (Forall component (w :: ws)) as Hall by (rewrite <- E; apply components_ok).
  rewrite starts_with_join by done.
  destruct (join_last (w :: ws)) as (s & x & -> & Hx); [done | done |].
  rewrite app_comm_cons, ends_with_snoc, bool_decide_eq_false_2 by done. done.
Qed.

(** A normalised root starts and ends with a slash and has no empty
    component, and normalising it again changes nothing. *)
Theorem normalize_root_spec v :
  normalized_root (normalize_root v) /\ normalize_root (normalize_root v) = normalize_root v.
Proof.
  destruct (normalize_root_cases v) as [[-> _]|[-> Hc]].
  - split; [constructor | done].
  - pose proof (components_ok v) as Hall. split; [by constructor|].
    destruct (normalize_root_cases (slash :: squeeze v ++ [slash])) as [[_ E]|[-> _]];
      unfold squeeze in *; rewrite components_slash_join in * by done; done.
Qed.

(** ** Absolute and relative paths *)

Lemma slice_from_app {E} root path :
  starts_char path -> slice_from (E:=E) (root ++ path) (length root) = Ok path.
Proof.
  intros Hp. unfold slice_from, is_char_boundary.
  rewrite drop_app_length.
  case_bool_decide; [done|]. rewrite lookup_app_r by lia.
  rewrite Nat.sub_diag. destruct path as [|c path]; simpl in *.
  - rewrite app_nil_r. by rewrite bool_decide_eq_true_2.
  - by rewrite Hp.
Qed.

Lemma normalized_root_shape root :
  normalized_root root -> exists r, root = slash :: r /\ (r = [] \/ starts_with [slash] r = false).
Proof.
  intros []; [by exists []; split; [|left]|]. eexists; split; [done|]. right.
  destruct (join_head ws) as (x & s & -> & Hx); [done..|].
  simpl. rewrite starts_with_cons. by apply bool_decide_eq_false.
Qed.

Lemma normalized_no_lead p :
  normalized p -> p <> [slash] -> exists x s, p = x :: s /\ x <> slash.
Proof.
  intros [] Hp; [done| |].
  - destruct (join_head ws) as (x & s & -> & Hx); [done..|]. eauto.
  - destruct (join_head ws) as (x & s & -> & Hx); [done..|]. simpl. eauto.
Qed.

Lemma rel_path_of_abs root path :
  normalized_root root -> starts_char (tail root) ->
  normalized path -> path <> [slash] -> starts_char path ->
  (abs ← build_abs_path root path; build_rel_path root abs) = Ok path /\
  build_rel_path root (build_rooted_abs_path root path) = Ok path.
Proof.
  intros Hr Hrc Hp Hne Hc.
  destruct (normalized_root_shape root Hr) as (r & -> & Hrs).
  destruct (normalized_no_lead path Hp Hne) as (x & s & -> & Hx).
  unfold build_abs_path, build_rooted_abs_path. rewrite !bool_decide_eq_false_2 by done.
  rewrite (slice_from_app [slash] r) by done. simpl. split.
  - unfold build_rel_path. simpl length. rewrite Nat.sub_succ, Nat.sub_0_r.
    assert (starts_with [slash] (r ++ x :: s) = false) as ->.
    { destruct r as [|y r]; simpl; rewrite starts_with_cons; [by apply bool_decide_eq_false|].
      destruct Hrs as [?|Hrs]; [done|]. by rewrite starts_with_cons in Hrs. }
    by apply slice_from_app.
  - unfold build_rel_path. rewrite starts_with_cons, bool_decide_eq_true_2 by done.
    by apply (slice_from_app (slash :: r)).
Qed.

(** A service turns the operator's path into an absolute one and turns the
    absolute paths it lists back into relative ones: the two are inverse, with
    and without the leading slash, for every normalised root and path. *)
Theorem build_rel_path_abs root path :
  normalized_root root -> starts_char (tail root) ->
  normalized path -> path <> [slash] -> starts_char path ->
  (abs ← build_abs_path root path; build_rel_path root abs) = Ok path /\
  build_rel_path root (build_rooted_abs_path root path) = Ok path.
Proof. apply rel_path_of_abs. Qed.

Lemma build_rel_path_abs_witness :
  (abs ← build_abs_path (b "/data/") (b "a/b.txt"); build_rel_path (b "/data/") abs)
    = Ok (b "a/b.txt") /\
  build_rel_path (b "/data/") (build_rooted_abs_path (b "/data/") (b "a/b.txt"))
    = Ok (b "a/b.txt").
Proof.
  apply build_rel_path_abs; try done.
  - apply (root_dir [b "data"]); [done|]. repeat constructor; try done; vm_compute; set_solver.
  - apply (norm_file [b "a"; b "b.txt"]); [done|].
    repeat constructor; try done; vm_compute; set_solver.
Defined.

(** ** Parent and basename *)

Lemma get_basename_file s w :
  component w -> get_basename (s ++ slash :: w) = w /\ get_basename w = w.
Proof.
  intros Hw. destruct (component_snoc w Hw) as (w' & x & E & Hx).
  destruct Hw as [Hne Hs]. unfold get_basename. split.
  - rewrite bool_decide_eq_false_2 by (intros H; destruct s; simplify_eq/=; by destruct s).
    replace (s ++ slash :: w) with ((s ++ slash :: w') ++ [x])
      by (rewrite E, <- app_assoc; done).
    rewrite ends_with_snoc, bool_decide_eq_false_2 by done. simpl.
    replace ((s ++ slash :: w') ++ [x]) with (s ++ slash :: w)
      by (rewrite E, <- app_assoc; done).
    clear E. induction s as [|y s IH]; simpl.
    + by rewrite split_no_sep.
    + case_decide.
      * destruct (split slash (s ++ slash :: w)) eqn:Es; [by apply split_not_nil in Es|]. done.
      * destruct (split slash (s ++ slash :: w)) as [|p ps] eqn:Es; [by apply split_not_nil in Es|].
        destruct ps; [|done]. exfalso. pose proof (join_split slash (s ++ slash :: w)) as Hj.
        rewrite Es in Hj. simpl in Hj. pose proof (split_Forall slash (s ++ slash :: w)) as Hf.
        rewrite Es in Hf. apply Forall_cons in Hf as [Hp _].
        apply Hp. rewrite Hj. apply elem_of_app. right. left.
  - rewrite bool_decide_eq_false_2 by (intros ->; set_solver).
    rewrite E, ends_with_snoc, bool_decide_eq_false_2, <- E by done. simpl.
    by rewrite split_no_sep.
Qed.

Lemma take_snoc_slash s : take (length (s ++ [slash]) - 1) (s ++ [slash]) = s.
Proof.
  rewrite length_app. simpl. replace (length s + 1 - 1) with (length s) by lia.
  by rewrite take_app_length.
Qed.

Lemma get_parent_app s w :
  component w ->
  get_parent (s ++ slash :: w) = s ++ [slash] /\ get_parent w = [slash].
Proof.
  intros Hw. destruct (component_snoc w Hw) as (w' & x & E & Hx).
  destruct Hw as [Hne Hs]. unfold get_parent. split.
  - rewrite bool_decide_eq_false_2 by (intros H; destruct s; simplify_eq/=; by destruct s).
    assert (ends_with [slash] (s ++ slash :: w) = false) as ->.
    { rewrite E, app_comm_cons, app_assoc, ends_with_snoc. by apply bool_decide_eq_false. }
    simpl. rewrite rfind_char_app by done.
    replace (s ++ slash :: w) with ((s ++ [slash]) ++ w) by (by rewrite <- app_assoc).
    replace (length s + 1) with (length (s ++ [slash])) by (by rewrite length_app).
    by rewrite take_app_length.
  - rewrite bool_decide_eq_false_2 by (intros ->; set_solver).
    rewrite E, ends_with_snoc, bool_decide_eq_false_2, <- E by done. simpl.
    by rewrite (proj2 (rfind_char_None slash w)).
Qed.

(** The directory case of both functions, for a path that ends with a slash. *)
Lemma split_dir s w :
  component w ->
  get_parent (s ++ slash :: w ++ [slash]) = s ++ [slash] /\
  get_basename (s ++ slash :: w ++ [slash]) = w ++ [slash] /\
  get_parent (w ++ [slash]) = [slash] /\ get_basename (w ++ [slash]) = w ++ [slash].
Proof.
  intros [Hne Hs].
  assert (w ++ [slash] <> [slash]) by (intros E; apply (app_inj_tail w []) in E as [-> _]; done).
  assert (s ++ slash :: w ++ [slash] <> [slash]).
  { intros E. rewrite app_comm_cons, app_assoc in E. apply (app_inj_tail _ []) in E as [E _].
    by destruct s. }
  unfold get_parent, get_basename. rewrite !bool_decide_eq_false_2 by done.
  rewrite !app_comm_cons, !app_assoc, !ends_with_snoc, !bool_decide_eq_true_2 by done. simpl.
  rewrite !take_snoc_slash, rfind_char_app, (proj2 (rfind_char_None slash w)) by done. simpl.
  replace ((s ++ slash :: w) ++ [slash]) with ((s ++ [slash]) ++ (w ++ [slash]))
    by (by rewrite <- !app_assoc).
  replace (S (length s)) with (length (s ++ [slash])) by (rewrite length_app; simpl; lia).
  by rewrite take_app_length, drop_app_length.
Qed.

Lemma normalized_snoc p :
  normalized p -> p <> [slash] ->
  exists ws w, component w /\ Forall component ws /\
    (let pre := match ws with [] => [] | _ => join [slash] ws ++ [slash] end in
     p = pre ++ w \/ p = pre ++ w ++ [slash]).
Proof.
  intros Hp Hne.
  assert (forall ws, ws <> [] -> Forall component ws -> exists ws' w,
    component w /\ Forall component ws' /\
    join [slash] ws = match ws' with [] => [] | _ => join [slash] ws' ++ [slash] end ++ w) as Hcut.
  { intros ws Hws Hall. destruct (last_snoc_cases ws) as [->|(ws' & w & ->)]; [done|].
    apply Forall_app in Hall as [Hall' Hw]. inversion Hw; subst.
    exists ws', w. split_and!; [done.. |]. destruct ws'; [done|].
    rewrite join_snoc by done. by rewrite <- app_assoc. }
  destruct Hp as [|ws Hws Hall|ws Hws Hall]; [done| |];
    destruct (Hcut ws Hws Hall) as (ws' & w & ? & ? & ->); exists ws', w; split_and!; try done.
  - by left.
  - right. by rewrite <- app_assoc.
Qed.

(** For every normalised path but the root, parent and basename split the
    path: at the top level the parent is the root and the basename the whole
    path, below it their concatenation is the path and the parent is again a
    normalised directory path, strictly shorter. *)
Theorem parent_basename_split p :
  normalized p -> p <> [slash] ->
  (get_parent p = [slash] /\ get_basename p = p) \/
  (get_parent p ++ get_basename p = p /\ normalized (get_parent p) /\
   ends_with [slash] (get_parent p) = true /\ length (get_parent p) < length p).
Proof.
  intros Hp Hne.
  destruct (normalized_snoc p Hp Hne) as (ws & w & Hw & Hws & Hcase). simpl in Hcase.
  destruct ws as [|v ws].
  - left. destruct Hcase as [->| ->]; simpl.
    + split; [apply (get_parent_app [] w Hw) | apply (get_basename_file [] w Hw)].
    + destruct (split_dir [] w Hw) as (_ & _ & ? & ?). done.
  - right. pose proof (norm_dir (v :: ws) ltac:(done) Hws) as Hn.
    set (pre := join [slash] (v :: ws)) in *.
    assert (length w > 0) by (destruct Hw as [Hw _]; destruct w; [done | simpl; lia]).
    assert (get_parent p = pre ++ [slash] /\
            (get_basename p = w /\ p = (pre ++ [slash]) ++ w \/
             get_basename p = w ++ [slash] /\ p = (pre ++ [slash]) ++ w ++ [slash]))
      as [-> Hb].
    { destruct Hcase as [->| ->]; rewrite <- !app_assoc; simpl.
      - destruct (get_parent_app pre w Hw), (get_basename_file pre w Hw). auto.
      - destruct (split_dir pre w Hw) as (? & ? & _). auto. }
    split_and!; [|done|apply ends_with_app|];
      destruct Hb as [[Hb ->]|[Hb ->]]; rewrite ?Hb, ?length_app; simpl; (done || lia).
Qed.

Lemma parent_basename_split_witness :
  (get_parent (b "a/b/c.txt") = [slash] /\ get_basename (b "a/b/c.txt") = b "a/b/c.txt") \/
  (get_parent (b "a/b/c.txt") ++ get_basename (b "a/b/c.txt") = b "a/b/c.txt" /\
   normalized (get_parent (b "a/b/c.txt")) /\
   ends_with [slash] (get_parent (b "a/b/c.txt")) = true /\
   length (get_parent (b "a/b/c.txt")) < length (b "a/b/c.txt")).
Proof.
  apply parent_basename_split; [|done].
  apply (norm_file [b "a"; b "b"; b "c.txt"]); [done|].
  repeat constructor; try done; vm_compute; set_solver.
Defined.

(** ** Temporary names *)

(** A temporary name is the basename, a dot and exactly eight characters of
    the allowed alphabet, whatever the random source returns. *)
Theorem build_tmp_path_of_shape random path :
  exists postfix, build_tmp_path_of random path = get_basename path ++ b "." ++ postfix /\
    length postfix = RANDOM_TMP_PATH_POSTFIX_LENGTH /\ Forall (fun c => c ∈ CHARS) postfix.
Proof.
  eexists; split; [done|]. split; [by rewrite length_map, length_seq|].
  apply Forall_map, Forall_true. intros i.
  assert (is_Some (CHARS !! N.to_nat (random i mod N.of_nat (length CHARS)))) as [c Hc].
  { apply lookup_lt_is_Some. pose proof (N.mod_lt (random i) (N.of_nat (length CHARS))).
    assert (N.of_nat (length CHARS) <> 0%N) by done. lia. }
  rewrite Hc. simpl. by eapply list_elem_of_lookup_2.
Qed.

(** [validate_path] accepts a normalised path for exactly the mode its last
    byte says. *)
Lemma validate_path_from_path path mode :
  validate_path path mode = true <-> mode = from_path path.
Proof. unfold validate_path, from_path. destruct (ends_with _ _), mode; done. Qed.
