(* ===== verification/Range.v ===== *)
(** * Byte ranges ([raw/http_util/bytes_range.rs], [bytes_content_range.rs])

    [BytesRange] and [BytesContentRange] with their conversions to and from
    Rust ranges and HTTP headers.  Every number is a [u64]; a [usize] is one
    too (64-bit targets). *)

From S2P Require Import Prelude Errors.
From stdpp Require Import options.
Local Open Scope Z_scope.

(** ** [std::ops::Bound] *)

Inductive Bound : Type := Included (n : Z) | Excluded (n : Z) | Unbounded.

Definition bound_u64 (x : Bound) : Prop :=
  match x with Included n | Excluded n => is_u64 n | Unbounded => True end.

(** The positions a pair of bounds selects. *)
Definition in_bounds (lo hi : Bound) (i : Z) : Prop :=
  match lo with Included n => n <= i | Excluded n => n < i | Unbounded => True end /\
  match hi with Included n => i <= n | Excluded n => i < n | Unbounded => True end.

(** ** [BytesRange] *)

Record BytesRange : Type := mkRange { offset : Z; size : option Z }.

#[export] Instance BytesRange_eq_dec : EqDecision BytesRange.
Proof. solve_decision. Defined.

Definition advance (r : BytesRange) (n : Z) : result BytesRange :=
  o ← expect (checked_add (offset r) n);
  s ← match size r with
      | None => Ok None
      | Some size => Some <$> expect (checked_sub size n)
      end;
  Ok {| offset := o; size := s |}.

Definition is_full (r : BytesRange) : bool :=
  bool_decide (offset r = 0) && bool_decide (size r = None).

Definition to_range (r : BytesRange) : result (Bound * Bound) :=
  match size r with
  | Some size => e ← expect (checked_add (offset r) size); Ok (Included (offset r), Excluded e)
  | None => Ok (Included (offset r), Unbounded)
  end.

(** [impl Display]: a zero size or an overflow is a formatting error. *)
Definition show_range (r : BytesRange) : option str :=
  match size r with
  | None => Some (show_u64 (offset r) ++ b "-")
  | Some size =>
      if bool_decide (size = 0) then None
      else e ← checked_add (offset r) (size - 1);
           Some (show_u64 (offset r) ++ b "-" ++ show_u64 e)
  end.

(** [to_header] panics when [Display] fails, as [format!] does. *)
Definition to_header (r : BytesRange) : result str :=
  s ← expect (show_range r); Ok (b "bytes=" ++ s).

Definition range_invalid (msg : string) (value : str) : Error :=
  with_context (b "value") value (with_operation (b "BytesRange::from_str") (error Unexpected msg)).

(** The [ParseIntError] source only adds to what is printed. *)
Definition parse_int (e : Error) (s : str) : result Z :=
  ok_or (set_source (b "invalid digit found in string") e) (parse_u64 s).

Definition range_from_str (value : str) : result BytesRange :=
  let invalid := range_invalid "header range is invalid" value in
  s ← ok_or invalid (strip_prefix (b "bytes=") value);
  if bool_decide (","%char ∈ s) then Err invalid
  else match split "-"%char s with
  | [v0; v1] =>
      if bool_decide (v1 = []) then
        start ← parse_int invalid v0; Ok {| offset := start; size := None |}
      else if bool_decide (v0 = []) then
        Err (range_invalid "header range with tailing is not supported" value)
      else
        start ← parse_int invalid v0;
        e ← parse_int invalid v1;
        if bool_decide (e < start) then
          Err (range_invalid "header range is invalid: end is less than start" value)
        else Ok {| offset := start; size := Some (wrap64 (e - start + 1)) |}
  | _ => Err invalid
  end.

(** [impl From<T: RangeBounds<u64>>]. *)
Definition from_bounds (lo hi : Bound) : BytesRange :=
  let offset := match lo with
                | Included n => n
                | Excluded n => saturating_add n 1
                | Unbounded => 0
                end in
  let size := match hi with
              | Included n => Some (saturating_sub (saturating_add n 1) offset)
              | Excluded n => Some (saturating_sub n offset)
              | Unbounded => None
              end in
  {| offset := offset; size := size |}.

(** ** [BytesContentRange] *)

Record BytesContentRange : Type := mkContentRange {
  range_start : option Z;
  range_end : option Z;
  content_size : option Z;
}.

#[export] Instance BytesContentRange_eq_dec : EqDecision BytesContentRange.
Proof. solve_decision. Defined.

Definition content_range_default : BytesContentRange :=
  {| range_start := None; range_end := None; content_size := None |}.
Definition with_range (s e : Z) (r : BytesContentRange) : BytesContentRange :=
  {| range_start := Some s; range_end := Some e; content_size := content_size r |}.
Definition with_size (n : Z) (r : BytesContentRange) : BytesContentRange :=
  {| range_start := range_start r; range_end := range_end r; content_size := Some n |}.

(** [end - start + 1] and [end + 1] wrap in a release build. *)
Definition len (r : BytesContentRange) : option Z :=
  match range_start r, range_end r with
  | Some s, Some e =>
      if bool_decide (e < s) then Some 0 else Some (wrap64 (e - s + 1))
  | _, _ => None
  end.

Definition content_range (r : BytesContentRange) : option (Z * Z) :=
  match range_start r, range_end r with
  | Some s, Some e => Some (s, wrap64 (e + 1))
  | _, _ => None
  end.

Definition range_inclusive (r : BytesContentRange) : option (Z * Z) :=
  match range_start r, range_end r with Some s, Some e => Some (s, e) | _, _ => None end.

(** [impl Display]; the remaining combinations are [unreachable!]. *)
Definition show_content_range (r : BytesContentRange) : result str :=
  match range_start r, range_end r, content_size r with
  | Some s, Some e, Some n => Ok (show_u64 s ++ b "-" ++ show_u64 e ++ b "/" ++ show_u64 n)
  | Some s, Some e, None => Ok (show_u64 s ++ b "-" ++ show_u64 e ++ b "/*")
  | None, None, Some n => Ok (b "*/" ++ show_u64 n)
  | _, _, _ => Panic
  end.

Definition content_to_header (r : BytesContentRange) : result str :=
  s ← show_content_range r; Ok (b "bytes " ++ s).

Definition content_invalid (msg : string) (value : str) : Error :=
  with_context (b "value") value
    (with_operation (b "BytesContentRange::from_str") (error Unexpected msg)).

Definition content_range_from_str (value : str) : result BytesContentRange :=
  let invalid := content_invalid "header content range is invalid" value in
  s ← ok_or invalid (strip_prefix (b "bytes ") value);
  match strip_prefix (b "*/") s with
  | Some size => n ← parse_int invalid size; Ok (with_size n content_range_default)
  | None =>
      match split "/"%char s with
      | [s0; s1] =>
          match split "-"%char s0 with
          | [v0; v1] =>
              start ← parse_int invalid v0;
              e ← parse_int invalid v1;
              if bool_decide (e < start) then
                Err (content_invalid "header content range is invalid: end is less than start" value)
              else
                let bcr := with_range start e content_range_default in
                if bool_decide (s1 <> b "*") then
                  n ← parse_int invalid s1; Ok (with_size n bcr)
                else Ok bcr
          | _ => Err invalid
          end
      | _ => Err invalid
      end
  end.

(** ** Well-formed ranges *)

(** A range that addresses bytes below 2^64: its end does not overflow. *)
Definition range_wf (r : BytesRange) : Prop :=
  is_u64 (offset r) /\
  match size r with None => True | Some n => 0 <= n /\ offset r + n <= u64_max end.
#[export] Instance range_wf_dec r : Decision (range_wf r).
Proof. unfold range_wf. destruct (size r); apply _. Defined.

(** The bytes a range asks for. *)
Definition covers (r : BytesRange) (i : Z) : Prop :=
  offset r <= i /\ match size r with None => True | Some n => i < offset r + n end.

(** A content range a server may send. *)
Definition content_range_wf (r : BytesContentRange) : Prop :=
  match range_start r, range_end r with
  | Some s, Some e => 0 <= s <= e /\ e <= u64_max
  | None, None => is_Some (content_size r)
  | _, _ => False
  end /\ match content_size r with Some n => is_u64 n | None => True end.

(** ** Headers: parsing a printed range *)

Lemma strip_prefix_app p k : strip_prefix p (p ++ k) = Some k.
Proof. unfold strip_prefix. by rewrite starts_with_app, drop_app_length. Qed.

Lemma strip_prefix_None p x s k :
  starts_with [x] p = true -> starts_with [x] (s ++ k) = false -> strip_prefix p (s ++ k) = None.
Proof.
  intros Hp Hs. apply starts_with_true in Hp as [p' ->]. unfold strip_prefix.
  destruct (starts_with ([x] ++ p') (s ++ k)) eqn:E; [|done].
  apply starts_with_true in E as [z Hz]. rewrite <- app_assoc in Hz.
  rewrite Hz, starts_with_app in Hs. done.
Qed.

Lemma parse_int_show e n : is_u64 n -> parse_int e (show_u64 n) = Ok n.
Proof. intros H. unfold parse_int. by rewrite parse_show_u64. Qed.

Lemma split_two c v w : c ∉ v -> c ∉ w -> split c (v ++ c :: w) = [v; w].
Proof. intros Hv Hw. by rewrite split_app_sep, split_no_sep. Qed.

(** Literal separators as characters. *)
Ltac char_sep :=
  change (b "-") with ["-"%char]; change (b "/") with ["/"%char];
  change (b "/*") with ["/"%char; "*"%char]; cbn [app].

(** A separator is in none of the printed numbers. *)
Ltac no_sep := rewrite ?not_elem_of_app, ?not_elem_of_cons; split_and?;
  first [by apply show_u64_no_sep | done | set_solver].

(** The [Range] header a request carries, parsed back by a server that
    uses the same rules, names the same range: for every non-empty range whose
    end fits in a [u64], printing succeeds and parsing inverts it. *)
Theorem range_header_roundtrip r :
  range_wf r -> size r <> Some 0 ->
  exists h, to_header r = Ok h /\ range_from_str h = Ok r.
Proof.
  destruct r as [o [n|]]; intros [Ho Hs] Hn; unfold to_header, show_range; ssimpl.
  - rewrite bool_decide_eq_false_2 by congruence.
    assert (n <> 0) by congruence. unfold is_u64 in *.
    rewrite checked_add_is by lia. ssimpl. eexists; split; [done|].
    unfold range_from_str. rewrite strip_prefix_app. ssimpl. char_sep.
    rewrite bool_decide_eq_false_2 by no_sep.
    rewrite split_two by no_sep.
    rewrite !(bool_decide_eq_false_2 (show_u64 _ = _)) by auto with opendal.
    rewrite !parse_int_show by (unfold is_u64; lia). ssimpl.
    rewrite bool_decide_eq_false_2 by lia. rewrite wrap64_id by (unfold is_u64; lia).
    do 3 f_equal. lia.
  - eexists; split; [done|]. unfold range_from_str. rewrite strip_prefix_app. ssimpl. char_sep.
    rewrite bool_decide_eq_false_2 by no_sep. rewrite split_two by no_sep.
    rewrite bool_decide_eq_true_2 by done. by rewrite parse_int_show.
Qed.

Lemma range_header_roundtrip_witness :
  exists h, to_header (mkRange 1024 (Some 1024)) = Ok h /\
            range_from_str h = Ok (mkRange 1024 (Some 1024)).
Proof. apply range_header_roundtrip; [repeat split; done | done]. Defined.

(** What [from_str] accepts is a range [to_header] can print. *)
Lemma parse_int_u64 e s n : parse_int e s = Ok n -> 0 <= n <= u64_max.
Proof.
  unfold parse_int, parse_u64.
  set (d := match s with "+"%char :: s' => s' | _ => s end). clearbody d.
  assert (forall l a, (match a with Some x => 0 <= x <= u64_max | None => True end) ->
    match fold_left parse_step l a with Some x => 0 <= x <= u64_max | None => True end) as H.
  { induction l as [|c l IH]; intros a Ha; [done|]. apply IH.
    destruct a as [a|]; simpl; [|done].
    destruct (digit_value c) as [v|] eqn:Ev; simpl; [|done].
    unfold digit_value in Ev. case_bool_decide; simplify_eq.
    destruct (checked_mul a 10) as [m|] eqn:Em; simpl; [|done].
    apply checked_mul_Some in Em as [-> ?].
    destruct (checked_add _ _) as [x|] eqn:Ex; [|done].
    apply checked_add_Some in Ex as [-> ?]. lia. }
  specialize (H d (Some 0)). simpl in H. destruct d as [|c d]; [done|].
  destruct (fold_left parse_step (c :: d) (Some 0)); simpl; [|done].
  intros [= <-]. apply H. unfold u64_max. lia.
Qed.

(** Whatever header arrives, parsing never panics; it fails with a permanent
    [Unexpected] error or gives a range that starts at a [u64], is not empty and
    does not reach past the largest offset.  The one exception is the header
    that spells out the whole of [u64], whose size wraps to zero. *)
Theorem range_from_str_sound h :
  match range_from_str h with
  | Ok r => is_u64 (offset r) /\
            match size r with
            | None => True
            | Some n => 1 <= n /\ offset r + n - 1 <= u64_max \/ offset r = 0 /\ n = 0
            end
  | Err e => kind e = Unexpected /\ is_permanent e = true
  | Panic => False
  end.
Proof.
  unfold range_from_str.
  destruct (strip_prefix (b "bytes=") h) as [s|]; simpl; [|done].
  case_bool_decide; [done|].
  destruct (split "-"%char s) as [|v0 [|v1 [|? ?]]]; try done.
  case_bool_decide.
  - unfold parse_int at 1. destruct (parse_u64 v0) as [n|] eqn:E; simpl; [|done].
    split; [|done]. apply (parse_int_u64 (error Unexpected "") v0). unfold parse_int. by rewrite E.
  - case_bool_decide; [done|].
    destruct (parse_int _ v0) as [n| |] eqn:E; simpl;
      [|unfold parse_int in E; destruct (parse_u64 v0); by simplify_eq/=..].
    destruct (parse_int _ v1) as [m| |] eqn:E'; simpl;
      [|unfold parse_int in E'; destruct (parse_u64 v1); by simplify_eq/=..].
    apply parse_int_u64 in E, E'.
    case_bool_decide; simpl; [done|]. split; [done|].
    destruct (decide (m - n + 1 <= u64_max)) as [Hle|Hgt].
    + rewrite wrap64_id by (unfold is_u64; lia). lia.
    + right. assert (n = 0 /\ m = u64_max) as [-> ->] by lia. done.
Qed.

(** The whole of [u64] as an explicit range is read as an empty one. *)
Theorem range_from_str_overflow :
  range_from_str (b "bytes=0-18446744073709551615") = Ok (mkRange 0 (Some 0)).
Proof. vm_compute. reflexivity. Qed.

(** A [Content-Range] header survives the trip: for every content range a
    server may send, printing succeeds and parsing gives it back. *)
Theorem content_range_roundtrip r :
  content_range_wf r ->
  exists h, content_to_header r = Ok h /\ content_range_from_str h = Ok r.
Proof.
  intros [Hr Hn]. destruct r as [[s|] [e|] [n|]]; ssimpl; try done;
    try (by destruct Hr); unfold content_to_header, show_content_range; ssimpl;
    (eexists; split; [done|]); unfold content_range_from_str;
    rewrite strip_prefix_app; ssimpl; char_sep.
  1,2: destruct Hr as [[Hs He] Hm];
    rewrite (strip_prefix_None _ "*"%char);
    [| done
     | pose proof (show_u64_no_sep s "*"%char eq_refl) as Hstar;
       destruct (show_u64 s) eqn:E; [by apply show_u64_not_nil in E|];
       simpl; rewrite starts_with_cons; apply bool_decide_eq_false; set_solver].
  - replace (show_u64 s ++ "-"%char :: show_u64 e ++ "/"%char :: show_u64 n)
      with ((show_u64 s ++ "-"%char :: show_u64 e) ++ "/"%char :: show_u64 n)
      by (by rewrite <- app_assoc).
    rewrite split_two by no_sep. rewrite split_two by no_sep.
    rewrite !parse_int_show by (unfold is_u64 in *; lia). ssimpl.
    rewrite bool_decide_eq_false_2 by lia.
    rewrite bool_decide_eq_true_2; [done|].
    intros E. pose proof (show_u64_no_sep n "*"%char eq_refl) as H. rewrite E in H. set_solver.
  - replace (show_u64 s ++ "-"%char :: show_u64 e ++ ["/"%char; "*"%char])
      with ((show_u64 s ++ "-"%char :: show_u64 e) ++ "/"%char :: ["*"%char])
      by (by rewrite <- app_assoc).
    rewrite split_two by no_sep. rewrite split_two by no_sep.
    rewrite !parse_int_show by (unfold is_u64 in *; lia). ssimpl.
    rewrite bool_decide_eq_false_2 by lia. done.
  - rewrite strip_prefix_app. by rewrite parse_int_show.
Qed.

Lemma content_range_roundtrip_witness :
  exists h, content_to_header (mkContentRange (Some 0) (Some 1023) (Some 1024)) = Ok h /\
    content_range_from_str h = Ok (mkContentRange (Some 0) (Some 1023) (Some 1024)).
Proof. apply content_range_roundtrip. by vm_compute. Defined.

(** ** Conversions between ranges *)

(** Converting Rust bounds keeps exactly the selected positions, except
    the position [u64::MAX] itself, which no [BytesRange] with a size can
    reach. *)
Theorem from_bounds_covers lo hi i :
  bound_u64 lo -> bound_u64 hi -> 0 <= i < u64_max ->
  in_bounds lo hi i <-> covers (from_bounds lo hi) i.
Proof.
  unfold in_bounds, covers, from_bounds, bound_u64, is_u64, saturating_add, saturating_sub.
  intros. destruct lo, hi; simpl in *; lia.
Qed.

Lemma from_bounds_covers_witness :
  in_bounds (Included 10) (Excluded 20) 15 <->
  covers (from_bounds (Included 10) (Excluded 20)) 15.
Proof. apply from_bounds_covers; by vm_compute. Defined.

(** [to_range] and [from] are inverse on well-formed ranges. *)
Lemma to_range_from_bounds r :
  range_wf r -> exists lo hi, to_range r = Ok (lo, hi) /\ from_bounds lo hi = r.
Proof.
  destruct r as [o [n|]]; intros [Ho Hs]; unfold to_range; simpl in *.
  - rewrite checked_add_is by lia. simpl. do 2 eexists; split; [done|].
    unfold from_bounds, saturating_sub. simpl. f_equal. f_equal. lia.
  - by do 2 eexists.
Qed.

(** Advancing a well-formed range by at most its size drops exactly the
    first [n] positions and never panics; advancing further panics. *)
Theorem advance_spec r n :
  range_wf r -> 0 <= n ->
  match size r with
  | Some m => n <= m
  | None => offset r + n <= u64_max
  end ->
  exists r', advance r n = Ok r' /\ range_wf r' /\
    forall i, covers r' i <-> covers r i /\ offset r + n <= i.
Proof.
  destruct r as [o [m|]]; intros [Ho Hs] Hn Hle; unfold advance, is_u64 in *; simpl in *.
  - rewrite checked_add_is by lia. simpl.
    assert (checked_sub m n = Some (m - n)) as -> by (apply checked_sub_Some; lia).
    simpl. eexists; split; [done|]. unfold range_wf, is_u64, covers; simpl.
    split; [lia|]. intros i. lia.
  - rewrite checked_add_is by lia. simpl. eexists; split; [done|].
    unfold range_wf, is_u64, covers; simpl. split; [lia|]. intros i. lia.
Qed.

Lemma advance_spec_witness :
  exists r', advance (mkRange 100 (Some 50)) 20 = Ok r' /\ range_wf r' /\
    forall i, covers r' i <-> covers (mkRange 100 (Some 50)) i /\ 100 + 20 <= i.
Proof.
  apply (advance_spec (mkRange 100 (Some 50)) 20);
    [repeat split; done | lia | simpl; lia].
Defined.

#[export] Hint Rewrite @strip_prefix_app : opendal.
