(* ===== verification/Buffer.v ===== *)
(** * Buffers ([types/buffer.rs], [raw/oio/buf/queue_buf.rs], [flex_buf.rs])

    [Buffer], its iterators, [QueueBuf] and [FlexBuf], with their contents as
    the abstract state.  A [Bytes] is the sequence of bytes it holds; slicing
    and advancing past its end panics, as its documentation says.  Lengths are
    [nat]: they count bytes in memory. *)

From Stdlib Require Export Strings.Byte.
From S2P Require Import Prelude Errors Range.
From stdpp Require Import options.

Abbreviation bytes := (list Byte.byte).

#[export] Instance byte_eq_dec : EqDecision Byte.byte.
Proof. intros x y. destruct (Byte.byte_eq_dec x y); [by left | by right]. Defined.

(** [bytes[lo..hi]]. *)
Definition bslice (bs : bytes) (lo hi : nat) : result bytes :=
  if bool_decide (lo <= hi <= length bs) then Ok (take (hi - lo) (drop lo bs)) else Panic.

Inductive Buffer : Type :=
  | Contiguous (bs : bytes)
  | NonContiguous (parts : list bytes) (size idx offset : nat).

Definition new : Buffer := Contiguous [].
Definition blen (buf : Buffer) : nat :=
  match buf with Contiguous bs => length bs | NonContiguous _ size _ _ => size end.
Definition is_empty (buf : Buffer) : bool := bool_decide (blen buf = 0).

(** [impl From<Vec<u8>>] and the other contiguous sources;
    [impl From<Vec<Bytes>>], [VecDeque<Bytes>], [Arc<[Bytes]>] and
    [FromIterator<Bytes>]. *)
Definition from_bytes (bs : bytes) : Buffer := Contiguous bs.
Definition from_parts (parts : list bytes) : Buffer :=
  NonContiguous parts (sum_list (length <$> parts)) 0 0.

Definition count_step (acc : nat * nat) (bs : bytes) : nat * nat :=
  let '(count, size) := acc in
  if bool_decide (size = 0) then (count, 0) else (S count, size - length bs).
Definition count (buf : Buffer) : nat :=
  match buf with
  | Contiguous _ => 1
  | NonContiguous parts size idx offset =>
      (fold_left count_step (drop idx parts) (0, size + offset)).1
  end.

Definition current (buf : Buffer) : result bytes :=
  match buf with
  | Contiguous bs => Ok bs
  | NonContiguous parts size idx offset =>
      chunk ← expect (parts !! idx);
      bslice chunk offset (offset + min (length chunk - offset) size)
  end.

Definition truncate (buf : Buffer) (len : nat) : Buffer :=
  match buf with
  | Contiguous bs => Contiguous (take len bs)
  | NonContiguous parts size idx offset => NonContiguous parts (min size len) idx offset
  end.

(** The loop of [Buf::advance]; [rest] is [parts[new_idx..]]. *)
Fixpoint advance_loop (rest : list bytes) (new_idx new_offset remaining_cnt : nat)
  : result (nat * nat) :=
  if bool_decide (remaining_cnt = 0) then Ok (new_idx, new_offset)
  else match rest with
  | [] => Panic
  | part :: rest' =>
      let remaining_in_part := length part - new_offset in
      if bool_decide (remaining_cnt < remaining_in_part)
      then Ok (new_idx, new_offset + remaining_cnt)
      else advance_loop rest' (S new_idx) 0 (remaining_cnt - remaining_in_part)
  end.

Definition advance (buf : Buffer) (cnt : nat) : result Buffer :=
  match buf with
  | Contiguous bs => if bool_decide (cnt <= length bs) then Ok (Contiguous (drop cnt bs)) else Panic
  | NonContiguous parts size idx offset =>
      if bool_decide (cnt <= size) then
        '(idx', offset') ← advance_loop (drop idx parts) idx offset cnt;
        Ok (NonContiguous parts (size - cnt) idx' offset')
      else Panic
  end.

Definition slice (buf : Buffer) (lo hi : Bound) : result Buffer :=
  let len := Z.of_nat (blen buf) in
  begin ← match lo with
          | Included n => Ok n
          | Excluded n => expect (checked_add n 1)
          | Unbounded => Ok 0%Z
          end;
  end_ ← match hi with
         | Included n => expect (checked_add n 1)
         | Excluded n => Ok n
         | Unbounded => Ok len
         end;
  if bool_decide (begin <= end_)%Z then
    if bool_decide (end_ <= len)%Z then
      if bool_decide (end_ = begin) then Ok new
      else advance (truncate buf (Z.to_nat end_)) (Z.to_nat begin)
    else Panic
  else Panic.

(** [Buf::chunk], also [BufRead::fill_buf]. *)
Definition chunk (buf : Buffer) : result bytes :=
  match buf with
  | Contiguous bs => Ok bs
  | NonContiguous parts size idx offset =>
      if bool_decide (size = 0) then Ok []
      else c ← expect (parts !! idx);
           bslice c offset (offset + min (length c - offset) size)
  end.

(** The slices of [to_io_slice]: [new_offset] is the offset into the first. *)
Fixpoint io_slices (rest : list bytes) (new_offset : nat) : result (list bytes) :=
  match rest with
  | [] => Ok []
  | part :: rest' =>
      s ← bslice part new_offset (length part);
      ss ← io_slices rest' 0; Ok (s :: ss)
  end.
Definition to_io_slice (buf : Buffer) : result (list bytes) :=
  match buf with
  | Contiguous bs => Ok [bs]
  | NonContiguous parts _ idx offset => io_slices (drop idx parts) offset
  end.

(** [Buf::chunks_vectored] into [n] destination slots. *)
Definition chunks_vectored (buf : Buffer) (n : nat) : result (list bytes) :=
  match buf with
  | Contiguous bs => Ok (take n [bs])
  | NonContiguous parts _ idx offset => io_slices (take n (drop idx parts)) offset
  end.

(** [Iterator::next]: [(item, buffer afterwards)]. *)
Definition next (buf : Buffer) : result (option bytes * Buffer) :=
  match buf with
  | Contiguous bs =>
      if bool_decide (bs = []) then Ok (None, buf) else Ok (Some bs, Contiguous [])
  | NonContiguous parts size idx offset =>
      if bool_decide (size = 0) then Ok (None, buf)
      else
        c ← expect (parts !! idx);
        let n := min (length c - offset) size in
        x ← bslice c offset (offset + n);
        let size := size - n in
        let offset := offset + n in
        if bool_decide (offset = length c)
        then Ok (Some x, NonContiguous parts size (S idx) 0)
        else Ok (Some x, NonContiguous parts size idx offset)
  end.

Definition size_hint (buf : Buffer) : nat :=
  match buf with
  | Contiguous bs => if bool_decide (bs = []) then 0 else 1
  | NonContiguous parts _ idx _ => length parts - idx
  end.

Definition split_to (buf : Buffer) (at_ : nat) : result (Buffer * Buffer) :=
  if bool_decide (at_ <= blen buf) then
    head ← slice buf Unbounded (Excluded (Z.of_nat at_));
    self ← advance buf at_;
    Ok (head, self)
  else Panic.

Definition split_off (buf : Buffer) (at_ : nat) : result (Buffer * Buffer) :=
  if bool_decide (at_ <= blen buf) then
    tail ← slice buf (Included (Z.of_nat at_)) Unbounded;
    Ok (tail, truncate buf at_)
  else Panic.

(** [io::Read::read] into a slice of [n] bytes. *)
Definition read (buf : Buffer) (n : nat) : result (bytes * Buffer) :=
  c ← chunk buf;
  let len := min (length c) n in
  buf' ← advance buf len;
  Ok (take len c, buf').

(** ** [BufferChunks] *)

Record BufferChunks : Type := mkChunks {
  c_buffer : Buffer; chunk_size : nat; position : nat; c_len : nat;
}.

Definition chunks (buf : Buffer) (n : nat) : result BufferChunks :=
  if bool_decide (n = 0) then Panic
  else Ok {| c_buffer := buf; chunk_size := n; position := 0; c_len := blen buf |}.

Definition chunks_next (c : BufferChunks) : result (option Buffer * BufferChunks) :=
  if bool_decide (c_len c <= position c) then Ok (None, c)
  else
    let end_ := min (position c + chunk_size c) (c_len c) in
    x ← slice (c_buffer c) (Included (Z.of_nat (position c))) (Excluded (Z.of_nat end_));
    Ok (Some x, {| c_buffer := c_buffer c; chunk_size := chunk_size c;
                   position := end_; c_len := c_len c |}).

(** ** [QueueBuf] *)

Abbreviation QueueBuf := (list Buffer).

Definition qpush (q : QueueBuf) (buf : Buffer) : QueueBuf :=
  if is_empty buf then q else q ++ [buf].
Definition qlen (q : QueueBuf) : nat := sum_list (blen <$> q).
Definition qis_empty (q : QueueBuf) : bool := bool_decide (qlen q = 0).
(** [take] returns the queue and leaves the default, an empty one. *)
Definition qtake (q : QueueBuf) : QueueBuf * QueueBuf := (q, []).
Definition qclear (q : QueueBuf) : QueueBuf := [].

(** Run an iterator to its end; a buffer yields at most one item per part. *)
Fixpoint drain (fuel : nat) (buf : Buffer) : result (list bytes) :=
  match fuel with
  | O => Panic
  | S f =>
      '(x, buf') ← next buf;
      match x with
      | None => Ok []
      | Some x => xs ← drain f buf'; Ok (x :: xs)
      end
  end.
Definition drain_fuel (buf : Buffer) : nat :=
  match buf with Contiguous _ => 2 | NonContiguous parts _ _ _ => S (S (length parts)) end.
Definition iterate (buf : Buffer) : result (list bytes) := drain (drain_fuel buf) buf.

Fixpoint flatten (q : QueueBuf) : result (list bytes) :=
  match q with
  | [] => Ok []
  | buf :: q' => xs ← iterate buf; ys ← flatten q'; Ok (xs ++ ys)
  end.

Definition qcollect (q : QueueBuf) : result Buffer :=
  match q with
  | [] => Ok new
  | [buf] => Ok buf
  | _ => from_parts <$> flatten q
  end.

Fixpoint qadvance_loop (q : QueueBuf) (new_cnt : nat) : result QueueBuf :=
  if bool_decide (new_cnt = 0) then Ok q
  else match q with
  | [] => Panic
  | buf :: q' =>
      if bool_decide (new_cnt < blen buf) then buf' ← advance buf new_cnt; Ok (buf' :: q')
      else qadvance_loop q' (new_cnt - blen buf)
  end.
Definition qadvance (q : QueueBuf) (cnt : nat) : result QueueBuf :=
  if bool_decide (cnt <= qlen q) then qadvance_loop q cnt else Panic.

(** ** [FlexBuf] *)

Record FlexBuf : Type := mkFlex {
  cap : nat; f_len : nat; f_buf : bytes; frozen : option bytes;
}.

Definition flex_new (cap : nat) : FlexBuf :=
  {| cap := cap; f_len := 0; f_buf := []; frozen := None |}.

Definition flex_put (f : FlexBuf) (bs : bytes) : nat * FlexBuf :=
  match frozen f with
  | Some _ => (0, f)
  | None =>
      let n := min (cap f - f_len f) (length bs) in
      let buf := f_buf f ++ take n bs in
      let len := f_len f + n in
      if bool_decide (cap f <= len)
      then (n, {| cap := cap f; f_len := 0; f_buf := []; frozen := Some buf |})
      else (n, {| cap := cap f; f_len := len; f_buf := buf; frozen := None |})
  end.

Definition flex_freeze (f : FlexBuf) : FlexBuf :=
  if bool_decide (f_len f = 0) then f
  else {| cap := cap f; f_len := 0; f_buf := []; frozen := Some (f_buf f) |}.

Definition flex_get (f : FlexBuf) : option bytes := frozen f.

Definition flex_clean (f : FlexBuf) : FlexBuf :=
  {| cap := cap f; f_len := f_len f; f_buf := f_buf f; frozen := None |}.

Definition flex_advance (f : FlexBuf) (cnt : nat) : result FlexBuf :=
  match frozen f with
  | None => Panic
  | Some bs =>
      if bool_decide (cnt <= length bs) then
        let bs := drop cnt bs in
        let f := {| cap := cap f; f_len := f_len f; f_buf := f_buf f; frozen := Some bs |} in
        Ok (if bool_decide (bs = []) then flex_clean f else f)
      else Panic
  end.

(** ** Abstract state and invariant *)

(** What the buffer holds. *)
Definition contents (buf : Buffer) : bytes :=
  match buf with
  | Contiguous bs => bs
  | NonContiguous parts size idx offset => take size (drop offset (concat (drop idx parts)))
  end.

(** The cursor is inside its part and the parts from it on hold [size] bytes. *)
Definition wf (buf : Buffer) : Prop :=
  match buf with
  | Contiguous _ => True
  | NonContiguous parts size idx offset =>
      offset <= length (default [] (parts !! idx)) /\
      offset + size <= length (concat (drop idx parts))
  end.
#[export] Instance wf_dec buf : Decision (wf buf).
Proof. destruct buf; apply _. Defined.

(** No part is empty, and the cursor is not at the end of a part. *)
Definition dense (buf : Buffer) : Prop :=
  match buf with
  | Contiguous _ => True
  | NonContiguous parts _ idx offset =>
      Forall (fun p => p <> []) parts /\
      (offset = 0 \/ offset < length (default [] (parts !! idx)))
  end.

(** How a consumer of the [Buf] trait copies a buffer out: append the current
    chunk, advance past it, until nothing remains.  [None] is a loop that is
    still running when the fuel is gone. *)
Fixpoint copy_out (fuel : nat) (buf : Buffer) : option (result bytes) :=
  match fuel with
  | O => None
  | S f =>
      if bool_decide (blen buf = 0) then Some (Ok [])
      else match (c ← chunk buf; buf' ← advance buf (length c); Ok (c, buf')) with
           | Ok (c, buf') => r ← copy_out f buf'; Some (bs ← r; Ok (c ++ bs))
           | Err e => Some (Err e)
           | Panic => Some Panic
           end
  end.

Definition qcontents (q : QueueBuf) : bytes := concat (contents <$> q).
(** What [push] keeps: every queued buffer is well formed and non-empty. *)
Definition qwf (q : QueueBuf) : Prop := Forall (fun buf => wf buf /\ blen buf <> 0) q.

(** ** Buffers *)

Lemma contents_length buf : wf buf -> length (contents buf) = blen buf.
Proof.
  destruct buf as [|parts size idx offset]; [done|]. intros [Ho Hs]. simpl.
  rewrite length_take, length_drop. lia.
Qed.

Lemma drop_lookup_cons {A} (l : list A) i x : l !! i = Some x -> drop i l = x :: drop (S i) l.
Proof. intros H. by rewrite <- (drop_S l x i). Qed.

Lemma length_concat_sum (parts : list bytes) :
  length (concat parts) = sum_list (length <$> parts).
Proof. induction parts as [|p ps IH]; csimpl; [done|]. by rewrite length_app, IH. Qed.

Lemma from_parts_wf parts : wf (from_parts parts).
Proof. simpl. split; [lia|]. by rewrite drop_0, length_concat_sum. Qed.

Lemma from_parts_contents parts : contents (from_parts parts) = concat parts.
Proof.
  simpl. rewrite !drop_0. apply take_ge. by rewrite length_concat_sum.
Qed.

Lemma truncate_wf buf n : wf buf -> wf (truncate buf n).
Proof. destruct buf; simpl; [done|]. lia. Qed.

Lemma truncate_contents buf n : contents (truncate buf n) = take n (contents buf).
Proof. destruct buf; simpl; [done|]. rewrite take_take. f_equal. lia. Qed.

(** Moving a cursor over the parts drops that many bytes of their concatenation. *)
Lemma advance_loop_spec parts cnt idx off :
  off <= length (default [] (parts !! idx)) ->
  off + cnt <= length (concat (drop idx parts)) ->
  exists idx' off', advance_loop (drop idx parts) idx off cnt = Ok (idx', off') /\
    off' <= length (default [] (parts !! idx')) /\
    drop off' (concat (drop idx' parts)) = drop (off + cnt) (concat (drop idx parts)).
Proof.
  remember (drop idx parts) as rest eqn:Hrest. revert idx off cnt Hrest.
  induction rest as [|p rest IH]; intros idx off cnt Hrest Hoff Hlen; simpl.
  - simpl in Hlen. assert (cnt = 0 /\ off = 0) as [-> ->] by lia.
    exists idx, 0. split_and!; [done | lia | by rewrite <- Hrest].
  - assert (parts !! idx = Some p) as Hp.
    { rewrite <- (Nat.add_0_r idx), <- lookup_drop, <- Hrest. done. }
    assert (rest = drop (S idx) parts) as Hrest'.
    { rewrite (drop_lookup_cons _ _ _ Hp) in Hrest. congruence. }
    rewrite Hp in Hoff. simpl in Hoff, Hlen. rewrite length_app in Hlen.
    case_bool_decide; [subst cnt|case_bool_decide].
    + exists idx, off. rewrite Hp, Nat.add_0_r. split_and!; [done | done |]. by rewrite <- Hrest.
    + exists idx, (off + cnt). rewrite Hp. simpl. split_and!; [done | lia |]. by rewrite <- Hrest.
    + destruct (IH (S idx) 0 (cnt - (length p - off))) as (i & o & -> & Ho & Hd);
        [done | lia | lia |].
      exists i, o. split_and!; [done | done |]. rewrite Hd.
      rewrite drop_app_ge by lia. f_equal. lia.
Qed.

(** A cursor that moved within the first [size] bytes leaves a well-formed buffer. *)
Lemma advance_ok buf cnt :
  wf buf -> cnt <= blen buf ->
  exists buf', advance buf cnt = Ok buf' /\ wf buf' /\ contents buf' = drop cnt (contents buf).
Proof.
  destruct buf as [bs|parts size idx off]; intros Hwf Hle; simpl in *.
  - rewrite bool_decide_eq_true_2 by done. eexists; split; [done|]. done.
  - destruct Hwf as [Ho Hs]. rewrite bool_decide_eq_true_2 by done.
    destruct (advance_loop_spec parts cnt idx off) as (i & o & -> & Ho' & Hd); [done | lia |].
    simpl. eexists; split; [done|]. simpl. split.
    + split; [done|]. apply (f_equal length) in Hd. rewrite !length_drop in Hd.
      assert (length (default [] (parts !! i)) <= length (concat (drop i parts))).
      { destruct (parts !! i) as [p|] eqn:Hp; simpl; [|lia].
        rewrite (drop_lookup_cons _ _ _ Hp). simpl. rewrite length_app. lia. }
      lia.
    + rewrite Hd, skipn_firstn_comm, drop_drop. done.
Qed.

(** Advancing a buffer consumes exactly the first [cnt] bytes, across any
    number of parts, and keeps the buffer well formed; past the end it panics. *)
Theorem buffer_advance_spec buf cnt :
  wf buf ->
  if bool_decide (cnt <= blen buf)
  then exists buf', advance buf cnt = Ok buf' /\ wf buf' /\ contents buf' = drop cnt (contents buf)
  else advance buf cnt = Panic.
Proof.
  intros Hwf. case_bool_decide; [by apply advance_ok|].
  destruct buf; simpl in *; by rewrite bool_decide_eq_false_2.
Qed.

Lemma buffer_advance_spec_witness :
  if bool_decide (3 <= blen (from_parts [[x01; x02]; [x03; x04]]))
  then exists buf', advance (from_parts [[x01; x02]; [x03; x04]]) 3 = Ok buf' /\ wf buf' /\
         contents buf' = drop 3 (contents (from_parts [[x01; x02]; [x03; x04]]))
  else advance (from_parts [[x01; x02]; [x03; x04]]) 3 = Panic.
Proof. apply buffer_advance_spec, from_parts_wf. Defined.

Lemma slice_ok buf lo hi :
  wf buf -> lo <= hi <= blen buf ->
  exists buf', slice buf (Included (Z.of_nat lo)) (Excluded (Z.of_nat hi)) = Ok buf' /\
    wf buf' /\ contents buf' = take (hi - lo) (drop lo (contents buf)).
Proof.
  intros Hwf [Hlo Hhi]. unfold slice. simpl.
  rewrite !bool_decide_eq_true_2 by lia.
  case_bool_decide as He.
  - eexists; split; [done|]. split; [done|]. by replace (hi - lo) with 0 by lia.
  - rewrite !Nat2Z.id.
    destruct (advance_ok (truncate buf hi) lo) as (buf' & -> & Hw & Hc).
    + by apply truncate_wf.
    + rewrite <- contents_length, truncate_contents by by apply truncate_wf.
      rewrite length_take, contents_length by done. lia.
    + exists buf'. split_and!; [done | done |].
      by rewrite Hc, truncate_contents, skipn_firstn_comm.
Qed.

(** Slicing gives exactly the selected bytes of the buffer and a
    well-formed buffer, whatever parts it is made of, for every in-range pair of
    bounds. *)
Theorem buffer_slice_spec buf lo hi :
  wf buf -> lo <= hi <= blen buf ->
  exists buf', slice buf (Included (Z.of_nat lo)) (Excluded (Z.of_nat hi)) = Ok buf' /\
    wf buf' /\ contents buf' = take (hi - lo) (drop lo (contents buf)).
Proof. apply slice_ok. Qed.

Lemma buffer_slice_spec_witness :
  exists buf', slice (from_parts [[x01; x02]; [x03; x04]]) (Included 1) (Excluded 3) = Ok buf' /\
    wf buf' /\ contents buf' = take (3 - 1) (drop 1 (contents (from_parts [[x01; x02]; [x03; x04]]))).
Proof.
  apply (buffer_slice_spec (from_parts [[x01; x02]; [x03; x04]]) 1 3);
    [apply from_parts_wf | simpl; lia].
Defined.

Lemma slice_prefix buf at_ :
  wf buf -> at_ <= blen buf ->
  exists buf', slice buf Unbounded (Excluded (Z.of_nat at_)) = Ok buf' /\ wf buf' /\
    contents buf' = take at_ (contents buf).
Proof.
  intros Hwf Hle. unfold slice. simpl. rewrite !bool_decide_eq_true_2 by lia.
  case_bool_decide as He.
  - eexists; split; [done|]. split; [done|]. by replace at_ with 0 by lia.
  - rewrite Nat2Z.id. change (Z.to_nat 0) with 0.
    destruct (advance_ok (truncate buf at_) 0) as (buf' & -> & Hw & Hc);
      [by apply truncate_wf | lia |].
    exists buf'. split_and!; [done | done |]. by rewrite Hc, truncate_contents.
Qed.

Lemma slice_suffix buf at_ :
  wf buf -> at_ <= blen buf ->
  exists buf', slice buf (Included (Z.of_nat at_)) Unbounded = Ok buf' /\ wf buf' /\
    contents buf' = drop at_ (contents buf).
Proof.
  intros Hwf Hle. unfold slice. simpl. rewrite !bool_decide_eq_true_2 by lia.
  case_bool_decide as He.
  - eexists; split; [done|]. split; [done|]. rewrite drop_ge; [done|].
    rewrite contents_length by done. lia.
  - rewrite !Nat2Z.id. destruct (advance_ok (truncate buf (blen buf)) at_) as (buf' & -> & Hw & Hc).
    + by apply truncate_wf.
    + rewrite <- contents_length, truncate_contents by by apply truncate_wf.
      rewrite length_take, contents_length by done. lia.
    + exists buf'. split_and!; [done | done |].
      rewrite Hc, truncate_contents, take_ge; [done|]. by rewrite contents_length.
Qed.

(** Splitting a buffer in two loses and duplicates nothing: [split_to]
    returns the head and keeps the tail, [split_off] the other way round. *)
Theorem buffer_split_spec buf at_ :
  wf buf -> at_ <= blen buf ->
  (exists h t, split_to buf at_ = Ok (h, t) /\ wf h /\ wf t /\
     contents h ++ contents t = contents buf /\ blen h = at_) /\
  (exists t h, split_off buf at_ = Ok (t, h) /\ wf h /\ wf t /\
     contents h ++ contents t = contents buf /\ blen h = at_).
Proof.
  intros Hwf Hle. unfold split_to, split_off. rewrite bool_decide_eq_true_2 by done.
  split.
  - destruct (slice_prefix buf at_) as (h & -> & Hh & Hch); [done..|]. simpl.
    destruct (advance_ok buf at_) as (t & -> & Ht & Hct); [done..|]. simpl.
    exists h, t. rewrite Hch, Hct, take_drop. split_and!; try done.
    rewrite <- contents_length, Hch, length_take, contents_length by done. lia.
  - destruct (slice_suffix buf at_) as (t & -> & Ht & Hct); [done..|]. simpl.
    exists t, (truncate buf at_). rewrite Hct, truncate_contents, take_drop.
    split_and!; auto using truncate_wf.
    rewrite <- contents_length, truncate_contents, length_take, contents_length
      by auto using truncate_wf. lia.
Qed.

Lemma buffer_split_spec_witness :
  (exists h t, split_to (from_parts [[x01; x02]; [x03]]) 1 = Ok (h, t) /\ wf h /\ wf t /\
     contents h ++ contents t = contents (from_parts [[x01; x02]; [x03]]) /\ blen h = 1) /\
  (exists t h, split_off (from_parts [[x01; x02]; [x03]]) 1 = Ok (t, h) /\ wf h /\ wf t /\
     contents h ++ contents t = contents (from_parts [[x01; x02]; [x03]]) /\ blen h = 1).
Proof. apply buffer_split_spec; [apply from_parts_wf | simpl; lia]. Defined.

(** ** Iteration *)

Lemma take_part {A} (n : nat) (c : list A) (l : list A) off :
  off <= length c -> n = min (length c - off) n ->
  take n (drop off (c ++ l)) = take n (drop off c).
Proof.
  intros Ho Hn. rewrite drop_app_le by done. rewrite take_app_le; [done|].
  rewrite length_drop. lia.
Qed.

(** One step of the iterator: the item and what is left make up the buffer, and
    the cursor moves towards the end. *)
Lemma next_spec buf :
  wf buf -> exists x buf', next buf = Ok (x, buf') /\ wf buf' /\
    match x with
    | None => blen buf = 0 /\ buf' = buf
    | Some y => blen buf <> 0 /\ contents buf = y ++ contents buf' /\ blen buf = length y + blen buf' /\
        drain_fuel buf' = drain_fuel buf /\
        match buf, buf' with
        | NonContiguous parts _ idx _, NonContiguous _ size' idx' _ =>
            idx < length parts /\ (idx' = S idx \/ size' = 0)
        | _, _ => blen buf' = 0
        end
    end.
Proof.
  destruct buf as [bs|parts size idx off]; intros Hwf; simpl.
  - case_bool_decide; [subst; by exists None, (Contiguous [])|].
    exists (Some bs), (Contiguous []). simpl. rewrite app_nil_r. split_and!; try done; first [lia | by destruct bs].
  - destruct Hwf as [Ho Hs]. case_bool_decide; [by exists None, (NonContiguous parts size idx off)|].
    destruct (parts !! idx) as [c|] eqn:Hc; simpl in *.
    2: { rewrite (drop_ge parts idx) in Hs by (by apply lookup_ge_None). simpl in Hs. lia. }
    pose proof (lookup_lt_Some _ _ _ Hc).
    rewrite (drop_lookup_cons _ _ _ Hc) in Hs. simpl in Hs. rewrite length_app in Hs.
    set (n := min (length c - off) size).
    assert (n <= length c - off /\ n <= size /\ (n = length c - off \/ n = size)) by (subst n; lia).
    clearbody n. unfold bslice.
    rewrite (bool_decide_eq_true_2 (off <= off + n <= length c)) by lia. simpl.
    replace (off + n - off) with n by lia.
    assert (length (take n (drop off c)) = n) as Hn by (rewrite length_take, length_drop; lia).
    case_bool_decide as Hend.
    + do 2 eexists; split; [done|]. simpl. rewrite Hn. split.
      { split; [lia|]. lia. }
      split_and!; try done; [|lia|by left].
      rewrite (drop_lookup_cons _ _ _ Hc). simpl. rewrite drop_0, drop_app_le by done.
      rewrite (take_ge (drop off c)) by (rewrite length_drop; lia).
      rewrite take_app, length_drop. f_equal; [|f_equal; lia].
      rewrite take_ge by (rewrite length_drop; lia). done.
    + do 2 eexists; split; [done|]. simpl. rewrite Hc. simpl. rewrite Hn.
      assert (n = size) by lia. rewrite (drop_lookup_cons _ _ _ Hc). simpl. rewrite length_app.
      split; [lia|]. split_and!; try done; [|lia|by right; lia].
      replace (size - n) with 0 by lia. rewrite take_0, app_nil_r.
      rewrite take_part by lia. congruence.
Qed.

Lemma drain_spec fuel buf :
  wf buf ->
  match buf with
  | Contiguous bs => if bool_decide (bs = []) then 1 else 2
  | NonContiguous parts size idx _ =>
      if bool_decide (size = 0) then 1 else S (S (length parts - idx))
  end <= fuel ->
  exists xs, drain fuel buf = Ok xs /\ concat xs = contents buf.
Proof.
  revert buf. induction fuel as [|f IH]; intros buf Hwf Hf.
  { destruct buf; case_bool_decide; lia. }
  simpl. destruct (next_spec buf Hwf) as (x & buf' & -> & Hwf' & Hx). simpl.
  destruct x as [y|].
  - destruct Hx as (Hne & Hc & Hl & Hfu & Hm).
    destruct (IH buf' Hwf') as (xs & -> & Hxs).
    + destruct buf as [bs|parts size idx off], buf' as [bs'|parts' size' idx' off']; simpl in *.
      * destruct bs'; [|done]. rewrite !bool_decide_eq_true_2 by done.
        case_bool_decide as Hbs; [by rewrite Hbs in Hne | lia].
      * subst size'. rewrite bool_decide_eq_true_2 by done.
        case_bool_decide as Hbs; [by rewrite Hbs in Hne | lia].
      * destruct bs'; [|done]. rewrite bool_decide_eq_true_2 by done. case_bool_decide; lia.
      * destruct Hm as [Hi Hm]. case_bool_decide; [lia|]. case_bool_decide; [lia|]. lia.
    + simpl. eexists; split; [done|]. simpl. by rewrite Hxs.
  - destruct Hx as [Hz ->]. eexists; split; [done|]. simpl.
    symmetry. apply nil_length_inv. by rewrite contents_length.
Qed.

Lemma iterate_ok buf :
  wf buf -> exists xs, iterate buf = Ok xs /\ concat xs = contents buf.
Proof.
  intros Hwf. apply drain_spec; [done|]. destruct buf; simpl; case_bool_decide; lia.
Qed.

(** Iterating a buffer terminates without a panic and yields, in order,
    pieces whose concatenation is its contents. *)
Theorem buffer_iterate_spec buf :
  wf buf -> exists xs, iterate buf = Ok xs /\ concat xs = contents buf.
Proof. apply iterate_ok. Qed.

Lemma buffer_iterate_spec_witness :
  exists xs, iterate (from_parts [[x01; x02]; []; [x03]]) = Ok xs /\
    concat xs = contents (from_parts [[x01; x02]; []; [x03]]).
Proof. apply buffer_iterate_spec, from_parts_wf. Defined.

(** ** The [Buf] contract *)

Lemma chunk_spec buf :
  wf buf -> exists c k, chunk buf = Ok c /\ contents buf = c ++ k /\
    (dense buf -> blen buf <> 0 -> c <> []).
Proof.
  destruct buf as [bs|parts size idx off]; intros Hwf; simpl.
  - exists bs, []. rewrite app_nil_r. split_and!; try done. intros _ Hne. by destruct bs.
  - destruct Hwf as [Ho Hs]. case_bool_decide.
    { subst. exists [], []. done. }
    destruct (parts !! idx) as [c|] eqn:Hc; simpl in *.
    2: { rewrite (drop_ge parts idx) in Hs by (by apply lookup_ge_None). simpl in Hs. lia. }
    rewrite (drop_lookup_cons _ _ _ Hc) in *. simpl in *. rewrite length_app in Hs.
    unfold bslice. rewrite bool_decide_eq_true_2 by lia.
    do 2 eexists; split; [done|]. split.
    + rewrite drop_app_le by done. rewrite take_app, length_drop.
      replace (off + min (length c - off) size - off) with (min (length c - off) size) by lia.
      f_equal. destruct (Nat.min_spec (length c - off) size) as [[? ->]|[? ->]]; [|done].
      rewrite !take_ge; rewrite ?length_drop; (done || lia).
    + intros [Hd Ho'] _. intros E. apply (f_equal length) in E.
      rewrite length_take, length_drop in E. simpl in E.
      assert (c <> []) by (by eapply Forall_lookup_1 in Hd). destruct c; [done|]. simpl in *. lia.
Qed.

Lemma advance_loop_dense parts idx off cnt i o :
  off = 0 \/ off < length (default [] (parts !! idx)) ->
  advance_loop (drop idx parts) idx off cnt = Ok (i, o) ->
  o = 0 \/ o < length (default [] (parts !! i)).
Proof.
  remember (drop idx parts) as rest eqn:Hrest. revert idx off cnt Hrest.
  induction rest as [|p rest IH]; intros idx off cnt Hrest Hoff; simpl.
  - case_bool_decide; [|done]. intros ?. by simplify_eq.
  - assert (parts !! idx = Some p) as Hp.
    { rewrite <- (Nat.add_0_r idx), <- lookup_drop, <- Hrest. done. }
    case_bool_decide; [|case_bool_decide].
    + intros ?. by simplify_eq.
    + intros ?. simplify_eq. rewrite Hp in *. simpl in *. lia.
    + apply IH; [|by left]. rewrite (drop_lookup_cons _ _ _ Hp) in Hrest. congruence.
Qed.

Lemma advance_dense buf cnt buf' : dense buf -> advance buf cnt = Ok buf' -> dense buf'.
Proof.
  destruct buf as [bs|parts size idx off]; simpl.
  - intros _. case_bool_decide; [|done]. intros ?. by simplify_eq.
  - intros [Hd Ho]. case_bool_decide; [|done].
    destruct (advance_loop _ _ _ _) as [[i o]| |] eqn:E; simpl; [|done..].
    intros ?. simplify_eq. simpl. eauto using advance_loop_dense.
Qed.

Lemma copy_out_dense fuel buf :
  wf buf -> dense buf -> blen buf < fuel -> copy_out fuel buf = Some (Ok (contents buf)).
Proof.
  revert buf. induction fuel as [|f IH]; intros buf Hwf Hd Hf; [lia|]. simpl.
  case_bool_decide as Hz.
  - repeat f_equal. symmetry. apply nil_length_inv. by rewrite contents_length.
  - destruct (chunk_spec buf Hwf) as (c & k & -> & Hc & Hne). simpl.
    pose proof (contents_length buf Hwf) as Hlen. rewrite Hc, length_app in Hlen.
    destruct (advance_ok buf (length c) Hwf) as (buf' & E & Hwf' & Hc'); [lia|].
    rewrite E. simpl. rewrite Hc, drop_app_length in Hc'.
    assert (length c <> 0) by (specialize (Hne Hd Hz); by destruct c).
    rewrite IH; eauto using advance_dense.
    + simpl. by rewrite Hc', Hc.
    + rewrite <- contents_length, Hc' by done. lia.
Qed.

(** A buffer without empty parts can be copied out through [chunk] and
    [advance] alone: the loop ends after at most one step per byte and yields
    the contents. *)
Theorem buffer_copy_out buf :
  wf buf -> dense buf -> copy_out (S (blen buf)) buf = Some (Ok (contents buf)).
Proof. intros. apply copy_out_dense; [done.. | lia]. Qed.

Lemma buffer_copy_out_witness :
  copy_out (S (blen (from_parts [[x01; x02]; [x03]]))) (from_parts [[x01; x02]; [x03]])
    = Some (Ok (contents (from_parts [[x01; x02]; [x03]]))).
Proof.
  apply buffer_copy_out; [apply from_parts_wf|]. split; [by repeat constructor | by left].
Defined.

(** An empty part breaks the contract: [chunk] is empty although bytes
    remain, so the copying loop of [to_vec] and [to_bytes] never ends, whatever
    the fuel. *)
Theorem buffer_empty_part_diverges fuel :
  chunk (from_parts [[]; [x01]]) = Ok [] /\ blen (from_parts [[]; [x01]]) = 1 /\
  copy_out fuel (from_parts [[]; [x01]]) = None.
Proof.
  split_and!; [done | done |]. change (from_parts [[]; [x01]]) with (NonContiguous [[]; [x01]] 1 0 0).
  induction fuel as [|f IH]; [done|]. simpl. by rewrite IH.
Qed.

(** The vectored views ignore [size]: after a truncation they still expose
    bytes past the end of the buffer, where [chunk] and iteration do not. *)
Theorem chunks_vectored_past_end :
  exists buf ss, wf buf /\ chunks_vectored buf 8 = Ok ss /\ to_io_slice buf = Ok ss /\
    length (concat ss) > blen buf.
Proof.
  exists (truncate (from_parts [[x01; x02]; [x03; x04]]) 1), [[x01; x02]; [x03; x04]].
  split_and!; [apply truncate_wf, from_parts_wf | done | done | simpl; lia].
Qed.

(** ** Chunked iteration *)

Fixpoint chunks_all (fuel : nat) (c : BufferChunks) : option (result (list Buffer)) :=
  match fuel with
  | O => None
  | S f =>
      match chunks_next c with
      | Ok (None, _) => Some (Ok [])
      | Ok (Some x, c') => r ← chunks_all f c'; Some (xs ← r; Ok (x :: xs))
      | Err e => Some (Err e)
      | Panic => Some Panic
      end
  end.

Lemma chunks_all_spec fuel c :
  wf (c_buffer c) -> c_len c = blen (c_buffer c) -> chunk_size c <> 0 ->
  position c <= c_len c -> c_len c - position c < fuel ->
  exists xs, chunks_all fuel c = Some (Ok xs) /\
    concat (contents <$> xs) = drop (position c) (contents (c_buffer c)) /\
    Forall (fun x => wf x /\ 0 < blen x <= chunk_size c) xs /\
    Forall (fun x => blen x = chunk_size c) (removelast xs).
Proof.
  revert c. induction fuel as [|f IH]; intros [buf n pos len] Hwf Hlen Hn Hpos Hf; simpl in *; [lia|].
  subst len. unfold chunks_next; simpl. case_bool_decide as Hp.
  - exists []. split_and!; try constructor; simpl.
    rewrite drop_ge; [done|]. rewrite contents_length by done. lia.
  - set (e := min (pos + n) (blen buf)).
    assert (pos < e <= blen buf /\ (e = pos + n \/ e = blen buf) /\ e <= pos + n) as He by (subst e; lia).
    clearbody e.
    assert (exists x, slice buf (Included (Z.of_nat pos)) (Excluded (Z.of_nat e)) = Ok x /\ wf x /\
      contents x = take (e - pos) (drop pos (contents buf))) as (x & -> & Hx & Hcx).
    { unfold slice. simpl. rewrite !bool_decide_eq_true_2, bool_decide_eq_false_2 by lia.
      rewrite !Nat2Z.id. destruct (advance_ok (truncate buf e) pos) as (x & -> & Hx & Hcx).
      - by apply truncate_wf.
      - rewrite <- contents_length, truncate_contents by by apply truncate_wf.
        rewrite length_take, contents_length by done. lia.
      - exists x. split_and!; [done | done |]. by rewrite Hcx, truncate_contents, skipn_firstn_comm. }
    simpl.
    assert (blen x = e - pos) as Hbx.
    { rewrite <- contents_length, Hcx, length_take, length_drop, contents_length by done. lia. }
    destruct (IH (mkChunks buf n e (blen buf))) as (xs & -> & Hc & Hall & Hex); simpl; [done..|lia|lia|].
    simpl in *. exists (x :: xs). split_and!; [done | | constructor; [split; [done|lia] | done] |].
    + csimpl. rewrite Hc, Hcx.
      replace e with (pos + (e - pos)) at 2 by lia. rewrite <- drop_drop. by rewrite take_drop.
    + destruct xs as [|x' xs]; [done|]. constructor; [|done].
      destruct He as (? & [->| ->] & ?); [lia|]. exfalso.
      inversion Hall as [|? ? [_ Hx'] _]; subst.
      assert (length (concat (contents <$> x' :: xs)) = 0) as Hz.
      { rewrite Hc, length_drop, contents_length by done. lia. }
      csimpl in Hz. rewrite length_app in Hz.
      assert (wf x') by (by inversion Hall as [|? ? [] ?]).
      rewrite contents_length in Hz by done. lia.
Qed.

(** Splitting a buffer into chunks terminates; the chunks concatenate to
    the buffer, none is empty, and all but the last have exactly the requested
    size. *)
Theorem buffer_chunks_spec buf n :
  wf buf -> n <> 0 ->
  exists c xs, chunks buf n = Ok c /\ chunks_all (S (blen buf)) c = Some (Ok xs) /\
    concat (contents <$> xs) = contents buf /\
    Forall (fun x => wf x /\ 0 < blen x <= n) xs /\
    Forall (fun x => blen x = n) (removelast xs).
Proof.
  intros Hwf Hn. unfold chunks. rewrite bool_decide_eq_false_2 by done.
  eexists _. destruct (chunks_all_spec (S (blen buf)) (mkChunks buf n 0 (blen buf)))
    as (xs & ? & ? & ? & ?); simpl; [done.. | lia | lia |].
  exists xs. done.
Qed.

Lemma buffer_chunks_spec_witness :
  exists c xs, chunks (from_parts [[x01; x02]; [x03]]) 2 = Ok c /\
    chunks_all (S (blen (from_parts [[x01; x02]; [x03]]))) c = Some (Ok xs) /\
    concat (contents <$> xs) = contents (from_parts [[x01; x02]; [x03]]) /\
    Forall (fun x => wf x /\ 0 < blen x <= 2) xs /\
    Forall (fun x => blen x = 2) (removelast xs).
Proof. apply buffer_chunks_spec; [apply from_parts_wf | done]. Defined.

(** ** Queues of buffers *)

Lemma qwf_nil : qwf [].
Proof. apply Forall_nil_2. Qed.

Lemma qpush_spec q buf :
  qwf q -> wf buf ->
  qwf (qpush q buf) /\ qcontents (qpush q buf) = qcontents q ++ contents buf.
Proof.
  intros Hq Hb. unfold qpush, is_empty. case_bool_decide as Hz.
  - split; [done|]. rewrite (nil_length_inv (contents buf)) by (by rewrite contents_length).
    by rewrite app_nil_r.
  - unfold qwf, qcontents. rewrite fmap_app, concat_app. csimpl. rewrite app_nil_r.
    split; [|done]. apply Forall_app. split; [done|]. by repeat constructor.
Qed.

Lemma qlen_spec q : qwf q -> qlen q = length (qcontents q).
Proof.
  unfold qlen, qcontents. induction 1 as [|buf q [Hb _] _ IH]; csimpl; [done|].
  by rewrite IH, length_app, contents_length.
Qed.

Lemma flatten_spec q :
  qwf q -> exists xs, flatten q = Ok xs /\ concat xs = qcontents q.
Proof.
  unfold qcontents. induction 1 as [|buf q [Hb _] _ (xs & IH & Hxs)]; csimpl; [by exists []|].
  destruct (iterate_ok buf Hb) as (ys & -> & Hys). simpl. rewrite IH. simpl.
  eexists; split; [done|]. by rewrite concat_app, Hys, Hxs.
Qed.

Lemma qcollect_ok q :
  qwf q -> exists buf, qcollect q = Ok buf /\ wf buf /\ contents buf = qcontents q.
Proof.
  intros Hq. destruct q as [|b1 [|b2 q]].
  - by exists new.
  - exists b1. inversion Hq as [|? ? [Hb _] _]; subst. unfold qcontents. csimpl.
    by rewrite app_nil_r.
  - destruct (flatten_spec _ Hq) as (xs & E & Hxs). exists (from_parts xs).
    unfold qcollect. rewrite E. split_and!; [done | apply from_parts_wf |].
    by rewrite from_parts_contents.
Qed.

Lemma qadvance_loop_spec q n :
  qwf q -> n <= length (qcontents q) ->
  exists q', qadvance_loop q n = Ok q' /\ qwf q' /\ qcontents q' = drop n (qcontents q).
Proof.
  unfold qcontents. intros Hq. revert n. induction Hq as [|buf q [Hb Hne] Hq IH]; intros n Hn.
  - simpl in *. assert (n = 0) as -> by lia. exists []. split_and!; [done | constructor | done].
  - simpl. case_bool_decide; [subst; exists (buf :: q); split_and!; [done | by constructor | done]|].
    csimpl in *. rewrite length_app, contents_length in Hn by done. case_bool_decide as Hlt.
    + destruct (advance_ok buf n Hb) as (buf' & -> & Hb' & Hc'); [lia|]. simpl.
      exists (buf' :: q). csimpl. rewrite Hc', drop_app_le by (rewrite contents_length by done; lia).
      split_and!; [done | | done]. constructor; [split; [done|] | done].
      rewrite <- contents_length, Hc', length_drop, contents_length by done. lia.
    + destruct (IH (n - blen buf)) as (q' & -> & Hq' & Hc'); [lia|].
      exists q'. split_and!; [done | done |].
      rewrite Hc', drop_app_ge by (rewrite contents_length by done; lia).
      by rewrite contents_length.
Qed.

(** The buffer queue is a byte queue: pushing appends, its length is the
    number of queued bytes, collecting returns the queued bytes as one buffer,
    advancing drops that many bytes from the front, and only advancing past the
    end panics. *)
Theorem queue_refines_bytes q buf n :
  qwf q -> wf buf ->
  (qwf (qpush q buf) /\ qcontents (qpush q buf) = qcontents q ++ contents buf) /\
  qlen q = length (qcontents q) /\
  (exists out, qcollect (qtake q).1 = Ok out /\ wf out /\ contents out = qcontents q) /\
  (if bool_decide (n <= qlen q)
   then exists q', qadvance q n = Ok q' /\ qwf q' /\ qcontents q' = drop n (qcontents q)
   else qadvance q n = Panic).
Proof.
  intros Hq Hb. split; [by apply qpush_spec|]. split; [by apply qlen_spec|].
  split; [by apply qcollect_ok|].
  unfold qadvance. case_bool_decide as Hn; [|done].
  apply qadvance_loop_spec; [done|]. by rewrite <- qlen_spec.
Qed.

Lemma queue_refines_bytes_witness :
  let q := [Contiguous [x01; x02]; from_parts [[x03]; [x04]]] in
  let buf := Contiguous [x05] in
  (qwf (qpush q buf) /\ qcontents (qpush q buf) = qcontents q ++ contents buf) /\
  qlen q = length (qcontents q) /\
  (exists out, qcollect (qtake q).1 = Ok out /\ wf out /\ contents out = qcontents q) /\
  (if bool_decide (3 <= qlen q)
   then exists q', qadvance q 3 = Ok q' /\ qwf q' /\ qcontents q' = drop 3 (qcontents q)
   else qadvance q 3 = Panic).
Proof.
  apply queue_refines_bytes; [|done].
  repeat constructor; simpl; (done || lia).
Defined.

(** ** [FlexBuf] *)

(** Either it is collecting fewer bytes than its capacity, or frozen and not
    collecting. *)
Definition flex_wf (f : FlexBuf) : Prop :=
  f_len f = length (f_buf f) /\
  match frozen f with Some _ => f_len f = 0 | None => f_len f <= cap f end.

(** The bytes in flight, oldest first. *)
Definition flex_contents (f : FlexBuf) : bytes := default [] (frozen f) ++ f_buf f.

Lemma flex_put_ok f bs n f' :
  flex_wf f -> flex_put f bs = (n, f') ->
  flex_wf f' /\ n <= length bs /\ flex_contents f' = flex_contents f ++ take n bs /\
  (is_Some (flex_get f) -> n = 0 /\ f' = f) /\
  (flex_get f = None -> n = min (cap f - f_len f) (length bs)) /\ cap f' = cap f /\
  (flex_get f' = None -> length (f_buf f') < cap f').
Proof.
  destruct f as [c len buf [x|]]; intros [Hlen Hf]; simpl in *; subst len.
  - unfold flex_put; simpl. intros ?. simplify_eq.
    assert (buf = []) as -> by by apply nil_length_inv.
    split_and!; unfold flex_wf, flex_contents; simpl; rewrite ?app_nil_r; try done; lia.
  - unfold flex_put; simpl. case_bool_decide; intros ?; simplify_eq; unfold flex_wf, flex_contents; simpl;
      rewrite ?length_app, ?length_take, ?app_nil_r; split_and!; try done; try lia; intros []; done.
Qed.

Lemma flex_freeze_ok f :
  flex_wf f -> flex_wf (flex_freeze f) /\ flex_contents (flex_freeze f) = flex_contents f /\
  cap (flex_freeze f) = cap f /\ f_len (flex_freeze f) = 0 /\ (f_len f = 0 -> flex_freeze f = f) /\
  (f_len f <> 0 -> flex_get (flex_freeze f) = Some (flex_contents f)).
Proof.
  destruct f as [c len buf [x|]]; intros [Hlen Hf]; simpl in *; subst len.
  - assert (buf = []) as -> by by apply nil_length_inv.
    split_and!; unfold flex_freeze, flex_wf, flex_contents; simpl; rewrite ?app_nil_r; done.
  - unfold flex_freeze; simpl; case_bool_decide; unfold flex_wf, flex_contents; simpl; rewrite ?app_nil_r;
      split_and!; done.
Qed.

(** What is frozen is everything in flight. *)
Lemma flex_frozen_contents f x : flex_wf f -> flex_get f = Some x -> flex_contents f = x.
Proof.
  intros [Hl Hf] Hx. unfold flex_get in Hx. rewrite Hx in Hf. rewrite Hf in Hl. symmetry in Hl.
  unfold flex_contents. rewrite Hx, (nil_length_inv _ Hl). simpl. by rewrite app_nil_r.
Qed.

(** A flexible buffer never drops or reorders a byte: what [put] accepts is
    a prefix of the input appended to the bytes in flight, freezing moves them
    without change, and advancing removes bytes from the front; a frozen buffer
    accepts nothing, and a full one freezes at once. *)
Theorem flex_buf_spec f bs cnt :
  flex_wf f ->
  (let '(n, f') := flex_put f bs in
   flex_wf f' /\ n <= length bs /\ flex_contents f' = flex_contents f ++ take n bs /\
   (is_Some (flex_get f) -> n = 0 /\ f' = f) /\
   (flex_get f' = None -> length (f_buf f') < cap f')) /\
  (flex_wf (flex_freeze f) /\ flex_contents (flex_freeze f) = flex_contents f /\
   (f_len f <> 0 -> flex_get (flex_freeze f) = Some (flex_contents f))) /\
  (match flex_get f with
   | Some x => if bool_decide (cnt <= length x) then
       exists f', flex_advance f cnt = Ok f' /\ flex_wf f' /\
         flex_contents f' = drop cnt (flex_contents f)
       else flex_advance f cnt = Panic
   | None => flex_advance f cnt = Panic
   end).
Proof.
  intros Hf. split_and!.
  - destruct (flex_put f bs) as [n f'] eqn:E. apply flex_put_ok in E as (? & ? & ? & ? & _ & _ & ?); [|done].
    by split_and!.
  - by destruct (flex_freeze_ok f Hf).
  - by destruct (flex_freeze_ok f Hf) as (_ & ? & _).
  - by destruct (flex_freeze_ok f Hf) as (_ & _ & _ & _ & _ & ?).
  - destruct f as [c len buf [x|]]; [|done]. destruct Hf as [Hlen Hf]; simpl in *; subst len.
    assert (buf = []) as -> by by apply nil_length_inv.
    unfold flex_advance, flex_wf, flex_contents; simpl. rewrite ?app_nil_r.
    case_bool_decide; [|done]. eexists; split; [done|].
    case_bool_decide as E; simpl; rewrite ?app_nil_r; [by rewrite E; split_and!; [| lia |] | done].
Qed.

Lemma flex_buf_spec_witness :
  let f := mkFlex 4 2 [x01; x02] None in
  (let '(n, f') := flex_put f [x03; x04; x05] in
   flex_wf f' /\ n <= 3 /\ flex_contents f' = flex_contents f ++ take n [x03; x04; x05] /\
   (is_Some (flex_get f) -> n = 0 /\ f' = f) /\
   (flex_get f' = None -> length (f_buf f') < cap f')) /\
  (flex_wf (flex_freeze f) /\ flex_contents (flex_freeze f) = flex_contents f /\
   (f_len f <> 0 -> flex_get (flex_freeze f) = Some (flex_contents f))) /\
  (match flex_get f with
   | Some x => if bool_decide (1 <= length x) then
       exists f', flex_advance f 1 = Ok f' /\ flex_wf f' /\
         flex_contents f' = drop 1 (flex_contents f)
       else flex_advance f 1 = Panic
   | None => flex_advance f 1 = Panic
   end).
Proof. apply (flex_buf_spec (mkFlex 4 2 [x01; x02] None) [x03; x04; x05] 1). by split; simpl; [|lia]. Defined.

#[export] Hint Resolve qwf_nil from_parts_wf truncate_wf contents_length qpush_spec qcollect_ok : opendal.
#[export] Hint Rewrite from_parts_contents truncate_contents : opendal.

(** ** The bytes of a number *)

Definition byte_of (n : Z) : Byte.byte := default x00 (Byte.of_N (Z.to_N (n mod 256))).

Lemma byte_of_to_N n : Z.of_N (Byte.to_N (byte_of n)) = (n mod 256)%Z.
Proof.
  unfold byte_of. pose proof (Z.mod_pos_bound n 256 ltac:(lia)) as Hb.
  destruct (Byte.of_N (Z.to_N (n mod 256))) as [x|] eqn:E; simpl.
  - apply Byte.to_of_N in E. rewrite E. lia.
  - apply Byte.of_N_None_iff in E. lia.
Qed.

(** [u64::to_le_bytes] and [u64::from_le_bytes]. *)
Definition le_bytes (n : Z) : bytes := (fun i => byte_of (n / 256 ^ Z.of_nat i)) <$> seq 0 8.
Definition from_le_bytes (bs : bytes) : Z := foldr (fun x n => Z.of_N (Byte.to_N x) + 256 * n)%Z 0%Z bs.

Lemma from_le_bytes_le m i n :
  (0 <= n)%Z ->
  from_le_bytes ((fun j => byte_of (n / 256 ^ Z.of_nat j)) <$> seq i m) = ((n / 256 ^ Z.of_nat i) mod 256 ^ Z.of_nat m)%Z.
Proof.
  intros Hn. revert i. induction m as [|m IH]; intros i; simpl.
  { by rewrite Z.mod_1_r. }
  rewrite IH, byte_of_to_N. rewrite !Nat2Z.inj_succ, !Z.pow_succ_r by lia.
  rewrite (Z.mul_comm 256 (256 ^ Z.of_nat i)), <- Z.div_div by lia.
  rewrite (Z.rem_mul_r _ 256 (256 ^ Z.of_nat m)) by lia. lia.
Qed.

Lemma le_bytes_roundtrip n : is_u64 n -> from_le_bytes (le_bytes n) = n.
Proof.
  unfold is_u64, le_bytes, u64_max. intros Hn. rewrite from_le_bytes_le by lia. simpl. rewrite Z.div_1_r.
  apply Z.mod_small. lia.
Qed.
