(* ===== verification/Types.v ===== *)
(** * Data model ([types/metadata.rs], [types/capability.rs], [raw/ops.rs],
      [raw/operation.rs], [raw/oio/entry.rs])

    The records the operations exchange, and the [oio] traits as type classes:
    what a lister, a writer, a reader or a deleter promises to the component
    that wraps it.  A handle is a state; a method with [&mut self] is a
    computation on it.  A timestamp is its instant as an integer. *)

From S2P Require Import Prelude Errors Path Range Buffer.
From stdpp Require Import options.

(** ** [Metadata] *)

Record Metadata : Type := mkMeta {
  m_mode : EntryMode;
  m_is_current : option bool;
  m_is_deleted : bool;
  m_cache_control : option str;
  m_content_disposition : option str;
  m_content_length : option Z;
  m_content_md5 : option str;
  m_content_type : option str;
  m_content_encoding : option str;
  m_etag : option str;
  m_last_modified : option Z;
  m_version : option str;
  m_user_metadata : option (gmap (list ascii) (list ascii));
}.

Definition meta_new (mode : EntryMode) : Metadata :=
  {| m_mode := mode; m_is_current := None; m_is_deleted := false; m_cache_control := None;
     m_content_disposition := None; m_content_length := None; m_content_md5 := None;
     m_content_type := None; m_content_encoding := None; m_etag := None;
     m_last_modified := None; m_version := None; m_user_metadata := None |}.
(** [#[derive(Default)]]: the mode is [Unknown]. *)
Definition meta_default : Metadata := meta_new Unknown.

Definition set_mode (v : EntryMode) (m : Metadata) : Metadata :=
  {| m_mode := v; m_is_current := m_is_current m; m_is_deleted := m_is_deleted m;
     m_cache_control := m_cache_control m; m_content_disposition := m_content_disposition m;
     m_content_length := m_content_length m; m_content_md5 := m_content_md5 m;
     m_content_type := m_content_type m; m_content_encoding := m_content_encoding m;
     m_etag := m_etag m; m_last_modified := m_last_modified m; m_version := m_version m;
     m_user_metadata := m_user_metadata m |}.

Definition set_content_length (v : Z) (m : Metadata) : Metadata :=
  {| m_mode := m_mode m; m_is_current := m_is_current m; m_is_deleted := m_is_deleted m;
     m_cache_control := m_cache_control m; m_content_disposition := m_content_disposition m;
     m_content_length := Some v; m_content_md5 := m_content_md5 m;
     m_content_type := m_content_type m; m_content_encoding := m_content_encoding m;
     m_etag := m_etag m; m_last_modified := m_last_modified m; m_version := m_version m;
     m_user_metadata := m_user_metadata m |}.

(** The other setters; [with_*] does what [set_*] does. *)
Definition set_is_current (v : bool) (m : Metadata) : Metadata :=
  {| m_mode := m_mode m; m_is_current := Some v; m_is_deleted := m_is_deleted m;
     m_cache_control := m_cache_control m; m_content_disposition := m_content_disposition m;
     m_content_length := m_content_length m; m_content_md5 := m_content_md5 m; m_content_type
     := m_content_type m; m_content_encoding := m_content_encoding m; m_etag := m_etag m;
     m_last_modified := m_last_modified m; m_version := m_version m; m_user_metadata :=
     m_user_metadata m |}.
Definition set_is_deleted (v : bool) (m : Metadata) : Metadata :=
  {| m_mode := m_mode m; m_is_current := m_is_current m; m_is_deleted := v; m_cache_control
     := m_cache_control m; m_content_disposition := m_content_disposition m; m_content_length
     := m_content_length m; m_content_md5 := m_content_md5 m; m_content_type :=
     m_content_type m; m_content_encoding := m_content_encoding m; m_etag := m_etag m;
     m_last_modified := m_last_modified m; m_version := m_version m; m_user_metadata :=
     m_user_metadata m |}.
Definition set_cache_control (v : str) (m : Metadata) : Metadata :=
  {| m_mode := m_mode m; m_is_current := m_is_current m; m_is_deleted := m_is_deleted m;
     m_cache_control := Some v; m_content_disposition := m_content_disposition m;
     m_content_length := m_content_length m; m_content_md5 := m_content_md5 m; m_content_type
     := m_content_type m; m_content_encoding := m_content_encoding m; m_etag := m_etag m;
     m_last_modified := m_last_modified m; m_version := m_version m; m_user_metadata :=
     m_user_metadata m |}.
Definition set_content_md5 (v : str) (m : Metadata) : Metadata :=
  {| m_mode := m_mode m; m_is_current := m_is_current m; m_is_deleted := m_is_deleted m;
     m_cache_control := m_cache_control m; m_content_disposition := m_content_disposition m;
     m_content_length := m_content_length m; m_content_md5 := Some v; m_content_type :=
     m_content_type m; m_content_encoding := m_content_encoding m; m_etag := m_etag m;
     m_last_modified := m_last_modified m; m_version := m_version m; m_user_metadata :=
     m_user_metadata m |}.
Definition set_content_type (v : str) (m : Metadata) : Metadata :=
  {| m_mode := m_mode m; m_is_current := m_is_current m; m_is_deleted := m_is_deleted m;
     m_cache_control := m_cache_control m; m_content_disposition := m_content_disposition m;
     m_content_length := m_content_length m; m_content_md5 := m_content_md5 m; m_content_type
     := Some v; m_content_encoding := m_content_encoding m; m_etag := m_etag m;
     m_last_modified := m_last_modified m; m_version := m_version m; m_user_metadata :=
     m_user_metadata m |}.
Definition set_content_encoding (v : str) (m : Metadata) : Metadata :=
  {| m_mode := m_mode m; m_is_current := m_is_current m; m_is_deleted := m_is_deleted m;
     m_cache_control := m_cache_control m; m_content_disposition := m_content_disposition m;
     m_content_length := m_content_length m; m_content_md5 := m_content_md5 m; m_content_type
     := m_content_type m; m_content_encoding := Some v; m_etag := m_etag m; m_last_modified
     := m_last_modified m; m_version := m_version m; m_user_metadata := m_user_metadata m |}.
Definition set_last_modified (v : Z) (m : Metadata) : Metadata :=
  {| m_mode := m_mode m; m_is_current := m_is_current m; m_is_deleted := m_is_deleted m;
     m_cache_control := m_cache_control m; m_content_disposition := m_content_disposition m;
     m_content_length := m_content_length m; m_content_md5 := m_content_md5 m; m_content_type
     := m_content_type m; m_content_encoding := m_content_encoding m; m_etag := m_etag m;
     m_last_modified := Some v; m_version := m_version m; m_user_metadata := m_user_metadata
     m |}.
Definition set_etag (v : str) (m : Metadata) : Metadata :=
  {| m_mode := m_mode m; m_is_current := m_is_current m; m_is_deleted := m_is_deleted m;
     m_cache_control := m_cache_control m; m_content_disposition := m_content_disposition m;
     m_content_length := m_content_length m; m_content_md5 := m_content_md5 m; m_content_type
     := m_content_type m; m_content_encoding := m_content_encoding m; m_etag := Some v;
     m_last_modified := m_last_modified m; m_version := m_version m; m_user_metadata :=
     m_user_metadata m |}.
Definition set_content_disposition (v : str) (m : Metadata) : Metadata :=
  {| m_mode := m_mode m; m_is_current := m_is_current m; m_is_deleted := m_is_deleted m;
     m_cache_control := m_cache_control m; m_content_disposition := Some v; m_content_length
     := m_content_length m; m_content_md5 := m_content_md5 m; m_content_type :=
     m_content_type m; m_content_encoding := m_content_encoding m; m_etag := m_etag m;
     m_last_modified := m_last_modified m; m_version := m_version m; m_user_metadata :=
     m_user_metadata m |}.
Definition set_version (v : str) (m : Metadata) : Metadata :=
  {| m_mode := m_mode m; m_is_current := m_is_current m; m_is_deleted := m_is_deleted m;
     m_cache_control := m_cache_control m; m_content_disposition := m_content_disposition m;
     m_content_length := m_content_length m; m_content_md5 := m_content_md5 m; m_content_type
     := m_content_type m; m_content_encoding := m_content_encoding m; m_etag := m_etag m;
     m_last_modified := m_last_modified m; m_version := Some v; m_user_metadata :=
     m_user_metadata m |}.
Definition with_user_metadata (v : gmap (list ascii) (list ascii)) (m : Metadata) : Metadata :=
  {| m_mode := m_mode m; m_is_current := m_is_current m; m_is_deleted := m_is_deleted m;
     m_cache_control := m_cache_control m; m_content_disposition := m_content_disposition m;
     m_content_length := m_content_length m; m_content_md5 := m_content_md5 m; m_content_type
     := m_content_type m; m_content_encoding := m_content_encoding m; m_etag := m_etag m;
     m_last_modified := m_last_modified m; m_version := m_version m; m_user_metadata := Some
     v |}.

Definition content_length (m : Metadata) : Z := default 0%Z (m_content_length m).
Definition has_content_length (m : Metadata) : bool := bool_decide (is_Some (m_content_length m)).

(** ** [oio::Entry] *)

Record Entry : Type := mkEntry { e_path : str; e_meta : Metadata }.

Definition entry_new (path : str) (meta : Metadata) : Entry :=
  {| e_path := if bool_decide (path = []) then [slash] else path; e_meta := meta |}.
Definition e_mode (e : Entry) : EntryMode := m_mode (e_meta e).
Definition set_path (path : str) (e : Entry) : Entry := {| e_path := path; e_meta := e_meta e |}.
Definition entry_set_mode (m : EntryMode) (e : Entry) : Entry :=
  {| e_path := e_path e; e_meta := set_mode m (e_meta e) |}.

(** ** [Operation] *)

Inductive Operation : Type :=
  | OInfo | OCreateDir | ORead | OWrite | OCopy | ORename | OStat | ODelete | OList | OPresign.

Definition show_operation (v : Operation) : str :=
  match v with
  | OInfo => b "info" | OCreateDir => b "create_dir" | ORead => b "read" | OWrite => b "write"
  | OCopy => b "copy" | ORename => b "rename" | OStat => b "stat" | ODelete => b "delete"
  | OList => b "list" | OPresign => b "presign"
  end.

(** ** [Capability] *)

Record Capability : Type := mkCapability {
  cap_stat : bool;
  cap_stat_with_if_match : bool;
  cap_stat_with_if_none_match : bool;
  cap_stat_with_if_modified_since : bool;
  cap_stat_with_if_unmodified_since : bool;
  cap_stat_with_override_cache_control : bool;
  cap_stat_with_override_content_disposition : bool;
  cap_stat_with_override_content_type : bool;
  cap_stat_with_version : bool;
  cap_read : bool;
  cap_read_with_if_match : bool;
  cap_read_with_if_none_match : bool;
  cap_read_with_if_modified_since : bool;
  cap_read_with_if_unmodified_since : bool;
  cap_read_with_override_cache_control : bool;
  cap_read_with_override_content_disposition : bool;
  cap_read_with_override_content_type : bool;
  cap_read_with_version : bool;
  cap_write : bool;
  cap_write_can_multi : bool;
  cap_write_can_empty : bool;
  cap_write_can_append : bool;
  cap_write_with_content_type : bool;
  cap_write_with_content_disposition : bool;
  cap_write_with_content_encoding : bool;
  cap_write_with_cache_control : bool;
  cap_write_with_if_match : bool;
  cap_write_with_if_none_match : bool;
  cap_write_with_if_not_exists : bool;
  cap_write_with_user_metadata : bool;
  cap_write_multi_max_size : option nat;
  cap_write_multi_min_size : option nat;
  cap_write_total_max_size : option nat;
  cap_create_dir : bool;
  cap_delete : bool;
  cap_delete_with_version : bool;
  cap_delete_with_recursive : bool;
  cap_delete_max_size : option nat;
  cap_copy : bool;
  cap_copy_with_if_not_exists : bool;
  cap_copy_with_if_match : bool;
  cap_copy_can_multi : bool;
  cap_copy_multi_max_size : option nat;
  cap_copy_multi_min_size : option nat;
  cap_rename : bool;
  cap_list : bool;
  cap_list_with_limit : bool;
  cap_list_with_start_after : bool;
  cap_list_with_recursive : bool;
  cap_list_with_versions : bool;
  cap_list_with_deleted : bool;
  cap_presign : bool;
  cap_presign_read : bool;
  cap_presign_stat : bool;
  cap_presign_write : bool;
  cap_presign_delete : bool;
  cap_shared : bool;
}.

(** [#[derive(Default)]]. *)
Definition capability_default : Capability :=
  {| cap_stat := false; cap_stat_with_if_match := false; cap_stat_with_if_none_match := false;
     cap_stat_with_if_modified_since := false; cap_stat_with_if_unmodified_since := false;
     cap_stat_with_override_cache_control := false;
     cap_stat_with_override_content_disposition := false;
     cap_stat_with_override_content_type := false; cap_stat_with_version := false;
     cap_read := false; cap_read_with_if_match := false; cap_read_with_if_none_match := false;
     cap_read_with_if_modified_since := false; cap_read_with_if_unmodified_since := false;
     cap_read_with_override_cache_control := false;
     cap_read_with_override_content_disposition := false;
     cap_read_with_override_content_type := false; cap_read_with_version := false;
     cap_write := false; cap_write_can_multi := false; cap_write_can_empty := false;
     cap_write_can_append := false; cap_write_with_content_type := false;
     cap_write_with_content_disposition := false; cap_write_with_content_encoding := false;
     cap_write_with_cache_control := false; cap_write_with_if_match := false;
     cap_write_with_if_none_match := false; cap_write_with_if_not_exists := false;
     cap_write_with_user_metadata := false; cap_write_multi_max_size := None;
     cap_write_multi_min_size := None; cap_write_total_max_size := None;
     cap_create_dir := false; cap_delete := false; cap_delete_with_version := false;
     cap_delete_with_recursive := false; cap_delete_max_size := None; cap_copy := false;
     cap_copy_with_if_not_exists := false; cap_copy_with_if_match := false;
     cap_copy_can_multi := false; cap_copy_multi_max_size := None;
     cap_copy_multi_min_size := None; cap_rename := false; cap_list := false;
     cap_list_with_limit := false; cap_list_with_start_after := false;
     cap_list_with_recursive := false; cap_list_with_versions := false;
     cap_list_with_deleted := false; cap_presign := false; cap_presign_read := false;
     cap_presign_stat := false; cap_presign_write := false; cap_presign_delete := false;
     cap_shared := false |}.

(** ** Arguments of the operations *)

Record OpDelete : Type := mkOpDelete { del_version : option str; del_recursive : bool }.
#[export] Instance OpDelete_eq_dec : EqDecision OpDelete.
Proof. solve_decision. Defined.
#[export] Instance OpDelete_countable : Countable OpDelete.
Proof.
  refine (inj_countable' (fun d => (del_version d, del_recursive d))
            (fun '(v, r) => mkOpDelete v r) _).
  by intros [].
Defined.
Definition op_delete : OpDelete := {| del_version := None; del_recursive := false |}.
Definition del_with_version (v : str) (d : OpDelete) : OpDelete :=
  {| del_version := Some v; del_recursive := del_recursive d |}.
Definition del_with_recursive (r : bool) (d : OpDelete) : OpDelete :=
  {| del_version := del_version d; del_recursive := r |}.

Record OpList : Type := mkOpList {
  list_limit : option nat; list_start_after : option str;
  list_recursive : bool; list_versions : bool; list_deleted : bool;
}.
Definition op_list : OpList :=
  {| list_limit := None; list_start_after := None; list_recursive := false;
     list_versions := false; list_deleted := false |}.
Definition list_with_recursive (r : bool) (o : OpList) : OpList :=
  {| list_limit := list_limit o; list_start_after := list_start_after o; list_recursive := r;
     list_versions := list_versions o; list_deleted := list_deleted o |}.
Definition list_with_limit (n : nat) (o : OpList) : OpList :=
  {| list_limit := Some n; list_start_after := list_start_after o;
     list_recursive := list_recursive o; list_versions := list_versions o;
     list_deleted := list_deleted o |}.

Record OpRead : Type := mkOpRead {
  read_range : BytesRange;
  read_if_match : option str; read_if_none_match : option str;
  read_if_modified_since : option Z; read_if_unmodified_since : option Z;
  read_override_content_type : option str; read_override_cache_control : option str;
  read_override_content_disposition : option str;
  read_version : option str;
}.
Definition read_with_range (r : BytesRange) (o : OpRead) : OpRead :=
  {| read_range := r; read_if_match := read_if_match o;
     read_if_none_match := read_if_none_match o;
     read_if_modified_since := read_if_modified_since o;
     read_if_unmodified_since := read_if_unmodified_since o;
     read_override_content_type := read_override_content_type o;
     read_override_cache_control := read_override_cache_control o;
     read_override_content_disposition := read_override_content_disposition o;
     read_version := read_version o |}.
Definition op_read : OpRead :=
  {| read_range := mkRange 0 None; read_if_match := None; read_if_none_match := None;
     read_if_modified_since := None; read_if_unmodified_since := None;
     read_override_content_type := None; read_override_cache_control := None;
     read_override_content_disposition := None; read_version := None |}.

Record OpStat : Type := mkOpStat {
  stat_if_match : option str; stat_if_none_match : option str;
  stat_if_modified_since : option Z; stat_if_unmodified_since : option Z;
  stat_override_content_type : option str; stat_override_cache_control : option str;
  stat_override_content_disposition : option str;
  stat_version : option str;
}.
Definition op_stat : OpStat :=
  {| stat_if_match := None; stat_if_none_match := None; stat_if_modified_since := None;
     stat_if_unmodified_since := None; stat_override_content_type := None;
     stat_override_cache_control := None; stat_override_content_disposition := None;
     stat_version := None |}.
Definition stat_with_version (v : str) (o : OpStat) : OpStat :=
  {| stat_if_match := stat_if_match o; stat_if_none_match := stat_if_none_match o;
     stat_if_modified_since := stat_if_modified_since o;
     stat_if_unmodified_since := stat_if_unmodified_since o;
     stat_override_content_type := stat_override_content_type o;
     stat_override_cache_control := stat_override_cache_control o;
     stat_override_content_disposition := stat_override_content_disposition o;
     stat_version := Some v |}.

Record OpWrite : Type := mkOpWrite {
  write_append : bool;
  write_concurrent : nat;
  write_content_type : option str; write_content_disposition : option str;
  write_content_encoding : option str; write_cache_control : option str;
  write_if_match : option str; write_if_none_match : option str; write_if_not_exists : bool;
  write_user_metadata : option (gmap (list ascii) (list ascii));
}.
Definition op_write : OpWrite :=
  {| write_append := false; write_concurrent := 0; write_content_type := None;
     write_content_disposition := None; write_content_encoding := None;
     write_cache_control := None; write_if_match := None; write_if_none_match := None;
     write_if_not_exists := false; write_user_metadata := None |}.

Record OpWriter : Type := mkOpWriter { writer_chunk : option nat }.

Record OpReader : Type := mkOpReader {
  reader_concurrent : nat; reader_chunk : option nat; reader_gap : option nat;
  reader_prefetch : nat; reader_content_length_hint : option Z;
}.
Definition op_reader : OpReader :=
  {| reader_concurrent := 1; reader_chunk := None; reader_gap := None;
     reader_prefetch := 0; reader_content_length_hint := None |}.

Record OpCopy : Type := mkOpCopy { copy_if_not_exists : bool; copy_if_match : option str }.

(** ** The [oio] traits *)

(** [oio::List]. *)
Class List (L : Type) : Type := list_next : M L Error (option Entry).
Arguments list_next {L _} _.

(** [oio::Read]. *)
Class Read (R : Type) : Type := read_buf : M R Error Buffer.
Arguments read_buf {R _} _.

(** [oio::Write]. *)
Class Write (W : Type) : Type := {
  w_write : Buffer -> M W Error unit;
  w_close : M W Error Metadata;
  w_abort : M W Error unit;
}.

(** [oio::Delete]. *)
Class Delete (D : Type) : Type := {
  d_delete : str -> OpDelete -> M D Error unit;
  d_close : M D Error unit;
}.

(** [oio::Copy]. *)
Class Copy (C : Type) : Type := {
  c_next : M C Error (option nat);
  c_close : M C Error Metadata;
  c_abort : M C Error unit;
}.

(** ** A sink that keeps what it is given

    The simplest implementation of [oio::Write]: it appends every buffer to a
    log and fails when [fail] says so.  It instantiates the writers' theorems
    in their witnesses. *)
Record LogWriter : Type := mkLog { log : Datatypes.list bytes; fail : bool }.
#[export] Instance LogWriter_Write : Write LogWriter := {
  w_write buf s :=
    if fail s then (Err (error Unexpected "failed"), s)
    else (Ok tt, {| log := log s ++ [contents buf]; fail := fail s |});
  w_close s := (Ok meta_default, s);
  w_abort s := (Ok tt, s);
}.
