(* ===== verification/Access.v ===== *)
(** * The accessor and its gate ([raw/accessor.rs], [layers/correctness_check.rs])

    [Access] is the interface between the operator, the layers and a service: a
    record of operations on the service's state, which holds the one
    [AccessorInfo] every layer shares.  A layer is a function from accessors to
    accessors.  [CorrectnessCheckLayer], the outermost layer of every operator,
    refuses arguments the service does not support.

    [presign] only builds a request of the [http] crate and is left out. *)

From S2P Require Import Prelude Errors Path Range Buffer Types.
From stdpp Require Import options.

(** ** [AccessorInfo] *)

Record AccessorInfo : Type := mkInfo {
  scheme : str; root : str; name : str;
  native_capability : Capability; full_capability : Capability;
}.

Definition info_default : AccessorInfo := mkInfo [] [] [] capability_default capability_default.
Definition set_scheme (v : str) (i : AccessorInfo) : AccessorInfo :=
  mkInfo v (root i) (name i) (native_capability i) (full_capability i).
Definition set_root (v : str) (i : AccessorInfo) : AccessorInfo :=
  mkInfo (scheme i) v (name i) (native_capability i) (full_capability i).
Definition set_name (v : str) (i : AccessorInfo) : AccessorInfo :=
  mkInfo (scheme i) (root i) v (native_capability i) (full_capability i).
Definition set_native_capability (c : Capability) (i : AccessorInfo) : AccessorInfo :=
  mkInfo (scheme i) (root i) (name i) c c.
Definition update_full_capability (f : Capability -> Capability) (i : AccessorInfo) : AccessorInfo :=
  mkInfo (scheme i) (root i) (name i) (native_capability i) (f (full_capability i)).

(** ** [Access] *)

Record OpCopier : Type := mkOpCopier {
  copier_concurrent : nat; copier_chunk : option nat; copier_source_content_length_hint : option Z;
}.

Record Access (A Rd Wr Ls Dl Cp : Type) : Type := mkAccess {
  a_info : A -> AccessorInfo;
  a_create_dir : str -> M A Error unit;
  a_stat : str -> OpStat -> M A Error Metadata;
  a_read : str -> OpRead -> M A Error (option Metadata * Rd);
  a_write : str -> OpWrite -> M A Error Wr;
  a_delete : M A Error Dl;
  a_list : str -> OpList -> M A Error Ls;
  a_copy : str -> str -> OpCopy -> OpCopier -> M A Error Cp;
  a_rename : str -> str -> M A Error unit;
}.
Arguments mkAccess {A Rd Wr Ls Dl Cp}.
Arguments a_info {A Rd Wr Ls Dl Cp}.
Arguments a_create_dir {A Rd Wr Ls Dl Cp}.
Arguments a_stat {A Rd Wr Ls Dl Cp}.
Arguments a_read {A Rd Wr Ls Dl Cp}.
Arguments a_write {A Rd Wr Ls Dl Cp}.
Arguments a_delete {A Rd Wr Ls Dl Cp}.
Arguments a_list {A Rd Wr Ls Dl Cp}.
Arguments a_copy {A Rd Wr Ls Dl Cp}.
Arguments a_rename {A Rd Wr Ls Dl Cp}.

(** What the trait answers for an operation a service does not implement. *)
Definition not_supported : Error := error Unsupported "operation is not supported".
Definition unsupported_access {A Rd Wr Ls Dl Cp} (info : A -> AccessorInfo) : Access A Rd Wr Ls Dl Cp :=
  {| a_info := info; a_create_dir _ := throw not_supported; a_stat _ _ := throw not_supported;
     a_read _ _ := throw not_supported; a_write _ _ := throw not_supported; a_delete := throw not_supported;
     a_list _ _ := throw not_supported; a_copy _ _ _ _ := throw not_supported; a_rename _ _ := throw not_supported |}.

(** ** [CorrectnessCheckLayer] *)

Definition new_unsupported_error (info : AccessorInfo) (op : Operation) (args : string) : Error :=
  with_operation (show_operation op)
    {| kind := Unsupported;
       message := b "The service " ++ scheme info ++ b " does not support the operation " ++ show_operation op ++
         b " with the arguments " ++ b args ++ b ". Please verify if the relevant flags have been enabled, or submit an issue if you believe this is incorrect.";
       status := Permanent; operation := []; context := []; source := None |}.

(** A deleter behind the check, with the [AccessorInfo] of its accessor; the
    capability only changes while an operator is being built. *)
Record CheckWrapper (D : Type) : Type := mkCheck { chk_info : AccessorInfo; chk_inner : D }.
Arguments mkCheck {D}.
Arguments chk_info {D}.
Arguments chk_inner {D}.

Definition is_some {X} (o : option X) : bool := bool_decide (is_Some o).

Section Correctness.
  Context {A Rd Wr Ls Dl Cp : Type} `{Delete Dl}.
  Variable inner : Access A Rd Wr Ls Dl Cp.

Definition checked_read (path : str) (args : OpRead) : M A Error (option Metadata * Rd) :=
  info ← gets (a_info inner);
  let cap := full_capability info in
  if negb (cap_read_with_version cap) && is_some (read_version args) then
    throw (new_unsupported_error info ORead "version")
  else if negb (cap_read_with_if_match cap) && is_some (read_if_match args) then
    throw (new_unsupported_error info ORead "if_match")
  else if negb (cap_read_with_if_none_match cap) && is_some (read_if_none_match args) then
    throw (new_unsupported_error info ORead "if_none_match")
  else if negb (cap_read_with_if_modified_since cap) && is_some (read_if_modified_since args) then
    throw (new_unsupported_error info ORead "if_modified_since")
  else if negb (cap_read_with_if_unmodified_since cap) && is_some (read_if_unmodified_since args) then
    throw (new_unsupported_error info ORead "if_unmodified_since")
  else a_read inner path args.

Definition checked_write (path : str) (args : OpWrite) : M A Error Wr :=
  info ← gets (a_info inner);
  let cap := full_capability info in
  if write_append args && negb (cap_write_can_append cap) then
    throw (new_unsupported_error info OWrite "append")
  else if write_if_not_exists args && negb (cap_write_with_if_not_exists cap) then
    throw (new_unsupported_error info OWrite "if_not_exists")
  else if is_some (write_if_match args) && negb (cap_write_with_if_match cap) then
    throw (new_unsupported_error info OWrite "if_match")
  else
    match write_if_none_match args with
    | Some if_none_match =>
        if negb (cap_write_with_if_none_match cap) then
          let err := new_unsupported_error info OWrite "if_none_match" in
          throw (if bool_decide (if_none_match = b "*") && cap_write_with_if_not_exists cap
                 then with_context (b "hint") (b "use if_not_exists instead") err else err)
        else a_write inner path args
    | None => a_write inner path args
    end.

Definition checked_stat (path : str) (args : OpStat) : M A Error Metadata :=
  info ← gets (a_info inner);
  let cap := full_capability info in
  if negb (cap_stat_with_version cap) && is_some (stat_version args) then
    throw (new_unsupported_error info OStat "version")
  else if negb (cap_stat_with_if_match cap) && is_some (stat_if_match args) then
    throw (new_unsupported_error info OStat "if_match")
  else if negb (cap_stat_with_if_none_match cap) && is_some (stat_if_none_match args) then
    throw (new_unsupported_error info OStat "if_none_match")
  else if negb (cap_stat_with_if_modified_since cap) && is_some (stat_if_modified_since args) then
    throw (new_unsupported_error info OStat "if_modified_since")
  else if negb (cap_stat_with_if_unmodified_since cap) && is_some (stat_if_unmodified_since args) then
    throw (new_unsupported_error info OStat "if_unmodified_since")
  else a_stat inner path args.

Definition checked_copy (from to : str) (args : OpCopy) (opts : OpCopier) : M A Error Cp :=
  info ← gets (a_info inner);
  let cap := full_capability info in
  if copy_if_not_exists args && negb (cap_copy_with_if_not_exists cap) then
    throw (new_unsupported_error info OCopy "if_not_exists")
  else if is_some (copy_if_match args) && negb (cap_copy_with_if_match cap) then
    throw (new_unsupported_error info OCopy "if_match")
  else a_copy inner from to args opts.

Definition checked_delete : M A Error (CheckWrapper Dl) :=
  info ← gets (a_info inner);
  deleter ← a_delete inner;
  mret (mkCheck info deleter).

Definition check_delete (info : AccessorInfo) (args : OpDelete) : result unit :=
  if is_some (del_version args) && negb (cap_delete_with_version (full_capability info)) then
    Err (new_unsupported_error info ODelete "version")
  else if del_recursive args && negb (cap_delete_with_recursive (full_capability info)) then
    Err (new_unsupported_error info ODelete "recursive")
  else Ok tt.

Definition check_set_inner (d : Dl) (s : CheckWrapper Dl) : CheckWrapper Dl := mkCheck (chk_info s) d.

Definition wrapper_delete (path : str) (args : OpDelete) : M (CheckWrapper Dl) Error unit :=
  s ← get;
  lift (check_delete (chk_info s) args);;
  zoom chk_inner check_set_inner (d_delete path args).

#[global] Instance CheckWrapper_Delete : Delete (CheckWrapper Dl) :=
  {| d_delete := wrapper_delete; d_close := zoom chk_inner check_set_inner d_close |}.

Definition correctness_layer : Access A Rd Wr Ls (CheckWrapper Dl) Cp :=
  {| a_info := a_info inner; a_create_dir := a_create_dir inner; a_stat := checked_stat; a_read := checked_read;
     a_write := checked_write; a_delete := checked_delete; a_list := a_list inner; a_copy := checked_copy;
     a_rename := a_rename inner |}.

End Correctness.

(** *** What is supported *)

Definition implies_cap {X} (o : option X) (cap : bool) : Prop := is_Some o -> cap = true.

Definition read_supported (cap : Capability) (o : OpRead) : Prop :=
  implies_cap (read_version o) (cap_read_with_version cap) /\
  implies_cap (read_if_match o) (cap_read_with_if_match cap) /\
  implies_cap (read_if_none_match o) (cap_read_with_if_none_match cap) /\
  implies_cap (read_if_modified_since o) (cap_read_with_if_modified_since cap) /\
  implies_cap (read_if_unmodified_since o) (cap_read_with_if_unmodified_since cap).

Definition stat_supported (cap : Capability) (o : OpStat) : Prop :=
  implies_cap (stat_version o) (cap_stat_with_version cap) /\
  implies_cap (stat_if_match o) (cap_stat_with_if_match cap) /\
  implies_cap (stat_if_none_match o) (cap_stat_with_if_none_match cap) /\
  implies_cap (stat_if_modified_since o) (cap_stat_with_if_modified_since cap) /\
  implies_cap (stat_if_unmodified_since o) (cap_stat_with_if_unmodified_since cap).

Definition write_supported (cap : Capability) (o : OpWrite) : Prop :=
  (write_append o = true -> cap_write_can_append cap = true) /\
  (write_if_not_exists o = true -> cap_write_with_if_not_exists cap = true) /\
  implies_cap (write_if_match o) (cap_write_with_if_match cap) /\
  implies_cap (write_if_none_match o) (cap_write_with_if_none_match cap).

Definition copy_supported (cap : Capability) (o : OpCopy) : Prop :=
  (copy_if_not_exists o = true -> cap_copy_with_if_not_exists cap = true) /\
  implies_cap (copy_if_match o) (cap_copy_with_if_match cap).

Definition delete_supported (cap : Capability) (o : OpDelete) : Prop :=
  implies_cap (del_version o) (cap_delete_with_version cap) /\
  (del_recursive o = true -> cap_delete_with_recursive cap = true).

(** A call behind a gate: it is the inner call when the gate is open, and
    otherwise refuses with [Unsupported] and leaves the state alone. *)
Definition gated {S X} (P : Prop) (outer inner : M S Error X) (s : S) : Prop :=
  (P -> outer s = inner s) /\ (~ P -> exists e, outer s = (Err e, s) /\ kind e = Unsupported).

Lemma implies_cap_spec {X} (o : option X) c : implies_cap o c <-> negb c && is_some o = false.
Proof. unfold implies_cap, is_some. case_bool_decide; destruct c; naive_solver. Qed.

Lemma implies_cap_Some {X} (x : X) c : implies_cap (Some x) c <-> c = true.
Proof. unfold implies_cap. naive_solver. Qed.

Lemma implies_cap_None {X} c : implies_cap (None : option X) c <-> True.
Proof. unfold implies_cap. split; [done|]. intros _ [? [=]]. Qed.

Lemma implies_cap_flag (x c : bool) : (x = true -> c = true) <-> x && negb c = false.
Proof. destruct x, c; naive_solver. Qed.

Local Ltac gate := unfold mbind, M_bind, gets, throw, lift in *; simpl in *;
  repeat case_match; simpl in *; simplify_eq; intuition (try congruence); eauto.

Section CorrectnessSpec.
  Context {A Rd Wr Ls Dl Cp : Type} `{Delete Dl}.
  Variable inner : Access A Rd Wr Ls Dl Cp.

Lemma checked_read_gated path args s :
  gated (read_supported (full_capability (a_info inner s)) args) (checked_read inner path args) (a_read inner path args) s.
Proof. unfold gated, read_supported, checked_read. rewrite !implies_cap_spec. gate. Qed.

Lemma checked_stat_gated path args s :
  gated (stat_supported (full_capability (a_info inner s)) args) (checked_stat inner path args) (a_stat inner path args) s.
Proof. unfold gated, stat_supported, checked_stat. rewrite !implies_cap_spec. gate. Qed.

Lemma checked_copy_gated from to args opts s :
  gated (copy_supported (full_capability (a_info inner s)) args) (checked_copy inner from to args opts)
    (a_copy inner from to args opts) s.
Proof.
  unfold gated, copy_supported, checked_copy. rewrite implies_cap_spec, implies_cap_flag, (andb_comm (negb _)). gate.
Qed.

Lemma checked_write_gated path args s :
  gated (write_supported (full_capability (a_info inner s)) args) (checked_write inner path args)
    (a_write inner path args) s.
Proof.
  unfold gated, write_supported, checked_write. rewrite !implies_cap_flag, (implies_cap_spec (write_if_match args)),
    (andb_comm (negb _)).
  destruct (write_if_none_match args); rewrite ?implies_cap_Some, ?implies_cap_None; gate.
  all: by destruct (cap_write_with_if_none_match _).
Qed.

Lemma wrapper_delete_gated path args (s : CheckWrapper Dl) :
  gated (delete_supported (full_capability (chk_info s)) args) (wrapper_delete path args)
    (zoom chk_inner check_set_inner (d_delete path args)) s.
Proof.
  unfold gated, delete_supported, wrapper_delete, check_delete.
  rewrite implies_cap_spec, implies_cap_flag, (andb_comm (negb _)). gate.
Qed.

(** The outermost gate: a read, write, stat, copy or delete whose arguments
    the service supports is passed on unchanged; any other is refused with
    [Unsupported] and the service, its readers, writers and deleters never see
    it. *)
Theorem correctness_check_gates :
  let acc := correctness_layer inner in
  forall s, let cap := full_capability (a_info inner s) in
  (forall path args, gated (read_supported cap args) (a_read acc path args) (a_read inner path args) s) /\
  (forall path args, gated (write_supported cap args) (a_write acc path args) (a_write inner path args) s) /\
  (forall path args, gated (stat_supported cap args) (a_stat acc path args) (a_stat inner path args) s) /\
  (forall from to args opts,
     gated (copy_supported cap args) (a_copy acc from to args opts) (a_copy inner from to args opts) s) /\
  (forall d s', a_delete acc s = (Ok d, s') -> forall path args,
     gated (delete_supported cap args) (d_delete path args) (zoom chk_inner check_set_inner (d_delete path args)) d).
Proof.
  intros acc s cap. split_and!; intros.
  - apply checked_read_gated.
  - apply checked_write_gated.
  - apply checked_stat_gated.
  - apply checked_copy_gated.
  - assert (chk_info d = a_info inner s) as Hd.
    { change (a_delete acc) with (checked_delete inner) in *. unfold checked_delete, mbind, M_bind, mret, M_ret, gets in *.
      simpl in *. by destruct (a_delete inner s) as [[]]; simplify_eq/=. }
    subst cap. rewrite <- Hd. apply wrapper_delete_gated.
Qed.

End CorrectnessSpec.
