(* ===== verification/Context.v ===== *)
(** * Error context ([layers/error_context.rs])

    [ErrorContextLayer], the innermost layer of every operator, records in each
    error which operation failed where and after how much progress.  Callers
    branch on the kind and the status of an error: the theorems show that the
    layer changes neither, and that nothing else is changed at all, except that
    it cannot print the range of a read of size zero, and panics. *)

From S2P Require Import Prelude Errors Path Range Buffer Types Access.
From stdpp Require Import options.

(** ** What is added to an error *)

(** [err.with_operation(op).with_context("service", scheme)] and then the pairs. *)
Definition in_context (op : Operation) (scheme : str) (extra : list (str * str)) (e : Error) : Error :=
  foldl (fun e '(k, v) => with_context k v e)
    (with_context (b "service") scheme (with_operation (show_operation op) e)) extra.

(** [map_err] with what is added to the context; [None] when printing it panics. *)
Definition map_context {X} (op : Operation) (scheme : str) (extra : option (list (str * str))) (r : result X) : result X :=
  match r with
  | Err e => match extra with Some pairs => Err (in_context op scheme pairs e) | None => Panic end
  | r => r
  end.

(** [("range", range.to_string())]: [to_string] panics when [Display] fails. *)
Definition range_pair (range : BytesRange) : option (str * str) := (fun s => (b "range", s)) <$> show_range range.

(** ** [ErrorContextWrapper] *)

Record ErrorContextWrapper (T : Type) : Type := mkContext {
  ec_scheme : str; ec_path : str; ec_inner : T; ec_range : BytesRange; ec_processed : Z;
}.
Arguments mkContext {T}.
Arguments ec_scheme {T}.
Arguments ec_path {T}.
Arguments ec_inner {T}.
Arguments ec_range {T}.
Arguments ec_processed {T}.

Definition context_new {T} (scheme path : str) (inner : T) : ErrorContextWrapper T :=
  mkContext scheme path inner (mkRange 0 None) 0.
Definition context_with_range {T} (range : BytesRange) (s : ErrorContextWrapper T) : ErrorContextWrapper T :=
  mkContext (ec_scheme s) (ec_path s) (ec_inner s) range (ec_processed s).

(** A call of the handle inside: progress is counted when it succeeds, context
    added when it fails. *)
Definition contextual {T X} (progress : X -> Z) (op : Operation) (extra : ErrorContextWrapper T -> option (list (str * str)))
    (m : M T Error X) : M (ErrorContextWrapper T) Error X := fun s =>
  let '(r, inner) := m (ec_inner s) in
  let s := mkContext (ec_scheme s) (ec_path s) inner (ec_range s)
             (match r with Ok x => wrap64 (ec_processed s + progress x) | _ => ec_processed s end) in
  (map_context op (ec_scheme s) (extra s) r, s).

(** [no_progress] for calls that count nothing. *)
Definition no_progress {X} : X -> Z := fun _ => 0%Z.

Section Handles.
  Context {T : Type}.
  Implicit Types s : ErrorContextWrapper T.

Definition at_path s : str * str := (b "path", ec_path s).
Definition counted (key : string) s : str * str := (b key, show_u64 (ec_processed s)).

Definition context_read `{Read T} : M (ErrorContextWrapper T) Error Buffer :=
  contextual (fun bs => Z.of_nat (blen bs)) ORead
    (fun s => rg ← range_pair (ec_range s); Some [at_path s; rg; counted "read" s]) read_buf.

Definition context_write `{Write T} (bs : Buffer) : M (ErrorContextWrapper T) Error unit :=
  let size := Z.of_nat (blen bs) in
  contextual (fun _ => size) OWrite
    (fun s => Some [at_path s; (b "size", show_u64 size); counted "written" s]) (w_write bs).
Definition context_close `{Write T} : M (ErrorContextWrapper T) Error Metadata :=
  contextual no_progress OWrite (fun s => Some [at_path s; counted "written" s]) w_close.
Definition context_abort `{Write T} : M (ErrorContextWrapper T) Error unit :=
  contextual no_progress OWrite (fun s => Some [at_path s; counted "processed" s]) w_abort.

Definition context_next `{List T} : M (ErrorContextWrapper T) Error (option Entry) :=
  contextual (fun e => if is_some e then 1%Z else 0%Z) OList (fun s => Some [at_path s; counted "listed" s]) list_next.

Definition context_delete `{Delete T} (path : str) (args : OpDelete) : M (ErrorContextWrapper T) Error unit :=
  contextual no_progress ODelete (fun s => Some [(b "path", path); counted "deleted" s]) (d_delete path args).
Definition context_delete_close `{Delete T} : M (ErrorContextWrapper T) Error unit :=
  contextual no_progress ODelete (fun s => Some [counted "deleted" s]) d_close.

Definition context_copy_next `{Copy T} : M (ErrorContextWrapper T) Error (option nat) :=
  contextual (fun n => Z.of_nat (default 0 n)) OCopy (fun s => Some [at_path s; counted "copied" s]) c_next.
Definition context_copy_close `{Copy T} : M (ErrorContextWrapper T) Error Metadata :=
  contextual no_progress OCopy (fun s => Some [at_path s; counted "copied" s]) c_close.
Definition context_copy_abort `{Copy T} : M (ErrorContextWrapper T) Error unit :=
  contextual no_progress OCopy (fun s => Some [at_path s; counted "copied" s]) c_abort.

#[global] Instance Context_Read `{Read T} : Read (ErrorContextWrapper T) := context_read.
#[global] Instance Context_Write `{Write T} : Write (ErrorContextWrapper T) :=
  {| w_write := context_write; w_close := context_close; w_abort := context_abort |}.
#[global] Instance Context_List `{List T} : List (ErrorContextWrapper T) := context_next.
#[global] Instance Context_Delete `{Delete T} : Delete (ErrorContextWrapper T) :=
  {| d_delete := context_delete; d_close := context_delete_close |}.
#[global] Instance Context_Copy `{Copy T} : Copy (ErrorContextWrapper T) :=
  {| c_next := context_copy_next; c_close := context_copy_close; c_abort := context_copy_abort |}.

End Handles.

(** ** [ErrorContextAccessor] *)

Section Layer.
  Context {A Rd Wr Ls Dl Cp : Type}.
  Variable inner : Access A Rd Wr Ls Dl Cp.

(** [m.await.map(wrap).map_err(..)]. *)
Definition accessing {X Y} (op : Operation) (extra : option (list (str * str))) (wrap : str -> X -> Y) (m : M A Error X)
  : M A Error Y := fun s =>
  let sc := scheme (a_info inner s) in
  let '(r, s') := m s in
  (map_context op sc extra (wrap sc <$> r), s').

Definition same {X} : str -> X -> X := fun _ x => x.

Definition error_context_layer : Access A (ErrorContextWrapper Rd) (ErrorContextWrapper Wr) (ErrorContextWrapper Ls)
                                          (ErrorContextWrapper Dl) (ErrorContextWrapper Cp) :=
  {| a_info := a_info inner;
     a_create_dir path := accessing OCreateDir (Some [(b "path", path)]) same (a_create_dir inner path);
     a_stat path args := accessing OStat (Some [(b "path", path)]) same (a_stat inner path args);
     a_read path args :=
       accessing ORead (rg ← range_pair (read_range args); Some [(b "path", path); rg])
         (fun sc '(rp, r) => (rp, context_with_range (read_range args) (context_new sc path r)))
         (a_read inner path args);
     a_write path args :=
       accessing OWrite (Some [(b "path", path)]) (fun sc w => context_new sc path w) (a_write inner path args);
     a_delete := accessing ODelete (Some []) (fun sc d => context_new sc [] d) (a_delete inner);
     a_list path args :=
       accessing OList (Some [(b "path", path)]) (fun sc l => context_new sc path l) (a_list inner path args);
     a_copy from to args opts :=
       accessing OCopy (Some [(b "from", from); (b "to", to)]) (fun sc c => context_new sc to c)
         (a_copy inner from to args opts);
     a_rename from to := accessing ORename (Some [(b "from", from); (b "to", to)]) same (a_rename inner from to) |}.

End Layer.

(** ** What the layer leaves alone *)

(** [e'] is [e] with more context. *)
Definition only_context (e e' : Error) : Prop :=
  kind e' = kind e /\ status e' = status e /\ message e' = message e /\ source e' = source e /\
  context e `prefix_of` context e'.

Lemma in_context_only op sc extra e : only_context e (in_context op sc extra e).
Proof.
  unfold in_context, only_context. set (e0 := with_context _ _ _).
  assert (kind e0 = kind e /\ status e0 = status e /\ message e0 = message e /\ source e0 = source e /\
    context e `prefix_of` context e0) as H0.
  { subst e0. unfold with_context, with_operation. simpl. split_and!; try done.
    case_bool_decide; rewrite <- ?app_assoc; apply prefix_app_r; reflexivity. }
  clearbody e0. revert e0 H0. induction extra as [|[k v] extra IH]; intros e0 H0; [done|]. simpl. apply IH.
  destruct H0 as (? & ? & ? & ? & Hc). unfold with_context. simpl. split_and!; try done. by apply prefix_app_r.
Qed.

(** What a call and the call through the layer have in common. *)
Definition transparent {X Y S S'} (wrap : X -> Y) (back : S' -> S) (inner : result X * S) (outer : result Y * S') : Prop :=
  back outer.2 = inner.2 /\
  match inner.1, outer.1 with
  | Ok x, Ok y => y = wrap x
  | Err e, Err e' => only_context e e'
  | Panic, Panic => True
  | _, _ => False
  end.

Lemma contextual_transparent {T X} progress op extra (m : M T Error X) s :
  (forall t, ec_scheme t = ec_scheme s -> ec_path t = ec_path s -> ec_range t = ec_range s -> is_Some (extra t)) ->
  transparent id ec_inner (m (ec_inner s)) (contextual progress op extra m s).
Proof.
  intros Hx. unfold contextual, transparent. destruct (m (ec_inner s)) as [[x|e|] t]; simpl; split; try done.
  set (s' := mkContext _ _ _ _ _). destruct (Hx s') as [pairs ->]; [done..|]. apply in_context_only.
Qed.

Section Transparent.
  Context {A Rd Wr Ls Dl Cp : Type} `{Read Rd, Write Wr, List Ls, Delete Dl, Copy Cp}.
  Variable inner : Access A Rd Wr Ls Dl Cp.

Lemma accessing_transparent {X Y} op extra (wrap : str -> X -> Y) (m : M A Error X) s :
  is_Some extra -> transparent (wrap (scheme (a_info inner s))) id (m s) (accessing inner op extra wrap m s).
Proof.
  intros [pairs ->]. unfold accessing, transparent. destruct (m s) as [[x|e|] t]; simpl; split; try done.
  apply in_context_only.
Qed.

(** A range that can be printed: not of size zero, and ending within [u64]. *)
Definition printable (range : BytesRange) : Prop := is_Some (show_range range).

Lemma range_pair_some range : printable range -> is_Some (range_pair range).
Proof. intros [x Hx]. unfold range_pair. rewrite Hx. by eexists. Qed.

(** Through the layer every operation does what it does without it: the service
    and the handles see the same calls and reach the same states, successes are
    the same, and an error keeps its kind, status, message, source and context,
    to which more context is added; reads only when their range can be printed. *)
Theorem error_context_transparent :
  let acc := error_context_layer inner in
  (forall path args s, printable (read_range args) ->
     transparent (fun '(rp, r) => (rp, context_with_range (read_range args)
       (context_new (scheme (a_info inner s)) path r))) id (a_read inner path args s) (a_read acc path args s)) /\
  (forall path args s, transparent (context_new (scheme (a_info inner s)) path) id
       (a_write inner path args s) (a_write acc path args s)) /\
  (forall path args s, transparent (context_new (scheme (a_info inner s)) path) id
       (a_list inner path args s) (a_list acc path args s)) /\
  (forall s, transparent (context_new (scheme (a_info inner s)) []) id (a_delete inner s) (a_delete acc s)) /\
  (forall path args s, transparent id id (a_stat inner path args s) (a_stat acc path args s)) /\
  (forall (r : ErrorContextWrapper Rd), printable (ec_range r) ->
     transparent id ec_inner (read_buf (ec_inner r)) (read_buf r)) /\
  (forall bs (w : ErrorContextWrapper Wr), transparent id ec_inner (w_write bs (ec_inner w)) (w_write bs w)) /\
  (forall (w : ErrorContextWrapper Wr), transparent id ec_inner (w_close (ec_inner w)) (w_close w)) /\
  (forall (l : ErrorContextWrapper Ls), transparent id ec_inner (list_next (ec_inner l)) (list_next l)) /\
  (forall path args (d : ErrorContextWrapper Dl),
     transparent id ec_inner (d_delete path args (ec_inner d)) (d_delete path args d)) /\
  (forall (c : ErrorContextWrapper Cp), transparent id ec_inner (c_next (ec_inner c)) (c_next c)).
Proof.
  split_and!; intros; try (by apply contextual_transparent; intros; eexists).
  - apply (accessing_transparent _ _ (fun sc '(rp, r) => _)).
    destruct (range_pair_some (read_range args)) as [x ->]; [done | by eexists].
  - apply (accessing_transparent _ _ (fun sc w => context_new sc path w)). by eexists.
  - apply (accessing_transparent _ _ (fun sc w => context_new sc path w)). by eexists.
  - apply (accessing_transparent _ _ (fun sc w => context_new sc [] w)). by eexists.
  - apply (accessing_transparent _ _ same). by eexists.
  - apply contextual_transparent. intros t _ _ ->.
    destruct (range_pair_some (ec_range r)) as [x ->]; [done | by eexists].
Qed.

(** A read of size zero that fails panics instead of returning its error: the
    range of the context cannot be printed. *)
Theorem error_context_zero_range_panics path args s e s' :
  Range.size (read_range args) = Some 0%Z -> a_read inner path args s = (Err e, s') ->
  (a_read (error_context_layer inner) path args s).1 = Panic.
Proof.
  intros Hz E. unfold error_context_layer, accessing. cbn [a_read]. rewrite E. unfold range_pair, show_range.
  by rewrite Hz.
Qed.

End Transparent.
