(* ===== verification/Writers.v ===== *)
(** * Writing ([types/context/write.rs], [types/write/writer.rs],
      [raw/oio/write/append_write.rs], [one_shot_write.rs])

    The chunking layer between the public [Writer] and a service's
    [oio::Write], and the two adapters that need no task queue.  A service is
    anything that implements the traits; what it has accepted so far is
    observed through [WriteLog] and [AppendLog]. *)

From S2P Require Import Prelude Errors Path Range Buffer Types.
From stdpp Require Import options.

(** ** What a writer has accepted *)

(** A writer whose accepted buffers can be observed: a successful [write]
    appends its contents, nothing else changes the log. *)
Class WriteLog (W : Type) `{Write W} : Type := {
  wlog : W -> list bytes;
  wlog_write buf s s' :
    wf buf -> w_write buf s = (Ok tt, s') -> wlog s' = wlog s ++ [contents buf];
  wlog_write_err buf s r s' :
    w_write buf s = (r, s') -> r <> Ok tt -> wlog s' = wlog s;
  wlog_close s r s' : w_close s = (r, s') -> wlog s' = wlog s;
}.

#[export] Instance LogWriter_log : WriteLog LogWriter.
Proof.
  refine {| wlog := log |}.
  - intros buf s s' _ H. unfold w_write in H; simpl in H. by destruct (fail s); simplify_eq/=.
  - intros buf s r s' H Hr. unfold w_write in H; simpl in H. by destruct (fail s); simplify_eq/=.
  - intros s r s' H. unfold w_close in H; simpl in H. by simplify_eq.
Defined.

(** ** Chunk size *)

(** [WriteContext::calculate_chunk_size]. *)
Definition calculate_chunk_size (cap : Capability) (options : OpWriter) : option nat * bool :=
  let exact := bool_decide (is_Some (writer_chunk options)) in
  let base := match writer_chunk options with
              | Some c => Some c
              | None => cap_write_multi_min_size cap
              end in
  let chunk_size :=
    (fun size =>
       let size := match cap_write_multi_max_size cap with Some v => min size v | None => size end in
       match cap_write_multi_min_size cap with Some v => max size v | None => size end) <$> base in
  (chunk_size, exact).

(** The chunk size lies between the service's minimum and maximum part
    sizes whenever those are consistent, and it is the user's choice whenever
    the user's choice lies between them. *)
Theorem calculate_chunk_size_bounds cap options lo hi :
  cap_write_multi_min_size cap = Some lo -> cap_write_multi_max_size cap = Some hi -> lo <= hi ->
  exists n, (calculate_chunk_size cap options).1 = Some n /\ lo <= n <= hi /\
    (forall c, writer_chunk options = Some c -> lo <= c <= hi -> n = c).
Proof.
  intros Hlo Hhi Hle. unfold calculate_chunk_size. rewrite Hlo, Hhi. simpl.
  destruct (writer_chunk options) as [c|]; simpl; eexists; split_and!; try done; try lia.
  intros c' [= <-]. lia.
Qed.

(** A service with parts of 5 to 100 bytes. *)
Definition sample_cap : Capability :=
  mkCapability false false false false false false false false false false false false
    false false false false false false true true false false false false false false
    false false false false (Some 100) (Some 5) None false false false false None false
    false false false None None false false false false false false false false false
    false false false false.

Lemma calculate_chunk_size_bounds_witness :
  exists n, (calculate_chunk_size sample_cap (mkOpWriter (Some 20))).1 = Some n /\ 5 <= n <= 100 /\
    (forall c, writer_chunk (mkOpWriter (Some 20)) = Some c -> 5 <= c <= 100 -> n = c).
Proof. apply (calculate_chunk_size_bounds sample_cap); [done | done | lia]. Defined.

(** ** [WriteGenerator] *)

Record WriteGenerator (W : Type) : Type := mkGen {
  g_w : W; g_chunk_size : option nat; g_exact : bool; g_buffer : QueueBuf;
}.
Arguments mkGen {W}.
Arguments g_w {W}.
Arguments g_chunk_size {W}.
Arguments g_exact {W}.
Arguments g_buffer {W}.

Section Generator.
  Context {W : Type} `{HW : Write W}.

Definition set_w (w : W) (g : WriteGenerator W) : WriteGenerator W :=
  mkGen w (g_chunk_size g) (g_exact g) (g_buffer g).
Definition set_buffer (q : QueueBuf) (g : WriteGenerator W) : WriteGenerator W :=
  mkGen (g_w g) (g_chunk_size g) (g_exact g) q.

Definition gen_new (w : W) (chunk_size : option nat) (exact : bool) : WriteGenerator W :=
  mkGen w chunk_size exact [].

(** [self.w.write_dyn(buf).await?]. *)
Definition forward (buf : Buffer) : M (WriteGenerator W) Error unit := zoom g_w set_w (w_write buf).

(** [let buf = self.buffer.take().collect(); self.w.write_dyn(buf).await?]:
    the queue is emptied before the write is attempted. *)
Definition gen_flush : M (WriteGenerator W) Error unit :=
  q ← gets g_buffer;
  modify (set_buffer (qtake q).2);;
  buf ← lift (qcollect (qtake q).1);
  forward buf.

Definition gen_write (bs : Buffer) : M (WriteGenerator W) Error nat :=
  g ← get;
  match g_chunk_size g with
  | None => let size := blen bs in forward bs;; mret size
  | Some chunk_size =>
      if bool_decide (qlen (g_buffer g) + blen bs < chunk_size) then
        modify (set_buffer (qpush (g_buffer g) bs));; mret (blen bs)
      else if negb (g_exact g) then
        modify (set_buffer (qpush (g_buffer g) bs));; gen_flush;; mret (blen bs)
      else
        (if bool_decide (chunk_size <= qlen (g_buffer g)) then gen_flush else mret tt);;
        g ← get;
        let remaining := chunk_size - qlen (g_buffer g) in
        let bs := truncate bs remaining in
        modify (set_buffer (qpush (g_buffer g) bs));;
        mret (blen bs)
  end.

(** The loop of [close]: flushing empties the queue, so the second test ends it. *)
Fixpoint close_loop (fuel : nat) : M (WriteGenerator W) Error unit :=
  match fuel with
  | O => panic
  | S f =>
      q ← gets g_buffer;
      if qis_empty q then mret tt else gen_flush;; close_loop f
  end.
Definition gen_close : M (WriteGenerator W) Error Metadata :=
  close_loop 2;; zoom g_w set_w w_close.

Definition gen_abort : M (WriteGenerator W) Error unit :=
  modify (fun g => set_buffer (qclear (g_buffer g)) g);; zoom g_w set_w w_abort.

(** [Writer::write]: [None] is a loop still running when the fuel is gone. *)
Fixpoint writer_write (fuel : nat) (bs : Buffer) (g : WriteGenerator W)
  : option (result unit * WriteGenerator W) :=
  match fuel with
  | O => None
  | S f =>
      if is_empty bs then Some (Ok tt, g)
      else match gen_write bs g with
           | (Ok n, g') =>
               match advance bs n with
               | Ok bs' => writer_write f bs' g'
               | Err e => Some (Err e, g')
               | Panic => Some (Panic, g')
               end
           | (Err e, g') => Some (Err e, g')
           | (Panic, g') => Some (Panic, g')
           end
  end.

(** Several writes in a row, each one all the way. *)
Fixpoint writer_writes (bss : list Buffer) (g : WriteGenerator W)
  : option (result unit * WriteGenerator W) :=
  match bss with
  | [] => Some (Ok tt, g)
  | bs :: bss' =>
      match writer_write (S (blen bs)) bs g with
      | Some (Ok _, g') => writer_writes bss' g'
      | r => r
      end
  end.

End Generator.

(** ** Invariant and data integrity *)

Section GeneratorSpec.
  Context {W : Type} `{WriteLog W}.
  Implicit Types g : WriteGenerator W.

(** The queue is well formed, the chunk size is not zero, and the queue never
    holds more than one chunk. *)
Definition gen_wf g : Prop :=
  qwf (g_buffer g) /\
  match g_chunk_size g with
  | None => g_buffer g = []
  | Some n => n <> 0 /\ qlen (g_buffer g) <= n
  end.

(** Every byte handed to the generator: what the service has, then the queue. *)
Definition gen_data g : bytes := concat (wlog (g_w g)) ++ qcontents (g_buffer g).

(** The sizes the chunking promises for a buffer sent to the service. *)
Definition chunk_ok (chunk_size : option nat) (exact : bool) (x : bytes) : Prop :=
  match chunk_size with
  | None => True
  | Some n => if exact then length x = n else n <= length x
  end.

(** One step's effect: same configuration, the data grew by [added], the service
    received only well-sized chunks. *)
Definition step_ok g (added : bytes) g' : Prop :=
  g_chunk_size g' = g_chunk_size g /\ g_exact g' = g_exact g /\ gen_wf g' /\
  gen_data g' = gen_data g ++ added /\
  exists news, wlog (g_w g') = wlog (g_w g) ++ news /\
    Forall (chunk_ok (g_chunk_size g) (g_exact g)) news.

Lemma step_ok_trans g1 a1 g2 a2 g3 :
  step_ok g1 a1 g2 -> step_ok g2 a2 g3 -> step_ok g1 (a1 ++ a2) g3.
Proof.
  intros (Hc1 & He1 & _ & Hd1 & n1 & Hl1 & Hf1) (Hc2 & He2 & Hw & Hd2 & n2 & Hl2 & Hf2).
  split_and!; [congruence | congruence | done | by rewrite Hd2, Hd1, app_assoc |].
  exists (n1 ++ n2). rewrite Hl2, Hl1, app_assoc. split; [done|].
  apply Forall_app. split; [done|]. by rewrite Hc1, He1 in Hf2.
Qed.

Lemma forward_ok buf g g' :
  wf buf -> forward buf g = (Ok tt, g') ->
  exists w', g' = set_w w' g /\ wlog w' = wlog (g_w g) ++ [contents buf].
Proof.
  intros Hb. unfold forward, zoom. destruct (w_write buf (g_w g)) as [r w'] eqn:E.
  intros ?. simplify_eq. exists w'. split; [done|]. by apply wlog_write.
Qed.

Lemma gen_flush_ok g g' :
  qwf (g_buffer g) -> gen_flush g = (Ok tt, g') ->
  exists w', g' = set_w w' (set_buffer [] g) /\
    wlog w' = wlog (g_w g) ++ [qcontents (g_buffer g)].
Proof.
  intros Hq. unfold gen_flush, mbind, M_bind, gets, modify, lift. simpl.
  destruct (qcollect_ok _ Hq) as (buf & -> & Hb & Hc). intros Hf.
  apply forward_ok in Hf as (w' & -> & Hl); [|done]. exists w'. rewrite Hc in Hl. done.
Qed.

Lemma step_ok_refl g : gen_wf g -> step_ok g [] g.
Proof.
  intros Hg. split_and!; try done; [by rewrite app_nil_r|]. exists []. by rewrite app_nil_r.
Qed.

(** Queueing a buffer that fits. *)
Lemma push_step g n bs :
  gen_wf g -> wf bs -> g_chunk_size g = Some n -> qlen (g_buffer g) + blen bs <= n ->
  step_ok g (contents bs) (set_buffer (qpush (g_buffer g) bs) g).
Proof.
  intros [Hq Hc] Hb Hn Hle. rewrite Hn in Hc.
  destruct (qpush_spec _ _ Hq Hb) as [Hq' Hc'].
  unfold step_ok, gen_data, gen_wf; simpl. rewrite Hn, Hc', app_assoc.
  rewrite (qlen_spec _ Hq'), Hc', length_app, contents_length, <- qlen_spec by done.
  split_and!; try done; [by destruct Hc|]. exists []. by rewrite app_nil_r.
Qed.

(** Sending the whole queue, which must be a well-sized chunk. *)
Lemma flush_step g g' n :
  qwf (g_buffer g) -> g_chunk_size g = Some n -> n <> 0 ->
  chunk_ok (Some n) (g_exact g) (qcontents (g_buffer g)) ->
  gen_flush g = (Ok tt, g') -> step_ok g [] g' /\ g_buffer g' = [].
Proof.
  intros Hq Hn Hn0 Hchunk Hf. apply gen_flush_ok in Hf as (w' & -> & Hl); [|done].
  split; [|done]. unfold step_ok, gen_data, gen_wf; simpl. rewrite Hl, concat_app, Hn. simpl.
  rewrite !app_nil_r. split_and!; try done; [apply qwf_nil | apply Nat.le_0_l |].
  eexists; split; [done|]. by repeat constructor.
Qed.

(** Filling the queue up to one chunk, the last step of an exact write. *)
Lemma fill_step g n bs :
  gen_wf g -> wf bs -> blen bs <> 0 -> g_chunk_size g = Some n -> qlen (g_buffer g) < n ->
  let bs' := truncate bs (n - qlen (g_buffer g)) in
  0 < blen bs' <= blen bs /\
  step_ok g (take (blen bs') (contents bs)) (set_buffer (qpush (g_buffer g) bs') g).
Proof.
  intros Hg Hb Hne Hn Hlt. simpl. set (k := n - qlen (g_buffer g)).
  assert (blen (truncate bs k) = min k (blen bs)) as Hk.
  { rewrite <- contents_length, truncate_contents, length_take, contents_length
      by auto with opendal. done. }
  split; [subst k; lia|].
  replace (take (blen (truncate bs k)) (contents bs)) with (contents (truncate bs k)).
  - apply push_step with n; auto with opendal. subst k. lia.
  - rewrite truncate_contents, Hk. destruct (decide (k <= blen bs)).
    + by rewrite Nat.min_l.
    + rewrite Nat.min_r by lia. rewrite !take_ge; rewrite ?contents_length by done; (done || lia).
Qed.

Lemma gen_write_direct g bs n g' :
  g_chunk_size g = None -> gen_wf g -> wf bs -> blen bs <> 0 -> gen_write bs g = (Ok n, g') ->
  0 < n <= blen bs /\ step_ok g (take n (contents bs)) g'.
Proof.
  intros Hn [Hq Hc] Hb Hne. unfold gen_write, mbind, M_bind, get, mret, M_ret.
  rewrite Hn in *. destruct (forward bs g) as [[[]| |] g1] eqn:Ef; intros ?; simplify_eq.
  apply forward_ok in Ef as (w' & -> & Hl); [|done]. split; [lia|].
  rewrite take_ge by (by rewrite contents_length).
  unfold step_ok, gen_data, gen_wf; simpl. rewrite Hl, Hn, Hc, concat_app. simpl.
  rewrite !app_nil_r. split_and!; try done; [apply qwf_nil|].
  eexists; split; [done|]. by repeat constructor.
Qed.

Lemma gen_write_exact g bs n g' c :
  g_chunk_size g = Some c -> g_exact g = true ->
  gen_wf g -> wf bs -> blen bs <> 0 -> gen_write bs g = (Ok n, g') ->
  0 < n <= blen bs /\ step_ok g (take n (contents bs)) g'.
Proof.
  intros Hc He Hg Hb Hne. pose proof Hg as [Hq Hgc]. rewrite Hc in Hgc. destruct Hgc as [Hc0 Hle].
  unfold gen_write, mbind, M_bind, get, mret, M_ret, modify. rewrite Hc, He. simpl.
  pose proof (contents_length bs Hb). case_bool_decide as Hlt.
  { intros ?. simplify_eq. split; [lia|]. rewrite take_ge by lia. apply push_step with c; auto. lia. }
  case_bool_decide as Hfull.
  - destruct (gen_flush g) as [[[]| |] g1] eqn:Ef; [|done..].
    apply flush_step with (n := c) in Ef as [Hs Hb1]; [|done..|].
    2: { rewrite He. simpl. rewrite <- qlen_spec by done. lia. }
    pose proof Hs as (Hc1 & _ & Hg1 & _).
    intros ?. simplify_eq.
    destruct (fill_step g1 c bs) as [Hn Hf]; try done; [congruence | rewrite Hb1; unfold qlen; simpl; lia |].
    split; [done|]. apply (step_ok_trans _ [] g1); done.
  - intros ?. simplify_eq. apply fill_step; auto. lia.
Qed.

Lemma gen_write_lazy g bs n g' c :
  g_chunk_size g = Some c -> g_exact g = false ->
  gen_wf g -> wf bs -> blen bs <> 0 -> gen_write bs g = (Ok n, g') ->
  0 < n <= blen bs /\ step_ok g (take n (contents bs)) g'.
Proof.
  intros Hc He Hg Hb Hne. pose proof Hg as [Hq Hgc]. rewrite Hc in Hgc. destruct Hgc as [Hc0 Hle].
  unfold gen_write, mbind, M_bind, get, mret, M_ret, modify. rewrite Hc, He. simpl.
  pose proof (contents_length bs Hb). case_bool_decide as Hlt.
  { intros ?. simplify_eq. split; [lia|]. rewrite take_ge by lia. apply push_step with c; auto. lia. }
  destruct (qpush_spec _ _ Hq Hb) as [Hq' Hc'].
  destruct (gen_flush _) as [[[]| |] g1] eqn:Ef; [|done..].
  apply flush_step with (n := c) in Ef as [Hs _]; [|done..|].
  2: { simpl. rewrite He, Hc', length_app, <- qlen_spec by done. lia. }
  intros ?. simplify_eq. split; [lia|]. rewrite take_ge by lia.
  destruct Hs as (? & ? & ? & Hd & ?). split_and!; try done.
  rewrite Hd, app_nil_r. unfold gen_data; simpl. by rewrite Hc', app_assoc.
Qed.

Lemma gen_write_ok g bs n g' :
  gen_wf g -> wf bs -> blen bs <> 0 -> gen_write bs g = (Ok n, g') ->
  0 < n <= blen bs /\ step_ok g (take n (contents bs)) g'.
Proof.
  destruct (g_chunk_size g) as [c|] eqn:Hc; [destruct (g_exact g) eqn:He|];
    eauto using gen_write_direct, gen_write_exact, gen_write_lazy.
Qed.

(** [Writer::write] ends: every round consumes at least one byte. *)
Lemma writer_write_ok fuel bs g :
  gen_wf g -> wf bs -> blen bs < fuel ->
  exists r g', writer_write fuel bs g = Some (r, g') /\
    (r = Ok tt -> step_ok g (contents bs) g').
Proof.
  revert bs g. induction fuel as [|f IH]; intros bs g Hg Hb Hf; [lia|]. simpl.
  unfold is_empty. case_bool_decide as Hz.
  { do 2 eexists; split; [done|]. intros _.
    rewrite (nil_length_inv (contents bs)) by (by rewrite contents_length). by apply step_ok_refl. }
  destruct (gen_write bs g) as [[n|e|] g1] eqn:E; [|by do 2 eexists..].
  apply gen_write_ok in E as [Hn Hs]; [|done..].
  destruct (advance_ok bs n Hb) as (bs' & -> & Hb' & Hc'); [lia|].
  destruct (IH bs' g1) as (r & g' & -> & Hr); [by destruct Hs as (_ & _ & ? & _) | done | |].
  { rewrite <- contents_length, Hc', length_drop, contents_length by done. lia. }
  do 2 eexists; split; [done|]. intros ->.
  rewrite <- (take_drop n (contents bs)), <- Hc'. eapply step_ok_trans; eauto.
Qed.

Lemma writer_writes_ok bss g :
  gen_wf g -> Forall wf bss ->
  exists r g', writer_writes bss g = Some (r, g') /\
    (r = Ok tt -> step_ok g (concat (contents <$> bss)) g').
Proof.
  intros Hg Hall. revert g Hg. induction Hall as [|bs bss Hb _ IH]; intros g Hg; cbn [writer_writes].
  { do 2 eexists; split; [done|]. intros _. by apply step_ok_refl. }
  destruct (writer_write_ok (S (blen bs)) bs g) as (r & g1 & -> & Hr); [done | done | lia |].
  destruct r as [[]|e|]; [|by do 2 eexists..]. specialize (Hr eq_refl).
  destruct (IH g1) as (r & g' & -> & Hr'); [by destruct Hr as (_ & _ & ? & _)|].
  do 2 eexists; split; [done|]. intros ->. csimpl. eapply step_ok_trans; eauto.
Qed.

(** Closing sends what is left of the queue in one piece, if anything. *)
Lemma gen_close_ok g m g' :
  gen_wf g -> gen_close g = (Ok m, g') ->
  wlog (g_w g') = wlog (g_w g) ++ (if qis_empty (g_buffer g) then [] else [qcontents (g_buffer g)]) /\
  concat (wlog (g_w g')) = gen_data g.
Proof.
  intros [Hq _]. unfold gen_close, gen_data, mbind, M_bind, zoom, gets, mret, M_ret.
  cbn [close_loop]. unfold mbind, M_bind, gets, mret, M_ret.
  unfold qis_empty. case_bool_decide as Hz.
  - destruct (w_close (g_w g)) as [[x| |] w'] eqn:E; intros ?; simplify_eq. simpl.
    rewrite (wlog_close _ _ _ E), app_nil_r. split; [done|].
    rewrite (nil_length_inv (qcontents _)); [by rewrite app_nil_r|]. by rewrite <- qlen_spec.
  - destruct (gen_flush g) as [[[]| |] g1] eqn:Ef; [|done..].
    apply gen_flush_ok in Ef as (w1 & -> & Hl); [|done]. simpl.
    destruct (w_close w1) as [[x| |] w'] eqn:E; intros ?; simplify_eq. simpl.
    rewrite (wlog_close _ _ _ E), Hl. split; [done|]. rewrite concat_app. simpl. by rewrite app_nil_r.
Qed.

(** C7.  Nothing is lost, duplicated or reordered between the user and the
    service: whatever buffers are written through a fresh [Writer], the loop
    ends, and after a successful close the service has received exactly the
    concatenation of the buffers. *)
Theorem writer_integrity w chunk_size exact bss :
  Forall wf bss -> chunk_size <> Some 0 -> wlog w = [] ->
  exists r g, writer_writes bss (gen_new w chunk_size exact) = Some (r, g) /\
    (r = Ok tt -> forall m g', gen_close g = (Ok m, g') ->
      concat (wlog (g_w g')) = concat (contents <$> bss)).
Proof.
  intros Hall Hc Hw.
  assert (gen_wf (gen_new w chunk_size exact)) as Hg.
  { split; [apply qwf_nil|]. simpl. destruct chunk_size; [|done]. split; [congruence | apply Nat.le_0_l]. }
  destruct (writer_writes_ok bss _ Hg Hall) as (r & g & -> & Hr). do 2 eexists; split; [done|].
  intros -> m g' Hclose. destruct (Hr eq_refl) as (_ & _ & Hg' & Hd & _).
  apply gen_close_ok in Hclose as [_ ->]; [|done]. rewrite Hd. unfold gen_data; simpl. by rewrite Hw.
Qed.

(** In exact mode every buffer the service receives before the close has
    exactly the chunk size, and the close sends at most one more, no larger; in
    the other mode every buffer but the last has at least the chunk size. *)
Theorem writer_chunk_sizes w n exact bss r g :
  Forall wf bss -> n <> 0 -> wlog w = [] ->
  writer_writes bss (gen_new w (Some n) exact) = Some (r, g) -> r = Ok tt ->
  Forall (fun x => if exact then length x = n else n <= length x) (wlog (g_w g)) /\
  forall m g', gen_close g = (Ok m, g') ->
    exists last, wlog (g_w g') = wlog (g_w g) ++ last /\ length last <= 1 /\
      Forall (fun x => 0 < length x <= n) last.
Proof.
  intros Hall Hn Hw E ->.
  assert (gen_wf (gen_new w (Some n) exact)) as Hg by (split; [apply qwf_nil | split; [done | apply Nat.le_0_l]]).
  destruct (writer_writes_ok bss _ Hg Hall) as (r & g1 & E' & Hr). rewrite E in E'. simplify_eq.
  destruct (Hr eq_refl) as (Hc & He & Hg' & _ & news & Hl & Hf). simpl in *.
  rewrite Hw in Hl. simpl in Hl. rewrite Hl. split; [done|].
  intros m g' Hclose. pose proof Hg' as [Hq Hle]. rewrite Hc in Hle.
  apply gen_close_ok in Hclose as [Hlog _]; [|done]. eexists. rewrite Hl in Hlog.
  split; [done|]. unfold qis_empty. rewrite qlen_spec in * by done.
  case_bool_decide; split; simpl; try lia; repeat constructor; lia.
Qed.

End GeneratorSpec.

Lemma writer_integrity_witness :
  exists r g, writer_writes [Contiguous [x01; x02; x03]; from_parts [[x04]; [x05; x06]]]
      (gen_new (mkLog [] false) (Some 4) true) = Some (r, g) /\
    (r = Ok tt -> forall m g', gen_close g = (Ok m, g') ->
      concat (wlog (g_w g')) =
      concat (contents <$> [Contiguous [x01; x02; x03]; from_parts [[x04]; [x05; x06]]])).
Proof.
  apply writer_integrity; [|done|done]. repeat constructor; simpl; lia.
Defined.

Lemma writer_chunk_sizes_witness :
  let g := mkGen (mkLog [[x01; x02; x03; x04]] false) (Some 4) true [NonContiguous [[x04]; [x05; x06]] 2 1 0] in
  Forall (fun x => if true then length x = 4 else 4 <= length x) (wlog (g_w g)) /\
  forall m g', gen_close g = (Ok m, g') ->
    exists last, wlog (g_w g') = wlog (g_w g) ++ last /\ length last <= 1 /\
      Forall (fun x => 0 < length x <= 4) last.
Proof.
  apply (writer_chunk_sizes (mkLog [] false) 4 true
    [Contiguous [x01; x02; x03]; from_parts [[x04]; [x05; x06]]] (Ok tt));
    [repeat constructor; simpl; lia | done | done | vm_compute; reflexivity | done].
Defined.

(** A chunk size of zero, which the options accept, makes [Writer::write]
    loop for ever: no fuel is enough for a one-byte buffer. *)
Theorem writer_zero_chunk_diverges fuel :
  writer_write fuel (Contiguous [x01]) (gen_new (mkLog [] false) (Some 0) true) = None.
Proof.
  assert (forall f l, writer_write f (Contiguous [x01]) (gen_new (mkLog l false) (Some 0) true) = None)
    as H; [|apply H].
  induction f as [|f IH]; intros l; [done|]. exact (IH (l ++ [[]])).
Qed.

(** ** [OneShotWriter] *)

Class OneShotWrite (W : Type) : Type := write_once : Buffer -> M W Error Metadata.
Arguments write_once {W _} _ _.

Section OneShot.
  Context {W : Type} `{OneShotWrite W}.

Record OneShotWriter : Type := mkOneShot { os_inner : W; os_buffer : option Buffer }.

Definition oneshot_new (w : W) : OneShotWriter := {| os_inner := w; os_buffer := None |}.

Definition oneshot_write (bs : Buffer) : M OneShotWriter Error unit :=
  s ← get;
  match os_buffer s with
  | Some _ => throw (error Unsupported "OneShotWriter doesn't support multiple write")
  | None => put {| os_inner := os_inner s; os_buffer := Some bs |}
  end.

Definition oneshot_close : M OneShotWriter Error Metadata :=
  s ← get;
  let set w s := {| os_inner := w; os_buffer := os_buffer s |} in
  match os_buffer s with
  | Some bs => zoom os_inner set (write_once bs)
  | None => zoom os_inner set (write_once new)
  end.

Definition oneshot_abort : M OneShotWriter Error unit :=
  modify (fun s => {| os_inner := os_inner s; os_buffer := None |}).

#[global] Instance OneShotWriter_Write : Write OneShotWriter :=
  {| w_write := oneshot_write; w_close := oneshot_close; w_abort := oneshot_abort |}.

(** A one-shot writer hands its service exactly one buffer, the one that
    was written (the empty one if none was), and keeps it, so that a failed
    close can be repeated; a second write is refused and changes nothing. *)
Theorem oneshot_once w bs bs' :
  let s := (oneshot_write bs (oneshot_new w)).2 in
  oneshot_write bs' s = (Err (error Unsupported "OneShotWriter doesn't support multiple write"), s) /\
  oneshot_close s = (let '(r, w') := write_once bs w in (r, mkOneShot w' (Some bs))) /\
  oneshot_close (oneshot_new w) = (let '(r, w') := write_once new w in (r, mkOneShot w' None)) /\
  oneshot_close (oneshot_abort s).2 = oneshot_close (oneshot_new w).
Proof.
  unfold oneshot_write, oneshot_close, oneshot_abort, mbind, M_bind, get, put, zoom, throw, modify.
  simpl. split_and!; try done; by destruct (write_once _ w).
Qed.

End OneShot.
Arguments OneShotWriter : clear implicits.

(** ** [AppendWriter] *)

Class AppendWrite (W : Type) : Type := {
  append_offset : M W Error Z;
  append : Z -> Z -> Buffer -> M W Error Metadata;
}.

(** What an appendable object has received: asking for the offset changes
    nothing, a successful append records where it wrote. *)
Class AppendLog (W : Type) `{AppendWrite W} : Type := {
  alog : W -> list (Z * bytes);
  alog_offset s r s' : append_offset s = (r, s') -> alog s' = alog s;
  alog_append off size buf s r s' :
    append off size buf s = (r, s') ->
    alog s' = if is_ok r then alog s ++ [(off, contents buf)] else alog s;
}.

Record AppendWriter (W : Type) : Type := mkAppend {
  aw_inner : W; aw_offset : option Z; aw_meta : Metadata;
}.
Arguments mkAppend {W}.
Arguments aw_inner {W}.
Arguments aw_offset {W}.
Arguments aw_meta {W}.

Section Append.
  Context {W : Type} `{HA : AppendWrite W}.

Definition aw_set_inner (w : W) (s : AppendWriter W) : AppendWriter W :=
  mkAppend w (aw_offset s) (aw_meta s).

Definition append_new (w : W) : AppendWriter W := mkAppend w None meta_default.

Definition append_write (bs : Buffer) : M (AppendWriter W) Error unit :=
  s ← get;
  offset ← match aw_offset s with
           | Some offset => mret offset
           | None =>
               offset ← zoom aw_inner aw_set_inner append_offset;
               modify (fun s => mkAppend (aw_inner s) (Some offset) (aw_meta s));;
               mret offset
           end;
  let size := Z.of_nat (blen bs) in
  meta ← zoom aw_inner aw_set_inner (append offset size bs);
  modify (fun s => mkAppend (aw_inner s) (Some (wrap64 (offset + size))) meta).

Definition append_close : M (AppendWriter W) Error Metadata :=
  modify (fun s => mkAppend (aw_inner s) (aw_offset s)
    (set_content_length (default 0%Z (aw_offset s)) (aw_meta s)));;
  gets aw_meta.

Definition append_abort : M (AppendWriter W) Error unit := mret tt.

#[global] Instance AppendWriter_Write : Write (AppendWriter W) :=
  {| w_write := append_write; w_close := append_close; w_abort := append_abort |}.

(** A sequence of writes; a failed one is retried by the caller with the same
    buffer, as often as [bss] repeats it. *)
Fixpoint append_writes (bss : list Buffer) (s : AppendWriter W) : list bool * AppendWriter W :=
  match bss with
  | [] => ([], s)
  | bs :: bss' =>
      let '(r, s1) := append_write bs s in
      let '(rs, s2) := append_writes bss' s1 in (is_ok r :: rs, s2)
  end.

End Append.

Section AppendSpec.
  Context {W : Type} `{AppendLog W}.
  Implicit Types s : AppendWriter W.

(** Entries laid end to end from [off]; the end wraps as the offset does. *)
Fixpoint contiguous (off : Z) (l : list (Z * bytes)) : Prop :=
  match l with
  | [] => True
  | (o, bs) :: l' => o = off /\ contiguous (wrap64 (off + Z.of_nat (length bs))) l'
  end.
Fixpoint end_offset (off : Z) (l : list (Z * bytes)) : Z :=
  match l with [] => off | (_, bs) :: l' => end_offset (wrap64 (off + Z.of_nat (length bs))) l' end.

(** One write, successful or not, keeps the entries written since the offset
    became known end to end. *)
Lemma append_write_ok bs s r s' :
  wf bs -> append_write bs s = (r, s') ->
  exists off0 news, alog (aw_inner s') = alog (aw_inner s) ++ news /\
    news = (if is_ok r then [(off0, contents bs)] else []) /\
    (forall o, aw_offset s = Some o -> off0 = o) /\
    (aw_offset s' = if is_ok r then Some (wrap64 (off0 + Z.of_nat (blen bs))) else aw_offset s' ) /\
    (is_ok r = false -> forall o, aw_offset s = Some o -> aw_offset s' = Some o) /\
    (aw_offset s' = None -> r <> Ok tt /\ aw_offset s = None).
Proof.
  intros Hb. unfold append_write, mbind, M_bind, get, mret, M_ret, modify, zoom.
  destruct s as [w [o|] m]; simpl.
  - destruct (append _ _ bs w) as [r1 w1] eqn:E. apply alog_append in E.
    destruct r1; intros ?; simplify_eq; simpl in *; exists o;
      eexists; split_and!; try done; rewrite ?E, ?app_nil_r; try done;
      intros ? [= <-]; done.
  - destruct (append_offset w) as [[o| |] w1] eqn:Eo; apply alog_offset in Eo.
    2,3: intros ?; simplify_eq; simpl; exists 0%Z, []; rewrite app_nil_r; by split_and!.
    simpl. destruct (append _ _ bs w1) as [r1 w2] eqn:E. apply alog_append in E.
    rewrite Eo in E. destruct r1; intros ?; simplify_eq; simpl in *; exists o;
      eexists; split_and!; try done; rewrite ?E, ?app_nil_r; done.
Qed.

Lemma contiguous_app off l k :
  contiguous off (l ++ k) <-> contiguous off l /\ contiguous (end_offset off l) k.
Proof. revert off. induction l as [|[o bs] l IH]; intros off; simpl; [tauto|]. rewrite IH. tauto. Qed.

Lemma end_offset_app off l k : end_offset off (l ++ k) = end_offset (end_offset off l) k.
Proof. revert off. induction l as [|[o bs] l IH]; intros off; simpl; [done|]. apply IH. Qed.

(** Appended pieces never overlap and leave no gap: over any sequence of
    writes, failed ones included, the successful appends carry exactly the
    buffers that succeeded, in order, at consecutive offsets starting at the
    object's offset, and the length reported at the close is their end. *)
Theorem append_contiguous bss s rs s' off :
  Forall wf bss -> aw_offset s = Some off -> append_writes bss s = (rs, s') ->
  exists news, alog (aw_inner s') = alog (aw_inner s) ++ news /\
    (snd <$> news) = (fun p => contents p.1) <$> filter (fun p => p.2 = true) (zip bss rs) /\
    contiguous off news /\ aw_offset s' = Some (end_offset off news) /\
    exists m s'', append_close s' = (Ok m, s'') /\ content_length m = end_offset off news.
Proof.
  intros Hall. revert s off rs. induction Hall as [|bs bss Hb Hall IH]; intros s off rs Hoff E.
  - simpl in E. simplify_eq. exists []. rewrite app_nil_r. split_and!; try done.
    do 2 eexists; split; [done|]. simpl. by rewrite Hoff.
  - simpl in E. destruct (append_write bs s) as [r s1] eqn:E1.
    destruct (append_writes bss s1) as [rs' s2] eqn:E2. simplify_eq.
    apply append_write_ok in E1 as (off0 & news1 & Hl & -> & Ho & Hs & Hf & _); [|done].
    specialize (Ho _ Hoff). subst off0.
    destruct (is_ok r) eqn:Hr.
    + destruct (IH _ _ _ Hs E2) as (news & Hl2 & Hsnd & Hcont & Hend & Hclose).
      exists ((off, contents bs) :: news). cbn [contiguous end_offset].
      rewrite contents_length by done.
      split_and!; try done; [by rewrite Hl2, Hl, <- app_assoc|].
      cbn [zip_with]. rewrite filter_cons_True by done. csimpl. by rewrite Hsnd.
    + destruct (IH _ _ _ (Hf eq_refl _ Hoff) E2) as (news & Hl2 & Hsnd & Hrest).
      exists news. rewrite Hl2, Hl, app_nil_r. split; [done|]. split; [|done].
      cbn [zip_with]. by rewrite filter_cons_False by done.
Qed.

End AppendSpec.

(** An appendable object for the witness: a log of what was appended where. *)
Record AppendObject : Type := mkObject { ob_len : Z; ob_log : list (Z * bytes) }.
#[export] Instance AppendObject_Write : AppendWrite AppendObject := {
  append_offset s := (Ok (ob_len s), s);
  append off size buf s :=
    (Ok meta_default, {| ob_len := off + size; ob_log := ob_log s ++ [(off, contents buf)] |});
}.
#[export] Instance AppendObject_Log : AppendLog AppendObject.
Proof.
  refine {| alog := ob_log |}.
  - intros s r s' E. unfold append_offset in E; simpl in E. by simplify_eq.
  - intros off size buf s r s' E. unfold append in E; simpl in E. by simplify_eq/=.
Defined.

Lemma append_contiguous_witness :
  exists news, alog (mkObject 13 [(10, [x01; x02]); (12, [x03])])%Z = news /\ contiguous 10 news.
Proof.
  destruct (append_contiguous [Contiguous [x01; x02]; Contiguous [x03]]
    (mkAppend (mkObject 10 []) (Some 10%Z) meta_default) [true; true]
    (mkAppend (mkObject 13 [(10, [x01; x02]); (12, [x03])]%Z) (Some 13%Z) meta_default) 10)
    as (news & Hl & _ & Hc & _);
    [by repeat constructor | done | vm_compute; reflexivity |].
  by exists news.
Defined.
