(* ===== verification/Tasks.v ===== *)
(** * Concurrent tasks ([raw/futures_util.rs])

    [ConcurrentTasks]: a bounded queue of background tasks whose results are
    delivered in submission order, with failed tasks retried.  A task runs in
    the background and finishes whenever the environment decides, with the
    outcome the environment decides: [finish] is that step, and the [await]
    argument of [execute] and [next] is the outcome of a task that is awaited
    before it has finished.  The theorems hold for every schedule and every
    outcome. *)

From S2P Require Import Prelude Errors.
From stdpp Require Import options.

Section Tasks.
  Context {I O : Type}.

(** A spawned task: its input, and once it has finished what the factory's
    future returned, the input to retry with and the outcome. *)
Record Task : Type := mkTask { t_in : I; t_out : option (I * result O) }.

Record ConcurrentTasks : Type := mkTasks {
  tasks : list Task;
  results : list O;
  concurrent : nat;
  prefetch : nat;
  completed_but_unretrieved : nat;
  errored : bool;
}.

Definition tasks_new (concurrent prefetch : nat) : ConcurrentTasks :=
  mkTasks [] [] concurrent prefetch 0 false.

Definition set_tasks (ts : list Task) (s : ConcurrentTasks) : ConcurrentTasks :=
  mkTasks ts (results s) (concurrent s) (prefetch s) (completed_but_unretrieved s) (errored s).
Definition set_results (rs : list O) (s : ConcurrentTasks) : ConcurrentTasks :=
  mkTasks (tasks s) rs (concurrent s) (prefetch s) (completed_but_unretrieved s) (errored s).
Definition set_completed (n : nat) (s : ConcurrentTasks) : ConcurrentTasks :=
  mkTasks (tasks s) (results s) (concurrent s) (prefetch s) n (errored s).
Definition set_errored (s : ConcurrentTasks) : ConcurrentTasks :=
  mkTasks (tasks s) (results s) (concurrent s) (prefetch s) (completed_but_unretrieved s) true.

Definition is_concurrent (s : ConcurrentTasks) : bool := bool_decide (1 < concurrent s).
Definition clear (s : ConcurrentTasks) : ConcurrentTasks := set_results [] (set_tasks [] s).
Definition has_remaining (s : ConcurrentTasks) : bool :=
  bool_decide (length (tasks s) < concurrent s + min (completed_but_unretrieved s) (prefetch s)).
Definition has_result (s : ConcurrentTasks) : bool := negb (bool_decide (results s = [])).
Definition create_task (input : I) : Task := mkTask input None.

Definition unrecoverable : Error :=
  error Unexpected "concurrent tasks met an unrecoverable error".

(** Awaiting the front task: its outcome, and the counter after the increment of
    a task that only finishes now and the [fetch_sub]. *)
Definition await_front (await : I -> I * result O) (t : Task) (s : ConcurrentTasks)
  : (I * result O) * ConcurrentTasks :=
  match t_out t with
  | Some r => (r, set_completed (completed_but_unretrieved s - 1) s)
  | None => (await (t_in t), s)
  end.

(** The error arm both methods share: retry a temporary failure in place, stop
    for good otherwise. *)
Definition on_error (e : Error) (i : I) (rest : list Task) (s : ConcurrentTasks)
  : ConcurrentTasks :=
  if is_temporary e then set_tasks (create_task i :: rest) s
  else set_errored (clear s).

Definition execute (await : I -> I * result O) (input : I) : M ConcurrentTasks Error unit :=
  s ← get;
  if errored s then throw unrecoverable
  else if negb (is_concurrent s) then
    match (await input).2 with
    | Ok o => modify (fun s => set_results (results s ++ [o]) s)
    | Err err => throw err
    | Panic => panic
    end
  else
    (if has_remaining s then mret tt
     else match tasks s with
          | [] => panic
          | t :: rest =>
              let '((i, o), s') := await_front await t s in
              match o with
              | Ok o => put (set_results (results s' ++ [o]) (set_tasks rest s'))
              | Err err => put (on_error err i rest s');; throw err
              | Panic => panic
              end
          end);;
    modify (fun s => set_tasks (tasks s ++ [create_task input]) s).

Definition next (await : I -> I * result O) (s : ConcurrentTasks)
  : option (result O) * ConcurrentTasks :=
  if errored s then (Some (Err unrecoverable), s)
  else match results s with
  | r :: rs => (Some (Ok r), set_results rs s)
  | [] =>
      match tasks s with
      | t :: rest =>
          let '((i, o), s') := await_front await t s in
          match o with
          | Ok o => (Some (Ok o), set_tasks rest s')
          | Err err => (Some (Err err), on_error err i rest s')
          | Panic => (Some Panic, s')
          end
      | [] => (None, s)
      end
  end.

(** The environment finishes task [k], whose future returns [r]. *)
Definition finish (k : nat) (r : I * result O) (s : ConcurrentTasks) : ConcurrentTasks :=
  match tasks s !! k with
  | Some (mkTask i None) =>
      set_completed (S (completed_but_unretrieved s))
        (set_tasks (<[k := mkTask i (Some r)]> (tasks s)) s)
  | _ => s
  end.

(** ** Histories *)

Inductive event : Type :=
  | Finish (k : nat) (r : I * result O)
  | Execute (await : I -> I * result O) (input : I)
  | Next (await : I -> I * result O).

(** The inputs [execute] accepted, the outputs [next] delivered, the state. *)
Definition step (h : list I * list O * ConcurrentTasks) (ev : event)
  : list I * list O * ConcurrentTasks :=
  let '(acc, out, s) := h in
  match ev with
  | Finish k r => (acc, out, finish k r s)
  | Execute await input =>
      match execute await input s with
      | (Ok _, s') => (acc ++ [input], out, s')
      | (_, s') => (acc, out, s')
      end
  | Next await =>
      match next await s with
      | (Some (Ok o), s') => (acc, out ++ [o], s')
      | (_, s') => (acc, out, s')
      end
  end.
Definition run (evs : list event) (s : ConcurrentTasks) : list I * list O * ConcurrentTasks :=
  fold_left step evs ([], [], s).

(** The loop of the writers' [close]: collect every result.  A round either
    delivers a result or ends the loop, so the number of outstanding results
    bounds the rounds ([drain_tasks_inv]). *)
Fixpoint drain_tasks (fuel : nat) (await : I -> I * result O) : M (list O * ConcurrentTasks) Error unit :=
  match fuel with
  | 0 => panic
  | S f => fun '(out, s) =>
      match next await s with
      | (Some (Ok o), s') => drain_tasks f await (out ++ [o], s')
      | (Some (Err e), s') => (Err e, (out, s'))
      | (Some Panic, s') => (Panic, (out, s'))
      | (None, s') => (Ok tt, (out, s'))
      end
  end.
Definition outstanding (s : ConcurrentTasks) : nat := length (tasks s) + length (results s).

(** Tasks that will succeed when awaited, [P] being the inputs they get. *)
Definition healthy (P : I -> Prop) (await : I -> I * result O) (s : ConcurrentTasks) : Prop :=
  errored s = false /\ (forall i, P i -> exists i' o, await i = (i', Ok o)) /\
  Forall (fun t => match t_out t with Some (_, Ok _) => True | None => P (t_in t) | _ => False end) (tasks s).

Lemma next_outstanding await s o s' :
  next await s = (Some (Ok o), s') -> outstanding s' < outstanding s.
Proof.
  unfold next, outstanding. destruct (errored s); [done|].
  destruct (results s) as [|r rs] eqn:Hr.
  2: { intros ?. simplify_eq. simpl. lia. }
  destruct (tasks s) as [|t rest] eqn:Ht; [done|]. unfold await_front.
  destruct (t_out t) as [[i []]|]; [| | |destruct (await (t_in t)) as [i []]]; intros ?; simplify_eq; simpl;
    rewrite Hr; simpl; lia.
Qed.

Lemma next_healthy P await s r s' :
  healthy P await s -> next await s = (r, s') ->
  match r with Some (Ok _) => healthy P await s' | None => True | _ => False end.
Proof.
  intros (He & Ha & Ht). unfold next. rewrite He. destruct (results s).
  2: { intros ?. by simplify_eq. }
  destruct (tasks s) as [|t rest]; [intros ?; by simplify_eq|]. inversion Ht; subst.
  unfold await_front. destruct (t_out t) as [[i []]|]; [|done|done|].
  - intros ?. simplify_eq. done.
  - destruct (Ha (t_in t)) as (i & o & ->); [done|]. intros ?. by simplify_eq.
Qed.

(** With concurrency, a full queue is not an empty one. *)
Lemma full_not_empty s : is_concurrent s = true -> has_remaining s = false -> tasks s <> [].
Proof.
  unfold is_concurrent, has_remaining. rewrite bool_decide_eq_true, bool_decide_eq_false.
  intros ? ? E. rewrite E in *. simpl in *. lia.
Qed.

Lemma execute_healthy P await input s :
  healthy P await s -> P input ->
  exists s', execute await input s = (Ok tt, s') /\ healthy P await s'.
Proof.
  intros (He & Ha & Ht) Hin. unfold execute, mbind, M_bind, get, throw, panic, modify, put, mret, M_ret.
  rewrite He. destruct (is_concurrent s) eqn:Hc; simpl.
  2: { destruct (Ha input Hin) as (i & o & ->). eexists; split; [done|]. done. }
  destruct (has_remaining s) eqn:Hr.
  { eexists; split; [done|]. split_and!; try done. apply Forall_app. by repeat constructor. }
  destruct (tasks s) as [|t rest] eqn:E; [by apply full_not_empty in Hr|]. inversion Ht; subst.
  unfold await_front.
  destruct (t_out t) as [[i [o| |]]|] eqn:Hto; [|done|done|destruct (Ha (t_in t)) as (i & o & ->); [done|]];
    (eexists; split; [done|]; split_and!; try done; apply Forall_app; by repeat constructor).
Qed.

Lemma execute_conf await input s r s' :
  execute await input s = (r, s') -> concurrent s' = concurrent s /\ prefetch s' = prefetch s.
Proof.
  unfold execute, mbind, M_bind, get, throw, panic, modify, put, mret, M_ret.
  destruct (errored s); [intros ?; by simplify_eq|]. destruct (is_concurrent s); simpl.
  2: { destruct (await input).2; intros ?; by simplify_eq. }
  destruct (has_remaining s); [intros ?; by simplify_eq|].
  destruct (tasks s) as [|t rest]; [intros ?; by simplify_eq|]. unfold await_front, on_error.
  destruct (t_out t) as [[i [o|e|]]|]; [| | |destruct (await (t_in t)) as [i [o|e|]]];
    intros ?; simplify_eq; try done; by destruct (is_temporary e).
Qed.

Lemma next_conf await s r s' :
  next await s = (r, s') -> concurrent s' = concurrent s /\ prefetch s' = prefetch s.
Proof.
  unfold next. destruct (errored s); [intros ?; by simplify_eq|].
  destruct (results s); [|intros ?; by simplify_eq].
  destruct (tasks s) as [|t rest]; [intros ?; by simplify_eq|]. unfold await_front, on_error.
  destruct (t_out t) as [[i [o|e|]]|]; [| | |destruct (await (t_in t)) as [i [o|e|]]];
    intros ?; simplify_eq; try done; by destruct (is_temporary e).
Qed.

(** A free slot is taken at once; without concurrency the result is there at once. *)
Lemma execute_free await input s r s' :
  errored s = false -> has_remaining s = true -> execute await input s = (r, s') ->
  concurrent s' = concurrent s /\ prefetch s' = prefetch s /\
  if is_concurrent s then r = Ok tt /\ s' = set_tasks (tasks s ++ [create_task input]) s
  else (r = Ok tt -> has_result s' = true) /\ errored s' = false.
Proof.
  intros He Hr. unfold execute, mbind, M_bind, get, throw, panic, modify, mret, M_ret. rewrite He, Hr.
  destruct (is_concurrent s); simpl; [intros ?; by simplify_eq|].
  destruct (await input).2; intros ?; simplify_eq; split_and!; try done.
  intros _. unfold has_result. simpl. rewrite bool_decide_eq_false_2; [done|]. by destruct (results s).
Qed.

Lemma drain_tasks_healthy P fuel await out s :
  healthy P await s -> outstanding s < fuel -> (drain_tasks fuel await (out, s)).1 = Ok tt.
Proof.
  revert out s. induction fuel as [|f IH]; intros out s Hh Hf; [lia|]. simpl.
  destruct (next await s) as [r s1] eqn:E. pose proof (next_healthy _ _ _ _ _ Hh E) as Hr.
  destruct r as [[o|e|]|]; [|done|done|done].
  apply IH; [done|]. apply next_outstanding in E. lia.
Qed.

(** ** Submission order *)

Section Fifo.
  (** [R i o]: [o] is an output the task of [i] may return; [valid i]: [i] is an
      input the tasks are meant for. *)
  Variable R : I -> O -> Prop.
  Variable valid : I -> Prop.

(** [i'] may stand for [i]: what it returns is what [i] may return. *)
Definition stands_for (i' i : I) : Prop := valid i' /\ forall o, R i' o -> R i o.

(** What the future of [i] may return. *)
Definition outcome_ok (i : I) (x : I * result O) : Prop :=
  match x.2 with Ok o => R i o | Err _ => stands_for x.1 i | Panic => False end.
Definition await_ok (await : I -> I * result O) : Prop := forall i, valid i -> outcome_ok i (await i).
Definition event_ok (s : ConcurrentTasks) (ev : event) : Prop :=
  match ev with
  | Finish k r => match tasks s !! k with Some t => outcome_ok (t_in t) r | None => True end
  | Execute await input => await_ok await /\ valid input
  | Next await => await_ok await
  end.

(** The task works for the accepted input [i]. *)
Definition task_ok (i : I) (t : Task) : Prop :=
  stands_for (t_in t) i /\
  match t_out t with Some r => outcome_ok (t_in t) r | None => True end.

(** Accepted inputs, oldest first, are those already delivered, those in the
    result queue and those of the tasks; without concurrency there are no tasks. *)
Definition fifo (acc : list I) (out : list O) (s : ConcurrentTasks) : Prop :=
  exists i1 i2 i3, acc = i1 ++ i2 ++ i3 /\
    Forall2 R i1 out /\ Forall2 R i2 (results s) /\ Forall2 task_ok i3 (tasks s) /\
    (is_concurrent s = false -> tasks s = []).

Definition tasks_inv (acc : list I) (out : list O) (s : ConcurrentTasks) : Prop :=
  errored s = true \/ fifo acc out s.

Lemma stands_for_refl i : valid i -> stands_for i i.
Proof. by intros Hi. Qed.

(** The front task's future, awaited for the accepted input [i0]. *)
Lemma await_front_ok await i0 t s i r s' :
  await_ok await -> task_ok i0 t -> await_front await t s = ((i, r), s') ->
  outcome_ok i0 (i, r) /\ tasks s' = tasks s /\ results s' = results s /\ errored s' = errored s /\
  concurrent s' = concurrent s /\ prefetch s' = prefetch s.
Proof.
  intros Ha [Hs Ht]. unfold await_front.
  assert (forall x, outcome_ok (t_in t) x -> outcome_ok i0 x) as Hw.
  { intros [i' [o|e|]]; unfold outcome_ok, stands_for in *; simpl; [by apply Hs | | done].
    intros [Hv Ho]. split; [done|]. intros o Hi. by apply Hs, Ho. }
  destruct (t_out t); intros ?; simplify_eq/=; split_and!; try done; apply Hw; [done|].
  rewrite <- H. apply Ha, Hs.
Qed.

Lemma on_error_inv e i i0 acc0 rest out s s0 i1 i2 :
  stands_for i i0 -> acc0 = i1 ++ i2 -> Forall2 R i1 out -> Forall2 R i2 (results s0) ->
  forall i3, Forall2 task_ok i3 rest -> is_concurrent s0 = true ->
  results s = results s0 -> concurrent s = concurrent s0 ->
  tasks_inv (acc0 ++ i0 :: i3) out (on_error e i rest s).
Proof.
  intros Hi -> H1 H2 i3 H3 Hc Hr Hcc. unfold on_error.
  destruct (is_temporary e); [right | by left].
  exists i1, i2, (i0 :: i3). unfold is_concurrent in *. simpl. rewrite Hr, Hcc, <- app_assoc.
  split_and!; try done; [by constructor | congruence].
Qed.

Lemma fifo_push acc out s input :
  fifo acc out s -> is_concurrent s = true -> valid input ->
  fifo (acc ++ [input]) out (set_tasks (tasks s ++ [create_task input]) s).
Proof.
  intros (i1 & i2 & i3 & Hacc & H1 & H2 & H3 & H4) Hc Hv. exists i1, i2, (i3 ++ [input]). simpl.
  split_and!; try done.
  - by rewrite Hacc, <- !app_assoc.
  - apply Forall2_app; [done|]. constructor; [|done]. split; [by apply stands_for_refl | done].
  - intros Hn. unfold is_concurrent in *. simpl in *. congruence.
Qed.

(** Taking the front task's output. *)
Lemma fifo_pop i1 i2 i0 i3 out s rest o s' :
  Forall2 R i1 out -> Forall2 R i2 (results s) -> R i0 o -> Forall2 task_ok i3 rest ->
  is_concurrent s = true -> concurrent s' = concurrent s ->
  tasks s' = rest -> results s' = results s ++ [o] -> fifo (i1 ++ i2 ++ i0 :: i3) out s'.
Proof.
  intros H1 H2 Ho H3 Hc Hc' Ht' Hr'.
  exists i1, (i2 ++ [i0]), i3. unfold is_concurrent in *.
  rewrite Ht', Hr', Hc', <- app_assoc. split_and!; try done.
  - apply Forall2_app; [done|]. by constructor.
  - congruence.
Qed.

(** Awaiting the front task of a queue. *)
Lemma front_inv await acc out s t rest i x s1 :
  await_ok await -> fifo acc out s -> tasks s = t :: rest ->
  await_front await t s = ((i, x), s1) ->
  errored s1 = errored s /\ concurrent s1 = concurrent s /\ results s1 = results s /\
  match x with
  | Ok o =>
      (forall s', tasks s' = rest -> concurrent s' = concurrent s -> results s' = results s ++ [o] ->
         fifo acc out s') /\
      (forall s', tasks s' = rest -> concurrent s' = concurrent s -> results s = [] -> results s' = [] ->
         fifo acc (out ++ [o]) s')
  | Err e => tasks_inv acc out (on_error e i rest s1)
  | Panic => False
  end.
Proof.
  intros Ha (i1 & i2 & i3 & -> & H1 & H2 & H3 & H4) Ht E.
  assert (is_concurrent s = true) as Hc.
  { destruct (is_concurrent s); [done|]. rewrite (H4 eq_refl) in Ht. done. }
  rewrite Ht in H3. inversion H3 as [|i0 ? i3' ? Hto H3']; subst.
  eapply await_front_ok in E as (Ho & Hts & Hrs & Hes & Hcs & Hps); [|done..].
  split_and!; [done..|]. destruct x as [o|e|]; [|by rewrite app_assoc; eapply on_error_inv|done].
  unfold outcome_ok in Ho. simpl in Ho. split.
  - intros s' Ht' Hc' Hr'. by eapply fifo_pop.
  - intros s' Ht' Hc' Hr Hr'. rewrite Hr in H2. inversion H2; subst.
    exists (i1 ++ [i0]), [], i3'. unfold is_concurrent in *. rewrite Hr', Hc', <- app_assoc.
    split_and!; try done; [apply Forall2_app; [done | by constructor]|]. congruence.
Qed.

(** Submitting: on success the input joins the history and nothing else
    changes; on failure the history is as it was, or the queue has stopped. *)
Lemma execute_inv await input acc out s r s' :
  await_ok await -> valid input -> fifo acc out s -> errored s = false ->
  execute await input s = (r, s') ->
  match r with
  | Ok _ => fifo (acc ++ [input]) out s' /\ errored s' = false
  | Err _ => tasks_inv acc out s'
  | Panic => False
  end.
Proof.
  intros Ha Hv Hf He. unfold execute, mbind, M_bind, get, throw, panic, modify, put, mret, M_ret.
  rewrite He. destruct (is_concurrent s) eqn:Hc; simpl.
  2: { specialize (Ha input Hv). unfold outcome_ok in Ha.
       destruct (await input) as [i [o|e|]]; simpl in *; intros ?; simplify_eq; [|by right|done].
       destruct Hf as (i1 & i2 & i3 & Hacc & H1 & H2 & H3 & H4). split; [|done].
       rewrite (H4 Hc) in H3. inversion H3; subst. exists i1, (i2 ++ [input]), [].
       unfold is_concurrent in *. simpl. rewrite (H4 Hc), !app_nil_r, <- app_assoc.
       split_and!; try done. apply Forall2_app; [done|]. by constructor. }
  destruct (has_remaining s) eqn:Hr.
  { intros ?. simplify_eq. split; [by apply fifo_push | done]. }
  destruct (tasks s) as [|t rest] eqn:Ht; [by apply full_not_empty in Hr|].
  destruct (await_front await t s) as [[i o] s1] eqn:Ea.
  eapply front_inv in Ea as (Hes & Hcs & Hrs & Ho); [|done..].
  destruct o as [o|e|]; [| |done]; intros ?; simplify_eq; [|done].
  split; [|simpl; congruence]. apply fifo_push.
  - apply Ho; [done | done | simpl; by rewrite Hrs].
  - unfold is_concurrent in *. simpl. by rewrite Hcs.
  - done.
Qed.

(** Fetching: an output comes from the oldest input not yet delivered. *)
Lemma next_inv await acc out s r s' :
  await_ok await -> fifo acc out s -> errored s = false -> next await s = (r, s') ->
  match r with
  | Some (Ok o) => fifo acc (out ++ [o]) s' /\ errored s' = false
  | Some (Err _) => tasks_inv acc out s'
  | Some Panic => False
  | None => s' = s /\ tasks s = [] /\ results s = []
  end.
Proof.
  intros Ha Hf He. unfold next. rewrite He.
  destruct (results s) as [|o rs] eqn:Hr.
  2: { intros ?. simplify_eq. split; [|done].
       destruct Hf as (i1 & i2 & i3 & -> & H1 & H2 & H3 & H4). rewrite Hr in H2.
       inversion H2 as [|i ? i2' ? Hi Hi2]; subst.
       exists (i1 ++ [i]), i2', i3. unfold is_concurrent in *. simpl. rewrite <- app_assoc.
       split_and!; try done. apply Forall2_app; [done|]. by constructor. }
  destruct (tasks s) as [|t rest] eqn:Ht; [intros ?; by simplify_eq|].
  destruct (await_front await t s) as [[i o] s1] eqn:Ea.
  eapply front_inv in Ea as (Hes & Hcs & Hrs & Ho); [|done..].
  destruct o as [o|e|]; [| |done]; intros ?; simplify_eq; [|done].
  split; [|simpl; congruence]. apply Ho; [done | done | done | simpl; congruence].
Qed.

Lemma next_tasks_inv await acc out s r s' :
  await_ok await -> tasks_inv acc out s -> next await s = (r, s') ->
  match r with
  | Some (Ok o) => tasks_inv acc (out ++ [o]) s'
  | Some (Err _) => tasks_inv acc out s'
  | Some Panic => False
  | None => s' = s /\ Forall2 R acc out /\ tasks s = [] /\ results s = []
  end.
Proof.
  intros Ha Hi E. destruct (errored s) eqn:He.
  { unfold next in E. rewrite He in E. simplify_eq. by left. }
  destruct Hi as [?|Hf]; [congruence|]. pose proof E as E'. eapply next_inv in E'; [|done..].
  destruct r as [[o|e|]|]; [right; apply E' | done | done |]. destruct E' as (-> & Ht & Hr).
  split; [done|]. destruct Hf as (i1 & i2 & i3 & -> & H1 & H2 & H3 & _). rewrite Ht, Hr in *.
  inversion H2; inversion H3; subst. by rewrite !app_nil_r.
Qed.

Lemma fifo_idle acc out s :
  Forall2 R acc out -> tasks s = [] -> results s = [] -> fifo acc out s.
Proof.
  intros H1 H2 H3. exists acc, [], []. rewrite H2, H3, !app_nil_r.
  by split_and!; try constructor.
Qed.

(** Collecting: with enough fuel the loop ends; when it ends well every accepted
    input has its output, in order; when it ends with an error, what was
    collected so far is kept and the rest is still in the queue. *)
Lemma drain_tasks_inv fuel await acc out s r out' s' :
  await_ok await -> tasks_inv acc out s -> outstanding s < fuel ->
  drain_tasks fuel await (out, s) = (r, (out', s')) ->
  tasks_inv acc out' s' /\
  (r = Ok tt -> Forall2 R acc out' /\ tasks s' = [] /\ results s' = []) /\ r <> Panic.
Proof.
  intros Ha. revert out s. induction fuel as [|f IH]; intros out s Hi Hf; [lia|]. simpl.
  destruct (next await s) as [x s1] eqn:E. pose proof (next_tasks_inv _ _ _ _ _ _ Ha Hi E) as Hx.
  destruct x as [[o|e|]|]; [| | done |].
  - apply IH; [done|]. apply next_outstanding in E. lia.
  - intros ?. by simplify_eq.
  - destruct Hx as [-> Hall]. intros ?. simplify_eq. done.
Qed.

(** Submitting, from any reachable queue. *)
Lemma execute_tasks_inv await input acc out s r s' :
  await_ok await -> valid input -> tasks_inv acc out s -> execute await input s = (r, s') ->
  match r with
  | Ok _ => tasks_inv (acc ++ [input]) out s'
  | Err _ => tasks_inv acc out s'
  | Panic => False
  end.
Proof.
  intros Ha Hv Hi E. destruct (errored s) eqn:He.
  { unfold execute, mbind, M_bind, get, throw in E. rewrite He in E. simplify_eq. by left. }
  destruct Hi as [?|Hf]; [congruence|]. eapply execute_inv in E; [|done..].
  destruct r as [[]|e|]; [right; apply E | done | done].
Qed.

Lemma finish_inv k r acc out s :
  fifo acc out s -> event_ok s (Finish k r) -> fifo acc out (finish k r s).
Proof.
  intros (i1 & i2 & i3 & Hacc & H1 & H2 & H3 & H4) Hok. unfold finish. simpl in Hok.
  destruct (tasks s !! k) as [[i [r'|]]|] eqn:Hk; [by exists i1, i2, i3 | | by exists i1, i2, i3].
  exists i1, i2, i3. unfold is_concurrent in *. simpl. split_and!; try done.
  - destruct (Forall2_lookup_r _ _ _ _ _ H3 Hk) as (i0 & Hi0 & Hs & _).
    rewrite <- (list_insert_id i3 k i0 Hi0). apply Forall2_insert; [done|]. split; [done | exact Hok].
  - intros Hn. rewrite (H4 Hn) in Hk. done.
Qed.

Lemma finish_tasks_inv k r acc out s :
  tasks_inv acc out s -> event_ok s (Finish k r) -> tasks_inv acc out (finish k r s).
Proof.
  intros [He|Hf] Hok; [left | right; by apply finish_inv].
  unfold finish. destruct (tasks s !! k) as [[i [r'|]]|]; done.
Qed.

(** Once stopped, it stays stopped and answers every call with an error. *)
Lemma errored_stuck s ev acc out acc' out' s' :
  errored s = true -> step (acc, out, s) ev = (acc', out', s') ->
  acc' = acc /\ out' = out /\ errored s' = true.
Proof.
  intros He. destruct ev; simpl.
  - unfold finish. destruct (tasks s !! k) as [[i [r'|]]|]; intros ?; by simplify_eq.
  - unfold execute, mbind, M_bind, get, throw. rewrite He. intros ?; by simplify_eq.
  - unfold next. rewrite He. intros ?; by simplify_eq.
Qed.

Lemma step_inv acc out s ev acc' out' s' :
  tasks_inv acc out s -> event_ok s ev -> step (acc, out, s) ev = (acc', out', s') ->
  tasks_inv acc' out' s'.
Proof.
  intros Hi Hok Hs. destruct ev as [k r|await input|await]; simpl in *.
  - simplify_eq. by apply finish_tasks_inv.
  - destruct Hok as [Ha Hv]. destruct (execute await input s) as [r s1] eqn:E.
    eapply execute_tasks_inv in E; [|done..].
    by destruct r as [[]|e|]; simplify_eq.
  - destruct (next await s) as [r s1] eqn:E. eapply next_tasks_inv in E; [|done..].
    destruct r as [[o|e|]|]; simplify_eq; try done. by destruct E as [-> _].
Qed.

(** A history the environment may produce. *)
Fixpoint run_ok (h : list I * list O * ConcurrentTasks) (evs : list event) : Prop :=
  match evs with
  | [] => True
  | ev :: evs' => event_ok h.2 ev /\ run_ok (step h ev) evs'
  end.

Lemma run_inv evs acc out s acc' out' s' :
  tasks_inv acc out s -> run_ok (acc, out, s) evs ->
  fold_left step evs (acc, out, s) = (acc', out', s') -> tasks_inv acc' out' s'.
Proof.
  revert acc out s. induction evs as [|ev evs IH]; intros acc out s Hi Hok E; cbn [fold_left run_ok] in *.
  - by simplify_eq.
  - destruct Hok as [Hev Hok]. destruct (step (acc, out, s) ev) as [[acc1 out1] s1] eqn:Es.
    eapply IH; [|exact Hok|exact E]. by eapply step_inv.
Qed.

Lemma tasks_new_inv c p : tasks_inv [] [] (tasks_new c p).
Proof. right. by apply fifo_idle. Qed.

(** C8.  Results come out in submission order, none lost, none duplicated,
    whatever the schedule, the failures and the retries: at every moment the
    outputs delivered so far belong to the oldest accepted inputs in order, and
    when [next] reports the end every accepted input has delivered its output. *)
Theorem tasks_fifo evs c p acc out s :
  run_ok ([], [], tasks_new c p) evs -> run evs (tasks_new c p) = (acc, out, s) -> errored s = false ->
  (exists done rest, acc = done ++ rest /\ Forall2 R done out) /\
  (forall await s', await_ok await -> next await s = (None, s') -> Forall2 R acc out).
Proof.
  intros Hok E He. eapply run_inv in E; [|apply tasks_new_inv|done].
  destruct E as [?|Hf]; [congruence|]. split.
  - destruct Hf as (i1 & i2 & i3 & -> & H1 & _). eauto.
  - intros await s' Ha En. eapply next_inv in En as (_ & Ht & Hr); [|done..].
    destruct Hf as (i1 & i2 & i3 & -> & H1 & H2 & H3 & _). rewrite Ht, Hr in *.
    inversion H2; inversion H3; subst. by rewrite !app_nil_r.
Qed.

End Fifo.

(** ** How many tasks there are *)

Definition running (s : ConcurrentTasks) : nat :=
  length (filter (fun t => t_out t = None) (tasks s)).

Lemma execute_len await input s r s' :
  is_concurrent s = true -> length (tasks s) <= concurrent s + prefetch s ->
  execute await input s = (r, s') ->
  length (tasks s') <= concurrent s' + prefetch s' /\ is_concurrent s' = true /\
  concurrent s' = concurrent s /\ prefetch s' = prefetch s.
Proof.
  intros Hc Hle. unfold execute, mbind, M_bind, get, throw, panic, modify, put, mret, M_ret.
  destruct (errored s); [intros ?; by simplify_eq|]. rewrite Hc. simpl.
  destruct (has_remaining s) eqn:Hr.
  { intros ?. simplify_eq. simpl. rewrite length_app. simpl.
    unfold has_remaining in Hr. apply bool_decide_eq_true in Hr. split_and!; try done. lia. }
  destruct (tasks s) as [|t rest] eqn:Ht; [intros ?; simplify_eq; by rewrite Ht|].
  assert (forall o s1, await_front await t s = (o, s1) -> tasks s1 = tasks s /\
    concurrent s1 = concurrent s /\ prefetch s1 = prefetch s) as Hs1.
  { unfold await_front. intros o s1. destruct (t_out t); intros ?; by simplify_eq. }
  destruct (await_front await t s) as [[i o] s1] eqn:Ea. destruct (Hs1 _ _ eq_refl) as (Ht1 & Hc1 & Hp1).
  unfold is_concurrent in *. destruct o as [o|e|]; intros ?; simplify_eq; simpl.
  - rewrite length_app, Hc1, Hp1. simpl in *. split_and!; try done. lia.
  - unfold on_error. destruct (is_temporary e); simpl; rewrite Hc1, Hp1;
      split_and!; try done; simpl in *; lia.
  - by rewrite Ht.
Qed.

(** The queue never holds more than [concurrent + prefetch] tasks, over any
    sequence of submissions. *)
Theorem tasks_bounded (submissions : list ((I -> I * result O) * I)) c p :
  1 < c ->
  let s := fold_left (fun s '(await, i) => (execute await i s).2) submissions (tasks_new c p) in
  length (tasks s) <= c + p.
Proof.
  intros Hc.
  assert (forall s, is_concurrent s = true -> concurrent s = c -> prefetch s = p ->
    length (tasks s) <= c + p ->
    length (tasks (fold_left (fun s '(await, i) => (execute await i s).2) submissions s)) <= c + p)
    as H.
  { induction submissions as [|[await i] l IH]; intros s H1 H2 H3 H4; simpl; [done|].
    destruct (execute await i s) as [r s'] eqn:E. apply execute_len in E as (? & ? & ? & ?);
      [|done|lia]. simpl. apply IH; try done; lia. }
  apply H; try done; [by apply bool_decide_eq_true | simpl; lia].
Qed.

End Tasks.

(** Tasks that take any input. *)
Definition anything {I : Type} (_ : I) : Prop := True.

Arguments Task : clear implicits.
Arguments ConcurrentTasks : clear implicits.
Arguments event : clear implicits.

(** ** Witnesses *)

Definition double (n : nat) : nat * result nat := (n, Ok (2 * n)).
Definition busy (n : nat) : nat * result nat := (n, Err (set_temporary (error Unexpected "busy"))).

(** Three submissions, the second one finishing first, then a retry. *)
Definition sample_events : list (event nat nat) :=
  [Execute double 1; Execute double 2; Finish 1 (2, Ok 4); Execute double 3;
   Next busy; Next double; Next double; Next double].

Lemma tasks_fifo_witness :
  (exists done rest, [1; 2; 3] = done ++ rest /\ Forall2 (fun i o => o = 2 * i) done [2; 4; 6]) /\
  (forall await s', await_ok (fun i o => o = 2 * i) anything await ->
     next await (mkTasks (I:=nat) [] [] 2 8 0 false) = (None, s') ->
     Forall2 (fun i o => o = 2 * i) [1; 2; 3] [2; 4; 6]).
Proof.
  apply (tasks_fifo (fun i o => o = 2 * i) anything sample_events 2 8); [|vm_compute; reflexivity|done].
  repeat split; try (intros ?; done); try (by intros ? ?); try (by intros i o Ho); done.
Defined.

Lemma tasks_bounded_witness :
  length (tasks (fold_left (fun s '(await, i) => (execute await i s).2)
    [(double, 1); (double, 2); (double, 3)] (tasks_new 2 0))) <= 2 + 0.
Proof. apply tasks_bounded. lia. Defined.

(** [concurrent] does not bound the number of running tasks: retrieving a
    task that has already finished frees no running slot, but a new task is
    spawned all the same.  With [concurrent = 2] four tasks run at once. *)
Theorem tasks_exceed_concurrent :
  exists evs : list (event nat nat),
    run_ok (fun i o => o = 2 * i) anything ([], [], tasks_new 2 8192) evs /\
    running (run evs (tasks_new 2 8192)).2 = 4.
Proof.
  exists [Execute double 1; Execute double 2; Finish 0 (1, Ok 2); Execute double 3;
     Finish 1 (2, Ok 4); Execute double 4; Execute double 5; Execute double 6].
  split; [|vm_compute; reflexivity].
  repeat split; try (intros ?; done); try (by intros ? ?); try (by intros i o Ho); done.
Qed.
