(* ===== verification/Uploads.v ===== *)
(** * Uploading in parts ([raw/oio/write/multipart_write.rs], [block_write.rs],
      [position_write.rs])

    The three adapters that turn a sequence of writes into uploads running in a
    [ConcurrentTasks] queue: numbered parts of a multipart upload, blocks with
    random ids, and positioned writes of a file.

    The traits take [&self], so the service is the value [w] of the moment: each
    call has its own, which says how the service answers during that call; an
    upload that finishes in the background between two calls is a [finish] step
    of its queue.  [timeout] says which uploads the executor's timer cuts off. *)

From S2P Require Import Prelude Errors Path Range Buffer Types Writers Tasks.
From stdpp Require Import options.

(** The number of finished uploads a queue may hold. *)
Definition UPLOAD_PREFETCH : nat := Z.to_nat 8192.

(** What the executor's timer does to an upload; the input comes back for a
    retry. *)
Definition with_timeout {I O} (timeout : option (I -> bool)) (late : I -> Error)
    (fut : I -> result O) (input : I) : I * result O :=
  match timeout with
  | None => (input, fut input)
  | Some fires => (input, if fires input then Err (late input) else fut input)
  end.

(** ** Multipart uploads *)

Record MultipartPart : Type := mkPart {
  p_part_number : nat; p_etag : str; p_checksum : option str; p_size : option Z;
}.

Class MultipartWrite (W : Type) : Type := {
  mp_write_once : W -> Z -> Buffer -> result Metadata;
  mp_initiate_part : W -> result str;
  mp_write_part : W -> str -> nat -> Z -> Buffer -> result MultipartPart;
  mp_complete_part : W -> str -> list MultipartPart -> result Metadata;
  mp_abort_part : W -> str -> result unit;
}.

Record PartInput : Type := mkPartInput {
  pi_upload_id : str; pi_part_number : nat; pi_bytes : Buffer;
}.

Record MultipartWriter : Type := mkMultipart {
  mw_upload_id : option str;
  mw_parts : list MultipartPart;
  mw_cache : option Buffer;
  mw_next_part_number : nat;
  mw_tasks : ConcurrentTasks PartInput MultipartPart;
}.

Definition multipart_new (concurrent : nat) : MultipartWriter :=
  mkMultipart None [] None 0 (tasks_new concurrent UPLOAD_PREFETCH).

Definition mw_set_upload_id (v : str) (s : MultipartWriter) : MultipartWriter :=
  mkMultipart (Some v) (mw_parts s) (mw_cache s) (mw_next_part_number s) (mw_tasks s).
Definition mw_set_cache (v : option Buffer) (s : MultipartWriter) : MultipartWriter :=
  mkMultipart (mw_upload_id s) (mw_parts s) v (mw_next_part_number s) (mw_tasks s).
Definition mw_bump (s : MultipartWriter) : MultipartWriter :=
  mkMultipart (mw_upload_id s) (mw_parts s) (mw_cache s) (S (mw_next_part_number s)) (mw_tasks s).
Definition mw_set_tasks (v : ConcurrentTasks PartInput MultipartPart) (s : MultipartWriter)
  : MultipartWriter :=
  mkMultipart (mw_upload_id s) (mw_parts s) (mw_cache s) (mw_next_part_number s) v.
(** The fields the collecting loop works on. *)
Definition mw_collected (s : MultipartWriter) := (mw_parts s, mw_tasks s).
Definition mw_set_collected (v : list MultipartPart * ConcurrentTasks PartInput MultipartPart)
    (s : MultipartWriter) : MultipartWriter :=
  mkMultipart (mw_upload_id s) v.1 (mw_cache s) (mw_next_part_number s) v.2.

Definition mw_fill_cache (bs : Buffer) : M MultipartWriter Error nat :=
  s ← get;
  match mw_cache s with
  | Some _ => panic
  | None => modify (mw_set_cache (Some bs));; mret (blen bs)
  end.

Section Multipart.
  Context {W : Type} `{MultipartWrite W}.

Definition part_timeout (input : PartInput) : Error :=
  set_temporary (with_context (b "part_number") (show_u64 (Z.of_nat (pi_part_number input)))
    (with_context (b "upload_id") (pi_upload_id input) (error Unexpected "write part timeout"))).

(** The task factory. *)
Definition part_task (w : W) (timeout : option (PartInput -> bool))
  : PartInput -> PartInput * result MultipartPart :=
  with_timeout timeout part_timeout (fun input =>
    mp_write_part w (pi_upload_id input) (pi_part_number input)
      (Z.of_nat (blen (pi_bytes input))) (pi_bytes input)).

(** [self.tasks.execute(..)?], then the cache is free and the number is used. *)
Definition submit_part (w : W) timeout (upload_id : str) (bytes : Buffer)
  : M MultipartWriter Error unit :=
  part_number ← gets mw_next_part_number;
  zoom mw_tasks mw_set_tasks
    (execute (part_task w timeout) (mkPartInput upload_id part_number bytes));;
  modify (mw_set_cache None);;
  modify mw_bump.

Definition multipart_write (w : W) timeout (bs : Buffer) : M MultipartWriter Error unit :=
  s ← get;
  let go upload_id :=
    bytes ← lift (expect (mw_cache s));
    submit_part w timeout upload_id bytes;;
    mw_fill_cache bs;;
    mret tt in
  match mw_upload_id s with
  | Some v => go v
  | None =>
      if bool_decide (mw_cache s = None) then mw_fill_cache bs;; mret tt
      else
        upload_id ← lift (mp_initiate_part w);
        modify (mw_set_upload_id upload_id);;
        go upload_id
  end.

Definition parts_mismatch (upload_id : str) (s : MultipartWriter) : Error :=
  with_context (b "upload_id") upload_id
    (with_context (b "actual") (show_u64 (Z.of_nat (length (mw_parts s))))
      (with_context (b "expected") (show_u64 (Z.of_nat (mw_next_part_number s)))
        (error Unexpected "multipart part numbers mismatch, please report bug to opendal"))).

Definition multipart_close (w : W) timeout : M MultipartWriter Error Metadata :=
  s ← get;
  match mw_upload_id s with
  | None =>
      let '(size, body) := match mw_cache s with
                           | Some cache => (blen cache, cache)
                           | None => (0, Buffer.new)
                           end in
      meta ← lift (mp_write_once w (Z.of_nat size) body);
      modify (mw_set_cache None);;
      mret meta
  | Some upload_id =>
      match mw_cache s with
      | Some cache => submit_part w timeout upload_id cache
      | None => mret tt
      end;;
      s ← get;
      zoom mw_collected mw_set_collected
        (drain_tasks (S (outstanding (mw_tasks s))) (part_task w timeout));;
      s ← get;
      if negb (bool_decide (length (mw_parts s) = mw_next_part_number s))
      then throw (parts_mismatch upload_id s)
      else lift (mp_complete_part w upload_id (mw_parts s))
  end.

Definition multipart_abort (w : W) : M MultipartWriter Error unit :=
  s ← get;
  match mw_upload_id s with
  | None => mret tt
  | Some upload_id =>
      modify (mw_set_tasks (clear (mw_tasks s)));;
      modify (mw_set_cache None);;
      lift (mp_abort_part w upload_id)
  end.

End Multipart.

(** *** Integrity *)

Section MultipartSpec.
  Context {W : Type} `{MultipartWrite W}.
  (** [acked i p]: [p] is what the service answered to the upload [i]. *)
  Variable acked : PartInput -> MultipartPart -> Prop.

(** How a writer gets somewhere: writes and closes that succeed or fail and are
    repeated, uploads finishing in between.  The index is the data of the
    writes that returned [Ok]; a [close] that succeeds ends the history. *)
Inductive multipart_reach (concurrent : nat) : list bytes -> MultipartWriter -> Prop :=
  | reach_new : multipart_reach concurrent [] (multipart_new concurrent)
  | reach_write acc s (w : W) timeout bs s' :
      multipart_reach concurrent acc s -> await_ok acked anything (part_task w timeout) ->
      multipart_write w timeout bs s = (Ok tt, s') ->
      multipart_reach concurrent (acc ++ [contents bs]) s'
  | reach_write_err acc s (w : W) timeout bs e s' :
      multipart_reach concurrent acc s -> await_ok acked anything (part_task w timeout) ->
      multipart_write w timeout bs s = (Err e, s') ->
      multipart_reach concurrent acc s'
  | reach_close_err acc s (w : W) timeout e s' :
      multipart_reach concurrent acc s -> await_ok acked anything (part_task w timeout) ->
      multipart_close w timeout s = (Err e, s') ->
      multipart_reach concurrent acc s'
  | reach_finish acc s k r :
      multipart_reach concurrent acc s -> event_ok acked anything (mw_tasks s) (Finish k r) ->
      multipart_reach concurrent acc (mw_set_tasks (finish k r (mw_tasks s)) s).

(** The uploads submitted so far carry consecutive part numbers of one upload,
    and with the cached buffer they are the data accepted so far. *)
Definition multipart_inv (acc : list bytes) (s : MultipartWriter) : Prop :=
  exists inputs,
    tasks_inv acked anything inputs (mw_parts s) (mw_tasks s) /\
    (pi_part_number <$> inputs) = seq 0 (mw_next_part_number s) /\
    concat ((contents ∘ pi_bytes) <$> inputs) ++ from_option contents [] (mw_cache s) = concat acc /\
    match mw_upload_id s with
    | None => inputs = []
    | Some u => Forall (fun i => pi_upload_id i = u) inputs
    end.

Lemma submit_part_inv w timeout u bytes acc s r s' :
  await_ok acked anything (part_task w timeout) -> multipart_inv acc s ->
  mw_upload_id s = Some u -> mw_cache s = Some bytes ->
  submit_part w timeout u bytes s = (r, s') ->
  multipart_inv acc s' /\ mw_upload_id s' = Some u /\ (r = Ok tt -> mw_cache s' = None) /\ r <> Panic.
Proof.
  intros Ha (inputs & Hi & Hn & Hd & Hu) Hid Hcache. rewrite Hid, Hcache in *.
  unfold submit_part, mbind, M_bind, gets, modify, zoom.
  destruct (execute _ _ (mw_tasks s)) as [r1 ts] eqn:E.
  eapply execute_tasks_inv in E; [|done..].
  destruct r1 as [[]|e|]; intros ?; simplify_eq; [| |done].
  - split_and!; try done. eexists; split; [exact E|].
    cbn [mw_bump mw_set_cache mw_set_tasks mw_next_part_number mw_upload_id mw_cache].
    rewrite fmap_app, Hn, seq_S, fmap_app, concat_app, Hid. simpl. rewrite !app_nil_r.
    split_and!; try done. apply Forall_app. split; [done|]. by constructor.
  - split_and!; try done. exists inputs. simpl. by rewrite Hid, Hcache.
Qed.

Lemma multipart_write_inv w timeout bs acc s r s' :
  await_ok acked anything (part_task w timeout) -> multipart_inv acc s ->
  multipart_write w timeout bs s = (r, s') ->
  match r with
  | Ok _ => multipart_inv (acc ++ [contents bs]) s'
  | Err _ => multipart_inv acc s'
  | Panic => True
  end.
Proof.
  intros Ha Hi.
  assert (forall s u, multipart_inv acc s -> mw_upload_id s = Some u ->
    (bytes ← lift (expect (mw_cache s)); submit_part w timeout u bytes;; mw_fill_cache bs;; mret tt) s
      = (r, s') ->
    match r with
    | Ok _ => multipart_inv (acc ++ [contents bs]) s' | Err _ => multipart_inv acc s' | Panic => True
    end) as Hgo.
  { clear s Hi. intros s u Hi Hid. unfold mbind, M_bind, lift.
    destruct (mw_cache s) as [bytes|] eqn:Hc; simpl; [|intros ?; by simplify_eq].
    destruct (submit_part w timeout u bytes s) as [r1 s1] eqn:E.
    eapply submit_part_inv in E as (Hi1 & Hu1 & Hc1 & Hp); [|done..].
    destruct r1 as [[]|e|]; [| by intros ?; simplify_eq | done]. specialize (Hc1 eq_refl).
    unfold mw_fill_cache, mbind, M_bind, get, modify, mret, M_ret. rewrite Hc1.
    intros ?. simplify_eq. destruct Hi1 as (inputs & H1 & H2 & H3 & H4). exists inputs.
    rewrite Hc1 in H3. simpl in *. rewrite app_nil_r in H3. rewrite concat_app, H3. simpl.
    by rewrite app_nil_r. }
  unfold multipart_write, mbind, M_bind, get, lift, modify in *.
  destruct (mw_upload_id s) as [u|] eqn:Hid; [by apply Hgo|].
  destruct Hi as (inputs & H1 & H2 & H3 & H4). rewrite Hid in H4. case_bool_decide as Hc.
  - unfold mw_fill_cache, mbind, M_bind, get, mret, M_ret, modify. rewrite Hc.
    intros ?. simplify_eq. exists []. rewrite Hc in H3. simpl in *.
    rewrite Hid, concat_app, <- H3. simpl. by rewrite app_nil_r.
  - destruct (mp_initiate_part w) as [u| |]; [|intros ?; simplify_eq..]; [| |done].
    + apply (Hgo (mw_set_upload_id u s) u); [|done]. subst inputs. exists [].
      split_and!; [done..|by constructor].
    + exists []. by rewrite Hid.
Qed.

Lemma multipart_close_inv w timeout acc s r s' :
  await_ok acked anything (part_task w timeout) -> multipart_inv acc s ->
  multipart_close w timeout s = (r, s') ->
  match r with
  | Ok meta =>
      match mw_upload_id s with
      | None => exists body, contents body = concat acc /\
          mp_write_once w (Z.of_nat (blen body)) body = Ok meta
      | Some u => exists inputs,
          mp_complete_part w u (mw_parts s') = Ok meta /\ Forall2 acked inputs (mw_parts s') /\
          (pi_part_number <$> inputs) = seq 0 (length inputs) /\
          Forall (fun i => pi_upload_id i = u) inputs /\
          concat ((contents ∘ pi_bytes) <$> inputs) = concat acc
      end
  | Err _ => multipart_inv acc s'
  | Panic => True
  end.
Proof.
  intros Ha Hi. unfold multipart_close, mbind, M_bind, get, lift, modify, mret, M_ret.
  destruct (mw_upload_id s) as [u|] eqn:Hid.
  2: { destruct Hi as (inputs & H1 & H2 & H3 & H4). rewrite Hid in H4. subst inputs. simpl in H3.
       destruct (mw_cache s) as [body|] eqn:Hc; simpl in H3;
         destruct (mp_write_once _ _ _) eqn:E; intros ?; simplify_eq; try done.
       - by exists body.
       - exists []. by rewrite Hid, Hc.
       - by exists Buffer.new.
       - exists []. by rewrite Hid, Hc. }
  destruct (match mw_cache s with Some cache => submit_part w timeout u cache | None => _ end s)
    as [r1 s1] eqn:E1.
  assert (multipart_inv acc s1 /\ mw_upload_id s1 = Some u /\ (r1 = Ok tt -> mw_cache s1 = None) /\
    r1 <> Panic) as (Hi1 & Hu1 & Hc1 & Hp1).
  { destruct (mw_cache s) eqn:Hc; [by eapply submit_part_inv | by simplify_eq]. }
  destruct r1 as [[]|e|]; [| by intros ?; simplify_eq | done]. specialize (Hc1 eq_refl).
  destruct Hi1 as (inputs & H1 & H2 & H3 & H4). rewrite Hu1, Hc1 in *. simpl in H3.
  rewrite app_nil_r in H3. unfold zoom, mw_collected, get, throw.
  destruct (drain_tasks _ _ (mw_parts s1, mw_tasks s1)) as [r2 [out ts]] eqn:E2.
  eapply drain_tasks_inv in E2 as (Hi2 & Hall & Hp2); [|done|done|lia].
  assert (multipart_inv acc (mw_set_collected (out, ts) s1)) as Hinv.
  { exists inputs. simpl. rewrite Hu1, Hc1. simpl. by rewrite app_nil_r. }
  destruct r2 as [[]|e|]; [| by intros ?; simplify_eq | done]. pose proof (proj1 (Hall eq_refl)) as Hacked.
  assert (length out = mw_next_part_number s1) as Hlen.
  { rewrite <- (Forall2_length _ _ _ Hacked), <- (length_fmap pi_part_number inputs), H2.
    apply length_seq. }
  simpl. rewrite bool_decide_eq_true_2 by done. simpl.
  destruct (mp_complete_part w u out) eqn:Ec; intros ?; simplify_eq; [|done|done].
  exists inputs. simpl. split_and!; try done. rewrite H2. f_equal.
  rewrite <- Hlen. symmetry. by eapply Forall2_length.
Qed.

Lemma multipart_reach_inv concurrent acc s :
  multipart_reach concurrent acc s -> multipart_inv acc s.
Proof.
  induction 1 as [|acc s w t bs s' _ IH Ha E|acc s w t bs e s' _ IH Ha E
                 |acc s w t e s' _ IH Ha E|acc s k r _ IH Hok].
  - exists []. by split_and!; [apply tasks_new_inv| | |].
  - by apply (multipart_write_inv _ _ _ _ _ _ _ Ha IH) in E.
  - by apply (multipart_write_inv _ _ _ _ _ _ _ Ha IH) in E.
  - by apply (multipart_close_inv _ _ _ _ _ _ Ha IH) in E.
  - destruct IH as (inputs & H1 & H2 & H3 & H4). exists inputs. simpl. split_and!; try done.
    by apply finish_tasks_inv.
Qed.

(** C6.  A multipart upload that is closed successfully is exactly the data
    whose writes returned [Ok], whatever failed and was repeated on the way and
    in whatever order the parts finished: either the whole data went out in one
    [write_once], or [complete_part] was given the answers to parts 0, 1, 2, ...
    of one upload, in order, whose bytes are the data.  A failed close can be repeated. *)
Theorem multipart_integrity concurrent acc s w timeout r s' :
  multipart_reach concurrent acc s -> await_ok acked anything (part_task w timeout) ->
  multipart_close w timeout s = (r, s') ->
  match r with
  | Ok meta =>
      match mw_upload_id s with
      | None => exists body, contents body = concat acc /\
          mp_write_once w (Z.of_nat (blen body)) body = Ok meta
      | Some u => exists inputs,
          mp_complete_part w u (mw_parts s') = Ok meta /\ Forall2 acked inputs (mw_parts s') /\
          (pi_part_number <$> inputs) = seq 0 (length inputs) /\
          Forall (fun i => pi_upload_id i = u) inputs /\
          concat ((contents ∘ pi_bytes) <$> inputs) = concat acc
      end
  | Err _ => multipart_reach concurrent acc s'
  | Panic => True
  end.
Proof.
  intros Hr Ha E. pose proof (multipart_reach_inv _ _ _ Hr) as Hi.
  eapply (multipart_close_inv _ _ _ _ _ _ Ha) in Hi; [|exact E].
  destruct r; [done | by eapply reach_close_err | done].
Qed.

(** C39.  Nothing stands in the way of a close while the service accepts the parts:
    it ends, and answers what [complete_part] answers. *)
Theorem multipart_close_progress concurrent acc s w timeout u :
  multipart_reach concurrent acc s -> await_ok acked anything (part_task w timeout) ->
  mw_upload_id s = Some u -> healthy anything (part_task w timeout) (mw_tasks s) ->
  exists s', multipart_close w timeout s = (mp_complete_part w u (mw_parts s'), s').
Proof.
  intros Hr Ha Hid Hh. pose proof (multipart_reach_inv _ _ _ Hr) as Hi.
  unfold multipart_close, mbind, M_bind, get, lift, throw. rewrite Hid.
  destruct (match mw_cache s with Some cache => submit_part w timeout u cache | None => _ end s)
    as [r1 s1] eqn:E1.
  assert (multipart_inv acc s1 /\ r1 = Ok tt /\ healthy anything (part_task w timeout) (mw_tasks s1))
    as (Hi1 & -> & Hh1).
  { destruct (mw_cache s) as [bytes|] eqn:Hc; [|unfold mret, M_ret in E1; by simplify_eq]. pose proof E1 as E.
    eapply submit_part_inv in E as (Hi1 & _); [|done..]. split; [done|].
    unfold submit_part, mbind, M_bind, gets, modify, zoom in E1.
    destruct (execute_healthy _ _ (mkPartInput u (mw_next_part_number s) bytes) _ Hh I) as (ts & Ex & Hts).
    rewrite Ex in E1. by simplify_eq. }
  destruct Hi1 as (inputs & H1 & H2 & _). unfold zoom, mw_collected.
  destruct (drain_tasks _ _ (mw_parts s1, mw_tasks s1)) as [r2 [out ts]] eqn:E2.
  pose proof (drain_tasks_healthy _ (S (outstanding (mw_tasks s1))) _ (mw_parts s1) _ Hh1) as Hd.
  rewrite E2 in Hd. simpl in Hd. rewrite Hd in * by lia. clear Hd.
  eapply drain_tasks_inv in E2 as (_ & Hall & _); [|done|done|lia]. pose proof (proj1 (Hall eq_refl)) as Hacked.
  simpl. rewrite bool_decide_eq_true_2; [by exists (mw_set_collected (out, ts) s1)|].
  rewrite <- (Forall2_length _ _ _ Hacked), <- (length_fmap pi_part_number inputs), H2.
  apply length_seq.
Qed.

End MultipartSpec.

(** ** Block uploads

    [Uuid::new_v4()] is an argument of the call. *)

Class BlockWrite (Uuid W : Type) : Type := {
  bk_write_once : W -> Z -> Buffer -> result Metadata;
  bk_write_block : W -> Uuid -> Z -> Buffer -> result unit;
  bk_complete_block : W -> list Uuid -> result Metadata;
  bk_abort_block : W -> list Uuid -> result unit;
}.

Record BlockInput (Uuid : Type) : Type := mkBlockInput { bi_block_id : Uuid; bi_bytes : Buffer }.
Arguments mkBlockInput {Uuid}.
Arguments bi_block_id {Uuid}.
Arguments bi_bytes {Uuid}.

Record BlockWriter (Uuid : Type) : Type := mkBlock {
  bw_started : bool;
  bw_block_ids : list Uuid;
  bw_cache : option Buffer;
  bw_tasks : ConcurrentTasks (BlockInput Uuid) Uuid;
}.
Arguments mkBlock {Uuid}.
Arguments bw_started {Uuid}.
Arguments bw_block_ids {Uuid}.
Arguments bw_cache {Uuid}.
Arguments bw_tasks {Uuid}.

Section Block.
  Context {Uuid W : Type} `{BlockWrite Uuid W} (show_uuid : Uuid -> str).
  Implicit Types s : BlockWriter Uuid.

Definition block_new (concurrent : nat) : BlockWriter Uuid :=
  mkBlock false [] None (tasks_new concurrent UPLOAD_PREFETCH).

Definition bw_start s : BlockWriter Uuid := mkBlock true (bw_block_ids s) (bw_cache s) (bw_tasks s).
Definition bw_set_cache (v : option Buffer) s : BlockWriter Uuid :=
  mkBlock (bw_started s) (bw_block_ids s) v (bw_tasks s).
Definition bw_set_tasks (v : ConcurrentTasks (BlockInput Uuid) Uuid) s : BlockWriter Uuid :=
  mkBlock (bw_started s) (bw_block_ids s) (bw_cache s) v.
Definition bw_collected s := (bw_block_ids s, bw_tasks s).
Definition bw_set_collected (v : list Uuid * ConcurrentTasks (BlockInput Uuid) Uuid) s
  : BlockWriter Uuid := mkBlock (bw_started s) v.1 (bw_cache s) v.2.

Definition bw_fill_cache (bs : Buffer) : M (BlockWriter Uuid) Error nat :=
  s ← get;
  match bw_cache s with
  | Some _ => panic
  | None => modify (bw_set_cache (Some bs));; mret (blen bs)
  end.

Definition block_timeout (input : BlockInput Uuid) : Error :=
  set_temporary (with_context (b "block_id") (show_uuid (bi_block_id input))
    (error Unexpected "write block timeout")).
Definition block_task (w : W) (timeout : option (BlockInput Uuid -> bool))
  : BlockInput Uuid -> BlockInput Uuid * result Uuid :=
  with_timeout timeout block_timeout (fun input =>
    (fun _ => bi_block_id input) <$>
      bk_write_block w (bi_block_id input) (Z.of_nat (blen (bi_bytes input))) (bi_bytes input)).

Definition submit_block (w : W) timeout (uuid : Uuid) (bytes : Buffer)
  : M (BlockWriter Uuid) Error unit :=
  zoom bw_tasks bw_set_tasks (execute (block_task w timeout) (mkBlockInput uuid bytes));;
  modify (bw_set_cache None).

Definition block_write (w : W) timeout (uuid : Uuid) (bs : Buffer) : M (BlockWriter Uuid) Error unit :=
  s ← get;
  if negb (bw_started s) && bool_decide (bw_cache s = None) then bw_fill_cache bs;; mret tt
  else
    modify bw_start;;
    bytes ← lift (expect (bw_cache s));
    submit_block w timeout uuid bytes;;
    bw_fill_cache bs;;
    mret tt.

Definition block_close (w : W) timeout (uuid : Uuid) : M (BlockWriter Uuid) Error Metadata :=
  s ← get;
  if negb (bw_started s) then
    let '(size, body) := match bw_cache s with
                         | Some cache => (blen cache, cache)
                         | None => (0, Buffer.new)
                         end in
    meta ← lift (bk_write_once w (Z.of_nat size) body);
    modify (bw_set_cache None);;
    mret meta
  else
    match bw_cache s with
    | Some cache => submit_block w timeout uuid cache
    | None => mret tt
    end;;
    s ← get;
    zoom bw_collected bw_set_collected
      (drain_tasks (S (outstanding (bw_tasks s))) (block_task w timeout));;
    block_ids ← gets bw_block_ids;
    lift (bk_complete_block w block_ids).

Definition block_abort (w : W) : M (BlockWriter Uuid) Error unit :=
  s ← get;
  if negb (bw_started s) then mret tt
  else
    modify (bw_set_tasks (clear (bw_tasks s)));;
    modify (bw_set_cache None);;
    lift (bk_abort_block w (bw_block_ids s)).

(** *** Integrity *)

  (** [stored i]: the service has acknowledged the block [i]. *)
  Variable stored : BlockInput Uuid -> Prop.

Definition block_acked (i : BlockInput Uuid) (u : Uuid) : Prop := stored i /\ u = bi_block_id i.

Inductive block_reach (concurrent : nat) : list bytes -> BlockWriter Uuid -> Prop :=
  | breach_new : block_reach concurrent [] (block_new concurrent)
  | breach_write acc s (w : W) timeout uuid bs s' :
      block_reach concurrent acc s -> await_ok block_acked anything (block_task w timeout) ->
      block_write w timeout uuid bs s = (Ok tt, s') ->
      block_reach concurrent (acc ++ [contents bs]) s'
  | breach_write_err acc s (w : W) timeout uuid bs e s' :
      block_reach concurrent acc s -> await_ok block_acked anything (block_task w timeout) ->
      block_write w timeout uuid bs s = (Err e, s') ->
      block_reach concurrent acc s'
  | breach_close_err acc s (w : W) timeout uuid e s' :
      block_reach concurrent acc s -> await_ok block_acked anything (block_task w timeout) ->
      block_close w timeout uuid s = (Err e, s') ->
      block_reach concurrent acc s'
  | breach_finish acc s k r :
      block_reach concurrent acc s -> event_ok block_acked anything (bw_tasks s) (Finish k r) ->
      block_reach concurrent acc (bw_set_tasks (finish k r (bw_tasks s)) s).

Definition block_inv (acc : list bytes) s : Prop :=
  exists inputs,
    tasks_inv block_acked anything inputs (bw_block_ids s) (bw_tasks s) /\
    concat ((contents ∘ bi_bytes) <$> inputs) ++ from_option contents [] (bw_cache s) = concat acc /\
    (bw_started s = false -> inputs = []).

Lemma submit_block_inv w timeout uuid bytes acc s r s' :
  await_ok block_acked anything (block_task w timeout) -> block_inv acc s ->
  bw_started s = true -> bw_cache s = Some bytes ->
  submit_block w timeout uuid bytes s = (r, s') ->
  block_inv acc s' /\ bw_started s' = true /\ (r = Ok tt -> bw_cache s' = None) /\ r <> Panic.
Proof.
  intros Ha (inputs & Hi & Hd & Hu) Hst Hcache. rewrite Hcache in *.
  unfold submit_block, mbind, M_bind, modify, zoom.
  destruct (execute _ _ (bw_tasks s)) as [r1 ts] eqn:E.
  eapply execute_tasks_inv in E; [|done..].
  destruct r1 as [[]|e|]; intros ?; simplify_eq; [| |done].
  - split_and!; try done. eexists; split; [exact E|]. simpl.
    rewrite fmap_app, concat_app, Hst. simpl. by rewrite !app_nil_r.
  - split_and!; try done. exists inputs. simpl. by rewrite Hcache.
Qed.

Lemma block_write_inv w timeout uuid bs acc s r s' :
  await_ok block_acked anything (block_task w timeout) -> block_inv acc s ->
  block_write w timeout uuid bs s = (r, s') ->
  match r with
  | Ok _ => block_inv (acc ++ [contents bs]) s'
  | Err _ => block_inv acc s'
  | Panic => True
  end.
Proof.
  intros Ha Hi. unfold block_write, mbind, M_bind, get, lift, modify.
  destruct (negb (bw_started s) && bool_decide (bw_cache s = None)) eqn:Hg.
  - apply andb_true_iff in Hg as [Hst Hc]. apply negb_true_iff in Hst.
    apply bool_decide_eq_true in Hc. destruct Hi as (inputs & H1 & H2 & H3).
    unfold bw_fill_cache, mbind, M_bind, get, mret, M_ret, modify. rewrite Hc in *.
    intros ?. simplify_eq. exists inputs. rewrite (H3 Hst) in *. simpl in *.
    rewrite concat_app, <- H2. simpl. by rewrite app_nil_r.
  - destruct (bw_cache s) as [bytes|] eqn:Hc; simpl; [|intros ?; by simplify_eq].
    assert (block_inv acc (bw_start s)) as Hi'.
    { destruct Hi as (inputs & H1 & H2 & H3). by exists inputs. }
    destruct (submit_block w timeout uuid bytes (bw_start s)) as [r1 s1] eqn:E.
    eapply submit_block_inv in E as (Hi1 & Hu1 & Hc1 & Hp); [|done..].
    destruct r1 as [[]|e|]; [| by intros ?; simplify_eq | done]. specialize (Hc1 eq_refl).
    unfold bw_fill_cache, mbind, M_bind, get, modify, mret, M_ret. rewrite Hc1.
    intros ?. simplify_eq. destruct Hi1 as (inputs & H1 & H2 & H3). exists inputs.
    rewrite Hc1 in H2. simpl in *. rewrite app_nil_r in H2. rewrite concat_app, H2. simpl.
    by rewrite app_nil_r.
Qed.

(** What a successful close has done. *)
Definition block_closed (w : W) (acc : list bytes) s s' (meta : Metadata) : Prop :=
  if bw_started s then exists inputs,
    bk_complete_block w (bi_block_id <$> inputs) = Ok meta /\ Forall stored inputs /\
    bw_block_ids s' = bi_block_id <$> inputs /\
    concat ((contents ∘ bi_bytes) <$> inputs) = concat acc
  else exists body, contents body = concat acc /\
    bk_write_once w (Z.of_nat (blen body)) body = Ok meta.

Lemma block_close_inv w timeout uuid acc s r s' :
  await_ok block_acked anything (block_task w timeout) -> block_inv acc s ->
  block_close w timeout uuid s = (r, s') ->
  match r with
  | Ok meta => block_closed w acc s s' meta
  | Err _ => block_inv acc s'
  | Panic => True
  end.
Proof.
  intros Ha Hi. unfold block_close, block_closed, mbind, M_bind, get, lift, modify, mret, M_ret.
  destruct (bw_started s) eqn:Hst; cbn [negb].
  2: { destruct Hi as (inputs & H1 & H2 & H3). rewrite (H3 Hst) in *. simpl in H2.
       destruct (bw_cache s) as [body|] eqn:Hc; simpl in H2;
         destruct (bk_write_once _ _ _) eqn:E; intros ?; simplify_eq; try done.
       - by exists body.
       - exists []. by rewrite Hc.
       - by exists Buffer.new.
       - exists []. by rewrite Hc. }
  destruct (match bw_cache s with Some cache => submit_block w timeout uuid cache | None => _ end s)
    as [r1 s1] eqn:E1.
  assert (block_inv acc s1 /\ bw_started s1 = true /\ (r1 = Ok tt -> bw_cache s1 = None) /\
    r1 <> Panic) as (Hi1 & Hu1 & Hc1 & Hp1).
  { destruct (bw_cache s) eqn:Hc; [by eapply submit_block_inv | by simplify_eq]. }
  destruct r1 as [[]|e|]; [| by intros ?; simplify_eq | done]. specialize (Hc1 eq_refl).
  destruct Hi1 as (inputs & H1 & H2 & H3). rewrite Hc1 in *. simpl in H2.
  rewrite app_nil_r in H2. unfold zoom, bw_collected, gets.
  destruct (drain_tasks _ _ (bw_block_ids s1, bw_tasks s1)) as [r2 [out ts]] eqn:E2.
  eapply drain_tasks_inv in E2 as (Hi2 & Hall & Hp2); [|done|done|lia].
  assert (block_inv acc (bw_set_collected (out, ts) s1)) as Hinv.
  { exists inputs. simpl. rewrite Hc1. simpl. by rewrite app_nil_r. }
  destruct r2 as [[]|e|]; [| by intros ?; simplify_eq | done].
  pose proof (proj1 (Hall eq_refl)) as Hacked. simpl.
  assert (out = bi_block_id <$> inputs /\ Forall stored inputs) as [-> Hs].
  { clear -Hacked. induction Hacked as [|i u ? ? [Hi ->] _ [-> IH]]; csimpl; [done|].
    split; [done|]. by constructor. }
  destruct (bk_complete_block w _) eqn:Ec; intros ?; simplify_eq; [|done|done].
  exists inputs. by split_and!.
Qed.

Lemma block_reach_inv concurrent acc s : block_reach concurrent acc s -> block_inv acc s.
Proof.
  induction 1 as [|acc s w t u bs s' _ IH Ha E|acc s w t u bs e s' _ IH Ha E
                 |acc s w t u e s' _ IH Ha E|acc s k r _ IH Hok].
  - exists []. by split_and!; [apply tasks_new_inv| |].
  - by apply (block_write_inv _ _ _ _ _ _ _ _ Ha IH) in E.
  - by apply (block_write_inv _ _ _ _ _ _ _ _ Ha IH) in E.
  - by apply (block_close_inv _ _ _ _ _ _ _ Ha IH) in E.
  - destruct IH as (inputs & H1 & H2 & H3). exists inputs. simpl. split_and!; try done.
    by apply finish_tasks_inv.
Qed.

(** A block upload that is closed successfully is exactly the data whose
    writes returned [Ok]: [complete_block] is given the ids of blocks the
    service has stored, in the order of the writes, whose bytes are the data;
    or the whole data went out in one [write_once].  A failed close can be
    repeated. *)
Theorem block_integrity concurrent acc s w timeout uuid r s' :
  block_reach concurrent acc s -> await_ok block_acked anything (block_task w timeout) ->
  block_close w timeout uuid s = (r, s') ->
  match r with
  | Ok meta => block_closed w acc s s' meta
  | Err _ => block_reach concurrent acc s'
  | Panic => True
  end.
Proof.
  intros Hr Ha E. pose proof (block_reach_inv _ _ _ Hr) as Hi.
  eapply (block_close_inv _ _ _ _ _ _ _ Ha) in Hi; [|exact E].
  destruct r; [done | by eapply breach_close_err | done].
Qed.

End Block.

(** ** Positioned writes *)

Class PositionWrite (W : Type) : Type := {
  ps_write_all_at : W -> Z -> Buffer -> result unit;
  ps_close : W -> Z -> result Metadata;
  ps_abort : W -> result unit;
}.

Record PositionInput : Type := mkPositionInput { po_offset : Z; po_bytes : Buffer }.

Record PositionWriter : Type := mkPosition {
  pw_next_offset : Z;
  pw_cache : option Buffer;
  pw_tasks : ConcurrentTasks PositionInput unit;
}.

Definition position_new (concurrent : nat) : PositionWriter :=
  mkPosition 0 None (tasks_new concurrent UPLOAD_PREFETCH).

Definition pw_set_cache (v : option Buffer) (s : PositionWriter) : PositionWriter :=
  mkPosition (pw_next_offset s) v (pw_tasks s).
Definition pw_advance (len : nat) (s : PositionWriter) : PositionWriter :=
  mkPosition (wrap64 (pw_next_offset s + Z.of_nat len)) (pw_cache s) (pw_tasks s).
Definition pw_set_tasks (v : ConcurrentTasks PositionInput unit) (s : PositionWriter)
  : PositionWriter := mkPosition (pw_next_offset s) (pw_cache s) v.

Definition pw_fill_cache (bs : Buffer) : M PositionWriter Error nat :=
  s ← get;
  match pw_cache s with
  | Some _ => panic
  | None => modify (pw_set_cache (Some bs));; mret (blen bs)
  end.

Section Position.
  Context {W : Type} `{PositionWrite W}.

Definition position_timeout (input : PositionInput) : Error :=
  set_temporary (with_context (b "offset") (show_u64 (po_offset input))
    (error Unexpected "write position timeout")).
Definition position_task (w : W) (timeout : option (PositionInput -> bool))
  : PositionInput -> PositionInput * result unit :=
  with_timeout timeout position_timeout (fun input =>
    ps_write_all_at w (po_offset input) (po_bytes input)).

Definition position_write (w : W) timeout (bs : Buffer) : M PositionWriter Error unit :=
  s ← get;
  match pw_cache s with
  | None => pw_fill_cache bs;; mret tt
  | Some bytes =>
      let length := blen bytes in
      let offset := pw_next_offset s in
      zoom pw_tasks pw_set_tasks (execute (position_task w timeout) (mkPositionInput offset bytes));;
      modify (pw_set_cache None);;
      modify (pw_advance length);;
      pw_fill_cache bs;;
      mret tt
  end.

(** [while self.tasks.next().await.transpose()?.is_some() {}]. *)
Definition position_drain (w : W) timeout : M PositionWriter Error unit :=
  s ← get;
  zoom (fun s => ([], pw_tasks s)) (fun '(_, ts) s => pw_set_tasks ts s)
    (drain_tasks (S (outstanding (pw_tasks s))) (position_task w timeout)).

Definition position_close (w : W) timeout : M PositionWriter Error Metadata :=
  position_drain w timeout;;
  s ← get;
  match pw_cache s with
  | Some buffer =>
      lift (ps_write_all_at w (pw_next_offset s) buffer);;
      modify (pw_set_cache None);;
      modify (pw_advance (blen buffer))
  | None => mret tt
  end;;
  final_size ← gets pw_next_offset;
  lift (ps_close w final_size).

Definition position_abort (w : W) : M PositionWriter Error unit :=
  s ← get;
  modify (pw_set_tasks (clear (pw_tasks s)));;
  modify (pw_set_cache None);;
  lift (ps_abort w).

(** *** Integrity *)

  (** [stored i]: the service has performed the write [i]. *)
  Variable stored : PositionInput -> Prop.

Definition position_acked (i : PositionInput) (_ : unit) : Prop := stored i.
(** During this call the service does what it says it does. *)
Definition position_ok (w : W) timeout : Prop :=
  await_ok position_acked anything (position_task w timeout) /\
  forall off buf, ps_write_all_at w off buf = Ok tt -> stored (mkPositionInput off buf).

Inductive position_reach (concurrent : nat) : list bytes -> PositionWriter -> Prop :=
  | preach_new : position_reach concurrent [] (position_new concurrent)
  | preach_write acc s (w : W) timeout bs s' :
      position_reach concurrent acc s -> position_ok w timeout -> wf bs ->
      position_write w timeout bs s = (Ok tt, s') ->
      position_reach concurrent (acc ++ [contents bs]) s'
  | preach_write_err acc s (w : W) timeout bs e s' :
      position_reach concurrent acc s -> position_ok w timeout -> wf bs ->
      position_write w timeout bs s = (Err e, s') ->
      position_reach concurrent acc s'
  | preach_close_err acc s (w : W) timeout e s' :
      position_reach concurrent acc s -> position_ok w timeout ->
      position_close w timeout s = (Err e, s') ->
      position_reach concurrent acc s'
  | preach_finish acc s k r :
      position_reach concurrent acc s -> event_ok position_acked anything (pw_tasks s) (Finish k r) ->
      position_reach concurrent acc (pw_set_tasks (finish k r (pw_tasks s)) s).

(** What a positioned write puts where. *)
Definition placed (i : PositionInput) : Z * bytes := (po_offset i, contents (po_bytes i)).

Definition position_inv (acc : list bytes) (s : PositionWriter) : Prop :=
  exists inputs out,
    tasks_inv position_acked anything inputs out (pw_tasks s) /\
    contiguous 0 (placed <$> inputs) /\ pw_next_offset s = end_offset 0 (placed <$> inputs) /\
    concat ((contents ∘ po_bytes) <$> inputs) ++ from_option contents [] (pw_cache s) = concat acc /\
    from_option wf True (pw_cache s).

(** One more piece, at the current offset. *)
Lemma placed_snoc inputs off buf :
  wf buf -> contiguous 0 (placed <$> inputs) -> off = end_offset 0 (placed <$> inputs) ->
  contiguous 0 (placed <$> inputs ++ [mkPositionInput off buf]) /\
  wrap64 (off + Z.of_nat (blen buf)) = end_offset 0 (placed <$> inputs ++ [mkPositionInput off buf]).
Proof.
  intros Hb Hc ->. rewrite fmap_app, contiguous_app, end_offset_app. simpl.
  by rewrite contents_length.
Qed.

Lemma position_write_inv w timeout bs acc s r s' :
  position_ok w timeout -> wf bs -> position_inv acc s -> position_write w timeout bs s = (r, s') ->
  match r with
  | Ok _ => position_inv (acc ++ [contents bs]) s'
  | Err _ => position_inv acc s'
  | Panic => False
  end.
Proof.
  intros [Ha _] Hb (inputs & out & H1 & H2 & H3 & H4 & H5).
  unfold position_write, pw_fill_cache, mbind, M_bind, get, modify, zoom, mret, M_ret.
  destruct (pw_cache s) as [bytes|] eqn:Hc; simpl in *.
  2: { rewrite Hc. intros ?. simplify_eq. exists inputs, out. simpl. rewrite app_nil_r in H4.
       rewrite concat_app, <- H4. simpl. by rewrite app_nil_r. }
  destruct (execute _ _ (pw_tasks s)) as [r1 ts] eqn:E.
  eapply execute_tasks_inv in E; [|done..].
  destruct r1 as [[]|e|]; intros ?; simplify_eq; [| |done].
  - destruct (placed_snoc inputs (pw_next_offset s) bytes) as [Hp Hq]; [done..|].
    do 2 eexists; split; [exact E|]. simpl. split_and!; try done.
    rewrite fmap_app, !concat_app, <- H4. simpl. by rewrite !app_nil_r.
  - exists inputs, out. simpl. by rewrite Hc.
Qed.

Lemma position_drain_inv w timeout acc s r s' :
  position_ok w timeout -> position_inv acc s -> position_drain w timeout s = (r, s') ->
  position_inv acc s' /\ pw_next_offset s' = pw_next_offset s /\ pw_cache s' = pw_cache s /\
  r <> Panic /\
  (r = Ok tt -> exists inputs, Forall stored inputs /\ tasks (pw_tasks s') = [] /\
    results (pw_tasks s') = [] /\ contiguous 0 (placed <$> inputs) /\
    pw_next_offset s = end_offset 0 (placed <$> inputs) /\
    concat ((contents ∘ po_bytes) <$> inputs) ++ from_option contents [] (pw_cache s) = concat acc).
Proof.
  intros [Ha _] (inputs & out & H1 & H2 & H3 & H4 & H5).
  unfold position_drain, mbind, M_bind, get, zoom.
  assert (forall f l k t, drain_tasks f (position_task w timeout) (l ++ k, t) =
    (let '(r, (o, t')) := drain_tasks f (position_task w timeout) (k, t) in (r, (l ++ o, t')))) as Hshift.
  { induction f as [|f IH]; intros l k t; [done|]. simpl.
    destruct (Tasks.next _ t) as [[[o|e|]|] t1]; try done. by rewrite <- app_assoc, IH. }
  destruct (drain_tasks _ _ ([], pw_tasks s)) as [r1 [o ts]] eqn:E. intros ?. simplify_eq.
  pose proof (Hshift (S (outstanding (pw_tasks s))) out [] (pw_tasks s)) as E'.
  rewrite E, app_nil_r in E'. eapply drain_tasks_inv in E' as (Hi & Hall & Hp); [|done|done|lia].
  split_and!; try done.
  - by exists inputs, (out ++ o).
  - intros ->. destruct (Hall eq_refl) as (Hacked & Ht & Hr). exists inputs. split_and!; try done.
    clear -Hacked. induction Hacked; by constructor.
Qed.

(** What a successful close has done. *)
Definition position_closed (w : W) (acc : list bytes) (meta : Metadata) : Prop :=
  exists inputs, Forall stored inputs /\ contiguous 0 (placed <$> inputs) /\
    ps_close w (end_offset 0 (placed <$> inputs)) = Ok meta /\
    concat ((contents ∘ po_bytes) <$> inputs) = concat acc.

Lemma position_close_inv w timeout acc s r s' :
  position_ok w timeout -> position_inv acc s -> position_close w timeout s = (r, s') ->
  match r with
  | Ok meta => position_closed w acc meta
  | Err _ => position_inv acc s'
  | Panic => True
  end.
Proof.
  intros Hok Hi. unfold position_close, mbind, M_bind, get, lift, modify, gets, mret, M_ret.
  destruct (position_drain w timeout s) as [r1 s1] eqn:E1.
  pose proof E1 as E. eapply position_drain_inv in E as (Hi1 & Ho & Hc & Hp & Hd); [|done..].
  destruct r1 as [[]|e|]; [| by intros ?; simplify_eq | done].
  destruct (Hd eq_refl) as (inputs & Hs & Ht & Hr & H2 & H3 & H4). rewrite <- Ho, <- Hc in *.
  destruct (pw_cache s1) as [buffer|] eqn:Hc1; simpl in H4.
  - destruct (ps_write_all_at w (pw_next_offset s1) buffer) as [[]|e|] eqn:Ew;
      [| by intros ?; simplify_eq | by intros ?; simplify_eq].
    assert (wf buffer) as Hb by (destruct Hi1 as (? & ? & _ & _ & _ & _ & Hb); by rewrite Hc1 in Hb).
    destruct (placed_snoc inputs (pw_next_offset s1) buffer) as [Hpl Hq]; [done..|].
    assert (Forall stored (inputs ++ [mkPositionInput (pw_next_offset s1) buffer])) as Hs'.
    { apply Forall_app. split; [done|]. constructor; [|done]. destruct Hok as [_ Hw]. by apply Hw. }
    assert (concat ((contents ∘ po_bytes) <$> inputs ++ [mkPositionInput (pw_next_offset s1) buffer])
      = concat acc) as H4'.
    { rewrite fmap_app, concat_app, <- H4. simpl. by rewrite app_nil_r. }
    simpl. rewrite Hq. destruct (ps_close w _) as [meta|e|] eqn:Ecl; intros ?; simplify_eq; [| |done].
    + eexists. by split_and!.
    + eexists _, (replicate (length (inputs ++ [mkPositionInput (pw_next_offset s1) buffer])) tt).
      split_and!; [right|exact Hpl|done|simpl|done].
      * apply fifo_idle; [|done..]. clear -Hs'. induction Hs'; simpl; by constructor.
      * by rewrite app_nil_r.
  - rewrite app_nil_r in H4. rewrite H3.
    destruct (ps_close w _) as [meta|e|] eqn:Ecl; intros ?; simplify_eq; [|done|done].
    exists inputs. by split_and!.
Qed.

Lemma position_reach_inv concurrent acc s : position_reach concurrent acc s -> position_inv acc s.
Proof.
  induction 1 as [|acc s w t bs s' _ IH Ha Hb E|acc s w t bs e s' _ IH Ha Hb E
                 |acc s w t e s' _ IH Ha E|acc s k r _ IH Hok].
  - exists [], []. by split_and!; [apply tasks_new_inv|..].
  - by apply (position_write_inv _ _ _ _ _ _ _ Ha Hb IH) in E.
  - by apply (position_write_inv _ _ _ _ _ _ _ Ha Hb IH) in E.
  - by apply (position_close_inv _ _ _ _ _ _ Ha IH) in E.
  - destruct IH as (inputs & out & H1 & H2). exists inputs, out. simpl. split_and!; try apply H2.
    by apply finish_tasks_inv.
Qed.

(** A positioned upload that is closed successfully has stored exactly the
    data whose writes returned [Ok]: the writes the service performed lie end
    to end from offset 0 in the order of the data, and the size announced at
    the close is where they end.  A failed close can be repeated. *)
Theorem position_integrity concurrent acc s w timeout r s' :
  position_reach concurrent acc s -> position_ok w timeout ->
  position_close w timeout s = (r, s') ->
  match r with
  | Ok meta => position_closed w acc meta
  | Err _ => position_reach concurrent acc s'
  | Panic => True
  end.
Proof.
  intros Hr Ha E. pose proof (position_reach_inv _ _ _ Hr) as Hi.
  eapply (position_close_inv _ _ _ _ _ _ Ha) in Hi; [|exact E].
  destruct r; [done | by eapply preach_close_err | done].
Qed.

End Position.

(** ** Witnesses *)

(** A service that is up or down, and counts what it is given. *)
Inductive Svc : Type := Up | Down.
Definition answer {A} (w : Svc) (a : A) : result A :=
  match w with Up => Ok a | Down => Err (set_temporary (error Unexpected "down")) end.

#[export] Instance Svc_multipart : MultipartWrite Svc := {
  mp_write_once w _ _ := answer w meta_default;
  mp_initiate_part w := answer w (b "upload");
  mp_write_part w _ n size _ := answer w (mkPart n (b "etag") None (Some size));
  mp_complete_part w _ parts :=
    answer w (set_content_length (foldr (fun p n => default 0%Z (p_size p) + n)%Z 0%Z parts) meta_default);
  mp_abort_part w _ := answer w tt;
}.
#[export] Instance Svc_block : BlockWrite nat Svc := {
  bk_write_once w _ _ := answer w meta_default;
  bk_write_block w _ _ _ := answer w tt;
  bk_complete_block w _ := answer w meta_default;
  bk_abort_block w _ := answer w tt;
}.
#[export] Instance Svc_position : PositionWrite Svc := {
  ps_write_all_at w _ _ := answer w tt;
  ps_close w size := answer w (set_content_length size meta_default);
  ps_abort w := answer w tt;
}.

(** Part numbers are echoed, as the trait asks. *)
Definition echoed (i : PartInput) (p : MultipartPart) : Prop := p_part_number p = pi_part_number i.
Lemma Svc_parts (w : Svc) timeout : await_ok echoed anything (part_task w timeout).
Proof.
  intros i _. unfold part_task, with_timeout.
  destruct w, timeout as [f|]; simpl; try destruct (f i); done || by apply stands_for_refl.
Qed.
Lemma Svc_blocks (w : Svc) timeout :
  await_ok (block_acked (fun _ : BlockInput nat => True)) anything (block_task (fun _ => []) w timeout).
Proof.
  intros i _. unfold block_task, with_timeout.
  destruct w, timeout as [f|]; simpl; try destruct (f i); done || by apply stands_for_refl.
Qed.
Lemma Svc_positions (w : Svc) timeout : position_ok (fun _ => True) w timeout.
Proof.
  split; [|done]. intros i _. unfold position_task, with_timeout.
  destruct w, timeout as [f|]; simpl; try destruct (f i); done || by apply stands_for_refl.
Qed.

(** Two writes, a third that fails while the service is down and is repeated,
    the first part finishing in the background. *)
Definition mp_state (n : nat) : MultipartWriter :=
  let wr w bs s := (multipart_write (w : Svc) None (Contiguous bs) s).2 in
  let s1 := wr Up [x01] (multipart_new 2) in
  let s2 := wr Down [x02] s1 in
  let s3 := wr Up [x02] s2 in
  let s4 := mw_set_tasks (finish 0 (mkPartInput (b "upload") 0 (Contiguous [x01]), Ok (mkPart 0 (b "etag") None (Some 1%Z))) (mw_tasks s3)) s3 in
  match n with 1 => s1 | 2 => s2 | 3 => s3 | _ => s4 end.
Lemma mp_state_reach : multipart_reach (W := Svc) echoed 2 [[x01]; [x02]] (mp_state 4).
Proof.
  apply (reach_finish echoed 2 _ (mp_state 3) 0); [|done].
  apply (reach_write echoed 2 [[x01]] (mp_state 2) Up None (Contiguous [x02]));
    [|apply Svc_parts|vm_compute; reflexivity].
  apply (reach_write_err echoed 2 [[x01]] (mp_state 1) Down None (Contiguous [x02])
    (set_temporary (error Unexpected "down"))); [|apply Svc_parts|vm_compute; reflexivity].
  apply (reach_write echoed 2 [] (multipart_new 2) Up None (Contiguous [x01]));
    [constructor|apply Svc_parts|vm_compute; reflexivity].
Qed.

Lemma multipart_integrity_witness :
  exists inputs s',
    mp_complete_part Up (b "upload") (mw_parts s') = Ok (set_content_length 2 meta_default) /\
    Forall2 echoed inputs (mw_parts s') /\
    (pi_part_number <$> inputs) = seq 0 (length inputs) /\
    Forall (fun i => pi_upload_id i = b "upload") inputs /\
    concat ((contents ∘ pi_bytes) <$> inputs) = [x01; x02].
Proof.
  destruct (multipart_close Up None (mp_state 4)) as [r s'] eqn:E. pose proof E as E'.
  apply (multipart_integrity echoed 2 _ _ Up None r s' mp_state_reach (Svc_parts Up None)) in E'.
  vm_compute in E. injection E as <- <-. destruct E' as [inputs E'].
  exists inputs. eexists. exact E'.
Defined.

Lemma multipart_close_progress_witness :
  exists s', multipart_close Up None (mp_state 4) = (mp_complete_part Up (b "upload") (mw_parts s'), s').
Proof.
  apply (multipart_close_progress echoed 2 _ _ Up None _ mp_state_reach (Svc_parts Up None));
    [vm_compute; reflexivity|].
  split_and!; [done | intros i _; by do 2 eexists | by repeat constructor].
Defined.

Definition bk_state1 : BlockWriter nat :=
  (block_write (fun _ => []) Up None 0 (Contiguous [x01]) (block_new 2)).2.
Definition bk_state : BlockWriter nat :=
  (block_write (fun _ => []) Up None 7 (Contiguous [x02]) bk_state1).2.
Lemma bk_state_reach :
  block_reach (W := Svc) (fun _ => []) (fun _ => True) 2 [[x01]; [x02]] bk_state.
Proof.
  apply (breach_write _ _ 2 [[x01]] bk_state1 Up None 7 (Contiguous [x02]));
    [|apply Svc_blocks|vm_compute; reflexivity].
  apply (breach_write _ _ 2 [] (block_new 2) Up None 0 (Contiguous [x01]));
    [constructor|apply Svc_blocks|vm_compute; reflexivity].
Qed.

Lemma block_integrity_witness :
  exists s', block_closed (fun _ => True) Up [[x01]; [x02]] bk_state s' meta_default.
Proof.
  destruct (block_close (fun _ => []) Up None 9 bk_state) as [r s'] eqn:E. pose proof E as E'.
  apply (block_integrity (fun _ => []) (fun _ => True) 2 _ _ Up None 9 r s' bk_state_reach
    (Svc_blocks Up None)) in E'.
  vm_compute in E. injection E as <- <-. eexists. exact E'.
Defined.

Definition ps_state1 : PositionWriter :=
  (position_write Up None (Contiguous [x01]) (position_new 2)).2.
Definition ps_state : PositionWriter := (position_write Up None (Contiguous [x02]) ps_state1).2.
Lemma ps_state_reach : position_reach (W := Svc) (fun _ => True) 2 [[x01]; [x02]] ps_state.
Proof.
  apply (preach_write _ 2 [[x01]] ps_state1 Up None (Contiguous [x02]));
    [|apply Svc_positions|done|vm_compute; reflexivity].
  apply (preach_write _ 2 [] (position_new 2) Up None (Contiguous [x01]));
    [constructor|apply Svc_positions|done|vm_compute; reflexivity].
Qed.

Lemma position_integrity_witness :
  position_closed (fun _ => True) Up [[x01]; [x02]] (set_content_length 2 meta_default).
Proof.
  destruct (position_close Up None ps_state) as [r s'] eqn:E. pose proof E as E'.
  apply (position_integrity (fun _ => True) 2 _ _ Up None r s' ps_state_reach
    (Svc_positions Up None)) in E'.
  vm_compute in E. injection E as <- <-. exact E'.
Defined.
