(* ===== verification/Listers.v ===== *)
(** * Listing ([raw/oio/list/*.rs], [types/list.rs])

    The adapters between a service's listing and the user's: pages to entries
    ([PageLister]), a prefix filter ([PrefixLister]), a flat listing cut to one
    level ([HierarchyLister]), a tree walked to a flat listing ([FlatLister]),
    and the public stream ([Lister]).

    What a lister will produce is the relation [Lists]; the adapters' theorems
    say what they list given what the lister inside lists.  The loops take fuel;
    the theorems show how much is enough and that more changes nothing. *)

From S2P Require Import Prelude Errors Path Range Buffer Types.
From stdpp Require Import options.
Set Warnings "-register-all".

(** ** What a lister produces *)

(** [Lists next l n es]: calling [next] from [l] gives the entries [es] and then
    the end, with [n] calls that return an entry or a [NotFound] error, which
    the caller skips; [clean] listings have none of those. *)
Inductive Lists {L : Type} (next : M L Error (option Entry)) (clean : bool)
  : L -> nat -> list Entry -> Prop :=
  | Lists_nil l l' : next l = (Ok None, l') -> Lists next clean l 0 []
  | Lists_cons l e l' n es :
      next l = (Ok (Some e), l') -> Lists next clean l' n es -> Lists next clean l (S n) (e :: es)
  | Lists_skip l err l' n es :
      clean = false -> next l = (Err err, l') -> kind err = NotFound ->
      Lists next clean l' n es -> Lists next clean l (S n) es.

(** A clean listing, without the count. *)
Definition lists {L : Type} (next : M L Error (option Entry)) (l : L) (es : list Entry) : Prop :=
  Lists next true l (length es) es.

(** What the next call says of a listing. *)
Lemma Lists_inv {L} next c (l : L) n es :
  Lists next c l n es ->
  match next l with
  | (Ok None, _) => es = [] /\ n = 0
  | (Ok (Some e), l') => exists n' es', es = e :: es' /\ n = S n' /\ Lists next c l' n' es'
  | (Err err, l') => exists n', n = S n' /\ kind err = NotFound /\ c = false /\ Lists next c l' n' es
  | (Panic, _) => False
  end.
Proof. destruct 1 as [? ? E|? ? ? ? ? E|? ? ? ? ? ? E]; rewrite E; eauto 10. Qed.

(** A state whose next call answers like another's lists the same. *)
Lemma Lists_same_next {L} next c (l k : L) n es : next l = next k -> Lists next c k n es -> Lists next c l n es.
Proof.
  intros Hn. destruct 1 as [? ? E|? ? ? ? ? E|? ? ? ? ? ? E]; rewrite <- Hn in E;
    [by eapply Lists_nil | by eapply Lists_cons | by eapply Lists_skip].
Qed.

Lemma Lists_clean_count {L} next (l : L) n es : Lists next true l n es -> n = length es.
Proof. induction 1; simpl; congruence. Qed.

(** A lister that plays a script, for the examples. *)
Definition SeqLister : Type := list (result Entry).
#[export] Instance SeqLister_List : List SeqLister := fun l =>
  match l with
  | [] => (Ok None, [])
  | Ok e :: l' => (Ok (Some e), l')
  | Err err :: l' => (Err err, l')
  | Panic :: l' => (Panic, l')
  end.

Lemma SeqLister_lists es : lists (list_next (L := SeqLister)) (Ok <$> es) es.
Proof. unfold lists. induction es as [|e es IH]; [by econstructor|]. by econstructor. Qed.

(** ** [PageLister] *)

Record PageContext : Type := mkPage { pg_done : bool; pg_token : str; pg_entries : list Entry }.

Class PageList (P : Type) : Type := next_page : P -> PageContext -> result unit * PageContext.

Record PageLister (P : Type) : Type := mkPageLister { pl_inner : P; pl_ctx : PageContext }.
Arguments mkPageLister {P}.
Arguments pl_inner {P}.
Arguments pl_ctx {P}.

Section Page.
  Context {P : Type} `{PageList P}.

Definition page_new (l : P) : PageLister P := mkPageLister l (mkPage false [] []).

Fixpoint page_next (fuel : nat) : M (PageLister P) Error (option Entry) :=
  match fuel with
  | O => panic
  | S f => fun s =>
      let ctx := pl_ctx s in
      match pg_entries ctx with
      | entry :: rest =>
          (Ok (Some entry), mkPageLister (pl_inner s) (mkPage (pg_done ctx) (pg_token ctx) rest))
      | [] =>
          if pg_done ctx then (Ok None, s)
          else match next_page (pl_inner s) ctx with
               | (Ok _, ctx') => page_next f (mkPageLister (pl_inner s) ctx')
               | (Err e, ctx') => (Err e, mkPageLister (pl_inner s) ctx')
               | (Panic, ctx') => (Panic, mkPageLister (pl_inner s) ctx')
               end
      end
  end.

(** [Pages inner token pages]: from this token the service serves these pages,
    the last one marked as such; pages may be empty. *)
Inductive Pages (inner : P) : str -> list (list Entry) -> Prop :=
  | Pages_last token token' es :
      next_page inner (mkPage false token []) = (Ok tt, mkPage true token' es) ->
      Pages inner token [es]
  | Pages_more token token' es pages :
      next_page inner (mkPage false token []) = (Ok tt, mkPage false token' es) ->
      Pages inner token' pages -> Pages inner token (es :: pages).

(** What is left to serve in a context. *)
Definition page_rest (s : PageLister P) (pages : list (list Entry)) : Prop :=
  if pg_done (pl_ctx s) then pages = [] else Pages (pl_inner s) (pg_token (pl_ctx s)) pages.

Lemma page_next_spec fuel s pages :
  page_rest s pages -> length pages < fuel ->
  exists s' pages', page_rest s' pages' /\ length pages' <= length pages /\
    match pg_entries (pl_ctx s) ++ concat pages with
    | [] => page_next fuel s = (Ok None, s')
    | e :: es => page_next fuel s = (Ok (Some e), s') /\ pg_entries (pl_ctx s') ++ concat pages' = es
    end.
Proof.
  revert s pages. induction fuel as [|f IH]; intros s pages Hr Hf; [lia|].
  destruct s as [inner [d token [|e es]]]; simpl.
  2: { exists (mkPageLister inner (mkPage d token es)), pages. by split_and!. }
  unfold page_rest in Hr. simpl in Hr. destruct d.
  { subst pages. exists (mkPageLister inner (mkPage true token [])), []. by split_and!. }
  inversion Hr as [? token' es E|? token' es pages' E Hp]; subst; rewrite E; simpl in *.
  - destruct (IH (mkPageLister inner (mkPage true token' es)) []) as (s' & p' & ? & ? & Hm);
      [done | simpl; lia |]. exists s', p'. split_and!; [done | simpl in *; lia|]. exact Hm.
  - destruct (IH (mkPageLister inner (mkPage false token' es)) pages') as (s' & p' & ? & ? & Hm);
      [done | simpl in *; lia |]. exists s', p'. split_and!; [done | simpl in *; lia|]. exact Hm.
Qed.

(** Pagination is invisible: the entries of all the pages, in order, empty pages
    included, and then the end. *)
Theorem page_lister_lists inner pages fuel :
  Pages inner [] pages -> length pages < fuel ->
  lists (page_next fuel) (page_new inner) (concat pages).
Proof.
  intros Hp Hf. unfold lists.
  assert (forall es s pages, page_rest s pages -> length pages < fuel ->
    es = pg_entries (pl_ctx s) ++ concat pages -> Lists (page_next fuel) true s (length es) es) as Hgen.
  { clear pages Hp Hf. induction es as [|e es IH]; intros s pages Hr Hf He;
      destruct (page_next_spec fuel s pages Hr Hf) as (s' & p' & Hr' & Hle & Hm); rewrite <- He in Hm.
    - by econstructor.
    - destruct Hm as [E Hm]. econstructor; [exact E|]. eapply IH; [exact Hr'|lia|done]. }
  by apply (Hgen _ (page_new inner) pages).
Qed.

End Page.

(** ** [PrefixLister] *)

Record PrefixLister (L : Type) : Type := mkPrefixLister { px_lister : L; px_prefix : str }.
Arguments mkPrefixLister {L}.
Arguments px_lister {L}.
Arguments px_prefix {L}.

Section Prefix.
  Context {L : Type} `{List L}.

Fixpoint prefix_next (fuel : nat) : M (PrefixLister L) Error (option Entry) :=
  match fuel with
  | O => panic
  | S f => fun s =>
      match list_next (px_lister s) with
      | (Ok (Some e), l') =>
          if negb (starts_with (px_prefix s) (e_path e))
          then prefix_next f (mkPrefixLister l' (px_prefix s))
          else (Ok (Some e), mkPrefixLister l' (px_prefix s))
      | (v, l') => (v, mkPrefixLister l' (px_prefix s))
      end
  end.

(** Enough fuel is enough. *)
Lemma prefix_next_more l prefix n es k :
  Lists list_next true l n es -> n < k ->
  prefix_next (S k) (mkPrefixLister l prefix) = prefix_next k (mkPrefixLister l prefix).
Proof.
  intros Hl. revert k. induction Hl as [l l' E|l e l' n es E Hl IH|]; intros k Hk; [| |done];
    (destruct k as [|k]; [lia|]); cbn [prefix_next px_lister px_prefix]; rewrite E; [done|].
  destruct (negb _); [|done]. apply IH. lia.
Qed.

(** The entries with the prefix, in order, and no other. *)
Theorem prefix_lister_lists l prefix es fuel :
  lists list_next l es -> length es < fuel ->
  lists (prefix_next fuel) (mkPrefixLister l prefix)
    (filter (fun e => starts_with prefix (e_path e) = true) es).
Proof.
  unfold lists. generalize (length es) as n. intros n Hl. revert fuel.
  induction Hl as [l l' E|l e l' n es E Hl IH|]; intros fuel Hf; [| |done].
  - destruct fuel as [|f]; [lia|]. eapply Lists_nil. simpl. by rewrite E.
  - assert (Hrest := IH fuel ltac:(lia)). destruct fuel as [|f]; [lia|].
    rewrite filter_cons. case_decide as Hd.
    + eapply Lists_cons; [|exact Hrest]. simpl. by rewrite E, Hd.
    + apply not_true_is_false in Hd.
      eapply Lists_same_next; [|exact Hrest].
      erewrite (prefix_next_more l') by (done || lia). simpl. by rewrite E, Hd.
Qed.

End Prefix.

(** ** [HierarchyLister] *)

Record HierarchyLister (L : Type) : Type := mkHierarchy {
  h_lister : L; h_path : str; h_visited : gset str; h_recursive : bool;
}.
Arguments mkHierarchy {L}.
Arguments h_lister {L}.
Arguments h_path {L}.
Arguments h_visited {L}.
Arguments h_recursive {L}.

Definition hierarchy_new {L} (lister : L) (path : str) (recursive : bool) : HierarchyLister L :=
  mkHierarchy lister (if bool_decide (path = [slash]) then [] else path) ∅ recursive.

(** Whether the entry is kept, the entry as modified, the visited set.  The
    slices are at char boundaries: one after a prefix of the path, one after
    an ASCII character. *)
Definition keep_entry (path : str) (visited : gset str) (e : Entry) : bool * Entry * gset str :=
  if negb (starts_with path (e_path e)) then (false, e, visited)
  else if bool_decide (e_path e ∈ visited) then (false, e, visited)
  else
    let prefix_len := length path in
    match find_char slash (drop prefix_len (e_path e)) with
    | None => (true, e, visited)
    | Some idx =>
        let idx := idx + prefix_len + 1 in
        if bool_decide (idx = length (e_path e)) then (true, e, {[e_path e]} ∪ visited)
        else
          let dir := take idx (e_path e) in
          if bool_decide (dir ∈ visited) then (false, e, visited)
          else (true, entry_set_mode DIR (set_path dir e), {[dir]} ∪ visited)
    end.

Section Hierarchy.
  Context {L : Type} `{List L}.

Fixpoint hierarchy_next (fuel : nat) : M (HierarchyLister L) Error (option Entry) :=
  match fuel with
  | O => panic
  | S f => fun s =>
      let set l v := mkHierarchy l (h_path s) v (h_recursive s) in
      match list_next (h_lister s) with
      | (Ok (Some entry), l') =>
          if h_recursive s then (Ok (Some entry), set l' (h_visited s))
          else
            let '(keep, entry, visited) := keep_entry (h_path s) (h_visited s) entry in
            if keep then (Ok (Some entry), set l' visited)
            else hierarchy_next f (set l' visited)
      | (Ok None, l') => (Ok None, set l' (h_visited s))
      | (Err e, l') => (Err e, set l' (h_visited s))
      | (Panic, l') => (Panic, set l' (h_visited s))
      end
  end.

End Hierarchy.

(** The entry one level below [path] that [q] lies in. *)
Definition child (path q : str) : str :=
  match find_char slash (drop (length path) q) with
  | None => q
  | Some idx => take (idx + length path + 1) q
  end.
(** A path with a [/] below [path] names a directory there. *)
Definition subdir (path q : str) : Prop := slash ∈ drop (length path) q.
#[export] Instance subdir_dec path q : Decision (subdir path q).
Proof. unfold subdir. apply _. Defined.

(** The listing without the loop. *)
Fixpoint hierarchy_out (path : str) (visited : gset str) (es : list Entry) : list Entry :=
  match es with
  | [] => []
  | e :: es' =>
      let '(keep, e', visited') := keep_entry path visited e in
      if keep then e' :: hierarchy_out path visited' es' else hierarchy_out path visited' es'
  end.

Lemma find_char_None c s : find_char c s = None <-> c ∉ s.
Proof.
  induction s as [|x s IH]; simpl; [set_solver|]. case_decide; [set_solver|].
  destruct (find_char c s); simpl; set_solver.
Qed.
Lemma find_char_take c s i : find_char c s = Some i -> find_char c (take (i + 1) s) = Some i.
Proof.
  revert i. induction s as [|x s IH]; intros i; simpl; [done|].
  case_decide as Hx; [intros [= <-]; simpl; by rewrite decide_True|].
  destruct (find_char c s) as [j|] eqn:E; simpl; [|done]. intros [= <-]. simpl.
  rewrite decide_False by done. by rewrite (IH j).
Qed.

Lemma find_char_child path q i :
  find_char slash (drop (length path) q) = Some i ->
  find_char slash (drop (length path) (child path q)) = Some i.
Proof.
  intros E. unfold child. rewrite E.
  replace (i + length path + 1) with (length path + (i + 1)) by lia.
  rewrite <- take_drop_commute. by apply find_char_take.
Qed.

Lemma child_idem path q : child path (child path q) = child path q.
Proof.
  destruct (find_char slash (drop (length path) q)) as [i|] eqn:E.
  - pose proof (find_char_child _ _ _ E) as E'. unfold child at 1. rewrite E'.
    unfold child. rewrite E. by rewrite take_take, Nat.min_id.
  - unfold child at 2 3. by rewrite E; unfold child; rewrite E.
Qed.

Lemma subdir_child path q i :
  find_char slash (drop (length path) q) = Some i -> subdir path (child path q).
Proof.
  intros E. apply find_char_child in E. unfold subdir.
  destruct (decide (slash ∈ drop (length path) (child path q))) as [|Hn]; [done|].
  apply find_char_None in Hn. congruence.
Qed.

(** What one entry does. *)
Lemma keep_entry_spec path visited e k e' v' :
  (forall p, p ∈ visited -> child path p = p) -> starts_with path (e_path e) = true ->
  keep_entry path visited e = (k, e', v') ->
  let c := child path (e_path e) in
  (forall p, p ∈ v' -> child path p = p) /\
  (if k then e_path e' = c /\ (e' = e \/ e' = entry_set_mode DIR (set_path c e)) /\
       (subdir path c -> (c ∉ visited) /\ v' = ({[c]} ∪ visited)) /\ (~ subdir path c -> v' = visited)
  else c ∈ visited /\ v' = visited).
Proof.
  intros Hv Hp. unfold keep_entry. rewrite Hp. simpl.
  case_bool_decide as Hin.
  { intros ?. simplify_eq. split; [done|]. by rewrite Hv. }
  destruct (find_char slash (drop (length path) (e_path e))) as [i|] eqn:E.
  2: { intros ?. simplify_eq. split; [done|]. unfold child. rewrite E.
       apply find_char_None in E. split_and!; auto. done. }
  assert (child path (e_path e) = take (i + length path + 1) (e_path e)) as Hc
    by (unfold child; by rewrite E).
  pose proof (subdir_child _ _ _ E) as Hsub.
  assert (forall p, p ∈ {[child path (e_path e)]} ∪ visited -> child path p = p) as Hv'.
  { intros p [->%elem_of_singleton|?]%elem_of_union; [apply child_idem | auto]. }
  case_bool_decide as Hlen.
  - rewrite (take_ge (e_path e)) in Hc by lia. rewrite Hc in *. intros ?. simplify_eq.
    by split_and!; auto.
  - rewrite <- Hc in *. case_bool_decide; intros ?; simplify_eq; split; try done.
    split_and!; auto. done.
Qed.

Lemma hierarchy_out_spec path visited es :
  (forall p, p ∈ visited -> child path p = p) ->
  let out := hierarchy_out path visited es in
  (forall o, o ∈ out -> exists e, e ∈ es /\ starts_with path (e_path e) = true /\
     e_path o = child path (e_path e) /\ (o = e \/ e_mode o = DIR)) /\
  (forall e, e ∈ es -> starts_with path (e_path e) = true ->
     child path (e_path e) ∈ e_path <$> out \/ child path (e_path e) ∈ visited) /\
  NoDup (filter (subdir path) (e_path <$> out)) /\
  (forall p, p ∈ e_path <$> out -> subdir path p -> p ∉ visited).
Proof.
  revert visited. induction es as [|e es IH]; intros visited Hv; simpl.
  { split_and!; [by intros ? []%elem_of_nil | by intros ? []%elem_of_nil | constructor
                | by intros ? []%elem_of_nil]. }
  destruct (keep_entry path visited e) as [[k e'] v'] eqn:E.
  assert (forall (P : Entry -> Prop), (exists x, x ∈ es /\ P x) -> exists x, x ∈ e :: es /\ P x) as Hweak.
  { intros P (x & Hx & HP). exists x. split; [by right | done]. }
  destruct (starts_with path (e_path e)) eqn:Hp.
  2: { unfold keep_entry in E. rewrite Hp in E. simpl in E. simplify_eq.
       destruct (IH _ Hv) as (H1 & H2 & H3 & H4). split_and!; [eauto | | done | done].
       intros x [->|Hx]%elem_of_cons Hxp; [congruence | by apply H2]. }
  apply keep_entry_spec in E as [Hv' E]; [|done..].
  destruct (IH _ Hv') as (H1 & H2 & H3 & H4). destruct k.
  2: { destruct E as [Hin ->]. split_and!; [eauto | | done | done].
       intros x [->|Hx]%elem_of_cons Hxp; [by right | by apply H2]. }
  destruct E as (Hc & He' & Hs & Hns). csimpl.
  assert (forall p, p ∈ v' -> p = child path (e_path e) \/ p ∈ visited) as Hvi.
  { intros p Hpv. destruct (decide (subdir path (child path (e_path e)))) as [Hd|Hd].
    - destruct (Hs Hd) as [_ Heq]. rewrite Heq in Hpv.
      apply elem_of_union in Hpv as [->%elem_of_singleton|?]; auto.
    - rewrite (Hns Hd) in Hpv. by right. }
  assert (forall p, p ∈ visited -> p ∈ v') as Hvm.
  { intros p Hpv. destruct (decide (subdir path (child path (e_path e)))) as [Hd|Hd].
    - destruct (Hs Hd) as [_ ->]. by apply elem_of_union_r.
    - by rewrite (Hns Hd). }
  split_and!.
  - intros o [->|Ho]%elem_of_cons; [|eauto]. exists e.
    split_and!; [by left | done | done |]. by destruct He' as [->| ->]; [left|right].
  - intros x [->|Hx]%elem_of_cons Hxp; [left; rewrite Hc; by left|].
    destruct (H2 x Hx Hxp) as [Hx'|Hx']; [left; by right|].
    apply Hvi in Hx' as [->|?]; [left; rewrite Hc; by left | by right].
  - rewrite filter_cons. case_decide as Hd; [|done]. rewrite Hc in *. destruct (Hs Hd) as [_ Heq].
    constructor; [|done]. intros [_ Hin]%list_elem_of_filter. apply (H4 _ Hin Hd).
    rewrite Heq. by apply elem_of_union_l, elem_of_singleton.
  - intros p [->|Hin]%elem_of_cons Hd Hpv; [rewrite Hc in *; by apply Hs|].
    by apply (H4 p Hin Hd), Hvm.
Qed.

Section HierarchySpec.
  Context {L : Type} `{List L}.

Lemma hierarchy_next_more (l : L) path visited n es k :
  Lists list_next true l n es -> n < k ->
  hierarchy_next (S k) (mkHierarchy l path visited false) =
  hierarchy_next k (mkHierarchy l path visited false).
Proof.
  intros Hl. revert k visited. induction Hl as [l l' E|l e l' n es E Hl IH|]; intros k visited Hk;
    [| |done]; (destruct k as [|k]; [lia|]);
    cbn [hierarchy_next h_lister h_path h_visited h_recursive]; rewrite E; [done|].
  destruct (keep_entry path visited e) as [[[] e'] v']; [done|]. apply IH. lia.
Qed.

Lemma hierarchy_lists (l : L) path visited es fuel :
  lists list_next l es -> length es < fuel ->
  lists (hierarchy_next fuel) (mkHierarchy l path visited false) (hierarchy_out path visited es).
Proof.
  unfold lists. generalize (length es) as n. intros n Hl. revert fuel visited.
  induction Hl as [l l' E|l e l' n es E Hl IH|]; intros fuel visited Hf; [| |done].
  - destruct fuel as [|f]; [lia|]. eapply Lists_nil. simpl. by rewrite E.
  - destruct fuel as [|f]; [lia|]. cbn [hierarchy_out].
    destruct (keep_entry path visited e) as [[k e'] v'] eqn:Ek.
    assert (Hrest := IH (S f) v' ltac:(lia)). destruct k.
    + eapply Lists_cons; [|exact Hrest]. simpl. by rewrite E, Ek.
    + eapply Lists_same_next; [|exact Hrest].
      erewrite (hierarchy_next_more l') by (done || lia). simpl. by rewrite E, Ek.
Qed.

(** Cutting a flat listing to one level: what is listed under [path] are
    exactly the children of [path] that some entry lies in; an entry deeper
    down appears as its directory, marked as one, and no directory twice. *)
Theorem hierarchy_children (l : L) path es fuel :
  lists list_next l es -> length es < fuel ->
  let prefix := if bool_decide (path = [slash]) then [] else path in
  exists out, lists (hierarchy_next fuel) (hierarchy_new l path false) out /\
    (forall o, o ∈ out -> exists e, e ∈ es /\ starts_with prefix (e_path e) = true /\
       e_path o = child prefix (e_path e) /\ (o = e \/ e_mode o = DIR)) /\
    (forall e, e ∈ es -> starts_with prefix (e_path e) = true ->
       child prefix (e_path e) ∈ e_path <$> out) /\
    NoDup (filter (subdir prefix) (e_path <$> out)).
Proof.
  intros Hl Hf prefix. exists (hierarchy_out prefix ∅ es). split; [by apply hierarchy_lists|].
  destruct (hierarchy_out_spec prefix ∅ es) as (H1 & H2 & H3 & _); [by intros ? []%elem_of_empty|].
  split_and!; [done | | done]. intros e He Hp. by destruct (H2 e He Hp) as [?|[]%elem_of_empty].
Qed.

End HierarchySpec.

(** A listing of [a/] with a file, and two files of [a/b/]. *)
Definition sample_entries : list Entry :=
  [mkEntry (b "a/b/x") (meta_new FILE); mkEntry (b "a/c") (meta_new FILE);
   mkEntry (b "a/b/y") (meta_new FILE)].

Lemma hierarchy_children_witness :
  exists out, lists (hierarchy_next 4) (hierarchy_new (L := SeqLister) (Ok <$> sample_entries) (b "a/") false) out /\
    b "a/b/" ∈ e_path <$> out /\ b "a/c" ∈ e_path <$> out /\
    NoDup (filter (subdir (b "a/")) (e_path <$> out)).
Proof.
  destruct (hierarchy_children (L := SeqLister) (Ok <$> sample_entries) (b "a/") sample_entries 4
    (SeqLister_lists _) ltac:(simpl; lia)) as (out & H1 & _ & H2 & H3).
  exists out. split_and!; [done | | | done].
  - apply (H2 (mkEntry (b "a/b/x") (meta_new FILE))); [by left | done].
  - apply (H2 (mkEntry (b "a/c") (meta_new FILE))); [by right; left | done].
Defined.

(** ** [FlatLister] *)

Record FlatLister (L : Type) : Type := mkFlat {
  (** The directory to open next. *)
  f_next_dir : option Entry;
  (** The open listings, innermost first; [None] when the directory itself has
      been returned. *)
  f_active : list (option Entry * L);
}.
Arguments mkFlat {L}.
Arguments f_next_dir {L}.
Arguments f_active {L}.

Definition flat_new {L} (path : str) : FlatLister L :=
  mkFlat (Some (entry_new path (meta_new DIR))) [].

Definition skippable (e : Error) : bool :=
  bool_decide (kind e = PermissionDenied) || bool_decide (kind e = NotFound).

Section Flat.
  Context {L : Type} `{List L}.

(** The inner loop: the first entry, skipping entries deleted meanwhile. *)
Fixpoint first_entry (fuel : nat) : M L Error (option Entry) :=
  match fuel with
  | O => panic
  | S f => fun l =>
      match list_next l with
      | (Err e, l') => if bool_decide (kind e = NotFound) then first_entry f l' else (Err e, l')
      | (v, l') => (v, l')
      end
  end.

(** The second half of the loop's body; [rec] is the next round. *)
Definition flat_tail (rec : M (FlatLister L) Error (option Entry)) : M (FlatLister L) Error (option Entry) :=
  fun s =>
    match f_active s with
    | (None, _) :: rest => rec (mkFlat (f_next_dir s) rest)
    | [] => (Ok None, s)
    | (Some de, lister) :: rest =>
        let set de lister := mkFlat (f_next_dir s) ((de, lister) :: rest) in
        match list_next lister with
        | (Err e, l') =>
            if bool_decide (kind e = NotFound) then rec (set (Some de) l')
            else (Err e, set (Some de) l')
        | (Ok (Some v), l') =>
            if is_dir (e_mode v) then
              if negb (bool_decide (e_path v = e_path de))
              then rec (mkFlat (Some v) ((Some de, l') :: rest))
              else rec (set (Some de) l')
            else (Ok (Some v), set (Some de) l')
        | (Ok None, l') => (Ok (Some de), set None l')
        | (Panic, l') => (Panic, set (Some de) l')
        end
    end.

(** [alist] is [self.acc.list] as it answers during the call. *)
Fixpoint flat_next (alist : str -> OpList -> result L) (fuel : nat)
  : M (FlatLister L) Error (option Entry) :=
  match fuel with
  | O => panic
  | S f => fun s =>
      match f_next_dir s with
      | None => flat_tail (flat_next alist f) s
      | Some de =>
          let s := mkFlat None (f_active s) in
          match alist (e_path de) op_list with
          | Err e => if skippable e then flat_next alist f s else (Err e, s)
          | Panic => (Panic, s)
          | Ok l =>
              match first_entry (S f) l with
              | (Ok (Some v), l') =>
                  let active := (Some de, l') :: f_active s in
                  if is_dir (e_mode v) then
                    if negb (bool_decide (e_path v = e_path de))
                    then flat_next alist f (mkFlat (Some v) active)
                    else flat_tail (flat_next alist f) (mkFlat None active)
                  else (Ok (Some v), mkFlat None active)
              | (Ok None, _) => flat_tail (flat_next alist f) s
              | (Err e, _) => (Err e, s)
              | (Panic, _) => (Panic, s)
              end
          end
      end
  end.

(** *** The tree that is walked *)

(** A file; a directory's own entry in its listing; a directory that cannot be
    opened; a directory with its listing, which takes [n] calls. *)
Inductive tree : Type :=
  | File (e : Entry)
  | Self (e : Entry)
  | Hidden (e : Entry)
  | Dir (e : Entry) (n : nat) (kids : list tree).

Definition tentry (t : tree) : Entry :=
  match t with File e | Self e | Hidden e | Dir e _ _ => e end.

(** What the walk returns: below a directory first, then the directory, unless
    its listing is empty. *)
Fixpoint flat (t : tree) : list Entry :=
  match t with
  | File e => [e]
  | Self _ | Hidden _ => []
  | Dir e _ kids => if bool_decide (length kids = 0) then [] else concat (flat <$> kids) ++ [e]
  end.
Definition flats (kids : list tree) : list Entry := concat (flat <$> kids).

(** How many rounds of the loop the walk takes at most. *)
Fixpoint tsize (t : tree) : nat :=
  match t with
  | File _ | Self _ => 0
  | Hidden _ => 1
  | Dir _ n kids => n + sum_list (tsize <$> kids) + 3
  end.
Definition sizes (kids : list tree) : nat := sum_list (tsize <$> kids).

  Variable alist : str -> OpList -> result L.

(** The service serves this tree. *)
Inductive served (parent : str) : tree -> Prop :=
  | served_file e : is_dir (e_mode e) = false -> served parent (File e)
  | served_self e : is_dir (e_mode e) = true -> e_path e = parent -> served parent (Self e)
  | served_hidden e err :
      is_dir (e_mode e) = true -> e_path e <> parent ->
      alist (e_path e) op_list = Err err -> skippable err = true -> served parent (Hidden e)
  | served_dir e n kids l :
      is_dir (e_mode e) = true -> e_path e <> parent ->
      alist (e_path e) op_list = Ok l -> Lists list_next false l n (tentry <$> kids) ->
      Forall (served (e_path e)) kids -> served parent (Dir e n kids).

(** The stack of open listings, what they will return, in how many rounds. *)
Inductive stack_ok : list (option Entry * L) -> list Entry -> nat -> Prop :=
  | stack_nil : stack_ok [] [] 0
  | stack_done l st out m : stack_ok st out m -> stack_ok ((None, l) :: st) out (S m)
  | stack_open de l n kids st out m :
      Lists list_next false l n (tentry <$> kids) -> Forall (served (e_path de)) kids ->
      stack_ok st out m ->
      stack_ok ((Some de, l) :: st) (flats kids ++ de :: out) (n + sizes kids + 2 + m).

Inductive state_ok : FlatLister L -> list Entry -> nat -> Prop :=
  | state_idle st out m : stack_ok st out m -> state_ok (mkFlat None st) out m
  | state_dir parent t st out m :
      served parent t -> match t with Hidden _ | Dir _ _ _ => True | _ => False end ->
      stack_ok st out m -> state_ok (mkFlat (Some (tentry t)) st) (flat t ++ out) (tsize t + m).

(** One call from such a state gives the head of what is left. *)
Definition step_spec (next : M (FlatLister L) Error (option Entry)) (s : FlatLister L)
    (out : list Entry) (m : nat) : Prop :=
  match out with
  | [] => exists s', next s = (Ok None, s')
  | o :: out' => exists s' m', next s = (Ok (Some o), s') /\ state_ok s' out' m' /\ m' <= m
  end.

Lemma step_spec_le next s out m m' : step_spec next s out m -> m <= m' -> step_spec next s out m'.
Proof.
  destruct out; [done|]. intros (s' & k & H1 & H2 & H3) Hle. exists s', k. split_and!; try done. lia.
Qed.

(** A child that has just been read from the listing of an open directory. *)
Lemma open_child t de l n kids st out m :
  Lists list_next false l n (tentry <$> kids) -> Forall (served (e_path de)) (t :: kids) ->
  stack_ok st out m ->
  let st' := (Some de, l) :: st in
  let rest := flats kids ++ de :: out in
  let size := n + sizes kids + 2 + m in
  match t with
  | File e => is_dir (e_mode e) = false /\ state_ok (mkFlat None st') rest size
  | Self e => is_dir (e_mode e) = true /\ e_path e = e_path de /\ stack_ok st' rest size
  | _ => is_dir (e_mode (tentry t)) = true /\ e_path (tentry t) <> e_path de /\
      state_ok (mkFlat (Some (tentry t)) st') (flat t ++ rest) (tsize t + size)
  end.
Proof.
  intros Hl Hall Hst. inversion Hall as [|? ? Ht Hk]; subst.
  pose proof (stack_open de l n kids st out m Hl Hk Hst) as Hs.
  destruct t; inversion Ht; subst; split_and!; try done; try by constructor.
  all: by eapply state_dir.
Qed.

Lemma flat_tail_spec rec f st out m :
  (forall s out m, state_ok s out m -> m < f -> step_spec rec s out m) ->
  stack_ok st out m -> m <= f -> step_spec (flat_tail rec) (mkFlat None st) out m.
Proof.
  intros Hrec Hst Hm. inversion Hst as [|l st' ? m' Hst'|de l n kids st' out' m' Hl Hk Hst']; subst.
  - by eexists.
  - eapply step_spec_le; [|apply Nat.le_succ_diag_r].
    change (step_spec rec (mkFlat None st') out m'). apply Hrec; [by constructor | lia].
  - apply Lists_inv in Hl. destruct (list_next l) as [[[e|]|err|] l'] eqn:E; [| | |done].
    + destruct Hl as (n' & es & HE & -> & Hl). destruct kids as [|t kids]; [done|].
      simpl in HE. injection HE as <- <-.
      pose proof (open_child t de l' n' kids st' out' m' Hl Hk Hst') as Hopen. simpl in Hopen.
      assert (sizes (t :: kids) = tsize t + sizes kids) as Hsz by done. rewrite Hsz in *.
      assert (flats (t :: kids) ++ de :: out' = flat t ++ flats kids ++ de :: out') as ->
        by (unfold flats; csimpl; by rewrite <- app_assoc).
      unfold step_spec. cbn [flat_tail f_active f_next_dir]. rewrite E.
      destruct t as [e|e|e|e n0 kids0]; cbn [tentry] in *;
        [destruct Hopen as (Hd & Hopen)|destruct Hopen as (Hd & Hp & Hopen)..]; rewrite Hd.
      * cbn [flat app]. do 2 eexists. split_and!; [done | exact Hopen | lia].
      * cbn [flat app]. rewrite Hp, bool_decide_eq_true_2 by done.
        eapply step_spec_le; [apply Hrec; [by constructor | simpl in *; lia] | simpl; lia].
      * rewrite bool_decide_eq_false_2 by done.
        eapply step_spec_le; [apply (Hrec _ _ _ Hopen); simpl in *; lia | simpl; lia].
      * rewrite bool_decide_eq_false_2 by done.
        eapply step_spec_le; [apply (Hrec _ _ _ Hopen); simpl in *; lia | simpl; lia].
    + destruct Hl as [HE ->]. apply fmap_nil_inv in HE as ->.
      change (flats [] ++ de :: out') with (de :: out'). unfold step_spec.
      cbn [flat_tail f_active f_next_dir]. rewrite E.
      do 2 eexists. split_and!; [done | by constructor; constructor | lia].
    + destruct Hl as (n' & -> & Hk' & _ & Hl). unfold step_spec. cbn [flat_tail f_active f_next_dir].
      rewrite E, bool_decide_eq_true_2 by done.
      eapply step_spec_le; [apply Hrec; [by constructor; constructor | lia] | lia].
Qed.

(** The first entry of a listing, after the skipped ones. *)
Lemma first_entry_spec fuel l n es :
  Lists list_next false l n es -> n < fuel ->
  match es with
  | [] => exists l', first_entry fuel l = (Ok None, l')
  | e :: es' => exists l' n', first_entry fuel l = (Ok (Some e), l') /\
      Lists list_next false l' n' es' /\ n' < n
  end.
Proof.
  intros Hl. revert fuel. induction Hl as [l l' E|l e l' n es E Hl IH|l err l' n es _ E Hk Hl IH];
    intros fuel Hf; (destruct fuel as [|f]; [lia|]); simpl; rewrite E.
  - by eexists.
  - do 2 eexists. split_and!; [done | exact Hl | lia].
  - rewrite bool_decide_eq_true_2 by done. specialize (IH f ltac:(lia)).
    destruct es; [done|]. destruct IH as (l2 & n2 & ? & ? & ?). exists l2, n2. split_and!; try done. lia.
Qed.

Lemma flat_next_spec fuel s out m :
  state_ok s out m -> m < fuel -> step_spec (flat_next alist fuel) s out m.
Proof.
  revert s out m. induction fuel as [|f IH]; intros s out m Hs Hf; [lia|].
  assert (forall st out m, stack_ok st out m -> m <= f ->
    step_spec (flat_tail (flat_next alist f)) (mkFlat None st) out m) as Htail.
  { intros ? ? ? Hst Hle. by apply (flat_tail_spec _ f). }
  inversion Hs as [st ? ? Hst|parent t st out' m' Ht Hdir Hst]; subst.
  { apply (Htail _ _ _ Hst). lia. }
  destruct t as [| |e|e n kids]; try done; cbn [tentry] in *.
  - (* a directory that cannot be opened *)
    inversion Ht as [| |? err ? ? Hl Hk|]; subst.
    eapply step_spec_le; [|instantiate (1 := m'); lia].
    unfold step_spec. cbn [flat_next f_next_dir f_active]. rewrite Hl, Hk. cbn [flat app].
    apply IH; [by constructor | simpl in *; lia].
  - inversion Ht as [| | |? ? ? l Hd Hp Hl Hls Hk]; subst.
    assert (n + 3 + m' < S f) as Hf' by (simpl in Hf; lia).
    pose proof (first_entry_spec (S f) _ _ _ Hls ltac:(lia)) as Hfirst.
    destruct kids as [|t kids]; cbn [fmap list_fmap] in Hfirst.
    + destruct Hfirst as [l' Hfirst]. eapply step_spec_le; [|instantiate (1 := m'); lia].
      cbn [flat]. rewrite bool_decide_eq_true_2 by done. cbn [app].
      unfold step_spec. cbn [flat_next f_next_dir f_active]. rewrite Hl, Hfirst.
      apply (Htail _ _ _ Hst). lia.
    + destruct Hfirst as (l' & n' & Hfirst & Hls' & Hn').
      pose proof (open_child t e l' n' kids st out' m' Hls' Hk Hst) as Hopen. simpl in Hopen.
      assert (flat (Dir e n (t :: kids)) ++ out' = flat t ++ flats kids ++ e :: out') as ->.
      { cbn [flat]. rewrite bool_decide_eq_false_2 by done. unfold flats. csimpl.
        by rewrite <- !app_assoc. }
      assert (tsize (Dir e n (t :: kids)) = n + tsize t + sizes kids + 3) as Hsz.
      { change (n + (tsize t + sizes kids) + 3 = n + tsize t + sizes kids + 3). lia. }
      rewrite Hsz in Hf |- *. unfold step_spec. cbn [flat_next f_next_dir f_active]. rewrite Hl, Hfirst.
      assert (tsize t + (n' + sizes kids + 2 + m') < f) by lia.
      destruct t as [x|x|x|x n0 kids0]; cbn [tentry] in *.
      * destruct Hopen as [Hx Hopen]. rewrite Hx. cbn [flat app]. do 2 eexists. split_and!; [done | exact Hopen | lia].
      * destruct Hopen as (Hx & Hpx & Hopen). rewrite Hx, Hpx, bool_decide_eq_true_2 by done.
        cbn [flat app].
        eapply step_spec_le; [apply (Htail _ _ _ Hopen); simpl in *; lia | lia].
      * destruct Hopen as (Hx & Hpx & Hopen). rewrite Hx, bool_decide_eq_false_2 by done.
        eapply step_spec_le; [apply (IH _ _ _ Hopen); done | lia].
      * destruct Hopen as (Hx & Hpx & Hopen). rewrite Hx, bool_decide_eq_false_2 by done.
        eapply step_spec_le; [apply (IH _ _ _ Hopen); done | lia].
Qed.

(** The walk from the root; enough fuel is one more than the rounds it takes. *)
Lemma flat_lists parent path n kids fuel :
  let root := Dir (entry_new path (meta_new DIR)) n kids in
  served parent root -> tsize root < fuel ->
  lists (flat_next alist fuel) (flat_new path) (flat root).
Proof.
  intros root Hr Hf.
  assert (forall out s m, state_ok s out m -> m < fuel ->
    Lists (flat_next alist fuel) true s (length out) out) as Hgen.
  { induction out as [|o out IH]; intros s m Hs Hm; pose proof (flat_next_spec _ _ _ _ Hs Hm) as Hstep.
    - destruct Hstep as [s' E]. by econstructor.
    - destruct Hstep as (s' & m' & E & Hs' & Hle). econstructor; [exact E|]. eapply IH; [done|lia]. }
  eapply (Hgen _ _ (tsize root + 0)); [|lia]. rewrite <- (app_nil_r (flat root)).
  apply (state_dir parent root); [done..|]. constructor.
Qed.

(** C11.  Walking a tree: the recursive listing ends and returns every file and
    every directory with a non-empty listing exactly once, each directory after
    everything below it; directories that are gone or may not be opened are
    skipped, entries that vanish meanwhile too, and a directory's own entry in
    its listing does not loop. *)
Theorem flat_lister_walks parent path n kids fuel :
  let root := Dir (entry_new path (meta_new DIR)) n kids in
  served parent root -> tsize root < fuel ->
  lists (flat_next alist fuel) (flat_new path) (flat root).
Proof. apply flat_lists. Qed.

End Flat.

(** A directory with a file, an unreadable directory, its own entry, and a
    nested directory whose file vanishes while it is listed. *)
Definition dir_entry (p : string) : Entry := mkEntry (b p) (meta_new DIR).
Definition file_entry (p : string) : Entry := mkEntry (b p) (meta_new FILE).
Definition sample_alist (path : str) (_ : OpList) : result SeqLister :=
  if bool_decide (path = b "a/") then
    Ok [Ok (dir_entry "a/"); Ok (dir_entry "a/s/"); Ok (file_entry "a/f"); Ok (dir_entry "a/d/")]
  else if bool_decide (path = b "a/d/") then
    Ok [Err (error NotFound "gone"); Ok (file_entry "a/d/g")]
  else Err (error PermissionDenied "denied").
Definition sample_kids : list tree :=
  [Self (dir_entry "a/"); Hidden (dir_entry "a/s/"); File (file_entry "a/f");
   Dir (dir_entry "a/d/") 2 [File (file_entry "a/d/g")]].
Definition sample_tree : tree := Dir (entry_new (b "a/") (meta_new DIR)) 4 sample_kids.

Lemma sample_served : served sample_alist [] sample_tree.
Proof.
  eapply served_dir; [done | done | done | |].
  - repeat (eapply Lists_cons; [reflexivity|]). by eapply Lists_nil.
  - repeat constructor; [eapply served_hidden; done|]. eapply served_dir; [done..| |by repeat constructor].
    eapply Lists_skip; [done | reflexivity | done |].
    eapply Lists_cons; [reflexivity|]. by eapply Lists_nil.
Qed.

Lemma flat_lister_walks_witness :
  lists (flat_next sample_alist 30) (flat_new (b "a/"))
    [file_entry "a/f"; file_entry "a/d/g"; dir_entry "a/d/"; dir_entry "a/"].
Proof. apply (flat_lister_walks sample_alist [] (b "a/") 4 sample_kids 30); [apply sample_served | simpl; lia]. Defined.

(** An error that is not skipped loses the directory: when the caller repeats
    the call, the listing goes on without it.  For the directory the listing
    starts from, the second call reports the end of a complete listing. *)
Theorem flat_lister_error_loses_directory {L} `{List L} (down up : str -> OpList -> result L) path e f g :
  down (e_path (entry_new path (meta_new DIR))) op_list = Err e -> skippable e = false ->
  exists s, flat_next down (S f) (flat_new path) = (Err e, s) /\
    flat_next up (S g) s = (Ok None, s).
Proof.
  intros Hd He. exists (mkFlat None []). split; [|done].
  unfold flat_new. cbn [flat_next f_next_dir f_active]. by rewrite Hd, He.
Qed.

Lemma flat_lister_error_loses_directory_witness :
  exists s, flat_next (L := SeqLister) (fun _ _ => Err (set_temporary (error RateLimited "slow down"))) 1
      (flat_new (b "a/")) = (Err (set_temporary (error RateLimited "slow down")), s) /\
    flat_next sample_alist 1 s = (Ok None, s).
Proof. by apply flat_lister_error_loses_directory. Defined.

(** ** The public [Lister] stream

    [poll_next] with the readiness of the future it polls. *)

Record Lister (L : Type) : Type := mkLister {
  ls_lister : option L; ls_fut : option L; ls_errored : bool;
}.
Arguments mkLister {L}.
Arguments ls_lister {L}.
Arguments ls_fut {L}.
Arguments ls_errored {L}.

Section Stream.
  Context {L : Type} `{List L}.

Definition lister_create (l : L) : Lister L := mkLister (Some l) None false.

Definition poll_next (ready : bool) (s : Lister L) : Poll (option (result Entry)) * Lister L :=
  if ls_errored s then (Ready None, s)
  else
    let s := match ls_lister s with
             | Some lister => mkLister None (Some lister) (ls_errored s)
             | None => s
             end in
    match ls_fut s with
    | Some lister =>
        if negb ready then (Pending, s)
        else match list_next lister with
             | (Ok (Some oe), l') => (Ready (Some (Ok oe)), mkLister (Some l') None (ls_errored s))
             | (Ok None, _) => (Ready None, mkLister None None (ls_errored s))
             | (Err err, l') => (Ready (Some (Err err)), mkLister (Some l') None true)
             | (Panic, l') => (Ready (Some Panic), mkLister (Some l') None (ls_errored s))
             end
    | None => (Ready None, s)
    end.

(** The items a sequence of polls returns. *)
Fixpoint polls (sched : list bool) (s : Lister L) : list (option (result Entry)) :=
  match sched with
  | [] => []
  | ready :: sched' =>
      match poll_next ready s with
      | (Pending, s') => polls sched' s'
      | (Ready x, s') => x :: polls sched' s'
      end
  end.

(** A stream that holds [l], in or out of a future. *)
Definition holding (l : L) (s : Lister L) : Prop :=
  s = mkLister (Some l) None false \/ s = mkLister None (Some l) false.

Lemma polls_finished sched s :
  ls_errored s = true \/ s = mkLister None None false -> polls sched s = replicate (length sched) None.
Proof.
  intros Hs. induction sched as [|r sched IH]; [done|]. simpl. unfold poll_next.
  destruct Hs as [He| ->]; [by rewrite He, IH|]. simpl. by rewrite IH.
Qed.

Lemma polls_holding sched l n es s :
  Lists list_next true l n es -> holding l s ->
  (forall i x, polls sched s !! i = Some x -> x = Ok <$> es !! i) /\
  length (filter (fun r => r = true) sched) <= length (polls sched s).
Proof.
  revert l n es s. induction sched as [|r sched IH]; intros l n es s Hl Hs; [done|].
  assert (poll_next r s = if r then poll_next true s else (Pending, mkLister None (Some l) false)) as Hp
    by (by destruct r, Hs as [->| ->]).
  cbn [polls]. rewrite Hp, filter_cons. destruct r.
  2: { rewrite decide_False by done. apply (IH l n); [done | by right]. }
  rewrite decide_True by done.
  assert (poll_next true s = match list_next l with
    | (Ok (Some oe), l') => (Ready (Some (Ok oe)), mkLister (Some l') None false)
    | (Ok None, _) => (Ready None, mkLister None None false)
    | (Err err, l') => (Ready (Some (Err err)), mkLister (Some l') None true)
    | (Panic, l') => (Ready (Some Panic), mkLister (Some l') None false)
    end) as -> by (by destruct Hs as [->| ->]).
  apply Lists_inv in Hl. destruct (list_next l) as [[[e|]|err|] l'].
  - destruct Hl as (n' & es' & -> & -> & Hl). destruct (IH l' n' es' (mkLister (Some l') None false)) as [H1 H2];
      [done | by left |]. split; [|simpl; lia]. intros [|i] x; simpl; [by intros [= <-] | apply H1].
  - destruct Hl as [-> ->]. rewrite polls_finished by (by right). split.
    + intros [|i] x; simpl; [by intros [= <-]|]. intros [-> _]%lookup_replicate. done.
    + simpl. rewrite length_replicate. apply le_n_S, length_filter.
  - by destruct Hl as (? & _ & _ & ? & _).
  - done.
Qed.

(** The public stream yields the entries of the listing in order and then [None]
    for ever, however often it is polled before an entry is ready; a poll that
    finds its future ready makes progress. *)
Theorem lister_stream l es sched :
  lists list_next l es ->
  (forall i x, polls sched (lister_create l) !! i = Some x -> x = Ok <$> es !! i) /\
  length (filter (fun r => r = true) sched) <= length (polls sched (lister_create l)).
Proof. intros Hl. apply (polls_holding _ l (length es)); [done | by left]. Qed.

(** After an error the stream is at its end. *)
Theorem lister_error_ends s e s' sched :
  poll_next true s = (Ready (Some (Err e)), s') -> polls sched s' = replicate (length sched) None.
Proof.
  intros E. apply polls_finished. left. unfold poll_next in E.
  destruct (ls_errored s); [done|]. simpl in E. destruct (ls_lister s), (ls_fut s); simpl in E;
    try done; destruct (list_next _) as [[[]| |] l']; by simplify_eq.
Qed.

End Stream.

Lemma lister_stream_witness :
  exists x, polls [true; false; true] (lister_create (L := SeqLister) (Ok <$> [file_entry "a"])) !! 0 = Some x /\
    x = Some (Ok (file_entry "a")).
Proof.
  eexists. split; [reflexivity|].
  apply (proj1 (lister_stream (L := SeqLister) (Ok <$> [file_entry "a"]) [file_entry "a"] [true; false; true]
    (SeqLister_lists [file_entry "a"])) 0). reflexivity.
Defined.
