(* ===== verification/Deleters.v ===== *)
(** * Deleting ([raw/oio/delete/*.rs], [types/delete/*.rs])

    [BatchDeleter] collects paths in a set and deletes them in batches;
    [OneShotDeleter] deletes each at once; the public [Deleter] converts the
    user's inputs.  A service may answer differently each time it is called, so
    it is a state, and what it has deleted is observed through [DeleteLog]. *)

From S2P Require Import Prelude Errors Types.
From stdpp Require Import options.

Abbreviation target := (list ascii * OpDelete)%type.

(** ** [BatchDeleter] *)

Record BatchDeleteResult : Type := mkBatchResult {
  br_succeeded : list target; br_failed : list (target * Error);
}.

Class BatchDelete (D : Type) : Type := {
  delete_once : str -> OpDelete -> M D Error unit;
  delete_batch : list target -> M D Error BatchDeleteResult;
}.

Record BatchDeleter (D : Type) : Type := mkBatch {
  bd_inner : D; bd_buffer : gset target; bd_max_batch_size : nat;
}.
Arguments mkBatch {D}.
Arguments bd_inner {D}.
Arguments bd_buffer {D}.
Arguments bd_max_batch_size {D}.

Section Batch.
  Context {D : Type} `{BatchDelete D}.

Definition batch_new (inner : D) (max_batch_size : option nat) : BatchDeleter D :=
  mkBatch inner ∅ (default 1 max_batch_size).

Definition bd_set_inner (d : D) (s : BatchDeleter D) : BatchDeleter D :=
  mkBatch d (bd_buffer s) (bd_max_batch_size s).
Definition bd_set_buffer (v : gset target) (s : BatchDeleter D) : BatchDeleter D :=
  mkBatch (bd_inner s) v (bd_max_batch_size s).

(** The first failure that is not temporary, with its context. *)
Fixpoint first_permanent (failed : list (target * Error)) : option Error :=
  match failed with
  | [] => None
  | ((path, op), err) :: rest =>
      if negb (is_temporary err) then
        Some (with_context (b "version") (default (b "<latest>") (del_version op))
                (with_context (b "path") path err))
      else first_permanent rest
  end.

Definition flush_buffer : M (BatchDeleter D) Error nat :=
  s ← get;
  match elements (bd_buffer s) with
  | [] => mret 0
  | [(path, args)] =>
      zoom bd_inner bd_set_inner (delete_once path args);;
      modify (bd_set_buffer ∅);;
      mret 1
  | batch =>
      result ← zoom bd_inner bd_set_inner (delete_batch batch);
      if bool_decide (br_succeeded result = []) then
        throw (error Unexpected "batch delete returned zero successes")
      else if negb (bool_decide (length (br_succeeded result) + length (br_failed result)
                                 = size (bd_buffer s))) then
        throw (error Unexpected "batch delete result size mismatch")
      else
        modify (bd_set_buffer (bd_buffer s ∖ list_to_set (br_succeeded result)));;
        match first_permanent (br_failed result) with
        | Some err => throw err
        | None => mret (length (br_succeeded result))
        end
  end.

Definition batch_delete (path : str) (args : OpDelete) : M (BatchDeleter D) Error unit :=
  modify (fun s => bd_set_buffer ({[(path, args)]} ∪ bd_buffer s) s);;
  s ← get;
  if bool_decide (bd_max_batch_size s <= size (bd_buffer s)) then flush_buffer;; mret tt
  else mret tt.

Fixpoint batch_close_loop (fuel : nat) : M (BatchDeleter D) Error unit :=
  match fuel with
  | O => panic
  | S f =>
      deleted ← flush_buffer;
      s ← get;
      if bool_decide (bd_buffer s = ∅) then mret tt
      else if bool_decide (deleted = 0) then
        throw (error Unexpected "batch delete made no progress while buffer remains")
      else batch_close_loop f
  end.
(** Every round that does not end the loop empties at least one slot. *)
Definition batch_close : M (BatchDeleter D) Error unit :=
  s ← get; batch_close_loop (S (size (bd_buffer s))).

#[global] Instance BatchDeleter_Delete : Delete (BatchDeleter D) :=
  {| d_delete := batch_delete; d_close := batch_close |}.

End Batch.

(** *** The contract of [BatchDelete] *)

(** Deletions are never undone; what is reported as deleted is; a batch reports
    each of its paths at most once, and no other. *)
Class DeleteLog (D : Type) `{BatchDelete D} : Type := {
  deleted : D -> gset target;
  deleted_once path args d r d' :
    delete_once path args d = (r, d') ->
    deleted d ⊆ deleted d' /\ (r = Ok tt -> (path, args) ∈ deleted d') /\ r <> Panic;
  deleted_batch batch d r d' :
    delete_batch batch d = (r, d') ->
    deleted d ⊆ deleted d' /\ r <> Panic /\
    forall res, r = Ok res -> (NoDup batch -> NoDup (br_succeeded res)) /\
      forall x, x ∈ br_succeeded res -> x ∈ batch /\ x ∈ deleted d';
}.

(** Projects the fields of an updated deleter, leaving the sets alone. *)
Local Ltac bdsimpl := cbn [bd_set_buffer bd_set_inner bd_buffer bd_inner bd_max_batch_size] in *.

Section BatchSpec.
  Context {D : Type} `{DeleteLog D}.
  Implicit Types s : BatchDeleter D.

(** A flush loses nothing; when it succeeds with [n > 0], [n] slots are free. *)
Definition flush_ok s (r : result nat) s' : Prop :=
  bd_max_batch_size s' = bd_max_batch_size s /\ deleted (bd_inner s) ⊆ deleted (bd_inner s') /\
  bd_buffer s' ⊆ bd_buffer s /\ bd_buffer s ⊆ bd_buffer s' ∪ deleted (bd_inner s') /\ r <> Panic /\
  forall n, r = Ok n -> size (bd_buffer s') + n = size (bd_buffer s) /\
    (n = 0 -> bd_buffer s' = ∅).

Lemma flush_buffer_ok s r s' : flush_buffer s = (r, s') -> flush_ok s r s'.
Proof.
  unfold flush_buffer, flush_ok, mbind, M_bind, get, zoom, modify, throw, mret, M_ret.
  destruct (elements (bd_buffer s)) as [|[path args] [|y rest]] eqn:E.
  - apply elements_empty_inv in E. apply leibniz_equiv in E. intros ?. simplify_eq.
    split_and!; try done; [apply union_subseteq_l|]. intros n [= <-]. by rewrite E.
  - assert (bd_buffer s = {[(path, args)]}) as Hb.
    { apply set_eq. intros x. rewrite <- elem_of_elements, E, list_elem_of_singleton, elem_of_singleton. done. }
    destruct (delete_once path args (bd_inner s)) as [r1 d1] eqn:E1.
    apply deleted_once in E1 as (Hm & Hok & Hp). destruct r1 as [[]|e|]; [| |done]; intros ?; simplify_eq; bdsimpl.
    + specialize (Hok eq_refl). rewrite Hb.
      split_and!; try done; [by apply singleton_subseteq_l, elem_of_union_r|].
      intros n [= <-]. rewrite size_singleton, size_empty. done.
    + split_and!; try done. apply union_subseteq_l.
  - remember ((path, args) :: y :: rest) as batch eqn:Hbatch.
    destruct (delete_batch batch (bd_inner s)) as [r1 d1] eqn:E1.
    apply deleted_batch in E1 as (Hm & Hp & Hok). destruct r1 as [res|e|]; [| |done].
    2: { intros ?. simplify_eq. bdsimpl. split_and!; try done. apply union_subseteq_l. }
    destruct (Hok res eq_refl) as [Hnd' Hall].
    assert (NoDup (br_succeeded res)) as Hnd by (apply Hnd'; rewrite <- E; apply NoDup_elements).
    assert (list_to_set (br_succeeded res) ⊆ bd_buffer s) as Hsub.
    { intros x Hx%elem_of_list_to_set. apply Hall in Hx as [Hx _].
      by rewrite <- elem_of_elements, E. }
    assert (size (bd_buffer s ∖ list_to_set (br_succeeded res)) + length (br_succeeded res)
            = size (bd_buffer s)) as Hsz.
    { rewrite size_difference, size_list_to_set by done.
      apply subseteq_size in Hsub. rewrite size_list_to_set in Hsub by done. lia. }
    assert (bd_buffer s ⊆ (bd_buffer s ∖ list_to_set (br_succeeded res)) ∪ deleted d1) as Hcov.
    { intros x Hx. destruct (decide (x ∈ br_succeeded res)) as [Hs|Hs].
      - apply elem_of_union_r. by apply Hall.
      - apply elem_of_union_l, elem_of_difference. by rewrite elem_of_list_to_set. }
    case_bool_decide as Hz.
    { intros ?. simplify_eq. bdsimpl. split_and!; try done. apply union_subseteq_l. }
    case_bool_decide as Hlen; cbn [negb].
    2: { intros ?. simplify_eq. bdsimpl. split_and!; try done. apply union_subseteq_l. }
    destruct (first_permanent (br_failed res)) as [err|]; intros ?; simplify_eq; bdsimpl;
      split_and!; try done; try (by apply subseteq_difference_l).
    intros n [= <-]. split; [done|]. intros Hn0. by apply nil_length_inv in Hn0.
Qed.

Definition insert_target (x : target) s : BatchDeleter D := bd_set_buffer ({[x]} ∪ bd_buffer s) s.

(** Whatever [delete] returns, the path is deleted or still in the buffer. *)
Lemma batch_delete_ok path args s r s' :
  batch_delete path args s = (r, s') ->
  bd_max_batch_size s' = bd_max_batch_size s /\ deleted (bd_inner s) ⊆ deleted (bd_inner s') /\
  {[(path, args)]} ∪ bd_buffer s ⊆ bd_buffer s' ∪ deleted (bd_inner s') /\ r <> Panic /\
  (r = Ok tt -> 0 < bd_max_batch_size s -> size (bd_buffer s) < bd_max_batch_size s ->
     size (bd_buffer s') < bd_max_batch_size s).
Proof.
  unfold batch_delete, mbind, M_bind, modify, get, mret, M_ret. cbn [bd_max_batch_size bd_buffer bd_set_buffer].
  case_bool_decide as Hsz.
  - destruct (flush_buffer (bd_set_buffer _ s)) as [r1 s1] eqn:E.
    apply flush_buffer_ok in E as (H1 & H2 & H3 & H4 & H5 & H6). bdsimpl.
    destruct r1 as [n|e|]; [| |done]; intros ?; simplify_eq; split_and!; try done.
    intros _ Hmax Hlt. destruct (H6 n eq_refl) as [Hn Hn0].
    assert (size ({[(path, args)]} ∪ bd_buffer s) <= S (size (bd_buffer s))).
    { rewrite size_union_alt, size_singleton. apply le_n_S, subseteq_size.
      by apply subseteq_difference_l. }
    destruct n; [|lia]. rewrite (Hn0 eq_refl), size_empty. lia.
  - intros ?. simplify_eq. bdsimpl. split_and!; try done; [apply union_subseteq_l|]. lia.
Qed.

Lemma batch_close_loop_ok fuel s r s' :
  size (bd_buffer s) < fuel -> batch_close_loop fuel s = (r, s') ->
  deleted (bd_inner s) ⊆ deleted (bd_inner s') /\
  bd_buffer s ⊆ bd_buffer s' ∪ deleted (bd_inner s') /\ r <> Panic /\ (r = Ok tt -> bd_buffer s' = ∅).
Proof.
  revert s. induction fuel as [|f IH]; intros s Hf; [lia|]. cbn [batch_close_loop].
  unfold mbind, M_bind, get, throw, mret, M_ret.
  destruct (flush_buffer s) as [r1 s1] eqn:E.
  apply flush_buffer_ok in E as (_ & H2 & H3 & H4 & H5 & H6).
  destruct r1 as [n|e|]; [| |done].
  2: { intros ?. by simplify_eq. }
  destruct (H6 n eq_refl) as [Hn Hn0]. case_bool_decide as Hz; [intros ?; by simplify_eq|].
  case_bool_decide as Hd; [by destruct Hz; apply Hn0|].
  intros E. apply IH in E as (G1 & G2 & G3 & G4); [|lia]. split_and!; try done.
  - by etrans.
  - intros x Hx. apply H4, elem_of_union in Hx as [Hx|Hx]; [by apply G2 | by apply elem_of_union_r, G1].
Qed.

(** A session: deletes whose results the caller may ignore. *)
Fixpoint batch_deletes (targets : list target) s : BatchDeleter D :=
  match targets with
  | [] => s
  | (path, args) :: rest => batch_deletes rest (batch_delete path args s).2
  end.

Lemma batch_deletes_ok targets s :
  let s' := batch_deletes targets s in
  deleted (bd_inner s) ⊆ deleted (bd_inner s') /\
  list_to_set targets ∪ bd_buffer s ⊆ bd_buffer s' ∪ deleted (bd_inner s').
Proof.
  revert s. induction targets as [|[path args] rest IH]; intros s; simpl.
  { split; [done|]. rewrite union_empty_l_L. apply union_subseteq_l. }
  destruct (batch_delete path args s) as [r s1] eqn:E. apply batch_delete_ok in E as (_ & H1 & H2 & _).
  destruct (IH s1) as [H3 H4]. simpl. split; [by etrans|].
  intros x [[Hx|Hx]%elem_of_union|Hx]%elem_of_union.
  1,3: assert (x ∈ bd_buffer s1 ∪ deleted (bd_inner s1)) as [Hx'|Hx']%elem_of_union
    by (apply H2, elem_of_union; auto).
  1,3: by apply H4, elem_of_union_r.
  1,2: by apply elem_of_union_r, H3.
  by apply H4, elem_of_union_l.
Qed.

(** A session and its close. *)
Lemma batch_session_ok inner max_batch_size targets r s' :
  batch_close (batch_deletes targets (batch_new inner max_batch_size)) = (r, s') ->
  r <> Panic /\
  list_to_set targets ⊆ bd_buffer s' ∪ deleted (bd_inner s') /\
  (r = Ok tt -> list_to_set targets ⊆ deleted (bd_inner s')).
Proof.
  unfold batch_close, mbind, M_bind, get. intros E.
  apply batch_close_loop_ok in E as (H1 & H2 & H3 & H4); [|lia].
  destruct (batch_deletes_ok targets (batch_new inner max_batch_size)) as [_ H5].
  set (s := batch_deletes targets (batch_new inner max_batch_size)) in *.
  assert (list_to_set targets ⊆ bd_buffer s' ∪ deleted (bd_inner s')) as Hall.
  { intros x Hx. assert (x ∈ bd_buffer s ∪ deleted (bd_inner s)) as [Hs|Hs]%elem_of_union
      by (by apply H5, elem_of_union_l); [by apply H2 | by apply elem_of_union_r, H1]. }
  split_and!; [done | done |]. intros Hr. by rewrite (H4 Hr), union_empty_l_L in Hall.
Qed.

(** C34.  A batch deleter that closes successfully has deleted everything it was
    asked to delete, including the paths of calls that failed and were not
    repeated; the close ends, and if it fails nothing is forgotten: what is not
    deleted is still in the buffer. *)
Theorem batch_deleter_complete inner max_batch_size targets r s' :
  batch_close (batch_deletes targets (batch_new inner max_batch_size)) = (r, s') ->
  r <> Panic /\
  list_to_set targets ⊆ bd_buffer s' ∪ deleted (bd_inner s') /\
  (r = Ok tt -> list_to_set targets ⊆ deleted (bd_inner s')).
Proof.
  apply batch_session_ok.
Qed.

(** While no call has failed the buffer stays below the service's batch
    limit, so no batch is larger than the limit. *)
Theorem batch_deleter_bounded inner n targets :
  0 < n ->
  (forall pre path args post, targets = pre ++ (path, args) :: post ->
     (batch_delete path args (batch_deletes pre (batch_new inner (Some n)))).1 = Ok tt) ->
  size (bd_buffer (batch_deletes targets (batch_new inner (Some n)))) < n.
Proof using Type*.
  intros Hn.
  assert (forall s, bd_max_batch_size s = n -> size (bd_buffer s) < n ->
    (forall pre path args post, targets = pre ++ (path, args) :: post ->
       (batch_delete path args (batch_deletes pre s)).1 = Ok tt) ->
    size (bd_buffer (batch_deletes targets s)) < n) as Hgen.
  { induction targets as [|[path args] rest IH]; intros s Hs Hlt Hall; [done|]. simpl.
    destruct (batch_delete path args s) as [r s1] eqn:E.
    pose proof (Hall [] path args rest eq_refl) as Hr. simpl in Hr. rewrite E in Hr. simpl in Hr. subst r.
    pose proof E as E'. apply batch_delete_ok in E' as (H1 & _ & _ & _ & H2). simpl.
    apply IH; [congruence | rewrite <- Hs; apply H2; congruence |].
    intros pre path' args' post ->. specialize (Hall ((path, args) :: pre) path' args' post eq_refl).
    simpl in Hall. by rewrite E in Hall. }
  intros Hall. by apply Hgen.
Qed.

End BatchSpec.

(** ** [OneShotDeleter] *)

Class OneShotDelete (D : Type) : Type := delete_one : str -> OpDelete -> M D Error unit.
Arguments delete_one {D _} _ _ _.

Record OneShotDeleter (D : Type) : Type := mkOneShotDeleter { osd_inner : D }.
Arguments mkOneShotDeleter {D}.
Arguments osd_inner {D}.

Section OneShotDel.
  Context {D : Type} `{OneShotDelete D}.

Definition one_shot_delete (path : str) (args : OpDelete) : M (OneShotDeleter D) Error unit :=
  zoom osd_inner (fun d _ => mkOneShotDeleter d) (delete_one path args).
Definition one_shot_delete_close : M (OneShotDeleter D) Error unit := mret tt.

#[global] Instance OneShotDeleter_Delete : Delete (OneShotDeleter D) :=
  {| d_delete := one_shot_delete; d_close := one_shot_delete_close |}.

End OneShotDel.

(** ** The public [Deleter] and its inputs *)

Record DeleteInput : Type := mkDeleteInput {
  in_path : str; in_version : option str; in_recursive : bool;
}.
Definition delete_input_default : DeleteInput :=
  {| in_path := []; in_version := None; in_recursive := false |}.

Class IntoDeleteInput (I : Type) : Type := into_delete_input : I -> DeleteInput.
#[export] Instance DeleteInput_into : IntoDeleteInput DeleteInput := fun i => i.
#[export] Instance str_into : IntoDeleteInput (list ascii) := fun s =>
  {| in_path := s; in_version := None; in_recursive := false |}.
#[export] Instance target_into : IntoDeleteInput target := fun '(path, args) =>
  {| in_path := path; in_version := del_version args; in_recursive := del_recursive args |}.
#[export] Instance Entry_into : IntoDeleteInput Entry := fun e =>
  {| in_path := e_path e; in_version := m_version (e_meta e); in_recursive := false |}.

Section Deleter.
  Context {D : Type} `{Delete D}.

Definition deleter_delete {I} `{IntoDeleteInput I} (input : I) : M D Error unit :=
  let input := into_delete_input input in
  let op := op_delete in
  let op := match in_version input with Some v => del_with_version v op | None => op end in
  let op := if in_recursive input then del_with_recursive true op else op in
  d_delete (in_path input) op.

(** [delete_iter], and [delete_stream] on the items the stream yields. *)
Fixpoint delete_iter {I} `{IntoDeleteInput I} (iter : list I) : M D Error unit :=
  match iter with
  | [] => mret tt
  | entry :: rest => deleter_delete entry;; delete_iter rest
  end.

(** [delete_try_iter] and [delete_try_stream]. *)
Fixpoint delete_try_iter {I} `{IntoDeleteInput I} (iter : list (result I)) : M D Error unit :=
  match iter with
  | [] => mret tt
  | entry :: rest => entry ← lift entry; deleter_delete entry;; delete_try_iter rest
  end.

Definition deleter_close : M D Error unit := d_close.

(** The arguments survive the conversions: a path with its arguments reaches
    the service with exactly these arguments, a listed entry with its version. *)
Theorem delete_input_faithful path args e :
  deleter_delete (path, args) = d_delete path args /\
  deleter_delete e = d_delete (e_path e) (mkOpDelete (m_version (e_meta e)) false) /\
  deleter_delete path = d_delete path op_delete.
Proof. destruct args as [[v|] []], e as [p m]; by destruct (m_version m) eqn:E; split_and!; unfold deleter_delete; simpl; rewrite ?E. Qed.

(** A fallible iterator deletes what comes before its first error. *)
Theorem delete_try_iter_stops {I} `{IntoDeleteInput I} (good : list I) err rest s s' :
  delete_iter good s = (Ok tt, s') ->
  delete_try_iter ((Ok <$> good) ++ Err err :: rest) s = (Err err, s').
Proof.
  revert s. induction good as [|x good IH]; intros s; simpl.
  - unfold mret, M_ret. intros ?. by simplify_eq.
  - unfold mbind, M_bind, lift. destruct (deleter_delete x s) as [[[]| |] s1]; [apply IH|done..].
Qed.

End Deleter.

(** ** Witnesses *)

(** A service that fails the first [flaky] paths of a batch with a temporary
    error and deletes the rest. *)
Record SetService : Type := mkSetService { ss_gone : gset target; ss_flaky : nat }.
Definition busy_error : Error := set_temporary (error RateLimited "busy").
#[export] Instance SetService_Batch : BatchDelete SetService := {
  delete_once path args s :=
    (Ok tt, {| ss_gone := {[(path, args)]} ∪ ss_gone s; ss_flaky := ss_flaky s |});
  delete_batch batch s :=
    (Ok (mkBatchResult (drop (ss_flaky s) batch) ((., busy_error) <$> take (ss_flaky s) batch)),
     {| ss_gone := list_to_set (drop (ss_flaky s) batch) ∪ ss_gone s; ss_flaky := ss_flaky s |});
}.
#[export] Instance SetService_Log : DeleteLog SetService.
Proof.
  refine {| deleted := ss_gone |}.
  - intros path args d r d' E. unfold delete_once in E; simpl in E. simplify_eq. simpl.
    split_and!; [apply union_subseteq_r | | done]. intros _. by apply elem_of_union_l, elem_of_singleton.
  - intros batch d r d' E. unfold delete_batch in E; simpl in E. simplify_eq. simpl.
    split_and!; [apply union_subseteq_r | done |]. intros res [= <-]. simpl. split.
    + intros Hnd. eapply sublist_NoDup; [exact Hnd | apply sublist_drop].
    + intros x Hx. split.
      { rewrite <- (take_drop (ss_flaky d) batch). apply elem_of_app. by right. }
     
      by apply elem_of_union_l, elem_of_list_to_set.
Defined.

Definition sample_targets : list target :=
  [(b "a", op_delete); (b "b", op_delete); (b "c", op_delete)].

Lemma batch_deleter_complete_witness :
  exists s', list_to_set sample_targets ⊆ deleted (bd_inner s') /\
    batch_close (batch_deletes sample_targets (batch_new (mkSetService ∅ 1) (Some 2))) = (Ok tt, s').
Proof.
  destruct (batch_close (batch_deletes sample_targets (batch_new (mkSetService ∅ 1) (Some 2))))
    as [r s'] eqn:E. exists s'. pose proof E as E'. apply batch_deleter_complete in E' as (_ & _ & Hall).
  assert (r = Ok tt) as ->; [|by split; [apply Hall|]].
  vm_compute in E. by injection E as <- _.
Defined.

Lemma batch_deleter_bounded_witness :
  size (bd_buffer (batch_deletes sample_targets (batch_new (mkSetService ∅ 1) (Some 2)))) < 2.
Proof.
  apply batch_deleter_bounded; [lia|]. intros pre path args post E.
  unfold sample_targets in E.
  destruct pre as [|x1 [|x2 [|x3 pre]]]; cbn [app] in E;
    [injection E as <- <- <- | injection E as <- <- <- <- | injection E as <- <- <- <- <- |
     by destruct pre]; vm_compute; reflexivity.
Defined.
