(* ===== verification/Simulate.v ===== *)
(** * Simulated capabilities ([layers/simulate.rs], [raw/enum_utils.rs])

    [SimulateLayer] gives every service a recursive listing, a [stat] of
    directories, [create_dir] and a recursive delete, built from what the
    service has.  The service answers listings during a call as it does at the
    call's start; the writer that [simulate_create_dir] closes works on the
    service's state. *)

From S2P Require Import Prelude Errors Path Range Buffer Types Access Listers Deleters.
From stdpp Require Import options.

Record SimulateLayer : Type := mkSimulate {
  sim_list_recursive : bool; sim_stat_dir : bool; sim_create_dir : bool; sim_delete_recursive : bool;
}.
Definition simulate_default : SimulateLayer := mkSimulate true true true true.
Definition with_list_recursive (v : bool) (c : SimulateLayer) : SimulateLayer :=
  mkSimulate v (sim_stat_dir c) (sim_create_dir c) (sim_delete_recursive c).
Definition with_stat_dir (v : bool) (c : SimulateLayer) : SimulateLayer :=
  mkSimulate (sim_list_recursive c) v (sim_create_dir c) (sim_delete_recursive c).
Definition with_create_dir (v : bool) (c : SimulateLayer) : SimulateLayer :=
  mkSimulate (sim_list_recursive c) (sim_stat_dir c) v (sim_delete_recursive c).
Definition with_delete_recursive (v : bool) (c : SimulateLayer) : SimulateLayer :=
  mkSimulate (sim_list_recursive c) (sim_stat_dir c) (sim_create_dir c) v.

(** [cap.create_dir = cd; cap.delete_with_recursive = dr]. *)
Definition cap_update (cd dr : bool) (c : Capability) : Capability :=
  {| cap_stat := cap_stat c; cap_stat_with_if_match := cap_stat_with_if_match c;
     cap_stat_with_if_none_match := cap_stat_with_if_none_match c;
     cap_stat_with_if_modified_since := cap_stat_with_if_modified_since c;
     cap_stat_with_if_unmodified_since := cap_stat_with_if_unmodified_since c;
     cap_stat_with_override_cache_control := cap_stat_with_override_cache_control c;
     cap_stat_with_override_content_disposition := cap_stat_with_override_content_disposition c;
     cap_stat_with_override_content_type := cap_stat_with_override_content_type c;
     cap_stat_with_version := cap_stat_with_version c;
     cap_read := cap_read c; cap_read_with_if_match := cap_read_with_if_match c;
     cap_read_with_if_none_match := cap_read_with_if_none_match c;
     cap_read_with_if_modified_since := cap_read_with_if_modified_since c;
     cap_read_with_if_unmodified_since := cap_read_with_if_unmodified_since c;
     cap_read_with_override_cache_control := cap_read_with_override_cache_control c;
     cap_read_with_override_content_disposition := cap_read_with_override_content_disposition c;
     cap_read_with_override_content_type := cap_read_with_override_content_type c;
     cap_read_with_version := cap_read_with_version c;
     cap_write := cap_write c; cap_write_can_multi := cap_write_can_multi c;
     cap_write_can_empty := cap_write_can_empty c; cap_write_can_append := cap_write_can_append c;
     cap_write_with_content_type := cap_write_with_content_type c;
     cap_write_with_content_disposition := cap_write_with_content_disposition c;
     cap_write_with_content_encoding := cap_write_with_content_encoding c;
     cap_write_with_cache_control := cap_write_with_cache_control c;
     cap_write_with_if_match := cap_write_with_if_match c;
     cap_write_with_if_none_match := cap_write_with_if_none_match c;
     cap_write_with_if_not_exists := cap_write_with_if_not_exists c;
     cap_write_with_user_metadata := cap_write_with_user_metadata c;
     cap_write_multi_max_size := cap_write_multi_max_size c;
     cap_write_multi_min_size := cap_write_multi_min_size c;
     cap_write_total_max_size := cap_write_total_max_size c;
     cap_create_dir := cd; cap_delete := cap_delete c;
     cap_delete_with_version := cap_delete_with_version c;
     cap_delete_with_recursive := dr; cap_delete_max_size := cap_delete_max_size c;
     cap_copy := cap_copy c; cap_copy_with_if_not_exists := cap_copy_with_if_not_exists c;
     cap_copy_with_if_match := cap_copy_with_if_match c; cap_copy_can_multi := cap_copy_can_multi c;
     cap_copy_multi_max_size := cap_copy_multi_max_size c; cap_copy_multi_min_size := cap_copy_multi_min_size c;
     cap_rename := cap_rename c; cap_list := cap_list c; cap_list_with_limit := cap_list_with_limit c;
     cap_list_with_start_after := cap_list_with_start_after c; cap_list_with_recursive := cap_list_with_recursive c;
     cap_list_with_versions := cap_list_with_versions c; cap_list_with_deleted := cap_list_with_deleted c;
     cap_presign := cap_presign c; cap_presign_read := cap_presign_read c; cap_presign_stat := cap_presign_stat c;
     cap_presign_write := cap_presign_write c; cap_presign_delete := cap_presign_delete c;
     cap_shared := cap_shared c |}.
(** [SimulateLayer::layer]: what it does to the shared capability. *)
Definition simulate_capability (config : SimulateLayer) (cap : Capability) : Capability :=
  let cap := if sim_create_dir config && cap_list cap && cap_write_can_empty cap
             then cap_update true (cap_delete_with_recursive cap) cap else cap in
  if sim_delete_recursive config && cap_list cap && cap_delete cap
  then cap_update (cap_create_dir cap) true cap else cap.

(** ** The listers of the layer ([FourWays]) *)

Inductive SimulateLister (L : Type) : Type :=
  | One (l : L)
  | Two (l : FlatLister L)
  | Three (l : PrefixLister L)
  | Four (l : PrefixLister (FlatLister L)).
Arguments One {L}.
Arguments Two {L}.
Arguments Three {L}.
Arguments Four {L}.

(** Runs a lister and puts it back. *)
Definition way {L L' : Type} (wrap : L' -> SimulateLister L) (m : M L' Error (option Entry)) (l : L')
  : result (option Entry) * SimulateLister L :=
  let '(r, l') := m l in (r, wrap l').

(** The tree below a directory. *)
Abbreviation tree_at path n kids := (Dir (entry_new path (meta_new DIR)) n kids).

Section Simulate.
  Context {A Rd Wr Ls Dl0 Dl Cp : Type} `{List Ls} `{Write (A * Wr)} `{Delete Dl}.
  Variable config : SimulateLayer.
  Variable inner : Access A Rd Wr Ls Dl0 Cp.

Definition sim_next (alist : str -> OpList -> result Ls) (fuel : nat)
  : M (SimulateLister Ls) Error (option Entry) := fun s =>
  match s with
  | One l => way One list_next l
  | Two l => way Two (flat_next alist fuel) l
  | Three l => way Three (prefix_next fuel) l
  | Four l => way Four (@prefix_next _ (flat_next alist fuel) fuel) l
  end.

Definition simulate_create_dir (path : str) : M A Error unit :=
  info ← gets (a_info inner);
  let capability := native_capability info in
  if cap_create_dir capability || negb (sim_create_dir config) then a_create_dir inner path
  else if cap_write_can_empty capability && cap_list capability then
    w ← a_write inner path op_write;
    a ← get;
    let '(r, (a, _)) := w_close (a, w) in
    put a;;
    lift r;;
    mret tt
  else a_create_dir inner path.

Definition simulate_stat (path : str) (args : OpStat) : M A Error Metadata :=
  info ← gets (a_info inner);
  let capability := native_capability info in
  if bool_decide (path = [slash]) then mret (meta_new DIR)
  else if ends_with [slash] path && cap_create_dir capability then
    meta ← a_stat inner path args;
    if is_file (m_mode meta) then throw (error NotFound "stat expected a directory, but found a file")
    else mret meta
  else if ends_with [slash] path && (sim_stat_dir config && cap_list_with_recursive capability) then
    l ← a_list inner path (list_with_limit 1 (list_with_recursive true op_list));
    entry ← lift (list_next l).1;
    match entry with
    | Some _ => mret (meta_new DIR)
    | None => throw (error NotFound "the directory is not found")
    end
  else a_stat inner path args.

Definition simulate_list (path : str) (args : OpList) : M A Error (SimulateLister Ls) :=
  info ← gets (a_info inner);
  let cap := native_capability info in
  match list_recursive args, cap_list_with_recursive cap, sim_list_recursive config with
  | _, true, _ => p ← a_list inner path args; mret (One p)
  | true, false, true =>
      if ends_with [slash] path then mret (Two (flat_new path))
      else
        let parent := get_parent path in
        mret (Four (mkPrefixLister (flat_new parent) path))
  | true, false, false => p ← a_list inner path args; mret (One p)
  | false, false, _ =>
      if ends_with [slash] path then p ← a_list inner path args; mret (One p)
      else
        let parent := get_parent path in
        p ← a_list inner parent args;
        mret (Three (mkPrefixLister p path))
  end.
(** [while let Some(entry) = lister.next().await?]. *)
Fixpoint delete_listed (next : M (SimulateLister Ls) Error (option Entry)) (non_recursive : OpDelete)
    (fuel : nat) (lister : SimulateLister Ls) : M Dl Error unit :=
  match fuel with
  | O => panic
  | S f =>
      let '(r, lister) := next lister in
      entry ← lift r;
      match entry with
      | None => mret tt
      | Some entry =>
          let entry_args := match m_version (e_meta entry) with
                            | Some version => del_with_version version non_recursive
                            | None => non_recursive
                            end in
          d_delete (e_path entry) entry_args;;
          delete_listed next non_recursive f lister
      end
  end.

(** The deleter of the layer: the service, and the service's deleter. *)
Record SimulateDeleter : Type := mkSimulateDeleter { sd_accessor : A; sd_deleter : Dl }.

Definition sd_set_accessor (a : A) (s : SimulateDeleter) : SimulateDeleter := mkSimulateDeleter a (sd_deleter s).
Definition sd_set_deleter (d : Dl) (s : SimulateDeleter) : SimulateDeleter := mkSimulateDeleter (sd_accessor s) d.

(** [self.accessor.inner.list] as it answers in a state. *)
Definition answers_in (a : A) (path : str) (args : OpList) : result Ls := (a_list inner path args a).1.

Definition simulate_delete_with_recursive (fuel : nat) (path : str) (args : OpDelete)
  : M SimulateDeleter Error unit :=
  s ← get;
  if negb (cap_delete_with_recursive (full_capability (a_info inner (sd_accessor s)))) then
    throw (error Unsupported "recursive delete is not supported")
  else
    let non_recursive := del_with_recursive false args in
    lister ← zoom sd_accessor sd_set_accessor (simulate_list path (list_with_recursive true op_list));
    s ← get;
    zoom sd_deleter sd_set_deleter
      (delete_listed (sim_next (answers_in (sd_accessor s)) fuel) non_recursive fuel lister).

Definition simulate_delete (fuel : nat) (path : str) (args : OpDelete) : M SimulateDeleter Error unit :=
  s ← get;
  let cap := native_capability (a_info inner (sd_accessor s)) in
  if del_recursive args && negb (cap_delete_with_recursive cap) && sim_delete_recursive config
  then simulate_delete_with_recursive fuel path args
  else zoom sd_deleter sd_set_deleter (d_delete path args).

Definition simulate_deleter_close : M SimulateDeleter Error unit := zoom sd_deleter sd_set_deleter d_close.

(** *** What is listed and deleted *)

(** The requests a recursive delete stands for. *)
Definition delete_requests (args : OpDelete) (es : list Entry) : list target :=
  (fun e => (e_path e, mkOpDelete (match m_version (e_meta e) with Some v => Some v | None => del_version args end)
                                  false)) <$> es.

(** Requests one after another, up to the first that fails. *)
Fixpoint delete_all (ts : list target) : M Dl Error unit :=
  match ts with
  | [] => mret tt
  | (path, args) :: ts => d_delete path args;; delete_all ts
  end.

Lemma delete_listed_ok next args l es fuel d :
  lists next l es -> length es < fuel ->
  delete_listed next (del_with_recursive false args) fuel l d = delete_all (delete_requests args es) d.
Proof.
  unfold lists. intros Hl. revert fuel d. revert Hl. generalize (length es) at 1 2 as n. intros n Hl.
  induction Hl as [l l' E|l e l' n es E Hl IH|]; intros fuel d Hf; [| |done]; (destruct fuel as [|f]; [lia|]);
    cbn [delete_listed]; rewrite E; [done|].
  cbn [delete_requests fmap list_fmap delete_all]. unfold mbind, M_bind, lift.
  replace (match m_version (e_meta e) with Some v => _ | None => _ end) with
    (mkOpDelete (match m_version (e_meta e) with Some v => Some v | None => del_version args end) false)
    by (by destruct (m_version (e_meta e))).
  destruct (d_delete _ _ d) as [[[]|err|] d'] eqn:Ed; [|done|done]. apply IH. lia.
Qed.

(** A lister inside [FourWays] lists what it lists outside. *)
Lemma way_lists {L'} (wrap : L' -> SimulateLister Ls) (next : M L' Error (option Entry)) alist fuel l es :
  (forall k, sim_next alist fuel (wrap k) = way wrap next k) ->
  lists next l es -> lists (sim_next alist fuel) (wrap l) es.
Proof.
  unfold lists. intros Hw Hl. induction Hl as [l l' E|l e l' m es E Hl IH|]; [| |done].
  - eapply Lists_nil. rewrite Hw. unfold way. by rewrite E.
  - eapply Lists_cons; [|exact IH]. rewrite Hw. unfold way. by rewrite E.
Qed.

(** The service in state [a] lists one level at a time and deletes one object
    at a time; the layer simulates the rest. *)
Definition plain_service (a : A) : Prop :=
  let i := a_info inner a in
  cap_list_with_recursive (native_capability i) = false /\
  cap_delete_with_recursive (native_capability i) = false /\
  cap_delete_with_recursive (full_capability i) = true /\
  sim_list_recursive config = true /\ sim_delete_recursive config = true.

Lemma simulate_list_plain a path args :
  plain_service a -> list_recursive args = true ->
  simulate_list path args a =
  (Ok (if ends_with [slash] path then Two (flat_new path)
       else Four (mkPrefixLister (flat_new (get_parent path)) path)), a).
Proof.
  intros (Hl & _ & _ & Hc & _) Hr. unfold simulate_list, mbind, M_bind, gets. rewrite Hr, Hl, Hc.
  by destruct (ends_with _ _).
Qed.

(** Recursive listing of a service that only lists one level: a directory
    gives its whole tree; any other path, the entries below its parent whose
    path starts with it. *)
Theorem simulate_list_recursive a path args parent n kids fuel :
  plain_service a -> list_recursive args = true ->
  let top := if ends_with [slash] path then path else get_parent path in
  served (answers_in a) parent (tree_at top n kids) -> tsize (tree_at top n kids) < fuel ->
  length (flat (tree_at top n kids)) < fuel ->
  exists l, simulate_list path args a = (Ok l, a) /\
    lists (sim_next (answers_in a) fuel) l
      (filter (fun e => ends_with [slash] path = true \/ starts_with path (e_path e) = true) (flat (tree_at top n kids))).
Proof.
  intros Hp Hr top Hs Hf Hlen. rewrite simulate_list_plain by done. subst top. destruct (ends_with [slash] path) eqn:He.
  - eexists. split; [done|]. rewrite filter_all by (apply Forall_forall; auto).
    apply (way_lists Two (flat_next (answers_in a) fuel)); [done|]. by eapply flat_lists.
  - eexists. split; [done|]. apply (way_lists Four (@prefix_next _ (flat_next (answers_in a) fuel) fuel)); [done|].
    erewrite list_filter_iff; [by apply prefix_lister_lists; [eapply flat_lists|]|].
    intros e. naive_solver.
Qed.

(** A recursive delete is the deletion of everything the walk finds, in its
    order, up to the first failure. *)
Lemma simulate_delete_walks a d path args parent n kids fuel :
  plain_service a -> del_recursive args = true -> ends_with [slash] path = true ->
  served (answers_in a) parent (tree_at path n kids) -> tsize (tree_at path n kids) < fuel ->
  length (flat (tree_at path n kids)) < fuel ->
  simulate_delete fuel path args (mkSimulateDeleter a d) =
  let '(r, d') := delete_all (delete_requests args (flat (tree_at path n kids))) d in (r, mkSimulateDeleter a d').
Proof.
  intros Hp Hr He Hs Hf Hlen. pose proof Hp as (_ & Hd & Hfd & _ & Hcd).
  unfold simulate_delete, simulate_delete_with_recursive. unfold mbind, M_bind, get, zoom.
  rewrite Hr. cbn [sd_accessor]. rewrite Hd, Hcd. cbn [negb andb sd_accessor sd_deleter]. rewrite Hfd.
  cbn [negb sd_accessor sd_deleter]. rewrite simulate_list_plain, He by done.
  cbn [sd_accessor sd_deleter sd_set_accessor sd_set_deleter].
  rewrite (delete_listed_ok _ args _ (flat (tree_at path n kids))); [done | | done].
  apply (way_lists Two (flat_next (answers_in a) fuel)); [done|]. by eapply flat_lists.
Qed.

(** A directory is found by [stat] exactly when something is listed below
    it, on a service without directories but with recursive listing; the root
    is always a directory, and a file is never mistaken for one. *)
Theorem simulate_stat_directory a path args l r l' :
  let cap := native_capability (a_info inner a) in
  ends_with [slash] path = true -> path <> [slash] -> cap_create_dir cap = false ->
  cap_list_with_recursive cap = true -> sim_stat_dir config = true ->
  a_list inner path (list_with_limit 1 (list_with_recursive true op_list)) a = (Ok l, a) ->
  list_next l = (r, l') ->
  simulate_stat path args a =
  (match r with
   | Ok (Some _) => Ok (meta_new DIR)
   | Ok None => Err (error NotFound "the directory is not found")
   | Err e => Err e
   | Panic => Panic
   end, a).
Proof.
  intros cap He Hp Hcd Hlr Hsd Hal Hn. unfold simulate_stat, mbind, M_bind, gets, lift, throw, mret, M_ret.
  rewrite bool_decide_eq_false_2 by done. subst cap. rewrite He, Hcd, Hlr, Hsd. simpl. rewrite Hal, Hn. simpl.
  by destruct r as [[]| |].
Qed.

End Simulate.

Section SimulateBatch.
  Context {A Rd Wr Ls Cp D : Type} `{List Ls} `{DeleteLog D}.
  Variable config : SimulateLayer.
  Variable inner : Access A Rd Wr Ls (BatchDeleter D) Cp.

Lemma delete_all_batch ts (s s' : BatchDeleter D) :
  delete_all ts s = (Ok tt, s') -> s' = batch_deletes ts s.
Proof.
  revert s. induction ts as [|[path args] ts IH]; intros s; cbn [delete_all batch_deletes].
  - by intros [= ->].
  - unfold mbind, M_bind. simpl. destruct (batch_delete path args s) as [[[]|e|] s1]; [|done|done]. apply IH.
Qed.

(** C10.  Deleting a directory recursively on a service that lists one level at
    a time and deletes in batches: when the delete and the close succeed, every
    file below the directory, and every directory with a listing, has been
    deleted, in the version the listing named. *)
Theorem recursive_delete_complete a d max path parent n kids fuel s1 s2 :
  plain_service config inner a -> ends_with [slash] path = true ->
  served (answers_in inner a) parent (tree_at path n kids) -> tsize (tree_at path n kids) < fuel ->
  length (flat (tree_at path n kids)) < fuel ->
  simulate_delete config inner fuel path (mkOpDelete None true) (mkSimulateDeleter a (batch_new d max)) = (Ok tt, s1) ->
  simulate_deleter_close s1 = (Ok tt, s2) ->
  forall e, e ∈ flat (tree_at path n kids) ->
    (e_path e, mkOpDelete (m_version (e_meta e)) false) ∈ deleted (bd_inner (sd_deleter s2)).
Proof.
  intros Hp He Hs Hf Hlen Hd Hc e Hin. erewrite simulate_delete_walks in Hd by done.
  destruct (delete_all _ _) as [r d1] eqn:Ed. simplify_eq. apply delete_all_batch in Ed. subst d1.
  unfold simulate_deleter_close, zoom in Hc. simpl in Hc.
  destruct (batch_close _) as [rc d2] eqn:Ec. simplify_eq. apply batch_session_ok in Ec as (_ & _ & Hall).
  apply (Hall eq_refl), elem_of_list_to_set. unfold delete_requests. apply list_elem_of_fmap. exists e.
  split; [|done]. simpl. by destruct (m_version (e_meta e)).
Qed.

End SimulateBatch.

(** ** Witnesses *)

(** A service with the sample listing and a batch deleter. *)
Definition sample_info : AccessorInfo :=
  update_full_capability (cap_update false true) (set_scheme (b "sample") info_default).
Definition sample_access : Access AccessorInfo unit LogWriter SeqLister (BatchDeleter SetService) unit :=
  {| a_info i := i; a_create_dir _ := throw not_supported; a_stat _ _ := throw not_supported;
     a_read _ _ := throw not_supported; a_write _ _ := throw not_supported;
     a_delete := mret (batch_new (mkSetService ∅ 1) (Some 2)); a_list p o := lift (sample_alist p o);
     a_copy _ _ _ _ := throw not_supported; a_rename _ _ := throw not_supported |}.

Lemma simulate_list_recursive_witness :
  exists l, simulate_list simulate_default sample_access (b "a/d") (list_with_recursive true op_list) sample_info =
      (Ok l, sample_info) /\
    lists (sim_next (answers_in sample_access sample_info) 30) l
      (filter (fun e => false = true \/ starts_with (b "a/d") (e_path e) = true) (flat sample_tree)).
Proof.
  apply (simulate_list_recursive simulate_default sample_access sample_info (b "a/d") (list_with_recursive true op_list)
    [] 4 sample_kids 30); [by split_and! | done | exact sample_served | simpl; lia | simpl; lia].
Defined.

Lemma simulate_stat_directory_witness :
  let acc : Access AccessorInfo unit LogWriter SeqLister unit unit :=
    {| a_info i := i; a_create_dir _ := throw not_supported; a_stat _ _ := throw not_supported;
       a_read _ _ := throw not_supported; a_write _ _ := throw not_supported; a_delete := throw not_supported;
       a_list p o := mret []; a_copy _ _ _ _ := throw not_supported; a_rename _ _ := throw not_supported |} in
  let i := mkInfo [] [] [] (mkCapability false false false false false false false false false false false false false
    false false false false false false false false false false false false false false false false false None None None
    false false false false None false false false false None None false false false false true false false false false
    false false false false) capability_default in
  simulate_stat simulate_default acc (b "d/") op_stat i = (Err (error NotFound "the directory is not found"), i).
Proof.
  intros acc i.
  apply (simulate_stat_directory simulate_default acc i (b "d/") op_stat [] (Ok None) []); done.
Defined.

Definition sample_deletion : result unit * SimulateDeleter :=
  simulate_delete simulate_default sample_access 30 (b "a/") (mkOpDelete None true)
    (mkSimulateDeleter sample_info (batch_new (mkSetService ∅ 1) (Some 2))).

Lemma outcome_of {S} (p : result unit * S) : p.1 = Ok tt -> p = (Ok tt, p.2).
Proof. destruct p. by intros [= ->]. Qed.

Lemma recursive_delete_complete_witness :
  (b "a/d/g", mkOpDelete None false) ∈
    deleted (bd_inner (sd_deleter (simulate_deleter_close sample_deletion.2).2)).
Proof.
  refine (recursive_delete_complete simulate_default sample_access sample_info (mkSetService ∅ 1) (Some 2) (b "a/") []
    4 sample_kids 30 sample_deletion.2 (simulate_deleter_close sample_deletion.2).2 _ _ sample_served _ _
    (outcome_of sample_deletion _) (outcome_of (simulate_deleter_close sample_deletion.2) _) (file_entry "a/d/g") _).
  - by split_and!.
  - done.
  - simpl; lia.
  - simpl; lia.
  - vm_compute. reflexivity.
  - vm_compute. reflexivity.
  - by right; left.
Defined.
