(* ===== verification/Readers.v ===== *)
(** * Reading ([types/context/read.rs], [types/read/buffer_stream.rs],
      [types/read/reader.rs], [raw/oio/read/api.rs])

    How the public [Reader] turns a range of an object into requests to the
    service: splitting it into chunks, streaming or reading the chunks
    concurrently, merging the ranges of a [fetch] and cutting the answers.

    [aread] is [self.acc.read(path, args)] as the service answers during the
    call.  The metadata cell of the shared context is modelled where a
    [ReadGenerator] fills it; the background tasks that also fill it are not
    observed. *)

From S2P Require Import Prelude Errors Path Range Buffer Types Tasks.
From stdpp Require Import options.

(** ** [ReadContext] *)

Record ReadContext : Type := mkReadContext {
  rc_args : OpRead; rc_options : OpReader; rc_metadata : option Metadata;
}.

(** [OnceLock::set]: the first value stays. *)
Definition set_metadata (m : Metadata) (c : ReadContext) : ReadContext :=
  mkReadContext (rc_args c) (rc_options c)
    (match rc_metadata c with None => Some m | Some _ => rc_metadata c end).

Definition parse_into_range (ctx : ReadContext) (stat : OpStat -> result Metadata) (lo hi : Bound)
  : result (Z * Z) :=
  start ← match lo with
          | Included v => Ok v
          | Excluded v => ok_or (error RangeNotSatisfied
              "range start overflow: excluded bound at u64::MAX cannot be incremented")
              (checked_add v 1)
          | Unbounded => Ok 0%Z
          end;
  end_ ← match hi with
         | Included v => ok_or (error RangeNotSatisfied
             "range end overflow: inclusive bound at u64::MAX cannot be incremented")
             (checked_add v 1)
         | Excluded v => Ok v
         | Unbounded =>
             match reader_content_length_hint (rc_options ctx) with
             | Some v => Ok v
             | None =>
                 let op := match read_version (rc_args ctx) with
                           | Some v => stat_with_version v op_stat
                           | None => op_stat
                           end in
                 content_length <$> stat op
             end
         end;
  Ok (start, end_).

(** ** Splitting a range *)

(** The next range, and the offset and size that remain. *)
Definition next_range (chunk : option nat) (off : Z) (sz : option Z)
  : option BytesRange * (Z * option Z) :=
  if bool_decide (sz = Some 0%Z) then (None, (off, sz))
  else match sz with
  | None => (Some (mkRange off None), (off, Some 0%Z))
  | Some remaining =>
      let read_size := match chunk with
                       | None => remaining
                       | Some c => Z.min remaining (Z.of_nat c)
                       end in
      (Some (mkRange off (Some read_size)),
       (wrap64 (off + read_size), Some (remaining - read_size)%Z))
  end.

(** What a range selects of an object: what is past the end is not there. *)
Definition sub (data : bytes) (r : BytesRange) : bytes :=
  match Range.size r with
  | None => drop (Z.to_nat (Range.offset r)) data
  | Some n => take (Z.to_nat n) (drop (Z.to_nat (Range.offset r)) data)
  end.

(** A range that can be split: in [u64], with a chunk size that is not zero. *)
Definition splittable (chunk : option nat) (off : Z) (sz : option Z) : Prop :=
  chunk <> Some 0 /\ is_u64 off /\
  match sz with Some n => (0 <= n /\ off + n <= u64_max)%Z | None => True end.

(** What is left of a range, in rounds. *)
Definition rounds (sz : option Z) : nat := match sz with None => 1 | Some n => Z.to_nat n end.

Lemma sub_split data off n k :
  (0 <= off)%Z -> (0 <= k <= n)%Z ->
  sub data (mkRange off (Some n)) =
  sub data (mkRange off (Some k)) ++ sub data (mkRange (off + k) (Some (n - k)%Z)).
Proof.
  intros Ho Hk. unfold sub. simpl. rewrite Z2Nat.inj_add, Z2Nat.inj_sub, <- drop_drop by lia.
  rewrite <- (take_drop (Z.to_nat k) (take (Z.to_nat n) _)) at 1.
  rewrite take_take, Nat.min_l by lia. f_equal. apply skipn_firstn_comm.
Qed.

(** The next range and what remains are the two pieces of the range. *)
Lemma next_range_spec chunk off sz :
  splittable chunk off sz ->
  match next_range chunk off sz with
  | (None, (off', sz')) => sz = Some 0%Z /\ sz' = sz /\ off' = off
  | (Some r, (off', sz')) =>
      splittable chunk off' sz' /\ rounds sz' < rounds sz /\
      (forall data, sub data (mkRange off sz) = sub data r ++ sub data (mkRange off' sz')) /\
      Range.offset r = off /\
      match Range.size r, sz with
      | Some n, Some m => (0 < n <= m)%Z /\ (forall c, chunk = Some c -> n <= Z.of_nat c)%Z
      | None, None => True
      | _, _ => False
      end
  end.
Proof.
  intros (Hc & Ho & Hs). unfold next_range. case_bool_decide as Hz; [done|].
  destruct sz as [n|].
  - set (k := match chunk with None => n | Some c => Z.min n (Z.of_nat c) end).
    assert (forall c, chunk = Some c -> k <= Z.of_nat c)%Z as Hkc by (intros c Hcc; subst k; rewrite Hcc; lia).
    assert (0 < k <= n)%Z as Hk.
    { subst k. clear Hkc. assert (n <> 0%Z) by congruence. destruct chunk as [[|c]|]; [done|lia|lia]. }
    assert (wrap64 (off + k) = off + k)%Z as Hw by (apply wrap64_id; unfold is_u64, u64_max in *; lia).
    rewrite Hw. clearbody k. split_and!; try done.
    + unfold splittable, is_u64 in *. split_and!; try done; lia.
    + simpl. lia.
    + intros data. unfold is_u64 in Ho. apply sub_split; lia.
  - unfold is_u64 in Ho. split_and!; try done; [unfold splittable, is_u64; split_and!; done || lia | simpl; lia |].
    intros data. unfold sub. simpl. by rewrite app_nil_r.
Qed.

(** The numbers of a range are [u64]s. *)
Definition range_u64 (r : BytesRange) : Prop :=
  (0 <= Range.offset r)%Z /\ from_option (fun n => 0 <= n)%Z True (Range.size r).

Lemma next_range_u64 chunk off sz r rest :
  splittable chunk off sz -> next_range chunk off sz = (Some r, rest) -> range_u64 r.
Proof.
  intros Hs E. pose proof (next_range_spec _ _ _ Hs) as Hn. rewrite E in Hn.
  destruct rest as [off' sz']. destruct Hn as (_ & _ & _ & Ho & Hsz). destruct Hs as (_ & Hoff & _).
  unfold range_u64, is_u64 in *. rewrite Ho. destruct (Range.size r), sz; simpl; try done; lia.
Qed.

(** ** Readers *)

(** [Serves next strict r bs n]: reading from [r] gives the bytes [bs], in [n]
    buffers, and then the empty buffer; if not [strict] it may fail on the way. *)
Inductive Serves {T : Type} (next : M T Error Buffer) (strict : bool) : T -> bytes -> nat -> Prop :=
  | Serves_end r buf r' : next r = (Ok buf, r') -> wf buf -> blen buf = 0 -> Serves next strict r [] 0
  | Serves_more r buf r' bs n :
      next r = (Ok buf, r') -> wf buf -> blen buf <> 0 -> Serves next strict r' bs n ->
      Serves next strict r (contents buf ++ bs) (S n)
  | Serves_fail r e r' bs n : strict = false -> next r = (Err e, r') -> Serves next strict r bs n.

(** [read_all], and the collecting loop of [Reader::read]. *)
Fixpoint collect_loop {T : Type} (next : M T Error Buffer) (fuel : nat) (bufs : list Buffer)
  : M T Error Buffer :=
  match fuel with
  | O => panic
  | S f =>
      buf ← next;
      if is_empty buf then lift (from_parts <$> flatten bufs)
      else collect_loop next f (bufs ++ [buf])
  end.
Definition read_all {R} `{Read R} (fuel : nat) : M R Error Buffer := collect_loop read_buf fuel [].

Lemma collect_loop_ok {T} (next : M T Error Buffer) strict r bs n fuel bufs :
  Serves next strict r bs n -> qwf bufs -> n < fuel ->
  match (collect_loop next fuel bufs r).1 with
  | Ok buf => wf buf /\ contents buf = qcontents bufs ++ bs
  | Err _ => strict = false
  | Panic => False
  end.
Proof.
  intros Hs. revert fuel bufs. induction Hs as [r buf r' E Hb Hz|r buf r' bs n E Hb Hz Hs IH|r e r' bs n Hst E];
    intros fuel bufs Hq Hf; (destruct fuel as [|f]; [lia|]); cbn [collect_loop];
    unfold mbind, M_bind; rewrite E; [| |done].
  - unfold is_empty, lift. rewrite bool_decide_eq_true_2 by done.
    destruct (flatten_spec _ Hq) as (xs & -> & Hxs). cbn [fmap outcome_fmap fst].
    rewrite app_nil_r, from_parts_contents. by split; [apply from_parts_wf|].
  - unfold is_empty. rewrite bool_decide_eq_false_2 by done.
    assert (qwf (bufs ++ [buf])) as Hq' by (apply Forall_app; by repeat constructor).
    specialize (IH f (bufs ++ [buf]) Hq' ltac:(lia)).
    destruct (collect_loop next f (bufs ++ [buf]) r').1; [|done|done].
    destruct IH as [? ->]. split; [done|]. unfold qcontents. rewrite fmap_app, concat_app. simpl.
    by rewrite app_nil_r, <- app_assoc.
Qed.

Lemma read_all_ok {R} `{Read R} strict (r : R) bs n fuel :
  Serves read_buf strict r bs n -> n < fuel ->
  match (read_all fuel r).1 with
  | Ok buf => wf buf /\ contents buf = bs
  | Err _ => strict = false
  | Panic => False
  end.
Proof. intros Hs Hf. by apply (collect_loop_ok _ _ _ _ _ _ [] Hs qwf_nil). Qed.

(** [impl Read for Buffer]: everything at once, then nothing. *)
#[export] Instance Buffer_Read : Read Buffer := fun buf => (Ok buf, Buffer.new).
Lemma Buffer_serves buf : wf buf -> exists n, n <= 1 /\ Serves read_buf true buf (contents buf) n.
Proof.
  intros Hb. destruct (decide (blen buf = 0)) as [Hz|Hz].
  - exists 0. split; [lia|]. rewrite (nil_length_inv (contents buf)) by (by rewrite contents_length).
    by eapply Serves_end.
  - exists 1. split; [lia|]. rewrite <- (app_nil_r (contents buf)).
    eapply Serves_more; [done | done | done |]. by eapply Serves_end.
Qed.

(** ** [ReadGenerator] and [StreamingReader] *)

Record ReadGenerator : Type := mkReadGen {
  rg_ctx : ReadContext; rg_offset : Z; rg_size : option Z;
}.

Record StreamingReader (R : Type) : Type := mkStreaming {
  sr_generator : ReadGenerator; sr_reader : option R;
}.
Arguments mkStreaming {R}.
Arguments sr_generator {R}.
Arguments sr_reader {R}.

Section Streaming.
  Context {R : Type} `{Read R}.
  Variable aread : OpRead -> result (option Metadata * R).

Definition gen_next_range : M ReadGenerator Error (option BytesRange) := fun g =>
  let '(r, (off, sz)) := next_range (reader_chunk (rc_options (rg_ctx g))) (rg_offset g) (rg_size g) in
  (Ok r, mkReadGen (rg_ctx g) off sz).

Definition next_reader : M ReadGenerator Error (option R) :=
  range ← gen_next_range;
  match range with
  | None => mret None
  | Some range =>
      g ← get;
      '(rp, r) ← lift (aread (read_with_range range (rc_args (rg_ctx g))));
      match rp with
      | Some metadata =>
          modify (fun g => mkReadGen (set_metadata metadata (rg_ctx g)) (rg_offset g) (rg_size g))
      | None => mret tt
      end;;
      mret (Some r)
  end.

Definition streaming_new (ctx : ReadContext) (range : BytesRange) : StreamingReader R :=
  mkStreaming (mkReadGen ctx (Range.offset range) (Range.size range)) None.

Definition sr_set_generator (g : ReadGenerator) (s : StreamingReader R) : StreamingReader R :=
  mkStreaming g (sr_reader s).
Definition sr_set_reader (r : option R) (s : StreamingReader R) : StreamingReader R :=
  mkStreaming (sr_generator s) r.

(** [self.reader = self.generator.next_reader().await?]. *)
Definition open_next : M (StreamingReader R) Error unit :=
  r ← zoom sr_generator sr_set_generator next_reader;
  modify (sr_set_reader r).

Definition prepare_metadata : M (StreamingReader R) Error unit :=
  s ← get;
  match rc_metadata (rg_ctx (sr_generator s)), sr_reader s with
  | None, None => open_next
  | _, _ => mret tt
  end.

Definition streaming_metadata : M (StreamingReader R) Error Metadata :=
  prepare_metadata;;
  s ← get;
  lift (ok_or (error Unsupported "read metadata is not available")
          (rc_metadata (rg_ctx (sr_generator s)))).

(** The second half of the loop's body; [rec] is the next round. *)
Definition serve_reader (rec : M (StreamingReader R) Error Buffer) : M (StreamingReader R) Error Buffer :=
  s ← get;
  match sr_reader s with
  | None => mret Buffer.new
  | Some r =>
      let '(buf, r') := read_buf r in
      modify (sr_set_reader (Some r'));;
      buf ← lift buf;
      if is_empty buf then modify (sr_set_reader None);; rec
      else mret buf
  end.

Fixpoint streaming_read (fuel : nat) : M (StreamingReader R) Error Buffer :=
  match fuel with
  | O => panic
  | S f =>
      s ← get;
      (if bool_decide (sr_reader s = None) then open_next else mret tt);;
      serve_reader (streaming_read f)
  end.

(** The service serves [data]: every opened range reads as its bytes. *)
Definition serves_object (data : bytes) : Prop :=
  forall range args, range_u64 range -> exists rp r n,
    aread (read_with_range range args) = Ok (rp, r) /\ Serves read_buf true r (sub data range) n.

(** What a streaming reader will still return, in how many ranges. *)
Definition streaming_ok (data : bytes) (s : StreamingReader R) (bs : bytes) (m : nat) : Prop :=
  let g := sr_generator s in
  splittable (reader_chunk (rc_options (rg_ctx g))) (rg_offset g) (rg_size g) /\
  exists cur n, bs = cur ++ sub data (mkRange (rg_offset g) (rg_size g)) /\ m = rounds (rg_size g) /\
    match sr_reader s with Some r => Serves read_buf true r cur n | None => cur = [] end.

Lemma open_next_ok data s m :
  serves_object data -> streaming_ok data s (sub data (mkRange (rg_offset (sr_generator s)) (rg_size (sr_generator s)))) m ->
  sr_reader s = None ->
  exists s', open_next s = (Ok tt, s') /\
    (rg_size (sr_generator s) = Some 0%Z /\ sr_reader s' = None /\ streaming_ok data s' [] 0 \/
     exists m', m' < m /\ is_Some (sr_reader s') /\
       streaming_ok data s' (sub data (mkRange (rg_offset (sr_generator s)) (rg_size (sr_generator s)))) m').
Proof.
  intros Hd (Hs & _ & _ & _ & Hm & _) Hr. destruct s as [[ctx off sz] rd]. simpl in *. subst rd m.
  unfold open_next, next_reader, gen_next_range, mbind, M_bind, zoom, get, lift, modify, mret, M_ret.
  simpl. pose proof (next_range_spec _ _ _ Hs) as Hn.
  destruct (next_range (reader_chunk (rc_options ctx)) off sz) as [[r|] [off' sz']] eqn:En.
  - destruct Hn as (Hs' & Hlt & Hsub & _). pose proof (next_range_u64 _ _ _ _ _ Hs En) as Hu.
    destruct (Hd r (rc_args ctx) Hu) as (rp & rd & n & E & Hserve).
    cbn [rg_ctx]. rewrite E.
    assert (forall c, rc_options c = rc_options ctx -> streaming_ok data
      (mkStreaming (mkReadGen c off' sz') (Some rd)) (sub data (mkRange off sz)) (rounds sz')) as Hok.
    { intros c Hc. split; simpl; [by rewrite Hc|]. exists (sub data r), n. by rewrite <- Hsub. }
    destruct rp as [md|]; simpl; eexists; split; try done; right; exists (rounds sz'); split_and!; try done;
      by apply Hok.
  - destruct Hn as (-> & -> & ->). simpl. eexists; split; [done|]. left. split_and!; [done|done|].
    split; [done|]. exists [], 0. by split_and!.
Qed.

(** A call returns the next bytes, or the empty buffer at the end. *)
Definition read_spec (data : bytes) (next : M (StreamingReader R) Error Buffer)
    (s : StreamingReader R) (bs : bytes) (m : nat) : Prop :=
  exists buf s', next s = (Ok buf, s') /\ wf buf /\ (is_empty buf = true -> bs = []) /\
    exists bs' m', bs = contents buf ++ bs' /\ streaming_ok data s' bs' m' /\ m' <= m.

Lemma serve_reader_ok data f rec s bs m :
  (forall s bs m, sr_reader s = None -> streaming_ok data s bs m -> m < f -> read_spec data rec s bs m) ->
  streaming_ok data s bs m -> is_Some (sr_reader s) -> m < f -> read_spec data (serve_reader rec) s bs m.
Proof.
  intros Hrec (Hs & cur & n & -> & -> & Hr) [r Er] Hf. rewrite Er in Hr.
  unfold read_spec, serve_reader, mbind, M_bind, get, modify, lift, mret, M_ret. rewrite Er.
  inversion Hr as [? buf r' E Hb Hz|? buf r' bs' n' E Hb Hz Hr'|]; subst; [| |done]; rewrite E; unfold is_empty.
  - rewrite bool_decide_eq_true_2 by done. apply Hrec; [done | | done].
    split; [done|]. by exists [], 0.
  - rewrite bool_decide_eq_false_2 by done. do 2 eexists. split; [done|]. split; [done|].
    unfold is_empty. rewrite bool_decide_eq_false_2 by done. split; [done|].
    do 2 eexists. split; [symmetry; apply app_assoc|].
    split; [|done]. split; [done|]. by exists bs', n'.
Qed.

Lemma streaming_read_ok data fuel s bs m :
  serves_object data -> streaming_ok data s bs m ->
  m + (if bool_decide (sr_reader s = None) then 0 else 1) < fuel ->
  read_spec data (streaming_read fuel) s bs m.
Proof.
  intros Hd. revert s bs m. induction fuel as [|f IH]; intros s bs m Hok Hf; [lia|].
  assert (forall s bs m, sr_reader s = None -> streaming_ok data s bs m -> m < f ->
    read_spec data (streaming_read f) s bs m) as Hrec.
  { intros ? ? ? E ? ?. apply IH; [done|]. rewrite bool_decide_eq_true_2 by done. lia. }
  unfold read_spec. cbn [streaming_read]. unfold mbind, M_bind, get, mret, M_ret.
  case_bool_decide as Hr.
  - pose proof Hok as (Hs & cur & n & Hbs & Hm & Hc). rewrite Hr in Hc. subst cur. simpl in Hbs.
    rewrite Hbs in Hok. destruct (open_next_ok data s m Hd Hok Hr) as (s' & -> & [(Hz & Hn & Hend)|(m' & Hlt & Hsome & Hok')]).
    + unfold serve_reader, mbind, M_bind, get, mret, M_ret. rewrite Hn. do 2 eexists.
      split; [done|]. split; [done|]. rewrite Hbs, Hz. unfold sub. simpl. rewrite take_0.
      split; [done|]. exists [], 0. split_and!; [done|done|lia].
    + rewrite Hbs. destruct (serve_reader_ok data f _ s' _ m' Hrec Hok' Hsome ltac:(lia))
        as (buf & s2 & E & Hb & He & bs' & m2 & ? & ? & ?). exists buf, s2. split_and!; [done..|].
      exists bs', m2. split_and!; try done. lia.
  - apply (serve_reader_ok data f); [done | done | | lia]. by apply not_eq_None_Some.
Qed.

Lemma streaming_serves data fuel s bs m :
  serves_object data -> streaming_ok data s bs m -> m + 1 < fuel ->
  exists n, Serves (streaming_read fuel) true s bs n /\ n <= length bs.
Proof.
  intros Hd. remember (length bs) as k eqn:Hk.
  revert bs s m Hk. induction (lt_wf k) as [k _ IH]. intros bs s m -> Hok Hf.
  destruct (streaming_read_ok data fuel s bs m Hd Hok) as (buf & s' & E & Hb & He & bs' & m' & Hbs & Hok' & Hle).
  { case_bool_decide; lia. }
  destruct (decide (blen buf = 0)) as [Hz|Hz].
  - rewrite He by (by apply bool_decide_eq_true). exists 0. split; [by eapply Serves_end | simpl; lia].
  - subst bs. rewrite length_app, contents_length in * by done.
    destruct (IH (length bs') ltac:(lia) bs' s' m' eq_refl Hok' ltac:(lia)) as (n & Hn & Hlen).
    exists (S n). split; [by eapply Serves_more | lia].
Qed.

Lemma streaming_serves_range data ctx range fuel :
  serves_object data -> splittable (reader_chunk (rc_options ctx)) (Range.offset range) (Range.size range) ->
  rounds (Range.size range) + 1 < fuel -> length data < fuel ->
  exists buf s, collect_loop (streaming_read fuel) fuel [] (streaming_new ctx range) = (Ok buf, s) /\
    wf buf /\ contents buf = sub data range.
Proof.
  intros Hd Hs Hf Hl. destruct range as [off sz]. simpl in *.
  destruct (streaming_serves data fuel (streaming_new ctx (mkRange off sz)) (sub data (mkRange off sz)) (rounds sz))
    as (n & Hn & Hlen); [done | | done |].
  { split; [done|]. by exists [], 0. }
  assert (length (sub data (mkRange off sz)) <= length data) as Hsub.
  { unfold sub. simpl. destruct sz; rewrite ?length_take, length_drop; lia. }
  pose proof (collect_loop_ok _ _ _ _ _ fuel [] Hn qwf_nil ltac:(lia)) as Hc.
  destruct (collect_loop _ _ _ _) as [[buf|e|] s]; [|done|done]. destruct Hc as [Hb Hc].
  by exists buf, s.
Qed.

(** C4.  Streaming a range returns exactly the bytes of the range, in order,
    and ends: however the range is split into requests and however the service
    cuts its answers. *)
Theorem streaming_reads_range data ctx range fuel :
  serves_object data -> splittable (reader_chunk (rc_options ctx)) (Range.offset range) (Range.size range) ->
  rounds (Range.size range) + 1 < fuel -> length data < fuel ->
  exists buf s, collect_loop (streaming_read fuel) fuel [] (streaming_new ctx range) = (Ok buf, s) /\
    wf buf /\ contents buf = sub data range.
Proof. apply streaming_serves_range. Qed.

(** An error while opening loses the range: when the caller repeats the read,
    the stream reports its end, and the object reads as empty. *)
Theorem streaming_error_then_end ctx off e f :
  aread (read_with_range (mkRange off None) (rc_args ctx)) = Err e ->
  exists s, streaming_read (S f) (streaming_new ctx (mkRange off None)) = (Err e, s) /\
    streaming_read (S f) s = (Ok Buffer.new, s).
Proof.
  intros E. exists (mkStreaming (mkReadGen ctx off (Some 0%Z)) None). split; [|done].
  assert (open_next (streaming_new ctx (mkRange off None)) =
          (Err e, mkStreaming (mkReadGen ctx off (Some 0%Z)) None)) as Ho.
  { unfold open_next, next_reader, gen_next_range, zoom, mbind, M_bind, get, lift. simpl.
    cbn [rg_ctx]. by rewrite E. }
  cbn [streaming_read]. unfold mbind, M_bind, get. rewrite bool_decide_eq_true_2 by done.
  by rewrite Ho.
Qed.

End Streaming.

(** ** [ChunkedReader] *)

Record ChunkedReadInput (R : Type) : Type := mkChunkedInput {
  ci_range : BytesRange; ci_reader : option R;
}.
Arguments mkChunkedInput {R}.
Arguments ci_range {R}.
Arguments ci_reader {R}.

Record ChunkedReader (R : Type) : Type := mkChunked {
  ck_ctx : ReadContext;
  ck_offset : Z;
  ck_remaining : option Z;
  ck_opened : option (ChunkedReadInput R);
  ck_tasks : ConcurrentTasks (ChunkedReadInput R) Buffer;
  ck_done : bool;
}.
Arguments mkChunked {R}.
Arguments ck_ctx {R}.
Arguments ck_offset {R}.
Arguments ck_remaining {R}.
Arguments ck_opened {R}.
Arguments ck_tasks {R}.
Arguments ck_done {R}.

Section Chunked.
  Context {R : Type} `{Read R}.
  Implicit Types s : ChunkedReader R.

Definition ck_set_opened (v : option (ChunkedReadInput R)) s : ChunkedReader R :=
  mkChunked (ck_ctx s) (ck_offset s) (ck_remaining s) v (ck_tasks s) (ck_done s).
Definition ck_set_tasks (v : ConcurrentTasks (ChunkedReadInput R) Buffer) s : ChunkedReader R :=
  mkChunked (ck_ctx s) (ck_offset s) (ck_remaining s) (ck_opened s) v (ck_done s).
Definition ck_set_done s : ChunkedReader R :=
  mkChunked (ck_ctx s) (ck_offset s) (ck_remaining s) (ck_opened s) (ck_tasks s) true.

(** The task factory: read the opened reader, or open the range and read it. *)
Definition chunk_task (aread : OpRead -> result (option Metadata * R)) (args : OpRead) (fuel : nat)
    (input : ChunkedReadInput R) : ChunkedReadInput R * result Buffer :=
  match ci_reader input with
  | Some reader => (mkChunkedInput (ci_range input) None, (read_all fuel reader).1)
  | None =>
      (input, '(_, r) ← aread (read_with_range (ci_range input) args); (read_all fuel r).1)
  end.

Definition chunked_new (ctx : ReadContext) (range : BytesRange) : ChunkedReader R :=
  mkChunked ctx (Range.offset range) (Range.size range) None
    (tasks_new (reader_concurrent (rc_options ctx)) (reader_prefetch (rc_options ctx))) false.

Definition chunked_next_range : M (ChunkedReader R) Error (option BytesRange) := fun s =>
  let '(r, (off, rem)) := next_range (reader_chunk (rc_options (ck_ctx s))) (ck_offset s) (ck_remaining s) in
  (Ok r, mkChunked (ck_ctx s) off rem (ck_opened s) (ck_tasks s) (ck_done s)).

Definition chunked_prepare_metadata (aread : OpRead -> result (option Metadata * R))
  : M (ChunkedReader R) Error unit :=
  s ← get;
  match rc_metadata (ck_ctx s), ck_opened s with
  | None, None =>
      range ← chunked_next_range;
      match range with
      | Some range =>
          '(rp, reader) ← lift (aread (read_with_range range (rc_args (ck_ctx s))));
          match rp with
          | Some metadata =>
              modify (fun s => mkChunked (set_metadata metadata (ck_ctx s)) (ck_offset s)
                (ck_remaining s) (ck_opened s) (ck_tasks s) (ck_done s))
          | None => mret tt
          end;;
          modify (ck_set_opened (Some (mkChunkedInput range (Some reader))))
      | None => modify ck_set_done
      end
  | _, _ => mret tt
  end.

Definition chunked_metadata (aread : OpRead -> result (option Metadata * R))
  : M (ChunkedReader R) Error Metadata :=
  chunked_prepare_metadata aread;;
  s ← get;
  lift (ok_or (error Unsupported "read metadata is not available") (rc_metadata (ck_ctx s))).

(** The [while] loop of [read]: fill the free slots of the queue. *)
Fixpoint fill_tasks (await : ChunkedReadInput R -> ChunkedReadInput R * result Buffer) (fuel : nat)
  : M (ChunkedReader R) Error unit :=
  match fuel with
  | O => panic
  | S f =>
      s ← get;
      if has_remaining (ck_tasks s) && negb (ck_done s) then
        let submit input :=
          zoom ck_tasks ck_set_tasks (execute await input);;
          s ← get;
          if has_result (ck_tasks s) then mret tt else fill_tasks await f in
        match ck_opened s with
        | Some input => modify (ck_set_opened None);; submit input
        | None =>
            range ← chunked_next_range;
            match range with
            | Some range => submit (mkChunkedInput range None)
            | None => modify ck_set_done
            end
        end
      else mret tt
  end.

(** Each round takes a slot, so the number of slots bounds the rounds. *)
Definition slots (t : ConcurrentTasks (ChunkedReadInput R) Buffer) : nat := concurrent t + prefetch t.

Definition chunked_read (aread : OpRead -> result (option Metadata * R)) (fuel : nat)
  : M (ChunkedReader R) Error Buffer :=
  s ← get;
  let await := chunk_task aread (rc_args (ck_ctx s)) fuel in
  fill_tasks await (slots (ck_tasks s) + 2);;
  s ← get;
  let '(r, t) := Tasks.next await (ck_tasks s) in
  modify (ck_set_tasks t);;
  match r with
  | None => mret Buffer.new
  | Some r => lift r
  end.

(** *** Integrity *)

  Variable data : bytes.

(** An opened reader serves its range, or fails. *)
Definition good_input (fuel : nat) (i : ChunkedReadInput R) : Prop :=
  range_u64 (ci_range i) /\
  match ci_reader i with
  | None => True
  | Some r => exists n, n < fuel /\ Serves read_buf false r (sub data (ci_range i)) n
  end.
(** What the task of an input may return. *)
Definition chunk_of (i : ChunkedReadInput R) (buf : Buffer) : Prop :=
  wf buf /\ contents buf = sub data (ci_range i).

(** During this call the service serves [data], or fails. *)
Definition chunk_service (fuel : nat) (aread : OpRead -> result (option Metadata * R)) : Prop :=
  forall range args, range_u64 range ->
    match aread (read_with_range range args) with
    | Ok (_, r) => exists n, n < fuel /\ Serves read_buf false r (sub data range) n
    | Err _ => True
    | Panic => False
    end.

Lemma chunk_task_ok fuel aread args :
  chunk_service fuel aread -> await_ok chunk_of (good_input fuel) (chunk_task aread args fuel).
Proof.
  intros Hs i Hg. unfold chunk_task, outcome_ok. pose proof Hg as [Hu Hgood].
  destruct (ci_reader i) as [r|] eqn:Hr; simpl.
  - destruct Hgood as (n & Hn & Hserve). pose proof (read_all_ok false r _ n fuel Hserve Hn) as Ha.
    destruct (read_all fuel r).1 as [buf|e|]; [done | by split_and! | done].
  - specialize (Hs (ci_range i) args Hu).
    destruct (aread _) as [[rp r]|e|]; simpl; [|by apply stands_for_refl|done].
    destruct Hs as (n & Hn & Hserve). pose proof (read_all_ok false r _ n fuel Hserve Hn) as Ha.
    destruct (read_all fuel r).1 as [buf|e|]; [done | by apply stands_for_refl | done].
Qed.

(** The object covers what remains to be read. *)
Definition in_data (off : Z) (rem : option Z) : Prop :=
  match rem with Some n => (off + n <= Z.of_nat (length data))%Z | None => False end.

(** The bytes of an opened range that is not submitted yet. *)
Definition opened_bytes s : bytes := from_option (fun i => sub data (ci_range i)) [] (ck_opened s).

(** A queue that has not stopped: the submitted ranges, the opened one and what
    remains are the whole range, piece by piece, and no piece is empty. *)
Definition chunked_live (fuel : nat) (whole : bytes) (out : list Buffer) s : Prop :=
  errored (ck_tasks s) = false /\ 0 < concurrent (ck_tasks s) /\
  splittable (reader_chunk (rc_options (ck_ctx s))) (ck_offset s) (ck_remaining s) /\
  in_data (ck_offset s) (ck_remaining s) /\
  (ck_done s = true -> ck_opened s = None /\ ck_remaining s = Some 0%Z) /\
  from_option (fun i => good_input fuel i /\ sub data (ci_range i) <> []) True (ck_opened s) /\
  exists inputs, fifo chunk_of (good_input fuel) inputs out (ck_tasks s) /\
    Forall (fun i => sub data (ci_range i) <> []) inputs /\
    concat ((fun i => sub data (ci_range i)) <$> inputs) ++ opened_bytes s ++
      sub data (mkRange (ck_offset s) (ck_remaining s)) = whole.

(** A round of the loop: the next input, if any, leaves the rest. *)
Lemma next_input fuel whole out s r s1 :
  chunked_live fuel whole out s -> ck_opened s = None -> chunked_next_range s = (r, s1) ->
  ck_tasks s1 = ck_tasks s /\ ck_done s1 = ck_done s /\ ck_opened s1 = None /\ ck_ctx s1 = ck_ctx s /\
  match r with
  | Ok None => s1 = s /\ ck_remaining s = Some 0%Z
  | Ok (Some range) =>
      splittable (reader_chunk (rc_options (ck_ctx s))) (ck_offset s1) (ck_remaining s1) /\
      in_data (ck_offset s1) (ck_remaining s1) /\ range_u64 range /\ sub data range <> [] /\ ck_done s = false /\
      sub data (mkRange (ck_offset s) (ck_remaining s)) =
      sub data range ++ sub data (mkRange (ck_offset s1) (ck_remaining s1))
  | _ => False
  end.
Proof.
  intros (He & Hc & Hs & Hd & Hdone & _) Ho. unfold chunked_next_range.
  pose proof (next_range_spec _ _ _ Hs) as Hn.
  destruct (next_range _ (ck_offset s) (ck_remaining s)) as [[range|] [off' rem']] eqn:En;
    intros ?; simplify_eq; simpl; split_and!; try done.
  - by destruct Hn.
  - destruct (ck_remaining s) as [n|] eqn:Hrem; [|done]. unfold next_range in En.
    destruct Hn as ((_ & Hoff & _) & _). case_bool_decide; [done|]. simplify_eq. simpl in *.
    destruct Hs as (Hch & Ho0 & Hn0). unfold is_u64 in *.
    assert (wrap64 (ck_offset s + match reader_chunk (rc_options (ck_ctx s)) with
      | Some c => Z.min n (Z.of_nat c) | None => n end) = ck_offset s + match reader_chunk (rc_options (ck_ctx s)) with
      | Some c => Z.min n (Z.of_nat c) | None => n end)%Z as ->.
    { apply wrap64_id. unfold is_u64. destruct (reader_chunk _); lia. }
    lia.
  - by eapply next_range_u64.
  - destruct (ck_remaining s) as [n|] eqn:Hrem; [|done].
    destruct Hn as (_ & _ & _ & Ho' & Hsz). destruct range as [ro rs]. simpl in *.
    destruct rs as [m|]; [|done]. destruct Hsz as [Hm _]. subst ro. destruct Hs as (_ & Ho0 & _).
    unfold is_u64 in Ho0. unfold sub. simpl. intros Hnil. apply (f_equal length) in Hnil.
    rewrite length_take, length_drop in Hnil. simpl in Hnil. lia.
  - destruct (ck_done s) eqn:Hdn; [|done]. destruct (Hdone eq_refl) as [_ Hrem].
    rewrite Hrem in Hn. destruct Hn as (_ & Hlt & _). simpl in Hlt. lia.
  - by destruct Hn as (_ & _ & -> & _).
  - by destruct s; destruct Hn as (_ & -> & ->).
  - by destruct Hn.
Qed.

(** Submitting an input that has been taken off what remains. *)
Lemma submit_live fuel whole out s await i r t :
  await_ok chunk_of (good_input fuel) await -> good_input fuel i -> sub data (ci_range i) <> [] ->
  chunked_live fuel whole out (ck_set_opened (Some i) s) -> ck_opened s = None -> ck_done s = false ->
  execute await i (ck_tasks s) = (r, t) ->
  match r with
  | Ok _ => chunked_live fuel whole out (ck_set_tasks t s)
  | Err _ => True
  | Panic => False
  end.
Proof.
  intros Ha Hg Hne (He & Hc & Hs & Hd & Hdone & _ & inputs & Hf & Hall & Hw) Ho Hdn E. simpl in *.
  pose proof E as E'. eapply execute_inv in E; [|done..]. destruct r as [[]|e|]; [|done|done].
  destruct E as [Hf' He'].
  assert (concurrent t = concurrent (ck_tasks s)) as Hct.
  { by eapply execute_conf. }
  split_and!; simpl; try done; [lia | by rewrite Hdn | by rewrite Ho |].
  exists (inputs ++ [i]). split_and!; [done | apply Forall_app; by repeat constructor |].
  rewrite fmap_app, concat_app, <- Hw. unfold opened_bytes. simpl. rewrite Ho. simpl.
  by rewrite app_nil_r, <- app_assoc.
Qed.

(** What the filling loop leaves. *)
Definition filled (fuel : nat) (whole : bytes) (out : list Buffer) s (r : result unit) s' : Prop :=
  match r with
  | Ok _ => chunked_live fuel whole out s' /\ concurrent (ck_tasks s') = concurrent (ck_tasks s) /\
      (ck_done s' = true \/ has_remaining (ck_tasks s') = false \/ has_result (ck_tasks s') = true)
  | Err _ => is_concurrent (ck_tasks s) = false
  | Panic => False
  end.

Lemma fill_submit fuel whole out s await rec i r s' :
  await_ok chunk_of (good_input fuel) await -> good_input fuel i -> sub data (ci_range i) <> [] ->
  chunked_live fuel whole out (ck_set_opened (Some i) s) -> ck_opened s = None -> ck_done s = false ->
  has_remaining (ck_tasks s) = true ->
  (forall s1 r s', chunked_live fuel whole out s1 -> is_concurrent (ck_tasks s) = true ->
     concurrent (ck_tasks s1) = concurrent (ck_tasks s) -> slots (ck_tasks s1) = slots (ck_tasks s) ->
     length (tasks (ck_tasks s1)) = S (length (tasks (ck_tasks s))) ->
     rec s1 = (r, s') -> filled fuel whole out s1 r s') ->
  (zoom ck_tasks ck_set_tasks (execute await i);;
   s ← get; if has_result (ck_tasks s) then mret tt else rec) s = (r, s') ->
  filled fuel whole out s r s'.
Proof.
  intros Ha Hg Hne Hl Ho Hdn Hrem Hrec. unfold mbind, M_bind, zoom, get, mret, M_ret.
  destruct (execute await i (ck_tasks s)) as [r1 t] eqn:E. pose proof E as Ef.
  pose proof Hl as (He & _). simpl in He. apply execute_free in Ef as (Hc1 & Hp1 & Ef); [|done..].
  eapply submit_live in E; [|done..]. destruct (is_concurrent (ck_tasks s)) eqn:Hc.
  - destruct Ef as [-> Ht]. simpl. destruct (has_result t) eqn:Hres.
    { intros ?. simplify_eq. split_and!; auto. }
    intros Er. eapply Hrec in Er; [| exact E | done | done | | ].
    + unfold filled in *. simpl in Er. destruct r; [| |done].
      * destruct Er as (? & ? & ?). split_and!; [done | congruence | done].
      * unfold is_concurrent in *. rewrite Hc1 in Er. congruence.
    + unfold slots. simpl. lia.
    + simpl. rewrite Ht. simpl. rewrite length_app. simpl. lia.
  - destruct Ef as [Hres _]. destruct r1 as [[]|e|]; [| intros ?; by simplify_eq | done]. simpl.
    rewrite (Hres eq_refl). intros ?. simplify_eq. split_and!; auto.
Qed.

Lemma fill_tasks_ok fuel whole out await k s r s' :
  await_ok chunk_of (good_input fuel) await -> chunked_live fuel whole out s ->
  slots (ck_tasks s) - length (tasks (ck_tasks s)) + 2 <= k ->
  fill_tasks await k s = (r, s') -> filled fuel whole out s r s'.
Proof.
  intros Ha. revert s r s'. induction k as [|k IH]; intros s r s' Hl Hk; [lia|].
  cbn [fill_tasks]. unfold mbind at 1, M_bind at 1, get at 1.
  destruct (has_remaining (ck_tasks s)) eqn:Hrem; simpl.
  2: { unfold mret, M_ret. intros ?. simplify_eq. split_and!; auto. }
  destruct (ck_done s) eqn:Hdn; simpl.
  { unfold mret, M_ret. intros ?. simplify_eq. split_and!; auto. }
  assert (length (tasks (ck_tasks s)) < slots (ck_tasks s)) as Hlt.
  { unfold has_remaining in Hrem. apply bool_decide_eq_true in Hrem. unfold slots. lia. }
  assert (forall s0 s1 r s', ck_tasks s0 = ck_tasks s -> chunked_live fuel whole out s1 ->
     is_concurrent (ck_tasks s0) = true -> concurrent (ck_tasks s1) = concurrent (ck_tasks s0) ->
     slots (ck_tasks s1) = slots (ck_tasks s0) ->
     length (tasks (ck_tasks s1)) = S (length (tasks (ck_tasks s0))) ->
     fill_tasks await k s1 = (r, s') -> filled fuel whole out s1 r s') as Hrec.
  { intros s0 s1 r0 s0' E0 Hl1 _ _ Hs1 Hl2. apply IH; [done|]. rewrite Hs1, Hl2, E0. lia. }
  destruct (ck_opened s) as [i|] eqn:Ho.
  - unfold mbind at 1, M_bind at 1, modify at 1. intros E.
    pose proof Hl as (_ & _ & _ & _ & _ & Hopen & _). rewrite Ho in Hopen. destruct Hopen as [Hg Hne].
    assert (ck_set_opened (Some i) (ck_set_opened None s) = s) as Hs.
    { destruct s. simpl in *. by subst. }
    eapply (fill_submit fuel whole out (ck_set_opened None s)) in E; try done; [by rewrite Hs|].
    intros. by eapply (Hrec (ck_set_opened None s)).
  - unfold mbind at 1, M_bind at 1. destruct (chunked_next_range s) as [rr s1] eqn:En.
    pose proof En as Hn. eapply next_input in Hn as (Ht1 & Hd1 & Ho1 & Hc1 & Hn); [|done..].
    pose proof Hl as (He & Hcc & Hsp & Hin & Hdone & _ & inputs & Hf & Hall & Hw).
    destruct rr as [[range|]| |]; [| |done|done].
    + destruct Hn as (Hsp' & Hin' & Hu & Hne & _ & Hsub). intros E.
      eapply (fill_submit fuel whole out s1) in E; try done; try congruence.
      * unfold filled in *. rewrite Ht1 in E. done.
      * split_and!; simpl; try done; [congruence.. | | ].
        { by rewrite Hd1, Hdn. }
        exists inputs. split_and!; [congruence | done|]. unfold opened_bytes in *. simpl.
        rewrite Ho in Hw. simpl in Hw. by rewrite <- Hsub.
      * intros. by eapply (Hrec s1).
    + destruct Hn as [-> Hz]. unfold modify. intros ?. simplify_eq. split_and!; [|done|by left].
      split_and!; try done; [simpl; by rewrite Ho | by exists inputs].
Qed.

(** *** The history of a chunked reader *)

(** Reads that return a buffer or fail and are repeated (with concurrency), an
    open ahead for the metadata, chunks finishing in the background. *)
Inductive chunked_reach (fuel : nat) (ctx : ReadContext) (range : BytesRange)
  : list Buffer -> ChunkedReader R -> Prop :=
  | creach_new : chunked_reach fuel ctx range [] (chunked_new ctx range)
  | creach_read out s aread buf s' :
      chunked_reach fuel ctx range out s -> chunk_service fuel aread ->
      chunked_read aread fuel s = (Ok buf, s') -> blen buf <> 0 ->
      chunked_reach fuel ctx range (out ++ [buf]) s'
  | creach_err out s aread e s' :
      chunked_reach fuel ctx range out s -> chunk_service fuel aread ->
      1 < reader_concurrent (rc_options ctx) ->
      chunked_read aread fuel s = (Err e, s') ->
      chunked_reach fuel ctx range out s'
  | creach_open out s aread s' :
      chunked_reach fuel ctx range out s -> chunk_service fuel aread ->
      chunked_prepare_metadata aread s = (Ok tt, s') ->
      chunked_reach fuel ctx range out s'
  | creach_finish out s k r :
      chunked_reach fuel ctx range out s ->
      event_ok chunk_of (good_input fuel) (ck_tasks s) (Finish k r) ->
      chunked_reach fuel ctx range out (ck_set_tasks (finish k r (ck_tasks s)) s).

(** Live, or stopped for good. *)
Definition chunked_inv (fuel : nat) (whole : bytes) (c : nat) (out : list Buffer) s : Prop :=
  concurrent (ck_tasks s) = c /\ 0 < c /\
  (errored (ck_tasks s) = true \/ chunked_live fuel whole out s) /\
  exists rest, whole = concat (contents <$> out) ++ rest.

(** The outputs so far are the beginning of the range. *)
Lemma live_prefix fuel whole out s :
  chunked_live fuel whole out s ->
  (exists rest, whole = concat (contents <$> out) ++ rest) /\ Forall (fun buf => wf buf /\ blen buf <> 0) out.
Proof.
  intros (_ & _ & _ & _ & _ & _ & inputs & (i1 & i2 & i3 & -> & H1 & _) & Hall & <-).
  apply Forall_app in Hall as [Hall _].
  assert (concat (contents <$> out) = concat ((fun i => sub data (ci_range i)) <$> i1)) as ->.
  { clear Hall. induction H1 as [|i buf l k [_ Hb] _ IH]; csimpl; [done|]. by rewrite Hb, IH. }
  split; [rewrite fmap_app, concat_app, <- !app_assoc; eauto|].
  induction H1 as [|i buf l k [Hw Hb] _ IH]; constructor; inversion Hall; subst; auto.
  split; [done|]. rewrite <- contents_length, Hb by done. intros ?%nil_length_inv. done.
Qed.

(** A stopped queue fails every read and stays stopped. *)
Lemma chunked_read_errored aread fuel s r s' :
  errored (ck_tasks s) = true -> chunked_read aread fuel s = (r, s') ->
  exists e, r = Err e /\ errored (ck_tasks s') = true /\ concurrent (ck_tasks s') = concurrent (ck_tasks s).
Proof.
  intros He. unfold chunked_read.
  assert (forall await k s0 r0 s1, errored (ck_tasks s0) = true -> k <> 0 -> fill_tasks await k s0 = (r0, s1) ->
    (r0 = Ok tt \/ exists e, r0 = Err e) /\ ck_tasks s1 = ck_tasks s0) as Hfill.
  { intros await [|k] s0 r0 s1 He0 Hk; [done|]. cbn [fill_tasks].
    unfold chunked_next_range, execute, mbind, M_bind, get, zoom, modify, mret, M_ret, throw.
    destruct (_ && _); [|intros ?; simplify_eq; auto].
    destruct (ck_opened s0); simpl.
    - rewrite He0. intros ?. simplify_eq. destruct s0. simpl. eauto.
    - destruct (next_range _ _ _) as [[rg|] [off rem]]; simpl; rewrite ?He0; intros ?; simplify_eq;
        destruct s0; simpl; eauto. }
  unfold mbind, M_bind, get, modify, mret, M_ret, lift.
  destruct (fill_tasks _ _ s) as [r0 s1] eqn:E. apply Hfill in E as [[->|[e ->]] Ht]; [| |done|lia].
  - unfold Tasks.next. rewrite Ht, He. intros ?. simplify_eq. eexists. simpl. by rewrite ?Ht.
  - intros ?. simplify_eq. exists e. by rewrite Ht.
Qed.

Lemma chunked_read_inv fuel whole c out aread s r s' :
  chunk_service fuel aread -> chunked_inv fuel whole c out s -> chunked_read aread fuel s = (r, s') ->
  match r with
  | Ok buf => wf buf /\ if is_empty buf then whole = concat (contents <$> out)
              else chunked_inv fuel whole c (out ++ [buf]) s'
  | Err _ => 1 < c -> chunked_inv fuel whole c out s'
  | Panic => False
  end.
Proof.
  intros Hs (Hc & Hpos & [He|Hl] & Hpre) E.
  { apply chunked_read_errored in E as (e & -> & He' & Hc'); [|done]. intros _.
    split_and!; [congruence | done | by left | done]. }
  unfold chunked_read, mbind, M_bind, get, modify, lift, mret, M_ret in E.
  pose proof (chunk_task_ok fuel aread (rc_args (ck_ctx s)) Hs) as Ha.
  destruct (fill_tasks _ _ s) as [r1 s1] eqn:Ef.
  eapply fill_tasks_ok in Ef; [|exact Ha|exact Hl|lia].
  destruct r1 as [[]|e|]; [| |done].
  2: { simplify_eq. simpl in Ef. unfold is_concurrent in Ef. apply bool_decide_eq_false in Ef. lia. }
  destruct Ef as (Hl1 & Hcc1 & Hstop).
  pose proof Hl1 as (He1 & Hpos1 & Hsp & Hin & Hdone & Hop & inputs & Hf & Hall & Hw).
  destruct (Tasks.next _ (ck_tasks s1)) as [x t] eqn:En. pose proof En as Hn.
  destruct (next_conf _ _ _ _ En) as [Hct _].
  eapply next_inv in Hn; [|exact Ha|exact Hf|done].
  destruct x as [[buf|e|]|]; [| |done|].
  - injection E as <- <-. destruct Hn as [Hf' He'].
    assert (chunked_live fuel whole (out ++ [buf]) (ck_set_tasks t s1)) as Hl2.
    { split_and!; simpl; try done; [lia|]. by exists inputs. }
    destruct (live_prefix _ _ _ _ Hl2) as [Hpre2 Hne]. apply Forall_app in Hne as [_ Hne].
    inversion Hne as [|? ? [Hb Hz] _]; subst. split; [done|]. unfold is_empty.
    rewrite bool_decide_eq_false_2 by done. split_and!; [simpl; congruence | done | by right | done].
  - injection E as <- <-. intros Hgt. split_and!; [simpl; congruence | done | | done].
    destruct Hn as [?|Hf']; [by left|]. destruct (errored t) eqn:Het; [by left|]. right.
    split_and!; simpl; try done; [lia|]. by exists inputs.
  - injection E as <- <-. destruct Hn as (-> & Ht & Hr). split; [done|]. simpl.
    destruct Hstop as [Hd|[Hrem|Hres]].
    + destruct (Hdone Hd) as [Hno Hz]. unfold opened_bytes in Hw. rewrite Hno, Hz in Hw. simpl in Hw.
      unfold sub in Hw at 2. simpl in Hw. rewrite take_0, app_nil_r in Hw. rewrite <- Hw.
      destruct Hf as (i1 & i2 & i3 & -> & H1 & H2 & H3 & _). rewrite Ht, Hr in *.
      inversion H2; inversion H3; subst. rewrite !app_nil_r. clear -H1.
      induction H1 as [|i buf l k [_ Hb] _ IH]; csimpl; [done|]. by rewrite Hb, IH.
    + exfalso. unfold has_remaining in Hrem. apply bool_decide_eq_false in Hrem. rewrite Ht in Hrem.
      simpl in Hrem. lia.
    + exfalso. unfold has_result in Hres. rewrite Hr in Hres. done.
Qed.

Lemma chunked_open_inv fuel whole c out aread s s' :
  chunk_service fuel aread -> chunked_inv fuel whole c out s ->
  chunked_prepare_metadata aread s = (Ok tt, s') -> chunked_inv fuel whole c out s'.
Proof.
  intros Hs (Hc & Hpos & Hl & Hpre). unfold chunked_prepare_metadata, mbind, M_bind, get, lift, modify, mret, M_ret.
  destruct (rc_metadata (ck_ctx s)); [intros ?; by simplify_eq|].
  destruct (ck_opened s) as [i|] eqn:Ho; [intros ?; by simplify_eq|].
  destruct (chunked_next_range s) as [r1 s1] eqn:En.
  assert (ck_tasks s1 = ck_tasks s) as Ht1.
  { unfold chunked_next_range in En. destruct (next_range _ _ _) as [? [? ?]]. by simplify_eq. }
  destruct r1 as [[range|]|e|]; [| |done|done].
  2: { intros ?. simplify_eq. simpl. split_and!; [by simpl; rewrite Ht1 | done | | done]. simpl.
       destruct Hl as [?|Hl]; [left; by rewrite Ht1|]. right.
       eapply next_input in En as (_ & _ & Ho1 & _ & -> & Hz); [|done..].
       destruct Hl as (? & ? & ? & ? & ? & ? & inputs & ?). split_and!; try done. by exists inputs. }
  pose proof (Hs range (rc_args (ck_ctx s))) as Hserve.
  destruct (aread (read_with_range range (rc_args (ck_ctx s)))) as [[rp rd]|e|]; [|done|done].
  intros E. assert (exists ctx, rc_options ctx = rc_options (ck_ctx s1) /\
    s' = mkChunked ctx (ck_offset s1) (ck_remaining s1) (Some (mkChunkedInput range (Some rd))) (ck_tasks s1) (ck_done s1))
    as (ctx & Hctx & ->)
    by (destruct rp as [md|]; simplify_eq;
        [by exists (set_metadata md (ck_ctx s1)) | by exists (ck_ctx s1)]).
  split_and!; simpl; [by rewrite Ht1 | done | | done]. rewrite Ht1.
  destruct Hl as [?|Hl]; [by left|]. right.
  pose proof Hl as (He & Hcp & Hsp & Hin & Hdone & _ & inputs & Hf & Hall & Hw).
  eapply next_input in En as (_ & Hd1 & Ho1 & Hc1 & Hsp' & Hin' & Hu & Hne & Hdn & Hsub); [|done..].
  split_and!; simpl; rewrite ?Ht1, ?Hctx, ?Hc1; try done;
    [by rewrite Hd1, Hdn | by split; [split; [|apply Hserve]|] |].
  exists inputs. split_and!; [done | done |]. unfold opened_bytes in *. simpl. rewrite Ho in Hw.
  simpl in Hw. by rewrite <- Hsub.
Qed.

Lemma chunked_reach_inv fuel ctx range out s :
  chunked_reach fuel ctx range out s -> 0 < reader_concurrent (rc_options ctx) ->
  splittable (reader_chunk (rc_options ctx)) (Range.offset range) (Range.size range) ->
  in_data (Range.offset range) (Range.size range) ->
  chunked_inv fuel (sub data range) (reader_concurrent (rc_options ctx)) out s.
Proof.
  intros Hr Hpos Hsp Hin.
  induction Hr as [|out s ar buf s' _ IH Hs E Hz|out s ar e s' _ IH Hs Hgt E|out s ar s' _ IH Hs E|out s k r _ IH Hok].
  - split_and!; [done | done | right | by eexists].
    split_and!; try done. exists []. split_and!; [by apply fifo_idle | by constructor | by destruct range].
  - eapply chunked_read_inv in E as [_ E]; [|done..]. unfold is_empty in E.
    by rewrite bool_decide_eq_false_2 in E by done.
  - eapply chunked_read_inv in E; [|done..]. auto.
  - by eapply chunked_open_inv.
  - destruct IH as (Hc & _ & Hl & Hpre).
    assert (forall t, concurrent (finish k r t) = concurrent t /\ errored (finish k r t) = errored t) as Hfin.
    { intros t. unfold finish. by destruct (tasks t !! k) as [[i [r'|]]|]. }
    destruct (Hfin (ck_tasks s)) as [Hf1 Hf2].
    split_and!; simpl; [congruence | done | | done]. rewrite Hf2. destruct Hl as [?|Hl]; [by left|right].
    destruct Hl as (? & ? & ? & ? & ? & ? & inputs & Hf & ?).
    split_and!; simpl; rewrite ?Hf1, ?Hf2; try done. exists inputs. split_and!; try done; [|apply H6..].
    by apply finish_inv.
Qed.

(** C3.  Chunked reading returns the range in order, whatever the schedule: at
    every moment the buffers returned so far are the beginning of the range,
    reads that fail and are repeated (with concurrency above one) lose nothing,
    an empty buffer is returned only when the whole range has been, and no read
    panics. *)
Theorem chunked_reads_range fuel ctx range out s aread r s' :
  chunked_reach fuel ctx range out s -> 0 < reader_concurrent (rc_options ctx) ->
  splittable (reader_chunk (rc_options ctx)) (Range.offset range) (Range.size range) ->
  in_data (Range.offset range) (Range.size range) ->
  chunk_service fuel aread -> chunked_read aread fuel s = (r, s') ->
  (exists rest, sub data range = concat (contents <$> out) ++ rest) /\
  match r with
  | Ok buf => wf buf /\
      if is_empty buf then sub data range = concat (contents <$> out)
      else exists rest, sub data range = concat (contents <$> out) ++ contents buf ++ rest
  | Err _ => True
  | Panic => False
  end.
Proof.
  intros Hr Hpos Hsp Hin Hs E. pose proof (chunked_reach_inv _ _ _ _ _ Hr Hpos Hsp Hin) as Hi.
  split; [apply Hi|]. eapply chunked_read_inv in E; [|done..].
  destruct r as [buf|e|]; [|done|done]. destruct E as [Hb E]. split; [done|].
  destruct (is_empty buf); [done|]. destruct E as (_ & _ & _ & rest & E). exists rest.
  by rewrite fmap_app, concat_app, <- app_assoc in E; simpl in E; rewrite app_nil_r in E.
Qed.

End Chunked.

(** ** Witnesses *)

(** An object store that is up or down. *)
Definition store_read (up : bool) (data : bytes) (op : OpRead) : result (option Metadata * Buffer) :=
  if up then Ok (None, from_bytes (sub data (read_range op)))
  else Err (set_temporary (error Unexpected "down")).

Lemma store_serves data : serves_object (store_read true data) data.
Proof.
  intros range args. destruct (Buffer_serves (from_bytes (sub data range)) I) as (n & _ & Hn).
  by exists None, (from_bytes (sub data range)), n.
Qed.
Lemma Serves_weaken {T} (next : M T Error Buffer) r bs n : Serves next true r bs n -> Serves next false r bs n.
Proof. induction 1; [by eapply Serves_end | by eapply Serves_more | done]. Qed.
Lemma store_chunks up data fuel : 1 < fuel -> chunk_service data fuel (store_read up data).
Proof.
  intros Hf range args. destruct up; simpl; [|done].
  destruct (Buffer_serves (from_bytes (sub data range)) I) as (n & Hle & Hn).
  exists n. split; [lia|]. by apply Serves_weaken.
Qed.

Definition sample_data : bytes := [x01; x02; x03; x04; x05].
Definition sample_ctx (chunk : option nat) (concurrent : nat) : ReadContext :=
  mkReadContext op_read (mkOpReader concurrent chunk None 0 None) None.

Lemma streaming_reads_range_witness :
  exists buf s, collect_loop (streaming_read (store_read true sample_data) 9) 9 []
      (streaming_new (sample_ctx (Some 2) 1) (mkRange 1 (Some 3%Z))) = (Ok buf, s) /\
    wf buf /\ contents buf = [x02; x03; x04].
Proof.
  apply (streaming_reads_range (store_read true sample_data) sample_data); [apply store_serves | | |].
  - unfold splittable, is_u64, u64_max. simpl. split_and!; done || lia.
  - vm_compute. lia.
  - vm_compute. lia.
Defined.

Definition sample_chunked1 : ChunkedReader Buffer :=
  (chunked_read (store_read false sample_data) 4 (chunked_new (sample_ctx (Some 2) 2) (mkRange 0 (Some 5%Z)))).2.
Definition sample_chunked2 : ChunkedReader Buffer :=
  (chunked_read (store_read true sample_data) 4 sample_chunked1).2.
(** A first read while the service is down, repeated when it is up. *)
Lemma sample_chunked_reach : exists buf, contents buf = [x01; x02] /\
  chunked_reach sample_data 4 (sample_ctx (Some 2) 2) (mkRange 0 (Some 5%Z)) [buf] sample_chunked2.
Proof.
  exists (from_parts [[x01; x02]]). split; [done|].
  apply (creach_read sample_data 4 _ _ [] sample_chunked1 (store_read true sample_data));
    [|apply store_chunks; lia|vm_compute; reflexivity|done].
  eapply (creach_err sample_data 4 _ _ [] (chunked_new _ _) (store_read false sample_data));
    [constructor|apply store_chunks; lia|simpl; lia|vm_compute; reflexivity].
Qed.

Lemma chunked_reads_range_witness :
  exists buf rest, (chunked_read (store_read true sample_data) 4 sample_chunked2).1 = Ok buf /\
    sample_data = [x01; x02] ++ contents buf ++ rest.
Proof.
  destruct sample_chunked_reach as (b0 & Hb0 & Hr).
  destruct (chunked_read (store_read true sample_data) 4 sample_chunked2) as [r s'] eqn:E. pose proof E as E'.
  apply (chunked_reads_range sample_data 4 (sample_ctx (Some 2) 2) (mkRange 0 (Some 5%Z)) [b0] sample_chunked2
    _ r s' Hr) in E' as [_ E'];
    [|simpl; lia|unfold splittable, is_u64, u64_max; simpl; split_and!; done || lia|simpl; lia|apply store_chunks; lia].
  vm_compute in E. injection E as <- _. destruct E' as [_ [rest E']]. simpl in E'. rewrite Hb0 in E'.
  eexists _, rest. split; [reflexivity|]. exact E'.
Defined.

(** Without concurrency a failed chunk is lost: the range is taken before the
    request, so the read that follows the error returns the second chunk. *)
Theorem chunked_sequential_error_skips :
  let s0 := chunked_new (sample_ctx (Some 2) 1) (mkRange 0 (Some 5%Z)) in
  exists e s1 buf, chunked_read (store_read false sample_data) 4 s0 = (Err e, s1) /\ is_temporary e = true /\
    (chunked_read (store_read true sample_data) 4 s1).1 = Ok buf /\ contents buf = [x03; x04].
Proof. do 3 eexists. split_and!; [vm_compute; reflexivity | done | vm_compute; reflexivity | done]. Qed.

(** A chunk size of zero, which the options of [reader_with] and [read_with]
    pass on, makes every object read as empty. *)
Theorem chunked_zero_chunk_reads_nothing :
  exists buf, (chunked_read (store_read true sample_data) 4
    (chunked_new (sample_ctx (Some 0) 2) (mkRange 0 (Some 5%Z)))).1 = Ok buf /\ is_empty buf = true.
Proof. eexists. split; [vm_compute; reflexivity | done]. Qed.
