(* ===== verification/Fetch.v ===== *)
(** * Fetching many ranges ([types/read/reader.rs]: [Reader::fetch], [merge_ranges])

    [fetch] merges ranges that lie close to each other, reads the merged ranges
    concurrently, and cuts the answers to the ranges that were asked for.

    [sort_unstable_by_key] may order ranges with equal starts as it likes: [sort]
    is any function that returns a permutation sorted by start. *)

From S2P Require Import Prelude Errors Path Range Buffer Types Tasks Readers.
From Stdlib Require Import Sorted.
From stdpp Require Import options.
Local Open Scope Z_scope.

(** [Range<u64>]. *)
Record Rng : Type := mkRng { r_start : Z; r_end : Z }.

Section Merge.
  Variable sort : list Rng -> list Rng.

Fixpoint merge_loop (gap : Z) (cur : Rng) (rest : list Rng) : list Rng :=
  match rest with
  | [] => [cur]
  | range :: rest' =>
      if bool_decide (r_start range <= wrap64 (r_end cur + gap))
      then merge_loop gap (mkRng (r_start cur) (Z.max (r_end cur) (r_end range))) rest'
      else cur :: merge_loop gap range rest'
  end.

(** [ranges[0]] panics on an empty vector. *)
Definition merge_ranges (options : OpReader) (ranges : list Rng) : result (list Rng) :=
  let gap := Z.of_nat (default (Z.to_nat (1024 * 1024)) (reader_gap options)) in
  match sort ranges with
  | [] => Panic
  | cur :: rest => Ok (merge_loop gap cur rest)
  end.

(** [slice::partition_point] of a partitioned slice. *)
Fixpoint partition_point {A} (p : A -> bool) (l : list A) : nat :=
  match l with [] => 0 | x :: l' => if p x then S (partition_point p l') else 0%nat end.

(** The cut of one requested range. *)
Definition cut_range (merged : list Rng) (bufs : list Buffer) (range : Rng) : result Buffer :=
  match partition_point (fun v => bool_decide (r_start v <= r_start range)) merged with
  | O => Panic
  | S idx =>
      m ← expect (merged !! idx);
      buf ← expect (bufs !! idx);
      slice buf (Included (wrap64 (r_start range - r_start m)))
        (Excluded (wrap64 (r_end range - r_start m)))
  end.

Fixpoint cut_ranges (merged : list Rng) (bufs : list Buffer) (ranges : list Rng)
  : result (list Buffer) :=
  match ranges with
  | [] => Ok []
  | range :: rest =>
      buf ← cut_range merged bufs range; bs ← cut_ranges merged bufs rest; Ok (buf :: bs)
  end.

Fixpoint submit_all {I O} (await : I -> I * result O) (inputs : list I)
  : M (ConcurrentTasks I O) Error unit :=
  match inputs with
  | [] => mret tt
  | i :: rest => execute await i;; submit_all await rest
  end.

(** [read] is [reader.read(range)] as it answers during the call. *)
Definition fetch (options : OpReader) (read : Rng -> result Buffer) (ranges : list Rng)
  : result (list Buffer) :=
  match ranges with
  | [] => Ok []
  | _ =>
      merged ← merge_ranges options ranges;
      let await range := (range, read range) in
      let '(r, t) := submit_all await merged (tasks_new (reader_concurrent options) (reader_prefetch options)) in
      _ ← r;
      let '(r, (bufs, _)) := drain_tasks (S (outstanding t)) await ([], t) in
      _ ← r;
      cut_ranges merged bufs ranges
  end.

(** ** Merging *)

Definition rng_ok (gap : Z) (r : Rng) : Prop :=
  0 <= r_start r <= r_end r /\ r_end r + gap <= u64_max.

(** [outer] contains [inner]. *)
Definition contains (outer inner : Rng) : Prop :=
  r_start outer <= r_start inner /\ r_end inner <= r_end outer.

(** Ranges in order, each ending before the next begins. *)
Inductive separated : list Rng -> Prop :=
  | separated_nil : separated []
  | separated_cons r l : r_start r <= r_end r -> Forall (fun r' => r_end r < r_start r') l ->
      separated l -> separated (r :: l).

Lemma merge_loop_spec gap cur rest :
  0 <= gap -> rng_ok gap cur -> Forall (rng_ok gap) rest ->
  Forall (fun r => r_start cur <= r_start r) rest -> StronglySorted (fun a b => r_start a <= r_start b) rest ->
  let out := merge_loop gap cur rest in
  separated out /\ Forall (fun m => r_start cur <= r_start m) out /\ Forall (rng_ok gap) out /\
  (forall r, r = cur \/ r ∈ rest -> exists m, m ∈ out /\ contains m r) /\
  (forall hi, r_end cur <= hi -> Forall (fun r => r_end r <= hi) rest -> Forall (fun m => r_end m <= hi) out).
Proof.
  intros Hgap. revert cur. induction rest as [|r rest IH]; intros cur Hcur Hall Hge Hsort; simpl.
  { split_and!.
    - constructor; [apply Hcur | constructor | constructor].
    - by apply Forall_singleton.
    - by apply Forall_singleton.
    - intros r [->|Hr]; [|by apply elem_of_nil in Hr]. exists cur. split; [by left | done].
    - intros hi Hhi _. by apply Forall_singleton. }
  inversion Hall as [|? ? Hr Hall']; inversion Hge as [|? ? Hger Hge']; inversion Hsort as [|? ? Hsort' Hfor]; subst.
  destruct Hcur as [Hc1 Hc2], Hr as [Hr1 Hr2].
  assert (wrap64 (r_end cur + gap) = r_end cur + gap) as Hw by (apply wrap64_id; unfold is_u64; lia).
  rewrite Hw. case_bool_decide as Hm.
  - destruct (IH (mkRng (r_start cur) (Z.max (r_end cur) (r_end r)))) as (H1 & H2 & H3 & H4 & H5); try done.
    { split; simpl; lia. }
    split_and!; try done.
    + intros x [->|[->|Hx]%elem_of_cons].
      * destruct (H4 _ (or_introl eq_refl)) as (m & Hm1 & Hm2). exists m. split; [done|].
        unfold contains in *; simpl in *; lia.
      * destruct (H4 _ (or_introl eq_refl)) as (m & Hm1 & Hm2). exists m. split; [done|].
        unfold contains in *; simpl in *; lia.
      * apply H4. by right.
    + intros hi Hhi Hf. inversion Hf; subst. apply H5; [simpl; lia | done].
  - destruct (IH r) as (H1 & H2 & H3 & H4 & H5); try done.
    split_and!.
    + constructor; [lia | | done]. eapply Forall_impl; [exact H2|]. simpl. intros; lia.
    + constructor; [lia|]. eapply Forall_impl; [exact H2|]. simpl. intros; lia.
    + by constructor.
    + intros x [->|Hx]; [exists cur; split; [by left | done]|].
      destruct (H4 x) as (m & Hm1 & Hm2); [by apply elem_of_cons in Hx as [->|?]; auto|].
      exists m. split; [by right | done].
    + intros hi Hhi Hf. inversion Hf; subst. constructor; [done|]. by apply H5.
Qed.

(** The point found in a merged list is the range that contains the request. *)
Lemma partition_point_spec merged m r :
  separated merged -> m ∈ merged -> contains m r -> r_start r <= r_end r ->
  exists idx, partition_point (fun v => bool_decide (r_start v <= r_start r)) merged = S idx /\
    merged !! idx = Some m.
Proof.
  induction 1 as [|x l Hx Hall Hsep IH]; intros Hm Hc Hr; [by apply elem_of_nil in Hm|]. simpl.
  apply elem_of_cons in Hm as [->|Hm].
  - rewrite bool_decide_eq_true_2 by apply Hc. exists 0%nat. split; [|done]. f_equal.
    destruct l as [|y l]; [done|]. simpl. inversion Hall; subst.
    rewrite bool_decide_eq_false_2; [done|]. unfold contains in Hc. lia.
  - rewrite Forall_forall in Hall. specialize (Hall m Hm). unfold contains in Hc.
    rewrite bool_decide_eq_true_2 by lia. destruct (IH Hm Hc Hr) as (idx & -> & Hidx).
    by exists (S idx).
Qed.

(** ** Reading the merged ranges *)

Lemma submit_all_healthy {I O} (P : I -> Prop) (R : I -> O -> Prop) await inputs acc (t : ConcurrentTasks I O) :
  healthy P await t -> await_ok R P await -> fifo R P acc [] t -> Forall P inputs ->
  exists t', submit_all await inputs t = (Ok tt, t') /\ healthy P await t' /\
    fifo R P (acc ++ inputs) [] t'.
Proof.
  intros Hh Ha Hf Hall. revert acc t Hh Hf. induction Hall as [|i inputs Hi _ IH]; intros acc t Hh Hf.
  { exists t. by rewrite app_nil_r. }
  simpl. unfold mbind, M_bind. destruct (execute_healthy P await i t Hh Hi) as (t1 & E & Hh1). rewrite E.
  eapply execute_inv in E as [Hf1 _]; [|done|done|done|apply Hh].
  destruct (IH (acc ++ [i]) t1 Hh1 Hf1) as (t2 & -> & Hh2 & Hf2). exists t2.
  by rewrite <- app_assoc in Hf2.
Qed.

  Variable data : bytes.

(** The bytes of a range. *)
Definition piece (r : Rng) : bytes := sub data (mkRange (r_start r) (Some (r_end r - r_start r))).
Definition inside (r : Rng) : Prop := 0 <= r_start r <= r_end r /\ r_end r <= Z.of_nat (length data).
Definition is_piece (r : Rng) (buf : Buffer) : Prop := wf buf /\ contents buf = piece r.

Lemma piece_length r : inside r -> Z.of_nat (length (piece r)) = r_end r - r_start r.
Proof.
  intros [H1 H2]. unfold piece, sub. simpl. rewrite length_take, length_drop. lia.
Qed.

(** Cutting a piece out of a bigger piece. *)
Lemma cut_piece m r buf :
  inside m -> inside r -> contains m r -> is_piece m buf -> r_end m <= u64_max ->
  exists buf', slice buf (Included (wrap64 (r_start r - r_start m))) (Excluded (wrap64 (r_end r - r_start m)))
    = Ok buf' /\ is_piece r buf'.
Proof.
  intros Hm Hr [Hc1 Hc2] [Hb Hp] Hmax. pose proof (piece_length m Hm) as Hlen.
  destruct Hm as [Hm1 Hm2], Hr as [Hr1 Hr2].
  rewrite !wrap64_id by (unfold is_u64; lia).
  assert (Z.of_nat (blen buf) = r_end m - r_start m) as Hbl by (by rewrite <- contents_length, Hp).
  destruct (slice_ok buf (Z.to_nat (r_start r - r_start m)) (Z.to_nat (r_end r - r_start m)))
    as (buf' & E & Hw & Hcon); [done | lia |].
  rewrite !Z2Nat.id in E by lia. exists buf'. split; [done|]. split; [done|]. rewrite Hcon, Hp.
  unfold piece, sub. simpl.
  rewrite skipn_firstn_comm, take_take, drop_drop. f_equal; [lia|]. f_equal. lia.
Qed.

  Hypothesis sort_perm : forall l, sort l ≡ₚ l.
  Hypothesis sort_sorted : forall l, StronglySorted (fun a b => r_start a <= r_start b) (sort l).

Lemma merge_ranges_spec options ranges :
  ranges <> [] ->
  let gap := Z.of_nat (default (Z.to_nat (1024 * 1024)) (reader_gap options)) in
  Forall (fun r => inside r /\ r_end r + gap <= u64_max) ranges ->
  exists merged, merge_ranges options ranges = Ok merged /\ separated merged /\
    Forall (fun m => inside m /\ r_end m <= u64_max) merged /\
    forall r, r ∈ ranges -> exists m, m ∈ merged /\ contains m r.
Proof using Type*.
  intros Hne gap Hall. unfold merge_ranges. fold gap.
  assert (Forall (fun r => inside r /\ r_end r + gap <= u64_max) (sort ranges)) as Hall'.
  { by rewrite sort_perm. }
  pose proof (sort_sorted ranges) as Hsorted. pose proof (sort_perm ranges) as Hperm.
  destruct (sort ranges) as [|cur rest]; [by apply Permutation_nil_l in Hperm|].
  inversion Hall' as [|? ? [Hc1 Hc2] Hrest]; inversion Hsorted as [|? ? Hs Hf]; subst.
  destruct (merge_loop_spec gap cur rest) as (H1 & H2 & H3 & H4 & H5); try done.
  - unfold gap. lia.
  - split; [apply Hc1 | done].
  - eapply Forall_impl; [exact Hrest|]. intros r [[? ?] ?]. by split.
  - exists (merge_loop gap cur rest). split_and!; [done | done | |].
    + assert (Forall (fun m => r_end m <= Z.of_nat (length data)) (merge_loop gap cur rest)) as H6.
      { apply H5; [apply Hc1|]. eapply Forall_impl; [exact Hrest|]. intros r [[? ?] ?]. done. }
      rewrite Forall_forall in *. intros m Hm. specialize (H3 m Hm). specialize (H6 m Hm).
      destruct H3 as [? ?]. unfold inside. unfold gap in *. simpl in H6. split_and!; lia.
    + intros r Hr. apply H4. rewrite <- Hperm in Hr. apply elem_of_cons in Hr as [->|?]; auto.
Qed.

(** C2.  Fetching returns, for each requested range and in the order of the
    request, exactly the bytes of that range, whatever the order, overlaps and
    distances of the ranges, the gap, and the concurrency. *)
Theorem fetch_correct options read ranges :
  let gap := Z.of_nat (default (Z.to_nat (1024 * 1024)) (reader_gap options)) in
  Forall (fun r => inside r /\ r_end r + gap <= u64_max) ranges ->
  (forall r, inside r -> exists buf, read r = Ok buf /\ is_piece r buf) ->
  exists bufs, fetch options read ranges = Ok bufs /\ Forall2 is_piece ranges bufs.
Proof using Type*.
  intros gap Hall Hread. destruct (decide (ranges = [])) as [->|Hne]; [by exists []|].
  destruct (merge_ranges_spec options ranges Hne Hall) as (merged & Em & Hsep & Hin & Hcont).
  assert (fetch options read ranges = (
    let await range := (range, read range) in
    let '(r, t) := submit_all await merged (tasks_new (reader_concurrent options) (reader_prefetch options)) in
    _ ← r; let '(r, (bufs, _)) := drain_tasks (S (outstanding t)) await ([], t) in
    _ ← r; cut_ranges merged bufs ranges)) as ->.
  { unfold fetch. destruct ranges; [done|]. by rewrite Em. }
  cbv zeta. set (await := fun range => (range, read range)).
  assert (await_ok is_piece inside await) as Ha.
  { intros r Hr. destruct (Hread r Hr) as (buf & E & Hb). unfold outcome_ok, await. simpl. by rewrite E. }
  destruct (submit_all_healthy inside is_piece await merged []
    (tasks_new (reader_concurrent options) (reader_prefetch options))) as (t & -> & Hh & Hf); try done.
  { split_and!; try done. intros r Hr. destruct (Hread r Hr) as (buf & E & _).
    exists r, buf. unfold await. by rewrite E. }
  { by apply fifo_idle. }
  { eapply Forall_impl; [exact Hin|]. by intros m [? _]. }
  cbn [mbind outcome_bind]. destruct (drain_tasks _ await ([], t)) as [r2 [bufs t2]] eqn:E2.
  pose proof (drain_tasks_healthy _ (S (outstanding t)) _ [] _ Hh) as Hd. rewrite E2 in Hd. simpl in Hd.
  rewrite Hd in * by lia. clear Hd. cbn [mbind outcome_bind].
  eapply drain_tasks_inv in E2 as (_ & Hbufs & _); [|done|by right|lia].
  destruct (Hbufs eq_refl) as [Hbufs' _].
  assert (forall l, (forall r, r ∈ l -> r ∈ ranges) -> exists out, cut_ranges merged bufs l = Ok out /\ Forall2 is_piece l out)
    as Hcut; [|by apply Hcut].
  induction l as [|r l IH]; intros Hl; [by exists []|]. simpl.
  assert (r ∈ ranges) as Hr by (apply Hl; by left).
  destruct (Hcont r Hr) as (m & Hm & Hc). rewrite Forall_forall in Hall. destruct (Hall r Hr) as [Hri _].
  destruct (partition_point_spec merged m r Hsep Hm Hc) as (idx & Hpp & Hidx); [apply Hri|].
  destruct (Forall2_lookup_l _ _ _ _ _ Hbufs' Hidx) as (buf & Hbuf & Hpiece).
  rewrite Forall_forall in Hin. destruct (Hin m Hm) as [Hmi Hmx].
  destruct (cut_piece m r buf Hmi Hri Hc Hpiece Hmx) as (buf' & E & Hb').
  unfold cut_range. rewrite Hpp, Hidx, Hbuf. simpl. rewrite E. simpl.
  destruct IH as (out & -> & Hout); [intros; apply Hl; by right|]. simpl. eexists; split; [done|]. by constructor.
Qed.

End Merge.

(** ** Witness *)

(** Insertion sort by start. *)
Fixpoint insert_rng (r : Rng) (l : list Rng) : list Rng :=
  match l with
  | [] => [r]
  | x :: l' => if bool_decide (r_start r <= r_start x) then r :: l else x :: insert_rng r l'
  end.
Definition sort_rng (l : list Rng) : list Rng := foldr insert_rng [] l.

Lemma insert_rng_perm r l : insert_rng r l ≡ₚ r :: l.
Proof.
  induction l as [|x l IH]; simpl; [done|]. case_bool_decide; [done|]. rewrite IH. constructor.
Qed.
Lemma sort_rng_perm l : sort_rng l ≡ₚ l.
Proof. induction l as [|r l IH]; simpl; [done|]. by rewrite insert_rng_perm, IH. Qed.
Lemma sort_rng_sorted l : StronglySorted (fun a b => r_start a <= r_start b) (sort_rng l).
Proof.
  induction l as [|r l IH]; simpl; [constructor|]. induction IH as [|x l' Hs IHs Hall]; simpl.
  { constructor; constructor. }
  case_bool_decide as Hle.
  - constructor; [by constructor|]. constructor; [done|].
    eapply Forall_impl; [exact Hall|]. simpl. intros; lia.
  - constructor; [done|]. rewrite insert_rng_perm. constructor; [lia | done].
Qed.

Definition sample_read (r : Rng) : result Buffer := Ok (from_bytes (piece sample_data r)).

Lemma fetch_correct_witness :
  exists bufs, fetch sort_rng (mkOpReader 2 None (Some 1%nat) 0 None) sample_read [mkRng 3 5; mkRng 0 1; mkRng 0 4]
      = Ok bufs /\
    Forall2 (is_piece sample_data) [mkRng 3 5; mkRng 0 1; mkRng 0 4] bufs.
Proof.
  apply (fetch_correct sort_rng sample_data sort_rng_perm sort_rng_sorted).
  - unfold inside, u64_max. repeat constructor; simpl; lia.
  - intros r Hr. by eexists.
Defined.
