(* ===== verification/Retry.v ===== *)
(** * Retrying ([core/layers/retry/src/lib.rs])

    [RetryLayer] repeats calls that fail with a temporary error, and resumes a
    broken read where it stopped.  The repeating itself is the [backon] crate's
    [retry]: the class [Backon], with its documented behaviour [retry_run] as
    its law.  What the interceptor is told is kept as the list of events. *)

From S2P Require Import Prelude Errors Path Range Buffer Types Access Listers Readers.
From stdpp Require Import options.

(** ** [backon] *)

(** [retry_run when notify m k n s out]: from state [s], with [k] retries left,
    [m] is called until it succeeds, fails with an error not to be retried, or
    no retry is left; [notify] sees the error before each retry. *)
Inductive retry_run {T X N : Type} (when : Error -> bool) (notify : Error -> Z -> N -> N) (m : M T Error X)
  : nat -> N -> T -> result X * T * N -> Prop :=
  | run_done k n s r s' :
      m s = (r, s') -> match r with Err e => when e = false \/ k = 0 | _ => True end ->
      retry_run when notify m k n s (r, s', n)
  | run_again k n s e s' retry_after out :
      m s = (Err e, s') -> when e = true ->
      retry_run when notify m k (notify e retry_after n) s' out -> retry_run when notify m (S k) n s out.

(** [.retry(builder).when(when).context(s).notify(notify)]; [max_times] is the
    builder's. *)
Class Backon : Type := {
  max_times : nat;
  retry {T X N : Type} (when : Error -> bool) (notify : Error -> Z -> N -> N) (m : M T Error X)
    : N -> T -> result X * T * N;
  retry_law {T X N : Type} when notify (m : M T Error X) (n : N) s :
    retry_run when notify m max_times n s (retry when notify m n s);
}.

(** A retry that waits for a second each time, for the examples. *)
Fixpoint retry_times {T X N : Type} (when : Error -> bool) (notify : Error -> Z -> N -> N) (m : M T Error X)
    (k : nat) (n : N) (s : T) : result X * T * N :=
  match m s with
  | (Err e, s') =>
      match k with
      | O => (Err e, s', n)
      | S k' => if when e then retry_times when notify m k' (notify e 1%Z n) s' else (Err e, s', n)
      end
  | (r, s') => (r, s', n)
  end.
Lemma retry_times_run {T X N : Type} when notify (m : M T Error X) k (n : N) s :
  retry_run when notify m k n s (retry_times when notify m k n s).
Proof.
  revert n s. induction k as [|k IH]; intros n s; cbn [retry_times]; destruct (m s) as [[x|e|] s'] eqn:E;
    try (by apply run_done; auto).
  destruct (when e) eqn:Ew; [by eapply run_again | by apply run_done; auto].
Qed.
Definition backon_times (k : nat) : Backon :=
  {| max_times := k; retry T X N when notify m n s := retry_times when notify m k n s;
     retry_law T X N when notify m n s := retry_times_run when notify m k n s |}.

(** ** Retried calls *)

Record RetryEvent : Type := mkEvent { ev_op : Operation; ev_err : Error; ev_retry_after : Z; ev_attempt : nat }.

(** The counter of a call, and the events the interceptor has seen. *)
Abbreviation notified := (nat * list RetryEvent)%type.

Section Retrying.
  Context `{Backon}.

(** The closure given to [notify]: [attempt += 1; self.notify.intercept(..)]. *)
Definition intercept (op : Operation) (e : Error) (dur : Z) (n : notified) : notified :=
  let attempt := S n.1 in (attempt, n.2 ++ [mkEvent op e dur attempt]).

(** [.retry(self.builder).when(|e| e.is_temporary()).notify(..).await.map_err(set_persistent)]. *)
Definition retried {T X} (op : Operation) (m : M T Error X) : M (T * list RetryEvent) Error X := fun '(s, evs) =>
  let '(r, s', (_, evs')) := retry is_temporary (intercept op) m (0, evs) s in
  (map_err set_persistent r, (s', evs')).

(** *** What a retried call does *)

(** The failed attempts and the final one, in order. *)
Inductive attempts {T X} (m : M T Error X) : T -> list Error -> result X -> T -> Prop :=
  | attempts_last s r s' : m s = (r, s') -> attempts m s [] r s'
  | attempts_fail s e s' es r s'' :
      m s = (Err e, s') -> is_temporary e = true -> attempts m s' es r s'' -> attempts m s (e :: es) r s''.

Lemma retry_run_attempts {T X} op (m : M T Error X) k n s r s' n' :
  retry_run is_temporary (intercept op) m k n s (r, s', n') ->
  exists es, attempts m s es r s' /\ length es <= k /\
    (forall e, r = Err e -> is_temporary e = false \/ length es = k) /\
    exists evs, n' = (n.1 + length es, n.2 ++ evs) /\ ev_err <$> evs = es /\
      ev_attempt <$> evs = seq (1 + n.1) (length es) /\ Forall (fun ev => ev_op ev = op) evs.
Proof.
  intros Hr. remember (r, s', n') as out eqn:Eo. induction Hr as [k n s r0 s0 E Hd|k n s e s0 dur out E Hw Hr IH].
  - simplify_eq. exists []. split_and!; [by constructor | simpl; lia | |].
    { intros e ->. destruct Hd; [by left | right; simpl; lia]. }
    exists []. rewrite app_nil_r, Nat.add_0_r. split_and!; try done. by destruct n'.
  - destruct (IH Eo) as (es & Ha & Hlen & Hfin & evs & -> & He & Hat & Hop). exists (e :: es). split_and!.
    + by eapply attempts_fail.
    + simpl. lia.
    + intros e' He'. destruct (Hfin e' He'); [by left | right; simpl; lia].
    + exists (mkEvent op e dur (S n.1) :: evs). cbn [intercept fst snd fmap list_fmap ev_err ev_attempt length].
      split_and!; [|by rewrite He | |by constructor].
      * f_equal; [simpl; lia|]. by rewrite <- app_assoc.
      * by rewrite Hat.
Qed.

Lemma retried_spec {T X} op (m : M T Error X) s evs r s' evs' :
  retried op m (s, evs) = (r, (s', evs')) ->
  exists failed last, attempts m s failed last s' /\ r = map_err set_persistent last /\
    length failed <= max_times /\
    (forall e, last = Err e -> is_temporary e = true -> length failed = max_times) /\
    exists new, evs' = evs ++ new /\ ev_err <$> new = failed /\ ev_attempt <$> new = seq 1 (length failed) /\
      Forall (fun ev => ev_op ev = op) new.
Proof.
  unfold retried. pose proof (retry_law is_temporary (intercept op) m (0, evs) s) as Hl.
  destruct (retry _ _ _ _ _) as [[last s1] [c evs1]]. intros [= <- <- <-].
  apply retry_run_attempts in Hl as (es & Ha & Hlen & Hfin & new & [= _ ->] & He & Hat & Hop).
  exists es, last. split_and!; try done; [|by exists new]. intros e He' Ht. destruct (Hfin e He'); congruence.
Qed.

(** Attempts that reach a success are the ones that are made. *)
Lemma attempts_det {T X} (m : M T Error X) s failed x s1 failed' last s2 k :
  attempts m s failed (Ok x) s1 -> attempts m s failed' last s2 -> length failed <= k ->
  (forall e, last = Err e -> is_temporary e = true -> length failed' = k) ->
  last = Ok x.
Proof.
  intros Ha. revert k failed' last s2. remember (Ok x) as ok eqn:Eo.
  induction Ha as [s r s1 E|s e s' es r s1 E Ht Ha IH]; intros k failed' last s2 Hb Hk Hl;
    inversion Hb as [? ? ? E'|? e' ? es' ? ? E' Ht' Hb']; subst; rewrite E in E'; simplify_eq/=; try done.
  - specialize (Hl _ eq_refl Ht). lia.
  - destruct k as [|k]; [lia|]. eapply (IH eq_refl k); [done | lia |].
    intros e0 He0 Ht0. specialize (Hl e0 He0 Ht0). lia.
Qed.

(** A retried call makes at most [max_times + 1] attempts, each one but the
    last having failed with a temporary error; it returns what the last attempt
    returned, gives up on a temporary error only when no retry is left, and so
    succeeds whenever an attempt within the limit would; it tells the
    interceptor of every failed attempt, numbered from one. *)
Theorem retried_call {T X} op (m : M T Error X) s evs r s' evs' :
  retried op m (s, evs) = (r, (s', evs')) ->
  (exists failed last, attempts m s failed last s' /\ r = map_err set_persistent last /\
    length failed <= max_times /\
    (forall e, last = Err e -> is_temporary e = true -> length failed = max_times) /\
    exists new, evs' = evs ++ new /\ ev_err <$> new = failed /\ ev_attempt <$> new = seq 1 (length failed) /\
      Forall (fun ev => ev_op ev = op) new) /\
  (forall failed x s1, attempts m s failed (Ok x) s1 -> length failed <= max_times -> r = Ok x).
Proof.
  intros E. apply retried_spec in E as (failed & last & Ha & Hr & Hlen & Hl & Hev). split.
  - by exists failed, last.
  - intros failed' x s1 Ha' Hlen'. by rewrite Hr, (attempts_det m s failed' x s1 failed last s' max_times).
Qed.

(** Every error that leaves a retried call is marked persistent, which says it
    "used to be temporary", also one that is permanent and was never retried. *)
Theorem retried_marks_permanent {T X} op (m : M T Error X) s e s' :
  m s = (Err e, s') -> is_permanent e = true ->
  retried op m (s, []) = (Err (set_persistent e), (s', [])) /\ is_persistent (set_persistent e) = true.
Proof.
  intros E Hp. split; [|done]. unfold retried.
  pose proof (retry_law is_temporary (intercept op) m (0, []) s) as Hl.
  assert (is_temporary e = false) as Ht.
  { unfold is_temporary, is_permanent in *. apply bool_decide_eq_true in Hp. by rewrite Hp. }
  destruct (retry _ _ _ _ _) as [[r s1] [c evs1]].
  inversion Hl as [k n s0 r0 s2 E' Hd|k n s0 e' s2 dur out E' Hw]; rewrite E in E'; simplify_eq; [done | congruence].
Qed.

End Retrying.

Lemma retried_call_witness :
  let m : M nat Error nat := fun n => (if bool_decide (n = 2) then Ok 7
                                       else Err (set_temporary (error RateLimited "busy")), S n) in
  (@retried (backon_times 3) _ _ ORead m (0, [])).1 = Ok 7 /\
  exists failed last, attempts m 0 failed last 3 /\ length failed <= 3.
Proof.
  intros m. split; [reflexivity|].
  destruct (@retried_call (backon_times 3) _ _ ORead m 0 [] _ 3 _ ltac:(vm_compute; reflexivity))
    as [(failed & last & Ha & _ & Hlen & _) _]. by exists failed, last.
Defined.

(** ** Handles *)

Definition retry_bad_state : Error :=
  error Unexpected "retry layer is in bad state, please make sure future not dropped before ready".

(** [notify] and [builder] are the layer's; the wrapper keeps the events. *)
Record RetryWrapper (R : Type) : Type := mkRetryWrapper { rw_inner : option R; rw_events : list RetryEvent }.
Arguments mkRetryWrapper {R}.
Arguments rw_inner {R}.
Arguments rw_events {R}.

Definition wrapper_new {R} (inner : R) : RetryWrapper R := mkRetryWrapper (Some inner) [].

Section Wrapper.
  Context `{Backon}.

Definition take_inner {R} : M (RetryWrapper R) Error R := fun s =>
  match rw_inner s with
  | None => (Err retry_bad_state, s)
  | Some r => (Ok r, mkRetryWrapper None (rw_events s))
  end.

(** The body of every method: take the handle out, retry on it, put it back. *)
Definition on_inner {R X} (op : Operation) (m : M R Error X) : M (RetryWrapper R) Error X := fun s =>
  match take_inner s with
  | (Ok inner, s) =>
      let '(res, (inner, evs)) := retried op m (inner, rw_events s) in
      (res, mkRetryWrapper (Some inner) evs)
  | (Err e, s) => (Err e, s)
  | (Panic, s) => (Panic, s)
  end.

#[global] Instance RetryWrapper_Read {R} `{Read R} : Read (RetryWrapper R) := on_inner ORead read_buf.
#[global] Instance RetryWrapper_Write {W} `{Write W} : Write (RetryWrapper W) :=
  {| w_write bs := on_inner OWrite (w_write bs); w_close := on_inner OWrite w_close;
     w_abort := on_inner OWrite w_abort |}.
#[global] Instance RetryWrapper_List {L} `{List L} : List (RetryWrapper L) := on_inner OList list_next.
#[global] Instance RetryWrapper_Delete {D} `{Delete D} : Delete (RetryWrapper D) :=
  {| d_delete path args := on_inner ODelete (d_delete path args); d_close := on_inner ODelete d_close |}.
#[global] Instance RetryWrapper_Copy {C} `{Copy C} : Copy (RetryWrapper C) :=
  {| c_next := on_inner OCopy c_next; c_close := on_inner OCopy c_close; c_abort := on_inner OCopy c_abort |}.

Lemma on_inner_spec {R X} op (m : M R Error X) s evs r w' :
  on_inner op m (mkRetryWrapper (Some s) evs) = (r, w') ->
  exists failed last s', attempts m s failed last s' /\ r = map_err set_persistent last /\
    rw_inner w' = Some s' /\ length failed <= max_times /\
    (forall e, last = Err e -> is_temporary e = true -> length failed = max_times).
Proof.
  unfold on_inner, take_inner. cbn [rw_inner rw_events]. destruct (retried op m (s, evs)) as [r1 [s1 evs1]] eqn:E.
  intros Ho. simplify_eq. apply retried_spec in E as (failed & last & Ha & Hr & Hlen & Hl & _).
  by exists failed, last, s1.
Qed.

(** Collecting buffers can panic, but has no error to return. *)
Lemma flatten_no_err q e : flatten q <> Err e.
Proof.
  assert (forall buf e', Buffer.next buf <> Err e') as Hn.
  { intros [bs|parts sz ix off] e'; unfold Buffer.next, mbind, outcome_bind, expect, bslice; by repeat case_match. }
  assert (forall fuel buf e', drain fuel buf <> Err e') as Hd.
  { induction fuel as [|f IH]; intros buf e'; [done|]. cbn [drain]. unfold mbind, outcome_bind.
    specialize (Hn buf). destruct (Buffer.next buf) as [[[x|] buf']|e0|]; [|done|by destruct (Hn e0)|done].
    specialize (IH buf'). destruct (drain f buf') as [xs|e0|]; [done | by destruct (IH e0) | done]. }
  induction q as [|buf q IH]; [done|]. cbn [flatten]. unfold mbind, outcome_bind.
  specialize (Hd (drain_fuel buf) buf). fold (iterate buf) in Hd.
  destruct (iterate buf) as [xs|e0|]; [|by destruct (Hd e0)|done]. destruct (flatten q); congruence.
Qed.

(** A handle's call fails for good: [m] failed with an error not to be retried,
    or with temporary errors until no retry was left. *)
Definition gave_up {R X} (m : M R Error X) (e : Error) : Prop :=
  exists s failed e0 s', attempts m s failed (Err e0) s' /\ e = set_persistent e0 /\
    (is_temporary e0 = true -> length failed = max_times).

(** Reading through a wrapper fails only when one of its reads gave up. *)
Lemma collect_gave_up {R} (m : M R Error Buffer) fuel bufs r evs e w' :
  collect_loop (on_inner ORead m) fuel bufs (mkRetryWrapper (Some r) evs) = (Err e, w') -> gave_up m e.
Proof.
  revert bufs r evs. induction fuel as [|f IH]; intros bufs r evs; cbn [collect_loop]; [done|].
  unfold mbind, M_bind. destruct (on_inner _ _ _) as [ro [w1 evs1]] eqn:E.
  apply on_inner_spec in E as (failed & last & s' & Ha & Hr & Hw & _ & Hl). simpl in Hw. subst w1.
  destruct ro as [buf|e0|]; intros Hc; [|injection Hc as <- <-|done].
  - destruct (is_empty buf); [|by eapply IH]. unfold lift in Hc.
    by destruct (flatten bufs) eqn:Ef; simplify_eq/=; apply flatten_no_err in Ef.
  - destruct last as [|e1|]; simplify_eq/=. exists r, failed, e1, s'. split_and!; [done | done | by apply Hl].
Qed.

End Wrapper.

(** ** [RetryReader] *)

(** [rr_acc] is the service, which every retry may change. *)
Record RetryReader (A R : Type) : Type := mkRetryReader {
  rr_acc : A; rr_reader : option R; rr_path : str; rr_args : OpRead;
}.
Arguments mkRetryReader {A R}.
Arguments rr_acc {A R}.
Arguments rr_reader {A R}.
Arguments rr_path {A R}.
Arguments rr_args {A R}.

Section Reader.
  Context {A Rd Wr Ls Dl Cp : Type} `{Read Rd}.
  Variable inner : Access A Rd Wr Ls Dl Cp.

Definition retry_reader_new (acc : A) (path : str) (args : OpRead) (r : Rd) : RetryReader A Rd :=
  mkRetryReader acc (Some r) path args.

(** The arm [Some(mut reader)] of the loop: the reader is taken out, and put back
    only when it did not fail. *)
Definition read_open (reader : Rd) : M (RetryReader A Rd) Error Buffer := fun s =>
  let set r args := mkRetryReader (rr_acc s) r (rr_path s) args in
  match read_buf reader with
  | (Ok buf, reader) =>
      match Range.advance (read_range (rr_args s)) (Z.of_nat (blen buf)) with
      | Ok range => (Ok buf, set (Some reader) (read_with_range range (rr_args s)))
      | Err e => (Err e, set (Some reader) (rr_args s))
      | Panic => (Panic, set (Some reader) (rr_args s))
      end
  | (Err e, _) => (Err e, set None (rr_args s))
  | (Panic, _) => (Panic, set None (rr_args s))
  end.

(** The loop runs twice at most: after the arm [None] there is a reader. *)
Definition retry_reader_read : M (RetryReader A Rd) Error Buffer := fun s =>
  match rr_reader s with
  | Some reader => read_open reader s
  | None =>
      let '(r, acc) := a_read inner (rr_path s) (rr_args s) (rr_acc s) in
      let s := mkRetryReader acc None (rr_path s) (rr_args s) in
      match r with
      | Ok (_, reader) => read_open reader s
      | Err e => (Err e, s)
      | Panic => (Panic, s)
      end
  end.

#[local] Instance RetryReader_Read : Read (RetryReader A Rd) := retry_reader_read.

(** *** Resuming *)

  Variable data : bytes.

(** A service that may fail at any time, but when it answers serves the object:
    opening a range gives a reader of these bytes, which may fail on the way.
    The range may be empty: see [retry_at_end_panics]. *)
Definition flaky_service (path : str) (args : OpRead) : Prop := forall acc range,
  range_u64 range ->
  match (a_read inner path (read_with_range range args) acc).1 with
  | Ok (_, r) => exists n, Serves read_buf false r (sub data range) n
  | Err _ => True
  | Panic => False
  end.

(** The reader stands at [range]: what it will deliver is the rest. *)
Definition stands_at (path : str) (args : OpRead) (range : BytesRange) (s : RetryReader A Rd) : Prop :=
  rr_path s = path /\ rr_args s = read_with_range range args /\ range_u64 range /\
  (Range.offset range <= u64_max)%Z /\
  match rr_reader s with None => True | Some r => exists n, Serves read_buf false r (sub data range) n end.

Lemma sub_bound range bs rest :
  range_u64 range -> sub data range = bs ++ rest -> bs <> [] ->
  (Range.offset range + Z.of_nat (length bs) <= Z.of_nat (length data))%Z /\
  from_option (fun m => Z.of_nat (length bs) <= m)%Z True (Range.size range).
Proof.
  intros [Ho Hs] Hsub Hne. destruct bs as [|x bs]; [done|]. apply (f_equal length) in Hsub.
  destruct range as [o [m|]]; unfold sub in Hsub; simpl in *;
    rewrite ?length_take, ?length_drop, ?length_app in Hsub; split; try done; lia.
Qed.

(** Advancing by what was read leaves the rest. *)
Lemma sub_rest range bs rest :
  (Z.of_nat (length data) <= u64_max)%Z -> range_u64 range -> (Range.offset range <= u64_max)%Z ->
  sub data range = bs ++ rest ->
  exists range', Range.advance range (Z.of_nat (length bs)) = Ok range' /\ range_u64 range' /\
    (Range.offset range' <= u64_max)%Z /\ sub data range' = rest.
Proof.
  intros Hd Hu Hm Hsub.
  assert (Range.offset range + Z.of_nat (length bs) <= u64_max /\
    from_option (fun m => Z.of_nat (length bs) <= m) True (Range.size range))%Z as [Hb Hsz].
  { destruct (decide (bs = [])) as [->|Hne].
    - rewrite Z.add_0_r. split; [done|]. destruct Hu as [_ Hu]. by destruct (Range.size range).
    - destruct (sub_bound range bs rest Hu Hsub Hne) as [H1 H2]. split; [lia | done]. }
  destruct range as [o sz], Hu as [Ho Hs]. simpl in *. unfold Range.advance. simpl.
  rewrite checked_add_is by lia. simpl. destruct sz as [m|]; simpl in *.
  - assert (checked_sub m (Z.of_nat (length bs)) = Some (m - Z.of_nat (length bs))%Z) as ->
      by (apply checked_sub_Some; lia).
    simpl. eexists. split_and!; [done | split; simpl; lia | done |].
    unfold sub in *. simpl in *. rewrite Z2Nat.inj_add, Z2Nat.inj_sub, Nat2Z.id, <- drop_drop by lia.
    rewrite <- skipn_firstn_comm, Hsub. apply drop_app_exact.
  - eexists. split_and!; [done | by split; simpl; lia | done |]. unfold sub in *. simpl in *.
    rewrite Z2Nat.inj_add, Nat2Z.id, <- drop_drop, Hsub by lia. apply drop_app_exact.
Qed.

(** What one read does: the next bytes, or a failure that changes nothing. *)
Definition read_step (path : str) (args : OpRead) (range : BytesRange)
    (out : result Buffer * RetryReader A Rd) : Prop :=
  match out with
  | (Ok buf, s') => wf buf /\
      if bool_decide (blen buf = 0) then sub data range = []
      else exists range', stands_at path args range' s' /\ sub data range = contents buf ++ sub data range'
  | (Err e, s') => stands_at path args range s'
  | (Panic, _) => False
  end.

Lemma read_open_step path args range s reader n :
  (Z.of_nat (length data) <= u64_max)%Z ->
  stands_at path args range s -> Serves read_buf false reader (sub data range) n ->
  read_step path args range (read_open reader s).
Proof.
  intros Hd (Hp & Ha & Hu & Ho & _) Hs. unfold read_open. rewrite Ha. remember (sub data range) as bs eqn:Ebs.
  destruct Hs as [r buf r' E Hb Hz|r buf r' bs n E Hb Hz Hs|r e r' bs n _ E]; rewrite E; cbn [read_range read_with_range].
  - destruct (sub_rest range [] []) as (range' & Hadv & _); [done..|].
    rewrite Hz. change (Z.of_nat 0) with (Z.of_nat (length (@nil Byte.byte))). rewrite Hadv. split; [done|].
    rewrite bool_decide_eq_true_2 by done. done.
  - destruct (sub_rest range (contents buf) bs) as (range' & Hadv & Hu' & Ho' & Hr'); [done..|].
    rewrite contents_length in Hadv by done. rewrite Hadv. split; [done|].
    rewrite bool_decide_eq_false_2 by done. exists range'. split; [|by rewrite Hr'].
    split_and!; try done. exists n. by rewrite Hr'.
  - by split_and!.
Qed.

Lemma retry_reader_step path args range s :
  (Z.of_nat (length data) <= u64_max)%Z -> flaky_service path args -> stands_at path args range s ->
  read_step path args range (retry_reader_read s).
Proof.
  intros Hd Hf Hs. unfold retry_reader_read. destruct (rr_reader s) as [reader|] eqn:Er.
  - pose proof Hs as (_ & _ & _ & _ & Hr). rewrite Er in Hr. destruct Hr as [n Hr]. by eapply read_open_step.
  - destruct Hs as (Hp & Ha & Hu & Ho & _). specialize (Hf (rr_acc s) range Hu). rewrite Hp, Ha.
    destruct (a_read inner path _ _) as [[[rp reader]|e|] acc]; simpl in Hf; [| |done].
    + destruct Hf as [n Hf]. eapply read_open_step; [done | | exact Hf]. by split_and!.
    + by split_and!.
Qed.

(** Failed attempts leave the reader where it was. *)
Lemma attempts_step path args range s failed last s' :
  (Z.of_nat (length data) <= u64_max)%Z -> flaky_service path args -> stands_at path args range s ->
  attempts retry_reader_read s failed last s' -> read_step path args range (last, s').
Proof.
  intros Hd Hf Hs Ha. induction Ha as [s r s' E|s e s' es r s'' E Ht Ha IH];
    pose proof (retry_reader_step path args range s Hd Hf Hs) as Hst; rewrite E in Hst; [done|]. by apply IH.
Qed.

Lemma retry_wrapper_serves `{Backon} path args range s evs :
  (Z.of_nat (length data) <= u64_max)%Z -> flaky_service path args -> stands_at path args range s ->
  exists n, n <= length (sub data range) /\
    Serves (on_inner ORead retry_reader_read) false (mkRetryWrapper (Some s) evs) (sub data range) n.
Proof.
  intros Hd Hf. remember (length (sub data range)) as k eqn:Ek. revert range Ek s evs.
  induction (lt_wf k) as [k _ IH]. intros range Ek s evs Hs.
  destruct (on_inner ORead retry_reader_read (mkRetryWrapper (Some s) evs)) as [r [w' evs']] eqn:E.
  pose proof E as E'. apply on_inner_spec in E' as (failed & last & s' & Ha & Hr & Hw & _). simpl in Hw. subst w'.
  pose proof (attempts_step path args range s failed last s' Hd Hf Hs Ha) as Hst.
  destruct last as [buf|e|]; simpl in Hr; subst r; [| |done].
  - destruct Hst as [Hb Hst]. case_bool_decide as Hz.
    + exists 0. rewrite Hst. split; [lia|]. by eapply Serves_end.
    + destruct Hst as (range' & Hs' & Hsub). assert (length (sub data range') < k) as Hlt.
      { rewrite Ek, Hsub, length_app, contents_length by done. lia. }
      destruct (IH _ Hlt range' eq_refl s' evs' Hs') as (n & Hn & Hsv). exists (S n). split; [lia|].
      rewrite Hsub. by eapply Serves_more.
  - exists 0. split; [lia|]. by eapply Serves_fail.
Qed.

End Reader.

(** ** [RetryAccessor] *)

Section Layer.
  Context `{Backon} {A Rd Wr Ls Dl Cp : Type} `{Read Rd}.
  Variable inner : Access A Rd Wr Ls Dl Cp.

(** [.map(|(rp, r)| (rp, RetryWrapper::new(r, ..)))]. *)
Definition wrapping {R} (m : M (A * list RetryEvent) Error R) : M (A * list RetryEvent) Error (RetryWrapper R) :=
  fun s => let '(r, s') := m s in (wrapper_new <$> r, s').

Definition retry_read (path : str) (args : OpRead)
  : M (A * list RetryEvent) Error (option Metadata * RetryWrapper (RetryReader A Rd)) := fun s =>
  match retried ORead (a_read inner path args) s with
  | (Ok (rp, reader), (acc, evs)) => (Ok (rp, wrapper_new (retry_reader_new acc path args reader)), (acc, evs))
  | (Err e, s) => (Err e, s)
  | (Panic, s) => (Panic, s)
  end.

Definition retry_layer : Access (A * list RetryEvent) (RetryWrapper (RetryReader A Rd)) (RetryWrapper Wr)
                                (RetryWrapper Ls) (RetryWrapper Dl) (RetryWrapper Cp) :=
  {| a_info s := a_info inner s.1;
     a_create_dir path := retried OCreateDir (a_create_dir inner path);
     a_stat path args := retried OStat (a_stat inner path args);
     a_read := retry_read;
     a_write path args := wrapping (retried OWrite (a_write inner path args));
     a_delete := wrapping (retried ODelete (a_delete inner));
     a_list path args := wrapping (retried OList (a_list inner path args));
     a_copy from to args opts := wrapping (retried OCopy (a_copy inner from to args opts));
     a_rename from to := retried ORename (a_rename inner from to) |}.

#[local] Instance reader_of_layer : Read (RetryReader A Rd) := retry_reader_read inner.

(** A read that was opened stands at the range it was opened for. *)
Lemma retry_read_opens (data : bytes) path args st rp w st' :
  flaky_service inner data path args -> range_u64 (read_range args) -> (Range.offset (read_range args) <= u64_max)%Z ->
  a_read retry_layer path args st = (Ok (rp, w), st') ->
  exists s, w = wrapper_new s /\ stands_at data path args (read_range args) s.
Proof.
  intros Hf Hu Ho E. simpl in E. unfold retry_read in E. destruct st as [acc evs].
  destruct (retried ORead (a_read inner path args) (acc, evs)) as [[[rp' reader]|e|] [acc' evs']] eqn:Er; simplify_eq.
  apply retried_spec in Er as (failed & last & Ha & Hr & _).
  assert (read_with_range (read_range args) args = args) as Hargs by (by destruct args).
  exists (retry_reader_new acc' path args reader). split; [done|]. split_and!; try done. simpl.
  assert (last = Ok (rp, reader)) as El by (by destruct last; simplify_eq/=).
  clear Hr. induction Ha as [a r a' Ea|]; simplify_eq; [|by apply IHHa].
  specialize (Hf a (read_range args) Hu). rewrite Hargs, Ea in Hf. done.
Qed.

(** C5.  A read through the layer resumes where it broke off: however often the
    service fails while it is opened or read, reading to the end never repeats,
    skips or invents a byte: it ends, with exactly the requested bytes of the
    object, or with an error because one of the reads exhausted its retries or
    failed with an error that is not temporary. *)
Theorem retry_read_resumes (data : bytes) path args st rp w st' fuel :
  (Z.of_nat (length data) <= u64_max)%Z -> flaky_service inner data path args ->
  range_u64 (read_range args) -> (Range.offset (read_range args) <= u64_max)%Z ->
  a_read retry_layer path args st = (Ok (rp, w), st') -> length (sub data (read_range args)) < fuel ->
  match (read_all fuel w).1 with
  | Ok buf => contents buf = sub data (read_range args)
  | Err e => gave_up (retry_reader_read inner) e
  | Panic => False
  end.
Proof.
  intros Hd Hf Hu Ho E Hfuel. destruct (retry_read_opens data path args st rp w st' Hf Hu Ho E) as (s & -> & Hs).
  destruct (retry_wrapper_serves inner data path args _ _ [] Hd Hf Hs) as (n & Hn & Hsv).
  pose proof (read_all_ok false (wrapper_new s) _ n fuel Hsv ltac:(lia)) as Hall.
  destruct (read_all fuel _) as [[buf|e|] w'] eqn:Eall; simpl in *; [by destruct Hall | | done].
  by apply collect_gave_up in Eall.
Qed.

End Layer.

(** A reader that plays a script, and a service whose first reader breaks after
    one byte. *)
Definition ScriptReader : Type := list (result Buffer).
#[export] Instance ScriptReader_Read : Read ScriptReader := fun s =>
  match s with [] => (Ok Buffer.new, []) | r :: s' => (r, s') end.

Definition sample_data : bytes := [x01; x02; x03].
Definition busy : Error := set_temporary (error RateLimited "busy").
Definition breaking_access : Access nat ScriptReader unit unit unit unit :=
  {| a_info _ := info_default; a_create_dir _ := throw not_supported; a_stat _ _ := throw not_supported;
     a_read _ args n :=
       let bs := sub sample_data (read_range args) in
       (Ok (None, if bool_decide (n = 0) then [Ok (Contiguous (take 1 bs)); Err busy] else [Ok (Contiguous bs)]), S n);
     a_write _ _ := throw not_supported; a_delete := throw not_supported; a_list _ _ := throw not_supported;
     a_copy _ _ _ _ := throw not_supported; a_rename _ _ := throw not_supported |}.

Lemma script_serves (bs rest : bytes) (tail : ScriptReader) n :
  bs <> [] -> Serves read_buf false tail rest n ->
  Serves read_buf false (Ok (Contiguous bs) :: tail : ScriptReader) (bs ++ rest) (S n).
Proof.
  intros Hne Ht. change bs with (contents (Contiguous bs)) at 2. eapply Serves_more; [done | done | | exact Ht].
  simpl. by intros ?%nil_length_inv.
Qed.

Lemma breaking_flaky path : flaky_service breaking_access sample_data path op_read.
Proof.
  intros n range Hr. unfold breaking_access. cbn [a_read fst read_range read_with_range].
  destruct (sub sample_data range) as [|x bs] eqn:Eb.
  - exists 0. case_bool_decide; by eapply Serves_end.
  - case_bool_decide.
    + exists 1. change (x :: bs) with ([x] ++ bs). apply script_serves; [done|]. by eapply Serves_fail.
    + exists 1. pose proof (script_serves (x :: bs) [] [] 0) as Hss. rewrite app_nil_r in Hss.
      apply Hss; [done|]. by eapply Serves_end.
Qed.

Lemma retry_read_resumes_witness :
  let w := wrapper_new (retry_reader_new 1 [] op_read [Ok (Contiguous [x01]); Err busy]) in
  let out := (read_all (H := @RetryWrapper_Read (backon_times 3) _ (retry_reader_read breaking_access)) 4 w).1 in
  contents <$> out = Ok sample_data /\
  match out with
  | Ok buf => contents buf = sample_data
  | Err e => @gave_up (backon_times 3) _ _ (retry_reader_read breaking_access) e
  | Panic => False
  end.
Proof.
  intros w out. split; [vm_compute; reflexivity|].
  apply (@retry_read_resumes (backon_times 3) _ _ _ _ _ _ _ breaking_access sample_data [] op_read (0, []) None w (1, []));
    [simpl; unfold u64_max; lia | apply breaking_flaky | done | done | reflexivity | simpl; lia].
Defined.

(** A service that sends more than was asked makes [RetryReader] panic, where the checked reader inside would have reported it. *)
Theorem retry_reader_panics_on_excess {A Rd Wr Ls Dl Cp} `{Read Rd} (inner : Access A Rd Wr Ls Dl Cp)
    acc path args (reader reader' : Rd) buf n :
  Range.size (read_range args) = Some n -> (n < Z.of_nat (blen buf))%Z -> read_buf reader = (Ok buf, reader') ->
  (retry_reader_read inner (retry_reader_new acc path args reader)).1 = Panic.
Proof.
  intros Hn Hlt E. unfold retry_reader_read, retry_reader_new, read_open. simpl. rewrite E. unfold Range.advance.
  destruct (expect (checked_add _ _)) as [o|e|] eqn:Eo; simpl; [|by unfold expect in Eo; case_match|done].
  rewrite Hn. assert (checked_sub n (Z.of_nat (blen buf)) = None) as ->; [|done].
  unfold checked_sub. rewrite bool_decide_eq_false_2; [done | lia].
Qed.

(** A failure of the read that would have reported the end of a range makes the
    reader ask for the empty rest of the range, whose header cannot be built: on
    a service that sends ranges as headers the retry panics. *)
Theorem retry_at_end_panics {A Rd Wr Ls Dl Cp} `{Read Rd} (inner : Access A Rd Wr Ls Dl Cp)
    acc path args (reader reader' : Rd) e :
  (forall acc' args', Range.to_header (read_range args') = Panic -> (a_read inner path args' acc').1 = Panic) ->
  Range.size (read_range args) = Some 0%Z -> read_buf reader = (Err e, reader') ->
  let s := retry_reader_new acc path args reader in
  (retry_reader_read inner s).1 = Err e /\ (retry_reader_read inner (retry_reader_read inner s).2).1 = Panic.
Proof.
  intros Hh Hz E s. unfold s, retry_reader_read, retry_reader_new, read_open. simpl. rewrite E. split; [done|]. simpl.
  specialize (Hh acc args). destruct (a_read inner path args acc) as [r acc']. simpl in Hh. rewrite Hh; [done|].
  unfold Range.to_header, show_range. by rewrite Hz.
Qed.
