(* ===== verification/Memory.v ===== *)
(** * The memory service ([services/memory/*.rs])

    The in-memory backend over a [BTreeMap]: the map is shared by the handles,
    so every method works on it.  [abstract] forgets everything but the bytes
    stored under each key; the theorems say what each operation does to it. *)

From S2P Require Import Prelude Errors Path Range Buffer Types Listers Deleters Readers.
From Stdlib Require Import Sorted.
From stdpp Require Import sorting options.

(** ** [MemoryCore] *)

Record MemoryValue : Type := mkValue { mv_metadata : Metadata; mv_content : Buffer }.
Abbreviation MemoryCore := (gmap (list ascii) MemoryValue).

(** The keys in order. *)
Definition sorted_keys (m : MemoryCore) : list str := merge_sort str_leP (elements (dom m)).

Definition core_get (key : str) (m : MemoryCore) : option MemoryValue := m !! key.
Definition core_set (key : str) (value : MemoryValue) : M MemoryCore Error unit :=
  modify <[key := value]>.
Definition core_set_if_not_exists (key : str) (value : MemoryValue) : M MemoryCore Error unit :=
  m ← get;
  match m !! key with
  | None => put (<[key := value]> m)
  | Some _ => throw (error ConditionNotMatch "key already exists")
  end.
Definition core_delete (key : str) : M MemoryCore Error unit := modify (delete key).

Fixpoint drop_while {A} (p : A -> bool) (l : list A) : list A :=
  match l with [] => [] | x :: l' => if p x then drop_while p l' else l end.
Fixpoint take_while {A} (p : A -> bool) (l : list A) : list A :=
  match l with [] => [] | x :: l' => if p x then x :: take_while p l' else [] end.

(** [data.range(prefix..)] up to the first key without the prefix. *)
Definition core_scan (prefix : str) (m : MemoryCore) : list str :=
  if bool_decide (prefix = []) then sorted_keys m
  else take_while (starts_with prefix)
         (drop_while (fun k => negb (str_le prefix k)) (sorted_keys m)).

(** The keys with the prefix are a contiguous run of the sorted keys. *)
Lemma run_of_prefix p l :
  StronglySorted str_leP l ->
  take_while (starts_with p) (drop_while (fun k => negb (str_le p k)) l) =
  filter (fun k => starts_with p k = true) l.
Proof.
  induction 1 as [|k l Hs IH Hall]; [done|]. simpl. destruct (str_le p k) eqn:Hpk; simpl.
  - clear IH. destruct (starts_with p k) eqn:Hk.
    + rewrite filter_cons_True by done. f_equal.
      assert (forall l, StronglySorted str_leP l -> Forall (fun x => str_le p x = true) l ->
        take_while (starts_with p) l = filter (fun k => starts_with p k = true) l) as Hrun.
      { clear. induction 1 as [|x l Hs IH Hall]; intros Hp; [done|]. inversion Hp; subst. simpl.
        destruct (starts_with p x) eqn:Hx; [by rewrite filter_cons_True, IH|].
        rewrite filter_cons_False by congruence. symmetry. apply filter_none.
        rewrite Forall_forall in *. intros y Hy Hpy.
        by rewrite (prefix_between p x y) in Hx; [|done|apply Hall|]. }
      apply Hrun; [done|]. eapply Forall_impl; [exact Hall|]. intros x Hx.
      by apply (str_leP_trans p k x).
    + rewrite filter_cons_False by congruence. symmetry. apply filter_none.
      rewrite Forall_forall in *. intros y Hy Hpy.
      by rewrite (prefix_between p k y) in Hk; [|done|apply Hall|].
  - rewrite IH, filter_cons_False; [done|]. intros Hk. apply prefix_le in Hk. congruence.
Qed.

Lemma sorted_keys_sorted m : StronglySorted str_leP (sorted_keys m).
Proof. apply (StronglySorted_merge_sort _). Qed.
Lemma elem_sorted_keys m k : k ∈ sorted_keys m <-> is_Some (m !! k).
Proof.
  unfold sorted_keys. rewrite merge_sort_Permutation, elem_of_elements. apply elem_of_dom.
Qed.

Lemma core_scan_filter prefix m :
  core_scan prefix m = filter (fun k => starts_with prefix k = true) (sorted_keys m).
Proof.
  unfold core_scan. case_bool_decide as Hp.
  - subst. symmetry. apply filter_all, Forall_forall. intros k _. apply (starts_with_app [] k).
  - apply run_of_prefix, sorted_keys_sorted.
Qed.

(** ** [MemoryWriter] *)

Record MemoryWriter : Type := mkMemWriter {
  mw_path : str; mw_op : OpWrite; mw_buf : option QueueBuf;
}.
Definition mem_writer_new (path : str) (op : OpWrite) : MemoryWriter := mkMemWriter path op None.

(** The writer shares the map: its methods work on both. *)
Definition mem_writer_write (bs : Buffer) : M (MemoryCore * MemoryWriter) Error unit :=
  modify (fun '(m, w) => (m, mkMemWriter (mw_path w) (mw_op w) (Some (qpush (default [] (mw_buf w)) bs)))).

(** The metadata of a new object. *)
Definition value_metadata (op : OpWrite) (len : Z) : Metadata :=
  let apply {A} (v : option A) (set : A -> Metadata -> Metadata) (m : Metadata) :=
    match v with Some v => set v m | None => m end in
  apply (write_content_encoding op) set_content_encoding
    (apply (write_content_type op) set_content_type
      (apply (write_content_disposition op) set_content_disposition
        (apply (write_cache_control op) set_cache_control
          (set_content_length len (meta_new FILE))))).

Definition mem_writer_close : M (MemoryCore * MemoryWriter) Error Metadata :=
  '(_, w) ← get;
  modify (fun '(m, w) => (m, mkMemWriter (mw_path w) (mw_op w) None));;
  content ← lift (qcollect (default [] (mw_buf w)));
  let metadata := value_metadata (mw_op w) (Z.of_nat (blen content)) in
  let value := mkValue metadata content in
  zoom fst (fun m s => (m, s.2))
    (if write_if_not_exists (mw_op w) then core_set_if_not_exists (mw_path w) value
     else core_set (mw_path w) value);;
  mret metadata.

Definition mem_writer_abort : M (MemoryCore * MemoryWriter) Error unit :=
  modify (fun '(m, w) => (m, mkMemWriter (mw_path w) (mw_op w) None)).

#[export] Instance MemoryWriter_Write : Write (MemoryCore * MemoryWriter) :=
  {| w_write := mem_writer_write; w_close := mem_writer_close; w_abort := mem_writer_abort |}.

(** ** [MemoryLister] and [MemoryDeleter] *)

Record MemoryLister : Type := mkMemLister { ml_root : str; ml_keys : list str }.

Definition key_entry (root key : str) : result Entry :=
  let mode := if ends_with [slash] key then DIR else FILE in
  path ← build_rel_path root key;
  let path := if bool_decide (path = []) then [slash] else path in
  Ok (entry_new path (meta_new mode)).

#[export] Instance MemoryLister_List : List MemoryLister := fun s =>
  match ml_keys s with
  | key :: rest => (Some <$> key_entry (ml_root s) key, mkMemLister (ml_root s) rest)
  | [] => (Ok None, s)
  end.

Definition mem_delete_once (root path : str) (_ : OpDelete) : M MemoryCore Error unit :=
  p ← lift (build_abs_path root path);
  core_delete p.

(** ** [MemoryBackend] *)

Section Backend.
  Variable root : str.

Definition memory_not_found : Error := error NotFound "memory doesn't have this path".

Definition mem_stat (path : str) (_ : OpStat) (m : MemoryCore) : result Metadata :=
  p ← build_abs_path root path;
  r ← build_abs_path root [];
  if bool_decide (p = r) then Ok (meta_new DIR)
  else match core_get p m with
  | Some value => Ok (mv_metadata value)
  | None => Err memory_not_found
  end.

Definition mem_read (path : str) (args : OpRead) (m : MemoryCore) : result (option Metadata * Buffer) :=
  p ← build_abs_path root path;
  match core_get p m with
  | None => Err memory_not_found
  | Some value =>
      let total_size := Z.of_nat (blen (mv_content value)) in
      let range := read_range args in
      let start := Z.min (Range.offset range) total_size in
      let end_ := match Range.size range with
                  | Some size => Z.min (saturating_add (Range.offset range) size) total_size
                  | None => total_size
                  end in
      content ← slice (mv_content value) (Included start) (Excluded end_);
      Ok (Some (set_content_length total_size (meta_new FILE)), content)
  end.

Definition mem_write (path : str) (args : OpWrite) : result MemoryWriter :=
  p ← build_abs_path root path; Ok (mem_writer_new p args).

Definition mem_list (path : str) (args : OpList) (m : MemoryCore) : result (HierarchyLister MemoryLister) :=
  p ← build_abs_path root path;
  Ok (hierarchy_new (mkMemLister root (core_scan p m)) path (list_recursive args)).

End Backend.

(** ** The abstract store *)

(** What is stored: bytes under keys. *)
Definition abstract (m : MemoryCore) : gmap (list ascii) bytes := (fun v => contents (mv_content v)) <$> m.
(** Every stored buffer is well formed and its recorded length is its length. *)
Definition core_wf (m : MemoryCore) : Prop :=
  map_Forall (fun _ v => wf (mv_content v) /\
    m_content_length (mv_metadata v) = Some (Z.of_nat (blen (mv_content v)))) m.

(** Storing, reading and removing, as a map does it. *)
Definition spec_put (only_new : bool) (key : str) (data : bytes) (m : gmap (list ascii) bytes)
  : option (gmap (list ascii) bytes) :=
  if only_new && bool_decide (is_Some (m !! key)) then None else Some (<[key := data]> m).
Definition spec_read (key : str) (range : BytesRange) (m : gmap (list ascii) bytes) : option bytes :=
  (fun data => sub data range) <$> m !! key.

(** A write session: open, write the buffers, close. *)
Fixpoint mem_writes (bss : list Buffer) : M (MemoryCore * MemoryWriter) Error unit :=
  match bss with [] => mret tt | bs :: rest => mem_writer_write bs;; mem_writes rest end.
Definition mem_put (root path : str) (op : OpWrite) (bss : list Buffer) : M MemoryCore Error Metadata :=
  fun m =>
  match mem_write root path op with
  | Ok w => let '(r, (m', _)) := (mem_writes bss;; mem_writer_close) (m, w) in (r, m')
  | Err e => (Err e, m)
  | Panic => (Panic, m)
  end.

Lemma mem_writes_ok bss m w :
  Forall wf bss -> qwf (default [] (mw_buf w)) ->
  exists q, mem_writes bss (m, w) = (Ok tt, (m, mkMemWriter (mw_path w) (mw_op w) q)) /\
    qwf (default [] q) /\
    qcontents (default [] q) = qcontents (default [] (mw_buf w)) ++ concat (contents <$> bss).
Proof.
  intros Hall. revert w. induction Hall as [|bs bss Hb _ IH]; intros w Hq; simpl.
  { exists (mw_buf w). rewrite app_nil_r. by destruct w. }
  unfold mbind, M_bind, mem_writer_write, modify. simpl.
  destruct (qpush_spec _ bs Hq Hb) as [Hq' Hc'].
  destruct (IH (mkMemWriter (mw_path w) (mw_op w) (Some (qpush (default [] (mw_buf w)) bs)))) as (q & E & Hqq & Hcc);
    [done|]. simpl in *. exists q. split_and!; [done | done |]. by rewrite Hcc, Hc', <- app_assoc.
Qed.

Lemma value_metadata_length op len : m_content_length (value_metadata op len) = Some len.
Proof.
  unfold value_metadata.
  by destruct (write_content_encoding op), (write_content_type op), (write_content_disposition op),
    (write_cache_control op).
Qed.

Lemma abstract_lookup m k : abstract m !! k = (fun v => contents (mv_content v)) <$> m !! k.
Proof. apply lookup_fmap. Qed.

Lemma mem_put_ok root path op bss m p :
  build_abs_path root path = Ok p -> Forall wf bss -> core_wf m ->
  let data := concat (contents <$> bss) in
  match spec_put (write_if_not_exists op) p data (abstract m) with
  | Some am => exists m' meta, mem_put root path op bss m = (Ok meta, m') /\ abstract m' = am /\
      core_wf m' /\ content_length meta = Z.of_nat (length data)
  | None => mem_put root path op bss m = (Err (error ConditionNotMatch "key already exists"), m)
  end.
Proof.
  intros Hp Hall Hm. simpl. unfold mem_put, mem_write, mbind, M_bind, lift. rewrite Hp. simpl.
  destruct (mem_writes_ok bss m (mem_writer_new p op) Hall) as (q & -> & Hq & Hc); [apply qwf_nil|].
  simpl. unfold mem_writer_close, mbind, M_bind, get, modify, lift, zoom, mret, M_ret. simpl.
  destruct (qcollect_ok _ Hq) as (buf & -> & Hb & Hcon). simpl in Hc. rewrite Hc in Hcon.
  set (v := mkValue (value_metadata op (Z.of_nat (blen buf))) buf).
  assert (abstract (<[p := v]> m) = <[p := concat (contents <$> bss)]> (abstract m) /\
    core_wf (<[p := v]> m) /\ content_length (mv_metadata v) = Z.of_nat (length (concat (contents <$> bss))))
    as (H1 & H2 & H3).
  { split_and!.
    - unfold abstract. rewrite fmap_insert. simpl. by rewrite Hcon.
    - apply map_Forall_insert_2; [|done]. simpl. split; [done | apply value_metadata_length].
    - unfold content_length. simpl. rewrite value_metadata_length, <- Hcon, contents_length by done. done. }
  unfold spec_put, core_set_if_not_exists, core_set, mbind, M_bind, get, put, throw, modify.
  rewrite abstract_lookup. destruct (write_if_not_exists op); simpl.
  - destruct (m !! p) as [v0|] eqn:Hk; simpl.
    + done.
    + do 2 eexists. by split_and!.
  - do 2 eexists. by split_and!.
Qed.

(** The slice a read takes is what the range selects. *)
Lemma mem_read_ok root path args m p :
  build_abs_path root path = Ok p -> core_wf m ->
  (0 <= Range.offset (read_range args))%Z -> from_option (fun n => 0 <= n)%Z True (Range.size (read_range args)) ->
  (forall v, m !! p = Some v -> Z.of_nat (blen (mv_content v)) <= u64_max)%Z ->
  match spec_read p (read_range args) (abstract m) with
  | Some data => exists meta buf, mem_read root path args m = Ok (Some meta, buf) /\ wf buf /\
      contents buf = data /\ m_content_length meta = Z.of_nat ∘ length <$> abstract m !! p
  | None => mem_read root path args m = Err memory_not_found
  end.
Proof.
  intros Hp Hm Ho Hs Hlen. unfold spec_read. rewrite abstract_lookup.
  unfold mem_read, core_get. rewrite Hp. simpl. destruct (m !! p) as [v|] eqn:Hk; simpl; [|done].
  destruct (Hm p v Hk) as [Hb _]. specialize (Hlen v eq_refl).
  set (total := blen (mv_content v)) in *. set (range := read_range args) in *.
  set (st := Z.min (Range.offset range) (Z.of_nat total)).
  set (en := match Range.size range with
    | Some size => Z.min (saturating_add (Range.offset range) size) (Z.of_nat total)
    | None => Z.of_nat total end).
  assert (0 <= st <= en /\ en <= Z.of_nat total)%Z as [Hse Het].
  { subst st en. destruct (Range.size range) as [n|]; simpl in Hs; unfold saturating_add; lia. }
  destruct (slice_ok (mv_content v) (Z.to_nat st) (Z.to_nat en)) as (buf & E & Hw & Hc); [done | lia |].
  rewrite !Z2Nat.id in E by lia. rewrite E. simpl. do 2 eexists. split; [done|]. split; [done|].
  split; [|simpl; unfold total; by rewrite contents_length].
  rewrite Hc. unfold sub. fold range. subst st en.
  pose proof (contents_length _ Hb) as Hcl. fold total in Hcl.
  destruct (decide (Range.offset range <= Z.of_nat total)%Z) as [Hle|Hgt].
  - rewrite Z.min_l by done. destruct (Range.size range) as [n|]; simpl in Hs.
    + unfold saturating_add. destruct (decide (Range.offset range + n <= Z.of_nat total)%Z).
      * rewrite (Z.min_l _ u64_max), Z.min_l by lia. f_equal. lia.
      * rewrite Z.min_r by lia. rewrite !take_ge; rewrite ?length_drop; (done || lia).
    + rewrite take_ge; rewrite ?length_drop; (done || lia).
  - rewrite Z.min_r by lia. rewrite (drop_ge (contents _) (Z.to_nat (Range.offset range))) by lia.
    rewrite drop_ge by lia. by destruct (Range.size range); rewrite ?take_nil.
Qed.

(** C9.  The memory service is a map from keys to bytes.  Closing a writer stores
    exactly the bytes written, under one key, and nothing else changes; a
    conditional write of an existing key is refused and changes nothing; reading
    any range, in or out of bounds, returns exactly the bytes it selects and the
    total length, or NotFound; deleting removes the key and no other. *)
Theorem memory_refines_map root path m p :
  build_abs_path root path = Ok p -> core_wf m ->
  (forall op bss, Forall wf bss ->
    let data := concat (contents <$> bss) in
    match spec_put (write_if_not_exists op) p data (abstract m) with
    | Some am => exists m' meta, mem_put root path op bss m = (Ok meta, m') /\ abstract m' = am /\
        core_wf m' /\ content_length meta = Z.of_nat (length data)
    | None => mem_put root path op bss m = (Err (error ConditionNotMatch "key already exists"), m)
    end) /\
  (forall args,
    (0 <= Range.offset (read_range args))%Z -> from_option (fun n => 0 <= n)%Z True (Range.size (read_range args)) ->
    (forall v, m !! p = Some v -> Z.of_nat (blen (mv_content v)) <= u64_max)%Z ->
    match spec_read p (read_range args) (abstract m) with
    | Some data => exists meta buf, mem_read root path args m = Ok (Some meta, buf) /\ wf buf /\
        contents buf = data /\ m_content_length meta = Z.of_nat ∘ length <$> abstract m !! p
    | None => mem_read root path args m = Err memory_not_found
    end) /\
  (forall args, exists m', mem_delete_once root path args m = (Ok tt, m') /\
    abstract m' = delete p (abstract m) /\ core_wf m').
Proof.
  intros Hp Hm. split_and!.
  - intros op bss Hall. by apply mem_put_ok.
  - intros args Ho Hs Hl. by apply mem_read_ok.
  - intros args. exists (delete p m). unfold mem_delete_once, core_delete, mbind, M_bind, lift, modify.
    rewrite Hp. split_and!; [done | apply fmap_delete | by apply map_Forall_delete].
Qed.

(** The recursive listing is the keys with the prefix, each once, in order. *)
Lemma mem_lister_lists root keys es path visited fuel :
  Forall2 (fun key e => key_entry root key = Ok e) keys es ->
  lists (hierarchy_next (S fuel)) (mkHierarchy (mkMemLister root keys) path visited true) es.
Proof.
  unfold lists. induction 1 as [|key e keys es He _ IH]; simpl.
  - by eapply Lists_nil.
  - eapply Lists_cons; [|exact IH]. cbn [hierarchy_next h_lister h_path h_visited h_recursive].
    unfold list_next, MemoryLister_List. simpl. by rewrite He.
Qed.

(** Listing recursively under a path returns one entry for every stored key
    that starts with it, in the order of the keys, and nothing else. *)
Theorem memory_list_complete root path p m es fuel :
  build_abs_path root path = Ok p ->
  Forall2 (fun key e => key_entry root key = Ok e)
    (filter (fun k => starts_with p k = true) (sorted_keys m)) es ->
  exists l, mem_list root path (list_with_recursive true op_list) m = Ok l /\
    lists (hierarchy_next (S fuel)) l es /\
    StronglySorted str_leP (core_scan p m) /\
    (forall k, k ∈ core_scan p m <-> is_Some (abstract m !! k) /\ starts_with p k = true) /\
    NoDup (core_scan p m).
Proof.
  intros Hp Hes. unfold mem_list. rewrite Hp. simpl. eexists; split; [done|].
  rewrite core_scan_filter. split_and!.
  - by apply mem_lister_lists.
  - rewrite <- core_scan_filter. unfold core_scan. case_bool_decide; [apply sorted_keys_sorted|].
    rewrite run_of_prefix by apply sorted_keys_sorted.
    assert (forall l, StronglySorted str_leP l -> StronglySorted str_leP (filter (fun k => starts_with p k = true) l))
      as Hs; [|apply Hs, sorted_keys_sorted].
    induction 1 as [|k l Hs IH Hall]; [constructor|]. rewrite filter_cons. case_decide; [|done].
    constructor; [done|]. rewrite Forall_forall in *. intros x [_ Hx]%list_elem_of_filter. by apply Hall.
  - intros k. rewrite list_elem_of_filter, elem_sorted_keys, abstract_lookup, fmap_is_Some. tauto.
  - apply NoDup_filter. unfold sorted_keys. rewrite merge_sort_Permutation. apply NoDup_elements.
Qed.

(** From one end to the other: what a writer stored under a path is what a
    reader streams from it, for every range and however the range is split. *)
Theorem memory_write_then_read root path p op bss m ctx range fuel :
  build_abs_path root path = Ok p -> Forall wf bss -> core_wf m -> write_if_not_exists op = false ->
  splittable (reader_chunk (rc_options ctx)) (Range.offset range) (Range.size range) ->
  let data := concat (contents <$> bss) in
  (Z.of_nat (length data) <= u64_max)%Z -> rounds (Range.size range) + 1 < fuel -> length data < fuel ->
  exists meta m' buf s, mem_put root path op bss m = (Ok meta, m') /\
    collect_loop (streaming_read (fun args => mem_read root path args m') fuel) fuel []
      (streaming_new ctx range) = (Ok buf, s) /\
    contents buf = sub data range.
Proof.
  intros Hp Hall Hm Hop Hsp data Hlen Hf1 Hf2.
  pose proof (mem_put_ok root path op bss m p Hp Hall Hm) as Hput. unfold spec_put in Hput.
  rewrite Hop in Hput. simpl in Hput. destruct Hput as (m' & meta & Eput & Habs & Hm' & _).
  assert (abstract m' !! p = Some data) as Hk by (rewrite Habs; apply lookup_insert_eq).
  assert (serves_object (fun args => mem_read root path args m') data) as Hserve.
  { intros r args [Ho Hs]. pose proof (mem_read_ok root path (read_with_range r args) m' p Hp Hm' Ho Hs) as Hr.
    unfold spec_read in Hr. rewrite Hk in Hr. destruct Hr as (md & buf & E & Hb & Hc & _).
    { intros v Hv. rewrite abstract_lookup, Hv in Hk. simpl in Hk. injection Hk as Hk.
      destruct (Hm' p v Hv) as [Hwf _]. by rewrite <- (contents_length _ Hwf), Hk. }
    destruct (Buffer_serves buf Hb) as (n & _ & Hn). exists (Some md), buf, n. by rewrite Hc in Hn. }
  destruct (streaming_serves_range (fun args => mem_read root path args m') data ctx range fuel) as (buf & s & E & _ & Hc);
    [done..|]. exists meta, m', buf, s. done.
Qed.

(** ** Witnesses *)

Definition sample_core : MemoryCore :=
  {[ b "d/a" := mkValue (set_content_length 1 (meta_new FILE)) (Contiguous [x01]);
     b "d/b" := mkValue (set_content_length 2 (meta_new FILE)) (Contiguous [x02; x03]) ]}.
Lemma sample_core_wf : core_wf sample_core.
Proof. repeat (apply map_Forall_insert_2; [done|]). apply map_Forall_empty. Qed.

Lemma memory_refines_map_witness :
  mem_read (b "/d/") (b "b") (read_with_range (mkRange 1 (Some 7%Z)) op_read) sample_core
    = Ok (Some (set_content_length 2 (meta_new FILE)), Contiguous [x03]) /\
  exists m', mem_delete_once (b "/d/") (b "b") op_delete sample_core = (Ok tt, m') /\
    abstract m' = delete (b "d/b") (abstract sample_core) /\ core_wf m'.
Proof.
  split; [vm_compute; reflexivity|].
  apply (memory_refines_map (b "/d/") (b "b") sample_core (b "d/b")); [vm_compute; reflexivity | apply sample_core_wf].
Defined.

Lemma memory_list_complete_witness :
  exists l, mem_list (b "/d/") (b "/") (list_with_recursive true op_list) sample_core = Ok l /\
    lists (hierarchy_next 1) l [entry_new (b "a") (meta_new FILE); entry_new (b "b") (meta_new FILE)].
Proof.
  destruct (memory_list_complete (b "/d/") (b "/") (b "d/") sample_core
    [entry_new (b "a") (meta_new FILE); entry_new (b "b") (meta_new FILE)] 0) as (l & E & Hl & _);
    [vm_compute; reflexivity | | by exists l].
  assert (filter (fun k => starts_with (b "d/") k = true) (sorted_keys sample_core) = [b "d/a"; b "d/b"]) as ->
    by (vm_compute; reflexivity).
  repeat constructor.
Defined.

Lemma memory_write_then_read_witness :
  exists meta m' buf s,
    mem_put (b "/d/") (b "c") op_write [Contiguous [x01; x02]; Contiguous [x03]] sample_core = (Ok meta, m') /\
    collect_loop (streaming_read (fun args => mem_read (b "/d/") (b "c") args m') 9) 9 []
      (streaming_new (sample_ctx None 1) (mkRange 1 None)) = (Ok buf, s) /\
    contents buf = [x02; x03].
Proof.
  apply (memory_write_then_read (b "/d/") (b "c") (b "d/c")).
  - vm_compute; reflexivity.
  - by repeat constructor.
  - apply sample_core_wf.
  - done.
  - unfold splittable, is_u64, u64_max. simpl. split_and!; done || lia.
  - simpl. unfold u64_max. lia.
  - simpl. lia.
  - simpl. lia.
Defined.
