(* ===== verification/Layers.v ===== *)
(** * The completing layer ([layers/complete.rs])

    [CompleteLayer] checks what a service returns: readers must deliver the
    requested size, writers must report the written size and are closed once,
    listed files carry their length. *)

From S2P Require Import Prelude Errors Path Range Buffer Types Access Listers Readers.
From stdpp Require Import options.

(** ** [CompleteReader] *)

Record CompleteReader (R : Type) : Type := mkCompleteReader {
  cr_inner : R; cr_size : option Z; cr_read : Z;
}.
Arguments mkCompleteReader {R}.
Arguments cr_inner {R}.
Arguments cr_size {R}.
Arguments cr_read {R}.

Section CompleteRead.
  Context {R : Type} `{Read R}.

Definition complete_reader_new (inner : R) (size : option Z) : CompleteReader R :=
  mkCompleteReader inner size 0.

Definition size_mismatch (msg : string) (expect actual : Z) : Error :=
  with_context (b "actual") (show_u64 actual)
    (with_context (b "expect") (show_u64 expect) (error Unexpected msg)).

Definition reader_check (s : CompleteReader R) : result unit :=
  match cr_size s with
  | None => Ok tt
  | Some size =>
      match (cr_read s ?= size)%Z with
      | Eq => Ok tt
      | Lt => Err (size_mismatch "reader got too little data" size (cr_read s))
      | Gt => Err (size_mismatch "reader got too much data" size (cr_read s))
      end
  end.

Definition complete_read : M (CompleteReader R) Error Buffer := fun s =>
  let '(r, inner) := read_buf (cr_inner s) in
  let s := mkCompleteReader inner (cr_size s) (cr_read s) in
  match r with
  | Ok buf =>
      if is_empty buf then
        match reader_check s with Ok _ => (Ok buf, s) | Err e => (Err e, s) | Panic => (Panic, s) end
      else (Ok buf, mkCompleteReader inner (cr_size s) (wrap64 (cr_read s + Z.of_nat (blen buf))))
  | Err e => (Err e, s)
  | Panic => (Panic, s)
  end.

#[global] Instance CompleteReader_Read : Read (CompleteReader R) := complete_read.

(** What is read through the check: the bytes, or an error when the total is not
    the requested size. *)
Lemma complete_read_serves strict (r : R) bs n size read :
  Serves read_buf strict r bs n -> (0 <= read)%Z -> (read + Z.of_nat (length bs) <= u64_max)%Z ->
  (size = None \/ size = Some (read + Z.of_nat (length bs))%Z) ->
  Serves complete_read strict (mkCompleteReader r size read) bs n.
Proof.
  intros Hs. revert read. induction Hs as [r buf r' E Hb Hz|r buf r' bs n E Hb Hz Hs IH|r e r' bs n Hst E];
    intros read Hr Hmax Hsize.
  - eapply Serves_end; [|exact Hb|exact Hz]. unfold complete_read. simpl. rewrite E. unfold is_empty.
    rewrite bool_decide_eq_true_2 by done. unfold reader_check. simpl.
    destruct Hsize as [->| ->]; [done|]. simpl. by rewrite Z.add_0_r, Z.compare_refl.
  - rewrite length_app, contents_length in Hmax, Hsize by done.
    eapply Serves_more; [|exact Hb|exact Hz|].
    + unfold complete_read. simpl. rewrite E. unfold is_empty. by rewrite bool_decide_eq_false_2.
    + simpl. rewrite wrap64_id by (unfold is_u64; lia). apply IH; [lia | lia |].
      destruct Hsize as [->| ->]; [by left | right; f_equal; lia].
  - by eapply Serves_fail; [|unfold complete_read; simpl; rewrite E].
Qed.

Lemma complete_read_detects (r : R) bs n size read fuel bufs :
  Serves read_buf true r bs n -> (0 <= read)%Z -> (read + Z.of_nat (length bs) <= u64_max)%Z ->
  size <> (read + Z.of_nat (length bs))%Z -> n < fuel ->
  exists e s, collect_loop complete_read fuel bufs (mkCompleteReader r (Some size) read) = (Err e, s) /\
    kind e = Unexpected.
Proof.
  intros Hs. revert read fuel bufs.
  induction Hs as [r buf r' E Hb Hz|r buf r' bs n E Hb Hz Hs IH|]; intros read fuel bufs Hr Hmax Hsize Hf; [| |done];
    (destruct fuel as [|f]; [lia|]); cbn [collect_loop]; unfold mbind, M_bind, complete_read at 1; simpl; rewrite E;
    unfold is_empty.
  - rewrite bool_decide_eq_true_2 by done. unfold reader_check. simpl in *.
    destruct (Z.compare_spec read size); [lia|by do 2 eexists|by do 2 eexists].
  - rewrite length_app, contents_length in Hmax, Hsize by done.
    rewrite bool_decide_eq_false_2 by done. rewrite bool_decide_eq_false_2 by done. simpl.
    rewrite wrap64_id by (unfold is_u64; lia). apply IH; lia.
Qed.

(** A read of a known size never passes off a truncated or an oversized
    answer as complete: reading to the end succeeds exactly when the service
    delivered the requested number of bytes, and then returns those bytes. *)
Theorem complete_reader_exact (r : R) bs n size fuel :
  Serves read_buf true r bs n -> (Z.of_nat (length bs) <= u64_max)%Z -> n < fuel ->
  if bool_decide (size = Z.of_nat (length bs)) then
    exists buf s, read_all fuel (complete_reader_new r (Some size)) = (Ok buf, s) /\ contents buf = bs
  else exists e s, read_all fuel (complete_reader_new r (Some size)) = (Err e, s) /\ kind e = Unexpected.
Proof.
  intros Hs Hmax Hf. case_bool_decide as Hsz.
  - pose proof (read_all_ok true (complete_reader_new r (Some size)) bs n fuel) as Ha.
    destruct (read_all fuel (complete_reader_new r (Some size))) as [[buf|e|] s]; simpl in Ha.
    + exists buf, s. split; [done|]. apply Ha; [|done]. apply complete_read_serves; try done; right; f_equal; lia.
    + exfalso. by discriminate Ha; [apply complete_read_serves; try done; right; f_equal; lia|].
    + exfalso. apply Ha; [|done]. apply complete_read_serves; try done; right; f_equal; lia.
  - apply complete_read_detects with (bs := bs) (n := n); try done; lia.
Qed.

End CompleteRead.

Lemma complete_reader_exact_witness :
  exists e s, read_all 3 (complete_reader_new (Contiguous [x01; x02]) (Some 3%Z)) = (Err e, s) /\ kind e = Unexpected.
Proof.
  apply (complete_reader_exact (Contiguous [x01; x02]) [x01; x02] 1 3 3); [|simpl; unfold u64_max; lia|lia].
  eapply (Serves_more _ _ _ (Contiguous [x01; x02]) _ [] 0); [done | done | done |].
  by eapply Serves_end.
Defined.

(** ** [CompleteWriter] *)

Inductive CompleteState : Type := SOpen | SWritten | SClosed | SError.
#[export] Instance CompleteState_eq_dec : EqDecision CompleteState.
Proof. solve_decision. Defined.

Definition transition (destination s : CompleteState) : CompleteState :=
  if negb (bool_decide (s = SError)) then destination else s.

Record CompleteWriter (W : Type) : Type := mkCompleteWriter {
  cw_inner : option W; cw_append : bool; cw_size : Z; cw_state : CompleteState;
}.
Arguments mkCompleteWriter {W}.
Arguments cw_inner {W}.
Arguments cw_append {W}.
Arguments cw_size {W}.
Arguments cw_state {W}.

Section CompleteWrite.
  Context {W : Type} `{Write W}.

Definition complete_writer_new (inner : W) (append : bool) : CompleteWriter W :=
  mkCompleteWriter (Some inner) append 0 SOpen.

Definition writer_check (s : CompleteWriter W) (content_length : Z) : result unit :=
  if cw_append s || bool_decide (content_length = 0%Z) then Ok tt
  else match (cw_size s ?= content_length)%Z with
       | Eq => Ok tt
       | Lt => Err (size_mismatch "writer got too little data" content_length (cw_size s))
       | Gt => Err (size_mismatch "writer got too much data" content_length (cw_size s))
       end.

Definition writer_closed : Error := error Unexpected "writer has been closed or aborted".

(** [inspect_err(|_| self.state.transition(Error))?]. *)
Definition inspect {A} (r : result A) : M (CompleteWriter W) Error A := fun s =>
  match r with
  | Err e => (Err e, mkCompleteWriter (cw_inner s) (cw_append s) (cw_size s) (transition SError (cw_state s)))
  | r => (r, s)
  end.

(** A call of the writer inside, when there is one. *)
Definition with_inner {A} (m : M W Error A) : M (CompleteWriter W) Error (result A) := fun s =>
  match cw_inner s with
  | None => (Err writer_closed, s)
  | Some w => let '(r, w') := m w in
              (Ok r, mkCompleteWriter (Some w') (cw_append s) (cw_size s) (cw_state s))
  end.

(** [self.inner = None; self.state.transition(Closed)]. *)
Definition finish_writer : M (CompleteWriter W) Error unit :=
  modify (fun s => mkCompleteWriter None (cw_append s) (cw_size s) (transition SClosed (cw_state s))).

Definition complete_write (bs : Buffer) : M (CompleteWriter W) Error unit :=
  r ← with_inner (w_write bs);
  inspect r;;
  modify (fun s => mkCompleteWriter (cw_inner s) (cw_append s) (wrap64 (cw_size s + Z.of_nat (blen bs)))
                     (transition SWritten (cw_state s))).

(** [close] up to the point where the writer is given up. *)
Definition close_checked : M (CompleteWriter W) Error Metadata :=
  r ← with_inner w_close;
  ret ← inspect r;
  s ← get;
  inspect (writer_check s (content_length ret));;
  mret (if bool_decide (content_length ret = 0%Z) then set_content_length (cw_size s) ret else ret).
Definition complete_close : M (CompleteWriter W) Error Metadata :=
  ret ← close_checked;
  finish_writer;;
  mret ret.

Definition abort_checked : M (CompleteWriter W) Error unit :=
  r ← with_inner w_abort;
  inspect r.
Definition complete_abort : M (CompleteWriter W) Error unit :=
  abort_checked;;
  finish_writer.

#[global] Instance CompleteWriter_Write : Write (CompleteWriter W) :=
  {| w_write := complete_write; w_close := complete_close; w_abort := complete_abort |}.

(** *** Any sequence of calls *)

Inductive wcall : Type := CWrite (bs : Buffer) | CClose | CAbort.

Definition wdo (c : wcall) : M (CompleteWriter W) Error (option Metadata) :=
  match c with
  | CWrite bs => complete_write bs;; mret None
  | CClose => m ← complete_close; mret (Some m)
  | CAbort => complete_abort;; mret None
  end.

Abbreviation answers := (list (wcall * result (option Metadata))).

Fixpoint calls (cs : list wcall) (s : CompleteWriter W) : answers * CompleteWriter W :=
  match cs with
  | [] => ([], s)
  | c :: cs => let '(r, s) := wdo c s in
               let '(rs, s) := calls cs s in ((c, r) :: rs, s)
  end.

(** The bytes of the writes that were acknowledged. *)
Definition accepted (rs : answers) : Z :=
  foldr (fun '(c, r) n => match c with
                          | CWrite bs => if is_ok r then (Z.of_nat (blen bs) + n)%Z else n
                          | _ => n
                          end) 0%Z rs.

Definition finishes (c : wcall) (r : result (option Metadata)) : bool :=
  match c with CWrite _ => false | _ => is_ok r end.

(** What holds between calls: the writer inside is given up exactly when a
    close or an abort succeeded, and the state says so unless a call failed. *)
Definition writer_inv (append : bool) (n : Z) (s : CompleteWriter W) : Prop :=
  cw_append s = append /\ cw_size s = wrap64 n /\
  match cw_inner s with
  | None => cw_state s = SClosed \/ cw_state s = SError
  | Some _ => cw_state s <> SClosed /\ (cw_state s = SOpen -> n = 0%Z)
  end.

Definition gain (c : wcall) (r : result (option Metadata)) : Z := accepted [(c, r)].

Lemma wrap64_add a c : wrap64 (wrap64 a + c) = wrap64 (a + c).
Proof. unfold wrap64. by rewrite Zplus_mod_idemp_l. Qed.

(** Whether the reported length is acceptable. *)
Lemma writer_check_ok (s : CompleteWriter W) n :
  is_ok (writer_check s n) = cw_append s || bool_decide (n = 0%Z) || bool_decide (cw_size s = n).
Proof.
  unfold writer_check. destruct (cw_append s || _); [done|].
  destruct (Z.compare_spec (cw_size s) n); case_bool_decide; done || lia.
Qed.

(** A close with the writer inside still there. *)
Lemma complete_close_open w app sz st r s' :
  complete_close (mkCompleteWriter (Some w) app sz st) = (r, s') ->
  match r with
  | Ok m => exists m0 w', w_close w = (Ok m0, w') /\ s' = mkCompleteWriter None app sz (transition SClosed st) /\
      (app = true \/ content_length m0 = 0%Z \/ content_length m0 = sz) /\
      m = (if bool_decide (content_length m0 = 0%Z) then set_content_length sz m0 else m0)
  | _ => exists w' st', s' = mkCompleteWriter (Some w') app sz st' /\ (st' = st \/ st' = transition SError st)
  end.
Proof.
  unfold complete_close, close_checked, with_inner, mbind, M_bind. simpl.
  destruct (w_close w) as [[m0|e|] w'] eqn:Ew; simpl; [|intros [= <- <-]; eauto..].
  pose proof (writer_check_ok (mkCompleteWriter (Some w') app sz st) (content_length m0)) as Hok.
  destruct (writer_check _ _) as [[]|e|] eqn:Ec; simpl in *; [|intros [= <- <-]; eauto..].
  intros [= <- <-]. exists m0, w'. split_and!; try done.
  symmetry in Hok. rewrite !orb_true_iff, !bool_decide_eq_true in Hok. naive_solver.
Qed.

(** One call: what it keeps, and what it means that it finished. *)
Lemma wdo_spec append n c s r s' :
  writer_inv append n s -> wdo c s = (r, s') ->
  writer_inv append (n + gain c r) s' /\
  (cw_inner s' = None <-> cw_inner s = None \/ finishes c r = true) /\
  (cw_inner s = None -> r = Err writer_closed /\ s' = s).
Proof.
  intros (Ha & Hsz & Hin) E. unfold writer_inv, gain, finishes.
  destruct s as [[w|] app sz st]; simpl in *; subst.
  2: { assert (r = Err writer_closed /\ s' = mkCompleteWriter None append (wrap64 n) st) as [-> ->].
       { by destruct c; unfold wdo, complete_write, complete_close, complete_abort, close_checked, abort_checked, with_inner, mbind, M_bind in E;
           simplify_eq/=. }
       destruct c; simpl; rewrite Z.add_0_r; naive_solver. }
  destruct c as [bs| |]; simpl in E; unfold mbind, M_bind in E.
  - unfold complete_write, with_inner, mbind, M_bind in E. simpl in E.
    destruct (w_write bs w) as [[[]|e|] w'] eqn:Ew; injection E as <- <-; simpl;
      rewrite ?Z.add_0_r, ?wrap64_add; unfold transition; try case_bool_decide; naive_solver.
  - destruct (complete_close _) as [rc s1] eqn:Ec. apply complete_close_open in Ec.
    destruct rc as [m|e|]; injection E as <- <-; simpl; rewrite ?Z.add_0_r.
    + destruct Ec as (m0 & w' & _ & -> & _); simpl. unfold transition. case_bool_decide; naive_solver.
    + destruct Ec as (w' & st' & -> & [->| ->]); simpl; unfold transition; try case_bool_decide; naive_solver.
    + destruct Ec as (w' & st' & -> & [->| ->]); simpl; unfold transition; try case_bool_decide; naive_solver.
  - unfold complete_abort, abort_checked, with_inner, mbind, M_bind in E. simpl in E.
    destruct (w_abort w) as [[[]|e|] w'] eqn:Ew; injection E as <- <-; simpl;
      rewrite ?Z.add_0_r; unfold transition; try case_bool_decide; naive_solver.
Qed.

Lemma accepted_cons c r rs : accepted ((c, r) :: rs) = (gain c r + accepted rs)%Z.
Proof. unfold gain. simpl. destruct c; [destruct (is_ok r)|..]; lia. Qed.

Definition finished (rs : answers) : bool := existsb (fun '(c, r) => finishes c r) rs.

Lemma calls_spec append n cs s rs s' :
  writer_inv append n s -> calls cs s = (rs, s') ->
  writer_inv append (n + accepted rs) s' /\ (cw_inner s' = None <-> cw_inner s = None \/ finished rs = true).
Proof.
  revert n s rs. induction cs as [|c cs IH]; intros n s rs Hi E; cbn [calls] in E.
  - simplify_eq/=. rewrite Z.add_0_r. naive_solver.
  - destruct (wdo c s) as [r s1] eqn:E1. destruct (calls cs s1) as [rs1 s2] eqn:E2. simplify_eq.
    destruct (wdo_spec append n c s r s1) as (Hi1 & Hf1 & _); [done..|].
    destruct (IH _ s1 rs1 Hi1 E2) as [Hi2 Hf2]. rewrite accepted_cons, Z.add_assoc. split; [done|].
    cbn [finished existsb]. rewrite orb_true_iff. naive_solver.
Qed.

(** C37.  The life of a writer, whatever is called in whatever order and
    whatever the service answers: once a close or an abort has succeeded every
    call is refused and reaches no one; until then the service's writer is kept,
    so that a failed close can be retried; and a close that succeeds reports the
    number of bytes that were written, or fails if the service reports another. *)
Theorem complete_writer_protocol w append pre rs s c r s' :
  calls pre (complete_writer_new w append) = (rs, s) -> wdo c s = (r, s') ->
  (finished rs = true -> r = Err writer_closed /\ s' = s) /\
  (finished rs = false -> finishes c r = false -> is_Some (cw_inner s')) /\
  (forall m, c = CClose -> r = Ok (Some m) -> append = false -> content_length m = wrap64 (accepted rs)).
Proof.
  intros Hp Hc. destruct (calls_spec append 0 pre (complete_writer_new w append) rs s) as [Hi Hf]; [|done|].
  { unfold writer_inv. simpl. naive_solver. }
  destruct (wdo_spec append _ c s r s' Hi Hc) as (_ & Hn & Hcl). simpl in Hf. split_and!.
  - intros Hfin. apply Hcl. naive_solver.
  - intros H1 H2. rewrite H1 in Hf. rewrite H2 in Hn. destruct (cw_inner s') eqn:Ei; [by eexists|].
    destruct (cw_inner s); naive_solver.
  - intros m -> -> ->. destruct Hi as (Ha & Hsz & _). destruct s as [[w0|] app sz st]; simpl in *; subst.
    2: { destruct Hcl as [[=] _]. done. }
    unfold mbind, M_bind in Hc. destruct (complete_close _) as [rc s1] eqn:Ec. apply complete_close_open in Ec.
    destruct rc as [m1|e|]; try done. injection Hc as <- <-. destruct Ec as (m0 & w' & _ & _ & Ho & ->).
    case_bool_decide; naive_solver.
Qed.

End CompleteWrite.

Lemma complete_writer_protocol_witness :
  content_length (set_content_length 2 meta_default) = wrap64 2 /\
  wdo CAbort (mkCompleteWriter (Some (mkLog [] false)) false 0 SOpen) =
    (Ok None, mkCompleteWriter None false 0 SClosed).
Proof.
  split; [|done].
  refine (proj2 (proj2 (complete_writer_protocol (mkLog [] false) false [CWrite (Contiguous [x01; x02])] _ _ CClose _ _
    eq_refl eq_refl)) _ eq_refl eq_refl eq_refl).
Defined.

(** ** [CompleteLister] *)

Record CompleteLister (L : Type) : Type := mkCompleteLister { cl_inner : L; cl_scheme : str }.
Arguments mkCompleteLister {L}.
Arguments cl_inner {L}.
Arguments cl_scheme {L}.

Section CompleteList.
  Context {L : Type} `{List L}.
  (** [self.acc.stat] as it answers during the call. *)
  Variable astat : str -> OpStat -> result Metadata.

Definition ensure_file_content_length (scheme : str) (entry : Entry) : result Entry :=
  let op := match m_version (e_meta entry) with
            | Some version => stat_with_version version op_stat
            | None => op_stat
            end in
  stat_metadata ← astat (e_path entry) op;
  if negb (has_content_length stat_metadata) then
    Err (with_context (b "path") (e_path entry)
          (with_context (b "service") scheme
            (with_operation (b "CompleteLister::ensure_file_content_length")
              (error Unexpected "content length is required for list file entries"))))
  else Ok (mkEntry (e_path entry) (set_content_length (content_length stat_metadata) (e_meta entry))).

Definition needs_length (entry : Entry) : bool :=
  negb (negb (is_file (e_mode entry)) || m_is_deleted (e_meta entry) || has_content_length (e_meta entry)).

Fixpoint complete_next (fuel : nat) : M (CompleteLister L) Error (option Entry) :=
  match fuel with
  | O => panic
  | S f => fun s =>
      let '(r, inner) := list_next (cl_inner s) in
      let s := mkCompleteLister inner (cl_scheme s) in
      match r with
      | Err e => (Err e, s)
      | Panic => (Panic, s)
      | Ok None => (Ok None, s)
      | Ok (Some entry) =>
          if negb (needs_length entry) then (Ok (Some entry), s)
          else match ensure_file_content_length (cl_scheme s) entry with
               | Ok entry => (Ok (Some entry), s)
               | Err e => if bool_decide (kind e = NotFound) then complete_next f s else (Err e, s)
               | Panic => (Panic, s)
               end
      end
  end.

(** An entry as the user sees it; [None] when the file is gone meanwhile. *)
Definition completed (scheme : str) (e : Entry) : option Entry :=
  if needs_length e then
    match ensure_file_content_length scheme e with Ok e' => Some e' | _ => None end
  else Some e.

(** The service can answer for this entry: it has a length or is gone. *)
Definition answerable (scheme : str) (e : Entry) : Prop :=
  needs_length e = true ->
  match ensure_file_content_length scheme e with
  | Ok _ => True | Err err => kind err = NotFound | Panic => False
  end.

Lemma completed_has_length scheme e e' : completed scheme e = Some e' -> needs_length e' = false.
Proof.
  unfold completed. destruct (needs_length e) eqn:En; [|naive_solver].
  unfold ensure_file_content_length, mbind, outcome_bind.
  destruct (astat _ _) as [m| |]; [|done..]. destruct (has_content_length m); [|done].
  simpl. intros [= <-]. unfold needs_length, has_content_length. simpl. by rewrite orb_true_r.
Qed.

Lemma complete_next_step fuel l scheme e l' :
  list_next l = (Ok (Some e), l') -> answerable scheme e ->
  complete_next (S fuel) (mkCompleteLister l scheme) =
  match completed scheme e with
  | Some e' => (Ok (Some e'), mkCompleteLister l' scheme)
  | None => complete_next fuel (mkCompleteLister l' scheme)
  end.
Proof.
  intros E Ha. simpl. rewrite E. unfold completed, answerable in *. destruct (needs_length e); [|done]. simpl.
  specialize (Ha eq_refl). destruct (ensure_file_content_length scheme e); [done | | done].
  by rewrite bool_decide_eq_true_2.
Qed.

Lemma complete_next_more l scheme n es k :
  Lists list_next true l n es -> Forall (answerable scheme) es -> n < k ->
  complete_next (S k) (mkCompleteLister l scheme) = complete_next k (mkCompleteLister l scheme).
Proof.
  intros Hl. revert k. induction Hl as [l l' E|l e l' n es E Hl IH|]; intros k Ha Hk; [| |done];
    (destruct k as [|k]; [lia|]).
  - simpl. by rewrite E.
  - inversion_clear Ha. rewrite !(complete_next_step _ _ _ _ _ E) by done.
    destruct (completed scheme e); [done|]. apply IH; [done|lia].
Qed.

(** Listing through the layer: every file that is listed carries its
    length, fetched from the service when its listing lacks it; files that
    vanished meanwhile are left out, nothing else is, and the order is kept. *)
Theorem complete_lister_lists l scheme es fuel :
  lists list_next l es -> Forall (answerable scheme) es -> length es < fuel ->
  lists (complete_next fuel) (mkCompleteLister l scheme) (omap (completed scheme) es) /\
  Forall (fun e => needs_length e = false) (omap (completed scheme) es).
Proof.
  intros Hl Ha Hf. split.
  2: { apply Forall_forall. intros e' (e & _ & He)%list_elem_of_omap. by eapply completed_has_length. }
  unfold lists in *. revert Hl Hf. generalize (length es) at 1 2 as n. intros n Hl Hf.
  induction Hl as [l l' E|l e l' n es E Hl IH|]; [| |done]; (destruct fuel as [|f]; [lia|]).
  - eapply Lists_nil. simpl. by rewrite E.
  - inversion_clear Ha as [|? ? Hae Hae']. assert (Hrest := IH Hae' ltac:(lia)). cbn [omap list_omap].
    pose proof (complete_next_step f l scheme e l' E Hae) as Hstep.
    destruct (completed scheme e) as [e'|]; [by eapply Lists_cons|].
    eapply Lists_same_next; [|exact Hrest]. rewrite Hstep. symmetry. eapply complete_next_more; (done || lia).
Qed.

End CompleteList.

Lemma complete_lister_lists_witness :
  let astat (p : str) (_ : OpStat) := if bool_decide (p = b "a") then Ok (set_content_length 5 (meta_new FILE))
                                      else Err (error NotFound "gone") in
  lists (complete_next astat 3) (mkCompleteLister (L := SeqLister) (Ok <$> [file_entry "a"; file_entry "b"]) [])
    [mkEntry (b "a") (set_content_length 5 (meta_new FILE))].
Proof.
  refine (proj1 (complete_lister_lists (L := SeqLister) _ (Ok <$> [file_entry "a"; file_entry "b"]) []
    [file_entry "a"; file_entry "b"] 3 (SeqLister_lists _) _ _)); [|simpl; lia].
  repeat constructor.
Defined.

(** ** [CompleteAccessor] *)

Section CompleteLayer.
  Context {A Rd Wr Ls Dl Cp : Type}.
  Variable inner : Access A Rd Wr Ls Dl Cp.

Definition complete_access_read (path : str) (args : OpRead) : M A Error (option Metadata * CompleteReader Rd) :=
  let size := Range.size (read_range args) in
  '(rp, r) ← a_read inner path args;
  mret (rp, complete_reader_new r size).

Definition complete_access_write (path : str) (args : OpWrite) : M A Error (CompleteWriter Wr) :=
  w ← a_write inner path args;
  mret (complete_writer_new w (write_append args)).

Definition complete_access_list (path : str) (args : OpList) : M A Error (CompleteLister Ls) :=
  info ← gets (a_info inner);
  lister ← a_list inner path args;
  mret (mkCompleteLister lister (scheme info)).

Definition complete_layer : Access A (CompleteReader Rd) (CompleteWriter Wr) (CompleteLister Ls) Dl Cp :=
  {| a_info := a_info inner; a_create_dir := a_create_dir inner; a_stat := a_stat inner;
     a_read := complete_access_read; a_write := complete_access_write; a_delete := a_delete inner;
     a_list := complete_access_list; a_copy := a_copy inner; a_rename := a_rename inner |}.

End CompleteLayer.
