(* ===== verification/Copiers.v ===== *)
(** * Server-side copies ([raw/oio/copy], [types/copy.rs])

    [MultipartCopier] and [BlockCopier] cut a source into ranges, have the
    service copy each range in a [ConcurrentTasks] queue and complete the copy
    with the list of the parts; [OneShotCopier] runs one future; [Copier] is what
    the user of the library drives.

    As for the uploads, the service is the value of the moment.  A call of [next]
    awaits several times and repeats an await that failed temporarily, so a
    [CopyEnv] says how the service and the executor's timer answer at each
    attempt.  The code repeats for as long as the failures are temporary; the
    loops have a fuel, and the last theorems show how much is enough. *)

From S2P Require Import Prelude Errors Path Range Buffer Types Access Tasks Uploads Retry.
From Stdlib Require Import Sorting.Sorted.
From stdpp Require Import options.
Local Open Scope Z_scope.

(** ** Loops around the task queue *)

Section Loops.
  Context {I O : Type}.
  Implicit Types s : ConcurrentTasks I O.

(** [loop { match self.tasks.execute(input.clone()).await { .. } }]; attempt [a]
    finds the tasks answering as [attempt a] says. *)
Fixpoint execute_until (fuel : nat) (attempt : nat -> I -> I * result O) (a : nat) (input : I)
  : M (ConcurrentTasks I O) Error unit :=
  match fuel with
  | 0%nat => panic
  | S f => fun s =>
      match execute (attempt a) input s with
      | (Err err, s') => if is_temporary err then execute_until f attempt (S a) input s' else (Err err, s')
      | out => out
      end
  end.

(** [loop { match self.tasks.next().await { .. } }]. *)
Fixpoint next_until (fuel : nat) (attempt : nat -> I -> I * result O) (a : nat) (s : ConcurrentTasks I O)
  : option (result O) * ConcurrentTasks I O :=
  match fuel with
  | 0%nat => (Some Panic, s)
  | S f =>
      match next (attempt a) s with
      | (Some (Err err), s') => if is_temporary err then next_until f attempt (S a) s' else (Some (Err err), s')
      | out => out
      end
  end.

(** [while more && scheduled < concurrent { body; if stop { break } }], [slots]
    being what is left of [concurrent]. *)
Fixpoint fill_loop {T} (more stop : T -> bool) (body : nat -> M T Error unit) (slots : nat) : M T Error unit :=
  match slots with
  | 0%nat => mret tt
  | S k =>
      s ← get;
      if more s then
        body slots;;
        s ← get;
        if stop s then mret tt else fill_loop more stop body k
      else mret tt
  end.

(** *** What the loops keep *)

Lemma next_err_outstanding attempt s e s' :
  next attempt s = (Some (Err e), s') -> is_temporary e = true ->
  outstanding s' = outstanding s /\ (0 < outstanding s)%nat.
Proof.
  unfold next, outstanding. destruct (errored s); [intros ?; by simplify_eq|].
  destruct (results s) as [|] eqn:Er; [|done]. destruct (tasks s) as [|t rest] eqn:Et; [done|].
  unfold await_front, on_error.
  destruct (t_out t) as [[i []]|]; [| | |destruct (attempt (t_in t)) as [i []]]; intros ? Ht; simplify_eq;
    rewrite Ht; simpl; rewrite Er; simpl; lia.
Qed.

Section Inv.
  Context (R : I -> O -> Prop) (valid : I -> Prop).

Lemma execute_until_inv fuel attempt a input acc out s r s' :
  (forall a, await_ok R valid (attempt a)) -> valid input -> tasks_inv R valid acc out s ->
  execute_until fuel attempt a input s = (r, s') ->
  match r with
  | Ok _ => tasks_inv R valid (acc ++ [input]) out s'
  | Err _ => tasks_inv R valid acc out s'
  | Panic => True
  end.
Proof.
  intros Ha Hv. revert a s. induction fuel as [|f IH]; intros a s Hi; simpl; [unfold panic; intros ?; by simplify_eq|].
  destruct (execute (attempt a) input s) as [x s1] eqn:E.
  eapply execute_tasks_inv in E; [|done..].
  destruct x as [[]|e|]; [intros ?; by simplify_eq| |done].
  destruct (is_temporary e); [by apply IH | intros ?; by simplify_eq].
Qed.

Lemma next_until_inv fuel attempt a acc out s r s' :
  (forall a, await_ok R valid (attempt a)) -> tasks_inv R valid acc out s ->
  next_until fuel attempt a s = (r, s') ->
  match r with
  | Some (Ok o) => tasks_inv R valid acc (out ++ [o]) s'
  | Some (Err _) => tasks_inv R valid acc out s'
  | Some Panic => True
  | None => tasks_inv R valid acc out s' /\ Forall2 R acc out /\ outstanding s = 0%nat
  end.
Proof.
  intros Ha. revert a s. induction fuel as [|f IH]; intros a s Hi; simpl; [unfold panic; intros ?; by simplify_eq|].
  destruct (next (attempt a) s) as [x s1] eqn:E. pose proof E as E'.
  eapply next_tasks_inv in E; [|done..].
  destruct x as [[o|e|]|]; [intros ?; by simplify_eq| |done|].
  - destruct (is_temporary e) eqn:Ht; [|intros ?; by simplify_eq].
    intros Hn. pose proof (IH _ _ E Hn) as Hr. destruct r as [[]|]; try done.
    destruct Hr as (? & ? & H0). apply next_err_outstanding in E'; [lia | done].
  - destruct E as (-> & H2 & Ht & Hr). intros ?. simplify_eq. split_and!; [done|done|].
    unfold outstanding. by rewrite Ht, Hr.
Qed.

End Inv.

Lemma fill_loop_inv {T} (Inv : T -> Prop) more stop (body : nat -> M T Error unit) slots (s : T) r (s' : T) :
  (forall k (s : T) r (s' : T), Inv s -> more s = true -> body k s = (r, s') -> r <> Panic -> Inv s') ->
  Inv s -> fill_loop more stop body slots s = (r, s') -> r <> Panic -> Inv s'.
Proof.
  intros Hb. revert s. induction slots as [|k IH]; intros s Hi; simpl; unfold mbind, M_bind, get, mret, M_ret.
  { intros ? _. by simplify_eq. }
  destruct (more s) eqn:Hm; [|intros ? _; by simplify_eq].
  destruct (body (S k) s) as [r1 s1] eqn:E.
  destruct r1 as [[]|e|]; [|intros ? ?; simplify_eq; by eapply Hb|intros ?; by simplify_eq].
  assert (Inv s1) as Hi1 by by eapply Hb.
  destruct (stop s1); [intros ? _; by simplify_eq | by apply IH].
Qed.

Lemma fill_loop_ok {T} (Inv : T -> Prop) more stop (body : nat -> M T Error unit) slots (s : T) :
  (forall k (s : T), Inv s -> more s = true -> exists s' : T, body k s = (Ok tt, s') /\ Inv s') ->
  Inv s -> exists s' : T, fill_loop more stop body slots s = (Ok tt, s') /\ Inv s'.
Proof.
  intros Hb. revert s. induction slots as [|k IH]; intros s Hi; simpl; unfold mbind, M_bind, get, mret, M_ret;
    [by eauto|].
  destruct (more s) eqn:Hm; [|by eauto]. destruct (Hb (S k) s Hi Hm) as (s1 & -> & Hi1).
  destruct (stop s1); [by eauto | by apply IH].
Qed.

(** A loop that returns has nothing more to do, or has just done something. *)
Lemma fill_loop_did {T} (Did : T -> Prop) more stop (body : nat -> M T Error unit) slots (s s' : T) :
  (forall k (s s' : T), body k s = (Ok tt, s') -> Did s') -> (0 < slots)%nat ->
  fill_loop more stop body slots s = (Ok tt, s') -> more s' = false \/ Did s'.
Proof.
  intros Hb. revert s. induction slots as [|k IH]; intros s Hs; [lia|].
  simpl. unfold mbind, M_bind, get, mret, M_ret.
  destruct (more s) eqn:Hm; [|intros ?; simplify_eq; by left].
  destruct (body (S k) s) as [r1 s1] eqn:E. destruct r1 as [[]|e|]; [|done|done].
  apply Hb in E. destruct (stop s1); [intros ?; simplify_eq; by right|].
  destruct k as [|k]; [unfold fill_loop, mret, M_ret; intros ?; simplify_eq; by right | apply IH; lia].
Qed.

Lemma execute_outstanding attempt input s s' :
  execute attempt input s = (Ok tt, s') -> outstanding s' = S (outstanding s).
Proof.
  unfold execute, mbind, M_bind, get, throw, panic, modify, put, mret, M_ret, outstanding.
  destruct (errored s); [done|]. destruct (is_concurrent s); simpl.
  2: { destruct (attempt input).2; intros ?; simplify_eq. simpl. rewrite length_app. simpl. lia. }
  destruct (has_remaining s); [intros ?; simplify_eq; simpl; rewrite length_app; simpl; lia|].
  destruct (tasks s) as [|t rest] eqn:Et; [done|]. unfold await_front.
  destruct (t_out t) as [[i []]|]; [| | |destruct (attempt (t_in t)) as [i []]]; intros ?; simplify_eq; simpl;
    rewrite !length_app; simpl; lia.
Qed.

Lemma execute_err_outstanding attempt input s e s' :
  execute attempt input s = (Err e, s') -> is_temporary e = true -> outstanding s' = outstanding s.
Proof.
  unfold execute, mbind, M_bind, get, throw, panic, modify, put, mret, M_ret, outstanding.
  destruct (errored s); [intros ?; by simplify_eq|]. destruct (is_concurrent s); simpl.
  2: { destruct (attempt input).2; intros ?; by simplify_eq. }
  destruct (has_remaining s); [done|].
  destruct (tasks s) as [|t rest] eqn:Et; [done|]. unfold await_front, on_error.
  destruct (t_out t) as [[i []]|]; [| | |destruct (attempt (t_in t)) as [i []]]; intros ? Ht; simplify_eq; simpl;
    rewrite Ht; simpl; lia.
Qed.

Lemma execute_until_outstanding fuel attempt a input s s' :
  execute_until fuel attempt a input s = (Ok tt, s') -> outstanding s' = S (outstanding s).
Proof.
  revert a s. induction fuel as [|f IH]; intros a s; simpl; [done|].
  destruct (execute (attempt a) input s) as [[[]|e|] s1] eqn:E; [| |done].
  - intros ?. simplify_eq. by eapply execute_outstanding.
  - destruct (is_temporary e) eqn:Ht; [|done]. intros Hn.
    by rewrite (IH _ _ Hn), (execute_err_outstanding _ _ _ _ _ E Ht).
Qed.

(** *** What the loops need to end *)

Section Steady.
  Context (valid : I -> Prop).

(** A task that succeeds or fails temporarily; [valid]: the inputs it may get. *)
Definition settled (x : I * result O) : Prop :=
  match x.2 with Ok _ => True | Err e => is_temporary e = true /\ valid x.1 | Panic => False end.
Definition task_settled (t : Task I O) : Prop :=
  match t_out t with Some x => settled x | None => valid (t_in t) end.

(** No task has failed for good. *)
Definition recoverable s : Prop :=
  errored s = false /\ (is_concurrent s = false -> tasks s = []) /\
  Forall task_settled (tasks s).
Definition front_ready s : Prop :=
  match tasks s with
  | t :: _ => match t_out t with Some (_, Err _) => False | _ => True end
  | [] => True
  end.

(** Until attempt [k] the tasks may fail temporarily, from then on they succeed. *)
Definition steady (k : nat) (attempt : nat -> I -> I * result O) : Prop :=
  forall a i, valid i -> settled (attempt a i) /\ ((k <= a)%nat -> exists o, (attempt a i).2 = Ok o).

Lemma recoverable_new c p : recoverable (tasks_new c p).
Proof. split_and!; [done|done|constructor]. Qed.

(** Taking the front task of a recoverable queue. *)
Lemma await_front_steady await t rest s i r s' :
  recoverable s -> tasks s = t :: rest -> (forall i, valid i -> settled (await i)) ->
  await_front await t s = ((i, r), s') ->
  settled (i, r) /\ is_concurrent s = true /\ is_concurrent s' = true /\ errored s' = false /\
  Forall task_settled rest /\
  ((forall i, valid i -> exists o, (await i).2 = Ok o) -> front_ready s -> exists o, r = Ok o).
Proof.
  intros (He & Hc & Ht) Et Hw. rewrite Et in Ht. inversion Ht as [|? ? Ht1 Ht2]; subst.
  assert (is_concurrent s = true) as Hc'. { destruct (is_concurrent s); [done|]. by rewrite Hc in Et. }
  unfold task_settled in Ht1.
  unfold await_front, front_ready. rewrite Et. destruct (t_out t) as [[i' r']|] eqn:Eo; intros ?; simplify_eq.
  - split_and!; try done. intros _. destruct r; [by eauto | done | done].
  - pose proof (Hw (t_in t) Ht1) as Hs. rewrite H in Hs. split_and!; try done.
    intros Ho _. specialize (Ho (t_in t) Ht1). by rewrite H in Ho.
Qed.

Lemma execute_steady await input s r s' :
  recoverable s -> valid input -> (forall i, valid i -> settled (await i)) -> execute await input s = (r, s') ->
  recoverable s' /\
  match r with Ok _ => True | Err e => is_temporary e = true /\ front_ready s' | Panic => False end /\
  ((forall i, valid i -> exists o, (await i).2 = Ok o) -> front_ready s -> r = Ok tt).
Proof.
  intros Hr Hv Hw. pose proof Hr as (He & Hc & Ht).
  unfold execute, mbind, M_bind, get, throw, panic, modify, put, mret, M_ret. rewrite He.
  destruct (is_concurrent s) eqn:Ec; cbn [negb].
  2: { pose proof (Hw input Hv) as Hs. specialize (Hc eq_refl).
       unfold settled in Hs. destruct (await input).2 as [o|e|] eqn:Ea; intros ?; simplify_eq; [| |done].
       - split_and!; [by split_and!|done|done].
       - split_and!; [done|apply Hs|unfold front_ready; by rewrite Hc|].
         intros Ho _. destruct (Ho input Hv) as [? Ho']. by rewrite Ea in Ho'. }
  destruct (has_remaining s) eqn:Hrem.
  { intros ?. simplify_eq. split_and!; [|done|done]. split_and!; [done|intros Hf; unfold is_concurrent in *; simpl in *; congruence|].
    simpl. apply Forall_app. by repeat constructor. }
  destruct (tasks s) as [|t rest] eqn:Et; [by apply full_not_empty in Hrem|].
  destruct (await_front await t s) as [[i x] s1] eqn:Ea.
  eapply await_front_steady in Ea as (Hx & _ & Hc1 & He1 & Hrest & Hok); [|done..].
  unfold is_concurrent in *. destruct x as [o|e|]; intros ?; simplify_eq; [| |done].
  - split_and!; [|done|done]. split_and!; [done|unfold is_concurrent; simpl; congruence|]. simpl.
    apply Forall_app. by repeat constructor.
  - destruct Hx as [Hx Hxv]. unfold on_error. simpl in Hx. rewrite Hx.
    split_and!; [split_and!; [done|simpl; unfold is_concurrent; simpl; congruence|by constructor]|done|done|].
    intros Ho Hf. by destruct (Hok Ho Hf).
Qed.

Lemma next_steady await s r s' :
  recoverable s -> (forall i, valid i -> settled (await i)) -> next await s = (r, s') ->
  recoverable s' /\
  match r with
  | Some (Ok _) | None => True
  | Some (Err e) => is_temporary e = true /\ front_ready s'
  | Some Panic => False
  end /\
  ((forall i, valid i -> exists o, (await i).2 = Ok o) -> front_ready s -> match r with Some (Err _) => False | _ => True end).
Proof.
  intros Hr Hw. pose proof Hr as (He & Hc & Ht). unfold next. rewrite He.
  destruct (results s) as [|o rs]; [|intros ?; by simplify_eq].
  destruct (tasks s) as [|t rest] eqn:Et; [intros ?; by simplify_eq|].
  destruct (await_front await t s) as [[i x] s1] eqn:Ea.
  eapply await_front_steady in Ea as (Hx & _ & Hc1 & He1 & Hrest & Hok); [|done..].
  unfold is_concurrent in *. destruct x as [o|e|]; intros ?; simplify_eq; [| |done].
  - split_and!; [|done|done]. split_and!; [done|simpl; unfold is_concurrent; simpl; congruence|done].
  - destruct Hx as [Hx Hxv]. unfold on_error. simpl in Hx. rewrite Hx.
    split_and!; [split_and!; [done|simpl; unfold is_concurrent; simpl; congruence|by constructor]|done|done|].
    intros Ho Hf. by destruct (Hok Ho Hf).
Qed.

(** [k + 2] attempts are enough: once the service is up, the only failure left
    is one that a task had already met. *)
Lemma execute_until_steady k fuel attempt a input s :
  steady k attempt -> recoverable s -> valid input ->
  (k - a + 2 <= fuel \/ (k <= a /\ front_ready s /\ 1 <= fuel))%nat ->
  exists s', execute_until fuel attempt a input s = (Ok tt, s') /\ recoverable s'.
Proof.
  intros Hs. revert a s. induction fuel as [|f IH]; intros a s Hr Hv Hf; [lia|]. simpl.
  destruct (execute (attempt a) input s) as [r s1] eqn:E.
  eapply execute_steady in E as (Hr1 & Hx & Ho); [|done|done|intros i Hi; by apply Hs].
  destruct r as [[]|e|]; [by eauto| |done]. destruct Hx as [-> Hx].
  apply IH; [done|done|]. destruct (decide (k <= a)%nat) as [Hk|Hk]; [|left; lia].
  destruct Hf as [Hf|(_ & Hf & _)]; [right; split_and!; [lia|done|lia]|].
  enough (Err e = Ok tt) by done. apply Ho; [intros i Hi; by apply Hs | done].
Qed.

Lemma next_until_steady k fuel attempt a s :
  steady k attempt -> recoverable s ->
  (k - a + 2 <= fuel \/ (k <= a /\ front_ready s /\ 1 <= fuel))%nat ->
  exists r s', next_until fuel attempt a s = (r, s') /\ recoverable s' /\
    match r with Some (Ok _) => (outstanding s' < outstanding s)%nat | None => outstanding s = 0%nat | _ => False end.
Proof.
  intros Hs. revert a s. induction fuel as [|f IH]; intros a s Hr Hf; [lia|]. simpl.
  destruct (next (attempt a) s) as [r s1] eqn:E. pose proof E as E'.
  eapply next_steady in E as (Hr1 & Hx & Ho); [|done|intros i Hi; by apply Hs].
  destruct r as [[o|e|]|]; [| |done|].
  - do 2 eexists. split_and!; [done..|]. by eapply next_outstanding.
  - destruct Hx as [Ht Hx]. rewrite Ht.
    destruct (IH (S a) s1) as (r & s2 & E2 & Hr2 & H2); [done|..].
    + destruct (decide (k <= a)%nat) as [Hk|Hk]; [|left; lia].
      destruct Hf as [Hf|(_ & Hf & _)]; [right; split_and!; [lia|done|lia]|].
      exfalso. apply Ho; [intros i Hi; by apply Hs | done].
    + do 2 eexists. split_and!; [done..|]. apply next_err_outstanding in E' as [Hout _]; [|done].
      destruct r as [[]|]; [lia|done|done|lia].
  - do 2 eexists. split_and!; [done..|]. unfold next in E'. unfold outstanding.
    destruct (errored s); [done|]. destruct (results s); [|done]. destruct (tasks s); [done|].
    destruct (await_front _ _ _) as [[i []] ?]; done.
Qed.

End Steady.

End Loops.

Section LoopsConf.
  Context {I O : Type}.
  Implicit Types s : ConcurrentTasks I O.

Lemma execute_until_conf fuel attempt a input s r s' :
  execute_until fuel attempt a input s = (r, s') -> concurrent s' = concurrent s.
Proof.
  revert a s. induction fuel as [|f IH]; intros a s; simpl; [unfold panic; intros ?; by simplify_eq|].
  destruct (execute (attempt a) input s) as [x s1] eqn:E. apply execute_conf in E as [E _].
  destruct x as [[]|e|]; [intros ?; by simplify_eq| |intros ?; by simplify_eq].
  destruct (is_temporary e); [intros H%IH; congruence | intros ?; by simplify_eq].
Qed.

Lemma next_until_conf fuel attempt a s r s' :
  next_until fuel attempt a s = (r, s') -> concurrent s' = concurrent s.
Proof.
  revert a s. induction fuel as [|f IH]; intros a s; simpl; [intros ?; by simplify_eq|].
  destruct (next (attempt a) s) as [x s1] eqn:E. apply next_conf in E as [E _].
  destruct x as [[o|e|]|]; [intros ?; by simplify_eq| |intros ?; by simplify_eq..].
  destruct (is_temporary e); [intros H%IH; congruence | intros ?; by simplify_eq].
Qed.

(** A queue that takes nothing more has something in it. *)
Lemma full_outstanding s : (1 <= concurrent s)%nat -> has_remaining s = false -> (0 < outstanding s)%nat.
Proof. unfold has_remaining, outstanding. rewrite bool_decide_eq_false. lia. Qed.

End LoopsConf.

(** ** Cutting a source into ranges *)

(** [rs] are the ranges of [part] bytes, the last one cut at [total], that lead
    from [lo] to [hi]. *)
Fixpoint tiles (part total lo hi : Z) (rs : list BytesRange) : Prop :=
  match rs with
  | [] => lo = hi
  | r :: rs' => r = mkRange lo (Some (Z.min part (total - lo))) /\
                tiles part total (lo + Z.min part (total - lo)) hi rs'
  end.

Lemma tiles_snoc part total lo hi rs :
  tiles part total lo hi rs ->
  tiles part total lo (hi + Z.min part (total - hi)) (rs ++ [mkRange hi (Some (Z.min part (total - hi)))]).
Proof. revert lo. induction rs as [|r rs IH]; intros lo; simpl; [by intros -> | intros [-> H]; eauto]. Qed.

Definition range_size (r : BytesRange) : nat := Z.to_nat (default 0 (size r)).

Lemma tiles_sum part total lo hi rs :
  0 <= part -> lo <= total -> tiles part total lo hi rs ->
  lo <= hi <= total /\ Z.of_nat (sum_list (range_size <$> rs)) = hi - lo.
Proof.
  intros Hp. revert lo. induction rs as [|r rs IH]; intros lo Hlo; csimpl; [simpl; intros ->; lia|].
  intros [-> H]. apply IH in H as [H1 H2]; [|lia]. rewrite Nat2Z.inj_add, H2. unfold range_size. simpl. lia.
Qed.

(** ** Multipart copies *)

(** What happens during one call: the service [now], and the service and the
    timer [during] attempt [a] of the call's loop [j]. *)
Record CopyEnv (C I : Type) : Type := mkEnv {
  now : C; during : nat -> nat -> C * option (I -> bool);
}.
Arguments mkEnv {C I}.
Arguments now {C I}.
Arguments during {C I}.

Class MultipartCopy (C : Type) : Type := {
  mcp_source_metadata : C -> result Metadata;
  mcp_copy_once : C -> result Metadata;
  mcp_initiate_copy : C -> result str;
  mcp_copy_part : C -> str -> nat -> BytesRange -> result MultipartPart;
  mcp_complete_copy : C -> str -> list MultipartPart -> result Metadata;
  mcp_abort_copy : C -> str -> result unit;
}.

Record CopyInput : Type := mkCopyInput { ci_upload_id : str; ci_part_number : nat; ci_range : BytesRange }.
Record CopiedPart : Type := mkCopied { cd_part : MultipartPart; cd_size : Z }.

Record MultipartCopier : Type := mkMultipartCopier {
  mc_info : AccessorInfo;
  mc_upload_id : option str;
  mc_parts : list MultipartPart;
  mc_next_part_number : nat;
  mc_next_offset : Z;
  mc_source_size : option Z;
  mc_copy_once_threshold : Z;
  mc_part_size : Z;
  mc_concurrent : nat;
  mc_completed : bool;
  mc_metadata : option Metadata;
  mc_tasks : ConcurrentTasks CopyInput CopiedPart;
}.

Definition multipart_copier_new (info : AccessorInfo) (source_content_length_hint : option Z)
    (copy_once_threshold part_size : Z) (concurrent : nat) : MultipartCopier :=
  let concurrent := Nat.max concurrent 1 in
  mkMultipartCopier info None [] 0 0 source_content_length_hint copy_once_threshold part_size concurrent
    false None (tasks_new concurrent UPLOAD_PREFETCH).

Definition mc_set_upload_id (v : option str) (s : MultipartCopier) : MultipartCopier :=
  mkMultipartCopier (mc_info s) v (mc_parts s) (mc_next_part_number s) (mc_next_offset s) (mc_source_size s)
    (mc_copy_once_threshold s) (mc_part_size s) (mc_concurrent s) (mc_completed s) (mc_metadata s) (mc_tasks s).
Definition mc_set_parts (v : list MultipartPart) (s : MultipartCopier) : MultipartCopier :=
  mkMultipartCopier (mc_info s) (mc_upload_id s) v (mc_next_part_number s) (mc_next_offset s) (mc_source_size s)
    (mc_copy_once_threshold s) (mc_part_size s) (mc_concurrent s) (mc_completed s) (mc_metadata s) (mc_tasks s).
(** [next_offset] stays within the [u64] the source size is. *)
Definition mc_advance (size : Z) (s : MultipartCopier) : MultipartCopier :=
  mkMultipartCopier (mc_info s) (mc_upload_id s) (mc_parts s) (S (mc_next_part_number s))
    (mc_next_offset s + size) (mc_source_size s) (mc_copy_once_threshold s) (mc_part_size s) (mc_concurrent s)
    (mc_completed s) (mc_metadata s) (mc_tasks s).
Definition mc_set_source_size (v : Z) (s : MultipartCopier) : MultipartCopier :=
  mkMultipartCopier (mc_info s) (mc_upload_id s) (mc_parts s) (mc_next_part_number s) (mc_next_offset s) (Some v)
    (mc_copy_once_threshold s) (mc_part_size s) (mc_concurrent s) (mc_completed s) (mc_metadata s) (mc_tasks s).
Definition mc_finish (m : option Metadata) (s : MultipartCopier) : MultipartCopier :=
  mkMultipartCopier (mc_info s) (mc_upload_id s) (mc_parts s) (mc_next_part_number s) (mc_next_offset s)
    (mc_source_size s) (mc_copy_once_threshold s) (mc_part_size s) (mc_concurrent s) true m (mc_tasks s).
Definition mc_set_tasks (v : ConcurrentTasks CopyInput CopiedPart) (s : MultipartCopier) : MultipartCopier :=
  mkMultipartCopier (mc_info s) (mc_upload_id s) (mc_parts s) (mc_next_part_number s) (mc_next_offset s)
    (mc_source_size s) (mc_copy_once_threshold s) (mc_part_size s) (mc_concurrent s) (mc_completed s)
    (mc_metadata s) v.

(** [u64::div_ceil]. *)
Definition div_ceil (a b : Z) : result Z :=
  if bool_decide (b = 0) then Panic else Ok ((a + b - 1) / b).

Definition too_many_parts (source_size part_size part_count max_parts : Z) : Error :=
  with_context (b "max_parts") (show_u64 max_parts)
    (with_context (b "part_count") (show_u64 part_count)
      (with_context (b "part_size") (show_u64 part_size)
        (with_context (b "source_size") (show_u64 source_size)
          (error Unsupported
            "multipart copy part count exceeds service limit, please increase `OpCopier::chunk`")))).

Definition validate_part_count (source_size : Z) (s : MultipartCopier) : result unit :=
  let capability := full_capability (mc_info s) in
  match cap_write_total_max_size capability, cap_write_multi_max_size capability with
  | Some max_total_size, Some max_part_size =>
      if bool_decide (max_part_size = 0%nat) then Ok tt
      else
        max_parts ← div_ceil (Z.of_nat max_total_size) (Z.of_nat max_part_size);
        part_count ← div_ceil source_size (mc_part_size s);
        if bool_decide (max_parts < part_count)
        then Err (too_many_parts source_size (mc_part_size s) part_count max_parts)
        else Ok tt
  | _, _ => Ok tt
  end.

(** [sort_by_key], which is stable. *)
Fixpoint insert_by {A} (key : A -> nat) (x : A) (l : list A) : list A :=
  match l with
  | [] => [x]
  | y :: l' => if bool_decide (key x <= key y)%nat then x :: l else y :: insert_by key x l'
  end.
Definition sort_by_key {A} (key : A -> nat) (l : list A) : list A := foldr (insert_by key) [] l.

Section Multipart.
  Context {C : Type} `{MultipartCopy C}.

Definition copy_timeout (input : CopyInput) : Error :=
  set_temporary (with_context (b "part_number") (show_u64 (Z.of_nat (ci_part_number input)))
    (with_context (b "upload_id") (ci_upload_id input) (error Unexpected "copy part timeout"))).

(** The task factory. *)
Definition copy_part_task (m : C * option (CopyInput -> bool)) (input : CopyInput)
  : CopyInput * result CopiedPart :=
  match size (ci_range input) with
  | None => (input, Panic)
  | Some size =>
      with_timeout m.2 copy_timeout (fun input =>
        part ← mcp_copy_part m.1 (ci_upload_id input) (ci_part_number input) (ci_range input);
        Ok (mkCopied part size)) input
  end.
Definition copy_attempts (e : CopyEnv C CopyInput) (j a : nat) : CopyInput -> CopyInput * result CopiedPart :=
  copy_part_task (during e j a).

Definition mc_get_source_size (c : C) : M MultipartCopier Error Z :=
  s ← get;
  match mc_source_size s with
  | Some size => mret size
  | None =>
      meta ← lift (mcp_source_metadata c);
      let size := content_length meta in
      modify (mc_set_source_size size);;
      mret size
  end.

Definition mc_get_upload_id (c : C) : M MultipartCopier Error str :=
  s ← get;
  match mc_upload_id s with
  | Some upload_id => mret upload_id
  | None =>
      upload_id ← lift (mcp_initiate_copy c);
      modify (mc_set_upload_id (Some upload_id));;
      mret upload_id
  end.

(** One round of [fill_tasks]. *)
Definition mc_submit (fuel : nat) (e : CopyEnv C CopyInput) (upload_id : str) (source_size : Z) (j : nat)
  : M MultipartCopier Error unit :=
  s ← get;
  let size := Z.min (mc_part_size s) (source_size - mc_next_offset s) in
  let range := mkRange (mc_next_offset s) (Some size) in
  let input := mkCopyInput upload_id (mc_next_part_number s) range in
  zoom mc_tasks mc_set_tasks (execute_until fuel (copy_attempts e j) 0 input);;
  modify (mc_advance size).

Definition mc_fill_tasks (fuel : nat) (e : CopyEnv C CopyInput) (upload_id : str) (source_size : Z)
  : M MultipartCopier Error unit :=
  concurrent ← gets mc_concurrent;
  fill_loop
    (fun s => bool_decide (mc_next_offset s < source_size) && has_remaining (mc_tasks s))
    (fun s => has_result (mc_tasks s))
    (mc_submit fuel e upload_id source_size)
    concurrent.

Definition copy_mismatch (upload_id : str) (s : MultipartCopier) : Error :=
  with_context (b "upload_id") upload_id
    (with_context (b "actual") (show_u64 (Z.of_nat (length (mc_parts s))))
      (with_context (b "expected") (show_u64 (Z.of_nat (mc_next_part_number s)))
        (error Unexpected "multipart copy part numbers mismatch, please report bug to opendal"))).

(** The end of [next]: deliver one part, or complete the copy. *)
Definition mc_deliver (fuel : nat) (e : CopyEnv C CopyInput) (upload_id : str)
  : M MultipartCopier Error (option nat) :=
  s ← get;
  let '(x, ts) := next_until fuel (copy_attempts e 0) 0 (mc_tasks s) in
  modify (mc_set_tasks ts);;
  match x with
  | Some (Ok result) =>
      modify (fun s => mc_set_parts (mc_parts s ++ [cd_part result]) s);;
      mret (Some (Z.to_nat (cd_size result)))
  | Some (Err err) => throw err
  | Some Panic => panic
  | None =>
      s ← get;
      if negb (bool_decide (length (mc_parts s) = mc_next_part_number s))
      then throw (copy_mismatch upload_id s)
      else
        modify (fun s => mc_set_parts (sort_by_key p_part_number (mc_parts s)) s);;
        s ← get;
        meta ← lift (mcp_complete_copy (now e) upload_id (mc_parts s));
        modify (mc_finish (Some meta));;
        mret None
  end.

Definition is_none {X} (o : option X) : bool := bool_decide (o = None).

Definition multipart_copier_next (fuel : nat) (e : CopyEnv C CopyInput) : M MultipartCopier Error (option nat) :=
  s ← get;
  if mc_completed s then mret None
  else
    source_size ← mc_get_source_size (now e);
    s ← get;
    if is_none (mc_upload_id s) && bool_decide (source_size <= mc_copy_once_threshold s) then
      meta ← lift (mcp_copy_once (now e));
      modify (mc_finish (Some meta));;
      mret None
    else
      (if is_none (mc_upload_id s) then lift (validate_part_count source_size s) else mret tt);;
      upload_id ← mc_get_upload_id (now e);
      mc_fill_tasks fuel e upload_id source_size;;
      mc_deliver fuel e upload_id.

(** [while !self.completed { self.next().await?; }]; round [k] has the
    environment [env k]. *)
Fixpoint multipart_copier_close (rounds : nat) (fuel : nat) (env : nat -> CopyEnv C CopyInput)
  : M MultipartCopier Error Metadata :=
  s ← get;
  if mc_completed s then mret (default meta_default (mc_metadata s))
  else match rounds with
  | 0%nat => panic
  | S k =>
      multipart_copier_next fuel (env 0%nat);;
      multipart_copier_close k fuel (fun i => env (S i))
  end.

Definition multipart_copier_abort (c : C) : M MultipartCopier Error unit :=
  modify (fun s => mc_set_tasks (clear (mc_tasks s)) s);;
  s ← get;
  modify (mc_set_upload_id None);;
  match mc_upload_id s with
  | None => mret tt
  | Some upload_id =>
      lift (mcp_abort_copy c upload_id);;
      modify (mc_finish None)
  end.

End Multipart.

(** *** Integrity *)

Lemma sort_by_key_sorted {A} (key : A -> nat) l :
  Sorted Nat.le (key <$> l) -> sort_by_key key l = l.
Proof.
  induction l as [|x l IH]; [done|]. csimpl. intros Hs. inversion Hs as [|? ? Hl Hx]; subst.
  rewrite IH by done. destruct l as [|y l]; [done|]. inversion Hx; subst. simpl.
  by rewrite bool_decide_eq_true_2.
Qed.
Lemma seq_sorted m n : Sorted Nat.le (seq m n).
Proof.
  revert m. induction n as [|n IH]; intros m; simpl; constructor; [done|].
  destruct n; simpl; constructor. lia.
Qed.

Section MultipartCopySpec.
  Context {C : Type} `{MultipartCopy C}.
  (** [acked i p]: [p] is what the service answered to the copy of [i]; parts
      are numbered as asked. *)
  Variable acked : CopyInput -> MultipartPart -> Prop.
  Hypothesis acked_number : forall i p, acked i p -> p_part_number p = ci_part_number i.

Definition copied (i : CopyInput) (o : CopiedPart) : Prop :=
  acked i (cd_part o) /\ size (ci_range i) = Some (cd_size o).
Definition sized (i : CopyInput) : Prop := is_Some (size (ci_range i)).

(** The service answers as it does, and source sizes are not negative. *)
Definition copy_env_ok (e : CopyEnv C CopyInput) : Prop :=
  (forall j a, await_ok copied sized (copy_attempts e j a)) /\
  (forall m, mcp_source_metadata (now e) = Ok m -> 0 <= content_length m).

(** How a copier gets somewhere before it is complete; the index is the progress
    its [next] has reported. *)
Inductive mc_reach : list nat -> MultipartCopier -> Prop :=
  | mc_reach_new info hint threshold part_size concurrent :
      from_option (fun n => 0 <= n) True hint -> 0 <= part_size ->
      mc_reach [] (multipart_copier_new info hint threshold part_size concurrent)
  | mc_reach_next prog s fuel e n s' :
      mc_reach prog s -> copy_env_ok e -> multipart_copier_next fuel e s = (Ok (Some n), s') ->
      mc_reach (prog ++ [n]) s'
  | mc_reach_err prog s fuel e err s' :
      mc_reach prog s -> copy_env_ok e -> multipart_copier_next fuel e s = (Err err, s') ->
      mc_reach prog s'
  | mc_reach_finish prog s k r :
      mc_reach prog s -> event_ok copied sized (mc_tasks s) (Finish k r) ->
      mc_reach prog (mc_set_tasks (finish k r (mc_tasks s)) s).

(** The inputs submitted so far are numbered from 0, belong to one upload and
    tile the source up to [next_offset]; what has been delivered are the parts
    and the progress. *)
Definition mc_planned (s : MultipartCopier) (inputs : list CopyInput) : Prop :=
  (ci_part_number <$> inputs) = seq 0 (mc_next_part_number s) /\
  match mc_source_size s with
  | Some n => tiles (mc_part_size s) n 0 (mc_next_offset s) (ci_range <$> inputs) /\ 0 <= n
  | None => inputs = [] /\ mc_next_offset s = 0
  end /\
  match mc_upload_id s with
  | None => inputs = [] /\ mc_parts s = []
  | Some u => Forall (fun i => ci_upload_id i = u) inputs
  end.
Definition mc_inv (prog : list nat) (s : MultipartCopier) : Prop :=
  mc_completed s = false /\ 0 <= mc_part_size s /\ (1 <= mc_concurrent s)%nat /\
  (1 <= concurrent (mc_tasks s))%nat /\
  exists inputs delivered,
    tasks_inv copied sized inputs delivered (mc_tasks s) /\ mc_planned s inputs /\
    mc_parts s = cd_part <$> delivered /\ prog = (Z.to_nat ∘ cd_size) <$> delivered.

Lemma mc_submit_inv fuel e u n j prog s r s' :
  copy_env_ok e -> mc_inv prog s -> mc_source_size s = Some n -> mc_upload_id s = Some u ->
  mc_submit fuel e u n j s = (r, s') -> r <> Panic ->
  mc_inv prog s' /\ mc_source_size s' = Some n /\ mc_upload_id s' = Some u.
Proof.
  intros [He _] (H1 & H2 & H3 & H4 & inputs & delivered & Hi & (Hn & Ht & Hu) & Hp & Hg) Hs Hid.
  unfold mc_submit, mbind, M_bind, get, modify, zoom. rewrite Hs, Hid in *.
  destruct (execute_until _ _ _ _ (mc_tasks s)) as [x ts] eqn:E.
  pose proof (execute_until_conf _ _ _ _ _ _ _ E) as Hc.
  eapply execute_until_inv in E; [|apply He| |exact Hi]; [|by eexists].
  destruct x as [[]|err|]; intros Hx Hr; simplify_eq.
  - split; [|done]. split_and!; [done|done|done|simpl; lia|]. eexists _, delivered. split; [exact E|].
    unfold mc_planned. cbn -[seq]. rewrite Hs, Hid, !fmap_app, Hn. split_and!; try done.
    + by rewrite seq_S.
    + apply tiles_snoc, Ht.
    + apply Ht.
    + apply Forall_app. split; [done|]. by constructor.
  - split; [|done]. split_and!; [done|done|done|simpl; lia|]. exists inputs, delivered.
    unfold mc_planned. cbn. by rewrite Hs, Hid.
Qed.

Lemma mc_fill_inv fuel e u n prog s r s' :
  copy_env_ok e -> mc_inv prog s -> mc_source_size s = Some n -> mc_upload_id s = Some u ->
  mc_fill_tasks fuel e u n s = (r, s') -> r <> Panic ->
  mc_inv prog s' /\ mc_source_size s' = Some n /\ mc_upload_id s' = Some u /\
  (r = Ok tt -> n <= mc_next_offset s' \/ (0 < outstanding (mc_tasks s'))%nat).
Proof.
  intros He Hi Hs Hu. unfold mc_fill_tasks, gets, mbind, M_bind. intros E Hr.
  assert (mc_inv prog s' /\ mc_source_size s' = Some n /\ mc_upload_id s' = Some u) as (Hi' & Hs' & Hu').
  { eapply (fill_loop_inv (fun s => mc_inv prog s /\ mc_source_size s = Some n /\ mc_upload_id s = Some u));
      [|done|exact E|done].
    intros k s1 r1 s2 (? & ? & ?) _ E1 Hr1. by eapply mc_submit_inv. }
  split_and!; try done. intros ->. apply (fill_loop_did (fun s => 0 < outstanding (mc_tasks s))%nat) in E.
  - destruct E as [E|E]; [|by right]. apply andb_false_iff in E as [E|E].
    + apply bool_decide_eq_false in E. left. lia.
    + right. apply full_outstanding; [apply Hi' | done].
  - intros k s1 s2. unfold mc_submit, mbind, M_bind, get, modify, zoom.
    destruct (execute_until _ _ _ _ (mc_tasks s1)) as [[[]|?|] ts] eqn:E1; intros ?; simplify_eq.
    apply execute_until_outstanding in E1. simpl. lia.
  - apply Hi.
Qed.

Lemma copied_parts inputs delivered :
  Forall2 copied inputs delivered ->
  Forall2 acked inputs (cd_part <$> delivered) /\
  (p_part_number <$> (cd_part <$> delivered)) = (ci_part_number <$> inputs) /\
  ((Z.to_nat ∘ cd_size) <$> delivered) = (range_size <$> (ci_range <$> inputs)).
Proof using acked_number.
  induction 1 as [|i o inputs delivered [Ha Hs] _ (IH1 & IH2 & IH3)]; csimpl; [done|].
  split_and!; [by constructor | by rewrite IH2, (acked_number i) |].
  rewrite IH3. f_equal. unfold range_size. by rewrite Hs.
Qed.

(** What a copy that reports its end has done. *)
Definition mc_copied (c : C) (prog : list nat) (s' : MultipartCopier) : Prop :=
  exists meta, mc_completed s' = true /\ mc_metadata s' = Some meta /\
  match mc_upload_id s' with
  | None => prog = [] /\ mcp_copy_once c = Ok meta
  | Some u => exists n inputs,
      mc_source_size s' = Some n /\ mcp_complete_copy c u (mc_parts s') = Ok meta /\
      Forall2 acked inputs (mc_parts s') /\
      (ci_part_number <$> inputs) = seq 0 (length inputs) /\
      Forall (fun i => ci_upload_id i = u) inputs /\
      tiles (mc_part_size s') n 0 n (ci_range <$> inputs) /\
      Z.of_nat (sum_list prog) = n
  end.

Lemma mc_all_parts s inputs delivered :
  mc_planned s inputs -> Forall2 copied inputs delivered -> mc_parts s = cd_part <$> delivered ->
  length inputs = mc_next_part_number s /\ length (mc_parts s) = mc_next_part_number s.
Proof.
  intros (Hn & _) Hall ->. rewrite length_fmap, <- (Forall2_length _ _ _ Hall).
  by rewrite <- (length_fmap ci_part_number), Hn, length_seq.
Qed.

Definition mc_outcome (c : C) (prog : list nat) (r : result (option nat)) (s' : MultipartCopier) : Prop :=
  match r with
  | Ok (Some k) => mc_inv (prog ++ [k]) s'
  | Ok None => mc_copied c prog s'
  | Err _ => mc_inv prog s'
  | Panic => True
  end.

Lemma mc_complete_inv c u n prog s r s' inputs delivered :
  mc_inv prog s -> mc_source_size s = Some n -> mc_upload_id s = Some u -> n <= mc_next_offset s ->
  tasks_inv copied sized inputs delivered (mc_tasks s) -> mc_planned s inputs ->
  mc_parts s = cd_part <$> delivered -> prog = (Z.to_nat ∘ cd_size) <$> delivered ->
  Forall2 copied inputs delivered ->
  (s ← get;
   if negb (bool_decide (length (mc_parts s) = mc_next_part_number s))
   then throw (copy_mismatch u s)
   else
     modify (fun s => mc_set_parts (sort_by_key p_part_number (mc_parts s)) s);;
     s ← get;
     meta ← lift (mcp_complete_copy c u (mc_parts s));
     modify (mc_finish (Some meta));;
     mret None) s = (r, s') ->
  mc_outcome c prog r s'.
Proof using acked_number.
  intros (H1 & H2 & H3 & H4 & _) Hs Hu Hoff Hi Hpl Hp Hg Hall.
  pose proof Hpl as (Hn & Ht & Hup). rewrite Hs, Hu in *. destruct Ht as [Ht Hn0].
  destruct (mc_all_parts _ _ _ Hpl Hall Hp) as [Hlen Hlen'].
  destruct (copied_parts _ _ Hall) as (Ha & Hnum & Hsz). rewrite <- Hp in *.
  assert (sort_by_key p_part_number (mc_parts s) = mc_parts s) as Hsort.
  { apply sort_by_key_sorted. rewrite Hnum, Hn. apply seq_sorted. }
  unfold mbind, M_bind, get, throw, modify, lift, mret, M_ret.
  rewrite bool_decide_eq_true_2 by done. simpl. rewrite Hsort.
  destruct (mcp_complete_copy c u (mc_parts s)) as [meta|err|] eqn:Ec; intros ?; simplify_eq; [| |done].
  - exists meta. simpl. rewrite Hu. split_and!; [done..|]. exists n, inputs.
    destruct (tiles_sum _ _ _ _ _ H2 Hn0 Ht) as [Hle Hsum].
    assert (mc_next_offset s = n) as Hoff' by lia. rewrite Hoff' in *.
    split_and!; try done; [by rewrite Hlen|]. rewrite Hsz. lia.
  - split_and!; try done. exists inputs, delivered. simpl. split_and!; try done.
Qed.

Lemma mc_deliver_inv fuel e u n prog s r s' :
  copy_env_ok e -> mc_inv prog s -> mc_source_size s = Some n -> mc_upload_id s = Some u ->
  (n <= mc_next_offset s \/ (0 < outstanding (mc_tasks s))%nat) ->
  mc_deliver fuel e u s = (r, s') -> mc_outcome (now e) prog r s'.
Proof using acked_number.
  intros [He _] Hinv Hs Hu Hoff.
  pose proof Hinv as (H1 & H2 & H3 & H4 & inputs & delivered & Hi & Hpl & Hp & Hg).
  unfold mc_deliver, mbind at 1, M_bind at 1, get at 1.
  destruct (next_until fuel _ 0 (mc_tasks s)) as [x ts] eqn:E.
  pose proof (next_until_conf _ _ _ _ _ _ E) as Hc.
  eapply (next_until_inv copied sized) in E; [|apply He|exact Hi].
  assert (forall d, tasks_inv copied sized inputs d ts -> mc_parts s = cd_part <$> d ->
    mc_inv ((Z.to_nat ∘ cd_size) <$> d) (mc_set_tasks ts s)) as Hset.
  { intros d Hd Hpd. split_and!; [done|done|done|simpl; lia|]. exists inputs, d. by split_and!. }
  unfold mbind at 1, M_bind at 1, modify at 1. destruct x as [[o|err|]|].
  - unfold mbind, M_bind, modify, mret, M_ret. intros ?. simplify_eq.
    split_and!; [done|done|done|simpl; lia|]. exists inputs, (delivered ++ [o]).
    split_and!; [done| |simpl; rewrite fmap_app, Hp; done|by rewrite fmap_app].
    unfold mc_planned in *. simpl. by rewrite Hu in *.
  - unfold throw. intros ?. simplify_eq. by apply Hset.
  - unfold panic. intros ?. by simplify_eq.
  - destruct E as (Hi' & Hall & H0). intros Ex.
    eapply mc_complete_inv; [rewrite Hg; by apply Hset|..|exact Ex]; try done.
    destruct Hoff; [done|lia].
Qed.

Lemma mc_source_inv c prog s r s' :
  (forall m, mcp_source_metadata c = Ok m -> 0 <= content_length m) ->
  mc_inv prog s -> mc_get_source_size c s = (r, s') ->
  mc_inv prog s' /\ mc_upload_id s' = mc_upload_id s /\ forall n, r = Ok n -> mc_source_size s' = Some n /\ 0 <= n.
Proof.
  intros Hc Hinv. pose proof Hinv as (H1 & H2 & H3 & H4 & inputs & delivered & Hi & (Hn & Ht & Hu) & Hp & Hg).
  unfold mc_get_source_size, mbind, M_bind, get, lift, modify, mret, M_ret.
  destruct (mc_source_size s) as [n|] eqn:Hs.
  { intros ?. simplify_eq. split_and!; [done|done|]. intros ? ?. simplify_eq. split; [done|apply Ht]. }
  destruct (mcp_source_metadata c) as [m|err|]; intros ?; simplify_eq; [|done|done].
  destruct Ht as [-> Ht]. split_and!; [|done|intros ? ?; simplify_eq; by split_and!; [|apply Hc]].
  split_and!; try done. exists [], delivered. unfold mc_planned. simpl. split_and!; try done. by apply Hc.
Qed.

Lemma mc_upload_inv c prog s r s' :
  mc_inv prog s -> mc_get_upload_id c s = (r, s') ->
  mc_inv prog s' /\ mc_source_size s' = mc_source_size s /\ forall u, r = Ok u -> mc_upload_id s' = Some u.
Proof.
  intros Hinv. pose proof Hinv as (H1 & H2 & H3 & H4 & inputs & delivered & Hi & (Hn & Ht & Hu) & Hp & Hg).
  unfold mc_get_upload_id, mbind, M_bind, get, lift, modify, mret, M_ret.
  destruct (mc_upload_id s) as [u|] eqn:Hid.
  { intros ?. simplify_eq. split_and!; [done|done|]. intros ? ?. by simplify_eq. }
  destruct (mcp_initiate_copy c) as [u|err|]; intros ?; simplify_eq; [|done|done].
  split_and!; [|done|intros ? ?; by simplify_eq]. split_and!; try done.
  destruct Hu as [-> Hu]. exists [], delivered. split_and!; try done. split_and!; [done|exact Ht|by constructor].
Qed.

Lemma mc_start_inv fuel e n prog s r s' :
  copy_env_ok e -> mc_inv prog s -> mc_source_size s = Some n ->
  (upload_id ← mc_get_upload_id (now e); mc_fill_tasks fuel e upload_id n;; mc_deliver fuel e upload_id) s
    = (r, s') -> mc_outcome (now e) prog r s'.
Proof using acked_number.
  intros He Hi Hs. unfold mbind, M_bind.
  destruct (mc_get_upload_id (now e) s) as [x s1] eqn:E1.
  eapply mc_upload_inv in E1 as (Hi1 & Hs1 & Hu1); [|done].
  destruct x as [u|err|]; [| intros ?; by simplify_eq..]. specialize (Hu1 u eq_refl). rewrite Hs in Hs1.
  destruct (mc_fill_tasks fuel e u n s1) as [x s2] eqn:E2.
  destruct x as [[]|err|]; [..|intros ?; by simplify_eq];
    (eapply mc_fill_inv in E2 as (Hi2 & Hs2 & Hu2 & Hd); [|done..]).
  - apply mc_deliver_inv with n; eauto.
  - intros ?. by simplify_eq.
Qed.

Lemma mc_next_inv fuel e prog s r s' :
  copy_env_ok e -> mc_inv prog s -> multipart_copier_next fuel e s = (r, s') -> mc_outcome (now e) prog r s'.
Proof using acked_number.
  intros He Hinv. unfold multipart_copier_next, mbind at 1, M_bind at 1, get at 1.
  pose proof Hinv as (-> & _). unfold mbind at 1, M_bind at 1.
  destruct (mc_get_source_size (now e) s) as [x s1] eqn:E1.
  eapply mc_source_inv in E1 as (Hi1 & Hu1 & Hs1); [|apply He|done].
  destruct x as [n|err|]; [| intros ?; by simplify_eq..]. destruct (Hs1 n eq_refl) as [Hn1 Hn0].
  unfold mbind at 1, M_bind at 1, get at 1. unfold is_none. case_bool_decide as Hid; cbn [andb].
  - case_bool_decide.
    + unfold mbind, M_bind, lift, modify, mret, M_ret.
      destruct (mcp_copy_once (now e)) as [meta|err|] eqn:Eo; intros ?; simplify_eq; [|done|done].
      exists meta. simpl. rewrite Hid. split_and!; try done.
      destruct Hi1 as (_ & _ & _ & _ & inputs & delivered & Hi & (_ & _ & Hup) & Hp & Hg).
      rewrite Hid in Hup. destruct Hup as [-> Hup]. rewrite Hup in Hp.
      destruct delivered; [done | by csimpl in Hp].
    + unfold mbind at 1, M_bind at 1, lift.
      destruct (validate_part_count n s1) as [[]|err|]; [|intros ?; by simplify_eq..].
      by apply mc_start_inv.
  - by apply mc_start_inv.
Qed.

Lemma mc_reach_inv prog s : mc_reach prog s -> mc_inv prog s.
Proof using acked_number.
  induction 1 as [info hint th ps c Hh Hp|prog s fuel e n s' _ IH He E|prog s fuel e err s' _ IH He E
                 |prog s k r _ IH Hok].
  - split_and!; [done|done|simpl; lia|simpl; lia|]. exists [], []. unfold mc_planned. simpl.
    split_and!; try done; [apply tasks_new_inv|]. by destruct hint.
  - by apply (mc_next_inv _ _ _ _ _ _ He IH) in E.
  - by apply (mc_next_inv _ _ _ _ _ _ He IH) in E.
  - destruct IH as (H1 & H2 & H3 & H4 & inputs & delivered & Hi & Hpl & Hp & Hg).
    split_and!; try done.
    { unfold finish. simpl. by destruct (tasks (mc_tasks s) !! k) as [[i []]|]. }
    exists inputs, delivered. split_and!; try done. by apply finish_tasks_inv.
Qed.

(** C12.  A multipart copy that reports its end has copied the whole source, once:
    either in one [copy_once], or [complete_copy] was given the service's answers
    to parts 0, 1, 2, ... of one upload, whose ranges tile the source from 0 to
    its size in pieces of [part_size]; and the progress reported on the way adds
    up to the size.  This holds whatever failed and was repeated, in whatever
    order the parts finished; a call that fails can be repeated. *)
Theorem multipart_copy_integrity prog s fuel e r s' :
  mc_reach prog s -> copy_env_ok e -> multipart_copier_next fuel e s = (r, s') ->
  match r with
  | Ok None => mc_copied (now e) prog s'
  | Ok (Some k) => mc_reach (prog ++ [k]) s'
  | Err _ => mc_reach prog s'
  | Panic => True
  end.
Proof using acked_number.
  intros Hr He E. pose proof (mc_next_inv _ _ _ _ _ _ He (mc_reach_inv _ _ Hr) E) as Ho.
  destruct r as [[k|]|err|]; [by eapply mc_reach_next | done | by eapply mc_reach_err | done].
Qed.

(** *** Completion *)

  (** The size of the source, and how many temporary failures in a row a loop meets. *)
  Context (n : Z) (k : nat).

(** The service answers; the copies of parts fail at most [k] times in a row. *)
Definition copy_service_up (e : CopyEnv C CopyInput) : Prop :=
  copy_env_ok e /\ (forall j, steady sized k (copy_attempts e j)) /\
  (exists m, mcp_source_metadata (now e) = Ok m /\ content_length m = n) /\
  (exists m, mcp_copy_once (now e) = Ok m) /\ (exists u, mcp_initiate_copy (now e) = Ok u) /\
  (forall u parts, exists m, mcp_complete_copy (now e) u parts = Ok m).

(** What is left to do: bytes to plan, results to deliver. *)
Definition mc_left (s : MultipartCopier) : nat :=
  Z.to_nat (n - mc_next_offset s) + outstanding (mc_tasks s).

(** A copier that can go on: its tasks can be awaited again, its parts are not
    empty, their number passes the check that is made before the upload starts,
    and the size of the source, if it is known, is right. *)
Definition mc_ready (s : MultipartCopier) : Prop :=
  recoverable sized (mc_tasks s) /\ 0 < mc_part_size s /\
  (mc_upload_id s = None -> validate_part_count n s = Ok tt) /\
  from_option (eq n) True (mc_source_size s).

Lemma mc_fill_ready fuel e u s :
  copy_service_up e -> (k + 2 <= fuel)%nat -> mc_ready s -> mc_source_size s = Some n ->
  exists s', mc_fill_tasks fuel e u n s = (Ok tt, s') /\ mc_ready s' /\ (mc_left s' <= mc_left s)%nat.
Proof.
  intros (_ & He & _) Hf Hr Hs. unfold mc_fill_tasks, gets, mbind at 1, M_bind at 1.
  edestruct (fill_loop_ok (fun s' => mc_ready s' /\ (mc_left s' <= mc_left s)%nat)) as (s' & E & Hr' & Hl);
    [|split; [exact Hr | reflexivity]|by eauto].
  intros j s1 [(H1 & H2 & H3 & H4) Hl] Hm. apply andb_true_iff in Hm as [Hm _]. apply bool_decide_eq_true in Hm.
  unfold mc_submit, mbind, M_bind, get, modify, zoom.
  edestruct (execute_until_steady sized k fuel (copy_attempts e j) 0 (mkCopyInput u (mc_next_part_number s1)
    (mkRange (mc_next_offset s1) (Some (Z.min (mc_part_size s1) (n - mc_next_offset s1))))))
    as (ts & E & Hts); [done|exact H1|by eexists|left; lia|].
  rewrite E. eexists. split; [done|]. split; [by split_and!|].
  apply execute_until_outstanding in E. unfold mc_left in *. simpl. lia.
Qed.

Lemma mc_deliver_ready fuel e u prog s :
  copy_service_up e -> (k + 2 <= fuel)%nat -> mc_inv prog s -> mc_ready s ->
  exists r s', mc_deliver fuel e u s = (Ok r, s') /\
    match r with
    | Some _ => mc_ready s' /\ (mc_left s' < mc_left s)%nat
    | None => mc_completed s' = true
    end.
Proof.
  intros (He & Hst & _ & _ & _ & Hc) Hf Hi (H1 & H2 & H3 & H4).
  destruct (next_until_steady sized k fuel (copy_attempts e 0) 0 (mc_tasks s)) as (x & ts & E & Hts & Hx);
    [done|done|left; lia|].
  unfold mc_deliver, mbind at 1, M_bind at 1, get at 1. rewrite E.
  unfold mbind at 1, M_bind at 1, modify at 1. destruct x as [[o|err|]|]; [|done|done|].
  - unfold mbind, M_bind, modify, mret, M_ret. do 2 eexists. split; [done|].
    split; [by split_and!|]. unfold mc_left. simpl. lia.
  - destruct Hi as (_ & _ & _ & _ & inputs & delivered & Hi & Hpl & Hp & _).
    eapply (next_until_inv copied sized) in E as (_ & Hall & _); [|apply He|exact Hi].
    destruct (mc_all_parts _ _ _ Hpl Hall Hp) as [_ Hlen].
    unfold mbind, M_bind, get, modify, lift, mret, M_ret. simpl.
    rewrite bool_decide_eq_true_2 by done. simpl.
    destruct (Hc u (sort_by_key p_part_number (mc_parts s))) as [m ->]. by do 2 eexists.
Qed.

Lemma mc_next_ready fuel e prog s :
  copy_service_up e -> (k + 2 <= fuel)%nat -> mc_inv prog s -> mc_ready s ->
  exists r s', multipart_copier_next fuel e s = (Ok r, s') /\
    match r with
    | Some _ => mc_ready s' /\ (mc_left s' < mc_left s)%nat
    | None => mc_completed s' = true
    end.
Proof.
  intros He Hf Hi Hr. pose proof He as (Hok & _ & (m & Hm & Hmn) & (mo & Ho) & (u & Hu) & _).
  unfold multipart_copier_next, mbind at 1, M_bind at 1, get at 1.
  pose proof Hi as (-> & _). unfold mbind at 1, M_bind at 1.
  destruct (mc_get_source_size (now e) s) as [x s1] eqn:E1.
  pose proof E1 as E1'. eapply mc_source_inv in E1' as (Hi1 & Hu1 & _); [|apply Hok|done].
  assert (x = Ok n /\ mc_ready s1 /\ mc_left s1 = mc_left s /\ mc_source_size s1 = Some n)
    as (-> & Hr1 & Hl1 & Hs1).
  { revert E1. unfold mc_get_source_size, mbind, M_bind, get, lift, modify, mret, M_ret.
    destruct Hr as (H1 & H2 & H3 & H4). destruct (mc_source_size s) as [n'|] eqn:Es.
    - simpl in H4. subst n'. intros ?. simplify_eq. split_and!; try done. split_and!; try done. by rewrite Es.
    - rewrite Hm, Hmn. intros Ex. injection Ex as <- <-. by split_and!. }
  unfold mbind at 1, M_bind at 1, get at 1. rewrite <- Hl1. clear E1 Hl1 Hi Hr Hu1 s.
  assert (exists r s', (upload_id ← mc_get_upload_id (now e); mc_fill_tasks fuel e upload_id n;;
    mc_deliver fuel e upload_id) s1 = (Ok r, s') /\
    match r with Some _ => mc_ready s' /\ (mc_left s' < mc_left s1)%nat | None => mc_completed s' = true end)
    as Hgo.
  { unfold mbind, M_bind. destruct (mc_get_upload_id (now e) s1) as [x s2] eqn:E2. pose proof E2 as E2'.
    eapply mc_upload_inv in E2' as (Hi2 & Hs2 & Hu2); [|done].
    assert (exists v, x = Ok v /\ mc_ready s2 /\ mc_left s2 = mc_left s1) as (v & -> & Hr2 & Hl2).
    { revert E2. unfold mc_get_upload_id, mbind, M_bind, get, lift, modify, mret, M_ret.
      destruct (mc_upload_id s1); [intros ?; simplify_eq; by eauto|]. rewrite Hu. intros ?. simplify_eq. destruct Hr1 as (?&?&_&?). eexists. split; [done|]. by split_and!. }
    specialize (Hu2 v eq_refl). rewrite Hs1 in Hs2.
    destruct (mc_fill_ready fuel e v s2) as (s3 & E3 & Hr3 & Hl3); [done..|]. rewrite E3.
    eapply mc_fill_inv in E3 as (Hi3 & _); [|done..].
    destruct (mc_deliver_ready fuel e v prog s3) as (r & s4 & E4 & H4); [done..|].
    exists r, s4. split; [done|]. destruct r; [|done]. destruct H4. split; [done|lia]. }
  unfold is_none. case_bool_decide as Hnone; cbn [andb]; [|exact Hgo].
  case_bool_decide.
  - unfold mbind, M_bind, lift, modify, mret, M_ret. rewrite Ho. by do 2 eexists.
  - unfold mbind at 1, M_bind at 1, lift. by rewrite (proj1 (proj2 (proj2 Hr1))) by done.
Qed.

(** C35.  A multipart copy comes to its end.  Take any state the copier reaches in
    which no part has failed for good, with parts that are not empty, a number of
    parts that passes the check of the service's limits (when the upload is yet to
    start) and the right source size, if one was given.  While the service answers
    and each copy of a part fails at most [k] times in a row, [close] returns,
    after at most as many rounds as there are bytes left to plan and results to
    deliver, and the copy is complete: the metadata it returns is the service's
    answer to [copy_once], or to [complete_copy] with the parts of one upload that
    tile the source, and the progress reported adds up to the source. *)
Theorem multipart_copy_completes prog s env fuel rounds :
  mc_reach prog s ->
  recoverable sized (mc_tasks s) -> 0 < mc_part_size s ->
  (mc_upload_id s = None -> validate_part_count n s = Ok tt) ->
  from_option (eq n) True (mc_source_size s) ->
  (forall i, copy_service_up (env i)) -> (k + 2 <= fuel)%nat -> (mc_left s < rounds)%nat ->
  exists i more meta s', multipart_copier_close rounds fuel env s = (Ok meta, s') /\
    mc_metadata s' = Some meta /\ mc_copied (now (env i)) (prog ++ more) s'.
Proof using acked_number.
  intros Hr%mc_reach_inv H1 H2 H3 H4 He Hf. assert (mc_ready s) as Hrd by done. clear H1 H2 H3 H4.
  revert prog s env Hr Hrd He. induction rounds as [|rounds IH]; intros prog s env Hi Hrd He Hl; [lia|].
  simpl. unfold mbind, M_bind, get. pose proof Hi as (-> & _).
  destruct (mc_next_ready fuel (env 0%nat) prog s) as (r & s1 & E & Hx); [done..|]. rewrite E.
  eapply mc_next_inv in E; [|apply He|exact Hi]. destruct r as [p|].
  - destruct Hx as [Hr1 Hl1].
    destruct (IH (prog ++ [p]) s1 (fun i => env (S i))) as (i & more & meta & s' & E' & Hm & Hc); [done|done|done|lia|].
    exists (S i), (p :: more), meta, s'. by rewrite <- app_assoc in Hc.
  - pose proof E as (meta & _ & Hm & _). exists 0%nat, [], meta, s1. rewrite app_nil_r.
    split_and!; [|done|done].
    destruct rounds as [|rounds]; simpl; unfold mbind, M_bind, get; by rewrite Hx, Hm.
Qed.

End MultipartCopySpec.

(** ** Block copies

    [Uuid::new_v4()] is an argument: [uuids j] is the id drawn in round [j] of
    [fill_tasks]. *)

Class BlockCopy (Uuid C : Type) : Type := {
  bcp_source_metadata : C -> result Metadata;
  bcp_copy_once : C -> result Metadata;
  bcp_copy_block : C -> Uuid -> BytesRange -> result unit;
  bcp_complete_block : C -> list Uuid -> result Metadata;
  bcp_abort_block : C -> list Uuid -> result unit;
}.

Record BlockCopyInput (Uuid : Type) : Type := mkBlockCopy {
  bc_id : Uuid; bc_number : nat; bc_range : BytesRange;
}.
Arguments mkBlockCopy {Uuid}.
Arguments bc_id {Uuid}.
Arguments bc_number {Uuid}.
Arguments bc_range {Uuid}.

Record CopiedBlock (Uuid : Type) : Type := mkCopiedBlock {
  cb_block_id : Uuid; cb_block_number : nat; cb_size : Z;
}.
Arguments mkCopiedBlock {Uuid}.
Arguments cb_block_id {Uuid}.
Arguments cb_block_number {Uuid}.
Arguments cb_size {Uuid}.

Record BlockCopier (Uuid : Type) : Type := mkBlockCopier {
  bc_block_ids : list (nat * Uuid);
  bc_scheduled_block_ids : list Uuid;
  bc_next_block_number : nat;
  bc_next_offset : Z;
  bc_source_size : option Z;
  bc_copy_once_threshold : Z;
  bc_block_size : Z;
  bc_concurrent : nat;
  bc_completed : bool;
  bc_metadata : option Metadata;
  bc_tasks : ConcurrentTasks (BlockCopyInput Uuid) (CopiedBlock Uuid);
}.
Arguments mkBlockCopier {Uuid}.
Arguments bc_block_ids {Uuid}.
Arguments bc_scheduled_block_ids {Uuid}.
Arguments bc_next_block_number {Uuid}.
Arguments bc_next_offset {Uuid}.
Arguments bc_source_size {Uuid}.
Arguments bc_copy_once_threshold {Uuid}.
Arguments bc_block_size {Uuid}.
Arguments bc_concurrent {Uuid}.
Arguments bc_completed {Uuid}.
Arguments bc_metadata {Uuid}.
Arguments bc_tasks {Uuid}.

Section BlockCopier.
  Context {Uuid C : Type} `{BlockCopy Uuid C} (show_uuid : Uuid -> str).
  Implicit Types s : BlockCopier Uuid.

Definition block_copier_new (source_content_length_hint : option Z) (copy_once_threshold block_size : Z)
    (concurrent : nat) : BlockCopier Uuid :=
  let concurrent := Nat.max concurrent 1 in
  mkBlockCopier [] [] 0 0 source_content_length_hint copy_once_threshold block_size concurrent false None
    (tasks_new concurrent UPLOAD_PREFETCH).

Definition bc_set_block_ids (v : list (nat * Uuid)) s : BlockCopier Uuid :=
  mkBlockCopier v (bc_scheduled_block_ids s) (bc_next_block_number s) (bc_next_offset s) (bc_source_size s)
    (bc_copy_once_threshold s) (bc_block_size s) (bc_concurrent s) (bc_completed s) (bc_metadata s) (bc_tasks s).
Definition bc_set_source_size (v : Z) s : BlockCopier Uuid :=
  mkBlockCopier (bc_block_ids s) (bc_scheduled_block_ids s) (bc_next_block_number s) (bc_next_offset s) (Some v)
    (bc_copy_once_threshold s) (bc_block_size s) (bc_concurrent s) (bc_completed s) (bc_metadata s) (bc_tasks s).
Definition bc_set_tasks v s : BlockCopier Uuid :=
  mkBlockCopier (bc_block_ids s) (bc_scheduled_block_ids s) (bc_next_block_number s) (bc_next_offset s)
    (bc_source_size s) (bc_copy_once_threshold s) (bc_block_size s) (bc_concurrent s) (bc_completed s)
    (bc_metadata s) v.
(** The three lines after a submission. *)
Definition bc_advance (id : Uuid) (size : Z) s : BlockCopier Uuid :=
  mkBlockCopier (bc_block_ids s) (bc_scheduled_block_ids s ++ [id]) (S (bc_next_block_number s))
    (bc_next_offset s + size) (bc_source_size s) (bc_copy_once_threshold s) (bc_block_size s) (bc_concurrent s)
    (bc_completed s) (bc_metadata s) (bc_tasks s).
Definition bc_finish (m : option Metadata) s : BlockCopier Uuid :=
  mkBlockCopier (bc_block_ids s) (bc_scheduled_block_ids s) (bc_next_block_number s) (bc_next_offset s)
    (bc_source_size s) (bc_copy_once_threshold s) (bc_block_size s) (bc_concurrent s) true m (bc_tasks s).

Definition block_copy_timeout (input : BlockCopyInput Uuid) : Error :=
  set_temporary (with_context (b "block_id") (show_uuid (bc_id input)) (error Unexpected "copy block timeout")).

Definition copy_block_task (m : C * option (BlockCopyInput Uuid -> bool)) (input : BlockCopyInput Uuid)
  : BlockCopyInput Uuid * result (CopiedBlock Uuid) :=
  match size (bc_range input) with
  | None => (input, Panic)
  | Some size =>
      with_timeout m.2 block_copy_timeout (fun input =>
        (fun _ => mkCopiedBlock (bc_id input) (bc_number input) size)
          <$> bcp_copy_block m.1 (bc_id input) (bc_range input)) input
  end.
Definition block_attempts (e : CopyEnv C (BlockCopyInput Uuid)) (j a : nat) :=
  copy_block_task (during e j a).

Definition bc_get_source_size (c : C) : M (BlockCopier Uuid) Error Z :=
  s ← get;
  match bc_source_size s with
  | Some size => mret size
  | None =>
      meta ← lift (bcp_source_metadata c);
      let size := content_length meta in
      modify (bc_set_source_size size);;
      mret size
  end.

Definition bc_submit (fuel : nat) (e : CopyEnv C (BlockCopyInput Uuid)) (uuids : nat -> Uuid) (source_size : Z)
    (j : nat) : M (BlockCopier Uuid) Error unit :=
  s ← get;
  let size := Z.min (bc_block_size s) (source_size - bc_next_offset s) in
  let range := mkRange (bc_next_offset s) (Some size) in
  let input := mkBlockCopy (uuids j) (bc_next_block_number s) range in
  zoom bc_tasks bc_set_tasks (execute_until fuel (block_attempts e j) 0 input);;
  modify (bc_advance (bc_id input) size).

Definition bc_fill_tasks (fuel : nat) (e : CopyEnv C (BlockCopyInput Uuid)) (uuids : nat -> Uuid)
    (source_size : Z) : M (BlockCopier Uuid) Error unit :=
  concurrent ← gets bc_concurrent;
  fill_loop
    (fun s => bool_decide (bc_next_offset s < source_size) && has_remaining (bc_tasks s))
    (fun s => has_result (bc_tasks s))
    (bc_submit fuel e uuids source_size)
    concurrent.

Definition block_copy_mismatch s : Error :=
  with_context (b "actual") (show_u64 (Z.of_nat (length (bc_block_ids s))))
    (with_context (b "expected") (show_u64 (Z.of_nat (bc_next_block_number s)))
      (error Unexpected "block copy numbers mismatch, please report bug to opendal")).

Definition bc_deliver (fuel : nat) (e : CopyEnv C (BlockCopyInput Uuid)) : M (BlockCopier Uuid) Error (option nat) :=
  s ← get;
  let '(x, ts) := next_until fuel (block_attempts e 0) 0 (bc_tasks s) in
  modify (bc_set_tasks ts);;
  match x with
  | Some (Ok result) =>
      modify (fun s => bc_set_block_ids (bc_block_ids s ++ [(cb_block_number result, cb_block_id result)]) s);;
      mret (Some (Z.to_nat (cb_size result)))
  | Some (Err err) => throw err
  | Some Panic => panic
  | None =>
      s ← get;
      if negb (bool_decide (length (bc_block_ids s) = bc_next_block_number s))
      then throw (block_copy_mismatch s)
      else
        modify (fun s => bc_set_block_ids (sort_by_key fst (bc_block_ids s)) s);;
        s ← get;
        meta ← lift (bcp_complete_block (now e) (snd <$> bc_block_ids s));
        modify (bc_finish (Some meta));;
        mret None
  end.

Definition block_copier_next (fuel : nat) (e : CopyEnv C (BlockCopyInput Uuid)) (uuids : nat -> Uuid)
  : M (BlockCopier Uuid) Error (option nat) :=
  s ← get;
  if bc_completed s then mret None
  else
    source_size ← bc_get_source_size (now e);
    s ← get;
    if bool_decide (bc_block_ids s = []) && bool_decide (source_size <= bc_copy_once_threshold s) then
      meta ← lift (bcp_copy_once (now e));
      modify (bc_finish (Some meta));;
      mret None
    else
      bc_fill_tasks fuel e uuids source_size;;
      bc_deliver fuel e.

Fixpoint block_copier_close (rounds : nat) (fuel : nat)
    (env : nat -> CopyEnv C (BlockCopyInput Uuid) * (nat -> Uuid)) : M (BlockCopier Uuid) Error Metadata :=
  s ← get;
  if bc_completed s then mret (default meta_default (bc_metadata s))
  else match rounds with
  | 0%nat => panic
  | S k =>
      block_copier_next fuel (env 0%nat).1 (env 0%nat).2;;
      block_copier_close k fuel (fun i => env (S i))
  end.

Definition block_copier_abort (c : C) : M (BlockCopier Uuid) Error unit :=
  modify (fun s => bc_set_tasks (clear (bc_tasks s)) s);;
  s ← get;
  if bool_decide (bc_scheduled_block_ids s = []) then modify (bc_finish None)
  else
    lift (bcp_abort_block c (bc_scheduled_block_ids s));;
    modify (bc_finish None).

(** *** Integrity *)

  (** [stored i]: the service has copied the block [i]. *)
  Variable stored : BlockCopyInput Uuid -> Prop.

Definition block_copied (i : BlockCopyInput Uuid) (o : CopiedBlock Uuid) : Prop :=
  stored i /\ size (bc_range i) = Some (cb_size o) /\ cb_block_id o = bc_id i /\ cb_block_number o = bc_number i.
Definition block_sized (i : BlockCopyInput Uuid) : Prop := is_Some (size (bc_range i)).

Definition block_env_ok (e : CopyEnv C (BlockCopyInput Uuid)) : Prop :=
  (forall j a, await_ok block_copied block_sized (block_attempts e j a)) /\
  (forall m, bcp_source_metadata (now e) = Ok m -> 0 <= content_length m).

Inductive bc_reach : list nat -> BlockCopier Uuid -> Prop :=
  | bc_reach_new hint threshold block_size concurrent :
      from_option (fun n => 0 <= n) True hint -> 0 <= block_size ->
      bc_reach [] (block_copier_new hint threshold block_size concurrent)
  | bc_reach_next prog s fuel e uuids n s' :
      bc_reach prog s -> block_env_ok e -> block_copier_next fuel e uuids s = (Ok (Some n), s') ->
      bc_reach (prog ++ [n]) s'
  | bc_reach_err prog s fuel e uuids err s' :
      bc_reach prog s -> block_env_ok e -> block_copier_next fuel e uuids s = (Err err, s') ->
      bc_reach prog s'
  | bc_reach_finish prog s k r :
      bc_reach prog s -> event_ok block_copied block_sized (bc_tasks s) (Finish k r) ->
      bc_reach prog (bc_set_tasks (finish k r (bc_tasks s)) s).

Definition bc_planned s (inputs : list (BlockCopyInput Uuid)) : Prop :=
  (bc_number <$> inputs) = seq 0 (bc_next_block_number s) /\
  bc_scheduled_block_ids s = bc_id <$> inputs /\
  match bc_source_size s with
  | Some n => tiles (bc_block_size s) n 0 (bc_next_offset s) (bc_range <$> inputs) /\ 0 <= n
  | None => inputs = [] /\ bc_next_offset s = 0
  end.
Definition block_key (o : CopiedBlock Uuid) : nat * Uuid := (cb_block_number o, cb_block_id o).
Definition bc_inv (prog : list nat) s : Prop :=
  bc_completed s = false /\ 0 <= bc_block_size s /\ (1 <= bc_concurrent s)%nat /\
  (1 <= concurrent (bc_tasks s))%nat /\
  exists inputs delivered,
    tasks_inv block_copied block_sized inputs delivered (bc_tasks s) /\ bc_planned s inputs /\
    bc_block_ids s = block_key <$> delivered /\ prog = (Z.to_nat ∘ cb_size) <$> delivered.

Lemma bc_submit_inv fuel e uuids n j prog s r s' :
  block_env_ok e -> bc_inv prog s -> bc_source_size s = Some n ->
  bc_submit fuel e uuids n j s = (r, s') -> r <> Panic ->
  bc_inv prog s' /\ bc_source_size s' = Some n.
Proof.
  intros [He _] (H1 & H2 & H3 & H4 & inputs & delivered & Hi & (Hn & Hid & Ht) & Hp & Hg) Hs.
  unfold bc_submit, mbind, M_bind, get, modify, zoom. rewrite Hs in *.
  destruct (execute_until _ _ _ _ (bc_tasks s)) as [x ts] eqn:E.
  pose proof (execute_until_conf _ _ _ _ _ _ _ E) as Hc.
  eapply (execute_until_inv block_copied block_sized) in E; [|apply He|by eexists|exact Hi].
  destruct x as [[]|err|]; intros Hx Hr; simplify_eq.
  - split; [|done]. split_and!; [done|done|done|simpl; lia|]. eexists _, delivered. split; [exact E|].
    unfold bc_planned. cbn -[seq]. rewrite Hs, !fmap_app, Hn, Hid. split_and!; try done.
    + by rewrite seq_S.
    + apply tiles_snoc, Ht.
    + apply Ht.
  - split; [|done]. split_and!; [done|done|done|simpl; lia|]. exists inputs, delivered.
    unfold bc_planned. cbn. by rewrite Hs.
Qed.

Lemma bc_fill_inv fuel e uuids n prog s r s' :
  block_env_ok e -> bc_inv prog s -> bc_source_size s = Some n ->
  bc_fill_tasks fuel e uuids n s = (r, s') -> r <> Panic ->
  bc_inv prog s' /\ bc_source_size s' = Some n /\
  (r = Ok tt -> n <= bc_next_offset s' \/ (0 < outstanding (bc_tasks s'))%nat).
Proof.
  intros He Hi Hs. unfold bc_fill_tasks, gets, mbind, M_bind. intros E Hr.
  assert (bc_inv prog s' /\ bc_source_size s' = Some n) as (Hi' & Hs').
  { eapply (fill_loop_inv (fun s => bc_inv prog s /\ bc_source_size s = Some n)); [|done|exact E|done].
    intros k s1 r1 s2 (? & ?) _ E1 Hr1. by eapply bc_submit_inv. }
  split_and!; try done. intros ->. apply (fill_loop_did (fun s => 0 < outstanding (bc_tasks s))%nat) in E.
  - destruct E as [E|E]; [|by right]. apply andb_false_iff in E as [E|E].
    + apply bool_decide_eq_false in E. left. lia.
    + right. apply full_outstanding; [apply Hi' | done].
  - intros k s1 s2. unfold bc_submit, mbind, M_bind, get, modify, zoom.
    destruct (execute_until _ _ _ _ (bc_tasks s1)) as [[[]|?|] ts] eqn:E1; intros ?; simplify_eq.
    apply execute_until_outstanding in E1. simpl. lia.
  - apply Hi.
Qed.

Lemma copied_blocks inputs delivered :
  Forall2 block_copied inputs delivered ->
  Forall stored inputs /\ (block_key <$> delivered) = ((fun i => (bc_number i, bc_id i)) <$> inputs) /\
  ((Z.to_nat ∘ cb_size) <$> delivered) = (range_size <$> (bc_range <$> inputs)).
Proof.
  induction 1 as [|i o inputs delivered (Ha & Hs & Hid & Hn) _ (IH1 & IH2 & IH3)]; csimpl; [done|].
  split_and!; [by constructor | by rewrite IH2; unfold block_key; rewrite Hid, Hn |].
  rewrite IH3. f_equal. unfold range_size. by rewrite Hs.
Qed.

(** What a copy that reports its end has done. *)
Definition bc_copied (c : C) (prog : list nat) s' : Prop :=
  exists meta, bc_completed s' = true /\ bc_metadata s' = Some meta /\
  ((prog = [] /\ bcp_copy_once c = Ok meta) \/
   exists n inputs,
      bc_source_size s' = Some n /\ bcp_complete_block c (bc_id <$> inputs) = Ok meta /\
      Forall stored inputs /\ tiles (bc_block_size s') n 0 n (bc_range <$> inputs) /\
      Z.of_nat (sum_list prog) = n).

Definition bc_outcome (c : C) (prog : list nat) (r : result (option nat)) s' : Prop :=
  match r with
  | Ok (Some k) => bc_inv (prog ++ [k]) s'
  | Ok None => bc_copied c prog s'
  | Err _ => bc_inv prog s'
  | Panic => True
  end.

Lemma bc_complete_inv c n prog s r s' inputs delivered :
  bc_inv prog s -> bc_source_size s = Some n -> n <= bc_next_offset s ->
  tasks_inv block_copied block_sized inputs delivered (bc_tasks s) -> bc_planned s inputs ->
  bc_block_ids s = block_key <$> delivered -> prog = (Z.to_nat ∘ cb_size) <$> delivered ->
  Forall2 block_copied inputs delivered ->
  (s ← get;
   if negb (bool_decide (length (bc_block_ids s) = bc_next_block_number s))
   then throw (block_copy_mismatch s)
   else
     modify (fun s => bc_set_block_ids (sort_by_key fst (bc_block_ids s)) s);;
     s ← get;
     meta ← lift (bcp_complete_block c (snd <$> bc_block_ids s));
     modify (bc_finish (Some meta));;
     mret None) s = (r, s') ->
  bc_outcome c prog r s'.
Proof.
  intros (H1 & H2 & H3 & H4 & _) Hs Hoff Hi Hpl Hp Hg Hall.
  pose proof Hpl as (Hn & Hid & Ht). rewrite Hs in *. destruct Ht as [Ht Hn0].
  destruct (copied_blocks _ _ Hall) as (Ha & Hnum & Hsz). rewrite <- Hp in Hnum.
  assert (sort_by_key fst (bc_block_ids s) = bc_block_ids s) as Hsort.
  { apply sort_by_key_sorted. rewrite Hnum, <- list_fmap_compose.
    change (Sorted Nat.le (bc_number <$> inputs)). rewrite Hn. apply seq_sorted. }
  unfold mbind, M_bind, get, throw, modify, lift, mret, M_ret.
  rewrite bool_decide_eq_true_2.
  2: { by rewrite Hnum, length_fmap, <- (length_fmap bc_number), Hn, length_seq. }
  simpl. rewrite Hsort, Hnum.
  change (snd <$> _) with (snd <$> ((fun i => (bc_number i, bc_id i)) <$> inputs)). rewrite <- list_fmap_compose.
  change ((snd ∘ (fun i => (bc_number i, bc_id i))) <$> inputs) with (bc_id <$> inputs).
  destruct (bcp_complete_block c _) as [meta|err|] eqn:Ec; intros ?; simplify_eq; [| |done].
  - exists meta. simpl. split_and!; [done..|]. right. exists n, inputs.
    destruct (tiles_sum _ _ _ _ _ H2 Hn0 Ht) as [Hle Hsum].
    assert (bc_next_offset s = n) as Hoff' by lia. rewrite Hoff' in *.
    split_and!; try done. rewrite Hsz. lia.
  - split_and!; try done. exists inputs, delivered. split_and!; try done. simpl. by rewrite <- Hnum.
Qed.

Lemma bc_deliver_inv fuel e n prog s r s' :
  block_env_ok e -> bc_inv prog s -> bc_source_size s = Some n ->
  (n <= bc_next_offset s \/ (0 < outstanding (bc_tasks s))%nat) ->
  bc_deliver fuel e s = (r, s') -> bc_outcome (now e) prog r s'.
Proof.
  intros [He _] Hinv Hs Hoff.
  pose proof Hinv as (H1 & H2 & H3 & H4 & inputs & delivered & Hi & Hpl & Hp & Hg).
  unfold bc_deliver, mbind at 1, M_bind at 1, get at 1.
  destruct (next_until fuel _ 0 (bc_tasks s)) as [x ts] eqn:E.
  pose proof (next_until_conf _ _ _ _ _ _ E) as Hc.
  eapply (next_until_inv block_copied block_sized) in E; [|apply He|exact Hi].
  assert (forall d, tasks_inv block_copied block_sized inputs d ts -> bc_block_ids s = block_key <$> d ->
    bc_inv ((Z.to_nat ∘ cb_size) <$> d) (bc_set_tasks ts s)) as Hset.
  { intros d Hd Hpd. split_and!; [done|done|done|simpl; lia|]. exists inputs, d. by split_and!. }
  unfold mbind at 1, M_bind at 1, modify at 1. destruct x as [[o|err|]|].
  - unfold mbind, M_bind, modify, mret, M_ret. intros ?. simplify_eq.
    split_and!; [done|done|done|simpl; lia|]. exists inputs, (delivered ++ [o]).
    split_and!; [done|done|simpl; rewrite fmap_app, Hp; done|by rewrite fmap_app].
  - unfold throw. intros ?. simplify_eq. by apply Hset.
  - unfold panic. intros ?. by simplify_eq.
  - destruct E as (Hi' & Hall & H0). intros Ex.
    eapply bc_complete_inv; [rewrite Hg; by apply Hset|..|exact Ex]; try done.
    destruct Hoff; [done|lia].
Qed.

Lemma bc_source_inv c prog s r s' :
  (forall m, bcp_source_metadata c = Ok m -> 0 <= content_length m) ->
  bc_inv prog s -> bc_get_source_size c s = (r, s') ->
  bc_inv prog s' /\ forall n, r = Ok n -> bc_source_size s' = Some n.
Proof.
  intros Hc Hinv. pose proof Hinv as (H1 & H2 & H3 & H4 & inputs & delivered & Hi & (Hn & Hid & Ht) & Hp & Hg).
  unfold bc_get_source_size, mbind, M_bind, get, lift, modify, mret, M_ret.
  destruct (bc_source_size s) as [n|] eqn:Hs.
  { intros ?. simplify_eq. split; [done|]. intros ? ?. by simplify_eq. }
  destruct (bcp_source_metadata c) as [m|err|]; intros ?; simplify_eq; [|done|done].
  destruct Ht as [-> Ht]. split; [|intros ? ?; by simplify_eq].
  split_and!; try done. exists [], delivered. unfold bc_planned. simpl. split_and!; try done. by apply Hc.
Qed.

Lemma bc_next_inv fuel e uuids prog s r s' :
  block_env_ok e -> bc_inv prog s -> block_copier_next fuel e uuids s = (r, s') -> bc_outcome (now e) prog r s'.
Proof.
  intros He Hinv. unfold block_copier_next, mbind at 1, M_bind at 1, get at 1.
  pose proof Hinv as (-> & _). unfold mbind at 1, M_bind at 1.
  destruct (bc_get_source_size (now e) s) as [x s1] eqn:E1.
  eapply bc_source_inv in E1 as (Hi1 & Hs1); [|apply He|done].
  destruct x as [n|err|]; [| intros ?; by simplify_eq..]. specialize (Hs1 n eq_refl).
  unfold mbind at 1, M_bind at 1, get at 1. destruct (_ && _) eqn:Hg.
  - apply andb_true_iff in Hg as [Hg _]. apply bool_decide_eq_true in Hg.
    unfold mbind, M_bind, lift, modify, mret, M_ret.
    destruct (bcp_copy_once (now e)) as [meta|err|] eqn:Eo; intros ?; simplify_eq; [|done|done].
    exists meta. split_and!; try done. left. split; [|done].
    destruct Hi1 as (_ & _ & _ & _ & inputs & delivered & _ & _ & Hp & ->).
    rewrite Hg in Hp. destruct delivered; [done | by csimpl in Hp].
  - unfold mbind, M_bind. destruct (bc_fill_tasks fuel e uuids n s1) as [x s2] eqn:E2.
    destruct x as [[]|err|]; [..|intros ?; by simplify_eq];
      (eapply bc_fill_inv in E2 as (Hi2 & Hs2 & Hd); [|done..]).
    + apply bc_deliver_inv with n; eauto.
    + intros ?. by simplify_eq.
Qed.

Lemma bc_reach_inv prog s : bc_reach prog s -> bc_inv prog s.
Proof.
  induction 1 as [hint th ps c Hh Hp|prog s fuel e uu n s' _ IH He E|prog s fuel e uu err s' _ IH He E
                 |prog s k r _ IH Hok].
  - split_and!; [done|done|simpl; lia|simpl; lia|]. exists [], []. unfold bc_planned. simpl.
    split_and!; try done; [apply tasks_new_inv|]. by destruct hint.
  - by apply (bc_next_inv _ _ _ _ _ _ _ He IH) in E.
  - by apply (bc_next_inv _ _ _ _ _ _ _ He IH) in E.
  - destruct IH as (H1 & H2 & H3 & H4 & inputs & delivered & Hi & Hpl & Hp & Hg).
    split_and!; try done.
    { unfold finish. simpl. by destruct (tasks (bc_tasks s) !! k) as [[i []]|]. }
    exists inputs, delivered. split_and!; try done. by apply finish_tasks_inv.
Qed.

(** A block copy that reports its end has copied the whole source, once:
    [complete_block] was given the ids of blocks the service has copied, whose
    ranges tile the source from 0 to its size in order, and the progress reported
    adds up to the size; or the source went out in one [copy_once].  A call that
    fails can be repeated. *)
Theorem block_copy_integrity prog s fuel e uuids r s' :
  bc_reach prog s -> block_env_ok e -> block_copier_next fuel e uuids s = (r, s') ->
  match r with
  | Ok None => bc_copied (now e) prog s'
  | Ok (Some k) => bc_reach (prog ++ [k]) s'
  | Err _ => bc_reach prog s'
  | Panic => True
  end.
Proof.
  intros Hr He E. pose proof (bc_next_inv _ _ _ _ _ _ _ He (bc_reach_inv _ _ Hr) E) as Ho.
  destruct r as [[k|]|err|]; [by eapply bc_reach_next | done | by eapply bc_reach_err | done].
Qed.

(** An abort names every block that was ever scheduled. *)
Theorem block_abort_names_all prog s c :
  bc_reach prog s ->
  exists inputs, bc_scheduled_block_ids s = bc_id <$> inputs /\
    (bc_number <$> inputs) = seq 0 (bc_next_block_number s) /\
    (block_copier_abort c s).1 =
      match inputs with [] => Ok tt | _ => bcp_abort_block c (bc_id <$> inputs) end.
Proof.
  intros (_ & _ & _ & _ & inputs & delivered & _ & (Hn & Hid & _) & _)%bc_reach_inv.
  exists inputs. split_and!; try done.
  unfold block_copier_abort, mbind, M_bind, modify, get, lift. simpl. rewrite Hid.
  destruct inputs as [|i inputs]; csimpl; [done|].
  by destruct (bcp_abort_block _ _) as [[]| |].
Qed.

End BlockCopier.

(** ** One-shot copies

    The future is the outcome it has when it is awaited. *)

Record OneShotCopier : Type := mkOneShot { os_fut : option (result Metadata); os_meta : option Metadata }.

Definition oneshot_new (fut : result Metadata) : OneShotCopier := mkOneShot (Some fut) None.
Definition oneshot_completed : OneShotCopier := mkOneShot None (Some meta_default).

(** [self.fut.take()] comes before the await. *)
Definition oneshot_close : M OneShotCopier Error Metadata :=
  s ← get;
  match os_fut s with
  | Some fut =>
      put (mkOneShot None (os_meta s));;
      m ← lift fut;
      put (mkOneShot None (Some m))
  | None => mret tt
  end;;
  s ← get;
  mret (default meta_default (os_meta s)).

Definition oneshot_next : M OneShotCopier Error (option nat) :=
  s ← get;
  (if is_none (os_meta s) then oneshot_close;; mret tt else mret tt);;
  mret None.

Definition oneshot_abort : M OneShotCopier Error unit := put (mkOneShot None None).

#[export] Instance OneShot_Copy : Copy OneShotCopier :=
  {| c_next := oneshot_next; c_close := oneshot_close; c_abort := oneshot_abort |}.

(** Driven to its end, a one-shot copier runs its future once and answers what
    the future answered, as often as it is asked. *)
Theorem oneshot_runs_once m :
  let s := (oneshot_next (oneshot_new (Ok m))).2 in
  (oneshot_next (oneshot_new (Ok m))).1 = Ok None /\ os_fut s = None /\
  oneshot_next s = (Ok None, s) /\ oneshot_close s = (Ok m, s).
Proof. by split_and!. Qed.

Lemma on_inner_ok `{Backon} {R X} op (m : M R Error X) s failed x s1 :
  attempts m s failed (Ok x) s1 -> (length failed <= max_times)%nat -> (on_inner op m (wrapper_new s)).1 = Ok x.
Proof.
  intros Ha Hlen. destruct (on_inner op m (wrapper_new s)) as [r w] eqn:E.
  apply on_inner_spec in E as (failed' & last & s' & Ha' & -> & _ & _ & Hl).
  by rewrite (attempts_det m s failed x s1 failed' last s' max_times).
Qed.

(** A one-shot copier forgets that its copy failed: the future is gone after
    the failure, and the next call reports success with empty metadata.  Under
    the retry layer a copy that failed temporarily is therefore reported as done
    by the first retry, although nothing was copied. *)
Theorem oneshot_retry_hides_failure `{Backon} e :
  is_temporary e = true -> (0 < max_times)%nat ->
  let s := wrapper_new (oneshot_new (Err e)) in
  (oneshot_close (oneshot_close (oneshot_new (Err e))).2).1 = Ok meta_default /\
  (c_next s).1 = Ok None /\ (c_close s).1 = Ok meta_default.
Proof.
  intros Ht Hm. split_and!; [done|..]; apply on_inner_ok with [e] (mkOneShot None None); try (simpl; lia);
    (eapply attempts_fail; [reflexivity | done | by apply attempts_last]).
Qed.

Lemma oneshot_retry_hides_failure_witness :
  (@c_close _ (@RetryWrapper_Copy (backon_times 3) _ _)
    (wrapper_new (oneshot_new (Err (set_temporary (error RateLimited "busy")))))).1 = Ok meta_default.
Proof.
  apply (@oneshot_retry_hides_failure (backon_times 3) (set_temporary (error RateLimited "busy")));
    [reflexivity | simpl; lia].
Defined.

(** An abort of a multipart copy that failed is not repeated: the upload id is
    taken before the service is asked, so the second abort has nothing to do. *)
Theorem multipart_abort_not_repeated `{Backon} {C} `{MultipartCopy C} (down up : C) u e s :
  mc_upload_id s = Some u -> mcp_abort_copy down u = Err e ->
  exists s1, multipart_copier_abort down s = (Err e, s1) /\ mc_completed s1 = mc_completed s /\
    multipart_copier_abort up s1 = (Ok tt, s1).
Proof.
  intros Hu He. unfold multipart_copier_abort, mbind, M_bind, modify, get, lift. simpl. rewrite Hu, He.
  by eexists.
Qed.

(** ** [types::Copier] *)

Section UserCopier.
  Context {Cp : Type} `{Copy Cp}.

(** [fut] holds the copier while the stream is waiting for its [next]. *)
Record Copier : Type := mkCopier {
  cu_copier : option Cp; cu_metadata : option Metadata; cu_fut : option Cp; cu_errored : bool;
}.

Definition copier_of (copier : Cp) : Copier := mkCopier (Some copier) None None false.
Definition copier_create {A Rd Wr Ls Dl} (acc : Access A Rd Wr Ls Dl Cp) (from to : str) (args : OpCopy)
    (opts : OpCopier) : M A Error Copier :=
  copier ← a_copy acc from to args opts;
  mret (copier_of copier).

Definition cu_set_copier (v : option Cp) (s : Copier) : Copier :=
  mkCopier v (cu_metadata s) (cu_fut s) (cu_errored s).
Definition cu_set_metadata (v : Metadata) (s : Copier) : Copier :=
  mkCopier (cu_copier s) (Some v) (cu_fut s) (cu_errored s).
Definition cu_set_errored (s : Copier) : Copier :=
  mkCopier (cu_copier s) (cu_metadata s) (cu_fut s) true.
(** A call on the copier the handle owns. *)
Definition on_copier {X} (m : M Cp Error X) (c : Cp) : M Copier Error X := fun s =>
  let '(r, c') := m c in (r, cu_set_copier (Some c') s).

Definition copier_next : M Copier Error (option nat) := fun s =>
  if cu_errored s then (Ok None, s)
  else match cu_copier s with
  | None => (Ok None, s)
  | Some copier =>
      match on_copier c_next copier s with
      | (Ok (Some n), s) => (Ok (Some n), s)
      | (Ok None, s) =>
          match cu_copier s with
          | None => (Panic, s)
          | Some copier =>
              match on_copier c_close copier s with
              | (Ok meta, s) => (Ok None, cu_set_copier None (cu_set_metadata meta s))
              | (Err err, s) => (Err err, s)
              | (Panic, s) => (Panic, s)
              end
          end
      | (Err err, s) => (Err err, cu_set_errored s)
      | (Panic, s) => (Panic, s)
      end
  end.

Definition copier_abort : M Copier Error unit := fun s =>
  match cu_copier s with
  | None => (Ok tt, s)
  | Some copier => on_copier c_abort copier s
  end.

Definition copier_failed : Error := error Unexpected "copier has already failed and can't be closed".

(** [while self.metadata.is_none() { .. }]. *)
Fixpoint copier_drive (rounds : nat) : M Copier Error unit :=
  s ← get;
  match cu_metadata s with
  | Some _ => mret tt
  | None =>
      match rounds with
      | 0%nat => panic
      | S k =>
          x ← copier_next;
          match x with Some _ => copier_drive k | None => mret tt end
      end
  end.

Definition copier_close (rounds : nat) : M Copier Error Metadata :=
  s ← get;
  if cu_errored s then throw copier_failed
  else match cu_metadata s with
  | Some metadata => mret metadata
  | None =>
      copier_drive rounds;;
      s ← get;
      mret (default meta_default (cu_metadata s))
  end.

(** [Stream::poll_next]; [ready]: whether the future of [next] is. *)
Definition copier_poll_next (ready : bool) (s : Copier) : Poll (option (result nat)) * Copier :=
  if cu_errored s then (Ready None, s)
  else
    let s := match cu_copier s with
             | Some c => mkCopier None (cu_metadata s) (Some c) (cu_errored s)
             | None => s
             end in
    match cu_fut s with
    | None => (Ready None, s)
    | Some c =>
        if ready then
          let '(res, c) := c_next c in
          let s := mkCopier (Some c) (cu_metadata s) None (cu_errored s) in
          match res with
          | Ok (Some n) => (Ready (Some (Ok n)), s)
          | Ok None => (Ready None, s)
          | Err err => (Ready (Some (Err err)), cu_set_errored s)
          | Panic => (Ready (Some Panic), s)
          end
        else (Pending, s)
    end.

(** *** What it promises *)

(** The copier reports [ns], then its end, and closes with [meta]; asked again
    after the end, it says so again. *)
Inductive copies : Cp -> list nat -> Metadata -> Prop :=
  | copies_end c c' c'' meta :
      c_next c = (Ok None, c') -> c_next c' = (Ok None, c') -> c_close c' = (Ok meta, c'') -> copies c [] meta
  | copies_step c n c' ns meta :
      c_next c = (Ok (Some n), c') -> copies c' ns meta -> copies c (n :: ns) meta.

Lemma copier_drive_copies c ns meta rounds s :
  copies c ns meta -> (length ns < rounds)%nat -> cu_copier s = Some c -> cu_metadata s = None ->
  cu_errored s = false ->
  exists s', copier_drive rounds s = (Ok tt, s') /\ cu_metadata s' = Some meta /\ cu_copier s' = None /\
    cu_errored s' = false.
Proof.
  intros Hc. revert rounds s. induction Hc as [c c' c'' meta E1 E1' E2|c n c' ns meta E Hc IH];
    intros [|rounds] s Hl Hs Hm He; simpl in Hl; try lia;
    cbn [copier_drive]; unfold mbind, M_bind, get; rewrite Hm; unfold copier_next, on_copier; rewrite He, Hs.
  - rewrite E1. simpl. rewrite E2. by eexists.
  - rewrite E. apply IH; [lia|done..].
Qed.

(** Closing a copier drives it to its end and returns the metadata of the
    completion: the copier is released, and closing again returns the same. *)
Theorem copier_close_completes c ns meta rounds :
  copies c ns meta -> (length ns < rounds)%nat ->
  exists s, copier_close rounds (copier_of c) = (Ok meta, s) /\ cu_copier s = None /\
    forall k, copier_close k s = (Ok meta, s).
Proof.
  intros Hc Hl.
  destruct (copier_drive_copies c ns meta rounds (copier_of c)) as (s' & E & Hm & Hn & He); [done..|].
  exists s'. unfold copier_close at 1, mbind, M_bind, get, mret, M_ret, throw. simpl. rewrite E, Hm.
  split_and!; [done..|]. intros k. unfold copier_close, mbind, M_bind, get, mret, M_ret. by rewrite He, Hm.
Qed.

(** The values a stream yields while it is polled with a schedule. *)
Fixpoint copier_polls (schedule : list bool) (s : Copier) : list (option (result nat)) * Copier :=
  match schedule with
  | [] => ([], s)
  | ready :: rest =>
      let '(x, s1) := copier_poll_next ready s in
      let '(xs, s2) := copier_polls rest s1 in
      (match x with Pending => xs | Ready v => v :: xs end, s2)
  end.

(** The handle has the copier [c], in its field or in the future. *)
Definition holds (c : Cp) (s : Copier) : Prop :=
  cu_errored s = false /\ (cu_copier s = Some c \/ (cu_copier s = None /\ cu_fut s = Some c)).

Lemma copier_poll_holds c s ready :
  holds c s ->
  exists s1, holds c s1 /\ cu_metadata s1 = cu_metadata s /\
    copier_poll_next ready s =
      if ready then
        let '(res, c') := c_next c in
        let s' := mkCopier (Some c') (cu_metadata s) None false in
        match res with
        | Ok (Some n) => (Ready (Some (Ok n)), s')
        | Ok None => (Ready None, s')
        | Err err => (Ready (Some (Err err)), cu_set_errored s')
        | Panic => (Ready (Some Panic), s')
        end
      else (Pending, s1).
Proof.
  intros [He Hc]. unfold copier_poll_next. rewrite He.
  assert (match cu_copier s with Some c => mkCopier None (cu_metadata s) (Some c) (cu_errored s) | None => s end
    = mkCopier None (cu_metadata s) (Some c) false) as Hs.
  { destruct Hc as [->|[Hn Hf]]; [by rewrite He|]. rewrite Hn. destruct s; simpl in *; congruence. }
  exists (mkCopier None (cu_metadata s) (Some c) false). split_and!; [split; [done|by right]|done|].
  rewrite He in Hs. rewrite Hs. by destruct ready.
Qed.

(** The stream yields the progress of the copy in order and then its end, for
    as long as it is polled, whatever the polls that find it not ready; and the
    copier can still be closed afterwards. *)
Theorem copier_stream c ns meta schedule :
  copies c ns meta ->
  exists taken rest ends,
    ns = taken ++ rest /\
    (copier_polls schedule (copier_of c)).1 = ((fun n => Some (Ok n)) <$> taken) ++ replicate ends None /\
    (ends = 0%nat \/ rest = []) /\ (length taken + ends)%nat = length (filter (.= true) schedule).
Proof.
  intros Hc.
  assert (forall sched c s, c_next c = (Ok None, c) -> holds c s ->
    (copier_polls sched s).1 = replicate (length (filter (.= true) sched)) None) as Hend.
  { intros sched. induction sched as [|ready sched IH]; intros c0 s0 E Hh; [done|]. cbn [copier_polls].
    destruct (copier_poll_holds c0 s0 ready Hh) as (s1 & Hh1 & _ & ->). rewrite E. destruct ready.
    - rewrite filter_cons_True by done. simpl. rewrite <- (IH c0 (mkCopier (Some c0) (cu_metadata s0) None false) E);
        [|split; [done|by left]]. by destruct (copier_polls sched _).
    - rewrite filter_cons_False by done. rewrite <- (IH c0 s1 E Hh1). by destruct (copier_polls sched _). }
  assert (holds c (copier_of c)) as Hh by (split; [done|by left]). revert Hh.
  generalize (copier_of c) as s. revert c ns Hc. induction schedule as [|ready sched IH]; intros c ns Hc s Hh.
  { exists [], ns, 0%nat. split_and!; try done. by left. }
  cbn [copier_polls]. destruct (copier_poll_holds c s ready Hh) as (s1 & Hh1 & _ & ->). destruct ready.
  2: { destruct (IH c ns Hc s1 Hh1) as (taken & rest & ends & H1 & H2 & H3 & H4). exists taken, rest, ends.
       rewrite filter_cons_False by done. split_and!; try done. rewrite <- H2. by destruct (copier_polls sched s1). }
  rewrite filter_cons_True by done. inversion Hc as [? c' c'' ? E1 E2 E3|? n c' ns' ? E Hc']; subst.
  - rewrite E1. exists [], [], (S (length (filter (.= true) sched))). split_and!; try done; [|by right].
    pose proof (Hend sched c' (mkCopier (Some c') (cu_metadata s) None false) E2) as Hr. simpl.
    destruct (copier_polls sched _) as [xs s2]. simpl in *. rewrite Hr; [done|]. split; [done|by left].
  - rewrite E. destruct (IH c' ns' Hc' (mkCopier (Some c') (cu_metadata s) None false))
      as (taken & rest & ends & H1 & H2 & H3 & H4); [split; [done|by left]|].
    exists (n :: taken), rest, ends. simpl. destruct (copier_polls sched _) as [xs s2]. simpl in *.
    split_and!; [by rewrite H1 | by rewrite H2 | done | lia].
Qed.

(** A poll that is not ready keeps the copier in the future: until it is polled
    again the handle answers as if the copy were over, and an abort aborts
    nothing. *)
Theorem copier_pending_looks_done c :
  let s := (copier_poll_next false (copier_of c)).2 in
  copier_next s = (Ok None, s) /\ copier_abort s = (Ok tt, s) /\
  (copier_close 1 s).1 = Ok meta_default.
Proof. by split_and!. Qed.

End UserCopier.

(** ** Witnesses *)

(** A source of five bytes. *)
#[export] Instance Svc_multipart_copy : MultipartCopy Svc := {
  mcp_source_metadata w := answer w (set_content_length 5 meta_default);
  mcp_copy_once w := answer w meta_default;
  mcp_initiate_copy w := answer w (b "upload");
  mcp_copy_part w _ n r := answer w (mkPart n (b "etag") None (size r));
  mcp_complete_copy w _ parts :=
    answer w (set_content_length (foldr (fun p n => default 0 (p_size p) + n) 0 parts) meta_default);
  mcp_abort_copy w _ := answer w tt;
}.
#[export] Instance Svc_block_copy : BlockCopy nat Svc := {
  bcp_source_metadata w := answer w (set_content_length 5 meta_default);
  bcp_copy_once w := answer w meta_default;
  bcp_copy_block w _ _ := answer w tt;
  bcp_complete_block w ids := answer w (set_content_length (Z.of_nat (length ids)) meta_default);
  bcp_abort_block w _ := answer w tt;
}.

Definition copy_echoed (i : CopyInput) (p : MultipartPart) : Prop := p_part_number p = ci_part_number i.

(** The service is up, but the first attempt of every loop finds it down. *)
Definition flaky {I} : CopyEnv Svc I := mkEnv Up (fun _ a => (if bool_decide (a = 0%nat) then Down else Up, None)).

Lemma flaky_copies j a : await_ok (copied copy_echoed) sized (copy_attempts flaky j a).
Proof.
  intros i Hi. unfold copy_attempts, copy_part_task. pose proof Hi as [n Hn]. rewrite Hn.
  unfold flaky, with_timeout. simpl. case_bool_decide; simpl; [by apply stands_for_refl | done].
Qed.
Lemma flaky_ok : copy_env_ok copy_echoed flaky.
Proof. split; [exact flaky_copies|]. intros m Hm. by simplify_eq/=. Qed.

(** Three parts of at most two bytes, two at a time; the first call. *)
Definition mc_state0 : MultipartCopier := multipart_copier_new info_default None 1 2 2.
Definition mc_state1 : MultipartCopier := (multipart_copier_next 3 (flaky (I := CopyInput)) mc_state0).2.
Definition mc_state2 : MultipartCopier := (multipart_copier_next 3 (flaky (I := CopyInput)) mc_state1).2.
Definition mc_state3 : MultipartCopier := (multipart_copier_next 3 (flaky (I := CopyInput)) mc_state2).2.

Lemma mc_state_reach : mc_reach copy_echoed [2; 2; 1]%nat mc_state3.
Proof.
  apply (mc_reach_next copy_echoed [2; 2]%nat mc_state2 3 flaky 1); [|exact flaky_ok|vm_compute; reflexivity].
  apply (mc_reach_next copy_echoed [2]%nat mc_state1 3 flaky 2); [|exact flaky_ok|vm_compute; reflexivity].
  apply (mc_reach_next copy_echoed [] mc_state0 3 flaky 2); [|exact flaky_ok|vm_compute; reflexivity].
  by apply mc_reach_new.
Qed.

Lemma multipart_copy_integrity_witness :
  mc_copied copy_echoed Up [2; 2; 1]%nat (multipart_copier_next 3 (flaky (I := CopyInput)) mc_state3).2.
Proof.
  apply (multipart_copy_integrity copy_echoed (fun i p Hp => Hp) _ _ 3 flaky (Ok None) _ mc_state_reach flaky_ok).
  vm_compute. reflexivity.
Defined.

Lemma flaky_up : copy_service_up copy_echoed 5 1 flaky.
Proof.
  split_and!; [exact flaky_ok| |by eexists..|by eexists].
  intros j a i Hi. pose proof Hi as [n Hn]. unfold copy_attempts, copy_part_task, flaky, with_timeout. rewrite Hn. simpl.
  case_bool_decide as Ha; split; try done; intros ?; [lia | by eexists].
Qed.

Lemma multipart_copy_completes_witness :
  exists more meta s', multipart_copier_close 6 3 (fun _ => flaky) mc_state0 = (Ok meta, s') /\
    mc_metadata s' = Some meta /\ mc_copied copy_echoed Up more s'.
Proof.
  destruct (multipart_copy_completes copy_echoed (fun i p Hp => Hp) 5 1 [] mc_state0 (fun _ => flaky) 3 6)
    as (i & more & meta & s' & E & Hm & Hc); [by apply mc_reach_new|done..| |lia|vm_compute; lia|].
  - intros _. exact flaky_up.
  - by exists more, meta, s'.
Defined.

Lemma flaky_blocks_ok :
  block_env_ok (fun _ => []) (fun _ : BlockCopyInput nat => True) (flaky (I := BlockCopyInput nat)).
Proof.
  split; [|intros m Hm; by simplify_eq/=].
  intros j a i Hi. unfold block_attempts, copy_block_task. pose proof Hi as [n Hn]. rewrite Hn.
  unfold flaky, with_timeout. simpl. case_bool_decide; simpl; [by apply stands_for_refl | done].
Qed.

Definition bc_state0 : BlockCopier nat := block_copier_new None 1 3 2.
Definition bc_state1 : BlockCopier nat := (block_copier_next (fun _ => []) 3 flaky (fun j => 10 + j)%nat bc_state0).2.
Definition bc_state2 : BlockCopier nat := (block_copier_next (fun _ => []) 3 flaky (fun j => 20 + j)%nat bc_state1).2.
Lemma bc_state_reach : bc_reach (fun _ => []) (fun _ => True) [3; 2]%nat bc_state2.
Proof.
  apply (bc_reach_next _ _ [3]%nat bc_state1 3 flaky (fun j => 20 + j)%nat 2);
    [|exact flaky_blocks_ok|vm_compute; reflexivity].
  apply (bc_reach_next _ _ [] bc_state0 3 flaky (fun j => 10 + j)%nat 3);
    [|exact flaky_blocks_ok|vm_compute; reflexivity].
  by apply bc_reach_new.
Qed.

Lemma block_copy_integrity_witness :
  bc_copied (fun _ => True) Up [3; 2]%nat (block_copier_next (fun _ => []) 3 flaky (fun j => 30 + j)%nat bc_state2).2.
Proof.
  apply (block_copy_integrity (fun _ => []) (fun _ => True) _ _ 3 flaky (fun j => 30 + j)%nat (Ok None) _
    bc_state_reach flaky_blocks_ok).
  vm_compute. reflexivity.
Defined.

(** A copier that reports the numbers it is given. *)
#[export] Instance Script_Copy : Copy (list nat) := {
  c_next l := match l with [] => (Ok None, []) | n :: l' => (Ok (Some n), l') end;
  c_close l := (Ok meta_default, l);
  c_abort l := (Ok tt, l);
}.
Lemma script_copies l : copies l l meta_default.
Proof. induction l as [|n l IH]; [by eapply copies_end | by eapply copies_step]. Qed.

Lemma copier_close_completes_witness :
  exists s, copier_close 3 (copier_of [4; 2]%nat) = (Ok meta_default, s) /\ cu_copier s = None /\
    forall k, copier_close k s = (Ok meta_default, s).
Proof. apply (copier_close_completes _ _ _ _ (script_copies [4; 2]%nat)). simpl. lia. Defined.

Lemma copier_stream_witness :
  exists taken rest ends,
    [4; 2]%nat = taken ++ rest /\
    (copier_polls [false; true; true; false; true] (copier_of [4; 2]%nat)).1 =
      ((fun n => Some (Ok n)) <$> taken) ++ replicate ends None /\
    (ends = 0%nat \/ rest = []) /\ (length taken + ends)%nat = 3%nat.
Proof. apply (copier_stream _ _ _ [false; true; true; false; true] (script_copies [4; 2]%nat)). Defined.
