(* ===== verification/Sinks.v ===== *)
(** * Sinks ([types/write/buffer_sink.rs], [futures_async_writer.rs],
      [futures_bytes_sink.rs], [types/delete/futures_delete_sink.rs])

    The poll-based adapters over a [Writer] and a [Deleter].  A future that is
    polled may be ready or not: [k] is the number of futures that are found ready
    during one call, after which the next one is [Pending].  A future that is
    under way is kept in the state with what it will do. *)

From S2P Require Import Prelude Errors Path Range Buffer Types Writers Deleters.
From stdpp Require Import options.

(** ** [BufferSink] *)

(** [Idle(None)], which only a successful close leaves behind, is [SDropped]
    with the writer in the state in which it was dropped. *)
Inductive SinkState (W : Type) : Type :=
  | SIdle (w : WriteGenerator W)
  | SDropped (w : WriteGenerator W)
  | SWriting (w : WriteGenerator W) (buf : Buffer)
  | SClosing (w : WriteGenerator W).
Arguments SIdle {W}.
Arguments SDropped {W}.
Arguments SWriting {W}.
Arguments SClosing {W}.

Record BufferSink (W : Type) : Type := mkSink { sk_state : SinkState W; sk_buf : Buffer }.
Arguments mkSink {W}.
Arguments sk_state {W}.
Arguments sk_buf {W}.

Definition sink_has_been_closed : Error := error Unexpected "state invalid: sink has been closed".
Definition sink_is_closing : Error := error Unexpected "state invalid: sink is closing".

Section Sink.
  Context {W : Type} `{HW : Write W}.
  Implicit Types s : BufferSink W.

Definition sink_new (w : WriteGenerator W) : BufferSink W := mkSink (SIdle w) Buffer.new.

Definition sink_start_send (item : Buffer) : M (BufferSink W) Error unit :=
  fun s => (Ok tt, mkSink (sk_state s) item).

(** What [poll_flush] finds: an answer, or a write to poll. *)
Definition flush_next s : result unit + (WriteGenerator W * Buffer) :=
  match sk_state s with
  | SIdle w => if is_empty (sk_buf s) then inl (Ok tt) else inr (w, sk_buf s)
  | SDropped _ => if is_empty (sk_buf s) then inl (Ok tt) else inl (Err sink_has_been_closed)
  | SWriting w buf => inr (w, buf)
  | SClosing _ => inl (Err sink_is_closing)
  end.

(** The write that [poll_flush] and [poll_close] poll: [inl] goes round the loop. *)
Definition finish_write (w : WriteGenerator W) (buf : Buffer) s
  : BufferSink W + Poll (result unit) * BufferSink W :=
  match gen_write buf w with
  | (Ok n, w') =>
      match advance (sk_buf s) n with
      | Ok buf' => inl (mkSink (SIdle w') buf')
      | Err e => inr (Ready (Err e), mkSink (SIdle w') (sk_buf s))
      | Panic => inr (Ready Panic, mkSink (SIdle w') (sk_buf s))
      end
  | (Err err, w') => inr (Ready (Err err), mkSink (SIdle w') (sk_buf s))
  | (Panic, w') => inr (Ready Panic, mkSink (SIdle w') (sk_buf s))
  end.

Fixpoint sink_poll_flush (k : nat) s : Poll (result unit) * BufferSink W :=
  match flush_next s with
  | inl r => (Ready r, s)
  | inr (w, buf) =>
      match k with
      | 0 => (Pending, mkSink (SWriting w buf) (sk_buf s))
      | S k' => match finish_write w buf s with inl s' => sink_poll_flush k' s' | inr out => out end
      end
  end.
Definition sink_poll_ready : nat -> BufferSink W -> Poll (result unit) * BufferSink W := sink_poll_flush.

Fixpoint sink_poll_close (k : nat) s : Poll (result unit) * BufferSink W :=
  let writing w buf :=
    match k with
    | 0 => (Pending, mkSink (SWriting w buf) (sk_buf s))
    | S k' => match finish_write w buf s with inl s' => sink_poll_close k' s' | inr out => out end
    end in
  let closing w :=
    match k with
    | 0 => (Pending, mkSink (SClosing w) (sk_buf s))
    | S k' =>
        match gen_close w with
        | (Ok _, w') => (Ready (Ok tt), mkSink (SDropped w') (sk_buf s))
        | (Err err, w') => (Ready (Err err), mkSink (SIdle w') (sk_buf s))
        | (Panic, w') => (Ready Panic, mkSink (SIdle w') (sk_buf s))
        end
    end in
  match sk_state s with
  | SIdle w => if is_empty (sk_buf s) then closing w else writing w (sk_buf s)
  | SDropped _ => (Ready (Err sink_has_been_closed), s)
  | SWriting w buf => writing w buf
  | SClosing w => closing w
  end.

End Sink.

(** *** What a sink does with the data *)

Section SinkSpec.
  Context {W : Type} `{WriteLog W}.
  Implicit Types s : BufferSink W.

(** The generator is sound, and a write under way is one of the buffer. *)
Definition sink_wf s : Prop :=
  wf (sk_buf s) /\
  match sk_state s with
  | SIdle w => gen_wf w
  | SDropped _ => False
  | SWriting w buf => gen_wf w /\ buf = sk_buf s /\ blen buf <> 0
  | SClosing w => gen_wf w /\ blen (sk_buf s) = 0
  end.
Definition sink_gen s : WriteGenerator W :=
  match sk_state s with SIdle w | SDropped w | SWriting w _ | SClosing w => w end.
(** Every byte the sink was given: what the generator has, then the buffer. *)
Definition sink_data s : bytes := gen_data (sink_gen s) ++ contents (sk_buf s).

Lemma contents_empty buf : wf buf -> blen buf = 0 -> contents buf = [].
Proof. intros Hb Hz. apply nil_length_inv. by rewrite contents_length. Qed.

(** A write that is polled to its end moves bytes from the buffer to the writer. *)
Lemma finish_write_ok w s :
  wf (sk_buf s) -> gen_wf w -> blen (sk_buf s) <> 0 ->
  match finish_write w (sk_buf s) s with
  | inl s' => sink_wf s' /\ sink_data s' = gen_data w ++ contents (sk_buf s) /\
      blen (sk_buf s') < blen (sk_buf s) /\ exists w', sk_state s' = SIdle w'
  | inr (Ready (Ok _), _) | inr (Pending, _) => False
  | inr _ => True
  end.
Proof.
  intros Hb Hg Hz. unfold finish_write. destruct (gen_write (sk_buf s) w) as [[n|e|] w'] eqn:E; [|done..].
  apply gen_write_ok in E as [Hn Hs]; [|done..].
  destruct (advance_ok (sk_buf s) n Hb) as (buf' & -> & Hb' & Hc'); [lia|].
  destruct Hs as (_ & _ & Hg' & Hd & _). split_and!.
  - by split.
  - unfold sink_data, sink_gen. simpl. rewrite Hd, Hc', <- app_assoc. by rewrite take_drop.
  - simpl. rewrite <- !contents_length, Hc', length_drop, contents_length by done. lia.
  - by eexists.
Qed.

(** What a flush may answer. *)
Definition flushed (k : nat) s (r : Poll (result unit)) s' : Prop :=
  match r with
  | Pending => sink_wf s' /\ sink_data s' = sink_data s /\ k <= blen (sk_buf s) /\ forall w, sk_state s' <> SClosing w
  | Ready (Ok _) => sink_wf s' /\ sink_data s' = sink_data s /\ is_empty (sk_buf s') = true /\
      exists w, sk_state s' = SIdle w
  | Ready _ => True
  end.

(** One round of the loop that polls a write. *)
Lemma flush_round k s w (rest : BufferSink W -> Poll (result unit) * BufferSink W) r s' :
  wf (sk_buf s) -> gen_wf w -> blen (sk_buf s) <> 0 -> sink_gen s = w ->
  (forall s1 w1, sink_wf s1 -> sk_state s1 = SIdle w1 -> rest s1 = (r, s') -> flushed k s1 r s') ->
  match finish_write w (sk_buf s) s with inl s1 => rest s1 | inr out => out end = (r, s') ->
  flushed (S k) s r s'.
Proof.
  intros Hb Hg Hz Hw IH. pose proof (finish_write_ok w s Hb Hg Hz) as Hf.
  destruct (finish_write w (sk_buf s) s) as [s1|[[|[]] s1]]; [|intros ?; by simplify_eq..].
  destruct Hf as (Hwf & Hd & Hlt & w' & Hst). intros E. eapply IH in E; [|done..].
  rewrite <- Hw in Hd. change (sink_data s1 = sink_data s) in Hd.
  unfold flushed in *. rewrite <- Hd. destruct r as [|[]]; try done.
  destruct E as (? & ? & ? & ?). split_and!; try done. lia.
Qed.

Lemma sink_idle_flushed k s w :
  sink_wf s -> sk_state s = SIdle w -> is_empty (sk_buf s) = true -> flushed k s (Ready (Ok tt)) s.
Proof. intros Hs Hst He. split_and!; try done. by eauto. Qed.

Lemma sink_write_pending s w :
  wf (sk_buf s) -> gen_wf w -> blen (sk_buf s) <> 0 -> sink_gen s = w ->
  flushed 0 s Pending (mkSink (SWriting w (sk_buf s)) (sk_buf s)).
Proof. intros Hb Hg Hz Hw. split_and!; try done; [unfold sink_data; by rewrite Hw | lia]. Qed.

Lemma sink_poll_flush_ok k s r s' :
  sink_wf s -> (forall w, sk_state s <> SClosing w) -> sink_poll_flush k s = (r, s') -> flushed k s r s'.
Proof.
  revert s. induction k as [|k IH]; intros s Hwf Hnc; pose proof Hwf as [Hb Hs]; cbn [sink_poll_flush];
    unfold flush_next; destruct (sk_state s) as [w|w|w buf|w] eqn:Est; try done; try (by destruct (Hnc w)).
  all: try (destruct Hs as (Hg & -> & Hz)).
  all: try (destruct (is_empty (sk_buf s)) eqn:He; [intros ?; simplify_eq; by eapply sink_idle_flushed|];
            unfold is_empty in He; apply bool_decide_eq_false in He).
  all: try (intros ?; simplify_eq; apply sink_write_pending; unfold sink_gen; by rewrite ?Est).
  all: apply flush_round; try done; try (unfold sink_gen; by rewrite Est);
    intros s1 w1 Hs1 Hst1 E; apply IH; try done; by rewrite Hst1.
Qed.

(** *** Closing *)

(** What a close may answer. *)
Definition closed (k : nat) s (r : Poll (result unit)) s' : Prop :=
  match r with
  | Pending => sink_wf s' /\ sink_data s' = sink_data s /\ k <= S (blen (sk_buf s))
  | Ready (Ok _) => exists w, sk_state s' = SDropped w /\ concat (wlog (g_w w)) = sink_data s
  | Ready _ => True
  end.

Lemma sink_closing k s w r s' :
  wf (sk_buf s) -> gen_wf w -> blen (sk_buf s) = 0 -> sink_gen s = w ->
  match k with
  | 0 => (Pending, mkSink (SClosing w) (sk_buf s))
  | S _ =>
      match gen_close w with
      | (Ok _, w') => (Ready (Ok tt), mkSink (SDropped w') (sk_buf s))
      | (Err err, w') => (Ready (Err err), mkSink (SIdle w') (sk_buf s))
      | (Panic, w') => (Ready Panic, mkSink (SIdle w') (sk_buf s))
      end
  end = (r, s') -> closed k s r s'.
Proof.
  intros Hb Hg Hz Hw. destruct k.
  - intros ?. simplify_eq. split; [by split|]. split; [done|lia].
  - destruct (gen_close w) as [[m|e|] w'] eqn:E; intros ?; simplify_eq; try done.
    apply gen_close_ok in E as [_ E]; [|done]. exists w'. split; [done|].
    rewrite E. unfold sink_data. by rewrite (contents_empty _ Hb Hz), app_nil_r.
Qed.

Lemma close_round k s w r s' :
  wf (sk_buf s) -> gen_wf w -> blen (sk_buf s) <> 0 -> sink_gen s = w ->
  (forall s1, sink_wf s1 -> sink_poll_close k s1 = (r, s') -> closed k s1 r s') ->
  match finish_write w (sk_buf s) s with inl s1 => sink_poll_close k s1 | inr out => out end = (r, s') ->
  closed (S k) s r s'.
Proof.
  intros Hb Hg Hz Hw IH. pose proof (finish_write_ok w s Hb Hg Hz) as Hf.
  destruct (finish_write w (sk_buf s) s) as [s1|[[|[]] s1]]; [|intros ?; by simplify_eq..].
  destruct Hf as (Hwf & Hd & Hlt & w' & Hst). intros E. eapply IH in E; [|done..].
  rewrite <- Hw in Hd. change (sink_data s1 = sink_data s) in Hd.
  unfold closed in *. rewrite <- Hd. destruct r as [|[]]; try done.
  destruct E as (? & ? & ?). split_and!; try done. lia.
Qed.

Lemma sink_poll_close_ok k s r s' :
  sink_wf s -> sink_poll_close k s = (r, s') -> closed k s r s'.
Proof.
  revert s. induction k as [|k IH]; intros s Hwf; pose proof Hwf as [Hb Hs]; cbn [sink_poll_close];
    destruct (sk_state s) as [w|w|w buf|w] eqn:Est; try done.
  all: try (destruct Hs as (Hg & -> & Hz)).
  all: try (destruct (is_empty (sk_buf s)) eqn:He; unfold is_empty in He;
            [apply bool_decide_eq_true in He | apply bool_decide_eq_false in He]).
  all: assert (sink_gen s = w) as Hw by (unfold sink_gen; by rewrite Est).
  all: try (destruct Hs as [Hg Hz]).
  all: try (by apply (sink_closing 0)); try (by apply (sink_closing (S k))).
  all: try (by apply close_round).
  all: intros ?; simplify_eq; split_and!; try done; lia.
Qed.

(** *** The protocol *)

(** How a sink gets somewhere under the [Sink] protocol: [start_send] only after
    a [poll_ready] that returned [Ok], no call after an error.  The index is the
    items sent. *)
Inductive sink_reach (w : W) (chunk_size : option nat) (exact : bool) : list bytes -> BufferSink W -> Prop :=
  | sink_reach_new : sink_reach w chunk_size exact [] (sink_new (gen_new w chunk_size exact))
  | sink_reach_poll items s k r s' :
      sink_reach w chunk_size exact items s -> (forall v, sk_state s <> SClosing v) ->
      sink_poll_flush k s = (r, s') -> (r = Pending \/ r = Ready (Ok tt)) ->
      sink_reach w chunk_size exact items s'
  | sink_reach_send items s k s' buf :
      sink_reach w chunk_size exact items s -> (forall v, sk_state s <> SClosing v) ->
      sink_poll_ready k s = (Ready (Ok tt), s') -> wf buf ->
      sink_reach w chunk_size exact (items ++ [contents buf]) (sink_start_send buf s').2
  | sink_reach_close items s k s' :
      sink_reach w chunk_size exact items s -> sink_poll_close k s = (Pending, s') ->
      sink_reach w chunk_size exact items s'.

Lemma sink_reach_inv w chunk_size exact items s :
  chunk_size <> Some 0 -> wlog w = [] -> sink_reach w chunk_size exact items s ->
  sink_wf s /\ sink_data s = concat items.
Proof.
  intros Hc Hw. induction 1 as [|items s k r s' _ [IH1 IH2] Hnc E Hr|items s k s' buf _ [IH1 IH2] Hnc E Hb
                               |items s k s' _ [IH1 IH2] E].
  - split; [split; [done|]|by unfold sink_data, sink_gen, gen_data; simpl; rewrite Hw].
    split; [apply qwf_nil|]. simpl. destruct chunk_size; [|done]. split; [congruence | apply Nat.le_0_l].
  - apply sink_poll_flush_ok in E; [|done..]. rewrite <- IH2. destruct Hr as [->| ->]; by destruct E as (? & ? & _).
  - apply sink_poll_flush_ok in E as (Hwf & Hd & He & v & Hv); [|done..].
    pose proof Hwf as [Hb' Hs]. rewrite Hv in Hs. unfold is_empty in He. apply bool_decide_eq_true in He.
    unfold sink_start_send. split; [split; [done|by simpl; rewrite Hv]|].
    rewrite concat_app, <- IH2, <- Hd. unfold sink_data, sink_gen. simpl. rewrite Hv.
    by rewrite (contents_empty _ Hb' He), !app_nil_r.
  - apply sink_poll_close_ok in E as (? & Hd & _); [|done]. split; [done|congruence].
Qed.

(** A sink that closes successfully has given the service exactly the items
    sent to it, in order, whatever the polls that found a write not ready; and
    polls do not go on for ever: a call during which more futures are ready than
    there are bytes in the buffer (and one for the close) is not pending. *)
Theorem buffer_sink_integrity w chunk_size exact items s k r s' :
  chunk_size <> Some 0 -> wlog w = [] -> sink_reach w chunk_size exact items s ->
  sink_poll_close k s = (r, s') ->
  match r with
  | Pending => sink_reach w chunk_size exact items s' /\ k <= S (blen (sk_buf s))
  | Ready (Ok _) => exists v, sk_state s' = SDropped v /\ concat (wlog (g_w v)) = concat items
  | Ready _ => True
  end.
Proof.
  intros Hc Hw Hr E. pose proof (sink_reach_inv _ _ _ _ _ Hc Hw Hr) as [Hwf Hd]. pose proof E as E'.
  apply sink_poll_close_ok in E'; [|done]. destruct r as [|[]]; try done.
  - split; [by eapply sink_reach_close|]. by destruct E' as (_ & _ & ?).
  - by rewrite <- Hd.
Qed.

End SinkSpec.

(** ** [FuturesAsyncWriter] and [FuturesBytesSink] *)

Record FuturesAsyncWriter (W : Type) : Type := mkAsyncWriter { aw_sink : BufferSink W; aw_buf : FlexBuf }.
Arguments mkAsyncWriter {W}.
Arguments aw_sink {W}.
Arguments aw_buf {W}.

(** [.map_err(format_std_io_error)] on what a poll returns. *)
Definition io_poll {A} (r : Poll (result A)) : Poll (outcome IoError A) :=
  match r with Pending => Pending | Ready r => Ready (map_err format_std_io_error r) end.

Section AsyncWriter.
  Context {W : Type} `{HW : Write W}.
  Implicit Types s : FuturesAsyncWriter W.

Definition async_writer_new (w : WriteGenerator W) : FuturesAsyncWriter W :=
  mkAsyncWriter (sink_new w) (flex_new (Z.to_nat 262144)).

(** [this.sink.start_send_unpin(Buffer::from(bs))], which cannot fail, and
    [this.buf.clean()]. *)
Definition send_frozen (sk : BufferSink W) (bs : bytes) (buf : FlexBuf) : FuturesAsyncWriter W :=
  mkAsyncWriter (sink_start_send (from_bytes bs) sk).2 (flex_clean buf).

(** The first round can find the buffer frozen, the second cannot. *)
Fixpoint async_write_loop (rounds k : nat) (bs : bytes) s : Poll (outcome IoError nat) * FuturesAsyncWriter W :=
  match rounds with
  | 0 => (Ready Panic, s)
  | S f =>
      let '(n, buf) := flex_put (aw_buf s) bs in
      if bool_decide (0 < n) then (Ready (Ok n), mkAsyncWriter (aw_sink s) buf)
      else
        let '(r, sk) := sink_poll_ready k (aw_sink s) in
        match io_poll r with
        | Pending => (Pending, mkAsyncWriter sk buf)
        | Ready (Err e) => (Ready (Err e), mkAsyncWriter sk buf)
        | Ready Panic => (Ready Panic, mkAsyncWriter sk buf)
        | Ready (Ok _) =>
            match flex_get buf with
            | None => (Ready Panic, mkAsyncWriter sk buf)
            | Some x => async_write_loop f k bs (send_frozen sk x buf)
            end
        end
  end.
Definition async_poll_write (k : nat) (bs : bytes) s : Poll (outcome IoError nat) * FuturesAsyncWriter W :=
  async_write_loop 2 k bs s.

(** The loop that [poll_flush] and [poll_close] share, [last] being what they do
    once there is nothing frozen; one round freezes and sends everything. *)
Fixpoint async_drain (rounds k : nat)
    (last : FuturesAsyncWriter W -> Poll (outcome IoError unit) * FuturesAsyncWriter W) s
  : Poll (outcome IoError unit) * FuturesAsyncWriter W :=
  match rounds with
  | 0 => (Ready Panic, s)
  | S f =>
      let buf := flex_freeze (aw_buf s) in
      match flex_get buf with
      | None => last (mkAsyncWriter (aw_sink s) buf)
      | Some x =>
          let '(r, sk) := sink_poll_ready k (aw_sink s) in
          match io_poll r with
          | Ready (Ok _) => async_drain f k last (send_frozen sk x buf)
          | r => (r, mkAsyncWriter sk buf)
          end
      end
  end.
Definition async_poll_flush (k : nat) : FuturesAsyncWriter W -> Poll (outcome IoError unit) * FuturesAsyncWriter W :=
  async_drain 2 k (fun s => (Ready (Ok tt), s)).
Definition async_poll_close (k : nat) : FuturesAsyncWriter W -> Poll (outcome IoError unit) * FuturesAsyncWriter W :=
  async_drain 2 k (fun s =>
    let '(r, sk) := sink_poll_close k (aw_sink s) in (io_poll r, mkAsyncWriter sk (aw_buf s))).

(** [FuturesBytesSink] is a [BufferSink] with [io] errors. *)
Definition bytes_sink_poll_ready (k : nat) (s : BufferSink W) : Poll (outcome IoError unit) * BufferSink W :=
  let '(r, s') := sink_poll_ready k s in (io_poll r, s').
Definition bytes_sink_start_send (item : bytes) (s : BufferSink W) : outcome IoError unit * BufferSink W :=
  let '(r, s') := sink_start_send (from_bytes item) s in (map_err format_std_io_error r, s').
Definition bytes_sink_poll_flush (k : nat) (s : BufferSink W) : Poll (outcome IoError unit) * BufferSink W :=
  let '(r, s') := sink_poll_flush k s in (io_poll r, s').
Definition bytes_sink_poll_close (k : nat) (s : BufferSink W) : Poll (outcome IoError unit) * BufferSink W :=
  let '(r, s') := sink_poll_close k s in (io_poll r, s').

End AsyncWriter.

(** *** What the writer does with the data *)

Section AsyncWriterSpec.
  Context {W : Type} `{WriteLog W}.
  Implicit Types s : FuturesAsyncWriter W.

(** A flexible buffer with room for a byte, unless it is frozen. *)
Definition flex_ready (f : FlexBuf) : Prop :=
  flex_wf f /\ 0 < cap f /\ (flex_get f = None -> f_len f < cap f).

Lemma flex_ready_put f bs n f' : flex_ready f -> flex_put f bs = (n, f') -> flex_ready f'.
Proof.
  intros (Hf & Hc & _) E. apply flex_put_ok in E as (Hf' & _ & _ & _ & _ & Hcap & Hr); [|done].
  split_and!; [done|lia|]. intros Hn. pose proof Hf' as [-> _]. by apply Hr.
Qed.
Lemma flex_ready_freeze f : flex_ready f -> flex_ready (flex_freeze f).
Proof.
  intros (Hf & Hc & _). destruct (flex_freeze_ok f Hf) as (? & _ & E & Hl & _).
  split_and!; [done|lia|lia].
Qed.
Lemma flex_ready_clean f x :
  flex_ready f -> flex_get f = Some x ->
  flex_ready (flex_clean f) /\ flex_contents (flex_clean f) = [] /\ f_len (flex_clean f) = 0.
Proof.
  intros ([Hl Hz] & Hc & _) Hx. unfold flex_get in Hx. rewrite Hx in Hz. rewrite Hz in Hl.
  unfold flex_ready, flex_wf, flex_contents. simpl. rewrite Hz, (nil_length_inv (f_buf f)) by done.
  split_and!; done || lia.
Qed.

Lemma flex_none_contents f : flex_wf f -> flex_get f = None -> f_len f = 0 -> flex_contents f = [].
Proof.
  intros [Hl _] Hg Hz. unfold flex_contents. unfold flex_get in Hg. rewrite Hg. simpl.
  apply nil_length_inv. congruence.
Qed.

Definition async_wf s : Prop :=
  sink_wf (aw_sink s) /\ flex_ready (aw_buf s) /\
  forall w, sk_state (aw_sink s) = SClosing w -> flex_contents (aw_buf s) = [] /\ flex_get (aw_buf s) = None.
Definition async_data s : bytes := sink_data (aw_sink s) ++ flex_contents (aw_buf s).
Definition async_open s : Prop := forall w, sk_state (aw_sink s) <> SClosing w.
(** Nothing left outside the sink. *)
Definition async_drained s : Prop :=
  async_wf s /\ flex_contents (aw_buf s) = [] /\ flex_get (aw_buf s) = None /\ f_len (aw_buf s) = 0.

(** The sink is ready: what is frozen is sent. *)
Lemma send_frozen_ok s k sk x buf :
  async_wf s -> async_open s -> sink_poll_ready k (aw_sink s) = (Ready (Ok tt), sk) ->
  flex_ready buf -> flex_get buf = Some x -> flex_contents buf = flex_contents (aw_buf s) ->
  async_drained (send_frozen sk x buf) /\ async_data (send_frozen sk x buf) = async_data s /\
  async_open (send_frozen sk x buf).
Proof.
  intros (Hs & _) Ho E Hf Hx Hc. apply sink_poll_flush_ok in E as (Hwf & Hd & He & w & Hw); [|done..].
  pose proof (flex_frozen_contents _ _ (proj1 Hf) Hx) as Hfc.
  destruct (flex_ready_clean _ _ Hf Hx) as (Hf' & Hcl & Hl).
  pose proof Hwf as [Hb' Hst]. rewrite Hw in Hst. unfold is_empty in He. apply bool_decide_eq_true in He.
  assert (sink_wf (sink_start_send (from_bytes x) sk).2) as Hwf' by (split; [done|by simpl; rewrite Hw]).
  split_and!; try done.
  - unfold async_data. simpl. rewrite Hcl, <- Hc, Hfc, <- Hd, app_nil_r. unfold sink_data, sink_gen. simpl.
    by rewrite Hw, (contents_empty _ Hb' He), app_nil_r.
  - intros v. simpl. by rewrite Hw.
Qed.

(** The sink is not ready. *)
Lemma ready_pending_ok s k sk buf :
  async_wf s -> async_open s -> sink_poll_ready k (aw_sink s) = (Pending, sk) ->
  flex_ready buf -> flex_contents buf = flex_contents (aw_buf s) ->
  async_wf (mkAsyncWriter sk buf) /\ async_data (mkAsyncWriter sk buf) = async_data s /\
  async_open (mkAsyncWriter sk buf).
Proof.
  intros (Hs & _) Ho E Hbuf Hc. apply sink_poll_flush_ok in E as (Hwf & Hd & _ & Hn); [|done..].
  unfold async_data. simpl. rewrite Hc, Hd. split_and!; try done. split_and!; try done.
  intros w Hw. by destruct (Hn w).
Qed.

(** Bytes that fit into the buffer. *)
Lemma async_put_ok s bs n buf :
  async_wf s -> async_open s -> flex_put (aw_buf s) bs = (n, buf) ->
  async_wf (mkAsyncWriter (aw_sink s) buf) /\
  async_data (mkAsyncWriter (aw_sink s) buf) = async_data s ++ take n bs.
Proof.
  intros (Hs & Hf & _) Ho E. pose proof (flex_ready_put _ _ _ _ Hf E) as Hf'.
  apply flex_put_ok in E as (_ & _ & Hc & _); [|apply Hf].
  unfold async_data. simpl. rewrite Hc, app_assoc. split; [|done].
  split_and!; try done. intros w Hw. by destruct (Ho w).
Qed.

(** What a write may answer. *)
Definition async_wrote s (bs : bytes) (r : Poll (outcome IoError nat)) s' : Prop :=
  match r with
  | Pending => async_wf s' /\ async_data s' = async_data s /\ async_open s'
  | Ready (Ok n) => async_wf s' /\ 0 < n <= length bs /\ async_data s' = async_data s ++ take n bs /\ async_open s'
  | Ready _ => True
  end.

Lemma async_write_loop_ok f k bs s r s' :
  async_wf s -> async_open s -> bs <> [] ->
  async_write_loop f k bs s = (r, s') -> async_wrote s bs r s'.
Proof.
  revert s. induction f as [|f IH]; intros s Hwf Ho Hne; cbn [async_write_loop]; [intros ?; by simplify_eq|].
  pose proof Hwf as (Hs & Hf & _). destruct (flex_put (aw_buf s) bs) as [n buf] eqn:E.
  destruct (async_put_ok _ _ _ _ Hwf Ho E) as [Hwf' Hd].
  apply flex_put_ok in E as (_ & Hn & _ & Hfz & Hmin & _); [|apply Hf]. case_bool_decide as Hpos.
  { intros ?. by simplify_eq. }
  destruct (flex_get (aw_buf s)) as [x|] eqn:Hx.
  2: { exfalso. specialize (Hmin eq_refl). destruct Hf as (_ & _ & Hr). specialize (Hr Hx).
       destruct bs; [done|]. simpl in *. lia. }
  destruct Hfz as [-> ->]; [by eexists|].
  destruct (sink_poll_ready k (aw_sink s)) as [[|[[]|e|]] sk] eqn:Er; simpl;
    [intros ?; simplify_eq; by eapply ready_pending_ok| |intros ?; by simplify_eq..].
  destruct (send_frozen_ok s k sk x (aw_buf s)) as ((H1 & _) & H2 & H3); try done.
  rewrite Hx. intros E. apply IH in E; try done. unfold async_wrote in *. by rewrite H2 in E.
Qed.

(** With no frozen bytes to hand over, the first round stores something. *)
Lemma async_write_thawed f k bs s :
  async_wf s -> flex_get (aw_buf s) = None -> bs <> [] ->
  exists n s', async_write_loop (S f) k bs s = (Ready (Ok n), s').
Proof.
  intros (_ & Hf & _) Hx Hne. cbn [async_write_loop].
  destruct (flex_put (aw_buf s) bs) as [n buf] eqn:E.
  apply flex_put_ok in E as (_ & Hn & _ & _ & Hmin & _); [|apply Hf].
  destruct Hf as (_ & _ & Hr). specialize (Hr Hx). specialize (Hmin Hx).
  rewrite bool_decide_eq_true_2; [eauto|]. destruct bs; [done|]. simpl in *. lia.
Qed.

(** A write fails, or panics, only because the sink did when it was asked
    whether it is ready. *)
Lemma async_write_fails k bs s x s' :
  async_wf s -> async_open s -> bs <> [] -> async_poll_write k bs s = (Ready x, s') ->
  match x with
  | Ok _ => True
  | Err e => io_poll (sink_poll_ready k (aw_sink s)).1 = Ready (Err e)
  | Panic => io_poll (sink_poll_ready k (aw_sink s)).1 = Ready Panic
  end.
Proof using H H0.
  intros Hwf Ho Hne. unfold async_poll_write. destruct (flex_get (aw_buf s)) as [y|] eqn:Hx.
  2: { destruct (async_write_thawed 1 k bs s Hwf Hx Hne) as (n & s1 & ->). by intros [= <- <-]. }
  change 2 with (S 1) at 1. remember 1 as one eqn:H1. cbn [async_write_loop].
  pose proof Hwf as (_ & Hf & _). destruct (flex_put (aw_buf s) bs) as [n buf] eqn:E.
  apply flex_put_ok in E as (_ & _ & _ & Hfz & _); [|apply Hf].
  destruct Hfz as [-> ->]; [by eexists|]. rewrite bool_decide_eq_false_2 by lia.
  destruct (sink_poll_ready k (aw_sink s)) as [[|[[]|e|]] sk] eqn:Er; simpl io_poll; cbn match;
    [done| |by intros [= <- <-]..].
  rewrite Hx. destruct (send_frozen_ok s k sk y (aw_buf s)) as ((H1' & _ & Hg & _) & _); try done.
  subst one. destruct (async_write_thawed 0 k bs _ H1' Hg Hne) as (m & s1 & ->). by intros [= <- <-].
Qed.

Lemma async_idle_drain f k last s : async_drained s -> async_drain (S f) k last s = last s.
Proof.
  intros ((_ & (Hf & _) & _) & _ & Hg & Hl). cbn [async_drain].
  destruct (flex_freeze_ok _ Hf) as (_ & _ & _ & _ & -> & _); [|done]. rewrite Hg. by destruct s.
Qed.

(** The loop ends in [last] with everything handed to the sink, or waits, or fails. *)
Lemma async_drain_ok k last s r s' :
  async_wf s -> async_drain 2 k last s = (r, s') ->
  (exists s1, last s1 = (r, s') /\ async_drained s1 /\ async_data s1 = async_data s /\ (async_open s -> async_open s1)) \/
  (r = Pending /\ async_wf s' /\ async_data s' = async_data s /\ async_open s') \/
  (exists x, r = Ready x /\ x <> Ok tt).
Proof.
  intros Hwf. pose proof Hwf as (Hs & Hf & Hcl).
  destruct (flex_freeze_ok _ (proj1 Hf)) as (_ & Hc & _ & Hlen & Hid & Hsome).
  pose proof (flex_ready_freeze _ Hf) as Hf'.
  destruct (flex_get (flex_freeze (aw_buf s))) as [x|] eqn:Hx.
  2: { assert (f_len (aw_buf s) = 0) as Hz.
       { destruct (decide (f_len (aw_buf s) = 0)) as [|Hn]; [done|]. by specialize (Hsome Hn). }
       rewrite (Hid Hz) in Hx.
       assert (async_drained s) as Hd 
         by (split_and!; try done; apply flex_none_contents; [apply Hf|done..]).
       rewrite async_idle_drain by done.
       intros E. left. exists s. by split_and!. }
  assert (async_open s) as Ho.
  { intros w Hw. destruct (Hcl w Hw) as [Hc0 Hg0]. assert (f_len (aw_buf s) = 0) as Hz.
    { destruct Hf as ([-> _] & _). unfold flex_contents in Hc0. by apply app_nil in Hc0 as [_ ->]. }
    by rewrite (Hid Hz), Hg0 in Hx. }
  cbn [async_drain]. rewrite Hx.
  destruct (sink_poll_ready k (aw_sink s)) as [[|[[]|e|]] sk] eqn:Er; simpl io_poll; cbn match.
  - intros ?. simplify_eq. right. left. split; [done|]. by eapply ready_pending_ok.
  - destruct (send_frozen_ok s k sk x (flex_freeze (aw_buf s))) as (H1 & H2 & H3); try done.
    intros E. left. exists (send_frozen sk x (flex_freeze (aw_buf s))). split_and!; try done.
    rewrite <- E. symmetry. by apply (async_idle_drain 0 k last).
  - intros ?. simplify_eq. right. right. by eexists.
  - intros ?. simplify_eq. right. right. by eexists.
Qed.

(** *** The protocol *)

(** How a writer gets somewhere without an error; the index is the bytes whose
    writes have returned.  Writing an empty slice is excluded, see below. *)
Inductive async_reach (w : W) (chunk_size : option nat) (exact : bool) : bytes -> FuturesAsyncWriter W -> Prop :=
  | async_reach_new : async_reach w chunk_size exact [] (async_writer_new (gen_new w chunk_size exact))
  | async_reach_write acc s k bs r s' :
      async_reach w chunk_size exact acc s -> async_open s -> bs <> [] ->
      async_poll_write k bs s = (r, s') -> (forall x, r = Ready x -> is_ok x = true) ->
      async_reach w chunk_size exact (acc ++ match r with Ready (Ok n) => take n bs | _ => [] end) s'
  | async_reach_flush acc s k r s' :
      async_reach w chunk_size exact acc s -> async_open s ->
      async_poll_flush k s = (r, s') -> (r = Pending \/ r = Ready (Ok tt)) -> async_reach w chunk_size exact acc s'
  | async_reach_close acc s k s' :
      async_reach w chunk_size exact acc s -> async_poll_close k s = (Pending, s') ->
      async_reach w chunk_size exact acc s'.

(** A close that is pending or done. *)
Lemma async_close_ok k s r s' :
  async_wf s -> async_poll_close k s = (r, s') ->
  match r with
  | Pending => async_wf s' /\ async_data s' = async_data s
  | Ready (Ok _) => exists v, sk_state (aw_sink s') = SDropped v /\ concat (wlog (g_w v)) = async_data s
  | Ready _ => True
  end.
Proof.
  intros Hwf E. apply async_drain_ok in E as [(s1 & E & Hd & Hdata & _)|[(-> & ? & ? & _)|(x & -> & Hx)]]; [|done| |done].
  - destruct Hd as ((Hs & Hf & Hcl) & Hc & Hg & Hl). rewrite <- Hdata. unfold async_data. rewrite Hc, app_nil_r.
    destruct (sink_poll_close k (aw_sink s1)) as [[|x] sk] eqn:Es; apply sink_poll_close_ok in Es; try done; simplify_eq/=.
    + destruct Es as (? & Hd' & _). rewrite Hc, app_nil_r. by split_and!.
    + destruct x as [[]|e|]; simpl; try done.
  - destruct x as [[]|e|]; done.
Qed.

Lemma async_reach_inv w chunk_size exact acc s :
  chunk_size <> Some 0 -> wlog w = [] -> async_reach w chunk_size exact acc s ->
  async_wf s /\ async_data s = acc.
Proof.
  intros Hc Hw. induction 1 as [|acc s k bs r s' _ [IH1 IH2] Ho Hne E Hr|acc s k r s' _ [IH1 IH2] Ho E Hr
                               |acc s k s' _ [IH1 IH2] E].
  - split; [|by unfold async_data, sink_data, sink_gen, gen_data; simpl; rewrite Hw].
    split_and!; [|split_and!|done]; try done; [| |simpl; lia..].
    + split; [done|]. split; [apply qwf_nil|]. simpl. destruct chunk_size; [|done]. split; [congruence | apply Nat.le_0_l].
    + split; [done|]. simpl. lia.
  - apply async_write_loop_ok in E; [|done..]. rewrite <- IH2. destruct r as [|[n|e|]]; [..|].
    + rewrite app_nil_r. by destruct E as (? & ? & _).
    + by destruct E as (? & _ & ? & _).
    + by specialize (Hr _ eq_refl).
    + by specialize (Hr _ eq_refl).
  - apply async_drain_ok in E as [(s1 & E & (Hd & _) & Hdata & _)|[(_ & ? & ? & _)|(x & -> & Hx)]]; [| |..|done].
    + simplify_eq. by rewrite Hdata.
    + split; [done|congruence].
    + destruct Hr as [?|[= ->]]; done.
  - apply async_close_ok in E as [? ?]; [|done]. split; [done|congruence].
Qed.

(** C14.  An [AsyncWrite] that closes successfully has given the service exactly the
    bytes its writes reported as written, in order, whatever the polls that were
    pending, the flushes and the sizes of the writes.  A write of a slice that is
    not empty reports at least one byte and at most the slice, and those first
    bytes are what it adds; a write that is pending adds nothing, and one that
    fails or panics does so because the sink it is about to feed did. *)
Theorem async_writer_integrity w chunk_size exact acc s :
  chunk_size <> Some 0 -> wlog w = [] -> async_reach w chunk_size exact acc s ->
  (forall k r s', async_poll_close k s = (r, s') ->
     match r with
     | Pending => async_reach w chunk_size exact acc s'
     | Ready (Ok _) => exists v, sk_state (aw_sink s') = SDropped v /\ concat (wlog (g_w v)) = acc
     | Ready _ => True
     end) /\
  (forall k bs r s', async_open s -> bs <> [] -> async_poll_write k bs s = (r, s') ->
     match r with
     | Pending => async_reach w chunk_size exact acc s' /\ async_open s'
     | Ready (Ok n) =>
         0 < n <= length bs /\ async_reach w chunk_size exact (acc ++ take n bs) s' /\ async_open s'
     | Ready (Err e) => io_poll (sink_poll_ready k (aw_sink s)).1 = Ready (Err e)
     | Ready Panic => io_poll (sink_poll_ready k (aw_sink s)).1 = Ready Panic
     end).
Proof.
  intros Hc Hw Hr. pose proof (async_reach_inv _ _ _ _ _ Hc Hw Hr) as [Hwf Hd]. split.
  - intros k r s' E. pose proof E as E'. apply async_close_ok in E'; [|done].
    destruct r as [|[]]; try done; [by eapply async_reach_close | by rewrite <- Hd].
  - intros k bs r s' Ho Hne E. pose proof (async_write_loop_ok _ _ _ _ _ _ Hwf Ho Hne E) as Hk.
    pose proof (async_reach_write _ _ _ _ _ _ _ _ _ Hr Ho Hne E) as Hs.
    destruct r as [|[n|e|]]; simpl in Hk; [| |by apply async_write_fails in E..].
    + destruct Hk as (_ & _ & Ho'). rewrite app_nil_r in Hs. split; [by apply Hs|done].
    + destruct Hk as (_ & Hn & _ & Ho'). split_and!; [lia..| |done]. apply Hs. by intros ? [= <-].
Qed.

(** Writing an empty slice to a writer that holds no full buffer panics: nothing
    is put, and the code takes that for a frozen buffer. *)
Theorem async_write_empty_panics k (w : WriteGenerator W) :
  async_poll_write k [] (async_writer_new w) = (Ready Panic, async_writer_new w).
Proof.
  unfold async_poll_write, async_writer_new. assert (0 < Z.to_nat 262144) as Hc by lia. revert Hc.
  generalize (Z.to_nat 262144). intros c Hc. cbn [async_write_loop aw_buf aw_sink].
  unfold flex_put, flex_new. cbn [frozen f_len cap f_buf length take app]. rewrite Nat.min_0_r.
  rewrite (bool_decide_eq_false_2 (c <= 0 + 0)) by (simpl; lia). by destruct k.
Qed.

(** A flush only hands the bytes to the sink: it answers [Ok] while they are
    still in the sink's buffer and the writer has not seen them. *)
Theorem async_flush_stops_at_sink k (w : WriteGenerator W) x :
  let s := (async_poll_write k [x] (async_writer_new w)).2 in
  (async_poll_flush k s).1 = Ready (Ok tt) /\
  sk_state (aw_sink (async_poll_flush k s).2) = SIdle w /\
  contents (sk_buf (aw_sink (async_poll_flush k s).2)) = [x].
Proof.
  unfold async_poll_write, async_writer_new. assert (1 < Z.to_nat 262144) as Hc by lia. revert Hc.
  generalize (Z.to_nat 262144). intros c Hc. cbn [async_write_loop aw_buf aw_sink].
  unfold flex_put, flex_new. cbn [frozen f_len cap f_buf length].
  replace (min (c - 0) 1) with 1 by lia. rewrite (bool_decide_eq_false_2 (c <= 0 + 1)) by (simpl; lia).
  rewrite (bool_decide_eq_true_2 (0 < 1)) by lia. by destruct k.
Qed.

End AsyncWriterSpec.

(** ** [FuturesDeleteSink] *)

Inductive DeleteSinkState (D T : Type) : Type :=
  | DIdle (deleter : option D)
  | DDelete (deleter : D) (item : T)
  | DClose (deleter : D).
Arguments DIdle {D T}.
Arguments DDelete {D T}.
Arguments DClose {D T}.

Section DeleteSink.
  Context {D T : Type} `{Delete D, IntoDeleteInput T}.
  Implicit Types s : DeleteSinkState D T.

Definition delete_sink_new (deleter : D) : DeleteSinkState D T := DIdle (Some deleter).

Definition delete_sink_closed : Error := error Unexpected "FuturesDeleteSink has been closed or errored".
Definition delete_sink_not_ready : Error :=
  error Unexpected "FuturesDeleteSink is not ready to send, please poll_ready first".

Definition delete_sink_poll_ready (ready : bool) s : Poll (result unit) * DeleteSinkState D T :=
  match s with
  | DIdle _ => (Ready (Ok tt), s)
  | DDelete deleter item =>
      if ready then let '(res, deleter) := deleter_delete item deleter in (Ready res, DIdle (Some deleter))
      else (Pending, s)
  | DClose deleter =>
      if ready then let '(res, deleter) := deleter_close deleter in (Ready res, DIdle (Some deleter))
      else (Pending, s)
  end.

Definition delete_sink_start_send (item : T) s : result unit * DeleteSinkState D T :=
  match s with
  | DIdle None => (Err delete_sink_closed, s)
  | DIdle (Some deleter) => (Ok tt, DDelete deleter item)
  | _ => (Err delete_sink_not_ready, s)
  end.

(** After a future that is ready the loop comes to [Idle], and ends. *)
Definition delete_sink_poll_flush (ready : bool) s : Poll (result unit) * DeleteSinkState D T :=
  match s with
  | DIdle _ => (Ready (Ok tt), s)
  | DDelete deleter item =>
      if ready then
        let '(res, deleter) := deleter_delete item deleter in
        match res with
        | Ok _ => (Ready (Ok tt), DIdle (Some deleter))
        | _ => (Ready res, DIdle (Some deleter))
        end
      else (Pending, s)
  | DClose deleter =>
      if ready then
        let '(res, deleter) := deleter_close deleter in
        match res with
        | Ok _ => (Ready (Ok tt), DIdle (Some deleter))
        | _ => (Ready res, DIdle (Some deleter))
        end
      else (Pending, s)
  end.

(** [k] futures are ready. *)
Fixpoint delete_sink_poll_close (k : nat) s : Poll (result unit) * DeleteSinkState D T :=
  let closing deleter :=
    match k with
    | 0 => (Pending, DClose deleter)
    | S _ => let '(res, deleter) := deleter_close deleter in (Ready res, DIdle (Some deleter))
    end in
  match s with
  | DIdle None => (Ready (Err delete_sink_closed), s)
  | DIdle (Some deleter) => closing deleter
  | DDelete deleter item =>
      match k with
      | 0 => (Pending, s)
      | S k' =>
          let '(res, deleter) := deleter_delete item deleter in
          match res with
          | Ok _ => delete_sink_poll_close k' (DIdle (Some deleter))
          | _ => (Ready res, DIdle (Some deleter))
          end
      end
  | DClose deleter => closing deleter
  end.

(** *** The sink is the loop *)

(** How a sink gets somewhere without an error; the index is the items sent. *)
Inductive delete_sink_reach (d : D) : list T -> DeleteSinkState D T -> Prop :=
  | dsink_new : delete_sink_reach d [] (delete_sink_new d)
  | dsink_ready items s ready r s' :
      delete_sink_reach d items s -> (forall v, s <> DClose v) ->
      delete_sink_poll_ready ready s = (r, s') -> (r = Pending \/ r = Ready (Ok tt)) ->
      delete_sink_reach d items s'
  | dsink_send items s item s' :
      delete_sink_reach d items s -> delete_sink_start_send item s = (Ok tt, s') ->
      delete_sink_reach d (items ++ [item]) s'
  | dsink_flush items s ready r s' :
      delete_sink_reach d items s -> (forall v, s <> DClose v) ->
      delete_sink_poll_flush ready s = (r, s') -> (r = Pending \/ r = Ready (Ok tt)) ->
      delete_sink_reach d items s'
  | dsink_close items s k s' :
      delete_sink_reach d items s -> delete_sink_poll_close k s = (Pending, s') ->
      delete_sink_reach d items s'.

(** The items before the one under way have been deleted, one after the other. *)
Definition delete_sink_inv (d : D) (items : list T) s : Prop :=
  match s with
  | DIdle None => False
  | DIdle (Some v) | DClose v => delete_iter items d = (Ok tt, v)
  | DDelete v i => exists before, items = before ++ [i] /\ delete_iter before d = (Ok tt, v)
  end.

Lemma delete_iter_snoc items i d v :
  delete_iter items d = (Ok tt, v) -> delete_iter (items ++ [i]) d = deleter_delete i v.
Proof.
  revert d. induction items as [|x items IH]; intros d; simpl; unfold mbind, M_bind, mret, M_ret.
  - intros ?. simplify_eq. by destruct (deleter_delete i v) as [[[]| |] ?].
  - destruct (deleter_delete x d) as [[[]| |] d1]; [apply IH|done..].
Qed.

Lemma delete_sink_reach_inv d items s : delete_sink_reach d items s -> delete_sink_inv d items s.
Proof.
  induction 1 as [|items s ready r s' _ IH Hn E Hr|items s item s' _ IH E|items s ready r s' _ IH Hn E Hr
                 |items s k s' _ IH E]; [done|..].
  - destruct s as [v|v i|v]; simpl in E; [by simplify_eq| |by destruct (Hn v)].
    destruct ready; [|by simplify_eq]. destruct IH as (before & -> & Hb).
    destruct (deleter_delete i v) as [res v'] eqn:Ed. simplify_eq. destruct Hr as [?|?]; simplify_eq.
    simpl. by rewrite (delete_iter_snoc _ _ _ _ Hb).
  - destruct s as [[v|]|v i|v]; simpl in E; simplify_eq. by exists items.
  - destruct s as [v|v i|v]; simpl in E; [by simplify_eq| |by destruct (Hn v)].
    destruct ready; [|by simplify_eq]. destruct IH as (before & -> & Hb).
    destruct (deleter_delete i v) as [[[]|e|] v'] eqn:Ed; simplify_eq; try (by destruct Hr as [?|?]).
    simpl. by rewrite (delete_iter_snoc _ _ _ _ Hb).
  - destruct s as [[v|]|v i|v], k as [|k]; cbn [delete_sink_poll_close] in E; simplify_eq; try done.
    + by destruct (deleter_close v).
    + destruct IH as (before & -> & Hb). destruct (deleter_delete i v) as [[[]|e|] v'] eqn:Ed; simplify_eq.
      destruct k as [|k]; cbn [delete_sink_poll_close] in E; simplify_eq.
      * simpl. by rewrite (delete_iter_snoc _ _ _ _ Hb).
      * by destruct (deleter_close v').
    + by destruct (deleter_close v).
Qed.

(** Driving the sink is deleting in a loop: when the close is done, the
    deleter has been called with the items sent, in order, and then closed, and
    the answer is what that loop answers, whatever the polls in between; two
    futures that are ready are enough for the close. *)
Theorem delete_sink_is_loop d items s k r s' :
  delete_sink_reach d items s -> delete_sink_poll_close k s = (r, s') ->
  match r with
  | Pending => delete_sink_reach d items s' /\ k < 2
  | Ready x => exists d', s' = DIdle (Some d') /\ (delete_iter items;; deleter_close) d = (x, d')
  end.
Proof.
  intros Hr E. pose proof (delete_sink_reach_inv _ _ _ Hr) as Hi. pose proof E as E'. unfold mbind, M_bind.
  destruct r as [|x].
  - split; [by eapply dsink_close|]. destruct k as [|[|k]]; [lia..|].
    destruct s as [[v|]|v i|v]; cbn [delete_sink_poll_close] in E; simplify_eq;
      [by destruct (deleter_close v)| |by destruct (deleter_close v)].
    destruct (deleter_delete i v) as [[[]|e|] v']; simplify_eq. by destruct (deleter_close v').
  - destruct s as [[v|]|v i|v], k as [|k]; cbn [delete_sink_poll_close] in E; simplify_eq; try done; simpl in Hi.
    + rewrite Hi. destruct (deleter_close v); simplify_eq. by eexists.
    + destruct Hi as (before & -> & Hb). rewrite (delete_iter_snoc _ _ _ _ Hb).
      destruct (deleter_delete i v) as [[[]|e|] v'] eqn:Ed; simplify_eq; try by eexists.
      destruct k as [|k]; cbn [delete_sink_poll_close] in E; simplify_eq.
      destruct (deleter_close v'); simplify_eq. by eexists.
    + rewrite Hi. destruct (deleter_close v); simplify_eq. by eexists.
Qed.

End DeleteSink.

(** ** Witnesses *)

Definition sample_writer : LogWriter := mkLog [] false.
Definition sample_sink : BufferSink LogWriter := sink_new (gen_new sample_writer (Some 2) true).
(** Three bytes sent, the first write not ready at first. *)
Definition sample_sink1 : BufferSink LogWriter :=
  (sink_start_send (from_bytes [x01; x02; x03]) (sink_poll_ready 0 sample_sink).2).2.
Definition sample_sink2 : BufferSink LogWriter := (sink_poll_flush 0 sample_sink1).2.

Lemma sample_sink_reach : sink_reach sample_writer (Some 2) true [[x01; x02; x03]] sample_sink2.
Proof.
  apply (sink_reach_poll _ _ _ _ sample_sink1 0 Pending); [|done|vm_compute; reflexivity|by left].
  apply (sink_reach_send _ _ _ [] sample_sink 0 sample_sink (from_bytes [x01; x02; x03])); try done. constructor.
Qed.

Lemma buffer_sink_integrity_witness :
  exists v, sk_state (sink_poll_close 3 sample_sink2).2 = SDropped v /\ concat (wlog (g_w v)) = [x01; x02; x03].
Proof.
  apply (buffer_sink_integrity sample_writer (Some 2) true [[x01; x02; x03]] sample_sink2 3 (Ready (Ok tt)));
    [done | done | apply sample_sink_reach | vm_compute; reflexivity].
Defined.

(** The answer of a call, whatever the state it leaves. *)
Lemma answer_of {A S} (p : A * S) x : p.1 = x -> p = (x, p.2).
Proof. destruct p. by intros <-. Qed.

Definition sample_async : FuturesAsyncWriter LogWriter := async_writer_new (gen_new sample_writer None false).
Definition sample_async1 : FuturesAsyncWriter LogWriter := (async_poll_write 0 [x01; x02] sample_async).2.

Lemma async_writer_integrity_witness :
  (exists v, sk_state (aw_sink (async_poll_close 2 sample_async1).2) = SDropped v /\
     concat (wlog (g_w v)) = [x01; x02]) /\
  (exists n, (async_poll_write 0 [x03] sample_async1).1 = Ready (Ok n) /\ 0 < n <= 1).
Proof.
  destruct (async_writer_integrity sample_writer None false [x01; x02] sample_async1) as [Hcl Hwr];
    [done | done | |split].
  - refine (async_reach_write _ _ _ [] sample_async 0 [x01; x02] (Ready (Ok 2)) _ _ _ _ _ _).
    + constructor.
    + intros v Hv. discriminate Hv.
    + discriminate.
    + unfold sample_async1. apply (answer_of (async_poll_write 0 [x01; x02] sample_async)). vm_compute. reflexivity.
    + intros x Hx. by injection Hx as <-.
  - apply (Hcl 2 (Ready (Ok tt))). apply answer_of; vm_compute; reflexivity.
  - exists 1. assert ((async_poll_write 0 [x03] sample_async1).1 = Ready (Ok 1)) as E
      by (vm_compute; reflexivity).
    split; [exact E|]. apply (Hwr 0 [x03] (Ready (Ok 1)) (async_poll_write 0 [x03] sample_async1).2).
    + intros v Hv. discriminate Hv.
    + discriminate.
    + by apply answer_of.
Defined.

Definition sample_dsink : DeleteSinkState (BatchDeleter SetService) (list ascii) :=
  delete_sink_new (batch_new (mkSetService ∅ 0) (Some 10)).
Lemma delete_sink_is_loop_witness :
  exists d', (delete_sink_poll_close 2 (DDelete (batch_new (mkSetService ∅ 0) (Some 10)) (b "a"))).2 = DIdle (Some d') /\
    (delete_iter [b "a"];; deleter_close) (batch_new (mkSetService ∅ 0) (Some 10)) = (Ok tt, d').
Proof.
  apply (delete_sink_is_loop (batch_new (mkSetService ∅ 0) (Some 10)) [b "a"]
    (DDelete (batch_new (mkSetService ∅ 0) (Some 10)) (b "a")) 2 (Ready (Ok tt))); [|vm_compute; reflexivity].
  apply (dsink_send _ [] sample_dsink (b "a")); [constructor | done].
Defined.
