(* ===== verification/Streams.v ===== *)
(** * Streams of bytes ([types/read/buffer_stream.rs], [futures_async_reader.rs],
      [futures_bytes_stream.rs], and [Seek] and [BufRead] of [types/buffer.rs])

    The poll-based adapters over a reader.  As for the sinks, [k] futures are
    found ready during one call and then the next one is pending. *)

From S2P Require Import Prelude Errors Path Range Buffer Types Access Tasks Uploads Listers Readers.
From stdpp Require Import options.
Local Open Scope Z_scope.

(** ** Seeking and buffered reading of a [Buffer] *)

Inductive SeekFrom : Type := FromStart (n : Z) | FromEnd (n : Z) | FromCurrent (n : Z).

Definition invalid_input (msg : string) : IoError := mkIoError IoInvalidInput (inr (b msg)).
Definition seek_negative : IoError := invalid_input "invalid seek to a negative position".
Definition seek_out_of_bounds : IoError := invalid_input "seek out of bounds".

(** [as i64] and the checked addition of [i64]. *)
Definition as_i64 (n : Z) : Z := if bool_decide (n <= i64_max) then n else n - (u64_max + 1).
Definition checked_add_i64 (a c : Z) : option Z :=
  if bool_decide (- i64_max - 1 <= a + c <= i64_max) then Some (a + c) else None.

Definition seek_target (len remaining : Z) (pos : SeekFrom) : outcome IoError Z :=
  match pos with
  | FromStart offset => Ok offset
  | FromEnd offset =>
      if bool_decide (offset < 0) then ok_or seek_negative (checked_sub len (- offset))
      else ok_or seek_out_of_bounds (checked_add len offset)
  | FromCurrent offset =>
      new_pos ← ok_or seek_out_of_bounds (checked_add_i64 (as_i64 (len - remaining)) offset);
      if bool_decide (new_pos < 0) then Err seek_negative else Ok new_pos
  end.

Definition buffer_seek (pos : SeekFrom) (buf : Buffer) : outcome IoError Z * Buffer :=
  let len := Z.of_nat (blen buf) in
  let remaining := Z.of_nat (blen buf) in
  match seek_target len remaining pos with
  | Ok new_pos =>
      if bool_decide (len < new_pos) then (Err seek_out_of_bounds, buf)
      else match Buffer.advance buf (Z.to_nat (new_pos - (len - remaining))) with
           | Ok buf' => (Ok new_pos, buf')
           | Err _ | Panic => (Panic, buf)
           end
  | Err e => (Err e, buf)
  | Panic => (Panic, buf)
  end.

Definition buffer_fill_buf (buf : Buffer) : result bytes :=
  match buf with
  | Contiguous bs => Ok bs
  | NonContiguous parts size idx offset =>
      if bool_decide (size = 0)%nat then Ok []
      else c ← expect (parts !! idx);
           bslice c offset (offset + Nat.min (length c - offset) size)
  end.
Definition buffer_consume (amt : nat) (buf : Buffer) : result Buffer := Buffer.advance buf amt.

(** The contract of [BufRead]: the slice is a prefix of what is left, not empty
    while bytes are left if no part is, and consuming removes it. *)
Theorem buffer_bufread_spec buf :
  wf buf -> exists c, buffer_fill_buf buf = Ok c /\ c `prefix_of` contents buf /\
    (dense buf -> contents buf <> [] -> c <> []) /\
    forall n, (n <= length c)%nat ->
      exists buf', buffer_consume n buf = Ok buf' /\ wf buf' /\ contents buf' = drop n (contents buf).
Proof.
  intros Hwf. destruct (chunk_spec buf Hwf) as (c & k & Hc & Hk & Hne). exists c.
  assert (buffer_fill_buf buf = Ok c) as -> by (by destruct buf).
  pose proof (contents_length buf Hwf) as Hlen. rewrite Hk, length_app in Hlen. split_and!; [done|by exists k| |].
  - intros Hd Hn. apply Hne; [done|]. intros Hz. apply Hn. rewrite Hk. apply nil_length_inv. rewrite length_app. lia.
  - intros n Hn. apply advance_ok; [done|lia].
Qed.

Lemma buffer_bufread_spec_witness :
  exists c, buffer_fill_buf (from_parts [[x01; x02]; [x03]]) = Ok c /\
    c `prefix_of` contents (from_parts [[x01; x02]; [x03]]) /\
    (dense (from_parts [[x01; x02]; [x03]]) -> contents (from_parts [[x01; x02]; [x03]]) <> [] -> c <> []) /\
    forall n, (n <= length c)%nat ->
      exists buf', buffer_consume n (from_parts [[x01; x02]; [x03]]) = Ok buf' /\ wf buf' /\
        contents buf' = drop n (contents (from_parts [[x01; x02]; [x03]])).
Proof. apply (buffer_bufread_spec (from_parts [[x01; x02]; [x03]])), from_parts_wf. Defined.

(** What seeking does: it moves forward from where the buffer stands, because the
    length of the buffer is what is left of it. *)
Theorem buffer_seek_relative buf n :
  wf buf -> 0 <= n <= Z.of_nat (blen buf) ->
  exists buf', buffer_seek (FromStart n) buf = (Ok n, buf') /\ wf buf' /\
    contents buf' = drop (Z.to_nat n) (contents buf).
Proof.
  intros Hwf Hn. unfold buffer_seek, seek_target. rewrite bool_decide_eq_false_2 by lia.
  replace (n - (Z.of_nat (blen buf) - Z.of_nat (blen buf))) with n by lia.
  destruct (advance_ok buf (Z.to_nat n) Hwf) as (buf' & -> & ? & ?); [lia|]. by exists buf'.
Qed.

Lemma buffer_seek_relative_witness :
  exists buf', buffer_seek (FromStart 1) (Contiguous [x01; x02]) = (Ok 1, buf') /\ wf buf' /\
    contents buf' = drop (Z.to_nat 1) [x01; x02].
Proof. apply buffer_seek_relative; [done | simpl; lia]. Defined.

(** So a seek to the start after a read stays where it is and reports the start. *)
Theorem buffer_seek_cannot_rewind :
  exists buf, Buffer.read (Contiguous [x01; x02; x03]) 1 = Ok ([x01], buf) /\
    buffer_seek (FromStart 0) buf = (Ok 0, buf) /\ contents buf = [x02; x03] /\
    buffer_seek (FromCurrent (-1)) buf = (Err seek_negative, buf).
Proof. by eexists. Qed.

(** ** [BufferStream] *)

(** [Idle(None)] is only there while a call is running. *)
Inductive StreamState (R : Type) : Type := StIdle (reader : R) | StReading (reader : R).
Arguments StIdle {R}.
Arguments StReading {R}.
Definition stream_reader {R} (s : StreamState R) : R := match s with StIdle r | StReading r => r end.

Section Stream.
  Context {R : Type} (read : M R Error Buffer).

Definition stream_poll_next (ready : bool) (s : StreamState R)
  : Poll (option (result Buffer)) * StreamState R :=
  let reader := stream_reader s in
  if ready then
    let '(buf, reader) := read reader in
    (Ready match buf with
           | Ok buf => if is_empty buf then None else Some (Ok buf)
           | Err err => Some (Err err)
           | Panic => Some Panic
           end, StIdle reader)
  else (Pending, StReading reader).

(** The stream polled with a schedule, until its first end: what it yields, and
    whether it has ended. *)
Fixpoint stream_polls (schedule : list bool) (s : StreamState R) : list (result Buffer) * bool :=
  match schedule with
  | [] => ([], false)
  | ready :: rest =>
      match stream_poll_next ready s with
      | (Pending, s') => stream_polls rest s'
      | (Ready None, _) => ([], true)
      | (Ready (Some x), s') => let '(xs, e) := stream_polls rest s' in (x :: xs, e)
      end
  end.

(** ** [FuturesBytesStream] *)

Record FuturesBytesStream : Type := mkBytesStream { bs_stream : StreamState R; bs_buf : Buffer }.
Definition bytes_stream_of (s : StreamState R) : FuturesBytesStream := mkBytesStream s Buffer.new.

Fixpoint bytes_poll_next (k : nat) (s : FuturesBytesStream)
  : Poll (option (outcome IoError bytes)) * FuturesBytesStream :=
  match Buffer.next (bs_buf s) with
  | Ok (Some x, buf) => (Ready (Some (Ok x)), mkBytesStream (bs_stream s) buf)
  | Ok (None, buf) =>
      match k with
      | 0%nat => (Pending, mkBytesStream (StReading (stream_reader (bs_stream s))) buf)
      | S k' =>
          match stream_poll_next true (bs_stream s) with
          | (Ready (Some (Ok buf)), st) => bytes_poll_next k' (mkBytesStream st buf)
          | (Ready (Some (Err err)), st) => (Ready (Some (Err (format_std_io_error err))), mkBytesStream st buf)
          | (Ready (Some Panic), st) => (Ready (Some Panic), mkBytesStream st buf)
          | (Ready None, st) => (Ready None, mkBytesStream st buf)
          | (Pending, st) => (Pending, mkBytesStream st buf)
          end
      end
  | Err _ | Panic => (Ready (Some Panic), s)
  end.

(** ** [FuturesAsyncReader] *)

(** [BufferStream::new(ctx, offset, size)]. *)
  Context (open : Z -> option Z -> R).

Record FuturesAsyncReader : Type := mkAsyncReader {
  ar_stream : StreamState R; ar_buf : Buffer; ar_start : Z; ar_end : Z; ar_pos : Z;
}.

Definition ar_set (st : StreamState R) (buf : Buffer) (pos : Z) (s : FuturesAsyncReader) : FuturesAsyncReader :=
  mkAsyncReader st buf (ar_start s) (ar_end s) pos.

(** [end - start] wraps in a release build. *)
Definition async_reader_new (start end_ : Z) : FuturesAsyncReader :=
  mkAsyncReader (StIdle (open start (Some (wrap64 (end_ - start))))) Buffer.new start end_ 0.

(** [Buf::copy_to_slice], which copies chunk by chunk; [None] is a loop that is
    still running. *)
Fixpoint copy_to_slice (fuel n : nat) (buf : Buffer) : option (result (bytes * Buffer)) :=
  match fuel with
  | 0%nat => None
  | S f =>
      if bool_decide (n = 0)%nat then Some (Ok ([], buf))
      else match (c ← chunk buf; let c := take n c in buf' ← Buffer.advance buf (length c); Ok (c, buf')) with
           | Ok (c, buf') => r ← copy_to_slice f (n - length c) buf'; Some (x ← r; Ok (c ++ x.1, x.2))
           | Err e => Some (Err e)
           | Panic => Some Panic
           end
  end.

(** The loops that fetch the next buffer: [done] is what to do once there is one. *)
Fixpoint fetching {A} (k : nat) (ended : A) (done : FuturesAsyncReader -> outcome IoError A * FuturesAsyncReader)
    (s : FuturesAsyncReader) : Poll (outcome IoError A) * FuturesAsyncReader :=
  if bool_decide (0 < blen (ar_buf s))%nat then let '(r, s') := done s in (Ready r, s')
  else match k with
  | 0%nat => (Pending, ar_set (StReading (stream_reader (ar_stream s))) (ar_buf s) (ar_pos s) s)
  | S k' =>
      match stream_poll_next true (ar_stream s) with
      | (Ready (Some (Ok buf)), st) => fetching k' ended done (ar_set st buf (ar_pos s) s)
      | (Ready (Some (Err err)), st) => (Ready (Err (format_std_io_error err)), ar_set st (ar_buf s) (ar_pos s) s)
      | (Ready (Some Panic), st) => (Ready Panic, ar_set st (ar_buf s) (ar_pos s) s)
      | (Ready None, st) => (Ready (Ok ended), ar_set st (ar_buf s) (ar_pos s) s)
      | (Pending, st) => (Pending, ar_set st (ar_buf s) (ar_pos s) s)
      end
  end.

(** The slice [poll_fill_buf] returns. *)
Definition async_poll_fill_buf (k : nat) : FuturesAsyncReader -> Poll (outcome IoError bytes) * FuturesAsyncReader :=
  fetching k [] (fun s => (match chunk (ar_buf s) with Ok c => Ok c | _ => Panic end, s)).

Definition async_consume (amt : nat) (s : FuturesAsyncReader) : result FuturesAsyncReader :=
  buf ← Buffer.advance (ar_buf s) amt;
  let buf := if is_empty buf then Buffer.new else buf in
  Ok (ar_set (ar_stream s) buf (wrap64 (ar_pos s + Z.of_nat amt)) s).

(** [poll_read] into a slice of [n] bytes: the bytes copied. *)
Definition async_poll_read (k n : nat) : FuturesAsyncReader -> Poll (outcome IoError bytes) * FuturesAsyncReader :=
  fetching k [] (fun s =>
    let size := Nat.min (blen (ar_buf s)) n in
    match copy_to_slice (S size) size (ar_buf s) with
    | Some (Ok (x, buf)) => (Ok x, ar_set (ar_stream s) buf (wrap64 (ar_pos s + Z.of_nat size)) s)
    | _ => (Panic, s)
    end).

(** [i64] arithmetic wraps in a release build. *)
Definition wrap_i64 (n : Z) : Z := as_i64 (wrap64 n).

Definition seek_past_end : IoError := invalid_input "invalid seek to a position beyond the end of the range".

Definition async_poll_seek (pos : SeekFrom) (s : FuturesAsyncReader) : outcome IoError Z * FuturesAsyncReader :=
  let new_pos := match pos with
                 | FromStart pos => as_i64 pos
                 | FromEnd pos => wrap_i64 (as_i64 (ar_end s) - as_i64 (ar_start s) + pos)
                 | FromCurrent pos => wrap_i64 (as_i64 (ar_pos s) + pos)
                 end in
  if bool_decide (new_pos < 0) then (Err seek_negative, s)
  else
    let length := wrap64 (ar_end s - ar_start s) in
    if bool_decide (length < new_pos) then (Err seek_past_end, s)
    else if bool_decide (ar_pos s <= new_pos < ar_pos s + Z.of_nat (blen (ar_buf s))) then
      match Buffer.advance (ar_buf s) (Z.to_nat (new_pos - ar_pos s)) with
      | Ok buf => (Ok new_pos, ar_set (ar_stream s) buf new_pos s)
      | _ => (Panic, s)
      end
    else
      (Ok new_pos,
       ar_set (StIdle (open (wrap64 (new_pos + ar_start s)) (Some (length - new_pos)))) Buffer.new new_pos s).

End Stream.

(** ** What the streams yield *)

Section StreamSpec.
  Context {R : Type} (read : M R Error Buffer).

(** A stream yields the bytes of its reader: however it is polled, what it has
    yielded is a prefix, never an empty buffer, and when it ends that is all of
    them; as soon as more polls have found it ready than there are buffers, it has
    ended. *)
Theorem buffer_stream_yields r bs n schedule :
  Serves read true r bs n ->
  let '(xs, ended) := stream_polls read schedule (StIdle r) in
  exists bufs, xs = Ok <$> bufs /\ Forall (fun buf => blen buf <> 0%nat) bufs /\
    concat (contents <$> bufs) `prefix_of` bs /\ (ended = true -> concat (contents <$> bufs) = bs) /\
    ((n < length (filter (fun x => x = true) schedule))%nat -> ended = true).
Proof.
  assert (forall st, stream_reader st = r -> stream_polls read schedule (StIdle r) = stream_polls read schedule st)
    as Hst by (intros [] <-; destruct schedule; done).
  generalize (StIdle r) as st, (eq_refl : stream_reader (StIdle r) = r). clear Hst.
  revert r bs n. induction schedule as [|ready schedule IH]; intros r bs n st Hr Hs; cbn [stream_polls].
  { exists []. split_and!; try done; [by apply prefix_nil | simpl; lia]. }
  unfold stream_poll_next. rewrite Hr. destruct ready; cbn match.
  2: { specialize (IH r bs n (StReading r) eq_refl Hs). by rewrite filter_cons_False. }
  rewrite filter_cons_True by done.
  inversion Hs as [? buf r' E Hb Hz|? buf r' bs' n' E Hb Hz Hs'|]; subst; [| |done]; rewrite E; unfold is_empty.
  - rewrite bool_decide_eq_true_2 by done. exists []. by split_and!.
  - rewrite bool_decide_eq_false_2 by done. specialize (IH r' bs' n' (StIdle r') eq_refl Hs').
    destruct (stream_polls read schedule (StIdle r')) as [xs e]. destruct IH as (bufs & -> & Hne & Hp & He & Hk).
    exists (buf :: bufs). split_and!; [done|by constructor|by apply prefix_app| |].
    + intros H. csimpl. by rewrite He.
    + simpl. intros ?. apply Hk. lia.
Qed.

(** The stream of bytes polled with a schedule of ready futures. *)
Fixpoint bytes_polls (schedule : list nat) (s : FuturesBytesStream (R := R)) : list (outcome IoError bytes) * bool :=
  match schedule with
  | [] => ([], false)
  | k :: rest =>
      match bytes_poll_next read k s with
      | (Pending, s') => bytes_polls rest s'
      | (Ready None, _) => ([], true)
      | (Ready (Some x), s') => let '(xs, e) := bytes_polls rest s' in (x :: xs, e)
      end
  end.

(** What is still to come: the buffer, then the stream. *)
Definition bytes_left (s : FuturesBytesStream (R := R)) (bs : bytes) (n : nat) : Prop :=
  exists rest, wf (bs_buf s) /\ bs = contents (bs_buf s) ++ rest /\ Serves read true (stream_reader (bs_stream s)) rest n.

(** A buffer with bytes yields one at once. *)
Lemma bytes_poll_buffered k s :
  wf (bs_buf s) -> blen (bs_buf s) <> 0%nat ->
  exists x buf', bytes_poll_next read k s = (Ready (Some (Ok x)), mkBytesStream (bs_stream s) buf') /\
    wf buf' /\ contents (bs_buf s) = x ++ contents buf'.
Proof.
  intros Hb Hz. destruct (next_spec _ Hb) as (x & buf' & E & Hb' & Hx). destruct x as [x|]; [|by destruct Hx].
  destruct Hx as (_ & Hc & _). exists x, buf'. split_and!; try done. by destruct k; cbn [bytes_poll_next]; rewrite E.
Qed.

Lemma bytes_poll_left k s bs n r s' :
  bytes_left s bs n -> bytes_poll_next read k s = (r, s') ->
  match r with
  | Pending => bytes_left s' bs n /\ k = 0%nat
  | Ready (Some (Ok x)) => exists bs' n', bs = x ++ bs' /\ bytes_left s' bs' n'
  | Ready None => bs = []
  | Ready _ => False
  end.
Proof.
  intros (rest & Hb & -> & Hs). destruct (decide (blen (bs_buf s) = 0%nat)) as [Hz|Hz].
  2: { destruct (bytes_poll_buffered k s Hb Hz) as (x & buf' & -> & Hb' & Hc). intros ?. simplify_eq.
       exists (contents buf' ++ rest), n. rewrite Hc, <- app_assoc. split; [done|]. by exists rest. }
  assert (contents (bs_buf s) = []) as Hc by (apply nil_length_inv; by rewrite contents_length).
  destruct (next_spec _ Hb) as (x & buf' & E & Hb' & Hx). destruct x as [x|]; [by destruct Hx|].
  destruct Hx as [_ ->]. rewrite Hc. destruct k as [|k]; cbn [bytes_poll_next]; rewrite E.
  { intros ?. simplify_eq. split; [|done]. exists rest. simpl. by rewrite Hc. }
  unfold stream_poll_next.
  inversion Hs as [? buf r' Er Hbuf Hz'|? buf r' bs' n' Er Hbuf Hz' Hs'|]; subst; [| |done]; rewrite Er; unfold is_empty.
  - rewrite bool_decide_eq_true_2 by done. intros ?. by simplify_eq.
  - rewrite bool_decide_eq_false_2 by done.
    destruct (bytes_poll_buffered k (mkBytesStream (StIdle r') buf)) as (x & buf2 & -> & Hb2 & Hc2); [done..|].
    intros ?. simplify_eq. simpl in Hc2. exists (contents buf2 ++ bs'), n'. simpl. rewrite Hc2, <- app_assoc.
    split; [done|]. by exists bs'.
Qed.

(** The stream of bytes yields the bytes of its reader, in order and without
    an error, and ends after the last; only a poll that finds no future ready is
    pending. *)
Theorem bytes_stream_yields r bs n schedule :
  Serves read true r bs n ->
  let '(xs, ended) := bytes_polls schedule (bytes_stream_of (StIdle r)) in
  exists ys, xs = Ok <$> ys /\ concat ys `prefix_of` bs /\ (ended = true -> concat ys = bs) /\
    (Forall (fun k => k <> 0%nat) schedule -> ended = true \/ length ys = length schedule).
Proof.
  intros Hs. assert (bytes_left (bytes_stream_of (StIdle r)) bs n) as Hl by (by exists bs).
  revert Hl. generalize (bytes_stream_of (StIdle r)) as s. clear Hs r. revert bs n.
  induction schedule as [|k schedule IH]; intros bs n s Hl; cbn [bytes_polls].
  { exists []. split_and!; try done; [by apply prefix_nil | by right]. }
  destruct (bytes_poll_next read k s) as [x s'] eqn:E. apply (bytes_poll_left _ _ _ _ _ _ Hl) in E.
  destruct x as [|[[x|e|]|]]; [| |done|done|].
  - destruct E as [Hl' ->]. specialize (IH _ _ _ Hl'). destruct (bytes_polls schedule s') as [xs e].
    destruct IH as (ys & -> & Hp & He & Hk). exists ys. split_and!; try done. intros Hf. by inversion Hf.
  - destruct E as (bs' & n' & -> & Hl'). specialize (IH _ _ _ Hl'). destruct (bytes_polls schedule s') as [xs e].
    destruct IH as (ys & -> & Hp & He & Hk). exists (x :: ys). split_and!; [done|by apply prefix_app| |].
    + intros H. simpl. by rewrite He.
    + intros Hf. inversion Hf; subst. destruct Hk as [?|?]; [done|by left|right; simpl; lia].
  - exists []. subst bs. split_and!; try done. by left.
Qed.

End StreamSpec.

(** ** A seekable reader is a cursor over its range *)

(** What the adapter relies on: streams opened at any offset read as the bytes
    of the object there, as often as they are read, in buffers without empty
    parts; for ranges up to [limit]. *)
Class Rereads {R : Type} (read : M R Error Buffer) (open : Z -> option Z -> R) (data : bytes) (limit : Z) : Type := {
  serving : R -> bytes -> Prop;
  serving_read r bs :
    serving r bs -> exists buf r', read r = (Ok buf, r') /\ wf buf /\ dense buf /\
      (blen buf = 0%nat -> bs = []) /\ exists bs', bs = contents buf ++ bs' /\ serving r' bs';
  serving_open off n :
    0 <= off -> 0 <= n -> off + n <= limit -> serving (open off (Some n)) (sub data (mkRange off (Some n)));
}.

Lemma sub_drop data off n p :
  0 <= off -> 0 <= p <= n ->
  sub data (mkRange (off + p) (Some (n - p))) = drop (Z.to_nat p) (sub data (mkRange off (Some n))).
Proof.
  intros Ho Hp. unfold sub. simpl. rewrite skipn_firstn_comm, drop_drop. f_equal; [lia|]. f_equal. lia.
Qed.

Lemma copy_to_slice_ok fuel n buf :
  wf buf -> dense buf -> (n <= blen buf)%nat -> (n < fuel)%nat ->
  exists buf', copy_to_slice fuel n buf = Some (Ok (take n (contents buf), buf')) /\ wf buf' /\ dense buf' /\
    contents buf' = drop n (contents buf).
Proof.
  revert n buf. induction fuel as [|f IH]; intros n buf Hb Hd Hn Hf; [lia|]. simpl.
  case_bool_decide as Hz; [subst n; by exists buf|].
  destruct (chunk_spec buf Hb) as (c & rest & -> & Hc & Hne). simpl.
  assert (length (take n c) <> 0)%nat as Hpos.
  { rewrite length_take. assert (c <> []) as Hc0 by (apply Hne; [done|lia]). destruct c; [done|]. simpl. lia. }
  assert (length (take n c) <= n)%nat as Hle by (rewrite length_take; lia).
  assert (take (length (take n c)) (contents buf) = take n c) as Htk.
  { rewrite Hc, take_app_le, length_take by (rewrite length_take; lia).
    destruct (decide (n <= length c)%nat); [by rewrite Nat.min_l|]. rewrite Nat.min_r, !take_ge by lia. done. }
  pose proof (contents_length _ Hb) as HL. rewrite <- Htk in *. set (l := length (take n c)) in *.
  assert (length (take l (contents buf)) = l) as Hl by (by rewrite Htk). clearbody l. rewrite Hl.
  destruct (advance_ok buf l Hb) as (buf' & E & Hb' & Hc'); [lia|]. rewrite E. simpl. rewrite Hl.
  pose proof (advance_dense _ _ _ Hd E) as Hd'.
  destruct (IH (n - l)%nat buf') as (buf2 & -> & Hb2 & Hd2 & Hc2); try done; [|lia|].
  { rewrite <- contents_length, Hc', length_drop by done. lia. }
  exists buf2. simpl. split_and!; try done.
  - repeat f_equal. rewrite Hc', <- (take_drop l (take n (contents buf))), take_take, Nat.min_l by lia.
    f_equal. by rewrite skipn_firstn_comm.
  - rewrite Hc2, Hc', drop_drop. f_equal. lia.
Qed.

Section Cursor.
  Context {R : Type} (read : M R Error Buffer) (open : Z -> option Z -> R) (data : bytes) (limit : Z).
  Context `{!Rereads read open data limit}.
  Implicit Types s : FuturesAsyncReader (R := R).

(** The bytes of the reader's range. *)
Definition reader_slice s : bytes := sub data (mkRange (ar_start s) (Some (ar_end s - ar_start s))).

(** The buffer and the stream are what is left of the range at the position. *)
Definition cursor_inv s : Prop :=
  0 <= ar_start s <= ar_end s /\ ar_end s <= Z.min i64_max limit /\ 0 <= ar_pos s <= ar_end s - ar_start s /\
  wf (ar_buf s) /\ dense (ar_buf s) /\
  exists bs, serving (stream_reader (ar_stream s)) bs /\
    contents (ar_buf s) ++ bs = drop (Z.to_nat (ar_pos s)) (reader_slice s).

Lemma cursor_new start end_ :
  0 <= start <= end_ -> end_ <= Z.min i64_max limit -> cursor_inv (async_reader_new open start end_).
Proof.
  intros Hs He. unfold i64_max in *. split_and!; simpl; try lia; try done.
  eexists. split; [apply serving_open; rewrite ?wrap64_id; unfold is_u64, u64_max; lia|].
  rewrite wrap64_id by (unfold is_u64, u64_max; lia). by rewrite drop_0.
Qed.

(** Moving forward within the buffer. *)
Lemma cursor_forward s m buf :
  cursor_inv s -> (m <= blen (ar_buf s))%nat -> wf buf -> dense buf ->
  contents buf = drop m (contents (ar_buf s)) ->
  wrap64 (ar_pos s + Z.of_nat m) = ar_pos s + Z.of_nat m /\
  cursor_inv (ar_set (ar_stream s) buf (ar_pos s + Z.of_nat m) s).
Proof.
  intros (H1 & H2 & H3 & Hb & Hd & bs & Hs & Hc) Hm Hb' Hd' Hc'. pose proof (contents_length _ Hb) as HL.
  assert (ar_pos s + Z.of_nat m <= ar_end s - ar_start s) as Hle.
  { apply (f_equal length) in Hc. rewrite length_app, length_drop in Hc. unfold reader_slice, sub in Hc.
    simpl in Hc. rewrite length_take in Hc. lia. }
  unfold i64_max in *. split; [apply wrap64_id; unfold is_u64, u64_max; lia|].
  split_and!; simpl; try done; try lia. exists bs. split; [done|].
  change (reader_slice (ar_set (ar_stream s) buf (ar_pos s + Z.of_nat m) s)) with (reader_slice s).
  replace (Z.to_nat (ar_pos s + Z.of_nat m)) with (Z.to_nat (ar_pos s) + m)%nat by lia.
  rewrite <- drop_drop, <- Hc, Hc'. by rewrite drop_app_le by lia.
Qed.

(** The fetching loop: it has bytes to work on, or it is at the end, or it waits. *)
Lemma fetching_ok {A} k (ended : A) act s r s' :
  cursor_inv s -> fetching read k ended act s = (r, s') ->
  (r = Pending /\ k = 0%nat /\ cursor_inv s' /\ ar_pos s' = ar_pos s /\ reader_slice s' = reader_slice s) \/
  (r = Ready (Ok ended) /\ drop (Z.to_nat (ar_pos s)) (reader_slice s) = [] /\ cursor_inv s' /\
     ar_pos s' = ar_pos s /\ reader_slice s' = reader_slice s) \/
  exists s1, cursor_inv s1 /\ ar_pos s1 = ar_pos s /\ reader_slice s1 = reader_slice s /\
    (0 < blen (ar_buf s1))%nat /\ (r, s') = (Ready (act s1).1, (act s1).2).
Proof.
  intros Hi. pose proof Hi as (H1 & H2 & H3 & Hb & Hd & bs & Hs & Hc).
  assert (forall k s, (0 < blen (ar_buf s))%nat -> fetching read k ended act s = (Ready (act s).1, (act s).2)) as Hnow.
  { intros k0 s0 H0. destruct k0; cbn [fetching]; rewrite bool_decide_eq_true_2 by done; by destruct (act s0). }
  destruct (decide (0 < blen (ar_buf s))%nat) as [Hn|Hn].
  { rewrite Hnow by done. intros ?. simplify_eq. right. right. by exists s. }
  assert (contents (ar_buf s) = []) as Hc0 by (apply nil_length_inv; rewrite contents_length by done; lia).
  destruct k as [|k]; cbn [fetching]; rewrite bool_decide_eq_false_2 by done.
  { intros ?. simplify_eq. left. by split_and!. }
  unfold stream_poll_next. destruct (serving_read _ _ Hs) as (buf & r' & E & Hbuf & Hdbuf & Hz & bs' & -> & Hs').
  rewrite E. unfold is_empty. case_bool_decide as Hzb.
  - intros ?. simplify_eq. right. left. rewrite Hc0 in Hc. specialize (Hz Hzb). rewrite Hz in Hc.
    apply app_eq_nil in Hz as [_ ->]. split_and!; [done|by rewrite <- Hc| |done|done].
    split_and!; simpl; try done; try lia. exists []. split; [done|]. by rewrite Hc0.
  - assert (cursor_inv (ar_set (StIdle r') buf (ar_pos s) s)) as Hi'.
    { split_and!; simpl; try done; try lia. exists bs'. split; [done|]. by rewrite Hc0 in Hc. }
    rewrite Hnow by (simpl; lia). intros ?. simplify_eq. right. right.
    eexists. split_and!; [exact Hi'|done|done|simpl; lia|done].
Qed.

(** Reading: the next bytes of the range, as many as are at hand. *)
Lemma cursor_read k n s r s' :
  cursor_inv s -> async_poll_read read k n s = (r, s') ->
  match r with
  | Pending => k = 0%nat /\ cursor_inv s' /\ ar_pos s' = ar_pos s /\ reader_slice s' = reader_slice s
  | Ready (Ok x) =>
      cursor_inv s' /\ reader_slice s' = reader_slice s /\ ar_pos s' = ar_pos s + Z.of_nat (length x) /\
      x = take (length x) (drop (Z.to_nat (ar_pos s)) (reader_slice s)) /\ (length x <= n)%nat /\
      (x = [] -> n = 0%nat \/ drop (Z.to_nat (ar_pos s)) (reader_slice s) = [])
  | Ready _ => False
  end.
Proof.
  intros Hi E. apply fetching_ok in E as [(-> & ?)|[(-> & He & Hi' & Hp & Hsl)|(s1 & Hi1 & Hp & Hsl & Hn & E)]];
    [done| | |done].
  - split_and!; try done; [simpl; lia|simpl; lia|by right].
  - pose proof Hi1 as (_ & _ & _ & Hb & Hd & bs & _ & Hc). rewrite Hp, Hsl in Hc.
    destruct (copy_to_slice_ok (S (Nat.min (blen (ar_buf s1)) n)) (Nat.min (blen (ar_buf s1)) n) (ar_buf s1))
      as (buf & Ec & Hb' & Hd' & Hc'); try done; [lia..|].
    cbv beta zeta in E. rewrite Ec in E. cbn [fst snd] in E. simplify_eq.
    destruct (cursor_forward s1 (Nat.min (blen (ar_buf s1)) n) buf) as [Hw Hi']; try done; [lia|].
    rewrite Hw. pose proof (contents_length _ Hb) as HL.
    assert (length (take (Nat.min (blen (ar_buf s1)) n) (contents (ar_buf s1))) = Nat.min (blen (ar_buf s1)) n) as Hlen
      by (rewrite length_take, HL; lia).
    rewrite Hlen. rewrite Hp in *. split_and!; try done; [|lia|].
    + rewrite <- Hc. by rewrite take_app_le by lia.
    + intros Hx. rewrite Hx in Hlen. simpl in Hlen. left. lia.
Qed.

Lemma cursor_consume m s :
  cursor_inv s -> (m <= blen (ar_buf s))%nat ->
  exists s', async_consume m s = Ok s' /\ cursor_inv s' /\ ar_pos s' = ar_pos s + Z.of_nat m /\
    reader_slice s' = reader_slice s.
Proof.
  intros Hi Hm. pose proof Hi as (_ & _ & _ & Hb & Hd & _).
  destruct (advance_ok _ _ Hb Hm) as (buf & E & Hb' & Hc'). pose proof (advance_dense _ _ _ Hd E) as Hd'.
  unfold async_consume. rewrite E. cbn [mbind outcome_bind].
  assert (contents (if is_empty buf then Buffer.new else buf) = drop m (contents (ar_buf s))) as Hc2.
  { unfold is_empty. case_bool_decide as Hz; [|done]. rewrite <- Hc'. symmetry. apply nil_length_inv.
    by rewrite contents_length. }
  destruct (cursor_forward s m (if is_empty buf then Buffer.new else buf)) as [-> Hi']; try done;
    [by destruct (is_empty buf)..|].
  eexists. split; [done|]. by split_and!.
Qed.

(** Peeking and consuming. *)
Lemma cursor_fill k s r s' :
  cursor_inv s -> async_poll_fill_buf read k s = (r, s') ->
  match r with
  | Pending => k = 0%nat /\ cursor_inv s' /\ ar_pos s' = ar_pos s /\ reader_slice s' = reader_slice s
  | Ready (Ok x) =>
      cursor_inv s' /\ reader_slice s' = reader_slice s /\ ar_pos s' = ar_pos s /\
      x `prefix_of` drop (Z.to_nat (ar_pos s)) (reader_slice s) /\
      (x = [] -> drop (Z.to_nat (ar_pos s)) (reader_slice s) = []) /\
      forall m, (m <= length x)%nat ->
        exists s2, async_consume m s' = Ok s2 /\ cursor_inv s2 /\ ar_pos s2 = ar_pos s + Z.of_nat m /\
          reader_slice s2 = reader_slice s
  | Ready _ => False
  end.
Proof.
  intros Hi E. apply fetching_ok in E as [(-> & ?)|[(-> & He & Hi' & Hp & Hsl)|(s1 & Hi1 & Hp & Hsl & Hn & E)]];
    [done| | |done].
  - split_and!; try done; [by apply prefix_nil|]. intros m Hm. simpl in Hm.
    destruct (cursor_consume m s') as (s2 & ? & ? & ? & ?); [done|lia|]. exists s2. split_and!; try done; congruence.
  - pose proof Hi1 as (_ & _ & _ & Hb & Hd & bs & _ & Hc). rewrite Hp, Hsl in Hc.
    destruct (chunk_spec _ Hb) as (c & rest & Ec & Hcc & Hne). cbv beta in E. rewrite Ec in E. cbn [fst snd] in E.
    simplify_eq. pose proof (contents_length _ Hb) as HL. rewrite Hcc, length_app in HL. split_and!; try done.
    + rewrite <- Hc, Hcc, <- app_assoc. by apply prefix_app_r.
    + intros ->. by destruct Hne; [done|lia|].
    + intros m Hm. destruct (cursor_consume m s1) as (s2 & ? & ? & ? & ?); [done|lia|].
      exists s2. split_and!; try done; congruence.
Qed.

(** Where a seek leads. *)
Definition seek_goal s (pos : SeekFrom) : Z :=
  match pos with
  | FromStart n => n
  | FromEnd d => ar_end s - ar_start s + d
  | FromCurrent d => ar_pos s + d
  end.
Definition seek_arg (pos : SeekFrom) : Prop :=
  match pos with FromStart n => is_u64 n | FromEnd d | FromCurrent d => - i64_max - 1 <= d <= i64_max end.

Lemma wrap_i64_small n :
  - i64_max - 1 <= n <= 2 * i64_max -> wrap_i64 n = as_i64 n.
Proof.
  intros Hn. unfold wrap_i64, as_i64, wrap64, i64_max, u64_max in *.
  destruct (decide (n < 0)).
  - rewrite <- (Z.mod_add _ 1), Z.mod_small by lia. repeat case_bool_decide; lia.
  - by rewrite Z.mod_small by lia.
Qed.

Lemma cursor_seek pos s r s' :
  cursor_inv s -> seek_arg pos -> async_poll_seek open pos s = (r, s') ->
  if bool_decide (0 <= seek_goal s pos <= ar_end s - ar_start s)
  then r = Ok (seek_goal s pos) /\ cursor_inv s' /\ ar_pos s' = seek_goal s pos /\ reader_slice s' = reader_slice s
  else (exists e, r = Err e /\ io_kind e = IoInvalidInput) /\ s' = s.
Proof.
  intros Hi Ha. pose proof Hi as (H1 & H2 & H3 & Hb & Hd & bs & Hs & Hc).
  unfold async_poll_seek. set (t := match pos with FromStart _ => _ | FromEnd _ => _ | FromCurrent _ => _ end).
  assert (if bool_decide (0 <= seek_goal s pos <= ar_end s - ar_start s) then t = seek_goal s pos
          else t < 0 \/ ar_end s - ar_start s < t) as Ht.
  { unfold t, seek_goal, seek_arg, is_u64 in *. destruct pos; rewrite ?wrap_i64_small;
      unfold as_i64, i64_max, u64_max in *; repeat case_bool_decide; lia. }
  clearbody t. assert (wrap64 (ar_end s - ar_start s) = ar_end s - ar_start s) as Hw.
  { apply wrap64_id. unfold is_u64, i64_max, u64_max in *. lia. }
  rewrite Hw. case_bool_decide as Hg.
  2: { destruct Ht as [Ht|Ht].
       - rewrite bool_decide_eq_true_2 by done. intros ?. simplify_eq. split; [|done]. by eexists.
       - case_bool_decide; intros Hx; [simplify_eq; split; [by eexists|done]|].
         rewrite bool_decide_eq_true_2 in Hx by done. simplify_eq. split; [by eexists|done]. }
  rewrite (bool_decide_eq_false_2 (t < 0)), (bool_decide_eq_false_2 (_ < t)) by lia. subst t.
  set (t := seek_goal s pos) in *. clearbody t. case_bool_decide as Hin.
  - destruct (advance_ok (ar_buf s) (Z.to_nat (t - ar_pos s)) Hb) as (buf & E & Hb' & Hc'); [lia|].
    rewrite E. intros ?. simplify_eq. pose proof (advance_dense _ _ _ Hd E) as Hd'.
    destruct (cursor_forward s (Z.to_nat (t - ar_pos s)) buf) as [_ Hi']; try done; [lia|].
    replace (ar_pos s + Z.of_nat (Z.to_nat (t - ar_pos s))) with t in Hi' by lia. by split_and!.
  - intros ?. simplify_eq. split_and!; try done. split_and!; simpl; try done; try lia.
    unfold i64_max in *. rewrite wrap64_id by (unfold is_u64, u64_max; lia).
    eexists. split; [apply serving_open; unfold u64_max; lia|].
    rewrite (Z.add_comm t). by rewrite sub_drop by lia.
Qed.

(** One call on the adapter and its answer: a read into [n] bytes, a look at the
    buffer of which at most [m] bytes are consumed, a seek. *)
Inductive cursor_call : Type := CallRead (k n : nat) | CallBufRead (k m : nat) | CallSeek (pos : SeekFrom).
Inductive cursor_answer : Type := AnsBytes (r : Poll (outcome IoError bytes)) | AnsPos (r : outcome IoError Z).

Definition run_call (c : cursor_call) s : cursor_answer * FuturesAsyncReader :=
  match c with
  | CallRead k n => let '(r, s') := async_poll_read read k n s in (AnsBytes r, s')
  | CallBufRead k m =>
      match async_poll_fill_buf read k s with
      | (Ready (Ok x), s') =>
          match async_consume (Nat.min m (length x)) s' with
          | Ok s2 => (AnsBytes (Ready (Ok (take m x))), s2)
          | _ => (AnsBytes (Ready Panic), s')
          end
      | (r, s') => (AnsBytes r, s')
      end
  | CallSeek pos => let '(r, s') := async_poll_seek open pos s in (AnsPos r, s')
  end.

Fixpoint run_calls (cs : list cursor_call) s : list cursor_answer :=
  match cs with
  | [] => []
  | c :: cs => let '(a, s') := run_call c s in a :: run_calls cs s'
  end.

End Cursor.

(** The contract: a cursor over a fixed sequence of bytes.  A call that waits does
    not move it, a read yields the bytes at the position and is empty only at the
    end, a seek moves it anywhere in the sequence and refuses the rest. *)
Section CursorSpec.
  Context (slice : bytes) (size : Z).

Definition waits (c : cursor_call) : Prop :=
  match c with CallRead k _ | CallBufRead k _ => k = 0%nat | CallSeek _ => False end.
Definition wants (c : cursor_call) : nat :=
  match c with CallRead _ n | CallBufRead _ n => n | CallSeek _ => 0%nat end.
Definition target (p : Z) (pos : SeekFrom) : Z :=
  match pos with FromStart n => n | FromEnd d => size + d | FromCurrent d => p + d end.

Inductive cursor_step (p : Z) : cursor_call -> cursor_answer -> Z -> Prop :=
  | step_wait c : waits c -> cursor_step p c (AnsBytes Pending) p
  | step_bytes c x :
      (forall pos, c <> CallSeek pos) -> x `prefix_of` drop (Z.to_nat p) slice -> (length x <= wants c)%nat ->
      (x = [] -> wants c = 0%nat \/ drop (Z.to_nat p) slice = []) ->
      cursor_step p c (AnsBytes (Ready (Ok x))) (p + Z.of_nat (length x))
  | step_seek pos :
      0 <= target p pos <= size -> cursor_step p (CallSeek pos) (AnsPos (Ok (target p pos))) (target p pos)
  | step_refuse pos e :
      ~ (0 <= target p pos <= size) -> io_kind e = IoInvalidInput ->
      cursor_step p (CallSeek pos) (AnsPos (Err e)) p.

Inductive cursor_run : Z -> list cursor_call -> list cursor_answer -> Prop :=
  | run_nil p : cursor_run p [] []
  | run_cons p c a p' cs ans : cursor_step p c a p' -> cursor_run p' cs ans -> cursor_run p (c :: cs) (a :: ans).
End CursorSpec.

Definition call_arg (c : cursor_call) : Prop := match c with CallSeek pos => seek_arg pos | _ => True end.

Section CursorRefines.
  Context {R : Type} (read : M R Error Buffer) (open : Z -> option Z -> R) (data : bytes) (limit : Z).
  Context `{!Rereads read open data limit}.
  Implicit Types s : FuturesAsyncReader (R := R).

(** The range of the adapter is fixed. *)
Definition same_range s s' : Prop := ar_start s' = ar_start s /\ ar_end s' = ar_end s.

Lemma fetching_range {A} k (ended : A) act s r s' :
  (forall s, same_range s (act s).2) -> fetching read k ended act s = (r, s') -> same_range s s'.
Proof using.
  intros Ha. revert s. induction k as [|k IH]; intros s; cbn [fetching];
    (case_bool_decide; [specialize (Ha s); destruct (act s); intros ?; by simplify_eq|]); [intros ?; by simplify_eq|].
  destruct (stream_poll_next _ _ _) as [[|[[buf|e|]|]] st]; try (intros ?; by simplify_eq).
  intros E. by apply IH in E.
Qed.

Lemma range_fixed c s a s' : run_call read open c s = (a, s') -> same_range s s'.
Proof using.
  unfold run_call. destruct c as [k n|k m|pos].
  - destruct (async_poll_read read k n s) as [r s1] eqn:E. intros ?. simplify_eq.
    eapply fetching_range; [|exact E]. intros s0. cbv beta zeta.
    by destruct (copy_to_slice _ _ _) as [[[]| |]|].
  - destruct (async_poll_fill_buf read k s) as [r s1] eqn:E.
    apply fetching_range in E; [|done]. destruct r as [|[x|e|]]; try (intros ?; by simplify_eq).
    unfold async_consume. destruct (Buffer.advance _ _); intros ?; by simplify_eq/=.
  - unfold async_poll_seek. repeat case_match; intros ?; by simplify_eq.
Qed.

(** One call is one step of the cursor. *)
Lemma run_call_step c s a s' :
  cursor_inv read open data limit s -> call_arg c -> run_call read open c s = (a, s') ->
  cursor_inv read open data limit s' /\ reader_slice data s' = reader_slice data s /\
  cursor_step (reader_slice data s) (ar_end s - ar_start s) (ar_pos s) c a (ar_pos s').
Proof.
  intros Hi Ha. unfold run_call. destruct c as [k n|k m|pos].
  - destruct (async_poll_read read k n s) as [r s1] eqn:E. apply (cursor_read _ _ _ _ _ _ _ _ _ Hi) in E.
    intros ?. simplify_eq. destruct r as [|[x|e|]]; try done.
    + destruct E as (-> & Hi' & -> & Hsl). split_and!; [done|done|]. by apply step_wait.
    + destruct E as (Hi' & Hsl & -> & Hx & Hn & He). split_and!; [done|done|].
      apply step_bytes; try done. rewrite Hx. apply prefix_take.
  - destruct (async_poll_fill_buf read k s) as [r s1] eqn:E. apply (cursor_fill _ _ _ _ _ _ _ _ Hi) in E.
    destruct r as [|[x|e|]]; try done.
    + destruct E as (-> & Hi' & Hp & Hsl). intros ?. simplify_eq. rewrite Hp.
      split_and!; [done|done|]. by apply step_wait.
    + destruct E as (Hi' & Hsl & Hp & Hx & He & Hcs).
      destruct (Hcs (Nat.min m (length x))) as (s2 & -> & Hi2 & Hp2 & Hsl2); [lia|].
      intros ?. simplify_eq. rewrite Hp2. split_and!; [done|done|].
      rewrite <- length_take. apply step_bytes; [done| | |].
      * etrans; [apply prefix_take|done].
      * rewrite length_take. simpl. lia.
      * intros Hn. simpl. destruct m; [by left|]. right. apply He. by destruct x.
  - destruct (async_poll_seek open pos s) as [r s1] eqn:E. apply (cursor_seek _ _ _ _ _ _ _ _ Hi Ha) in E.
    intros ?. simplify_eq. unfold seek_goal in E. fold (target (ar_end s - ar_start s) (ar_pos s) pos) in E.
    case_bool_decide as Hg.
    + destruct E as (-> & Hi' & -> & Hsl). split_and!; [done|done|by constructor].
    + destruct E as [(e & -> & He) ->]. split_and!; [done|done|by constructor].
Qed.

Lemma run_calls_run cs s :
  cursor_inv read open data limit s -> Forall call_arg cs ->
  cursor_run (reader_slice data s) (ar_end s - ar_start s) (ar_pos s) cs (run_calls read open cs s).
Proof.
  revert s. induction cs as [|c cs IH]; intros s Hi Ha; simpl; [constructor|].
  inversion Ha; subst. destruct (run_call read open c s) as [a s'] eqn:E.
  pose proof (range_fixed _ _ _ _ E) as [Hst Hen].
  destruct (run_call_step _ _ _ _ Hi ltac:(done) E) as (Hi' & Hsl & Hstep).
  specialize (IH _ Hi' ltac:(done)). rewrite Hsl, Hst, Hen in IH. by eapply run_cons.
Qed.

(** C13.  The seekable asynchronous reader refines a cursor over the bytes of its range:
    any sequence of reads, buffered reads and seeks, with futures pending anywhere,
    answers as the cursor does; no call panics or fails but a seek outside the
    range. *)
Theorem async_reader_refines_cursor start end_ cs :
  0 <= start <= end_ -> end_ <= Z.min i64_max limit -> Forall call_arg cs ->
  cursor_run (sub data (mkRange start (Some (end_ - start)))) (end_ - start) 0 cs
    (run_calls read open cs (async_reader_new open start end_)).
Proof using Rereads0.
  intros Hs He Ha. apply (run_calls_run cs (async_reader_new open start end_)); [|done].
  by apply cursor_new.
Qed.

End CursorRefines.

(** ** The reader a [BufferStream] runs *)

Section TwoWays.
  Context {R : Type} `{Read R} (aread : OpRead -> result (option Metadata * R)) (fuel : nat).

(** [TwoWays<StreamingReader, ChunkedReader>]. *)
Definition StreamReader : Type := (StreamingReader R + ChunkedReader R)%type.

Definition two_ways_read : M StreamReader Error Buffer := fun r =>
  match r with
  | inl r => let '(buf, r) := streaming_read aread fuel r in (buf, inl r)
  | inr r => let '(buf, r) := chunked_read aread fuel r in (buf, inr r)
  end.

Definition stream_reader_for (ctx : ReadContext) (range : BytesRange) : StreamReader :=
  match reader_chunk (rc_options ctx) with
  | Some _ => inr (chunked_new ctx range)
  | None => inl (streaming_new ctx range)
  end.

Definition buffer_stream_new (ctx : ReadContext) (off : Z) (size : option Z) : StreamReader :=
  stream_reader_for ctx (mkRange off size).

(** With a chunk the range is resolved first, which may take a stat. *)
Definition buffer_stream_create (ctx : ReadContext) (stat : OpStat -> result Metadata) (lo hi : Bound)
  : result StreamReader :=
  match reader_chunk (rc_options ctx) with
  | Some _ =>
      '(s, e) ← parse_into_range ctx stat lo hi;
      Ok (inr (chunked_new ctx (from_bounds (Included s) (Excluded e))))
  | None => Ok (inl (streaming_new ctx (from_bounds lo hi)))
  end.

(** The service's buffers have no empty parts. *)
  Hypothesis read_dense : forall (r : R) buf r', read_buf r = (Ok buf, r') -> dense buf.

Lemma streaming_read_dense f (s : StreamingReader R) buf s' :
  streaming_read aread f s = (Ok buf, s') -> dense buf.
Proof using read_dense.
  revert s. induction f as [|f IH]; intros s; [done|]. cbn [streaming_read].
  unfold mbind at 1, M_bind at 1, get at 1. generalize (if bool_decide (sr_reader s = None) then open_next aread else mret tt).
  intros m. unfold mbind at 1, M_bind at 1. destruct (m s) as [[[]|e|] s1]; [|done|done].
  unfold serve_reader, mbind, M_bind, get, modify, lift, mret, M_ret.
  destruct (sr_reader s1) as [r|]; [|intros ?; by simplify_eq].
  destruct (read_buf r) as [[b0|e|] r'] eqn:E; [|done|done].
  destruct (is_empty b0); [apply IH|]. intros ?. simplify_eq. by eapply read_dense.
Qed.

(** A stream without a chunk is such a reader for the seekable adapter, for
    ranges up to the fuel. *)
#[global] Instance streaming_rereads ctx data :
  serves_object aread data -> reader_chunk (rc_options ctx) = None ->
  Rereads two_ways_read (buffer_stream_new ctx) data (Z.min u64_max (Z.of_nat fuel - 2)).
Proof using read_dense.
  intros Hd Hc.
  refine {| serving := fun r bs => match r with
    | inl s => exists m, streaming_ok data s bs m /\ (m + 1 < fuel)%nat | inr _ => False end |}.
  - intros [s|s] bs; [|done]. intros (m & Hok & Hm).
    destruct (streaming_read_ok aread data fuel s bs m Hd Hok) as (buf & s' & E & Hb & He & bs' & m' & -> & Hok' & Hle).
    { case_bool_decide; lia. }
    exists buf, (inl s'). simpl. rewrite E. split_and!; [done|done|by eapply streaming_read_dense| |].
    + intros Hz. apply He. by apply bool_decide_eq_true.
    + exists bs'. split; [done|]. exists m'. split; [done|lia].
  - intros off n Ho Hn Hl. unfold buffer_stream_new, stream_reader_for. rewrite Hc. exists (Z.to_nat n).
    split; [|lia]. split.
    + simpl. rewrite Hc. split; [done|]. unfold is_u64.
      split; lia.
    + by exists [], 0%nat.
Defined.

End TwoWays.

(** Without a chunk the range is one request, and the stream is its reader. *)
Section Single.
  Context {R : Type} `{Read R} (aread : OpRead -> result (option Metadata * R)).

(** One round of the collecting loop. *)
Lemma collect_loop_S {T} (next : M T Error Buffer) n bufs r :
  collect_loop next (S n) bufs r =
  match next r with
  | (Ok buf, r') => if is_empty buf then (from_parts <$> flatten bufs, r') else collect_loop next n (bufs ++ [buf]) r'
  | (Err e, r') => (Err e, r')
  | (Panic, r') => (Panic, r')
  end.
Proof.
  cbn [collect_loop]. unfold mbind, M_bind, lift. destruct (next r) as [[buf|e|] r']; [|done|done].
  by destruct (is_empty buf).
Qed.

Definition sr_same (s : StreamingReader R) : Prop := rg_size (sr_generator s) = Some 0%Z.

Lemma streaming_read_end f (s : StreamingReader R) :
  sr_same s -> sr_reader s = None -> streaming_read aread (S f) s = (Ok Buffer.new, s).
Proof.
  destruct s as [[ctx off sz] rd]. unfold sr_same. simpl. intros -> ->. done.
Qed.

Lemma streaming_read_opened f g (r : R) :
  rg_size g = Some 0%Z ->
  streaming_read aread (S (S f)) (mkStreaming g (Some r)) =
  match read_buf r with
  | (Ok buf, r') => if is_empty buf then (Ok Buffer.new, mkStreaming g None) else (Ok buf, mkStreaming g (Some r'))
  | (Err e, r') => (Err e, mkStreaming g (Some r'))
  | (Panic, r') => (Panic, mkStreaming g (Some r'))
  end.
Proof.
  intros Hg. remember (S f) as k eqn:Hk. cbn [streaming_read].
  unfold mbind, M_bind, get, mret, M_ret. simpl.
  unfold serve_reader, mbind, M_bind, get, modify, lift, mret, M_ret. simpl.
  destruct (read_buf r) as [[buf|e|] r']; [|done|done]. destruct (is_empty buf); [|done].
  unfold sr_set_reader. simpl. subst k. by apply streaming_read_end.
Qed.

Lemma streaming_opened g (r : R) n f bufs :
  rg_size g = Some 0%Z ->
  (collect_loop (two_ways_read aread (S (S f))) n bufs (inl (mkStreaming g (Some r)))).1 = (collect_loop read_buf n bufs r).1.
Proof.
  intros Hg. revert r bufs. induction n as [|n IH]; intros r bufs; [done|].
  rewrite !collect_loop_S. unfold two_ways_read at 1. rewrite streaming_read_opened by done.
  destruct (read_buf r) as [[buf|e|] r']; [|done|done]. destruct (is_empty buf) eqn:Eb; [done|].
  rewrite Eb. apply IH.
Qed.

Lemma open_next_single ctx off sz :
  reader_chunk (rc_options ctx) = None -> sz <> Some 0%Z ->
  match aread (read_with_range (mkRange off sz) (rc_args ctx)) with
  | Ok (_, r) => exists g, open_next aread (streaming_new ctx (mkRange off sz)) = (Ok tt, mkStreaming g (Some r)) /\
      rg_size g = Some 0%Z
  | Err e => (open_next aread (streaming_new ctx (mkRange off sz))).1 = Err e
  | Panic => (open_next aread (streaming_new ctx (mkRange off sz))).1 = Panic
  end.
Proof.
  intros Hc Hz. unfold open_next, next_reader, gen_next_range, mbind, M_bind, zoom, get, lift, modify, mret, M_ret.
  simpl. unfold next_range. rewrite Hc, bool_decide_eq_false_2 by done.
  assert (exists off', match sz with
    | Some remaining => (Some (mkRange off (Some remaining)), (wrap64 (off + remaining), Some (remaining - remaining)%Z))
    | None => (Some (mkRange off None), (off, Some 0%Z)) end = (Some (mkRange off sz), (off', Some 0%Z))) as [off' ->].
  { destruct sz as [n|]; eexists; [by rewrite Z.sub_diag | done]. }
  cbn [rg_ctx]. destruct (aread _) as [[[m|] r]|e|]; [..|done|done]; simpl; eexists; by split.
Qed.

(** Reading a range without a chunk is one request read to its end; an empty range
    is none. *)
Lemma streaming_single ctx off sz n f :
  reader_chunk (rc_options ctx) = None ->
  (collect_loop (two_ways_read aread (S (S f))) (S n) [] (inl (streaming_new ctx (mkRange off sz)))).1 =
  (if bool_decide (sz = Some 0%Z) then Ok (from_parts [])
   else '(_, r) ← aread (read_with_range (mkRange off sz) (rc_args ctx)); (read_all (S n) r).1).
Proof.
  intros Hc. case_bool_decide as Hz.
  { subst. rewrite collect_loop_S. unfold two_ways_read. by rewrite streaming_read_end. }
  assert (forall f, streaming_read aread (S f) (streaming_new ctx (mkRange off sz)) =
    match open_next aread (streaming_new ctx (mkRange off sz)) with
    | (Ok _, s) => serve_reader (streaming_read aread f) s | (Err e, s) => (Err e, s) | (Panic, s) => (Panic, s) end)
    as Hopen by done.
  pose proof (open_next_single ctx off sz Hc Hz) as Ho. rewrite collect_loop_S. unfold two_ways_read at 1.
  rewrite Hopen. clear Hopen. destruct (aread _) as [[rp r]|e|]; simpl.
  - destruct Ho as (g & -> & Hg). unfold read_all. rewrite <- (streaming_opened g r (S n) f) by done.
    rewrite collect_loop_S. done.
  - destruct (open_next _ _) as [x s]. simpl in Ho. by subst x.
  - destruct (open_next _ _) as [x s]. simpl in Ho. by subst x.
Qed.

End Single.

(** ** Witnesses *)

(** A reader that serves its bytes two at a time. *)
Definition pair_read : M bytes Error Buffer := fun r => (Ok (Contiguous (take 2 r)), drop 2 r).

Lemma pair_serves : Serves pair_read true [x01; x02; x03] [x01; x02; x03] 2.
Proof.
  eapply (Serves_more pair_read true [x01; x02; x03] (Contiguous [x01; x02]) [x03] [x03] 1); [done..|].
  eapply (Serves_more pair_read true [x03] (Contiguous [x03]) [] [] 0); [done..|].
  by eapply Serves_end.
Defined.

Lemma buffer_stream_yields_witness :
  let '(xs, ended) := stream_polls pair_read [true; false; true; true] (StIdle [x01; x02; x03]) in
  exists bufs, xs = Ok <$> bufs /\ Forall (fun buf => blen buf <> 0%nat) bufs /\
    concat (contents <$> bufs) `prefix_of` [x01; x02; x03] /\
    (ended = true -> concat (contents <$> bufs) = [x01; x02; x03]) /\
    ((2 < length (filter (fun x => x = true) [true; false; true; true]))%nat -> ended = true).
Proof. apply (buffer_stream_yields pair_read [x01; x02; x03] [x01; x02; x03] 2), pair_serves. Defined.

Lemma bytes_stream_yields_witness :
  let '(xs, ended) := bytes_polls pair_read [1; 0; 1; 1]%nat (bytes_stream_of (StIdle [x01; x02; x03])) in
  exists ys, xs = Ok <$> ys /\ concat ys `prefix_of` [x01; x02; x03] /\
    (ended = true -> concat ys = [x01; x02; x03]) /\
    (Forall (fun k => k <> 0%nat) [1; 0; 1; 1]%nat -> ended = true \/ length ys = 4%nat).
Proof. apply (bytes_stream_yields pair_read [x01; x02; x03] [x01; x02; x03] 2), pair_serves. Defined.

#[local] Instance pair_Read : Read bytes := pair_read.
Definition pair_store (data : bytes) (op : OpRead) : result (option Metadata * bytes) :=
  Ok (None, sub data (read_range op)).

Lemma pair_serves_object data : serves_object (pair_store data) data.
Proof.
  intros range args _. exists None, (sub data range).
  assert (forall bs, exists n, Serves pair_read true bs bs n) as Hs.
  { intros bs. remember (length bs) as k eqn:Hk. revert bs Hk.
    induction (lt_wf k) as [k _ IH]. intros bs ->. destruct bs as [|x bs].
    - exists 0%nat. by eapply Serves_end.
    - destruct (IH (length (drop 2 (x :: bs)))) with (bs := drop 2 (x :: bs)) as [n Hn]; [|done|].
      { rewrite length_drop. simpl. lia. }
      exists (S n). rewrite <- (take_drop 2 (x :: bs)) at 2.
      eapply (Serves_more pair_read true (x :: bs) (Contiguous (take 2 (x :: bs)))); done. }
  destruct (Hs (sub data range)) as [n Hn]. by exists n.
Defined.

Definition sample_rereads :=
  streaming_rereads (pair_store [x01; x02; x03; x04; x05]) 9
    (fun r buf r' (E : read_buf r = (Ok buf, r')) =>
       match E in _ = y return dense (match y.1 with Ok b => b | _ => Buffer.new end) with eq_refl => I end)
    (sample_ctx None 1) [x01; x02; x03; x04; x05] (pair_serves_object _) eq_refl.

Lemma async_reader_refines_cursor_witness :
  let cs := [CallRead 1 1; CallSeek (FromEnd (-1)); CallRead 0 4; CallBufRead 1 9; CallSeek (FromCurrent (-9))] in
  let open := buffer_stream_new (R := bytes) (sample_ctx None 1) in
  cursor_run (sub [x01; x02; x03; x04; x05] (mkRange 1 (Some (4 - 1)))) (4 - 1) 0 cs
    (run_calls (two_ways_read (pair_store [x01; x02; x03; x04; x05]) 9) open cs (async_reader_new open 1 4)).
Proof.
  apply (async_reader_refines_cursor _ _ [x01; x02; x03; x04; x05] _ (Rereads0 := sample_rereads) 1 4);
    [lia|unfold i64_max, u64_max; lia|].
  repeat constructor; unfold i64_max; lia.
Defined.
