(* ===== verification/Operator.v ===== *)
(** * The operator ([types/operator/operator.rs], [types/options.rs] and the
      conversions of [raw/ops.rs])

    The public API over an accessor: every method normalizes its paths, refuses
    the ones of the wrong kind, turns its options into arguments and drives the
    handle the accessor opens.

    The service's state [A] is shared with its handles: the methods of a writer,
    a deleter or a copier work on the pair of both.  Reading and listing leave
    the state alone, and the service answers them as it does at the call's start.
    A loop that is still running when its fuel is gone panics. *)

From S2P Require Import Prelude Errors Path Range Buffer Types Access Context Writers Tasks Listers Deleters Readers Copiers Streams.
From stdpp Require Import options.

(** ** Options *)

Record DeleteOptions : Type := mkDeleteOptions { do_version : option str; do_recursive : bool }.

Record ListOptions : Type := mkListOptions {
  lo_limit : option nat; lo_start_after : option str; lo_recursive : bool; lo_versions : bool; lo_deleted : bool;
}.

Record ReadOptions : Type := mkReadOptions {
  ro_range : BytesRange; ro_version : option str; ro_if_match : option str; ro_if_none_match : option str;
  ro_if_modified_since : option Z; ro_if_unmodified_since : option Z; ro_content_length_hint : option Z;
  ro_concurrent : nat; ro_chunk : option nat; ro_gap : option nat;
  ro_override_content_type : option str; ro_override_cache_control : option str;
  ro_override_content_disposition : option str;
}.

Record ReaderOptions : Type := mkReaderOptions {
  rdo_version : option str; rdo_if_match : option str; rdo_if_none_match : option str;
  rdo_if_modified_since : option Z; rdo_if_unmodified_since : option Z; rdo_content_length_hint : option Z;
  rdo_concurrent : nat; rdo_chunk : option nat; rdo_gap : option nat; rdo_prefetch : nat;
}.

Record StatOptions : Type := mkStatOptions {
  so_version : option str; so_if_match : option str; so_if_none_match : option str;
  so_if_modified_since : option Z; so_if_unmodified_since : option Z;
  so_override_content_type : option str; so_override_cache_control : option str;
  so_override_content_disposition : option str;
}.

Record WriteOptions : Type := mkWriteOptions {
  wo_append : bool; wo_cache_control : option str; wo_content_type : option str;
  wo_content_disposition : option str; wo_content_encoding : option str;
  wo_user_metadata : option (gmap (list ascii) (list ascii));
  wo_if_match : option str; wo_if_none_match : option str; wo_if_not_exists : bool;
  wo_concurrent : nat; wo_chunk : option nat;
}.

Record CopyOptions : Type := mkCopyOptions {
  co_if_not_exists : bool; co_if_match : option str; co_source_content_length_hint : option Z;
  co_concurrent : nat; co_chunk : option nat;
}.

(** [#[derive(Default)]]. *)
Definition delete_options_default : DeleteOptions := mkDeleteOptions None false.
Definition list_options_default : ListOptions := mkListOptions None None false false false.
Definition read_options_default : ReadOptions :=
  mkReadOptions (mkRange 0 None) None None None None None None 0 None None None None None.
Definition reader_options_default : ReaderOptions :=
  mkReaderOptions None None None None None None 0 None None 0.
Definition stat_options_default : StatOptions := mkStatOptions None None None None None None None None.
Definition write_options_default : WriteOptions :=
  mkWriteOptions false None None None None None None None false 0 None.
Definition copy_options_default : CopyOptions := mkCopyOptions false None None 0 None.

(** *** Conversions *)

Definition delete_args (v : DeleteOptions) : OpDelete := mkOpDelete (do_version v) (do_recursive v).
Definition list_args (v : ListOptions) : OpList :=
  mkOpList (lo_limit v) (lo_start_after v) (lo_recursive v) (lo_versions v) (lo_deleted v).
Definition stat_args (v : StatOptions) : OpStat :=
  {| stat_if_match := so_if_match v; stat_if_none_match := so_if_none_match v;
     stat_if_modified_since := so_if_modified_since v; stat_if_unmodified_since := so_if_unmodified_since v;
     stat_override_content_type := so_override_content_type v;
     stat_override_cache_control := so_override_cache_control v;
     stat_override_content_disposition := so_override_content_disposition v; stat_version := so_version v |}.
Definition read_args (v : ReadOptions) : OpRead * OpReader :=
  ({| read_range := ro_range v; read_if_match := ro_if_match v; read_if_none_match := ro_if_none_match v;
      read_if_modified_since := ro_if_modified_since v; read_if_unmodified_since := ro_if_unmodified_since v;
      read_override_content_type := ro_override_content_type v;
      read_override_cache_control := ro_override_cache_control v;
      read_override_content_disposition := ro_override_content_disposition v; read_version := ro_version v |},
   {| reader_concurrent := Nat.max (ro_concurrent v) 1; reader_chunk := ro_chunk v; reader_gap := ro_gap v;
      reader_prefetch := 0; reader_content_length_hint := ro_content_length_hint v |}).
Definition reader_args (v : ReaderOptions) : OpRead * OpReader :=
  ({| read_range := mkRange 0 None; read_if_match := rdo_if_match v; read_if_none_match := rdo_if_none_match v;
      read_if_modified_since := rdo_if_modified_since v; read_if_unmodified_since := rdo_if_unmodified_since v;
      read_override_content_type := None; read_override_cache_control := None;
      read_override_content_disposition := None; read_version := rdo_version v |},
   {| reader_concurrent := Nat.max (rdo_concurrent v) 1; reader_chunk := rdo_chunk v; reader_gap := rdo_gap v;
      reader_prefetch := rdo_prefetch v; reader_content_length_hint := rdo_content_length_hint v |}).
Definition write_args (v : WriteOptions) : OpWrite * OpWriter :=
  ({| write_append := wo_append v; write_concurrent := Nat.max (wo_concurrent v) 1;
      write_content_type := wo_content_type v; write_content_disposition := wo_content_disposition v;
      write_content_encoding := wo_content_encoding v; write_cache_control := wo_cache_control v;
      write_if_match := wo_if_match v; write_if_none_match := wo_if_none_match v;
      write_if_not_exists := wo_if_not_exists v; write_user_metadata := wo_user_metadata v |},
   {| writer_chunk := wo_chunk v |}).
Definition copy_args (v : CopyOptions) : OpCopy * OpCopier :=
  (mkOpCopy (co_if_not_exists v) (co_if_match v),
   mkOpCopier (Nat.max (co_concurrent v) 1) (co_chunk v) (co_source_content_length_hint v)).

(** ** [Operator] *)

(** An error of the operator's own checks. *)
Definition guard_error (kind : ErrorKind) (msg operation : string) (scheme : str) (pairs : list (string * str)) : Error :=
  foldl (fun e '(k, v) => with_context (b k) v e)
    (with_context (b "service") scheme (with_operation (b operation) (error kind msg))) pairs.

Section Operator.
  Context {A Rd Wr Ls Dl Cp : Type} `{Read Rd} `{Write (A * Wr)} `{Delete (A * Dl)} `{Copy Cp}.
  Variable acc : Access A Rd Wr Ls Dl Cp.
  (** [next] of a lister, as the service answers it in a state. *)
  Variable lnext : A -> M Ls Error (option Entry).
  Variable fuel : nat.

(** The error a check raises, with the scheme of the accessor. *)
Definition refuse {X} (kind : ErrorKind) (msg operation : string) (pairs : list (string * str)) : M A Error X :=
  info ← gets (a_info acc);
  throw (guard_error kind msg operation (scheme info) pairs).

Definition stat_inner (path : str) (opts : StatOptions) : M A Error Metadata := a_stat acc path (stat_args opts).
Definition operator_stat_options (path : str) (opts : StatOptions) : M A Error Metadata :=
  stat_inner (normalize_path path) opts.
Definition operator_stat (path : str) : M A Error Metadata := operator_stat_options path stat_options_default.

Definition operator_exists (path : str) : M A Error bool := fun a =>
  match operator_stat path a with
  | (Ok _, a') => (Ok true, a')
  | (Err e, a') => (if bool_decide (kind e = NotFound) then Ok false else Err e, a')
  | (Panic, a') => (Panic, a')
  end.

Definition operator_create_dir (path : str) : M A Error unit :=
  let path := normalize_path path in
  if negb (validate_path path DIR) then
    refuse NotADirectory "the path trying to create should end with `/`" "create_dir" [("path", path)]
  else a_create_dir acc path.

(** *** Reading *)

(** A [Reader] is its context and the path it reads. *)
Record Reader : Type := mkReader { rd_path : str; rd_ctx : ReadContext }.

Definition read_context (args : OpRead) (opts : OpReader) : ReadContext := mkReadContext args opts None.

(** The accessor as it answers a reader. *)
Definition reads_in (a : A) (path : str) (args : OpRead) : result (option Metadata * Rd) := (a_read acc path args a).1.
Definition stats_in (a : A) (path : str) (args : OpStat) : result Metadata := (a_stat acc path args a).1.

(** [into_stream(range).try_collect()]. *)
Definition reader_read (r : Reader) (lo hi : Bound) : M A Error Buffer := fun a =>
  (s ← buffer_stream_create (rd_ctx r) (stats_in a (rd_path r)) lo hi;
   (collect_loop (two_ways_read (reads_in a (rd_path r)) fuel) fuel [] s).1, a).

Definition read_inner (path : str) (opts : ReadOptions) : M A Error Buffer :=
  if negb (validate_path path FILE) then
    refuse IsADirectory "read path is a directory" "read" [("path", path)]
  else
    let '(args, opts) := read_args opts in
    '(lo, hi) ← lift (to_range (read_range args));
    reader_read (mkReader path (read_context args opts)) lo hi.
Definition operator_read_options (path : str) (opts : ReadOptions) : M A Error Buffer :=
  read_inner (normalize_path path) opts.
Definition operator_read (path : str) : M A Error Buffer := operator_read_options path read_options_default.

Definition reader_inner (path : str) (opts : ReaderOptions) : M A Error Reader :=
  if negb (validate_path path FILE) then
    refuse IsADirectory "read path is a directory" "Operator::reader" [("path", path)]
  else
    let '(args, opts) := reader_args opts in
    mret (mkReader path (read_context args opts)).
Definition operator_reader_options (path : str) (opts : ReaderOptions) : M A Error Reader :=
  reader_inner (normalize_path path) opts.

(** *** Writing *)

(** [WriteGenerator::create]: the writer with the service's state. *)
Definition open_writer (path : str) (args : OpWrite) (opts : OpWriter) : M A Error (WriteGenerator (A * Wr)) :=
  info ← gets (a_info acc);
  let '(chunk_size, exact) := calculate_chunk_size (full_capability info) opts in
  w ← a_write acc path args;
  a ← get;
  mret (gen_new (a, w) chunk_size exact).

(** [w.write(bs).await?; w.close().await]. *)
Definition write_all (bs : Buffer) (g : WriteGenerator (A * Wr)) : M A Error Metadata := fun _ =>
  match writer_write fuel bs g with
  | Some (Ok _, g) => let '(r, g) := gen_close g in (r, (g_w g).1)
  | Some (Err e, g) => (Err e, (g_w g).1)
  | Some (Panic, g) => (Panic, (g_w g).1)
  | None => (Panic, (g_w g).1)
  end.

Definition write_inner (path : str) (bs : Buffer) (opts : WriteOptions) : M A Error Metadata :=
  if negb (validate_path path FILE) then
    refuse IsADirectory "write path is a directory" "Operator::write" [("path", path)]
  else
    let '(args, opts) := write_args opts in
    g ← open_writer path args opts;
    write_all bs g.
Definition operator_write_options (path : str) (bs : Buffer) (opts : WriteOptions) : M A Error Metadata :=
  write_inner (normalize_path path) bs opts.
Definition operator_write (path : str) (bs : Buffer) : M A Error Metadata :=
  operator_write_options path bs write_options_default.

Definition writer_inner (path : str) (opts : WriteOptions) : M A Error (WriteGenerator (A * Wr)) :=
  if negb (validate_path path FILE) then
    refuse IsADirectory "write path is a directory" "Operator::writer" [("path", path)]
  else let '(args, opts) := write_args opts in open_writer path args opts.
Definition operator_writer_options (path : str) (opts : WriteOptions) : M A Error (WriteGenerator (A * Wr)) :=
  writer_inner (normalize_path path) opts.

(** *** Copying and renaming *)

(** The checks on a pair of paths, and what to do when they pass. *)
Definition two_files {X} (operation : string) (from to : str) (m : M A Error X) : M A Error X :=
  if negb (validate_path from FILE) then
    refuse IsADirectory "from path is a directory" operation [("from", from)]
  else if negb (validate_path to FILE) then
    refuse IsADirectory "to path is a directory" operation [("to", to)]
  else if bool_decide (from = to) then
    refuse IsSameFile "from and to paths are same" operation [("from", from); ("to", to)]
  else m.

Definition copier_inner (from to : str) (opts : CopyOptions) : M A Error Copier :=
  two_files "Operator::copier" from to
    (let '(args, opts) := copy_args opts in copier_create acc from to args opts).
Definition operator_copier_options (from to : str) (opts : CopyOptions) : M A Error Copier :=
  copier_inner (normalize_path from) (normalize_path to) opts.

(** Close the copier, and abort it when that fails; the abort's answer is dropped. *)
Definition finish_copy : M Copier Error Metadata := fun c =>
  match copier_close fuel c with
  | (Ok meta, c) => (Ok meta, c)
  | (Err err, c) => (Err err, (copier_abort c).2)
  | (Panic, c) => (Panic, c)
  end.

(** The answer, and the copier as it is left. *)
Definition copy_inner (from to : str) (opts : CopyOptions) : M A Error (result Metadata * Copier) :=
  two_files "Operator::copy" from to
    (copier ← copier_inner from to opts;
     mret (finish_copy copier)).
Definition operator_copy_options (from to : str) (opts : CopyOptions) : M A Error (result Metadata * Copier) :=
  copy_inner (normalize_path from) (normalize_path to) opts.

Definition operator_rename (from to : str) : M A Error unit :=
  let from := normalize_path from in
  if negb (validate_path from FILE) then
    refuse IsADirectory "from path is a directory" "rename" [("from", from)]
  else
    let to := normalize_path to in
    if negb (validate_path to FILE) then
      refuse IsADirectory "to path is a directory" "rename" [("to", to)]
    else if bool_decide (from = to) then
      refuse IsSameFile "from and to paths are same" "rename" [("from", from); ("to", to)]
    else a_rename acc from to.

(** *** Deleting *)

(** A deleter is opened, used and closed: an error in between leaves it there. *)
Definition with_deleter (m : M (A * Dl) Error unit) : M A Error unit :=
  d ← a_delete acc;
  a ← get;
  let '(r, (a, _)) := (m;; d_close) (a, d) in
  put a;;
  lift r.

Definition delete_inner (path : str) (opts : DeleteOptions) : M A Error unit :=
  with_deleter (d_delete path (delete_args opts)).
Definition operator_delete_options (path : str) (opts : DeleteOptions) : M A Error unit :=
  delete_inner (normalize_path path) opts.
Definition operator_delete (path : str) : M A Error unit := operator_delete_options path delete_options_default.
(** [delete_iter] and [delete_stream]; the [try] variants take the results of an
    iterator. *)
Definition operator_delete_iter {I} `{IntoDeleteInput I} (iter : list I) : M A Error unit := with_deleter (delete_iter iter).
Definition operator_delete_try_iter {I} `{IntoDeleteInput I} (iter : list (result I)) : M A Error unit :=
  with_deleter (delete_try_iter iter).
Definition operator_remove_all (path : str) : M A Error unit :=
  operator_delete_options path (mkDeleteOptions None true).

(** *** Listing *)

(** [Lister::try_collect]. *)
Fixpoint try_collect (a : A) (n : nat) (s : Lister Ls) : result (list Entry) :=
  match n with
  | O => Panic
  | S n =>
      match @poll_next Ls (lnext a) true s with
      | (Ready (Some (Ok e)), s) => es ← try_collect a n s; Ok (e :: es)
      | (Ready (Some (Err e)), _) => Err e
      | (Ready None, _) => Ok []
      | (Ready (Some Panic), _) | (Pending, _) => Panic
      end
  end.

Definition lister_inner (path : str) (opts : ListOptions) : M A Error (Lister Ls) :=
  l ← a_list acc path (list_args opts);
  mret (lister_create l).
Definition list_inner (path : str) (opts : ListOptions) : M A Error (list Entry) :=
  l ← lister_inner path opts;
  a ← get;
  lift (try_collect a fuel l).
Definition operator_list_options (path : str) (opts : ListOptions) : M A Error (list Entry) :=
  list_inner (normalize_path path) opts.
Definition operator_list (path : str) : M A Error (list Entry) := operator_list_options path list_options_default.

(** [check]: list one entry of the root. *)
Definition operator_check : M A Error unit :=
  l ← lister_inner (normalize_path [slash]) (mkListOptions (Some 1) None false false false);
  a ← get;
  match (@poll_next Ls (lnext a) true l).1 with
  | Ready (Some (Err e)) => if bool_decide (kind e <> NotFound) then throw e else mret tt
  | Ready (Some Panic) | Pending => panic
  | _ => mret tt
  end.

End Operator.

(** One path through [delete_iter]: what [delete] does, but for the normalization. *)
Lemma operator_delete_one {A Rd Wr Ls Dl Cp} `{Delete (A * Dl)} (acc : Access A Rd Wr Ls Dl Cp) (path : str) a :
  operator_delete_iter acc [path] a = delete_inner acc path delete_options_default a.
Proof.
  unfold operator_delete_iter, delete_inner, with_deleter, mbind, M_bind, get.
  destruct (a_delete acc a) as [[d|e|] a1]; [|done|done]. simpl. unfold mbind, M_bind, mret, M_ret.
  change (deleter_delete path) with (d_delete (D := A * Dl) path op_delete).
  change (delete_args delete_options_default) with op_delete.
  by destruct (d_delete path op_delete (a1, d)) as [[[]|e|] [a2 d2]].
Qed.

(** ** What the checks refuse *)

Section Guards.
  Context {A Rd Wr Ls Dl Cp : Type} `{Read Rd} `{Write (A * Wr)} `{Delete (A * Dl)} `{Copy Cp}.
  Variable acc : Access A Rd Wr Ls Dl Cp.
  Variable fuel : nat.

(** The call fails with an error of this kind and the service does not see it. *)
Definition refused {X} (m : M A Error X) (k : ErrorKind) (a : A) : Prop :=
  exists e, m a = (Err e, a) /\ kind e = k.

Lemma guard_error_kind k msg op sc pairs : kind (guard_error k msg op sc pairs) = k.
Proof.
  unfold guard_error. generalize (with_context (b "service") sc (with_operation (b op) (error k msg))) as e,
    (eq_refl : kind (with_context (b "service") sc (with_operation (b op) (error k msg))) = k).
  induction pairs as [|[key v] pairs IH]; intros e He; [done|]. simpl. by apply IH.
Qed.

Lemma refuse_refused {X} k msg op pairs a : refused (refuse acc (X := X) k msg op pairs) k a.
Proof. eexists. split; [done|]. apply guard_error_kind. Qed.

Lemma two_files_refused {X} op from to (m : M A Error X) a :
  (ends_with [slash] from || ends_with [slash] to = true -> refused (two_files acc op from to m) IsADirectory a) /\
  (ends_with [slash] from = false -> from = to -> refused (two_files acc op from to m) IsSameFile a).
Proof.
  unfold two_files. simpl. split.
  - destruct (ends_with [slash] from); simpl; [intros _; apply refuse_refused|]. intros ->. apply refuse_refused.
  - intros Hf <-. rewrite Hf. simpl. rewrite bool_decide_eq_true_2 by done. apply refuse_refused.
Qed.

(** C36.  A path of the wrong kind never reaches the service: reading, writing, copying
    or renaming a directory, creating a directory at a file's path and copying a
    file to itself are refused, with the kind of error that says why, and the state
    does not change. *)
Theorem operator_guards path a :
  let p := normalize_path path in
  (ends_with [slash] p = true ->
    (forall opts, refused (operator_read_options acc fuel path opts) IsADirectory a) /\
    (forall opts, refused (operator_reader_options acc path opts) IsADirectory a) /\
    (forall bs opts, refused (operator_write_options acc fuel path bs opts) IsADirectory a) /\
    (forall opts, refused (operator_writer_options acc path opts) IsADirectory a) /\
    (forall other opts, refused (operator_copy_options acc fuel path other opts) IsADirectory a /\
      refused (operator_copy_options acc fuel other path opts) IsADirectory a) /\
    (forall other, refused (operator_rename acc path other) IsADirectory a /\
      refused (operator_rename acc other path) IsADirectory a)) /\
  (ends_with [slash] p = false ->
    refused (operator_create_dir acc path) NotADirectory a /\
    (forall other, normalize_path other = p ->
      (forall opts, refused (operator_copy_options acc fuel path other opts) IsSameFile a) /\
      refused (operator_rename acc path other) IsSameFile a)).
Proof.
  intros p. assert (forall from to, operator_rename acc from to =
    two_files acc "rename" (normalize_path from) (normalize_path to) (a_rename acc (normalize_path from) (normalize_path to)))
    as Hren by done.
  split; intros Hp.
  - unfold operator_read_options, operator_reader_options, operator_write_options, operator_writer_options, read_inner, reader_inner,
      write_inner, writer_inner. simpl. fold p. rewrite Hp. simpl.
    split_and!; intros; try apply refuse_refused.
    + split; apply two_files_refused; fold p; rewrite Hp; [done|apply orb_true_r].
    + rewrite !Hren. split; apply two_files_refused; fold p; rewrite Hp; [done|apply orb_true_r].
  - unfold operator_create_dir. simpl. fold p. rewrite Hp. split; [apply refuse_refused|]. intros other Ho. split.
    + intros opts. apply two_files_refused; [done|]. by rewrite Ho.
    + rewrite Hren. apply two_files_refused; [done|]. by rewrite Ho.
Qed.

End Guards.

(** ** What reaches the service *)

Definition normal_file (p : str) : Prop := normalized p /\ ends_with [slash] p = false.
Definition normal_dir (p : str) : Prop := normalized p /\ ends_with [slash] p = true.

Section Normalized.
  Context {A Rd Wr Ls Dl Cp : Type} `{Read Rd} `{Write (A * Wr)} `{Copy Cp}.
  Implicit Types acc : Access A Rd Wr Ls Dl Cp.

(** Two services with the same answers wherever paths are as documented: they are
    normalized, and files' where the operation is on a file. *)
Record agree acc acc' (D D' : Delete (A * Dl)) : Prop := {
  ag_info : a_info acc = a_info acc';
  ag_create_dir p : normal_dir p -> a_create_dir acc p = a_create_dir acc' p;
  ag_stat p : normalized p -> a_stat acc p = a_stat acc' p;
  ag_read p : normal_file p -> a_read acc p = a_read acc' p;
  ag_write p : normal_file p -> a_write acc p = a_write acc' p;
  ag_list p : normalized p -> a_list acc p = a_list acc' p;
  ag_copy p q : normal_file p -> normal_file q -> p <> q -> a_copy acc p q = a_copy acc' p q;
  ag_rename p q : normal_file p -> normal_file q -> p <> q -> a_rename acc p q = a_rename acc' p q;
  ag_delete : a_delete acc = a_delete acc';
  ag_deleter p : normalized p -> @d_delete _ D p = @d_delete _ D' p;
  ag_close : @d_close _ D = @d_close _ D';
}.

Lemma refuse_agree acc acc' {X} k msg op pairs :
  a_info acc = a_info acc' -> refuse (X := X) acc k msg op pairs = refuse acc' k msg op pairs.
Proof. intros E. unfold refuse. by rewrite E. Qed.

(** The check on a file's path. *)
Lemma check_file_agree acc acc' {X} path k msg op pairs (m m' : M A Error X) :
  a_info acc = a_info acc' -> (normal_file (normalize_path path) -> m = m') ->
  (if negb (validate_path (normalize_path path) FILE) then refuse acc k msg op pairs else m) =
  (if negb (validate_path (normalize_path path) FILE) then refuse acc' k msg op pairs else m').
Proof.
  intros Hi Hm. simpl. destruct (ends_with [slash] (normalize_path path)) eqn:E; simpl.
  - by apply refuse_agree.
  - apply Hm. split; [apply normalized_path|done].
Qed.

Lemma two_files_agree acc acc' {X} op from to (m m' : M A Error X) :
  a_info acc = a_info acc' ->
  (normal_file (normalize_path from) -> normal_file (normalize_path to) -> normalize_path from <> normalize_path to -> m = m') ->
  two_files acc op (normalize_path from) (normalize_path to) m = two_files acc' op (normalize_path from) (normalize_path to) m'.
Proof.
  intros Hi Hm. unfold two_files. apply check_file_agree; [done|]. intros Hf. apply check_file_agree; [done|]. intros Ht.
  case_bool_decide as Heq; [by apply refuse_agree | by apply Hm].
Qed.

Lemma open_writer_agree acc acc' p args opts :
  a_info acc = a_info acc' -> a_write acc p = a_write acc' p -> open_writer acc p args opts = open_writer acc' p args opts.
Proof. intros Hi Hw. unfold open_writer. by rewrite Hi, Hw. Qed.

(** The operator only ever asks about normalized paths, and about files' paths
    where a file is meant: a service that behaves as another one on those, and in
    any way on the rest, cannot be told apart from it. *)
Theorem operator_normalizes acc acc' D D' lnext fuel :
  agree acc acc' D D' ->
  (forall path, operator_create_dir acc path = operator_create_dir acc' path) /\
  (forall path opts, operator_stat_options acc path opts = operator_stat_options acc' path opts) /\
  (forall path, operator_exists acc path = operator_exists acc' path) /\
  (forall path opts, operator_read_options acc fuel path opts = operator_read_options acc' fuel path opts) /\
  (forall path bs opts, operator_write_options acc fuel path bs opts = operator_write_options acc' fuel path bs opts) /\
  (forall path opts, operator_writer_options acc path opts = operator_writer_options acc' path opts) /\
  (forall from to opts, operator_copy_options acc fuel from to opts = operator_copy_options acc' fuel from to opts) /\
  (forall from to, operator_rename acc from to = operator_rename acc' from to) /\
  (forall path opts, @operator_delete_options _ _ _ _ _ _ D acc path opts = @operator_delete_options _ _ _ _ _ _ D' acc' path opts) /\
  (forall path opts, operator_list_options acc lnext fuel path opts = operator_list_options acc' lnext fuel path opts) /\
  operator_check acc lnext = operator_check acc' lnext.
Proof.
  intros [Hi Hcd Hs Hr Hw Hl Hc Hrn Hd Hdl Hcl]. split_and!; intros.
  - unfold operator_create_dir. simpl. destruct (ends_with [slash] (normalize_path path)) eqn:E; simpl.
    + apply Hcd. split; [apply normalized_path|done].
    + by apply refuse_agree.
  - unfold operator_stat_options, stat_inner. by rewrite Hs by apply normalized_path.
  - unfold operator_exists, operator_stat, operator_stat_options, stat_inner. by rewrite Hs by apply normalized_path.
  - apply check_file_agree; [done|]. intros Hf. unfold reader_read, reads_in, stats_in. simpl.
    rewrite Hr, Hs; [done|apply normalized_path|done].
  - apply check_file_agree; [done|]. intros Hf. destruct (write_args opts). by rewrite (open_writer_agree acc acc') by auto.
  - apply check_file_agree; [done|]. intros Hf. destruct (write_args opts). by rewrite (open_writer_agree acc acc') by auto.
  - apply two_files_agree; [done|]. intros Hf1 Hf2 Hne. unfold copier_inner.
    rewrite (two_files_agree acc acc' _ _ _ _ (let '(args, opts) := copy_args opts in
      copier_create acc' (normalize_path from) (normalize_path to) args opts)); [done|done|].
    intros _ _ _. unfold copier_create. simpl. by rewrite Hc by done.
  - apply (two_files_agree acc acc' "rename"); auto.
  - unfold operator_delete_options, delete_inner, with_deleter. by rewrite Hd, Hcl, Hdl by apply normalized_path.
  - unfold operator_list_options, list_inner, lister_inner. by rewrite Hl by apply normalized_path.
  - unfold operator_check, lister_inner. by rewrite Hl by apply normalized_path.
Qed.

End Normalized.

(** ** Witnesses *)

#[local] Instance unit_Write : Write (unit * LogWriter) :=
  {| w_write bs := zoom snd (fun w s => (s.1, w)) (w_write bs); w_close := zoom snd (fun w s => (s.1, w)) w_close;
     w_abort := zoom snd (fun w s => (s.1, w)) w_abort |}.
#[local] Instance unit_Delete : Delete (unit * unit) := {| d_delete _ _ := mret tt; d_close := mret tt |}.
#[local] Instance unit_Copy : Copy unit := {| c_next := mret None; c_close := mret meta_default; c_abort := mret tt |}.

Definition sample_access0 : Access unit Buffer LogWriter unit unit unit := unsupported_access (fun _ => info_default).
(** The same service, but for a path that is not normalized. *)
Definition sample_access1 : Access unit Buffer LogWriter unit unit unit :=
  {| a_info := a_info sample_access0; a_create_dir := a_create_dir sample_access0;
     a_stat p := if bool_decide (p = b "/a") then fun _ => mret meta_default else a_stat sample_access0 p;
     a_read := a_read sample_access0; a_write := a_write sample_access0; a_delete := a_delete sample_access0;
     a_list := a_list sample_access0; a_copy := a_copy sample_access0; a_rename := a_rename sample_access0 |}.

Lemma not_normalized_slash : ~ normalized (b "/a").
Proof. intros Hn. destruct (normalized_no_lead _ Hn) as (x & s & E & Hx); [done|]. vm_compute in E. by simplify_eq. Qed.

Lemma operator_guards_witness :
  refused (operator_read_options sample_access0 9 (b "/a/") read_options_default) IsADirectory tt /\
  refused (operator_create_dir sample_access0 (b "a")) NotADirectory tt.
Proof.
  split.
  - by apply (operator_guards sample_access0 9 (b "/a/") tt).
  - by apply (operator_guards sample_access0 9 (b "a") tt).
Defined.

Lemma operator_normalizes_witness :
  operator_stat_options sample_access0 (b "/a") stat_options_default =
    operator_stat_options sample_access1 (b "/a") stat_options_default /\
  a_stat sample_access0 (b "/a") op_stat tt <> a_stat sample_access1 (b "/a") op_stat tt.
Proof.
  split; [|done].
  apply (operator_normalizes sample_access0 sample_access1 unit_Delete unit_Delete (fun _ => mret None) 9).
  split; try done. intros p Hp. simpl. case_bool_decide; [|done]. subst. by apply not_normalized_slash in Hp.
Defined.
