(* ===== verification/Stack.v ===== *)
(** * The default stack over the memory service ([types/operator/builder.rs],
      [services/memory/backend.rs])

    [OperatorBuilder::new] wraps a service in the error context, simulate,
    complete and correctness check layers.  Here the stack is put together from
    the layers' models and run over the memory service, and the operator's calls
    on it are shown to be the operations of a map from paths to bytes. *)

From S2P Require Import Prelude Errors Path Range Buffer Types Access Context Writers Tasks Listers Deleters Simulate Readers Memory Layers Copiers Streams Operator.
From stdpp Require Import options.

(** ** Handles that share the service's state *)

Section Shared.
  Context {A T : Type}.

(** A wrapped handle with the state of the service, as a wrapper of both. *)
Definition ctx_in (x : A * ErrorContextWrapper T) : ErrorContextWrapper (A * T) :=
  let w := x.2 in mkContext (ec_scheme w) (ec_path w) (x.1, ec_inner w) (ec_range w) (ec_processed w).
Definition ctx_out (y : ErrorContextWrapper (A * T)) (_ : A * ErrorContextWrapper T) : A * ErrorContextWrapper T :=
  ((ec_inner y).1, mkContext (ec_scheme y) (ec_path y) (ec_inner y).2 (ec_range y) (ec_processed y)).

#[global] Instance shared_context_Write `{Write (A * T)} : Write (A * ErrorContextWrapper T) :=
  {| w_write bs := zoom ctx_in ctx_out (w_write bs); w_close := zoom ctx_in ctx_out w_close;
     w_abort := zoom ctx_in ctx_out w_abort |}.
#[global] Instance shared_context_Delete `{Delete (A * T)} : Delete (A * ErrorContextWrapper T) :=
  {| d_delete path args := zoom ctx_in ctx_out (d_delete path args); d_close := zoom ctx_in ctx_out d_close |}.

(** The same for [CompleteWriter], which gives the writer up when it is done. *)
Definition cw_in (x : A * CompleteWriter T) : CompleteWriter (A * T) :=
  let w := x.2 in mkCompleteWriter ((fun t => (x.1, t)) <$> cw_inner w) (cw_append w) (cw_size w) (cw_state w).
Definition cw_out (y : CompleteWriter (A * T)) (x : A * CompleteWriter T) : A * CompleteWriter T :=
  (from_option fst x.1 (cw_inner y), mkCompleteWriter (snd <$> cw_inner y) (cw_append y) (cw_size y) (cw_state y)).
Definition set_handle {H} (w : H) (x : A * H) : A * H := (x.1, w).

#[global] Instance shared_complete_Write `{Write (A * T)} : Write (A * CompleteWriter T) :=
  {| w_write bs := zoom cw_in cw_out (complete_write bs);
     w_close := ret ← zoom cw_in cw_out close_checked; zoom snd set_handle finish_writer;; mret ret;
     w_abort := zoom cw_in cw_out abort_checked;; zoom snd set_handle finish_writer |}.

Definition check_in (x : A * CheckWrapper T) : CheckWrapper (A * T) := mkCheck (chk_info x.2) (x.1, chk_inner x.2).
Definition check_out (y : CheckWrapper (A * T)) (_ : A * CheckWrapper T) : A * CheckWrapper T :=
  ((chk_inner y).1, mkCheck (chk_info y) (chk_inner y).2).
#[global] Instance shared_check_Delete `{Delete (A * T)} : Delete (A * CheckWrapper T) :=
  {| d_delete path args := zoom check_in check_out (d_delete path args); d_close := zoom check_in check_out d_close |}.

End Shared.

(** ** [SimulateLayer] as a layer *)

Section SimulateAccess.
  Context {A Rd Wr Ls Dl Cp : Type} `{List Ls} `{Write (A * Wr)} `{Delete (A * Dl)}.
  Variable config : SimulateLayer.
  Variable inner : Access A Rd Wr Ls Dl Cp.

Definition simulate_layer : Access A Rd Wr (SimulateLister Ls) Dl Cp :=
  {| a_info := a_info inner; a_create_dir := simulate_create_dir config inner; a_stat := simulate_stat config inner;
     a_read := a_read inner; a_write := a_write inner; a_delete := a_delete inner;
     a_list := simulate_list config inner; a_copy := a_copy inner; a_rename := a_rename inner |}.

(** The layer's deleter works on the service as it is at the call. *)
Definition sim_in (x : A * Dl) : SimulateDeleter := mkSimulateDeleter x.1 x.
Definition sim_out (y : SimulateDeleter (A := A) (Dl := A * Dl)) (_ : A * Dl) : A * Dl := sd_deleter y.
Definition simulate_Delete (fuel : nat) : Delete (A * Dl) :=
  {| d_delete path args := zoom sim_in sim_out (simulate_delete config inner fuel path args);
     d_close := zoom sim_in sim_out simulate_deleter_close |}.

End SimulateAccess.

(** ** [OperatorBuilder::new] *)

Section Stack.
  Context {A Rd Wr Ls Dl Cp : Type} `{Read Rd} `{Write (A * Wr)} `{Delete (A * Dl)} `{List Ls}.
  Variable service : Access A Rd Wr Ls Dl Cp.
  Variable fuel : nat.

Definition contextual_access := error_context_layer service.
Definition simulated_access := simulate_layer simulate_default contextual_access.
Definition completed_access := complete_layer simulated_access.
Definition default_stack := correctness_layer completed_access.

Definition stack_Delete : Delete (A * CheckWrapper (ErrorContextWrapper Dl)) :=
  @shared_check_Delete A (ErrorContextWrapper Dl) (simulate_Delete simulate_default contextual_access fuel).

(** [next] of the stack's lister. *)
Definition stack_next (a : A) : M (CompleteLister (SimulateLister (ErrorContextWrapper Ls))) Error (option Entry) :=
  @complete_next _ (sim_next (answers_in contextual_access a) fuel)
    (fun path args => (a_stat simulated_access path args a).1) fuel.

End Stack.

(** ** [MemoryBackend] as an accessor *)

Record MemoryState : Type := mkMemory { ms_info : AccessorInfo; ms_core : MemoryCore }.
Definition set_core (m : MemoryCore) (s : MemoryState) : MemoryState := mkMemory (ms_info s) m.

Definition memory_capability : Capability :=
  {| cap_stat := true; cap_stat_with_if_match := false; cap_stat_with_if_none_match := false;
     cap_stat_with_if_modified_since := false; cap_stat_with_if_unmodified_since := false;
     cap_stat_with_override_cache_control := false; cap_stat_with_override_content_disposition := false;
     cap_stat_with_override_content_type := false; cap_stat_with_version := false; cap_read := true;
     cap_read_with_if_match := false; cap_read_with_if_none_match := false; cap_read_with_if_modified_since := false;
     cap_read_with_if_unmodified_since := false; cap_read_with_override_cache_control := false;
     cap_read_with_override_content_disposition := false; cap_read_with_override_content_type := false;
     cap_read_with_version := false; cap_write := true; cap_write_can_multi := false; cap_write_can_empty := true;
     cap_write_can_append := false; cap_write_with_content_type := true; cap_write_with_content_disposition := true;
     cap_write_with_content_encoding := true; cap_write_with_cache_control := true; cap_write_with_if_match := false;
     cap_write_with_if_none_match := false; cap_write_with_if_not_exists := true;
     cap_write_with_user_metadata := false; cap_write_multi_max_size := None; cap_write_multi_min_size := None;
     cap_write_total_max_size := None; cap_create_dir := false; cap_delete := true; cap_delete_with_version := false;
     cap_delete_with_recursive := false; cap_delete_max_size := None; cap_copy := false;
     cap_copy_with_if_not_exists := false; cap_copy_with_if_match := false; cap_copy_can_multi := false;
     cap_copy_multi_max_size := None; cap_copy_multi_min_size := None; cap_rename := false; cap_list := true;
     cap_list_with_limit := false; cap_list_with_start_after := false; cap_list_with_recursive := true;
     cap_list_with_versions := false; cap_list_with_deleted := false; cap_presign := false;
     cap_presign_read := false; cap_presign_stat := false; cap_presign_write := false; cap_presign_delete := false;
     cap_shared := false |}.

Definition MEMORY_SCHEME : str := b "memory".
(** The name is the address of the store. *)
Definition memory_info (root name : str) : AccessorInfo :=
  set_root root (set_native_capability memory_capability (set_name name (set_scheme MEMORY_SCHEME info_default))).

(** A deleter knows the root, the store is shared. *)
Record MemoryDeleter : Type := mkMemDeleter { md_root : str }.

#[export] Instance shared_memory_Write : Write (MemoryState * MemoryWriter) :=
  let core_in x := (ms_core x.1, x.2) in
  let core_out y x := (set_core y.1 x.1, y.2) in
  {| w_write bs := zoom core_in core_out (w_write bs); w_close := zoom core_in core_out w_close;
     w_abort := zoom core_in core_out w_abort |}.
#[export] Instance shared_memory_Delete : Delete (MemoryState * MemoryDeleter) :=
  let core_in x := mkOneShotDeleter (ms_core x.1) in
  let core_out y x := (set_core (osd_inner y) x.1, x.2) in
  {| d_delete path args := fun x =>
       zoom core_in core_out (@one_shot_delete _ (mem_delete_once (md_root x.2)) path args) x;
     d_close := zoom core_in core_out one_shot_delete_close |}.

Definition memory_access (root : str) :
  Access MemoryState Buffer MemoryWriter (HierarchyLister MemoryLister) MemoryDeleter unit :=
  {| a_info := ms_info; a_create_dir _ := throw not_supported;
     a_stat path args := s ← get; lift (mem_stat root path args (ms_core s));
     a_read path args := s ← get; lift (mem_read root path args (ms_core s));
     a_write path args := lift (mem_write root path args);
     a_delete := mret (mkMemDeleter root);
     a_list path args := s ← get; lift (mem_list root path args (ms_core s));
     a_copy _ _ _ _ := throw not_supported; a_rename _ _ := throw not_supported |}.

(** Without a chunk size the generator passes buffers on. *)
Lemma whole_write {W} `{Write W} bs (w w' : W) exact f :
  wf bs -> is_empty bs = false -> w_write bs w = (Ok tt, w') ->
  writer_write (S (S f)) bs (gen_new w None exact) = Some (Ok tt, gen_new w' None exact).
Proof.
  intros Hb He E. destruct (advance_ok bs (blen bs) Hb) as (bs' & Ea & Hb' & Hc'); [lia|].
  assert (is_empty bs' = true) as He'.
  { apply bool_decide_eq_true. rewrite <- contents_length, Hc', length_drop, contents_length by done. lia. }
  cbn [writer_write]. rewrite He. unfold gen_write, forward, mbind, M_bind, get, zoom. simpl. rewrite E.
  unfold mret, M_ret. rewrite Ea. by rewrite He'.
Qed.

Lemma whole_close {W} `{Write W} (w : W) exact :
  gen_close (gen_new w None exact) = let '(r, w') := w_close w in (r, gen_new w' None exact).
Proof. unfold gen_close, mbind, M_bind. cbn. unfold zoom. simpl. by destruct (w_close w). Qed.

(** ** The contract: a map from paths to bytes *)

Abbreviation files := (gmap (list ascii) bytes).

Inductive fs_call : Type :=
  | FWrite (path : str) (bs : Buffer)
  | FRead (path : str) (range : BytesRange)
  | FStat (path : str)
  | FExists (path : str)
  | FCreateDir (path : str)
  | FDelete (path : str).

(** What a caller sees: the mode and the length of a metadata, the bytes read,
    the kind of an error. *)
Inductive fs_answer : Type :=
  | AUnit | AMeta (mode : EntryMode) (len : Z) | ABytes (bs : bytes) | ABool (x : bool) | AFail (k : ErrorKind) | APanic.

Definition in_range (range : BytesRange) (data : bytes) : bool :=
  match Range.size range with
  | Some n => bool_decide (Range.offset range + n <= Z.of_nat (length data))%Z
  | None => true
  end.

(** A directory is there when something is stored below it. *)
Definition stat_spec (p : str) (fs : files) : fs_answer :=
  if bool_decide (p = [slash]) then AMeta DIR 0
  else if ends_with [slash] p then
    if existsb (fun kv => starts_with p kv.1) (map_to_list fs) then AMeta DIR 0 else AFail NotFound
  else match fs !! p with Some data => AMeta FILE (Z.of_nat (length data)) | None => AFail NotFound end.

Definition fs_step (c : fs_call) (fs : files) : fs_answer * files :=
  match c with
  | FWrite path bs =>
      let p := normalize_path path in
      if ends_with [slash] p then (AFail IsADirectory, fs)
      else (AMeta FILE (Z.of_nat (blen bs)), <[p := contents bs]> fs)
  | FRead path range =>
      let p := normalize_path path in
      (if ends_with [slash] p then AFail IsADirectory
       else if bool_decide (Range.size range = Some 0%Z) then ABytes []
       else match fs !! p with
            | None => AFail NotFound
            | Some data => if in_range range data then ABytes (sub data range) else AFail Unexpected
            end, fs)
  | FStat path => (stat_spec (normalize_path path) fs, fs)
  | FExists path =>
      (match stat_spec (normalize_path path) fs with AFail NotFound => ABool false | _ => ABool true end, fs)
  | FCreateDir path =>
      let p := normalize_path path in
      if ends_with [slash] p then (AUnit, <[p := []]> fs) else (AFail NotADirectory, fs)
  | FDelete path => (AUnit, delete (normalize_path path) fs)
  end.

(** Machine-sized arguments, strings that are valid UTF-8 at their start, and no
    [create_dir] of the root itself. *)
Definition fs_call_ok (c : fs_call) : Prop :=
  match c with
  | FWrite path bs => starts_char (normalize_path path) /\ wf bs /\ (Z.of_nat (blen bs) <= u64_max)%Z
  | FRead path range => starts_char (normalize_path path) /\
      (0 <= Range.offset range <= u64_max)%Z /\
      match Range.size range with Some n => (0 <= n /\ Range.offset range + n <= u64_max)%Z | None => True end
  | FStat path | FExists path | FDelete path => starts_char (normalize_path path)
  | FCreateDir path => starts_char (normalize_path path) /\ normalize_path path <> [slash]
  end.

(** ** The operator on the stack *)

Section MemoryStack.
  Context (root name : str) (fuel : nat).
  Hypotheses (root_ok : normalized_root root) (root_char : starts_char (tail root)) (enough : 4 <= fuel).

#[local] Set Default Proof Using "All".

#[local] Instance memory_List : List (HierarchyLister MemoryLister) := hierarchy_next fuel.
#[local] Instance memory_Delete : Delete (MemoryState * CheckWrapper (ErrorContextWrapper MemoryDeleter)) :=
  stack_Delete (memory_access root) fuel.

(** The layers tell the shared capability what they simulate. *)
Definition stacked_info : AccessorInfo :=
  update_full_capability (simulate_capability simulate_default) (memory_info root name).
Definition memory_stack := default_stack (memory_access root).

(** A path below the root, as the operator passes it on. *)
Definition entry_path (p : str) : Prop := normalized p /\ p <> [slash] /\ starts_char p.
Definition key_of (p : str) : str := tail root ++ p.

(** What holds between calls. *)
Definition stack_ok (a : MemoryState) : Prop :=
  ms_info a = stacked_info /\ core_wf (ms_core a) /\
  map_Forall (fun k v => (Z.of_nat (blen (mv_content v)) <= u64_max)%Z /\ m_mode (mv_metadata v) = FILE /\
    exists p, entry_path p /\ k = key_of p) (ms_core a).

Lemma abs_path p : p <> [slash] -> build_abs_path root p = Ok (key_of p).
Proof.
  intros Hp. destruct (normalized_root_shape root root_ok) as (r & Er & _). unfold build_abs_path, key_of.
  rewrite bool_decide_eq_false_2 by done. rewrite Er. rewrite Er in root_char. simpl in *.
  by rewrite (slice_from_app [slash] r) by done.
Qed.
Lemma abs_root : build_abs_path root [slash] = Ok (tail root).
Proof.
  destruct (normalized_root_shape root root_ok) as (r & Er & _). unfold build_abs_path.
  rewrite bool_decide_eq_true_2 by done. rewrite Er. rewrite Er in root_char. simpl in *.
  by rewrite (slice_from_app [slash] r) by done.
Qed.

#[local] Instance key_of_inj : Inj (=) (=) key_of.
Proof. intros p q. apply app_inv_head. Qed.

(** *** Reading *)

Lemma context_serves {R} `{Read R} strict (r : R) bs n sc path range pr :
  Serves read_buf strict r bs n -> printable range ->
  Serves read_buf strict (mkContext sc path r range pr) bs n.
Proof.
  intros Hs Hr. apply range_pair_some in Hr as [rg Hrg]. revert pr.
  induction Hs as [r buf r' E Hb Hz|r buf r' bs n E Hb Hz Hs IH|r e r' bs n Hst E]; intros pr.
  - eapply Serves_end; [|done|done]. unfold read_buf at 1, Context_Read, context_read, contextual. simpl. by rewrite E.
  - eapply Serves_more; [|done|done|]; [|apply IH].
    unfold read_buf at 1, Context_Read, context_read, contextual. simpl. by rewrite E.
  - eapply Serves_fail; [done|]. unfold read_buf at 1, Context_Read, context_read, contextual. simpl.
    rewrite E, Hrg. done.
Qed.

(** The request a reader makes, through the stack. *)
Lemma stack_read a p args :
  stack_ok a -> entry_path p -> printable (read_range args) ->
  read_version args = None -> read_if_match args = None -> read_if_none_match args = None ->
  read_if_modified_since args = None -> read_if_unmodified_since args = None ->
  reads_in memory_stack a p args =
  match mem_read root p args (ms_core a) with
  | Ok (rp, buf) => Ok (rp, complete_reader_new
      (mkContext MEMORY_SCHEME p buf (read_range args) 0) (Range.size (read_range args)))
  | Err e => map_context ORead MEMORY_SCHEME (rg ← range_pair (read_range args); Some [(b "path", p); rg]) (Err e)
  | Panic => Panic
  end.
Proof.
  intros (Hi & _) _ _ H1 H2 H3 H4 H5.
  unfold reads_in, memory_stack, default_stack, correctness_layer, checked_read. simpl.
  unfold mbind, M_bind, gets. simpl. rewrite H1, H2, H3, H4, H5. unfold is_some. simpl.
  rewrite !andb_false_r. simpl.
  unfold complete_access_read, mbind, M_bind, mret, M_ret. simpl. unfold accessing, mbind, M_bind, get, lift. simpl.
  rewrite Hi. destruct (mem_read root p args (ms_core a)) as [[rp buf]|e|]; [done| |done]. simpl.
  by destruct (option_bind _ _ _ _).
Qed.

(** What reading a range of a stored object answers. *)
Definition ranged (range : BytesRange) : ReadOptions :=
  mkReadOptions range None None None None None None 0 None None None None None.
Definition range_ok (range : BytesRange) : Prop :=
  (0 <= Range.offset range <= u64_max)%Z /\
  match Range.size range with Some n => (0 <= n /\ Range.offset range + n <= u64_max)%Z | None => True end.

Lemma range_ok_printable range : range_ok range -> Range.size range <> Some 0%Z -> printable range.
Proof.
  destruct range as [off [n|]]; intros [Ho Hn] Hz; unfold printable, show_range; simpl in *; [|by eexists].
  rewrite bool_decide_eq_false_2 by naive_solver. unfold checked_add.
  rewrite bool_decide_eq_true_2 by (unfold is_u64; lia). by eexists.
Qed.

(** Reading a stream of the object through the checks. *)
Lemma stack_read_all a p range n :
  stack_ok a -> entry_path p -> range_ok range -> Range.size range <> Some 0%Z ->
  match abstract (ms_core a) !! key_of p,
    ('(_, r) ← reads_in memory_stack a p (read_with_range range op_read); (read_all (S (S n)) r).1) with
  | Some data, Ok buf => contents buf = sub data range /\
      from_option (fun k => Range.offset range + k <= Z.of_nat (length data))%Z True (Range.size range)
  | Some data, Err e => kind e = Unexpected /\
      from_option (fun k => Z.of_nat (length data) < Range.offset range + k)%Z False (Range.size range)
  | None, Err e => kind e = NotFound
  | _, _ => False
  end.
Proof.
  intros Hok Hp Hr Hz. pose proof Hok as (Hi & Hwf & Hall). pose proof (range_ok_printable _ Hr Hz) as Hpr.
  rewrite stack_read by done. destruct Hr as [Ho Hn].
  pose proof (mem_read_ok root p (read_with_range range op_read) (ms_core a) (key_of p)) as Hm. simpl in Hm.
  rewrite abstract_lookup. unfold spec_read in Hm. rewrite abstract_lookup in Hm.
  specialize (Hm (abs_path p ltac:(apply Hp)) Hwf ltac:(lia)).
  assert (from_option (fun k => 0 <= k)%Z True (Range.size range)) as Hs by (destruct (Range.size range); simpl; lia).
  specialize (Hm Hs). destruct (ms_core a !! key_of p) as [v|] eqn:Hv; simpl in *.
  2: { rewrite Hm by done. apply range_pair_some in Hpr as [[k0 v0] ->]. done. }
  destruct (Hall _ _ Hv) as (Hlen & _). destruct Hm as (meta & buf & -> & Hb & Hc & _); [by intros ? [= <-]|]. simpl.
  destruct (Buffer_serves buf Hb) as (k & Hk & Hserve).
  apply (context_serves true buf _ _ MEMORY_SCHEME p range 0) in Hserve; [|done]. rewrite Hc in Hserve.
  destruct (Hwf _ _ Hv) as [Hvb _]. pose proof (contents_length _ Hvb) as HL.
  set (data := contents (mv_content v)) in *.
  assert (Z.of_nat (length (sub data range)) <= u64_max)%Z as Hsub.
  { unfold sub. destruct (Range.size range); rewrite ?length_take, length_drop; lia. }
  set (fits := match Range.size range with Some k => (Range.offset range + k <= Z.of_nat (length data))%Z | None => True end).
  assert (Decision fits) as Hdec by (unfold fits; destruct (Range.size range); apply _).
  assert (forall k, Range.size range = Some k -> fits <-> k = (0 + Z.of_nat (length (sub data range)))%Z) as Hfit.
  { intros k0 Ek. unfold fits, sub. rewrite Ek in *. rewrite length_take, length_drop. destruct Hn.
    assert (k0 <> 0)%Z by congruence. lia. }
  destruct (decide fits) as [Hf|Hf].
  - pose proof (read_all_ok true (complete_reader_new (mkContext MEMORY_SCHEME p buf range 0) (Range.size range))
      (sub data range) k (S (S n))) as Ha.
    assert (Serves complete_read true (complete_reader_new (mkContext MEMORY_SCHEME p buf range 0) (Range.size range))
      (sub data range) k) as Hcs.
    { apply complete_read_serves; [done|lia|lia|]. destruct (Range.size range) as [k0|]; [right|by left].
      f_equal. by apply Hfit. }
    specialize (Ha Hcs ltac:(lia)). destruct (read_all _ _).1; [|done|done]. split; [apply Ha|].
    unfold fits in Hf. by destruct (Range.size range).
  - destruct (Range.size range) as [k0|] eqn:Ek; [|done].
    destruct (complete_read_detects (mkContext MEMORY_SCHEME p buf range 0) (sub data range) k k0 0 (S (S n)) [])
      as (e & s & E & He); [done|lia|lia| |lia|].
    { intros Heq. apply Hf. by apply (Hfit k0). }
    unfold read_all. unfold complete_reader_new. change (@read_buf _ CompleteReader_Read) with (@complete_read (ErrorContextWrapper Buffer) _).
    rewrite E. simpl. split; [done|]. unfold fits in Hf. lia.
Qed.

(** *** Writing *)

Abbreviation StackWriter := (CompleteWriter (ErrorContextWrapper MemoryWriter)).

(** A writer of the stack, opened for a key. *)
Definition opened_writer (p key : str) (op : OpWrite) (q : option QueueBuf) (n pr : Z) (st : CompleteState) : StackWriter :=
  mkCompleteWriter (Some (mkContext MEMORY_SCHEME p (mkMemWriter key op q) (mkRange 0 None) pr)) false n st.

Lemma stack_open a p args :
  stack_ok a -> p <> [slash] -> write_append args = false -> write_if_match args = None ->
  write_if_none_match args = None ->
  a_write memory_stack p args a = (Ok (opened_writer p (key_of p) args None 0 0 SOpen), a).
Proof.
  intros (Hi & _) Hp H1 H2 H3. unfold memory_stack, default_stack, correctness_layer, checked_write. simpl.
  unfold mbind, M_bind, gets. simpl. rewrite H1, H2, H3, Hi. simpl. rewrite andb_false_r. simpl.
  unfold complete_access_write, mbind, M_bind, mret, M_ret. simpl. unfold accessing, lift, mem_write. simpl.
  rewrite abs_path by done. simpl. by rewrite Hi, H1.
Qed.

Lemma stack_write_push a p key op q n pr st bs :
  exists pr' st', w_write bs (a, opened_writer p key op q n pr st) =
    (Ok tt, (a, opened_writer p key op (Some (qpush (default [] q) bs)) (wrap64 (n + Z.of_nat (blen bs))) pr' st')).
Proof. destruct a. by do 2 eexists. Qed.

(** Closing stores the object. *)
Lemma memory_close a key op q buf :
  qcollect (default [] q) = Ok buf -> write_if_not_exists op = false ->
  let meta := value_metadata op (Z.of_nat (blen buf)) in
  w_close (a, mkMemWriter key op q) =
    (Ok meta, (set_core (<[key := mkValue meta buf]> (ms_core a)) a, mkMemWriter key op None)).
Proof.
  intros Hq Hnx. unfold w_close. simpl. unfold mem_writer_close, mbind, M_bind, get, modify, lift, zoom, mret, M_ret. simpl.
  by rewrite Hq, Hnx.
Qed.

Lemma context_close_ok `{Write (MemoryState * MemoryWriter)} a w sc path range pr meta a' w' :
  w_close (a, w) = (Ok meta, (a', w')) ->
  exists pr', w_close (a, mkContext sc path w range pr) = (Ok meta, (a', mkContext sc path w' range pr')).
Proof.
  intros E. eexists. unfold w_close. simpl. unfold zoom, context_close, contextual. simpl. rewrite E. done.
Qed.

Lemma complete_close_ok `{Write (MemoryState * ErrorContextWrapper MemoryWriter)} a w n st meta a' w' :
  w_close (a, w) = (Ok meta, (a', w')) -> m_content_length meta = Some n ->
  exists cw', w_close (a, mkCompleteWriter (Some w) false n st) = (Ok meta, (a', cw')).
Proof.
  intros E Hn. eexists. unfold w_close. simpl. unfold zoom, mbind, M_bind, close_checked, with_inner, mbind, M_bind. simpl.
  rewrite E. simpl. assert (content_length meta = n) as -> by (unfold content_length; by rewrite Hn).
  unfold get. simpl. assert (writer_check (mkCompleteWriter (Some (a', w')) false n st) n = Ok tt) as ->.
  { unfold writer_check. simpl. case_bool_decide; [done|]. by rewrite Z.compare_refl. }
  simpl. unfold mret, M_ret. simpl. assert (set_content_length n meta = meta) as -> by (destruct meta; simpl in *; by subst).
  by destruct (bool_decide _).
Qed.

Lemma stack_write_close a p key op q n pr st :
  qwf (default [] q) -> write_if_not_exists op = false -> n = Z.of_nat (length (qcontents (default [] q))) ->
  exists buf w', wf buf /\ contents buf = qcontents (default [] q) /\
    w_close (a, opened_writer p key op q n pr st) =
    (Ok (value_metadata op n), (set_core (<[key := mkValue (value_metadata op n) buf]> (ms_core a)) a, w')).
Proof.
  intros Hq Hnx ->. destruct (qcollect_ok _ Hq) as (buf & Ec & Hb & Hcon).
  pose proof (memory_close a key op q buf Ec Hnx) as Em. cbv zeta in Em.
  rewrite <- Hcon, contents_length by done. rewrite <- contents_length in Em by done.
  rewrite contents_length in Em by done.
  destruct (context_close_ok a _ MEMORY_SCHEME p (mkRange 0 None) pr _ _ _ Em) as [pr' Ex].
  destruct (complete_close_ok a _ (Z.of_nat (blen buf)) st _ _ _ Ex) as [w' Ew]; [apply value_metadata_length|].
  exists buf, w'. split_and!; [done|done|]. exact Ew.
Qed.

(** Writing a whole object: it is stored, and nothing else changes. *)
Lemma stack_put a p bs :
  stack_ok a -> entry_path p -> wf bs -> (Z.of_nat (blen bs) <= u64_max)%Z ->
  let op := (write_args write_options_default).1 in
  exists buf, wf buf /\ contents buf = contents bs /\
    let meta := value_metadata op (Z.of_nat (blen bs)) in
    (g ← open_writer memory_stack p op (mkOpWriter None); write_all fuel bs g) a =
    (Ok meta, set_core (<[key_of p := mkValue meta buf]> (ms_core a)) a).
Proof.
  intros Hok Hp Hb Hlen op. pose proof Hok as (Hi & _). unfold open_writer, mbind at 1, M_bind at 1.
  unfold mbind at 1, M_bind at 1, gets at 1.
  assert (calculate_chunk_size (full_capability (a_info memory_stack a)) (mkOpWriter None) = (None, false)) as ->.
  { change (a_info memory_stack a) with (ms_info a). rewrite Hi. done. }
  unfold mbind at 1, M_bind at 1. rewrite stack_open by (done || apply Hp).
  unfold mbind at 1, M_bind at 1, get at 1.
  unfold mret, M_ret. cbv zeta. unfold write_all.
  assert (exists f, fuel = S (S f)) as [f Hf] by (exists (fuel - 2); lia). rewrite Hf. destruct (is_empty bs) eqn:Ee.
  - assert (blen bs = 0) as Hz by (by apply bool_decide_eq_true in Ee). cbn [writer_write]. rewrite Ee, whole_close, Hz.
    destruct (stack_write_close a p (key_of p) op None 0 0 SOpen) as (buf & w' & Hbuf & Hc & ->); [by apply qwf_nil|done|done|].
    exists buf. split_and!; [done| |done]. rewrite Hc. symmetry. apply nil_length_inv. by rewrite contents_length.
  - destruct (stack_write_push a p (key_of p) op None 0 0 SOpen bs) as (pr' & st' & E).
    rewrite (whole_write _ _ _ _ _ Hb Ee E), whole_close. rewrite wrap64_id by (unfold is_u64; lia).
    destruct (qpush_spec [] bs qwf_nil Hb) as [Hq Hqc].
    destruct (stack_write_close a p (key_of p) op (Some (qpush [] bs)) (Z.of_nat (blen bs)) pr' st')
      as (buf & w' & Hbuf & Hc & Ew); [done|done| |].
    { simpl. rewrite Hqc. simpl. by rewrite contents_length. }
    exists buf. split_and!; [done| |].
    + rewrite Hc. simpl. by rewrite Hqc.
    + simpl default. rewrite Z.add_0_l. by rewrite Ew.
Qed.

(** *** Metadata *)

Lemma stack_stat_file a p :
  stack_ok a -> entry_path p -> ends_with [slash] p = false ->
  a_stat memory_stack p op_stat a =
  (match ms_core a !! key_of p with
   | Some v => Ok (mv_metadata v)
   | None => Err (in_context OStat MEMORY_SCHEME [(b "path", p)] memory_not_found)
   end, a).
Proof.
  intros (Hi & _ & Hall) (Hn & Hp & Hc) He.
  unfold memory_stack, default_stack, correctness_layer, checked_stat. simpl. unfold mbind, M_bind, gets. simpl.
  rewrite !andb_false_r. simpl. unfold simulate_stat, mbind, M_bind, gets. simpl.
  rewrite bool_decide_eq_false_2 by done. rewrite He. simpl. unfold accessing, mbind, M_bind, get, lift. simpl.
  unfold mem_stat. rewrite (abs_path p), (abs_path []) by done. simpl.
  rewrite bool_decide_eq_false_2.
  2: { unfold key_of. rewrite app_nil_r. intros Hx. destruct (normalized_no_lead p Hn Hp) as (c & p' & -> & _).
       apply (f_equal length) in Hx. rewrite length_app in Hx. simpl in Hx. lia. }
  rewrite Hi. unfold core_get. by destruct (ms_core a !! key_of p).
Qed.

Lemma stack_stat_root a : a_stat memory_stack [slash] op_stat a = (Ok (meta_new DIR), a).
Proof.
  unfold memory_stack, default_stack, correctness_layer, checked_stat. simpl. unfold mbind, M_bind, gets. simpl.
  by rewrite !andb_false_r.
Qed.

(** The entry of a stored key. *)
Lemma stored_entry p : entry_path p -> exists e, key_entry root (key_of p) = Ok e.
Proof.
  intros (Hn & Hp & Hc). unfold key_entry.
  pose proof (proj1 (rel_path_of_abs root p root_ok root_char Hn Hp Hc)) as Hr. rewrite abs_path in Hr by done.
  simpl in Hr. rewrite Hr. simpl. by eexists.
Qed.

Lemma stack_stat_dir a p :
  stack_ok a -> entry_path p -> ends_with [slash] p = true ->
  a_stat memory_stack p op_stat a =
  (if bool_decide (filter (fun k => starts_with (key_of p) k = true) (sorted_keys (ms_core a)) = [])
   then Err (error NotFound "the directory is not found") else Ok (meta_new DIR), a).
Proof.
  intros (Hi & _ & Hall) (Hn & Hp & Hc) He.
  unfold memory_stack, default_stack, correctness_layer, checked_stat. simpl. unfold mbind, M_bind, gets. simpl.
  rewrite !andb_false_r. simpl. unfold simulate_stat, mbind, M_bind, gets. simpl.
  rewrite bool_decide_eq_false_2 by done. rewrite He, Hi. simpl. unfold accessing, mbind, M_bind, get, lift. simpl.
  unfold mem_list. rewrite abs_path by done. simpl. rewrite core_scan_filter.
  set (keys := filter _ _).
  assert (forall k, k ∈ keys -> exists e, key_entry root k = Ok e) as Hkeys.
  { intros k [_ Hk]%list_elem_of_filter. apply elem_sorted_keys in Hk as [v Hv].
    destruct (Hall _ _ Hv) as (_ & _ & q & Hq & ->). by apply stored_entry. }
  clearbody keys. assert (exists f, fuel = S f) as [f Hf] by (exists (fuel - 1); lia).
  unfold list_next, Context_List, context_next, contextual, list_next, memory_List. rewrite Hf. simpl.
  destruct keys as [|k keys]; [done|]. destruct (Hkeys k) as [e Hke]; [by left|].
  simpl. by rewrite Hke.
Qed.

(** *** Deleting and creating directories *)

Lemma stack_delete a p k :
  stack_ok a -> build_abs_path root p = Ok k ->
  delete_inner memory_stack p delete_options_default a = (Ok tt, set_core (delete k (ms_core a)) a).
Proof.
  intros (Hi & _) Hk. unfold delete_inner, with_deleter, mbind, M_bind, get, put, lift.
  unfold memory_stack, default_stack, correctness_layer, checked_delete. simpl.
  unfold mbind, M_bind, gets, mret, M_ret. simpl. unfold accessing, mret, M_ret. simpl.
  unfold wrapper_delete, check_delete, zoom, mbind, M_bind, get, lift. simpl. unfold zoom. simpl.
  unfold simulate_delete, simulate_deleter_close, mbind, M_bind, get, zoom. simpl.
  unfold context_delete, contextual, zoom. simpl. unfold one_shot_delete, delete_one, zoom, mem_delete_once,
    core_delete, mbind, M_bind, lift, modify. simpl. rewrite Hk. done.
Qed.

Lemma stack_create_dir a p :
  stack_ok a -> entry_path p ->
  exists buf, wf buf /\ contents buf = [] /\
  a_create_dir memory_stack p a =
    (Ok tt, set_core (<[key_of p := mkValue (value_metadata op_write 0) buf]> (ms_core a)) a).
Proof.
  intros (Hi & _) (Hn & Hp & Hc). unfold memory_stack, default_stack, correctness_layer. simpl.
  unfold simulate_create_dir, mbind, M_bind, gets. simpl. rewrite Hi. simpl.
  unfold accessing, lift, mem_write. simpl. rewrite abs_path by done. simpl.
  by exists Buffer.new.
Qed.

(** *** Refinement *)

Definition view_unit {X} (r : result X) : fs_answer :=
  match r with Ok _ => AUnit | Err e => AFail (kind e) | Panic => APanic end.
Definition view_meta (r : result Metadata) : fs_answer :=
  match r with Ok m => AMeta (m_mode m) (content_length m) | Err e => AFail (kind e) | Panic => APanic end.
Definition view_bytes (r : result Buffer) : fs_answer :=
  match r with Ok buf => ABytes (contents buf) | Err e => AFail (kind e) | Panic => APanic end.
Definition view_bool (r : result bool) : fs_answer :=
  match r with Ok x => ABool x | Err e => AFail (kind e) | Panic => APanic end.

(** The call on the operator. *)
Definition run_op (c : fs_call) (a : MemoryState) : fs_answer * MemoryState :=
  match c with
  | FWrite path bs => let '(r, a) := operator_write memory_stack fuel path bs a in (view_meta r, a)
  | FRead path range => let '(r, a) := operator_read_options memory_stack fuel path (ranged range) a in (view_bytes r, a)
  | FStat path => let '(r, a) := operator_stat memory_stack path a in (view_meta r, a)
  | FExists path => let '(r, a) := operator_exists memory_stack path a in (view_bool r, a)
  | FCreateDir path => let '(r, a) := operator_create_dir memory_stack path a in (view_unit r, a)
  | FDelete path => let '(r, a) := operator_delete memory_stack path a in (view_unit r, a)
  end.

Fixpoint run_ops (cs : list fs_call) (a : MemoryState) : list fs_answer :=
  match cs with [] => [] | c :: cs => let '(x, a) := run_op c a in x :: run_ops cs a end.
Fixpoint fs_steps (cs : list fs_call) (fs : files) : list fs_answer :=
  match cs with [] => [] | c :: cs => let '(x, fs) := fs_step c fs in x :: fs_steps cs fs end.

(** The store holds the files under their keys. *)
Definition represents (a : MemoryState) (fs : files) : Prop :=
  stack_ok a /\ abstract (ms_core a) = kmap key_of fs.

Lemma represents_lookup a fs p :
  represents a fs -> abstract (ms_core a) !! key_of p = fs !! p.
Proof. intros [_ ->]. apply lookup_kmap, _. Qed.

(** A file path of the operator. *)
Lemma file_entry_path path :
  ends_with [slash] (normalize_path path) = false -> starts_char (normalize_path path) -> entry_path (normalize_path path).
Proof.
  intros He Hc. split_and!; [apply normalized_path| |done]. intros Hp. rewrite Hp in He. by vm_compute in He.
Qed.

(** Storing a value keeps the representation. *)
Lemma represents_insert a fs p op buf data :
  represents a fs -> entry_path p -> wf buf -> contents buf = data -> (Z.of_nat (length data) <= u64_max)%Z ->
  m_mode (value_metadata op (Z.of_nat (length data))) = FILE ->
  represents (set_core (<[key_of p := mkValue (value_metadata op (Z.of_nat (length data))) buf]> (ms_core a)) a)
    (<[p := data]> fs).
Proof.
  intros [(Hi & Hwf & Hall) Ha] Hp Hb Hc Hlen Hm. pose proof (contents_length _ Hb) as HL. rewrite Hc in HL. split.
  - split_and!; simpl; [done| |].
    + apply map_Forall_insert_2; [|done]. simpl. split; [done|]. rewrite value_metadata_length. by rewrite HL.
    + apply map_Forall_insert_2; [|done]. simpl. split_and!; [lia|done|by exists p].
  - simpl. unfold abstract in *. rewrite fmap_insert, Ha. simpl. rewrite Hc. symmetry. apply kmap_insert, _.
Qed.

Lemma represents_delete a fs p :
  represents a fs -> represents (set_core (delete (key_of p) (ms_core a)) a) (delete p fs).
Proof.
  intros [(Hi & Hwf & Hall) Ha]. split.
  - split_and!; simpl; [done|by apply map_Forall_delete|by apply map_Forall_delete].
  - simpl. unfold abstract in *. rewrite fmap_delete, Ha. symmetry. apply kmap_delete, _.
Qed.

Lemma value_metadata_mode op len : m_mode (value_metadata op len) = FILE.
Proof.
  unfold value_metadata.
  by destruct (write_content_encoding op), (write_content_type op), (write_content_disposition op),
    (write_cache_control op).
Qed.

Definition refines_step (c : fs_call) : Prop := forall a fs, represents a fs -> fs_call_ok c ->
  exists a', run_op c a = ((fs_step c fs).1, a') /\ represents a' (fs_step c fs).2.

Lemma write_step path bs : refines_step (FWrite path bs).
Proof.
  intros a fs Hr (Hc & Hb & Hlen). unfold run_op, fs_step, operator_write, operator_write_options, write_inner.
  set (p := normalize_path path) in *. unfold validate_path. destruct (ends_with [slash] p) eqn:He; cbn [negb].
  - unfold refuse, mbind, M_bind, gets, throw. exists a. split; [reflexivity|exact Hr].
  - pose proof (file_entry_path path He Hc) as Hp. fold p in Hp.
    destruct (stack_put a p bs (proj1 Hr) Hp Hb Hlen) as (buf & Hbuf & Hcon & E). cbv zeta in E.
    pose proof (contents_length _ Hb) as HL. unfold write_args in *. cbn [fst wo_chunk write_options_default] in *.
    rewrite E. eexists. split.
    + done.
    + rewrite <- HL. apply represents_insert; try done. by rewrite HL.
Qed.

Lemma create_dir_step path : refines_step (FCreateDir path).
Proof.
  intros a fs Hr (Hc & Hroot). unfold run_op, fs_step, operator_create_dir.
  set (p := normalize_path path) in *. unfold validate_path. destruct (ends_with [slash] p) eqn:He; cbn [negb].
  - assert (entry_path p) as Hp by (split_and!; [apply normalized_path|done|done]).
    destruct (stack_create_dir a p (proj1 Hr) Hp) as (buf & Hb & Hcon & ->). eexists. split; [done|].
    apply (represents_insert a fs p op_write buf []); try done; simpl; unfold u64_max; lia.
  - unfold refuse, mbind, M_bind, gets, throw. exists a. split; [reflexivity|exact Hr].
Qed.

(** No object is stored at the root. *)
Lemma root_free a fs : represents a fs -> ms_core a !! tail root = None /\ fs !! [slash] = None.
Proof.
  intros Hr. pose proof Hr as [(Hi & Hwf & Hall) Ha]. split.
  - apply eq_None_not_Some. intros [v Hv]. destruct (Hall _ _ Hv) as (_ & _ & q & (Hn & Hq & _) & Hk).
    destruct (normalized_no_lead q Hn Hq) as (c & q' & -> & _). apply (f_equal length) in Hk. unfold key_of in Hk.
    rewrite length_app in Hk. simpl in Hk. lia.
  - rewrite <- (represents_lookup a fs [slash] Hr), abstract_lookup.
    destruct (ms_core a !! key_of [slash]) as [v|] eqn:Hv; [|done].
    destruct (Hall _ _ Hv) as (_ & _ & q & (Hn & Hq & _) & Hk). by apply key_of_inj in Hk as <-.
Qed.

Lemma delete_step path : refines_step (FDelete path).
Proof.
  intros a fs Hr Hc. unfold run_op, fs_step, operator_delete, operator_delete_options.
  set (p := normalize_path path) in *. destruct (decide (p = [slash])) as [Hp|Hp].
  - rewrite Hp. rewrite (stack_delete a [slash] (tail root) (proj1 Hr) abs_root).
    destruct (root_free a fs Hr) as [H1 H2]. eexists. split; [done|]. simpl.
    rewrite !delete_id by done. by destruct a.
  - rewrite (stack_delete a p (key_of p) (proj1 Hr) (abs_path p Hp)). eexists. split; [done|].
    by apply represents_delete.
Qed.

(** The range survives the conversion to bounds and back. *)
Lemma range_bounds range :
  range_ok range -> exists lo hi, to_range range = Ok (lo, hi) /\ from_bounds lo hi = range.
Proof.
  destruct range as [off [n|]]; intros [Ho Hn]; simpl in *; unfold to_range; simpl; [|by do 2 eexists].
  unfold checked_add. rewrite bool_decide_eq_true_2 by (unfold is_u64; lia). simpl. do 2 eexists. split; [done|].
  unfold from_bounds, saturating_sub. repeat f_equal. lia.
Qed.

Lemma read_view (o : option bytes) range (x : result Buffer) :
  match o, x with
  | Some data, Ok buf => contents buf = sub data range /\
      from_option (fun k => Range.offset range + k <= Z.of_nat (length data))%Z True (Range.size range)
  | Some data, Err e => kind e = Unexpected /\
      from_option (fun k => Z.of_nat (length data) < Range.offset range + k)%Z False (Range.size range)
  | None, Err e => kind e = NotFound
  | _, _ => False
  end ->
  view_bytes x = match o with
                 | None => AFail NotFound
                 | Some data => if in_range range data then ABytes (sub data range) else AFail Unexpected
                 end.
Proof.
  unfold in_range. destruct o as [data|], x as [buf|e|]; simpl; try done.
  - intros [-> Hn]. destruct (Range.size range); [|done]. by rewrite bool_decide_eq_true_2.
  - intros [-> Hn]. destruct (Range.size range); [|done]. simpl in Hn. by rewrite bool_decide_eq_false_2 by lia.
  - by intros ->.
Qed.

Lemma read_step path range : refines_step (FRead path range).
Proof.
  intros a fs Hr (Hc & Hrange). unfold run_op, fs_step, operator_read_options, read_inner.
  set (p := normalize_path path) in *. unfold validate_path. destruct (ends_with [slash] p) eqn:He; cbn [negb].
  { unfold refuse, mbind, M_bind, gets, throw. exists a. split; [reflexivity|exact Hr]. }
  pose proof (file_entry_path path He Hc) as Hp. fold p in Hp. exists a. split; [|done].
  destruct (range_bounds range Hrange) as (lo & hi & Et & Ef).
  unfold mbind, M_bind, lift. cbn [read_args ranged ro_range read_range]. rewrite Et. unfold reader_read.
  unfold buffer_stream_create. cbn [rd_ctx rc_options read_context reader_chunk ro_chunk ranged]. rewrite Ef.
  cbn [mbind outcome_bind rd_path]. destruct range as [off sz].
  assert (exists f, fuel = S (S (S f))) as [f Hf] by (exists (fuel - 3); lia). rewrite Hf.
  rewrite streaming_single by done. cbn [Range.size fst snd].
  case_bool_decide as Hz; [done|].
  pose proof (stack_read_all a p (mkRange off sz) (S f) (proj1 Hr) Hp Hrange Hz) as Hra.
  rewrite (represents_lookup a fs p Hr) in Hra.
  f_equal. refine (read_view (fs !! p) (mkRange off sz) _ Hra).
Qed.

Lemma below_iff a fs p :
  represents a fs ->
  existsb (fun kv => starts_with p kv.1) (map_to_list fs) =
  negb (bool_decide (filter (fun k => starts_with (key_of p) k = true) (sorted_keys (ms_core a)) = [])).
Proof.
  intros Hr. pose proof Hr as [(_ & _ & Hall) Ha].
  assert (forall q, starts_with (key_of p) (key_of q) = starts_with p q) as Hpre.
  { intros q. unfold starts_with, key_of. apply bool_decide_ext. split; [apply prefix_app_inv | apply prefix_app]. }
  apply eq_true_iff_eq. rewrite existsb_exists, negb_true_iff, bool_decide_eq_false. split.
  - intros ([q d] & Hin & Hq). simpl in Hq. apply list_elem_of_In, elem_of_map_to_list in Hin. intros Hnil.
    assert (key_of q ∈ filter (fun k => starts_with (key_of p) k = true) (sorted_keys (ms_core a))) as Hk.
    { apply list_elem_of_filter. rewrite Hpre. split; [done|]. apply elem_sorted_keys.
      rewrite <- (represents_lookup a fs q Hr), abstract_lookup in Hin. by apply fmap_Some in Hin as (v & -> & _). }
    rewrite Hnil in Hk. by apply elem_of_nil in Hk.
  - intros Hne. destruct (filter _ _) as [|k ks] eqn:Ef; [done|].
    assert (k ∈ filter (fun k => starts_with (key_of p) k = true) (sorted_keys (ms_core a))) as Hk
      by (rewrite Ef; by left).
    apply list_elem_of_filter in Hk as [Hs [v Hv]%elem_sorted_keys].
    destruct (Hall _ _ Hv) as (_ & _ & q & Hq & ->). rewrite Hpre in Hs. exists (q, contents (mv_content v)).
    split; [|done]. apply list_elem_of_In, elem_of_map_to_list.
    by rewrite <- (represents_lookup a fs q Hr), abstract_lookup, Hv.
Qed.

Lemma stat_ok path a fs :
  represents a fs -> starts_char (normalize_path path) ->
  exists r, operator_stat memory_stack path a = (r, a) /\ view_meta r = stat_spec (normalize_path path) fs.
Proof.
  intros Hr Hc. unfold operator_stat, operator_stat_options, stat_inner. change (stat_args stat_options_default) with op_stat.
  set (p := normalize_path path) in *. unfold stat_spec. case_bool_decide as Hp; [rewrite Hp, stack_stat_root; by eexists|].
  assert (entry_path p) as He by (split_and!; [apply normalized_path|done|done]).
  destruct (ends_with [slash] p) eqn:Hd.
  - rewrite (stack_stat_dir a p (proj1 Hr) He Hd). eexists. split; [done|]. rewrite (below_iff a fs p Hr).
    by destruct (bool_decide _).
  - rewrite (stack_stat_file a p (proj1 Hr) He Hd). eexists. split; [done|].
    rewrite <- (represents_lookup a fs p Hr), abstract_lookup. destruct Hr as [(_ & Hwf & Hall) _].
    destruct (ms_core a !! key_of p) as [v|] eqn:Hv; [|done]. simpl. destruct (Hwf _ _ Hv) as [Hb Hl].
    destruct (Hall _ _ Hv) as (_ & -> & _). unfold content_length. rewrite Hl. simpl. by rewrite contents_length.
Qed.

Lemma stat_step path : refines_step (FStat path).
Proof.
  intros a fs Hr Hc. destruct (stat_ok path a fs Hr Hc) as (r & E & Hv). unfold run_op. rewrite E. exists a.
  by rewrite Hv.
Qed.

Lemma stat_spec_shape p fs : stat_spec p fs = AFail NotFound \/ exists m l, stat_spec p fs = AMeta m l.
Proof.
  unfold stat_spec. destruct (bool_decide _); [by eauto|].
  destruct (ends_with _ _); [destruct (existsb _ _)|destruct (fs !! _)]; eauto.
Qed.

Lemma exists_step path : refines_step (FExists path).
Proof.
  intros a fs Hr Hc. destruct (stat_ok path a fs Hr Hc) as (r & E & Hv). unfold run_op, operator_exists. rewrite E.
  exists a. split; [|done]. unfold fs_step. cbn [fst].
  destruct (stat_spec_shape (normalize_path path) fs) as [Hs|(m & l & Hs)]; rewrite Hs in *;
    destruct r as [meta|e|]; simpl in *; simplify_eq; [|done].
  rewrite bool_decide_eq_true_2 by done. done.
Qed.

(** Calls in sequence, each as the map answers it. *)
Lemma run_ops_steps cs a fs : represents a fs -> Forall fs_call_ok cs -> run_ops cs a = fs_steps cs fs.
Proof.
  intros Hr Hcs. revert a fs Hr. induction Hcs as [|c cs Hc _ IH]; intros a fs Hr; [done|]. simpl.
  assert (refines_step c) as Hs
    by (destruct c; auto using write_step, read_step, stat_step, exists_step, create_dir_step, delete_step).
  destruct (Hs a fs Hr Hc) as (a' & E & Hr'). rewrite E. destruct (fs_step c fs) as [x fs']. simpl in *.
  by rewrite (IH a' fs' Hr').
Qed.

(** C1.  The operator on the default stack over the memory service is a map from
    paths to bytes: any sequence of writes, ranged reads, stats, existence checks,
    directory creations and deletions answers as the map does, starting from any
    state that represents it; whatever spelling of a path the caller uses, calls
    that normalize to the same path meet the same object; and no call panics. *)
Theorem operator_refines_map cs a fs :
  represents a fs -> Forall fs_call_ok cs -> run_ops cs a = fs_steps cs fs.
Proof. apply run_ops_steps. Qed.

(** The empty store. *)
Lemma represents_empty : represents (mkMemory stacked_info ∅) ∅.
Proof. split; [|done]. split_and!; [done|apply map_Forall_empty|apply map_Forall_empty]. Qed.

(** [delete_iter] passes its paths on as they are, so a path that is not normalized
    names another key: deleting ["/a"] this way succeeds and leaves the object that
    [write] stored for the same string in place, where [delete] removes it. *)
Theorem delete_iter_keeps_object a v :
  stack_ok a -> ms_core a !! key_of (b "a") = Some v -> ms_core a !! key_of (b "/a") = None ->
  operator_delete_iter memory_stack [b "/a"] a = (Ok tt, a) /\
  exists a', operator_delete memory_stack (b "/a") a = (Ok tt, a') /\ ms_core a' !! key_of (b "a") = None.
Proof.
  intros Hok Hv Hn. split.
  - rewrite (operator_delete_one memory_stack (b "/a") a). rewrite (stack_delete a (b "/a") (key_of (b "/a"))); [|done|by apply abs_path].
    rewrite delete_id by done. by destruct a.
  - eexists. split; [apply (stack_delete a (b "a") (key_of (b "a"))); [done|by apply abs_path]|].
    simpl. apply lookup_delete_eq.
Qed.

End MemoryStack.

(** ** Witnesses *)

Definition sample_calls : list fs_call :=
  [FWrite (b "/a//b") (Contiguous [x01; x02; x03]); FRead (b "a/b") (mkRange 1 (Some 2%Z)); FStat (b "a/");
   FRead (b "a/b") (mkRange 1 (Some 9%Z)); FDelete (b "a/b"); FExists (b "a/"); FCreateDir (b "c/"); FStat (b "/c/")].

Lemma operator_refines_map_witness :
  run_ops (b "/") 4 sample_calls (mkMemory (stacked_info (b "/") (b "0x0")) ∅) = fs_steps sample_calls ∅ /\
  fs_steps sample_calls ∅ =
    [AMeta FILE 3; ABytes [x02; x03]; AMeta DIR 0; AFail Unexpected; AUnit; ABool false; AUnit; AMeta DIR 0].
Proof.
  split; [|vm_compute; reflexivity].
  apply (operator_refines_map (b "/") (b "0x0") 4 root_top I (le_n 4)); [apply (represents_empty (b "/") (b "0x0") 4 root_top I (le_n 4))|].
  repeat constructor; unfold u64_max; simpl; try lia; done.
Defined.
