(* ===== verification/Index.v ===== *)
(** * Layers that answer for the service
      ([core/layers/immutable-index], [core/layers/capability-check])

    [ImmutableIndexLayer] lists from a fixed set of keys a service that cannot
    list.  Its one-level listing is written independently of [HierarchyLister];
    the theorem says that the two agree.  [CapabilityCheckLayer] refuses
    arguments that do not affect integrity, which the correctness layer lets
    through. *)

From S2P Require Import Prelude Errors Path Range Buffer Types Access Listers.
From stdpp Require Import options.

(** ** [ImmutableDir] *)

Definition ImmutableDir : Type := list str.

Definition immutable_entry (v : str) : Entry :=
  let mode := if ends_with [slash] v then DIR else FILE in
  entry_new v (meta_new mode).

Definition inner_next : M ImmutableDir Error (option Entry) := fun idx =>
  match idx with
  | [] => (Ok None, [])
  | v :: idx' => (Ok (Some (immutable_entry v)), idx')
  end.
#[export] Instance ImmutableDir_List : List ImmutableDir := inner_next.

Lemma immutable_dir_lists idx : lists (list_next (L := ImmutableDir)) idx (immutable_entry <$> idx).
Proof. unfold lists. induction idx as [|v idx IH]; [by econstructor|]. by econstructor. Qed.

(** ** [ImmutableIndexAccessor] *)

Section Index.
  Context {A Rd Wr Ls Dl Cp : Type}.

Record ImmutableIndexAccessor : Type := mkIndex { ix_inner : A; ix_vec : list str }.

Definition children_flat (vec : list str) (path : str) : list str :=
  filter (fun v => starts_with path v = true /\ v <> path) vec.

(** [i[path.len()..]] and [i[..dir_idx]] cut after a prefix and after a ['/']. *)
Definition add_child (path : str) (res : gset str) (i : str) : gset str :=
  if negb (starts_with path i) then res
  else if bool_decide (i = path) then res
  else match find_char slash (drop (length path) i) with
       | None => {[i]} ∪ res
       | Some idx =>
           let dir_idx := idx + 1 + length path in
           if bool_decide (dir_idx = length i) then {[i]} ∪ res
           else {[take dir_idx i]} ∪ res
       end.

(** A [HashSet] is collected in no particular order: nothing below depends on
    the one that [elements] chooses. *)
Definition children_hierarchy (vec : list str) (path : str) : list str :=
  elements (foldl (add_child path) ∅ vec).

Definition index_list (path : str) (args : OpList) : M ImmutableIndexAccessor Error ImmutableDir := fun s =>
  let path := if bool_decide (path = [slash]) then [] else path in
  (Ok (if list_recursive args then children_flat (ix_vec s) path else children_hierarchy (ix_vec s) path), s).

Definition index_capability (cap : Capability) : Capability :=
  {| cap_stat := cap_stat cap; cap_stat_with_if_match := cap_stat_with_if_match cap;
     cap_stat_with_if_none_match := cap_stat_with_if_none_match cap;
     cap_stat_with_if_modified_since := cap_stat_with_if_modified_since cap;
     cap_stat_with_if_unmodified_since := cap_stat_with_if_unmodified_since cap;
     cap_stat_with_override_cache_control := cap_stat_with_override_cache_control cap;
     cap_stat_with_override_content_disposition := cap_stat_with_override_content_disposition cap;
     cap_stat_with_override_content_type := cap_stat_with_override_content_type cap;
     cap_stat_with_version := cap_stat_with_version cap; cap_read := cap_read cap;
     cap_read_with_if_match := cap_read_with_if_match cap;
     cap_read_with_if_none_match := cap_read_with_if_none_match cap;
     cap_read_with_if_modified_since := cap_read_with_if_modified_since cap;
     cap_read_with_if_unmodified_since := cap_read_with_if_unmodified_since cap;
     cap_read_with_override_cache_control := cap_read_with_override_cache_control cap;
     cap_read_with_override_content_disposition := cap_read_with_override_content_disposition cap;
     cap_read_with_override_content_type := cap_read_with_override_content_type cap;
     cap_read_with_version := cap_read_with_version cap; cap_write := cap_write cap;
     cap_write_can_multi := cap_write_can_multi cap; cap_write_can_empty := cap_write_can_empty cap;
     cap_write_can_append := cap_write_can_append cap;
     cap_write_with_content_type := cap_write_with_content_type cap;
     cap_write_with_content_disposition := cap_write_with_content_disposition cap;
     cap_write_with_content_encoding := cap_write_with_content_encoding cap;
     cap_write_with_cache_control := cap_write_with_cache_control cap;
     cap_write_with_if_match := cap_write_with_if_match cap;
     cap_write_with_if_none_match := cap_write_with_if_none_match cap;
     cap_write_with_if_not_exists := cap_write_with_if_not_exists cap;
     cap_write_with_user_metadata := cap_write_with_user_metadata cap;
     cap_write_multi_max_size := cap_write_multi_max_size cap;
     cap_write_multi_min_size := cap_write_multi_min_size cap;
     cap_write_total_max_size := cap_write_total_max_size cap; cap_create_dir := cap_create_dir cap;
     cap_delete := cap_delete cap; cap_delete_with_version := cap_delete_with_version cap;
     cap_delete_with_recursive := cap_delete_with_recursive cap;
     cap_delete_max_size := cap_delete_max_size cap; cap_copy := cap_copy cap;
     cap_copy_with_if_not_exists := cap_copy_with_if_not_exists cap;
     cap_copy_with_if_match := cap_copy_with_if_match cap; cap_copy_can_multi := cap_copy_can_multi cap;
     cap_copy_multi_max_size := cap_copy_multi_max_size cap;
     cap_copy_multi_min_size := cap_copy_multi_min_size cap; cap_rename := cap_rename cap;
     cap_list := true; cap_list_with_limit := cap_list_with_limit cap;
     cap_list_with_start_after := cap_list_with_start_after cap; cap_list_with_recursive := true;
     cap_list_with_versions := cap_list_with_versions cap;
     cap_list_with_deleted := cap_list_with_deleted cap; cap_presign := cap_presign cap;
     cap_presign_read := cap_presign_read cap; cap_presign_stat := cap_presign_stat cap;
     cap_presign_write := cap_presign_write cap; cap_presign_delete := cap_presign_delete cap;
     cap_shared := cap_shared cap |}.

Definition ix_set_inner (a : A) (s : ImmutableIndexAccessor) : ImmutableIndexAccessor :=
  mkIndex a (ix_vec s).

(** The accessor: listing is answered from the index, everything else by the
    service. *)
Definition index_layer (inner : Access A Rd Wr Ls Dl Cp) : Access ImmutableIndexAccessor Rd Wr ImmutableDir Dl Cp :=
  let forward {X} (m : M A Error X) : M ImmutableIndexAccessor Error X := zoom ix_inner ix_set_inner m in
  {| a_info s := update_full_capability index_capability (a_info inner (ix_inner s));
     a_create_dir path := forward (a_create_dir inner path);
     a_stat path args := forward (a_stat inner path args);
     a_read path args := forward (a_read inner path args);
     a_write path args := forward (a_write inner path args);
     a_delete := forward (a_delete inner);
     a_list := index_list;
     a_copy from to args opts := forward (a_copy inner from to args opts);
     a_rename from to := forward (a_rename inner from to) |}.

End Index.
Arguments ImmutableIndexAccessor : clear implicits.
Arguments mkIndex {A}.
Arguments ix_inner {A}.
Arguments ix_vec {A}.

(** *** One level *)

(** A key below [path] contributes its child of [path]. *)
Lemma add_child_spec path res i :
  add_child path res i =
  if decide (starts_with path i = true /\ i <> path) then {[child path i]} ∪ res else res.
Proof.
  unfold add_child, child. case_decide as Hd.
  - destruct Hd as [-> Hne]. rewrite (bool_decide_eq_false_2 (i = path)) by done. simpl.
    destruct (find_char _ _) as [idx|]; [|done]. case_bool_decide as Hl.
    + by rewrite (take_ge i) by lia.
    + by replace (idx + 1 + length path) with (idx + length path + 1) by lia.
  - destruct (starts_with path i); [|done]. simpl. case_bool_decide; [done|]. naive_solver.
Qed.

Lemma elem_of_children_hierarchy vec path p :
  p ∈ children_hierarchy vec path <-> exists v, v ∈ children_flat vec path /\ p = child path v.
Proof.
  unfold children_hierarchy. rewrite elem_of_elements.
  assert (forall res, p ∈ foldl (add_child path) res vec <->
    p ∈ res \/ exists v, v ∈ children_flat vec path /\ p = child path v) as H.
  { induction vec as [|i vec IH]; intros res; simpl; [set_solver|]. rewrite IH, add_child_spec.
    unfold children_flat. rewrite filter_cons. case_decide; set_solver. }
  rewrite H. set_solver.
Qed.

Lemma find_char_cut c s j : find_char c s = Some j -> exists k, take (j + 1) s = k ++ [c].
Proof.
  revert j. induction s as [|x s IH]; intros j; simpl; [done|].
  case_decide as Hx; [intros [= <-]; subst; by exists []|].
  destruct (find_char c s) as [j'|]; simpl; [|done]. intros [= <-].
  destruct (IH j' eq_refl) as [k Hk]. exists (x :: k). simpl. by rewrite Hk.
Qed.

(** A cut key names a directory. *)
Lemma child_dir (path q : str) i :
  find_char slash (drop (length path) q) = Some i -> ends_with [slash] (take (i + length path + 1) q) = true.
Proof.
  intros [k Hk]%find_char_cut. apply ends_with_true. exists (take (length path) q ++ k).
  rewrite <- app_assoc, <- Hk. replace (i + length path + 1) with (length path + (i + 1)) by lia.
  by rewrite take_take_drop.
Qed.

Lemma immutable_entry_path v : v <> [] -> e_path (immutable_entry v) = v.
Proof. intros Hv. unfold immutable_entry. simpl. by rewrite bool_decide_eq_false_2. Qed.

(** What the hierarchy lister makes of entries made from keys is the entry made
    from the cut key. *)
Lemma hierarchy_out_immutable path visited vs o :
  Forall (fun v => v <> []) vs -> o ∈ hierarchy_out path visited (immutable_entry <$> vs) ->
  o = immutable_entry (e_path o).
Proof.
  intros Hne. revert visited. induction Hne as [|v vs Hv Hvs IH]; intros visited Ho; csimpl in Ho.
  { by apply elem_of_nil in Ho. }
  destruct (keep_entry path visited (immutable_entry v)) as [[k e'] v'] eqn:E.
  destruct k; [|by eapply IH]. apply elem_of_cons in Ho as [->|Ho]; [|by eapply IH].
  unfold keep_entry in E. rewrite immutable_entry_path in E by done.
  repeat case_match; simplify_eq/=; rewrite ?(bool_decide_eq_false_2 (v = [])) by done; try done.
  unfold immutable_entry at 2. erewrite child_dir by done. unfold entry_new.
  rewrite bool_decide_eq_false_2; [unfold immutable_entry; by case_match|].
  intros Hn. pose proof (child_dir path v _ ltac:(eassumption)) as [k Hk]%ends_with_true.
  rewrite Hn in Hk. by destruct k.
Qed.

Lemma children_flat_not_nil vec path : Forall (fun v => v <> []) (children_flat vec path).
Proof.
  apply Forall_forall. intros v [[[k ->]%starts_with_true Hne] _]%list_elem_of_filter.
  destruct path; [by destruct k|done].
Qed.

(** Listing from the index: the recursive listing has exactly the keys below
    the path, in order; the one-level listing has each entry once, and exactly
    the entries that [HierarchyLister] makes of the recursive listing. *)
Theorem index_list_one_level {A} (s : ImmutableIndexAccessor A) path :
  let prefix := if bool_decide (path = [slash]) then [] else path in
  exists all one out,
    index_list path (list_with_recursive true op_list) s = (Ok all, s) /\
    index_list path op_list s = (Ok one, s) /\
    lists list_next all (immutable_entry <$> filter (fun v => starts_with prefix v = true /\ v <> prefix) (ix_vec s)) /\
    lists list_next one (immutable_entry <$> one) /\ NoDup (e_path <$> (immutable_entry <$> one)) /\
    lists (hierarchy_next (S (length all))) (hierarchy_new all path false) out /\
    forall e, e ∈ immutable_entry <$> one <-> e ∈ out.
Proof.
  intros prefix. exists (children_flat (ix_vec s) prefix), (children_hierarchy (ix_vec s) prefix).
  pose proof (children_flat_not_nil (ix_vec s) prefix) as Hne. set (all := children_flat _ _) in *.
  set (one := children_hierarchy _ _). exists (hierarchy_out prefix ∅ (immutable_entry <$> all)).
  assert (forall v, v ∈ all -> starts_with prefix v = true /\ v <> []) as Hall.
  { intros v Hv. split; [by apply list_elem_of_filter in Hv as [[]]|]. by eapply Forall_forall in Hne. }
  assert (forall p, p ∈ one -> p <> [] /\ exists v, v ∈ all /\ p = child prefix v) as Hone.
  { intros p (v & Hv & ->)%elem_of_children_hierarchy. split; [|eauto]. destruct (Hall v Hv) as [_ Hn].
    unfold child. destruct (find_char _ _) as [i|] eqn:E; [|done].
    apply child_dir in E as [k Hk]%ends_with_true. rewrite Hk. by destruct k. }
  split_and!; [done | done | apply immutable_dir_lists | apply immutable_dir_lists | | |].
  - rewrite <- list_fmap_compose. rewrite (list_fmap_ext _ id).
    + rewrite list_fmap_id. apply NoDup_elements.
    + intros i p Hp. simpl. apply immutable_entry_path, Hone. by eapply list_elem_of_lookup_2.
  - apply hierarchy_lists; [apply immutable_dir_lists | rewrite length_fmap; lia].
  - destruct (hierarchy_out_spec prefix ∅ (immutable_entry <$> all)) as (H1 & H2 & _ & _);
      [by intros ? []%elem_of_empty|].
    intros e. split.
    + intros (p & -> & Hp)%list_elem_of_fmap. destruct (Hone p Hp) as (_ & v & Hv & ->).
      destruct (Hall v Hv) as [Hpre Hn]. assert (He := immutable_entry_path v Hn).
      destruct (H2 (immutable_entry v)) as [(o & Ho & Hin)%list_elem_of_fmap|[]%elem_of_empty];
        [by apply list_elem_of_fmap_2 | by rewrite He |]. rewrite He in Ho.
      rewrite Ho. by rewrite <- (hierarchy_out_immutable _ _ _ _ Hne Hin).
    + intros Hin. rewrite (hierarchy_out_immutable _ _ _ _ Hne Hin). apply list_elem_of_fmap_2.
      apply elem_of_children_hierarchy. destruct (H1 e Hin) as (x & (v & -> & Hv)%list_elem_of_fmap & _ & -> & _).
      exists v. split; [done|]. by rewrite immutable_entry_path by (by apply Hall).
Qed.

(** ** [CapabilityCheckLayer] *)

Section CapabilityCheck.
  Context {A Rd Wr Ls Dl Cp : Type}.
  Variable inner : Access A Rd Wr Ls Dl Cp.

Definition capability_write (path : str) (args : OpWrite) : M A Error Wr :=
  info ← gets (a_info inner);
  let capability := full_capability info in
  if negb (cap_write_with_content_type capability) && is_some (write_content_type args) then
    throw (new_unsupported_error info OWrite "content_type")
  else if negb (cap_write_with_cache_control capability) && is_some (write_cache_control args) then
    throw (new_unsupported_error info OWrite "cache_control")
  else if negb (cap_write_with_content_disposition capability) && is_some (write_content_disposition args) then
    throw (new_unsupported_error info OWrite "content_disposition")
  else a_write inner path args.

Definition capability_copy (from to : str) (args : OpCopy) (opts : OpCopier) : M A Error Cp :=
  info ← gets (a_info inner);
  let capability := full_capability info in
  if copy_if_not_exists args && negb (cap_copy_with_if_not_exists capability) then
    throw (new_unsupported_error info OCopy "if_not_exists")
  else if is_some (copy_if_match args) && negb (cap_copy_with_if_match capability) then
    throw (new_unsupported_error info OCopy "if_match")
  else a_copy inner from to args opts.

Definition capability_list (path : str) (args : OpList) : M A Error Ls :=
  info ← gets (a_info inner);
  let capability := full_capability info in
  if negb (cap_list_with_versions capability) && list_versions args then
    throw (new_unsupported_error info OList "version")
  else a_list inner path args.

Definition capability_layer : Access A Rd Wr Ls Dl Cp :=
  {| a_info := a_info inner; a_create_dir := a_create_dir inner; a_stat := a_stat inner; a_read := a_read inner;
     a_write := capability_write; a_delete := a_delete inner; a_list := capability_list; a_copy := capability_copy;
     a_rename := a_rename inner |}.

Definition extra_write_supported (cap : Capability) (o : OpWrite) : Prop :=
  implies_cap (write_content_type o) (cap_write_with_content_type cap) /\
  implies_cap (write_cache_control o) (cap_write_with_cache_control cap) /\
  implies_cap (write_content_disposition o) (cap_write_with_content_disposition cap).
Definition extra_list_supported (cap : Capability) (o : OpList) : Prop :=
  list_versions o = true -> cap_list_with_versions cap = true.

Local Ltac gate := unfold mbind, M_bind, gets, throw, lift in *; simpl in *;
  repeat case_match; simpl in *; simplify_eq; intuition (try congruence); eauto.

(** The optional gate, outside the correctness layer or not: writes, copies and
    listings whose arguments are supported are passed on unchanged, any other is
    refused with [Unsupported] and the service never sees it. *)
Theorem capability_check_gates s :
  let cap := full_capability (a_info inner s) in
  (forall path args,
     gated (extra_write_supported cap args) (a_write capability_layer path args) (a_write inner path args) s) /\
  (forall from to args opts,
     gated (copy_supported cap args) (a_copy capability_layer from to args opts) (a_copy inner from to args opts) s) /\
  (forall path args,
     gated (extra_list_supported cap args) (a_list capability_layer path args) (a_list inner path args) s).
Proof.
  split_and!; intros; unfold gated; simpl.
  - unfold extra_write_supported, capability_write. rewrite !implies_cap_spec. gate.
  - unfold copy_supported, capability_copy. rewrite implies_cap_spec, implies_cap_flag, (andb_comm (negb _)). gate.
  - unfold extra_list_supported, capability_list. rewrite implies_cap_flag, (andb_comm (list_versions _)). gate.
Qed.

End CapabilityCheck.
