(* ===== verification/PathCache.v ===== *)
(** * From paths to ids ([raw/path_cache.rs], [core/services/gdrive/src/path_index.rs])

    Services such as Google Drive know files by id: a path is resolved by asking
    for one name after the other, and the ids found on the way are kept.  The two
    caches of the repository, [PathCacher] and [GdrivePathIndex], are clients of
    one interface, [PathQuery]; [PathTree] says what an implementation answers: a
    tree of names, in which directories can be created.

    The theorems say that a cache changes nothing but the number of questions: a
    path resolves to what walking the tree from its root gives, whatever is
    cached, evicted or found on the way.  [PathCacher] keeps its ids in a cache of
    the [moka] crate, which may drop any of them at any time ([MokaCache]). *)

From S2P Require Import Prelude Errors Path Range Buffer Types.
From stdpp Require Import options.

(** ** The service *)

Class PathQuery (Q : Type) : Type := {
  q_root : M Q Error str;
  q_query : str -> str -> M Q Error (option str);
  q_create_dir : str -> str -> M Q Error str;
}.

(** The ids of names in directories. *)
Definition Tree : Type := gmap (str * str) str.

(** A call keeps the tree, and a call that succeeds answers from it; creating a
    directory that is missing adds it, and may have added it although it fails. *)
Class PathTree (Q : Type) `{PathQuery Q} : Type := {
  root_of : Q -> str;
  tree_of : Q -> Tree;
  q_root_law q : match q_root q with
    | (Ok r, q') => r = root_of q /\ root_of q' = root_of q /\ tree_of q' = tree_of q
    | (Err _, q') => root_of q' = root_of q /\ tree_of q' = tree_of q
    | (Panic, _) => False
    end;
  q_query_law q parent name : match q_query parent name q with
    | (Ok r, q') => r = tree_of q !! (parent, name) /\ root_of q' = root_of q /\ tree_of q' = tree_of q
    | (Err _, q') => root_of q' = root_of q /\ tree_of q' = tree_of q
    | (Panic, _) => False
    end;
  q_create_dir_law q parent name : tree_of q !! (parent, name) = None ->
    match q_create_dir parent name q with
    | (Ok id, q') => root_of q' = root_of q /\ tree_of q' = <[(parent, name) := id]> (tree_of q)
    | (Err _, q') => root_of q' = root_of q /\
        (tree_of q' = tree_of q \/ exists id, tree_of q' = <[(parent, name) := id]> (tree_of q))
    | (Panic, _) => False
    end;
}.

(** *** Paths as sequences of names *)

Definition entry_name (n : str) : Prop := exists w, component w /\ (n = w \/ n = w ++ [slash]).
Definition parent_path (p : str) : Prop := p = [] \/ exists s, p = s ++ [slash].

(** [located p ns]: [p], absolute or not, names the entry reached from the root
    by the names [ns]; directories on the way keep their ['/']. *)
Inductive located : str -> list str -> Prop :=
  | loc_empty : located [] []
  | loc_root : located [slash] []
  | loc_below p ns n : located p ns -> parent_path p -> entry_name n -> located (p ++ n) (ns ++ [n]).

(** Where the names lead. *)
Definition walk (t : Tree) (id : str) (ns : list str) : option str :=
  foldl (fun o n => id ← o; t !! (id, n)) (Some id) ns.

Lemma walk_app t id ns ms : walk t id (ns ++ ms) = id' ← walk t id ns; walk t id' ms.
Proof.
  unfold walk. rewrite foldl_app. destruct (foldl _ (Some id) ns); simpl; [done|].
  induction ms as [|m ms IH]; simpl; [done|]. exact IH.
Qed.

Lemma walk_snoc t id ns n : walk t id (ns ++ [n]) = id' ← walk t id ns; t !! (id', n).
Proof. by rewrite walk_app. Qed.

Lemma walk_mono t t' id ns id' : t ⊆ t' -> walk t id ns = Some id' -> walk t' id ns = Some id'.
Proof.
  intros Ht. revert id'. induction ns as [|n ns IH] using rev_ind; intros id'; [done|].
  rewrite !walk_snoc. intros (x & Hx & Hn)%bind_Some. rewrite (IH x Hx). simpl. by eapply lookup_weaken.
Qed.

Lemma entry_name_cut n :
  entry_name n -> n <> [] /\ n <> [slash] /\
  forall s, get_parent (s ++ slash :: n) = s ++ [slash] /\ get_basename (s ++ slash :: n) = n /\
            get_parent n = [slash] /\ get_basename n = n.
Proof.
  intros (w & Hw & [->| ->]); (split_and!; [| |intros s]).
  - apply Hw.
  - intros ->. destruct Hw. set_solver.
  - destruct (get_parent_app s w Hw), (get_basename_file s w Hw). auto.
  - by destruct w.
  - intros E. apply (app_inj_tail w []) in E as [-> _]. by destruct Hw.
  - destruct (split_dir s w Hw) as (? & ? & ? & ?). auto.
Qed.

Lemma located_cut p n :
  parent_path p -> entry_name n ->
  get_basename (p ++ n) = n /\ get_parent (p ++ n) = (if decide (p = []) then [slash] else p) /\
  p ++ n <> [] /\ p ++ n <> [slash].
Proof.
  intros Hp Hn. destruct (entry_name_cut n Hn) as (Hne & Hns & Hcut). destruct Hp as [->|[s ->]]; simpl.
  { destruct (Hcut []) as (_ & _ & ? & ?). auto. }
  rewrite <- app_assoc. simpl. destruct (Hcut s) as (? & ? & _). split_and!; [done | | by destruct s |].
  - by rewrite decide_False by (by destruct s).
  - intros E. destruct s as [|x [|]]; simplify_eq/=; by destruct n.
Qed.

Lemma located_unique p ns ms : located p ns -> located p ms -> ns = ms.
Proof.
  intros Hn. revert ms. induction Hn as [| |p ns n Hl IH Hp Hn]; intros ms Hm.
  - inversion Hm as [| |p n' n Hl Hp Hn E]; [done|]. by destruct (located_cut p n Hp Hn) as (_ & _ & ? & _).
  - inversion Hm as [| |p n' n Hl Hp Hn E]; [done|]. by destruct (located_cut p n Hp Hn) as (_ & _ & _ & ?).
  - destruct (located_cut p n Hp Hn) as (Hb & _ & ? & ?).
    inversion Hm as [E|E|p' ns' n' Hl' Hp' Hn' E]; [done..|].
    destruct (located_cut p' n' Hp' Hn') as (Hb' & _). rewrite E in Hb'. rewrite Hb in Hb'. subst n'.
    apply app_inv_tail in E. subst p'. by rewrite (IH ns').
Qed.

(** The paths below [p] on the way along [ms]. *)
Fixpoint prefixes (p : str) (ms : list str) : list str :=
  match ms with [] => [] | m :: ms' => (p ++ m) :: prefixes (p ++ m) ms' end.

(** Every name leads to a directory, but the last. *)
Inductive steps : str -> list str -> Prop :=
  | steps_nil p : steps p []
  | steps_cons p m ms : parent_path p -> entry_name m -> steps (p ++ m) ms -> steps p (m :: ms).

(** ** [moka::sync::Cache] *)

(** [cache_view] bounds what a cache may still answer: an entry may be dropped by
    any call, none appears or changes but by an insertion of its key. *)
Class MokaCache (C : Type) : Type := {
  cache_new : C;
  cache_get : str -> C -> option str * C;
  cache_contains_key : str -> C -> bool * C;
  cache_insert : str -> str -> C -> C;
  cache_invalidate : str -> C -> C;
  cache_view : C -> gmap str str;
  cache_new_law : cache_view cache_new = ∅;
  cache_get_law k c : cache_view (cache_get k c).2 ⊆ cache_view c /\
    forall v, (cache_get k c).1 = Some v -> cache_view c !! k = Some v;
  cache_contains_key_law k c : cache_view (cache_contains_key k c).2 ⊆ cache_view c;
  cache_insert_law k v c : cache_view (cache_insert k v c) ⊆ <[k := v]> (cache_view c);
  cache_invalidate_law k c : cache_view (cache_invalidate k c) ⊆ delete k (cache_view c);
}.

(** A cache that keeps everything, and one that keeps nothing. *)
#[export] Program Instance full_cache : MokaCache (gmap str str) := {|
  cache_new := ∅; cache_get k c := (c !! k, c); cache_contains_key k c := (bool_decide (is_Some (c !! k)), c);
  cache_insert := insert; cache_invalidate := delete; cache_view c := c |}.
Solve All Obligations with done.
#[export] Program Instance no_cache : MokaCache unit := {|
  cache_new := tt; cache_get _ _ := (None, tt); cache_contains_key _ _ := (false, tt); cache_insert _ _ _ := tt;
  cache_invalidate _ _ := tt; cache_view _ := ∅ |}.
Solve All Obligations with (simpl; intros; try done; apply map_empty_subseteq).

(** ** [PathCacher] *)

Record PathCacher (Q C : Type) : Type := mkPathCacher { pc_query : Q; pc_cache : C }.
Arguments mkPathCacher {Q C}.
Arguments pc_query {Q C}.
Arguments pc_cache {Q C}.

Section PathCacher.
  Context {Q C : Type} `{PathQuery Q} `{MokaCache C}.

(** Calls hold the lock from beginning to end, and so happen one after the
    other. *)
Definition pc_ask {X} (m : M Q Error X) : M (PathCacher Q C) Error X :=
  zoom pc_query (fun q s => mkPathCacher q (pc_cache s)) m.
Definition pc_set (f : C -> C) : M (PathCacher Q C) Error unit :=
  modify (fun s => mkPathCacher (pc_query s) (f (pc_cache s))).
Definition pc_cached {X} (f : C -> X * C) : M (PathCacher Q C) Error X := fun s =>
  let '(r, c) := f (pc_cache s) in (Ok r, mkPathCacher (pc_query s) c).

Definition path_cacher_new (query : Q) : PathCacher Q C := mkPathCacher query cache_new.

Definition path_insert (path id : str) : M (PathCacher Q C) Error unit :=
  known ← pc_cached (cache_contains_key path);
  if known : bool then mret tt else pc_set (cache_insert path id).

Definition path_remove (path : str) : M (PathCacher Q C) Error unit :=
  pc_set (cache_invalidate path).

Fixpoint query_down (current_id : str) (paths : list str) : M (PathCacher Q C) Error (option str) :=
  match paths with
  | [] => mret (Some current_id)
  | path :: paths' =>
      found ← pc_ask (q_query current_id (get_basename path));
      match found with
      | Some id => pc_set (cache_insert path id);; query_down id paths'
      | None => mret None
      end
  end.

(** The loop of [get]; [fuel] bounds its rounds. *)
Fixpoint path_climb (fuel : nat) (current_path : str) (paths : list str) : M (PathCacher Q C) Error (option str) :=
  if bool_decide (current_path <> [slash] /\ current_path <> []) then
    match fuel with
    | O => panic
    | S f =>
        let paths := current_path :: paths in
        let current_path := get_parent current_path in
        cached ← pc_cached (cache_get current_path);
        match cached with
        | Some id => query_down id paths
        | None => path_climb f current_path paths
        end
    end
  else
    root_id ← pc_ask q_root;
    pc_set (cache_insert [slash] root_id);;
    query_down root_id paths.

Definition path_get (fuel : nat) (path : str) : M (PathCacher Q C) Error (option str) :=
  cached ← pc_cached (cache_get path);
  match cached with
  | Some id => mret (Some id)
  | None => path_climb fuel path []
  end.

(** [tmp] grows by a component and a ['/'] each time. *)
Definition dir_parents (path : str) : list str :=
  prefixes [] ((fun w => w ++ [slash]) <$> components path).

Fixpoint ensure_parents (parent_id : str) (parents : list str) : M (PathCacher Q C) Error str :=
  match parents with
  | [] => mret parent_id
  | parent :: parents' =>
      cached ← pc_cached (cache_get parent);
      match cached with
      | Some value => ensure_parents value parents'
      | None =>
          found ← pc_ask (q_query parent_id (get_basename parent));
          value ← match found with
                  | Some value => mret value
                  | None => pc_ask (q_create_dir parent_id (get_basename parent))
                  end;
          pc_set (cache_insert parent value);;
          ensure_parents value parents'
      end
  end.

Definition path_ensure_dir (path : str) : M (PathCacher Q C) Error str :=
  cached ← pc_cached (cache_get [slash]);
  parent_id ← match cached with Some v => mret v | None => pc_ask q_root end;
  ensure_parents parent_id (dir_parents path).

End PathCacher.

(** ** Reasoning about calls

    [hoare I m P E]: from a state in [I], [m] returns in [P] or fails in [E], and
    does not panic. *)
Definition hoare {S X} (I : S -> Prop) (m : M S Error X) (P : X -> S -> Prop) (E : S -> Prop) : Prop :=
  forall s, I s -> match m s with
    | (Ok x, s') => P x s' | (Err _, s') => E s' | (Panic, _) => False
    end.

Section Hoare.
  Context {S X Y : Type}.

Lemma hoare_bind (I : S -> Prop) (m : M S Error X) (f : X -> M S Error Y) (R : X -> S -> Prop) P E :
  hoare I m R E -> (forall x, hoare (R x) (f x) P E) -> hoare I (x ← m; f x) P E.
Proof.
  intros Hm Hf s Hs. unfold mbind, M_bind. specialize (Hm s Hs). destruct (m s) as [[x|e|] s']; [|done..].
  apply (Hf x s' Hm).
Qed.

Lemma hoare_ret (I : S -> Prop) (x : X) (P : X -> S -> Prop) E :
  (forall s, I s -> P x s) -> hoare I (mret x) P E.
Proof. intros HI s Hs. by apply HI. Qed.

Lemma hoare_weaken (I I' : S -> Prop) (m : M S Error X) (P P' : X -> S -> Prop) (E : S -> Prop) :
  (forall s, I s -> I' s) -> hoare I' m P' E -> (forall x s, P' x s -> P x s) -> hoare I m P E.
Proof.
  intros HI Hm HP s Hs. specialize (Hm s (HI s Hs)). destruct (m s) as [[x|e|] s']; [|done..]. by apply HP.
Qed.

End Hoare.

(** Every cached id is the one its path leads to. *)
Definition coherent (t : Tree) (r : str) (v : gmap str str) : Prop :=
  forall p id, v !! p = Some id -> exists ns, located p ns /\ walk t r ns = Some id.

Lemma coherent_sub t r v v' : v' ⊆ v -> coherent t r v -> coherent t r v'.
Proof. intros Hv Hc p id Hp. by eapply Hc, lookup_weaken. Qed.

Lemma coherent_insert t r v p ns id :
  coherent t r v -> located p ns -> walk t r ns = Some id -> coherent t r (<[p := id]> v).
Proof. intros Hc Hp Hw q i [[<- <-]|[_ Hq]]%lookup_insert_Some; eauto. Qed.

Lemma coherent_mono t t' r v : t ⊆ t' -> coherent t r v -> coherent t' r v.
Proof. intros Ht Hc p id Hp. destruct (Hc p id Hp) as (ns & ? & ?). exists ns. split; [done|]. by eapply walk_mono. Qed.

Lemma coherent_lookup t r v p ns id :
  coherent t r v -> located p ns -> v !! p = Some id -> walk t r ns = Some id.
Proof. intros Hc Hp Hv. destruct (Hc p id Hv) as (ms & Hm & Hw). by rewrite (located_unique p ns ms). Qed.

Lemma coherent_empty t r : coherent t r ∅.
Proof. intros p id Hp. by rewrite lookup_empty in Hp. Qed.

(** [grown t r ns t']: [t'] has what [t] has, and beyond it only entries on the
    way along [ns]. *)
Definition grown (t : Tree) (r : str) (ns : list str) (t' : Tree) : Prop :=
  t ⊆ t' /\ forall parent name id, t' !! (parent, name) = Some id ->
    t !! (parent, name) = Some id \/
    exists ms ls, ns = ms ++ name :: ls /\ walk t' r ms = Some parent.

Lemma grown_refl t r ns : grown t r ns t.
Proof. split; [done|]. auto. Qed.

Lemma grown_insert t r ns t' ms n ls parent id :
  grown t r ns t' -> ns = ms ++ n :: ls -> walk t' r ms = Some parent -> t' !! (parent, n) = None ->
  grown t r ns (<[(parent, n) := id]> t').
Proof.
  intros [Hsub Hnew] Hns Hw Hnone.
  assert (t' ⊆ <[(parent, n) := id]> t') as Hle by (by apply insert_subseteq).
  split; [by etransitivity|]. intros p m i [[[= <- <-] <-]|[_ Hi]]%lookup_insert_Some.
  - right. exists ms, ls. split; [done|]. by eapply walk_mono.
  - destruct (Hnew p m i Hi) as [?|(ms' & ls' & ? & ?)]; [by left|]. right. exists ms', ls'.
    split; [done|]. by eapply walk_mono.
Qed.

Section Asking.
  Context {Q S : Type} `{HT : PathTree Q}.
  (** A cache over a service: how to ask the service, and what is cached. *)
  Variable query_of : S -> Q.
  Variable view_of : S -> gmap str str.
  Variable ask : forall X, M Q Error X -> M S Error X.
  Hypothesis ask_spec : forall X (m : M Q Error X) s,
    (ask X m s).1 = (m (query_of s)).1 /\ query_of (ask X m s).2 = (m (query_of s)).2 /\
    view_of (ask X m s).2 = view_of s.
  Variables (t0 : Tree) (r : str) (full : list str).

(** The service's tree has grown along the path only, and the cache agrees with
    it. *)
Definition fresh (s : S) : Prop :=
  root_of (query_of s) = r /\ grown t0 r full (tree_of (query_of s)) /\
  coherent (tree_of (query_of s)) r (view_of s).
(** The id of the names so far. *)
Definition at_names (ns : list str) (id : str) (s : S) : Prop :=
  fresh s /\ walk (tree_of (query_of s)) r ns = Some id.

Lemma fresh_change s s' :
  root_of (query_of s') = root_of (query_of s) -> tree_of (query_of s') = tree_of (query_of s) ->
  view_of s' = view_of s -> fresh s -> fresh s'.
Proof. unfold fresh. by intros -> -> ->. Qed.

#[local] Set Default Proof Using "ask_spec".

Lemma ask_root : hoare fresh (ask _ q_root) (at_names []) fresh.
Proof.
  intros s Hs. destruct (ask_spec _ q_root s) as (E1 & E2 & E3). pose proof (q_root_law (query_of s)) as Hl.
  destruct (ask _ q_root s) as [a s'], (q_root (query_of s)) as [a' q']. simpl in *. subst a' q'.
  destruct a as [x|e|]; [|destruct Hl; by eapply fresh_change|done].
  destruct Hl as (-> & Hr & Ht). assert (fresh s') as Hf by (by eapply fresh_change). split; [done|].
  unfold walk. simpl. by destruct Hs as [-> _].
Qed.

Lemma ask_query ns id n :
  hoare (at_names ns id) (ask _ (q_query id n))
    (fun o s => match o with
       | Some id' => at_names (ns ++ [n]) id' s
       | None => at_names ns id s /\ walk (tree_of (query_of s)) r (ns ++ [n]) = None
       end) fresh.
Proof.
  intros s [Hs Hw]. destruct (ask_spec _ (q_query id n) s) as (E1 & E2 & E3).
  pose proof (q_query_law (query_of s) id n) as Hl.
  destruct (ask _ (q_query id n) s) as [a s'], (q_query id n (query_of s)) as [a' q']. simpl in *. subst a' q'.
  destruct a as [x|e|]; [|destruct Hl; by eapply fresh_change|done].
  destruct Hl as (Hx & Hr & Ht). assert (fresh s') as Hf by (by eapply fresh_change).
  rewrite <- Ht in Hw, Hx. assert (walk (tree_of (query_of s')) r (ns ++ [n]) = x) as Hn
    by (rewrite walk_snoc, Hw; simpl; congruence).
  destruct x; repeat split; auto; apply Hf.
Qed.

Lemma ask_create ns n ls id :
  full = ns ++ n :: ls ->
  hoare (fun s => at_names ns id s /\ walk (tree_of (query_of s)) r (ns ++ [n]) = None)
    (ask _ (q_create_dir id n)) (at_names (ns ++ [n])) fresh.
Proof.
  intros Hfull s [[Hs Hw] Hnone]. rewrite walk_snoc, Hw in Hnone. simpl in Hnone.
  destruct (ask_spec _ (q_create_dir id n) s) as (E1 & E2 & E3).
  pose proof (q_create_dir_law (query_of s) id n Hnone) as Hl.
  destruct (ask _ (q_create_dir id n) s) as [a s'], (q_create_dir id n (query_of s)) as [a' q'].
  simpl in *. subst a' q'.
  destruct Hs as (Hr & Hg & Hc).
  assert (forall x, root_of (query_of s') = root_of (query_of s) ->
    tree_of (query_of s') = <[(id, n) := x]> (tree_of (query_of s)) -> fresh s') as Hgrow.
  { intros x Hr' Ht'. unfold fresh. rewrite Hr', Ht', E3. split_and!; [done | by eapply grown_insert|].
    eapply coherent_mono; [|done]. by apply insert_subseteq. }
  destruct a as [x|e|]; [|destruct Hl as [? [?|[? ?]]]; [by eapply fresh_change | by eapply Hgrow]|done].
  destruct Hl as [Hr' Ht']. split; [by eapply Hgrow|]. rewrite walk_snoc, Ht'.
  rewrite (walk_mono _ _ _ _ _ (insert_subseteq _ _ _ Hnone) Hw). simpl. apply lookup_insert_eq.
Qed.

End Asking.

Lemma grown_nil t r t' : grown t r [] t' -> t' = t.
Proof.
  intros [Hsub Hnew]. apply map_eq. intros [p n]. apply option_eq. intros id. split; intros Hi; [|by eapply lookup_weaken].
  by destruct (Hnew p n id Hi) as [?|([] & ? & ? & _)].
Qed.

Lemma located_length p ns : located p ns -> length ns <= length p.
Proof.
  induction 1 as [| |p ns n Hl IH Hp (w & [Hw _] & Hn)]; simpl; [lia..|]. rewrite !length_app. simpl.
  destruct w; [done|]. destruct Hn as [->| ->]; simpl; lia.
Qed.

(** A directory's path without the last name, or the root. *)
Lemma located_parent q ns n :
  located q ns -> parent_path q -> entry_name n -> located (get_parent (q ++ n)) ns.
Proof.
  intros Hq Hp Hn. destruct (located_cut q n Hp Hn) as (_ & -> & _). case_decide as Hd; [|done]. subst q.
  rewrite (located_unique [] ns [] Hq loc_empty). constructor.
Qed.

Section PathCacherSpec.
  Context {Q C : Type} `{HT : PathTree Q} `{HC : MokaCache C}.
  Variables (t0 : Tree) (r : str) (full : list str).

#[local] Abbreviation pview := (fun s : PathCacher Q C => cache_view (pc_cache s)).
#[local] Abbreviation pc_fresh := (fresh (@pc_query Q C) pview t0 r full).
#[local] Abbreviation pc_at := (at_names (@pc_query Q C) pview t0 r full).

Lemma pc_ask_spec X (m : M Q Error X) (s : PathCacher Q C) :
  (pc_ask m s).1 = (m (pc_query s)).1 /\ pc_query (pc_ask m s).2 = (m (pc_query s)).2 /\
  pview (pc_ask m s).2 = pview s.
Proof. unfold pc_ask, zoom. by destruct (m (pc_query s)). Qed.

Lemma fresh_shrink q c c' :
  cache_view c' ⊆ cache_view c -> pc_fresh (mkPathCacher q c) -> pc_fresh (mkPathCacher q c').
Proof. intros Hc (? & ? & ?). split_and!; [done..|]. by eapply coherent_sub. Qed.

Lemma pc_get_spec p ns (I : PathCacher Q C -> Prop) :
  located p ns -> (forall s, I s -> pc_fresh s) ->
  (forall q c c', cache_view c' ⊆ cache_view c -> I (mkPathCacher q c) -> I (mkPathCacher q c')) ->
  hoare I (pc_cached (cache_get p)) (fun o s => match o with Some id => pc_at ns id s | None => I s end) pc_fresh.
Proof.
  intros Hp HI Hsub [q c] Hs. unfold pc_cached. simpl. destruct (cache_get_law p c) as [Hle Hv].
  destruct (cache_get p c) as [[v|] c']; simpl in *; [|by eapply Hsub]. specialize (Hv v eq_refl).
  destruct (HI _ Hs) as (Hr & Hg & Hc). split; [by eapply fresh_shrink, HI|]. simpl. by eapply coherent_lookup.
Qed.

Lemma pc_set_spec p ns id :
  located p ns -> hoare (pc_at ns id) (pc_set (cache_insert p id)) (fun _ => pc_at ns id) pc_fresh.
Proof.
  intros Hp [q c] [(Hr & Hg & Hc) Hw]. simpl in *. split; [|done]. split_and!; [done..|]. simpl.
  eapply coherent_sub; [apply cache_insert_law|]. by eapply coherent_insert.
Qed.

Lemma query_down_spec p ns ms id :
  located p ns -> steps p ms ->
  hoare (pc_at ns id) (query_down id (prefixes p ms))
    (fun o s => pc_fresh s /\ o = walk (tree_of (pc_query s)) r (ns ++ ms)) pc_fresh.
Proof.
  intros Hl Hs. revert ns id Hl. induction Hs as [p|p m ms Hp Hm Hs IH]; intros ns id Hl; simpl.
  { apply hoare_ret. intros s [? ?]. rewrite app_nil_r. auto. }
  destruct (located_cut p m Hp Hm) as (-> & _).
  eapply hoare_bind; [apply (ask_query _ _ _ pc_ask_spec)|]. intros [id'|].
  - eapply hoare_bind; [apply pc_set_spec; by constructor|]. intros [].
    eapply hoare_weaken; [done | apply (IH (ns ++ [m])); by constructor|].
    intros o s [? ->]. by rewrite <- app_assoc.
  - apply hoare_ret. intros s [[Hf _] Hn]. split; [done|].
    replace (ns ++ m :: ms) with ((ns ++ [m]) ++ ms) by (by rewrite <- app_assoc).
    by rewrite walk_app, Hn.
Qed.

(** From the directory [p], or from its other name when it is the root. *)
Lemma path_climb_spec fuel p ns ms cur :
  located p ns -> steps p ms -> cur = p \/ p = [] /\ cur = [slash] -> length ns <= fuel ->
  hoare pc_fresh (path_climb fuel cur (prefixes p ms))
    (fun o s => pc_fresh s /\ o = walk (tree_of (pc_query s)) r (ns ++ ms)) pc_fresh.
Proof.
  intros Hl. revert fuel ms cur. induction Hl as [| |p ns n Hl IH Hp Hn]; intros fuel ms cur Hs Hcur Hf.
  3: { destruct (located_cut p n Hp Hn) as (_ & Hpar & Hne & Hns).
    destruct Hcur as [->|[? _]]; [|done]. rewrite length_app in Hf. simpl in Hf. destruct fuel as [|f]; [lia|].
    cbn [path_climb]. rewrite bool_decide_eq_true_2 by done.
    eapply hoare_bind.
    { apply (pc_get_spec _ ns pc_fresh); [by apply located_parent | done | intros; by eapply fresh_shrink]. }
    assert (steps p (n :: ms)) as Hs' by (by constructor).
    replace ((ns ++ [n]) ++ ms) with (ns ++ n :: ms) by (by rewrite <- app_assoc).
    intros [id|]; [by apply (query_down_spec p ns (n :: ms))|].
    apply (IH f (n :: ms)); [done | | lia]. rewrite Hpar. case_decide; auto. }
  all: assert (cur = [] \/ cur = [slash]) as Hc by naive_solver.
  all: destruct fuel; cbn [path_climb]; rewrite bool_decide_eq_false_2 by naive_solver.
  all: eapply hoare_bind; [apply (ask_root _ _ _ pc_ask_spec)|]; intros root_id.
  all: eapply hoare_bind; [apply (pc_set_spec [slash] []); constructor|]; intros [].
  all: apply (query_down_spec _ []); [constructor | done].
Qed.

Lemma path_get_spec fuel path ns :
  located path ns -> length path <= fuel ->
  hoare pc_fresh (path_get fuel path)
    (fun o s => pc_fresh s /\ o = walk (tree_of (pc_query s)) r ns) pc_fresh.
Proof.
  intros Hl Hf. eapply hoare_bind.
  { apply (pc_get_spec _ ns pc_fresh); [done | done | intros; by eapply fresh_shrink]. }
  intros [id|]; [apply hoare_ret; intros s [? ?]; auto|].
  pose proof (located_length _ _ Hl). rewrite <- (app_nil_r ns).
  apply (path_climb_spec fuel path ns []); [done | constructor | by left | lia].
Qed.

Lemma ensure_parents_spec p ns ms id :
  full = ns ++ ms -> located p ns -> steps p ms ->
  hoare (pc_at ns id) (ensure_parents id (prefixes p ms)) (pc_at full) pc_fresh.
Proof.
  intros Hfull Hl Hs. revert ns id Hfull Hl.
  induction Hs as [p|p m ms Hp Hm Hs IH]; intros ns id Hfull Hl; cbn [prefixes ensure_parents].
  { apply hoare_ret. intros s [Hs Hw]. split; [done|]. by rewrite Hfull, app_nil_r. }
  assert (full = (ns ++ [m]) ++ ms) as Hfull' by (by rewrite <- app_assoc).
  assert (located (p ++ m) (ns ++ [m])) as Hl' by (by constructor).
  eapply hoare_bind.
  { apply (pc_get_spec _ (ns ++ [m]) (pc_at ns id)); [done | by intros s [? _] |].
    intros q c c' Hc [? ?]. split; [by eapply fresh_shrink | done]. }
  intros [v|]; [by apply IH|]. destruct (located_cut p m Hp Hm) as (-> & _).
  eapply hoare_bind; [apply (ask_query _ _ _ pc_ask_spec)|]. intros found.
  apply (hoare_bind _ _ _ (pc_at (ns ++ [m]))).
  { destruct found as [v|]; [apply hoare_ret; intros s Hs0; exact Hs0|]. by eapply (ask_create _ _ _ pc_ask_spec). }
  intros v. eapply hoare_bind; [by apply pc_set_spec|]. intros []. by apply IH.
Qed.

End PathCacherSpec.

Lemma dir_names_steps ws p :
  Forall component ws -> parent_path p -> steps p ((fun w => w ++ [slash]) <$> ws).
Proof.
  intros Hws. revert p. induction Hws as [|w ws Hw Hws IH]; intros p Hp; csimpl; [constructor|].
  constructor; [done | by exists w; auto |]. apply IH. right. exists (p ++ w). by rewrite app_assoc.
Qed.

(** The directories of a path, as names. *)
Definition dir_names (path : str) : list str := (fun w => w ++ [slash]) <$> components path.

Section PathCacherTheorems.
  Context {Q C : Type} `{HT : PathTree Q} `{HC : MokaCache C}.

(** A cache that agrees with the service's tree. *)
Definition cache_ok (s : PathCacher Q C) : Prop :=
  coherent (tree_of (pc_query s)) (root_of (pc_query s)) (cache_view (pc_cache s)).

Lemma cache_ok_new q : cache_ok (path_cacher_new q).
Proof. unfold cache_ok, path_cacher_new. simpl. rewrite cache_new_law. apply coherent_empty. Qed.

(** Recording a right id and forgetting one keep the cache in agreement. *)
Lemma path_insert_ok path ns id (s : PathCacher Q C) :
  located path ns -> walk (tree_of (pc_query s)) (root_of (pc_query s)) ns = Some id -> cache_ok s ->
  exists s', path_insert path id s = (Ok tt, s') /\ pc_query s' = pc_query s /\ cache_ok s'.
Proof.
  intros Hl Hw Hs. destruct s as [q c]. unfold path_insert, mbind, M_bind, pc_cached. simpl in *.
  pose proof (cache_contains_key_law path c) as Hc. destruct (cache_contains_key path c) as [known c'].
  assert (cache_ok (mkPathCacher q c')) as Hs' by (by eapply coherent_sub). simpl in *.
  destruct known; (eexists; split; [done|]; split; [done|]); [done|].
  eapply coherent_sub; [apply cache_insert_law|]. by eapply coherent_insert.
Qed.

Lemma path_remove_ok path (s : PathCacher Q C) :
  cache_ok s -> exists s', path_remove path s = (Ok tt, s') /\ pc_query s' = pc_query s /\ cache_ok s'.
Proof.
  intros Hs. eexists. split; [done|]. split; [done|]. eapply coherent_sub; [|exact Hs]. simpl.
  etransitivity; [apply cache_invalidate_law | apply delete_subseteq].
Qed.

(** Resolving a path through the cache: whatever the cache has kept or
    dropped, an answer is what walking the names of the path from the root of the
    service's tree gives, [None] for a path that does not exist; the service is
    not changed, the cache still agrees with it, also after an error, and the
    loop over the parents ends. *)
Theorem path_get_resolves fuel path ns (s : PathCacher Q C) :
  located path ns -> length path <= fuel -> cache_ok s ->
  match path_get fuel path s with
  | (res, s') =>
      tree_of (pc_query s') = tree_of (pc_query s) /\ root_of (pc_query s') = root_of (pc_query s) /\ cache_ok s' /\
      match res with
      | Ok o => o = walk (tree_of (pc_query s)) (root_of (pc_query s)) ns
      | Err _ => True
      | Panic => False
      end
  end.
Proof.
  intros Hl Hf Hs. assert (Hfr : fresh pc_query (fun s => cache_view (pc_cache s)) (tree_of (pc_query s))
    (root_of (pc_query s)) [] s) by (split_and!; [done | apply grown_refl | done]).
  pose proof (path_get_spec _ _ _ fuel path ns Hl Hf s Hfr) as Hg. destruct (path_get fuel path s) as [[o|e|] s'].
  - destruct Hg as [(Hr & Ht%grown_nil & Hc) ->]. unfold cache_ok. rewrite Hr, Ht in *. auto.
  - destruct Hg as (Hr & Ht%grown_nil & Hc). unfold cache_ok. rewrite Hr, Ht in *. auto.
  - done.
Qed.

(** Ensuring a directory: on success the path of directories exists and the
    answer is the id it leads to; nothing was removed or replaced, the only
    additions are directories of the path, and the cache still agrees with the
    service, also after an error half way. *)
Theorem path_ensure_dir_exists path (s : PathCacher Q C) :
  cache_ok s ->
  match path_ensure_dir path s with
  | (res, s') =>
      root_of (pc_query s') = root_of (pc_query s) /\ cache_ok s' /\
      grown (tree_of (pc_query s)) (root_of (pc_query s)) (dir_names path) (tree_of (pc_query s')) /\
      match res with
      | Ok id => walk (tree_of (pc_query s')) (root_of (pc_query s)) (dir_names path) = Some id
      | Err _ => True
      | Panic => False
      end
  end.
Proof.
  intros Hs. set (t := tree_of (pc_query s)). set (r := root_of (pc_query s)).
  set (I := fresh (@pc_query Q C) (fun s => cache_view (pc_cache s)) t r (dir_names path)).
  assert (Hfr : I s) by (split_and!; [done | apply grown_refl | done]).
  assert (hoare I (path_ensure_dir path)
    (at_names pc_query (fun s => cache_view (pc_cache s)) t r (dir_names path) (dir_names path)) I) as Hh.
  { eapply hoare_bind.
    { apply (pc_get_spec _ _ _ [slash] [] I); [constructor | done | intros; by eapply fresh_shrink]. }
    intros cached. eapply (hoare_bind _ _ _ (at_names pc_query _ t r (dir_names path) [])).
    { destruct cached as [v|]; [apply hoare_ret; intros ? Hs0; exact Hs0 | apply (ask_root _ _ _ pc_ask_spec)]. }
    intros v. apply (ensure_parents_spec _ _ _ [] [] (dir_names path)); [done | constructor |].
    apply (dir_names_steps _ []); [apply components_ok | by left]. }
  specialize (Hh s Hfr). destruct (path_ensure_dir path s) as [[id|e|] s']; [| |done].
  - destruct Hh as [(Hr & Hg & Hc) Hw]. unfold cache_ok. rewrite Hr. auto.
  - destruct Hh as (Hr & Hg & Hc). unfold cache_ok. rewrite Hr. auto.
Qed.

End PathCacherTheorems.

(** *** A service, for the examples *)

(** The tree itself, with the ids that the repository's tests give. *)
#[export] Instance Tree_PathQuery : PathQuery Tree := {|
  q_root t := (Ok (b "root"), t);
  q_query parent name t := (Ok (t !! (parent, name)), t);
  q_create_dir parent name t := let id := parent ++ b ":" ++ name in (Ok id, <[(parent, name) := id]> t) |}.
#[export] Program Instance Tree_PathTree : PathTree Tree := {| root_of _ := b "root"; tree_of t := t |}.
Solve All Obligations with done.

Definition sample_service : Tree :=
  <[(b "root", b "a/") := b "1"]> (<[(b "1", b "b/") := b "2"]> (<[(b "2", b "c") := b "3"]> ∅)).

Lemma located_sample : located (b "a/b/c") [b "a/"; b "b/"; b "c"].
Proof.
  assert (component (b "a") /\ component (b "b") /\ component (b "c")) as (Ha & Hb & Hc).
  { unfold component. split_and!; try done; vm_compute; set_solver. }
  apply (loc_below (b "a/b/") [b "a/"; b "b/"] (b "c")); [| by right; exists (b "a/b") | by exists (b "c"); auto].
  apply (loc_below (b "a/") [b "a/"] (b "b/")); [| by right; exists (b "a") | by exists (b "b"); auto].
  apply (loc_below [] [] (b "a/")); [constructor | by left | by exists (b "a"); auto].
Qed.

Lemma path_get_resolves_witness :
  exists s, path_get (C := gmap str str) 5 (b "a/b/c") (path_cacher_new sample_service) = (Ok (Some (b "3")), s) /\ cache_ok s.
Proof.
  pose proof (path_get_resolves (C := gmap str str) 5 (b "a/b/c") _ (path_cacher_new sample_service) located_sample
    ltac:(simpl; lia) (cache_ok_new _)) as Hg.
  assert ((path_get (C := gmap str str) 5 (b "a/b/c") (path_cacher_new sample_service)).1 = Ok (Some (b "3"))) as E
    by (vm_compute; reflexivity).
  destruct (path_get _ _ _) as [res s]. simpl in E. subst res. exists s. split; [done|]. apply Hg.
Defined.

Lemma path_ensure_dir_exists_witness :
  exists s, path_ensure_dir (C := unit) (b "a/x/y/") (path_cacher_new sample_service) = (Ok (b "1:x/:y/"), s) /\
    walk (tree_of (pc_query s)) (b "root") [b "a/"; b "x/"; b "y/"] = Some (b "1:x/:y/").
Proof.
  pose proof (path_ensure_dir_exists (C := unit) (b "a/x/y/") (path_cacher_new sample_service) (cache_ok_new _)) as Hg.
  assert ((path_ensure_dir (C := unit) (b "a/x/y/") (path_cacher_new sample_service)).1 = Ok (b "1:x/:y/")) as E
    by (vm_compute; reflexivity).
  destruct (path_ensure_dir _ _) as [res s]. simpl in E. subst res. exists s. split; [done|].
  destruct Hg as (_ & _ & _ & Hw). exact Hw.
Defined.

(** Removing the entry of a directory leaves the ids below it: once the service
    has replaced the directory, they are stale, and [get] still answers them. *)
Theorem path_remove_keeps_below :
  let s := (path_get (C := gmap str str) 5 (b "a/b/c") (path_cacher_new sample_service)).2 in
  let moved := <[(b "1", b "b/") := b "4"]> sample_service in
  let s' := (path_remove (b "a/b/") (mkPathCacher moved (pc_cache s))).2 in
  (path_get 5 (b "a/b/c") s').1 = Ok (Some (b "3")) /\ walk moved (b "root") [b "a/"; b "b/"; b "c"] = None.
Proof. vm_compute. done. Qed.
