(* ===== verification/Gdrive.v ===== *)
(** * The path index of Google Drive ([core/services/gdrive/src/path_index.rs])

    [GdrivePathIndex] is the second client of [PathQuery]: a map of paths to ids
    kept by the service itself, with directories under their path with ['/'],
    whole subtrees dropped when a directory goes away, and the ancestors of a path
    refreshed when the service no longer knows one of their ids. *)

From S2P Require Import Prelude Errors Path Range Buffer Types PathCache.
From stdpp Require Import options.

Definition normalize_dir_path (path : str) : str :=
  if bool_decide (path = []) || ends_with [slash] path then path else path ++ [slash].

Definition canonical_dir_path (path : str) : str := normalize_dir_path path.

Definition remove_path_candidates (path : str) (entries : gmap str str) : gmap str str :=
  let entries := delete path entries in
  let dir_path := canonical_dir_path path in
  if bool_decide (dir_path <> path) then delete dir_path entries else entries.

Definition lookup_cached_id (entries : gmap str str) (path : str) : option str :=
  match entries !! path with
  | Some id => Some id
  | None =>
      let dir_path := canonical_dir_path path in
      if bool_decide (dir_path <> path) then entries !! dir_path else None
  end.

Record GdrivePathIndex (Q : Type) : Type := mkPathIndex { gi_query : Q; gi_entries : gmap str str }.
Arguments mkPathIndex {Q}.
Arguments gi_query {Q}.
Arguments gi_entries {Q}.

(** The loop over the parents; [fuel] bounds its rounds. *)
Fixpoint resolution_chain (fuel : nat) (current : str) (chain : list str) : result (list str) :=
  if bool_decide (current <> [slash] /\ current <> []) then
    match fuel with
    | O => Panic
    | S f => resolution_chain f (get_parent current) (current :: chain)
    end
  else Ok chain.

(** [for idx in (0..chain.len()).rev()]: the last cached path of the chain, and
    the index after it. *)
Fixpoint last_cached (entries : gmap str str) (chain : list str) (idx : nat) : option (str * nat) :=
  match chain with
  | [] => None
  | path :: chain' =>
      match last_cached entries chain' (S idx) with
      | Some found => Some found
      | None => (fun id => (id, idx + 1)) <$> lookup_cached_id entries path
      end
  end.

Section PathIndex.
  Context {Q : Type} `{PathQuery Q}.

Definition gi_ask {X} (m : M Q Error X) : M (GdrivePathIndex Q) Error X :=
  zoom gi_query (fun q s => mkPathIndex q (gi_entries s)) m.
Definition gi_set (f : gmap str str -> gmap str str) : M (GdrivePathIndex Q) Error unit :=
  modify (fun s => mkPathIndex (gi_query s) (f (gi_entries s))).
(** [match call.await { Ok(..) => .., Err(..) => .. }]. *)
Definition gi_try {X} (m : M (GdrivePathIndex Q) Error X) : M (GdrivePathIndex Q) Error (result X) := fun s =>
  match m s with (Panic, s') => (Panic, s') | (r, s') => (Ok r, s') end.

Definition index_new (query : Q) : GdrivePathIndex Q := mkPathIndex query ∅.

Definition root_id : M (GdrivePathIndex Q) Error str := gi_ask q_root.

Definition upsert_file (path id : str) : M (GdrivePathIndex Q) Error unit :=
  gi_set (fun entries => <[path := id]> (remove_path_candidates path entries)).

Definition upsert_dir (path id : str) : M (GdrivePathIndex Q) Error unit :=
  let dir_path := canonical_dir_path path in
  gi_set (fun entries => <[dir_path := id]> (remove_path_candidates dir_path (delete (trim_end_slashes dir_path) entries))).

Definition invalidate_file (path : str) : M (GdrivePathIndex Q) Error unit :=
  gi_set (remove_path_candidates path).

Definition invalidate_dir (path : str) : M (GdrivePathIndex Q) Error unit :=
  let dir_path := canonical_dir_path path in
  let file_path := trim_end_slashes dir_path in
  gi_set (fun entries => filter (fun kv => starts_with dir_path kv.1 = false) (delete file_path entries)).

Fixpoint refresh_loop (fuel : nat) (current : str) : M (GdrivePathIndex Q) Error unit :=
  if bool_decide (current <> [slash] /\ current <> []) then
    match fuel with
    | O => panic
    | S f =>
        let dir_path := canonical_dir_path current in
        gi_set (fun entries => remove_path_candidates dir_path (remove_path_candidates current entries));;
        refresh_loop f (get_parent current)
    end
  else mret tt.

Definition refresh_path (fuel : nat) (path : str) : M (GdrivePathIndex Q) Error unit :=
  if bool_decide (path = []) || bool_decide (path = [slash]) then mret tt else refresh_loop fuel path.

Fixpoint resolve_chain (current_id : str) (chain : list str) : M (GdrivePathIndex Q) Error (option str) :=
  match chain with
  | [] => mret (Some current_id)
  | path :: chain' =>
      found ← gi_ask (q_query current_id (get_basename path));
      match found with
      | Some id =>
          (if ends_with [slash] path then upsert_dir path id else upsert_file path id);;
          resolve_chain id chain'
      | None => mret None
      end
  end.

Definition resolve_from_chain (chain : list str) (start_index : nat) (start_id : str)
    : M (GdrivePathIndex Q) Error (option str) :=
  resolve_chain start_id (drop start_index chain).

Definition lookup_resolve_plan (fuel : nat) (path : str) : M (GdrivePathIndex Q) Error (option str * list str) :=
  if bool_decide (path = []) || bool_decide (path = [slash]) then (root ← root_id; mret (Some root, []))
  else
    chain ← lift (resolution_chain fuel path []);
    match chain with
    | [] => root ← root_id; mret (Some root, [])
    | _ =>
        entries ← gets gi_entries;
        match last_cached entries chain 0 with
        | None => mret (None, chain)
        | Some (start_id, start_index) => mret (Some start_id, drop start_index chain)
        end
    end.

Definition index_get (fuel : nat) (path : str) : M (GdrivePathIndex Q) Error (option str) :=
  if bool_decide (path = []) || bool_decide (path = [slash]) then (root ← root_id; mret (Some root))
  else
    entries ← gets gi_entries;
    match lookup_cached_id entries path with
    | Some id => mret (Some id)
    | None =>
        plan ← lookup_resolve_plan fuel path;
        match plan with
        | (Some start_id, missing_paths) => resolve_from_chain missing_paths 0 start_id
        | (None, missing_paths) => root ← root_id; resolve_from_chain missing_paths 0 root
        end
    end.

(** One round of [ensure_dir] over the parents: [None] when the round starts
    again, with the ancestors refreshed. *)
Fixpoint ensure_round (fuel : nat) (refreshed : bool) (parent_id : str) (parents : list str)
    : M (GdrivePathIndex Q) Error (option str) :=
  match parents with
  | [] => mret (Some parent_id)
  | parent :: parents' =>
      entries ← gets gi_entries;
      match lookup_cached_id entries parent with
      | Some value => ensure_round fuel refreshed value parents'
      | None =>
          let name := get_basename parent in
          let retry_or (err : Error) : M (GdrivePathIndex Q) Error (option str) :=
            if negb refreshed && bool_decide (kind err = NotFound)
            then (refresh_path fuel parent;; mret None) else throw err in
          let go_on (value : str) : M (GdrivePathIndex Q) Error (option str) :=
            upsert_dir parent value;; ensure_round fuel refreshed value parents' in
          found ← gi_try (gi_ask (q_query parent_id name));
          match found with
          | Ok (Some value) => go_on value
          | Ok None =>
              created ← gi_try (gi_ask (q_create_dir parent_id name));
              match created with
              | Ok value => go_on value
              | Err err => retry_or err
              | Panic => panic
              end
          | Err err => retry_or err
          | Panic => panic
          end
      end
  end.

(** ['retry: loop]; [rounds] bounds it. *)
Fixpoint ensure_loop (rounds fuel : nat) (refreshed : bool) (parents : list str) : M (GdrivePathIndex Q) Error str :=
  match rounds with
  | O => panic
  | S n =>
      root ← root_id;
      r ← ensure_round fuel refreshed root parents;
      match r with
      | Some id => mret id
      | None => ensure_loop n fuel true parents
      end
  end.

Definition index_ensure_dir (rounds fuel : nat) (path : str) : M (GdrivePathIndex Q) Error str :=
  let path := canonical_dir_path path in
  if bool_decide (path = []) then root_id
  else ensure_loop rounds fuel false (dir_parents path).

End PathIndex.

(** ** The paths *)

Lemma normalize_dir_slash s : normalize_dir_path (s ++ [slash]) = s ++ [slash].
Proof. unfold normalize_dir_path. by rewrite ends_with_app, orb_true_r. Qed.

Lemma lookup_cached_dir entries s : lookup_cached_id entries (s ++ [slash]) = entries !! (s ++ [slash]).
Proof.
  unfold lookup_cached_id, canonical_dir_path. rewrite normalize_dir_slash.
  rewrite bool_decide_eq_false_2 by (by intros []). by destruct (_ !! _).
Qed.

Lemma lookup_cached_Some entries path id :
  lookup_cached_id entries path = Some id ->
  entries !! path = Some id \/ entries !! normalize_dir_path path = Some id.
Proof. unfold lookup_cached_id. case_match; [naive_solver|]. case_bool_decide; naive_solver. Qed.

Lemma remove_candidates_sub path entries : remove_path_candidates path entries ⊆ entries.
Proof.
  unfold remove_path_candidates. case_bool_decide; [|apply delete_subseteq].
  etransitivity; apply delete_subseteq.
Qed.

(** The paths from the root to [p]. *)
Lemma located_prefixes p ns :
  located p ns -> exists p0, (p0 = [] \/ p0 = [slash]) /\ located p0 [] /\ steps p0 ns /\ p = p0 ++ concat ns.
Proof.
  assert (forall q ls n, steps q ls -> parent_path (q ++ concat ls) -> entry_name n -> steps q (ls ++ [n])) as Hsnoc.
  { intros q ls n Hs. induction Hs as [q|q m ms Hq Hm Hs IH]; intros Hp Hn; simpl.
    - simpl in Hp. rewrite app_nil_r in Hp. constructor; [done..|constructor].
    - constructor; [done..|]. apply IH; [|done]. by rewrite <- app_assoc. }
  induction 1 as [| |p ns n Hl IH Hp Hn].
  - exists []. split_and!; [by left | constructor | constructor | done].
  - exists [slash]. split_and!; [by right | constructor | constructor | done].
  - destruct IH as (p0 & H0 & Hl0 & Hs & ->). exists p0. split_and!; [done | done | by eapply Hsnoc |].
    rewrite concat_app, <- app_assoc. simpl. by rewrite app_nil_r.
Qed.

Lemma prefixes_app p ms ls : prefixes p (ms ++ ls) = prefixes p ms ++ prefixes (p ++ concat ms) ls.
Proof.
  revert p. induction ms as [|m ms IH]; intros p; simpl; [by rewrite app_nil_r|].
  by rewrite IH, <- app_assoc.
Qed.

Lemma prefixes_length p ms : length (prefixes p ms) = length ms.
Proof. revert p. induction ms; intros; simpl; auto. Qed.

Lemma steps_app p ms ls : steps p (ms ++ ls) -> steps p ms /\ steps (p ++ concat ms) ls.
Proof.
  revert p. induction ms as [|m ms IH]; intros p Hs; simpl in *; [split; [constructor|by rewrite app_nil_r]|].
  inversion Hs; subst. destruct (IH (p ++ m)) as [? ?]; [done|]. split; [by constructor|by rewrite app_assoc].
Qed.

Lemma located_steps p ns ms : located p ns -> steps p ms -> located (p ++ concat ms) (ns ++ ms).
Proof.
  intros Hl Hs. revert ns Hl. induction Hs as [p|p m ms Hp Hm Hs IH]; intros ns Hl; simpl.
  { by rewrite !app_nil_r. }
  replace (ns ++ m :: ms) with ((ns ++ [m]) ++ ms) by (by rewrite <- app_assoc).
  rewrite app_assoc. apply IH. by constructor.
Qed.

Lemma resolution_chain_spec fuel p ns chain :
  located p ns -> length ns <= fuel ->
  exists p0, (p0 = [] \/ p0 = [slash]) /\ located p0 [] /\ steps p0 ns /\ p = p0 ++ concat ns /\
    resolution_chain fuel p chain = Ok (prefixes p0 ns ++ chain).
Proof.
  intros Hl Hf. destruct (located_prefixes p ns Hl) as (p0 & H0 & Hl0 & Hs & ->). exists p0. split_and!; try done.
  clear Hl. revert ns fuel chain Hs Hf.
  induction ns as [|n ns IH] using rev_ind; intros fuel chain Hs Hf; simpl.
  { rewrite app_nil_r. destruct fuel; simpl; rewrite bool_decide_eq_false_2; naive_solver. }
  apply steps_app in Hs as [Hs Hs']. inversion Hs' as [|? ? ? Hp Hn _]; subst.
  destruct (located_cut _ n Hp Hn) as (_ & Hpar & Hne & Hns). rewrite length_app in Hf. simpl in Hf.
  destruct fuel as [|f]; [lia|]. rewrite concat_app, !app_assoc. simpl. rewrite app_nil_r.
  rewrite bool_decide_eq_true_2 by done. rewrite Hpar, prefixes_app, <- (app_assoc (prefixes p0 ns)). simpl.
  case_decide as Hd; [|apply IH; [done|lia]].
  assert (p0 = [] /\ ns = []) as [-> ->].
  { destruct p0; [|done]. destruct ns as [|m ns]; [done|]. exfalso. inversion Hs as [|? ? ? ? Hm]; subst.
    destruct (entry_name_cut m Hm) as [? _]. by destruct m. }
  by destruct f.
Qed.

Lemma last_cached_spec entries p ms idx :
  match last_cached entries (prefixes p ms) idx with
  | None => forall ms1 ms2, ms = ms1 ++ ms2 -> ms1 <> [] -> lookup_cached_id entries (p ++ concat ms1) = None
  | Some (id, k) => exists ms1 ms2, ms = ms1 ++ ms2 /\ k = idx + length ms1 /\ ms1 <> [] /\
      lookup_cached_id entries (p ++ concat ms1) = Some id
  end.
Proof.
  revert p idx. induction ms as [|m ms IH]; intros p idx; simpl.
  { intros [] ms2; [done|]. by intros. }
  specialize (IH (p ++ m) (S idx)). destruct (last_cached _ _ _) as [[id k]|].
  - destruct IH as (ms1 & ms2 & -> & -> & _ & Hi). exists (m :: ms1), ms2.
    split_and!; [done | simpl; lia | done |]. simpl. by rewrite app_assoc.
  - destruct (lookup_cached_id entries (p ++ m)) as [id|] eqn:E; simpl.
    + exists [m], ms. split_and!; [done | simpl; lia | done |]. simpl. by rewrite app_nil_r.
    + intros [|m' ms1] ms2; [done|]. intros [= <- ->] _. simpl. rewrite app_assoc.
      destruct ms1 as [|x ms1]; [by rewrite app_nil_r|]. by apply (IH _ ms2).
Qed.

(** ** The calls *)

Lemma hoare_try {Q X} (I : GdrivePathIndex Q -> Prop) (m : M _ Error X) P E F :
  hoare I m P E ->
  hoare I (gi_try m) (fun r s => match r with Ok x => P x s | Err _ => E s | Panic => False end) F.
Proof. intros Hm s Hs. specialize (Hm s Hs). unfold gi_try. by destruct (m s) as [[]]. Qed.

Section IndexSpec.
  Context {Q : Type} `{HT : PathTree Q}.
  Variables (t0 : Tree) (r : str) (full : list str).

#[local] Abbreviation gi_fresh := (fresh (@gi_query Q) gi_entries t0 r full).
#[local] Abbreviation gi_at := (at_names (@gi_query Q) gi_entries t0 r full).

Lemma gi_ask_spec X (m : M Q Error X) (s : GdrivePathIndex Q) :
  (gi_ask m s).1 = (m (gi_query s)).1 /\ gi_query (gi_ask m s).2 = (m (gi_query s)).2 /\
  gi_entries (gi_ask m s).2 = gi_entries s.
Proof. unfold gi_ask, zoom. by destruct (m (gi_query s)). Qed.

Lemma gi_shrink (f : gmap str str -> gmap str str) E :
  (forall entries, f entries ⊆ entries) -> hoare gi_fresh (gi_set f) (fun _ => gi_fresh) E.
Proof. intros Hf s (? & ? & ?). split_and!; [done..|]. simpl. by eapply coherent_sub; [apply Hf|]. Qed.

Lemma gi_put (p : str) (ns : list str) (id : str) (f : gmap str str -> gmap str str) :
  located p ns -> (forall entries, f entries ⊆ entries) ->
  hoare (gi_at ns id) (gi_set (fun entries => <[p := id]> (f entries))) (fun _ => gi_at ns id) gi_fresh.
Proof.
  intros Hp Hf s [(? & ? & ?) ?]. split; [|done]. split_and!; [done..|]. simpl.
  eapply coherent_insert; [|done..]. by eapply coherent_sub; [apply Hf|].
Qed.

Lemma upsert_dir_spec s ns (id : str) :
  located (s ++ [slash]) ns -> hoare (gi_at ns id) (upsert_dir (s ++ [slash]) id) (fun _ => gi_at ns id) gi_fresh.
Proof.
  intros Hl. unfold upsert_dir, canonical_dir_path. rewrite normalize_dir_slash. apply (gi_put _ ns); [done|].
  intros entries. etransitivity; [apply remove_candidates_sub | apply delete_subseteq].
Qed.

Lemma upsert_file_spec p ns (id : str) :
  located p ns -> hoare (gi_at ns id) (upsert_file p id) (fun _ => gi_at ns id) gi_fresh.
Proof. intros Hl. apply (gi_put _ ns); [done|]. intros entries. apply remove_candidates_sub. Qed.

Lemma resolve_chain_spec p ns ms id :
  located p ns -> steps p ms ->
  hoare (gi_at ns id) (resolve_chain id (prefixes p ms))
    (fun o s => gi_fresh s /\ o = walk (tree_of (gi_query s)) r (ns ++ ms)) gi_fresh.
Proof.
  intros Hl Hs. revert ns id Hl. induction Hs as [p|p m ms Hp Hm Hs IH]; intros ns id Hl; cbn [prefixes resolve_chain].
  { apply hoare_ret. intros s [? ?]. rewrite app_nil_r. auto. }
  destruct (located_cut p m Hp Hm) as (-> & _).
  assert (located (p ++ m) (ns ++ [m])) as Hl' by (by constructor).
  replace (ns ++ m :: ms) with ((ns ++ [m]) ++ ms) by (by rewrite <- app_assoc).
  eapply hoare_bind; [apply (ask_query _ _ _ gi_ask_spec)|]. intros [id'|].
  - apply (hoare_bind _ _ _ (fun _ => gi_at (ns ++ [m]) id')); [|intros []; by apply IH].
    destruct (ends_with [slash] (p ++ m)) eqn:E; [|by apply upsert_file_spec].
    apply ends_with_true in E as [k Hk]. rewrite Hk in *. by apply upsert_dir_spec.
  - apply hoare_ret. intros s [[Hf _] Hn]. split; [done|]. by rewrite walk_app, Hn.
Qed.

Lemma refresh_path_spec fuel p ns :
  located p ns -> length ns <= fuel -> hoare gi_fresh (refresh_path fuel p) (fun _ => gi_fresh) gi_fresh.
Proof.
  intros Hl Hf. unfold refresh_path. case_match; [by apply hoare_ret|]. clear H0.
  revert fuel Hf. induction Hl as [| |p ns n Hl IH Hp Hn]; intros fuel Hf.
  1,2: destruct fuel; simpl; by apply hoare_ret.
  destruct (located_cut p n Hp Hn) as (_ & Hpar & Hne & Hns). rewrite length_app in Hf. simpl in Hf.
  destruct fuel as [|f]; [lia|]. cbn [refresh_loop]. rewrite bool_decide_eq_true_2 by done.
  eapply hoare_bind; [apply gi_shrink; intros; etransitivity; apply remove_candidates_sub|]. intros [].
  rewrite Hpar. case_decide; [|apply IH; lia]. destruct f; simpl; by apply hoare_ret.
Qed.

Lemma gi_entries_spec (I : GdrivePathIndex Q -> Prop) E :
  hoare I (gets gi_entries) (fun entries s => entries = gi_entries s /\ I s) E.
Proof. by intros s Hs. Qed.

Lemma ensure_round_spec fuel refreshed p ns ms id :
  full = ns ++ ms -> located p ns -> steps p ms -> Forall (fun m => exists w, m = w ++ [slash]) ms ->
  length full <= fuel ->
  hoare (gi_at ns id) (ensure_round fuel refreshed id (prefixes p ms))
    (fun o s => match o with Some id => gi_at full id s | None => gi_fresh s /\ refreshed = false end) gi_fresh.
Proof.
  intros Hfull Hl Hs Hd Hf. revert ns id Hfull Hl.
  induction Hs as [p|p m ms Hp Hm Hs IH]; intros ns id Hfull Hl; cbn [prefixes ensure_round].
  { apply hoare_ret. intros s [Hs Hw]. split; [done|]. by rewrite Hfull, app_nil_r. }
  apply Forall_cons in Hd as [[w ->] Hd]. specialize (IH Hd).
  assert (full = (ns ++ [w ++ [slash]]) ++ ms) as Hfull' by (by rewrite <- app_assoc).
  assert (located (p ++ w ++ [slash]) (ns ++ [w ++ [slash]])) as Hl' by (by constructor).
  destruct (located_cut p _ Hp Hm) as (-> & _). revert IH Hl'. rewrite app_assoc. intros IH Hl'.
  eapply hoare_bind; [apply gi_entries_spec|]. intros entries. rewrite lookup_cached_dir.
  destruct (entries !! ((p ++ w) ++ [slash])) as [v|] eqn:Ev.
  { eapply hoare_weaken; [|by apply IH|done]. intros s [-> [Hs0 _]]. split; [done|].
    destruct Hs0 as (_ & _ & Hc). by eapply coherent_lookup. }
  assert (forall value, hoare (gi_at (ns ++ [w ++ [slash]]) value)
    (upsert_dir ((p ++ w) ++ [slash]) value;; ensure_round fuel refreshed value (prefixes ((p ++ w) ++ [slash]) ms))
    (fun o s => match o with Some id => gi_at full id s | None => gi_fresh s /\ refreshed = false end) gi_fresh) as Hgo.
  { intros value. eapply hoare_bind; [by apply upsert_dir_spec|]. intros []. by apply IH. }
  assert (forall err, hoare gi_fresh
    (if negb refreshed && bool_decide (kind err = NotFound)
     then refresh_path fuel ((p ++ w) ++ [slash]);; mret None else throw err)
    (fun o s => match o with Some id => gi_at full id s | None => gi_fresh s /\ refreshed = false end) gi_fresh) as Hretry.
  { intros err. destruct refreshed; simpl; [by intros s Hs0|]. case_bool_decide; [|by intros s Hs0].
    eapply hoare_bind; [eapply refresh_path_spec; [done|]|intros []; by apply hoare_ret].
    rewrite Hfull', length_app in Hf. lia. }
  eapply hoare_bind.
  { eapply hoare_try, hoare_weaken; [|apply (ask_query _ _ _ gi_ask_spec) | by intros x s Hx; exact Hx]. by intros s [_ ?]. }
  intros [[v|]|err|]; [apply Hgo | | apply Hretry | by intros s []].
  eapply hoare_bind; [by eapply hoare_try, (ask_create _ _ _ gi_ask_spec)|].
  intros [v|err|]; [apply Hgo | apply Hretry | by intros s []].
Qed.

End IndexSpec.

(** ** Resolving *)

Section IndexTheorems.
  Context {Q : Type} `{HT : PathTree Q}.

Definition index_ok (s : GdrivePathIndex Q) : Prop :=
  coherent (tree_of (gi_query s)) (root_of (gi_query s)) (gi_entries s).

Lemma index_ok_new q : index_ok (index_new q).
Proof. apply coherent_empty. Qed.

Section Get.
  Variables (t0 : Tree) (r : str).
#[local] Abbreviation gi_fresh := (fresh (@gi_query Q) gi_entries t0 r []).
#[local] Abbreviation gi_at := (at_names (@gi_query Q) gi_entries t0 r []).
#[local] Abbreviation found ns := (fun o s => gi_fresh s /\ o = walk (tree_of (gi_query s)) r ns).

(** The plan starts at the last cached directory of the path, or at the root. *)
Lemma index_plan fuel p ns s :
  located p ns -> p <> [] -> p <> [slash] -> length ns <= fuel -> gi_fresh s ->
  lookup_cached_id (gi_entries s) p = None ->
  exists q ms1 ms2 o, ns = ms1 ++ ms2 /\ located q ms1 /\ steps q ms2 /\
    lookup_resolve_plan fuel p s = (Ok (o, prefixes q ms2), s) /\
    match o with Some id => gi_at ms1 id s | None => ms1 = [] end.
Proof.
  intros Hl Hne Hns Hf Hs Hnone.
  destruct (resolution_chain_spec fuel p ns [] Hl Hf) as (p0 & H0 & Hl0 & Hst & -> & Hc). rewrite app_nil_r in Hc.
  unfold lookup_resolve_plan. rewrite !bool_decide_eq_false_2 by done.
  unfold mbind, M_bind, lift, gets. simpl. rewrite Hc.
  pose proof (last_cached_spec (gi_entries s) p0 ns 0) as Hlast.
  destruct (prefixes p0 ns) as [|x chain] eqn:Ec.
  { destruct ns; [|done]. exfalso. simpl in *. rewrite app_nil_r in *. by destruct H0. }
  destruct (last_cached _ _ _) as [[id k]|]; [|exists p0, [], ns, None; by rewrite Ec].
  destruct Hlast as (ms1 & ms2 & -> & -> & Hms1 & Hid).
  apply steps_app in Hst as [Hst1 Hst2]. pose proof (located_steps _ _ _ Hl0 Hst1) as Hq. simpl in Hq.
  exists (p0 ++ concat ms1), ms1, ms2, (Some id). split_and!; [done..| |].
  - rewrite <- Ec, prefixes_app, drop_app_length'; [done|]. by rewrite prefixes_length.
  - split; [done|]. destruct ms2 as [|m ms2].
    { rewrite app_nil_r in Hnone. congruence. }
    inversion Hst2 as [|? ? ? [Hnil|[w Hw]] _ _]; subst.
    + exfalso. inversion Hq as [E|E|q' ns' n Hq' Hp Hn E]; rewrite <- E in *; [done|done|].
      by destruct (located_cut q' n Hp Hn) as (_ & _ & ? & _).
    + rewrite Hw, lookup_cached_dir in Hid. rewrite <- Hw in Hid. destruct Hs as (_ & _ & Hco).
      by eapply coherent_lookup.
Qed.

Lemma index_get_spec fuel p ns :
  located p ns -> length ns <= fuel ->
  hoare gi_fresh (index_get fuel p)
    (fun o s => gi_fresh s /\ (o = walk (tree_of (gi_query s)) r ns \/
       exists ms id, located (normalize_dir_path p) ms /\ o = Some id /\ walk (tree_of (gi_query s)) r ms = Some id)) gi_fresh.
Proof.
  intros Hl Hf. unfold index_get. destruct (bool_decide (p = []) || bool_decide (p = [slash])) eqn:E.
  { assert (ns = []) as ->.
    { apply orb_true_iff in E as [->%bool_decide_eq_true| ->%bool_decide_eq_true];
        eapply located_unique; try done; constructor. }
    eapply hoare_bind; [apply (ask_root _ _ _ gi_ask_spec)|]. intros x. apply hoare_ret. intros s [? ?]. auto. }
  apply orb_false_iff in E as [Hne%bool_decide_eq_false Hns%bool_decide_eq_false].
  intros s Hs. unfold mbind at 1, M_bind at 1, gets. simpl.
  destruct (lookup_cached_id (gi_entries s) p) as [id|] eqn:E.
  { split; [done|]. destruct Hs as (_ & _ & Hc). apply lookup_cached_Some in E as [E|E].
    - left. symmetry. by eapply coherent_lookup.
    - right. destruct (Hc _ _ E) as (ms & ? & ?). by exists ms, id. }
  destruct (index_plan fuel p ns s Hl Hne Hns Hf Hs E) as (q & ms1 & ms2 & o & -> & Hq & Hst & Hplan & Ho).
  unfold mbind at 1, M_bind at 1. rewrite Hplan. destruct o as [id|].
  - pose proof (resolve_chain_spec t0 r [] q ms1 ms2 id Hq Hst s Ho) as Hr. unfold resolve_from_chain.
    rewrite drop_0. destruct (resolve_chain id (prefixes q ms2) s) as [[o|e|] s']; [|done..]. destruct Hr. auto.
  - subst ms1. assert (hoare gi_fresh (root ← root_id; resolve_from_chain (prefixes q ms2) 0 root)
      (fun o s => gi_fresh s /\ o = walk (tree_of (gi_query s)) r ms2) gi_fresh) as Hh.
    { eapply hoare_bind; [apply (ask_root _ _ _ gi_ask_spec)|]. intros x.
      apply (resolve_chain_spec t0 r [] q [] ms2 x Hq Hst). }
    specialize (Hh s Hs). simpl in *.
    destruct ((root ← root_id; resolve_from_chain (prefixes q ms2) 0 root) s) as [[o|e|] s']; [|done..].
    destruct Hh. auto.
Qed.

End Get.

(** Resolving a path through the index: an answer is what walking the path's
    names from the root gives, or, for a path without its ['/'], the id of the
    directory of that name, if that is the one the index knows; the service is not
    changed, the index still agrees with it, also after an error, and the loop
    over the parents ends. *)
Theorem index_get_resolves fuel path ns (s : GdrivePathIndex Q) :
  located path ns -> length path <= fuel -> index_ok s ->
  let t := tree_of (gi_query s) in
  let r := root_of (gi_query s) in
  match index_get fuel path s with
  | (res, s') =>
      tree_of (gi_query s') = t /\ root_of (gi_query s') = r /\ index_ok s' /\
      match res with
      | Ok o => o = walk t r ns \/ exists ms id, located (normalize_dir_path path) ms /\ o = Some id /\ walk t r ms = Some id
      | Err _ => True
      | Panic => False
      end
  end.
Proof.
  intros Hl Hf Hs t r. pose proof (located_length _ _ Hl).
  assert (Hfr : fresh gi_query gi_entries t r [] s) by (split_and!; [done | apply grown_refl | done]).
  pose proof (index_get_spec t r fuel path ns Hl ltac:(lia) s Hfr) as Hg. unfold index_ok.
  destruct (index_get fuel path s) as [[o|e|] s']; [| |done].
  - destruct Hg as [(Hr & Ht%grown_nil & Hc) Ho]. rewrite Hr, Ht in *. auto.
  - destruct Hg as (Hr & Ht%grown_nil & Hc). rewrite Hr, Ht in *. auto.
Qed.

Lemma dir_names_dirs path : Forall (fun m => exists w, m = w ++ [slash]) (dir_names path).
Proof. apply Forall_fmap, Forall_true. intros w. by exists w. Qed.

Lemma ensure_loop_spec t0 r path rounds fuel refreshed :
  (if refreshed : bool then 1 else 2) <= rounds -> length (dir_names path) <= fuel ->
  hoare (fresh (@gi_query Q) gi_entries t0 r (dir_names path)) (ensure_loop rounds fuel refreshed (dir_parents path))
    (at_names gi_query gi_entries t0 r (dir_names path) (dir_names path))
    (fresh gi_query gi_entries t0 r (dir_names path)).
Proof.
  revert refreshed. induction rounds as [|n IH]; intros refreshed Hn Hf; [by destruct refreshed; lia|].
  cbn [ensure_loop]. eapply hoare_bind; [apply (ask_root _ _ _ gi_ask_spec)|]. intros root.
  eapply hoare_bind.
  { apply (ensure_round_spec _ _ _ fuel refreshed [] [] (dir_names path)); [done | constructor | | | done].
    - apply dir_names_steps; [apply components_ok | by left].
    - apply dir_names_dirs. }
  intros [id|]; [apply hoare_ret; by intros s Hs|].
  intros s [Hs ->]. apply IH; [lia | done | done].
Qed.

(** Ensuring a directory through the index: on success the path of
    directories exists and the answer is the id it leads to; nothing was removed
    or replaced, the only additions are directories of the path, and the index
    still agrees with the service, also after an error.  A round in which the
    service does not know an id is repeated once, so two rounds are enough. *)
Theorem index_ensure_dir_exists rounds fuel path (s : GdrivePathIndex Q) :
  let names := dir_names (normalize_dir_path path) in
  let t := tree_of (gi_query s) in
  let r := root_of (gi_query s) in
  2 <= rounds -> length names <= fuel -> index_ok s ->
  match index_ensure_dir rounds fuel path s with
  | (res, s') =>
      root_of (gi_query s') = r /\ index_ok s' /\ grown t r names (tree_of (gi_query s')) /\
      match res with
      | Ok id => walk (tree_of (gi_query s')) r names = Some id
      | Err _ => True
      | Panic => False
      end
  end.
Proof.
  intros names t r Hrounds Hf Hs.
  assert (Hfr : fresh gi_query gi_entries t r names s) by (split_and!; [done | apply grown_refl | done]).
  assert (hoare (fresh gi_query gi_entries t r names) (index_ensure_dir rounds fuel path)
    (at_names gi_query gi_entries t r names names) (fresh gi_query gi_entries t r names)) as Hh.
  { unfold index_ensure_dir, canonical_dir_path. case_bool_decide as Hp.
    - subst names. rewrite Hp. apply (ask_root _ _ _ gi_ask_spec).
    - by apply ensure_loop_spec. }
  specialize (Hh s Hfr). unfold index_ok. destruct (index_ensure_dir rounds fuel path s) as [[id|e|] s']; [| |done].
  - destruct Hh as [(Hr & Hg & Hc) Hw]. rewrite Hr. auto.
  - destruct Hh as (Hr & Hg & Hc). rewrite Hr. auto.
Qed.

(** ** Invalidating *)

Lemma located_relative p ns : located p ns -> starts_with [slash] p = false -> p = concat ns.
Proof.
  intros (p0 & [->| ->] & _ & _ & ->)%located_prefixes Hp; [done|]. by rewrite starts_with_app in Hp.
Qed.

Lemma invalidate_dir_lookup path (s : GdrivePathIndex Q) p id :
  gi_entries (invalidate_dir path s).2 !! p = Some id <->
  gi_entries s !! p = Some id /\ starts_with (normalize_dir_path path) p = false /\
  p <> trim_end_slashes (normalize_dir_path path).
Proof.
  unfold invalidate_dir, gi_set, modify, canonical_dir_path. simpl.
  rewrite map_lookup_filter_Some, lookup_delete_Some. simpl. naive_solver.
Qed.

(** A directory went away or was replaced: however the service's tree has
    changed at and below the directory, once the directory is invalidated the
    index agrees with the new tree, and it keeps every entry that is neither the
    directory nor below it. *)
Theorem invalidate_dir_restores path dnames q' (s : GdrivePathIndex Q) :
  let dir := normalize_dir_path path in
  let r := root_of (gi_query s) in
  located dir dnames -> starts_with [slash] dir = false ->
  index_ok s -> (forall p, is_Some (gi_entries s !! p) -> starts_with [slash] p = false) ->
  root_of q' = r ->
  (forall ns id, ~ dnames `prefix_of` ns ->
     walk (tree_of (gi_query s)) r ns = Some id -> walk (tree_of q') r ns = Some id) ->
  exists s', invalidate_dir path (mkPathIndex q' (gi_entries s)) = (Ok tt, s') /\ gi_query s' = q' /\ index_ok s' /\
    (forall p, starts_with dir p = false -> p <> trim_end_slashes dir -> gi_entries s' !! p = gi_entries s !! p).
Proof.
  intros dir r Hdir Hrel Hs Hkeys Hr Hsame.
  exists (invalidate_dir path (mkPathIndex q' (gi_entries s))).2. split_and!; [done..| |].
  - intros p id (Hp & Hout & _)%invalidate_dir_lookup. simpl in Hp. destruct (Hs p id Hp) as (ns & Hl & Hw).
    exists ns. split; [done|]. simpl. rewrite Hr. apply Hsame; [|done]. intros [ls ->].
    apply located_relative in Hl; [|by eapply Hkeys]. apply located_relative in Hdir; [|done].
    revert Hout. fold dir. rewrite Hl, Hdir, concat_app. by rewrite starts_with_app.
  - intros p Hout Hne. apply option_eq. intros id. rewrite invalidate_dir_lookup. simpl. naive_solver.
Qed.

End IndexTheorems.

(** A path and the directory of that name are never both known. *)
Definition exclusive (entries : gmap str str) : Prop :=
  forall p, ends_with [slash] p = false -> p <> [] -> entries !! p = None \/ entries !! (p ++ [slash]) = None.

Lemma exclusive_sub v v' : v' ⊆ v -> exclusive v -> exclusive v'.
Proof.
  intros Hv He p Hp Hn. destruct (He p Hp Hn) as [E|E]; [left|right]; by eapply lookup_weaken_None.
Qed.

Lemma trim_slashes_end p : ends_with [slash] p = false -> trim_end_slashes (p ++ [slash]) = p.
Proof.
  intros Hp. unfold trim_end_slashes. rewrite rev_app_distr. simpl.
  destruct (last_snoc_cases p) as [->|(p' & x & ->)]; [done|]. rewrite ends_with_snoc in Hp.
  apply bool_decide_eq_false in Hp. rewrite rev_app_distr. simpl.
  rewrite decide_False by congruence. simpl. by rewrite rev_involutive.
Qed.

(** Insertion keeps them apart when it removes the other one. *)
Lemma exclusive_insert v k id :
  exclusive v ->
  (ends_with [slash] k = false -> k <> [] -> v !! (k ++ [slash]) = None) ->
  (forall p, k = p ++ [slash] -> ends_with [slash] p = false -> p <> [] -> v !! p = None) ->
  exclusive (<[k := id]> v).
Proof.
  intros He H1 H2 p Hp Hn. destruct (decide (k = p)) as [->|Hk].
  { right. rewrite lookup_insert_ne; [by apply H1|]. intros E. apply (f_equal length) in E.
    rewrite length_app in E. simpl in E. lia. }
  rewrite (lookup_insert_ne _ k p) by done. destruct (decide (k = p ++ [slash])) as [->|Hk'].
  - left. by apply (H2 p).
  - rewrite lookup_insert_ne by done. by apply He.
Qed.

Lemma remove_candidates_None path entries p :
  p = path \/ p = normalize_dir_path path -> remove_path_candidates path entries !! p = None.
Proof.
  unfold remove_path_candidates, canonical_dir_path. intros Hp. case_bool_decide as Hd.
  - destruct (decide (p = normalize_dir_path path)) as [->|]; [apply lookup_delete_eq|].
    rewrite lookup_delete_ne by congruence. destruct Hp as [->|]; [apply lookup_delete_eq | done].
  - destruct Hp as [->| ->]; rewrite ?Hd; apply lookup_delete_eq.
Qed.

(** Whatever is recorded or forgotten, the index never knows a path both as a
    file and as a directory, so that a lookup without the ['/'] is not
    ambiguous. *)
Theorem index_exclusive {Q} (s : GdrivePathIndex Q) path id fuel :
  exclusive (gi_entries s) ->
  (ends_with [slash] path = false -> exclusive (gi_entries (upsert_file path id s).2)) /\
  exclusive (gi_entries (upsert_dir path id s).2) /\ exclusive (gi_entries (invalidate_file path s).2) /\
  exclusive (gi_entries (invalidate_dir path s).2) /\ exclusive (gi_entries (refresh_path fuel path s).2).
Proof.
  intros He. split_and!.
  - intros Hp. simpl. apply exclusive_insert.
    + eapply exclusive_sub; [apply remove_candidates_sub | done].
    + intros _ Hn. apply remove_candidates_None. right. unfold normalize_dir_path.
      by rewrite bool_decide_eq_false_2, Hp.
    + intros p -> Hp' _. by rewrite ends_with_app in Hp.
  - simpl. apply exclusive_insert.
    + eapply exclusive_sub; [etransitivity; [apply remove_candidates_sub | apply delete_subseteq] | done].
    + unfold canonical_dir_path, normalize_dir_path. case_match eqn:E; [|by rewrite ends_with_app].
      apply orb_true_iff in E as [->%bool_decide_eq_true| ->]; done.
    + intros p Hk Hp _. rewrite Hk, (trim_slashes_end p Hp).
      eapply lookup_weaken_None; [|apply remove_candidates_sub]. apply lookup_delete_eq.
  - eapply exclusive_sub; [apply remove_candidates_sub | done].
  - eapply exclusive_sub; [|done]. simpl. etransitivity; [apply map_filter_subseteq | apply delete_subseteq].
  - unfold refresh_path. case_match; [done|]. clear H. revert path s He.
    induction fuel as [|f IH]; intros path s He; cbn [refresh_loop]; case_bool_decide; try done.
    apply IH. eapply exclusive_sub; [|done]. simpl. etransitivity; apply remove_candidates_sub.
Qed.

(** ** Examples *)

Lemma located_dirs ws : Forall component ws -> located (concat ((fun w => w ++ [slash]) <$> ws)) ((fun w => w ++ [slash]) <$> ws).
Proof.
  intros Hws. apply (located_steps [] []); [constructor|]. apply dir_names_steps; [done | by left].
Qed.

Lemma index_get_resolves_witness :
  exists s, index_get 5 (b "a/b/c") (index_new sample_service) = (Ok (Some (b "3")), s) /\ index_ok s.
Proof.
  pose proof (index_get_resolves 5 (b "a/b/c") _ (index_new sample_service) located_sample
    ltac:(simpl; lia) (index_ok_new _)) as Hg.
  assert ((index_get 5 (b "a/b/c") (index_new sample_service)).1 = Ok (Some (b "3"))) as E by (vm_compute; reflexivity).
  destruct (index_get _ _ _) as [res s]. simpl in E. subst res. exists s. split; [done|]. apply Hg.
Defined.

Lemma index_ensure_dir_exists_witness :
  exists s, index_ensure_dir 2 3 (b "a/x/y") (index_new sample_service) = (Ok (b "1:x/:y/"), s) /\
    walk (tree_of (gi_query s)) (b "root") [b "a/"; b "x/"; b "y/"] = Some (b "1:x/:y/") /\ index_ok s.
Proof.
  pose proof (index_ensure_dir_exists 2 3 (b "a/x/y") (index_new sample_service) ltac:(lia)
    ltac:(vm_compute; lia) (index_ok_new _)) as Hg.
  assert ((index_ensure_dir 2 3 (b "a/x/y") (index_new sample_service)).1 = Ok (b "1:x/:y/")) as E
    by (vm_compute; reflexivity).
  destruct (index_ensure_dir _ _ _ _) as [res s]. simpl in E. subst res. exists s. split; [done|].
  destruct Hg as (_ & Hok & _ & Hw). split; [exact Hw | exact Hok].
Defined.

(** The directory [a/b/] is replaced by another. *)
Definition replaced_service : Tree := <[(b "1", b "b/") := b "4"]> sample_service.
Definition sample_index : GdrivePathIndex Tree :=
  mkPathIndex sample_service (<[b "a/b/c" := b "3"]> (<[b "a/" := b "1"]> ∅)).

Lemma sample_component w : w ∈ [b "a"; b "b"; b "c"] -> component w.
Proof.
  intros Hw. unfold component. repeat (apply elem_of_cons in Hw as [->|Hw]; [split; [done|vm_compute; set_solver]|]).
  by apply elem_of_nil in Hw.
Qed.

Lemma sample_replaced ns id :
  ~ [b "a/"; b "b/"] `prefix_of` ns ->
  walk sample_service (b "root") ns = Some id -> walk replaced_service (b "root") ns = Some id.
Proof.
  assert (forall t i n ms, walk t i (n :: ms) = j ← t !! (i, n); walk t j ms) as Hcons.
  { intros t i n ms. apply (walk_app t i [n] ms). }
  destruct ns as [|n ns]; [done|]. intros Hns. rewrite !Hcons. intros (i & Hn & Hw)%bind_Some.
  unfold sample_service in Hn.
  repeat (apply lookup_insert_Some in Hn as [[E <-]|[_ Hn]]; [try discriminate E|]); [|done].
  injection E as <-. destruct ns as [|m ns]; [done|]. rewrite Hcons in Hw. apply bind_Some in Hw as (j & Hm & _).
  unfold sample_service in Hm.
  repeat (apply lookup_insert_Some in Hm as [[E <-]|[_ Hm]]; [try discriminate E|]); [|done].
  injection E as <-. destruct Hns. by exists ns.
Qed.

Lemma invalidate_dir_restores_witness :
  exists s', invalidate_dir (b "a/b") (mkPathIndex replaced_service (gi_entries sample_index)) = (Ok tt, s') /\
    gi_query s' = replaced_service /\ index_ok s' /\ gi_entries s' !! b "a/" = Some (b "1").
Proof.
  destruct (invalidate_dir_restores (b "a/b") [b "a/"; b "b/"] replaced_service sample_index)
    as (s' & E & Hq & Hok & Hkeep).
  - apply (located_dirs [b "a"; b "b"]). repeat constructor; apply sample_component; set_solver.
  - done.
  - intros p id Hp. unfold sample_index in Hp. simpl in Hp.
    apply lookup_insert_Some in Hp as [[<- <-]|[_ Hp]]; [exists [b "a/"; b "b/"; b "c"]; split; [apply located_sample | done]|].
    apply lookup_insert_Some in Hp as [[<- <-]|[_ Hp]]; [|done]. exists [b "a/"]. split; [|done].
    apply (located_dirs [b "a"]). repeat constructor; apply sample_component; set_solver.
  - intros p [id Hp]. unfold sample_index in Hp. simpl in Hp.
    by apply lookup_insert_Some in Hp as [[<- _]|[_ [[<- _]|[_ Hp]]%lookup_insert_Some]].
  - done.
  - apply sample_replaced.
  - exists s'. split_and!; [done..|]. by rewrite Hkeep.
Defined.
