(* ===== verification/GdriveRecent.v ===== *)
(** * Recent changes of Google Drive ([core/services/gdrive/src/core.rs])

    The service is not consistent at once: a file just written may be missing from
    a listing, one just deleted may still be there.  [GdriveCore] keeps what the
    operator changed in the last fifteen seconds and answers from it first.
    Deleting a directory hides everything below it with a tombstone; writing below
    it later brings its parents back.

    Times are [Z], in nanoseconds; the clock is an argument of every call. *)

From S2P Require Import Prelude Errors Path Range Buffer Types PathCache Gdrive.
From stdpp Require Import sorting options.

Record GdriveRecentEntry : Type := mkRecent { re_metadata : option Metadata; re_expires_at : Z }.

Record GdriveRecentState : Type := mkRecentState {
  rs_entries : gmap str GdriveRecentEntry; rs_tombstones : gmap str Z;
}.

Inductive GdriveRecentPathState : Type := Missing | Deleted | Present (m : Metadata).

Definition recent_default : GdriveRecentState := mkRecentState ∅ ∅.

Definition canonical_recent_path (path : str) (mode : EntryMode) : str :=
  if is_dir mode then normalize_dir_path path else path.

Definition prune_recent_entries (now : Z) (s : GdriveRecentState) : GdriveRecentState :=
  mkRecentState (filter (fun kv => (now < re_expires_at kv.2)%Z) (rs_entries s))
    (filter (fun kv => (now < kv.2)%Z) (rs_tombstones s)).

Definition lookup_recent_entry (entries : gmap str GdriveRecentEntry) (path : str) : option GdriveRecentEntry :=
  entries !! path.

Definition recent_path_candidates (path : str) : list str :=
  let dir_path := normalize_dir_path path in
  path :: (if bool_decide (dir_path <> path) then [dir_path] else []).

Definition path_under_tombstone (path tombstone : str) : bool :=
  bool_decide (tombstone = []) || bool_decide (path = tombstone) || starts_with tombstone path.

(** [Iterator::max]. *)
Definition max_of (ts : list Z) : option Z :=
  match ts with [] => None | t :: ts' => Some (foldl Z.max t ts') end.

Definition covered_by (path tombstone : str) : bool :=
  existsb (fun candidate => path_under_tombstone candidate tombstone) (recent_path_candidates path).

Definition lookup_recent_tombstone (tombstones : gmap str Z) (path : str) : option Z :=
  max_of ((map_to_list tombstones ≫= fun kv => if covered_by path kv.1 then [kv.2] else [])).

Definition insert_recent_entry (path : str) (mode : EntryMode) (entry : GdriveRecentEntry)
    (entries : gmap str GdriveRecentEntry) : gmap str GdriveRecentEntry :=
  let entries := <[path := entry]> entries in
  if is_dir mode then
    let alias := trim_end_slashes path in
    if bool_decide (alias <> []) then <[alias := entry]> entries else entries
  else entries.

(** The loop over the parents; [fuel] bounds its rounds. *)
Fixpoint revive_loop (fuel : nat) (parent : str) (expires_at : Z) (s : GdriveRecentState) : result GdriveRecentState :=
  if bool_decide (parent <> [] /\ parent <> [slash]) then
    match fuel with
    | O => Panic
    | S f =>
        let s := match lookup_recent_tombstone (rs_tombstones s) parent with
                 | Some _ =>
                     mkRecentState (insert_recent_entry parent DIR (mkRecent (Some (meta_new DIR)) expires_at) (rs_entries s))
                       (rs_tombstones s)
                 | None => s
                 end in
        revive_loop f (get_parent parent) expires_at s
    end
  else Ok s.

Definition revive_recent_parent_dirs (fuel : nat) (path : str) (expires_at : Z) (s : GdriveRecentState)
    : result GdriveRecentState :=
  revive_loop fuel (get_parent path) expires_at s.

(** [Duration::from_secs(15)]. *)
Definition recent_window : Z := 15000000000.

Definition record_recent_upsert (fuel : nat) (now : Z) (path : str) (metadata : Metadata)
    : M GdriveRecentState Error unit := fun s =>
  let s := prune_recent_entries now s in
  let mode := m_mode metadata in
  let path := canonical_recent_path path mode in
  let expires_at := (now + recent_window)%Z in
  let s := mkRecentState (insert_recent_entry path mode (mkRecent (Some metadata) expires_at) (rs_entries s))
             (rs_tombstones s) in
  match revive_recent_parent_dirs fuel path expires_at s with
  | Ok s' => (Ok tt, s')
  | Err e => (Err e, s)
  | Panic => (Panic, s)
  end.

Definition record_recent_delete (now : Z) (path : str) (mode : EntryMode) : M GdriveRecentState Error unit := fun s =>
  let s := prune_recent_entries now s in
  let path := canonical_recent_path path mode in
  let expires_at := (now + recent_window)%Z in
  let entries := insert_recent_entry path mode (mkRecent None expires_at) (rs_entries s) in
  (Ok tt, mkRecentState entries (if is_dir mode then <[path := expires_at]> (rs_tombstones s) else rs_tombstones s)).

Definition path_state (s : GdriveRecentState) (path : str) : GdriveRecentPathState :=
  match lookup_recent_entry (rs_entries s) path, lookup_recent_tombstone (rs_tombstones s) path with
  | Some entry, tombstone =>
      if match tombstone with Some t => bool_decide (re_expires_at entry < t)%Z | None => false end then Deleted
      else match re_metadata entry with Some metadata => Present metadata | None => Deleted end
  | None, Some _ => Deleted
  | None, None => Missing
  end.

Definition recent_entry_for_path (now : Z) (path : str) : M GdriveRecentState Error GdriveRecentPathState := fun s =>
  let s := prune_recent_entries now s in (Ok (path_state s path), s).

Definition recent_entry_in_scope (scope_path path : str) (mode : EntryMode) (recursive : bool) : bool :=
  if recursive then
    if bool_decide (scope_path = []) then true
    else if ends_with [slash] scope_path then starts_with scope_path path && bool_decide (path <> scope_path)
    else bool_decide (path = canonical_recent_path scope_path mode) || starts_with scope_path path
  else
    let parent := get_parent path in
    if bool_decide (scope_path = []) then bool_decide (parent = [slash]) else bool_decide (parent = scope_path).

(** The closure of the [filter_map]. *)
Definition recent_visible (s : GdriveRecentState) (scope_path : str) (recursive : bool) (kv : str * GdriveRecentEntry)
    : option (str * Metadata) :=
  let '(path, entry) := kv in
  metadata ← re_metadata entry;
  if is_dir (m_mode metadata) && bool_decide (path <> normalize_dir_path path) then None
  else if match lookup_recent_tombstone (rs_tombstones s) path with
          | Some t => bool_decide (re_expires_at entry < t)%Z | None => false end then None
  else if match lookup_recent_entry (rs_entries s) path with
          | Some latest => bool_decide (re_expires_at entry < re_expires_at latest)%Z | None => false end then None
  else if recent_entry_in_scope scope_path path (m_mode metadata) recursive then Some (path, metadata)
  else None.

(** [sort_by(|left, right| left.0.cmp(&right.0))]. *)
Definition path_le (x y : str * Metadata) : Prop := str_leP x.1 y.1.
#[export] Instance path_le_dec : RelDecision path_le.
Proof. intros x y. unfold path_le. apply _. Defined.

(** The map is iterated in no particular order, which the sort hides. *)
Definition recent_entries_for_list (now : Z) (scope_path : str) (recursive : bool)
    : M GdriveRecentState Error (list (str * Metadata)) := fun s =>
  let s := prune_recent_entries now s in
  (Ok (merge_sort path_le (omap (recent_visible s scope_path recursive) (map_to_list (rs_entries s)))), s).

(** ** Tombstones *)

Lemma foldl_max_spec ts t :
  (t <= foldl Z.max t ts)%Z /\ (forall u, u ∈ ts -> (u <= foldl Z.max t ts)%Z) /\
  (foldl Z.max t ts = t \/ foldl Z.max t ts ∈ ts).
Proof.
  revert t. induction ts as [|x ts IH]; intros t; simpl; [split_and!; [lia | set_solver | by left]|].
  destruct (IH (Z.max t x)) as (H1 & H2 & H3). split_and!; [lia | |].
  - intros u [->|Hu]%elem_of_cons; [lia | auto].
  - destruct H3 as [H3|H3]; [|right; by right]. rewrite H3. destruct (Z.max_spec t x) as [[_ ->]|[_ ->]]; [right; by left | by left].
Qed.

(** The newest tombstone over a path, if there is one. *)
Lemma lookup_tombstone_spec tombstones path :
  match lookup_recent_tombstone tombstones path with
  | Some t => (exists d, tombstones !! d = Some t /\ covered_by path d = true) /\
      (forall d u, tombstones !! d = Some u -> covered_by path d = true -> (u <= t)%Z)
  | None => forall d u, tombstones !! d = Some u -> covered_by path d = false
  end.
Proof.
  unfold lookup_recent_tombstone.
  assert (forall u, u ∈ (map_to_list tombstones ≫= fun kv => if covered_by path kv.1 then [kv.2] else []) <->
    exists d, tombstones !! d = Some u /\ covered_by path d = true) as Hin.
  { intros u. rewrite list_elem_of_bind. split.
    - intros ([d v] & Hu & Hd%elem_of_map_to_list). simpl in Hu. exists d. destruct (covered_by path d); [|set_solver].
      apply list_elem_of_singleton in Hu. by subst.
    - intros (d & Hd & Hc). exists (d, u). simpl. rewrite Hc. split; [by left | by apply elem_of_map_to_list]. }
  destruct (_ ≫= _) as [|t ts]; simpl.
  - intros d u Hd. destruct (covered_by path d) eqn:E; [|done].
    exfalso. apply (proj1 (elem_of_nil u)), Hin. eauto.
  - destruct (foldl_max_spec ts t) as (H1 & H2 & H3). split.
    + apply Hin. destruct H3 as [->|?]; [by left | by right].
    + intros d u Hd Hc. assert (u ∈ t :: ts) as [->|Hu]%elem_of_cons by (apply Hin; eauto); auto.
Qed.

(** Dropping the expired tombstones, or adding one elsewhere, changes nothing. *)
Lemma lookup_tombstone_ext ts ts' path :
  (forall d u, covered_by path d = true -> ts !! d = Some u <-> ts' !! d = Some u) ->
  lookup_recent_tombstone ts path = lookup_recent_tombstone ts' path.
Proof.
  intros H. pose proof (lookup_tombstone_spec ts path) as H1. pose proof (lookup_tombstone_spec ts' path) as H2.
  destruct (lookup_recent_tombstone ts path) as [t|], (lookup_recent_tombstone ts' path) as [t'|]; [| | |done].
  - destruct H1 as [(d & Hd & Hc) Hm], H2 as [(d' & Hd' & Hc') Hm']. f_equal.
    apply H in Hd; [|done]. apply H in Hd'; [|done]. specialize (Hm' _ _ Hd Hc). specialize (Hm _ _ Hd' Hc'). lia.
  - destruct H1 as [(d & Hd & Hc) _]. apply H in Hd; [|done]. by rewrite (H2 _ _ Hd) in Hc.
  - destruct H2 as [(d & Hd & Hc) _]. apply H in Hd; [|done]. by rewrite (H1 _ _ Hd) in Hc.
Qed.

(** ** Parents *)

Lemma get_parent_shorter p :
  p <> [] -> p <> [slash] -> get_parent p = [slash] \/ length (get_parent p) < length p.
Proof.
  intros Hne Hns. unfold get_parent. rewrite bool_decide_eq_false_2 by done.
  destruct (ends_with [slash] p) eqn:E; simpl.
  - destruct (rfind_char slash (take (length p - 1) p)) as [v|] eqn:Ev; simpl; [|by left]. right.
    apply rfind_char_Some in Ev as [Es _]. apply (f_equal length) in Es.
    rewrite length_app, !length_take in Es. simpl in Es. rewrite length_take. destruct p; simpl in *; [done|]. lia.
  - destruct (rfind_char slash p) as [v|] eqn:Ev; [|by left]. right.
    apply rfind_char_Some in Ev as [Es _]. rewrite length_take. rewrite Es in E.
    destruct (drop (S v) p) as [|x w] eqn:Ed; [by rewrite ends_with_app in E|].
    apply (f_equal length) in Ed. rewrite length_drop in Ed. simpl in Ed. lia.
Qed.

Lemma get_parent_length p : length (get_parent p) <= max 1 (length p).
Proof.
  destruct (decide (p = [] \/ p = [slash])) as [[->| ->]|Hp]; [simpl; lia..|].
  destruct (get_parent_shorter p) as [->|?]; [naive_solver..|simpl; lia|lia].
Qed.

(** The directories that the loop visits. *)
Fixpoint visited_dirs (fuel : nat) (parent : str) : list str :=
  if bool_decide (parent <> [] /\ parent <> [slash]) then
    match fuel with O => [] | S f => parent :: visited_dirs f (get_parent parent) end
  else [].

(** The keys under which a change of [path] is recorded, and those it may bring
    back. *)
Definition keys_of (path : str) : list str := [path; trim_end_slashes path].
Definition revived_keys (fuel : nat) (path : str) : list str :=
  visited_dirs fuel (get_parent path) ≫= keys_of.

Lemma visited_dirs_shorter fuel parent q : q ∈ visited_dirs fuel parent -> length q <= length parent.
Proof.
  revert parent. induction fuel as [|f IH]; intros parent; simpl; case_bool_decide as Hp; try set_solver.
  intros [->|Hq]%elem_of_cons; [done|]. destruct (get_parent_shorter parent) as [E|?]; [naive_solver..| |].
  - rewrite E in Hq. by destruct f; apply elem_of_nil in Hq.
  - apply IH in Hq. lia.
Qed.

Lemma trim_end_shorter p : length (trim_end_slashes p) <= length p.
Proof.
  unfold trim_end_slashes. rewrite length_rev, <- (length_rev p). generalize (rev p) as s. intros s.
  induction s as [|x s IH]; simpl; [done|]. case_decide; simpl; lia.
Qed.

Lemma revived_keys_not_self fuel path : path ∉ revived_keys fuel path.
Proof.
  intros (q & Hk & Hq)%list_elem_of_bind. assert (length path <= length q) as Hle.
  { unfold keys_of in Hk. pose proof (trim_end_shorter q). set_unfold in Hk.
    destruct Hk as [->|[->|[]]]; lia. }
  destruct (decide (path = [] \/ path = [slash])) as [Hp|Hp].
  { assert (get_parent path = [slash]) as E by (by destruct Hp as [->| ->]). rewrite E in Hq.
    by destruct fuel; apply elem_of_nil in Hq. }
  destruct (get_parent_shorter path) as [E|?]; [naive_solver..| |].
  - rewrite E in Hq. by destruct fuel; apply elem_of_nil in Hq.
  - apply visited_dirs_shorter in Hq. lia.
Qed.

Lemma insert_recent_lookup path mode entry entries p :
  insert_recent_entry path mode entry entries !! p =
  (if decide (p = path \/ is_dir mode = true /\ p = trim_end_slashes path /\ p <> []) then Some entry else entries !! p).
Proof.
  unfold insert_recent_entry. destruct (is_dir mode) eqn:Em; [case_bool_decide as Ha|];
    case_decide as Hd; rewrite ?lookup_insert; repeat case_decide; naive_solver.
Qed.

Lemma revive_loop_spec fuel parent e s :
  length parent <= fuel ->
  exists s', revive_loop fuel parent e s = Ok s' /\ rs_tombstones s' = rs_tombstones s /\
    forall p, rs_entries s' !! p = rs_entries s !! p \/
      (p ∈ visited_dirs fuel parent ≫= keys_of) /\ rs_entries s' !! p = Some (mkRecent (Some (meta_new DIR)) e).
Proof.
  revert parent s. induction fuel as [|f IH]; intros parent s Hf; simpl; case_bool_decide as Hp;
    try (exists s; split_and!; [done..|]; intros p; by left).
  { destruct parent; simpl in Hf; [naive_solver | lia]. }
  set (s1 := match lookup_recent_tombstone _ _ with Some _ => _ | None => _ end).
  assert (rs_tombstones s1 = rs_tombstones s /\ forall p, rs_entries s1 !! p = rs_entries s !! p \/
    (p ∈ keys_of parent /\ rs_entries s1 !! p = Some (mkRecent (Some (meta_new DIR)) e))) as [Ht1 H1].
  { subst s1. destruct (lookup_recent_tombstone _ _); simpl; [|by split; [|left]]. split; [done|]. intros p.
    rewrite insert_recent_lookup. case_decide as Hd; [right | by left]. split; [|done]. unfold keys_of. set_solver. }
  assert (exists s', revive_loop f (get_parent parent) e s1 = Ok s' /\ rs_tombstones s' = rs_tombstones s1 /\
    forall p, rs_entries s' !! p = rs_entries s1 !! p \/
      (p ∈ visited_dirs f (get_parent parent) ≫= keys_of) /\
      rs_entries s' !! p = Some (mkRecent (Some (meta_new DIR)) e)) as (s' & -> & Ht & Hs').
  { destruct (get_parent_shorter parent) as [E|?]; [naive_solver..| |apply IH; lia].
    rewrite E. exists s1. split; [by destruct f|]. split; [done|]. by left. }
  exists s'. split; [done|]. split; [congruence|]. intros p. rewrite bind_cons, elem_of_app.
  destruct (Hs' p) as [->|[? ->]]; [|auto]. destruct (H1 p) as [->|[? ->]]; auto.
Qed.

(** ** What is recorded is seen *)

(** Nothing recorded expires later than a change made at [t]. *)
Definition recorded_by (t : Z) (s : GdriveRecentState) : Prop :=
  (forall p e, rs_entries s !! p = Some e -> (re_expires_at e <= t + recent_window)%Z) /\
  (forall d u, rs_tombstones s !! d = Some u -> (u <= t + recent_window)%Z).

Lemma prune_entries_lookup now s p e :
  rs_entries (prune_recent_entries now s) !! p = Some e <-> rs_entries s !! p = Some e /\ (now < re_expires_at e)%Z.
Proof. simpl. by rewrite map_lookup_filter_Some. Qed.
Lemma prune_tombstones_lookup now s d u :
  rs_tombstones (prune_recent_entries now s) !! d = Some u <-> rs_tombstones s !! d = Some u /\ (now < u)%Z.
Proof. simpl. by rewrite map_lookup_filter_Some. Qed.

Lemma prune_recorded t now s : recorded_by t s -> recorded_by t (prune_recent_entries now s).
Proof.
  intros [He Ht]. split.
  - intros p e [Hp _]%prune_entries_lookup. by eapply He.
  - intros d u [Hd _]%prune_tombstones_lookup. by eapply Ht.
Qed.

Lemma recorded_mono t t' s : (t <= t')%Z -> recorded_by t s -> recorded_by t' s.
Proof.
  intros Hle [He Ht]. split; [intros p e Hp; specialize (He p e Hp) | intros d u Hd; specialize (Ht d u Hd)]; lia.
Qed.

Lemma upsert_entries fuel now path m s t :
  recorded_by t s -> (t <= now)%Z -> length (canonical_recent_path path (m_mode m)) < fuel ->
  let q := canonical_recent_path path (m_mode m) in
  let e := (now + recent_window)%Z in
  exists s', record_recent_upsert fuel now path m s = (Ok tt, s') /\ recorded_by now s' /\
    rs_tombstones s' = rs_tombstones (prune_recent_entries now s) /\ rs_entries s' !! q = Some (mkRecent (Some m) e) /\
    forall p, p ∉ q :: trim_end_slashes q :: revived_keys fuel q ->
      rs_entries s' !! p = rs_entries (prune_recent_entries now s) !! p.
Proof.
  intros Hs Ht Hf q e. unfold record_recent_upsert, revive_recent_parent_dirs. fold q e.
  set (s1 := mkRecentState (insert_recent_entry q (m_mode m) (mkRecent (Some m) e) (rs_entries (prune_recent_entries now s)))
    (rs_tombstones (prune_recent_entries now s))).
  pose proof (get_parent_length q) as Hlen. fold q in Hf.
  assert (exists s', revive_loop fuel (get_parent q) e s1 = Ok s' /\ rs_tombstones s' = rs_tombstones s1 /\
    forall p, rs_entries s' !! p = rs_entries s1 !! p \/
      (p ∈ revived_keys fuel q) /\ rs_entries s' !! p = Some (mkRecent (Some (meta_new DIR)) e)) as (s' & -> & Htomb & Hs')
    by (apply revive_loop_spec; lia).
  exists s'. split; [done|].
  assert (recorded_by now (prune_recent_entries now s)) as [Hpe Hpt] by (by eapply prune_recorded, recorded_mono).
  split_and!; [| done | |].
  - split; [|intros d u Hd; rewrite Htomb in Hd; by eapply Hpt].
    intros p x Hx. destruct (Hs' p) as [E|[_ E]]; rewrite E in Hx; [|injection Hx as <-; simpl; unfold e; lia].
    simpl in Hx. rewrite insert_recent_lookup in Hx. case_decide; [injection Hx as <-; simpl; unfold e; lia | by eapply Hpe].
  - destruct (Hs' q) as [->|[Hq _]]; [|by apply revived_keys_not_self in Hq].
    simpl. rewrite insert_recent_lookup, decide_True by auto. done.
  - intros p Hp. destruct (Hs' p) as [->|[? _]]; [|set_solver]. simpl. rewrite insert_recent_lookup.
    rewrite decide_False; [done|]. set_solver.
Qed.

(** A write is seen: once it is recorded, and until it expires, its path is
    present with the metadata that was written, whatever was recorded before, a
    deletion of the path or of a directory above it included. *)
Theorem recent_upsert_seen fuel t now later path m s :
  recorded_by t s -> (t <= now <= later)%Z -> (later < now + recent_window)%Z ->
  length (canonical_recent_path path (m_mode m)) < fuel ->
  exists s', record_recent_upsert fuel now path m s = (Ok tt, s') /\ recorded_by now s' /\
    (recent_entry_for_path later (canonical_recent_path path (m_mode m)) s').1 = Ok (Present m).
Proof.
  intros Hs [Ht Hl] Hw Hf. destruct (upsert_entries fuel now path m s t Hs Ht Hf) as (s' & E & Hr & _ & Hq & _).
  exists s'. split; [done|]. split; [done|]. unfold recent_entry_for_path, path_state, lookup_recent_entry. cbn [fst].
  set (q := canonical_recent_path _ _) in *.
  rewrite (proj2 (prune_entries_lookup later s' q _) (conj Hq Hw)).
  pose proof (lookup_tombstone_spec (rs_tombstones (prune_recent_entries later s')) q) as Hts.
  destruct (lookup_recent_tombstone _ _) as [u|]; [|done]. destruct Hts as [(d & Hd & _) _].
  apply prune_tombstones_lookup in Hd as [Hd _]. apply (proj2 Hr) in Hd.
  rewrite bool_decide_eq_false_2; [done|]. simpl. lia.
Qed.

Lemma delete_entries now path mode s t :
  recorded_by t s -> (t <= now)%Z ->
  let q := canonical_recent_path path mode in
  let e := (now + recent_window)%Z in
  let touched p := p = q \/ is_dir mode = true /\ p = trim_end_slashes q /\ p <> [] in
  exists s', record_recent_delete now path mode s = (Ok tt, s') /\ recorded_by now s' /\
    (forall p, touched p -> rs_entries s' !! p = Some (mkRecent None e)) /\
    (forall p, ~ touched p -> rs_entries s' !! p = rs_entries (prune_recent_entries now s) !! p) /\
    (is_dir mode = true -> rs_tombstones s' !! q = Some e) /\
    (forall d, ~ (is_dir mode = true /\ d = q) ->
       rs_tombstones s' !! d = rs_tombstones (prune_recent_entries now s) !! d).
Proof.
  intros Hs Ht q e touched. eexists. split; [done|].
  assert (recorded_by now (prune_recent_entries now s)) as [Hpe Hpt] by (by eapply prune_recorded, recorded_mono).
  unfold recorded_by. cbn [rs_entries rs_tombstones]. fold q e. set (s0 := prune_recent_entries now s) in *.
  clearbody s0. split_and!.
  - intros p x. rewrite insert_recent_lookup. case_decide; [intros [= <-]; done | apply Hpe].
  - intros d u Hd. destruct (is_dir mode); [|by eapply Hpt].
    apply lookup_insert_Some in Hd as [[_ <-]|[_ Hd]]; [done | by eapply Hpt].
  - intros p Hp. by rewrite insert_recent_lookup, decide_True.
  - intros p Hp. by rewrite insert_recent_lookup, decide_False.
  - intros ->. apply lookup_insert_eq.
  - intros d Hd. destruct (is_dir mode); [|done]. rewrite lookup_insert_ne; [done|]. intros <-. by apply Hd.
Qed.

(** What a deletion removes. *)
Definition deleted_with (path : str) (mode : EntryMode) (p : str) : Prop :=
  let q := canonical_recent_path path mode in
  p = q \/ is_dir mode = true /\ covered_by p q = true.

(** A deletion is seen: once it is recorded, and until it expires, its path is
    deleted, and, when it is a directory, so is every path below it. *)
Theorem recent_delete_seen t now later path mode p s :
  recorded_by t s -> (t < now <= later)%Z -> (later < now + recent_window)%Z -> deleted_with path mode p ->
  exists s', record_recent_delete now path mode s = (Ok tt, s') /\ recorded_by now s' /\
    (recent_entry_for_path later p s').1 = Ok Deleted.
Proof.
  intros Hs [Ht Hl] Hw Hp. unfold deleted_with in Hp.
  destruct (delete_entries now path mode s t Hs ltac:(lia)) as (s' & E & Hr & H1 & H2 & H3 & _).
  set (q := canonical_recent_path path mode) in *.
  exists s'. split; [done|]. split; [done|].
  unfold recent_entry_for_path, path_state, lookup_recent_entry. cbn [fst]. f_equal.
  pose proof (lookup_tombstone_spec (rs_tombstones (prune_recent_entries later s')) p) as Hts.
  assert (is_dir mode = true ->
    rs_tombstones (prune_recent_entries later s') !! q = Some (now + recent_window)%Z) as Htomb
    by (intros Hd; apply prune_tombstones_lookup; auto).
  destruct (rs_entries (prune_recent_entries later s') !! p) as [x|] eqn:Ex.
  - apply prune_entries_lookup in Ex as [Ex _].
    destruct (decide (p = q \/ is_dir mode = true /\ p = trim_end_slashes q /\ p <> [])) as [Htp|Htp].
    { rewrite (H1 p Htp) in Ex. injection Ex as <-. cbn [re_metadata]. by repeat case_match. }
    rewrite (H2 p Htp) in Ex. destruct Hp as [->|[Hd Hc]]; [naive_solver|]. specialize (Htomb Hd).
    destruct (lookup_recent_tombstone _ _) as [u|]; [|by rewrite (Hts _ _ Htomb) in Hc].
    destruct Hts as [_ Hm]. specialize (Hm _ _ Htomb Hc). rewrite bool_decide_eq_true_2; [done|].
    apply prune_entries_lookup in Ex as [Ex _]. apply (proj1 Hs) in Ex. lia.
  - destruct Hp as [->|[Hd Hc]].
    + exfalso. rewrite (proj2 (prune_entries_lookup later s' q _) (conj (H1 q (or_introl eq_refl)) Hw)) in Ex. done.
    + destruct (lookup_recent_tombstone _ _); [done|]. by rewrite (Hts _ _ (Htomb Hd)) in Hc.
Qed.

(** *** Other paths *)

Lemma path_state_ext s s' p :
  rs_entries s !! p = rs_entries s' !! p ->
  (forall d u, covered_by p d = true -> rs_tombstones s !! d = Some u <-> rs_tombstones s' !! d = Some u) ->
  path_state s p = path_state s' p.
Proof.
  intros He Ht. unfold path_state, lookup_recent_entry. by rewrite He, (lookup_tombstone_ext _ _ _ Ht).
Qed.

Lemma prune_later_entries now later s s' p :
  (now <= later)%Z -> rs_entries s' !! p = rs_entries (prune_recent_entries now s) !! p ->
  rs_entries (prune_recent_entries later s') !! p = rs_entries (prune_recent_entries later s) !! p.
Proof.
  intros Hle E. apply option_eq. intros x. rewrite !prune_entries_lookup, E, prune_entries_lookup. naive_solver lia.
Qed.

Lemma prune_later_tombstones now later s s' d u :
  (now <= later)%Z -> rs_tombstones s' !! d = rs_tombstones (prune_recent_entries now s) !! d ->
  rs_tombstones (prune_recent_entries later s') !! d = Some u <->
  rs_tombstones (prune_recent_entries later s) !! d = Some u.
Proof. intros Hle E. rewrite !prune_tombstones_lookup, E, prune_tombstones_lookup. naive_solver lia. Qed.

(** A change is seen nowhere else: what is known of any path but the changed
    one, its parents and, for a deleted directory, the paths below it, is what
    would be known without the change. *)
Theorem recent_change_frame fuel t now later path p s :
  recorded_by t s -> (t <= now <= later)%Z ->
  (forall m, let q := canonical_recent_path path (m_mode m) in
     length q < fuel -> p ∉ q :: trim_end_slashes q :: revived_keys fuel q ->
     (recent_entry_for_path later p (record_recent_upsert fuel now path m s).2).1 = (recent_entry_for_path later p s).1) /\
  (forall mode, let q := canonical_recent_path path mode in
     p ∉ [q; trim_end_slashes q] -> (is_dir mode = true -> covered_by p q = false) ->
     (recent_entry_for_path later p (record_recent_delete now path mode s).2).1 = (recent_entry_for_path later p s).1).
Proof.
  intros Hs [Ht Hl]. split.
  - intros m q Hf Hp. destruct (upsert_entries fuel now path m s t Hs Ht Hf) as (s' & -> & _ & Htomb & _ & Hent).
    unfold recent_entry_for_path. cbn [fst snd]. f_equal. apply path_state_ext.
    + by eapply prune_later_entries, Hent.
    + intros d u _. eapply prune_later_tombstones; [done|]. by rewrite Htomb.
  - intros mode q Hp Hc. destruct (delete_entries now path mode s t Hs Ht) as (s' & -> & _ & _ & Hent & _ & Htomb).
    unfold recent_entry_for_path. cbn [fst snd]. f_equal. apply path_state_ext.
    + eapply prune_later_entries, Hent; [done|]. set_solver.
    + intros d u Hd. eapply prune_later_tombstones, Htomb; [done|]. intros [Hdir ->]. fold q in Hd.
      by rewrite (Hc Hdir) in Hd.
Qed.

(** *** Listing *)

Lemma recent_visible_spec s scope recursive p x m q :
  rs_entries s !! p = Some x ->
  recent_visible s scope recursive (p, x) = Some (q, m) <->
  q = p /\ path_state s p = Present m /\ recent_entry_in_scope scope p (m_mode m) recursive = true /\
  (is_dir (m_mode m) = true -> p = normalize_dir_path p).
Proof.
  intros Hx. unfold recent_visible, path_state, lookup_recent_entry. rewrite Hx.
  set (dead := match lookup_recent_tombstone _ _ with Some t => _ | None => _ end). clearbody dead.
  rewrite (bool_decide_eq_false_2 (re_expires_at x < re_expires_at x)%Z) by lia.
  destruct (re_metadata x) as [m'|]; simpl; [|by destruct dead; naive_solver].
  destruct dead; [by case_match; naive_solver|].
  destruct (is_dir (m_mode m')) eqn:Ed; simpl; [case_bool_decide as Hp|];
    destruct (recent_entry_in_scope _ _ _ _) eqn:Es;
    (split; [intros ?; simplify_eq; split_and!; auto; congruence |
             intros (-> & [= <-] & Hsc & Hd); try done; exfalso; (by apply Hp, Hd) || congruence]).
Qed.

Lemma omap_keys_NoDup {K A B} (f : K * A -> option (K * B)) l :
  NoDup l.*1 -> (forall k x y, (k, x) ∈ l -> f (k, x) = Some y -> y.1 = k) -> NoDup (omap f l).*1.
Proof.
  induction l as [|[k x] l IH]; csimpl; intros Hd Hf; [constructor|]. apply NoDup_cons in Hd as [Hk Hd].
  assert (NoDup (omap f l).*1) as Hl by (apply IH; [done|]; intros ??? Hin; by apply Hf; right).
  destruct (f (k, x)) as [[k' y]|] eqn:E; [|done]. csimpl. constructor; [|done].
  apply (Hf k x (k', y)) in E as <-; [|by left]. simpl. intros ([k1 y1] & -> & ([k2 x2] & Hin & Hf2)%list_elem_of_omap)%list_elem_of_fmap.
  apply (Hf k2 x2) in Hf2; [|by right]. simpl in *. subst k2. apply Hk. apply list_elem_of_fmap. by exists (k1, x2).
Qed.

(** Listing and looking up agree: the recent entries added to a listing are
    exactly the paths in its scope that a lookup finds present, with the same
    metadata, directories under their path with ['/'] only, each once and in the
    order of their paths. *)
Theorem recent_list_matches_lookup now scope recursive s :
  exists out, (recent_entries_for_list now scope recursive s).1 = Ok out /\
    Sorted path_le out /\ NoDup out.*1 /\
    forall p m, (p, m) ∈ out <->
      (recent_entry_for_path now p s).1 = Ok (Present m) /\ recent_entry_in_scope scope p (m_mode m) recursive = true /\
      (is_dir (m_mode m) = true -> p = normalize_dir_path p).
Proof.
  set (s0 := prune_recent_entries now s).
  set (l := omap (recent_visible s0 scope recursive) (map_to_list (rs_entries s0))).
  exists (merge_sort path_le l). split; [done|].
  assert (Total path_le) by (intros x y; apply (total str_leP)).
  split; [apply Sorted_merge_sort; apply _|].
  assert (forall p m, (p, m) ∈ l <-> path_state s0 p = Present m /\
    recent_entry_in_scope scope p (m_mode m) recursive = true /\
    (is_dir (m_mode m) = true -> p = normalize_dir_path p)) as Hin.
  { intros p m. unfold l. rewrite list_elem_of_omap. split.
    - intros ([q x] & Hq%elem_of_map_to_list & Hv). apply recent_visible_spec in Hv as (<- & ?); done.
    - intros Hv. destruct (rs_entries s0 !! p) as [x|] eqn:Ex.
      + exists (p, x). split; [by apply elem_of_map_to_list|]. by apply recent_visible_spec.
      + exfalso. destruct Hv as [Hv _]. unfold path_state, lookup_recent_entry in Hv. rewrite Ex in Hv. by case_match. }
  split.
  - rewrite merge_sort_Permutation. apply omap_keys_NoDup; [apply NoDup_fst_map_to_list|].
    intros p x y Hx%elem_of_map_to_list. destruct y as [q m]. intros Hv. by apply recent_visible_spec in Hv as [-> _].
  - intros p m. rewrite merge_sort_Permutation. rewrite Hin. unfold recent_entry_for_path. cbn [fst]. fold s0.
    split; intros [Hp ?]; (split; [congruence | done]).
Qed.

(** ** Examples *)

Lemma recorded_default t : recorded_by t recent_default.
Proof. split; intros ? ? H; cbn in H; by rewrite lookup_empty in H. Qed.

(** The directory [a/] is deleted, then [a/f] is written. *)
Definition sample_recent : GdriveRecentState := (record_recent_delete 1 (b "a") DIR recent_default).2.
Lemma sample_recorded : recorded_by 1 sample_recent.
Proof.
  destruct (delete_entries 1 (b "a") DIR recent_default 0 (recorded_default 0) ltac:(lia)) as (s' & E & Hr & _).
  unfold sample_recent. by rewrite E.
Qed.

Lemma recent_upsert_seen_witness :
  exists s', record_recent_upsert 5 2 (b "a/f") (meta_new FILE) sample_recent = (Ok tt, s') /\
    (recent_entry_for_path 3 (b "a/f") s').1 = Ok (Present (meta_new FILE)).
Proof.
  destruct (recent_upsert_seen 5 1 2 3 (b "a/f") (meta_new FILE) sample_recent sample_recorded) as (s' & E & _ & H);
    [lia | unfold recent_window; lia | simpl; lia |]. exists s'. exact (conj E H).
Defined.

Lemma recent_delete_seen_witness :
  exists s', record_recent_delete 2 (b "a") DIR sample_recent = (Ok tt, s') /\
    (recent_entry_for_path 3 (b "a/x/y") s').1 = Ok Deleted.
Proof.
  destruct (recent_delete_seen 1 2 3 (b "a") DIR (b "a/x/y") sample_recent sample_recorded) as (s' & E & _ & H);
    [lia | unfold recent_window; lia | right; split; [done | vm_compute; done] |]. exists s'. exact (conj E H).
Defined.

Lemma recent_change_frame_witness :
  (recent_entry_for_path 3 (b "a/g") (record_recent_upsert 5 2 (b "b/f") (meta_new FILE) sample_recent).2).1 = Ok Deleted.
Proof.
  destruct (recent_change_frame 5 1 2 3 (b "b/f") (b "a/g") sample_recent sample_recorded ltac:(lia)) as [H _].
  transitivity (recent_entry_for_path 3 (b "a/g") sample_recent).1; [|vm_compute; reflexivity].
  refine (H (meta_new FILE) _ _); [apply (bool_decide_unpack _); vm_compute; exact I..].
Defined.

(** The order of changes is that of their expiry: a directory deleted at the same
    instant as a file below it was written does not hide the file. *)
Theorem recent_same_instant_survives :
  let s := (record_recent_upsert 5 2 (b "a/f") (meta_new FILE) recent_default).2 in
  let s' := (record_recent_delete 2 (b "a") DIR s).2 in
  (recent_entry_for_path 3 (b "a/f") s').1 = Ok (Present (meta_new FILE)).
Proof. vm_compute. done. Qed.
