(* ===== verification/TailCut.v ===== *)
(** * Cutting the tail ([core/layers/tail-cut/src/lib.rs])

    [TailCutLayer] cancels calls that take much longer than most recent ones: it
    keeps, per operation and size, a histogram of latencies in a ring of twelve
    slices of ten seconds, takes a percentile of it, multiplies it by a factor and
    clamps it.

    Durations are [Z], in nanoseconds, and the clock, in milliseconds, is an
    argument of every call.  Counters are [u64] and wrap around.  Calls update the
    ring one at a time; the interleavings of its atomic operations are not
    modelled.  [f64] is the binary64 of [SpecFloat]. *)

From Stdlib Require Import Floats.SpecFloat.
From S2P Require Import Prelude Errors Path Range Buffer Types Access.
From stdpp Require Import options.
Local Open Scope Z_scope.

(** ** [f64] *)

Definition f64 : Type := spec_float.
Definition f64_of (n : Z) : f64 := binary_normalize 53 1024 n 0 false.
Definition f64_mul (x y : f64) : f64 := SFmul 53 1024 x y.
Definition f64_div (x y : f64) : f64 := SFdiv 53 1024 x y.
Definition f64_add (x y : f64) : f64 := SFadd 53 1024 x y.

(** [x.ceil() as u64]: saturating, NaN is 0. *)
Definition ceil_u64 (x : f64) : Z :=
  match x with
  | S754_finite false m e =>
      Z.min u64_max (if 0 <=? e then Zpos m * 2 ^ e else - (- Zpos m / 2 ^ (- e)))
  | S754_infinity false => u64_max
  | _ => 0
  end.

(** [Duration::as_secs_f64] and [Duration::from_secs_f64], which rounds to the
    nearest nanosecond and panics if the value is no [Duration]. *)
Definition nanos_per_sec : Z := 1000000000.
Definition as_secs_f64 (d : Z) : f64 :=
  f64_add (f64_of (d / nanos_per_sec)) (f64_div (f64_of (d mod nanos_per_sec)) (f64_of nanos_per_sec)).
Definition round_half_even (n d : Z) : Z :=
  let q := n / d in
  match 2 * (n mod d) ?= d with
  | Lt => q
  | Gt => q + 1
  | Eq => if Z.even q then q else q + 1
  end.
Definition from_secs_f64 {E} (x : f64) : outcome E Z :=
  match x with
  | S754_zero _ => Ok 0
  | S754_finite false m e =>
      let nanos := if 0 <=? e then Zpos m * 2 ^ e * nanos_per_sec
                   else round_half_even (Zpos m * nanos_per_sec) (2 ^ (- e)) in
      if bool_decide (nanos < (u64_max + 1) * nanos_per_sec) then Ok nanos else Panic
  | _ => Panic
  end.

(** [Ord::clamp]. *)
Definition clamp {E} (x lo hi : Z) : outcome E Z :=
  assert! bool_decide (lo <= hi); Ok (if bool_decide (x < lo) then lo else if bool_decide (hi < x) then hi else x).

(** ** [WindowedHistogram] *)

Definition SLICE_DURATION_MS : Z := 10000.
Definition NUM_SLICES : nat := 12.
Definition NUM_BUCKETS : nat := 17.

Record TimeSlice : Type := mkSlice { ts_buckets : list Z; ts_start_epoch_ms : Z }.
Definition slice_new : TimeSlice := mkSlice (replicate NUM_BUCKETS 0) 0.

Record WindowedHistogram : Type := mkHistogram {
  wh_slices : list TimeSlice; wh_current_idx : nat; wh_last_rotate : Z;
}.

Definition histogram_new (now : Z) : WindowedHistogram :=
  mkHistogram (replicate NUM_SLICES slice_new) 0 now.

Definition as_millis_u64 (d : Z) : Z := wrap64 (d / 1000000).

(** [64 - ms.leading_zeros()] is the number of bits of [ms]. *)
Definition latency_to_bucket (latency : Z) : nat :=
  let ms := as_millis_u64 latency in
  if bool_decide (ms = 0) then 0%nat
  else Nat.min (Z.to_nat (Z.log2 ms + 1)) (NUM_BUCKETS - 1).

Definition bucket_to_latency (bucket_idx : nat) : Z :=
  if bool_decide (bucket_idx = 0%nat) then 1000000
  else if bool_decide (NUM_BUCKETS - 1 <= bucket_idx)%nat then 64 * nanos_per_sec
  else Z.shiftl 1 (Z.of_nat bucket_idx) * 1000000.

Definition maybe_rotate (now : Z) (h : WindowedHistogram) : WindowedHistogram :=
  if bool_decide (SLICE_DURATION_MS <= wrap64 (now - wh_last_rotate h)) then
    let new_idx := ((wh_current_idx h + 1) mod NUM_SLICES)%nat in
    mkHistogram (<[new_idx := mkSlice (replicate NUM_BUCKETS 0) now]> (wh_slices h)) new_idx now
  else h.

Definition slice_add (bucket_idx : nat) (s : TimeSlice) : TimeSlice :=
  mkSlice (alter (fun n => wrap64 (n + 1)) bucket_idx (ts_buckets s)) (ts_start_epoch_ms s).

Definition record (now latency : Z) (h : WindowedHistogram) : WindowedHistogram :=
  let h := maybe_rotate now h in
  let bucket_idx := latency_to_bucket latency in
  mkHistogram (alter (slice_add bucket_idx) (wh_current_idx h) (wh_slices h)) (wh_current_idx h) (wh_last_rotate h).

Definition add_buckets (result buckets : list Z) : list Z := zip_with (fun r n => wrap64 (r + n)) result buckets.

Definition snapshot (now window : Z) (h : WindowedHistogram) : list Z :=
  let window_ms := as_millis_u64 window in
  foldl (fun result slice =>
           let start := ts_start_epoch_ms slice in
           if bool_decide (0 < start) && bool_decide (saturating_sub now start < wrap64 (window_ms + SLICE_DURATION_MS))
           then add_buckets result (ts_buckets slice) else result)
    (replicate NUM_BUCKETS 0) (wh_slices h).

Definition sum64 (ns : list Z) : Z := foldl (fun a n => wrap64 (a + n)) 0 ns.

Definition total_samples (now window : Z) (h : WindowedHistogram) : Z := sum64 (snapshot now window h).

(** The loop of [quantile] over the buckets that are left. *)
Fixpoint quantile_loop (target cumsum : Z) (bucket_idx : nat) (counts : list Z) : Z :=
  match counts with
  | [] => bucket_to_latency (NUM_BUCKETS - 1)
  | count :: counts' =>
      let cumsum := wrap64 (cumsum + count) in
      if bool_decide (target <= cumsum) then bucket_to_latency bucket_idx
      else quantile_loop target cumsum (S bucket_idx) counts'
  end.

Definition quantile (now : Z) (q : f64) (window : Z) (h : WindowedHistogram) : option Z :=
  let snap := snapshot now window h in
  let total := sum64 snap in
  if bool_decide (total = 0) then None
  else Some (quantile_loop (ceil_u64 (f64_mul (f64_of total) q)) 0 0 snap).

(** ** [OperationStats] and [TailCutStats] *)

Record SizeBucket : Type := mkSizeBucket {
  sb_min_size : Z; sb_max_size : option Z; sb_histogram : WindowedHistogram;
}.

Definition size_contains (size : Z) (sb : SizeBucket) : bool :=
  bool_decide (sb_min_size sb <= size) &&
  match sb_max_size sb with None => true | Some max => bool_decide (size < max) end.

Definition size_bounds : list (Z * option Z) :=
  [(0, Some (4 * 1024)); (4 * 1024, Some (64 * 1024)); (64 * 1024, Some (1024 * 1024));
   (1024 * 1024, Some (16 * 1024 * 1024)); (16 * 1024 * 1024, Some (256 * 1024 * 1024)); (256 * 1024 * 1024, None)].

Definition OperationStats : Type := list SizeBucket.
Definition operation_stats_new (now : Z) : OperationStats :=
  (fun bounds => mkSizeBucket bounds.1 bounds.2 (histogram_new now)) <$> size_bounds.

(** The index of the bucket that [bucket_for] finds. *)
Definition bucket_for (stats : OperationStats) (size : option Z) : nat :=
  let size := default u64_max size in
  match list_find (fun sb => size_contains size sb = true) stats with
  | Some (i, _) => i
  | None => (length stats - 1)%nat
  end.

Definition stats_histogram (stats : OperationStats) (size : option Z) : option WindowedHistogram :=
  sb_histogram <$> stats !! bucket_for stats size.

Definition stats_record (now : Z) (size : option Z) (latency : Z) (stats : OperationStats) : OperationStats :=
  alter (fun sb => mkSizeBucket (sb_min_size sb) (sb_max_size sb) (record now latency (sb_histogram sb)))
    (bucket_for stats size) stats.
Definition stats_quantile (now : Z) (size : option Z) (q : f64) (window : Z) (stats : OperationStats) : option Z :=
  stats_histogram stats size ≫= quantile now q window.
Definition stats_total_samples (now : Z) (size : option Z) (window : Z) (stats : OperationStats) : Z :=
  default 0 (total_samples now window <$> stats_histogram stats size).

Definition TailCutStats : Type := list OperationStats.
Definition tail_cut_stats_new (now : Z) : TailCutStats := replicate 7 (operation_stats_new now).

Definition stats_for (op : Operation) : nat :=
  match op with
  | ORead => 0 | OWrite => 1 | OStat => 2 | OList => 3 | ODelete => 4 | OCopy => 5 | ORename => 6 | _ => 2
  end.

(** ** The configuration *)

Record TailCutConfig : Type := mkTailCut {
  tc_percentile : Z; tc_safety_factor : f64; tc_window : Z;
  tc_min_samples : Z; tc_min_deadline : Z; tc_max_deadline : Z;
}.

(** [1.3], to the nearest [f64]. *)
Definition f64_1_3 : f64 := f64_div (f64_of 13) (f64_of 10).
Definition tail_cut_default : TailCutConfig :=
  mkTailCut 95 f64_1_3 (60 * nanos_per_sec) 200 (500 * 1000000) (30 * nanos_per_sec).

Definition with_percentile {E} (percentile : Z) (c : TailCutConfig) : outcome E TailCutConfig :=
  assert! bool_decide (50 <= percentile <= 99);
  Ok (mkTailCut percentile (tc_safety_factor c) (tc_window c) (tc_min_samples c) (tc_min_deadline c) (tc_max_deadline c)).
Definition with_safety_factor {E} (factor : f64) (c : TailCutConfig) : outcome E TailCutConfig :=
  assert! SFleb (f64_of 1) factor && SFleb factor (f64_of 5);
  Ok (mkTailCut (tc_percentile c) factor (tc_window c) (tc_min_samples c) (tc_min_deadline c) (tc_max_deadline c)).
Definition with_window {E} (window : Z) (c : TailCutConfig) : outcome E TailCutConfig :=
  assert! bool_decide (window <= 120 * nanos_per_sec);
  Ok (mkTailCut (tc_percentile c) (tc_safety_factor c) window (tc_min_samples c) (tc_min_deadline c) (tc_max_deadline c)).
Definition with_min_samples (n : Z) (c : TailCutConfig) : TailCutConfig :=
  mkTailCut (tc_percentile c) (tc_safety_factor c) (tc_window c) n (tc_min_deadline c) (tc_max_deadline c).
Definition with_min_deadline (d : Z) (c : TailCutConfig) : TailCutConfig :=
  mkTailCut (tc_percentile c) (tc_safety_factor c) (tc_window c) (tc_min_samples c) d (tc_max_deadline c).
Definition with_max_deadline (d : Z) (c : TailCutConfig) : TailCutConfig :=
  mkTailCut (tc_percentile c) (tc_safety_factor c) (tc_window c) (tc_min_samples c) (tc_min_deadline c) d.

(** ** Deadlines *)

(** The clock is read twice. *)
Definition calculate_deadline {E} (now now2 : Z) (c : TailCutConfig) (op : Operation) (size : option Z)
    (stats : TailCutStats) : outcome E (option Z) :=
  op_stats ← expect (stats !! stats_for op);
  if bool_decide (stats_total_samples now size (tc_window c) op_stats < tc_min_samples c) then Ok None
  else
    let q := f64_div (f64_of (tc_percentile c)) (f64_of 100) in
    match stats_quantile now2 size q (tc_window c) op_stats with
    | None => Ok None
    | Some pctl =>
        deadline ← from_secs_f64 (f64_mul (as_secs_f64 pctl) (tc_safety_factor c));
        deadline ← clamp deadline (tc_min_deadline c) (tc_max_deadline c);
        Ok (Some deadline)
    end.

Definition deadline_error (message : string) (op : Operation) (c : TailCutConfig) (deadline : str) : Error :=
  set_temporary (with_context (b "deadline") deadline
    (with_context (b "percentile") (b "P" ++ show_u64 (tc_percentile c))
      (with_operation (show_operation op) (error Unexpected message)))).

Definition stats_success (now : Z) (op : Operation) (size : option Z) (latency : Z) : TailCutStats -> TailCutStats :=
  alter (stats_record now size latency) (stats_for op).

(** What a call finds: the clock at the two readings before it and at the one
    after it, the time it took, whether the timer of a deadline ends before the
    call does, and what the callee is left like when it is cancelled. *)
Record Timing (A : Type) : Type := mkTiming {
  tm_now : Z; tm_now2 : Z; tm_after : Z; tm_latency : Z; tm_expired : Z -> bool; tm_cancelled : A -> A;
}.
Arguments mkTiming {A}.
Arguments tm_now {A}.
Arguments tm_now2 {A}.
Arguments tm_after {A}.
Arguments tm_latency {A}.
Arguments tm_expired {A}.
Arguments tm_cancelled {A}.

Record TailCutWrapper (R : Type) : Type := mkWrapper { tw_inner : R; tw_size : option Z }.
Arguments mkWrapper {R}.
Arguments tw_inner {R}.
Arguments tw_size {R}.

Section Deadline.
  (** How a duration is printed, by its [Debug]. *)
  Variable show_duration : Z -> str.
  Variable c : TailCutConfig.

(** [with_deadline] and [with_io_deadline], which differ in their message. *)
Definition with_deadline {A X} (message : string) (tm : Timing A) (op : Operation) (size : option Z)
    (fut : M A Error X) : M (A * TailCutStats) Error X := fun s =>
  let '(a, stats) := s in
  match calculate_deadline (tm_now tm) (tm_now2 tm) c op size stats with
  | Ok deadline =>
      let '(result, a') :=
        match deadline with
        | Some d =>
            if tm_expired tm d then (Err (deadline_error message op c (show_duration d)), tm_cancelled tm a) else fut a
        | None => fut a
        end in
      (result, (a', if is_ok result then stats_success (tm_after tm) op size (tm_latency tm) stats else stats))
  | Err e => (Err e, s)
  | Panic => (Panic, s)
  end.

(** *** The accessor *)
Section Accessor.
  Context {A Rd Wr Ls Dl Cp : Type}.
  Variable inner : Access A Rd Wr Ls Dl Cp.
  Variable tm : Timing A.
#[local] Abbreviation cut := (with_deadline "cancelled by tail cut" tm).

Definition wrapped {X} (size : option Z) (m : M (A * TailCutStats) Error X)
    : M (A * TailCutStats) Error (TailCutWrapper X) :=
  x ← m; mret (mkWrapper x size).

Definition tail_cut_read (path : str) (args : OpRead) : M (A * TailCutStats) Error (option Metadata * TailCutWrapper Rd) :=
  let size := Range.size (read_range args) in
  r ← cut ORead size (a_read inner path args);
  mret (r.1, mkWrapper r.2 size).

Definition tail_cut_layer : Access (A * TailCutStats) (TailCutWrapper Rd) (TailCutWrapper Wr) (TailCutWrapper Ls)
    (TailCutWrapper Dl) (TailCutWrapper Cp) :=
  {| a_info s := a_info inner s.1;
     a_create_dir path := cut OCreateDir None (a_create_dir inner path);
     a_stat path args := cut OStat None (a_stat inner path args);
     a_read := tail_cut_read;
     a_write path args := wrapped None (cut OWrite None (a_write inner path args));
     a_delete := wrapped None (cut ODelete None (a_delete inner));
     a_list path args := wrapped None (cut OList None (a_list inner path args));
     a_copy from to args opts := wrapped None (cut OCopy None (a_copy inner from to args opts));
     a_rename from to := cut ORename None (a_rename inner from to) |}.

End Accessor.

(** *** The handles, with the statistics they share *)
Section Handles.
  Context {R : Type}.
  Variable tm : Timing R.

Definition io_cut {X} (op : Operation) (m : M R Error X) : M (TailCutWrapper R * TailCutStats) Error X := fun s =>
  let '(w, stats) := s in
  let '(r, (inner, stats')) := with_deadline "io cancelled by tail cut" tm op (tw_size w) m (tw_inner w, stats) in
  (r, (mkWrapper inner (tw_size w), stats')).

Definition TailCutWrapper_Read `{Read R} : Read (TailCutWrapper R * TailCutStats) := io_cut ORead read_buf.
Definition TailCutWrapper_Write `{Write R} : Write (TailCutWrapper R * TailCutStats) :=
  {| w_write bs := io_cut OWrite (w_write bs); w_close := io_cut OWrite w_close; w_abort := io_cut OWrite w_abort |}.
Definition TailCutWrapper_List `{List R} : List (TailCutWrapper R * TailCutStats) := io_cut OList list_next.
(** [delete] only queues, and has no deadline. *)
Definition TailCutWrapper_Delete `{Delete R} : Delete (TailCutWrapper R * TailCutStats) :=
  {| d_delete path args s :=
       let '(w, stats) := s in
       let '(r, inner) := d_delete path args (tw_inner w) in (r, (mkWrapper inner (tw_size w), stats));
     d_close := io_cut ODelete d_close |}.
Definition TailCutWrapper_Copy `{Copy R} : Copy (TailCutWrapper R * TailCutStats) :=
  {| c_next := io_cut OCopy c_next; c_close := io_cut OCopy c_close; c_abort := io_cut OCopy c_abort |}.

End Handles.
End Deadline.

(** ** The window

    Samples are a time and a latency.  An epoch is what one slice holds from one
    rotation to the next; the epochs are all there ever were, newest first, of
    which the ring keeps twelve.  The first epoch, before any rotation, is stored
    with start 0. *)
Definition Sample : Type := Z * Z.
Record Epoch : Type := mkEpoch { ep_stored : Z; ep_start : Z; ep_samples : list Sample }.

Fixpoint count {A} (P : A -> bool) (l : list A) : Z :=
  match l with [] => 0 | x :: l' => (if P x then 1 else 0) + count P l' end.

Section Count.
  Context {A : Type}.
  Implicit Types (P Q : A -> bool) (l : list A).

Lemma count_bounds P l : 0 <= count P l <= Z.of_nat (length l).
Proof. induction l as [|x l IH]; simpl; [lia|]. destruct (P x); lia. Qed.
Lemma count_app P l k : count P (l ++ k) = count P l + count P k.
Proof. induction l as [|x l IH]; simpl; [lia|]. destruct (P x); lia. Qed.
Lemma count_mono P Q l : (forall x, x ∈ l -> P x = true -> Q x = true) -> count P l <= count Q l.
Proof.
  induction l as [|x l IH]; simpl; intros H; [lia|].
  assert (count P l <= count Q l) by (apply IH; intros y Hy; apply H; by right).
  specialize (H x). destruct (P x); [rewrite H by (done || left); lia|]. destruct (Q x); lia.
Qed.
Lemma count_none P l : (forall x, x ∈ l -> P x = false) -> count P l = 0.
Proof.
  induction l as [|x l IH]; simpl; intros H; [done|]. rewrite (H x) by left. rewrite IH; [done|].
  intros y Hy. apply H. by right.
Qed.

End Count.

Definition bucket_count (i : nat) (l : list Sample) : Z := count (fun s => bool_decide (latency_to_bucket s.2 = i)) l.
Definition counts (l : list Sample) : list Z := (fun i => bucket_count i l) <$> seq 0 NUM_BUCKETS.
Definition slice_of (e : Epoch) : TimeSlice := mkSlice (counts (ep_samples e)) (ep_stored e).

Definition epochs_new (t0 : Z) : list Epoch := [mkEpoch 0 t0 []].
Definition epochs_record (s : Sample) (es : list Epoch) : list Epoch :=
  match es with
  | [] => []
  | e :: es' =>
      if bool_decide (SLICE_DURATION_MS <= s.1 - ep_start e) then mkEpoch s.1 s.1 [s] :: e :: es'
      else mkEpoch (ep_stored e) (ep_start e) (s :: ep_samples e) :: es'
  end.

(** The ring from its oldest slice to the current one. *)
Definition unroll (h : WindowedHistogram) : list TimeSlice :=
  drop (S (wh_current_idx h)) (wh_slices h) ++ take (S (wh_current_idx h)) (wh_slices h).
Definition ring (es : list Epoch) : list TimeSlice :=
  rev (take NUM_SLICES (map slice_of es ++ replicate NUM_SLICES slice_new)).

Record represents (h : WindowedHistogram) (es : list Epoch) : Prop := mkRepresents {
  rep_length : length (wh_slices h) = NUM_SLICES;
  rep_current : (wh_current_idx h < NUM_SLICES)%nat;
  rep_last : exists e es', es = e :: es' /\ wh_last_rotate h = ep_start e;
  rep_ring : unroll h = ring es;
}.

Lemma latency_bucket_lt lat : (latency_to_bucket lat < NUM_BUCKETS)%nat.
Proof. unfold latency_to_bucket, NUM_BUCKETS. case_bool_decide; lia. Qed.

Lemma counts_lookup l i : (i < NUM_BUCKETS)%nat -> counts l !! i = Some (bucket_count i l).
Proof. intros Hi. unfold counts. by rewrite list_lookup_fmap, lookup_seq_lt. Qed.

Lemma counts_nil : counts [] = replicate NUM_BUCKETS 0.
Proof. done. Qed.

Lemma bucket_count_le i l : 0 <= bucket_count i l <= Z.of_nat (length l).
Proof. apply count_bounds. Qed.

Lemma counts_cons s l :
  Z.of_nat (length l) < u64_max ->
  counts (s :: l) = alter (fun n => wrap64 (n + 1)) (latency_to_bucket s.2) (counts l).
Proof.
  intros Hl. apply list_eq. intros i. destruct (decide (i < NUM_BUCKETS)%nat) as [Hi|Hi].
  2: { rewrite !lookup_ge_None_2; [done | |]; rewrite ?length_alter; unfold counts; rewrite length_fmap, length_seq; lia. }
  rewrite counts_lookup by done. destruct (decide (i = latency_to_bucket s.2)) as [->|Hne].
  - rewrite list_lookup_alter_eq, counts_lookup by done. pose proof (bucket_count_le (latency_to_bucket s.2) l).
    unfold bucket_count in *. simpl. rewrite bool_decide_eq_true_2 by done.
    rewrite wrap64_id; [f_equal; lia|]. unfold is_u64. lia.
  - rewrite list_lookup_alter_ne, counts_lookup by done. unfold bucket_count. simpl.
    by rewrite bool_decide_eq_false_2 by done.
Qed.

Lemma ring_cons e es : ring (e :: es) = drop 1 (ring es) ++ [slice_of e].
Proof.
  unfold ring. rewrite map_cons, <- app_comm_cons.
  assert (NUM_SLICES <= length (map slice_of es ++ replicate NUM_SLICES slice_new))%nat as HL
    by (rewrite length_app, length_replicate; lia).
  revert HL. generalize (map slice_of es ++ replicate NUM_SLICES slice_new) as L. intros L HL.
  unfold NUM_SLICES in *. destruct (lookup_lt_is_Some_2 L 11) as [x Hx]; [lia|].
  rewrite firstn_cons, (take_S_r L 11 x Hx), rev_app_distr. done.
Qed.

Lemma ring_length es : length (ring es) = NUM_SLICES.
Proof. unfold ring. rewrite length_rev, length_take, length_app, length_replicate. lia. Qed.

(** Writing the slice after the current one and moving to it drops the oldest. *)
Lemma unroll_push slices c y last :
  length slices = NUM_SLICES -> (c < NUM_SLICES)%nat ->
  let c' := ((c + 1) mod NUM_SLICES)%nat in
  (c' < NUM_SLICES)%nat /\
  unroll (mkHistogram (<[c' := y]> slices) c' last) = drop 1 (unroll (mkHistogram slices c last)) ++ [y].
Proof.
  intros Hl Hc c'. unfold unroll. cbn [wh_slices wh_current_idx]. unfold NUM_SLICES in *.
  destruct (decide (c = 11%nat)) as [->|Hne].
  - split; [subst c'; simpl; lia|]. subst c'. change ((11 + 1) mod 12)%nat with 0%nat.
    rewrite (drop_ge slices 12), (take_ge slices 12) by lia. destruct slices as [|x slices]; [done|]. simpl.
    by rewrite drop_0.
  - assert (c' = S c) as -> by (unfold c'; rewrite Nat.mod_small; lia). split; [lia|].
    destruct (lookup_lt_is_Some_2 slices (S c)) as [x Hx]; [lia|].
    rewrite (take_S_r _ (S c) y) by (apply list_lookup_insert_eq; lia).
    rewrite take_insert_ge, drop_insert_lt, app_assoc by lia. f_equal.
    rewrite (drop_S slices x (S c) Hx). simpl. by rewrite drop_0.
Qed.

(** Changing the current slice changes the last. *)
Lemma unroll_alter slices c last f :
  length slices = NUM_SLICES -> (c < NUM_SLICES)%nat ->
  exists l x, unroll (mkHistogram slices c last) = l ++ [x] /\
    unroll (mkHistogram (alter f c slices) c last) = l ++ [f x].
Proof.
  intros Hl Hc. unfold unroll. cbn [wh_slices wh_current_idx].
  destruct (lookup_lt_is_Some_2 slices c) as [x Hx]; [unfold NUM_SLICES in *; lia|].
  exists (drop (S c) slices ++ take c slices), x.
  rewrite (take_S_r slices c x Hx), (take_S_r _ c (f x)) by (rewrite list_lookup_alter_eq, Hx; done).
  rewrite drop_alter_lt, take_alter_ge, !app_assoc by lia. done.
Qed.

Lemma record_represents h e es s :
  represents h (e :: es) -> 0 <= ep_start e <= s.1 -> s.1 <= u64_max -> Z.of_nat (length (ep_samples e)) < u64_max ->
  represents (record s.1 s.2 h) (epochs_record s (e :: es)).
Proof.
  intros [Hlen Hcur (e0 & es0 & [= <- <-] & Hlast) Hring] Hs Hu Hn. destruct h as [slices c last]. simpl in Hlast. subst last.
  unfold record, maybe_rotate, epochs_record. cbn [wh_slices wh_current_idx wh_last_rotate] in *.
  rewrite wrap64_id by (unfold is_u64; lia). case_bool_decide as Hrot.
  - cbn [wh_slices wh_current_idx wh_last_rotate].
    destruct (unroll_push slices c (mkSlice (replicate NUM_BUCKETS 0) s.1) s.1 Hlen Hcur) as [Hc' Hpush].
    set (c' := ((c + 1) mod NUM_SLICES)%nat) in *. set (slices' := <[c' := _]> slices) in *.
    assert (length slices' = NUM_SLICES) as Hl' by (unfold slices'; by rewrite length_insert).
    destruct (unroll_alter slices' c' s.1 (slice_add (latency_to_bucket s.2)) Hl' Hc') as (l & x & E1 & E2).
    split; cbn [wh_slices wh_current_idx wh_last_rotate]; [by rewrite length_alter | done | by do 2 eexists |].
    rewrite E2. rewrite Hpush in E1. apply app_inj_tail in E1 as [<- <-].
    rewrite ring_cons, <- Hring. f_equal. unfold slice_of. cbn [ep_samples ep_stored].
    rewrite counts_cons by (simpl; unfold u64_max; lia). done.
  - cbn [wh_slices wh_current_idx wh_last_rotate].
    destruct (unroll_alter slices c (ep_start e) (slice_add (latency_to_bucket s.2)) Hlen Hcur) as (l & x & E1 & E2).
    split; cbn [wh_slices wh_current_idx wh_last_rotate]; [by rewrite length_alter | done | by do 2 eexists |].
    rewrite E2. rewrite E1, ring_cons in Hring. apply app_inj_tail in Hring as [-> ->].
    rewrite ring_cons. f_equal. unfold slice_of. cbn [ep_samples ep_stored]. by rewrite counts_cons.
Qed.

(** *** The epochs *)

Fixpoint spaced (es : list Epoch) : Prop :=
  match es with
  | e :: (e' :: _) as r => ep_start e' + SLICE_DURATION_MS <= ep_start e /\ spaced r
  | _ => True
  end.

Record epochs_ok (t0 t : Z) (hist : list Sample) (es : list Epoch) : Prop := mkEpochsOk {
  ok_clock : exists e es', es = e :: es' /\ t0 <= ep_start e <= t;
  ok_spaced : spaced es;
  ok_samples : forall e s, e ∈ es -> s ∈ ep_samples e -> ep_start e <= s.1 < ep_start e + SLICE_DURATION_MS;
  ok_stored : forall e, e ∈ es -> ep_stored e = ep_start e /\ 0 < ep_start e <= t \/ ep_stored e = 0 /\ ep_start e = t0;
  ok_count : forall P, count P (es ≫= ep_samples) = count P hist;
}.

Lemma epochs_ok_new t0 : epochs_ok t0 t0 [] (epochs_new t0).
Proof.
  split; simpl; [by eexists _, []; split; [done|simpl; lia] | done | | | done].
  - intros e s ->%list_elem_of_singleton Hs. by apply elem_of_nil in Hs.
  - intros e ->%list_elem_of_singleton. by right.
Qed.

Lemma epochs_ok_record t0 t hist es s :
  epochs_ok t0 t hist es -> 0 <= t0 -> t <= s.1 -> epochs_ok t0 s.1 (hist ++ [s]) (epochs_record s es).
Proof.
  intros [(e & es' & -> & He) Hsp Hsm Hst Hct] H0 Ht. unfold epochs_record.
  assert (forall P, count P (hist ++ [s]) = (if P s then 1 else 0) + count P ((e :: es') ≫= ep_samples)) as Hcount.
  { intros P. rewrite count_app, Hct. simpl. lia. }
  case_bool_decide as Hrot; unfold SLICE_DURATION_MS in Hrot.
  - split.
    + eexists _, _. split; [done|]. simpl. lia.
    + simpl. split; [unfold SLICE_DURATION_MS; lia | done].
    + intros x y [->|Hx]%elem_of_cons Hy; [|by eapply Hsm].
      simpl in *. apply list_elem_of_singleton in Hy as ->. unfold SLICE_DURATION_MS. lia.
    + intros x [->|Hx]%elem_of_cons; [left; simpl; lia|]. destruct (Hst x Hx) as [?|?]; [left; lia | by right].
    + intros P. rewrite Hcount. done.
  - split.
    + eexists _, _. split; [done|]. simpl. lia.
    + destruct es'; [done|]. exact Hsp.
    + intros x y [->|Hx]%elem_of_cons Hy; [|eapply Hsm; [by right | done]].
      simpl in *. apply elem_of_cons in Hy as [->|Hy]; [unfold SLICE_DURATION_MS; lia|].
      apply (Hsm e); [by left | done].
    + intros x [->|Hx]%elem_of_cons.
      * destruct (Hst e) as [?|?]; [by left | left; simpl; lia | by right].
      * destruct (Hst x) as [?|?]; [by right | left; lia | by right].
    + intros P. rewrite Hcount. rewrite !bind_cons, count_app. cbn [ep_samples count]. rewrite count_app. lia.
Qed.

Lemma spaced_lookup es k e0 e :
  spaced es -> es !! 0%nat = Some e0 -> es !! k = Some e -> ep_start e + SLICE_DURATION_MS * Z.of_nat k <= ep_start e0.
Proof.
  revert es e0. induction k as [|k IH]; intros es e0 Hs H0 Hk; [simplify_eq; lia|].
  destruct es as [|x [|y es]]; [done..|]. simpl in H0, Hk. injection H0 as ->. destruct Hs as [Hxy Hs].
  specialize (IH (y :: es) y Hs eq_refl Hk). lia.
Qed.

(** A histogram and what was recorded in it, at times from [t0] to [t]. *)
Inductive recorded (t0 : Z) : Z -> list Sample -> WindowedHistogram -> Prop :=
  | recorded_new : recorded t0 t0 [] (histogram_new t0)
  | recorded_step t hist h now latency :
      recorded t0 t hist h -> t <= now <= u64_max ->
      recorded t0 now (hist ++ [(now, latency)]) (record now latency h).

Lemma recorded_epochs t0 t hist h :
  recorded t0 t hist h -> 0 <= t0 -> Z.of_nat (length hist) <= u64_max ->
  exists es, represents h es /\ epochs_ok t0 t hist es.
Proof.
  intros Hr H0. induction Hr as [|t hist h now latency Hr IH Hnow]; intros Hn.
  - exists (epochs_new t0). split; [|apply epochs_ok_new]. split; [done | simpl; unfold NUM_SLICES; lia | by eexists _, [] | done].
  - rewrite length_app in Hn. simpl in Hn. destruct IH as (es & Hrep & Hok); [lia|].
    exists (epochs_record (now, latency) es). split; [|eapply (epochs_ok_record _ t _ _ (now, latency)); [done | done | simpl; lia]].
    destruct Hok as [(e & es' & -> & He) _ _ _ Hct]. apply (record_represents h e es' (now, latency)); [done | simpl; lia | simpl; lia |].
    assert (Z.of_nat (length (ep_samples e)) <= Z.of_nat (length hist)); [|lia].
    assert (forall l : list Sample, count (fun _ => true) l = Z.of_nat (length l)) as Hlen.
    { induction l as [|x l IHl]; simpl; lia. }
    rewrite <- (Hlen hist), <- (Hlen (ep_samples e)), <- Hct, bind_cons, count_app.
    pose proof (count_bounds (fun _ => true) (es' ≫= ep_samples)). lia.
Qed.

(** *** The snapshot *)

Definition zsum {A} (f : A -> Z) (l : list A) : Z := foldr (fun x a => f x + a) 0 l.

Lemma zsum_cons {A} (f : A -> Z) x l : zsum f (x :: l) = f x + zsum f l.
Proof. done. Qed.
Lemma zsum_app {A} (f : A -> Z) l k : zsum f (l ++ k) = zsum f l + zsum f k.
Proof. unfold zsum. induction l as [|x l IH]; simpl; lia. Qed.
Lemma zsum_nonneg {A} (f : A -> Z) l : (forall x, x ∈ l -> 0 <= f x) -> 0 <= zsum f l.
Proof.
  unfold zsum. induction l as [|x l IH]; simpl; intros H; [lia|].
  pose proof (H x ltac:(left)). specialize (IH ltac:(intros y Hy; apply H; by right)). lia.
Qed.
Lemma zsum_mono {A} (f g : A -> Z) l : (forall x, x ∈ l -> f x <= g x) -> zsum f l <= zsum g l.
Proof.
  unfold zsum. induction l as [|x l IH]; simpl; intros H; [lia|].
  pose proof (H x ltac:(left)). specialize (IH ltac:(intros y Hy; apply H; by right)). lia.
Qed.
#[export] Instance zsum_Permutation {A} (f : A -> Z) : Proper ((≡ₚ) ==> eq) (zsum f).
Proof. intros l k H. unfold zsum. induction H; simpl; lia. Qed.
Lemma zsum_map {A B} (f : B -> Z) (g : A -> B) l : zsum f (map g l) = zsum (fun x => f (g x)) l.
Proof. unfold zsum. induction l as [|x l IH]; simpl; lia. Qed.
Lemma zsum_count {A B} (P : B -> bool) (g : A -> list B) l : zsum (fun x => count P (g x)) l = count P (l ≫= g).
Proof. unfold zsum. induction l as [|x l IH]; [done|]. rewrite bind_cons, count_app. simpl. lia. Qed.

Definition live (now window : Z) (start : Z) : bool :=
  bool_decide (0 < start) &&
  bool_decide (saturating_sub now start < wrap64 (as_millis_u64 window + SLICE_DURATION_MS)).
Definition slice_count (now window : Z) (i : nat) (s : TimeSlice) : Z :=
  if live now window (ts_start_epoch_ms s) then default 0 (ts_buckets s !! i) else 0.
Definition slice_wf (s : TimeSlice) : Prop :=
  length (ts_buckets s) = NUM_BUCKETS /\ forall i n, ts_buckets s !! i = Some n -> 0 <= n.

Lemma slice_count_nonneg now window i s : slice_wf s -> 0 <= slice_count now window i s.
Proof.
  intros [_ H]. unfold slice_count. destruct (live _ _ _); [|lia].
  destruct (ts_buckets s !! i) eqn:E; [by eapply H | simpl; lia].
Qed.

Lemma snapshot_lookup now window h i :
  (i < NUM_BUCKETS)%nat -> Forall slice_wf (wh_slices h) ->
  zsum (slice_count now window i) (wh_slices h) <= u64_max ->
  snapshot now window h !! i = Some (zsum (slice_count now window i) (wh_slices h)).
Proof.
  intros Hi Hwf Hle. unfold snapshot.
  assert (forall acc a, length acc = NUM_BUCKETS -> acc !! i = Some a -> 0 <= a ->
    a + zsum (slice_count now window i) (wh_slices h) <= u64_max ->
    foldl (fun result slice => if live now window (ts_start_epoch_ms slice)
       then add_buckets result (ts_buckets slice) else result) acc (wh_slices h) !! i
    = Some (a + zsum (slice_count now window i) (wh_slices h))) as Hgen.
  { clear Hle. induction Hwf as [|s l Hs Hl IH]; intros acc a Hlen Ha H0 Hb; [by rewrite Z.add_0_r|].
    assert (0 <= zsum (slice_count now window i) l) as Hrest.
    { apply zsum_nonneg. intros x Hx. apply slice_count_nonneg. by eapply Forall_forall in Hl. }
    rewrite zsum_cons in *. cbn [foldl]. unfold slice_count at 1 in Hb. unfold slice_count at 1.
    destruct (live now window _).
    - destruct Hs as [Hsl Hsn]. destruct (lookup_lt_is_Some_2 (ts_buckets s) i) as [n Hn]; [lia|].
      rewrite Hn in *. change (default 0 (Some n)) with n in *. specialize (Hsn _ _ Hn).
      rewrite (IH _ (a + n)); [f_equal; lia | | | lia | lia].
      + unfold add_buckets. rewrite length_zip_with. lia.
      + unfold add_buckets. rewrite lookup_zip_with, Ha, Hn. simpl. rewrite wrap64_id; [done|]. unfold is_u64. lia.
    - rewrite (IH acc a); [done.. | lia]. }
  rewrite <- (Z.add_0_l (zsum _ _)). apply Hgen; [done | | done | lia].
  apply lookup_replicate_2. done.
Qed.

Lemma unroll_Permutation h : unroll h ≡ₚ wh_slices h.
Proof. unfold unroll. rewrite Permutation_app_comm. by rewrite take_drop. Qed.

Lemma counts_wf l start : slice_wf (mkSlice (counts l) start).
Proof.
  split; [done|]. intros i n Hn. simpl in Hn. unfold counts in Hn.
  apply list_lookup_fmap_Some in Hn as (j & -> & _). apply bucket_count_le.
Qed.

Lemma ring_wf es : Forall slice_wf (ring es).
Proof.
  unfold ring. apply Forall_rev, Forall_take, Forall_app. split; [|apply Forall_replicate, (counts_wf [] 0)].
  apply (proj2 (Forall_fmap slice_of slice_wf es)), Forall_true. intros e. apply counts_wf.
Qed.

(** What the ring counts, over the epochs. *)
Definition live_count (now window : Z) (i : nat) (e : Epoch) : Z :=
  if live now window (ep_stored e) then bucket_count i (ep_samples e) else 0.

Lemma ring_sum now window i es :
  (i < NUM_BUCKETS)%nat ->
  zsum (slice_count now window i) (ring es) = zsum (live_count now window i) (take NUM_SLICES es).
Proof.
  intros Hi. unfold ring. rewrite <- Permutation_rev, take_app, zsum_app.
  assert (forall n, zsum (slice_count now window i) (take n (replicate NUM_SLICES slice_new)) = 0) as ->.
  { intros n. rewrite take_replicate. induction (n `min` NUM_SLICES)%nat as [|k IH]; [done|].
    rewrite replicate_S, zsum_cons, IH. done. }
  rewrite Z.add_0_r. change (map slice_of es) with (slice_of <$> es). rewrite <- fmap_take.
  change (slice_of <$> take NUM_SLICES es) with (map slice_of (take NUM_SLICES es)). rewrite zsum_map.
  induction (take NUM_SLICES es) as [|e l IH]; [done|]. rewrite !zsum_cons, IH. f_equal.
  unfold slice_count, slice_of. cbn [ts_start_epoch_ms ts_buckets]. by rewrite counts_lookup.
Qed.

Lemma live_count_nonneg now window i e : 0 <= live_count now window i e.
Proof. unfold live_count. destruct (live _ _ _); [apply bucket_count_le | lia]. Qed.

Section Window.
  Variables (t0 t now window : Z) (hist : list Sample) (es : list Epoch) (i : nat).
Let w : Z := window / 1000000.
  Hypothesis Hok : epochs_ok t0 t hist es.
  Hypothesis H0 : 0 <= t0.
  Hypothesis Hnow : t <= now <= i64_max.
  Hypothesis Hwindow : 0 <= window <= 110 * nanos_per_sec.
#[local] Set Default Proof Using "All".

Lemma window_bounds : 0 <= w <= 110000.
Proof.
  unfold w, nanos_per_sec in *. split; [apply Z.div_pos; lia | apply Z.div_le_upper_bound; lia].
Qed.

Lemma stored_bounds e : e ∈ es -> 0 <= ep_stored e <= now.
Proof.
  intros He. destruct (ok_clock _ _ _ _ Hok) as (e0 & es' & _ & He0).
  destruct (ok_stored _ _ _ _ Hok e He) as [[-> ?]|[-> ?]]; lia.
Qed.

Lemma live_spec e :
  e ∈ es -> live now window (ep_stored e) = true <-> 0 < ep_stored e /\ now - ep_stored e < w + SLICE_DURATION_MS.
Proof.
  intros He. pose proof window_bounds. pose proof (stored_bounds e He).
  assert (as_millis_u64 window = w) as Hms by (apply wrap64_id; unfold is_u64, u64_max; fold w; lia).
  unfold live. rewrite Hms, wrap64_id by (unfold is_u64, u64_max, SLICE_DURATION_MS; lia).
  unfold saturating_sub. rewrite andb_true_iff, !bool_decide_eq_true. lia.
Qed.

Lemma live_upper :
  zsum (live_count now window i) es <=
  count (fun s => bool_decide (latency_to_bucket s.2 = i) && bool_decide (now - s.1 < w + SLICE_DURATION_MS)) hist.
Proof.
  rewrite <- (ok_count _ _ _ _ Hok), <- zsum_count. apply zsum_mono. intros e He. unfold live_count.
  destruct (live _ _ _) eqn:El; [|apply count_bounds]. apply count_mono. intros s Hs ->. simpl.
  apply bool_decide_eq_true. apply live_spec in El; [|done]. pose proof (ok_samples _ _ _ _ Hok e s He Hs).
  destruct (ok_stored _ _ _ _ Hok e He) as [[E ?]|[E ?]]; rewrite E in El; lia.
Qed.

(** An epoch that has left the ring is older than the window. *)
Lemma dropped_old e s :
  e ∈ drop NUM_SLICES es -> s ∈ ep_samples e -> w < now - s.1.
Proof.
  intros He Hs. pose proof window_bounds. apply list_elem_of_lookup in He as (k & Hk). rewrite lookup_drop in Hk.
  assert (e ∈ es) as Hin by (by eapply list_elem_of_lookup_2). pose proof (ok_samples _ _ _ _ Hok e s Hin Hs).
  destruct (ok_clock _ _ _ _ Hok) as (e0 & es' & Hes & He0). assert (es !! 0%nat = Some e0) as Hhd by (by rewrite Hes).
  pose proof (spaced_lookup es _ e0 e (ok_spaced _ _ _ _ Hok) Hhd Hk). unfold SLICE_DURATION_MS, NUM_SLICES in *. lia.
Qed.

Lemma live_lower :
  count (fun s => bool_decide (latency_to_bucket s.2 = i) &&
                  bool_decide (t0 + SLICE_DURATION_MS <= s.1 /\ now - s.1 <= w)) hist <=
  zsum (live_count now window i) (take NUM_SLICES es).
Proof.
  rewrite <- (ok_count _ _ _ _ Hok), <- (take_drop NUM_SLICES es) at 1. rewrite bind_app, count_app, <- zsum_count.
  rewrite (count_none _ (drop NUM_SLICES es ≫= ep_samples)).
  - rewrite Z.add_0_r. apply zsum_mono. intros e He. unfold live_count.
    assert (e ∈ es) as Hin by (rewrite <- (take_drop NUM_SLICES es); apply elem_of_app; by left).
    destruct (live _ _ _) eqn:El; [apply count_mono; by intros s Hs [Hb _]%andb_true_iff|].
    rewrite count_none; [done|]. intros s Hs. apply andb_false_iff. right. apply bool_decide_eq_false. intros [Ht1 Ht2].
    pose proof (ok_samples _ _ _ _ Hok e s Hin Hs). destruct (ok_stored _ _ _ _ Hok e Hin) as [[E ?]|[E ?]]; [|lia].
    assert (live now window (ep_stored e) = true); [|congruence]. apply live_spec; [done|]. rewrite E. lia.
  - intros s (e & Hs & He)%list_elem_of_bind. apply andb_false_iff. right. apply bool_decide_eq_false.
    pose proof (dropped_old e s He Hs). lia.
Qed.

End Window.

(** The histogram counts the window: after any sequence of recorded latencies,
    with a clock that does not run backwards, a snapshot counts in each bucket at
    least the samples no older than the window, those of the first ten seconds
    apart, and at most those no older than the window and one slice. *)
Theorem snapshot_counts_window t0 t hist h now window i :
  recorded t0 t hist h -> 0 <= t0 -> t <= now <= i64_max -> Z.of_nat (length hist) <= u64_max ->
  0 <= window <= 110 * nanos_per_sec -> (i < NUM_BUCKETS)%nat ->
  let w := window / 1000000 in
  exists n, snapshot now window h !! i = Some n /\
    count (fun s => bool_decide (latency_to_bucket s.2 = i) &&
                    bool_decide (t0 + SLICE_DURATION_MS <= s.1 /\ now - s.1 <= w)) hist <= n /\
    n <= count (fun s => bool_decide (latency_to_bucket s.2 = i) && bool_decide (now - s.1 < w + SLICE_DURATION_MS)) hist.
Proof.
  intros Hr H0 Hnow Hlen Hw Hi w.
  destruct (recorded_epochs t0 t hist h Hr H0 Hlen) as (es & Hrep & Hok).
  pose proof (live_upper t0 t now window hist es i Hok H0 Hnow Hw) as Hup.
  assert (zsum (live_count now window i) es = zsum (live_count now window i) (take NUM_SLICES es) +
    zsum (live_count now window i) (drop NUM_SLICES es)) as Hsplit by (by rewrite <- zsum_app, take_drop).
  assert (0 <= zsum (live_count now window i) (drop NUM_SLICES es)) as Hdrop
    by (apply zsum_nonneg; intros e _; apply live_count_nonneg).
  assert (zsum (slice_count now window i) (wh_slices h) = zsum (live_count now window i) (take NUM_SLICES es)) as Hsum.
  { rewrite <- (unroll_Permutation h), (rep_ring _ _ Hrep). by apply ring_sum. }
  exists (zsum (live_count now window i) (take NUM_SLICES es)). split_and!.
  - rewrite <- Hsum. apply snapshot_lookup; [done | |].
    + rewrite <- (unroll_Permutation h), (rep_ring _ _ Hrep). apply ring_wf.
    + rewrite Hsum. eapply Z.le_trans; [|exact Hlen]. eapply Z.le_trans; [|eapply (proj2 (count_bounds _ hist))].
      eapply Z.le_trans; [|exact Hup]. lia.
  - by eapply live_lower.
  - eapply Z.le_trans; [|exact Hup]. lia.
Qed.

(** Two samples after a rotation, one of them too old. *)
Definition sample_history : list Sample := [(20000, 3000000); (50000, 3500000); (85000, 3900000)].
Definition sample_histogram : WindowedHistogram :=
  foldl (fun h s => record s.1 s.2 h) (histogram_new 1) sample_history.

Lemma snapshot_counts_window_witness :
  exists n, snapshot 90000 (60 * nanos_per_sec) sample_histogram !! 2%nat = Some n /\ 2 <= n <= 2.
Proof.
  destruct (snapshot_counts_window 1 85000 sample_history sample_histogram 90000 (60 * nanos_per_sec) 2)
    as (n & Hn & Hlo & Hhi).
  - apply (recorded_step 1 50000 [(20000, 3000000); (50000, 3500000)] _ 85000 3900000); [|unfold u64_max; lia].
    apply (recorded_step 1 20000 [(20000, 3000000)] _ 50000 3500000); [|unfold u64_max; lia].
    apply (recorded_step 1 1 [] _ 20000 3000000); [constructor | unfold u64_max; lia].
  - lia.
  - unfold i64_max; lia.
  - simpl; unfold u64_max; lia.
  - unfold nanos_per_sec; lia.
  - unfold NUM_BUCKETS; lia.
  - exists n. split; [exact Hn|]. split; [exact Hlo | exact Hhi].
Defined.

(** Samples recorded before the first rotation are in a slice whose start is 0,
    and no snapshot ever counts them. *)
Theorem histogram_ignores_first_slice :
  let h := record 5000 3000000 (histogram_new 1) in
  total_samples 6000 (60 * nanos_per_sec) h = 0 /\ total_samples 20000 (60 * nanos_per_sec) h = 0.
Proof. vm_compute. done. Qed.

(** Twelve slices hold less than the longest window that the builder accepts: a
    sample 110.001 seconds old is gone, with a window of 120 seconds. *)
Theorem histogram_loses_window :
  let times := [20000; 29999; 30000; 40000; 50000; 60000; 70000; 80000; 90000; 100000; 110000; 120000; 130000; 140000] in
  let h := foldl (fun h t => record t 3000000 h) (histogram_new 1) times in
  is_ok (with_window (E := unit) (120 * nanos_per_sec) tail_cut_default) = true /\
  total_samples 140000 (120 * nanos_per_sec) h = 12.
Proof. vm_compute. done. Qed.

(** ** Latencies and deadlines *)

(** A bucket's latency is an upper bound of what it counts, at most twice too
    high, for latencies below the last bucket. *)
Theorem bucket_covers_latency latency :
  0 <= latency < 32768 * 1000000 ->
  let ms := latency / 1000000 in
  let bound := bucket_to_latency (latency_to_bucket latency) in
  latency < bound /\ bound <= Z.max 1 (2 * ms) * 1000000.
Proof.
  intros Hl ms bound. assert (0 <= ms < 32768) as Hms.
  { unfold ms. split; [apply Z.div_pos; lia | apply Z.div_lt_upper_bound; lia]. }
  assert (latency < (ms + 1) * 1000000) as Hlt by (pose proof (Z.mod_pos_bound latency 1000000); pose proof (Z.div_mod latency 1000000); unfold ms; lia).
  assert (as_millis_u64 latency = ms) as E by (unfold as_millis_u64; fold ms; apply wrap64_id; unfold is_u64, u64_max; lia).
  unfold bound, latency_to_bucket. rewrite E. case_bool_decide as H0; [unfold bucket_to_latency; simpl; lia|].
  assert (0 <= Z.log2 ms < 15) as Hlog by (split; [apply Z.log2_nonneg | apply Z.log2_lt_pow2; simpl; lia]).
  unfold NUM_BUCKETS, bucket_to_latency. rewrite Nat.min_l by lia. rewrite !bool_decide_eq_false_2 by (unfold NUM_BUCKETS; lia).
  rewrite Z.shiftl_mul_pow2, Z2Nat.id by lia. pose proof (Z.log2_spec ms ltac:(lia)) as [Hlo Hhi].
  rewrite <- Z.add_1_r in Hhi. rewrite Z.mul_1_l. rewrite Z.pow_add_r in * by lia. lia.
Qed.

Lemma bucket_covers_latency_witness :
  let bound := bucket_to_latency (latency_to_bucket 5500000) in 5500000 < bound /\ bound <= 10000000.
Proof. apply (bucket_covers_latency 5500000). lia. Defined.

Lemma quantile_loop_spec target cumsum idx counts :
  Forall (fun n => 0 <= n) counts -> 0 <= cumsum -> cumsum + zsum id counts <= u64_max ->
  (exists k, (k < length counts)%nat /\ quantile_loop target cumsum idx counts = bucket_to_latency (idx + k) /\
     target <= cumsum + zsum id (take (S k) counts) /\
     forall j, (j <= k)%nat -> (0 < j)%nat -> cumsum + zsum id (take j counts) < target) \/
  quantile_loop target cumsum idx counts = bucket_to_latency (NUM_BUCKETS - 1) /\ cumsum + zsum id counts < target \/
  counts = [].
Proof.
  intros Hc. revert cumsum idx. induction Hc as [|n counts Hn Hc IH]; intros cumsum idx H0 Hle; [auto|].
  rewrite zsum_cons in Hle. assert (0 <= zsum id counts) as Hz.
  { apply zsum_nonneg. intros x Hx. by eapply Forall_forall in Hc. }
  cbn [quantile_loop]. unfold id at 1 in Hle. rewrite wrap64_id by (unfold is_u64; lia). case_bool_decide as Ht.
  { left. exists 0%nat. split_and!; [simpl; lia | by rewrite Nat.add_0_r | simpl; unfold id; lia | lia]. }
  destruct (IH (cumsum + n) (S idx)) as [(k & Hk & E & Hge & Hlt)|[[E Hlt]|E]]; [lia | lia | | |].
  - left. exists (S k). split_and!; [simpl; lia | by rewrite E; f_equal; lia | |].
    + rewrite firstn_cons, zsum_cons. unfold id at 1. lia.
    + intros [|j] Hj Hj0; [lia|]. rewrite firstn_cons, zsum_cons. unfold id at 1.
      destruct j as [|j]; [simpl; lia|]. specialize (Hlt (S j) ltac:(lia) ltac:(lia)). lia.
  - right. left. split; [done|]. rewrite zsum_cons. unfold id at 1. lia.
  - subst counts. right. left. split; [done|]. rewrite zsum_cons. unfold id at 1. change (zsum id []) with 0. lia.
Qed.

Lemma sum64_zsum ns : Forall (fun n => 0 <= n) ns -> zsum id ns <= u64_max -> sum64 ns = zsum id ns.
Proof.
  intros Hns Hle. unfold sum64.
  assert (forall a, 0 <= a -> a + zsum id ns <= u64_max -> foldl (fun a n => wrap64 (a + n)) a ns = a + zsum id ns) as H.
  { clear Hle. induction Hns as [|n ns Hn Hns IH]; intros a Ha Hle; [simpl; unfold zsum; simpl; lia|].
    assert (0 <= zsum id ns) by (apply zsum_nonneg; intros x Hx; by eapply Forall_forall in Hns).
    rewrite zsum_cons in *. unfold id at 1 in Hle. cbn [foldl]. rewrite wrap64_id by (unfold is_u64; lia).
    rewrite IH by lia. unfold id at 2. lia. }
  rewrite H; lia.
Qed.

(** The quantile: with no samples there is none; otherwise it is the latency of
    the first bucket at which the number of samples up to it reaches the rank, or
    of the last bucket when the rank, rounded in floating point, exceeds them
    all. *)
Theorem quantile_first_bucket now q window h :
  let counts := snapshot now window h in
  let rank := ceil_u64 (f64_mul (f64_of (zsum id counts)) q) in
  Forall (fun n => 0 <= n) counts -> length counts = NUM_BUCKETS -> zsum id counts <= u64_max ->
  match quantile now q window h with
  | None => zsum id counts = 0
  | Some d => exists k, (k < NUM_BUCKETS)%nat /\ d = bucket_to_latency k /\
      (rank <= zsum id (take (S k) counts) \/ k = (NUM_BUCKETS - 1)%nat /\ zsum id counts < rank) /\
      forall j, (j <= k)%nat -> (0 < j)%nat -> zsum id (take j counts) < rank
  end.
Proof.
  intros counts rank Hc Hlen Hle. unfold quantile. fold counts. rewrite (sum64_zsum counts Hc Hle). fold rank.
  case_bool_decide as H0; [done|].
  destruct (quantile_loop_spec rank 0 0 counts Hc ltac:(lia) ltac:(lia)) as [(k & Hk & E & Hge & Hlt)|[[E Hlt]|E]].
  - exists k. rewrite E, <- Hlen. split_and!; [done | done | left; lia |]. intros j Hj Hj0. specialize (Hlt j Hj Hj0). lia.
  - exists (NUM_BUCKETS - 1)%nat. rewrite E. split_and!; [unfold NUM_BUCKETS; lia | done | right; split; [done|lia] |].
    intros j Hj Hj0. assert (zsum id (take j counts) <= zsum id counts); [|lia].
    rewrite <- (take_drop j counts) at 2. rewrite zsum_app.
    assert (0 <= zsum id (drop j counts)); [|lia]. apply zsum_nonneg. intros x Hx. eapply Forall_forall in Hc; [done|].
    rewrite <- (take_drop j counts). apply elem_of_app. by right.
  - by rewrite E in Hlen.
Qed.

Lemma quantile_first_bucket_witness :
  exists k, quantile 90000 (f64_div (f64_of 95) (f64_of 100)) (60 * nanos_per_sec) sample_histogram = Some (bucket_to_latency k).
Proof.
  assert (snapshot 90000 (60 * nanos_per_sec) sample_histogram = [0; 0; 2] ++ replicate 14 0) as Es by (vm_compute; reflexivity).
  pose proof (quantile_first_bucket 90000 (f64_div (f64_of 95) (f64_of 100)) (60 * nanos_per_sec) sample_histogram) as Hq.
  cbn zeta in Hq. rewrite Es in Hq. specialize (Hq ltac:(repeat constructor; lia) eq_refl ltac:(vm_compute; discriminate)).
  destruct (quantile _ _ _ _) as [d|]; [|discriminate Hq]. destruct Hq as (k & _ & -> & _). by exists k.
Defined.

Lemma quantile_is_bucket now q window h d :
  quantile now q window h = Some d -> exists k, (k < NUM_BUCKETS)%nat /\ d = bucket_to_latency k.
Proof.
  unfold quantile. case_bool_decide; [done|]. intros [= <-]. generalize (ceil_u64 (f64_mul (f64_of (sum64 (snapshot now window h))) q)).
  intros target. generalize (snapshot now window h). intros counts.
  assert (forall cumsum idx, exists k, (k < NUM_BUCKETS)%nat /\ quantile_loop target cumsum idx counts = bucket_to_latency k) as Hk.
  { assert (forall k, exists k', (k' < NUM_BUCKETS)%nat /\ bucket_to_latency k = bucket_to_latency k') as Hcap.
    { intros k. destruct (decide (k < NUM_BUCKETS)%nat) as [|Hk]; [by exists k|]. exists (NUM_BUCKETS - 1)%nat.
      unfold bucket_to_latency, NUM_BUCKETS in *. split; [lia|].
      rewrite !bool_decide_eq_false_2 by lia. by rewrite !bool_decide_eq_true_2 by lia. }
    induction counts as [|n counts IH]; intros cumsum idx; cbn [quantile_loop]; [apply Hcap|].
    case_bool_decide; [apply Hcap | apply IH]. }
  apply Hk.
Qed.

(** Every bucket's latency, times the default factor, is a [Duration]. *)
Lemma default_factor_total k :
  (k < NUM_BUCKETS)%nat ->
  exists d, from_secs_f64 (E := Error) (f64_mul (as_secs_f64 (bucket_to_latency k)) f64_1_3) = Ok d /\
    bucket_to_latency k < d <= 2 * bucket_to_latency k.
Proof.
  intros Hk. unfold NUM_BUCKETS in Hk. do 17 (destruct k as [|k]; [eexists; split; [vm_compute; reflexivity | vm_compute; split; congruence]|]).
  lia.
Qed.

(** C40.  Deadlines are in bounds: with the default factor, and limits that do not
    cross, a deadline is always computed without a panic, there is none while
    fewer than the required number of samples are known, and one that is set lies
    between the limits. *)
Theorem deadline_in_bounds now now2 c op size (stats : TailCutStats) :
  tc_safety_factor c = f64_1_3 -> tc_min_deadline c <= tc_max_deadline c -> length stats = 7%nat ->
  exists op_stats, stats !! stats_for op = Some op_stats /\
    match calculate_deadline (E := Error) now now2 c op size stats with
    | Ok None => stats_total_samples now size (tc_window c) op_stats < tc_min_samples c \/
                 stats_quantile now2 size (f64_div (f64_of (tc_percentile c)) (f64_of 100)) (tc_window c) op_stats = None
    | Ok (Some d) => tc_min_samples c <= stats_total_samples now size (tc_window c) op_stats /\
                     tc_min_deadline c <= d <= tc_max_deadline c
    | _ => False
    end.
Proof.
  intros Hf Hlim Hlen. assert (is_Some (stats !! stats_for op)) as [s Hs]
    by (apply (lookup_lt_is_Some_2 (A := OperationStats)); rewrite Hlen; destruct op; simpl; lia).
  exists s. split; [done|]. unfold calculate_deadline. rewrite Hs. simpl. unfold mbind, outcome_bind. simpl.
  case_bool_decide as Hn; [by left|]. destruct (stats_quantile now2 _ _ _ _) as [pctl|] eqn:Eq; [|by right].
  unfold stats_quantile in Eq. apply bind_Some in Eq as (h & _ & Eq). apply quantile_is_bucket in Eq as (k & Hk & ->).
  rewrite Hf. destruct (default_factor_total k Hk) as (d & -> & _). unfold clamp.
  rewrite (bool_decide_eq_true_2 (tc_min_deadline c <= tc_max_deadline c)) by done.
  repeat case_bool_decide; lia.
Qed.

Lemma deadline_in_bounds_witness :
  exists op_stats, tail_cut_stats_new 0 !! stats_for ORead = Some op_stats /\
    calculate_deadline (E := Error) 5 5 tail_cut_default ORead None (tail_cut_stats_new 0) = Ok None.
Proof.
  destruct (deadline_in_bounds 5 5 tail_cut_default ORead None (tail_cut_stats_new 0) eq_refl ltac:(vm_compute; discriminate) eq_refl)
    as (s & Hs & _). exists s. split; [exact Hs | vm_compute; reflexivity].
Defined.

(** Limits that cross are accepted by the builder, and make the first call with
    enough samples panic. *)
Definition busy_stats : TailCutStats :=
  foldl (fun s t => stats_success t OStat None 3000000 s) (tail_cut_stats_new 1) [20000; 20001].
Theorem crossed_limits_panic :
  let c := with_min_samples 1 (with_max_deadline 1000000 tail_cut_default) in
  calculate_deadline (E := Error) 20002 20002 c OStat None busy_stats = Panic.
Proof. vm_compute. done. Qed.

(** The layer is transparent but for cancelling: a call without a deadline, or
    that ends before it, returns what it returns without the layer and leaves the
    callee the same, and is counted once if it succeeds; a call that is cancelled
    fails with a temporary error, so that a retry layer outside repeats it, and is
    not counted. *)
Theorem tail_cut_transparent {A X} show_duration c message (tm : Timing A) op size (fut : M A Error X) a stats deadline :
  calculate_deadline (E := Error) (tm_now tm) (tm_now2 tm) c op size stats = Ok deadline ->
  let out := with_deadline show_duration c message tm op size fut (a, stats) in
  let cancelled := match deadline with Some d => tm_expired tm d | None => false end in
  if cancelled : bool then
    (exists e, out = (Err e, (tm_cancelled tm a, stats)) /\ kind e = Unexpected /\ is_temporary e = true)
  else
    out.1 = (fut a).1 /\ out.2.1 = (fut a).2 /\
    out.2.2 = (if is_ok (fut a).1 then stats_success (tm_after tm) op size (tm_latency tm) stats else stats).
Proof.
  intros Hd. unfold with_deadline. rewrite Hd. destruct deadline as [d|].
  - destruct (tm_expired tm d); [by eexists; split; [done|] | by destruct (fut a)].
  - by destruct (fut a).
Qed.

Lemma tail_cut_transparent_witness :
  let tm := mkTiming 5 5 6 1000000 (fun _ => false) id in
  let out := with_deadline (fun _ => []) tail_cut_default "cancelled" tm OStat None
    (fun n : nat => (Ok n, S n)) (3%nat, tail_cut_stats_new 0) in
  out.1 = Ok 3%nat /\ out.2.1 = 4%nat.
Proof.
  destruct (tail_cut_transparent (fun _ => []) tail_cut_default "cancelled"
    (mkTiming 5 5 6 1000000 (fun _ => false) id) OStat None (fun n : nat => (Ok n, S n)) 3%nat (tail_cut_stats_new 0) None)
    as (H1 & H2 & _); [vm_compute; reflexivity|]. split; [exact H1 | exact H2].
Defined.
