(* ===== verification/Foyer.v ===== *)
(** * The foyer cache layer ([core/layers/foyer/src/*.rs])

    A layer that keeps whole objects in a hybrid cache: a read is answered from
    the cache or fetches the object into it, a closed write replaces what the
    cache has, a closed delete removes it.  The cache is the [foyer] crate's: a
    class of operations with laws that let it forget anything at any time.  The
    state below the handles, [Inner], is shared by all of them. *)

From S2P Require Import Prelude Errors Path Range Buffer Types Access Readers Deleters Memory Stack.
From stdpp Require Import options.

(** ** Keys and values *)

Record FoyerKey : Type := mkKey { fk_path : str; fk_version : option str }.
#[export] Instance FoyerKey_eq_dec : EqDecision FoyerKey.
Proof. solve_decision. Defined.
#[export] Instance FoyerKey_countable : Countable FoyerKey.
Proof. refine (inj_countable' (fun k => (fk_path k, fk_version k)) (fun '(p, v) => mkKey p v) _). by intros []. Defined.

(** [impl Code for FoyerValue]: the length, then the bytes. *)
Definition encode (v : Buffer) : bytes := le_bytes (Z.of_nat (blen v)) ++ contents v.

(** [read_exact] on what a reader still has. *)
Definition read_exact (n : nat) : M bytes IoErrorKind bytes := fun bs =>
  if bool_decide (n <= length bs) then (Ok (take n bs), drop n bs) else (Err IoUnexpectedEof, []).
Definition decode : M bytes IoErrorKind Buffer :=
  len_bytes ← read_exact 8;
  buffer ← read_exact (Z.to_nat (from_le_bytes len_bytes));
  mret (from_bytes buffer).

(** ** Errors of a fetch *)

Inductive FetchError : Type := SizeTooLarge | Source (k : ErrorKind) (message : str).
Definition from_error (err : Error) : FetchError := Source (kind err) (show_error err).

(** What [foyer::Error] can be downcast to: the error of a fetch, one of ours, or
    neither. *)
Inductive FoyerError : Type := FetchFailed (e : FetchError) | OpendalError (e : Error) | CacheFailed (source : str).

Definition new_error (k : ErrorKind) (message : str) : Error :=
  {| kind := k; message := message; status := Permanent; operation := []; context := []; source := None |}.
Definition extract_err (e : FoyerError) : Error :=
  match e with
  | OpendalError e => new_error (kind e) (show_error e)
  | FetchFailed SizeTooLarge => error Unexpected "fetched data size exceeds size limit"
  | FetchFailed (Source k message) => new_error k message
  | CacheFailed src => set_source src (error Unexpected "foyer operation failed")
  end.

(** ** [foyer::HybridCache] *)

Class HybridCache (C : Type) : Type := {
  hc_get_or_fetch : forall {A : Type}, FoyerKey -> M A FetchError Buffer -> M (A * C) FoyerError Buffer;
  hc_insert : FoyerKey -> Buffer -> C -> C;
  hc_remove : FoyerKey -> C -> C;
}.

(** Whatever is in the cache was put there under that key and not removed since;
    any of it may be gone at the next call.  [get_or_fetch] returns an entry the
    cache has, or runs the fetch and returns what it returns, keeping it if it is
    a value, or fails by itself. *)
Class HybridCacheLaws (C : Type) `{HybridCache C} : Type := {
  hc_view : C -> gmap FoyerKey bytes;
  hc_insert_law k v c : hc_view (hc_insert k v c) ⊆ <[k := contents v]> (hc_view c);
  hc_remove_law k c : hc_view (hc_remove k c) ⊆ delete k (hc_view c);
  hc_fetch_law A k (fetch : M A FetchError Buffer) a c :
    (exists v c', hc_get_or_fetch k fetch (a, c) = (Ok v, (a, c')) /\ wf v /\
       hc_view c !! k = Some (contents v) /\ hc_view c' ⊆ hc_view c) \/
    (exists src c', hc_get_or_fetch k fetch (a, c) = (Err (CacheFailed src), (a, c')) /\ hc_view c' ⊆ hc_view c) \/
    (exists c', hc_get_or_fetch k fetch (a, c) = (map_err FetchFailed (fetch a).1, ((fetch a).2, c')) /\
       match (fetch a).1 with
       | Ok v => hc_view c' ⊆ <[k := contents v]> (hc_view c)
       | _ => hc_view c' ⊆ hc_view c
       end);
}.

(** ** The layer *)

(** [size_limit: Range<usize>]. *)
Record SizeLimit : Type := mkLimit { sl_start : Z; sl_end : Z }.
Definition size_limit_default : SizeLimit := mkLimit 0 u64_max.
Definition limit_contains (l : SizeLimit) (n : Z) : bool := bool_decide (sl_start l <= n < sl_end l)%Z.
Definition with_size_limit (lo hi : Bound) : SizeLimit :=
  mkLimit (match lo with Included v => v | Excluded v => wrap64 (v + 1) | Unbounded => 0 end)
          (match hi with Included v => wrap64 (v + 1) | Excluded v => v | Unbounded => u64_max end).

Record FoyerInner (A C : Type) : Type := mkInner { fi_accessor : A; fi_cache : C; fi_deleted_keys : gset FoyerKey }.
Arguments mkInner {A C}.
Arguments fi_accessor {A C}.
Arguments fi_cache {A C}.
Arguments fi_deleted_keys {A C}.

Record FoyerWriter (Wr : Type) : Type := mkFoyerWriter {
  fw_w : Wr; fw_buf : QueueBuf; fw_path : str; fw_skip_cache : bool;
}.
Arguments mkFoyerWriter {Wr}.
Arguments fw_w {Wr}.
Arguments fw_buf {Wr}.
Arguments fw_path {Wr}.
Arguments fw_skip_cache {Wr}.

Record FoyerDeleter (Dl : Type) : Type := mkFoyerDeleter { fd_deleter : Dl; fd_keys : list FoyerKey }.
Arguments mkFoyerDeleter {Dl}.
Arguments fd_deleter {Dl}.
Arguments fd_keys {Dl}.

Section Foyer.
  Context {A C Rd Wr Ls Dl Cp : Type} `{Read Rd} `{Write (A * Wr)} `{Delete (A * Dl)} `{HybridCache C}.
  Variable limit : SizeLimit.
  Variable inner : Access A Rd Wr Ls Dl Cp.
  Variable fuel : nat.

Abbreviation S := (FoyerInner A C).

Definition set_accessor (a : A) (s : S) : S := mkInner a (fi_cache s) (fi_deleted_keys s).
Definition on_accessor {X} (m : M A Error X) : M S Error X := zoom fi_accessor set_accessor m.

(** What a miss runs: the size first, then the whole object. *)
Definition as_fetch {X} (m : M A Error X) : M A FetchError X := fun a =>
  let '(r, a') := m a in (map_err from_error r, a').
Definition fetch_object (path : str) : M A FetchError Buffer :=
  metadata ← as_fetch (a_stat inner path op_stat);
  if negb (limit_contains limit (content_length metadata)) then throw SizeTooLarge
  else
    '(_, reader) ← as_fetch (a_read inner path (read_with_range (mkRange 0 None) op_read));
    lift (map_err from_error (read_all fuel reader).1).

(** A read that goes around the cache. *)
Definition read_direct (path : str) (args : OpRead) : M S Error (option Metadata * Buffer) :=
  '(rp, reader) ← on_accessor (a_read inner path args);
  buffer ← lift (read_all fuel reader).1;
  mret (rp, buffer).

(** [self.inner.cache.get_or_fetch(..).await], its result kept for inspection. *)
Definition get_or_fetch (key : FoyerKey) (fetch : M A FetchError Buffer) : M S Error (outcome FoyerError Buffer) := fun s =>
  let '(r, (a, c)) := hc_get_or_fetch key fetch (fi_accessor s, fi_cache s) in
  (Ok r, mkInner a c (fi_deleted_keys s)).

Definition full_read (path : str) (args : OpRead) : M S Error (option Metadata * Buffer) :=
  let range_start := Range.offset (read_range args) in
  let range_end := (fun size => wrap64 (range_start + size)) <$> Range.size (read_range args) in
  let key := mkKey path (read_version args) in
  deleted_keys ← gets fi_deleted_keys;
  if bool_decide (key ∈ deleted_keys) then read_direct path args
  else
    result ← get_or_fetch key (fetch_object path);
    match result with
    | Ok entry =>
        let end_ := default (Z.of_nat (blen entry)) range_end in
        buffer ← lift (slice entry (Included range_start) (Excluded end_));
        mret (Some (set_content_length (Z.of_nat (blen entry)) (meta_new FILE)), buffer)
    | Err (FetchFailed SizeTooLarge) => read_direct path args
    | Err (FetchFailed (Source k message)) => throw (new_error k message)
    | Err e => throw (extract_err e)
    | Panic => panic
    end.

(** *** Writing *)

Definition foyer_open (path : str) (args : OpWrite) : M S Error (FoyerWriter Wr) :=
  w ← on_accessor (a_write inner path args);
  mret (mkFoyerWriter w [] path false).

Definition set_w (aw : A * Wr) (x : S * FoyerWriter Wr) : S * FoyerWriter Wr :=
  let '(s, w) := x in
  (set_accessor aw.1 s, mkFoyerWriter aw.2 (fw_buf w) (fw_path w) (fw_skip_cache w)).
Definition on_writer {X} (m : M (A * Wr) Error X) : M (S * FoyerWriter Wr) Error X :=
  zoom (fun x => (fi_accessor x.1, fw_w x.2)) set_w m.
Definition set_buf (q : QueueBuf) (skip : bool) (x : S * FoyerWriter Wr) : S * FoyerWriter Wr :=
  (x.1, mkFoyerWriter (fw_w x.2) q (fw_path x.2) skip).

Definition foyer_write (bs : Buffer) : M (S * FoyerWriter Wr) Error unit :=
  '(_, w) ← get;
  (if limit_contains limit (Z.of_nat (qlen (fw_buf w) + blen bs))
   then modify (set_buf (qpush (fw_buf w) bs) false)
   else modify (set_buf (qclear (fw_buf w)) true));;
  on_writer (w_write bs).

(** [self.inner.cache.insert(..)] and [deleted_keys.remove(..)]. *)
Definition remember (key : FoyerKey) (buffer : Buffer) (s : S) : S :=
  mkInner (fi_accessor s) (hc_insert key buffer (fi_cache s)) (fi_deleted_keys s ∖ {[key]}).

Definition foyer_close : M (S * FoyerWriter Wr) Error Metadata :=
  '(_, w) ← get;
  buffer ← lift (qcollect (fw_buf w));
  metadata ← on_writer w_close;
  (if fw_skip_cache w then mret tt
   else modify (fun x => (remember (mkKey (fw_path w) (m_version metadata)) buffer x.1, x.2)));;
  mret metadata.

Definition foyer_abort : M (S * FoyerWriter Wr) Error unit :=
  modify (fun x => set_buf (qclear (fw_buf x.2)) (fw_skip_cache x.2) x);;
  on_writer w_abort.

#[global] Instance FoyerWriter_Write : Write (S * FoyerWriter Wr) :=
  {| w_write := foyer_write; w_close := foyer_close; w_abort := foyer_abort |}.

(** *** Deleting *)

Definition foyer_delete_open : M S Error (FoyerDeleter Dl) :=
  d ← on_accessor (a_delete inner);
  mret (mkFoyerDeleter d []).

Definition on_deleter {X} (m : M (A * Dl) Error X) : M (S * FoyerDeleter Dl) Error X :=
  zoom (fun x => (fi_accessor x.1, fd_deleter x.2))
    (fun ad x => (set_accessor ad.1 x.1, mkFoyerDeleter ad.2 (fd_keys x.2))) m.

Definition foyer_delete (path : str) (args : OpDelete) : M (S * FoyerDeleter Dl) Error unit :=
  on_deleter (d_delete path args);;
  modify (fun x => (x.1, mkFoyerDeleter (fd_deleter x.2) (fd_keys x.2 ++ [mkKey path (del_version args)]))).

Definition forget (s : S) (key : FoyerKey) : S :=
  mkInner (fi_accessor s) (hc_remove key (fi_cache s)) ({[key]} ∪ fi_deleted_keys s).
Definition foyer_delete_close : M (S * FoyerDeleter Dl) Error unit :=
  modify (fun x => (foldl forget x.1 (fd_keys x.2), x.2));;
  on_deleter d_close.

#[global] Instance FoyerDeleter_Delete : Delete (S * FoyerDeleter Dl) :=
  {| d_delete := foyer_delete; d_close := foyer_delete_close |}.

Definition foyer_layer : Access S Buffer (FoyerWriter Wr) Ls (FoyerDeleter Dl) Cp :=
  {| a_info s := a_info inner (fi_accessor s);
     a_create_dir path := on_accessor (a_create_dir inner path);
     a_stat path args := on_accessor (a_stat inner path args);
     a_read := full_read; a_write := foyer_open; a_delete := foyer_delete_open;
     a_list path args := on_accessor (a_list inner path args);
     a_copy from to args opts := on_accessor (a_copy inner from to args opts);
     a_rename from to := on_accessor (a_rename inner from to) |}.

End Foyer.

(** ** Encoding *)

(** A value that was written to disk is read back as it was, and the reader is
    left after it. *)
Theorem foyer_value_roundtrip v rest :
  wf v -> (Z.of_nat (blen v) <= u64_max)%Z ->
  exists v', decode (encode v ++ rest) = (Ok v', rest) /\ contents v' = contents v.
Proof.
  intros Hv Hl. unfold decode, encode, mbind, M_bind, read_exact, mret, M_ret.
  assert (length (le_bytes (Z.of_nat (blen v))) = 8) as H8 by done.
  rewrite <- app_assoc, bool_decide_eq_true_2 by (rewrite length_app; lia).
  rewrite take_app_length', drop_app_length' by done.
  rewrite le_bytes_roundtrip, Nat2Z.id by (unfold is_u64; lia).
  rewrite <- (contents_length v Hv), bool_decide_eq_true_2 by (rewrite length_app; lia).
  rewrite take_app_length, drop_app_length. by eexists.
Qed.

Lemma foyer_value_roundtrip_witness :
  exists v', decode (encode (from_bytes [x01; x02]) ++ [x07]) = (Ok v', [x07]) /\ contents v' = [x01; x02].
Proof. exact (foyer_value_roundtrip (from_bytes [x01; x02]) [x07] I ltac:(vm_compute; discriminate)). Defined.

(** ** What the layer needs of the service

    A store of objects.  Any call may fail; one that does leaves the objects as
    they are, a writer touches nothing but its path and a deleter nothing but
    the paths it was given. *)
Definition range_u64 (r : BytesRange) : Prop :=
  is_u64 (Range.offset r) /\ from_option (fun n => 0 <= n /\ Range.offset r + n <= u64_max)%Z True (Range.size r).

(** The paths a delete is about. *)
Definition covers (p : str) (args : OpDelete) (q : str) : Prop :=
  q = p \/ del_recursive args = true /\ starts_with p q = true.

Class ObjectStore {A Rd Wr Ls Dl Cp : Type} `{Read Rd, Write (A * Wr), Delete (A * Dl)}
    (fuel : nat) (inner : Access A Rd Wr Ls Dl Cp) : Type := {
  objects : A -> str -> option bytes;
  store_ok : A -> Prop;
  object_path : str -> Prop;
  (** A writer of the path, in any state. *)
  writes_to : Wr -> str -> Prop;
  (** A writer that was opened without append, has taken the bytes for the path
      and has never failed. *)
  writing : Wr -> str -> bytes -> Prop;
  (** The paths a deleter may still delete. *)
  deleting : Dl -> (str -> Prop) -> Prop;
  writing_law w p d : writing w p d -> writes_to w p;
  deleting_law d (P P' : str -> Prop) : deleting d P -> (forall q, P q -> P' q) -> deleting d P';
  stat_law p a :
    store_ok a -> object_path p ->
    let '(r, a') := a_stat inner p op_stat a in
    store_ok a' /\ (forall q, objects a' q = objects a q) /\ r <> Panic;
  read_law p args a :
    store_ok a -> object_path p -> range_u64 (read_range args) ->
    let '(r, a') := a_read inner p args a in
    store_ok a' /\ (forall q, objects a' q = objects a q) /\
    (read_version args = None ->
     match r with
     | Ok (_, rd) => exists data n, objects a p = Some data /\ n < fuel /\ Serves read_buf false rd (sub data (read_range args)) n
     | Err _ => True
     | Panic => False
     end);
  open_law p args a :
    store_ok a -> object_path p ->
    let '(r, a') := a_write inner p args a in
    store_ok a' /\ (forall q, objects a' q = objects a q) /\
    forall w, r = Ok w -> writes_to w p /\ (write_append args = false -> writing w p []);
  write_law bs p a w :
    store_ok a -> writes_to w p -> wf bs ->
    let '(r, (a', w')) := w_write bs (a, w) in
    store_ok a' /\ writes_to w' p /\ (forall q, q <> p -> objects a' q = objects a q) /\
    forall d, writing w p d -> objects a' p = objects a p /\ (r = Ok tt -> writing w' p (d ++ contents bs));
  close_law p a w :
    store_ok a -> writes_to w p ->
    let '(r, (a', w')) := w_close (a, w) in
    writes_to w' p /\ (forall q, q <> p -> objects a' q = objects a q) /\
    forall d, writing w p d -> (Z.of_nat (length d) <= u64_max)%Z ->
      store_ok a' /\ objects a' p = match r with Ok _ => Some d | _ => objects a p end;
  abort_law p a w :
    store_ok a -> writes_to w p ->
    let '(r, (a', w')) := w_abort (a, w) in
    store_ok a' /\ writes_to w' p /\ (forall q, q <> p -> objects a' q = objects a q) /\
    forall d, writing w p d -> objects a' p = objects a p;
  deleter_law a :
    store_ok a ->
    let '(r, a') := a_delete inner a in
    store_ok a' /\ (forall q, objects a' q = objects a q) /\ forall d, r = Ok d -> deleting d (fun _ => False);
  delete_law p args P a d :
    store_ok a -> object_path p -> deleting d P ->
    let '(r, (a', d')) := d_delete p args (a, d) in
    let touched := fun q => P q \/ is_ok r = true /\ covers p args q in
    store_ok a' /\ deleting d' touched /\ forall q, ~ touched q -> objects a' q = objects a q;
  delete_close_law P a d :
    store_ok a -> deleting d P ->
    let '(r, (a', d')) := d_close (a, d) in
    store_ok a' /\ deleting d' P /\ forall q, ~ P q -> objects a' q = objects a q;
}.

(** ** The layer with its open handles *)

Section Consistency.
  Context {A C Rd Wr Ls Dl Cp : Type} `{Read Rd} `{Write (A * Wr)} `{Delete (A * Dl)} `{HybridCacheLaws C}.
  Context (limit : SizeLimit) (fuel : nat) (inner : Access A Rd Wr Ls Dl Cp) `{!ObjectStore fuel inner}.
  Hypothesis limit_u64 : (sl_end limit <= u64_max)%Z.

#[local] Set Default Proof Using "All".

(** The layer, its handles and, for the statement, three marks.  A writer is
    [clean] when it was opened without append, every piece stayed within the
    limit, no call on it has failed, and it was neither aborted nor closed.  A
    deleter has the paths its recursive and versioned deletes reach [beyond] the
    key it will drop.  A path is [spoiled] when the last change it had was made
    through a writer that is not clean, or got a version, or was made by such a
    delete, or went around the layer. *)
Record Machine : Type := mkMachine {
  mc_inner : FoyerInner A C;
  mc_writers : list (bool * FoyerWriter Wr);
  mc_deleters : list ((str -> Prop) * FoyerDeleter Dl);
  mc_spoiled : str -> Prop;
}.

Definition beyond (path : str) (args : OpDelete) (q : str) : Prop :=
  covers path args q /\ ~ (q = path /\ del_version args = None).
(** The paths whose unversioned key a deleter drops when it is closed. *)
Definition dropped (d : FoyerDeleter Dl) (q : str) : Prop := mkKey q None ∈ fd_keys d.
Definition spoil (p : str) (sp : str -> Prop) (q : str) : Prop := q = p \/ sp q.
Definition heal (P : str -> Prop) (sp : str -> Prop) (q : str) : Prop := sp q /\ ~ P q.

(** The calls of the layer, with any arguments, in any order, on any handle,
    whatever they answer; a handle may be used after a failure or dropped at
    any time.  [step_around] is everything that does not pass through the cache:
    the calls the layer hands on, which are [create_dir], [stat], [list], [copy]
    and [rename], the copiers and listers they return, and other clients of the
    service. *)
Inductive fstep : Machine -> Machine -> Prop :=
  | step_read s ws ds sp path args r s' :
      object_path path -> range_u64 (read_range args) ->
      full_read limit inner fuel path args s = (r, s') ->
      fstep (mkMachine s ws ds sp) (mkMachine s' ws ds sp)
  | step_open s ws ds sp path args r s' :
      object_path path -> foyer_open inner path args s = (r, s') ->
      fstep (mkMachine s ws ds sp)
            (mkMachine s' (match r with Ok w => (negb (write_append args), w) :: ws | _ => ws end) ds sp)
  | step_write s ws1 clean w ws2 ds sp bs r s' w' :
      wf bs -> foyer_write limit bs (s, w) = (r, (s', w')) ->
      fstep (mkMachine s (ws1 ++ (clean, w) :: ws2) ds sp)
            (mkMachine s' (ws1 ++ (clean && limit_contains limit (Z.of_nat (qlen (fw_buf w) + blen bs)) && is_ok r, w') :: ws2)
               ds (if clean then sp else spoil (fw_path w) sp))
  | step_close s ws1 clean w ws2 ds sp r s' w' :
      foyer_close (s, w) = (r, (s', w')) -> (clean = false -> store_ok (fi_accessor s')) ->
      fstep (mkMachine s (ws1 ++ (clean, w) :: ws2) ds sp)
            (mkMachine s' (ws1 ++ (false, w') :: ws2) ds
               (match r with
                | Ok m => if clean && bool_decide (m_version m = None) then heal (eq (fw_path w)) sp
                          else spoil (fw_path w) sp
                | _ => if clean then sp else spoil (fw_path w) sp
                end))
  | step_abort s ws1 clean w ws2 ds sp r s' w' :
      foyer_abort (s, w) = (r, (s', w')) ->
      fstep (mkMachine s (ws1 ++ (clean, w) :: ws2) ds sp)
            (mkMachine s' (ws1 ++ (false, w') :: ws2) ds (if clean then sp else spoil (fw_path w) sp))
  | step_drop_writer s ws1 x ws2 ds sp :
      fstep (mkMachine s (ws1 ++ x :: ws2) ds sp) (mkMachine s (ws1 ++ ws2) ds sp)
  | step_deleter s ws ds sp r s' :
      foyer_delete_open inner s = (r, s') ->
      fstep (mkMachine s ws ds sp)
            (mkMachine s' ws (match r with Ok d => (fun _ => False, d) :: ds | _ => ds end) sp)
  | step_delete s ws ds1 far d ds2 sp path args r s' d' :
      object_path path -> foyer_delete path args (s, d) = (r, (s', d')) ->
      fstep (mkMachine s ws (ds1 ++ (far, d) :: ds2) sp)
            (mkMachine s' ws (ds1 ++ (fun q => far q \/ is_ok r = true /\ beyond path args q, d') :: ds2) sp)
  | step_delete_close s ws ds1 far d ds2 sp r s' d' :
      foyer_delete_close (s, d) = (r, (s', d')) ->
      fstep (mkMachine s ws (ds1 ++ (far, d) :: ds2) sp)
            (if is_ok r then mkMachine s' ws (ds1 ++ ds2) (heal (dropped d) (fun q => sp q \/ far q))
             else mkMachine s' ws (ds1 ++ (far, d') :: ds2) sp)
  | step_drop_deleter s ws ds1 far d ds2 sp :
      fstep (mkMachine s ws (ds1 ++ (far, d) :: ds2) sp)
            (mkMachine s ws (ds1 ++ ds2) (fun q => sp q \/ far q \/ dropped d q))
  | step_around s ws ds sp a' :
      store_ok a' ->
      fstep (mkMachine s ws ds sp)
            (mkMachine (set_accessor a' s) ws ds (fun q => sp q \/ objects a' q <> objects (fi_accessor s) q)).

(** The paths an open deleter may delete. *)
Definition pending (ds : list ((str -> Prop) * FoyerDeleter Dl)) (q : str) : Prop :=
  exists x, x ∈ ds /\ (x.1 q \/ dropped x.2 q).

(** What the cache may answer to a plain read is what is stored, but for the
    paths that are exempt. *)
Definition cache_current (exempt : str -> Prop) (s : FoyerInner A C) : Prop :=
  forall p v, hc_view (fi_cache s) !! mkKey p None = Some v -> mkKey p None ∉ fi_deleted_keys s ->
    ~ exempt p -> objects (fi_accessor s) p = Some v.
Definition writer_ok (x : bool * FoyerWriter Wr) : Prop :=
  let '(clean, w) := x in
  writes_to (fw_w w) (fw_path w) /\ qwf (fw_buf w) /\
  (clean = true -> writing (fw_w w) (fw_path w) (qcontents (fw_buf w)) /\ fw_skip_cache w = false /\
     (Z.of_nat (length (qcontents (fw_buf w))) <= u64_max)%Z).
Definition deleter_ok (x : (str -> Prop) * FoyerDeleter Dl) : Prop :=
  deleting (fd_deleter x.2) (fun q => x.1 q \/ dropped x.2 q).
Definition machine_ok (m : Machine) : Prop :=
  store_ok (fi_accessor (mc_inner m)) /\
  cache_current (fun q => mc_spoiled m q \/ pending (mc_deleters m) q) (mc_inner m) /\
  Forall writer_ok (mc_writers m) /\ Forall deleter_ok (mc_deleters m).

(** Entries may go, more paths may be exempt, and objects may change under paths
    that are. *)
Lemma cache_current_mono (ex ex' : str -> Prop) s s' :
  cache_current ex s -> (forall q, ex q -> ex' q) -> hc_view (fi_cache s') ⊆ hc_view (fi_cache s) ->
  fi_deleted_keys s' = fi_deleted_keys s ->
  (forall q, ~ ex' q -> objects (fi_accessor s') q = objects (fi_accessor s) q) ->
  cache_current ex' s'.
Proof.
  intros Hc Hex Hv Hd Ho p v Hk Hnd Hx. rewrite Hd in Hnd. rewrite Ho by done.
  apply Hc; [by eapply lookup_weaken | done | auto].
Qed.

(** *** Reading *)

(** An error of one of the calls the service makes for a read. *)
Definition service_error (path : str) (e : Error) : Prop :=
  (exists a, (a_stat inner path op_stat a).1 = Err e) \/
  (exists args a, (a_read inner path args a).1 = Err e) \/
  (exists r : Rd, (read_all fuel r).1 = Err e).

Definition fits (r : BytesRange) (data : bytes) : Prop :=
  (Range.offset r + default 0 (Range.size r) <= Z.of_nat (length data))%Z.

Lemma fetch_object_spec path a :
  store_ok a -> object_path path ->
  let '(r, a') := fetch_object limit inner fuel path a in
  store_ok a' /\ (forall q, objects a' q = objects a q) /\
  match r with
  | Ok v => wf v /\ objects a path = Some (contents v)
  | Err SizeTooLarge => True
  | Err e => exists err, e = from_error err /\ service_error path err
  | Panic => False
  end.
Proof.
  intros Ha Hp. unfold fetch_object, as_fetch, mbind, M_bind, throw, lift.
  pose proof (stat_law path a Ha Hp) as Hst. destruct (a_stat inner path op_stat a) as [[m|e|] a1] eqn:Es;
    destruct Hst as (Ha1 & Ho1 & Hnp); simpl; [| |done].
  2: { split_and!; [done | done |]. exists e. split; [done|]. left. exists a. by rewrite Es. }
  destruct (limit_contains limit (content_length m)); simpl; [|done].
  pose proof (read_law path (read_with_range (mkRange 0 None) op_read) a1 Ha1 Hp) as Hr.
  destruct (a_read inner path _ a1) as [r a2] eqn:Er. destruct Hr as (Ha2 & Ho2 & Hr); [by vm_compute|].
  specialize (Hr eq_refl).
  assert (forall q, objects a2 q = objects a q) as Ho by (intros; by rewrite Ho2).
  destruct r as [[rp rd]|e|]; simpl; [| |done].
  - destruct Hr as (data & n & Hd & Hn & Hs). pose proof (read_all_ok false rd _ n fuel Hs Hn) as Hall.
    destruct (read_all fuel rd).1 as [v|e|] eqn:Ev; simpl; [| |done].
    + destruct Hall as [? ->]. split_and!; [done..|]. by rewrite <- Ho1.
    + split_and!; [done..|]. exists e. split; [done|]. right. right. by exists rd.
  - split_and!; [done..|]. exists e. split; [done|]. right. left. do 2 eexists. by rewrite Er.
Qed.

Lemma read_direct_spec path args s :
  store_ok (fi_accessor s) -> object_path path -> range_u64 (read_range args) ->
  let '(r, s') := read_direct (C := C) inner fuel path args s in
  store_ok (fi_accessor s') /\ (forall q, objects (fi_accessor s') q = objects (fi_accessor s) q) /\
  fi_cache s' = fi_cache s /\ fi_deleted_keys s' = fi_deleted_keys s /\
  (read_version args = None ->
   match r with
   | Ok (_, buf) => wf buf /\ exists data, objects (fi_accessor s) path = Some data /\ contents buf = sub data (read_range args)
   | Err e => service_error path e
   | Panic => False
   end).
Proof.
  intros Ha Hp Hr. unfold read_direct, on_accessor, zoom, mbind, M_bind, lift, mret, M_ret.
  pose proof (read_law path args (fi_accessor s) Ha Hp Hr) as Hl.
  destruct (a_read inner path args (fi_accessor s)) as [r a'] eqn:Er. destruct Hl as (Ha' & Ho & Hl).
  destruct r as [[rp rd]|e|]; simpl.
  - destruct (read_all fuel rd).1 as [v|e|] eqn:Ev; simpl; split_and!; try done; intros Hv;
      destruct (Hl Hv) as (data & n & Hd & Hn & Hs);
      pose proof (read_all_ok false rd _ n fuel Hs Hn) as Hall; rewrite Ev in Hall; [| |done].
    + destruct Hall. split; [done|]. by exists data.
    + right. right. by exists rd.
  - split_and!; [done..|]. intros _. right. left. do 2 eexists. by rewrite Er.
  - by split_and!.
Qed.

Lemma slice_range entry range :
  wf entry -> range_u64 range ->
  let end_ := default (Z.of_nat (blen entry)) ((fun size => wrap64 (Range.offset range + size)) <$> Range.size range) in
  match slice entry (Included (Range.offset range)) (Excluded end_) with
  | Ok buf => wf buf /\ contents buf = sub (contents entry) range
  | Err _ => False
  | Panic => ~ fits range (contents entry)
  end.
Proof.
  intros Hw [Ho Hs] end_. unfold fits. rewrite (contents_length _ Hw). destruct range as [off size]. simpl in *.
  assert (end_ = default (Z.of_nat (blen entry)) ((fun n => off + n)%Z <$> size)) as ->.
  { unfold end_. destruct size as [n|]; [|done]. simpl in *. rewrite wrap64_id; [done|]. unfold is_u64 in *. lia. }
  unfold is_u64 in *.
  destruct (decide (off + default 0 size <= Z.of_nat (blen entry))%Z) as [Hf|Hf].
  - destruct (slice_ok entry (Z.to_nat off) (Z.to_nat (default (Z.of_nat (blen entry)) ((fun n => off + n)%Z <$> size))))
      as (buf & Hb & Hwb & Hc); [done | destruct size; simpl in *; lia |].
    rewrite !Z2Nat.id in Hb by (destruct size; simpl in *; lia). rewrite Hb. split; [done|]. rewrite Hc. unfold sub. simpl.
    destruct size as [n|]; simpl in *; [f_equal; lia|].
    rewrite Nat2Z.id, firstn_all2; [done|]. rewrite length_drop, contents_length by done. lia.
  - unfold slice. simpl. repeat (case_bool_decide; [|done]); destruct size; simpl in *; try lia.
    all: repeat case_bool_decide; try done; lia.
Qed.

(** What a read may answer when the object is [o]. *)
Definition read_answer (path : str) (args : OpRead) (o : option bytes) (r : result (option Metadata * Buffer)) : Prop :=
  match r with
  | Ok (_, buf) => exists data, o = Some data /\ contents buf = sub data (read_range args)
  | Err e => (exists err, service_error path err /\ kind e = kind err) \/ exists src, e = extract_err (CacheFailed src)
  | Panic => exists data, o = Some data /\ ~ fits (read_range args) data
  end.
Definition read_post (exempt : str -> Prop) (path : str) (args : OpRead) (s : FoyerInner A C)
    (out : result (option Metadata * Buffer) * FoyerInner A C) : Prop :=
  let '(r, s') := out in
  store_ok (fi_accessor s') /\ (forall q, objects (fi_accessor s') q = objects (fi_accessor s) q) /\
  cache_current exempt s' /\
  (read_version args = None -> ~ exempt path -> read_answer path args (objects (fi_accessor s) path) r).

Lemma read_direct_post exempt path args s s1 :
  store_ok (fi_accessor s1) -> cache_current exempt s1 -> object_path path -> range_u64 (read_range args) ->
  (forall q, objects (fi_accessor s1) q = objects (fi_accessor s) q) ->
  read_post exempt path args s (read_direct inner fuel path args s1).
Proof.
  intros Ha Hc Hp Hr Ho. pose proof (read_direct_spec path args s1 Ha Hp Hr) as Hd. unfold read_post.
  destruct (read_direct inner fuel path args s1) as [r s2]. destruct Hd as (Ha2 & Ho2 & Hca & Hde & Hd).
  split_and!; [done | by intros; rewrite Ho2 | eapply cache_current_mono; [done..|by rewrite Hca|done|auto] |].
  intros Hv _. specialize (Hd Hv). rewrite <- Ho.
  destruct r as [[rp buf]|e|]; simpl; [naive_solver| |done]. left. by exists e.
Qed.

Lemma cached_answer exempt path args s s1 entry :
  store_ok (fi_accessor s1) -> cache_current exempt s1 -> range_u64 (read_range args) -> wf entry ->
  (forall q, objects (fi_accessor s1) q = objects (fi_accessor s) q) ->
  (read_version args = None -> ~ exempt path -> objects (fi_accessor s) path = Some (contents entry)) ->
  let end_ := default (Z.of_nat (blen entry))
    ((fun size => wrap64 (Range.offset (read_range args) + size)) <$> Range.size (read_range args)) in
  read_post exempt path args s
    ((buffer ← lift (slice entry (Included (Range.offset (read_range args))) (Excluded end_));
      mret (Some (set_content_length (Z.of_nat (blen entry)) (meta_new FILE)), buffer)) s1).
Proof.
  intros Ha Hc Hr Hw Ho Hobj end_. pose proof (slice_range entry (read_range args) Hw Hr) as Hs.
  unfold mbind, M_bind, lift. cbv zeta in Hs. fold end_ in Hs.
  destruct (slice entry _ _) as [buf|e|]; [|done|]; unfold read_post; split_and!; try done; intros Hv Hx;
    rewrite (Hobj Hv Hx); simpl; naive_solver.
Qed.

(** What a fetch keeps under a key is what is stored. *)
Lemma cache_current_fetched exempt k v s a' c' :
  cache_current exempt s -> (forall q, objects a' q = objects (fi_accessor s) q) ->
  objects a' (fk_path k) = Some v -> hc_view c' ⊆ <[k := v]> (hc_view (fi_cache s)) ->
  cache_current exempt (mkInner a' c' (fi_deleted_keys s)).
Proof.
  intros Hc Ho Hobj Hv' p x Hkx Hnd Hx. apply (lookup_weaken _ _ _ _ Hkx) in Hv'. simpl in *.
  apply lookup_insert_Some in Hv' as [[-> <-]|[_ Hold]]; [done|]. rewrite Ho. by apply Hc.
Qed.

(** A read answers from the cache or through it. *)
Lemma full_read_spec exempt path args s :
  store_ok (fi_accessor s) -> cache_current exempt s ->
  object_path path -> range_u64 (read_range args) ->
  read_post exempt path args s (full_read limit inner fuel path args s).
Proof.
  intros Ha Hc Hp Hr. unfold full_read, gets. unfold mbind at 1, M_bind at 1.
  case_bool_decide as Hk; [by apply read_direct_post|].
  unfold mbind at 1, M_bind at 1, get_or_fetch.
  pose proof (fetch_object_spec path (fi_accessor s) Ha Hp) as Hf.
  destruct (hc_fetch_law A (mkKey path (read_version args)) (fetch_object limit inner fuel path) (fi_accessor s) (fi_cache s))
    as [(v & c' & -> & Hw & Hl & Hv') | [(src & c' & -> & Hv') | (c' & -> & Hv')]].
  - apply cached_answer; [done | eapply cache_current_mono; [exact Hc|auto|done..] | done | done | done |].
    intros Hv Hx. rewrite Hv in *. by apply Hc.
  - unfold read_post. split_and!; [done | done | eapply cache_current_mono; [exact Hc|auto|done..] |].
    intros _ _. right. by exists src.
  - destruct (fetch_object limit inner fuel path (fi_accessor s)) as [r a']. destruct Hf as (Ha' & Ho & Hf).
    assert (hc_view c' ⊆ hc_view (fi_cache s) -> cache_current exempt (mkInner a' c' (fi_deleted_keys s))) as Hcur.
    { intros Hvv. eapply cache_current_mono; [exact Hc|auto|done|done|by intros; apply Ho]. }
    cbn [fst snd] in *. destruct r as [v|e|]; cbn [map_err]; [| |done].
    + destruct Hf as [Hw Hobj]. apply cached_answer; [done| |done|done|done|done].
      eapply cache_current_fetched; [done|done| |exact Hv']. by rewrite Ho.
    + destruct e as [|k msg]; [by apply read_direct_post; eauto|]. unfold throw, read_post.
      destruct Hf as (err & Herr & Hse). split_and!; [done | done | by apply Hcur |].
      intros _ _. left. exists err. split; [done|]. by inversion Herr.
Qed.

(** *** Writing *)

(** A call on a writer changes its own path at most, and then the path is exempt. *)
Lemma other_path_current ex (s s' : FoyerInner A C) p (clean : bool) :
  cache_current ex s -> fi_cache s' = fi_cache s -> fi_deleted_keys s' = fi_deleted_keys s ->
  (forall q, q <> p -> objects (fi_accessor s') q = objects (fi_accessor s) q) ->
  (clean = true -> objects (fi_accessor s') p = objects (fi_accessor s) p) ->
  cache_current (if clean then ex else spoil p ex) s'.
Proof.
  intros Hc Eca Ede Ho Hp. eapply cache_current_mono; [exact Hc| |by rewrite Eca|done|].
  - intros q Hq. destruct clean; [done|by right].
  - intros q Hq. destruct (decide (q = p)) as [->|Hne]; [|by apply Ho].
    destruct clean; [by apply Hp|]. destruct Hq. by left.
Qed.

Lemma foyer_write_spec ex bs (s s' : FoyerInner A C) clean w r w' :
  store_ok (fi_accessor s) -> cache_current ex s -> writer_ok (clean, w) -> wf bs ->
  foyer_write limit bs (s, w) = (r, (s', w')) ->
  store_ok (fi_accessor s') /\ cache_current (if clean then ex else spoil (fw_path w) ex) s' /\
  writer_ok (clean && limit_contains limit (Z.of_nat (qlen (fw_buf w) + blen bs)) && is_ok r, w').
Proof.
  intros Ha Hc (Hto & Hq & Hcl) Hb E. unfold foyer_write, mbind, M_bind, get, modify, on_writer, zoom in E.
  pose proof (write_law bs _ (fi_accessor s) _ Ha Hto Hb) as Hlaw.
  destruct (limit_contains limit _) eqn:Hl; simpl in E;
    destruct (w_write bs (fi_accessor s, fw_w w)) as [r' [a' v']]; destruct Hlaw as (Ha' & Hto' & Ho & Hwr);
    injection E as -> <- <-; (split; [done|]);
    (split; [by apply (other_path_current _ s); try done; intros ->; apply (Hwr _ (proj1 (Hcl eq_refl)))|]);
    unfold writer_ok; simpl.
  - destruct (qpush_spec _ bs Hq Hb) as [Hq' Hc']. split_and!; [done|done|].
    intros [Hcln Hok]%andb_true_iff. rewrite andb_true_r in Hcln. destruct (Hcl Hcln) as (Hw & Hsk & Hlen).
    rewrite Hc'. split_and!; [apply (Hwr _ Hw); by destruct r as [[]| |]|done|].
    apply bool_decide_eq_true in Hl. rewrite length_app, contents_length by done. rewrite (qlen_spec _ Hq) in Hl. lia.
  - rewrite andb_false_r. split_and!; [done | apply qwf_nil | done].
Qed.

(** After a close: the path of a clean writer is current again, unless the service
    gave the object a version, under which it was cached. *)
Lemma close_current ex (s s' : FoyerInner A C) a' p ver buf (clean : bool) :
  cache_current ex s -> (forall q, q <> p -> objects a' q = objects (fi_accessor s) q) ->
  s' = set_accessor a' s \/ s' = remember (mkKey p ver) buf (set_accessor a' s) ->
  (clean = true -> s' = remember (mkKey p ver) buf (set_accessor a' s) /\ objects a' p = Some (contents buf)) ->
  cache_current (if clean && bool_decide (ver = None) then heal (eq p) ex else spoil p ex) s'.
Proof.
  intros Hc Ho Hs' Hcln.
  assert (forall q v, q <> p -> hc_view (fi_cache s') !! mkKey q None = Some v -> mkKey q None ∉ fi_deleted_keys s' ->
    ~ ex q -> objects (fi_accessor s') q = Some v) as Hother.
  { intros q v Hne Hk Hnd Hx. destruct Hs' as [->| ->]; simpl in *; rewrite (Ho q Hne); apply Hc; try done.
    - pose proof (lookup_weaken _ _ _ _ Hk (hc_insert_law _ _ _)) as Hv.
      by apply lookup_insert_Some in Hv as [[[=] _]|[_ ?]].
    - set_solver. }
  destruct clean; simpl; [case_bool_decide as Hver|].
  - intros q v Hk Hnd Hx. destruct (decide (p = q)) as [<-|Hne].
    + destruct (Hcln eq_refl) as [-> Hobj]. simpl in *.
      pose proof (lookup_weaken _ _ _ _ Hk (hc_insert_law _ _ _)) as Hv. rewrite Hver in Hv.
      rewrite lookup_insert_eq in Hv. congruence.
    + apply Hother; try done. intros Hex. by apply Hx.
  - intros q v Hk Hnd Hx. apply Hother; try done; intros Hq; apply Hx; [by left | by right].
  - intros q v Hk Hnd Hx. apply Hother; try done; intros Hq; apply Hx; [by left | by right].
Qed.

Lemma foyer_close_spec ex (s s' : FoyerInner A C) clean w r w' :
  store_ok (fi_accessor s) -> cache_current ex s -> writer_ok (clean, w) ->
  foyer_close (s, w) = (r, (s', w')) -> (clean = false -> store_ok (fi_accessor s')) ->
  store_ok (fi_accessor s') /\ writer_ok (false, w') /\
  cache_current (match r with
    | Ok m => if clean && bool_decide (m_version m = None) then heal (eq (fw_path w)) ex else spoil (fw_path w) ex
    | _ => if clean then ex else spoil (fw_path w) ex
    end) s'.
Proof.
  intros Ha Hc (Hto & Hq & Hcl) E Hst. unfold foyer_close, mbind, M_bind, get, lift in E.
  destruct (qcollect_ok _ Hq) as (buf & Hbuf & Hwf & Hcon). rewrite Hbuf in E. unfold on_writer, zoom in E. simpl in E.
  pose proof (close_law _ (fi_accessor s) _ Ha Hto) as Hlaw.
  destruct (w_close (fi_accessor s, fw_w w)) as [r' [a' v']]. destruct Hlaw as (Hto' & Ho & Hd).
  assert (clean = true -> store_ok a' /\ objects a' (fw_path w) =
    match r' with Ok _ => Some (qcontents (fw_buf w)) | _ => objects (fi_accessor s) (fw_path w) end) as Hd'.
  { intros Hcln. destruct (Hcl Hcln) as (Hw & _ & Hlen). by apply Hd. }
  destruct r' as [m|e|]; simpl in E.
  - assert (fi_accessor s' = a' /\ w' = mkFoyerWriter v' (fw_buf w) (fw_path w) (fw_skip_cache w) /\ r = Ok m /\
      (s' = set_accessor a' s \/ s' = remember (mkKey (fw_path w) (m_version m)) buf (set_accessor a' s)) /\
      (fw_skip_cache w = false -> s' = remember (mkKey (fw_path w) (m_version m)) buf (set_accessor a' s)))
      as (Ea & -> & -> & Hs' & Hkept).
    { destruct (fw_skip_cache w); unfold mret, M_ret, modify in E; simpl in E; injection E as <- <- <-; split_and!; try done; first [by left|by right]. }
    rewrite Ea in *. split_and!; [destruct clean; [by apply Hd'|by apply Hst] | by split_and! |].
    eapply close_current; [exact Hc|exact Ho|exact Hs'|].
    intros Hcln. destruct (Hcl Hcln) as (_ & Hsk & _). destruct (Hd' Hcln) as [_ ->]. rewrite Hcon. by split; [apply Hkept|].
  - injection E as <- <- <-. split_and!; [destruct clean; [by apply Hd'|by apply Hst] | by split_and! |].
    apply (other_path_current _ s); try done. intros Hcln. by apply Hd'.
  - injection E as <- <- <-. split_and!; [destruct clean; [by apply Hd'|by apply Hst] | by split_and! |].
    apply (other_path_current _ s); try done. intros Hcln. by apply Hd'.
Qed.

Lemma foyer_abort_spec ex (s s' : FoyerInner A C) clean w r w' :
  store_ok (fi_accessor s) -> cache_current ex s -> writer_ok (clean, w) ->
  foyer_abort (s, w) = (r, (s', w')) ->
  store_ok (fi_accessor s') /\ writer_ok (false, w') /\ cache_current (if clean then ex else spoil (fw_path w) ex) s'.
Proof.
  intros Ha Hc (Hto & Hq & Hcl) E. unfold foyer_abort, on_writer, zoom, modify, mbind, M_bind in E. simpl in E.
  pose proof (abort_law _ (fi_accessor s) _ Ha Hto) as Hlaw. destruct (w_abort (fi_accessor s, fw_w w)) as [r' [a' v']].
  destruct Hlaw as (Ha' & Hto' & Ho & Hd). injection E as _ <- <-. split_and!; [done | by split_and!; [|apply qwf_nil|] |].
  apply (other_path_current _ s); try done. intros Hcln. by apply (Hd _ (proj1 (Hcl Hcln))).
Qed.

(** *** Deleting *)

Lemma forget_all ks (s : FoyerInner A C) :
  let s' := foldl forget s ks in
  fi_accessor s' = fi_accessor s /\ hc_view (fi_cache s') ⊆ hc_view (fi_cache s) /\
  fi_deleted_keys s' = list_to_set ks ∪ fi_deleted_keys s.
Proof.
  revert s. induction ks as [|k ks IH]; intros s; simpl.
  { split_and!; [done | done |]. set_solver. }
  destruct (IH (forget s k)) as (E1 & E2 & E3). split_and!; [done| |].
  - etrans; [exact E2|]. etrans; [apply hc_remove_law|]. apply delete_subseteq.
  - rewrite E3. simpl. set_solver.
Qed.

Lemma foyer_delete_close_spec (ex : str -> Prop) (s s' : FoyerInner A C) far d r d' :
  store_ok (fi_accessor s) -> deleter_ok (far, d) -> cache_current (fun q => ex q \/ far q \/ dropped d q) s ->
  foyer_delete_close (s, d) = (r, (s', d')) ->
  store_ok (fi_accessor s') /\ deleter_ok (far, d') /\ fd_keys d' = fd_keys d /\
  cache_current (heal (dropped d) (fun q => ex q \/ far q)) s'.
Proof.
  intros Ha Hd Hc E. unfold foyer_delete_close, mbind, M_bind, modify, on_deleter, zoom in E. simpl in E.
  destruct (forget_all (fd_keys d) s) as (Eacc & Eview & Edel). rewrite Eacc in E.
  unfold deleter_ok in Hd. cbn [fst snd] in Hd.
  pose proof (delete_close_law _ (fi_accessor s) _ Ha Hd) as Hlaw.
  destruct (d_close (fi_accessor s, fd_deleter d)) as [r' [a' v']]. destruct Hlaw as (Ha' & Hd' & Ho).
  injection E as _ <- <-. split_and!; [done | done | done |].
  intros p x Hk Hnd Hx. simpl in *. rewrite Edel in Hnd.
  assert (~ dropped d p) as Hnp.
  { unfold dropped. intros Hin. apply Hnd. apply elem_of_union_l. by apply elem_of_list_to_set. }
  unfold heal in Hx. rewrite Ho by naive_solver. apply Hc; [by eapply lookup_weaken | set_solver | naive_solver].
Qed.

Lemma foyer_delete_spec (ex : str -> Prop) (s s' : FoyerInner A C) far d path args r d' :
  store_ok (fi_accessor s) -> object_path path -> deleter_ok (far, d) ->
  cache_current (fun q => ex q \/ far q \/ dropped d q) s ->
  foyer_delete path args (s, d) = (r, (s', d')) ->
  let far' := fun q => far q \/ is_ok r = true /\ beyond path args q in
  store_ok (fi_accessor s') /\ deleter_ok (far', d') /\ cache_current (fun q => ex q \/ far' q \/ dropped d' q) s'.
Proof.
  intros Ha Hp Hd Hc E far'. unfold foyer_delete, mbind, M_bind, on_deleter, zoom, modify in E. simpl in E.
  unfold deleter_ok in Hd. cbn [fst snd] in Hd.
  pose proof (delete_law path args _ (fi_accessor s) _ Ha Hp Hd) as Hlaw.
  destruct (d_delete path args (fi_accessor s, fd_deleter d)) as [r' [a' v']]. destruct Hlaw as (Ha' & Hd' & Ho).
  assert (r = r' /\ s' = set_accessor a' s /\ fd_deleter d' = v' /\
    fd_keys d' = fd_keys d ++ (if is_ok r' then [mkKey path (del_version args)] else [])) as (-> & -> & Ev & Ek).
  { destruct r' as [[]|e|]; simpl in E; injection E as <- <- <-; by rewrite ?app_nil_r. }
  assert (forall q, (far q \/ dropped d q) \/ is_ok r' = true /\ covers path args q -> far' q \/ dropped d' q) as Hsub.
  { intros q. unfold dropped, far', beyond. rewrite Ek. intros [[?|?]|[Hok Hcov]]; [naive_solver|right; set_solver|].
    rewrite Hok. destruct (decide (q = path /\ del_version args = None)) as [[-> Hv]|Hne].
    - right. rewrite Hv. set_solver.
    - left. right. by split_and!. }
  split_and!; [done | |].
  - unfold deleter_ok. simpl. rewrite Ev. eapply deleting_law; [exact Hd'|exact Hsub].
  - eapply cache_current_mono; [exact Hc| |done|done|].
    + intros q [?|?]; [by left|]. right. apply Hsub. by left.
    + intros q Hq. apply Ho. intros Hq'. apply Hq. right. by apply Hsub.
Qed.

(** *** Every reachable state *)

Lemma cache_current_weaken (ex ex' : str -> Prop) s :
  cache_current ex s -> (forall q, ex q -> ex' q) -> cache_current ex' s.
Proof. intros Hc Hex p v Hk Hnd Hx. apply Hc; auto. Qed.

Lemma pending_split ds1 far d ds2 q :
  pending (ds1 ++ (far, d) :: ds2) q <-> pending (ds1 ++ ds2) q \/ far q \/ dropped d q.
Proof. unfold pending. setoid_rewrite elem_of_app. setoid_rewrite elem_of_cons. naive_solver. Qed.

Lemma drop_middle {X} (P : X -> Prop) l1 x l2 : Forall P (l1 ++ x :: l2) -> P x /\ Forall P (l1 ++ l2).
Proof. rewrite !Forall_app, Forall_cons. tauto. Qed.
Lemma put_middle {X} (P : X -> Prop) l1 x l2 : P x -> Forall P (l1 ++ l2) -> Forall P (l1 ++ x :: l2).
Proof. rewrite !Forall_app, Forall_cons. tauto. Qed.

(** Opening a handle changes no object. *)
Lemma open_keeps ex {X} (m : M A Error X) (s : FoyerInner A C) r s' :
  on_accessor m s = (r, s') ->
  (forall q, objects (m (fi_accessor s)).2 q = objects (fi_accessor s) q) ->
  cache_current ex s -> fi_accessor s' = (m (fi_accessor s)).2 /\ r = (m (fi_accessor s)).1 /\ cache_current ex s'.
Proof.
  unfold on_accessor, zoom. destruct (m (fi_accessor s)) as [r1 a1]. intros [= <- <-] Ho Hc. split_and!; [done..|].
  eapply cache_current_mono; [exact Hc|auto|done|done|by intros; apply Ho].
Qed.

Lemma step_open_ok s ws ds sp path args r s' :
  machine_ok (mkMachine s ws ds sp) -> object_path path -> foyer_open inner path args s = (r, s') ->
  machine_ok (mkMachine s' (match r with Ok w => (negb (write_append args), w) :: ws | _ => ws end) ds sp).
Proof.
  intros (Ha & Hc & Hws & Hds) Hp E. unfold foyer_open, mbind, M_bind in E.
  destruct (on_accessor (a_write inner path args) s) as [r1 s1] eqn:E1.
  pose proof (open_law path args _ Ha Hp) as Hlaw. cbn [mc_inner mc_spoiled mc_deleters] in *.
  assert (forall q, objects (a_write inner path args (fi_accessor s)).2 q = objects (fi_accessor s) q) as Ho.
  { by destruct (a_write inner path args (fi_accessor s)) as [? ?]; destruct Hlaw as (_ & Ho & _). }
  destruct (open_keeps _ _ _ _ _ E1 Ho Hc) as (Ea & Er & Hc').
  destruct (a_write inner path args (fi_accessor s)) as [r2 a2]. destruct Hlaw as (Ha' & _ & Hw). simpl in *. subst a2 r2.
  destruct r1 as [w0|e|]; injection E as <- <-; split_and!; try done. simpl. constructor; [|done].
  destruct (Hw w0 eq_refl) as [Hto Hwr]. split_and!; simpl; [done | apply qwf_nil |].
  intros Hap%negb_true_iff. by split_and!; [apply Hwr|..].
Qed.

Lemma step_deleter_ok s ws ds sp r s' :
  machine_ok (mkMachine s ws ds sp) -> foyer_delete_open inner s = (r, s') ->
  machine_ok (mkMachine s' ws (match r with Ok d => (fun _ => False, d) :: ds | _ => ds end) sp).
Proof.
  intros (Ha & Hc & Hws & Hds) E. unfold foyer_delete_open, mbind, M_bind in E.
  destruct (on_accessor (a_delete inner) s) as [r1 s1] eqn:E1.
  pose proof (deleter_law _ Ha) as Hlaw. cbn [mc_inner mc_spoiled mc_deleters] in *.
  assert (forall q, objects (a_delete inner (fi_accessor s)).2 q = objects (fi_accessor s) q) as Ho.
  { by destruct (a_delete inner (fi_accessor s)) as [? ?]; destruct Hlaw as (_ & Ho & _). }
  destruct (open_keeps _ _ _ _ _ E1 Ho Hc) as (Ea & Er & Hc').
  destruct (a_delete inner (fi_accessor s)) as [r2 a2]. destruct Hlaw as (Ha' & _ & Hd). simpl in *. subst a2 r2.
  destruct r1 as [d0|e|]; injection E as <- <-; split_and!; try done; simpl.
  - eapply cache_current_weaken; [exact Hc'|]. intros q [?|(x & Hx & Hq)]; [by left|]. right. exists x. split; [by right|done].
  - constructor; [|done]. eapply deleting_law; [by apply Hd|]. done.
Qed.

Lemma fstep_ok m m' : fstep m m' -> machine_ok m -> machine_ok m'.
Proof.
  intros Hstep Hok. destruct Hstep as
    [s ws ds sp path args r s' Hp Hr E | s ws ds sp path args r s' Hp E | s ws1 cln w ws2 ds sp bs r s' w' Hb E
    | s ws1 cln w ws2 ds sp r s' w' E Hst | s ws1 cln w ws2 ds sp r s' w' E | s ws1 x ws2 ds sp
    | s ws ds sp r s' E | s ws ds1 far d ds2 sp path args r s' d' Hp E
    | s ws ds1 far d ds2 sp r s' d' E | s ws ds1 far d ds2 sp | s ws ds sp a' Ha'];
    [|by eapply step_open_ok|..| by eapply step_deleter_ok | | | |];
    destruct Hok as (Ha & Hc & Hws & Hds); unfold machine_ok; simpl in *.
  - pose proof (full_read_spec _ path args s Ha Hc Hp Hr) as Hf. rewrite E in Hf. by destruct Hf as (? & _ & ? & _).
  - apply drop_middle in Hws as [Hw Hws].
    destruct (foyer_write_spec _ bs s s' cln w r w' Ha Hc Hw Hb E) as (Ha' & Hc' & Hw').
    split_and!; [done | | by apply put_middle | done].
    eapply cache_current_weaken; [exact Hc'|]. unfold spoil. destruct cln; naive_solver.
  - apply drop_middle in Hws as [Hw Hws].
    destruct (foyer_close_spec _ s s' cln w r w' Ha Hc Hw E Hst) as (Ha' & Hw' & Hc').
    split_and!; [done | | by apply put_middle | done].
    eapply cache_current_weaken; [exact Hc'|]. unfold spoil, heal. destruct r as [m|e|], cln; simpl; try case_bool_decide; naive_solver.
  - apply drop_middle in Hws as [Hw Hws].
    destruct (foyer_abort_spec _ s s' cln w r w' Ha Hc Hw E) as (Ha' & Hw' & Hc').
    split_and!; [done | | by apply put_middle | done].
    eapply cache_current_weaken; [exact Hc'|]. unfold spoil. destruct cln; naive_solver.
  - apply drop_middle in Hws as [_ Hws]. by split_and!.
  - apply drop_middle in Hds as [Hd Hds].
    destruct (foyer_delete_spec (fun q => sp q \/ pending (ds1 ++ ds2) q) s s' far d path args r d' Ha Hp Hd)
      as (Ha' & Hd' & Hc'); [|done|].
    { eapply cache_current_weaken; [exact Hc|]. intros q. cbv beta. rewrite pending_split. tauto. }
    split_and!; [done | | done | by apply put_middle].
    eapply cache_current_weaken; [exact Hc'|]. intros q. cbv beta. rewrite pending_split. tauto.
  - apply drop_middle in Hds as [Hd Hds].
    destruct (foyer_delete_close_spec (fun q => sp q \/ pending (ds1 ++ ds2) q) s s' far d r d' Ha Hd)
      as (Ha' & Hd' & Hk & Hc'); [|done|].
    { eapply cache_current_weaken; [exact Hc|]. intros q. cbv beta. rewrite pending_split. tauto. }
    destruct (is_ok r); simpl; (split_and!; [done | | done | try done; by apply put_middle]);
      (eapply cache_current_weaken; [exact Hc'|]); unfold heal; intros q; cbv beta; [tauto|]. rewrite pending_split. tauto.
  - apply drop_middle in Hds as [_ Hds]. split_and!; try done.
    eapply cache_current_weaken; [exact Hc|]. intros q. cbv beta. rewrite pending_split. tauto.
  - split_and!; try done. intros p v Hk Hnd Hx. simpl in *.
    destruct (decide (objects a' p = objects (fi_accessor s) p)) as [Heq|Hne]; [|destruct Hx; by left; right].
    rewrite Heq. apply Hc; [done|done|]. tauto.
Qed.

Lemma reachable_ok a c m :
  store_ok a -> hc_view c = ∅ -> rtc fstep (mkMachine (mkInner a c ∅) [] [] (fun _ => False)) m -> machine_ok m.
Proof.
  intros Ha Hc Hreach.
  assert (machine_ok (mkMachine (mkInner a c ∅) [] [] (fun _ => False))) as Hm.
  { split_and!; simpl; [done | | done | done]. intros p v Hk. simpl in Hk. by rewrite Hc, lookup_empty in Hk. }
  revert Hm. induction Hreach as [|x y z Hxy _ IH]; [done|]. intros Hx. by apply IH, (fstep_ok x).
Qed.

(** What the layer hands on to the service leaves the cache alone: it is a step
    around the cache. *)
Lemma handed_on_around {X} (m : M A Error X) s ws ds sp r s' :
  on_accessor m s = (r, s') -> store_ok (fi_accessor s') ->
  fstep (mkMachine s ws ds sp)
    (mkMachine s' ws ds (fun q => sp q \/ objects (fi_accessor s') q <> objects (fi_accessor s) q)).
Proof. unfold on_accessor, zoom. destruct (m (fi_accessor s)) as [r1 a1]. intros [= <- <-] Ha. by constructor. Qed.


End Consistency.

(** ** The memory service is such a store *)

Section MemoryStore.
  Context (root : str) (fuel : nat).
  Hypotheses (root_ok : normalized_root root) (root_char : starts_char (tail root)) (enough : 2 <= fuel).

#[local] Set Default Proof Using "All".

Definition memory_objects (a : MemoryState) (p : str) : option bytes := abstract (ms_core a) !! (tail root ++ p).
Definition memory_ok (a : MemoryState) : Prop :=
  core_wf (ms_core a) /\ map_Forall (fun _ v => (Z.of_nat (blen (mv_content v)) <= u64_max)%Z) (ms_core a).
Definition memory_writing (w : MemoryWriter) (p : str) (d : bytes) : Prop :=
  mw_path w = tail root ++ p /\ qwf (default [] (mw_buf w)) /\ qcontents (default [] (mw_buf w)) = d.

Lemma memory_abs p : p <> [slash] -> build_abs_path root p = Ok (tail root ++ p).
Proof. apply (abs_path root [] 4 root_ok root_char). lia. Qed.

Lemma memory_store_closes w p a :
  memory_ok a -> (exists d, memory_writing w p d) ->
  let '(r, (a', w')) := w_close (a, w) in
  (exists d, memory_writing w' p d) /\ (forall q, q <> p -> memory_objects a' q = memory_objects a q) /\
  forall d, memory_writing w p d -> (Z.of_nat (length d) <= u64_max)%Z ->
    memory_ok a' /\ memory_objects a' p = match r with Ok _ => Some d | _ => memory_objects a p end.
Proof.
  intros [Hwf Hlen] (d & Hp & Hq & Hd). cbn [w_close shared_memory_Write MemoryWriter_Write].
  unfold zoom, mem_writer_close, mbind, M_bind, get, modify, lift, mret, M_ret. simpl.
  destruct (qcollect_ok _ Hq) as (buf & -> & Hb & Hc). unfold zoom. simpl. rewrite Hp.
  set (v := mkValue (value_metadata (mw_op w) (Z.of_nat (blen buf))) buf).
  assert (exists d', memory_writing (mkMemWriter (tail root ++ p) (mw_op w) None) p d') as Hw'
    by (exists []; by split_and!; [|apply qwf_nil|]).
  assert (forall d', memory_writing w p d' -> d' = d) as Hsame by (intros d' (_ & _ & <-); done).
  assert (forall q, memory_objects (set_core (<[tail root ++ p := v]> (ms_core a)) a) q =
      if bool_decide (q = p) then Some d else memory_objects a q) as Hobj.
  { intros q. unfold memory_objects, abstract. simpl. rewrite fmap_insert. case_bool_decide as Hqp.
    - subst q. rewrite lookup_insert_eq. simpl. by rewrite Hc, Hd.
    - rewrite lookup_insert_ne; [done|]. intros E. by apply app_inv_head in E. }
  assert ((Z.of_nat (length d) <= u64_max)%Z -> memory_ok (set_core (<[tail root ++ p := v]> (ms_core a)) a)) as Hok.
  { intros Hl. assert (blen buf = length d) as Hbl by (rewrite <- Hd, <- Hc; symmetry; by apply contents_length).
    split; apply map_Forall_insert_2; try done; simpl; [split; [done|apply value_metadata_length]|lia]. }
  unfold core_set_if_not_exists, core_set, mbind, M_bind, get, put, throw, modify.
  destruct (write_if_not_exists (mw_op w)); simpl; [destruct (ms_core a !! (tail root ++ p)); simpl|].
  1: { by split_and!. }
  all: split_and!; [done | by intros q Hne; rewrite Hobj, bool_decide_eq_false_2 |];
    intros d' ->%Hsame Hl; rewrite Hobj, bool_decide_eq_true_2 by done; auto.
Qed.

#[export] Instance memory_store : ObjectStore fuel (memory_access root).
Proof.
  refine {| objects := memory_objects; store_ok := memory_ok; object_path p := p <> [slash] /\ starts_char p;
            writes_to w p := exists d, memory_writing w p d;
            writing := memory_writing; deleting d _ := md_root d = root |}.
  - by eauto.
  - done.
  - intros p a Ha [Hp Hs]. simpl. unfold mbind, M_bind, get, lift. split_and!; [done | done |].
    unfold mem_stat. rewrite !memory_abs by done. simpl. case_bool_decide; [done|]. unfold core_get.
    by destruct (ms_core a !! _).
  - intros p args a [Hwf Hlen] [Hp Hs] [Ho Hsz]. simpl. unfold mbind, M_bind, get, lift. split_and!; [done | done |].
    intros _. pose proof (mem_read_ok root p args (ms_core a) _ (memory_abs p Hp) Hwf) as Hm.
    unfold spec_read in Hm. unfold memory_objects, is_u64 in *. destruct (abstract (ms_core a) !! _) as [data|] eqn:E; simpl in Hm.
    + destruct Hm as (meta & buf & -> & Hb & Hc & _); [lia | destruct (Range.size _); simpl in *; lia | by eauto |].
      destruct (Buffer_serves buf Hb) as (n & Hn & Hser). exists data, n. split_and!; [done | lia |].
      rewrite <- Hc. by apply Serves_weaken.
    + rewrite Hm; [done | lia | destruct (Range.size _); simpl in *; lia | by eauto].
  - intros p args a Ha [Hp _]. simpl. unfold lift, mem_write. rewrite memory_abs by done. simpl.
    split_and!; [done..|]. intros w [= <-].
    assert (memory_writing (mem_writer_new (tail root ++ p) args) p []) as Hw by (by split_and!; [|apply qwf_nil|]).
    by eauto.
  - intros bs p a w Ha (d & Hp & Hq & Hd) Hb. simpl. unfold zoom, mem_writer_write, modify. simpl.
    destruct (qpush_spec _ bs Hq Hb) as [Hq' Hc'].
    assert (memory_writing (mkMemWriter (mw_path w) (mw_op w) (Some (qpush (default [] (mw_buf w)) bs))) p (d ++ contents bs))
      as Hw by (split_and!; [done|done|]; simpl; by rewrite Hc', Hd).
    split_and!; [done | by eauto | done |]. intros d' (_ & _ & <-). split; [done|]. intros _. by rewrite Hd.
  - intros p a w Ha Hw. apply memory_store_closes; done.
  - intros p a w Ha (d & Hp & Hq & Hd). simpl. unfold zoom, mem_writer_abort, modify. simpl.
    split_and!; [done | | done..]. exists []. by split_and!; [|apply qwf_nil|].
  - intros a Ha. simpl. unfold mret, M_ret. split_and!; [done..|]. by intros d [= <-].
  - intros p args P a d [Hwf Hlen] [Hp _] Hd. simpl. rewrite Hd. unfold zoom, one_shot_delete, delete_one, zoom, mem_delete_once.
    unfold mbind, M_bind, lift, core_delete, modify. simpl. rewrite memory_abs by done. simpl. split_and!.
    + by split; apply map_Forall_delete.
    + done.
    + intros q Hq. unfold memory_objects, abstract. simpl. rewrite fmap_delete, lookup_delete_ne; [done|].
      intros E%app_inv_head. subst. apply Hq. right. split; [done|by left].
  - intros ps a d Ha Hd. simpl. unfold zoom, one_shot_delete_close, mret, M_ret. simpl. by destruct a.
Defined.

End MemoryStore.

(** ** A cache that keeps everything *)

Definition KeepAll : Type := gmap FoyerKey bytes.
Definition kept (k : FoyerKey) (v : Buffer) (c : KeepAll) : KeepAll := <[k := contents v]> (c : gmap FoyerKey bytes).
#[export] Instance KeepAll_cache : HybridCache KeepAll := {|
  hc_get_or_fetch A k fetch x :=
    let '(a, c) := x in
    match (c : gmap FoyerKey bytes) !! k with
    | Some v => (Ok (from_bytes v), (a, c))
    | None =>
        let '(r, a') := fetch a in
        (map_err FetchFailed r, (a', match r with Ok v => kept k v c | _ => c end))
    end;
  hc_insert := kept;
  hc_remove k c := delete k (c : gmap FoyerKey bytes);
|}.

#[export] Instance KeepAll_laws : HybridCacheLaws KeepAll.
Proof.
  refine {| hc_view c := c |}; [done | done |].
  intros A k fetch a c. simpl. destruct (c !! k) as [v|] eqn:E.
  - left. by exists (from_bytes v), c.
  - right. right. destruct (fetch a) as [r a']. eexists. split; [reflexivity|]. simpl. unfold kept. destruct r; reflexivity.
Defined.

(** ** A session on the memory service *)

Definition sample_foyer : FoyerInner MemoryState KeepAll :=
  mkInner (mkMemory (memory_info (b "/") []) ∅) ∅ ∅.
Definition foyer_memory (limit : SizeLimit) := foyer_layer (C := KeepAll) limit (memory_access (b "/")) 2.

(** Write the pieces to the path and close. *)
Definition put_pieces (limit : SizeLimit) (path : str) (pieces : list bytes) (s : FoyerInner MemoryState KeepAll)
  : FoyerInner MemoryState KeepAll :=
  match a_write (foyer_memory limit) path op_write s with
  | (Ok w, s) => (foyer_close (foldl (fun x bs => (foyer_write limit (from_bytes bs) x).2) (s, w) pieces)).2.1
  | (_, s) => s
  end.
Definition read_bytes (r : result (option Metadata * Buffer)) : option bytes :=
  match r with Ok (_, buf) => Some (contents buf) | _ => None end.

(** Two pieces are written and closed; the object is read back. *)
Definition sample_writer : FoyerWriter MemoryWriter := mkFoyerWriter (mem_writer_new (b "a") op_write) [] (b "a") false.
Definition sample_filled : FoyerWriter MemoryWriter :=
  (foyer_write size_limit_default (from_bytes [x01; x02; x03]) (sample_foyer, sample_writer)).2.2.
Definition sample_written : FoyerInner MemoryState KeepAll := (foyer_close (sample_foyer, sample_filled)).2.1.
Definition sample_range : OpRead := read_with_range (mkRange 1 (Some 2%Z)) op_read.

Definition root_store : ObjectStore 2 (memory_access (b "/")).
Proof. refine (memory_store (b "/") 2 _ _ _); [constructor | done | lia]. Defined.

Definition sample_closed := foyer_close (sample_foyer, sample_filled).
Definition no_path (_ : str) : Prop := False.

Lemma sample_session :
  rtc (fstep (ObjectStore0 := root_store) size_limit_default 2 (memory_access (b "/")))
    (mkMachine sample_foyer [] [] no_path)
    (mkMachine sample_written [(false, sample_closed.2.2)] [] (heal (eq (b "a")) no_path)).
Proof.
  eapply rtc_l; [apply (step_open _ _ _ _ _ _ _ (b "a") op_write (Ok sample_writer) sample_foyer); [done|reflexivity]|].
  eapply rtc_l.
  { apply (step_write _ _ _ sample_foyer [] true sample_writer [] [] no_path (from_bytes [x01; x02; x03]) (Ok tt)
      sample_foyer sample_filled); [done | reflexivity]. }
  eapply rtc_l; [|apply rtc_refl].
  assert (sample_closed = (sample_closed.1, (sample_written, sample_closed.2.2))) as E.
  { unfold sample_written. fold sample_closed. by destruct sample_closed as [? [? ?]]. }
  pose proof (step_close (ObjectStore0 := root_store) size_limit_default 2 (memory_access (b "/"))
    sample_foyer [] true sample_filled [] [] no_path sample_closed.1 sample_written sample_closed.2.2 E) as Hs.
  apply Hs. discriminate.
Qed.


(** ** Where the cache goes wrong

    With a limit of less than four bytes. *)
Definition small_limit : SizeLimit := with_size_limit Unbounded (Excluded 4%Z).
Definition read_at (limit : SizeLimit) (args : OpRead) (s : FoyerInner MemoryState KeepAll) : result (option Metadata * Buffer) :=
  (a_read (foyer_memory limit) (b "a") args s).1.
Definition stored (s : FoyerInner MemoryState KeepAll) : option bytes := memory_objects (b "/") (fi_accessor s) (b "a").

(** A piece that crosses the limit empties the buffer, the next one fills it again:
    the end of the object is cached as the object. *)
Theorem foyer_caches_tail :
  let s := put_pieces small_limit (b "a") [[x01; x02; x03]; [x04; x05]; [x06]] sample_foyer in
  stored s = Some [x01; x02; x03; x04; x05; x06] /\ read_bytes (read_at small_limit op_read s) = Some [x06].
Proof. by vm_compute. Qed.

(** An object that is too large to be cached does not replace what is cached. *)
Theorem foyer_keeps_old :
  let s := put_pieces small_limit (b "a") [[x01; x02; x03; x04; x05]]
             (put_pieces small_limit (b "a") [[x07]] sample_foyer) in
  stored s = Some [x01; x02; x03; x04; x05] /\ read_bytes (read_at small_limit op_read s) = Some [x07].
Proof. by vm_compute. Qed.

(** A range past the end of a cached object panics; the service would return what
    there is. *)
Theorem foyer_range_panics :
  let s := put_pieces small_limit (b "a") [[x07]] sample_foyer in
  let args := read_with_range (mkRange 0 (Some 2%Z)) op_read in
  read_at small_limit args s = Panic /\
  read_bytes (mem_read (b "/") (b "a") args (ms_core (fi_accessor s))) = Some [x07].
Proof. by vm_compute. Qed.

(** An inclusive limit of [usize::MAX] wraps around to a limit that contains no
    size. *)
Theorem foyer_limit_wraps n : limit_contains (with_size_limit Unbounded (Included u64_max)) n = true -> (n < 0)%Z.
Proof.
  unfold limit_contains. intros H%bool_decide_eq_true. change (sl_end _) with 0%Z in H. change (sl_start _) with 0%Z in H. lia.
Qed.

(** A write that fails leaves its bytes in the buffer for the cache, so that a
    retry counts them twice. *)
Theorem foyer_write_failure_kept {A C Wr} `{Write (A * Wr)} limit bs e s (w : FoyerWriter Wr) a' w' :
  limit_contains limit (Z.of_nat (qlen (fw_buf w) + blen bs)) = true -> qwf (fw_buf w) -> wf bs ->
  w_write bs (fi_accessor s, fw_w w) = (Err e, (a', w')) ->
  exists s' f, foyer_write (C := C) limit bs (s, w) = (Err e, (s', f)) /\ fw_skip_cache f = false /\
    qcontents (fw_buf f) = qcontents (fw_buf w) ++ contents bs.
Proof.
  intros Hl Hq Hb E. unfold foyer_write, mbind, M_bind, get, modify, on_writer, zoom. rewrite Hl. simpl. rewrite E.
  do 2 eexists. split_and!; [done | done |]. simpl. by apply qpush_spec.
Qed.

(** A temporary error of the service is no longer temporary: a retry layer outside
    gives up. *)
Theorem foyer_error_not_temporary {A Rd Wr Ls Dl Cp} `{Read Rd} limit (inner : Access A Rd Wr Ls Dl Cp) fuel path args a a' e :
  a_stat inner path op_stat a = (Err e, a') ->
  exists e' s', full_read (C := KeepAll) limit inner fuel path args (mkInner a ∅ ∅) = (Err e', s') /\
    kind e' = kind e /\ is_temporary e' = false.
Proof.
  intros E. unfold full_read, mbind, M_bind, gets. simpl. rewrite bool_decide_eq_false_2 by set_solver.
  assert (fetch_object limit inner fuel path a = (Err (from_error e), a')) as Ef.
  { unfold fetch_object, as_fetch, mbind, M_bind. by rewrite E. }
  assert (get_or_fetch (mkKey path (read_version args)) (fetch_object limit inner fuel path) (mkInner a (∅ : KeepAll) ∅) =
    (Ok (Err (FetchFailed (from_error e))), mkInner a' ∅ ∅)) as ->.
  { unfold get_or_fetch, hc_get_or_fetch, KeepAll_cache. simpl. by rewrite Ef. }
  by do 2 eexists.
Qed.

(** A service that keeps versions of one object, the last one current. *)
Abbreviation Versions := (list (str * bytes)).
Record VersionWriter : Type := mkVersionWriter { vw_append : bool; vw_data : bytes }.

Definition version_of (v : option str) (s : Versions) : option (str * bytes) :=
  match v with None => last s | Some v => List.find (fun x => bool_decide (x.1 = v)) s end.
Definition versioned_meta (x : str * bytes) : Metadata :=
  {| m_mode := FILE; m_is_current := None; m_is_deleted := false; m_cache_control := None; m_content_disposition := None;
     m_content_length := Some (Z.of_nat (length x.2)); m_content_md5 := None; m_content_type := None;
     m_content_encoding := None; m_etag := None; m_last_modified := None;
     m_version := Some x.1; m_user_metadata := None |}.

#[local] Instance Version_Write : Write (Versions * VersionWriter) := {|
  w_write bs := modify (fun '(s, w) => (s, mkVersionWriter (vw_append w) (vw_data w ++ contents bs)));
  w_close := fun '(s, w) =>
    let x := (b "v" ++ show_u64 (Z.of_nat (length s)),
              (if vw_append w then from_option snd [] (last s) else []) ++ vw_data w) in
    (Ok (versioned_meta x), (s ++ [x], w));
  w_abort := mret tt |}.

Definition versioned_access : Access Versions Buffer VersionWriter unit unit unit :=
  {| a_info _ := info_default; a_create_dir _ := throw not_supported;
     a_stat _ args s := (ok_or memory_not_found (versioned_meta <$> version_of (stat_version args) s), s);
     a_read _ args s :=
       (ok_or memory_not_found ((fun x => (Some (versioned_meta x), from_bytes (sub x.2 (read_range args))))
          <$> version_of (read_version args) s), s);
     a_write _ args := mret (mkVersionWriter (write_append args) []);
     a_delete := throw not_supported; a_list _ _ := throw not_supported; a_copy _ _ _ _ := throw not_supported;
     a_rename _ _ := throw not_supported |}.

Definition with_version (v : option str) : OpRead :=
  mkOpRead (mkRange 0 None) None None None None None None None v.
Definition versioned_read (v : option str) (s : FoyerInner Versions KeepAll) : result (option Metadata * Buffer) * FoyerInner Versions KeepAll :=
  full_read size_limit_default versioned_access 2 (b "a") (with_version v) s.
Definition versioned_put (append : bool) (data : bytes) (s : FoyerInner Versions KeepAll) : FoyerInner Versions KeepAll :=
  (foyer_close (foyer_write size_limit_default (from_bytes data)
     (s, mkFoyerWriter (mkVersionWriter append []) [] (b "a") false)).2).2.1.
Definition two_versions : FoyerInner Versions KeepAll := mkInner [(b "v0", [x01]); (b "v1", [x02])] ∅ ∅.

(** A fetch asks for the current object whatever version is read, and keeps it as
    that version. *)
Theorem foyer_ignores_version : read_bytes (versioned_read (Some (b "v0")) two_versions).1 = Some [x02].
Proof. by vm_compute. Qed.

(** A write is cached under its new version: the current object, read before, stays
    cached as it was. *)
Theorem foyer_current_is_stale :
  let s := versioned_put false [x03] (versioned_read None two_versions).2 in
  from_option snd [] (last (fi_accessor s)) = [x03] /\ read_bytes (versioned_read None s).1 = Some [x02].
Proof. by vm_compute. Qed.

(** What is appended is cached as the whole object. *)
Theorem foyer_append_truncates :
  let s := versioned_put true [x03] two_versions in
  from_option snd [] (last (fi_accessor s)) = [x02; x03] /\ read_bytes (versioned_read (Some (b "v2")) s).1 = Some [x03].
Proof. by vm_compute. Qed.

(** What is renamed onto a cached path is not seen: reads still return what was
    there before. *)
Theorem foyer_rename_is_stale {A Rd Wr Ls Dl Cp} `{Read Rd} `{Write (A * Wr)} `{Delete (A * Dl)} limit
    (inner : Access A Rd Wr Ls Dl Cp) fuel from to (s s' : FoyerInner A KeepAll) r data :
  (fi_cache s : gmap FoyerKey bytes) !! mkKey to None = Some data -> mkKey to None ∉ fi_deleted_keys s ->
  a_rename (foyer_layer limit inner fuel) from to s = (r, s') ->
  fi_accessor s' = (a_rename inner from to (fi_accessor s)).2 /\
  read_bytes (full_read limit inner fuel to op_read s').1 = Some data.
Proof.
  intros Hc Hd. simpl. unfold on_accessor, zoom. destruct (a_rename inner from to (fi_accessor s)) as [r1 a1].
  intros [= <- <-]. split; [done|]. unfold full_read, mbind, M_bind, gets, get_or_fetch. simpl.
  rewrite bool_decide_eq_false_2 by done. simpl. rewrite Hc. simpl.
  destruct (slice_ok (from_bytes data) 0 (length data)) as (buf & Hb & _ & Hcon); [done | simpl; lia |].
  unfold lift. change (Z.of_nat 0) with 0%Z in Hb. simpl. rewrite Hb. simpl. rewrite Hcon. simpl. by rewrite drop_0, firstn_all2 by lia.
Qed.
