(* ===== verification/Route.v ===== *)
(** * The route layer ([core/layers/route/src/lib.rs])

    Operations go to the operator of the first route whose glob pattern matches
    the path, or to the wrapped accessor.  A deleter opens one deleter for each
    accessor it needs and closes them all.  Glob patterns are the [globset]
    crate's: a class with the documented meaning of its matcher. *)

From S2P Require Import Prelude Errors Types Access Deleters.
From stdpp Require Import options.

(** ** [globset] *)

Class GlobCrate (G GS : Type) : Type := {
  (** [Glob::new] and [GlobSetBuilder::build], with the text of their errors. *)
  glob_new : str -> outcome str G;
  globset_build : list G -> outcome str GS;
  (** The sequence numbers of the patterns that match the path. *)
  globset_matches : GS -> str -> list nat;
}.

Class GlobLaws (G GS : Type) `{GlobCrate G GS} : Type := {
  glob_is_match : G -> str -> bool;
  glob_new_total pattern : glob_new pattern <> Panic;
  globset_build_total gs : globset_build gs <> Panic;
  globset_matches_law gs set path i :
    globset_build gs = Ok set ->
    i ∈ globset_matches set path <-> exists g, gs !! i = Some g /\ glob_is_match g path = true;
}.

(** [Iterator::min]. *)
Definition list_min (l : list nat) : option nat :=
  match l with [] => None | x :: rest => Some (foldl Nat.min x rest) end.

Lemma foldl_min_spec l x : let m := foldl Nat.min x l in (m = x \/ m ∈ l) /\ m <= x /\ forall y, y ∈ l -> m <= y.
Proof.
  revert x. induction l as [|y l IH]; intros x; simpl; [split_and!; [by left|done|by intros ? ?%not_elem_of_nil]|].
  destruct (IH (Nat.min x y)) as (Hin & Hle & Hall). split_and!; [|lia|].
  - destruct Hin as [->|?]; [|right; by right]. destruct (Nat.min_spec x y) as [[? ->]|[? ->]]; [by left|]. right. by left.
  - intros z [->|Hz]%elem_of_cons; [lia|]. by apply Hall.
Qed.
Lemma list_min_spec l m : list_min l = Some m <-> m ∈ l /\ forall y, y ∈ l -> m <= y.
Proof.
  destruct l as [|x l]; simpl; [split; [done|by intros [?%not_elem_of_nil _]]|].
  destruct (foldl_min_spec l x) as (Hin & Hle & Hall). split.
  - intros [= <-]. split; [destruct Hin as [->|?]; [by left|by right]|]. intros y [->|Hy]%elem_of_cons; [done|by apply Hall].
  - intros [Hm Hmin]. f_equal. apply Nat.le_antisymm.
    + apply elem_of_cons in Hm as [->|Hm]; [done|by apply Hall].
    + apply Hmin. destruct Hin as [->|?]; [by left|by right].
Qed.
Lemma list_min_None l : list_min l = None <-> l = [].
Proof. by destruct l. Qed.

Section Route.
  Context {W Rd Wr Ls Dl Cp G GS : Type} `{Delete (W * Dl)} `{GlobCrate G GS}.
  Abbreviation Accessor := (Access W Rd Wr Ls Dl Cp).

(** ** [RouteLayerBuilder] *)

Record RouteEntry : Type := mkRoute { re_pattern : str; re_accessor : Accessor }.
Record RouteRouter : Type := mkRouter { rr_glob : GS; rr_targets : list Accessor }.

Definition route (pattern : str) (op : Accessor) (routes : list RouteEntry) : list RouteEntry :=
  routes ++ [mkRoute pattern op].

Fixpoint build_globs (routes : list RouteEntry) : outcome Error (list G) :=
  match routes with
  | [] => Ok []
  | entry :: rest =>
      glob ← map_err (fun err => with_context (b "source") err (with_context (b "pattern") (re_pattern entry)
                        (error ConfigInvalid "invalid route glob pattern"))) (glob_new (re_pattern entry));
      globs ← build_globs rest;
      Ok (glob :: globs)
  end.
Definition route_build (routes : list RouteEntry) : outcome Error RouteRouter :=
  globs ← build_globs routes;
  glob ← map_err (fun err => with_context (b "source") err (error ConfigInvalid "failed to build route glob set"))
           (globset_build globs);
  Ok (mkRouter glob (re_accessor <$> routes)).

(** ** [RouteRouter] *)

Definition match_index (router : RouteRouter) (path : str) : option nat := list_min (globset_matches (rr_glob router) path).
Definition select (router : RouteRouter) (path : str) (dflt : Accessor) : Accessor :=
  default dflt (idx ← match_index router path; rr_targets router !! idx).
Definition target_of (router : RouteRouter) (idx : nat) (dflt : Accessor) : Accessor :=
  default dflt (rr_targets router !! idx).

(** ** [RouteDeleter] *)

Record RouteDeleter : Type := mkRouteDeleter {
  rd_default_deleter : option Dl; rd_target_deleters : list (option Dl);
}.

  Variable router : RouteRouter.
  Variable inner : Accessor.
  Abbreviation S := (W * RouteDeleter)%type.

Definition route_deleter_new : RouteDeleter :=
  mkRouteDeleter None (replicate (length (rr_targets router)) None).

(** [enum RouteKey]. *)
Inductive RouteKey : Type := Default | Target (idx : nat).

(** The place of a deleter: [None] is [default_deleter]. *)
Definition slot : Type := option nat.
Definition at_slot (k : slot) (d : RouteDeleter) : option Dl :=
  match k with None => rd_default_deleter d | Some idx => mjoin (rd_target_deleters d !! idx) end.
Definition set_slot (k : slot) (x : Dl) (d : RouteDeleter) : RouteDeleter :=
  match k with
  | None => mkRouteDeleter (Some x) (rd_target_deleters d)
  | Some idx => mkRouteDeleter (rd_default_deleter d) (<[idx := Some x]> (rd_target_deleters d))
  end.

Definition open_if_none (k : slot) (accessor : Accessor) : M S Error slot := fun '(w, d) =>
  match at_slot k d with
  | Some _ => (Ok k, (w, d))
  | None =>
      let '(r, w') := a_delete accessor w in
      match r with
      | Ok x => (Ok k, (w', set_slot k x d))
      | Err e => (Err e, (w', d))
      | Panic => (Panic, (w', d))
      end
  end.

(** [get_deleter] gives the place of the deleter it returns a reference to. *)
Definition get_deleter (key : RouteKey) : M S Error slot := fun s =>
  match key with
  | Default => open_if_none None inner s
  | Target idx =>
      if bool_decide (length (rd_target_deleters s.2) <= idx) then open_if_none None inner s
      else open_if_none (Some idx) (target_of router idx inner) s
  end.

Definition in_slot {X} (k : slot) (m : M (W * Dl) Error X) : M S Error X := fun '(w, d) =>
  match at_slot k d with
  | Some x => let '(r, (w', x')) := m (w, x) in (r, (w', set_slot k x' d))
  | None => (Panic, (w, d))
  end.

Definition route_delete (path : str) (args : OpDelete) : M S Error unit :=
  let key := match match_index router path with Some idx => Target idx | None => Default end in
  k ← get_deleter key;
  in_slot k (d_delete path args).

(** One iteration of the closing loop: the first error is kept. *)
Definition close_slot (first_err : option Error) (k : slot) : M S Error (option Error) := fun s =>
  match at_slot k s.2 with
  | None => (Ok first_err, s)
  | Some _ =>
      let '(r, s') := in_slot k d_close s in
      match r with
      | Ok _ => (Ok first_err, s')
      | Err e => (Ok (match first_err with None => Some e | _ => first_err end), s')
      | Panic => (Panic, s')
      end
  end.
Fixpoint close_slots (first_err : option Error) (ks : list slot) : M S Error (option Error) :=
  match ks with
  | [] => mret first_err
  | k :: rest => first_err ← close_slot first_err k; close_slots first_err rest
  end.
Definition route_close : M S Error unit :=
  d ← gets snd;
  first_err ← close_slots None (None :: (Some <$> seq 0 (length (rd_target_deleters d))));
  match first_err with Some err => throw err | None => mret tt end.

#[global] Instance RouteDeleter_Delete : Delete S := {| d_delete := route_delete; d_close := route_close |}.

(** ** [RouteAccessor] *)

Definition route_layer : Access W Rd Wr Ls RouteDeleter Cp :=
  {| a_info := a_info inner;
     a_create_dir path := a_create_dir (select router path inner) path;
     a_stat path args := a_stat (select router path inner) path args;
     a_read path args := a_read (select router path inner) path args;
     a_write path args := a_write (select router path inner) path args;
     a_delete := mret route_deleter_new;
     a_list path args := a_list (select router path inner) path args;
     a_copy from to args opts := a_copy (select router from inner) from to args opts;
     a_rename from to := a_rename (select router from inner) from to |}.

End Route.

(** ** The first matching route *)

Section FirstRoute.
  Context {W Rd Wr Ls Dl Cp G GS : Type} `{GlobLaws G GS}.
  Abbreviation Accessor := (Access W Rd Wr Ls Dl Cp).
  Abbreviation routeEntry := (@RouteEntry W Rd Wr Ls Dl Cp).

Definition pattern_matches (pattern path : str) : bool :=
  match glob_new pattern with Ok g => glob_is_match g path | _ => false end.

(** What a reader of the builder's chain expects. *)
Fixpoint first_route (routes : list routeEntry) (path : str) (dflt : Accessor) : Accessor :=
  match routes with
  | [] => dflt
  | entry :: rest => if pattern_matches (re_pattern entry) path then re_accessor entry else first_route rest path dflt
  end.

Lemma build_globs_ok (routes : list routeEntry) globs :
  build_globs routes = Ok globs -> Forall2 (fun entry g => glob_new (re_pattern entry) = Ok g) routes globs.
Proof.
  revert globs. induction routes as [|entry rest IH]; simpl; intros globs E; [by injection E as <-|].
  destruct (glob_new (re_pattern entry)) as [g|e|] eqn:Eg; simpl in E; [|done|done].
  destruct (build_globs rest) as [gs|e|]; simpl in E; [|done|done]. injection E as <-. constructor; [done|by apply IH].
Qed.

Lemma first_route_lookup (routes : list routeEntry) globs path dflt :
  Forall2 (fun entry g => glob_new (re_pattern entry) = Ok g) routes globs ->
  (forall i g, globs !! i = Some g -> glob_is_match g path = false) /\ first_route routes path dflt = dflt \/
  exists i g entry, globs !! i = Some g /\ glob_is_match g path = true /\ routes !! i = Some entry /\
    (forall j g', globs !! j = Some g' -> glob_is_match g' path = true -> i <= j) /\
    first_route routes path dflt = re_accessor entry.
Proof.
  induction 1 as [|entry g routes globs Eg _ IH]; simpl; [by left|].
  unfold pattern_matches. rewrite Eg. destruct (glob_is_match g path) eqn:Em.
  - right. exists 0, g, entry. split_and!; [done..| |done]. intros. lia.
  - destruct IH as [[Hno ->]|(i & g1 & e1 & Hi & Hm & Hr & Hmin & ->)].
    + left. split; [|done]. intros [|i] g' Hi; simpl in Hi; [by simplify_eq|by eapply Hno].
    + right. exists (S i), g1, e1. split_and!; [done..| |done]. intros [|j] g' Hj Hm'; simpl in Hj; [by simplify_eq; congruence|].
      apply le_n_S. by eapply Hmin.
Qed.

(** Routing is by the first match: a router that was built sends every path to
    the accessor of the first route, in the order they were added, whose pattern
    matches the path, and any other path to the wrapped accessor; and building
    fails only with an invalid configuration. *)
Theorem route_first_match (routes : list routeEntry) path dflt :
  match route_build routes with
  | Ok router => select router path dflt = first_route routes path dflt
  | Err e => kind e = ConfigInvalid
  | Panic => False
  end.
Proof.
  unfold route_build. destruct (build_globs routes) as [globs|e|] eqn:Eg; simpl.
  - destruct (globset_build globs) as [set|e|] eqn:Es; simpl; [|done|by apply globset_build_total in Es].
    apply build_globs_ok in Eg as Hall. unfold select, match_index. simpl.
    destruct (first_route_lookup routes globs path dflt Hall) as [[Hno ->]|(i & g & entry & Hi & Hm & Hr & Hmin & ->)].
    + destruct (globset_matches set path) as [|i l] eqn:El; [done|].
      assert (i ∈ globset_matches set path) as Hin by (rewrite El; left).
      apply (globset_matches_law _ _ _ _ Es) in Hin as (g & Hi & Hm). by rewrite (Hno i g Hi) in Hm.
    + assert (list_min (globset_matches set path) = Some i) as ->.
      { apply list_min_spec. split; [by apply (globset_matches_law _ _ _ _ Es); eauto|].
        intros y Hy. apply (globset_matches_law _ _ _ _ Es) in Hy as (g' & Hg' & Hm'). by eapply Hmin. }
      simpl. by rewrite list_lookup_fmap, Hr.
  - revert e Eg. induction routes as [|entry rest IH]; simpl; intros e Eg; [done|].
    destruct (glob_new (re_pattern entry)) as [g|s|] eqn:En; simpl in Eg; [|by injection Eg as <-|done].
    destruct (build_globs rest) as [gs|e'|]; simpl in Eg; [done|injection Eg as <-; by apply IH|done].
  - induction routes as [|entry rest IH]; simpl in Eg; [done|].
    destruct (glob_new (re_pattern entry)) as [g|s|] eqn:En; simpl in Eg; [|done|by apply glob_new_total in En].
    destruct (build_globs rest) as [gs|e'|]; simpl in Eg; [done|done|by apply IH].
Qed.

End FirstRoute.

(** ** The deleter *)

Section DeleterSpec.
  Context {W Rd Wr Ls Dl Cp G GS : Type} `{Delete (W * Dl)} `{GlobCrate G GS}.
  Abbreviation Accessor := (Access W Rd Wr Ls Dl Cp).
  Variable router : RouteRouter (W := W) (Rd := Rd) (Wr := Wr) (Ls := Ls) (Dl := Dl) (Cp := Cp) (GS := GS).
  Variable inner : Accessor.

(** The accessor a slot deletes with, and the slot a path goes to. *)
Definition slot_accessor (k : slot) : Accessor :=
  match k with None => inner | Some idx => target_of router idx inner end.
Definition route_slot (path : str) : slot :=
  idx ← match_index router path;
  if bool_decide (length (rr_targets router) <= idx) then None else Some idx.

(** What is known of the deleters of the accessors.  Each accessor has a store,
    [gone] is what was deleted from it and [queued] what a deleter has still to
    delete.  A call may fail; it touches the store of its own deleter only. *)
Class RouteLog : Type := {
  store_of : slot -> nat;
  owner : Dl -> nat;
  queued : Dl -> gset target;
  gone : W -> nat -> gset target;
  open_log k w r w' :
    a_delete (slot_accessor k) w = (r, w') ->
    r <> Panic /\ (forall n, gone w' n = gone w n) /\ forall x, r = Ok x -> owner x = store_of k /\ queued x = ∅;
  delete_log path args w x r w' x' :
    d_delete path args (w, x) = (r, (w', x')) ->
    r <> Panic /\ owner x' = owner x /\ (forall n, n <> owner x -> gone w' n = gone w n) /\
    gone w (owner x) ⊆ gone w' (owner x) /\
    gone w' (owner x) ⊆ gone w (owner x) ∪ queued x ∪ {[(path, args)]} /\
    queued x ⊆ queued x' ∪ gone w' (owner x) /\ queued x' ⊆ queued x ∪ {[(path, args)]} /\
    (r = Ok tt -> (path, args) ∈ queued x' ∪ gone w' (owner x));
  close_log w x r w' x' :
    d_close (w, x) = (r, (w', x')) ->
    r <> Panic /\ owner x' = owner x /\ (forall n, n <> owner x -> gone w' n = gone w n) /\
    gone w (owner x) ⊆ gone w' (owner x) /\ gone w' (owner x) ⊆ gone w (owner x) ∪ queued x /\
    queued x ⊆ queued x' ∪ gone w' (owner x) /\ queued x' ⊆ queued x /\
    (r = Ok tt -> queued x ⊆ gone w' (owner x));
}.

  Context `{!RouteLog}.
#[local] Set Default Proof Using "All".

(** A target is deleted, or its deleter has it queued. *)
Definition held (s : W * RouteDeleter) (t : target) : Prop :=
  t ∈ gone s.1 (store_of (route_slot t.1)) \/ exists x, at_slot (route_slot t.1) s.2 = Some x /\ t ∈ queued x.

Record deleter_inv (w0 : W) (accepted : list target) (s : W * RouteDeleter) : Prop := mkDeleterInv {
  di_length : length (rd_target_deleters s.2) = length (rr_targets router);
  di_slots : forall k x, at_slot k s.2 = Some x -> owner x = store_of k /\ forall t, t ∈ queued x -> route_slot t.1 = k;
  di_held : forall t, t ∈ accepted -> held s t;
  di_only : forall n t, t ∈ gone s.1 n -> t ∈ gone w0 n \/ store_of (route_slot t.1) = n;
}.

Definition slot_ok (k : slot) (d : RouteDeleter (Dl := Dl)) : Prop :=
  match k with None => True | Some idx => idx < length (rd_target_deleters d) end.
Lemma at_set_slot k x (d : RouteDeleter (Dl := Dl)) : slot_ok k d -> at_slot k (set_slot k x d) = Some x.
Proof. destruct k as [idx|]; simpl; [|done]. intros Hl. by rewrite list_lookup_insert_eq. Qed.
Lemma at_set_slot_ne k k' x (d : RouteDeleter (Dl := Dl)) : k <> k' -> at_slot k' (set_slot k x d) = at_slot k' d.
Proof. destruct k as [i|], k' as [j|]; simpl; try done. intros Hne. rewrite list_lookup_insert_ne; [done|naive_solver]. Qed.
Lemma set_slot_length k x (d : RouteDeleter (Dl := Dl)) :
  length (rd_target_deleters (set_slot k x d)) = length (rd_target_deleters d).
Proof. destruct k; simpl; [apply length_insert | done]. Qed.
Lemma at_slot_ok k (d : RouteDeleter (Dl := Dl)) x : at_slot k d = Some x -> slot_ok k d.
Proof.
  destruct k as [i|]; simpl; [|done]. destruct (rd_target_deleters d !! i) eqn:E; [|done]. by apply lookup_lt_Some in E.
Qed.

(** A call on the deleter of a slot keeps the invariant. *)
Lemma slot_step (extra : gset target) w0 accepted w w' d k x x' :
  deleter_inv w0 accepted (w, d) -> at_slot k d = Some x -> owner x' = owner x ->
  (forall n, n <> owner x -> gone w' n = gone w n) -> gone w (owner x) ⊆ gone w' (owner x) ->
  gone w' (owner x) ⊆ gone w (owner x) ∪ queued x ∪ extra ->
  queued x ⊆ queued x' ∪ gone w' (owner x) -> queued x' ⊆ queued x ∪ extra ->
  (forall t, t ∈ extra -> route_slot t.1 = k) ->
  deleter_inv w0 accepted (w', set_slot k x' d) /\ forall n, gone w n ⊆ gone w' n.
Proof.
  intros [Hl Hs Hh Ho] Hx Hown Hoth Hmono Hnew Hq Hq' Hextra. simpl in *.
  destruct (Hs k x Hx) as [Hk Hroute]. apply at_slot_ok in Hx as Hok.
  assert (forall n, gone w n ⊆ gone w' n) as Hall.
  { intros n. destruct (decide (n = owner x)) as [->|Hne]; [done|]. by rewrite Hoth. }
  split; [|done]. split; simpl.
  - by rewrite set_slot_length.
  - intros k' y. destruct (decide (k = k')) as [<-|Hne].
    + rewrite at_set_slot by done. intros [= <-]. split; [by rewrite Hown|]. intros t Ht. set_solver.
    + rewrite at_set_slot_ne by done. apply Hs.
  - intros t Ht. destruct (Hh t Ht) as [Hg|(y & Hy & Hqy)]; [left; by apply Hall|]. simpl in *.
    destruct (decide (route_slot t.1 = k)) as [Hrk|Hne].
    + rewrite Hrk, Hx in Hy. injection Hy as <-. specialize (Hq t Hqy). apply elem_of_union in Hq as [Hq|Hq].
      * right. exists x'. simpl. by rewrite Hrk, at_set_slot.
      * left. simpl. by rewrite Hrk, <- Hk.
    + right. exists y. simpl. by rewrite at_set_slot_ne.
  - intros n t Ht. destruct (decide (n = owner x)) as [->|Hne]; [|rewrite Hoth in Ht by done; by apply Ho].
    apply Hnew in Ht. apply elem_of_union in Ht as [[Ht|Ht]%elem_of_union|Ht]; [by apply Ho| |]; right; rewrite Hk; f_equal; auto.
Qed.

Lemma open_step w0 accepted w d k :
  deleter_inv w0 accepted (w, d) -> slot_ok k d ->
  let '(r, s') := open_if_none k (slot_accessor k) (w, d) in
  deleter_inv w0 accepted s' /\ r <> Panic /\ forall k', r = Ok k' -> k' = k /\ is_Some (at_slot k s'.2).
Proof.
  intros Hinv Hok. unfold open_if_none. destruct (at_slot k d) as [x|] eqn:Hx.
  { split_and!; [done|done|]. intros k' [= <-]. simpl. rewrite Hx. by eauto. }
  destruct (a_delete (slot_accessor k) w) as [r w'] eqn:E. destruct (open_log k w r w' E) as (Hnp & Hg & Hopen).
  assert (forall d', length (rd_target_deleters d') = length (rd_target_deleters d) ->
    (forall k' y, at_slot k' d' = Some y -> at_slot k' d = Some y \/ owner y = store_of k' /\ queued y = ∅) ->
    (forall k' y, at_slot k' d = Some y -> at_slot k' d' = Some y) -> deleter_inv w0 accepted (w', d')) as Hgen.
  { intros d' Hl Hin Hout. destruct Hinv as [Hl0 Hs Hh Ho]. simpl in *. split; simpl.
    - by rewrite Hl.
    - intros k' y Hy. destruct (Hin k' y Hy) as [?|[? Hq]]; [by apply Hs|]. split; [done|]. rewrite Hq. set_solver.
    - intros t Ht. destruct (Hh t Ht) as [?|(y & Hy & Hq)]; [left; by rewrite Hg|]. right. exists y. auto.
    - intros n t. rewrite Hg. apply Ho. }
  destruct r as [x|e|]; [| |done]; split_and!; try done.
  - destruct (Hopen x eq_refl) as [Hw Hq]. apply Hgen; [apply set_slot_length| |].
    + intros k' y. destruct (decide (k = k')) as [<-|Hne]; [rewrite at_set_slot by done; intros [= <-]; by right|].
      rewrite at_set_slot_ne by done. by left.
    + intros k' y Hy. rewrite at_set_slot_ne; [done|]. intros <-. congruence.
  - intros k' [= <-]. simpl. rewrite at_set_slot by done. by eauto.
  - apply Hgen; auto.
Qed.

Lemma route_delete_ok w0 accepted path args s r s' :
  deleter_inv w0 accepted s -> route_delete router inner path args s = (r, s') ->
  r <> Panic /\ deleter_inv w0 (if is_ok r then accepted ++ [(path, args)] else accepted) s'.
Proof.
  intros Hinv E. unfold route_delete, mbind, M_bind in E.
  assert (get_deleter router inner (match match_index router path with Some idx => Target idx | None => Default end) s =
    open_if_none (route_slot path) (slot_accessor (route_slot path)) s) as Hget.
  { unfold get_deleter, route_slot. destruct (match_index router path) as [idx|]; simpl; [|done].
    rewrite (di_length _ _ _ Hinv). by case_bool_decide. }
  rewrite Hget in E. destruct s as [w d].
  assert (slot_ok (route_slot path) d) as Hok.
  { unfold route_slot. destruct (match_index router path) as [idx|]; simpl; [|done]. case_bool_decide; [done|].
    pose proof (di_length _ _ _ Hinv) as Hlen. simpl in *. lia. }
  pose proof (open_step w0 accepted w d (route_slot path) Hinv Hok) as Hopen.
  destruct (open_if_none _ _ (w, d)) as [[k|e|] [w1 d1]]; destruct Hopen as (Hinv1 & Hnp & Hk); [| |done].
  2: { by injection E as <- <-. }
  destruct (Hk k eq_refl) as [-> [x Hx]]. simpl in Hx. unfold in_slot in E. rewrite Hx in E.
  destruct (d_delete path args (w1, x)) as [r1 [w2 x2]] eqn:Ed. injection E as <- <-.
  destruct (delete_log _ _ _ _ _ _ _ Ed) as (Hnp1 & Hown & Hoth & Hmono & Hnew & Hq & Hq' & Hdone). split; [done|].
  destruct (slot_step {[(path, args)]} w0 accepted w1 w2 d1 (route_slot path) x x2 Hinv1 Hx Hown Hoth Hmono Hnew Hq Hq')
    as [Hinv2 _]; [by intros t ->%elem_of_singleton|].
  destruct r1 as [[]|e|]; [|done|done]. simpl. destruct Hinv2 as [Hl Hs Hh Ho]. split; [done..| |done].
  intros t [Ht|Ht%list_elem_of_singleton]%elem_of_app; [by apply Hh|]. subst t. specialize (Hdone eq_refl).
  apply elem_of_union in Hdone as [Hqd|Hgd].
  - right. exists x2. simpl. by rewrite at_set_slot by by eapply at_slot_ok.
  - left. simpl. destruct (di_slots _ _ _ Hinv1 _ x Hx) as [Hst _]. by rewrite <- Hst.
Qed.

(** The closes that happen when the slots [ks] are closed in this order, from this
    state: a slot without a deleter is passed over, and each close starts in the
    state the one before it left.  With each slot, the answer of its deleter. *)
Fixpoint closes (ks : list slot) (s : W * RouteDeleter) : list (slot * result unit) :=
  match ks with
  | [] => []
  | k :: rest =>
      match at_slot k s.2 with
      | None => closes rest s
      | Some x => let '(r, (w', x')) := d_close (s.1, x) in (k, r) :: closes rest (w', set_slot k x' s.2)
      end
  end.
Definition first_error (cs : list (slot * result unit)) : option Error :=
  head (omap (fun c => match c.2 with Err e => Some e | _ => None end) cs).
Definition keep_first (fe fe' : option Error) : option Error := match fe with Some e => Some e | None => fe' end.

Lemma close_slot_ok w0 accepted fe k s :
  deleter_inv w0 accepted s ->
  exists s', close_slot fe k s = (Ok (keep_first fe (first_error (closes [k] s))), s') /\
    deleter_inv w0 accepted s' /\ (forall n, gone s.1 n ⊆ gone s'.1 n) /\
    (forall ks, closes (k :: ks) s = closes [k] s ++ closes ks s') /\
    forall t, t ∈ accepted -> route_slot t.1 = k ->
      t ∈ gone s'.1 (store_of k) \/ exists e, (k, Err e) ∈ closes [k] s.
Proof.
  intros Hinv. unfold close_slot. destruct s as [w d]. simpl. destruct (at_slot k d) as [x|] eqn:Hx.
  2: { eexists. split_and!; [by destruct fe|done..|]. intros t Ht Hk. left.
       destruct (di_held _ _ _ Hinv t Ht) as [Hg|(y & Hy & _)]; [by rewrite <- Hk|].
       simpl in Hy. rewrite Hk in Hy. congruence. }
  unfold in_slot. cbn. destruct (d_close (w, x)) as [r [w' x']] eqn:E.
  destruct (close_log _ _ _ _ _ E) as (Hnp & Hown & Hoth & Hmono & Hnew & Hq & Hq' & Hdone).
  destruct (slot_step ∅ w0 accepted w w' d k x x' Hinv Hx Hown Hoth Hmono) as [Hinv' Hall]; [set_solver..|].
  destruct (di_slots _ _ _ Hinv k x Hx) as [Hst Hroute].
  exists (w', set_slot k x' d). split_and!; [by destruct r as [[]|e|], fe|done..|].
  intros t Ht Hk. destruct r as [[]|e|]; [left|right; exists e; by left|done].
  destruct (di_held _ _ _ Hinv t Ht) as [Hg|(y & Hy & Hqy)]; simpl in *; rewrite Hk in *; [by apply Hall|].
  rewrite Hx in Hy. injection Hy as <-. rewrite <- Hst. by apply (Hdone eq_refl).
Qed.

Lemma first_error_app cs cs' : first_error (cs ++ cs') = keep_first (first_error cs) (first_error cs').
Proof. unfold first_error. rewrite omap_app. by destruct (omap _ cs). Qed.

Lemma close_slots_ok w0 accepted ks fe s :
  deleter_inv w0 accepted s ->
  exists s', close_slots fe ks s = (Ok (keep_first fe (first_error (closes ks s))), s') /\
    deleter_inv w0 accepted s' /\ (forall n, gone s.1 n ⊆ gone s'.1 n) /\
    forall t, t ∈ accepted -> route_slot t.1 ∈ ks ->
      t ∈ gone s'.1 (store_of (route_slot t.1)) \/ exists e, (route_slot t.1, Err e) ∈ closes ks s.
Proof.
  revert fe s. induction ks as [|k ks IH]; intros fe s Hinv.
  { eexists. split_and!; [by destruct fe|done..|]. by intros t _ ?%not_elem_of_nil. }
  destruct (close_slot_ok w0 accepted fe k s Hinv) as (s1 & E1 & Hinv1 & Hm1 & Hcs & Hk1).
  destruct (IH (keep_first fe (first_error (closes [k] s))) s1 Hinv1) as (s2 & E2 & Hinv2 & Hm2 & Hk2).
  exists s2. cbn [close_slots]. unfold mbind, M_bind. rewrite E1, E2, (Hcs ks), first_error_app.
  split_and!; [by destruct fe | done | set_solver |]. setoid_rewrite elem_of_app.
  intros t Ht [Hk|Hk]%elem_of_cons.
  - destruct (Hk1 t Ht Hk) as [Hg|[e He]]; rewrite Hk; [left; by apply Hm2|]. right. exists e. by left.
  - destruct (Hk2 t Ht Hk) as [Hg|[e He]]; [by left|]. right. exists e. by right.
Qed.

(** Deletes are asked for one after the other; the accepted ones are kept. *)
Fixpoint route_deletes (ts : list target) (s : W * RouteDeleter) : list target * (W * RouteDeleter) :=
  match ts with
  | [] => ([], s)
  | t :: rest =>
      let '(r, s1) := route_delete router inner t.1 t.2 s in
      let '(accepted, s2) := route_deletes rest s1 in
      (if is_ok r then t :: accepted else accepted, s2)
  end.

Lemma route_deletes_ok w0 ts acc0 s :
  deleter_inv w0 acc0 s ->
  let '(accepted, s') := route_deletes ts s in deleter_inv w0 (acc0 ++ accepted) s'.
Proof.
  revert acc0 s. induction ts as [|[path args] ts IH]; intros acc0 s Hinv; simpl; [by rewrite app_nil_r|].
  destruct (route_delete router inner path args s) as [r s1] eqn:E.
  destruct (route_delete_ok w0 acc0 path args s r s1 Hinv E) as [_ Hinv1].
  specialize (IH _ _ Hinv1). destruct (route_deletes ts s1) as [accepted s2].
  destruct (is_ok r); [|done]. by rewrite <- app_assoc in IH.
Qed.

Lemma route_slot_listed path :
  route_slot path ∈ None :: (Some <$> seq 0 (length (rr_targets router))).
Proof.
  unfold route_slot. destruct (match_index router path) as [idx|]; simpl; [|by left].
  case_bool_decide; [by left|]. right. apply list_elem_of_fmap. exists idx. split; [done|]. apply elem_of_seq. lia.
Qed.

(** The slots in the order close goes through them. *)
Definition all_slots : list slot := None :: (Some <$> seq 0 (length (rr_targets router))).


End DeleterSpec.

(** ** Two stores and patterns that end in a star *)

Definition star_matches (pattern path : str) : bool :=
  match strip_prefix (b "*") (rev pattern) with
  | Some prefix => starts_with (rev prefix) path
  | None => bool_decide (pattern = path)
  end.
#[export] Instance Star_globs : GlobCrate (list ascii) (list (list ascii)) := {|
  glob_new pattern := if bool_decide (pattern = []) then Err (b "empty pattern") else Ok pattern;
  globset_build gs := Ok gs;
  globset_matches gs path := filter (fun i => from_option (fun g => star_matches g path) false (gs !! i) = true) (seq 0 (length gs));
|}.
#[export] Instance Star_laws : GlobLaws (list ascii) (list (list ascii)).
Proof.
  refine {| glob_is_match := star_matches |}; simpl.
  - intros pattern. by case_bool_decide.
  - done.
  - intros gs set path i [= <-]. rewrite list_elem_of_filter, elem_of_seq. split.
    + intros [Hm _]. destruct (gs !! i) as [g|]; [|done]. by exists g.
    + intros (g & Hi & Hm). rewrite Hi. split; [done|]. apply lookup_lt_Some in Hi. lia.
Defined.

(** A deleter of a numbered store; it deletes when it is closed, and fails for the
    store that is out of order. *)
Record StoreWorld : Type := mkStores { sw_gone : gmap nat (gset target); sw_broken : option nat }.
Record StoreDeleter : Type := mkStoreDeleter { sd_store : nat; sd_queue : gset target }.
Definition store_gone (w : StoreWorld) (n : nat) : gset target := default ∅ (sw_gone w !! n).

#[export] Instance StoreDeleter_Delete : Delete (StoreWorld * StoreDeleter) := {|
  d_delete path args := fun '(w, x) => (Ok tt, (w, mkStoreDeleter (sd_store x) ({[(path, args)]} ∪ sd_queue x)));
  d_close := fun '(w, x) =>
    if bool_decide (sw_broken w = Some (sd_store x)) then (Err (error Unexpected "store is broken"), (w, x))
    else (Ok tt, (mkStores (<[sd_store x := store_gone w (sd_store x) ∪ sd_queue x]> (sw_gone w)) (sw_broken w),
                  mkStoreDeleter (sd_store x) ∅)) |}.
Definition store_access (n : nat) : Access StoreWorld unit unit unit StoreDeleter unit :=
  let base := unsupported_access (Dl := StoreDeleter) (fun _ => info_default) in
  {| a_info := a_info base; a_create_dir := a_create_dir base; a_stat := a_stat base; a_read := a_read base;
     a_write := a_write base; a_delete := mret (mkStoreDeleter n ∅); a_list := a_list base; a_copy := a_copy base;
     a_rename := a_rename base |}.

Definition sample_routes : list (RouteEntry (W := StoreWorld) (Rd := unit) (Wr := unit) (Ls := unit) (Dl := StoreDeleter) (Cp := unit)) :=
  route (b "img/*") (store_access 2) (route (b "img/raw*") (store_access 1) []).
Definition sample_router : RouteRouter (GS := list (list ascii)) :=
  mkRouter [b "img/raw*"; b "img/*"] (re_accessor <$> sample_routes).

Lemma route_first_match_witness :
  route_build (GS := list (list ascii)) sample_routes = Ok sample_router /\
  select sample_router (b "img/raw1") (store_access 0) = first_route sample_routes (b "img/raw1") (store_access 0).
Proof.
  split; [reflexivity|]. exact (route_first_match (GS := list (list ascii)) sample_routes (b "img/raw1") (store_access 0)).
Defined.

Definition sample_store_of (k : slot) : nat := match k with None => 0 | Some 0 => 1 | Some 1 => 2 | Some _ => 0 end.
#[export] Instance sample_log : RouteLog sample_router (store_access 0).
Proof.
  refine {| store_of := sample_store_of; owner := sd_store; queued := sd_queue; gone := store_gone |}.
  - intros k w r w' E. assert (slot_accessor sample_router (store_access 0) k = store_access (sample_store_of k)) as Ek.
    { destruct k as [[|[|k]]|]; reflexivity. }
    rewrite Ek in E. simpl in E. unfold mret, M_ret in E. simplify_eq. split_and!; [done..|]. by intros x [= <-].
  - intros path args w x r w' x' E. simpl in E. simplify_eq. simpl. split_and!; try done; set_solver.
  - intros w x r w' x' E. simpl in E. case_bool_decide; simplify_eq; simpl.
    + split_and!; try done; set_solver.
    + assert (forall n, store_gone (mkStores (<[sd_store x := store_gone w (sd_store x) ∪ sd_queue x]> (sw_gone w)) (sw_broken w)) n =
        if bool_decide (n = sd_store x) then store_gone w (sd_store x) ∪ sd_queue x else store_gone w n) as Hg.
      { intros n. unfold store_gone. simpl. case_bool_decide; [subst; by rewrite lookup_insert_eq|by rewrite lookup_insert_ne]. }
      rewrite !Hg, bool_decide_eq_true_2 by done. split_and!; try done; try set_solver.
      intros n Hn. by rewrite Hg, bool_decide_eq_false_2.
Defined.

(** Three deletes to two stores, the second of which is broken: the first is
    emptied all the same. *)
Definition sample_targets : list target :=
  [(b "img/raw1", op_delete); (b "doc", op_delete); (b "img/a", op_delete)].
Definition broken_world : StoreWorld := mkStores ∅ (Some 2).

Definition sample_deleted := route_deletes sample_router (store_access 0) sample_targets (broken_world, route_deleter_new sample_router).

Example broken_store_reported :
  sample_deleted.1 = sample_targets /\ is_ok (route_close sample_deleted.2).1 = false /\
  (closes (all_slots sample_router) sample_deleted.2).*1 = [None; Some 0; Some 1] /\
  (is_ok ∘ snd) <$> closes (all_slots sample_router) sample_deleted.2 = [true; true; false] /\
  (b "img/raw1", op_delete) ∈ store_gone (route_close sample_deleted.2).2.1 1.
Proof. split_and!; [reflexivity | vm_compute; reflexivity.. | apply (bool_decide_unpack _); vm_compute; exact I]. Qed.

