(* ===== verification/Text.v ===== *)
(** * Text: what the code uses of [str]

    Searching and splitting by a string, lines, words and UTF-8.  A [str] is its
    bytes, so a [bytes] that is valid UTF-8 is a [str] of the same bytes. *)

From S2P Require Import Prelude Errors Path Buffer.
From stdpp Require Import options.

Definition crlf : str := ["013"%char; "010"%char].

(** [String::from_utf8]: the well-formed byte sequences of the Unicode standard. *)
Fixpoint utf8 (l : list Z) : bool :=
  let between lo hi x := (lo <=? x)%Z && (x <=? hi)%Z in
  let tail := between 128%Z 191%Z in
  match l with
  | [] => true
  | x :: l1 =>
      if (x <? 128)%Z then utf8 l1
      else match l1 with
      | [] => false
      | y :: l2 =>
          if between 194%Z 223%Z x then tail y && utf8 l2
          else match l2 with
          | [] => false
          | z :: l3 =>
              if between 224%Z 239%Z x
              then between (if Z.eqb x 224 then 160 else 128)%Z (if Z.eqb x 237 then 159 else 191)%Z y && tail z && utf8 l3
              else match l3 with
              | [] => false
              | t :: l4 =>
                  between 240%Z 244%Z x && between (if Z.eqb x 240 then 144 else 128)%Z (if Z.eqb x 244 then 143 else 191)%Z y
                  && tail z && tail t && utf8 l4
              end
          end
      end
  end.
Definition valid_utf8 (value : bytes) : bool := utf8 ((fun x => Z.of_N (Byte.to_N x)) <$> value).
Definition from_utf8 (value : bytes) : option str :=
  if valid_utf8 value then Some (ascii_of_byte <$> value) else None.
(** [String::from_utf8_lossy]: what [Utf8Chunks] takes next, whether it is a character, and how long it is. *)
Definition utf8_step (l : list Z) : bool * nat :=
  let between lo hi x := (lo <=? x)%Z && (x <=? hi)%Z in
  let tail l n := match l !! n with Some y => between 128%Z 191%Z y | None => false end in
  match l with
  | [] => (true, 0)
  | x :: l1 =>
      let second lo hi := match l1 with y :: _ => between lo hi y | [] => false end in
      if (x <? 128)%Z then (true, 1)
      else if between 194%Z 223%Z x then if tail l 1 then (true, 2) else (false, 1)
      else if between 224%Z 239%Z x then
        if negb (second (if Z.eqb x 224 then 160 else 128)%Z (if Z.eqb x 237 then 159 else 191)%Z) then (false, 1)
        else if tail l 2 then (true, 3) else (false, 2)
      else if between 240%Z 244%Z x then
        if negb (second (if Z.eqb x 240 then 144 else 128)%Z (if Z.eqb x 244 then 143 else 191)%Z) then (false, 1)
        else if negb (tail l 2) then (false, 2)
        else if tail l 3 then (true, 4) else (false, 3)
      else (false, 1)
  end.
(** U+FFFD in UTF-8. *)
Definition replacement : str := ["239"%char; "191"%char; "189"%char].
Fixpoint lossy_loop (fuel : nat) (s : str) : str :=
  match fuel, s with
  | O, _ | _, [] => []
  | S fuel, _ =>
      let '(valid, n) := utf8_step ((fun c => Z.of_N (N_of_ascii c)) <$> s) in
      (if valid then take n s else replacement) ++ lossy_loop fuel (drop n s)
  end.
Definition from_utf8_lossy (s : str) : str := lossy_loop (length s) s.

(** [as_bytes]. *)
Definition as_bytes (s : str) : bytes := byte_of_ascii <$> s.

(** [s.find(pat)], [s.split(pat)] and [s.splitn(2, pat)] for a string [pat]. *)
Fixpoint find_str (pat s : str) : option nat :=
  if starts_with pat s then Some 0
  else match s with [] => None | _ :: s' => S <$> find_str pat s' end.

Fixpoint split_str_loop (fuel : nat) (pat s : str) : list str :=
  match fuel with
  | O => [s]
  | S fuel =>
      match find_str pat s with
      | Some i => take i s :: split_str_loop fuel pat (drop (i + length pat) s)
      | None => [s]
      end
  end.
Definition split_str (pat s : str) : list str := split_str_loop (length s) pat s.
Definition split_once (pat s : str) : option (str * str) :=
  match find_str pat s with Some i => Some (take i s, drop (i + length pat) s) | None => None end.

(** [s.lines()]: a line end is ["\n"] or ["\r\n"]; a last line without one is kept as it is. *)
Definition strip_cr (line : str) : str :=
  if ends_with ["013"%char] line then take (length line - 1) line else line.
Fixpoint lines_of (pieces : list str) : list str :=
  match pieces with
  | [] => []
  | [l] => if bool_decide (l = []) then [] else [l]
  | l :: rest => strip_cr l :: lines_of rest
  end.
Definition lines (s : str) : list str := lines_of (split "010"%char s).

(** [s.split_whitespace()]; the word so far is kept backwards. *)
Fixpoint words (fuel : nat) (word s : str) : list str :=
  let done_ := if bool_decide (word = []) then [] else [rev word] in
  match fuel with
  | O => done_
  | S fuel =>
      match s with
      | [] => done_
      | c :: s' =>
          match strip_any white_space s with
          | Some rest => done_ ++ words fuel [] rest
          | None => words fuel (c :: word) s'
          end
      end
  end.
Definition split_whitespace (s : str) : list str := words (S (length s)) [] s.

(** [s.parse::<u16>()]. *)
Definition parse_u16 (s : str) : option Z :=
  n ← parse_u64 s; if bool_decide (n <= 65535)%Z then Some n else None.

(** [to_ascii_lowercase]. *)
Definition lower_char (c : ascii) : ascii :=
  if bool_decide (65 <= N_of_ascii c <= 90)%N then ascii_of_N (N_of_ascii c + 32) else c.
Definition lower (s : str) : str := lower_char <$> s.

(** ** Lemmas *)

Lemma as_bytes_ascii bs : as_bytes (ascii_of_byte <$> bs) = bs.
Proof.
  unfold as_bytes. rewrite <- list_fmap_compose. rewrite <- (list_fmap_id bs) at 2. apply list_fmap_ext.
  intros i x _. apply byte_of_ascii_of_byte.
Qed.
Lemma ascii_as_bytes s : ascii_of_byte <$> as_bytes s = s.
Proof.
  unfold as_bytes. rewrite <- list_fmap_compose. rewrite <- (list_fmap_id s) at 2. apply list_fmap_ext.
  intros i x _. apply ascii_of_byte_of_ascii.
Qed.
(** A [str] is kept as it is. *)
Lemma utf8_step_valid l :
  utf8 l = true -> l <> [] -> exists n, utf8_step l = (true, S n) /\ S n <= length l /\ utf8 (drop (S n) l) = true.
Proof.
  destruct l as [|x l1]; [done|]. intros Hu _. cbn [utf8 utf8_step] in *.
  destruct (x <? 128)%Z eqn:H1; [exists 0; split_and!; [done | simpl; lia | done]|].
  destruct l1 as [|y l2]; [done|]. destruct ((194 <=? x)%Z && (x <=? 223)%Z) eqn:H2; simpl.
  { apply andb_true_iff in Hu as [-> Hu]. exists 1. split_and!; [done | simpl; lia | done]. }
  destruct l2 as [|z l3]; [done|]. destruct ((224 <=? x)%Z && (x <=? 239)%Z) eqn:H3; simpl.
  { apply andb_true_iff in Hu as [[Hy Hz]%andb_true_iff Hu]. rewrite Hy, Hz. exists 2. split_and!; [done | simpl; lia | done]. }
  destruct l3 as [|t l4]; [done|]. rewrite !andb_true_iff in Hu. destruct Hu as [[[[Hx Hy] Hz] Ht] Hu].
  rewrite <- andb_true_iff in Hx. rewrite <- andb_true_iff in Hy. rewrite <- andb_true_iff in Hz. rewrite <- andb_true_iff in Ht.
  rewrite Hx, Hy. simpl. rewrite Hz, Ht. exists 3. split_and!; [done | simpl; lia | done].
Qed.

Lemma to_N_ascii c : Byte.to_N (byte_of_ascii c) = N_of_ascii c.
Proof. by destruct c as [[] [] [] [] [] [] [] []]. Qed.

Lemma lossy_valid s : valid_utf8 (as_bytes s) = true -> from_utf8_lossy s = s.
Proof.
  unfold valid_utf8, as_bytes, from_utf8_lossy. rewrite <- list_fmap_compose.
  rewrite (list_fmap_ext _ (fun c => Z.of_N (N_of_ascii c)) s) by (intros; simpl; by rewrite to_N_ascii).
  assert (length s <= length s) as Hf by lia. revert Hf. generalize (length s) at 2 3. intros fuel. revert s.
  induction fuel as [|f IH]; intros s Hf Hu; [destruct s; simpl in *; (done || lia)|].
  destruct s as [|c s]; [done|]. destruct (utf8_step_valid _ Hu) as (n & E & Hn & Hd); [done|].
  cbn [lossy_loop]. rewrite E. rewrite <- fmap_drop in Hd. rewrite IH; [apply take_drop | | done].
  rewrite length_drop. simpl in *. lia.
Qed.

(** Inserting one after the other, the last entry of a name stays. *)
Lemma foldl_insert_last {V} (m : gmap (list ascii) V) (entries : list (str * V)) (name : str) :
  foldl (fun m entry => <[entry.1 := entry.2]> m) m entries !! name =
  match last (filter (fun entry => entry.1 = name) entries) with Some entry => Some entry.2 | None => m !! name end.
Proof.
  induction entries as [|[k v] entries IH] using rev_ind; [done|].
  rewrite foldl_app, filter_app, last_app. cbn [foldl fst snd]. destruct (decide (k = name)) as [->|Hne].
  - rewrite filter_cons_True by done. by rewrite lookup_insert_eq.
  - rewrite filter_cons_False by done. by rewrite lookup_insert_ne.
Qed.

Lemma as_bytes_app s t : as_bytes (s ++ t) = as_bytes s ++ as_bytes t.
Proof. apply fmap_app. Qed.

(** The first place [pat] is found in [x ++ pat] is after [x]. *)
Definition clear_of (pat x : str) : Prop := find_str pat (x ++ pat) = Some (length x).
#[export] Instance clear_of_dec pat x : Decision (clear_of pat x).
Proof. unfold clear_of. apply _. Defined.

Lemma starts_with_long pat l y : length pat <= length l -> starts_with pat (l ++ y) = starts_with pat l.
Proof.
  intros Hl. unfold starts_with. apply bool_decide_ext. split; [|apply prefix_app_r].
  intros [k Hk]. exists (drop (length pat) l).
  assert (take (length pat) (l ++ y) = pat) as E by (rewrite Hk; by rewrite take_app_length).
  rewrite take_app_le in E by done. rewrite <- E at 1. symmetry. apply take_drop.
Qed.

Lemma find_str_first pat x y : clear_of pat x -> find_str pat (x ++ pat ++ y) = Some (length x).
Proof.
  unfold clear_of. induction x as [|c x IH]; simpl.
  - intros _. destruct pat as [|p pat]; [by destruct y|]. cbn [app find_str].
    by rewrite (starts_with_app (p :: pat) y : starts_with _ (p :: pat ++ y) = true).
  - destruct (starts_with pat (c :: x ++ pat)) eqn:E; [done|].
    assert (starts_with pat (c :: x ++ pat ++ y) = false) as ->.
    { rewrite <- E. pose proof (starts_with_long pat (c :: x ++ pat) y) as Hl. simpl in Hl.
      rewrite <- app_assoc in Hl. apply Hl. rewrite length_app. lia. }
    intros Hf. destruct (find_str pat (x ++ pat)) as [i|]; [|done]. injection Hf as ->. by rewrite IH.
Qed.

Lemma split_once_first pat x y : clear_of pat x -> split_once pat (x ++ pat ++ y) = Some (x, y).
Proof.
  intros Hc. unfold split_once. rewrite (find_str_first _ _ _ Hc). rewrite take_app_length.
  by rewrite <- drop_drop, !drop_app_length.
Qed.

Lemma find_str_bound pat s i : find_str pat s = Some i -> i + length pat <= length s.
Proof.
  revert i. induction s as [|c s IH]; intros i; cbn [find_str].
  - destruct (starts_with pat []) eqn:E; [|done]. intros [= <-]. apply starts_with_true in E as [k E].
    apply (f_equal length) in E. rewrite length_app in E. simpl in *. lia.
  - destruct (starts_with pat (c :: s)) eqn:E.
    + intros [= <-]. apply starts_with_true in E as [k E]. rewrite E, length_app. simpl. lia.
    + destruct (find_str pat s) as [j|] eqn:Ej; [|done]. intros [= <-]. specialize (IH j eq_refl). simpl. lia.
Qed.

(** Every piece that was split off is shorter by the separator, so the length is
    enough fuel. *)
Lemma split_str_fuel pat s f g :
  pat <> [] -> length s <= f -> length s <= g -> split_str_loop f pat s = split_str_loop g pat s.
Proof.
  intros Hp. revert s g. induction f as [|f IH]; intros s g Hf Hg.
  - destruct s; [|simpl in *; lia]. destruct g; [done|]. cbn [split_str_loop]. destruct (find_str pat []) as [i|] eqn:E; [|done].
    apply find_str_bound in E. destruct pat; [done|]. simpl in E. lia.
  - cbn [split_str_loop]. destruct (find_str pat s) as [i|] eqn:E.
    + pose proof (find_str_bound _ _ _ E) as Hb. assert (length pat <> 0) by by destruct pat.
      destruct g as [|g]; [lia|]. cbn [split_str_loop]. rewrite E. f_equal. apply IH; rewrite length_drop; lia.
    + destruct g; cbn [split_str_loop]; [done|]. by rewrite E.
Qed.

Lemma split_str_first pat x y : pat <> [] -> clear_of pat x -> split_str pat (x ++ pat ++ y) = x :: split_str pat y.
Proof.
  intros Hp Hc. unfold split_str at 1. assert (length pat <> 0) by by destruct pat.
  destruct (length (x ++ pat ++ y)) as [|f] eqn:El; rewrite !length_app in El; [lia|]. simpl.
  rewrite (find_str_first _ _ _ Hc), take_app_length, <- drop_drop, !drop_app_length. f_equal.
  apply split_str_fuel; [done|lia|lia].
Qed.

Lemma split_str_none pat s : find_str pat s = None -> split_str pat s = [s].
Proof. intros E. unfold split_str. destruct s; [done|]. simpl length. cbn [split_str_loop]. by rewrite E. Qed.

(** A separator whose first byte is not repeated in it cannot start inside the
    text before it. *)
Lemma clear_of_unique c pat x : c ∉ pat -> find_str (c :: pat) x = None -> clear_of (c :: pat) x.
Proof.
  intros Hc. unfold clear_of. induction x as [|d x IH]; cbn [find_str app].
  - intros _. pose proof (starts_with_app (c :: pat) []) as E. rewrite app_nil_r in E. by rewrite E.
  - destruct (starts_with (c :: pat) (d :: x)) eqn:E; [done|]. intros Hn.
    destruct (find_str (c :: pat) x) eqn:Ex; [done|]. rewrite (IH eq_refl).
    destruct (starts_with (c :: pat) (d :: x ++ c :: pat)) eqn:E2; [exfalso|done].
    apply starts_with_true in E2 as [k [= -> E2]].
    destruct (decide (length pat <= length x)) as [Hl|Hl].
    + assert (starts_with (c :: pat) (c :: x) = true); [|congruence]. apply starts_with_true.
      exists (drop (length pat) x). simpl. f_equal. rewrite <- (take_drop (length pat) x) at 1. f_equal.
      apply (f_equal (take (length pat))) in E2. rewrite take_app_le, take_app_length in E2 by done. done.
    + apply Hc. assert (pat !! length x = Some c) as Hx; [|by eapply list_elem_of_lookup_2].
      apply (f_equal (fun l => l !! length x)) in E2. rewrite lookup_app_r, Nat.sub_diag in E2 by lia.
      rewrite lookup_app_l in E2 by lia. by rewrite <- E2.
Qed.
