(* ===== verification/Http.v ===== *)
(** * HTTP ([raw/http_util/{body,header,client,uri}.rs])

    The response body that checks its length, the conversion of headers, the
    client that puts them together and the writer of queries.  The types of the
    [http] crate and the client of [reqwest] are classes; their documentation is
    stated as laws where a theorem needs it.  A response has finitely many
    frames, each of which arrives or fails. *)

From S2P Require Import Prelude Errors Path Range Buffer Types Readers Text.
From stdpp Require Import options.

(** ** The [http] crate

    Header names are kept in lower case; values are bytes. *)
Class HttpCrate : Type := {
  HeaderMap : Type; Uri : Type; Method : Type; Version : Type; StatusCode : Type;
  hm_new : HeaderMap;
  hm_insert : str -> str -> HeaderMap -> HeaderMap;
  hm_get : HeaderMap -> str -> option str;
  hm_iter : HeaderMap -> list (str * str);
  name_from_str : str -> outcome str str;
  value_from_str : str -> outcome str str;
  value_to_str : str -> outcome str str;
  uri_from_str : str -> option Uri;
  uri_path : Uri -> str;
  uri_path_and_query : Uri -> option str;
  show_uri : Uri -> str;
  method_as_str : Method -> str;
  method_is_head : Method -> bool;
  version_debug : Version -> str;
  HTTP_11 : Version;
  status_from_u16 : Z -> outcome str StatusCode;
  status_ok : StatusCode;
}.

Record Request `{HttpCrate} : Type := mkRequest {
  rq_method : Method; rq_uri : Uri; rq_version : Version; rq_headers : HeaderMap; rq_body : Buffer;
}.
Record Response `{HttpCrate} (B : Type) : Type := mkResponse {
  rs_status : StatusCode; rs_version : Version; rs_headers : HeaderMap; rs_body : B;
}.
Arguments mkRequest {_}.
Arguments mkResponse {_ B}.
Arguments rs_status {_ B}.
Arguments rs_version {_ B}.
Arguments rs_headers {_ B}.
Arguments rs_body {_ B}.

(** [reqwest::Client] over the state [W] of the network. *)
Class Reqwest (W : Type) `{HttpCrate} : Type := {
  ReqwestError : Type;
  show_reqwest : ReqwestError -> str;
  is_request : ReqwestError -> bool;
  is_body : ReqwestError -> bool;
  is_decode : ReqwestError -> bool;
  url_from_str : str -> outcome str str;
  (** The answer, with the frames of its body. *)
  rq_send : Method -> str -> HeaderMap -> Version -> option Buffer ->
    M W ReqwestError (Response (list (outcome ReqwestError bytes)));
}.

(** ** [HttpBody] *)

Record HttpBody : Type := mkBody { hb_stream : list (result Buffer); hb_size : option Z; hb_consumed : Z }.
Definition http_body_new (stream : list (result Buffer)) (size : option Z) : HttpBody := mkBody stream size 0.
Definition map_inner (f : list (result Buffer) -> list (result Buffer)) (s : HttpBody) : HttpBody :=
  mkBody (f (hb_stream s)) (hb_size s) (hb_consumed s).

Definition http_body_check (s : HttpBody) : result unit :=
  match hb_size s with
  | None => Ok tt
  | Some expect =>
      let actual := hb_consumed s in
      let wrong (what : string) := mkError Unexpected
        (b "http response got too " ++ b what ++ b " data, expect: " ++ show_u64 expect ++ b ", actual: " ++ show_u64 actual)
        Permanent [] [] None in
      match Z.compare actual expect with
      | Eq => Ok tt
      | Lt => Err (set_temporary (wrong "little"))
      | Gt => Err (set_temporary (wrong "much"))
      end
  end.

#[export] Instance HttpBody_Read : Read HttpBody := fun s =>
  match hb_stream s with
  | Ok buf :: rest => (Ok buf, mkBody rest (hb_size s) (wrap64 (hb_consumed s + Z.of_nat (blen buf))))
  | Err e :: rest => (Err e, mkBody rest (hb_size s) (hb_consumed s))
  | Panic :: rest => (Panic, mkBody rest (hb_size s) (hb_consumed s))
  | [] => (_ ← http_body_check s; Ok Buffer.new, s)
  end.

Definition to_buffer (fuel : nat) : M HttpBody Error Buffer := read_all fuel.

(** ** Headers *)

Section Headers.
  Context `{HttpCrate}.
  (** [Timestamp::parse_rfc2822], of the [jiff] crate. *)
  Variable parse_rfc2822 : str -> result Z.

(** [parse_header_to_str] with a name that is one already. *)
Definition header_to_str (headers : HeaderMap) (name : str) : result (option str) :=
  match hm_get headers name with
  | None => Ok None
  | Some value =>
      Some <$> map_err (fun e => set_source e (with_context (b "header_name") name
                         (with_operation (b "http_util::parse_header_to_str")
                            (error Unexpected "header value must be valid utf-8 string but not")))) (value_to_str value)
  end.
Definition parse_header_to_str (headers : HeaderMap) (name : str) : result (option str) :=
  name ← map_err (fun _ => with_operation (b "http_util::parse_header_to_str")
                    (error Unexpected "header name must be valid http header name but not")) (name_from_str name);
  header_to_str headers name.

(** [.map(..).transpose()]. *)
Definition parsed {X} (f : str -> result X) (v : option str) : result (option X) :=
  match v with Some v => Some <$> f v | None => Ok None end.

Definition parse_location (headers : HeaderMap) := header_to_str headers (b "location").
Definition parse_cache_control (headers : HeaderMap) := header_to_str headers (b "cache-control").
Definition parse_content_length (headers : HeaderMap) : result (option Z) :=
  v ← header_to_str headers (b "content-length");
  parsed (parse_int (error Unexpected "header value is not valid integer")) v.
Definition parse_content_md5 (headers : HeaderMap) := parse_header_to_str headers (b "content-md5").
Definition parse_content_type (headers : HeaderMap) := header_to_str headers (b "content-type").
Definition parse_content_encoding (headers : HeaderMap) := header_to_str headers (b "content-encoding").
Definition parse_content_range (headers : HeaderMap) : result (option BytesContentRange) :=
  v ← header_to_str headers (b "content-range"); parsed content_range_from_str v.
Definition parse_last_modified (headers : HeaderMap) : result (option Z) :=
  v ← header_to_str headers (b "last-modified"); parsed parse_rfc2822 v.
Definition parse_etag (headers : HeaderMap) := header_to_str headers (b "etag").
Definition parse_content_disposition (headers : HeaderMap) := header_to_str headers (b "content-disposition").
Definition parse_multipart_boundary (headers : HeaderMap) : result (option str) :=
  v ← header_to_str headers (b "content-type");
  Ok (v ≫= fun v => split_str (b "boundary=") v !! 1).

(** [if let Some(v) = parsed { m.set(v) }]. *)
Definition set_if {X} (set : X -> Metadata -> Metadata) (v : option X) (m : Metadata) : Metadata :=
  match v with Some v => set v m | None => m end.
Definition parse_into_metadata (path : str) (headers : HeaderMap) : result Metadata :=
  let m := meta_new (if ends_with [slash] path then DIR else FILE) in
  v ← parse_cache_control headers; let m := set_if set_cache_control v m in
  v ← parse_content_length headers; let m := set_if set_content_length v m in
  v ← parse_content_type headers; let m := set_if set_content_type v m in
  v ← parse_content_encoding headers; let m := set_if set_content_encoding v m in
  v ← parse_content_range headers; let m := set_if set_content_length (v ≫= content_size) m in
  v ← parse_etag headers; let m := set_if set_etag v m in
  v ← parse_content_md5 headers; let m := set_if set_content_md5 v m in
  v ← parse_last_modified headers; let m := set_if set_last_modified v m in
  v ← parse_content_disposition headers; let m := set_if set_content_disposition v m in
  Ok m.

Definition parse_prefixed_headers (headers : HeaderMap) (prefix : str) : gmap str str :=
  list_to_map (rev (omap (fun '(name, value) =>
    stripped_key ← strip_prefix prefix name;
    match value_to_str value with Ok parsed_value => Some (stripped_key, parsed_value) | _ => None end) (hm_iter headers))).

Definition format_authorization_by_bearer (token : str) : result str :=
  if bool_decide (token = []) then Err (error Unexpected "can't build authorization header with empty token")
  else Ok (b "Bearer " ++ token).
(** [encode] is the [base64] crate's. *)
Definition format_authorization_by_basic (encode : str -> str) (username password : str) : result str :=
  if bool_decide (username = []) then Err (error Unexpected "can't build authorization header with empty username")
  else Ok (b "Basic " ++ encode (username ++ b ":" ++ password)).

Definition build_header_value (v : str) : result str :=
  map_err (fun e => set_source e (with_operation (b "http_util::build_header_value")
    (error ConfigInvalid "header value contains invalid characters"))) (value_from_str v).

End Headers.

(** ** [HttpFetch for reqwest::Client] and [HttpClient::send] *)

Section Client.
  Context {W : Type} `{Reqwest W}.

Definition is_temporary_error (e : ReqwestError) : bool := is_request e || is_body e || is_decode e.

(** Frames become buffers: empty ones are dropped, errors are converted. *)
Definition body_frames (uri : Uri) (frames : list (outcome ReqwestError bytes)) : list (result Buffer) :=
  map_err (fun e => set_source (show_reqwest e) (with_temporary (is_temporary_error e)
             (with_context (b "url") (show_uri uri) (with_operation (b "http_util::Client::send")
                (error Unexpected "read data from http response")))))
    <$> ((fmap from_bytes) <$> List.filter (fun x => match x with Ok [] => false | _ => true end) frames).

Definition fetch (req : Request) : M W Error (Response HttpBody) :=
  let uri := rq_uri req in
  let is_head := method_is_head (rq_method req) in
  url ← lift (map_err (fun e => set_source e (with_context (b "url") (show_uri uri)
                 (with_operation (b "http_util::Client::send::fetch") (error Unexpected "request url is invalid"))))
              (url_from_str (show_uri uri)));
  resp ← (fun w =>
    let '(r, w') := rq_send (rq_method req) url (rq_headers req) (rq_version req)
                      (if is_empty (rq_body req) then None else Some (rq_body req)) w in
    (map_err (fun e => set_source (show_reqwest e) (with_temporary (is_temporary_error e)
       (with_context (b "url") (show_uri uri) (with_operation (b "http_util::Client::send")
          (error Unexpected "send http request"))))) r, w'));
  content_length ← lift (
    if is_head then Ok None
    else enc ← parse_content_encoding (rs_headers resp);
         match enc with Some _ => Ok None | None => parse_content_length (rs_headers resp) end);
  mret (mkResponse (rs_status resp) (rs_version resp) (rs_headers resp)
          (http_body_new (body_frames uri (rs_body resp)) content_length)).

Definition http_send (fuel : nat) (req : Request) : M W Error (Response Buffer) :=
  resp ← fetch req;
  buffer ← lift ((to_buffer fuel (rs_body resp)).1);
  mret (mkResponse (rs_status resp) (rs_version resp) (rs_headers resp) buffer).

End Client.

(** ** What a response delivers *)

Section Delivery.
  Context {W : Type} `{Reqwest W}.
#[local] Set Default Proof Using "All".

(** The bytes of all frames, or the first failure. *)
Fixpoint frames_data (frames : list (outcome ReqwestError bytes)) : outcome ReqwestError bytes :=
  match frames with
  | [] => Ok []
  | Ok x :: rest => app x <$> frames_data rest
  | Err e :: _ => Err e
  | Panic :: _ => Panic
  end.

(** The length the body is checked against. *)
Definition expected_length (req : Request) (headers : HeaderMap) : result (option Z) :=
  if method_is_head (rq_method req) then Ok None
  else enc ← parse_content_encoding headers;
       match enc with Some _ => Ok None | None => parse_content_length headers end.

Definition delivers (out : result Buffer) (n : option Z) (before : Z) (bufs : list Buffer) (d : outcome ReqwestError bytes) : Prop :=
  match d with
  | Ok data =>
      if bool_decide (n = None \/ n = Some (before + Z.of_nat (length data))%Z)
      then exists body, out = Ok body /\ wf body /\ contents body = qcontents bufs ++ data
      else exists e, out = Err e /\ is_temporary e = true
  | Err x => exists e, out = Err e /\ source e = Some (show_reqwest x) /\ is_temporary e = is_temporary_error x
  | Panic => out = Panic
  end.

(** How many bytes arrive. *)
Definition frames_size (frames : list (outcome ReqwestError bytes)) : nat :=
  sum_list ((fun x => match x with Ok bs => length bs | _ => 0 end) <$> frames).

Lemma collected (xs : list Buffer) :
  qwf xs -> exists body, from_parts <$> flatten xs = Ok body /\ wf body /\ contents body = qcontents xs ++ [].
Proof.
  intros Hq. destruct (flatten_spec _ Hq) as (ys & -> & Hc). exists (from_parts ys).
  rewrite from_parts_contents, app_nil_r. split_and!; [done | apply from_parts_wf | done].
Qed.

Lemma body_end uri n fuel before bufs :
  qwf bufs -> delivers (collect_loop read_buf (S fuel) bufs (mkBody (body_frames uri []) n before)).1 n before bufs (Ok []).
Proof.
  intros Hq. cbn [collect_loop]. unfold mbind at 1, M_bind at 1, read_buf, HttpBody_Read, http_body_check. simpl.
  rewrite Z.add_0_r. destruct n as [n|].
  - destruct (Z.compare_spec before n) as [->|Hlt|Hgt]; simpl.
    + rewrite bool_decide_eq_true_2 by auto. by apply collected.
    + rewrite bool_decide_eq_false_2 by (intros [?|[= ?]]; [done|lia]). by eexists.
    + rewrite bool_decide_eq_false_2 by (intros [?|[= ?]]; [done|lia]). by eexists.
  - rewrite bool_decide_eq_true_2 by auto. simpl. by apply collected.
Qed.

Lemma delivers_more out n before bufs x d :
  delivers out n (before + Z.of_nat (length x)) (bufs ++ [from_bytes x]) d -> delivers out n before bufs (app x <$> d).
Proof.
  unfold delivers. destruct d as [data|e|]; simpl; [|done..].
  rewrite length_app, Nat2Z.inj_add, Z.add_assoc. case_bool_decide; [|done].
  intros (body & -> & Hwf & Hc). exists body. split_and!; [done..|]. rewrite Hc. unfold qcontents.
  rewrite fmap_app, concat_app. simpl. by rewrite app_nil_r, <- app_assoc.
Qed.

Lemma body_loop uri n frames fuel before bufs :
  qwf bufs -> length frames < fuel -> (0 <= before)%Z -> (before + Z.of_nat (frames_size frames) <= u64_max)%Z ->
  delivers (collect_loop read_buf fuel bufs (mkBody (body_frames uri frames) n before)).1 n before bufs (frames_data frames).
Proof.
  revert fuel before bufs. induction frames as [|x frames IH]; intros fuel before bufs Hq Hf Hb Hmax.
  all: destruct fuel as [|fuel]; [simpl in Hf; lia|].
  - by apply body_end.
  - simpl in Hf. unfold frames_size in Hmax. csimpl in Hmax. fold (frames_size frames) in Hmax. destruct x as [bs|e|].
    + cbn [frames_data]. destruct bs as [|c bs].
      * replace (app [] <$> frames_data frames) with (frames_data frames) by (by destruct (frames_data frames)).
        apply (IH (S fuel)); [done | lia | done | done].
      * apply delivers_more. cbn [collect_loop]. unfold mbind at 1, M_bind at 1. simpl read_buf. unfold read_buf at 1, HttpBody_Read at 1.
        simpl. rewrite wrap64_id by (unfold is_u64; simpl in Hmax; lia).
        apply (IH fuel); [|lia|lia|simpl in Hmax; lia]. apply Forall_app. split; [done|]. by repeat constructor.
    + cbn [collect_loop]. simpl. eexists. split_and!; try done. by destruct (is_temporary_error e).
    + done.
Qed.

(** C32.  Sending a request delivers a body whole or not at all: however the
    response is cut into frames, empty ones included, the body is all of their
    bytes if that is as many as the headers announce, or if there is nothing to
    compare with (no length, an encoded body, a HEAD request); with fewer or more
    bytes the call fails with a temporary error, and with a frame that fails it
    fails with that error. *)
Theorem http_send_exact fuel req w w' url resp n :
  url_from_str (show_uri (rq_uri req)) = Ok url ->
  rq_send (rq_method req) url (rq_headers req) (rq_version req)
    (if is_empty (rq_body req) then None else Some (rq_body req)) w = (Ok resp, w') ->
  expected_length req (rs_headers resp) = Ok n ->
  length (rs_body resp) < fuel -> (Z.of_nat (frames_size (rs_body resp)) <= u64_max)%Z ->
  match frames_data (rs_body resp) with
  | Ok data =>
      if bool_decide (n = None \/ n = Some (Z.of_nat (length data)))
      then exists body, http_send fuel req w = (Ok (mkResponse (rs_status resp) (rs_version resp) (rs_headers resp) body), w') /\
             wf body /\ contents body = data
      else exists e, http_send fuel req w = (Err e, w') /\ is_temporary e = true
  | Err x => exists e, http_send fuel req w = (Err e, w') /\ source e = Some (show_reqwest x) /\
               is_temporary e = is_temporary_error x
  | Panic => http_send fuel req w = (Panic, w')
  end.
Proof.
  intros Hurl Hsend Hlen Hf Hmax.
  pose proof (body_loop (rq_uri req) n (rs_body resp) fuel 0 [] qwf_nil Hf ltac:(lia) ltac:(lia)) as Hd.
  assert (http_send fuel req w = ((fun body => mkResponse (rs_status resp) (rs_version resp) (rs_headers resp) body) <$>
    (collect_loop read_buf fuel [] (mkBody (body_frames (rq_uri req) (rs_body resp)) n 0)).1, w')) as ->.
  { unfold http_send, fetch, mbind, M_bind, lift. rewrite Hurl. simpl. rewrite Hsend. simpl.
    unfold expected_length, mbind in Hlen. rewrite Hlen. unfold to_buffer, read_all, http_body_new. simpl.
    by destruct (collect_loop _ _ _ _).1. }
  unfold delivers in Hd. simpl. destruct (frames_data (rs_body resp)) as [data|x|]; [|by destruct Hd as (e & -> & ? & ?); exists e|by rewrite Hd].
  rewrite Z.add_0_l in Hd. case_bool_decide; [|by destruct Hd as (e & -> & ?); exists e].
  destruct Hd as (body & -> & Hwf & Hc). by exists body.
Qed.

End Delivery.

(** ** A small model of the crates, for examples *)

Module SimpleHttp.

Definition valid_name (k : str) : bool :=
  bool_decide (k <> [] /\ ("013"%char ∉ k) /\ ("010"%char ∉ k) /\ (":"%char ∉ k)).
Definition valid_value (v : str) : bool := bool_decide (("013"%char ∉ v) /\ ("010"%char ∉ v)).
Definition kept (kv : str * str) : bool := valid_name kv.1 && bool_decide (lower kv.1 = kv.1) && valid_value kv.2.

#[export] Instance simple_http : HttpCrate := {|
  HeaderMap := list (str * str); Uri := str; Method := str; Version := unit; StatusCode := Z;
  hm_new := [];
  hm_insert k v m := List.filter (fun kv => negb (bool_decide (kv.1 = k))) m ++ [(k, v)];
  hm_get m k := snd <$> List.find (fun kv => bool_decide (kv.1 = k)) (List.filter kept m);
  hm_iter m := List.filter kept m;
  name_from_str k := if valid_name k then Ok (lower k) else Err (b "invalid HTTP header name");
  value_from_str v := if valid_value v then Ok v else Err (b "failed to parse header value");
  value_to_str v := Ok v;
  uri_from_str s := Some s;
  uri_path s := match split "?"%char s with p :: _ => p | [] => s end;
  uri_path_and_query s := Some s;
  show_uri s := s;
  method_as_str m := m;
  method_is_head m := bool_decide (m = b "HEAD");
  version_debug _ := b "HTTP/1.1";
  HTTP_11 := tt;
  status_from_u16 n := if bool_decide (100 <= n < 1000)%Z then Ok n else Err (b "invalid status code");
  status_ok := 200%Z;
|}.

(** A server that gives the same answer to every request. *)
Definition Answer : Type := list (str * str) * list (outcome (list ascii) bytes).
#[export] Instance simple_client : Reqwest Answer := {|
  ReqwestError := list ascii;
  show_reqwest e := e;
  is_request _ := false;
  is_body _ := true;
  is_decode _ := false;
  url_from_str s := Ok s;
  rq_send _ _ _ _ _ w := (Ok (mkResponse 200%Z tt w.1 w.2), w);
|}.

Definition get_request : Request := mkRequest (b "GET") (b "http://h/a") tt [] Buffer.new.
Definition three_bytes : Answer := ([(b "content-length", b "3")], [Ok [x01]; Ok []; Ok [x02; x03]]).

Lemma http_send_exact_witness :
  exists body, http_send 9 get_request three_bytes = (Ok (mkResponse 200%Z tt three_bytes.1 body), three_bytes) /\
    wf body /\ contents body = [x01; x02; x03].
Proof.
  exact (http_send_exact 9 get_request three_bytes three_bytes (b "http://h/a") (mkResponse 200%Z tt three_bytes.1 three_bytes.2)
    (Some 3%Z) eq_refl eq_refl eq_refl ltac:(apply (bool_decide_unpack _); vm_compute; exact I)
    ltac:(apply (bool_decide_unpack _); vm_compute; exact I)).
Defined.

(** A body that a client other than [reqwest] makes of empty frames ends at the
    first of them: the rest is lost, and its length is not checked. *)
Theorem body_empty_frame_ends :
  exists buf s', to_buffer 9 (http_body_new [Ok (from_bytes [x01]); Ok Buffer.new; Ok (from_bytes [x02; x03])] (Some 3%Z)) = (Ok buf, s') /\
    contents buf = [x01].
Proof. eexists _, _. split; [vm_compute; reflexivity|reflexivity]. Qed.

End SimpleHttp.
