(* ===== verification/Multipart.v ===== *)
(** * Multipart messages ([raw/http_util/multipart.rs])

    Building [multipart/form-data], [mixed] and [related] messages and parsing the
    responses to batch requests.  What is built is compared with a decoder that
    follows RFC 2046; what is parsed with responses printed as RFC 2046 and
    RFC 9112 say. *)

From S2P Require Import Prelude Errors Path Range Buffer Types Text Http.
From stdpp Require Import options.

Definition dashes : str := b "--".
Definition blank_line : str := crlf ++ crlf.

(** [trait Part]. *)
Class Part (T : Type) : Type := {
  part_TYPE : str;
  part_format : T -> result Buffer;
  part_parse : str -> result T;
}.
Arguments part_TYPE T {_}.

Record Multipart (T : Type) : Type := mkMultipart { mp_boundary : str; mp_parts : list T }.
Arguments mkMultipart {T}.
Arguments mp_boundary {T}.
Arguments mp_parts {T}.

Section Messages.
  Context {T : Type} `{Part T}.

(** [uuid] is a random one, printed. *)
Definition multipart_new (uuid : str) : Multipart T := mkMultipart (b "opendal-" ++ uuid) [].
Definition with_boundary (boundary : str) (m : Multipart T) : Multipart T := mkMultipart boundary (mp_parts m).
Definition part (p : T) (m : Multipart T) : Multipart T := mkMultipart (mp_boundary m) (mp_parts m ++ [p]).

Fixpoint parse_pieces (pieces : list str) (m : Multipart T) : result (Multipart T) :=
  match pieces with
  | [] => Ok m
  | s :: rest =>
      if bool_decide (s = []) || starts_with dashes s then parse_pieces rest m
      else p ← part_parse s; parse_pieces rest (part p m)
  end.
Definition multipart_parse (bs : bytes) (m : Multipart T) : result (Multipart T) :=
  s ← ok_or (set_source (b "invalid utf-8 sequence") (error Unexpected "multipart response contains invalid utf-8 chars"))
        (from_utf8 bs);
  parse_pieces (split_str (dashes ++ mp_boundary m) s) m.

Definition pre_part (boundary : str) : Buffer := from_bytes (as_bytes (dashes ++ boundary ++ crlf)).
Fixpoint write_parts (boundary : str) (parts : list T) : result (list Buffer) :=
  match parts with
  | [] => Ok []
  | p :: rest =>
      buf ← part_format p;
      bufs ← write_parts boundary rest;
      Ok (pre_part boundary :: buf :: bufs)
  end.
Definition multipart_build (m : Multipart T) : result Buffer :=
  bufs ← write_parts (mp_boundary m) (mp_parts m);
  from_parts <$> flatten (bufs ++ [from_bytes (as_bytes (dashes ++ mp_boundary m ++ dashes ++ crlf))]).

(** [apply]: the headers and the body that are put into the request. *)
Definition multipart_apply (m : Multipart T) : result (str * str * Buffer) :=
  buf ← multipart_build m;
  Ok (b "multipart/" ++ part_TYPE T ++ b "; boundary=" ++ mp_boundary m, show_u64 (Z.of_nat (blen buf)), buf).

End Messages.

Section Parts.
  Context `{HttpCrate}.

(** [for (k, v) in headers.iter() { .. }], with the names some servers insist on. *)
Definition header_lines (rename : str -> str) (headers : HeaderMap) : str :=
  concat ((fun '(k, v) => rename k ++ b ": " ++ v ++ crlf) <$> hm_iter headers).

(** ** [FormDataPart] *)

Record FormDataPart : Type := mkFormData { fd_headers : HeaderMap; fd_content : Buffer }.
Definition quote : ascii := "034"%char.
Definition form_new (name : str) : result FormDataPart :=
  match value_from_str (b "form-data; name=" ++ [quote] ++ name ++ [quote]) with
  | Ok v => Ok (mkFormData (hm_insert (b "content-disposition") v hm_new) Buffer.new)
  | _ => Panic
  end.
Definition form_header (key value : str) (p : FormDataPart) : FormDataPart :=
  mkFormData (hm_insert key value (fd_headers p)) (fd_content p).
Definition form_content (content : Buffer) (p : FormDataPart) : FormDataPart := mkFormData (fd_headers p) content.
Definition form_rename (k : str) : str :=
  if bool_decide (k = b "content-disposition") then b "Content-Disposition" else k.
Definition form_format (p : FormDataPart) : result Buffer :=
  from_parts <$> flatten [from_bytes (as_bytes (header_lines form_rename (fd_headers p) ++ crlf));
                          fd_content p; from_bytes (as_bytes crlf)].
#[export] Instance FormDataPart_Part : Part FormDataPart := {|
  part_TYPE := b "form-data";
  part_format := form_format;
  part_parse _ := Err (error Unsupported "parse of form-data is not supported");
|}.

(** ** [RelatedPart] *)

Record RelatedPart : Type := mkRelated { rl_headers : HeaderMap; rl_content : Buffer }.
Definition related_new : RelatedPart := mkRelated hm_new Buffer.new.
Definition related_from_request (req : Request) : RelatedPart := mkRelated (rq_headers req) (rq_body req).
(** [Response::builder()]: status and version are the defaults. *)
Definition related_into_response (p : RelatedPart) : Response Buffer :=
  mkResponse status_ok HTTP_11 (rl_headers p) (rl_content p).
Definition related_header (key value : str) (p : RelatedPart) : RelatedPart :=
  mkRelated (hm_insert key value (rl_headers p)) (rl_content p).
Definition related_content (content : Buffer) (p : RelatedPart) : RelatedPart := mkRelated (rl_headers p) content.
Definition related_format (p : RelatedPart) : result Buffer :=
  from_parts <$> flatten (from_bytes (as_bytes (header_lines id (rl_headers p) ++ crlf)) ::
    if is_empty (rl_content p) then [] else [rl_content p; from_bytes (as_bytes crlf)]).
#[export] Instance RelatedPart_Part : Part RelatedPart := {|
  part_TYPE := b "related";
  part_format := related_format;
  part_parse _ := Err (error Unsupported "parsing multipart/related is not supported");
|}.

(** ** [MixedPart] *)

Record MixedPart : Type := mkMixed {
  mx_part_headers : HeaderMap; mx_version : Version; mx_headers : HeaderMap; mx_content : Buffer;
  mx_method : option Method; mx_uri : option Uri; mx_status_code : option StatusCode;
}.
(** [.parse().unwrap()] of a header value that is a constant. *)
Definition constant_header (key value : str) (headers : HeaderMap) : result HeaderMap :=
  match value_from_str value with Ok v => Ok (hm_insert key v headers) | _ => Panic end.
Definition mixed_part_headers : result HeaderMap :=
  h ← constant_header (b "content-type") (b "application/http") hm_new;
  constant_header (b "content-transfer-encoding") (b "binary") h.
Definition mixed_new (uri : str) : result MixedPart :=
  part_headers ← mixed_part_headers;
  uri ← expect (uri_from_str uri);
  Ok (mkMixed part_headers HTTP_11 hm_new Buffer.new None (Some uri) None).
Definition mixed_from_request (req : Request) : result MixedPart :=
  part_headers ← mixed_part_headers;
  uri ← expect (uri_from_str (default [slash] (uri_path_and_query (rq_uri req))));
  Ok (mkMixed part_headers (rq_version req) (rq_headers req) (rq_body req) (Some (rq_method req)) (Some uri) None).
Definition mixed_into_response (p : MixedPart) : Response Buffer :=
  mkResponse (default status_ok (mx_status_code p)) (mx_version p) (mx_headers p) (mx_content p).
Definition mixed_part_header (key value : str) (p : MixedPart) : MixedPart :=
  mkMixed (hm_insert key value (mx_part_headers p)) (mx_version p) (mx_headers p) (mx_content p)
    (mx_method p) (mx_uri p) (mx_status_code p).
Definition mixed_method (m : Method) (p : MixedPart) : MixedPart :=
  mkMixed (mx_part_headers p) (mx_version p) (mx_headers p) (mx_content p) (Some m) (mx_uri p) (mx_status_code p).
Definition mixed_version (v : Version) (p : MixedPart) : MixedPart :=
  mkMixed (mx_part_headers p) v (mx_headers p) (mx_content p) (mx_method p) (mx_uri p) (mx_status_code p).
Definition mixed_header (key value : str) (p : MixedPart) : MixedPart :=
  mkMixed (mx_part_headers p) (mx_version p) (hm_insert key value (mx_headers p)) (mx_content p)
    (mx_method p) (mx_uri p) (mx_status_code p).
Definition mixed_content (content : Buffer) (p : MixedPart) : MixedPart :=
  mkMixed (mx_part_headers p) (mx_version p) (mx_headers p) content (mx_method p) (mx_uri p) (mx_status_code p).

Definition mixed_rename (k : str) : str :=
  if bool_decide (k = b "content-type") then b "Content-Type"
  else if bool_decide (k = b "content-id") then b "Content-ID"
  else if bool_decide (k = b "content-transfer-encoding") then b "Content-Transfer-Encoding" else k.
Definition mixed_format (p : MixedPart) : result Buffer :=
  method ← expect (mx_method p);
  uri ← expect (mx_uri p);
  from_parts <$> flatten (from_bytes (as_bytes (
      header_lines mixed_rename (mx_part_headers p) ++ crlf ++
      method_as_str method ++ b " " ++ uri_path uri ++ b " " ++ version_debug (mx_version p) ++ crlf ++
      header_lines id (mx_headers p) ++ crlf)) ::
    if is_empty (mx_content p) then [] else [mx_content p; from_bytes (as_bytes crlf)]).

(** One header per line; lines without [": "] are skipped. *)
Fixpoint parse_header_lines (ls : list str) (headers : HeaderMap) : result HeaderMap :=
  match ls with
  | [] => Ok headers
  | line :: rest =>
      match split_once (b ": ") line with
      | Some (k, v) =>
          name ← map_err (fun e => set_source e (error Unexpected "multipart response contains invalid part header name"))
                   (name_from_str k);
          value ← map_err (fun e => set_source e (error Unexpected "multipart response contains invalid part header value"))
                    (value_from_str v);
          parse_header_lines rest (hm_insert name value headers)
      | None => parse_header_lines rest headers
      end
  end.

Definition mixed_parse (s : str) : result MixedPart :=
  let '(part_headers_content, http_response) := default (s, []) (split_once blank_line s) in
  part_headers ← parse_header_lines (lines part_headers_content) hm_new;
  let parts := split_str blank_line http_response in
  let headers_content := default [] (parts !! 0) in
  let body_content := default [] (parts !! 1) in
  let status_line := default [] (lines headers_content !! 0) in
  let status_code := default 200%Z (parse_u16 (default [] (split_whitespace status_line !! 1))) in
  headers ← parse_header_lines (drop 1 (lines headers_content)) hm_new;
  status ← map_err (fun e => set_source e (error Unexpected "multipart response contains invalid status code"))
             (status_from_u16 status_code);
  Ok (mkMixed part_headers HTTP_11 headers (from_bytes (as_bytes body_content)) None None (Some status)).

#[export] Instance MixedPart_Part : Part MixedPart := {|
  part_TYPE := b "mixed";
  part_format := mixed_format;
  part_parse := mixed_parse;
|}.

End Parts.

(** ** A decoder as RFC 2046 describes the format

    The delimiter between parts is a line break, two dashes and the boundary; the
    last one is followed by two dashes.  A part is header lines and, after an
    empty line, its content; without an empty line it has none. *)

Definition delimiter (boundary : str) : str := crlf ++ dashes ++ boundary.

Fixpoint decode_parts (fuel : nat) (boundary text : str) : option (list str) :=
  match fuel with
  | O => None
  | S fuel =>
      if starts_with dashes text then Some []
      else
        text ← strip_prefix crlf text;
        '(p, rest) ← split_once (delimiter boundary) text;
        ps ← decode_parts fuel boundary rest;
        Some (p :: ps)
  end.
Definition decode_message (boundary text : str) : option (list str) :=
  text ← strip_prefix (dashes ++ boundary) text; decode_parts (S (length text)) boundary text.

Fixpoint decode_part (fuel : nat) (text : str) : option (list (str * str) * str) :=
  match fuel with
  | O => None
  | S fuel =>
      if bool_decide (text = []) then Some ([], [])
      else match strip_prefix crlf text with
      | Some content => Some ([], content)
      | None =>
          '(line, rest) ← split_once crlf text;
          '(k, v) ← split_once (b ": ") line;
          '(headers, content) ← decode_part fuel rest;
          Some ((lower k, v) :: headers, content)
      end
  end.

(** What a kind of part promises: its bytes are a text and a line break, and the
    text is that of the headers and content it stands for. *)
Class PartText (T : Type) `{Part T} : Type := {
  part_text : T -> str;
  part_fields : T -> list (str * str) * str;
  part_valid : T -> Prop;
  format_law p buf : part_valid p -> part_format p = Ok buf -> wf buf /\ contents buf = as_bytes (part_text p ++ crlf);
  fields_law p : part_valid p -> decode_part (S (length (part_text p))) (part_text p) = Some (part_fields p);
}.

(** What the [http] crate promises of the headers it keeps. *)
Class HttpLaws `{HttpCrate} : Prop := {
  iter_law m k v : (k, v) ∈ hm_iter m ->
    k <> [] /\ lower k = k /\ ("013"%char ∉ k) /\ (":"%char ∉ k) /\ ("013"%char ∉ v);
}.

Lemma flatten_contents q : Forall wf q -> exists xs, flatten q = Ok xs /\ concat xs = concat (contents <$> q).
Proof.
  induction 1 as [|buf q Hb _ (xs & IH & Hxs)]; csimpl; [by exists []|].
  destruct (iterate_ok buf Hb) as (ys & -> & Hys). simpl. rewrite IH. simpl. eexists; split; [done|]. by rewrite concat_app, Hys, Hxs.
Qed.

Lemma flatten_parts q buf :
  Forall wf q -> from_parts <$> flatten q = Ok buf -> wf buf /\ contents buf = concat (contents <$> q).
Proof.
  intros Hq. destruct (flatten_contents q Hq) as (xs & -> & Hxs). intros [= <-].
  split; [apply from_parts_wf|]. by rewrite from_parts_contents.
Qed.

Lemma find_str_absent c pat x : c ∉ x -> find_str (c :: pat) x = None.
Proof.
  induction x as [|d x IH]; intros Hc; cbn [find_str].
  - destruct (starts_with (c :: pat) []) eqn:E; [|done]. by apply starts_with_true in E as [k E].
  - apply not_elem_of_cons in Hc as [Hne Hc]. destruct (starts_with (c :: pat) (d :: x)) eqn:E.
    + apply starts_with_true in E as [k [= -> _]]. done.
    + by rewrite IH.
Qed.
Lemma clear_of_absent c pat x : c ∉ pat -> c ∉ x -> clear_of (c :: pat) x.
Proof. intros Hp Hx. apply clear_of_unique; [done|]. by apply find_str_absent. Qed.

Section Building.
  Context {T : Type} `{PartText T}.
#[local] Set Default Proof Using "All".

(** The message as text. *)
Definition message_text (boundary : str) (parts : list T) : str :=
  concat ((fun p => dashes ++ boundary ++ crlf ++ part_text p ++ crlf) <$> parts) ++ dashes ++ boundary ++ dashes ++ crlf.

(** What follows the first boundary. *)
Definition after_boundary (boundary : str) (parts : list T) : str :=
  match parts with
  | [] => dashes ++ crlf
  | p :: rest => crlf ++ part_text p ++ crlf ++ message_text boundary rest
  end.
Lemma message_cut boundary parts : message_text boundary parts = (dashes ++ boundary) ++ after_boundary boundary parts.
Proof.
  unfold message_text, after_boundary. destruct parts as [|p parts]; cbn [fmap list_fmap concat]; by rewrite <- !app_assoc.
Qed.

Lemma write_parts_ok boundary parts bufs :
  Forall part_valid parts -> write_parts boundary parts = Ok bufs ->
  Forall wf bufs /\
  concat (contents <$> bufs) = as_bytes (concat ((fun p => dashes ++ boundary ++ crlf ++ part_text p ++ crlf) <$> parts)).
Proof.
  intros Hv. revert bufs. induction Hv as [|p parts Hp Hv IH]; intros bufs E; simpl in E; [by injection E as <-|].
  destruct (part_format p) as [buf|e|] eqn:Ef; [|done..]. destruct (format_law p buf Hp Ef) as [Hwf Hc].
  simpl in E. destruct (write_parts boundary parts) as [rest|e|] eqn:Er; [|done..]. injection E as <-.
  destruct (IH rest eq_refl) as [Hwfs Hcs]. split; [by repeat constructor|].
  cbn [fmap list_fmap concat]. fold (contents <$> rest). rewrite Hc, Hcs. unfold pre_part. change (contents (from_bytes ?x)) with x. rewrite !as_bytes_app, <- !app_assoc. done.
Qed.

Lemma build_text m buf :
  Forall part_valid (mp_parts m) -> multipart_build m = Ok buf ->
  wf buf /\ contents buf = as_bytes (message_text (mp_boundary m) (mp_parts m)).
Proof.
  intros Hv. unfold multipart_build. destruct (write_parts _ _) as [bufs|e|] eqn:E; [|done..].
  destruct (write_parts_ok _ _ _ Hv E) as [Hwf Hc]. cbn [mbind outcome_bind]. intros Hb.
  apply flatten_parts in Hb as [Hwfb Hcb]; [|apply Forall_app; by repeat constructor].
  split; [done|]. rewrite Hcb, fmap_app, concat_app, Hc. unfold message_text.
  cbn [fmap list_fmap concat]. by rewrite app_nil_r, !as_bytes_app.
Qed.

Lemma decode_parts_ok boundary parts fuel :
  "013"%char ∉ boundary -> Forall (fun p => find_str (delimiter boundary) (part_text p) = None) parts ->
  length parts < fuel ->
  decode_parts fuel boundary (after_boundary boundary parts) = Some (part_text <$> parts).
Proof.
  intros Hb. revert fuel. induction parts as [|p parts IH]; intros fuel Hc Hf; (destruct fuel as [|fuel]; [simpl in Hf; lia|]).
  { done. }
  apply Forall_cons in Hc as [Hp Hc]. cbn [decode_parts after_boundary].
  assert (starts_with dashes (crlf ++ part_text p ++ crlf ++ message_text boundary parts) = false) as ->.
  { apply bool_decide_eq_false. by intros [k [=]]. }
  rewrite strip_prefix_app. cbn [mbind option_bind].
  rewrite message_cut. change (crlf ++ (dashes ++ boundary) ++ ?x) with (delimiter boundary ++ x).
  rewrite split_once_first.
  - cbn [mbind option_bind]. rewrite IH by (done || (simpl in Hf; lia)). done.
  - apply clear_of_unique; [|done]. unfold dashes. simpl. rewrite !not_elem_of_cons. by split_and!.
Qed.

Lemma parts_shorter boundary parts : length parts <= length (after_boundary boundary parts).
Proof.
  induction parts as [|p parts IH]; cbn [after_boundary length]; [lia|]. rewrite !length_app, message_cut, !length_app.
  assert (length crlf = 2) by done. lia.
Qed.

(** C33.  A multipart message is read back as it was built: for every kind of part
    that keeps its promise, if the delimiter does not occur in the text of a part,
    a decoder that follows RFC 2046 finds exactly the parts of the message in
    order, each with its headers and its content. *)
Theorem multipart_roundtrip m buf :
  multipart_build m = Ok buf -> "013"%char ∉ mp_boundary m ->
  Forall part_valid (mp_parts m) ->
  Forall (fun p => find_str (delimiter (mp_boundary m)) (part_text p) = None) (mp_parts m) ->
  exists texts, decode_message (mp_boundary m) (ascii_of_byte <$> contents buf) = Some texts /\
    (fun t => decode_part (S (length t)) t) <$> texts = (fun p => Some (part_fields p)) <$> mp_parts m.
Proof.
  intros Hbuild Hb Hv Hc. destruct (build_text m buf Hv Hbuild) as [_ Ht].
  exists (part_text <$> mp_parts m). split.
  - rewrite Ht, ascii_as_bytes. unfold decode_message.
    rewrite message_cut.
    rewrite strip_prefix_app. cbn [mbind option_bind]. apply decode_parts_ok; [done..|].
    assert (length (mp_parts m) <= length (after_boundary (mp_boundary m) (mp_parts m))); [apply parts_shorter|lia].
  - rewrite <- list_fmap_compose. apply list_fmap_ext. intros i p Hp. simpl. apply fields_law.
    rewrite Forall_lookup in Hv. by eapply Hv.
Qed.

End Building.

(** *** The three kinds of parts keep the promise *)

Ltac compute_decision := apply (bool_decide_unpack _); vm_compute; exact I.

Lemma decode_part_mono f g text r : f <= g -> decode_part f text = Some r -> decode_part g text = Some r.
Proof.
  revert g text r. induction f as [|f IH]; intros g text r Hle; [done|]. destruct g as [|g]; [lia|]. cbn [decode_part].
  case_bool_decide; [done|]. destruct (strip_prefix crlf text); [done|].
  destruct (split_once crlf text) as [[line rest]|]; [|done]. cbn [mbind option_bind].
  destruct (split_once (b ": ") line) as [[k v]|]; [|done]. cbn [mbind option_bind].
  destruct (decode_part f rest) as [[hs c]|] eqn:E; [|done]. by rewrite (IH g rest (hs, c)) by (done || lia).
Qed.

Definition header_ok (rename : str -> str) (kv : str * str) : Prop :=
  rename kv.1 <> [] /\ lower (rename kv.1) = kv.1 /\ ("013"%char ∉ rename kv.1) /\ (":"%char ∉ rename kv.1) /\ ("013"%char ∉ kv.2).

Lemma decode_one k v rest fuel :
  k <> [] -> ("013"%char ∉ k) -> (":"%char ∉ k) -> ("013"%char ∉ v) ->
  decode_part (S fuel) (k ++ b ": " ++ v ++ crlf ++ rest) = '(hs, c) ← decode_part fuel rest; Some ((lower k, v) :: hs, c).
Proof.
  intros Hk Hcr Hcol Hv. replace (k ++ b ": " ++ v ++ crlf ++ rest) with ((k ++ b ": " ++ v) ++ crlf ++ rest)
    by (by rewrite <- !app_assoc).
  cbn [decode_part]. destruct k as [|x k]; [done|].
  rewrite bool_decide_eq_false_2 by done.
  assert (strip_prefix crlf (((x :: k) ++ b ": " ++ v) ++ crlf ++ rest) = None) as ->.
  { unfold strip_prefix, starts_with. rewrite bool_decide_eq_false_2; [done|]. intros [t [= -> _]]. apply Hcr. by left. }
  rewrite split_once_first. 2: { apply clear_of_absent; [by rewrite elem_of_cons, elem_of_nil; intros [?|?]|].
    rewrite !not_elem_of_app. split_and!; [done| |done]. compute_decision. }
  cbn [mbind option_bind]. rewrite split_once_first; [done|]. apply clear_of_absent; [|done]. compute_decision.
Qed.

Lemma decode_lines rename hs tail r n :
  Forall (header_ok rename) hs -> decode_part (S n) tail = Some r ->
  decode_part (length hs + S n) (concat ((fun '(k, v) => rename k ++ b ": " ++ v ++ crlf) <$> hs) ++ tail) = Some (hs ++ r.1, r.2).
Proof.
  intros Hok Htail. induction Hok as [|[k v] hs (Hk & Hl & Hcr & Hcol & Hv) Hok IH]; [by destruct r|].
  cbn [fmap list_fmap concat length Nat.add]. simpl in Hk, Hl, Hcr, Hcol, Hv.
  rewrite <- !app_assoc. rewrite decode_one by done.
  change (list_fmap _ _ ?f hs) with (f <$> hs). rewrite IH. cbn [mbind option_bind]. by rewrite Hl.
Qed.

Section Laws.
  Context `{HttpLaws}.
#[local] Set Default Proof Using "All".

Lemma iter_ok rename headers :
  (forall k, lower k = k -> k <> [] -> ("013"%char ∉ k) -> (":"%char ∉ k) ->
     rename k <> [] /\ lower (rename k) = k /\ ("013"%char ∉ rename k) /\ (":"%char ∉ rename k)) ->
  Forall (header_ok rename) (hm_iter headers).
Proof.
  intros Hr. apply Forall_forall. intros [k v] Hin. destruct (iter_law _ _ _ Hin) as (Hk & Hl & Hcr & Hcol & Hv).
  destruct (Hr k) as (? & ? & ? & ?); [done..|]. by split_and!.
Qed.

Lemma lines_longer rename headers : length (hm_iter headers) <= length (header_lines rename headers).
Proof.
  unfold header_lines. induction (hm_iter headers) as [|[k v] hs IH]; [done|].
  cbn [fmap list_fmap concat]. rewrite !length_app.
  assert (length crlf = 2) by done. cbn [length]. change (list_fmap _ _ ?f hs) with (f <$> hs). lia.
Qed.

(** Headers, an empty line and a content; or headers only. *)
Lemma headers_fields rename headers content :
  Forall (header_ok rename) (hm_iter headers) ->
  let text := header_lines rename headers ++ crlf ++ content in
  decode_part (S (length text)) text = Some (hm_iter headers, content).
Proof.
  intros Hok text. apply (decode_part_mono (length (hm_iter headers) + 1)).
  - unfold text. rewrite length_app. pose proof (lines_longer rename headers). lia.
  - unfold text, header_lines. rewrite (decode_lines rename (hm_iter headers) (crlf ++ content) ([], content) 0); [|done|].
    + by rewrite app_nil_r.
    + cbn [decode_part]. rewrite bool_decide_eq_false_2 by done. by rewrite strip_prefix_app.
Qed.

(** The text of a part: headers, then nothing or an empty line and a content. *)
Definition content_text (buf : Buffer) : str := ascii_of_byte <$> contents buf.
Lemma content_text_bytes buf : as_bytes (content_text buf) = contents buf.
Proof. apply as_bytes_ascii. Qed.

Lemma form_rename_ok k :
  lower k = k -> k <> [] -> ("013"%char ∉ k) -> (":"%char ∉ k) ->
  form_rename k <> [] /\ lower (form_rename k) = k /\ ("013"%char ∉ form_rename k) /\ (":"%char ∉ form_rename k).
Proof.
  intros. unfold form_rename. case_bool_decide as E; [|done]. rewrite E. split_and!; [done|by vm_compute|compute_decision..].
Qed.
Lemma mixed_rename_ok k :
  lower k = k -> k <> [] -> ("013"%char ∉ k) -> (":"%char ∉ k) ->
  mixed_rename k <> [] /\ lower (mixed_rename k) = k /\ ("013"%char ∉ mixed_rename k) /\ (":"%char ∉ mixed_rename k).
Proof.
  intros. unfold mixed_rename.
  repeat (case_bool_decide as E; [rewrite E; split_and!; [done|by vm_compute|compute_decision..]|clear E]). done.
Qed.

(** [FormDataPart]: the empty line and the content are always there. *)
#[export, refine] Instance FormDataPart_text : PartText FormDataPart := {|
  part_text p := header_lines form_rename (fd_headers p) ++ crlf ++ content_text (fd_content p);
  part_fields p := (hm_iter (fd_headers p), content_text (fd_content p));
  part_valid p := wf (fd_content p);
|}.
Proof.
  - intros p buf Hwf E. apply flatten_parts in E as [? Hc]; [|by repeat constructor]. split; [done|].
    rewrite Hc. cbn [fmap list_fmap concat]. change (contents (from_bytes ?x)) with x.
    rewrite app_nil_r, !as_bytes_app, content_text_bytes. by rewrite <- !app_assoc.
  - intros p _. apply headers_fields, iter_ok, form_rename_ok.
Defined.

(** Parts that leave the empty line out when there is no content. *)
Definition body_text (head : str) (content : Buffer) : str :=
  if is_empty content then head else head ++ crlf ++ content_text content.
Lemma body_format head content buf :
  wf content ->
  from_parts <$> flatten (from_bytes (as_bytes (head ++ crlf)) ::
    if is_empty content then [] else [content; from_bytes (as_bytes crlf)]) = Ok buf ->
  wf buf /\ contents buf = as_bytes (body_text head content ++ crlf).
Proof.
  intros Hwf E. unfold body_text. destruct (is_empty content); apply flatten_parts in E as [? Hc]; try by repeat constructor.
  all: split; [done|]; rewrite Hc; cbn [fmap list_fmap concat]; change (contents (from_bytes ?x)) with x;
    rewrite app_nil_r, !as_bytes_app, ?content_text_bytes, <- ?app_assoc; done.
Qed.

Lemma headers_only rename headers :
  Forall (header_ok rename) (hm_iter headers) ->
  decode_part (S (length (header_lines rename headers))) (header_lines rename headers) = Some (hm_iter headers, []).
Proof.
  intros Hok. apply (decode_part_mono (length (hm_iter headers) + 1)).
  - pose proof (lines_longer rename headers). lia.
  - unfold header_lines. rewrite <- (app_nil_r (concat _)).
    rewrite (decode_lines rename (hm_iter headers) [] ([], []) 0); [|done|done]. by rewrite app_nil_r.
Qed.

#[export, refine] Instance RelatedPart_text : PartText RelatedPart := {|
  part_text p := body_text (header_lines id (rl_headers p)) (rl_content p);
  part_fields p := (hm_iter (rl_headers p), content_text (rl_content p));
  part_valid p := wf (rl_content p);
|}.
Proof.
  - intros p buf Hwf E. by apply body_format in E.
  - intros p Hwf. unfold body_text, is_empty. case_bool_decide as Hz.
    + rewrite headers_only by (by apply iter_ok). do 2 f_equal. unfold content_text.
      apply contents_length in Hwf. rewrite Hz in Hwf. by destruct (contents (rl_content p)).
    + by apply headers_fields, iter_ok.
Defined.

(** The content of a [MixedPart] is the request it carries. *)
Definition request_text (p : MixedPart) : str :=
  match mx_method p, mx_uri p with
  | Some method, Some uri =>
      body_text (method_as_str method ++ b " " ++ uri_path uri ++ b " " ++ version_debug (mx_version p) ++ crlf ++
                 header_lines id (mx_headers p)) (mx_content p)
  | _, _ => []
  end.
#[export, refine] Instance MixedPart_text : PartText MixedPart := {|
  part_text p := header_lines mixed_rename (mx_part_headers p) ++ crlf ++ request_text p;
  part_fields p := (hm_iter (mx_part_headers p), request_text p);
  part_valid p := wf (mx_content p) /\ is_Some (mx_method p) /\ is_Some (mx_uri p);
|}.
Proof.
  - intros p buf (Hwf & [method Hm] & [uri Hu]) E. simpl in E. unfold mixed_format, request_text in *.
    rewrite Hm, Hu in *. cbn [expect mbind outcome_bind] in E.
    replace (header_lines mixed_rename (mx_part_headers p) ++ crlf ++ body_text _ (mx_content p)) with
      (body_text (header_lines mixed_rename (mx_part_headers p) ++ crlf ++ method_as_str method ++ b " " ++ uri_path uri ++ b " " ++
         version_debug (mx_version p) ++ crlf ++ header_lines id (mx_headers p)) (mx_content p))
      by (unfold body_text; destruct (is_empty (mx_content p)); by rewrite <- ?app_assoc).
    apply body_format; [done|]. by rewrite <- !app_assoc.
  - intros p _. apply headers_fields, iter_ok, mixed_rename_ok.
Defined.

End Laws.

(** ** Parsing the responses to a batch *)

(** Lines, each after a line break. *)
Definition joined (s0 : str) (ls : list str) : str := s0 ++ concat (app crlf <$> ls).
Definition line_ok (l : str) : Prop := l <> [] /\ ("013"%char ∉ l) /\ ("010"%char ∉ l).

Lemma clear_skip c x : c <> "013"%char -> clear_of blank_line x -> clear_of blank_line (c :: x).
Proof.
  unfold clear_of. intros Hc Hx. cbn [app find_str]. rewrite Hx.
  destruct (starts_with blank_line (c :: x ++ blank_line)) eqn:E; [|done]. by apply starts_with_true in E as [k [= ? _]].
Qed.
Lemma clear_skips s x : ("013"%char ∉ s) -> clear_of blank_line x -> clear_of blank_line (s ++ x).
Proof.
  induction s as [|c s IH]; intros Hs Hx; [done|]. apply not_elem_of_cons in Hs as [Hc Hs]. apply clear_skip; [done|]. by apply IH.
Qed.
Lemma clear_break l x : line_ok l -> clear_of blank_line (l ++ x) -> clear_of blank_line (crlf ++ l ++ x).
Proof.
  intros (Hne & Hcr & _) Hx. destruct l as [|d l]; [done|]. apply not_elem_of_cons in Hcr as [Hd _].
  assert (clear_of blank_line ("010"%char :: (d :: l) ++ x)) as Hx1 by by apply clear_skip.
  unfold clear_of in *. unfold crlf. cbn [app find_str] in *. rewrite Hx1.
  match goal with |- (if ?e then _ else _) = _ => destruct e eqn:E end; [|done].
  apply starts_with_true in E as [k [= E _]]. done.
Qed.

Lemma joined_clear s0 ls : ("013"%char ∉ s0) -> Forall line_ok ls -> clear_of blank_line (joined s0 ls).
Proof.
  intros Hs Hls. revert s0 Hs. induction Hls as [|l ls Hl Hls IH]; intros s0 Hs; apply clear_skips; try done.
  cbn [fmap list_fmap concat]. rewrite <- app_assoc. apply clear_break; [done|]. apply (IH l). apply Hl.
Qed.

Lemma strip_cr_snoc s : strip_cr (s ++ ["013"%char]) = s.
Proof. unfold strip_cr. rewrite ends_with_app. rewrite length_app. simpl. by rewrite Nat.add_sub, take_app_length. Qed.

Lemma lines_joined s0 ls :
  ("010"%char ∉ s0) -> s0 <> [] \/ ls <> [] -> Forall line_ok ls -> lines (joined s0 ls) = s0 :: ls.
Proof.
  intros Hs Hne Hls. revert s0 Hs Hne. induction Hls as [|l ls Hl Hls IH]; intros s0 Hs Hne; unfold lines, joined.
  - destruct Hne as [Hne|]; [|done]. cbn [fmap list_fmap concat]. rewrite app_nil_r, split_no_sep by done. simpl.
    by rewrite bool_decide_eq_false_2.
  - cbn [fmap list_fmap concat]. replace (s0 ++ (crlf ++ l) ++ _) with ((s0 ++ ["013"%char]) ++ "010"%char :: joined l ls).
    2: { unfold joined. by rewrite <- !app_assoc. }
    rewrite split_app_sep by (rewrite not_elem_of_app; split; [done|compute_decision]).
    destruct Hl as (Hl & _ & Hlf). pose proof (IH l Hlf (or_introl Hl)) as E. unfold lines in E.
    destruct (split "010"%char (joined l ls)) as [|x xs] eqn:Ex; [by apply split_not_nil in Ex|].
    change (strip_cr (s0 ++ ["013"%char]) :: lines_of (x :: xs) = s0 :: l :: ls). by rewrite strip_cr_snoc, E.
Qed.

(** The status line's second word. *)
Definition starts_none (c : ascii) (ws : list str) : bool :=
  forallb (fun w => match w with x :: _ => negb (Ascii.eqb x c) | [] => false end) ws.
Definition plain (c : ascii) : bool := starts_none c white_space.
Lemma strip_any_skip c s ws ws' : starts_none c ws = true -> strip_any (ws ++ ws') (c :: s) = strip_any ws' (c :: s).
Proof.
  induction ws as [|w ws IH]; [done|]. cbn [starts_none forallb strip_any app].
  intros [Hw Hws]%andb_true_iff. destruct w as [|x w]; [done|]. unfold strip_prefix at 1.
  destruct (starts_with (x :: w) (c :: s)) eqn:E; [|by apply IH].
  apply starts_with_true in E as [k [= -> _]]. by rewrite Ascii.eqb_refl in Hw.
Qed.
Lemma plain_strip c s : plain c = true -> strip_any white_space (c :: s) = None.
Proof. intros Hc. rewrite <- (app_nil_r white_space). by rewrite strip_any_skip. Qed.
Lemma space_strip s : strip_any white_space (" "%char :: s) = Some s.
Proof.
  rewrite <- (take_drop 5 white_space), strip_any_skip by (vm_compute; reflexivity).
  change (drop 5 white_space) with ([" "%char] :: drop 6 white_space). cbn [strip_any].
  by rewrite (strip_prefix_app [" "%char] s : strip_prefix _ (" "%char :: s) = _).
Qed.

Lemma words_plain w acc s fuel :
  Forall (fun c => plain c = true) w -> words (length w + fuel) acc (w ++ s) = words fuel (rev w ++ acc) s.
Proof.
  intros Hw. revert acc. induction Hw as [|c w Hc Hw IH]; intros acc; [done|].
  cbn [length Nat.add app words]. rewrite plain_strip by done. rewrite IH. f_equal. simpl. by rewrite <- app_assoc.
Qed.
Lemma words_space w s fuel :
  w <> [] -> Forall (fun c => plain c = true) w -> words (length w + S fuel) [] (w ++ " "%char :: s) = w :: words fuel [] s.
Proof.
  intros Hne Hw. rewrite words_plain by done. rewrite app_nil_r. cbn [words].
  rewrite bool_decide_eq_false_2 by (intros E; apply Hne; by rewrite <- (rev_involutive w), E).
  by rewrite space_strip, rev_involutive.
Qed.

Lemma digit_plain c : digit_value c <> None -> plain c = true.
Proof. destruct c as [[] [] [] [] [] [] [] []]; vm_compute; [done || congruence..]. Qed.

Definition status_line (code : Z) (reason : str) : str := b "HTTP/1.1 " ++ show_u64 code ++ b " " ++ reason.
Lemma status_word code reason : split_whitespace (status_line code reason) !! 1 = Some (show_u64 code).
Proof.
  unfold split_whitespace, status_line. change (b "HTTP/1.1 " ++ ?x) with (b "HTTP/1.1" ++ " "%char :: x).
  change (b " " ++ reason) with (" "%char :: reason). rewrite !length_app. cbn [length]. rewrite length_app. cbn [length].
  replace (S (length (b "HTTP/1.1") + S (length (show_u64 code) + S (length reason))))
    with (length (b "HTTP/1.1") + S (length (show_u64 code) + S (S (length reason)))) by lia.
  rewrite words_space; [|done|by repeat constructor].
  rewrite words_space; [done|apply show_u64_not_nil|].
  apply Forall_forall. intros c Hc. apply digit_plain. intros E. by apply (show_u64_no_sep code c E).
Qed.

Section Responses.
  Context `{HttpCrate}.
#[local] Set Default Proof Using "All".

(** A response as a server prints it; what follows the empty line after its
    headers is its body and whatever comes before the next boundary. *)
Record BatchResponse : Type := mkBatch {
  br_part_headers : list (str * str); br_status : Z; br_code : StatusCode; br_reason : str;
  br_headers : list (str * str); br_rest : str;
}.
Definition printed_line (kv : str * str) : str := kv.1 ++ b ": " ++ kv.2.
Definition print_response (r : BatchResponse) : str :=
  crlf ++ concat ((fun kv => printed_line kv ++ crlf) <$> br_part_headers r) ++ crlf ++
  status_line (br_status r) (br_reason r) ++ crlf ++
  concat ((fun kv => printed_line kv ++ crlf) <$> br_headers r) ++ crlf ++ br_rest r.
Definition print_batch (boundary : str) (rs : list BatchResponse) (trailer : str) : str :=
  concat ((fun r => dashes ++ boundary ++ print_response r) <$> rs) ++ dashes ++ boundary ++ dashes ++ trailer.

Definition printed_ok (kv : str * str) : Prop :=
  name_from_str kv.1 = Ok (lower kv.1) /\ value_from_str kv.2 = Ok kv.2 /\ (":"%char ∉ kv.1) /\ line_ok (printed_line kv).
Record response_ok (r : BatchResponse) : Prop := mkResponseOk {
  ro_part_headers : Forall printed_ok (br_part_headers r);
  ro_headers : Forall printed_ok (br_headers r);
  ro_status : (0 <= br_status r <= 65535)%Z;
  ro_code : status_from_u16 (br_status r) = Ok (br_code r);
  ro_reason : ("013"%char ∉ br_reason r) /\ ("010"%char ∉ br_reason r);
}.

(** The part a response becomes: the body ends at the next empty line. *)
Definition inserted (hs : list (str * str)) : HeaderMap := foldl (fun m kv => hm_insert (lower kv.1) kv.2 m) hm_new hs.
Definition response_part (r : BatchResponse) : MixedPart :=
  mkMixed (inserted (br_part_headers r)) HTTP_11 (inserted (br_headers r))
    (from_bytes (as_bytes (default [] (split_str blank_line (br_rest r) !! 0)))) None None (Some (br_code r)).

Lemma parse_printed hs m :
  Forall printed_ok hs ->
  parse_header_lines (printed_line <$> hs) m = Ok (foldl (fun m kv => hm_insert (lower kv.1) kv.2 m) m hs).
Proof.
  intros Hok. revert m. induction Hok as [|[k v] hs (Hn & Hv & Hcol & _) Hok IH]; intros m; [done|].
  cbn [fmap list_fmap parse_header_lines]. unfold printed_line at 1. simpl in Hn, Hv, Hcol. cbn [fst snd].
  rewrite split_once_first by (apply clear_of_absent; [compute_decision|done]). rewrite Hn. cbn [map_err mbind outcome_bind].
  rewrite Hv. cbn [map_err mbind outcome_bind]. apply IH.
Qed.

(** The same lines with the line breaks before them. *)
Lemma breaks_before (ls : list str) : crlf ++ concat ((fun l => l ++ crlf) <$> ls) = concat (app crlf <$> ls) ++ crlf.
Proof.
  induction ls as [|l ls IH]; [done|]. cbn [fmap list_fmap concat]. rewrite <- !app_assoc. do 2 f_equal.
  change (list_fmap _ _ ?f ls) with (f <$> ls). by rewrite IH.
Qed.
Lemma printed_joined s0 hs rest :
  s0 ++ crlf ++ concat ((fun kv => printed_line kv ++ crlf) <$> hs) ++ crlf ++ rest =
  joined s0 (printed_line <$> hs) ++ blank_line ++ rest.
Proof.
  unfold joined, blank_line. rewrite <- !app_assoc. f_equal. rewrite !app_assoc. f_equal. rewrite <- breaks_before.
  by rewrite <- list_fmap_compose, <- app_assoc.
Qed.

Lemma printed_lines_ok hs : Forall printed_ok hs -> Forall line_ok (printed_line <$> hs).
Proof. intros Hok. apply Forall_fmap. eapply Forall_impl; [exact Hok|]. by intros kv (_ & _ & _ & ?). Qed.

Lemma parse_lines_joined hs :
  Forall printed_ok hs -> parse_header_lines (lines (joined [] (printed_line <$> hs))) hm_new = Ok (inserted hs).
Proof.
  intros Hok. destruct hs as [|kv hs]; [done|]. rewrite lines_joined; [|by apply not_elem_of_nil|by right|by apply printed_lines_ok].
  cbn [parse_header_lines]. change (split_once (b ": ") []) with (@None (str * str)). by apply parse_printed.
Qed.

Lemma mixed_parse_response r : response_ok r -> mixed_parse (print_response r) = Ok (response_part r).
Proof.
  intros [Hph Hh Hs Hcode [Hcr Hlf]]. unfold mixed_parse, print_response.
  pose proof (printed_joined [] (br_part_headers r)) as Ej. cbn [app] in Ej. rewrite Ej. clear Ej.
  rewrite split_once_first by (apply joined_clear; [by apply not_elem_of_nil|by apply printed_lines_ok]). cbn [default from_option id].
  rewrite parse_lines_joined by done. cbn [mbind outcome_bind].
  rewrite (printed_joined (status_line (br_status r) (br_reason r)) (br_headers r)).
  assert (forall c, digit_value c = None -> bool_decide (c ∈ b "HTTP/1.1 ") = false -> c ∉ br_reason r ->
    c ∉ status_line (br_status r) (br_reason r)) as Hst.
  { intros c Hd Hb Hr. unfold status_line. rewrite !not_elem_of_app. split_and!; [by apply bool_decide_eq_false in Hb|
      by apply show_u64_no_sep| |done]. intros Hsp. apply bool_decide_eq_false in Hb. apply Hb.
    apply list_elem_of_singleton in Hsp as ->. compute_decision. }
  assert (status_line (br_status r) (br_reason r) <> []) as Hne by done.
  rewrite split_str_first; [|done|apply joined_clear; [by apply Hst|by apply printed_lines_ok]].
  cbn [lookup list_lookup default from_option id].
  rewrite lines_joined; [|by apply Hst|by left|by apply printed_lines_ok].
  cbn [lookup list_lookup default from_option id drop]. rewrite status_word. cbn [default from_option id].
  unfold parse_u16. rewrite parse_show_u64 by (unfold is_u64, u64_max; lia). cbn [mbind option_bind].
  rewrite bool_decide_eq_true_2 by lia. cbn [default from_option id].
  rewrite drop_0, parse_printed by done. cbn [mbind outcome_bind]. by rewrite Hcode.
Qed.

Lemma parse_pieces_responses rs (m : Multipart MixedPart) trailer :
  Forall response_ok rs ->
  parse_pieces ((print_response <$> rs) ++ [dashes ++ trailer]) m =
  Ok (mkMultipart (mp_boundary m) (mp_parts m ++ (response_part <$> rs))).
Proof.
  intros Hok. revert m. induction Hok as [|r rs Hr Hok IH]; intros m.
  - cbn [fmap list_fmap app parse_pieces]. rewrite (starts_with_app dashes trailer), orb_true_r, app_nil_r. by destruct m.
  - cbn [fmap list_fmap app parse_pieces]. rewrite bool_decide_eq_false_2 by done.
    assert (starts_with dashes (print_response r) = false) as -> by (apply bool_decide_eq_false; by intros [k [=]]).
    cbn [orb part_parse MixedPart_Part]. rewrite mixed_parse_response by done. cbn [mbind outcome_bind].
    change (list_fmap _ _ ?f rs) with (f <$> rs). rewrite IH. simpl. by rewrite <- app_assoc.
Qed.

(** The responses to a batch are parsed as they were sent: in order, each
    with its part headers, its status and its headers; its body is what the server
    sent up to the next empty line. *)
Theorem batch_responses_parsed boundary rs trailer :
  Forall response_ok rs ->
  Forall (fun r => clear_of (dashes ++ boundary) (print_response r)) rs ->
  find_str (dashes ++ boundary) (dashes ++ trailer) = None ->
  valid_utf8 (as_bytes (print_batch boundary rs trailer)) = true ->
  multipart_parse (as_bytes (print_batch boundary rs trailer)) (mkMultipart boundary []) =
  Ok (mkMultipart boundary (response_part <$> rs)).
Proof.
  intros Hok Hclear Htrail Hutf. unfold multipart_parse, from_utf8. rewrite Hutf. cbn [ok_or mbind outcome_bind].
  rewrite ascii_as_bytes. cbn [mp_boundary].
  assert (forall rs, Forall (fun r => clear_of (dashes ++ boundary) (print_response r)) rs ->
    exists t, print_batch boundary rs trailer = (dashes ++ boundary) ++ t /\
      split_str (dashes ++ boundary) t = (print_response <$> rs) ++ [dashes ++ trailer]) as Hsplit.
  { clear Hok Hclear Hutf rs. induction 1 as [|r rs Hr _ (t & Et & Hs)].
    - exists (dashes ++ trailer). split; [unfold print_batch; by rewrite <- !app_assoc|]. by apply split_str_none.
    - exists (print_response r ++ (dashes ++ boundary) ++ t). split.
      + rewrite <- Et. unfold print_batch. cbn [fmap list_fmap concat]. by rewrite <- !app_assoc.
      + rewrite split_str_first, Hs by done. done. }
  destruct (Hsplit rs Hclear) as (t & -> & Hs).
  change ((dashes ++ boundary) ++ t) with ([] ++ (dashes ++ boundary) ++ t). rewrite split_str_first; [|done|].
  - rewrite Hs. cbn [parse_pieces]. rewrite bool_decide_eq_true_2 by done. cbn [orb]. by apply parse_pieces_responses.
  - unfold clear_of. cbn [app]. pose proof (starts_with_app (dashes ++ boundary) []) as E. rewrite app_nil_r in E.
    destruct (dashes ++ boundary) eqn:Ed; [done|]. cbn [find_str]. by rewrite E.
Qed.

End Responses.

(** ** Examples *)

Module SimpleMultipart.
Import SimpleHttp.

#[export] Instance simple_laws : HttpLaws.
Proof.
  split. intros m k v Hin. apply list_elem_of_In, filter_In in Hin as [_ Hk]. unfold kept, valid_name, valid_value in Hk.
  simpl in Hk. apply andb_true_iff in Hk as [[Hk Hl]%andb_true_iff Hv].
  apply bool_decide_eq_true in Hk, Hl, Hv. naive_solver.
Qed.

Definition sample_part : FormDataPart := mkFormData [(b "content-disposition", b "form-data")] (from_bytes [x61; x62]).
Definition sample_message : Multipart FormDataPart := mkMultipart (b "bound") [sample_part; form_content Buffer.new sample_part].
Definition sample_built : Buffer := match multipart_build sample_message with Ok x => x | _ => Buffer.new end.

Lemma multipart_roundtrip_witness :
  exists texts, decode_message (b "bound") (ascii_of_byte <$> contents sample_built) = Some texts /\
    (fun t => decode_part (S (length t)) t) <$> texts =
    [Some ([(b "content-disposition", b "form-data")], b "ab"); Some ([(b "content-disposition", b "form-data")], [])].
Proof.
  assert (multipart_build sample_message = Ok sample_built) as Hbuild by (vm_compute; reflexivity).
  assert ("013"%char ∉ mp_boundary sample_message) as Hb by compute_decision.
  assert (Forall part_valid (mp_parts sample_message)) as Hv by (repeat constructor).
  assert (Forall (fun p => find_str (delimiter (mp_boundary sample_message)) (part_text p) = None) (mp_parts sample_message)) as Hc.
  { apply Forall_cons. split; [vm_compute; reflexivity|]. apply Forall_cons. split; [vm_compute; reflexivity|constructor]. }
  exact (multipart_roundtrip sample_message sample_built Hbuild Hb Hv Hc).
Defined.

Definition sample_response : BatchResponse :=
  mkBatch [(b "Content-ID", b "0")] 404 404%Z (b "Not Found") [(b "Content-Type", b "text/plain")] (b "gone" ++ crlf).

Lemma batch_responses_parsed_witness :
  multipart_parse (as_bytes (print_batch (b "bound") [sample_response] crlf)) (mkMultipart (b "bound") []) =
  Ok (mkMultipart (b "bound") [response_part sample_response]).
Proof.
  assert (Forall response_ok [sample_response]) as Hok.
  { repeat constructor; try (vm_compute; reflexivity); try compute_decision; vm_compute; discriminate. }
  assert (Forall (fun r => clear_of (dashes ++ b "bound") (print_response r)) [sample_response]) as Hc.
  { repeat constructor; vm_compute; reflexivity. }
  exact (batch_responses_parsed (b "bound") [sample_response] crlf Hok Hc eq_refl eq_refl).
Defined.

(** The line break before the boundary, which RFC 2046 counts to the delimiter,
    stays in the body. *)
Theorem batch_body_keeps_break : contents (mx_content (response_part sample_response)) = as_bytes (b "gone" ++ crlf).
Proof. vm_compute. reflexivity. Qed.

(** A body with an empty line is cut there. *)
Theorem batch_body_cut_at_blank :
  contents (mx_content (response_part (mkBatch [] 200 200%Z [] [] (b "one" ++ blank_line ++ b "two" ++ crlf)))) = as_bytes (b "one").
Proof. vm_compute. reflexivity. Qed.

(** The query of a request is lost when it is put into a batch. *)
Definition batched (req : Request) : option str :=
  match mixed_from_request req with Ok p => Some (request_text p) | _ => None end.
Theorem mixed_request_loses_query :
  batched (mkRequest (b "DELETE") (b "/c/x?sig=abc") tt [] Buffer.new) = Some (b "DELETE /c/x HTTP/1.1" ++ crlf).
Proof. vm_compute. reflexivity. Qed.

End SimpleMultipart.
