(* ===== verification/Uris.v ===== *)
(** * URLs ([raw/http_util/uri.rs])

    Percent encoding of paths and the writer of query pairs.  The
    [percent_encoding] crate is a class with its documented behaviour: bytes of
    the set and bytes that are not ASCII become ["%"] and two upper-case digits,
    and such triplets are decoded. *)

From S2P Require Import Prelude Errors Path Buffer Text.
From stdpp Require Import options.

Definition hex_digit (n : N) : ascii := if bool_decide (n < 10)%N then ascii_of_N (48 + n) else ascii_of_N (55 + n).
Definition hex_value (c : ascii) : option N :=
  let n := N_of_ascii c in
  if bool_decide (48 <= n <= 57)%N then Some (n - 48)%N
  else if bool_decide (65 <= n <= 70)%N then Some (n - 55)%N
  else if bool_decide (97 <= n <= 102)%N then Some (n - 87)%N else None.
Definition percent : ascii := "%"%char.
Definition encode_char (set : ascii -> bool) (c : ascii) : str :=
  let n := N_of_ascii c in
  if bool_decide (128 <= n)%N || set c then [percent; hex_digit (n / 16); hex_digit (n mod 16)] else [c].

Class PercentEncoding : Type := {
  utf8_percent_encode : (ascii -> bool) -> str -> str;
  percent_decode : str -> str;
}.
Class PercentLaws `{PercentEncoding} : Prop := {
  encode_law set s : utf8_percent_encode set s = concat (encode_char set <$> s);
  decode_nil : percent_decode [] = [];
  decode_triplet h l s n m :
    hex_value h = Some n -> hex_value l = Some m ->
    percent_decode (percent :: h :: l :: s) = ascii_of_N (16 * n + m) :: percent_decode s;
  decode_other c s : c <> percent -> percent_decode (c :: s) = c :: percent_decode s;
}.

Definition alphanumeric (c : ascii) : bool :=
  let n := N_of_ascii c in bool_decide (48 <= n <= 57 \/ 65 <= n <= 90 \/ 97 <= n <= 122)%N.
Definition path_kept : str := b "/-_.!~*'()".
Definition PATH_ENCODE_SET (c : ascii) : bool :=
  bool_decide (N_of_ascii c < 128)%N && negb (alphanumeric c) && negb (bool_decide (c ∈ path_kept)).

Section Paths.
  Context `{PercentEncoding}.
Definition percent_encode_path (path : str) : str := utf8_percent_encode PATH_ENCODE_SET path.
Definition percent_decode_path (path : str) : str :=
  let v := percent_decode path in if valid_utf8 (as_bytes v) then v else path.
End Paths.

(** ** [QueryPairsWriter] *)

Record QueryPairsWriter : Type := mkQuery { qp_base : str; qp_has_query : bool }.
Definition query_new (s : str) : QueryPairsWriter := mkQuery s false.
Definition query_push (w : QueryPairsWriter) (key value : str) : QueryPairsWriter :=
  let base := qp_base w ++ (if qp_has_query w then b "&" else b "?") in
  let base := base ++ key in
  mkQuery (if bool_decide (value = []) then base else base ++ b "=" ++ value) true.
Definition query_finish (w : QueryPairsWriter) : str := qp_base w.

(** ** Round trips *)

(** What may stand in a path as it is. *)
Definition url_char (c : ascii) : bool := alphanumeric c || bool_decide (c ∈ path_kept) || bool_decide (c = percent).

(** A byte that is encoded decodes to itself; one that is not is allowed. *)
Definition byte_ok (c : ascii) : bool :=
  forallb url_char (encode_char PATH_ENCODE_SET c) &&
  match encode_char PATH_ENCODE_SET c with
  | [p; h; l] => bool_decide (p = percent) &&
      match hex_value h, hex_value l with
      | Some n, Some m => bool_decide (ascii_of_N (16 * n + m) = c)
      | _, _ => false
      end
  | [x] => bool_decide (x = c) && negb (bool_decide (x = percent))
  | _ => false
  end.
Lemma byte_ok_all c : byte_ok c = true.
Proof. destruct c as [[] [] [] [] [] [] [] []]; vm_compute; reflexivity. Qed.

Section RoundTrip.
  Context `{PercentLaws}.
#[local] Set Default Proof Using "All".

Lemma decode_encoded c s : percent_decode (encode_char PATH_ENCODE_SET c ++ s) = c :: percent_decode s.
Proof.
  pose proof (byte_ok_all c) as Hc. unfold byte_ok in Hc. apply andb_true_iff in Hc as [_ Hc].
  destruct (encode_char PATH_ENCODE_SET c) as [|p [|h [|l [|? ?]]]]; try done.
  - apply andb_true_iff in Hc as [->%bool_decide_eq_true Hp]. simpl. apply decode_other.
    by apply negb_true_iff, bool_decide_eq_false in Hp.
  - apply andb_true_iff in Hc as [->%bool_decide_eq_true Hx]. simpl.
    destruct (hex_value h) as [n|] eqn:Eh; [|done]. destruct (hex_value l) as [m|] eqn:El; [|done].
    rewrite (decode_triplet h l s n m Eh El). by apply bool_decide_eq_true in Hx as ->.
Qed.

Lemma encoded_chars path : Forall (fun c => url_char c = true) (percent_encode_path path).
Proof.
  unfold percent_encode_path. rewrite encode_law. induction path as [|c path IH]; [done|]. cbn [fmap list_fmap concat].
  apply Forall_app. split; [|done]. pose proof (byte_ok_all c) as Hc. unfold byte_ok in Hc. apply andb_true_iff in Hc as [Hc _].
  rewrite forallb_forall in Hc. apply Forall_forall. intros x Hx. by apply Hc, list_elem_of_In.
Qed.
Lemma percent_decode_encode path : percent_decode (percent_encode_path path) = path.
Proof.
  unfold percent_encode_path. rewrite encode_law. induction path as [|c path IH]; [apply decode_nil|].
  cbn [fmap list_fmap concat]. rewrite decode_encoded. by rewrite IH.
Qed.

(** Percent encoding of a path uses only the bytes a URL path may have, slashes
    are kept, and decoding gives the path back. *)
Theorem percent_path_roundtrip path :
  valid_utf8 (as_bytes path) = true ->
  Forall (fun c => url_char c = true) (percent_encode_path path) /\
  percent_decode_path (percent_encode_path path) = path.
Proof.
  intros Hutf. split; [apply encoded_chars|]. unfold percent_decode_path. by rewrite percent_decode_encode, Hutf.
Qed.

End RoundTrip.

(** Reading a URL: the part before the question mark, and the pairs. *)
Definition read_pair (s : str) : str * str :=
  match find_char "="%char s with Some i => (take i s, drop (S i) s) | None => (s, []) end.
Definition read_url (url : str) : str * list (str * str) :=
  match find_char "?"%char url with
  | Some i => (take i url, read_pair <$> split "&"%char (drop (S i) url))
  | None => (url, [])
  end.

Lemma find_char_first c x s : (c ∉ x) -> find_char c (x ++ c :: s) = Some (length x).
Proof.
  induction x as [|d x IH]; intros Hx; simpl; [by rewrite decide_True|]. apply not_elem_of_cons in Hx as [Hd Hx].
  rewrite decide_False by done. by rewrite IH.
Qed.
Lemma find_char_absent c x : (c ∉ x) -> find_char c x = None.
Proof.
  induction x as [|d x IH]; intros Hx; [done|]. apply not_elem_of_cons in Hx as [Hd Hx]. simpl.
  rewrite decide_False by done. by rewrite IH.
Qed.

Definition pair_ok (kv : str * str) : Prop := ("&"%char ∉ kv.1) /\ ("="%char ∉ kv.1) /\ ("&"%char ∉ kv.2).
Definition show_pair (kv : str * str) : str := if bool_decide (kv.2 = []) then kv.1 else kv.1 ++ b "=" ++ kv.2.
Lemma read_show_pair kv : pair_ok kv -> read_pair (show_pair kv) = kv.
Proof.
  destruct kv as [k v]. intros (_ & Hk & _). unfold read_pair, show_pair. simpl in *. case_bool_decide as Hv.
  - subst v. by rewrite find_char_absent.
  - change (k ++ b "=" ++ v) with (k ++ "="%char :: v). rewrite find_char_first, take_app_length by done.
    replace (S (length k)) with (length k + 1) by lia. by rewrite <- drop_drop, drop_app_length.
Qed.

Lemma show_pair_amp kv : pair_ok kv -> "&"%char ∉ show_pair kv.
Proof.
  intros (Hk & _ & Hv). unfold show_pair. case_bool_decide; [done|]. rewrite !not_elem_of_app. split_and!; [done| |done].
  apply (bool_decide_unpack _). vm_compute. exact I.
Qed.

Definition push_all (base : str) (pairs : list (str * str)) : QueryPairsWriter :=
  foldl (fun w kv => query_push w kv.1 kv.2) (query_new base) pairs.

Lemma pushed base pairs :
  push_all base pairs =
  mkQuery (base ++ match pairs with [] => [] | _ => "?"%char :: join (b "&") (show_pair <$> pairs) end)
          (negb (bool_decide (pairs = []))).
Proof.
  induction pairs as [|kv pairs IH] using rev_ind; [unfold push_all; simpl; by rewrite app_nil_r|].
  unfold push_all in *. rewrite foldl_app. cbn [foldl]. rewrite IH. unfold query_push. cbn [qp_base qp_has_query].
  rewrite (bool_decide_eq_false_2 (pairs ++ [kv] = [])) by (by destruct pairs). f_equal. destruct pairs as [|p pairs].
  - unfold show_pair. rewrite app_nil_r. cbn [app fmap list_fmap join].
    destruct (bool_decide (kv.2 = [])); by rewrite <- ?app_assoc.
  - rewrite (bool_decide_eq_false_2 (p :: pairs = [])) by done. cbn [negb].
    destruct ((p :: pairs) ++ [kv]) as [|x l] eqn:E; [done|]. rewrite <- E, fmap_app. clear E.
    change (show_pair <$> [kv]) with [show_pair kv]. rewrite join_snoc by done.
    replace (show_pair kv) with (if bool_decide (kv.2 = []) then kv.1 else kv.1 ++ b "=" ++ kv.2) by done.
    destruct (bool_decide (kv.2 = [])); by rewrite <- ?app_assoc.
Qed.

(** A URL written pair by pair is read back: the part before the question
    mark is the base, and the pairs are those that were pushed, in order, with
    empty values left out. *)
Theorem query_pairs_read_back base pairs :
  ("?"%char ∉ base) -> Forall pair_ok pairs -> read_url (query_finish (push_all base pairs)) = (base, pairs).
Proof.
  intros Hb Hok. rewrite pushed. unfold query_finish, read_url. cbn [qp_base]. destruct pairs as [|p pairs].
  { by rewrite app_nil_r, find_char_absent. }
  rewrite find_char_first, take_app_length by done. f_equal. replace (S (length base)) with (length base + 1) by lia.
  rewrite <- drop_drop, drop_app_length. change (drop 1 ("?"%char :: ?l)) with l.
  change (b "&") with ["&"%char]. rewrite split_join; [|done|].
  - rewrite <- list_fmap_compose. rewrite <- (list_fmap_id (p :: pairs)) at 2. apply list_fmap_ext.
    intros i kv Hkv. apply read_show_pair. rewrite Forall_lookup in Hok. by eapply Hok.
  - apply Forall_fmap. eapply Forall_impl; [exact Hok|]. intros kv. apply show_pair_amp.
Qed.

(** ** The crate, executable *)

Module SimplePercent.

Fixpoint decode (s : str) : str :=
  match s with
  | c :: ((h :: l :: rest) as t) =>
      if bool_decide (c = percent) then
        match hex_value h, hex_value l with
        | Some n, Some m => ascii_of_N (16 * n + m) :: decode rest
        | _, _ => c :: decode t
        end
      else c :: decode t
  | c :: t => c :: decode t
  | [] => []
  end.
#[export] Instance simple_percent : PercentEncoding := {|
  utf8_percent_encode set s := concat (encode_char set <$> s);
  percent_decode := decode;
|}.
#[export] Instance simple_percent_laws : PercentLaws.
Proof.
  split; [done|done| |].
  - intros h l s n m Hh Hl. cbn [percent_decode simple_percent decode]. rewrite bool_decide_eq_true_2 by done. by rewrite Hh, Hl.
  - intros c s Hc. destruct s as [|h [|l s]]; cbn [percent_decode simple_percent decode]; [done..|].
    by rewrite bool_decide_eq_false_2 by done.
Qed.

Definition some_path : str := b "a b/%41".
Lemma percent_path_roundtrip_witness :
  percent_encode_path some_path = b "a%20b/%2541" /\ percent_decode_path (percent_encode_path some_path) = some_path.
Proof. exact (conj eq_refl (proj2 (percent_path_roundtrip some_path eq_refl))). Defined.

Definition some_pairs : list (str * str) := [(b "list-type", b "2"); (b "delete", [])].
Lemma query_pairs_read_back_witness :
  query_finish (push_all (b "http://h/x") some_pairs) = b "http://h/x?list-type=2&delete" /\
  read_url (query_finish (push_all (b "http://h/x") some_pairs)) = (b "http://h/x", some_pairs).
Proof.
  assert ("?"%char ∉ b "http://h/x") as Hb by (apply (bool_decide_unpack _); vm_compute; exact I).
  assert (Forall pair_ok some_pairs) as Hp.
  { repeat constructor; apply (bool_decide_unpack _); vm_compute; exact I. }
  exact (conj eq_refl (query_pairs_read_back (b "http://h/x") some_pairs Hb Hp)).
Defined.

(** A base that has a query already gets a second question mark: the new pair is
    read as part of the old value. *)
Theorem query_base_with_query :
  read_url (query_finish (query_push (query_new (b "http://h/x?a=1")) (b "k") (b "v"))) = (b "http://h/x", [(b "a", b "1?k=v")]).
Proof. vm_compute. reflexivity. Qed.

End SimplePercent.
