(* ===== verification/Limits.v ===== *)
(** * Limiting concurrency and time
      ([layers/concurrent-limit/src/lib.rs], [layers/timeout/src/lib.rs])

    The concurrency limit takes a permit of a semaphore before a call reaches the
    service, and gives it back when the call ends, or when the handle the call
    returned is dropped.  Tasks interleave: a machine runs one step of one task at
    a time, a task may be cancelled between any two of them, and the semaphore
    counts its permits.  The timeout cancels calls that take too long; whether one
    does, and what a cancelled call leaves behind, are arguments. *)

From S2P Require Import Prelude Errors Path Range Buffer Types Access Http.
From stdpp Require Import options.

(** ** The concurrency limit *)

(** What a method does: whether it takes a permit, the call it makes, and whether
    the permit moves into the handle that comes back or is dropped on return. *)
Record Limited (A X : Type) : Type := mkLimited { lm_permit : bool; lm_call : M A Error X; lm_keep : bool }.
Arguments mkLimited {A X}.
Arguments lm_permit {A X}.
Arguments lm_call {A X}.
Arguments lm_keep {A X}.
(** [let _permit = acquire().await; inner.op().await] and
    [let permit = acquire().await; inner.op().await.map(|x| Wrapper::new(x, permit))]. *)
Definition scoped {A X} (m : M A Error X) : Limited A X := mkLimited true m false.
Definition kept_by_handle {A X} (m : M A Error X) : Limited A X := mkLimited true m true.

Section Accessor.
  Context {A Rd Wr Ls Dl Cp : Type}.
  Variable inner : Access A Rd Wr Ls Dl Cp.

Inductive Answer : Type :=
  | AUnit | AMeta (m : Metadata)
  | AReader (m : option Metadata) (r : Rd) | AWriter (w : Wr) | ALister (l : Ls) | ADeleter (d : Dl) | ACopier (c : Cp).
Definition answer {X} (f : X -> Answer) (m : M A Error X) : M A Error Answer := x ← m; mret (f x).

Definition limit_create_dir (path : str) := scoped (answer (fun _ => AUnit) (a_create_dir inner path)).
Definition limit_read (path : str) (args : OpRead) :=
  kept_by_handle (answer (fun x => AReader x.1 x.2) (a_read inner path args)).
Definition limit_write (path : str) (args : OpWrite) := kept_by_handle (answer AWriter (a_write inner path args)).
Definition limit_copy (from to : str) (args : OpCopy) (opts : OpCopier) :=
  kept_by_handle (answer ACopier (a_copy inner from to args opts)).
Definition limit_rename (from to : str) := scoped (answer (fun _ => AUnit) (a_rename inner from to)).
Definition limit_stat (path : str) (args : OpStat) := scoped (answer AMeta (a_stat inner path args)).
Definition limit_delete := kept_by_handle (answer ADeleter (a_delete inner)).
Definition limit_list (path : str) (args : OpList) := kept_by_handle (answer ALister (a_list inner path args)).

End Accessor.

(** [ConcurrentLimitHttpFetcher::fetch]: without a semaphore the request is just
    made; with one the body keeps the permit. *)
Definition limit_fetch {W} `{Reqwest W} (http_semaphore : bool) (req : Request) : Limited W (Response HttpBody) :=
  if http_semaphore then kept_by_handle (fetch req) else mkLimited false (fetch req) true.

(** ** Tasks that share a semaphore *)

Section Machine.
  Context {A X : Type}.
  (** Which answers are handles, which live on. *)
  Variable is_handle : X -> bool.

Inductive Task : Type :=
  | Waiting (l : Limited A X)
  | Running (l : Limited A X)
  | Holding (permit : bool) (handle : X)
  | Done.
Record System : Type := mkSystem { sy_free : nat; sy_tasks : list Task; sy_inner : A; sy_log : list (nat * result X) }.

(** A task starts a call, gets a permit, gets its answer, uses its handle, drops
    it; or its future is dropped, which leaves the service in some state. *)
Inductive Event : Type :=
  | EStart (l : Limited A X)
  | EAcquire (i : nat)
  | EAnswer (i : nat)
  | EUse (i : nat) (m : A * X -> A * X)
  | EDrop (i : nat)
  | ECancel (i : nat) (leave : A -> A).

Definition release (permit : bool) (free : nat) : nat := if permit then S free else free.
Definition set_task (i : nat) (t : Task) (s : System) : System :=
  mkSystem (sy_free s) (<[i := t]> (sy_tasks s)) (sy_inner s) (sy_log s).
Definition set_free (n : nat) (s : System) : System := mkSystem n (sy_tasks s) (sy_inner s) (sy_log s).
Definition set_inner (a : A) (s : System) : System := mkSystem (sy_free s) (sy_tasks s) a (sy_log s).

Definition lstep (e : Event) (s : System) : option System :=
  match e with
  | EStart l => Some (mkSystem (sy_free s) (sy_tasks s ++ [if lm_permit l then Waiting l else Running l]) (sy_inner s) (sy_log s))
  | EAcquire i =>
      match sy_tasks s !! i, sy_free s with
      | Some (Waiting l), S n => Some (set_task i (Running l) (set_free n s))
      | _, _ => None
      end
  | EAnswer i =>
      match sy_tasks s !! i with
      | Some (Running l) =>
          let '(r, a) := lm_call l (sy_inner s) in
          let s := mkSystem (sy_free s) (sy_tasks s) a (sy_log s ++ [(i, r)]) in
          match r with
          | Ok x =>
              if is_handle x then
                if lm_keep l then Some (set_task i (Holding (lm_permit l) x) s)
                else Some (set_task i (Holding false x) (set_free (release (lm_permit l) (sy_free s)) s))
              else Some (set_task i Done (set_free (release (lm_permit l) (sy_free s)) s))
          | _ => Some (set_task i Done (set_free (release (lm_permit l) (sy_free s)) s))
          end
      | _ => None
      end
  | EUse i m =>
      match sy_tasks s !! i with
      | Some (Holding p x) => let '(a, x') := m (sy_inner s, x) in Some (set_task i (Holding p x') (set_inner a s))
      | _ => None
      end
  | EDrop i =>
      match sy_tasks s !! i with
      | Some (Holding p _) => Some (set_task i Done (set_free (release p (sy_free s)) s))
      | _ => None
      end
  | ECancel i leave =>
      match sy_tasks s !! i with
      | Some (Waiting _) => Some (set_task i Done s)
      | Some (Running l) =>
          Some (set_task i Done (set_free (release (lm_permit l) (sy_free s)) (set_inner (leave (sy_inner s)) s)))
      | _ => None
      end
  end.
Fixpoint lrun (es : list Event) (s : System) : option System :=
  match es with [] => Some s | e :: es => s' ← lstep e s; lrun es s' end.

(** [Semaphore::new(permits)], and no tasks yet. *)
Definition limit_init (permits : nat) (a : A) : System := mkSystem permits [] a [].

(** Who is inside the service with a permit: a call that runs or a handle that lives. *)
Definition inside (t : Task) : nat :=
  match t with Running l => if lm_permit l then 1 else 0 | Holding p _ => if p then 1 else 0 | _ => 0 end.
Definition in_service (s : System) : nat := sum_list (inside <$> sy_tasks s).

(** A task that waits does so for a permit. *)
Definition waits_ok (t : Task) : Prop := match t with Waiting l => lm_permit l = true | _ => True end.
Definition limit_inv (permits : nat) (s : System) : Prop :=
  sy_free s + in_service s = permits /\ Forall waits_ok (sy_tasks s).

Lemma sum_insert (f : Task -> nat) ts i t t' :
  ts !! i = Some t -> sum_list (f <$> <[i := t']> ts) + f t = sum_list (f <$> ts) + f t'.
Proof.
  revert i. induction ts as [|u ts IH]; intros [|i] Hi; csimpl; [done|done|injection Hi as ->; lia|]. specialize (IH i Hi). lia.
Qed.

Lemma set_task_inv permits i t t' s n a log :
  limit_inv permits s -> sy_tasks s !! i = Some t -> waits_ok t' -> n + inside t' = sy_free s + inside t ->
  limit_inv permits (mkSystem n (<[i := t']> (sy_tasks s)) a log).
Proof.
  intros [Hsum Hw] Hi Ht Hn. split; simpl; [|by apply Forall_insert].
  unfold in_service in *. simpl. pose proof (sum_insert inside (sy_tasks s) i t t' Hi). lia.
Qed.

Lemma lstep_inv permits e s s' : limit_inv permits s -> lstep e s = Some s' -> limit_inv permits s'.
Proof.
  intros Hinv E. pose proof Hinv as [Hsum Hw]. destruct e as [l|i|i|i m|i|i leave]; cbn [lstep] in E.
  - injection E as <-. split; simpl.
    + unfold in_service in *. simpl. rewrite fmap_app, sum_list_with_app.
      destruct (lm_permit l) eqn:Ep; simpl; rewrite ?Ep; lia.
    + apply Forall_app. split; [done|]. repeat constructor. by destruct (lm_permit l) eqn:?.
  - destruct (sy_tasks s !! i) as [[l|l|p x|]|] eqn:Ei; try done. destruct (sy_free s) as [|n] eqn:Ef; [done|].
    injection E as <-. unfold set_task, set_free. simpl. eapply set_task_inv; [done|done|done|]. simpl.
    assert (lm_permit l = true) as ->; [|lia]. rewrite Forall_lookup in Hw. by apply (Hw i _ Ei).
  - destruct (sy_tasks s !! i) as [[l|l|p x|]|] eqn:Ei; try done. destruct (lm_call l (sy_inner s)) as [r a].
    assert (forall log, limit_inv permits (mkSystem (release (lm_permit l) (sy_free s)) (<[i := Done]> (sy_tasks s)) a log)) as Hdone.
    { intros log. eapply set_task_inv; [done|done|done|]. simpl. destruct (lm_permit l); simpl; lia. }
    destruct r as [x|e|]; [destruct (is_handle x); [destruct (lm_keep l)|]|..]; injection E as <-; try apply Hdone;
      unfold set_task, set_free; simpl; (eapply set_task_inv; [done|done|done|]; simpl; destruct (lm_permit l); simpl; lia).
  - destruct (sy_tasks s !! i) as [[l|l|p x|]|] eqn:Ei; try done. destruct (m (sy_inner s, x)) as [a x'].
    injection E as <-. unfold set_task, set_inner. simpl. eapply set_task_inv; [done|done|done|]. simpl. lia.
  - destruct (sy_tasks s !! i) as [[l|l|p x|]|] eqn:Ei; try done.
    injection E as <-. unfold set_task, set_free. simpl. eapply set_task_inv; [done|done|done|]. simpl. destruct p; simpl; lia.
  - destruct (sy_tasks s !! i) as [[l|l|p x|]|] eqn:Ei; try done; injection E as <-; unfold set_task, set_free, set_inner; simpl.
    + eapply set_task_inv; [done|done|done|]. simpl. lia.
    + eapply set_task_inv; [done|done|done|]. simpl. destruct (lm_permit l); simpl; lia.
Qed.

Lemma lrun_inv permits es s s' : limit_inv permits s -> lrun es s = Some s' -> limit_inv permits s'.
Proof.
  revert s. induction es as [|e es IH]; intros s Hinv; cbn [lrun]; [by intros [= <-]|].
  destruct (lstep e s) as [s1|] eqn:E; [|done]. apply IH. by eapply lstep_inv.
Qed.

(** Calls that run and handles that live, with a permit or without. *)
Definition active (t : Task) : nat := match t with Running _ | Holding _ _ => 1 | _ => 0 end.
Definition active_calls (s : System) : nat := sum_list (active <$> sy_tasks s).

(** Every task was started with a call that takes a permit and leaves it to the
    handle if it returns one. *)
Definition well_kept (l : Limited A X) : Prop :=
  lm_permit l = true /\ forall a x a', lm_call l a = (Ok x, a') -> is_handle x = true -> lm_keep l = true.
Definition permitted (t : Task) : Prop :=
  match t with Waiting l | Running l => well_kept l | Holding p _ => p = true | Done => True end.
Definition takes_permit (e : Event) : Prop := match e with EStart l => well_kept l | _ => True end.

Lemma permitted_step e s s' :
  takes_permit e -> Forall permitted (sy_tasks s) -> lstep e s = Some s' -> Forall permitted (sy_tasks s').
Proof.
  intros He Hp E. assert (forall i t, sy_tasks s !! i = Some t -> permitted t) as Hl by (by apply Forall_lookup).
  destruct e as [l|i|i|i m|i|i leave]; cbn [lstep] in E.
  { injection E as <-. simpl in *. apply Forall_app. split; [done|]. destruct He as [Ep Hk]. rewrite Ep. by repeat constructor. }
  all: destruct (sy_tasks s !! i) as [t|] eqn:Ei; [|done]; specialize (Hl i t Ei); destruct t as [l|l|p x|]; try done.
  - destruct (sy_free s); [done|]. injection E as <-. by apply Forall_insert.
  - destruct Hl as [Ep Hk]. destruct (lm_call l (sy_inner s)) as [[x|e|] a] eqn:Ec; [destruct (is_handle x) eqn:Eh|..].
    1: rewrite (Hk _ _ _ Ec Eh), Ep in E.
    all: injection E as <-; by apply Forall_insert.
  - destruct (m (sy_inner s, x)). injection E as <-. by apply Forall_insert.
  - injection E as <-. by apply Forall_insert.
  - injection E as <-. by apply Forall_insert.
  - injection E as <-. by apply Forall_insert.
Qed.

Lemma permitted_run es s s' :
  Forall takes_permit es -> Forall permitted (sy_tasks s) -> lrun es s = Some s' -> Forall permitted (sy_tasks s').
Proof.
  intros Hes. revert s. induction Hes as [|e es He Hes IH]; intros s Hp; cbn [lrun]; [by intros [= <-]|].
  destruct (lstep e s) as [s1|] eqn:E; [|done]. apply IH. by eapply permitted_step.
Qed.

Lemma permitted_active (ts : list Task) : Forall permitted ts -> sum_list (active <$> ts) = sum_list (inside <$> ts).
Proof.
  induction 1 as [|t ts Ht _ IH]; [done|]. csimpl. rewrite IH. f_equal. destruct t; simpl in *; [done|destruct Ht as [Ht _]|..]; by rewrite ?Ht.
Qed.

(** How far a task is from its end. *)
Definition togo (t : Task) : nat := match t with Waiting _ => 3 | Running _ => 2 | Holding _ _ => 1 | Done => 0 end.
Definition work (s : System) : nat := sum_list (togo <$> sy_tasks s).

Lemma set_task_work i t t' s n a log :
  sy_tasks s !! i = Some t -> togo t' < togo t -> work (mkSystem n (<[i := t']> (sy_tasks s)) a log) < work s.
Proof. intros Hi Hlt. unfold work. simpl. pose proof (sum_insert togo (sy_tasks s) i t t' Hi). lia. Qed.

(** Some task has work of its own, or one waits and nobody is inside, or all are done. *)
Lemma task_cases (ts : list Task) :
  (exists i t, ts !! i = Some t /\ match t with Running _ | Holding _ _ => True | _ => False end) \/
  sum_list (inside <$> ts) = 0 /\ (exists i l, ts !! i = Some (Waiting l)) \/ Forall (eq Done) ts.
Proof.
  induction ts as [|t ts IH]; [by right; right|].
  destruct IH as [(i & u & Hi & Hu)|[(Hz & i & l & Hi)|Hall]]; [left; by exists (S i), u| |];
    (destruct t as [l'|l'|p x|]; [|left; by exists 0, (Running l')|left; by exists 0, (Holding p x)|]).
  - right; left. split; [exact Hz|]. by exists 0, l'.
  - right; left. split; [exact Hz|]. by exists (S i), l.
  - right; left. split; [|by exists 0, l']. csimpl. induction Hall as [|? ? <- _ IHall]; [done|exact IHall].
  - right; right. by constructor.
Qed.

(** Answers, permits and dropped handles: what everyone does sooner or later. *)
Definition goes_on (e : Event) : bool := match e with EAcquire _ | EAnswer _ | EDrop _ => true | _ => false end.

Lemma next_event permits s :
  0 < permits -> limit_inv permits s -> Forall (eq Done) (sy_tasks s) \/
  exists e s', lstep e s = Some s' /\ work s' < work s /\ goes_on e = true.
Proof.
  intros Hp [Hsum Hw]. destruct (task_cases (sy_tasks s)) as [(i & t & Hi & Ht)|[(Hz & i & l & Hi)|Hall]]; [right|right|by left].
  - destruct t as [l|l|p x|]; try done.
    + exists (EAnswer i). cbn [lstep]. rewrite Hi. destruct (lm_call l (sy_inner s)) as [r a].
      destruct r as [x|e|]; [destruct (is_handle x); [destruct (lm_keep l)|]|..]; (eexists; split_and!; [done| |done]); unfold set_task, set_free; simpl;
        (eapply set_task_work; [done|simpl; lia]).
    + exists (EDrop i). cbn [lstep]. rewrite Hi. eexists; split_and!; [done| |done]. unfold set_task, set_free. simpl.
      eapply set_task_work; [done|simpl; lia].
  - exists (EAcquire i). cbn [lstep]. rewrite Hi. unfold in_service in Hsum. destruct (sy_free s) as [|n] eqn:Ef; [lia|].
    eexists; split_and!; [done| |done]. unfold set_task, set_free. simpl. eapply set_task_work; [done|simpl; lia].
Qed.

Lemma drains permits m s :
  0 < permits -> limit_inv permits s -> work s <= m ->
  exists es s', lrun es s = Some s' /\ forallb goes_on es = true /\ Forall (eq Done) (sy_tasks s') /\ limit_inv permits s'.
Proof.
  intros Hp. revert s. induction m as [|m IH]; intros s Hinv Hm.
  all: destruct (next_event permits s Hp Hinv) as [Hall|(e & s1 & E & Hlt & He)]; [by exists [], s|].
  - lia.
  - destruct (IH s1) as (es & s' & Er & Hes & Hall & Hinv'); [by eapply lstep_inv|lia|].
    exists (e :: es), s'. cbn [lrun forallb]. rewrite E, He. by split_and!.
Qed.

(** Nobody waits for ever behind the limit: with at least one permit, from
    every state that interleaved tasks can reach, answers of the service, handles
    that are dropped and permits that are handed on bring every task to its end,
    and then all permits are free again. *)
Theorem limit_drains permits a es s :
  0 < permits -> lrun es (limit_init permits a) = Some s ->
  exists es' s', lrun es' s = Some s' /\ forallb goes_on es' = true /\ Forall (eq Done) (sy_tasks s') /\ sy_free s' = permits.
Proof.
  intros Hp E. assert (limit_inv permits s) as Hinv by (eapply lrun_inv; [|exact E]; by split).
  destruct (drains permits (work s) s Hp Hinv) as (es' & s' & Er & Hes & Hall & [Hsum _]); [lia|].
  exists es', s'. split_and!; [done..|]. assert (in_service s' = 0); [|lia]. unfold in_service. clear -Hall.
  induction Hall as [|? ? <- _ IH]; [done|exact IH].
Qed.

End Machine.

(** ** The accessor behind the limit *)

Section LimitedAccessor.
  Context {A Rd Wr Ls Dl Cp : Type}.
  Variable inner : Access A Rd Wr Ls Dl Cp.
#[local] Set Default Proof Using "All".

(** [ConcurrentLimitWrapper]s. *)
Definition answer_handle (x : Answer (Rd := Rd) (Wr := Wr) (Ls := Ls) (Dl := Dl) (Cp := Cp)) : bool :=
  match x with AUnit | AMeta _ => false | _ => true end.

Inductive AccessorCall : Type :=
  | CallCreateDir (path : str) | CallRead (path : str) (args : OpRead) | CallWrite (path : str) (args : OpWrite)
  | CallCopy (from to : str) (args : OpCopy) (opts : OpCopier) | CallRename (from to : str)
  | CallStat (path : str) (args : OpStat) | CallDelete | CallList (path : str) (args : OpList).
Definition limit_call (c : AccessorCall) : Limited A Answer :=
  match c with
  | CallCreateDir path => limit_create_dir inner path
  | CallRead path args => limit_read inner path args
  | CallWrite path args => limit_write inner path args
  | CallCopy from to args opts => limit_copy inner from to args opts
  | CallRename from to => limit_rename inner from to
  | CallStat path args => limit_stat inner path args
  | CallDelete => limit_delete inner
  | CallList path args => limit_list inner path args
  end.

(** Tasks start calls of the accessor. *)
Definition of_layer (e : Event (A := A) (X := Answer)) : Prop := match e with EStart l => exists c, l = limit_call c | _ => True end.

Lemma answer_is {X} (f : X -> Answer (Rd := Rd) (Wr := Wr) (Ls := Ls) (Dl := Dl) (Cp := Cp)) (m : M A Error X) a x a' :
  answer f m a = (Ok x, a') -> exists y, x = f y.
Proof. unfold answer, mbind, M_bind, mret, M_ret. destruct (m a) as [[y|e|] ?]; [|done..]. intros [= <- _]. by exists y. Qed.
Lemma limit_call_kept c : well_kept answer_handle (limit_call c).
Proof. destruct c; (split; [done|]); intros a x a' E Hx; try done; apply answer_is in E as [y ->]; done. Qed.

(** C31.  The limit holds in every interleaving of calls of the accessor: whatever is
    started, answered, fails, is cancelled or returns a handle, the free permits
    and the calls and handles inside the service add up to the permits there are.
    So never more than that many are inside at once, no permit is lost when
    everyone has left, and a task that waits can go on unless the service is full. *)
Theorem limit_respected permits a es s :
  Forall of_layer es -> lrun answer_handle es (limit_init permits a) = Some s ->
  sy_free s + active_calls s = permits /\
  (Forall (fun t => active t = 0) (sy_tasks s) -> sy_free s = permits) /\
  (forall i l, sy_tasks s !! i = Some (Waiting l) -> is_Some (lstep answer_handle (EAcquire i) s) \/ active_calls s = permits).
Proof.
  intros Hes E. destruct (lrun_inv answer_handle permits es (limit_init permits a) s) as [Hsum _]; [by split|done|].
  assert (active_calls s = in_service s) as Hact.
  { apply (permitted_active answer_handle). apply (permitted_run answer_handle es (limit_init permits a)); [|by constructor|exact E]. eapply Forall_impl; [exact Hes|].
    intros [] He; try done. destruct He as [c ->]. apply limit_call_kept. }
  rewrite Hact. split_and!; [done| |].
  - intros Hout. assert (active_calls s = 0); [|lia]. unfold active_calls. clear -Hout.
    induction Hout as [|t ts Ht Hout IH]; csimpl; [done|]. rewrite Ht. exact IH.
  - intros i l Hi. cbn [lstep]. rewrite Hi. destruct (sy_free s) as [|n]; [right; lia|left; by eexists].
Qed.

End LimitedAccessor.

(** ** The timeout layer *)

Record TimeoutLayer : Type := mkTimeout { to_timeout : Z; to_io_timeout : Z }.
Definition timeout_default : TimeoutLayer := mkTimeout 60000000000 10000000000.
Definition with_timeout (t : Z) (l : TimeoutLayer) : TimeoutLayer := mkTimeout t (to_io_timeout l).
Definition with_io_timeout (t : Z) (l : TimeoutLayer) : TimeoutLayer := mkTimeout (to_timeout l) t.

Definition timeout_error (message : string) (op : Operation) (secs : str) : Error :=
  set_temporary (with_context (b "timeout") secs (with_operation (show_operation op) (error Unexpected message))).

(** How long calls take: whether a timer of that length ends first, and what the
    callee is left like if it does. *)
Record Timer (A : Type) : Type := mkTimer { ti_expired : Z -> bool; ti_cancelled : A -> A }.
Arguments mkTimer {A}.
Arguments ti_expired {A}.
Arguments ti_cancelled {A}.

Section Timeouts.
  (** [as_secs_f64().to_string()]. *)
  Variable show_secs : Z -> str.

(** [tokio::time::timeout(duration, fut).await.map_err(..)?]. *)
Definition timed {A X} (ti : Timer A) (duration : Z) (message : string) (op : Operation) (fut : M A Error X) : M A Error X :=
  fun a => if ti_expired ti duration then (Err (timeout_error message op (show_secs duration)), ti_cancelled ti a) else fut a.

Section TimeoutAccessor.
  Context {A Rd Wr Ls Dl Cp : Type}.
  Variable inner : Access A Rd Wr Ls Dl Cp.
  Variable ti : Timer A.
  Variable layer : TimeoutLayer.

Definition timeout {X} (op : Operation) (fut : M A Error X) : M A Error X :=
  timed ti (to_timeout layer) "operation timeout reached" op fut.
Definition io_timeout {X} (op : Operation) (fut : M A Error X) : M A Error X :=
  timed ti (to_io_timeout layer) "io timeout reached" op fut.
Definition timeout_wrapped {H} (m : M A Error H) : M A Error (H * Z) := x ← m; mret (x, to_io_timeout layer).

Definition timeout_layer : Access A (Rd * Z) (Wr * Z) (Ls * Z) (Dl * Z) (Cp * Z) :=
  {| a_info := a_info inner;
     a_create_dir path := timeout OCreateDir (a_create_dir inner path);
     a_stat path args := timeout OStat (a_stat inner path args);
     a_read path args := x ← io_timeout ORead (a_read inner path args); mret (x.1, (x.2, to_io_timeout layer));
     a_write path args := timeout_wrapped (io_timeout OWrite (a_write inner path args));
     a_delete := timeout_wrapped (timeout ODelete (a_delete inner));
     a_list path args := timeout_wrapped (io_timeout OList (a_list inner path args));
     a_copy from to args opts := timeout_wrapped (timeout OCopy (a_copy inner from to args opts));
     a_rename from to := timeout ORename (a_rename inner from to) |}.

End TimeoutAccessor.

(** [TimeoutWrapper]: a handle and its timeout. *)
Section Wrappers.
  Context {R : Type}.
  Variable ti : Timer R.
Definition wrapper_io {X} (op : Operation) (m : M R Error X) : M (R * Z) Error X := fun '(r, t) =>
  let '(x, r') := timed ti t "io operation timeout reached" op m r in (x, (r', t)).
Definition TimeoutWrapper_Read `{Read R} : Read (R * Z) := wrapper_io ORead read_buf.
Definition TimeoutWrapper_Write `{Write R} : Write (R * Z) :=
  {| w_write bs := wrapper_io OWrite (w_write bs); w_close := wrapper_io OWrite w_close; w_abort := wrapper_io OWrite w_abort |}.
Definition TimeoutWrapper_List `{List R} : List (R * Z) := wrapper_io OList list_next.
Definition TimeoutWrapper_Delete `{Delete R} : Delete (R * Z) :=
  {| d_delete path args := wrapper_io ODelete (d_delete path args); d_close := wrapper_io ODelete d_close |}.
Definition TimeoutWrapper_Copy `{Copy R} : Copy (R * Z) :=
  {| c_next := wrapper_io OCopy c_next; c_close := wrapper_io OCopy c_close; c_abort := wrapper_io OCopy c_abort |}.
End Wrappers.
End Timeouts.

(** A handle behind a timeout answers as the handle does, or fails with a temporary
    error after its time. *)
Theorem timeout_write_transparent {R} `{Write R} show_secs (ti : Timer R) (r : R) t bs :
  let out := w_write (Write := TimeoutWrapper_Write show_secs ti) bs (r, t) in
  if ti_expired ti t then exists e, out = (Err e, (ti_cancelled ti r, t)) /\ is_temporary e = true
  else out = ((w_write bs r).1, ((w_write bs r).2, t)).
Proof.
  cbn [w_write TimeoutWrapper_Write]. unfold wrapper_io, timed. destruct (ti_expired ti t); [by eexists|]. by destruct (w_write bs r).
Qed.

(** ** Examples *)

Definition sample_access : Access nat unit unit unit unit unit :=
  {| a_info _ := info_default;
     a_create_dir _ := throw (error Unsupported "x"); a_stat _ _ n := (Ok (meta_new FILE), S n);
     a_read _ _ := throw (error Unsupported "x"); a_write _ _ := throw (error Unsupported "x");
     a_delete := throw (error Unsupported "x"); a_list _ _ n := (Ok tt, S n);
     a_copy _ _ _ _ := throw (error Unsupported "x"); a_rename _ _ := throw (error Unsupported "x") |}.
(** Two tasks, one permit: the first holds a lister, the second waits. *)
Definition sample_events : list Event :=
  [EStart (limit_list sample_access [] op_list); EStart (limit_stat sample_access [] op_stat); EAcquire 0; EAnswer 0].
Definition sample_system : System :=
  mkSystem 0 [Holding true (ALister tt); Waiting (limit_stat sample_access [] op_stat)] 1 [(0, Ok (ALister tt))].

Lemma limit_respected_witness :
  lrun answer_handle sample_events (limit_init 1 0) = Some sample_system /\ sy_free sample_system + active_calls sample_system = 1.
Proof.
  assert (Forall (of_layer sample_access) sample_events) as Hl.
  { repeat constructor; [exists (CallList [] op_list)|exists (CallStat [] op_stat)]; reflexivity. }
  exact (conj eq_refl (proj1 (limit_respected sample_access 1 0 sample_events sample_system Hl eq_refl))).
Defined.

Lemma limit_drains_witness :
  exists es' s', lrun answer_handle es' sample_system = Some s' /\ forallb goes_on es' = true /\ Forall (eq Done) (sy_tasks s') /\ sy_free s' = 1.
Proof. exact (limit_drains answer_handle 1 0 sample_events sample_system (le_n 1) eq_refl). Defined.

(** A task that keeps a handle and makes another call waits for itself if there is
    one permit: nothing but dropping the handle lets it go on. *)
Theorem limit_waits_for_itself i : lstep (answer_handle (Rd := unit) (Wr := unit) (Ls := unit) (Dl := unit) (Cp := unit)) (EAcquire i) sample_system = None.
Proof. destruct i as [|[|i]]; reflexivity. Qed.
