(* ===== verification/Fs.v ===== *)
(** * The file system service ([core/services/fs/src/*.rs])

    Objects are files below a root directory.  With an [atomic_write_dir] a write
    goes to a temporary file that is renamed over the target when it is closed.
    The calls of [tokio::fs], [std::fs] and [xattr] are a class; what POSIX and
    their documentation promise of them are its laws, over a tree of names and
    the contents of files.  Any call may fail.  That a blocking task panics is left
    out; the pool that recycles read buffers is at the end, where it is shown not
    to change what a read returns. *)

From S2P Require Import Prelude Errors Path Range Buffer Types Access Readers Deleters Text.
From stdpp Require Import options.

(** ** Paths of the operating system *)

(** A [PathBuf] as its components; [Path::join] replaces the base by an absolute
    path and drops empty and ["."] components. *)
Abbreviation PathBuf := (list (list ascii)).
Definition os_components (path : str) : PathBuf := filter (fun w => w <> [] /\ w <> b ".") (split slash path).
Definition path_join (base : PathBuf) (path : str) : PathBuf :=
  if starts_with [slash] path then os_components path else base ++ os_components path.
Definition path_parent (p : PathBuf) : option PathBuf :=
  match p with [] => None | _ => Some (removelast p) end.

(** ** [tokio::fs], [std::fs] and [xattr] *)

Record OpenOptions : Type := mkOpen { oo_create : bool; oo_create_new : bool; oo_append : bool; oo_truncate : bool }.
Record FileMeta : Type := mkFileMeta {
  fm_is_dir : bool; fm_is_file : bool; fm_len : Z; fm_modified : outcome IoError Z;
}.
Record DirEntry : Type := mkDirEntry {
  de_path : PathBuf; de_file_type : outcome IoError FileMeta; de_metadata : outcome IoError FileMeta;
}.

Class FileSystem (F H RD : Type) : Type := {
  os_create_dir_all : PathBuf -> M F IoError unit;
  os_metadata : PathBuf -> M F IoError FileMeta;
  os_try_exists : PathBuf -> M F IoError bool;
  os_open_read : PathBuf -> M F IoError H;
  os_open_write : OpenOptions -> PathBuf -> M F IoError H;
  os_rename : PathBuf -> PathBuf -> M F IoError unit;
  os_copy : PathBuf -> PathBuf -> M F IoError unit;
  os_remove_file : PathBuf -> M F IoError unit;
  os_remove_dir : PathBuf -> M F IoError unit;
  os_remove_dir_all : PathBuf -> M F IoError unit;
  os_read_dir : PathBuf -> M F IoError RD;
  rd_next : M RD IoError (option DirEntry);
  xattr_list : PathBuf -> M F IoError (list str);
  xattr_get : PathBuf -> str -> M F IoError (option bytes);
  xattr_set : PathBuf -> str -> str -> M F IoError unit;
  raw_os_error : IoError -> option Z;
  f_write : bytes -> M (F * H) IoError nat;
  f_write_at : bytes -> Z -> M (F * H) IoError nat;
  f_read : nat -> M (F * H) IoError bytes;
  f_seek : Z -> M (F * H) IoError unit;
  f_flush : M (F * H) IoError unit;
  f_sync_all : M (F * H) IoError unit;
  f_metadata : M (F * H) IoError FileMeta;
  f_try_clone : M (F * H) IoError H;
}.

(** [.map_err(new_std_io_error)?]. *)
Definition io {S X} (m : M S IoError X) : M S Error X := fun s =>
  let '(r, s') := m s in (map_err new_std_io_error r, s').

Definition parse_error (e : IoError) : Error :=
  match io_kind e with
  | IoAlreadyExists => set_source (show_io_error e) (error ConditionNotMatch "The file already exists in the filesystem")
  | _ => new_std_io_error e
  end.
Definition io_parse {S X} (m : M S IoError X) : M S Error X := fun s =>
  let '(r, s') := m s in (map_err parse_error r, s').

(** ** [FsCore] *)

Record FsCore : Type := mkFsCore { fc_root : PathBuf; fc_atomic_write_dir : option PathBuf }.

Definition XATTR_USER_PREFIX : str := b "user.".

Section FsService.
  Context {F H RD : Type} `{FileSystem F H RD}.
  Variable core : FsCore.

Definition ensure_write_abs_path (parent : PathBuf) (path : str) : M F Error PathBuf :=
  let p := path_join parent path in
  dir ← lift (ok_or (with_context (b "input") (slash :: join [slash] p)
                       (error Unexpected "path should have parent but not, it must be malformed")) (path_parent p));
  io (os_create_dir_all dir);;
  mret p.

Definition target_path (path : str) : PathBuf := path_join (fc_root core) (trim_end_slashes path).

Definition fs_create_dir (path : str) : M F Error unit := io (os_create_dir_all (target_path path)).

Definition file_mode (meta : FileMeta) : EntryMode :=
  if fm_is_dir meta then DIR else if fm_is_file meta then FILE else Unknown.
(** [Metadata::new(mode).with_content_length(..).with_last_modified(..)]. *)
Definition meta_of {S} (mode : EntryMode) (meta : FileMeta) : M S Error Metadata :=
  modified ← lift (map_err new_std_io_error (fm_modified meta));
  mret (set_last_modified modified (set_content_length (fm_len meta) (meta_new mode))).

Fixpoint read_xattrs (p : PathBuf) (attrs : list str) (acc : gmap str str) : M F Error (gmap str str) :=
  match attrs with
  | [] => mret acc
  | attr :: rest =>
      match strip_prefix XATTR_USER_PREFIX attr with
      | Some key => fun f =>
          let '(r, f') := xattr_get p attr f in
          read_xattrs p rest
            (match r with
             | Ok (Some value) => match from_utf8 value with Some v => <[key := v]> acc | None => acc end
             | _ => acc
             end) f'
      | None => read_xattrs p rest acc
      end
  end.
Definition get_user_metadata (p : PathBuf) : M F Error (gmap str str) := fun f =>
  let '(r, f') := xattr_list p f in
  match r with
  | Ok attrs => read_xattrs p attrs ∅ f'
  | Err e =>
      if bool_decide (io_kind e = IoUnsupported) then (Ok ∅, f')
      else if bool_decide (raw_os_error (F := F) (H := H) (RD := RD) e = Some 95%Z) then (Ok ∅, f')
      else (Err (new_std_io_error e), f')
  | Panic => (Panic, f')
  end.
Fixpoint set_xattrs (p : PathBuf) (kvs : list (str * str)) : M F Error unit :=
  match kvs with
  | [] => mret tt
  | (key, value) :: rest => io (xattr_set p (XATTR_USER_PREFIX ++ key) value);; set_xattrs p rest
  end.
Definition set_user_metadata (p : PathBuf) (user_metadata : gmap str str) : M F Error unit :=
  set_xattrs p (map_to_list user_metadata).

Definition with_user_metadata (user : gmap str str) (m : Metadata) : Metadata :=
  {| m_mode := m_mode m; m_is_current := m_is_current m; m_is_deleted := m_is_deleted m;
     m_cache_control := m_cache_control m; m_content_disposition := m_content_disposition m;
     m_content_length := m_content_length m; m_content_md5 := m_content_md5 m; m_content_type := m_content_type m;
     m_content_encoding := m_content_encoding m; m_etag := m_etag m; m_last_modified := m_last_modified m;
     m_version := m_version m; m_user_metadata := Some user |}.

Definition fs_stat (path : str) : M F Error Metadata :=
  let p := target_path path in
  meta ← io (os_metadata p);
  m ← meta_of (file_mode meta) meta;
  user ← get_user_metadata p;
  mret (if bool_decide (user = ∅) then m else with_user_metadata user m).

Definition seek_to (offset : Z) (h : H) : M F Error H := fun f =>
  let '(r, (f', h')) := io (f_seek offset) (f, h) in ((fun _ => h') <$> r, f').
Definition fs_read (path : str) (args : OpRead) : M F Error H :=
  h ← io (os_open_read (target_path path));
  if bool_decide (Range.offset (read_range args) <> 0%Z) then seek_to (Range.offset (read_range args)) h
  else mret h.

Definition fs_write (path : PathBuf) (op : OpWrite) : M F Error H :=
  io_parse (os_open_write (mkOpen (negb (write_if_not_exists op)) (write_if_not_exists op)
                                  (write_append op) (negb (write_append op))) path).

Definition fs_tempfile_write (random : nat -> N) (path : str) : M F Error (H * option PathBuf) :=
  match fc_atomic_write_dir core with
  | None => throw (error Unexpected "fs didn't configure atomic_write_dir, but we're still entering the tempfile logic. This might be a bug.")
  | Some atomic_write_dir =>
      tmp_path ← ensure_write_abs_path atomic_write_dir (build_tmp_path_of random path);
      f ← io_parse (os_open_write (mkOpen false true false true) tmp_path);
      mret (f, Some tmp_path)
  end.

Definition fs_list (path : str) : M F Error (option RD) := fun f =>
  let '(r, f') := os_read_dir (target_path path) f in
  match r with
  | Ok rd => (Ok (Some rd), f')
  | Err e =>
      if bool_decide (io_kind e = IoNotFound \/ io_kind e = IoNotADirectory) then (Ok None, f')
      else (Err (new_std_io_error e), f')
  | Panic => (Panic, f')
  end.

Definition fs_copy (from to : str) : M F Error unit :=
  let from := target_path from in
  io (os_metadata from);;
  to ← ensure_write_abs_path (fc_root core) (trim_end_slashes to);
  io (os_copy from to).

Definition fs_rename (from to : str) : M F Error unit :=
  let from := target_path from in
  io (os_metadata from);;
  to ← ensure_write_abs_path (fc_root core) (trim_end_slashes to);
  io (os_rename from to).

(** ** [FsWriter] *)

Record FsWriter : Type := mkFsWriter {
  fsw_target_path : PathBuf; fsw_temp_path : option PathBuf; fsw_f : H; fsw_user_metadata : option (gmap str str);
}.

Definition fs_writer_create (random : nat -> N) (path : str) (op : OpWrite) : M F Error FsWriter :=
  target_path ← ensure_write_abs_path (fc_root core) path;
  match fc_atomic_write_dir core with
  | None =>
      target_file ← fs_write target_path op;
      mret (mkFsWriter target_path None target_file (write_user_metadata op))
  | Some _ =>
      is_exist ← io (os_try_exists target_path);
      if write_if_not_exists op && is_exist then
        throw (error ConditionNotMatch "file already exists, doesn't match the condition if_not_exists")
      else
        '(f, temp_path) ←
          (if negb (write_append op && is_exist) then fs_tempfile_write random path
           else f ← fs_write target_path op; mret (f, None));
        mret (mkFsWriter target_path temp_path f (write_user_metadata op))
  end.

Definition set_file (fh : F * H) (s : F * FsWriter) : F * FsWriter :=
  (fh.1, mkFsWriter (fsw_target_path s.2) (fsw_temp_path s.2) fh.2 (fsw_user_metadata s.2)).
Definition on_file {X} (m : M (F * H) Error X) : M (F * FsWriter) Error X := zoom (fun s => (s.1, fsw_f s.2)) set_file m.
Definition on_fs {X} (m : M F Error X) : M (F * FsWriter) Error X := zoom fst (fun f s => (f, s.2)) m.

(** [oio::Write::write], used for appending. *)
Fixpoint fs_writer_write (fuel : nat) (bs : Buffer) : M (F * FsWriter) Error unit :=
  match fuel with
  | O => panic
  | S fuel =>
      if bool_decide (blen bs = 0) then mret tt
      else
        c ← lift (chunk bs);
        n ← on_file (io (f_write c));
        bs ← lift (advance bs n);
        fs_writer_write fuel bs
  end.

(** The part [close] and [PositionWrite::close] share. *)
Definition publish (w : FsWriter) : M (F * FsWriter) Error unit :=
  (match fsw_temp_path w with
   | Some temp_path => on_fs (io (os_rename temp_path (fsw_target_path w)))
   | None => mret tt
   end);;
  match fsw_user_metadata w with
  | Some user_metadata => on_fs (set_user_metadata (fsw_target_path w) user_metadata)
  | None => mret tt
  end.

Definition fs_writer_close : M (F * FsWriter) Error Metadata :=
  '(_, w) ← get;
  on_file (io f_flush);;
  on_file (io f_sync_all);;
  publish w;;
  file_meta ← on_file (io f_metadata);
  meta_of FILE file_meta.

Definition fs_writer_abort : M (F * FsWriter) Error unit :=
  '(_, w) ← get;
  match fsw_temp_path w with
  | Some temp_path => on_fs (io (os_remove_file temp_path))
  | None => throw (error Unsupported "Fs doesn't support abort if atomic_write_dir is not set")
  end.

(** [oio::PositionWrite]: the file is cloned for every call. *)
Definition on_clone {X} (h : H) (m : M (F * H) Error X) : M (F * FsWriter) Error X := fun '(f, w) =>
  let '(r, (f', _)) := m (f, h) in (r, (f', w)).

Fixpoint write_at_loop (fuel : nat) (buf : Buffer) (offset : Z) : M (F * H) Error unit :=
  match fuel with
  | O => panic
  | S fuel =>
      if is_empty buf then mret tt
      else
        c ← lift (chunk buf);
        n ← io (f_write_at c offset);
        buf ← lift (advance buf n);
        write_at_loop fuel buf (wrap64 (offset + Z.of_nat n))
  end.
Definition write_all_at (fuel : nat) (offset : Z) (buf : Buffer) : M (F * FsWriter) Error unit :=
  h ← on_file (io f_try_clone);
  on_clone h (write_at_loop fuel buf offset).

Definition position_writer_close (_ : Z) : M (F * FsWriter) Error Metadata :=
  '(_, w) ← get;
  h ← on_file (io f_try_clone);
  on_clone h (io f_flush);;
  on_clone h (io f_sync_all);;
  publish w;;
  file_meta ← on_clone h (io f_metadata);
  meta_of (if fm_is_file file_meta then FILE else if fm_is_dir file_meta then DIR else Unknown) file_meta.

(** ** [FsReader] *)

Record FsReader : Type := mkFsReader { fr_f : H; fr_read : Z; fr_size : Z; fr_buf_size : Z }.
Definition fs_reader_new (f : H) (size : Z) : FsReader := mkFsReader f 0 size (2 * 1024 * 1024).

Definition fs_reader_read : M (F * FsReader) Error Buffer := fun '(f, s) =>
  if bool_decide (fr_size s <= fr_read s)%Z then (Ok Buffer.new, (f, s))
  else
    let size := Z.min (fr_size s - fr_read s) (fr_buf_size s) in
    let '(r, (f', h')) := io (f_read (Z.to_nat size)) (f, fr_f s) in
    match r with
    | Ok filled =>
        (Ok (from_bytes filled),
         (f', mkFsReader h' (fr_read s + Z.of_nat (length filled)) (fr_size s) (fr_buf_size s)))
    | Err e => (Err e, (f', mkFsReader h' (fr_read s) (fr_size s) (fr_buf_size s)))
    | Panic => (Panic, (f', mkFsReader h' (fr_read s) (fr_size s) (fr_buf_size s)))
    end.

Definition fs_backend_read (path : str) (args : OpRead) : M F Error (option Metadata * FsReader) :=
  f ← fs_read path args;
  mret (None, fs_reader_new f (default u64_max (Range.size (read_range args)))).

(** ** [FsLister] *)

Record FsLister : Type := mkFsLister { fl_current_path : option str; fl_rd : RD }.
Definition fs_lister_new (path : str) (rd : RD) : FsLister := mkFsLister (Some path) rd.

Definition replace_backslash (s : str) : str := (fun c => if decide (c = "\"%char) then slash else c) <$> s.
Definition rel_path (p : PathBuf) : result str :=
  if bool_decide (fc_root core `prefix_of` p)
  then Ok (normalize_path (replace_backslash (join [slash] (drop (length (fc_root core)) p))))
  else Panic.

(** What one directory entry becomes: nothing if it has gone meanwhile. *)
Definition entry_of (de : DirEntry) : result (option Entry) :=
  let skip_gone {X} (m : outcome IoError X) (k : X -> result (option Entry)) : result (option Entry) :=
    match m with
    | Ok x => k x
    | Err e => if bool_decide (io_kind e = IoNotFound) then Ok None else Err (new_std_io_error e)
    | Panic => Panic
    end in
  rel_path ← rel_path (de_path de);
  skip_gone (de_file_type de) (fun ft =>
    let '(path, mode) := if fm_is_dir ft then (rel_path ++ [slash], DIR)
                         else if fm_is_file ft then (rel_path, FILE) else (rel_path, Unknown) in
    skip_gone (de_metadata de) (fun m =>
      skip_gone (fm_modified m) (fun last_modified =>
        Ok (Some (entry_new path (set_last_modified last_modified (set_content_length (fm_len m) (meta_new mode)))))))).

Fixpoint fs_lister_next (fuel : nat) : M FsLister Error (option Entry) := fun s =>
  match fuel with
  | O => (Panic, s)
  | S fuel =>
      match fl_current_path s with
      | Some path => (Ok (Some (entry_new path (meta_new DIR))), mkFsLister None (fl_rd s))
      | None =>
          let '(r, rd) := rd_next (fl_rd s) in
          let s' := mkFsLister None rd in
          match r with
          | Ok None => (Ok None, s')
          | Ok (Some de) =>
              match entry_of de with
              | Ok (Some e) => (Ok (Some e), s')
              | Ok None => fs_lister_next fuel s'
              | Err e => (Err e, s')
              | Panic => (Panic, s')
              end
          | Err e => if bool_decide (io_kind e = IoNotFound) then (Ok None, s') else (Err (new_std_io_error e), s')
          | Panic => (Panic, s')
          end
      end
  end.

Definition fs_backend_list (path : str) : M F Error (option FsLister) :=
  rd ← fs_list path;
  mret (fs_lister_new path <$> rd).

(** ** [FsDeleter] *)

Definition fs_delete_once (path : str) (args : OpDelete) : M F Error unit := fun f =>
  let p := target_path path in
  let '(r, f') := os_metadata p f in
  match r with
  | Ok meta =>
      if fm_is_dir meta then
        if del_recursive args then io (os_remove_dir_all p) f' else io (os_remove_dir p) f'
      else io (os_remove_file p) f'
  | Err e => if bool_decide (io_kind e = IoNotFound) then (Ok tt, f') else (Err (new_std_io_error e), f')
  | Panic => (Panic, f')
  end.

(** ** [FsBackend::write]: an appending writer, or one behind [PositionWriter]. *)
Inductive FsWriters : Type := FsAppend (w : FsWriter) | FsPosition (w : FsWriter) (concurrent : nat).
Definition fs_backend_write (random : nat -> N) (path : str) (op : OpWrite) : M F Error FsWriters :=
  writer ← fs_writer_create random path op;
  mret (if write_append op then FsAppend writer else FsPosition writer (write_concurrent op)).

End FsService.

(** ** What POSIX promises *)

Inductive Node : Type := NDir | NFile (ino : nat).
Record FsView : Type := mkFsView { fv_tree : gmap PathBuf Node; fv_data : gmap nat bytes }.

Definition file_at (v : FsView) (p : PathBuf) : option bytes :=
  match fv_tree v !! p with Some (NFile i) => fv_data v !! i | _ => None end.

(** Bytes written over a file from an offset; a gap reads as zeros. *)
Definition patch (off : nat) (bs data : bytes) : bytes :=
  take off data ++ replicate (off - length data) x00 ++ bs ++ drop (off + length bs) data.

(** Directories were created, and nothing else changed. *)
Definition dirs_added (v v' : FsView) : Prop :=
  fv_data v' = fv_data v /\
  forall p, fv_tree v' !! p = fv_tree v !! p \/ fv_tree v !! p = None /\ fv_tree v' !! p = Some NDir.

Class PosixLaws (F H RD : Type) `{FileSystem F H RD} : Type := {
  fs_view : F -> FsView;
  h_ino : H -> nat;
  h_pos : H -> nat;
  (** [tokio::fs::File] buffers what is written to it. *)
  h_pending : H -> bytes;
  (** Names lead to files that exist. *)
  tree_law f p i : fv_tree (fs_view f) !! p = Some (NFile i) -> is_Some (fv_data (fs_view f) !! i);
  create_dir_law p f r f' :
    os_create_dir_all p f = (r, f') -> r <> Panic /\ dirs_added (fs_view f) (fs_view f');
  exists_law p f r f' :
    os_try_exists p f = (r, f') ->
    r <> Panic /\ fs_view f' = fs_view f /\ forall x, r = Ok x -> x = bool_decide (is_Some (fv_tree (fs_view f) !! p));
  metadata_law p f r f' :
    os_metadata p f = (r, f') ->
    r <> Panic /\ fs_view f' = fs_view f /\
    forall m, r = Ok m -> fm_modified m <> Panic /\ match fv_tree (fs_view f) !! p with
      | Some NDir => fm_is_dir m = true
      | Some (NFile i) => fm_is_dir m = false /\ fm_is_file m = true /\
          fv_data (fs_view f) !! i ≫= (fun d => Some (Z.of_nat (length d))) = Some (fm_len m)
      | None => False
      end;
  (** [create_new]: the file did not exist and is new and empty. *)
  create_new_law opts p f r f' :
    oo_create_new opts = true -> os_open_write opts p f = (r, f') ->
    r <> Panic /\
    match r with
    | Ok h => h_pending h = [] /\ fv_tree (fs_view f) !! p = None /\ fv_data (fs_view f) !! h_ino h = None /\
        fs_view f' = mkFsView (<[p := NFile (h_ino h)]> (fv_tree (fs_view f))) (<[h_ino h := []]> (fv_data (fs_view f)))
    | _ => fs_view f' = fs_view f
    end;
  (** [open] with [O_RDONLY] of what exists may succeed, of a directory too; a
      directory has no contents to read. *)
  open_read_law p f r f' :
    os_open_read p f = (r, f') ->
    r <> Panic /\ fs_view f' = fs_view f /\
    forall h, r = Ok h -> h_pos h = 0 /\
      (fv_tree (fs_view f) !! p = Some (NFile (h_ino h)) \/
       fv_tree (fs_view f) !! p = Some NDir /\ fv_data (fs_view f) !! h_ino h = None);
  (** [rename] replaces the target in one step. *)
  rename_law from to f r f' :
    os_rename from to f = (r, f') ->
    r <> Panic /\
    match r with
    | Ok _ => exists n, fv_tree (fs_view f) !! from = Some n /\
        (forall i, n = NFile i -> fs_view f' = mkFsView (<[to := n]> (delete from (fv_tree (fs_view f)))) (fv_data (fs_view f)))
    | _ => fs_view f' = fs_view f
    end;
  remove_file_law p f r f' :
    os_remove_file p f = (r, f') ->
    r <> Panic /\
    match r with
    | Ok _ => fs_view f' = mkFsView (delete p (fv_tree (fs_view f))) (fv_data (fs_view f))
    | _ => fs_view f' = fs_view f
    end;
  xattr_set_law p k v f r f' : xattr_set p k v f = (r, f') -> r <> Panic /\ fs_view f' = fs_view f;
  (** [pwrite] writes a prefix that is not empty. *)
  write_at_law bs off f h r f' h' :
    f_write_at bs off (f, h) = (r, (f', h')) ->
    r <> Panic /\ h_ino h' = h_ino h /\
    match r with
    | Ok n => n <= length bs /\ (bs <> [] -> 0 < n) /\ exists d, fv_data (fs_view f) !! h_ino h = Some d /\
        fs_view f' = mkFsView (fv_tree (fs_view f)) (<[h_ino h := patch (Z.to_nat off) (take n bs) d]> (fv_data (fs_view f)))
    | _ => fs_view f' = fs_view f
    end;
  (** [read] of a file returns a prefix of what is left, empty only at the end;
      of a directory it fails with [EISDIR]. *)
  read_law n f h r f' h' :
    f_read n (f, h) = (r, (f', h')) ->
    r <> Panic /\ fs_view f' = fs_view f /\ h_ino h' = h_ino h /\
    match r with
    | Ok bs => 0 < n -> exists d k, fv_data (fs_view f) !! h_ino h = Some d /\ bs = take k (drop (h_pos h) d) /\
        k <= n /\ h_pos h' = h_pos h + length bs /\ (h_pos h < length d -> 0 < k)
    | _ => h_pos h' = h_pos h
    end;
  seek_law off f h r f' h' :
    f_seek off (f, h) = (r, (f', h')) ->
    r <> Panic /\ fs_view f' = fs_view f /\ h_ino h' = h_ino h /\ (r = Ok tt -> h_pos h' = Z.to_nat off);
  (** Flushing and syncing a file that buffers nothing changes no contents. *)
  sync_law (x : bool) f h r f' h' :
    (if x then f_flush else f_sync_all) (f, h) = (r, (f', h')) ->
    r <> Panic /\ h_ino h' = h_ino h /\ (h_pending h = [] -> fs_view f' = fs_view f);
  file_metadata_law f h r f' h' :
    f_metadata (f, h) = (r, (f', h')) ->
    r <> Panic /\ fs_view f' = fs_view f /\ h_ino h' = h_ino h /\
    forall m, r = Ok m -> fm_modified m <> Panic /\
      forall d, fv_data (fs_view f) !! h_ino h = Some d -> fm_is_file m = true /\ fm_len m = Z.of_nat (length d);
  clone_law f h r f' h' :
    f_try_clone (f, h) = (r, (f', h')) ->
    r <> Panic /\ fs_view f' = fs_view f /\ h_ino h' = h_ino h /\ h_pending h' = h_pending h /\
    forall c, r = Ok c -> h_ino c = h_ino h /\ h_pending c = [];
}.

(** ** Patching *)

Lemma patch_lookup off bs d j :
  bs <> [] ->
  patch off bs d !! j =
  if decide (off <= j < off + length bs) then bs !! (j - off)
  else if decide (j < length d) then d !! j else if decide (j < off) then Some x00 else None.
Proof.
  intros Hne. unfold patch. assert (length bs <> 0) by by destruct bs.
  destruct (decide (j < off)) as [Hlt|Hge].
  - rewrite decide_False by lia. destruct (decide (j < length d)) as [Hd|Hd].
    + rewrite lookup_app_l by (rewrite length_take; lia). by rewrite lookup_take_lt.
    + rewrite lookup_app_r by (rewrite length_take; lia). rewrite lookup_app_l by (rewrite length_replicate, length_take; lia).
      apply lookup_replicate. rewrite length_take. split; [done|lia].
  - rewrite lookup_app_r by (rewrite length_take; lia).
    rewrite lookup_app_r by (rewrite length_replicate, length_take; lia).
    rewrite length_replicate, length_take.
    destruct (decide (j < off + length bs)) as [Hin|Hout].
    + rewrite decide_True by lia. rewrite lookup_app_l by lia. f_equal. lia.
    + rewrite decide_False by lia. rewrite lookup_app_r by lia. rewrite lookup_drop.
      replace (off + length bs + (j - off `min` length d - (off - length d) - length bs)) with j by lia.
      destruct (decide (j < length d)); [done|]. apply lookup_ge_None. lia.
Qed.

Lemma patch_length off bs d : bs <> [] -> length (patch off bs d) = Nat.max (length d) (off + length bs).
Proof. intros. unfold patch. rewrite !length_app, length_take, length_replicate, length_drop. lia. Qed.

(** A file under construction: positions that were written have the byte the plan
    has there, and the file is not longer than the plan. *)
Definition covered (done_ : list (nat * nat)) (j : nat) : Prop := exists o l, (o, l) ∈ done_ /\ o <= j < o + l.
Definition agrees (P : bytes) (done_ : list (nat * nat)) (d : bytes) : Prop :=
  length d <= length P /\ forall j, covered done_ j -> d !! j = P !! j.
Definition piece (P : bytes) (off : nat) (bs : bytes) : Prop :=
  off + length bs <= length P /\ bs = take (length bs) (drop off P).

Lemma piece_lookup P off bs j : piece P off bs -> off <= j < off + length bs -> bs !! (j - off) = P !! j.
Proof.
  intros [Hl ->] Hj. rewrite length_take, length_drop in Hj. rewrite lookup_take_lt, lookup_drop by lia. f_equal. lia.
Qed.

Lemma piece_split P off bs n :
  piece P off bs -> n <= length bs -> piece P off (take n bs) /\ piece P (off + n) (drop n bs).
Proof.
  intros [Hl E] Hn. unfold piece. rewrite length_take, length_drop. split_and!; [lia| |lia|].
  - rewrite E at 1. by rewrite take_take.
  - rewrite E at 1. by rewrite skipn_firstn_comm, drop_drop.
Qed.

Lemma agrees_patch P done_ d off bs :
  bs <> [] -> piece P off bs -> (forall j, covered done_ j -> j < length P) ->
  agrees P done_ d -> agrees P ((off, length bs) :: done_) (patch off bs d).
Proof.
  intros Hne Hp Hin [Hl Ha]. pose proof Hp as [Hle _]. split; [rewrite patch_length by done; lia|].
  intros j Hc. rewrite patch_lookup by done. destruct (decide (off <= j < off + length bs)) as [Hj|Hj].
  { by apply (piece_lookup P off bs j Hp). }
  destruct Hc as (o & l & [[= -> ->]|Ho]%elem_of_cons & Hjl); [lia|].
  assert (covered done_ j) as Hc by by exists o, l.
  specialize (Ha j Hc). specialize (Hin j Hc). apply lookup_lt_is_Some in Hin as [x Hx]. rewrite Hx in *.
  by rewrite decide_True by by eapply lookup_lt_Some.
Qed.

Lemma agrees_weaken P done_ done' d :
  (forall j, covered done' j -> covered done_ j) -> agrees P done_ d -> agrees P done' d.
Proof. intros Hsub [? Ha]. split; [done|]. intros j Hj. by apply Ha, Hsub. Qed.

Lemma agrees_all P done_ d : (forall j, j < length P -> covered done_ j) -> agrees P done_ d -> d = P.
Proof.
  intros Hall [Hl Ha]. apply list_eq. intros j. destruct (decide (j < length P)) as [Hj|Hj]; [by apply Ha, Hall|].
  rewrite !lookup_ge_None_2 by lia. done.
Qed.

Definition inside (P : bytes) (done_ : list (nat * nat)) : Prop := forall j, covered done_ j -> j < length P.
Lemma inside_cons P done_ off l : off + l <= length P -> inside P done_ -> inside P ((off, l) :: done_).
Proof. intros Hl Hin j (o & l' & [[= -> ->]|Ho]%elem_of_cons & Hj); [lia|]. apply Hin. by exists o, l'. Qed.

Section Writing.
  Context {F H RD : Type} `{PosixLaws F H RD}.
  Variable core : FsCore.
#[local] Set Default Proof Using "All".

(** The loop of [write_all_at]: short writes are continued; what was written before
    an error stays. *)
Lemma write_at_loop_spec P done_ fuel buf off f h d r f' h' :
  wf buf -> dense buf -> blen buf < fuel -> piece P off (contents buf) -> (Z.of_nat (length P) <= u64_max)%Z ->
  inside P done_ -> fv_data (fs_view f) !! h_ino h = Some d -> agrees P done_ d ->
  write_at_loop fuel buf (Z.of_nat off) (f, h) = (r, (f', h')) ->
  r <> Panic /\ h_ino h' = h_ino h /\ exists d',
    fs_view f' = mkFsView (fv_tree (fs_view f)) (<[h_ino h := d']> (fv_data (fs_view f))) /\
    agrees P (if is_ok r then (off, blen buf) :: done_ else done_) d'.
Proof.
  intros Hwf Hde Hf Hp HP. revert buf off f h d done_ Hwf Hde Hf Hp.
  induction fuel as [|fuel IH]; intros buf off f h d done_ Hwf Hde Hf Hp Hin Hd Ha E; [lia|].
  cbn [write_at_loop] in E. unfold is_empty in E.
  assert (length (contents buf) = blen buf) as Hlen by by apply contents_length.
  case_bool_decide as Hz.
  { injection E as <- <- <-. split_and!; [done..|]. exists d. split; [rewrite insert_id by done; by destruct (fs_view f)|].
    simpl. rewrite Hz. eapply agrees_weaken; [|done]. intros j (o & l & [[= -> ->]|Ho]%elem_of_cons & Hj); [lia|]. by exists o, l. }
  destruct (chunk_spec buf Hwf) as (c & k & Ec & Hck & Hne). specialize (Hne Hde Hz).
  unfold mbind, M_bind, lift, io in E. rewrite Ec in E.
  destruct (f_write_at c (Z.of_nat off) (f, h)) as [r1 [f1 h1]] eqn:Ew.
  destruct (write_at_law _ _ _ _ _ _ _ Ew) as (Hnp & Hino & Hw). rewrite Nat2Z.id in Hw.
  destruct r1 as [n|e|]; simpl in E; [|injection E as <- <- <-; split_and!; [done..|]; exists d; rewrite Hw, insert_id by done;
    by split; [destruct (fs_view f)|]|done].
  destruct Hw as (Hn & Hn0 & d0 & Hd0 & Hv). rewrite Hd in Hd0. injection Hd0 as <-. specialize (Hn0 Hne).
  assert (length c <= blen buf) as Hcl by (rewrite <- Hlen, Hck, length_app; lia).
  assert (take n c = take n (contents buf)) as Htake by (rewrite Hck, take_app_le by lia; done).
  destruct (piece_split P off (contents buf) n Hp) as [Hp1 Hp2]; [lia|]. rewrite <- Htake in Hp1.
  destruct (advance_ok buf n Hwf) as (buf' & Eadv & Hwf' & Hcon'); [lia|]. rewrite Eadv in E.
  assert (take n c <> []) as Hne1 by (destruct c; [done|]; by destruct n; [lia|]).
  pose proof (agrees_patch P done_ d off (take n c) Hne1 Hp1 Hin Ha) as Ha1. rewrite length_take, Nat.min_l in Ha1 by lia.
  assert (blen buf' = blen buf - n) as Hbl by (rewrite <- (contents_length buf' Hwf'), Hcon', length_drop; lia).
  destruct Hp as [Hple _]. rewrite wrap64_id in E by (unfold is_u64; lia).
  replace (Z.of_nat off + Z.of_nat n)%Z with (Z.of_nat (off + n)) in E by lia.
  destruct (IH buf' (off + n) f1 h1 (patch off (take n c) d) ((off, n) :: done_)) as (Hr & Hi & d' & Hv' & Ha');
    [done | by eapply advance_dense | lia | by rewrite Hcon' | by apply inside_cons; [lia|]
    | rewrite Hino, Hv; simpl; by rewrite lookup_insert_eq | done | exact E |].
  split_and!; [done | by rewrite Hi |]. exists d'. rewrite Hv', Hv, Hino. simpl. rewrite insert_insert_eq. split; [done|].
  destruct (is_ok r); eapply agrees_weaken; [|exact Ha'| |exact Ha'].
  - rewrite Hbl. intros j (o & l & [[= -> ->]|Ho]%elem_of_cons & Hj); [|exists o, l; split; [by do 2 right|done]].
    destruct (decide (j < off + n)); [exists off, n; split; [right; by left|lia]|].
    exists (off + n), (blen buf - n). split; [by left|lia].
  - intros j (o & l & Ho & Hj). exists o, l. by split; [right|].
Qed.

(** *** Sessions of an atomic write

    Pieces of the plan [P] are written in any order, some of them more than once,
    and some of the calls fail; [done_] is what was written successfully. *)
Inductive fs_session (old : option bytes) (target : PathBuf) (P : bytes) : list (nat * nat) -> F * FsWriter -> Prop :=
  | session_create random path op f w f' :
      fc_atomic_write_dir core <> None -> write_append op = false ->
      target = path_join (fc_root core) path ->
      (forall dir, fc_atomic_write_dir core = Some dir -> path_join dir (build_tmp_path_of random path) <> target) ->
      old = file_at (fs_view f) target ->
      fs_writer_create core random path op f = (Ok w, f') ->
      fs_session old target P [] (f', w)
  | session_write done_ s fuel off buf r s' :
      fs_session old target P done_ s ->
      wf buf -> dense buf -> blen buf < fuel -> piece P off (contents buf) ->
      write_all_at fuel (Z.of_nat off) buf s = (r, s') ->
      fs_session old target P (if is_ok r then (off, blen buf) :: done_ else done_) s'.

(** The temporary file has its name to itself, the target is as it was. *)
Record session_inv (old : option bytes) (target : PathBuf) (P : bytes) (done_ : list (nat * nat)) (s : F * FsWriter) : Prop :=
  mkSessionInv {
  si_target : fsw_target_path s.2 = target;
  si_inside : inside P done_;
  si_old : file_at (fs_view s.1) target = old;
  si_temp : exists tmp d, fsw_temp_path s.2 = Some tmp /\ tmp <> target /\
    fv_tree (fs_view s.1) !! tmp = Some (NFile (h_ino (fsw_f s.2))) /\
    fv_data (fs_view s.1) !! h_ino (fsw_f s.2) = Some d /\ agrees P done_ d /\
    forall q, fv_tree (fs_view s.1) !! q = Some (NFile (h_ino (fsw_f s.2))) -> q = tmp;
}.

Lemma file_at_dirs v v' p : dirs_added v v' -> file_at v' p = file_at v p.
Proof. intros [Hd Ht]. unfold file_at. rewrite Hd. by destruct (Ht p) as [->|[-> ->]]. Qed.

Lemma file_at_data v i d p :
  (forall q, fv_tree v !! q = Some (NFile i) -> q <> p) ->
  file_at (mkFsView (fv_tree v) (<[i := d]> (fv_data v))) p = file_at v p.
Proof.
  intros Hq. unfold file_at. simpl. destruct (fv_tree v !! p) as [[|j]|] eqn:E; [done| |done].
  rewrite lookup_insert_ne; [done|]. intros ->. by apply (Hq p).
Qed.

Lemma ensure_path_spec parent path f r f' :
  ensure_write_abs_path parent path f = (r, f') ->
  r <> Panic /\ dirs_added (fs_view f) (fs_view f') /\ forall p, r = Ok p -> p = path_join parent path.
Proof.
  unfold ensure_write_abs_path, mbind, M_bind, lift, io. intros E.
  destruct (path_parent (path_join parent path)) as [dir|]; simpl in E.
  2: { injection E as <- <-. split_and!; [done|split; by eauto|done]. }
  destruct (os_create_dir_all dir f) as [r1 f1] eqn:E1. destruct (create_dir_law _ _ _ _ E1) as [Hnp Hd].
  destruct r1 as [[]|e|]; simpl in E; [| |done]; injection E as <- <-; split_and!; try done. by intros p [= <-].
Qed.

Lemma dirs_added_tree v v' p i : dirs_added v v' -> fv_tree v' !! p = Some (NFile i) -> fv_tree v !! p = Some (NFile i).
Proof. intros [_ Ht] Hp. destruct (Ht p) as [E|[_ E]]; [by rewrite <- E|congruence]. Qed.

Lemma tempfile_spec random path f r f' :
  fs_tempfile_write core random path f = (r, f') ->
  match r with
  | Ok (h, t) => exists dir tmp, fc_atomic_write_dir core = Some dir /\ t = Some tmp /\
      tmp = path_join dir (build_tmp_path_of random path) /\ h_pending h = [] /\
      fv_tree (fs_view f') !! tmp = Some (NFile (h_ino h)) /\ fv_data (fs_view f') !! h_ino h = Some [] /\
      (forall q, fv_tree (fs_view f') !! q = Some (NFile (h_ino h)) -> q = tmp) /\
      forall q, q <> tmp -> file_at (fs_view f') q = file_at (fs_view f) q
  | _ => forall q, file_at (fs_view f') q = file_at (fs_view f) q
  end.
Proof.
  unfold fs_tempfile_write. destruct (fc_atomic_write_dir core) as [dir|]; [|by unfold throw; intros [= <- <-]].
  unfold mbind, M_bind, io_parse, mret, M_ret. intros E.
  destruct (ensure_write_abs_path dir (build_tmp_path_of random path) f) as [r1 f1] eqn:E1.
  destruct (ensure_path_spec _ _ _ _ _ E1) as (Hnp & Hda & Hp).
  destruct r1 as [tmp|e|]; [|injection E as <- <-; intros q; by apply file_at_dirs|done].
  rewrite (Hp tmp eq_refl) in *. destruct (os_open_write _ _ f1) as [r2 f2] eqn:E2.
  destruct (create_new_law (mkOpen false true false true) _ _ _ _ eq_refl E2) as [Hnp2 Ho].
  destruct r2 as [h|e|]; simpl in E; [|injection E as <- <-; intros q; rewrite Ho; by apply file_at_dirs|done].
  injection E as <- <-. destruct Ho as (Hpend & Hfree & Hfresh & Hv).
  assert (forall q, fv_tree (fs_view f1) !! q <> Some (NFile (h_ino h))) as Hno.
  { intros q Hq. apply tree_law in Hq as [? ?]. congruence. }
  exists dir, (path_join dir (build_tmp_path_of random path)). rewrite Hv. simpl.
  rewrite !lookup_insert_eq. split_and!; try done.
  - intros q. destruct (decide (q = path_join dir (build_tmp_path_of random path))) as [->|Hne]; [done|].
    rewrite lookup_insert_ne by done. intros Hq. by apply Hno in Hq.
  - intros q Hne. rewrite <- (file_at_dirs _ _ q Hda). unfold file_at. simpl. rewrite lookup_insert_ne by done.
    destruct (fv_tree (fs_view f1) !! q) as [[|j]|] eqn:Eq; [done| |done]. rewrite lookup_insert_ne; [done|].
    intros <-. by apply Hno in Eq.
Qed.

Lemma session_ok old target P done_ s :
  (Z.of_nat (length P) <= u64_max)%Z -> fs_session old target P done_ s -> session_inv old target P done_ s.
Proof.
  intros HP. induction 1 as [random path op f w f' Hat Hap Htg Htmp Hold E | done_ s fuel off buf r s' Hs IH Hwf Hde Hf Hp E].
  - unfold fs_writer_create in E. destruct (fc_atomic_write_dir core) as [dir|] eqn:Hdir; [|done].
    unfold mbind, M_bind, io, throw, mret, M_ret in E.
    destruct (ensure_write_abs_path (fc_root core) path f) as [r1 f1] eqn:E1.
    destruct (ensure_path_spec _ _ _ _ _ E1) as (_ & Hda & Hpe). destruct r1 as [tp|e|]; [|done..].
    rewrite (Hpe tp eq_refl) in *. destruct (os_try_exists _ f1) as [r2 f2] eqn:E2.
    destruct (exists_law _ _ _ _ E2) as (_ & Hv2 & _). destruct r2 as [x|e|]; simpl in E; [|done..].
    destruct (write_if_not_exists op && x); [done|]. rewrite Hap in E. simpl in E.
    destruct (fs_tempfile_write core random path f2) as [r3 f3] eqn:E3. pose proof (tempfile_spec _ _ _ _ _ E3) as Ht.
    destruct r3 as [[h t]|e|]; [|done..]. injection E as <- <-.
    destruct Ht as (dir' & tmp & Hdir' & -> & Htm & _ & Hft & Hfd & Huniq & Hoth).
    assert (tmp <> target) as Hne by (rewrite Htm; naive_solver).
    split; simpl; [done | by intros j (o & l & ?%not_elem_of_nil & _) | |].
    + rewrite Hoth by done. rewrite Hv2, Hold. by apply file_at_dirs.
    + exists tmp, []. split_and!; [done..| |done]. split; [simpl; lia|]. by intros j (o & l & ?%not_elem_of_nil & _).
  - destruct IH as [Htg Hin Hold (tmp & d & Htmp & Hne & Hft & Hfd & Hag & Huniq)]. destruct s as [f w]. simpl in *.
    unfold write_all_at, mbind, M_bind, on_file, zoom, io in E. simpl in E.
    destruct (f_try_clone (f, fsw_f w)) as [r1 [f1 h1]] eqn:E1.
    destruct (clone_law _ _ _ _ _ E1) as (_ & Hv1 & Hi1 & _ & Hc). destruct r1 as [c|e|]; simpl in E.
    2: { injection E as <- <-. split; simpl; rewrite ?Hv1, ?Hi1; try done. by exists tmp, d. }
    2: { injection E as <- <-. split; simpl; rewrite ?Hv1, ?Hi1; try done. by exists tmp, d. }
    destruct (Hc c eq_refl) as [Hci _]. unfold on_clone, set_file in E. simpl in E.
    destruct (write_at_loop fuel buf (Z.of_nat off) (f1, c)) as [r2 [f2 c2]] eqn:E2. injection E as <- <-.
    destruct (write_at_loop_spec P done_ fuel buf off f1 c d r2 f2 c2) as (_ & _ & d' & Hv2 & Ha2);
      [done..| by rewrite Hv1, Hci | done | done |].
    rewrite Hv1, Hci in Hv2. split; simpl; rewrite ?Hi1, ?Hv2; simpl; try done.
    + destruct (is_ok r2); [|done]. apply inside_cons; [|done]. destruct Hp as [Hle _]. by rewrite contents_length in Hle.
    + rewrite file_at_data; [done|]. intros q Hq. by rewrite (Huniq q Hq).
    + exists tmp, d'. rewrite lookup_insert_eq. by split_and!.
Qed.

Lemma set_xattrs_view p kvs f r f' :
  set_xattrs p kvs f = (r, f') -> r <> Panic /\ fs_view f' = fs_view f.
Proof.
  revert f. induction kvs as [|[k v] kvs IH]; intros f; simpl; [by intros [= <- <-]|].
  unfold mbind, M_bind, io. destruct (xattr_set p _ v f) as [r1 f1] eqn:E1. destruct (xattr_set_law _ _ _ _ _ _ E1) as [Hnp Hv].
  destruct r1 as [[]|e|]; simpl; [|by intros [= <- <-]|done]. intros E. destruct (IH _ E) as [? ->]. done.
Qed.

(** Renaming the temporary file publishes what was written to it. *)
Lemma publish_spec old target P done_ f w w1 r s' :
  session_inv old target P done_ (f, w) -> publish w (f, w1) = (r, s') ->
  r <> Panic /\ exists d, fv_data (fs_view s'.1) !! h_ino (fsw_f w) = Some d /\ agrees P done_ d /\
  (is_ok r = false /\ file_at (fs_view s'.1) target = old \/ file_at (fs_view s'.1) target = Some d).
Proof.
  intros [Htg _ Hold (tmp & d & Htmp & Hne & Hft & Hfd & Hag & _)] E. simpl in *. unfold publish, mbind, M_bind, on_fs, zoom, io in E.
  rewrite Htmp in E. simpl in E. destruct (os_rename tmp (fsw_target_path w) f) as [r1 f1] eqn:E1.
  destruct (rename_law _ _ _ _ _ E1) as [Hnp Hr]. destruct r1 as [[]|e|]; simpl in E; [| |done].
  2: { injection E as <- <-. simpl. rewrite Hr. split_and!; [done..|]. exists d. split_and!; [done..|]. by left. }
  destruct Hr as (n & Hn & Hv). rewrite Hft in Hn. injection Hn as <-. specialize (Hv _ eq_refl).
  assert (fv_data (fs_view f1) !! h_ino (fsw_f w) = Some d /\ file_at (fs_view f1) target = Some d) as [Hd1 Hf1].
  { rewrite Hv. simpl. split; [done|]. unfold file_at. simpl. by rewrite Htg, lookup_insert_eq. }
  destruct (fsw_user_metadata w) as [um|]; simpl in E.
  - destruct (set_user_metadata (fsw_target_path w) um f1) as [r2 f2] eqn:E2.
    apply set_xattrs_view in E2 as [Hnp2 Hv2]. injection E as <- <-. simpl. rewrite Hv2. split_and!; [done..|].
    exists d. split_and!; [done..|]. by right.
  - injection E as <- <-. simpl. split_and!; [done..|]. exists d. split_and!; [done..|]. by right.
Qed.

Lemma meta_of_ok {S} mode m (s : S) r s' :
  fm_modified m <> Panic -> meta_of mode m s = (r, s') ->
  r <> Panic /\ s' = s /\ forall x, r = Ok x -> m_content_length x = Some (fm_len m).
Proof.
  intros Hm. unfold meta_of, mbind, M_bind, lift. destruct (fm_modified m); simpl; [| |done]; intros [= <- <-]; [|done].
  split_and!; try done. by intros x [= <-].
Qed.

Lemma session_inv_view old target P done_ f f' w :
  fs_view f' = fs_view f -> session_inv old target P done_ (f, w) -> session_inv old target P done_ (f', w).
Proof. intros Hv []. split; simpl in *; by rewrite ?Hv. Qed.

(** A call on a clone of the file that leaves the files alone. *)
Lemma clone_sync (x : bool) h f w r s' :
  h_pending h = [] -> on_clone h (io (if x then f_flush else f_sync_all)) (f, w) = (r, s') ->
  r <> Panic /\ fs_view s'.1 = fs_view f /\ s'.2 = w.
Proof.
  intros Hp. unfold on_clone, io. destruct ((if x then f_flush else f_sync_all) (f, h)) as [r1 [f1 h1]] eqn:E1.
  destruct (sync_law x _ _ _ _ _ E1) as (Hnp & _ & Hv). specialize (Hv Hp).
  intros [= <- <-]. split_and!; [by destruct r1 | done | done].
Qed.

(** What a close may end with. *)
Definition close_post (old : option bytes) (target : PathBuf) (P : bytes) (done_ : list (nat * nat))
    (out : result Metadata * (F * FsWriter (H := H))) : Prop :=
  let '(r, s') := out in
  let covers := forall j, j < length P -> covered done_ j in
  r <> Panic /\
  (covers -> file_at (fs_view s'.1) target = old \/ file_at (fs_view s'.1) target = Some P) /\
  forall m, r = Ok m -> exists d, file_at (fs_view s'.1) target = Some d /\
    m_content_length m = Some (Z.of_nat (length d)) /\ agrees P done_ d /\ (covers -> d = P).

#[local] Arguments close_post : simpl never.

Lemma close_post_err old target P done_ (e : Error) s' :
  file_at (fs_view s'.1) target = old -> close_post old target P done_ (Err e, s').
Proof. intros Ho. split_and!; [done | by left | done]. Qed.

(** From the rename on. *)
Lemma publish_post old target P done_ f w w1 h :
  session_inv old target P done_ (f, w) -> h_ino h = h_ino (fsw_f w) ->
  close_post old target P done_
    ((publish w;; file_meta ← on_clone h (io f_metadata);
      meta_of (if fm_is_file file_meta then FILE else if fm_is_dir file_meta then DIR else Unknown) file_meta) (f, w1)).
Proof.
  intros Hinv Hh. unfold mbind, M_bind. destruct (publish w (f, w1)) as [r1 [f1 w2]] eqn:E1.
  destruct (publish_spec _ _ _ _ _ _ _ _ _ Hinv E1) as (Hnp & d & Hd & Hag & Hor). simpl in *.
  destruct r1 as [[]|e|]; [| |done].
  - destruct Hor as [[? _]|Hnew]; [done|]. unfold on_clone, io.
    destruct (f_metadata (f1, h)) as [r2 [f2 h2]] eqn:E2. destruct (file_metadata_law _ _ _ _ _ E2) as (Hnp2 & Hv2 & _ & Hm).
    destruct r2 as [m|e|]; simpl; [| |done].
    + destruct (Hm m eq_refl) as (Hmod & Hfile). rewrite Hh in Hfile. destruct (Hfile d Hd) as [_ Hlen].
      destruct (meta_of _ m (f2, w2)) as [r3 s3] eqn:E3. destruct (meta_of_ok _ _ _ _ _ Hmod E3) as (Hnp3 & -> & Hcl).
      unfold close_post. simpl. rewrite Hv2. split_and!; [done | |].
      * intros Hc. right. by rewrite Hnew, (agrees_all _ _ _ Hc Hag).
      * intros x Hx. exists d. split_and!; [done | by rewrite (Hcl x Hx), Hlen | done |]. intros Hc. by apply (agrees_all _ _ _ Hc Hag).
    + split_and!; [done| |done]. simpl. rewrite Hv2. intros Hc. right. by rewrite Hnew, (agrees_all _ _ _ Hc Hag).
  - split_and!; [done| |done]. simpl. destruct Hor as [[_ ?]|Hnew]; [by left|]. intros Hc. right.
    by rewrite Hnew, (agrees_all _ _ _ Hc Hag).
Qed.

(** C16.  An atomic write: pieces of an object are written in any order, repeated,
    and some calls fail half-way.  Until the writer is closed readers see the
    old object, or none.  Whatever fails during the close, they then see the old
    object or the new file; a close that succeeds has published the new file,
    and if the successful writes cover the object that is the object itself,
    whose length is reported.  An abort leaves the old object. *)
Theorem fs_atomic_write old target P done_ s size :
  (Z.of_nat (length P) <= u64_max)%Z -> fs_session old target P done_ s ->
  let covers := forall j, j < length P -> covered done_ j in
  file_at (fs_view s.1) target = old /\
  (let '(r, s') := position_writer_close size s in
   r <> Panic /\
   (covers -> file_at (fs_view s'.1) target = old \/ file_at (fs_view s'.1) target = Some P) /\
   forall m, r = Ok m -> exists d, file_at (fs_view s'.1) target = Some d /\
     m_content_length m = Some (Z.of_nat (length d)) /\ agrees P done_ d /\ (covers -> d = P)) /\
  (let '(r, s') := fs_writer_abort s in r <> Panic /\ file_at (fs_view s'.1) target = old).
Proof.
  intros HP Hs covers. pose proof (session_ok _ _ _ _ _ HP Hs) as Hinv. split_and!; [apply Hinv| |].
  - change (close_post old target P done_ (position_writer_close size s)). destruct s as [f w].
    unfold position_writer_close, on_file, zoom. unfold mbind at 1 2, M_bind at 1 2, get, io at 1. simpl.
    destruct (f_try_clone (f, fsw_f w)) as [r1 [f1 h1]] eqn:E1.
    destruct (clone_law _ _ _ _ _ E1) as (Hnp1 & Hv1 & Hi1 & _ & Hc).
    assert (session_inv old target P done_ (f1, w)) as Hinv1 by by eapply session_inv_view.
    destruct r1 as [h|e|]; simpl; [|by apply close_post_err, Hinv1|done].
    destruct (Hc h eq_refl) as [Hh Hpend]. unfold set_file. simpl. set (w1 := mkFsWriter _ _ h1 _).
    unfold mbind at 1, M_bind at 1. destruct (on_clone h (io f_flush) (f1, w1)) as [r2 [f2 w2]] eqn:E2.
    destruct (clone_sync true h f1 w1 _ _ Hpend E2) as (Hnp2 & Hv2 & Hw2). simpl in *.
    assert (session_inv old target P done_ (f2, w)) as Hinv2 by by eapply session_inv_view.
    destruct r2 as [[]|e|]; simpl; [|by apply close_post_err, Hinv2|done].
    unfold mbind at 1, M_bind at 1. destruct (on_clone h (io f_sync_all) (f2, w2)) as [r3 [f3 w3]] eqn:E3.
    destruct (clone_sync false h f2 w2 _ _ Hpend E3) as (Hnp3 & Hv3 & Hw3). simpl in *.
    assert (session_inv old target P done_ (f3, w)) as Hinv3 by by eapply session_inv_view.
    destruct r3 as [[]|e|]; simpl; [|by apply close_post_err, Hinv3|done].
    apply publish_post; [done|done].
  - destruct Hinv as [Htg _ Hold (tmp & d & Htmp & Hne & _)]. destruct s as [f w]. simpl in *.
    unfold fs_writer_abort, mbind, M_bind, get. simpl. rewrite Htmp. unfold on_fs, zoom, io. simpl.
    destruct (os_remove_file tmp f) as [r1 f1] eqn:E1. destruct (remove_file_law _ _ _ _ E1) as [Hnp Hr].
    split; [by destruct r1|]. simpl. destruct r1 as [[]|e|]; [|by rewrite Hr|done].
    rewrite Hr. unfold file_at. simpl. by rewrite lookup_delete_ne.
Qed.

End Writing.

(** ** Reading *)

Lemma take_prefix_split (l r : bytes) n :
  l = take (length l) r -> length l <= n -> take n r = l ++ take (n - length l) (drop (length l) r).
Proof.
  intros El Hn. rewrite <- (take_drop (length l) r) at 1. rewrite <- El. by rewrite take_app_ge.
Qed.

Section Reading.
  Context {F H RD : Type} `{PosixLaws F H RD}.
  Variable core : FsCore.
#[local] Set Default Proof Using "All".

(** What a reader has left of the file's bytes [d]. *)
Definition reader_rest (d : bytes) (s : FsReader (H := H)) : bytes :=
  take (Z.to_nat (fr_size s - fr_read s)) (drop (h_pos (fr_f s)) d).

(** One call: a prefix of what is left, empty only if nothing is left. *)
Lemma fs_reader_step d f s r f' s' :
  fv_data (fs_view f) !! h_ino (fr_f s) = Some d -> (0 < fr_buf_size s)%Z ->
  fs_reader_read (f, s) = (r, (f', s')) ->
  r <> Panic /\ forall buf, r = Ok buf -> wf buf /\ (blen buf = 0 -> reader_rest d s = []) /\
    (blen buf <> 0 -> fv_data (fs_view f') !! h_ino (fr_f s') = Some d /\ fr_buf_size s' = fr_buf_size s /\
     reader_rest d s = contents buf ++ reader_rest d s').
Proof.
  intros Hd Hb E. unfold fs_reader_read in E. case_bool_decide as Hend.
  { injection E as <- <- <-. split; [done|]. intros buf [= <-]. split_and!; [done| |done]. intros _. unfold reader_rest.
    by replace (Z.to_nat _) with 0 by lia. }
  unfold io in E. destruct (f_read _ (f, fr_f s)) as [r1 [f1 h1]] eqn:E1.
  destruct (read_law _ _ _ _ _ _ E1) as (Hnp & Hv & Hi & Hr).
  destruct r1 as [bs|e|]; simpl in E; injection E as <- <- <-; [|done..]. split; [done|]. intros buf [= <-].
  destruct Hr as (d0 & k & Hd0 & Hbs & Hk & Hpos & Hprog); [lia|]. rewrite Hd in Hd0. injection Hd0 as <-.
  assert (length bs = k `min` (length d - h_pos (fr_f s))) as Hl by by rewrite Hbs, length_take, length_drop.
  split_and!; [done | |]; simpl; intros Hz.
  - unfold reader_rest. rewrite drop_ge by lia. apply take_nil.
  - split_and!; [by rewrite Hv, Hi | done |]. unfold reader_rest at 2. simpl. rewrite Hpos, <- drop_drop.
    replace (Z.to_nat (fr_size s - (fr_read s + Z.of_nat (length bs))))
      with (Z.to_nat (fr_size s - fr_read s) - length bs) by lia.
    apply take_prefix_split; [|lia]. rewrite Hl, Hbs.
    destruct (Nat.min_spec k (length d - h_pos (fr_f s))) as [[? ->]|[? ->]]; [done|].
    rewrite !take_ge by (rewrite length_drop; lia). done.
Qed.

Lemma fs_reader_serves d m f s :
  fv_data (fs_view f) !! h_ino (fr_f s) = Some d -> (0 < fr_buf_size s)%Z -> length (reader_rest d s) <= m ->
  exists n, n <= m /\ Serves fs_reader_read false (f, s) (reader_rest d s) n.
Proof.
  revert f s. induction m as [|m IH]; intros f s Hd Hb Hm.
  all: destruct (fs_reader_read (f, s)) as [r [f1 s1]] eqn:E;
    destruct (fs_reader_step d f s r f1 s1 Hd Hb E) as [Hnp Hok];
    destruct r as [buf|e|]; [|exists 0; split; [lia|by eapply Serves_fail]|done];
    destruct (Hok buf eq_refl) as (Hwf & Hstop & Hgo);
    (destruct (decide (blen buf = 0)) as [Hz|Hz]; [rewrite (Hstop Hz); exists 0; split; [lia|by eapply Serves_end]|]);
    destruct (Hgo Hz) as (Hd1 & Hb1 & Hrest); pose proof (f_equal length Hrest) as Hl;
    rewrite length_app, contents_length in Hl by done.
  1: lia.
  destruct (IH f1 s1) as (n & Hn & Hserve); [done | by rewrite Hb1 | lia |].
  exists (S n). split; [lia|]. rewrite Hrest. by eapply Serves_more.
Qed.

(** The range a caller passes, in the width of its fields. *)
Definition range_fits (r : BytesRange) : Prop := is_u64 (Range.offset r) /\ forall n, Range.size r = Some n -> is_u64 n.

(** Every read of a directory fails, again and again; a reader for no bytes at all
    does not ask. *)
Lemma fs_reader_dir f s :
  fv_data (fs_view f) !! h_ino (fr_f s) = None -> (0 < fr_buf_size s)%Z -> (fr_read s < fr_size s)%Z ->
  exists e f' s', fs_reader_read (f, s) = (Err e, (f', s')) /\
    fv_data (fs_view f') !! h_ino (fr_f s') = None /\ fr_buf_size s' = fr_buf_size s /\
    fr_read s' = fr_read s /\ fr_size s' = fr_size s.
Proof.
  intros Hd Hb Hlt. unfold fs_reader_read, io. rewrite bool_decide_eq_false_2 by lia.
  destruct (f_read _ (f, fr_f s)) as [r1 [f1 h1]] eqn:E1.
  destruct (read_law _ _ _ _ _ _ E1) as (Hnp & Hv & Hi & Hr).
  destruct r1 as [bs|e|]; simpl; [|do 3 eexists; split_and!; [done | by cbn; rewrite Hv, Hi | done..]|done].
  destruct Hr as (d & k & Hd' & _); [lia|]. by rewrite Hd in Hd'.
Qed.

Definition reads_again (s : F * FsReader (H := H)) : F * FsReader (H := H) := (fs_reader_read s).2.

Lemma fs_reader_dir_fails m f s :
  fv_data (fs_view f) !! h_ino (fr_f s) = None -> (0 < fr_buf_size s)%Z -> (fr_read s < fr_size s)%Z ->
  exists e, (fs_reader_read (Nat.iter m reads_again (f, s))).1 = Err e.
Proof.
  revert f s. induction m as [|m IH]; intros f s Hd Hb Hlt;
    destruct (fs_reader_dir f s Hd Hb Hlt) as (e & f1 & s1 & E & Hd1 & Hb1 & Hr1 & Hs1).
  - exists e. exact (f_equal fst E).
  - rewrite Nat.iter_succ_r. unfold reads_again at 2. rewrite E. apply IH; [done | by rewrite Hb1 | by rewrite Hr1, Hs1].
Qed.

Lemma fs_backend_read_opens path args f rp rd f' :
  fs_backend_read core path args f = (Ok (rp, rd), f') ->
  exists h h' f1, os_open_read (target_path core path) f = (Ok h, f1) /\ fs_view f' = fs_view f /\
    h_ino h' = h_ino h /\ h_pos h' = Z.to_nat (Range.offset (read_range args)) /\
    rd = fs_reader_new h' (default u64_max (Range.size (read_range args))).
Proof.
  intros E. unfold fs_backend_read, fs_read, mbind, M_bind, io, mret, M_ret in E.
  destruct (os_open_read (target_path core path) f) as [r1 f1] eqn:E1.
  destruct (open_read_law _ _ _ _ E1) as (_ & Hv1 & Hopen). destruct r1 as [h|e|]; simpl in E; [|done..].
  destruct (Hopen h eq_refl) as [Hpos _]. exists h.
  case_bool_decide as Hz; simpl in E.
  - unfold seek_to, io in E. destruct (f_seek _ (f1, h)) as [r2 [f2 h2]] eqn:E2.
    destruct (seek_law _ _ _ _ _ _ E2) as (_ & Hv2 & Hi2 & Hp2). destruct r2 as [[]|e|]; simpl in E; [|done..].
    injection E as _ <- <-. exists h2, f1. split_and!; [done | by rewrite Hv2 | done | by apply Hp2 | done].
  - injection E as _ <- <-. exists h, f1. split_and!; [done..| |done]. by rewrite Hpos, Hz.
Qed.

(** C17.  Reading: the operating system opens directories too, and the service does
    not look.  When the path is a file, the reader that was opened for a range
    serves exactly the bytes of the object the range selects, however short the
    reads of the operating system are, or fails; it never serves other bytes,
    never panics and never ends early.  Otherwise the path is a directory, and
    every read fails, unless no byte was asked for, when the answer is empty. *)
Theorem fs_read_range path args f rp rd f' :
  range_fits (read_range args) ->
  fs_backend_read core path args f = (Ok (rp, rd), f') ->
  match fv_tree (fs_view f) !! target_path core path with
  | Some (NFile _) =>
      exists data, file_at (fs_view f) (target_path core path) = Some data /\
        ((Z.of_nat (length data) <= u64_max)%Z ->
         exists n, n <= length (sub data (read_range args)) /\
           Serves fs_reader_read false (f', rd) (sub data (read_range args)) n)
  | Some NDir =>
      forall m, let r := (fs_reader_read (Nat.iter m reads_again (f', rd))).1 in
        (exists e, r = Err e) \/ Range.size (read_range args) = Some 0%Z /\ r = Ok Buffer.new
  | None => False
  end.
Proof.
  intros [Hoff Hsize] E. destruct (fs_backend_read_opens _ _ _ _ _ _ E) as (h & h' & f1 & E1 & Hv & Hi & Hp & ->).
  clear E. destruct (open_read_law _ _ _ _ E1) as (_ & _ & Hopen). destruct (Hopen h eq_refl) as [_ [Htree|[Htree Hnone]]].
  - rewrite Htree. destruct (tree_law _ _ _ Htree) as [data Hdata].
    exists data. split; [unfold file_at; by rewrite Htree|]. intros Hlen.
    replace (sub data (read_range args)) with
      (take (Z.to_nat (default u64_max (Range.size (read_range args)) - 0)) (drop (h_pos h') data)).
    + eapply fs_reader_serves; simpl; [by rewrite Hv, Hi | lia | done].
    + rewrite Hp, Z.sub_0_r. unfold sub. destruct (Range.size (read_range args)); simpl; [done|].
      apply take_ge. rewrite length_drop. lia.
  - rewrite Htree. intros m r. destruct (decide (Range.size (read_range args) = Some 0%Z)) as [Hz|Hz].
    + right. split; [done|]. unfold r. rewrite Hz. simpl.
      assert (Nat.iter m reads_again (f', fs_reader_new h' 0) = (f', fs_reader_new h' 0)) as ->; [|done].
      clear. induction m as [|m IH]; [done|]. simpl. by rewrite IH.
    + left. apply fs_reader_dir_fails; simpl; [by rewrite Hv, Hi | lia |].
      destruct (Range.size (read_range args)) as [z|]; simpl; [|unfold u64_max; lia].
      specialize (Hsize z eq_refl). unfold is_u64 in Hsize. assert (z <> 0%Z) by congruence. lia.
Qed.

End Reading.

(** ** The pool of read buffers ([raw/oio/buf/pooled_buf.rs])

    A [BytesMut] is its contents; [locked] says that [try_lock] fails, because
    another task holds the lock. *)

Record PooledBuf : Type := mkPool { pb_pool : list bytes; pb_size : nat }.
Definition pool_new (size : nat) : PooledBuf := mkPool [] size.
Definition pool_get (locked : bool) (p : PooledBuf) : bytes * PooledBuf :=
  if locked then ([], p)
  else match pb_pool p with
  | buf :: rest => (buf, mkPool rest (pb_size p))
  | [] => ([], p)
  end.
Definition pool_put (locked : bool) (buf : bytes) (p : PooledBuf) : PooledBuf :=
  if locked then p
  else if bool_decide (length (pb_pool p) < pb_size p) then mkPool (pb_pool p ++ [[]]) (pb_size p) else p.

(** [FsReader::read] fills the spare capacity behind what the buffer holds, then
    sets its length to the number of bytes that were read. *)
Definition fill_buffer (buf read : bytes) : bytes := take (length read) (buf ++ read).

(** What tasks that share the pool do with it. *)
Inductive PoolUse : Type := UseGet (locked : bool) | UsePut (locked : bool) (buf : bytes).
Definition pool_use (u : PoolUse) (p : PooledBuf) : PooledBuf :=
  match u with UseGet locked => (pool_get locked p).2 | UsePut locked buf => pool_put locked buf p end.
Definition pool_ok (p : PooledBuf) : Prop := Forall (eq []) (pb_pool p) /\ length (pb_pool p) <= pb_size p.

Lemma pool_use_ok u p : pool_ok p -> pool_ok (pool_use u p).
Proof.
  intros [He Hl]. destruct u as [locked|locked buf]; simpl.
  - unfold pool_get. destruct locked; [done|]. destruct p as [[|buf rest] n]; [done|]. simpl in *.
    apply Forall_cons in He as [_ He]. split; simpl; [done|lia].
  - unfold pool_put. destruct locked; [done|]. case_bool_decide as Hlt; [|done]. split; simpl.
    + apply Forall_app. split; [done|by repeat constructor].
    + rewrite length_app. simpl. lia.
Qed.

(** However tasks use the pool, it never keeps more buffers than its size, every
    buffer it hands out is empty, and so a read returns the bytes that were read. *)
Theorem pool_serves_empty_buffers uses size locked read :
  let p := foldr pool_use (pool_new size) uses in
  length (pb_pool p) <= size /\ (pool_get locked p).1 = [] /\ fill_buffer (pool_get locked p).1 read = read.
Proof.
  intros p. assert (pool_ok p) as [He Hl].
  { unfold p. induction uses as [|u uses IH]; [split; simpl; [constructor|lia]|]. by apply pool_use_ok. }
  assert (pb_size p = size) as Hs.
  { unfold p. clear He Hl p. induction uses as [|u uses IH]; [done|]. simpl.
    destruct u as [l|l buf]; simpl; [unfold pool_get|unfold pool_put]; destruct l; [done| |done|].
    - by destruct (pb_pool _).
    - by case_bool_decide. }
  assert ((pool_get locked p).1 = []) as Hg.
  { unfold pool_get. destruct locked; [done|]. destruct (pb_pool p) as [|buf rest]; [done|].
    by apply Forall_cons in He as [<- _]. }
  split_and!; [by rewrite <- Hs | done |]. rewrite Hg. apply firstn_all.
Qed.

(** ** A file system in memory

    It satisfies the laws, so what was proved from them is not empty.  A
    directory can be created, looked at and opened; other calls on it fail. *)

Module MemFs.

Record Handle : Type := mkHandle { mh_ino : nat; mh_pos : nat }.

(** Every name leads to a file. *)
Definition whole (v : FsView) : Prop :=
  map_Forall (fun _ n => match n with NDir => true | NFile i => bool_decide (is_Some (fv_data v !! i)) end = true) (fv_tree v).
#[export] Instance whole_dec v : Decision (whole v).
Proof. apply map_Forall_dec. intros p n. apply _. Defined.
Definition view (v : FsView) : FsView := if decide (whole v) then v else mkFsView ∅ ∅.

Definition io_err (k : IoErrorKind) : IoError := mkIoError k (inr []).
Definition refuse {X} (k : IoErrorKind) : M FsView IoError X := fun v => (Err (io_err k), view v).
Definition prefixes (p : PathBuf) : list PathBuf := (fun n => take n p) <$> seq 1 (length p).
Definition is_file (n : option Node) : bool := match n with Some (NFile _) => true | _ => false end.
Definition add_dir (q : PathBuf) (t : gmap PathBuf Node) : gmap PathBuf Node :=
  match t !! q with Some _ => t | None => <[q := NDir]> t end.
Definition create_dir_all (p : PathBuf) : M FsView IoError unit := fun v0 =>
  let v := view v0 in
  if existsb (fun q => is_file (fv_tree v !! q)) (prefixes p) then (Err (io_err IoNotADirectory), v)
  else (Ok tt, mkFsView (foldr add_dir (fv_tree v) (prefixes p)) (fv_data v)).
Definition meta_len (v : FsView) (i : nat) : outcome IoError FileMeta :=
  match fv_data v !! i with
  | Some d => Ok (mkFileMeta false true (Z.of_nat (length d)) (Ok 0%Z))
  | None => Err (io_err IoNotFound)
  end.
Definition metadata (p : PathBuf) : M FsView IoError FileMeta := fun v0 =>
  let v := view v0 in
  match fv_tree v !! p with
  | Some NDir => (Ok (mkFileMeta true false 0 (Ok 0%Z)), v)
  | Some (NFile i) => (meta_len v i, v)
  | None => (Err (io_err IoNotFound), v)
  end.
Definition open_read (p : PathBuf) : M FsView IoError Handle := fun v0 =>
  let v := view v0 in
  match fv_tree v !! p with
  | Some (NFile i) => (Ok (mkHandle i 0), v)
  | Some NDir => (Ok (mkHandle (fresh (dom (fv_data v))) 0), v)
  | None => (Err (io_err IoNotFound), v)
  end.
Definition new_file (p : PathBuf) (v : FsView) : outcome IoError Handle * FsView :=
  let i := fresh (dom (fv_data v)) in
  (Ok (mkHandle i 0), mkFsView (<[p := NFile i]> (fv_tree v)) (<[i := []]> (fv_data v))).
Definition open_write (opts : OpenOptions) (p : PathBuf) : M FsView IoError Handle := fun v0 =>
  let v := view v0 in
  match fv_tree v !! p with
  | None => if oo_create opts || oo_create_new opts then new_file p v else (Err (io_err IoNotFound), v)
  | Some NDir => (Err (io_err IoAlreadyExists), v)
  | Some (NFile i) =>
      if oo_create_new opts then (Err (io_err IoAlreadyExists), v)
      else (Ok (mkHandle i 0), if oo_truncate opts then mkFsView (fv_tree v) (<[i := []]> (fv_data v)) else v)
  end.
Definition rename (from to : PathBuf) : M FsView IoError unit := fun v0 =>
  let v := view v0 in
  match fv_tree v !! from with
  | Some (NFile i) => (Ok tt, mkFsView (<[to := NFile i]> (delete from (fv_tree v))) (fv_data v))
  | _ => (Err (io_err IoNotFound), v)
  end.
Definition remove_file (p : PathBuf) : M FsView IoError unit := fun v0 =>
  let v := view v0 in
  match fv_tree v !! p with
  | Some (NFile i) => (Ok tt, mkFsView (delete p (fv_tree v)) (fv_data v))
  | _ => (Err (io_err IoNotFound), v)
  end.
(** A call on an open file, given its contents. *)
Definition with_data {X} (k : bytes -> X * bytes * nat) : M (FsView * Handle) IoError X := fun '(v0, h) =>
  let v := view v0 in
  match fv_data v !! mh_ino h with
  | Some d => let '(x, d', pos) := k d in
      (Ok x, (mkFsView (fv_tree v) (<[mh_ino h := d']> (fv_data v)), mkHandle (mh_ino h) pos))
  | None => (Err (io_err IoNotFound), (v, h))
  end.
Definition keep {X} (x : X) : M (FsView * Handle) IoError X := fun '(v, h) => (Ok x, (view v, h)).

#[export] Instance mem_fs : FileSystem FsView Handle (list DirEntry) := {|
  os_create_dir_all := create_dir_all;
  os_metadata := metadata;
  os_try_exists p v := (Ok (bool_decide (is_Some (fv_tree (view v) !! p))), view v);
  os_open_read := open_read;
  os_open_write := open_write;
  os_rename := rename;
  os_copy _ _ := refuse IoUnsupported;
  os_remove_file := remove_file;
  os_remove_dir _ := refuse IoUnsupported;
  os_remove_dir_all _ := refuse IoUnsupported;
  os_read_dir _ := refuse IoUnsupported;
  rd_next rd := (Ok (head rd), tail rd);
  xattr_list _ := refuse IoUnsupported;
  xattr_get _ _ := refuse IoUnsupported;
  xattr_set _ _ _ := refuse IoUnsupported;
  raw_os_error _ := None;
  f_write bs s := with_data (fun d => (length bs, patch (mh_pos s.2) bs d, mh_pos s.2 + length bs)) s;
  f_write_at bs off s := with_data (fun d => (length bs, patch (Z.to_nat off) bs d, mh_pos s.2)) s;
  f_read n s := with_data (fun d => let bs := take n (drop (mh_pos s.2) d) in (bs, d, mh_pos s.2 + length bs)) s;
  f_seek off '(v, h) := (Ok tt, (view v, mkHandle (mh_ino h) (Z.to_nat off)));
  f_flush := keep tt;
  f_sync_all := keep tt;
  f_metadata '(v, h) := (meta_len (view v) (mh_ino h), (view v, h));
  f_try_clone s := keep s.2 s;
|}.

Lemma view_whole v : whole (view v).
Proof. unfold view. destruct (decide (whole v)); [done|]. apply map_Forall_empty. Qed.
Lemma view_id v : whole v -> view v = v.
Proof. intros Hw. unfold view. by rewrite decide_True. Qed.
Lemma view_view v : view (view v) = view v.
Proof. apply view_id, view_whole. Qed.

Lemma whole_iff v : whole v <-> forall p i, fv_tree v !! p = Some (NFile i) -> is_Some (fv_data v !! i).
Proof.
  split.
  - intros Hw p i Hp. specialize (Hw p _ Hp). simpl in Hw. by apply bool_decide_eq_true in Hw.
  - intros Hw p [|i] Hp; [done|]. simpl. apply bool_decide_eq_true. by eapply Hw.
Qed.

(** Data may be added, names may go away or lead to files that exist. *)
Lemma whole_step v v' :
  whole v -> (forall i, is_Some (fv_data v !! i) -> is_Some (fv_data v' !! i)) ->
  (forall p i, fv_tree v' !! p = Some (NFile i) -> is_Some (fv_data v' !! i) \/ exists q, fv_tree v !! q = Some (NFile i)) ->
  view v' = v'.
Proof.
  rewrite whole_iff. intros Hw Hd Ht. apply view_id, whole_iff. intros p i Hp.
  destruct (Ht p i Hp) as [?|[q Hq]]; [done|]. by eapply Hd, Hw.
Qed.

Lemma add_dirs_spec t qs p :
  foldr add_dir t qs !! p = t !! p \/ t !! p = None /\ foldr add_dir t qs !! p = Some NDir.
Proof.
  induction qs as [|q qs IH]; simpl; [by left|]. unfold add_dir at 1 3.
  destruct (foldr add_dir t qs !! q) eqn:Eq; [done|].
  destruct (decide (p = q)) as [->|Hne]; [|by rewrite lookup_insert_ne].
  rewrite lookup_insert_eq. right. destruct IH as [E|[? E]]; [by rewrite <- E|by rewrite E in Eq].
Qed.

Lemma with_data_keeps {X} (k : bytes -> X * bytes * nat) v h r v' h' :
  with_data k (v, h) = (r, (v', h')) ->
  r <> Panic /\ mh_ino h' = mh_ino h /\
  match r with
  | Ok x => exists d, fv_data (view v) !! mh_ino h = Some d /\ x = (k d).1.1 /\ mh_pos h' = (k d).2 /\
      view v' = mkFsView (fv_tree (view v)) (<[mh_ino h := (k d).1.2]> (fv_data (view v)))
  | _ => view v' = view v /\ h' = h
  end.
Proof.
  unfold with_data. destruct (fv_data (view v) !! mh_ino h) as [d|] eqn:Ed.
  - destruct (k d) as [[x d'] pos] eqn:Ek. intros [= <- <- <-]. split_and!; [done..|]. exists d. rewrite Ek. split_and!; try done.
    apply (whole_step (view v)); [apply view_whole | |simpl; by eauto]. simpl. intros i Hi.
    destruct (decide (i = mh_ino h)) as [->|Hne]; [rewrite lookup_insert_eq; by eexists|by rewrite lookup_insert_ne].
  - intros [= <- <- <-]. split_and!; try done. apply view_view.
Qed.

Lemma create_dir_ok p v r v' :
  create_dir_all p v = (r, v') -> r <> Panic /\ dirs_added (view v) (view v').
Proof.
  unfold create_dir_all. destruct (existsb _ _); intros [= <- <-]; (split; [done|]).
  - rewrite view_view. split; by eauto.
  - rewrite (whole_step (view v) (mkFsView _ _)); [| apply view_whole | by simpl |]; simpl.
    + split; [done|]. simpl. intros q. apply add_dirs_spec.
    + intros q i Hq. right. exists q. destruct (add_dirs_spec (fv_tree (view v)) (prefixes p) q) as [E|[_ E]]; congruence.
Qed.

Lemma new_file_ok opts p v r v' :
  oo_create_new opts = true -> open_write opts p v = (r, v') ->
  r <> Panic /\
  match r with
  | Ok h => @nil Byte.byte = [] /\ fv_tree (view v) !! p = None /\ fv_data (view v) !! mh_ino h = None /\
      view v' = mkFsView (<[p := NFile (mh_ino h)]> (fv_tree (view v))) (<[mh_ino h := []]> (fv_data (view v)))
  | _ => view v' = view v
  end.
Proof.
  intros Hc. unfold open_write. rewrite Hc, orb_true_r. destruct (fv_tree (view v) !! p) as [[|i]|] eqn:Et.
  1,2: intros [= <- <-]; by rewrite view_view.
  unfold new_file. intros [= <- <-]. assert (fv_data (view v) !! fresh (dom (fv_data (view v))) = None) as Hfr.
  { apply not_elem_of_dom, is_fresh. }
  split_and!; try done. simpl. apply (whole_step (view v)); [apply view_whole| |]; simpl.
  - intros i Hi. rewrite lookup_insert_ne; [done|]. intros <-. rewrite Hfr in Hi. by destruct Hi.
  - intros q i Hq. destruct (decide (q = p)) as [->|Hne].
    + rewrite lookup_insert_eq in Hq. injection Hq as <-. left. rewrite lookup_insert_eq. by eexists.
    + rewrite lookup_insert_ne in Hq by done. right. by exists q.
Qed.

Lemma rename_ok from to v r v' :
  rename from to v = (r, v') ->
  r <> Panic /\
  match r with
  | Ok _ => exists n, fv_tree (view v) !! from = Some n /\
      (forall i, n = NFile i -> view v' = mkFsView (<[to := n]> (delete from (fv_tree (view v)))) (fv_data (view v)))
  | _ => view v' = view v
  end.
Proof.
  unfold rename. destruct (fv_tree (view v) !! from) as [[|i]|] eqn:Et.
  1,3: intros [= <- <-]; by rewrite view_view.
  intros [= <- <-]. split; [done|]. exists (NFile i). split; [done|]. intros j [= <-].
  apply (whole_step (view v)); [apply view_whole | done |]; simpl. intros q j Hq. right.
  destruct (decide (q = to)) as [->|Hne]; [rewrite lookup_insert_eq in Hq; injection Hq as <-; by exists from|].
  rewrite lookup_insert_ne in Hq by done. apply lookup_delete_Some in Hq as [_ Hq]. by exists q.
Qed.

Lemma remove_ok p v r v' :
  remove_file p v = (r, v') ->
  r <> Panic /\
  match r with
  | Ok _ => view v' = mkFsView (delete p (fv_tree (view v))) (fv_data (view v))
  | _ => view v' = view v
  end.
Proof.
  unfold remove_file. destruct (fv_tree (view v) !! p) as [[|i]|] eqn:Et.
  1,3: intros [= <- <-]; by rewrite view_view.
  intros [= <- <-]. split; [done|]. apply (whole_step (view v)); [apply view_whole | done |]; simpl.
  intros q j [_ Hq]%lookup_delete_Some. right. by exists q.
Qed.

Lemma meta_len_ok v i m :
  meta_len v i = Ok m ->
  fm_modified m <> Panic /\ fm_is_dir m = false /\ fm_is_file m = true /\
  exists d, fv_data v !! i = Some d /\ fm_len m = Z.of_nat (length d).
Proof. unfold meta_len. destruct (fv_data v !! i); [|done]. intros [= <-]. split_and!; try done. by eexists. Qed.
Lemma meta_len_total v i : meta_len v i <> Panic.
Proof. unfold meta_len. by destruct (fv_data v !! i). Qed.

#[export, refine] Instance mem_fs_posix : PosixLaws FsView Handle (list DirEntry) := {|
  fs_view := view; h_ino := mh_ino; h_pos := mh_pos; h_pending _ := [];
  create_dir_law := create_dir_ok; create_new_law := new_file_ok; rename_law := rename_ok; remove_file_law := remove_ok;
|}.
Proof.
  - intros v. apply whole_iff, view_whole.
  - intros p v r v' [= <- <-]. split_and!; [done | apply view_view | by intros x [= <-]].
  - simpl. unfold metadata. intros p v r v'. destruct (fv_tree (view v) !! p) as [[|i]|]; intros [= <- <-].
    + split_and!; [done | apply view_view | by intros m [= <-]].
    + split_and!; [apply meta_len_total | apply view_view |]. intros m Hm.
      destruct (meta_len_ok _ _ _ Hm) as (? & ? & ? & d & -> & ->). by split_and!.
    + split_and!; [done | apply view_view | done].
  - simpl. unfold open_read. intros p v r v'. destruct (fv_tree (view v) !! p) as [[|i]|]; intros [= <- <-];
      (split_and!; [done | apply view_view |]); intros h [= <-]; (split; [done|]); [right | by left].
    split; [done|]. apply not_elem_of_dom, is_fresh.
  - intros p k x v r v' [= <- <-]. split; [done | apply view_view].
  - intros bs off v h r v' h' E. unfold f_write_at, mem_fs in E. destruct (with_data_keeps _ _ _ _ _ _ E) as (Hnp & Hi & Hr).
    split_and!; [done..|]. destruct r as [n|e|]; [|by destruct Hr..].
    destruct Hr as (d & Hd & -> & _ & Hv). simpl in *. split_and!; [done | by destruct bs; simpl; [|lia] |].
    exists d. split; [done|]. by rewrite firstn_all.
  - intros n v h r v' h' E. unfold f_read, mem_fs in E. destruct (with_data_keeps _ _ _ _ _ _ E) as (Hnp & Hi & Hr). split; [done|].
    destruct r as [bs|e|]; [|by destruct Hr as [? ->]..]. destruct Hr as (d & Hd & -> & Hp & Hv). simpl in *.
    rewrite insert_id in Hv by done. split_and!; [rewrite Hv; by destruct (view v) | done |]. by exists d, n.
  - intros off v h r v' h' [= <- <- <-]. split_and!; [done | apply view_view | done | done].
  - intros [] v h r v' h' [= <- <- <-]; (split_and!; [done | done | intros _; apply view_view]).
  - intros v h r v' h' [= <- <- <-]. split_and!; [apply meta_len_total | apply view_view | done |].
    intros m Hm. destruct (meta_len_ok _ _ _ Hm) as (? & _ & ? & d & Hd & Hl). split; [done|].
    intros d' Hd'. rewrite Hd in Hd'. by injection Hd' as <-.
  - intros v h r v' h' [= <- <- <-]. split_and!; [done | apply view_view | done | done | by intros c [= <-]].
Defined.

(** A file system with one object, and a service that writes atomically. *)
Definition disk : FsView :=
  mkFsView {[ [b "root"] := NDir; [b "root"; b "a"] := NFile 0 ]} {[ 0 := [x01; x02; x03] ]}.
Definition core : FsCore := mkFsCore [b "root"] (Some [b "tmp"]).
Definition written : FsView * FsWriter :=
  match fs_writer_create core (fun _ => 0%N) (b "a") op_write disk with
  | (Ok w, f) => (write_all_at 9 0 (from_bytes [x07; x08]) (f, w)).2
  | (_, f) => (f, mkFsWriter [] None (mkHandle 0 0) None)
  end.

Lemma fs_atomic_write_witness :
  let '(r, s') := position_writer_close 2 written in
  file_at (fs_view written.1) [b "root"; b "a"] = Some [x01; x02; x03] /\
  is_ok r = true /\ file_at (fs_view s'.1) [b "root"; b "a"] = Some [x07; x08].
Proof.
  assert (fs_session core (Some [x01; x02; x03]) [b "root"; b "a"] [x07; x08] [(0, 2)] written) as Hs.
  { eapply (session_write _ _ _ _ [] _ 9 0 (from_bytes [x07; x08]) (Ok tt)).
    - eapply (session_create _ _ _ _ (fun _ => 0%N) (b "a") op_write disk); [done|done|vm_compute; reflexivity| | |].
      + intros dir [= <-]. vm_compute. discriminate.
      + vm_compute; reflexivity.
      + vm_compute; reflexivity.
    - done.
    - vm_compute; reflexivity.
    - apply (bool_decide_unpack _); vm_compute; exact I.
    - split; [vm_compute; lia|done].
    - vm_compute; reflexivity. }
  assert (Z.of_nat (length [x07; x08]) <= u64_max)%Z as HP by (vm_compute; discriminate).
  destruct (fs_atomic_write core _ _ _ _ _ 2%Z HP Hs) as (Hold & Hclose & _). clear Hs.
  assert (is_ok (position_writer_close 2 written).1 = true) as Hr by (vm_compute; reflexivity).
  destruct (position_writer_close 2 written) as [r s']. cbn [fst] in Hr. split; [exact Hold|].
  destruct r as [m|e|]; [|discriminate..]. split; [reflexivity|].
  destruct Hclose as (_ & _ & Hm). destruct (Hm m eq_refl) as (d & Hd & _ & _ & Hall). rewrite Hd. f_equal. apply Hall.
  intros j Hj. exists 0, 2. split; [left|]. simpl in Hj. lia.
Defined.

Definition some_range : OpRead := read_with_range (mkRange 1 (Some 5%Z)) op_read.
Definition some_reader : FsReader := mkFsReader (mkHandle 0 1) 0 5 (2 * 1024 * 1024).

(** The root itself, a directory, opened as if it were a file. *)
Definition dir_reader : FsReader := mkFsReader (mkHandle 1 1) 0 5 (2 * 1024 * 1024).

Lemma fs_read_range_witness :
  fs_backend_read core (b "a") some_range disk = (Ok (None, some_reader), disk) /\
  (exists n, Serves fs_reader_read false (disk, some_reader) [x02; x03] n) /\
  fs_backend_read core [] some_range disk = (Ok (None, dir_reader), disk) /\
  exists e, (fs_reader_read (disk, dir_reader)).1 = Err e.
Proof.
  assert (fs_backend_read core (b "a") some_range disk = (Ok (None, some_reader), disk)) as E by (vm_compute; reflexivity).
  assert (range_fits (read_range some_range)) as Hr.
  { split; [unfold is_u64; vm_compute; split; discriminate|]. intros n [= <-]. unfold is_u64. vm_compute. split; discriminate. }
  assert (fs_backend_read core [] some_range disk = (Ok (None, dir_reader), disk)) as E' by (vm_compute; reflexivity).
  pose proof (fs_read_range core (b "a") some_range disk None some_reader disk Hr E) as Hfile.
  pose proof (fs_read_range core [] some_range disk None dir_reader disk Hr E') as Hdir.
  assert (fv_tree (fs_view disk) !! target_path core (b "a") = Some (NFile 0)) as Ha by (vm_compute; reflexivity).
  assert (fv_tree (fs_view disk) !! target_path core [] = Some NDir) as Hb by (vm_compute; reflexivity).
  rewrite Ha in Hfile. rewrite Hb in Hdir. destruct Hfile as (data & Hd & Hserve).
  assert (file_at (fs_view disk) (target_path core (b "a")) = Some [x01; x02; x03]) as Hd' by (vm_compute; reflexivity).
  rewrite Hd' in Hd. injection Hd as <-. split_and!; [exact E| |exact E'|].
  - assert (Z.of_nat (length [x01; x02; x03]) <= u64_max)%Z as Hl by (vm_compute; discriminate).
    destruct (Hserve Hl) as (n & _ & Hs). exists n. exact Hs.
  - destruct (Hdir 0) as [He|[Hz _]]; [exact He | discriminate Hz].
Defined.

(** With an [atomic_write_dir], [if_not_exists] is decided when the writer is
    created, but the file appears when it is closed, by a rename that overwrites:
    of two such writers of one path both succeed and the second one's file stays. *)
Definition exclusive : OpWrite :=
  mkOpWrite false 1 None None None None None None true None.
Definition two_writers : outcome Error unit * option bytes :=
  match fs_writer_create core (fun _ => 0%N) (b "new") exclusive disk with
  | (Ok w1, f) =>
      match fs_writer_create core (fun _ => 1%N) (b "new") exclusive f with
      | (Ok w2, f) =>
          let '(_, (f, w1)) := write_all_at 9 0 (from_bytes [x07]) (f, w1) in
          let '(r1, (f, _)) := position_writer_close 1 (f, w1) in
          let '(_, (f, w2)) := write_all_at 9 0 (from_bytes [x08]) (f, w2) in
          let '(r2, (f, _)) := position_writer_close 1 (f, w2) in
          ((_ ← r1; _ ← r2; Ok tt), file_at f [b "root"; b "new"])
      | (_, _) => (Panic, None)
      end
  | (_, _) => (Panic, None)
  end.
Theorem fs_if_not_exists_overwrites : two_writers = (Ok tt, Some [x08]).
Proof. vm_compute. reflexivity. Qed.

(** A file whose name has a backslash is listed under a path that is not its
    own: the path leads elsewhere. *)
Theorem fs_lists_backslash_elsewhere :
  let name := [b "root"; b "x\y"] in
  let meta := mkFileMeta false true 3 (Ok 0%Z) in
  exists e, entry_of core (mkDirEntry name (Ok meta) (Ok meta)) = Ok (Some e) /\
    e_path e = b "x/y" /\ target_path core (e_path e) <> name.
Proof. eexists. split; [vm_compute; reflexivity|]. split; [reflexivity|]. vm_compute. discriminate. Qed.

(** A path that names a directory reaches a file of that name. *)
Theorem fs_dir_path_deletes_file :
  let '(r, f') := fs_delete_once core (b "a/") (mkOpDelete None false) disk in
  r = Ok tt /\ file_at disk [b "root"; b "a"] <> None /\ file_at f' [b "root"; b "a"] = None.
Proof. vm_compute. split_and!; [reflexivity|discriminate|reflexivity]. Qed.

End MemFs.
