(* ===== verification/Kv.v ===== *)
(** * Key-value services: what they share

    A family of services keeps objects as values of a database under their
    absolute paths: sled, rocksdb, redb, persy, tikv, foundationdb, mongodb,
    gridfs, memcached and the SQL databases.  Their backends, writers and
    deleters are the same program over a core with [get], [set] and [delete]:
    the class [KvCore].  What a core promises is [KvMap]; the backend over any
    such core is a map from paths to bytes. *)

From S2P Require Import Prelude Errors Path Range Buffer Types Access Listers Deleters Readers Memory Text.
From Stdlib Require Import Sorted.
From stdpp Require Import sorting options.

(** ** The core of a service *)

Class KvCore (C : Type) : Type := {
  kv_get : str -> M C Error (option Buffer);
  kv_set : str -> Buffer -> M C Error unit;
  kv_delete : str -> M C Error unit;
}.

Abbreviation table := (gmap (list ascii) bytes).

(** Nothing but the value of the key differs. *)
Definition same_but (k : str) (m m' : table) : Prop := forall j, j <> k -> m' !! j = m !! j.

(** A core is a map.  Any call may fail; a failed change may have touched the
    value of its own key.  Before and after a call, and at no other time, objects
    may be lost as [kv_loses] allows: a database loses none, a cache any. *)
Class KvMap (C : Type) `{KvCore C} : Type := {
  kv_view : C -> table;
  kv_ok : C -> Prop;
  kv_loses : table -> table -> Prop;
  kv_loses_refl m : kv_loses m m;
  (** Keys and lengths of values the database has room for. *)
  kv_accepts : str -> nat -> Prop;
  kv_get_law k c :
    kv_ok c -> kv_accepts k 0 ->
    let '(r, c') := kv_get k c in
    kv_ok c' /\ exists m, kv_loses (kv_view c) m /\ kv_loses m (kv_view c') /\
    match r with
    | Ok (Some v) => wf v /\ m !! k = Some (contents v)
    | Ok None => m !! k = None
    | Err _ => True
    | Panic => False
    end;
  kv_set_law k v c :
    kv_ok c -> wf v -> kv_accepts k (blen v) ->
    let '(r, c') := kv_set k v c in
    kv_ok c' /\ exists m m', kv_loses (kv_view c) m /\ kv_loses m' (kv_view c') /\
    match r with
    | Ok _ => m' = <[k := contents v]> m
    | Err _ => same_but k m m'
    | Panic => False
    end;
  kv_delete_law k c :
    kv_ok c -> kv_accepts k 0 ->
    let '(r, c') := kv_delete k c in
    kv_ok c' /\ exists m m', kv_loses (kv_view c) m /\ kv_loses m' (kv_view c') /\
    match r with
    | Ok _ => m' = delete k m
    | Err _ => same_but k m m'
    | Panic => False
    end;
}.

(** The core of a database, which loses nothing. *)
Class KvExact (C : Type) `{KvCore C} : Type := {
  ke_view : C -> table;
  ke_ok : C -> Prop;
  ke_get_law k c :
    ke_ok c ->
    let '(r, c') := kv_get k c in
    ke_ok c' /\ ke_view c' = ke_view c /\
    match r with
    | Ok (Some v) => wf v /\ ke_view c !! k = Some (contents v)
    | Ok None => ke_view c !! k = None
    | Err _ => True
    | Panic => False
    end;
  ke_set_law k v c :
    ke_ok c -> wf v ->
    let '(r, c') := kv_set k v c in
    ke_ok c' /\
    match r with
    | Ok _ => ke_view c' = <[k := contents v]> (ke_view c)
    | Err _ => same_but k (ke_view c) (ke_view c')
    | Panic => False
    end;
  ke_delete_law k c :
    ke_ok c ->
    let '(r, c') := kv_delete k c in
    ke_ok c' /\
    match r with
    | Ok _ => ke_view c' = delete k (ke_view c)
    | Err _ => same_but k (ke_view c) (ke_view c')
    | Panic => False
    end;
}.
#[export] Instance exact_map {C} `{KvExact C} : KvMap C.
Proof.
  refine {| kv_view := ke_view; kv_ok := ke_ok; kv_loses := eq; kv_accepts _ _ := True |}; [done| | |].
  - intros k c Hc _. pose proof (ke_get_law k c Hc) as Hl. destruct (kv_get k c) as [r c']. destruct Hl as (Hok & Hv & Hr).
    split; [done|]. by exists (ke_view c).
  - intros k v c Hc Hv _. pose proof (ke_set_law k v c Hc Hv) as Hl. destruct (kv_set k v c) as [r c']. destruct Hl as (Hok & Hr).
    split; [done|]. by exists (ke_view c), (ke_view c').
  - intros k c Hc _. pose proof (ke_delete_law k c Hc) as Hl. destruct (kv_delete k c) as [r c']. destruct Hl as (Hok & Hr).
    split; [done|]. by exists (ke_view c), (ke_view c').
Defined.

(** ** The backend *)

Record KvBackend (C : Type) : Type := mkKv { kb_info : AccessorInfo; kb_core : C }.
Arguments mkKv {C}.
Arguments kb_info {C}.
Arguments kb_core {C}.

(** The writer collects what it is given and stores it when it is closed. *)
Record KvWriter : Type := mkKvWriter { kw_path : str; kw_buffer : QueueBuf }.
Definition kv_writer_new (path : str) : KvWriter := mkKvWriter path [].
(** The deleter knows the root. *)
Record KvDeleter : Type := mkKvDeleter { kd_root : str }.

Section Backend.
  Context {C : Type} `{KvCore C}.

(** A call of [self.core]. *)
Definition on_core {X} (m : M C Error X) : M (KvBackend C) Error X :=
  zoom kb_core (fun c s => mkKv (kb_info s) c) m.

Definition kv_writer_write (bs : Buffer) : M (KvBackend C * KvWriter) Error unit :=
  modify (fun '(s, w) => (s, mkKvWriter (kw_path w) (qpush (kw_buffer w) bs))).
Definition kv_writer_close : M (KvBackend C * KvWriter) Error Metadata :=
  '(_, w) ← get;
  buf ← lift (qcollect (kw_buffer w));
  let length := Z.of_nat (blen buf) in
  zoom fst (fun s x => (s, x.2)) (on_core (kv_set (kw_path w) buf));;
  mret (set_content_length length (meta_new (from_path (kw_path w)))).
Definition kv_writer_abort : M (KvBackend C * KvWriter) Error unit :=
  modify (fun '(s, w) => (s, mkKvWriter (kw_path w) (qclear (kw_buffer w)))).

#[global] Instance KvWriter_Write : Write (KvBackend C * KvWriter) :=
  {| w_write := kv_writer_write; w_close := kv_writer_close; w_abort := kv_writer_abort |}.

Definition kv_delete_once (root path : str) (_ : OpDelete) : M (KvBackend C) Error unit :=
  p ← lift (build_abs_path root path);
  on_core (kv_delete p).

(** [OneShotDeleter] over the [delete_once] of the service. *)
Definition kv_deleter (delete_once : str -> str -> OpDelete -> M (KvBackend C) Error unit) : Types.Delete (KvBackend C * KvDeleter) :=
  {| d_delete path args x :=
       zoom (fun x => mkOneShotDeleter x.1) (fun d x => (osd_inner d, x.2))
         (@one_shot_delete _ (delete_once (kd_root x.2)) path args) x;
     d_close := mret tt |}.
#[global] Instance KvDeleter_Delete : Types.Delete (KvBackend C * KvDeleter) := kv_deleter kv_delete_once.

  Variable missing : string.
  Variable root : str.

Definition kv_not_found : Error := error NotFound missing.

Definition kv_stat (path : str) (_ : OpStat) : M (KvBackend C) Error Metadata :=
  p ← lift (build_abs_path root path);
  r ← lift (build_abs_path root []);
  if bool_decide (p = r) then mret (meta_new DIR)
  else
    bs ← on_core (kv_get p);
    match bs with
    | Some bs => mret (set_content_length (Z.of_nat (blen bs)) (meta_new FILE))
    | None => throw kv_not_found
    end.

Definition kv_read (path : str) (args : OpRead) : M (KvBackend C) Error (option Metadata * Buffer) :=
  p ← lift (build_abs_path root path);
  bs ← on_core (kv_get p);
  match bs with
  | Some bs =>
      '(lo, hi) ← lift (to_range (read_range args));
      content ← lift (slice bs lo hi);
      mret (Some (set_content_length (Z.of_nat (blen bs)) (meta_new FILE)), content)
  | None => throw kv_not_found
  end.

Definition kv_write (path : str) (_ : OpWrite) : M (KvBackend C) Error KvWriter :=
  p ← lift (build_abs_path root path);
  mret (kv_writer_new p).

Definition kv_access : Access (KvBackend C) Buffer KvWriter unit KvDeleter unit :=
  {| a_info := kb_info; a_create_dir _ := throw not_supported;
     a_stat := kv_stat; a_read := kv_read; a_write := kv_write;
     a_delete := mret (mkKvDeleter root); a_list _ _ := throw not_supported;
     a_copy _ _ _ _ := throw not_supported; a_rename _ _ := throw not_supported |}.

End Backend.

(** ** Listing by prefix

    Services whose database scans a prefix list what they find, level by level
    with [HierarchyLister]. *)

(** The entries of a table, in the order of the keys. *)
Definition keys_of (m : table) : list str := merge_sort str_leP (elements (dom m)).
Definition pairs_of (m : table) : list (str * bytes) := omap (fun k => pair k <$> m !! k) (keys_of m).
Definition pairs_with (prefix : str) (m : table) : list (str * bytes) :=
  filter (fun kv => starts_with prefix kv.1 = true) (pairs_of m).

Record KvLister : Type := mkKvLister { kl_root : str; kl_iter : list (str * Z) }.

(** The mode is read off the trailing slash; only files have a length. *)
Definition kv_entry (root key : str) (value_len : Z) : result Entry :=
  path ← build_rel_path root key;
  let mode := if ends_with [slash] key then DIR else FILE in
  let metadata := meta_new mode in
  let metadata := if bool_decide (m_mode metadata = FILE) then set_content_length value_len metadata else metadata in
  Ok (entry_new path metadata).

#[export] Instance KvLister_List : List KvLister := fun s =>
  match kl_iter s with
  | (key, value_len) :: rest => (Some <$> kv_entry (kl_root s) key value_len, mkKvLister (kl_root s) rest)
  | [] => (Ok None, s)
  end.

(** [KvCore] with [list]: the keys below a path with the lengths of their values. *)
Class KvScan (C : Type) : Type := kv_list : str -> M C Error (list (str * Z)).

(** The keys of the database are [str]s, as those of objects are. *)
Definition utf8_keys (m : table) : Prop := map_Forall (fun k _ => valid_utf8 (as_bytes k) = true) m.

Class KvScanMap (C : Type) `{KvScan C} `{KvMap C} : Prop := kv_list_law path c :
  kv_ok c -> utf8_keys (kv_view c) ->
  let '(r, c') := kv_list path c in
  kv_ok c' /\ kv_view c' = kv_view c /\
  match r with
  | Ok kvs => kvs = (fun kv => (kv.1, Z.of_nat (length kv.2))) <$> pairs_with path (kv_view c)
  | Err _ => True
  | Panic => False
  end.

Section Scan.
  Context {C : Type} `{KvCore C} `{KvScan C}.
  Variable missing : string.
  Variable root : str.

Definition kv_list_dir (path : str) (args : OpList) : M (KvBackend C) Error (HierarchyLister KvLister) :=
  p ← lift (build_abs_path root path);
  entries ← on_core (kv_list p);
  mret (hierarchy_new (mkKvLister root entries) path (list_recursive args)).

Definition kv_scan_access : Access (KvBackend C) Buffer KvWriter (HierarchyLister KvLister) KvDeleter unit :=
  {| a_info := kb_info; a_create_dir _ := throw not_supported;
     a_stat := kv_stat missing root; a_read := kv_read missing root; a_write := kv_write root;
     a_delete := mret (mkKvDeleter root); a_list := kv_list_dir;
     a_copy _ _ _ _ := throw not_supported; a_rename _ _ := throw not_supported |}.

End Scan.

(** ** The contract: a map from keys to bytes *)

Inductive kv_call : Type :=
  | KPut (path : str) (bss : list Buffer)
  | KRead (path : str) (args : OpRead)
  | KStat (path : str)
  | KDelete (path : str).

Inductive kv_answer : Type :=
  | APut (r : result Metadata)
  | ARead (r : result (option Metadata * Buffer))
  | AStat (r : result Metadata)
  | ADelete (r : result unit).

(** Open a writer, write the buffers, close it. *)
Fixpoint write_buffers {W} `{Write W} (bss : list Buffer) : M W Error unit :=
  match bss with [] => mret tt | bs :: rest => w_write bs;; write_buffers rest end.
Definition put_session {A Rd Wr Ls Dl Cp} `{Write (A * Wr)} (acc : Access A Rd Wr Ls Dl Cp) (path : str)
    (bss : list Buffer) : M A Error Metadata := fun s =>
  match a_write acc path op_write s with
  | (Ok w, s) => let '(r, (s, _)) := (write_buffers bss;; w_close) (s, w) in (r, s)
  | (Err e, s) => (Err e, s)
  | (Panic, s) => (Panic, s)
  end.
(** Open a deleter, delete the path, close it. *)
Definition delete_session {A Rd Wr Ls Dl Cp} `{Types.Delete (A * Dl)} (acc : Access A Rd Wr Ls Dl Cp) (path : str)
  : M A Error unit := fun s =>
  match a_delete acc s with
  | (Ok d, s) => let '(r, (s, _)) := (d_delete path op_delete;; d_close) (s, d) in (r, s)
  | (Err e, s) => (Err e, s)
  | (Panic, s) => (Panic, s)
  end.

Definition kv_does {A Wr Ls Dl Cp} `{Write (A * Wr)} `{Types.Delete (A * Dl)} (acc : Access A Buffer Wr Ls Dl Cp)
    (c : kv_call) (s : A) : kv_answer * A :=
  match c with
  | KPut path bss => let '(r, s) := put_session acc path bss s in (APut r, s)
  | KRead path args => let '(r, s) := a_read acc path args s in (ARead r, s)
  | KStat path => let '(r, s) := a_stat acc path op_stat s in (AStat r, s)
  | KDelete path => let '(r, s) := delete_session acc path s in (ADelete r, s)
  end.

(** The object holds all the bytes of the range. *)
Definition fits (data : bytes) (r : BytesRange) : Prop :=
  match Range.size r with
  | Some n => (Range.offset r + n <= Z.of_nat (length data) /\ Range.offset r + n <= u64_max)%Z
  | None => (Range.offset r <= Z.of_nat (length data))%Z
  end.
#[export] Instance fits_dec data r : Decision (fits data r).
Proof. unfold fits. destruct (Range.size r); apply _. Defined.

Section Contract.
  Variable root : str.
  Variable not_found : Error.
  (** Errors of the database, and what it has room for. *)
  Variable failure : Error -> Prop.
  Variable accepts : str -> nat -> Prop.

Definition kv_key (p : str) : str := if bool_decide (p = [slash]) then tail root else tail root ++ p.

(** What a map would answer.  A read returns the bytes of the range, which the
    object must hold: the slice of a range that goes past its end panics. *)
Definition kv_spec (m : table) (c : kv_call) (a : kv_answer) (m' : table) : Prop :=
  match c, a with
  | KPut p bss, APut r =>
      let data := concat (contents <$> bss) in
      match r with
      | Ok meta => m' = <[kv_key p := data]> m /\ m_content_length meta = Some (Z.of_nat (length data)) /\
          m_mode meta = from_path (kv_key p)
      | Err _ => same_but (kv_key p) m m'
      | Panic => False
      end
  | KRead p args, ARead r =>
      m' = m /\
      match r with
      | Ok (meta, buf) => exists data, m !! kv_key p = Some data /\ fits data (read_range args) /\ wf buf /\
          contents buf = sub data (read_range args) /\
          (meta ≫= m_content_length) = Some (Z.of_nat (length data))
      | Err e => m !! kv_key p = None /\ e = not_found \/ failure e
      | Panic => exists data, m !! kv_key p = Some data /\ ~ fits data (read_range args)
      end
  | KStat p, AStat r =>
      m' = m /\
      match r with
      | Ok meta => m_mode meta = DIR /\ kv_key p = tail root \/
          exists data, m !! kv_key p = Some data /\ kv_key p <> tail root /\ m_mode meta = FILE /\
            m_content_length meta = Some (Z.of_nat (length data))
      | Err e => m !! kv_key p = None /\ e = not_found \/ failure e
      | Panic => False
      end
  | KDelete p, ADelete r =>
      match r with
      | Ok _ => m' = delete (kv_key p) m
      | Err _ => same_but (kv_key p) m m'
      | Panic => False
      end
  | _, _ => False
  end.

(** A call between losses. *)
Definition kv_step (loses : table -> table -> Prop) (m : table) (c : kv_call) (a : kv_answer) (m' : table) : Prop :=
  exists m1 m2, loses m m1 /\ kv_spec m1 c a m2 /\ loses m2 m'.

(** A history of calls and answers, and the map after it. *)
Inductive kv_history (loses : table -> table -> Prop) : table -> list (kv_call * kv_answer) -> table -> Prop :=
  | history_nil m : kv_history loses m [] m
  | history_cons m c a m1 h m2 :
      kv_step loses m c a m1 -> kv_history loses m1 h m2 -> kv_history loses m ((c, a) :: h) m2.

(** Arguments as the operator passes them: well-formed buffers and [u64]s. *)
Definition kv_call_ok (c : kv_call) : Prop :=
  match c with
  | KPut p bss => Forall wf bss /\ accepts (kv_key p) (length (concat (contents <$> bss)))
  | KRead p args => accepts (kv_key p) 0 /\ (0 <= Range.offset (read_range args))%Z /\ from_option (fun n => 0 <= n)%Z True (Range.size (read_range args))
  | KStat p => kv_key p <> tail root -> accepts (kv_key p) 0
  | KDelete p => accepts (kv_key p) 0
  end.

End Contract.

(** Runs the calls and records the answers. *)
Fixpoint kv_run {A Wr Ls Dl Cp} `{Write (A * Wr)} `{Types.Delete (A * Dl)} (acc : Access A Buffer Wr Ls Dl Cp)
    (cs : list kv_call) (s : A) : list (kv_call * kv_answer) * A :=
  match cs with
  | [] => ([], s)
  | c :: cs =>
      let '(a, s) := kv_does acc c s in
      let '(h, s) := kv_run acc cs s in ((c, a) :: h, s)
  end.

Section Refines.
  Context {C : Type} `{KvMap C}.
  Variable missing : string.
  Variable root : str.
  Hypothesis root_ok : normalized_root root.
  Hypothesis root_char : starts_char (tail root).

#[local] Set Default Proof Using "All".

(** The errors [get] may return. *)
Definition get_failure (e : Error) : Prop := exists k c, (kv_get k c).1 = Err e.

Lemma kv_abs p : build_abs_path root p = Ok (kv_key root p).
Proof using root_ok root_char.
  destruct (normalized_root_shape root root_ok) as (r & Er & _). unfold build_abs_path, kv_key.
  rewrite Er in *. simpl in *. rewrite (slice_from_app [slash] r) by done. simpl. by case_bool_decide.
Qed.
Lemma kv_abs_nil : build_abs_path root [] = Ok (tail root).
Proof using root_ok root_char. rewrite kv_abs. unfold kv_key. by rewrite bool_decide_eq_false_2, app_nil_r. Qed.

(** The slice a backend takes of a value. *)
Lemma slice_fits bs r :
  wf bs -> (0 <= Range.offset r)%Z -> from_option (fun n => 0 <= n)%Z True (Range.size r) ->
  match (to_range r ≫= fun '(lo, hi) => slice bs lo hi) with
  | Ok buf => fits (contents bs) r /\ wf buf /\ contents buf = sub (contents bs) r
  | Err _ => False
  | Panic => ~ fits (contents bs) r
  end.
Proof using Type.
  intros Hb Ho Hs. pose proof (contents_length bs Hb) as Hl. unfold to_range, fits, sub.
  destruct (Range.size r) as [n|]; simpl in *.
  - unfold checked_add. case_bool_decide as Hu; simpl; [|lia].
    destruct (decide (Range.offset r + n <= Z.of_nat (blen bs))%Z) as [Hf|Hf].
    + destruct (slice_ok bs (Z.to_nat (Range.offset r)) (Z.to_nat (Range.offset r + n)) Hb) as (buf & E & Hw & Hc); [lia|].
      rewrite !Z2Nat.id in E by lia. rewrite E. split_and!; [lia | lia | done |].
      rewrite Hc. f_equal. lia.
    + unfold slice. simpl. rewrite bool_decide_eq_true_2 by lia. rewrite bool_decide_eq_false_2 by lia. lia.
  - destruct (decide (Range.offset r <= Z.of_nat (blen bs))%Z) as [Hf|Hf].
    + destruct (slice_suffix bs (Z.to_nat (Range.offset r)) Hb) as (buf & E & Hw & Hc); [lia|].
      rewrite !Z2Nat.id in E by lia. rewrite E. split_and!; [lia | done | done].
    + unfold slice. simpl. rewrite bool_decide_eq_false_2 by lia. lia.
Qed.

(** What one call of the core does to the backend. *)
Definition core_ok (s : KvBackend C) : Prop := kv_ok (kb_core s).
Definition stored (s : KvBackend C) : table := kv_view (kb_core s).
(** The call is answered as a map that loses what the core may lose. *)
Definition kv_answers (s : KvBackend C) (c : kv_call) (a : kv_answer) (s' : KvBackend C) : Prop :=
  kv_step root (kv_not_found missing) get_failure kv_loses (stored s) c a (stored s').

Lemma kv_stat_spec p args s :
  core_ok s -> kv_call_ok root kv_accepts (KStat p) ->
  let '(r, s') := kv_stat missing root p args s in core_ok s' /\ kv_answers s (KStat p) (AStat r) s'.
Proof.
  intros Hs Hacc. unfold kv_stat, mbind, M_bind, lift. rewrite kv_abs, kv_abs_nil. simpl.
  case_bool_decide as Hp.
  { split; [done|]. exists (stored s), (stored s). split; [apply kv_loses_refl|]. split; [|apply kv_loses_refl].
    split; [done|]. by left. }
  unfold on_core, zoom. pose proof (kv_get_law (kv_key root p) (kb_core s) Hs (Hacc Hp)) as Hg.
  destruct (kv_get (kv_key root p) (kb_core s)) as [r c'] eqn:E. destruct Hg as (Hc & m & Hl & Hl' & Hr).
  destruct r as [[v|]|e|]; [| | |done]; simpl; unfold mret, M_ret, throw; (split; [done|]); exists m, m;
    (split; [done|]; split; [|done]; split; [done|]).
  - destruct Hr as [Hw Hr]. right. exists (contents v). split_and!; try done. by rewrite contents_length.
  - by left.
  - right. exists (kv_key root p), (kb_core s). by rewrite E.
Qed.

Lemma kv_read_spec p args s :
  core_ok s -> kv_call_ok root kv_accepts (KRead p args) ->
  let '(r, s') := kv_read missing root p args s in core_ok s' /\ kv_answers s (KRead p args) (ARead r) s'.
Proof.
  intros Hs (Hacc & Ho & Hz). unfold kv_read, mbind, M_bind, lift. rewrite kv_abs. simpl.
  unfold on_core, zoom. pose proof (kv_get_law (kv_key root p) (kb_core s) Hs Hacc) as Hg.
  destruct (kv_get (kv_key root p) (kb_core s)) as [r c'] eqn:E. destruct Hg as (Hc & m & Hl & Hl' & Hr).
  assert (forall a s', core_ok s' -> stored s' = kv_view c' ->
    kv_spec root (kv_not_found missing) get_failure m (KRead p args) a m ->
    core_ok s' /\ kv_answers s (KRead p args) a s') as Hans.
  { intros a s' Hs' Es' Ha. split; [done|]. exists m, m. by rewrite Es'. }
  destruct r as [[v|]|e|]; [| | |done]; simpl; unfold mret, M_ret, throw; simpl.
  - destruct Hr as [Hw Hr]. pose proof (slice_fits v (read_range args) Hw Ho Hz) as Hf.
    destruct (to_range (read_range args)) as [[lo hi]|e|]; simpl in *; [|done|].
    2: { apply Hans; [done..|]. split; [done|]. by exists (contents v). }
    destruct (slice v lo hi) as [buf|e|]; simpl in *; [|done|]; (apply Hans; [done..|]); (split; [done|]).
    + destruct Hf as (Hf & Hb & Hcon). exists (contents v). split_and!; try done. by rewrite contents_length.
    + by exists (contents v).
  - apply Hans; [done..|]. split; [done|]. by left.
  - apply Hans; [done..|]. split; [done|]. right. exists (kv_key root p), (kb_core s). by rewrite E.
Qed.

Lemma kv_write_buffers bss s w :
  Forall wf bss -> qwf (kw_buffer w) ->
  exists q, write_buffers bss (s, w) = (Ok tt, (s, mkKvWriter (kw_path w) q)) /\ qwf q /\
    qcontents q = qcontents (kw_buffer w) ++ concat (contents <$> bss).
Proof.
  intros Hall. revert w. induction Hall as [|bs bss Hb _ IH]; intros w Hq; simpl.
  { exists (kw_buffer w). rewrite app_nil_r. by destruct w. }
  unfold mbind, M_bind, kv_writer_write, modify. simpl. destruct (qpush_spec _ bs Hq Hb) as [Hq' Hc'].
  destruct (IH (mkKvWriter (kw_path w) (qpush (kw_buffer w) bs))) as (q & E & Hqq & Hcc); [done|].
  simpl in *. exists q. split_and!; [done..|]. by rewrite Hcc, Hc', <- app_assoc.
Qed.

Lemma kv_put_spec {Ls Cp} (acc : Access (KvBackend C) Buffer KvWriter Ls KvDeleter Cp) p bss s :
  a_write acc = kv_write root -> core_ok s -> kv_call_ok root kv_accepts (KPut p bss) ->
  let '(r, s') := put_session acc p bss s in core_ok s' /\ kv_answers s (KPut p bss) (APut r) s'.
Proof.
  intros Hw Hs [Hall Hacc]. unfold put_session. rewrite Hw. unfold kv_write, mbind, M_bind, lift. rewrite kv_abs. simpl.
  destruct (kv_write_buffers bss s (kv_writer_new (kv_key root p)) Hall) as (q & -> & Hq & Hcq); [apply qwf_nil|].
  simpl in *. unfold kv_writer_close, mbind, M_bind, get, lift. simpl.
  destruct (qcollect_ok q Hq) as (buf & -> & Hb & Hcb). rewrite Hcq in Hcb. unfold zoom, on_core, zoom. simpl.
  rewrite <- Hcb, contents_length in Hacc by done.
  pose proof (kv_set_law (kv_key root p) buf (kb_core s) Hs Hb Hacc) as Hset.
  destruct (kv_set (kv_key root p) buf (kb_core s)) as [r c']. destruct Hset as (Hc & m & m' & Hl & Hl' & Hr).
  destruct r as [[]|e|]; simpl in *; [| |done]; unfold mret, M_ret; (split; [done|]); exists m, m'; (split; [done|]; split; [|done]).
  - rewrite Hcb in Hr. split_and!; [done | | done]. simpl. by rewrite <- Hcb, contents_length.
  - done.
Qed.

Lemma kv_delete_spec {Ls Cp} (acc : Access (KvBackend C) Buffer KvWriter Ls KvDeleter Cp) p s :
  a_delete acc = mret (mkKvDeleter root) -> core_ok s -> kv_call_ok root kv_accepts (KDelete p) ->
  let '(r, s') := delete_session acc p s in core_ok s' /\ kv_answers s (KDelete p) (ADelete r) s'.
Proof.
  intros Hd Hs Hacc. unfold delete_session. rewrite Hd. simpl.
  unfold mbind, M_bind, zoom, one_shot_delete, zoom, delete_one, kv_delete_once, mbind, M_bind, lift. simpl.
  rewrite kv_abs. simpl. unfold on_core, zoom.
  pose proof (kv_delete_law (kv_key root p) (kb_core s) Hs Hacc) as Hdel.
  destruct (kv_delete (kv_key root p) (kb_core s)) as [r c']. destruct Hdel as (Hc & m & m' & Hl & Hl' & Hr).
  destruct r as [[]|e|]; simpl in *; [| |done]; (split; [done|]); by exists m, m'.
Qed.

(** Any history of an accessor whose calls answer like a map is one of a map. *)
Lemma kv_run_history {A Wr Ls Dl Cp} `{Write (A * Wr)} `{Types.Delete (A * Dl)} (acc : Access A Buffer Wr Ls Dl Cp)
    (inv : A -> Prop) (view : A -> table) not_found failure loses accepts cs s :
  (forall c s, kv_call_ok root accepts c -> inv s ->
    let '(a, s') := kv_does acc c s in inv s' /\ kv_step root not_found failure loses (view s) c a (view s')) ->
  Forall (kv_call_ok root accepts) cs -> inv s ->
  let '(h, s') := kv_run acc cs s in
  inv s' /\ h.*1 = cs /\ kv_history root not_found failure loses (view s) h (view s').
Proof using Type.
  intros Hstep Hall. revert s. induction Hall as [|c cs Hc _ IH]; intros s Hs; simpl.
  { split_and!; [done | done | constructor]. }
  pose proof (Hstep c s Hc Hs) as Hdoes. destruct (kv_does acc c s) as [a s1]. destruct Hdoes as [Hs1 Ha].
  specialize (IH s1 Hs1). destruct (kv_run acc cs s1) as [h s2]. destruct IH as (Hs2 & Hh & Hist).
  split_and!; [done | by csimpl; f_equal | by econstructor].
Qed.

(** What makes a backend one of the family. *)
Definition kv_like {Ls Cp} (acc : Access (KvBackend C) Buffer KvWriter Ls KvDeleter Cp) : Prop :=
  a_stat acc = kv_stat missing root /\ a_read acc = kv_read missing root /\ a_write acc = kv_write root /\
  a_delete acc = mret (mkKvDeleter root).

Lemma kv_like_refines {Ls Cp} (acc : Access (KvBackend C) Buffer KvWriter Ls KvDeleter Cp) cs s :
  kv_like acc -> Forall (kv_call_ok root kv_accepts) cs -> core_ok s ->
  let '(h, s') := kv_run acc cs s in
  core_ok s' /\ h.*1 = cs /\ kv_history root (kv_not_found missing) get_failure kv_loses (stored s) h (stored s').
Proof.
  intros (Est & Erd & Ewr & Edl) Hall Hs. apply (kv_run_history acc core_ok stored _ _ _ kv_accepts); [|done..].
  clear s Hs. intros [p bss|p args|p|p] s Hc Hs; unfold kv_does.
  - pose proof (kv_put_spec acc p bss s Ewr Hs Hc). by destruct (put_session acc p bss s).
  - rewrite Erd. pose proof (kv_read_spec p args s Hs Hc). by destruct (kv_read missing root p args s).
  - rewrite Est. pose proof (kv_stat_spec p op_stat s Hs Hc). by destruct (kv_stat missing root p op_stat s).
  - pose proof (kv_delete_spec acc p s Edl Hs Hc). by destruct (delete_session acc p s).
Qed.

End Refines.

(** ** Listing *)

Lemma elem_keys_of (m : table) k : k ∈ keys_of m <-> is_Some (m !! k).
Proof. unfold keys_of. rewrite merge_sort_Permutation, elem_of_elements. apply elem_of_dom. Qed.

Lemma elem_pairs_of (m : table) k d : (k, d) ∈ pairs_of m <-> m !! k = Some d.
Proof.
  unfold pairs_of. rewrite list_elem_of_omap. split.
  - intros (j & _ & Hj). destruct (m !! j) as [d'|] eqn:E; simpl in Hj; [|done]. by simplify_eq.
  - intros Hk. exists k. rewrite elem_keys_of. rewrite Hk. eauto.
Qed.

Lemma pairs_of_keys (m : table) : (pairs_of m).*1 = keys_of m.
Proof.
  unfold pairs_of. assert (Forall (fun k => is_Some (m !! k)) (keys_of m)) as Hall.
  { apply Forall_forall. intros k. apply elem_keys_of. }
  revert Hall. generalize (keys_of m). induction 1 as [|k l [d Hd] _ IH]; [done|].
  cbn [omap list_omap]. rewrite Hd. cbn. f_equal. exact IH.
Qed.

Lemma pairs_with_keys (prefix : str) (m : table) :
  (pairs_with prefix m).*1 = filter (fun k => starts_with prefix k = true) (keys_of m).
Proof.
  unfold pairs_with. rewrite <- pairs_of_keys. generalize (pairs_of m). intros l. induction l as [|[k d] l IH]; [done|].
  rewrite filter_cons. csimpl. rewrite filter_cons. by repeat case_decide; csimpl; rewrite ?IH.
Qed.

Lemma pairs_with_NoDup (prefix : str) (m : table) : NoDup (pairs_with prefix m).*1.
Proof.
  rewrite pairs_with_keys. apply NoDup_filter. unfold keys_of. rewrite merge_sort_Permutation. apply NoDup_elements.
Qed.

(** The keys of a root: below it, of normalized paths. *)
Definition object_key (root k : str) : Prop :=
  exists p, normalized p /\ p <> [slash] /\ starts_char p /\ k = tail root ++ p.

Definition pair_entry (root : str) (kv : str * bytes) : Entry :=
  mkEntry (drop (length (tail root)) kv.1)
    (if ends_with [slash] kv.1 then meta_new DIR else set_content_length (Z.of_nat (length kv.2)) (meta_new FILE)).

Lemma kv_entry_ok root k d :
  normalized_root root -> starts_char (tail root) -> object_key root k ->
  kv_entry root k (Z.of_nat (length d)) = Ok (pair_entry root (k, d)).
Proof.
  intros Hr Hrc (p & Hn & Hs & Hc & ->). destruct (rel_path_of_abs root p Hr Hrc Hn Hs Hc) as [Hrel _].
  rewrite (kv_abs root Hr Hrc) in Hrel. unfold kv_key in Hrel. rewrite bool_decide_eq_false_2 in Hrel by done.
  simpl in Hrel. unfold kv_entry, pair_entry. rewrite Hrel. simpl. rewrite drop_app_length.
  destruct (normalized_no_lead p Hn Hs) as (x & q & -> & _). unfold entry_new. by destruct (ends_with _ _).
Qed.

Lemma kv_lister_lists root kvs path visited fuel :
  normalized_root root -> starts_char (tail root) -> Forall (fun kv => object_key root kv.1) kvs ->
  lists (hierarchy_next (S fuel))
    (mkHierarchy (mkKvLister root ((fun kv => (kv.1, Z.of_nat (length kv.2))) <$> kvs)) path visited true)
    (pair_entry root <$> kvs).
Proof.
  intros Hr Hrc. unfold lists. induction 1 as [|[k d] kvs Hk _ IH]; csimpl.
  - by eapply Lists_nil.
  - eapply Lists_cons; [|exact IH]. cbn [hierarchy_next h_lister h_path h_visited h_recursive].
    unfold list_next, KvLister_List. simpl. by rewrite kv_entry_ok.
Qed.

(** A recursive listing through the database's scan: every stored object below
    the path once, with its length, and nothing else. *)
Lemma kv_list_lists {C} `{KvScanMap C} root path args fuel (s : KvBackend C) :
  normalized_root root -> starts_char (tail root) -> core_ok s -> utf8_keys (stored s) -> list_recursive args = true ->
  map_Forall (fun k _ => object_key root k) (stored s) ->
  let '(r, s') := kv_list_dir root path args s in
  core_ok s' /\ stored s' = stored s /\
  match r with
  | Ok l => exists es, lists (hierarchy_next (S fuel)) l es /\ NoDup (e_path <$> es) /\
      (forall p, p ∈ e_path <$> es <-> is_Some (stored s !! (tail root ++ p)) /\
        starts_with (kv_key root path) (tail root ++ p) = true) /\
      (forall e, e ∈ es -> exists data, stored s !! (tail root ++ e_path e) = Some data /\
        e_meta e = if ends_with [slash] (e_path e) then meta_new DIR
                   else set_content_length (Z.of_nat (length data)) (meta_new FILE))
  | Err _ => True
  | Panic => False
  end.
Proof.
  intros Hr Hrc Hs Hutf Hrec Hkeys. unfold kv_list_dir, mbind, M_bind, lift. rewrite (kv_abs root Hr Hrc). simpl.
  unfold on_core, zoom. pose proof (kv_list_law (kv_key root path) (kb_core s) Hs Hutf) as Hl.
  destruct (kv_list (kv_key root path) (kb_core s)) as [r c']. destruct Hl as (Hc & Hv & Hr').
  unfold core_ok, stored in *. destruct r as [kvs|e|]; simpl; [|done..]. split_and!; [done..|].
  set (l := pairs_with (kv_key root path) (kv_view (kb_core s))) in *. exists (pair_entry root <$> l).
  assert (forall k d, (k, d) ∈ l <-> kv_view (kb_core s) !! k = Some d /\ starts_with (kv_key root path) k = true) as Hel.
  { intros k d. unfold l, pairs_with. rewrite list_elem_of_filter, elem_pairs_of. simpl. tauto. }
  assert (Forall (fun kv => object_key root kv.1) l) as Hall.
  { apply Forall_forall. intros [k d] [Hk _]%Hel. by apply (Hkeys k d). }
  assert (forall kv, kv ∈ l -> exists p, kv.1 = tail root ++ p /\ e_path (pair_entry root kv) = p /\ p <> []) as Hp.
  { intros kv Hkv. rewrite Forall_forall in Hall. destruct (Hall kv Hkv) as (p & Hn & Hs' & _ & E).
    exists p. rewrite E. simpl. rewrite E, drop_app_length.
    destruct (normalized_no_lead p Hn Hs') as (x & q & -> & _). done. }
  split_and!.
  - subst kvs. unfold hierarchy_new. rewrite Hrec. by apply kv_lister_lists.
  - assert ((tail root ++.) <$> (e_path <$> (pair_entry root <$> l)) = l.*1) as Hmap.
    { rewrite <- !list_fmap_compose. apply list_fmap_ext. intros i kv Hkv%list_elem_of_lookup_2. simpl.
      destruct (Hp kv Hkv) as (p & -> & Ep & _). simpl in Ep. by rewrite drop_app_length. }
    apply (NoDup_fmap_1 (tail root ++.)). rewrite Hmap. apply pairs_with_NoDup.
  - intros p. split.
    + intros (e & -> & (kv & -> & Hkv)%list_elem_of_fmap)%list_elem_of_fmap. destruct (Hp kv Hkv) as (q & E & -> & _).
      rewrite <- E. destruct kv as [k d]. simpl in *. apply Hel in Hkv as [Hk Hpre]. by rewrite Hk.
    + intros [[d Hd] Hpre]. assert ((tail root ++ p, d) ∈ l) as Hkv by by apply Hel.
      destruct (Hp _ Hkv) as (q & E & Eq & _). simpl in E. apply app_inv_head in E. subst q.
      rewrite <- Eq. by do 2 apply list_elem_of_fmap_2.
  - intros e (kv & -> & Hkv)%list_elem_of_fmap. destruct (Hp kv Hkv) as (q & E & Eq & Hne). rewrite Eq.
    destruct kv as [k d]. simpl in *. subst k. apply Hel in Hkv as [Hk _]. exists d. split; [done|].
    assert (ends_with [slash] (tail root ++ q) = ends_with [slash] q) as ->; [|done].
    destruct (last_snoc_cases q) as [->|(q' & x & ->)]; [done|]. by rewrite app_assoc, !ends_with_snoc.
Qed.
