(* ===== verification/KvServices.v ===== *)
(** * Services on embedded and distributed databases

    The cores of [sled], [rocksdb], [tikv], [foundationdb], [redb] and [persy]
    over the databases they use, each a class with what its documentation
    promises, and their accessors.  A database error is its
    printed form, which becomes the source of the service's error.  [to_vec] of a
    well-formed buffer is its contents. *)

From S2P Require Import Prelude Errors Path Range Buffer Types Access Listers Deleters Readers Memory Text Kv.
From Stdlib Require Import Sorted.
From stdpp Require Import sorting options.

(** [result.map_err(f)] of a call of the database. *)
Definition err_of {D E F X} (f : E -> F) (m : M D E X) : M D F X := fun d => let '(r, d) := m d in (map_err f r, d).
(** A call that only looks at the database. *)
Definition looks {D E X} (f : D -> outcome E X) : M D E X := fun d => (f d, d).

(** [value.map(Buffer::from)]. *)
Definition buffer_of (value : option bytes) : option Buffer := from_bytes <$> value.

(** The capabilities the services of the family declare. *)
Definition kv_capability_with (can_empty list list_with_recursive create_dir headers shared : bool) : Capability :=
  {| cap_stat := true; cap_stat_with_if_match := false; cap_stat_with_if_none_match := false;
     cap_stat_with_if_modified_since := false; cap_stat_with_if_unmodified_since := false;
     cap_stat_with_override_cache_control := false; cap_stat_with_override_content_disposition := false;
     cap_stat_with_override_content_type := false; cap_stat_with_version := false; cap_read := true;
     cap_read_with_if_match := false; cap_read_with_if_none_match := false; cap_read_with_if_modified_since := false;
     cap_read_with_if_unmodified_since := false; cap_read_with_override_cache_control := false;
     cap_read_with_override_content_disposition := false; cap_read_with_override_content_type := false;
     cap_read_with_version := false; cap_write := true; cap_write_can_multi := false; cap_write_can_empty := can_empty;
     cap_write_can_append := false; cap_write_with_content_type := headers; cap_write_with_content_disposition := headers;
     cap_write_with_content_encoding := headers; cap_write_with_cache_control := headers; cap_write_with_if_match := false;
     cap_write_with_if_none_match := false; cap_write_with_if_not_exists := false;
     cap_write_with_user_metadata := false; cap_write_multi_max_size := None; cap_write_multi_min_size := None;
     cap_write_total_max_size := None; cap_create_dir := create_dir; cap_delete := true; cap_delete_with_version := false;
     cap_delete_with_recursive := false; cap_delete_max_size := None; cap_copy := false;
     cap_copy_with_if_not_exists := false; cap_copy_with_if_match := false; cap_copy_can_multi := false;
     cap_copy_multi_max_size := None; cap_copy_multi_min_size := None; cap_rename := false; cap_list := list;
     cap_list_with_limit := false; cap_list_with_start_after := false; cap_list_with_recursive := list_with_recursive;
     cap_list_with_versions := false; cap_list_with_deleted := false; cap_presign := false;
     cap_presign_read := false; cap_presign_stat := false; cap_presign_write := false; cap_presign_delete := false;
     cap_shared := shared |}.
Definition kv_capability : bool -> bool -> bool -> bool -> bool -> Capability := kv_capability_with true.
Definition kv_info (scheme name : str) (cap : Capability) : AccessorInfo :=
  set_native_capability cap (set_root [slash] (set_name name (set_scheme scheme info_default))).
(** [with_normalized_root]. *)
Definition at_root (root : str) (info : AccessorInfo) : AccessorInfo := set_root root info.

(** ** A database of byte strings

    The calls the services make of [sled::Tree], [rocksdb::DB] and tikv's
    [RawClient].  A key is its bytes.  A failed change may have taken place. *)
Class ByteDb (D : Type) : Type := {
  db_get : str -> M D str (option bytes);
  db_put : str -> bytes -> M D str unit;
  db_remove : str -> M D str unit;
}.
Class ByteDbLaws (D : Type) `{ByteDb D} : Type := {
  db_view : D -> table;
  db_get_law k d :
    let '(r, d') := db_get k d in
    db_view d' = db_view d /\ match r with Ok v => v = db_view d !! k | Err _ => True | Panic => False end;
  db_put_law k v d :
    let '(r, d') := db_put k v d in
    match r with
    | Ok _ => db_view d' = <[k := v]> (db_view d)
    | Err _ => same_but k (db_view d) (db_view d')
    | Panic => False
    end;
  db_remove_law k d :
    let '(r, d') := db_remove k d in
    match r with
    | Ok _ => db_view d' = delete k (db_view d)
    | Err _ => same_but k (db_view d) (db_view d')
    | Panic => False
    end;
}.

(** *** sled *)

(** [Tree::scan_prefix]: the pairs with the prefix, in order; each may fail. *)
Class SledScan (D : Type) : Type := scan_prefix : str -> D -> list (outcome str (str * bytes)).
Class SledScanLaws (D : Type) `{ByteDbLaws D, SledScan D} : Prop := scan_prefix_law p d :
  (forall kvs, scan_prefix p d = Ok <$> kvs -> kvs = pairs_with p (db_view d)) /\ Panic ∉ scan_prefix p d.

Record SledCore (D : Type) : Type := mkSled { sl_datadir : str; sl_tree : D }.
Arguments mkSled {D}.
Arguments sl_datadir {D}.
Arguments sl_tree {D}.

Definition sled_parse_error (err : str) : Error := set_source err (error Unexpected "error from sled").

Section Sled.
  Context {D : Type} `{ByteDb D} `{SledScan D}.

Definition on_tree {X} (m : M D str X) : M (SledCore D) Error X :=
  zoom sl_tree (fun t s => mkSled (sl_datadir s) t) (err_of sled_parse_error m).

Definition sled_get (path : str) : M (SledCore D) Error (option Buffer) :=
  res ← on_tree (db_get path); mret (buffer_of res).
Definition sled_set (path : str) (value : Buffer) : M (SledCore D) Error unit := on_tree (db_put path (contents value)).
Definition sled_delete (path : str) : M (SledCore D) Error unit := on_tree (db_remove path).

Fixpoint sled_list_loop (it : list (outcome str (str * bytes))) (res : list (str * Z)) : result (list (str * Z)) :=
  match it with
  | [] => Ok res
  | i :: it =>
      '(key, value) ← map_err sled_parse_error i;
      v ← ok_or (set_source (b "invalid utf-8 sequence") (error Unexpected "store key is not valid utf-8 string"))
            (from_utf8 (as_bytes key));
      sled_list_loop it (res ++ [(v, Z.of_nat (length value))])
  end.
Definition sled_list (path : str) : M (SledCore D) Error (list (str * Z)) :=
  looks (fun s => sled_list_loop (scan_prefix path (sl_tree s)) []).

#[global] Instance sled_core : KvCore (SledCore D) :=
  {| kv_get := sled_get; kv_set := sled_set; kv_delete := sled_delete |}.
Definition sled_Write : Write (KvBackend (SledCore D) * KvWriter) := KvWriter_Write.
Definition sled_delete_once : str -> str -> OpDelete -> M (KvBackend (SledCore D)) Error unit := kv_delete_once.
Definition sled_Delete : Types.Delete (KvBackend (SledCore D) * KvDeleter) := kv_deleter sled_delete_once.
#[global] Instance sled_scan : KvScan (SledCore D) := sled_list.

Definition sled_new (core : SledCore D) : KvBackend (SledCore D) :=
  mkKv (kv_info (b "sled") (sl_datadir core) (kv_capability true true false false false)) core.
Definition sled_access (root : str) : Access (KvBackend (SledCore D)) Buffer KvWriter (HierarchyLister KvLister) KvDeleter unit :=
  kv_scan_access "kv not found in sled" root.

End Sled.

(** *** rocksdb *)

(** [DB::prefix_iterator] of a database without a prefix extractor: the pairs
    from the prefix on, in order, past those that have it. *)
Class RocksIter (D : Type) : Type := prefix_iterator : str -> D -> list (outcome str (str * bytes)).
Class RocksIterLaws (D : Type) `{ByteDbLaws D, RocksIter D} : Prop := prefix_iterator_law p d :
  exists kvs rest, pairs_of (db_view d) = rest ++ kvs /\ Forall (fun kv => str_le p kv.1 = false) rest /\
    (forall kv, head kvs = Some kv -> str_le p kv.1 = true) /\
    (prefix_iterator p d = Ok <$> kvs \/
     exists n e more, prefix_iterator p d = (Ok <$> take n kvs) ++ Err e :: more).

Record RocksdbCore (D : Type) : Type := mkRocksdb { rk_path : str; rk_db : D }.
Arguments mkRocksdb {D}.
Arguments rk_path {D}.
Arguments rk_db {D}.

Definition parse_rocksdb_error (e : str) : Error := set_source e (error Unexpected "got rocksdb error").

Section Rocksdb.
  Context {D : Type} `{ByteDb D} `{RocksIter D}.

Definition on_rocksdb {X} (m : M D str X) : M (RocksdbCore D) Error X :=
  zoom rk_db (fun t s => mkRocksdb (rk_path s) t) (err_of parse_rocksdb_error m).

Definition rocksdb_get (path : str) : M (RocksdbCore D) Error (option Buffer) :=
  result ← on_rocksdb (db_get path); mret (buffer_of result).
Definition rocksdb_set (path : str) (value : Buffer) : M (RocksdbCore D) Error unit :=
  on_rocksdb (db_put path (contents value)).
Definition rocksdb_delete (path : str) : M (RocksdbCore D) Error unit := on_rocksdb (db_remove path).

Fixpoint rocksdb_list_loop (path : str) (it : list (outcome str (str * bytes))) (res : list (str * Z))
  : result (list (str * Z)) :=
  match it with
  | [] => Ok res
  | entry :: it =>
      '(key, value) ← map_err parse_rocksdb_error entry;
      let key := from_utf8_lossy key in
      if negb (starts_with path key) then Ok res
      else rocksdb_list_loop path it (res ++ [(key, Z.of_nat (length value))])
  end.
Definition rocksdb_list (path : str) : M (RocksdbCore D) Error (list (str * Z)) :=
  looks (fun s => rocksdb_list_loop path (prefix_iterator path (rk_db s)) []).

#[global] Instance rocksdb_core : KvCore (RocksdbCore D) :=
  {| kv_get := rocksdb_get; kv_set := rocksdb_set; kv_delete := rocksdb_delete |}.
Definition rocksdb_Write : Write (KvBackend (RocksdbCore D) * KvWriter) := KvWriter_Write.
Definition rocksdb_delete_once : str -> str -> OpDelete -> M (KvBackend (RocksdbCore D)) Error unit := kv_delete_once.
Definition rocksdb_Delete : Types.Delete (KvBackend (RocksdbCore D) * KvDeleter) := kv_deleter rocksdb_delete_once.
#[global] Instance rocksdb_scan : KvScan (RocksdbCore D) := rocksdb_list.

Definition rocksdb_new (core : RocksdbCore D) : KvBackend (RocksdbCore D) :=
  mkKv (kv_info (b "rocksdb") (rk_path core) (kv_capability true true false false false)) core.
Definition rocksdb_access (root : str)
  : Access (KvBackend (RocksdbCore D)) Buffer KvWriter (HierarchyLister KvLister) KvDeleter unit :=
  kv_scan_access "kv not found in rocksdb" root.

End Rocksdb.

(** *** tikv *)

(** [RawClient::new] and [RawClient::new_with_config] with a certificate. *)
Class TikvConnect (D : Type) : Type := {
  client_new : list str -> M D str unit;
  client_new_with_config : list str -> str -> str -> str -> M D str unit;
}.

(** [OnceCell] holds whether there is a client. *)
Record TikvCore (D : Type) : Type := mkTikv {
  tk_client : bool; tk_endpoints : list str; tk_insecure : bool;
  tk_ca_path : option str; tk_cert_path : option str; tk_key_path : option str; tk_db : D;
}.
Arguments mkTikv {D}.
Arguments tk_client {D}.
Arguments tk_endpoints {D}.
Arguments tk_insecure {D}.
Arguments tk_ca_path {D}.
Arguments tk_cert_path {D}.
Arguments tk_key_path {D}.
Arguments tk_db {D}.

Definition parse_tikv_error (e : str) : Error := set_source e (error Unexpected "error from tikv").
Definition parse_tikv_config_error (e : str) : Error :=
  set_source e (with_context (b "service") (b "tikv") (error ConfigInvalid "invalid configuration")).
Section Tikv.
  Context {D : Type} `{ByteDb D} `{TikvConnect D}.
  (** How [Debug] prints the endpoints. *)
  Variable show_endpoints : list str -> str.

Definition tikv_on {X} (f : str -> Error) (m : M D str X) : M (TikvCore D) Error X :=
  zoom tk_db (fun d s => mkTikv (tk_client s) (tk_endpoints s) (tk_insecure s) (tk_ca_path s) (tk_cert_path s) (tk_key_path s) d)
    (err_of f m).
Definition tikv_set_client : M (TikvCore D) Error unit :=
  modify (fun s => mkTikv true (tk_endpoints s) (tk_insecure s) (tk_ca_path s) (tk_cert_path s) (tk_key_path s) (tk_db s)).

(** [get_or_try_init]: connects at the first call that succeeds. *)
Definition get_connection : M (TikvCore D) Error unit :=
  s ← get;
  if tk_client s then mret tt
  else
    (if tk_insecure s then tikv_on parse_tikv_config_error (client_new (tk_endpoints s))
     else match tk_ca_path s, tk_key_path s, tk_cert_path s with
     | Some ca_path, Some key_path, Some cert_path =>
         tikv_on parse_tikv_config_error (client_new_with_config (tk_endpoints s) ca_path cert_path key_path)
     | _, _, _ =>
         throw (with_context (b "endpoints") (show_endpoints (tk_endpoints s))
                  (with_context (b "service") (b "tikv") (error ConfigInvalid "invalid configuration")))
     end);;
    tikv_set_client.

Definition tikv_get (path : str) : M (TikvCore D) Error (option Buffer) :=
  get_connection;; result ← tikv_on parse_tikv_error (db_get path); mret (buffer_of result).
Definition tikv_set (path : str) (value : Buffer) : M (TikvCore D) Error unit :=
  get_connection;; tikv_on parse_tikv_error (db_put path (contents value)).
Definition tikv_delete (path : str) : M (TikvCore D) Error unit :=
  get_connection;; tikv_on parse_tikv_error (db_remove path).

#[local] Instance tikv_core : KvCore (TikvCore D) :=
  {| kv_get := tikv_get; kv_set := tikv_set; kv_delete := tikv_delete |}.
Definition tikv_Write : Write (KvBackend (TikvCore D) * KvWriter) := KvWriter_Write.
Definition tikv_delete_once : str -> str -> OpDelete -> M (KvBackend (TikvCore D)) Error unit := kv_delete_once.
Definition tikv_Delete : Types.Delete (KvBackend (TikvCore D) * KvDeleter) := kv_deleter tikv_delete_once.

(** [TikvBuilder::build], of the fields of its configuration. *)
Definition tikv_build (endpoints : option (list str)) (insecure : bool) (ca_path cert_path key_path : option str) (db : D)
  : result (TikvCore D) :=
  endpoints ← ok_or (with_context (b "service") (b "tikv") (error ConfigInvalid "endpoints is required but not set")) endpoints;
  if insecure && (is_some ca_path || is_some key_path || is_some cert_path) then
    Err (with_context (b "endpoints") (show_endpoints endpoints)
           (with_context (b "service") (b "tikv") (error ConfigInvalid "invalid tls configuration")))
  else Ok (mkTikv false endpoints insecure ca_path cert_path key_path db).

Definition tikv_new (core : TikvCore D) : KvBackend (TikvCore D) :=
  mkKv (kv_info (b "tikv") (b "TiKV") (kv_capability false false false false true)) core.
(** The root stays ["/"]. *)
Definition tikv_access : Access (KvBackend (TikvCore D)) Buffer KvWriter unit KvDeleter unit :=
  kv_access "kv not found in tikv" [slash].

End Tikv.

(** *** foundationdb *)

(** A transaction reads the database and buffers its changes until [commit]. *)
Class FdbCrate (D T : Type) : Type := {
  create_trx : D -> outcome str T;
  trx_get : str -> T -> M D str (option bytes);
  trx_set : str -> bytes -> T -> T;
  trx_clear : str -> T -> T;
  trx_commit : T -> M D str unit;
}.
Class FdbLaws (D T : Type) `{FdbCrate D T} : Type := {
  fdb_view : D -> table;
  (** What the transaction will change. *)
  trx_effect : T -> table -> table;
  create_trx_law d : exists t, create_trx d = Ok t /\ forall m, trx_effect t m = m;
  trx_set_law k v t m : trx_effect (trx_set k v t) m = <[k := v]> (trx_effect t m);
  trx_clear_law k t m : trx_effect (trx_clear k t) m = delete k (trx_effect t m);
  trx_get_law k t d :
    let '(r, d') := trx_get k t d in
    fdb_view d' = fdb_view d /\
    match r with Ok v => v = trx_effect t (fdb_view d) !! k | Err _ => True | Panic => False end;
  trx_commit_law t d :
    let '(r, d') := trx_commit t d in
    match r with
    | Ok _ => fdb_view d' = trx_effect t (fdb_view d)
    | Err _ => fdb_view d' = fdb_view d \/ fdb_view d' = trx_effect t (fdb_view d)
    | Panic => False
    end;
}.

Record FoundationdbCore (D : Type) : Type := mkFdb { fb_db : D }.
Arguments mkFdb {D}.
Arguments fb_db {D}.

Definition fdb_not_found : Error := error NotFound "foundationdb: key not found".
Definition parse_transaction_commit_error (e : str) : Error :=
  with_context (b "service") (b "foundationdb")
    {| kind := Unexpected; message := e; status := Permanent; operation := []; context := []; source := None |}.

Section Foundationdb.
  Context {D T : Type} `{FdbCrate D T}.

Definition on_fdb {E X} (m : M D E X) : M (FoundationdbCore D) E X := zoom fb_db (fun d _ => mkFdb d) m.
(** [.expect("Unable to create transaction")]. *)
Definition fdb_transaction {E} : M (FoundationdbCore D) E T :=
  s ← get; match create_trx (fb_db s) with Ok t => mret t | _ => panic end.

Definition foundationdb_get (path : str) : M (FoundationdbCore D) Error (option Buffer) :=
  transaction ← fdb_transaction;
  slice ← on_fdb (err_of (fun _ => fdb_not_found) (trx_get path transaction));
  match slice with
  | Some data => mret (Some (from_bytes data))
  | None => throw fdb_not_found
  end.
Definition foundationdb_set (path : str) (value : Buffer) : M (FoundationdbCore D) Error unit :=
  transaction ← fdb_transaction;
  on_fdb (err_of parse_transaction_commit_error (trx_commit (trx_set path (contents value) transaction))).
Definition foundationdb_delete (path : str) : M (FoundationdbCore D) Error unit :=
  transaction ← fdb_transaction;
  on_fdb (err_of parse_transaction_commit_error (trx_commit (trx_clear path transaction))).

#[global] Instance foundationdb_core : KvCore (FoundationdbCore D) :=
  {| kv_get := foundationdb_get; kv_set := foundationdb_set; kv_delete := foundationdb_delete |}.
Definition foundationdb_Write : Write (KvBackend (FoundationdbCore D) * KvWriter) := KvWriter_Write.
Definition foundationdb_delete_once : str -> str -> OpDelete -> M (KvBackend (FoundationdbCore D)) Error unit := kv_delete_once.
Definition foundationdb_Delete : Types.Delete (KvBackend (FoundationdbCore D) * KvDeleter) := kv_deleter foundationdb_delete_once.

Definition foundationdb_new (core : FoundationdbCore D) : KvBackend (FoundationdbCore D) :=
  mkKv (kv_info (b "foundationdb") (b "foundationdb") (kv_capability false false false false true)) core.
Definition foundationdb_access (root : str) : Access (KvBackend (FoundationdbCore D)) Buffer KvWriter unit KvDeleter unit :=
  kv_access "kv not found in foundationdb" root.

End Foundationdb.

(** *** redb *)

Inductive RedbTableError : Type := TableDoesNotExist (name : str) | TableOther (e : str).
Definition show_table_error (e : RedbTableError) : str :=
  match e with TableDoesNotExist name => b "Table '" ++ name ++ b "' does not exist" | TableOther e => e end.

(** Read transactions see a snapshot; write transactions publish their changes
    when they commit, and are undone when they are dropped. *)
Class RedbCrate (D RT WT : Type) : Type := {
  begin_read : D -> outcome str RT;
  rt_open_table : str -> RT -> outcome RedbTableError unit;
  rt_get : str -> str -> RT -> outcome str (option bytes);
  begin_write : D -> outcome str WT;
  wt_open_table : str -> M WT RedbTableError unit;
  wt_insert : str -> str -> bytes -> M WT str unit;
  wt_remove : str -> str -> M WT str unit;
  wt_commit : WT -> M D str unit;
}.
Abbreviation tables := (gmap (list ascii) (gmap (list ascii) bytes)).
Class RedbLaws (D RT WT : Type) `{RedbCrate D RT WT} : Type := {
  rd_tables : D -> tables;
  rt_tables : RT -> tables;
  wt_tables : WT -> tables;
  begin_read_law d : match begin_read d with Ok t => rt_tables t = rd_tables d | Err _ => True | Panic => False end;
  rt_open_law n t :
    match rt_open_table n t with
    | Ok _ => is_Some (rt_tables t !! n)
    | Err (TableDoesNotExist _) => rt_tables t !! n = None
    | Err (TableOther _) => True
    | Panic => False
    end;
  rt_get_law n k t :
    is_Some (rt_tables t !! n) ->
    match rt_get n k t with Ok v => v = rt_tables t !! n ≫= (.!! k) | Err _ => True | Panic => False end;
  begin_write_law d : match begin_write d with Ok t => wt_tables t = rd_tables d | Err _ => True | Panic => False end;
  (** Opening a table in a write transaction creates it. *)
  wt_open_law n t :
    let '(r, t') := wt_open_table n t in
    match r with
    | Ok _ => wt_tables t' = <[n := default ∅ (wt_tables t !! n)]> (wt_tables t)
    | Err _ => True
    | Panic => False
    end;
  wt_insert_law n k v t m :
    wt_tables t !! n = Some m ->
    let '(r, t') := wt_insert n k v t in
    match r with Ok _ => wt_tables t' = <[n := <[k := v]> m]> (wt_tables t) | Err _ => True | Panic => False end;
  wt_remove_law n k t m :
    wt_tables t !! n = Some m ->
    let '(r, t') := wt_remove n k t in
    match r with Ok _ => wt_tables t' = <[n := delete k m]> (wt_tables t) | Err _ => True | Panic => False end;
  wt_commit_law t d :
    let '(r, d') := wt_commit t d in
    match r with
    | Ok _ => rd_tables d' = wt_tables t
    | Err _ => rd_tables d' = rd_tables d \/ rd_tables d' = wt_tables t
    | Panic => False
    end;
}.

Record RedbCore (D : Type) : Type := mkRedb { rb_db : D; rb_datadir : option str; rb_table : str }.
Arguments mkRedb {D}.
Arguments rb_db {D}.
Arguments rb_datadir {D}.
Arguments rb_table {D}.

Definition redb_error (e : str) : Error := set_source e (error Unexpected "error from redb").
Definition parse_transaction_error : str -> Error := redb_error.
Definition parse_storage_error : str -> Error := redb_error.
Definition parse_commit_error : str -> Error := redb_error.
Definition parse_table_error (e : RedbTableError) : Error :=
  match e with
  | TableDoesNotExist _ => set_source (show_table_error e) (error NotFound "error from redb")
  | TableOther _ => redb_error (show_table_error e)
  end.

Section Redb.
  Context {D RT WT : Type} `{RedbCrate D RT WT}.

Definition redb_get_in (s : RedbCore D) (path : str) : result (option Buffer) :=
  read_txn ← map_err parse_transaction_error (begin_read (rb_db s));
  map_err parse_table_error (rt_open_table (rb_table s) read_txn);;
  value ← map_err parse_storage_error (rt_get (rb_table s) path read_txn);
  Ok (buffer_of value).
Definition redb_get (path : str) : M (RedbCore D) Error (option Buffer) := looks (fun s => redb_get_in s path).

(** A write transaction: open the table, change it, commit; dropped on an error. *)
Definition redb_change (change : M WT str unit) : M (RedbCore D) Error unit :=
  s ← get;
  write_txn ← lift (map_err parse_transaction_error (begin_write (rb_db s)));
  let '(r, write_txn) := (err_of parse_table_error (wt_open_table (rb_table s));; err_of parse_storage_error change) write_txn in
  lift r;;
  zoom rb_db (fun d s => mkRedb d (rb_datadir s) (rb_table s)) (err_of parse_commit_error (wt_commit write_txn)).
Definition redb_set (path : str) (value : Buffer) : M (RedbCore D) Error unit :=
  s ← get; redb_change (wt_insert (rb_table s) path (contents value)).
Definition redb_delete (path : str) : M (RedbCore D) Error unit :=
  s ← get; redb_change (wt_remove (rb_table s) path).

#[global] Instance redb_core : KvCore (RedbCore D) :=
  {| kv_get := redb_get; kv_set := redb_set; kv_delete := redb_delete |}.
Definition redb_Write : Write (KvBackend (RedbCore D) * KvWriter) := KvWriter_Write.
Definition redb_delete_once : str -> str -> OpDelete -> M (KvBackend (RedbCore D)) Error unit := kv_delete_once.
Definition redb_Delete : Types.Delete (KvBackend (RedbCore D) * KvDeleter) := kv_deleter redb_delete_once.

(** [create_table]: looks first, because a write transaction waits for others. *)
Definition create_table (name : str) : M D Error unit :=
  d ← get;
  read_txn ← lift (map_err parse_transaction_error (begin_read d));
  match rt_open_table name read_txn with
  | Ok _ => mret tt
  | Err (TableDoesNotExist _) =>
      write_txn ← lift (map_err parse_transaction_error (begin_write d));
      let '(r, write_txn) := err_of parse_table_error (wt_open_table name) write_txn in
      lift r;;
      err_of parse_commit_error (wt_commit write_txn)
  | Err e => throw (parse_table_error e)
  | Panic => panic
  end.

Definition redb_new (core : RedbCore D) : KvBackend (RedbCore D) :=
  mkKv (kv_info (b "redb") (rb_table core) (kv_capability false false false false false)) core.
Definition redb_access (root : str) : Access (KvBackend (RedbCore D)) Buffer KvWriter unit KvDeleter unit :=
  kv_access "kv not found in redb" root.

End Redb.

(** *** persy *)

Inductive PersyError : Type := RecordNotFound (e : str) | PersyOther (e : str).
Definition show_persy_error (e : PersyError) : str := match e with RecordNotFound e | PersyOther e => e end.

(** Records in a segment under ids, and an index from keys to ids. *)
Class PersyCrate (D T P Id : Type) : Type := {
  persy_index_get : str -> str -> D -> outcome PersyError (list Id);
  persy_read : str -> Id -> D -> outcome PersyError (option bytes);
  persy_begin : D -> outcome PersyError T;
  tx_insert : str -> bytes -> M T PersyError Id;
  tx_put : str -> str -> Id -> M T PersyError unit;
  tx_delete : str -> Id -> M T PersyError unit;
  tx_remove : str -> str -> option Id -> M T PersyError unit;
  tx_prepare : T -> outcome PersyError P;
  prepared_commit : P -> M D PersyError unit;
}.

Record PersyCore (D : Type) : Type := mkPersy { ps_datafile : str; ps_segment : str; ps_index : str; ps_persy : D }.
Arguments mkPersy {D}.
Arguments ps_datafile {D}.
Arguments ps_segment {D}.
Arguments ps_index {D}.
Arguments ps_persy {D}.

Definition persy_parse_error (err : PersyError) : Error :=
  set_source (show_persy_error err)
    (error (match err with RecordNotFound _ => NotFound | PersyOther _ => Unexpected end) "error from persy").

Section Persy.
  Context {D T P Id : Type} `{PersyCrate D T P Id}.

Definition persy_look {X} (f : D -> outcome PersyError X) : M (PersyCore D) Error X :=
  looks (fun s => map_err persy_parse_error (f (ps_persy s))).

Definition persy_get (path : str) : M (PersyCore D) Error (option Buffer) :=
  s ← get;
  read_id ← persy_look (persy_index_get (ps_index s) path);
  match head read_id with
  | Some id => value ← persy_look (persy_read (ps_segment s) id); mret (buffer_of value)
  | None => mret None
  end.

(** Begin a transaction, make the changes, prepare and commit it. *)
Definition persy_transaction (changes : M T PersyError unit) : M (PersyCore D) Error unit :=
  tx ← persy_look persy_begin;
  let '(r, tx) := err_of persy_parse_error changes tx in
  lift r;;
  prepared ← lift (map_err persy_parse_error (tx_prepare tx));
  zoom ps_persy (fun d s => mkPersy (ps_datafile s) (ps_segment s) (ps_index s) d)
    (err_of persy_parse_error (prepared_commit prepared)).

Definition persy_set (path : str) (value : Buffer) : M (PersyCore D) Error unit :=
  s ← get;
  persy_transaction (id ← tx_insert (ps_segment s) (contents value); tx_put (ps_index s) path id).

Definition persy_delete (path : str) : M (PersyCore D) Error unit :=
  s ← get;
  delete_id ← persy_look (persy_index_get (ps_index s) path);
  match head delete_id with
  | Some id => persy_transaction (tx_delete (ps_segment s) id;; tx_remove (ps_index s) path (Some id))
  | None => mret tt
  end.

#[global] Instance persy_core : KvCore (PersyCore D) :=
  {| kv_get := persy_get; kv_set := persy_set; kv_delete := persy_delete |}.
Definition persy_Write : Write (KvBackend (PersyCore D) * KvWriter) := KvWriter_Write.
Definition persy_delete_once : str -> str -> OpDelete -> M (KvBackend (PersyCore D)) Error unit := kv_delete_once.
Definition persy_Delete : Types.Delete (KvBackend (PersyCore D) * KvDeleter) := kv_deleter persy_delete_once.

Definition persy_new (core : PersyCore D) : KvBackend (PersyCore D) :=
  mkKv (kv_info (b "persy") (ps_datafile core) (kv_capability false false false false false)) core.
Definition persy_access : Access (KvBackend (PersyCore D)) Buffer KvWriter unit KvDeleter unit :=
  kv_access "kv not found in persy" [slash].

End Persy.

(** ** The cores are maps *)

(** Reduces a call of a core to the call of its database. *)
Ltac run_core :=
  unfold mbind, M_bind, mret, M_ret, zoom, err_of, get, put, modify, lift, looks, throw, panic in *; simpl in *.

Lemma buffer_of_map {F : Type} (r : outcome F (option bytes)) (m : table) k :
  match r with Ok v => v = m !! k | Err _ => True | Panic => False end ->
  match buffer_of <$> r with
  | Ok (Some v) => wf v /\ m !! k = Some (contents v)
  | Ok None => m !! k = None
  | Err _ => True
  | Panic => False
  end.
Proof. destruct r as [[v|]|e|]; simpl; intros H; [by split|done..]. Qed.

(** A change that took place or not. *)
Lemma same_but_either (k : str) (m m' x : table) : m' = m \/ m' = x -> same_but k m x -> same_but k m m'.
Proof. by intros [->| ->]. Qed.

#[export] Instance sled_map {D} `{ByteDbLaws D} : KvExact (SledCore D).
Proof.
  refine {| ke_view c := db_view (sl_tree c); ke_ok _ := True |}.
  - intros k c _. unfold kv_get, sled_core, sled_get, on_tree. run_core.
    pose proof (db_get_law k (sl_tree c)) as Hl. destruct (db_get k (sl_tree c)) as [r d']. destruct Hl as [Hv Hr].
    apply buffer_of_map in Hr. by destruct r.
  - intros k v c _ _. unfold kv_set, sled_core, sled_set, on_tree. run_core.
    pose proof (db_put_law k (contents v) (sl_tree c)) as Hl. destruct (db_put _ _ _) as [r d']. by destruct r.
  - intros k c _. unfold kv_delete, sled_core, sled_delete, on_tree. run_core.
    pose proof (db_remove_law k (sl_tree c)) as Hl. destruct (db_remove _ _) as [r d']. by destruct r.
Defined.

#[export] Instance rocksdb_map {D} `{ByteDbLaws D} : KvExact (RocksdbCore D).
Proof.
  refine {| ke_view c := db_view (rk_db c); ke_ok _ := True |}.
  - intros k c _. unfold kv_get, rocksdb_core, rocksdb_get, on_rocksdb. run_core.
    pose proof (db_get_law k (rk_db c)) as Hl. destruct (db_get k (rk_db c)) as [r d']. destruct Hl as [Hv Hr].
    apply buffer_of_map in Hr. by destruct r.
  - intros k v c _ _. unfold kv_set, rocksdb_core, rocksdb_set, on_rocksdb. run_core.
    pose proof (db_put_law k (contents v) (rk_db c)) as Hl. destruct (db_put _ _ _) as [r d']. by destruct r.
  - intros k c _. unfold kv_delete, rocksdb_core, rocksdb_delete, on_rocksdb. run_core.
    pose proof (db_remove_law k (rk_db c)) as Hl. destruct (db_remove _ _) as [r d']. by destruct r.
Defined.

(** Connecting to tikv does not change what it stores. *)
Class TikvLaws (D : Type) `{ByteDbLaws D, TikvConnect D} : Prop := {
  client_new_law es d : let '(r, d') := client_new es d in db_view d' = db_view d /\ r <> Panic;
  client_new_with_config_law es ca cert key d :
    let '(r, d') := client_new_with_config es ca cert key d in db_view d' = db_view d /\ r <> Panic;
}.

Lemma get_connection_ok {D} `{TikvLaws D} show (c : TikvCore D) :
  let '(r, c') := get_connection show c in db_view (tk_db c') = db_view (tk_db c) /\ r <> Panic.
Proof.
  unfold get_connection, tikv_on, tikv_set_client. run_core. destruct (tk_client c); [done|].
  destruct (tk_insecure c); simpl.
  - pose proof (client_new_law (tk_endpoints c) (tk_db c)) as Hl. destruct (client_new _ _) as [[[]|e|] d']; by destruct Hl.
  - destruct (tk_ca_path c) as [ca|], (tk_key_path c) as [key|], (tk_cert_path c) as [cert|]; try done.
    pose proof (client_new_with_config_law (tk_endpoints c) ca cert key (tk_db c)) as Hl.
    destruct (client_new_with_config _ _ _ _ _) as [[[]|e|] d']; by destruct Hl.
Qed.

Definition tikv_map {D} `{TikvLaws D} (show : list str -> str) : @KvExact (TikvCore D) (tikv_core show).
Proof.
  refine {| ke_view c := db_view (tk_db c); ke_ok _ := True |}.
  - intros k c _. unfold kv_get, tikv_core, tikv_get, tikv_on. run_core. pose proof (get_connection_ok show c) as Hc.
    destruct (get_connection show c) as [[[]|e|] c1]; destruct Hc as [Hv Hp]; [|done..].
    pose proof (db_get_law k (tk_db c1)) as Hl. destruct (db_get k (tk_db c1)) as [r d']. destruct Hl as [Hv' Hr].
    rewrite Hv in *. apply buffer_of_map in Hr. by destruct r.
  - intros k v c _ _. unfold kv_set, tikv_core, tikv_set, tikv_on. run_core. pose proof (get_connection_ok show c) as Hc.
    destruct (get_connection show c) as [[[]|e|] c1]; destruct Hc as [Hv Hp]; [|by rewrite <- Hv|done].
    pose proof (db_put_law k (contents v) (tk_db c1)) as Hl. destruct (db_put _ _ _) as [r d']. rewrite <- Hv. by destruct r.
  - intros k c _. unfold kv_delete, tikv_core, tikv_delete, tikv_on. run_core. pose proof (get_connection_ok show c) as Hc.
    destruct (get_connection show c) as [[[]|e|] c1]; destruct Hc as [Hv Hp]; [|by rewrite <- Hv|done].
    pose proof (db_remove_law k (tk_db c1)) as Hl. destruct (db_remove _ _) as [r d']. rewrite <- Hv. by destruct r.
Defined.

#[export] Instance foundationdb_map {D T} `{FdbLaws D T} : KvExact (FoundationdbCore D).
Proof.
  refine {| ke_view c := fdb_view (fb_db c); ke_ok _ := True |}.
  - intros k c _. unfold kv_get, foundationdb_core, foundationdb_get, fdb_transaction, on_fdb. run_core.
    destruct (create_trx_law (fb_db c)) as (t & -> & Ht). simpl. pose proof (trx_get_law k t (fb_db c)) as Hl.
    destruct (trx_get k t (fb_db c)) as [[[v|]|e|] d']; destruct Hl as [Hv Hr]; simpl; [|done..].
    rewrite Ht in Hr. split_and!; try done.
  - intros k v c _ _. unfold kv_set, foundationdb_core, foundationdb_set, fdb_transaction, on_fdb. run_core.
    destruct (create_trx_law (fb_db c)) as (t & -> & Ht). simpl.
    pose proof (trx_commit_law (trx_set k (contents v) t) (fb_db c)) as Hl.
    destruct (trx_commit _ _) as [[[]|e|] d']; simpl in *; rewrite ?trx_set_law, ?Ht in Hl; [done | | done].
    split; [done|]. eapply same_but_either; [exact Hl|]. intros j Hj. by apply lookup_insert_ne.
  - intros k c _. unfold kv_delete, foundationdb_core, foundationdb_delete, fdb_transaction, on_fdb. run_core.
    destruct (create_trx_law (fb_db c)) as (t & -> & Ht). simpl.
    pose proof (trx_commit_law (trx_clear k t) (fb_db c)) as Hl.
    destruct (trx_commit _ _) as [[[]|e|] d']; simpl in *; rewrite ?trx_clear_law, ?Ht in Hl; [done | | done].
    split; [done|]. eapply same_but_either; [exact Hl|]. intros j Hj. by apply lookup_delete_ne.
Defined.

(** The table of the service; it exists once [create_table] has succeeded. *)
Definition redb_view {D RT WT} `{RedbLaws D RT WT} (c : RedbCore D) : table := default ∅ (rd_tables (rb_db c) !! rb_table c).

(** A write transaction changes the table as asked, or not at all. *)
Lemma redb_change_ok {D RT WT} `{RedbLaws D RT WT} (c : RedbCore D) (change : M WT str unit) (f : table -> table) :
  (forall t m, wt_tables t !! rb_table c = Some m ->
    let '(r, t') := change t in
    match r with Ok _ => wt_tables t' = <[rb_table c := f m]> (wt_tables t) | Err _ => True | Panic => False end) ->
  let '(r, c') := redb_change change c in
  rb_table c' = rb_table c /\
  match r with
  | Ok _ => redb_view c' = f (redb_view c)
  | Err _ => redb_view c' = redb_view c \/ redb_view c' = f (redb_view c)
  | Panic => False
  end.
Proof.
  intros Hch. unfold redb_change. run_core. pose proof (begin_write_law (rb_db c)) as Hb.
  destruct (begin_write (rb_db c)) as [t|e|]; simpl in *; [|by split; [|left]|done].
  pose proof (wt_open_law (rb_table c) t) as Ho. destruct (wt_open_table (rb_table c) t) as [[[]|e|] t1]; simpl;
    [|by split; [|left]|done].
  assert (wt_tables t1 !! rb_table c = Some (redb_view c)) as Ht1.
  { rewrite Ho, lookup_insert_eq. unfold redb_view. by rewrite Hb. }
  specialize (Hch t1 _ Ht1). destruct (change t1) as [[[]|e|] t2]; simpl; [|by split; [|left]|done].
  assert (default ∅ (wt_tables t2 !! rb_table c) = f (redb_view c)) as Ht2 by by rewrite Hch, lookup_insert_eq.
  pose proof (wt_commit_law t2 (rb_db c)) as Hc. destruct (wt_commit t2 (rb_db c)) as [[[]|e|] d']; simpl; [| |done].
  - split; [done|]. unfold redb_view at 1. simpl. by rewrite Hc.
  - split; [done|]. unfold redb_view at 1 3. simpl. destruct Hc as [->| ->]; [by left | by right].
Qed.

#[export] Instance redb_map {D RT WT} `{RedbLaws D RT WT} : KvExact (RedbCore D).
Proof.
  refine {| ke_view := redb_view; ke_ok _ := True |}.
  - intros k c _. unfold kv_get, redb_core, redb_get, redb_get_in. run_core. split_and!; [done..|].
    pose proof (begin_read_law (rb_db c)) as Hb. destruct (begin_read (rb_db c)) as [t|e|]; simpl; [|done..].
    pose proof (rt_open_law (rb_table c) t) as Ho. destruct (rt_open_table (rb_table c) t) as [[]|[n|e]|]; simpl; [|done..].
    pose proof (rt_get_law (rb_table c) k t Ho) as Hg. rewrite Hb in Hg. rewrite Hb in Ho. destruct Ho as [m Hm].
    rewrite Hm in Hg. simpl in Hg. unfold redb_view. rewrite Hm. simpl. apply buffer_of_map in Hg.
    by destruct (rt_get (rb_table c) k t).
  - intros k v c _ _. unfold kv_set, redb_core, redb_set. run_core.
    pose proof (redb_change_ok c (wt_insert (rb_table c) k (contents v)) (insert k (contents v))) as Hc.
    destruct (redb_change _ c) as [r c'].
    destruct Hc as [_ Hr]; [intros t m Hm; exact (wt_insert_law _ k (contents v) t m Hm)|].
    destruct r as [[]|e|]; [done| |done]. split; [done|]. eapply same_but_either; [exact Hr|].
    intros j Hj. by apply lookup_insert_ne.
  - intros k c _. unfold kv_delete, redb_core, redb_delete. run_core.
    pose proof (redb_change_ok c (wt_remove (rb_table c) k) (delete k)) as Hc.
    destruct (redb_change _ c) as [r c'].
    destruct Hc as [_ Hr]; [intros t m Hm; exact (wt_remove_law _ k t m Hm)|].
    destruct r as [[]|e|]; [done| |done]. split; [done|]. eapply same_but_either; [exact Hr|].
    intros j Hj. by apply lookup_delete_ne.
Defined.

(** *** persy *)

(** What is in a database: records of segments by id, ids of indexes by key. *)
Record PersyView (Id : Type) `{Countable Id} : Type := mkPersyView {
  pv_segments : gmap (list ascii) (gmap Id bytes); pv_indexes : gmap (list ascii) (gmap (list ascii) Id);
}.
Arguments mkPersyView {Id _ _}.
Arguments pv_segments {Id _ _}.
Arguments pv_indexes {Id _ _}.

Section PersyViews.
  Context {Id : Type} `{Countable Id}.
  Implicit Types v : PersyView Id.

Definition pv_records (seg : str) v : gmap Id bytes := default ∅ (pv_segments v !! seg).
Definition pv_index (idx : str) v : gmap (list ascii) Id := default ∅ (pv_indexes v !! idx).
Definition set_records (seg : str) (f : gmap Id bytes -> gmap Id bytes) v : PersyView Id :=
  mkPersyView (<[seg := f (pv_records seg v)]> (pv_segments v)) (pv_indexes v).
Definition set_index (idx : str) (f : gmap (list ascii) Id -> gmap (list ascii) Id) v : PersyView Id :=
  mkPersyView (pv_segments v) (<[idx := f (pv_index idx v)]> (pv_indexes v)).

End PersyViews.

(** Ids of new records are fresh; an index with [ValueMode::Replace] has one id
    for a key; a transaction is published when it is committed. *)
Class PersyLaws (D T P Id : Type) `{Countable Id} `{PersyCrate D T P Id} : Type := {
  pd_view : D -> PersyView Id;
  tx_view : T -> PersyView Id;
  pp_view : P -> PersyView Id;
  index_get_law idx k d :
    match persy_index_get idx k d with
    | Ok ids => ids = option_list (pv_index idx (pd_view d) !! k)
    | Err _ => True
    | Panic => False
    end;
  persy_read_law seg id d :
    match persy_read seg id d with Ok v => v = pv_records seg (pd_view d) !! id | Err _ => True | Panic => False end;
  persy_begin_law d : match persy_begin d with Ok t => tx_view t = pd_view d | Err _ => True | Panic => False end;
  tx_insert_law seg v t :
    let '(r, t') := tx_insert seg v t in
    match r with
    | Ok id => pv_records seg (tx_view t) !! id = None /\ tx_view t' = set_records seg <[id := v]> (tx_view t)
    | Err _ => True
    | Panic => False
    end;
  tx_put_law idx k id t :
    let '(r, t') := tx_put idx k id t in
    match r with Ok _ => tx_view t' = set_index idx <[k := id]> (tx_view t) | Err _ => True | Panic => False end;
  tx_delete_law seg id t :
    let '(r, t') := tx_delete seg id t in
    match r with Ok _ => tx_view t' = set_records seg (delete id) (tx_view t) | Err _ => True | Panic => False end;
  tx_remove_law idx k id t :
    pv_index idx (tx_view t) !! k = Some id ->
    let '(r, t') := tx_remove idx k (Some id) t in
    match r with Ok _ => tx_view t' = set_index idx (delete k) (tx_view t) | Err _ => True | Panic => False end;
  tx_prepare_law t : match tx_prepare t with Ok p => pp_view p = tx_view t | Err _ => True | Panic => False end;
  prepared_commit_law p d :
    let '(r, d') := prepared_commit p d in
    match r with
    | Ok _ => pd_view d' = pp_view p
    | Err _ => pd_view d' = pd_view d \/ pd_view d' = pp_view p
    | Panic => False
    end;
}.

Section PersyMap.
  Context {D T P Id : Type} `{PersyLaws D T P Id}.
  Implicit Types c : PersyCore D.

Definition persy_records c : gmap Id bytes := pv_records (ps_segment c) (pd_view (ps_persy c)).
Definition persy_index c : gmap (list ascii) Id := pv_index (ps_index c) (pd_view (ps_persy c)).
(** The object under a key is the record its id leads to. *)
Definition persy_view c : table := omap (fun id => persy_records c !! id) (persy_index c).
(** Every id leads to a record, and no two keys share one. *)
Definition persy_ok c : Prop :=
  map_Forall (fun _ id => is_Some (persy_records c !! id)) (persy_index c) /\
  forall k j id, persy_index c !! k = Some id -> persy_index c !! j = Some id -> k = j.

Lemma persy_view_lookup c k : persy_view c !! k = persy_index c !! k ≫= fun id => persy_records c !! id.
Proof. apply lookup_omap. Qed.

(** The database after a transaction is what it was, or what the changes made of it. *)
Lemma persy_transaction_ok c changes (post : PersyView Id -> Prop) :
  (forall t, tx_view t = pd_view (ps_persy c) ->
    let '(r, t') := changes t in match r with Ok _ => post (tx_view t') | Err _ => True | Panic => False end) ->
  let '(r, c') := persy_transaction changes c in
  ps_segment c' = ps_segment c /\ ps_index c' = ps_index c /\
  match r with
  | Ok _ => post (pd_view (ps_persy c'))
  | Err _ => pd_view (ps_persy c') = pd_view (ps_persy c) \/ post (pd_view (ps_persy c'))
  | Panic => False
  end.
Proof.
  intros Hch. unfold persy_transaction, persy_look. run_core. pose proof (persy_begin_law (ps_persy c)) as Hb.
  destruct (persy_begin (ps_persy c)) as [t|e|]; simpl; [|by split_and!; [| |left]|done].
  specialize (Hch t Hb). destruct (changes t) as [[[]|e|] t1]; simpl; [|by split_and!; [| |left]|done].
  pose proof (tx_prepare_law t1) as Hp. destruct (tx_prepare t1) as [p|e|]; simpl; [|by split_and!; [| |left]|done].
  pose proof (prepared_commit_law p (ps_persy c)) as Hc. destruct (prepared_commit p (ps_persy c)) as [[[]|e|] d']; simpl;
    [| |done]; (split_and!; [done..|]).
  - by rewrite Hc, Hp.
  - destruct Hc as [->| ->]; [by left | right; by rewrite Hp].
Qed.

(** What storing and deleting make of the view. *)
Definition persy_set_post c k v (w : PersyView Id) : Prop :=
  exists id, persy_records c !! id = None /\ pv_records (ps_segment c) w = <[id := v]> (persy_records c) /\
    pv_index (ps_index c) w = <[k := id]> (persy_index c).
Definition persy_delete_post c k (w : PersyView Id) : Prop :=
  exists id, persy_index c !! k = Some id /\ pv_records (ps_segment c) w = delete id (persy_records c) /\
    pv_index (ps_index c) w = delete k (persy_index c).

Lemma persy_after c c' (w : PersyView Id) :
  ps_segment c' = ps_segment c -> ps_index c' = ps_index c -> pd_view (ps_persy c') = w ->
  persy_records c' = pv_records (ps_segment c) w /\ persy_index c' = pv_index (ps_index c) w.
Proof. intros E1 E2 E3. unfold persy_records, persy_index. by rewrite E1, E2, E3. Qed.

Lemma persy_stored c c' k v id :
  persy_ok c -> persy_records c !! id = None ->
  persy_records c' = <[id := v]> (persy_records c) -> persy_index c' = <[k := id]> (persy_index c) ->
  persy_ok c' /\ persy_view c' = <[k := v]> (persy_view c).
Proof.
  intros [Hrec Hinj] Hid Er Ei.
  assert (forall j id', persy_index c !! j = Some id' -> id' <> id) as Hne.
  { intros j id' Hj ->. destruct (Hrec j id Hj) as [? ?]. congruence. }
  split; [split|].
  - rewrite Er, Ei. apply map_Forall_insert_2; [by rewrite lookup_insert_eq|].
    intros j id' Hj. rewrite lookup_insert_ne by (symmetry; by eapply Hne). by eapply Hrec.
  - rewrite Ei. intros i j id' Hi Hj. rewrite lookup_insert_Some in Hi, Hj.
    destruct Hi as [[-> <-]|[Hi Hi']], Hj as [[-> Ej]|[Hj Hj']]; try done.
    + by destruct (Hne _ _ Hj').
    + subst. by destruct (Hne _ _ Hi').
    + by eapply Hinj.
  - apply map_eq. intros j. rewrite persy_view_lookup, Er, Ei. destruct (decide (j = k)) as [->|Hj].
    + rewrite !lookup_insert_eq. simpl. apply lookup_insert_eq.
    + rewrite !(lookup_insert_ne _ k) by done. rewrite persy_view_lookup.
      destruct (persy_index c !! j) as [id'|] eqn:E; simpl; [|done].
      apply lookup_insert_ne. symmetry. by eapply Hne.
Qed.

Lemma persy_deleted c c' k id :
  persy_ok c -> persy_index c !! k = Some id ->
  persy_records c' = delete id (persy_records c) -> persy_index c' = delete k (persy_index c) ->
  persy_ok c' /\ persy_view c' = delete k (persy_view c).
Proof.
  intros [Hrec Hinj] Hk Er Ei.
  assert (forall j id', j <> k -> persy_index c !! j = Some id' -> id' <> id) as Hne.
  { intros j id' Hj Hj' ->. by apply Hj, (Hinj j k id). }
  split; [split|].
  - rewrite Er, Ei. intros j id' [Hj Hj']%lookup_delete_Some. rewrite lookup_delete_ne by (symmetry; by eapply Hne).
    by eapply Hrec.
  - rewrite Ei. intros i j id' [_ Hi]%lookup_delete_Some [_ Hj]%lookup_delete_Some. by eapply Hinj.
  - apply map_eq. intros j. rewrite persy_view_lookup, Er, Ei. destruct (decide (j = k)) as [->|Hj].
    + by rewrite !lookup_delete_eq.
    + rewrite !(lookup_delete_ne _ k) by done. rewrite persy_view_lookup.
      destruct (persy_index c !! j) as [id'|] eqn:E; simpl; [|done].
      apply lookup_delete_ne. symmetry. by eapply Hne.
Qed.

Lemma persy_set_changes c k v t :
  tx_view t = pd_view (ps_persy c) ->
  let '(r, t') := (id ← tx_insert (ps_segment c) v; tx_put (ps_index c) k id) t in
  match r with Ok _ => persy_set_post c k v (tx_view t') | Err _ => True | Panic => False end.
Proof.
  intros Ht. run_core. pose proof (tx_insert_law (ps_segment c) v t) as Hi.
  destruct (tx_insert _ _ _) as [[id|e|] t1]; [|done..]. destruct Hi as [Hid Hi].
  pose proof (tx_put_law (ps_index c) k id t1) as Hp. destruct (tx_put _ _ _ _) as [[[]|e|] t2]; [|done..].
  exists id. rewrite Hp, Hi, Ht in *. unfold persy_records, persy_index, set_index, set_records, pv_records, pv_index in *. simpl.
  by rewrite !lookup_insert_eq.
Qed.
Lemma persy_delete_changes c k id t :
  persy_index c !! k = Some id -> tx_view t = pd_view (ps_persy c) ->
  let '(r, t') := (tx_delete (ps_segment c) id;; tx_remove (ps_index c) k (Some id)) t in
  match r with Ok _ => persy_delete_post c k (tx_view t') | Err _ => True | Panic => False end.
Proof.
  intros Hk Ht. run_core. pose proof (tx_delete_law (ps_segment c) id t) as Hi.
  destruct (tx_delete _ _ _) as [[[]|e|] t1]; [|done..]. pose proof (tx_remove_law (ps_index c) k id t1) as Hp.
  rewrite Hi, Ht in Hp. specialize (Hp Hk). destruct (tx_remove _ _ _ _) as [[[]|e|] t2]; [|done..].
  exists id. rewrite Hp. unfold persy_records, persy_index, set_index, set_records, pv_records, pv_index in *. simpl.
  by rewrite !lookup_insert_eq.
Qed.

Lemma persy_unchanged c c' :
  ps_segment c' = ps_segment c -> ps_index c' = ps_index c -> pd_view (ps_persy c') = pd_view (ps_persy c) ->
  persy_ok c -> persy_ok c' /\ persy_view c' = persy_view c.
Proof. intros E1 E2 E3. unfold persy_ok, persy_view, persy_records, persy_index. by rewrite E1, E2, E3. Qed.

#[global] Instance persy_map : KvExact (PersyCore D).
Proof using All.
  refine {| ke_view := persy_view; ke_ok := persy_ok |}.
  - intros k c Hc. unfold kv_get, persy_core, persy_get, persy_look. run_core.
    pose proof (index_get_law (ps_index c) k (ps_persy c)) as Hi. rewrite persy_view_lookup. unfold persy_index.
    destruct (persy_index_get _ _ _) as [ids|e|]; simpl; [|done..]. subst ids.
    destruct (pv_index _ _ !! k) as [id|]; simpl; [|done].
    pose proof (persy_read_law (ps_segment c) id (ps_persy c)) as Hr. fold (persy_records c) in Hr.
    destruct (persy_read _ _ _) as [[v|]|e|]; simpl; done.
  - intros k v c Hc Hv. unfold kv_set, persy_core, persy_set. run_core.
    pose proof (persy_transaction_ok c _ (persy_set_post c k (contents v)) (persy_set_changes c k (contents v))) as Ht.
    destruct (persy_transaction _ c) as [r c']. destruct Ht as (E1 & E2 & Hr).
    destruct (persy_after c c' _ E1 E2 eq_refl) as [F1 F2]. unfold persy_set_post, persy_delete_post in Hr. rewrite <- F1, <- F2 in Hr.
    destruct r as [[]|e|]; [|destruct Hr as [Hr|Hr]|done].
    + destruct Hr as (id & Hid & Er & Ei). by apply (persy_stored c c' k _ id).
    + destruct (persy_unchanged c c' E1 E2 Hr Hc) as [? ->]. done.
    + destruct Hr as (id & Hid & Er & Ei). destruct (persy_stored c c' k (contents v) id) as [? ->]; try done.
      split; [done|]. intros j Hj. by apply lookup_insert_ne.
  - intros k c Hc. unfold kv_delete, persy_core, persy_delete, persy_look. run_core.
    pose proof (index_get_law (ps_index c) k (ps_persy c)) as Hi.
    destruct (persy_index_get _ _ _) as [ids|e|]; simpl; [|done..]. subst ids.
    destruct (pv_index _ _ !! k) as [id|] eqn:Ek; simpl.
    2: { split; [done|]. symmetry. apply delete_id. rewrite persy_view_lookup. unfold persy_index. by rewrite Ek. }
    pose proof (persy_transaction_ok c _ (persy_delete_post c k) (fun t => persy_delete_changes c k id t Ek)) as Ht.
    destruct (persy_transaction _ c) as [r c']. destruct Ht as (E1 & E2 & Hr).
    destruct (persy_after c c' _ E1 E2 eq_refl) as [F1 F2]. unfold persy_set_post, persy_delete_post in Hr. rewrite <- F1, <- F2 in Hr.
    destruct r as [[]|e|]; [|destruct Hr as [Hr|Hr]|done].
    + destruct Hr as (id' & Hid & Er & Ei). apply (persy_deleted c c' k id'); try done.
    + destruct (persy_unchanged c c' E1 E2 Hr Hc) as [? ->]. done.
    + destruct Hr as (id' & Hid & Er & Ei). destruct (persy_deleted c c' k id') as [? ->]; try done.
      split; [done|]. intros j Hj. by apply lookup_delete_ne.
Defined.

End PersyMap.

(** Overwriting replaces the id in the index; the record of the old object stays
    in the segment, and no key leads to it any more. *)
Theorem persy_overwrite_leaks {D T P Id} `{PersyLaws D T P Id} (c c' : PersyCore D) k v id0 :
  persy_ok c -> persy_index c !! k = Some id0 -> persy_set k v c = (Ok tt, c') ->
  is_Some (persy_records c' !! id0) /\ forall j, persy_index c' !! j <> Some id0.
Proof.
  intros [Hrec Hinj] Hk Hset.
  assert (persy_transaction (id ← tx_insert (ps_segment c) (contents v); tx_put (ps_index c) k id) c = (Ok tt, c'))
    as Htx by exact Hset.
  pose proof (persy_transaction_ok c _ (persy_set_post c k (contents v)) (persy_set_changes c k (contents v))) as Ht.
  rewrite Htx in Ht. destruct Ht as (E1 & E2 & id & Hid & Er & Ei).
  destruct (persy_after c c' _ E1 E2 eq_refl) as [F1 F2]. rewrite F1, F2, Er, Ei.
  destruct (Hrec k id0 Hk) as [r0 Hr0]. split.
  - rewrite lookup_insert_ne; [done|]. intros ->. congruence.
  - intros j [[-> ->]|[Hj Hj']]%lookup_insert_Some; [congruence|]. by apply Hj, (Hinj k j id0).
Qed.

(** ** Scanning *)

Definition key_len (kv : str * bytes) : str * Z := (kv.1, Z.of_nat (length kv.2)).

Lemma sled_list_loop_ok it res out :
  sled_list_loop it res = Ok out -> exists kvs, it = Ok <$> kvs /\ out = res ++ (key_len <$> kvs).
Proof.
  revert res. induction it as [|i it IH]; intros res E; simpl in E.
  - exists []. simplify_eq. by rewrite app_nil_r.
  - destruct i as [[key value]|e|]; simpl in E; [|done..]. unfold from_utf8 in E. rewrite ascii_as_bytes in E.
    destruct (valid_utf8 (as_bytes key)); simpl in E; [|done]. apply IH in E as (kvs & -> & ->).
    exists ((key, value) :: kvs). split; [done|]. by rewrite <- app_assoc.
Qed.
Lemma sled_list_loop_no_panic it res : Panic ∉ it -> sled_list_loop it res <> Panic.
Proof.
  revert res. induction it as [|i it IH]; intros res Hp; simpl; [done|].
  rewrite not_elem_of_cons in Hp. destruct Hp as [Hi Hp]. destruct i as [[key value]|e|]; simpl; [|done..].
  destruct (from_utf8 (as_bytes key)); simpl; [|done]. by apply IH.
Qed.

#[export] Instance sled_scan_map {D} `{SledScanLaws D} : KvScanMap (SledCore D).
Proof.
  intros p c _ _. unfold kv_list, sled_scan, sled_list. run_core. split_and!; [done..|].
  destruct (scan_prefix_law p (sl_tree c)) as [Hscan Hp].
  pose proof (sled_list_loop_no_panic _ [] Hp) as Hnp.
  destruct (sled_list_loop (scan_prefix p (sl_tree c)) []) as [kvs|e|] eqn:E; [|done..].
  apply sled_list_loop_ok in E as (l & El & ->). rewrite (Hscan l El). done.
Qed.

(** The pairs with a prefix are a run of the pairs in order. *)
Lemma run_pairs p (l : list (str * bytes)) :
  StronglySorted str_leP l.*1 -> Forall (fun kv => str_le p kv.1 = true) l ->
  take_while (fun kv => starts_with p kv.1) l = filter (fun kv => starts_with p kv.1 = true) l.
Proof.
  induction l as [|x l IH]; intros Hs Hall; [done|]. inversion Hs as [|? ? Hs' Hx]; subst. inversion Hall; subst. simpl.
  destruct (starts_with p x.1) eqn:E; [rewrite filter_cons_True by done; by rewrite IH|].
  rewrite filter_cons_False by congruence. symmetry. apply filter_none.
  apply Forall_forall. intros y Hy Hpy. rewrite (prefix_between p x.1 y.1) in E; [done | done | | done].
  apply (proj1 (Forall_forall _ _) Hx). by apply list_elem_of_fmap_2.
Qed.

Lemma StronglySorted_tail (l k : list str) : StronglySorted str_leP (l ++ k) -> StronglySorted str_leP k.
Proof. induction l as [|x l IH]; [done|]. inversion 1; auto. Qed.

Lemma rocksdb_list_loop_ok p kvs res :
  Forall (fun kv => valid_utf8 (as_bytes kv.1) = true) kvs ->
  rocksdb_list_loop p (Ok <$> kvs) res = Ok (res ++ (key_len <$> take_while (fun kv => starts_with p kv.1) kvs)).
Proof.
  intros Hutf. revert res. induction Hutf as [|[k v] kvs Hk _ IH]; intros res; csimpl; [by rewrite app_nil_r|].
  rewrite lossy_valid by done. destruct (starts_with p k) eqn:E; simpl; [|by rewrite app_nil_r].
  rewrite IH. csimpl. by rewrite <- app_assoc.
Qed.
(** Where the iterator breaks off, the loop fails or has ended before. *)
Lemma rocksdb_error_or_all p kvs n e more res :
  Forall (fun kv => valid_utf8 (as_bytes kv.1) = true) kvs ->
  (exists e', rocksdb_list_loop p ((Ok <$> take n kvs) ++ Err e :: more) res = Err e') \/
  rocksdb_list_loop p ((Ok <$> take n kvs) ++ Err e :: more) res =
    Ok (res ++ (key_len <$> take_while (fun kv => starts_with p kv.1) kvs)).
Proof.
  intros Hutf. revert n res. induction Hutf as [|[k v] kvs Hk _ IH]; intros n res.
  { rewrite take_nil. simpl. left. by eexists. }
  destruct n as [|n]; csimpl; [left; by eexists|]. rewrite lossy_valid by done.
  destruct (starts_with p k) eqn:E; simpl.
  - destruct (IH n (res ++ [(k, Z.of_nat (length v))])) as [[e' He]|He]; rewrite He; [left; by eexists|].
    right. csimpl. by rewrite <- app_assoc.
  - right. by rewrite app_nil_r.
Qed.

#[export] Instance rocksdb_scan_map {D} `{RocksIterLaws D} : KvScanMap (RocksdbCore D).
Proof.
  intros p c _ Hutf. unfold kv_list, rocksdb_scan, rocksdb_list. run_core. split_and!; [done..|].
  destruct (prefix_iterator_law p (rk_db c)) as (kvs & rest & Hpairs & Hrest & Hhead & Hit).
  assert (Forall (fun kv => valid_utf8 (as_bytes kv.1) = true) kvs) as Hall.
  { apply Forall_forall. intros [k d] Hk. apply (Hutf k d). simpl. apply elem_pairs_of. rewrite Hpairs. set_solver. }
  assert (StronglySorted str_leP kvs.*1) as Hsort.
  { apply (StronglySorted_tail rest.*1). rewrite <- fmap_app, <- Hpairs, pairs_of_keys. apply (StronglySorted_merge_sort _). }
  assert (take_while (fun kv => starts_with p kv.1) kvs = pairs_with p (db_view (rk_db c))) as Hrun.
  { unfold pairs_with. rewrite Hpairs, filter_app, (filter_none _ rest).
    - apply run_pairs; [done|]. destruct kvs as [|x kvs]; [constructor|]. specialize (Hhead x eq_refl).
      inversion Hsort as [|? ? Hs' Hx]; subst. constructor; [done|]. apply Forall_forall. intros y Hy.
      apply (str_leP_trans p x.1 y.1); [done|]. apply (proj1 (Forall_forall _ _) Hx). by apply list_elem_of_fmap_2.
    - rewrite Forall_forall in *. intros x Hx Hpx%prefix_le. apply Hrest in Hx. congruence. }
  rewrite <- Hrun. destruct Hit as [->|(n & e & more & ->)].
  - by rewrite rocksdb_list_loop_ok.
  - destruct (rocksdb_error_or_all p kvs n e more [] Hall) as [[e' He]|He]; by rewrite He.
Qed.
