(* ===== verification/KvMongo.v ===== *)
(** * Services on MongoDB: [mongodb] and [gridfs]

    Documents in a collection, and files in a bucket; both cores are maps, and
    with them all services of the family are shown to be maps. *)

From S2P Require Import Prelude Errors Path Range Buffer Types Access Listers Deleters Readers Memory Text Kv KvServices.
From stdpp Require Import options.

(** ** mongodb *)

Inductive Bson : Type := BinaryGeneric (bs : bytes) | BsonString (s : str) | BsonOther.
Abbreviation Document := (gmap (list ascii) Bson).

(** A collection: connecting to it, and the calls with a filter on one field. *)
Class MongoCrate (D : Type) : Type := {
  mongo_options_parse : str -> M D str unit;
  mongo_with_options : M D str unit;
  find_one : str * str -> M D str (option Document);
  update_one_upsert : str * str -> str * Bson -> M D str unit;
  delete_one_doc : str * str -> M D str unit;
}.
(** Per field: the document with each value.  Documents stay unique as long as
    they are only changed through that field. *)
Class MongoLaws (D : Type) `{MongoCrate D} : Type := {
  mg_docs : str -> D -> gmap (list ascii) Document;
  mg_unique : str -> D -> Prop;
  options_parse_law s d :
    let '(r, d') := mongo_options_parse s d in
    r <> Panic /\ forall f, mg_docs f d' = mg_docs f d /\ (mg_unique f d -> mg_unique f d');
  with_options_law d :
    let '(r, d') := mongo_with_options d in
    r <> Panic /\ forall f, mg_docs f d' = mg_docs f d /\ (mg_unique f d -> mg_unique f d');
  find_one_law f k d :
    let '(r, d') := find_one (f, k) d in
    mg_docs f d' = mg_docs f d /\ (mg_unique f d -> mg_unique f d') /\
    match r with Ok v => v = mg_docs f d !! k | Err _ => True | Panic => False end;
  update_one_law f k g x d :
    mg_unique f d -> g <> f ->
    let '(r, d') := update_one_upsert (f, k) (g, x) d in
    let doc := <[g := x]> (default {[f := BsonString k]} (mg_docs f d !! k)) in
    mg_unique f d' /\
    match r with
    | Ok _ => mg_docs f d' = <[k := doc]> (mg_docs f d)
    | Err _ => mg_docs f d' = mg_docs f d \/ mg_docs f d' = <[k := doc]> (mg_docs f d)
    | Panic => False
    end;
  delete_one_law f k d :
    mg_unique f d ->
    let '(r, d') := delete_one_doc (f, k) d in
    mg_unique f d' /\
    match r with
    | Ok _ => mg_docs f d' = delete k (mg_docs f d)
    | Err _ => mg_docs f d' = mg_docs f d \/ mg_docs f d' = delete k (mg_docs f d)
    | Panic => False
    end;
}.

Record MongodbCore (D : Type) : Type := mkMongodb {
  mo_connection_string : str; mo_database : str; mo_collection : str; mo_collection_instance : bool;
  mo_key_field : str; mo_value_field : str; mo_db : D;
}.
Arguments mkMongodb {D}.
Arguments mo_connection_string {D}.
Arguments mo_database {D}.
Arguments mo_collection {D}.
Arguments mo_collection_instance {D}.
Arguments mo_key_field {D}.
Arguments mo_value_field {D}.
Arguments mo_db {D}.

Definition parse_mongodb_error (err : str) : Error := set_source err (error Unexpected "mongodb error").
Definition parse_bson_error (err : str) : Error := set_source err (error Unexpected "bson error").
(** [Document::get_binary_generic]. *)
Definition get_binary_generic (field : str) (doc : Document) : outcome str bytes :=
  match doc !! field with
  | Some (BinaryGeneric bs) => Ok bs
  | Some _ => Err (b "value type mismatch")
  | None => Err (b "value not present")
  end.

Section Mongodb.
  Context {D : Type} `{MongoCrate D}.

Definition mongo_on {X} (m : M D str X) : M (MongodbCore D) Error X :=
  zoom mo_db (fun d s => mkMongodb (mo_connection_string s) (mo_database s) (mo_collection s) (mo_collection_instance s)
                           (mo_key_field s) (mo_value_field s) d) (err_of parse_mongodb_error m).
(** [get_or_try_init]. *)
Definition get_collection : M (MongodbCore D) Error unit :=
  s ← get;
  if mo_collection_instance s then mret tt
  else
    mongo_on (mongo_options_parse (mo_connection_string s));;
    mongo_on mongo_with_options;;
    modify (fun s => mkMongodb (mo_connection_string s) (mo_database s) (mo_collection s) true (mo_key_field s) (mo_value_field s) (mo_db s)).

Definition mongodb_get (path : str) : M (MongodbCore D) Error (option Buffer) :=
  get_collection;;
  s ← get;
  result ← mongo_on (find_one (mo_key_field s, path));
  match result with
  | Some doc => value ← lift (map_err parse_bson_error (get_binary_generic (mo_value_field s) doc)); mret (Some (from_bytes value))
  | None => mret None
  end.
Definition mongodb_set (path : str) (value : Buffer) : M (MongodbCore D) Error unit :=
  get_collection;;
  s ← get;
  mongo_on (update_one_upsert (mo_key_field s, path) (mo_value_field s, BinaryGeneric (contents value))).
Definition mongodb_delete (path : str) : M (MongodbCore D) Error unit :=
  get_collection;; s ← get; mongo_on (delete_one_doc (mo_key_field s, path)).

#[global] Instance mongodb_core : KvCore (MongodbCore D) :=
  {| kv_get := mongodb_get; kv_set := mongodb_set; kv_delete := mongodb_delete |}.
Definition mongodb_Write : Write (KvBackend (MongodbCore D) * KvWriter) := KvWriter_Write.
Definition mongodb_delete_once : str -> str -> OpDelete -> M (KvBackend (MongodbCore D)) Error unit := kv_delete_once.
Definition mongodb_Delete : Types.Delete (KvBackend (MongodbCore D) * KvDeleter) := kv_deleter mongodb_delete_once.

Definition mongodb_new (core : MongodbCore D) : KvBackend (MongodbCore D) :=
  mkKv (kv_info (b "mongodb") (mo_database core ++ b "/" ++ mo_collection core) (kv_capability false false false false true)) core.
Definition mongodb_access (root : str) : Access (KvBackend (MongodbCore D)) Buffer KvWriter unit KvDeleter unit :=
  kv_access "kv not found in mongodb" root.

End Mongodb.

(** *** The core is a map *)

Section MongoMap.
  Context {D : Type} `{MongoLaws D}.
  Implicit Types c : MongodbCore D.

Definition binary (x : Bson) : option bytes := match x with BinaryGeneric bs => Some bs | _ => None end.
Definition mongo_docs c : gmap (list ascii) Document := mg_docs (mo_key_field c) (mo_db c).
Definition mongo_value (field : str) (doc : Document) : option bytes := doc !! field ≫= binary.
Definition mongo_view c : table := omap (mongo_value (mo_value_field c)) (mongo_docs c).
(** The key and the value are different fields. *)
Definition mongo_ok c : Prop := mg_unique (mo_key_field c) (mo_db c) /\ mo_value_field c <> mo_key_field c.
(** The same service over another state of the database. *)
Definition with_db c (d : D) : MongodbCore D :=
  mkMongodb (mo_connection_string c) (mo_database c) (mo_collection c) (mo_collection_instance c) (mo_key_field c) (mo_value_field c) d.

Lemma get_collection_ok c :
  mongo_ok c ->
  let '(r, c') := get_collection c in r <> Panic /\ mongo_view c' = mongo_view c /\ mongo_ok c'.
Proof.
  intros [Hu Hf]. unfold get_collection, mongo_on. run_core. destruct (mo_collection_instance c); [done|].
  pose proof (options_parse_law (mo_connection_string c) (mo_db c)) as H1.
  destruct (mongo_options_parse _ _) as [r d1]. destruct H1 as [Hp H1]. destruct (H1 (mo_key_field c)) as [Hd1 Hu1].
  unfold mongo_view, mongo_docs, mongo_ok. destruct r as [[]|e|]; simpl; [|by rewrite Hd1; auto|done].
  pose proof (with_options_law d1) as H2. destruct (mongo_with_options d1) as [r2 d2]. destruct H2 as [Hp2 H2].
  destruct (H2 (mo_key_field c)) as [Hd2 Hu2]. destruct r2 as [[]|e|]; simpl; [| |done];
    (split_and!; [done | by rewrite Hd2, Hd1 | by auto | done]).
Qed.

Lemma mongo_view_lookup c k : mongo_view c !! k = mongo_docs c !! k ≫= mongo_value (mo_value_field c).
Proof. apply lookup_omap. Qed.

(** The view after a call that changed nothing, or the document of one key. *)
Lemma mongo_view_same c d : mg_docs (mo_key_field c) d = mongo_docs c -> mongo_view (with_db c d) = mongo_view c.
Proof. intros E. unfold mongo_view, mongo_docs in *. simpl. by rewrite E. Qed.
Lemma mongo_view_insert c d k doc v :
  mongo_value (mo_value_field c) doc = Some v ->
  mg_docs (mo_key_field c) d = <[k := doc]> (mongo_docs c) -> mongo_view (with_db c d) = <[k := v]> (mongo_view c).
Proof. intros Hv E. unfold mongo_view, mongo_docs in *. simpl. rewrite E. by apply omap_insert_Some. Qed.
Lemma mongo_view_delete c d k :
  mg_docs (mo_key_field c) d = delete k (mongo_docs c) -> mongo_view (with_db c d) = delete k (mongo_view c).
Proof. intros E. unfold mongo_view, mongo_docs in *. simpl. rewrite E. apply omap_delete. Qed.

(** What a connected service answers. *)
Lemma mongo_find_ok c k :
  mongo_ok c ->
  let '(r, d') := find_one (mo_key_field c, k) (mo_db c) in
  mongo_ok (with_db c d') /\ mongo_view (with_db c d') = mongo_view c /\
  match r with Ok v => v = mongo_docs c !! k | Err _ => True | Panic => False end.
Proof.
  intros [Hu Hf]. pose proof (find_one_law (mo_key_field c) k (mo_db c)) as Hl. destruct (find_one _ _) as [r d'].
  destruct Hl as (Hd & Hu' & Hr). split_and!; [by split; [apply Hu'|] | by apply mongo_view_same | done].
Qed.
Lemma mongo_update_ok c k v :
  mongo_ok c ->
  let '(r, d') := update_one_upsert (mo_key_field c, k) (mo_value_field c, BinaryGeneric v) (mo_db c) in
  mongo_ok (with_db c d') /\
  match r with
  | Ok _ => mongo_view (with_db c d') = <[k := v]> (mongo_view c)
  | Err _ => same_but k (mongo_view c) (mongo_view (with_db c d'))
  | Panic => False
  end.
Proof.
  intros [Hu Hf]. pose proof (update_one_law (mo_key_field c) k (mo_value_field c) (BinaryGeneric v) (mo_db c) Hu Hf) as Hl.
  destruct (update_one_upsert _ _ _) as [r d']. simpl in Hl. destruct Hl as [Hu' Hr].
  set (doc := <[mo_value_field c := _]> _) in *.
  assert (mongo_value (mo_value_field c) doc = Some v) as Hdoc by (unfold mongo_value, doc; by rewrite lookup_insert_eq).
  split; [done|]. destruct r as [[]|e|]; [by apply (mongo_view_insert c d' k doc) | | done].
  apply (same_but_either k _ _ (<[k := v]> (mongo_view c))); [|intros j Hj; by apply lookup_insert_ne].
  destruct Hr as [Hr|Hr]; [left; by apply mongo_view_same | right; by apply (mongo_view_insert c d' k doc)].
Qed.
Lemma mongo_delete_ok c k :
  mongo_ok c ->
  let '(r, d') := delete_one_doc (mo_key_field c, k) (mo_db c) in
  mongo_ok (with_db c d') /\
  match r with
  | Ok _ => mongo_view (with_db c d') = delete k (mongo_view c)
  | Err _ => same_but k (mongo_view c) (mongo_view (with_db c d'))
  | Panic => False
  end.
Proof.
  intros [Hu Hf]. pose proof (delete_one_law (mo_key_field c) k (mo_db c) Hu) as Hl.
  destruct (delete_one_doc _ _) as [r d']. destruct Hl as [Hu' Hr]. split; [done|].
  destruct r as [[]|e|]; [by apply mongo_view_delete | | done].
  apply (same_but_either k _ _ (delete k (mongo_view c))); [|intros j Hj; by apply lookup_delete_ne].
  destruct Hr as [Hr|Hr]; [left; by apply mongo_view_same | right; by apply mongo_view_delete].
Qed.

#[global] Instance mongodb_map : KvExact (MongodbCore D).
Proof using All.
  refine {| ke_view := mongo_view; ke_ok := mongo_ok |}.
  - intros k c Hc. unfold kv_get, mongodb_core, mongodb_get, mongo_on. run_core. pose proof (get_collection_ok c Hc) as Hg.
    destruct (get_collection c) as [[[]|e|] c1]; destruct Hg as (Hp & Hv & Hc1); [|done..]. rewrite <- Hv.
    pose proof (mongo_find_ok c1 k Hc1) as Hl. destruct (find_one _ _) as [r d']. destruct Hl as (Hok & Hview & Hr).
    destruct r as [[doc|]|e|]; simpl; [| |done..].
    + rewrite mongo_view_lookup, <- Hr. unfold get_binary_generic, mongo_value. simpl.
      by destruct (doc !! mo_value_field c1) as [[bs|s|]|].
    + rewrite mongo_view_lookup, <- Hr. done.
  - intros k v c Hc _. unfold kv_set, mongodb_core, mongodb_set, mongo_on. run_core. pose proof (get_collection_ok c Hc) as Hg.
    destruct (get_collection c) as [[[]|e|] c1]; destruct Hg as (Hp & Hv & Hc1); [|by rewrite <- Hv|done]. rewrite <- Hv.
    pose proof (mongo_update_ok c1 k (contents v) Hc1) as Hl. destruct (update_one_upsert _ _ _) as [r d'].
    by destruct r as [[]|e|].
  - intros k c Hc. unfold kv_delete, mongodb_core, mongodb_delete, mongo_on. run_core. pose proof (get_collection_ok c Hc) as Hg.
    destruct (get_collection c) as [[[]|e|] c1]; destruct Hg as (Hp & Hv & Hc1); [|by rewrite <- Hv|done]. rewrite <- Hv.
    pose proof (mongo_delete_ok c1 k Hc1) as Hl. destruct (delete_one_doc _ _) as [r d'].
    by destruct r as [[]|e|].
Defined.

End MongoMap.

(** ** gridfs *)

(** Files of a bucket under ids, each with its name; streams that read and write them. *)
Class GridFsCrate (D Id DS US : Type) : Type := {
  gf_connect : str -> str -> str -> Z -> M D str unit;
  gf_find_one : str -> M D str (option Id);
  open_download_stream : Id -> M D str DS;
  ds_read_to_end : DS -> M D IoError bytes;
  gf_delete : Id -> M D str unit;
  open_upload_stream : str -> M D str US;
  us_write_all : bytes -> US -> M D IoError US;
  us_close : US -> M D IoError unit;
}.
Class GridFsLaws (D Id DS US : Type) `{Countable Id} `{GridFsCrate D Id DS US} : Type := {
  gf_files : D -> gmap Id (str * bytes);
  ds_id : DS -> Id;
  (** The name and what was written. *)
  us_file : US -> str * bytes;
  gf_connect_law s db bucket chunk d :
    let '(r, d') := gf_connect s db bucket chunk d in gf_files d' = gf_files d /\ r <> Panic;
  gf_find_one_law name d :
    let '(r, d') := gf_find_one name d in
    gf_files d' = gf_files d /\
    match r with
    | Ok (Some id) => exists data, gf_files d !! id = Some (name, data)
    | Ok None => forall id data, gf_files d !! id <> Some (name, data)
    | Err _ => True
    | Panic => False
    end;
  open_download_law id d :
    let '(r, d') := open_download_stream id d in
    gf_files d' = gf_files d /\ match r with Ok ds => ds_id ds = id | Err _ => True | Panic => False end;
  read_to_end_law ds d :
    let '(r, d') := ds_read_to_end ds d in
    gf_files d' = gf_files d /\
    match r with Ok data => snd <$> gf_files d !! ds_id ds = Some data | Err _ => True | Panic => False end;
  gf_delete_law id d :
    let '(r, d') := gf_delete id d in
    match r with
    | Ok _ => gf_files d' = delete id (gf_files d)
    | Err _ => gf_files d' = gf_files d \/ gf_files d' = delete id (gf_files d)
    | Panic => False
    end;
  open_upload_law name d :
    let '(r, d') := open_upload_stream name d in
    gf_files d' = gf_files d /\ match r with Ok us => us_file us = (name, []) | Err _ => True | Panic => False end;
  write_all_law bs us d :
    let '(r, d') := us_write_all bs us d in
    gf_files d' = gf_files d /\
    match r with Ok us' => us_file us' = ((us_file us).1, (us_file us).2 ++ bs) | Err _ => True | Panic => False end;
  (** A file is there when its stream is closed; a failed close may have put it there. *)
  us_close_law us d :
    let '(r, d') := us_close us d in
    let there := exists id, gf_files d !! id = None /\ gf_files d' = <[id := us_file us]> (gf_files d) in
    match r with Ok _ => there | Err _ => gf_files d' = gf_files d \/ there | Panic => False end;
}.

Record GridfsCore (D : Type) : Type := mkGridfs {
  gr_connection_string : str; gr_database : str; gr_bucket : str; gr_chunk_size : Z; gr_bucket_instance : bool; gr_db : D;
}.
Arguments mkGridfs {D}.
Arguments gr_connection_string {D}.
Arguments gr_database {D}.
Arguments gr_bucket {D}.
Arguments gr_chunk_size {D}.
Arguments gr_bucket_instance {D}.
Arguments gr_db {D}.

Section Gridfs.
  Context {D Id DS US : Type} `{GridFsCrate D Id DS US}.

Definition bucket_on {E X} (f : E -> Error) (m : M D E X) : M (GridfsCore D) Error X :=
  zoom gr_db (fun d s => mkGridfs (gr_connection_string s) (gr_database s) (gr_bucket s) (gr_chunk_size s) (gr_bucket_instance s) d)
    (err_of f m).
(** [get_or_try_init]. *)
Definition get_bucket : M (GridfsCore D) Error unit :=
  s ← get;
  if gr_bucket_instance s then mret tt
  else
    bucket_on parse_mongodb_error (gf_connect (gr_connection_string s) (gr_database s) (gr_bucket s) (gr_chunk_size s));;
    modify (fun s => mkGridfs (gr_connection_string s) (gr_database s) (gr_bucket s) (gr_chunk_size s) true (gr_db s)).

Definition gridfs_get (path : str) : M (GridfsCore D) Error (option Buffer) :=
  get_bucket;;
  doc ← bucket_on parse_mongodb_error (gf_find_one path);
  match doc with
  | None => mret None
  | Some file_id =>
      stream ← bucket_on parse_mongodb_error (open_download_stream file_id);
      destination ← bucket_on new_std_io_error (ds_read_to_end stream);
      mret (Some (from_bytes destination))
  end.

Definition gridfs_upload (path : str) (bs : bytes) : M (GridfsCore D) Error unit :=
  upload_stream ← bucket_on parse_mongodb_error (open_upload_stream path);
  upload_stream ← bucket_on new_std_io_error (us_write_all bs upload_stream);
  bucket_on new_std_io_error (us_close upload_stream).
(** Deletes the old file and uploads a new one. *)
Definition gridfs_set (path : str) (value : Buffer) : M (GridfsCore D) Error unit :=
  get_bucket;;
  doc ← bucket_on parse_mongodb_error (gf_find_one path);
  match doc with
  | Some file_id => bucket_on parse_mongodb_error (gf_delete file_id)
  | None => mret tt
  end;;
  gridfs_upload path (contents value).

Definition gridfs_delete (path : str) : M (GridfsCore D) Error unit :=
  get_bucket;;
  doc ← bucket_on parse_mongodb_error (gf_find_one path);
  match doc with
  | None => mret tt
  | Some file_id => bucket_on parse_mongodb_error (gf_delete file_id)
  end.

#[global] Instance gridfs_core : KvCore (GridfsCore D) :=
  {| kv_get := gridfs_get; kv_set := gridfs_set; kv_delete := gridfs_delete |}.
Definition gridfs_Write : Write (KvBackend (GridfsCore D) * KvWriter) := KvWriter_Write.
Definition gridfs_delete_once : str -> str -> OpDelete -> M (KvBackend (GridfsCore D)) Error unit := kv_delete_once.
Definition gridfs_Delete : Types.Delete (KvBackend (GridfsCore D) * KvDeleter) := kv_deleter gridfs_delete_once.

Definition gridfs_new (core : GridfsCore D) : KvBackend (GridfsCore D) :=
  mkKv (kv_info (b "gridfs") (gr_database core ++ b "/" ++ gr_bucket core) (kv_capability false false false false true)) core.
Definition gridfs_access (root : str) : Access (KvBackend (GridfsCore D)) Buffer KvWriter unit KvDeleter unit :=
  kv_access "kv not found in gridfs" root.

End Gridfs.

Section GridfsMap.
  Context {D Id DS US : Type} `{GridFsLaws D Id DS US}.
  Implicit Types c : GridfsCore D.
  Implicit Types files : gmap Id (str * bytes).

(** The files by name; a name has one file. *)
Definition files_view files : table := list_to_map (map_to_list files).*2.
Definition files_ok files : Prop :=
  forall i j name x y, files !! i = Some (name, x) -> files !! j = Some (name, y) -> i = j.

Lemma files_view_lookup files name data :
  files_ok files -> files_view files !! name = Some data <-> exists id, files !! id = Some (name, data).
Proof.
  intros Hok. unfold files_view. rewrite <- elem_of_list_to_map.
  - rewrite list_elem_of_fmap. split.
    + intros ([id f] & E & Hf%elem_of_map_to_list). simpl in *. subst f. by exists id.
    + intros (id & Hid). exists (id, (name, data)). by rewrite elem_of_map_to_list.
  - rewrite <- list_fmap_compose. apply NoDup_fmap_2_strong; [|apply NoDup_map_to_list].
    intros [i [n x]] [j [m y]] Hi Hj Heq. simpl in Heq. subst m. apply elem_of_map_to_list in Hi, Hj.
    assert (i = j) as -> by by eapply Hok. rewrite Hi in Hj. by simplify_eq.
Qed.
Lemma files_view_None files name :
  files_ok files -> (forall id data, files !! id <> Some (name, data)) -> files_view files !! name = None.
Proof.
  intros Hok Hno. destruct (files_view files !! name) as [d|] eqn:E; [|done].
  apply files_view_lookup in E as [id Hid]; [|done]. by destruct (Hno id d).
Qed.

Lemma files_delete files id name data :
  files_ok files -> files !! id = Some (name, data) ->
  files_ok (delete id files) /\ files_view (delete id files) = delete name (files_view files) /\
  forall j d, delete id files !! j <> Some (name, d).
Proof.
  intros Hok Hid.
  assert (files_ok (delete id files)) as Hok'.
  { intros i j n x y [_ Hi]%lookup_delete_Some [_ Hj]%lookup_delete_Some. by eapply Hok. }
  assert (forall j d, delete id files !! j <> Some (name, d)) as Hno.
  { intros j d [Hj Hj']%lookup_delete_Some. apply Hj. by eapply Hok. }
  split_and!; [done | | done]. apply map_eq. intros n. apply option_eq. intros d.
  rewrite files_view_lookup, lookup_delete_Some, files_view_lookup by done. split.
  - intros [j Hj]. split; [|by apply lookup_delete_Some in Hj as [_ Hj]; exists j].
    intros <-. by destruct (Hno j d).
  - intros [Hn [j Hj]]. exists j. rewrite lookup_delete_ne; [done|]. intros ->. congruence.
Qed.
Lemma files_insert files id name data :
  files_ok files -> files !! id = None -> (forall j d, files !! j <> Some (name, d)) ->
  files_ok (<[id := (name, data)]> files) /\ files_view (<[id := (name, data)]> files) = <[name := data]> (files_view files).
Proof.
  intros Hok Hid Hno.
  assert (files_ok (<[id := (name, data)]> files)) as Hok'.
  { intros i j n x y Hi Hj. rewrite lookup_insert_Some in Hi, Hj.
    destruct Hi as [[-> Ei]|[Hi Hi']], Hj as [[-> Ej]|[Hj Hj']]; simplify_eq; try done.
    - by destruct (Hno j y).
    - by destruct (Hno i x).
    - by eapply Hok. }
  split; [done|]. apply map_eq. intros n. apply option_eq. intros d.
  rewrite files_view_lookup, lookup_insert_Some, files_view_lookup by done. split.
  - intros [j Hj]. rewrite lookup_insert_Some in Hj. destruct Hj as [[-> E]|[Hj Hj']]; [simplify_eq; by left|].
    right. split; [|by exists j]. intros <-. by destruct (Hno j d).
  - intros [[-> ->]|[Hn [j Hj]]]; [exists id; apply lookup_insert_eq|]. exists j. rewrite lookup_insert_ne; [done|].
    intros ->. congruence.
Qed.

Definition gridfs_view c : table := files_view (gf_files (gr_db c)).
Definition gridfs_ok c : Prop := files_ok (gf_files (gr_db c)).

Lemma get_bucket_ok c :
  let '(r, c') := get_bucket c in gf_files (gr_db c') = gf_files (gr_db c) /\ r <> Panic.
Proof.
  unfold get_bucket, bucket_on. run_core. destruct (gr_bucket_instance c); [done|].
  pose proof (gf_connect_law (gr_connection_string c) (gr_database c) (gr_bucket c) (gr_chunk_size c) (gr_db c)) as Hl.
  destruct (gf_connect _ _ _ _ _) as [[[]|e|] d']; by destruct Hl.
Qed.

(** The upload of a file whose name is free. *)
Lemma upload_ok c name bs :
  gridfs_ok c -> (forall id d, gf_files (gr_db c) !! id <> Some (name, d)) ->
  let '(r, c') := gridfs_upload name bs c in
  gridfs_ok c' /\
  match r with
  | Ok _ => gridfs_view c' = <[name := bs]> (gridfs_view c)
  | Err _ => gridfs_view c' = gridfs_view c \/ gridfs_view c' = <[name := bs]> (gridfs_view c)
  | Panic => False
  end.
Proof.
  intros Hok Hno. unfold gridfs_upload, bucket_on. run_core. unfold gridfs_ok, gridfs_view in *.
  pose proof (open_upload_law name (gr_db c)) as Hopen. destruct (open_upload_stream name (gr_db c)) as [[us|e|] d1];
    simpl; destruct Hopen as [E1 Hus]; [|rewrite E1; by split; [|left]|done].
  pose proof (write_all_law bs us d1) as Hwr. destruct (us_write_all bs us d1) as [[us'|e|] d2];
    simpl; destruct Hwr as [E2 Hus']; [|rewrite E2, E1; by split; [|left]|done].
  rewrite Hus in Hus'. simpl in Hus'. rewrite <- E1, <- E2 in *.
  pose proof (us_close_law us' d2) as Hcl. destruct (us_close us' d2) as [r d3]. simpl in Hcl. rewrite Hus' in Hcl.
  destruct r as [[]|e|]; simpl; [| |done].
  - destruct Hcl as (id & Hid & E3). rewrite E3. by apply files_insert.
  - destruct Hcl as [->|(id & Hid & E3)]; [by split; [|left]|]. rewrite E3.
    destruct (files_insert (gf_files d2) id name bs) as [? ->]; [done..|]. by split; [|right].
Qed.

Lemma gridfs_get_ok k c :
  gridfs_ok c ->
  let '(r, c') := gridfs_get k c in
  gridfs_ok c' /\ gridfs_view c' = gridfs_view c /\
  match r with
  | Ok (Some v) => wf v /\ gridfs_view c !! k = Some (contents v)
  | Ok None => gridfs_view c !! k = None
  | Err _ => True
  | Panic => False
  end.
Proof.
  intros Hc. unfold gridfs_get, bucket_on. run_core. pose proof (get_bucket_ok c) as Hg.
  unfold gridfs_ok, gridfs_view in *.
  destruct (get_bucket c) as [[[]|e|] c1]; destruct Hg as [E1 Hp]; [|by rewrite E1|done]. rewrite <- E1 in *.
  pose proof (gf_find_one_law k (gr_db c1)) as Hf. destruct (gf_find_one k (gr_db c1)) as [[[id|]|e|] d2]; simpl;
    destruct Hf as [E2 Hf]; [| |by rewrite E2|done].
  2: { rewrite E2. split_and!; [done..|]. by apply files_view_None. }
  pose proof (open_download_law id d2) as Ho. destruct (open_download_stream id d2) as [[ds|e|] d3]; simpl;
    destruct Ho as [E3 Ho]; [|by rewrite E3, E2|done].
  pose proof (read_to_end_law ds d3) as Hr. destruct (ds_read_to_end ds d3) as [[v|e|] d4]; simpl;
    destruct Hr as [E4 Hr]; [|by rewrite E4, E3, E2|done].
  rewrite E4, E3, E2. split_and!; [done..|]. destruct Hf as [data Hd]. rewrite E3, E2, Ho, Hd in Hr. simplify_eq/=.
  apply files_view_lookup; [done|]. eauto.
Qed.

Lemma gridfs_set_ok k v c :
  gridfs_ok c ->
  let '(r, c') := gridfs_set k v c in
  gridfs_ok c' /\
  match r with
  | Ok _ => gridfs_view c' = <[k := contents v]> (gridfs_view c)
  | Err _ => same_but k (gridfs_view c) (gridfs_view c')
  | Panic => False
  end.
Proof.
  intros Hc. unfold gridfs_set. unfold mbind at 1, M_bind at 1. pose proof (get_bucket_ok c) as Hg.
  destruct (get_bucket c) as [[[]|e|] c1]; destruct Hg as [E1 Hp]; unfold gridfs_ok, gridfs_view in *; [|by rewrite E1|done].
  rewrite <- E1 in *. unfold mbind at 1, M_bind at 1. unfold bucket_on at 1, zoom at 1, err_of at 1.
  pose proof (gf_find_one_law k (gr_db c1)) as Hf. destruct (gf_find_one k (gr_db c1)) as [[[id|]|e|] d2];
    destruct Hf as [E2 Hf]; simpl; [| |by rewrite E2|done].
  + destruct Hf as [data Hd]. unfold mbind at 1, M_bind at 1. unfold bucket_on at 1, zoom at 1, err_of at 1. simpl.
    pose proof (gf_delete_law id d2) as Hdel. destruct (gf_delete id d2) as [[[]|e|] d3]; [rewrite E2 in Hdel|rewrite E2 in Hdel|done].
    * destruct (files_delete _ id k data Hc Hd) as (Hok3 & Ev3 & Hno3). rewrite <- Hdel in *.
      pose proof (upload_ok (mkGridfs (gr_connection_string c1) (gr_database c1) (gr_bucket c1) (gr_chunk_size c1)
        (gr_bucket_instance c1) d3) k (contents v) Hok3 Hno3) as Hup.
      unfold gridfs_ok, gridfs_view in Hup. simpl in Hup. rewrite Ev3 in Hup.
      destruct (gridfs_upload _ _ _) as [[[]|e|] c4]; destruct Hup as [Hok4 Hv4]; [| |done].
      -- split; [done|]. by rewrite Hv4, insert_delete_eq.
      -- split; [done|]. intros j Hj. destruct Hv4 as [-> | ->]; [by apply lookup_delete_ne|].
         by rewrite lookup_insert_ne, lookup_delete_ne.
    * destruct (files_delete _ id k data Hc Hd) as (Hok3 & Ev3 & _). simpl.
      destruct Hdel as [->| ->]; [by split|]. split; [done|]. rewrite Ev3. intros j Hj. by apply lookup_delete_ne.
  + assert (forall id d, gf_files d2 !! id <> Some (k, d)) as Hno by by rewrite E2. rewrite <- E2 in *.
    pose proof (upload_ok (mkGridfs (gr_connection_string c1) (gr_database c1) (gr_bucket c1) (gr_chunk_size c1)
      (gr_bucket_instance c1) d2) k (contents v) Hc Hno) as Hup.
    unfold gridfs_ok, gridfs_view in Hup. simpl in Hup. unfold mbind at 1, M_bind at 1, mret, M_ret.
    destruct (gridfs_upload _ _ _) as [[[]|e|] c4]; destruct Hup as [Hok4 Hv4]; [done| |done]. split; [done|].
    intros j Hj. destruct Hv4 as [-> | ->]; [done|]. by apply lookup_insert_ne.
Qed.

Lemma gridfs_delete_ok k c :
  gridfs_ok c ->
  let '(r, c') := gridfs_delete k c in
  gridfs_ok c' /\
  match r with
  | Ok _ => gridfs_view c' = delete k (gridfs_view c)
  | Err _ => same_but k (gridfs_view c) (gridfs_view c')
  | Panic => False
  end.
Proof.
  intros Hc. unfold gridfs_delete, bucket_on. run_core. pose proof (get_bucket_ok c) as Hg.
  unfold gridfs_ok, gridfs_view in *.
  destruct (get_bucket c) as [[[]|e|] c1]; destruct Hg as [E1 Hp]; [|by rewrite E1|done]. rewrite <- E1 in *.
  pose proof (gf_find_one_law k (gr_db c1)) as Hf. destruct (gf_find_one k (gr_db c1)) as [[[id|]|e|] d2]; simpl;
    destruct Hf as [E2 Hf]; [| |by rewrite E2|done].
  2: { rewrite E2. split; [done|]. symmetry. by apply delete_id, files_view_None. }
  pose proof (gf_delete_law id d2) as Hdel. destruct Hf as [data Hd].
  destruct (files_delete _ id k data Hc Hd) as (Hok3 & Ev3 & _).
  destruct (gf_delete id d2) as [[[]|e|] d3]; simpl; [rewrite E2 in Hdel; by rewrite Hdel | rewrite E2 in Hdel | done].
  destruct Hdel as [->| ->]; [by split|]. split; [done|]. rewrite Ev3. intros j Hj. by apply lookup_delete_ne.
Qed.

#[global] Instance gridfs_map : KvExact (GridfsCore D).
Proof using All.
  refine {| ke_view := gridfs_view; ke_ok := gridfs_ok |}.
  - intros k c. apply gridfs_get_ok.
  - intros k v c Hc _. by apply gridfs_set_ok.
  - intros k c. apply gridfs_delete_ok.
Defined.

End GridfsMap.
