(* ===== verification/KvFamily.v ===== *)
(** * The key-value services are maps

    The accessors of all services of the family, over databases that keep their
    promises, answer like a map from paths to bytes, and list like one where they
    can list.  Simple databases instantiate the classes. *)

From S2P Require Import Prelude Errors Path Range Buffer Types Access Listers Deleters Readers Memory Text Kv KvServices KvMongo.
From stdpp Require Import options.

(** Every history of the accessor is one of a map. *)
Definition refines_map {C Ls} `{KvMap C} (writer : Write (KvBackend C * KvWriter))
    (deleter : Types.Delete (KvBackend C * KvDeleter)) (missing : string) (root : str)
    (acc : Access (KvBackend C) Buffer KvWriter Ls KvDeleter unit) : Prop :=
  forall cs s, Forall (kv_call_ok root kv_accepts) cs -> core_ok s ->
  let '(h, s') := kv_run (H := writer) (H0 := deleter) acc cs s in
  core_ok s' /\ h.*1 = cs /\ kv_history root (kv_not_found missing) get_failure kv_loses (stored s) h (stored s').

(** A recursive listing has every object below the path once, with its length. *)
Definition lists_map {C} `{KvScanMap C} (root : str)
    (acc : Access (KvBackend C) Buffer KvWriter (HierarchyLister KvLister) KvDeleter unit) : Prop :=
  forall path args fuel s,
  core_ok s -> utf8_keys (stored s) -> list_recursive args = true ->
  map_Forall (fun k _ => object_key root k) (stored s) ->
  let '(r, s') := a_list acc path args s in
  core_ok s' /\ stored s' = stored s /\
  match r with
  | Ok l => exists es, lists (hierarchy_next (S fuel)) l es /\ NoDup (e_path <$> es) /\
      (forall p, p ∈ e_path <$> es <-> is_Some (stored s !! (tail root ++ p)) /\
        starts_with (kv_key root path) (tail root ++ p) = true) /\
      (forall e, e ∈ es -> exists data, stored s !! (tail root ++ e_path e) = Some data /\
        e_meta e = if ends_with [slash] (e_path e) then meta_new DIR
                   else set_content_length (Z.of_nat (length data)) (meta_new FILE))
  | Err _ => True
  | Panic => False
  end.

Section Family.
  Context {SD RD TD FD FT BD BR BW PD PT PP PId MD GD GId GDS GUS : Type}.
  Context `{SledScanLaws SD} `{RocksIterLaws RD} `{TikvLaws TD} `{FdbLaws FD FT} `{RedbLaws BD BR BW}
          `{PersyLaws PD PT PP PId} `{MongoLaws MD} `{GridFsLaws GD GId GDS GUS}.
  Variable show_endpoints : list str -> str.
  Variable root : str.
  Hypothesis root_ok : normalized_root root.
  Hypothesis root_char : starts_char (tail root).

(** C19.  Eight key-value services are maps from paths to bytes: whatever sequence
    of writes, ranged reads, stats and deletes is made, closing a writer stores
    exactly the bytes written under its path and nothing else, a read returns the
    bytes of its range and the length of the object or says that there is none,
    a stat tells the length, and a call that fails touches no other object.  A
    range that the object does not hold makes the service panic. *)
Theorem kv_services_refine_map :
  refines_map sled_Write sled_Delete "kv not found in sled" root (sled_access (D := SD) root) /\
  refines_map rocksdb_Write rocksdb_Delete "kv not found in rocksdb" root (rocksdb_access (D := RD) root) /\
  refines_map (H0 := @exact_map _ _ (tikv_map show_endpoints)) (tikv_Write show_endpoints) (tikv_Delete show_endpoints)
    "kv not found in tikv" [slash] (tikv_access (D := TD) show_endpoints) /\
  refines_map foundationdb_Write foundationdb_Delete "kv not found in foundationdb" root (foundationdb_access (D := FD) root) /\
  refines_map redb_Write redb_Delete "kv not found in redb" root (redb_access (D := BD) root) /\
  refines_map persy_Write persy_Delete "kv not found in persy" [slash] (persy_access (D := PD)) /\
  refines_map mongodb_Write mongodb_Delete "kv not found in mongodb" root (mongodb_access (D := MD) root) /\
  refines_map gridfs_Write gridfs_Delete "kv not found in gridfs" root (gridfs_access (D := GD) root).
Proof using root_ok root_char.
  assert (normalized_root [slash]) as Htop by constructor.
  split_and!; intros cs s; apply kv_like_refines; done.
Qed.

(** Listing on sled and rocksdb: the recursive listing of a path ends and
    has every object below it exactly once, with its mode and length, and nothing
    else, wherever the database's own iterator stops. *)
Theorem kv_services_list_map :
  lists_map root (sled_access (D := SD) root) /\ lists_map root (rocksdb_access (D := RD) root).
Proof using root_ok root_char. split; intros path args fuel s; by apply kv_list_lists. Qed.

End Family.

(** ** Databases that do what they promise *)

#[export] Instance MapDb : ByteDb table :=
  {| db_get k d := (Ok (d !! k), d); db_put k v d := (Ok tt, <[k := v]> d); db_remove k d := (Ok tt, delete k d) |}.
#[export] Instance MapDb_laws : ByteDbLaws table.
Proof. by refine {| db_view (d : table) := d |}. Defined.
#[export] Instance MapDb_scan : SledScan table := fun p d => Ok <$> pairs_with p d.
#[export] Instance MapDb_scan_laws : SledScanLaws table.
Proof.
  intros p d. split.
  - intros kvs E. apply list_fmap_eq_inj in E; [done|]. by intros x y [= ->].
  - by intros (x & ? & _)%list_elem_of_fmap.
Qed.
#[export] Instance MapDb_iter : RocksIter table := fun p d => Ok <$> drop_while (fun kv => negb (str_le p kv.1)) (pairs_of d).
#[export] Instance MapDb_iter_laws : RocksIterLaws table.
Proof.
  intros p d. unfold prefix_iterator, MapDb_iter. simpl. generalize (pairs_of d). intros l.
  exists (drop_while (fun kv => negb (str_le p kv.1)) l). induction l as [|x l IH].
  { exists []. by split_and!; [| | |left]. }
  simpl. destruct (str_le p x.1) eqn:E; simpl.
  - exists []. split_and!; [done | done | by intros ? [= <-] | by left].
  - destruct IH as (rest & Hl & Hrest & Hh & _). exists (x :: rest). simpl. rewrite <- Hl.
    split_and!; [done | by constructor | done | by left].
Qed.
#[export] Instance MapDb_connect : TikvConnect table :=
  {| client_new _ d := (Ok tt, d); client_new_with_config _ _ _ _ d := (Ok tt, d) |}.
#[export] Instance MapDb_tikv : TikvLaws table.
Proof. by split. Qed.

(** A transaction is the function it will apply. *)
#[export] Instance MapFdb : FdbCrate table (table -> table) :=
  {| create_trx _ := Ok (fun m => m); trx_get k t d := (Ok (t d !! k), d);
     trx_set k v t := fun m => <[k := v]> (t m); trx_clear k t := fun m => delete k (t m);
     trx_commit t d := (Ok tt, t d) |}.
#[export] Instance MapFdb_laws : FdbLaws table (table -> table).
Proof. refine {| fdb_view (d : table) := d; trx_effect t m := t m |}; try done. intros d. by eexists. Defined.

(** A database whose reads fail. *)
Definition BrokenFdb : FdbCrate table (table -> table) :=
  {| create_trx _ := Ok (fun m => m); trx_get _ _ d := (Err (b "timeout"), d);
     trx_set k v t := fun m => <[k := v]> (t m); trx_clear k t := fun m => delete k (t m);
     trx_commit t d := (Ok tt, t d) |}.

#[export] Instance MapRedb : RedbCrate tables tables tables :=
  {| begin_read d := Ok d;
     rt_open_table n t := match t !! n with Some _ => Ok tt | None => Err (TableDoesNotExist n) end;
     rt_get n k t := Ok (t !! n ≫= (.!! k));
     begin_write d := Ok d;
     wt_open_table n t := (Ok tt, <[n := default ∅ (t !! n)]> t);
     wt_insert n k v t := (Ok tt, <[n := <[k := v]> (default ∅ (t !! n))]> t);
     wt_remove n k t := (Ok tt, <[n := delete k (default ∅ (t !! n))]> t);
     wt_commit t d := (Ok tt, t) |}.
#[export] Instance MapRedb_laws : RedbLaws tables tables tables.
Proof.
  refine {| rd_tables (d : tables) := d; rt_tables (d : tables) := d; wt_tables (d : tables) := d |}; try done.
  - intros n t. unfold rt_open_table, MapRedb. by destruct (t !! n).
  - intros n k v t m Hm. simpl. by rewrite Hm.
  - intros n k t m Hm. simpl. by rewrite Hm.
Defined.

#[export] Instance MapPersy : PersyCrate (PersyView nat) (PersyView nat) (PersyView nat) nat :=
  {| persy_index_get idx k d := Ok (option_list (pv_index idx d !! k));
     persy_read seg id d := Ok (pv_records seg d !! id);
     persy_begin d := Ok d;
     tx_insert seg v t := let id := fresh (dom (pv_records seg t)) in (Ok id, set_records seg <[id := v]> t);
     tx_put idx k id t := (Ok tt, set_index idx <[k := id]> t);
     tx_delete seg id t := (Ok tt, set_records seg (delete id) t);
     tx_remove idx k _ t := (Ok tt, set_index idx (delete k) t);
     tx_prepare t := Ok t;
     prepared_commit p _ := (Ok tt, p) |}.
#[export] Instance MapPersy_laws : PersyLaws (PersyView nat) (PersyView nat) (PersyView nat) nat.
Proof.
  refine {| pd_view (d : PersyView nat) := d; tx_view (d : PersyView nat) := d; pp_view (d : PersyView nat) := d |}; try done.
  intros seg v t. simpl. split; [|done]. apply not_elem_of_dom, is_fresh.
Defined.

(** A collection with an index on one field; other filters are refused. *)
Definition MapMongo : Type := str * gmap (list ascii) Document.
#[export] Instance MapMongo_crate : MongoCrate MapMongo :=
  {| mongo_options_parse _ d := (Ok tt, d); mongo_with_options d := (Ok tt, d);
     find_one q d := if bool_decide (q.1 = d.1) then (Ok (d.2 !! q.2), d) else (Err (b "no index"), d);
     update_one_upsert q u d :=
       if bool_decide (q.1 = d.1)
       then (Ok tt, (d.1, <[q.2 := <[u.1 := u.2]> (default {[q.1 := BsonString q.2]} (d.2 !! q.2))]> d.2))
       else (Err (b "no index"), d);
     delete_one_doc q d := if bool_decide (q.1 = d.1) then (Ok tt, (d.1, delete q.2 d.2)) else (Err (b "no index"), d) |}.
#[export] Instance MapMongo_laws : MongoLaws MapMongo.
Proof.
  refine {| mg_docs f d := if bool_decide (f = d.1) then d.2 else ∅; mg_unique _ _ := True |}; try done.
  - intros f k [f0 d]. simpl. destruct (decide (f = f0)) as [->|Hne];
      [by rewrite !bool_decide_eq_true_2 by done | by rewrite !bool_decide_eq_false_2 by done].
  - intros f k g x [f0 d] _ _. simpl. destruct (decide (f = f0)) as [->|Hne];
      [by rewrite !bool_decide_eq_true_2 by done | rewrite !bool_decide_eq_false_2 by done; simpl].
    split; [done|]. by left.
  - intros f k [f0 d] _. simpl. destruct (decide (f = f0)) as [->|Hne];
      [by rewrite !bool_decide_eq_true_2 by done | rewrite !bool_decide_eq_false_2 by done; simpl].
    split; [done|]. by left.
Defined.

(** A bucket that may be full. *)
Definition MapGrid : Type := bool * gmap nat (str * bytes).
Definition named (name : str) (d : MapGrid) : option nat :=
  fst <$> head (filter (fun f => f.2.1 = name) (map_to_list d.2)).
#[export] Instance MapGrid_crate : GridFsCrate MapGrid nat nat (str * bytes) :=
  {| gf_connect _ _ _ _ d := (Ok tt, d);
     gf_find_one name d := (Ok (named name d), d);
     open_download_stream id d := (Ok id, d);
     ds_read_to_end id d :=
       (match d.2 !! id with Some f => Ok f.2 | None => Err (mkIoError IoNotFound (inr [])) end, d);
     gf_delete id d := (Ok tt, (d.1, delete id d.2));
     open_upload_stream name d := (if d.1 then Err (b "full") else Ok (name, []), d);
     us_write_all bs us d := (Ok (us.1, us.2 ++ bs), d);
     us_close us d := (Ok tt, (d.1, <[fresh (dom d.2) := us]> d.2)) |}.
#[export] Instance MapGrid_laws : GridFsLaws MapGrid nat nat (str * bytes).
Proof.
  refine {| gf_files (d : MapGrid) := d.2; ds_id id := id; us_file us := us |}; try done.
  - intros name [full d]. simpl. split; [done|]. unfold named. simpl.
    destruct (filter _ (map_to_list d)) as [|[id f] l] eqn:E; simpl.
    + intros id data Hid. assert ((id, (name, data)) ∈ filter (fun f => f.2.1 = name) (map_to_list d)) as Hin.
      { rewrite list_elem_of_filter, elem_of_map_to_list. done. }
      rewrite E in Hin. by apply not_elem_of_nil in Hin.
    + assert ((id, f) ∈ filter (fun f => f.2.1 = name) (map_to_list d)) as Hin by (rewrite E; constructor).
      rewrite list_elem_of_filter, elem_of_map_to_list in Hin. destruct Hin as [Hn Hid]. simpl in Hn. subst name.
      exists f.2. rewrite Hid. by destruct f.
  - intros ds [full d]. simpl. split; [done|]. by destruct (d !! ds).
  - intros name [[] d]; done.
  - intros us [full d]. simpl. exists (fresh (dom d)). split; [|done]. apply not_elem_of_dom, is_fresh.
Defined.

(** ** Witnesses *)

Definition sled_sample : KvBackend (SledCore table) :=
  sled_new (mkSled (b "/tmp") {[ b "d/a" := [x01]; b "d/b" := [x02; x03] ]}).

Lemma kv_services_refine_map_witness :
  (kv_run (sled_access (D := table) (b "/d/")) [KRead (b "b") (read_with_range (mkRange 1 (Some 1%Z)) op_read); KRead (b "c") op_read] sled_sample).1
    = [(KRead (b "b") (read_with_range (mkRange 1 (Some 1%Z)) op_read),
        ARead (Ok (Some (set_content_length 2 (meta_new FILE)), Contiguous [x03])));
       (KRead (b "c") op_read, ARead (Err (error NotFound "kv not found in sled")))] /\
  refines_map sled_Write sled_Delete "kv not found in sled" (b "/d/") (sled_access (D := table) (b "/d/")).
Proof.
  split; [vm_compute; reflexivity|].
  refine (proj1 (kv_services_refine_map (SD := table) (RD := table) (TD := table) (FD := table) (BD := tables)
    (PD := PersyView nat) (MD := MapMongo) (GD := MapGrid) (fun _ => []) (b "/d/") _ _)).
  - apply (root_dir [b "d"]); [done|]. repeat constructor; [done|]. apply (bool_decide_unpack _). vm_compute. exact I.
  - reflexivity.
Defined.

Lemma kv_services_list_map_witness :
  lists_map (b "/d/") (sled_access (D := table) (b "/d/")) /\ lists_map (b "/d/") (rocksdb_access (D := table) (b "/d/")).
Proof.
  refine (kv_services_list_map (SD := table) (RD := table) (b "/d/") _ _).
  - apply (root_dir [b "d"]); [done|]. repeat constructor; [done|]. apply (bool_decide_unpack _). vm_compute. exact I.
  - reflexivity.
Defined.

(** ** What goes wrong *)

(** The services slice the value with the range as it is: reading past the end of
    an object panics, where the memory service returns what there is. *)
Theorem kv_read_past_end_panics :
  (a_read (sled_access (D := table) (b "/d/")) (b "b") (read_with_range (mkRange 0 (Some 5%Z)) op_read) sled_sample).1 = Panic.
Proof. vm_compute. reflexivity. Qed.

(** A read that the database fails is reported as an object that is not there. *)
Theorem foundationdb_failure_not_found :
  (a_read (foundationdb_access (H := BrokenFdb) [slash]) (b "a") op_read (foundationdb_new (mkFdb {[ b "a" := [x01] ]}))).1
    = Err fdb_not_found.
Proof. vm_compute. reflexivity. Qed.

(** Overwriting a file deletes the old one first: when the upload fails, the
    object is gone. *)
Theorem gridfs_failed_write_loses :
  let s := gridfs_new (mkGridfs [] (b "db") (b "fs") 255%Z true (true, {[ 0 := (b "a", [x01]) ]})) in
  let '(r, s') := put_session (gridfs_access (D := MapGrid) [slash]) (b "a") [Contiguous [x02]] s in
  r = Err (parse_mongodb_error (b "full")) /\ stored s !! b "a" = Some [x01] /\ stored s' !! b "a" = None.
Proof. vm_compute. done. Qed.
