(* ===== verification/Memcached.v ===== *)
(** * The memcached service ([services/memcached/src/*.rs])

    A client of the binary protocol: headers and bodies on a socket, the five
    requests, and the service over a pool of connections.  The socket with the
    server behind it is a class; its laws are the protocol: a complete request is
    answered with one response packet, items may vanish at any time. *)

From S2P Require Import Prelude Errors Path Range Buffer Types Access Listers Deleters Readers Memory Text Uris Kv KvServices KvMongo KvFamily.
From stdpp Require Import options.

(** ** Numbers on the wire: big endian *)

Definition be_bytes (n : nat) (v : Z) : bytes := rev ((fun i => byte_of (v / 256 ^ Z.of_nat i)) <$> seq 0 n).
Definition from_be_bytes (bs : bytes) : Z := foldl (fun n x => 256 * n + Z.of_N (Byte.to_N x))%Z 0%Z bs.
(** [as u8], [as u16] and [as u32]. *)
Definition wrap_to (bits : Z) (v : Z) : Z := (v mod 2 ^ bits)%Z.

(** ** The socket *)

(** A world of connections: [write_all], [flush] and [read_exact]. *)
Class Socket (W H : Type) : Type := {
  sk_write_all : H -> bytes -> M W IoError unit;
  sk_flush : H -> M W IoError unit;
  sk_read_exact : H -> nat -> M W IoError bytes;
}.

Definition OK_STATUS : Z := 0.
Definition KEY_NOT_FOUND : Z := 1.

Inductive Opcode : Type := OpGet | OpSet | OpDelete_ | OpVersion | OpStartAuth.
Definition opcode_value (o : Opcode) : Z :=
  match o with OpGet => 0 | OpSet => 1 | OpDelete_ => 4 | OpVersion => 11 | OpStartAuth => 33 end.
Definition Magic_Request : Z := 128.

Record StoreExtras : Type := mkExtras { se_flags : Z; se_expiration : Z }.

Record PacketHeader : Type := mkPacket {
  ph_magic : Z; ph_opcode : Z; ph_key_length : Z; ph_extras_length : Z; ph_data_type : Z;
  ph_vbucket_id_or_status : Z; ph_total_body_length : Z; ph_opaque : Z; ph_cas : Z;
}.
(** A request's header; the other fields are the defaults. *)
Definition request_header (o : Opcode) (key_length extras_length total_body_length : Z) : PacketHeader :=
  mkPacket Magic_Request (opcode_value o) key_length extras_length 0 0 total_body_length 0 0.

Record McResponse : Type := mkMcResponse { mr_header : PacketHeader; mr_key : bytes; mr_extras : bytes; mr_value : bytes }.

Section Connection.
  Context {W H : Type} `{Socket W H}.
  Variable io : H.

Definition write_uint (n : nat) (v : Z) : M W IoError unit := sk_write_all io (be_bytes n v).
Definition read_uint (n : nat) : M W IoError Z := bs ← sk_read_exact io n; mret (from_be_bytes bs).

Definition packet_write (h : PacketHeader) : M W IoError unit :=
  write_uint 1 (ph_magic h);;
  write_uint 1 (ph_opcode h);;
  write_uint 2 (ph_key_length h);;
  write_uint 1 (ph_extras_length h);;
  write_uint 1 (ph_data_type h);;
  write_uint 2 (ph_vbucket_id_or_status h);;
  write_uint 4 (ph_total_body_length h);;
  write_uint 4 (ph_opaque h);;
  write_uint 8 (ph_cas h).

Definition packet_read : M W IoError PacketHeader :=
  magic ← read_uint 1;
  opcode ← read_uint 1;
  key_length ← read_uint 2;
  extras_length ← read_uint 1;
  data_type ← read_uint 1;
  status ← read_uint 2;
  total ← read_uint 4;
  opaque ← read_uint 4;
  cas ← read_uint 8;
  mret (mkPacket magic opcode key_length extras_length data_type status total opaque cas).

(** [.map_err(new_std_io_error)]. *)
Definition io_err {X} (m : M W IoError X) : M W Error X := err_of new_std_io_error m.

Definition unexpected_status (status : Z) : Error :=
  with_context (b "message") (show_u64 status) (error Unexpected "unexpected status received").

(** The length of the value is a [u32] difference, which wraps around. *)
Definition parse_response : M W Error McResponse :=
  header ← io_err packet_read;
  if negb (bool_decide (ph_vbucket_id_or_status header = OK_STATUS)) &&
     negb (bool_decide (ph_vbucket_id_or_status header = KEY_NOT_FOUND))
  then throw (unexpected_status (ph_vbucket_id_or_status header))
  else
    extras ← io_err (sk_read_exact io (Z.to_nat (ph_extras_length header)));
    key ← io_err (sk_read_exact io (Z.to_nat (ph_key_length header)));
    value ← io_err (sk_read_exact io
      (Z.to_nat (wrap_to 32 (ph_total_body_length header - ph_key_length header - ph_extras_length header))));
    mret (mkMcResponse header key extras value).

Definition len16 (s : str) : Z := wrap_to 16 (Z.of_nat (length s)).

Definition conn_auth (username password : str) : M W Error unit :=
  let key := b "PLAIN" in
  io_err (packet_write (request_header OpStartAuth (len16 key) 0
    (wrap_to 32 (Z.of_nat (length key + length username + length password + 2)))));;
  io_err (sk_write_all io (as_bytes key));;
  io_err (sk_write_all io (as_bytes (["000"%char] ++ username ++ ["000"%char] ++ password)));;
  io_err (sk_flush io);;
  parse_response;;
  mret tt.

Definition conn_version : M W Error str :=
  io_err (packet_write (request_header OpVersion 0 0 0));;
  io_err (sk_flush io);;
  response ← parse_response;
  match from_utf8 (mr_value response) with
  | Some version => mret version
  | None => throw (set_source (b "invalid utf-8 sequence") (error Unexpected "unexpected data received"))
  end.

Definition conn_get (key : str) : M W Error (option bytes) :=
  io_err (packet_write (request_header OpGet (len16 key) 0 (wrap_to 32 (Z.of_nat (length key)))));;
  io_err (sk_write_all io (as_bytes key));;
  io_err (sk_flush io);;
  response ← parse_response;
  if bool_decide (ph_vbucket_id_or_status (mr_header response) = 1)%Z then mret None
  else mret (Some (mr_value response)).

Definition conn_set (key : str) (val : bytes) (expiration : Z) : M W Error unit :=
  let extras := mkExtras 0 expiration in
  io_err (packet_write (request_header OpSet (len16 key) 8 (wrap_to 32 (Z.of_nat (8 + length key + length val)))));;
  io_err (write_uint 4 (se_flags extras));;
  io_err (write_uint 4 (se_expiration extras));;
  io_err (sk_write_all io (as_bytes key));;
  io_err (sk_write_all io val);;
  io_err (sk_flush io);;
  parse_response;;
  mret tt.

Definition conn_delete (key : str) : M W Error unit :=
  io_err (packet_write (request_header OpDelete_ (len16 key) 0 (wrap_to 32 (Z.of_nat (length key)))));;
  io_err (sk_write_all io (as_bytes key));;
  io_err (sk_flush io);;
  parse_response;;
  mret tt.

End Connection.

(** ** The pool of connections *)

Inductive Endpoint : Type := EpTcp (addr : str) | EpUnix (path : str).
Record MemcacheConnectionManager : Type := mkManager {
  mm_endpoint : Endpoint; mm_username : option str; mm_password : option str;
}.

(** [connect_tcp] and [connect_unix], and [fastpool]: [None] is the timer of ten
    seconds that fires first. *)
Class ConnPool (W H : Type) : Type := {
  connect_tcp : str -> M W IoError H;
  connect_unix : str -> M W IoError H;
  pool_manager : MemcacheConnectionManager;
  pool_get : M W Error (option H);
  (** The end of the scope of a connection. *)
  pool_put_back : H -> W -> W;
}.

Section Core.
  Context {W H : Type} `{Socket W H} `{ConnPool W H} `{PercentEncoding}.

(** [ManageObject]: what the pool does to make and to check a connection. *)
Definition manager_create (mm : MemcacheConnectionManager) : M W Error H :=
  conn ← io_err (match mm_endpoint mm with EpTcp addr => connect_tcp addr | EpUnix path => connect_unix path end);
  match mm_username mm, mm_password mm with
  | Some username, Some password => conn_auth conn username password
  | _, _ => mret tt
  end;;
  mret conn.
Definition manager_is_recyclable (o : H) : M W Error unit := conn_version o;; mret tt.

Record MemcachedCore : Type := mkMemcached { mc_default_ttl : option Z; mc_world : W }.
Definition on_world {X} (m : M W Error X) : M MemcachedCore Error X :=
  zoom mc_world (fun w c => mkMemcached (mc_default_ttl c) w) m.

Definition mc_conn : M W Error H :=
  fut ← pool_get;
  match fut with
  | None => throw (set_temporary (error Unexpected "connection request: timeout"))
  | Some conn => mret conn
  end.
(** The connection goes back whatever the call answers. *)
Definition with_conn {X} (call : H -> M W Error X) : M W Error X :=
  conn ← mc_conn;
  fun w => let '(r, w) := call conn w in (r, pool_put_back conn w).

Definition memcached_get (key : str) : M MemcachedCore Error (option Buffer) :=
  result ← on_world (with_conn (fun conn => conn_get conn (percent_encode_path key)));
  mret (buffer_of result).
(** The ttl in seconds is cut to 32 bits; 0 is no expiration. *)
Definition memcached_set (key : str) (value : Buffer) : M MemcachedCore Error unit :=
  c ← get;
  on_world (with_conn (fun conn => conn_set conn (percent_encode_path key) (contents value)
    (default 0%Z (wrap_to 32 <$> mc_default_ttl c)))).
Definition memcached_delete (key : str) : M MemcachedCore Error unit :=
  on_world (with_conn (fun conn => conn_delete conn (percent_encode_path key))).

#[global] Instance memcached_core : KvCore MemcachedCore :=
  {| kv_get := memcached_get; kv_set := memcached_set; kv_delete := memcached_delete |}.
Definition memcached_Write : Write (KvBackend MemcachedCore * KvWriter) := KvWriter_Write.
Definition memcached_delete_once : str -> str -> OpDelete -> M (KvBackend MemcachedCore) Error unit := kv_delete_once.
Definition memcached_Delete : Types.Delete (KvBackend MemcachedCore * KvDeleter) := kv_deleter memcached_delete_once.

Definition memcached_new (core : MemcachedCore) : KvBackend MemcachedCore :=
  mkKv (kv_info (b "memcached") (b "memcached") (kv_capability false false false false true)) core.
Definition memcached_access (root : str) : Access (KvBackend MemcachedCore) Buffer KvWriter unit KvDeleter unit :=
  kv_access "kv not found in memcached" root.

End Core.
Arguments MemcachedCore : clear implicits.
Arguments mkMemcached {W}.
Arguments mc_default_ttl {W}.
Arguments mc_world {W}.

(** ** The protocol *)

(** A packet on the wire: the header, the extras, the key and the value. *)
Definition header_bytes (h : PacketHeader) : bytes :=
  be_bytes 1 (ph_magic h) ++ be_bytes 1 (ph_opcode h) ++ be_bytes 2 (ph_key_length h) ++
  be_bytes 1 (ph_extras_length h) ++ be_bytes 1 (ph_data_type h) ++ be_bytes 2 (ph_vbucket_id_or_status h) ++
  be_bytes 4 (ph_total_body_length h) ++ be_bytes 4 (ph_opaque h) ++ be_bytes 8 (ph_cas h).
Definition body_bytes (p : McResponse) : bytes := mr_extras p ++ mr_key p ++ mr_value p.
Definition packet_bytes (p : McResponse) : bytes := header_bytes (mr_header p) ++ body_bytes p.

Definition is_uint (n : nat) (v : Z) : Prop := (0 <= v < 256 ^ Z.of_nat n)%Z.
Definition header_ok (h : PacketHeader) : Prop :=
  is_uint 1 (ph_magic h) /\ is_uint 1 (ph_opcode h) /\ is_uint 2 (ph_key_length h) /\ is_uint 1 (ph_extras_length h) /\
  is_uint 1 (ph_data_type h) /\ is_uint 2 (ph_vbucket_id_or_status h) /\ is_uint 4 (ph_total_body_length h) /\
  is_uint 4 (ph_opaque h) /\ is_uint 8 (ph_cas h).
Definition packet_ok (p : McResponse) : Prop :=
  header_ok (mr_header p) /\ ph_extras_length (mr_header p) = Z.of_nat (length (mr_extras p)) /\
  ph_key_length (mr_header p) = Z.of_nat (length (mr_key p)) /\
  ph_total_body_length (mr_header p) = Z.of_nat (length (body_bytes p)).

Inductive mc_request : Type :=
  | RqGet (key : str)
  | RqSet (key : str) (val : bytes) (expiration : Z)
  | RqDelete (key : str)
  | RqVersion
  | RqAuth (username password : str).

Definition request_of (o : Opcode) (key : str) (extras val : bytes) : McResponse :=
  mkMcResponse (request_header o (Z.of_nat (length key)) (Z.of_nat (length extras))
    (Z.of_nat (length extras + length key + length val))) (as_bytes key) extras val.
Definition request_packet (r : mc_request) : McResponse :=
  match r with
  | RqGet key => request_of OpGet key [] []
  | RqSet key val e => request_of OpSet key (be_bytes 4 0 ++ be_bytes 4 e) val
  | RqDelete key => request_of OpDelete_ key [] []
  | RqVersion => request_of OpVersion [] [] []
  | RqAuth u p => request_of OpStartAuth (b "PLAIN") [] (as_bytes (["000"%char] ++ u ++ ["000"%char] ++ p))
  end.
Definition request_bytes (r : mc_request) : bytes := packet_bytes (request_packet r).

Definition status_of (p : McResponse) : Z := ph_vbucket_id_or_status (mr_header p).
(** The text of a refusal: ``Out of memory'', ``Too large.'', ``Invalid arguments''
    and the like, or nothing. *)
Definition printable (x : Byte.byte) : Prop := (32 <= Byte.to_N x)%N.
Definition refusal (t : bytes) : Prop := t = [] \/ 8 <= length t /\ Forall printable t.

(** What the server does to its items and answers. *)
Inductive mc_answers (m : table) : mc_request -> McResponse -> table -> Prop :=
  | ans_hit k v p : m !! k = Some v -> status_of p = 0%Z -> mr_value p = v -> mc_answers m (RqGet k) p m
  | ans_miss k p : m !! k = None -> status_of p = 1%Z -> mc_answers m (RqGet k) p m
  | ans_stored k v e p : status_of p = 0%Z -> mc_answers m (RqSet k v e) p (<[k := v]> m)
  | ans_deleted k p : status_of p = 0%Z -> mc_answers m (RqDelete k) p (delete k m)
  | ans_nothing k p : m !! k = None -> status_of p = 1%Z -> mc_answers m (RqDelete k) p m
  | ans_version p : status_of p = 0%Z -> mc_answers m RqVersion p m
  | ans_auth u w p : status_of p = 0%Z -> mc_answers m (RqAuth u w) p m
  | ans_refused r p m' :
      status_of p <> 0%Z -> status_of p <> 1%Z -> refusal (body_bytes p) ->
      match r with RqSet k _ _ => same_but k m m' | _ => m' = m end -> mc_answers m r p m'.

(** A socket to a server: the server's items, and of a connection that is not
    broken what it was sent since its last answer and what it has not yet read.
    Items may vanish at any time.  A call that fails breaks its connection.  A
    request is carried out when it has been sent whole, of which the client learns
    by its answer. *)
Class SocketLaws (W H : Type) `{EqDecision H} `{Socket W H} : Type := {
  sv_table : W -> table;
  sv_conn : W -> H -> option (bytes * bytes);
  write_all_law h bs w :
    let '(r, w') := sk_write_all h bs w in
    (forall j, j <> h -> sv_conn w' j = sv_conn w j) /\ sv_table w' ⊆ sv_table w /\
    match r with
    | Ok _ => exists s i, sv_conn w h = Some (s, i) /\ sv_conn w' h = Some (s ++ bs, i)
    | Err _ => sv_conn w' h = None
    | Panic => False
    end;
  read_exact_law h n w :
    let '(r, w') := sk_read_exact h n w in
    (forall j, j <> h -> sv_conn w' j = sv_conn w j) /\ sv_table w' ⊆ sv_table w /\
    match r with
    | Ok bs => length bs = n /\ exists s i, sv_conn w h = Some (s, bs ++ i) /\ sv_conn w' h = Some (s, i)
    | Err _ => sv_conn w' h = None
    | Panic => False
    end;
  flush_law h q i w :
    packet_ok (request_packet q) -> sv_conn w h = Some (request_bytes q, i) ->
    let '(r, w') := sk_flush h w in
    (forall j, j <> h -> sv_conn w' j = sv_conn w j) /\
    exists m m', m ⊆ sv_table w /\ sv_table w' ⊆ m' /\
    match r with
    | Ok _ => exists p, mc_answers m q p m' /\ packet_ok p /\ sv_conn w' h = Some ([], i ++ packet_bytes p)
    | Err _ => (m' = m \/ exists p, mc_answers m q p m') /\ sv_conn w' h = None
    | Panic => False
    end;
}.

Lemma be_bytes_length n v : length (be_bytes n v) = n.
Proof. unfold be_bytes. by rewrite length_rev, length_fmap, length_seq. Qed.
Lemma from_be_le bs : from_be_bytes bs = from_le_bytes (rev bs).
Proof.
  unfold from_be_bytes, from_le_bytes. rewrite fold_left_rev_right. unfold foldl. generalize 0%Z.
  induction bs as [|x bs IH]; intros n; simpl; [done|]. by rewrite (Z.add_comm (256 * n)), IH.
Qed.
Lemma from_be_be n v : is_uint n v -> from_be_bytes (be_bytes n v) = v.
Proof.
  unfold is_uint. intros Hv. rewrite from_be_le. unfold be_bytes. rewrite rev_involutive, from_le_bytes_le by lia.
  simpl. rewrite Z.div_1_r. apply Z.mod_small. lia.
Qed.

Section Settled.
  Context {W H : Type} `{SocketLaws W H}.

(** Between calls a connection is idle, broken, or holds an unread refusal. *)
Definition idle (w : W) (h : H) : Prop := sv_conn w h = Some ([], []).
Definition settled (w : W) (h : H) : Prop := sv_conn w h = None \/ exists t, sv_conn w h = Some ([], t) /\ refusal t.
(** What goes on without a call of ours. *)
Definition calm (w w' : W) : Prop := sv_table w' ⊆ sv_table w /\ (forall h, settled w h -> settled w' h).
End Settled.

(** The pool hands out a connection it has just made, or one it has just checked. *)
Class PoolLaws (W H : Type) `{SocketLaws W H} `{ConnPool W H} : Prop := {
  connect_tcp_law addr w :
    let '(r, w') := connect_tcp addr w in
    calm w w' /\ match r with Ok h => idle w' h | Err _ => True | Panic => False end;
  connect_unix_law path w :
    let '(r, w') := connect_unix path w in
    calm w w' /\ match r with Ok h => idle w' h | Err _ => True | Panic => False end;
  pool_get_law w :
    (forall h, settled w h) ->
    let '(r, w') := pool_get w in
    match r with
    | Ok (Some h) => exists w0, calm w w0 /\
        (manager_create pool_manager w0 = (Ok h, w') \/ manager_is_recyclable h w0 = (Ok tt, w'))
    | Ok None | Err _ => calm w w'
    | Panic => False
    end;
  pool_put_back_law h w : calm w (pool_put_back h w);
  (** Credentials whose lengths the header has room for. *)
  credentials_fit u p :
    mm_username pool_manager = Some u -> mm_password pool_manager = Some p -> (Z.of_nat (length u + length p) < 2 ^ 31)%Z;
}.

(** ** Reading a packet *)

Section Reads.
  Context {W H : Type} `{SocketLaws W H}.
  Variable h : H.

(** A call that reads: it takes bytes off what the connection has not yet read, and
    fails with the connection broken or as [F] says. *)
Definition reads {E X} (m : M W E X) (P : bytes -> X -> bytes -> Prop) (F : bytes -> bytes -> Prop) : Prop :=
  forall w s i, sv_conn w h = Some (s, i) ->
  let '(r, w') := m w in
  (forall j, j <> h -> sv_conn w' j = sv_conn w j) /\ sv_table w' ⊆ sv_table w /\
  match r with
  | Ok x => exists i', sv_conn w' h = Some (s, i') /\ P i x i'
  | Err _ => sv_conn w' h = None \/ exists i', sv_conn w' h = Some (s, i') /\ F i i'
  | Panic => False
  end.

Lemma reads_bind {E X Y} (m : M W E X) (f : X -> M W E Y) P F Q G :
  reads m P F -> (forall x, reads (f x) (Q x) (G x)) ->
  reads (m ≫= f) (fun i y i2 => exists x i1, P i x i1 /\ Q x i1 y i2) (fun i i2 => F i i2 \/ exists x i1, P i x i1 /\ G x i1 i2).
Proof.
  intros Hm Hf w s i Hc. specialize (Hm w s i Hc). unfold mbind, M_bind. destruct (m w) as [[x|e|] w1]; destruct Hm as (Ha & Ht & Hr).
  - destruct Hr as (i1 & Hc1 & HP). specialize (Hf x w1 s i1 Hc1). destruct (f x w1) as [r w2].
    destruct Hf as (Ha2 & Ht2 & Hr2). split; [intros j Hj; by rewrite Ha2, Ha|]. split; [by etrans|]. destruct r as [y|e|]; [| |done].
    + destruct Hr2 as (i2 & Hc2 & HQ). eauto 8.
    + destruct Hr2 as [?|(i2 & Hc2 & HG)]; [by left|]. right. eauto 10.
  - split_and!; [done | done |]. destruct Hr as [?|(i1 & Hc1 & HF)]; [by left|]. right. eauto.
  - done.
Qed.

Lemma reads_mono {E X} (m : M W E X) P F (Q : bytes -> X -> bytes -> Prop) (G : bytes -> bytes -> Prop) :
  reads m P F -> (forall i x i', P i x i' -> Q i x i') -> (forall i i', F i i' -> G i i') -> reads m Q G.
Proof.
  intros Hm HPQ HFG w s i Hc. specialize (Hm w s i Hc). destruct (m w) as [[x|e|] w']; destruct Hm as (Ha & Ht & Hr); split_and!; try done.
  - destruct Hr as (i' & ? & ?). eauto.
  - destruct Hr as [?|(i' & ? & ?)]; [by left|]. right. eauto.
Qed.

Lemma reads_ret {E X} (x : X) : reads (E := E) (mret x) (fun i y i' => y = x /\ i' = i) (fun _ _ => False).
Proof. intros w s i Hc. unfold mret, M_ret. split_and!; [done | done |]. eauto. Qed.
Lemma reads_throw {E X} (e : E) : reads (X := X) (throw e) (fun _ _ _ => False) (fun i i' => i' = i).
Proof. intros w s i Hc. unfold throw. split_and!; [done | done |]. eauto. Qed.

Definition takes (n : nat) (i x i' : bytes) : Prop := length x = n /\ i = x ++ i'.
Lemma reads_exact n : reads (sk_read_exact h n) (takes n) (fun _ _ => False).
Proof.
  intros w s i Hc. pose proof (read_exact_law h n w) as Hl. destruct (sk_read_exact h n w) as [[x|e|] w']; destruct Hl as (Ha & Ht & Hr); split_and!; try done; [|by left].
  destruct Hr as (Hx & s0 & i0 & Hc0 & Hc1). rewrite Hc in Hc0. injection Hc0 as <- ->. exists i0. done.
Qed.
Lemma reads_err {X} (m : M W IoError X) P F : reads m P F -> reads (io_err m) P F.
Proof.
  intros Hm w s i Hc. specialize (Hm w s i Hc). unfold io_err, err_of. by destruct (m w) as [[x|e|] w'].
Qed.

Lemma reads_uint n : reads (read_uint h n) (fun i v i' => exists x, takes n i x i' /\ v = from_be_bytes x) (fun _ _ => False).
Proof.
  unfold read_uint. eapply reads_mono; [apply reads_bind; [apply reads_exact | intros; apply reads_ret] | |].
  - intros i v i' (x & i1 & Hx & -> & ->). eauto.
  - intros i i' [[]|(? & ? & ? & [])].
Qed.

(** The header is the one that the first 24 bytes are written from. *)
Definition is_header (x : bytes) (p : PacketHeader) : Prop :=
  exists b1 b2 b3 b4 b5 b6 b7 b8 b9,
    x = b1 ++ b2 ++ b3 ++ b4 ++ b5 ++ b6 ++ b7 ++ b8 ++ b9 /\
    length b1 = 1 /\ length b2 = 1 /\ length b3 = 2 /\ length b4 = 1 /\ length b5 = 1 /\ length b6 = 2 /\
    length b7 = 4 /\ length b8 = 4 /\ length b9 = 8 /\
    p = mkPacket (from_be_bytes b1) (from_be_bytes b2) (from_be_bytes b3) (from_be_bytes b4) (from_be_bytes b5)
          (from_be_bytes b6) (from_be_bytes b7) (from_be_bytes b8) (from_be_bytes b9).

Lemma reads_header : reads (packet_read h) (fun i p i' => exists x, i = x ++ i' /\ is_header x p) (fun _ _ => False).
Proof.
  unfold packet_read. eapply reads_mono.
  { repeat (apply reads_bind; [apply reads_uint | intros ?]). apply reads_ret. }
  - intros i p i'. unfold takes. intros (? & ? & (b1 & (L1 & ->) & ->) & ? & ? & (b2 & (L2 & ->) & ->) & ? & ? & (b3 & (L3 & ->) & ->) &
      ? & ? & (b4 & (L4 & ->) & ->) & ? & ? & (b5 & (L5 & ->) & ->) & ? & ? & (b6 & (L6 & ->) & ->) & ? & ? & (b7 & (L7 & ->) & ->) &
      ? & ? & (b8 & (L8 & ->) & ->) & ? & ? & (b9 & (L9 & ->) & ->) & -> & ->).
    exists (b1 ++ b2 ++ b3 ++ b4 ++ b5 ++ b6 ++ b7 ++ b8 ++ b9). rewrite <- !app_assoc. split; [done|].
    by exists b1, b2, b3, b4, b5, b6, b7, b8, b9.
  - naive_solver.
Qed.

Lemma is_header_bytes p x q i i' : header_ok p -> is_header x q -> x ++ i' = header_bytes p ++ i -> q = p /\ i' = i.
Proof.
  intros (K1 & K2 & K3 & K4 & K5 & K6 & K7 & K8 & K9) (b1 & b2 & b3 & b4 & b5 & b6 & b7 & b8 & b9 & -> & L1 & L2 & L3 & L4 & L5 & L6 & L7 & L8 & L9 & ->).
  unfold header_bytes. rewrite <- !app_assoc. intros E.
  repeat (apply app_inj_1 in E; [|by rewrite be_bytes_length]; destruct E as [-> E]). rewrite !from_be_be by done. by destruct p.
Qed.

Definition accepted (p : PacketHeader) : Prop := ph_vbucket_id_or_status p = 0%Z \/ ph_vbucket_id_or_status p = 1%Z.

Lemma reads_response :
  reads (parse_response h)
    (fun i p i' => exists x, i = x ++ body_bytes p ++ i' /\ is_header x (mr_header p) /\ accepted (mr_header p) /\
       length (mr_extras p) = Z.to_nat (ph_extras_length (mr_header p)) /\
       length (mr_key p) = Z.to_nat (ph_key_length (mr_header p)) /\
       length (mr_value p) = Z.to_nat (wrap_to 32 (ph_total_body_length (mr_header p) - ph_key_length (mr_header p) - ph_extras_length (mr_header p))))
    (fun i i' => exists x p, i = x ++ i' /\ is_header x p /\ ~ accepted p).
Proof.
  unfold parse_response. eapply reads_mono.
  - apply reads_bind; [apply reads_err, reads_header|]. intros p.
    refine (_ : reads _
      (fun i1 r i' => accepted p /\ mr_header r = p /\ i1 = body_bytes r ++ i' /\
         length (mr_extras r) = Z.to_nat (ph_extras_length p) /\ length (mr_key r) = Z.to_nat (ph_key_length p) /\
         length (mr_value r) = Z.to_nat (wrap_to 32 (ph_total_body_length p - ph_key_length p - ph_extras_length p)))
      (fun i1 i' => ~ accepted p /\ i' = i1)).
    unfold accepted, OK_STATUS, KEY_NOT_FOUND. repeat case_bool_decide; simpl;
      try (eapply reads_mono; [apply reads_throw | done | naive_solver]).
    all: (eapply reads_mono;
      [apply reads_bind; [apply reads_err, reads_exact | intros e];
       apply reads_bind; [apply reads_err, reads_exact | intros k];
       apply reads_bind; [apply reads_err, reads_exact | intros v; apply reads_ret] | | naive_solver]).
    all: intros i r i' (e & i1 & (Le & ->) & k & i2 & (Lk & ->) & v & i3 & (Lv & ->) & -> & ->); simpl;
      unfold body_bytes; simpl; rewrite <- !app_assoc; auto 10.
  - intros i r i' (p & i1 & (x & -> & Hx) & Ha & <- & -> & L). rewrite <- ?app_assoc. eauto 10.
  - intros i i' [[]|(p & i1 & (x & -> & Hx) & Ha & ->)]. eauto 10.
Qed.

(** What was written is read back. *)
Lemma response_read_back p x r i i' :
  packet_ok p -> is_header x (mr_header r) ->
  length (mr_extras r) = Z.to_nat (ph_extras_length (mr_header r)) ->
  length (mr_key r) = Z.to_nat (ph_key_length (mr_header r)) ->
  length (mr_value r) = Z.to_nat (wrap_to 32 (ph_total_body_length (mr_header r) - ph_key_length (mr_header r) - ph_extras_length (mr_header r))) ->
  x ++ body_bytes r ++ i' = packet_bytes p ++ i -> r = p /\ i' = i.
Proof.
  intros (Hh & Le & Lk & Lt) Hx E1 E2 E3. unfold packet_bytes. rewrite <- app_assoc. intros E.
  destruct (is_header_bytes _ _ _ _ _ Hh Hx E) as [Eh E']. rewrite Eh in *. unfold body_bytes in *.
  rewrite !length_app in Lt. unfold wrap_to in E3. rewrite Z.mod_small in E3.
  2:{ destruct Hh as (_ & _ & _ & _ & _ & _ & Hu & _). unfold is_uint in Hu. simpl in *. lia. }
  rewrite <- !app_assoc in E'.
  repeat (apply app_inj_1 in E'; [|lia]; destruct E' as [? E']).
  split; [|done]. destruct r, p; simpl in *. congruence.
Qed.

(** A refusal left unread is not a header. *)
Lemma refusal_not_header t x p rest i' :
  8 <= length t -> Forall printable t -> is_header x p -> t ++ rest = x ++ i' -> ~ accepted p.
Proof.
  intros Ht Hp (b1 & b2 & b3 & b4 & b5 & b6 & b7 & b8 & b9 & -> & L1 & L2 & L3 & L4 & L5 & L6 & L7 & L8 & L9 & ->) E.
  assert (exists t', t = (b1 ++ b2 ++ b3 ++ b4 ++ b5 ++ b6) ++ t') as (t' & ->).
  { exists (drop 8 t). rewrite <- (take_drop 8 t) at 1. f_equal.
    assert (take 8 (t ++ rest) = take 8 ((b1 ++ b2 ++ b3 ++ b4 ++ b5 ++ b6) ++ (b7 ++ b8 ++ b9) ++ i')) as E8
      by (rewrite E; f_equal; by rewrite <- !app_assoc).
    rewrite take_app_le in E8 by done. rewrite E8. apply take_app_length'. rewrite !length_app. lia. }
  rewrite !Forall_app in Hp. destruct Hp as [(_ & _ & _ & _ & _ & H6) _]. unfold accepted. simpl.
  destruct b6 as [|u [|v [|? ?]]]; try done. apply Forall_cons in H6 as [Hu H6]. apply Forall_cons in H6 as [Hv _].
  unfold printable in *. unfold from_be_bytes. simpl. lia.
Qed.

End Reads.

(** ** A call: a request and its answer *)

Section Talks.
  Context {W H : Type} `{SocketLaws W H}.
  Variable h : H.
  Variable q : mc_request.
  Hypothesis q_ok : packet_ok (request_packet q).

(** The call [k], when [s] has been sent and [f] is made of the answer: on an idle
    connection the server carries out the request at most once, and the connection
    is settled afterwards. *)
Definition talks {X} (s : bytes) (k : M W Error X) (f : McResponse -> result X) : Prop :=
  forall w, sv_conn w h = Some (s, []) ->
  let '(r, w') := k w in
  (forall j, j <> h -> sv_conn w' j = sv_conn w j) /\ settled w' h /\
  exists m m', m ⊆ sv_table w /\ sv_table w' ⊆ m' /\
  match r with
  | Ok x => idle w' h /\ exists p, mc_answers m q p m' /\ accepted (mr_header p) /\ f p = Ok x
  | Err _ => m' = m \/ exists p, mc_answers m q p m'
  | Panic => False
  end.

Definition sends (m : M W IoError unit) (bs : bytes) : Prop :=
  forall w s i, sv_conn w h = Some (s, i) ->
  let '(r, w') := m w in
  (forall j, j <> h -> sv_conn w' j = sv_conn w j) /\ sv_table w' ⊆ sv_table w /\
  match r with Ok _ => sv_conn w' h = Some (s ++ bs, i) | Err _ => sv_conn w' h = None | Panic => False end.

Lemma sends_write bs : sends (sk_write_all h bs) bs.
Proof using Type.
  intros w s i Hc. pose proof (write_all_law h bs w) as Hl.
  destruct (sk_write_all h bs w) as [[x|e|] w1]; destruct Hl as (Ha & Ht & Hr); [|done..].
  destruct Hr as (s0 & i0 & Hc0 & Hc1). rewrite Hc in Hc0. by injection Hc0 as <- <-.
Qed.
Lemma sends_bind m bs k bs' : sends m bs -> sends k bs' -> sends (m;; k) (bs ++ bs').
Proof using Type.
  intros Hm Hk w s i Hc. specialize (Hm w s i Hc). unfold mbind, M_bind. destruct (m w) as [[x|e|] w1]; [|done..].
  destruct Hm as (Ha & Ht & Hc1). specialize (Hk w1 _ _ Hc1). destruct (k w1) as [r w2]. destruct Hk as (Ha2 & Ht2 & Hr).
  split; [intros j Hj; by rewrite Ha2, Ha|]. split; [by etrans|]. destruct r; [by rewrite app_assoc|done..].
Qed.
Lemma sends_header p : sends (packet_write h p) (header_bytes p).
Proof using Type. unfold packet_write, header_bytes, write_uint. repeat (apply sends_bind; [apply sends_write|]). apply sends_write. Qed.

Lemma talks_send {X} s m bs (k : M W Error X) f : sends m bs -> talks (s ++ bs) k f -> talks s (io_err m;; k) f.
Proof using Type.
  intros Hm Hk w Hc. unfold io_err, err_of, mbind, M_bind. specialize (Hm w s [] Hc).
  destruct (m w) as [[x|e|] w1]; destruct Hm as (Ha & Ht & Hr); [| |done].
  - specialize (Hk w1 Hr). destruct (k w1) as [r w2]. destruct Hk as (Ha2 & Hs & m1 & m2 & Hm & Hm' & Hr').
    split; [intros j Hj; by rewrite Ha2, Ha|]. split; [done|]. exists m1, m2. split_and!; [by etrans | done..].
  - split_and!; [done | by left |]. exists (sv_table w), (sv_table w). by split_and!; [| |left].
Qed.

Lemma accepted_answer m p m' : mc_answers m q p m' -> ~ accepted (mr_header p) -> refusal (body_bytes p).
Proof using Type. clear q_ok. unfold accepted. intros Ha Hn. destruct Ha; unfold status_of in *; tauto. Qed.

Lemma talks_answer {X} (k : McResponse -> M W Error X) f :
  (forall p w, k p w = (f p, w)) -> (forall p, f p <> Panic) ->
  talks (request_bytes q) (io_err (sk_flush h);; (parse_response h ≫= k)) f.
Proof using q_ok.
  intros Hk Hf w Hc. pose proof (flush_law h q [] w q_ok Hc) as Hl. unfold io_err, err_of, mbind, M_bind.
  destruct (sk_flush h w) as [[x|e|] w1]; destruct Hl as (Ha & m & m' & Hm & Hm' & Hr); [| |done].
  2:{ destruct Hr as [Hr Hc1]. split_and!; [done | by left |]. by exists m, m'. }
  destruct Hr as (p & Hans & Hp & Hc1). simpl in Hc1. pose proof (reads_response h w1 _ _ Hc1) as Hrd.
  destruct (parse_response h w1) as [[r|e|] w2]; destruct Hrd as (Ha2 & Ht2 & Hrd); [| |done].
  - destruct Hrd as (i' & Hc2 & y & E & Hy & Hacc & L1 & L2 & L3).
    rewrite <- (app_nil_r (packet_bytes p)) in E. destruct (response_read_back p y r [] i' Hp Hy L1 L2 L3 (eq_sym E)) as [-> ->].
    assert (settled w2 h) as Hset by (right; exists []; split; [done | by left]).
    rewrite Hk. split; [intros j Hj; by rewrite Ha2, Ha|]. split; [done|]. exists m, m'. split_and!; [done | by etrans |].
    destruct (f p) as [z|e|] eqn:Ef; [| | by destruct (Hf p)]; [|by eauto]. split; [done|]. eauto.
  - split; [intros j Hj; by rewrite Ha2, Ha|]. split; [|exists m, m'; split_and!; [done | by etrans | by eauto]].
    destruct Hrd as [?|(i' & Hc2 & y & g & E & Hg & Hacc)]; [by left|]. right. exists i'. split; [done|].
    rewrite <- (app_nil_r (packet_bytes p)) in E. unfold packet_bytes in E. rewrite <- app_assoc in E.
    destruct (is_header_bytes (mr_header p) y g (body_bytes p ++ []) i' (proj1 Hp) Hg (eq_sym E)) as [-> ->].
    rewrite app_nil_r. by apply (accepted_answer m p m').
Qed.

End Talks.

Section Calls.
  Context {W H : Type} `{SocketLaws W H}.
  Variable h : H.

(** Keys and values whose lengths the header has room for. *)
Definition mc_fits (key : str) (n : nat) : Prop := (Z.of_nat (length key) < 2 ^ 16 /\ Z.of_nat (8 + length key + n) < 2 ^ 32)%Z.

Lemma request_ok o key extras val :
  length extras <= 8 -> mc_fits key (length val) -> packet_ok (request_of o key extras val).
Proof using Type.
  unfold mc_fits. intros He [Hk Ht]. unfold packet_ok, header_ok, request_of, body_bytes, is_uint, as_bytes. simpl.
  rewrite !length_app, !length_map. unfold Magic_Request. split_and!; try lia; destruct o; simpl; lia.
Qed.
Lemma len16_fits key n : mc_fits key n -> len16 key = Z.of_nat (length key).
Proof using Type. unfold mc_fits, len16, wrap_to. intros [? ?]. apply Z.mod_small. lia. Qed.
Lemma wrap32_fits key n v : mc_fits key n -> (0 <= v <= Z.of_nat (8 + length key + n))%Z -> wrap_to 32 v = v.
Proof using Type. unfold mc_fits, wrap_to. intros [? ?] ?. apply Z.mod_small. lia. Qed.

Lemma talks_from {X} q s s' (k : M W Error X) f : talks h q s k f -> s' = s -> talks h q s' k f.
Proof using Type. by intros ? ->. Qed.

Definition answered_get (p : McResponse) : result (option bytes) :=
  Ok (if bool_decide (status_of p = 1)%Z then None else Some (mr_value p)).
Lemma talks_get key : mc_fits key 0 -> talks h (RqGet key) [] (conn_get h key) answered_get.
Proof using Type.
  intros Hf. unfold conn_get. rewrite (len16_fits _ _ Hf), (wrap32_fits _ _ _ Hf) by lia.
  apply talks_send with (bs := header_bytes (request_header OpGet (Z.of_nat (length key)) 0 (Z.of_nat (length key)))); [apply sends_header|].
  eapply talks_send; [apply sends_write|]. eapply talks_from.
  - apply talks_answer; [by apply request_ok; [simpl; lia|] | | done]. intros p w. unfold answered_get, status_of. by case_bool_decide.
  - unfold request_bytes, packet_bytes, body_bytes. simpl. by rewrite Nat.add_0_r, app_nil_r.
Qed.

Lemma talks_delete key : mc_fits key 0 -> talks h (RqDelete key) [] (conn_delete h key) (fun _ => Ok tt).
Proof using Type.
  intros Hf. unfold conn_delete. rewrite (len16_fits _ _ Hf), (wrap32_fits _ _ _ Hf) by lia.
  eapply talks_send; [apply sends_header|]. eapply talks_send; [apply sends_write|]. eapply talks_from.
  - apply talks_answer; [by apply request_ok; [simpl; lia|] | done..].
  - unfold request_bytes, packet_bytes, body_bytes. simpl. by rewrite Nat.add_0_r, app_nil_r.
Qed.

Lemma talks_set key val e : mc_fits key (length val) -> talks h (RqSet key val e) [] (conn_set h key val e) (fun _ => Ok tt).
Proof using Type.
  intros Hf. unfold conn_set. rewrite (len16_fits _ _ Hf), (wrap32_fits _ _ _ Hf) by lia.
  eapply talks_send; [apply sends_header|]. do 4 (eapply talks_send; [apply sends_write|]). eapply talks_from.
  - apply talks_answer; [|done..]. apply request_ok; [|done]. by rewrite length_app, !be_bytes_length.
  - unfold request_bytes, packet_bytes, body_bytes. done.
Qed.

Definition answered_version (p : McResponse) : result str :=
  match from_utf8 (mr_value p) with
  | Some version => Ok version
  | None => Err (set_source (b "invalid utf-8 sequence") (error Unexpected "unexpected data received"))
  end.
Lemma version_ok : packet_ok (request_packet RqVersion).
Proof using Type. apply request_ok; [simpl; lia|]. unfold mc_fits. simpl. lia. Qed.
Lemma talks_version : talks h RqVersion [] (conn_version h) answered_version.
Proof using Type.
  unfold conn_version. eapply talks_send; [apply sends_header|]. eapply talks_from; [|done].
  apply talks_answer; [apply version_ok | |].
  - intros p w. unfold answered_version. by destruct (from_utf8 (mr_value p)).
  - intros p. unfold answered_version. by destruct (from_utf8 (mr_value p)).
Qed.

Lemma talks_auth u p :
  mc_fits (b "PLAIN") (length u + length p + 2) -> talks h (RqAuth u p) [] (conn_auth h u p) (fun _ => Ok tt).
Proof using Type.
  intros Hf. unfold conn_auth. cbv zeta. rewrite (len16_fits _ _ Hf), (wrap32_fits _ _ _ Hf) by lia.
  eapply talks_send; [apply sends_header|]. do 2 (eapply talks_send; [apply sends_write|]). eapply talks_from.
  - apply talks_answer; [|done..]. apply request_ok; [simpl; lia|]. unfold as_bytes. rewrite length_map. simpl.
    rewrite length_app. simpl. replace (S (length u + S (length p))) with (length u + length p + 2) by lia. done.
  - unfold request_bytes, request_packet, request_of.
    assert (length (as_bytes (["000"%char] ++ u ++ ["000"%char] ++ p)) = length u + length p + 2) as ->.
    { unfold as_bytes. rewrite length_map, !length_app. simpl. lia. }
    rewrite !Nat.add_assoc. done.
Qed.

(** A broken connection, and one with an unread refusal, fail the check. *)
Lemma version_dead w : sv_conn w h = None -> forall x w', conn_version h w <> (Ok x, w').
Proof using Type.
  intros Hc x w'. unfold conn_version, packet_write, write_uint, io_err, err_of, mbind, M_bind.
  pose proof (write_all_law h (be_bytes 1 (ph_magic (request_header OpVersion 0 0 0))) w) as Hl.
  destruct (sk_write_all h _ w) as [[[]|e|] w1]; [|done..]. destruct Hl as (_ & _ & s & i & Hs & _). by rewrite Hc in Hs.
Qed.
Lemma version_idle w x w' : settled w h -> conn_version h w = (Ok x, w') -> idle w h.
Proof using Type.
  intros [Hc|(t & Hc & [->|[Ht Hp]])] E; [by destruct (version_dead w Hc x w') | done |]. exfalso. revert E.
  unfold conn_version, io_err, err_of, mbind, M_bind.
  pose proof (sends_header h (request_header OpVersion 0 0 0) w [] t Hc) as Hs.
  destruct (packet_write h _ w) as [[[]|e|] w1]; [|done..]. destruct Hs as (_ & _ & Hc1). simpl in Hc1.
  pose proof (flush_law h RqVersion t w1 version_ok) as Hl. unfold request_bytes, packet_bytes, body_bytes in Hl. simpl in Hl.
  specialize (Hl Hc1). destruct (sk_flush h w1) as [[[]|e|] w2]; [|done..].
  destruct Hl as (_ & m & m' & _ & _ & p & _ & _ & Hc2).
  pose proof (reads_response h w2 _ _ Hc2) as Hr. destruct (parse_response h w2) as [[r|e|] w3]; [|done..].
  destruct Hr as (_ & _ & i' & _ & y & E & Hy & Hacc & _). intros _. by apply (refusal_not_header _ _ _ _ _ Ht Hp Hy E).
Qed.

End Calls.

(** Requests that change nothing. *)
Lemma answers_same m q p m' :
  mc_answers m q p m' -> match q with RqSet _ _ _ | RqDelete _ => True | _ => m' = m end.
Proof. destruct 1 as [| | | | | | |r]; try done. by destruct r. Qed.

Section Pool.
  Context {W H : Type} `{PoolLaws W H}.

(** The connection the pool hands out is idle. *)
Lemma checked_idle (w : W) (h : H) w' :
  (forall j, settled w j) -> manager_is_recyclable h w = (Ok tt, w') ->
  idle w' h /\ (forall j, settled w' j) /\ sv_table w' ⊆ sv_table w.
Proof using Type.
  intros Hs E. unfold manager_is_recyclable, mbind, M_bind in E. destruct (conn_version h w) as [[x|e|] w1] eqn:Ev; [|done..].
  injection E as <-. pose proof (talks_version h w (version_idle h w x w1 (Hs h) Ev)) as Ht. rewrite Ev in Ht.
  destruct Ht as (Ha & Hset & m & m' & Hm & Hm' & Hi & p & Hans & _). split; [done|]. split.
  - intros j. destruct (decide (j = h)) as [->|Hj]; [done|]. unfold settled. rewrite Ha by done. apply Hs.
  - assert (m' = m) as -> by exact (answers_same _ _ _ _ Hans). by etrans.
Qed.

Lemma created_idle (w : W) (h : H) w' :
  (forall j, settled w j) -> manager_create pool_manager w = (Ok h, w') ->
  idle w' h /\ (forall j, settled w' j) /\ sv_table w' ⊆ sv_table w.
Proof using All.
  intros Hs. unfold manager_create, io_err, err_of, mbind, M_bind.
  set (connect := match mm_endpoint pool_manager with EpTcp addr => connect_tcp addr | EpUnix path => connect_unix path end).
  assert (let '(r, w1) := connect w in calm w w1 /\ match r with Ok h => idle w1 h | Err _ => True | Panic => False end) as Hc.
  { unfold connect. destruct (mm_endpoint pool_manager); [apply connect_tcp_law | apply connect_unix_law]. }
  destruct (connect w) as [[h1|e|] w1]; [|done..]. destruct Hc as [[Ht1 Hs1] Hi1]. simpl.
  destruct (mm_username pool_manager) as [u|] eqn:Eu, (mm_password pool_manager) as [p|] eqn:Ep;
    try (intros [= -> ->]; split_and!; by auto).
  assert (mc_fits (b "PLAIN") (length u + length p + 2)) as Hf.
  { pose proof (credentials_fit u p Eu Ep). unfold mc_fits. simpl. lia. }
  pose proof (talks_auth h1 u p Hf w1 Hi1) as Ht. destruct (conn_auth h1 u p w1) as [[[]|e|] w2]; [|done..].
  intros [= -> ->]. destruct Ht as (Ha & Hset & m & m' & Hm & Hm' & Hi & q & Hans & _). split; [done|]. split.
  - intros j. destruct (decide (j = h)) as [->|Hj]; [done|]. unfold settled. rewrite Ha by done. by apply Hs1.
  - assert (m' = m) as -> by exact (answers_same _ _ _ _ Hans). etrans; [exact Hm'|]. by etrans.
Qed.

Lemma with_conn_serves {X} q (call : H -> M W Error X) f w :
  (forall h, talks h q [] (call h) f) -> (forall j, settled w j) ->
  let '(r, w') := with_conn call w in
  (forall j, settled w' j) /\
  exists m m', m ⊆ sv_table w /\ sv_table w' ⊆ m' /\
  match r with
  | Ok x => exists p, mc_answers m q p m' /\ accepted (mr_header p) /\ f p = Ok x
  | Err _ => m' = m \/ exists p, mc_answers m q p m'
  | Panic => False
  end.
Proof using All.
  intros Hcall Hs. unfold with_conn, mc_conn, mbind, M_bind, throw, mret, M_ret. pose proof (pool_get_law w Hs) as Hp.
  assert (forall w', calm w w' -> (forall j, settled w' j) /\ exists m m' : table,
    m ⊆ sv_table w /\ sv_table w' ⊆ m' /\ (m' = m \/ exists p, mc_answers m q p m')) as Hcalm.
  { intros w' [Ht Hk]. split; [by auto|]. exists (sv_table w), (sv_table w). by split_and!; [| |left]. }
  destruct (pool_get w) as [[[h|]|e|] w1]; [|by apply Hcalm..|done].
  destruct Hp as (w0 & [Ht0 Hs0] & Hgot).
  assert (idle w1 h /\ (forall j, settled w1 j) /\ sv_table w1 ⊆ sv_table w0) as (Hi & Hs1 & Ht1).
  { destruct Hgot as [Hg|Hg]; [eapply created_idle | eapply checked_idle]; try done; by auto. }
  specialize (Hcall h w1 Hi). destruct (call h w1) as [r w2]. destruct Hcall as (Ha & Hset & m & m' & Hm & Hm' & Hr).
  destruct (pool_put_back_law h w2) as [Ht3 Hs3]. split.
  - intros j. apply Hs3. destruct (decide (j = h)) as [->|Hj]; [done|]. unfold settled. rewrite Ha by done. apply Hs1.
  - exists m, m'. split_and!; [etrans; [exact Hm|]; by etrans | by etrans |]. destruct r; [|done..]. by destruct Hr.
Qed.

End Pool.

(** ** The service is a cache *)

Section View.
  Context `{PercentLaws}.

(** The items under the paths their keys encode. *)
Definition mc_view (m : table) : table :=
  list_to_map (omap (fun kv => if bool_decide (percent_encode_path (percent_decode kv.1) = kv.1)
                               then Some (percent_decode kv.1, kv.2) else None) (map_to_list m)).

Lemma decode_encode k : percent_decode (percent_encode_path k) = k.
Proof using All.
  unfold percent_encode_path. rewrite encode_law. induction k as [|c k IH]; [apply decode_nil|].
  rewrite fmap_cons. simpl. by rewrite decode_encoded, IH.
Qed.
Lemma mc_view_lookup (m : table) k : mc_view m !! k = m !! percent_encode_path k.
Proof using All.
  unfold mc_view. apply option_eq. intros v. set (f := fun kv : list ascii * bytes => _).
  assert (forall x y, (x, y) ∈ omap f (map_to_list m) <-> m !! percent_encode_path x = Some y) as Hin.
  { intros x y. rewrite list_elem_of_omap. unfold f. split.
    - intros ([k0 v0] & Hk & E). apply elem_of_map_to_list in Hk. simpl in E. case_bool_decide as Hd; [|done].
      injection E as <- <-. by rewrite Hd.
    - intros Hx. exists (percent_encode_path x, y). rewrite elem_of_map_to_list. split; [done|]. simpl.
      by rewrite decode_encode, bool_decide_eq_true_2. }
  rewrite <- elem_of_list_to_map'; [apply Hin|]. intros v' H1%Hin H2%Hin. congruence.
Qed.

Lemma encode_inj k j : percent_encode_path k = percent_encode_path j -> k = j.
Proof using All. intros E. by rewrite <- (decode_encode k), E, decode_encode. Qed.
Lemma mc_view_mono (m m' : table) : m ⊆ m' -> mc_view m ⊆ mc_view m'.
Proof using All. rewrite !map_subseteq_spec. intros Hs k v. rewrite !mc_view_lookup. apply Hs. Qed.
Lemma mc_view_insert (m : table) k v : mc_view (<[percent_encode_path k := v]> m) = <[k := v]> (mc_view m).
Proof using All.
  apply map_eq. intros j. rewrite mc_view_lookup. destruct (decide (j = k)) as [->|Hj]; [by rewrite !lookup_insert_eq|].
  rewrite !lookup_insert_ne, mc_view_lookup by (by intros ?%encode_inj || done). done.
Qed.
Lemma mc_view_delete (m : table) k : mc_view (delete (percent_encode_path k) m) = delete k (mc_view m).
Proof using All.
  apply map_eq. intros j. rewrite mc_view_lookup. destruct (decide (j = k)) as [->|Hj]; [by rewrite !lookup_delete_eq|].
  rewrite !lookup_delete_ne, mc_view_lookup by (by intros ?%encode_inj || done). done.
Qed.
Lemma mc_view_same_but (m m' : table) k : same_but (percent_encode_path k) m m' -> same_but k (mc_view m) (mc_view m').
Proof using All. intros Hs j Hj. rewrite !mc_view_lookup. apply Hs. by intros ?%encode_inj. Qed.

End View.

Lemma answer_get m k p m' : mc_answers m (RqGet k) p m' -> accepted (mr_header p) -> answered_get p = Ok (m !! k).
Proof.
  unfold accepted, answered_get. intros Hans Hacc.
  inversion Hans as [? ? ? Hk Hst Hv|? ? Hk Hst| | | | | |? ? ? Hn0 Hn1]; subst; rewrite Hk || (unfold status_of in *; tauto).
  - by rewrite Hst.
  - by rewrite Hst.
Qed.
Lemma answer_set m k v e p m' :
  mc_answers m (RqSet k v e) p m' -> same_but k m m' /\ (accepted (mr_header p) -> m' = <[k := v]> m).
Proof.
  unfold accepted. intros Hans. inversion Hans as [| |? ? ? ? Hst| | | | |? ? ? Hn0 Hn1 Hr Hs]; subst.
  - split; [|done]. intros j Hj. by rewrite lookup_insert_ne.
  - split; [done|]. unfold status_of in *. tauto.
Qed.
Lemma answer_delete m k p m' :
  mc_answers m (RqDelete k) p m' -> same_but k m m' /\ (accepted (mr_header p) -> m' = delete k m).
Proof.
  unfold accepted. intros Hans. inversion Hans as [| | |? ? Hst|? ? Hk Hst| | |? ? ? Hn0 Hn1 Hr Hs]; subst.
  - split; [|done]. intros j Hj. by rewrite lookup_delete_ne.
  - split; [done|]. by rewrite delete_id.
  - split; [done|]. unfold status_of in *. tauto.
Qed.

(** At any time items may be lost; that aside the service is a map. *)
#[export] Instance memcached_map {W H} `{PoolLaws W H} `{PercentLaws} : KvMap (MemcachedCore W).
Proof.
  refine {| kv_view c := mc_view (sv_table (mc_world c)); kv_ok c := forall h, settled (mc_world c) h;
            kv_loses m m' := m' ⊆ m; kv_accepts k n := mc_fits (percent_encode_path k) n |}.
  - done.
  - intros k c Hok Hf. unfold kv_get, memcached_core, memcached_get, on_world. run_core.
    pose proof (with_conn_serves (RqGet (percent_encode_path k)) (fun conn => conn_get conn (percent_encode_path k)) _
      (mc_world c) (fun h => talks_get h _ Hf) Hok) as Hl.
    destruct (with_conn _ (mc_world c)) as [r w]. destruct Hl as (Hs & m & m' & Hm & Hm' & Hr).
    assert (match r with Ok x => x = mc_view m !! k | Err _ => True | Panic => False end /\ m' = m) as [Hx ->].
    { destruct r as [x|e|]; [| |done].
      - destruct Hr as (p & Hans & Hacc & Hp). rewrite (answer_get _ _ _ _ Hans Hacc) in Hp. injection Hp as <-.
        rewrite mc_view_lookup. split; [done|]. exact (answers_same _ _ _ _ Hans).
      - split; [done|]. destruct Hr as [?|(p & Hans)]; [done|]. exact (answers_same _ _ _ _ Hans). }
    apply buffer_of_map in Hx. destruct r as [x|e|]; simpl in *; split; try done;
      exists (mc_view m); split_and!; by try apply mc_view_mono.
  - intros k v c Hok Hv Hf. unfold kv_set, memcached_core, memcached_set, on_world. run_core.
    rewrite <- (contents_length v Hv) in Hf.
    set (e := default 0%Z _).
    pose proof (with_conn_serves (RqSet (percent_encode_path k) (contents v) e) (fun conn => conn_set conn (percent_encode_path k) (contents v) e) _
      (mc_world c) (fun h => talks_set h _ _ _ Hf) Hok) as Hl.
    destruct (with_conn _ (mc_world c)) as [r w]. destruct Hl as (Hs & m & m' & Hm & Hm' & Hr).
    split; [by destruct r|]. exists (mc_view m), (mc_view m'). split; [by apply mc_view_mono|].
    split; [by destruct r; apply mc_view_mono|]. destruct r as [x|er|]; [| |done].
    + destruct Hr as (p & Hans & Hacc & _). rewrite (proj2 (answer_set _ _ _ _ _ _ Hans) Hacc). apply mc_view_insert.
    + destruct Hr as [->|(p & Hans)]; [done|]. by apply mc_view_same_but, (answer_set _ _ _ _ _ _ Hans).
  - intros k c Hok Hf. unfold kv_delete, memcached_core, memcached_delete, on_world. run_core.
    pose proof (with_conn_serves (RqDelete (percent_encode_path k)) (fun conn => conn_delete conn (percent_encode_path k)) _
      (mc_world c) (fun h => talks_delete h _ Hf) Hok) as Hl.
    destruct (with_conn _ (mc_world c)) as [r w]. destruct Hl as (Hs & m & m' & Hm & Hm' & Hr).
    split; [by destruct r|]. exists (mc_view m), (mc_view m'). split; [by apply mc_view_mono|].
    split; [by destruct r; apply mc_view_mono|]. destruct r as [x|er|]; [| |done].
    + destruct Hr as (p & Hans & Hacc & _). rewrite (proj2 (answer_delete _ _ _ _ Hans) Hacc). apply mc_view_delete.
    + destruct Hr as [->|(p & Hans)]; [done|]. by apply mc_view_same_but, (answer_delete _ _ _ _ Hans).
Defined.

Section Cache.
  Context {W H : Type} `{PoolLaws W H} `{PercentLaws}.
  Variable root : str.
  Hypothesis root_ok : normalized_root root.
  Hypothesis root_char : starts_char (tail root).

(** C20.  The memcached service is a cache of a map: over any socket to a server
    of the binary protocol and any pool that hands out only connections it has
    made or checked, whatever sequence of writes, reads, stats and deletes is made,
    with keys and values whose lengths the header has room for, the answers are
    those of a map that may lose objects between calls but never holds a byte
    that was not written.  No call reads what belongs to another: a connection on
    which an answer was left unread fails the check and is not handed out. *)
Theorem memcached_refines_cache :
  refines_map memcached_Write memcached_Delete "kv not found in memcached" root (memcached_access (W := W) root).
Proof using All. intros cs s. apply kv_like_refines; done. Qed.

End Cache.

(** ** A server *)

Record McServer : Type := mkServer { ms_items : table; ms_conns : gmap nat (bytes * bytes); ms_pool : list nat }.
Definition set_conn (h : nat) (c : bytes * bytes) (w : McServer) : McServer := mkServer (ms_items w) (<[h := c]> (ms_conns w)) (ms_pool w).
Definition drop_conn (h : nat) (w : McServer) : McServer := mkServer (ms_items w) (delete h (ms_conns w)) (ms_pool w).
Definition reset : IoError := mkIoError IoNotFound (inr []).

Definition header_of (bs : bytes) : PacketHeader :=
  mkPacket (from_be_bytes (take 1 bs)) (from_be_bytes (take 1 (drop 1 bs))) (from_be_bytes (take 2 (drop 2 bs)))
    (from_be_bytes (take 1 (drop 4 bs))) (from_be_bytes (take 1 (drop 5 bs))) (from_be_bytes (take 2 (drop 6 bs)))
    (from_be_bytes (take 4 (drop 8 bs))) (from_be_bytes (take 4 (drop 12 bs))) (from_be_bytes (take 8 (drop 16 bs))).

Definition reply (status : Z) (extras val : bytes) : McResponse :=
  mkMcResponse (mkPacket 129 0 0 (Z.of_nat (length extras)) 0 status (Z.of_nat (length extras + length val)) 0 0) [] extras val.
Definition item_max : Z := 1048576.
Definition too_large : bytes := as_bytes (b "Too large.").
Definition serve_op (op : Z) (key : str) (val : bytes) (m : table) : McResponse * table :=
  match op with
  | 0%Z => match m !! key with
           | Some v => if bool_decide (Z.of_nat (length v) <= item_max)%Z then (reply 0 (be_bytes 4 0) v, m)
                       else (reply 1 [] [], delete key m)
           | None => (reply 1 [] [], m)
           end
  | 1%Z => if bool_decide (Z.of_nat (length val) <= item_max)%Z then (reply 0 [] [], <[key := val]> m) else (reply 3 [] too_large, m)
  | 4%Z => match m !! key with Some _ => (reply 0 [] [], delete key m) | None => (reply 1 [] (as_bytes (b "Not found")), m) end
  | 11%Z => (reply 0 [] (as_bytes (b "1.6.0")), m)
  | _ => (reply 0 [] [], m)
  end.
Definition serve (bs : bytes) : table -> McResponse * table :=
  let h := header_of bs in
  let body := drop (Z.to_nat (ph_extras_length h)) (drop 24 bs) in
  serve_op (ph_opcode h) (ascii_of_byte <$> take (Z.to_nat (ph_key_length h)) body) (drop (Z.to_nat (ph_key_length h)) body).

#[export] Instance McServer_socket : Socket McServer nat :=
  {| sk_write_all h bs w :=
       match ms_conns w !! h with Some (s, i) => (Ok tt, set_conn h (s ++ bs, i) w) | None => (Err reset, w) end;
     sk_flush h w :=
       match ms_conns w !! h with
       | Some (s, i) => let '(p, m) := serve s (ms_items w) in
                        (Ok tt, mkServer m (<[h := ([], i ++ packet_bytes p)]> (ms_conns w)) (ms_pool w))
       | None => (Err reset, w)
       end;
     sk_read_exact h n w :=
       match ms_conns w !! h with
       | Some (s, i) => if bool_decide (n <= length i) then (Ok (take n i), set_conn h (s, drop n i) w)
                        else (Err reset, drop_conn h w)
       | None => (Err reset, w)
       end |}.

Lemma header_of_is bs : 24 <= length bs -> is_header (take 24 bs) (header_of bs).
Proof.
  intros Hl. do 24 (destruct bs as [|? bs]; [simpl in Hl; lia|]). 
  eexists [_], [_], [_; _], [_], [_], [_; _], [_; _; _; _], [_; _; _; _], [_; _; _; _; _; _; _; _]. split_and!; done.
Qed.
Lemma header_bytes_length p : length (header_bytes p) = 24.
Proof. unfold header_bytes. by rewrite !length_app, !be_bytes_length. Qed.
Lemma header_of_packet p : packet_ok p -> header_of (packet_bytes p) = mr_header p.
Proof.
  intros Hp. assert (24 <= length (packet_bytes p)) as Hl by (unfold packet_bytes; rewrite length_app, header_bytes_length; lia).
  apply (is_header_bytes (mr_header p) _ _ (body_bytes p) (drop 24 (packet_bytes p)) (proj1 Hp) (header_of_is _ Hl)).
  by rewrite take_drop.
Qed.

Lemma serve_request o key extras val :
  packet_ok (request_of o key extras val) ->
  serve (packet_bytes (request_of o key extras val)) = serve_op (opcode_value o) key val.
Proof.
  intros Hp. unfold serve. rewrite (header_of_packet _ Hp). simpl mr_header. cbn [ph_extras_length ph_opcode ph_key_length request_header].
  rewrite !Nat2Z.id. unfold packet_bytes, body_bytes. simpl mr_extras. simpl mr_key. simpl mr_value.
  rewrite (drop_app_length' (header_bytes _)), (drop_app_length' extras) by (by rewrite ?header_bytes_length).
  rewrite take_app_length', drop_app_length' by (unfold as_bytes; by rewrite length_map). by rewrite ascii_as_bytes.
Qed.
Lemma reply_ok st extras val :
  (0 <= st < 65536)%Z -> length extras <= 4 -> (Z.of_nat (length val) <= item_max)%Z -> packet_ok (reply st extras val).
Proof.
  unfold item_max. intros. unfold packet_ok, header_ok, reply, body_bytes, is_uint. simpl. rewrite length_app. simpl.
  split_and!; lia.
Qed.

Lemma serve_answers q m :
  packet_ok (request_packet q) ->
  let '(p, m') := serve (request_bytes q) m in
  packet_ok p /\ exists m0, m0 ⊆ m /\ mc_answers m0 q p m'.
Proof.
  assert (forall st extras val, (0 <= st < 4)%Z -> length extras <= 4 -> (length val <= 10) -> packet_ok (reply st extras val)) as Hr.
  { intros. apply reply_ok; unfold item_max; lia. }
  intros Hq. unfold request_bytes. destruct q as [k|k v e|k| |u w]; cbn [request_packet] in *; rewrite (serve_request _ _ _ _ Hq); unfold serve_op; cbn [opcode_value].
  - destruct (m !! k) as [v|] eqn:Ek; [case_bool_decide|].
    + split; [apply reply_ok; rewrite ?be_bytes_length; lia|]. exists m. split; [done|]. by eapply ans_hit.
    + split; [apply Hr; simpl; lia|]. exists (delete k m). split; [apply delete_subseteq|]. apply ans_miss; [apply lookup_delete_eq | done].
    + split; [apply Hr; simpl; lia|]. exists m. split; [done|]. by apply ans_miss.
  - case_bool_decide; (split; [apply Hr; simpl; lia|]; exists m; split; [done|]).
    + by apply ans_stored.
    + apply ans_refused; [done | done | | done]. right. split; [simpl; lia|]. apply (bool_decide_unpack _). vm_compute. exact I.
  - destruct (m !! k) as [v|] eqn:Ek; (split; [apply Hr; simpl; lia|]; exists m; split; [done|]); [by apply ans_deleted | by apply ans_nothing].
  - split; [apply Hr; simpl; lia|]. exists m. split; [done|]. by apply ans_version.
  - split; [apply Hr; simpl; lia|]. exists m. split; [done|]. by apply ans_auth.
Qed.

#[export] Instance McServer_laws : SocketLaws McServer nat.
Proof.
  refine {| sv_table := ms_items; sv_conn w h := ms_conns w !! h |}.
  - intros h bs w. simpl. destruct (ms_conns w !! h) as [[s i]|] eqn:E; simpl; [|done].
    split; [intros j Hj; by rewrite lookup_insert_ne|]. split; [done|]. exists s, i. by rewrite lookup_insert_eq.
  - intros h n w. simpl. destruct (ms_conns w !! h) as [[s i]|] eqn:E; simpl; [|done]. case_bool_decide; simpl.
    + split; [intros j Hj; by rewrite lookup_insert_ne|]. split; [done|]. split; [rewrite length_take; lia|].
      exists s, (drop n i). by rewrite take_drop, lookup_insert_eq.
    + split; [intros j Hj; by rewrite lookup_delete_ne|]. split; [done|]. apply lookup_delete_eq.
  - intros h q i w Hq Hc. simpl. rewrite Hc. pose proof (serve_answers q (ms_items w) Hq) as Ha.
    destruct (serve (request_bytes q) (ms_items w)) as [p m]. destruct Ha as (Hp & m0 & Hm & Ha). simpl.
    split; [intros j Hj; by rewrite lookup_insert_ne|]. exists m0, m. split; [done|]. split; [done|]. exists p.
    by rewrite lookup_insert_eq.
Defined.

Definition connect_new : M McServer IoError nat := fun w =>
  let h := fresh (dom (ms_conns w)) in (Ok h, set_conn h ([], []) w).
Definition set_pool (hs : list nat) (w : McServer) : McServer := mkServer (ms_items w) (ms_conns w) hs.
(** A pool of connections, each checked before it is used again. *)
#[export] Instance McServer_pool : ConnPool McServer nat :=
  {| connect_tcp _ := connect_new; connect_unix _ := connect_new;
     pool_manager := mkManager (EpTcp (b "127.0.0.1:11211")) None None;
     pool_get w :=
       let create := match connect_new w with (Ok h, w) => (Ok (Some h), w) | (_, w) => (Ok None, w) end in
       match ms_pool w with
       | h :: hs => match manager_is_recyclable h (set_pool hs w) with (Ok _, w) => (Ok (Some h), w) | _ => create end
       | [] => create
       end;
     pool_put_back h w := set_pool (h :: ms_pool w) w |}.
#[export] Instance McServer_pool_laws : PoolLaws McServer nat.
Proof.
  assert (forall w, calm w (connect_new w).2 /\ idle (connect_new w).2 (fresh (dom (ms_conns w)))) as Hnew.
  { intros w. unfold calm, idle, settled. simpl. rewrite lookup_insert_eq. split_and!; [done| |done]. intros h.
    destruct (decide (h = fresh (dom (ms_conns w)))) as [->|Hh]; [|by rewrite lookup_insert_ne].
    rewrite lookup_insert_eq. intros _. right. exists []. split; [done | by left]. }
  split.
  - intros addr w. apply Hnew.
  - intros path w. apply Hnew.
  - intros w Hs. unfold pool_get, McServer_pool. destruct (ms_pool w) as [|h hs].
    + exists w. split; [by split|]. by left.
    + destruct (manager_is_recyclable h (set_pool hs w)) as [[[]|e|] w'] eqn:E.
      * exists (set_pool hs w). split; [by split|]. by right.
      * exists w. split; [by split|]. by left.
      * exists w. split; [by split|]. by left.
  - intros h w. by split.
  - by intros u p.
Qed.

Import SimplePercent.

(** A server with an item, and a pool with a connection on which a refusal was
    left unread. *)
Definition mc_sample : KvBackend (MemcachedCore McServer) :=
  memcached_new (mkMemcached None (mkServer {[ b "d/a%20b" := [x01; x02] ]} {[ 0 := ([], too_large) ]} [0])).

Lemma memcached_refines_cache_witness :
  (kv_run (memcached_access (W := McServer) (b "/d/")) [KRead (b "a b") op_read; KDelete (b "a b"); KStat (b "a b"); KPut (b "c") [Contiguous [x07]]] mc_sample).1
    = [(KRead (b "a b") op_read, ARead (Ok (Some (set_content_length 2 (meta_new FILE)), Contiguous [x01; x02])));
       (KDelete (b "a b"), ADelete (Ok tt));
       (KStat (b "a b"), AStat (Err (error NotFound "kv not found in memcached")));
       (KPut (b "c") [Contiguous [x07]], APut (Ok (set_content_length 1 (meta_new FILE))))] /\
  core_ok mc_sample /\
  refines_map memcached_Write memcached_Delete "kv not found in memcached" (b "/d/") (memcached_access (W := McServer) (b "/d/")).
Proof.
  split; [vm_compute; reflexivity|]. split.
  - intros h. unfold settled. simpl. destruct (decide (h = 0)) as [->|Hh]; [|left; by rewrite lookup_singleton_ne].
    right. exists too_large. split; [by rewrite lookup_singleton_eq|]. right. split; [simpl; lia|].
    apply (bool_decide_unpack _). vm_compute. exact I.
  - apply (memcached_refines_cache (W := McServer) (H := nat) (b "/d/")); [|reflexivity].
    apply (root_dir [b "d"]); [done|]. repeat constructor; [done|]. apply (bool_decide_unpack _). vm_compute. exact I.
Defined.

(** The length of the key in the header is cut to 16 bits while the body's is not:
    a longer key is sent as a short key followed by other data. *)
Theorem memcached_key_length_wraps : len16 (replicate (Z.to_nat 65537) "a"%char) = 1%Z.
Proof. unfold len16. rewrite length_replicate, Z2Nat.id; done. Qed.
