(* ===== verification/SqlText.v ===== *)
(** * The text of SQL statements

    What a statement means, from its text alone: a lexer and the forms of
    statement that PostgreSQL, MySQL and sqlite share, with the quotes, the
    placeholders and the upsert of each.  Nothing here knows the statements of the
    services; [Sql] proves what theirs are read as.  The forms are the documented
    ones; a text of another form is given no meaning. *)

From S2P Require Import Prelude.
From stdpp Require Import options.

(** ** Words, quoted names and punctuation *)

Inductive Tok : Type := TWord (s : str) | TName (s : str) | TPunct (c : ascii).
Inductive LexState : Type := Between | InWord (w : str) | InName (w : str) | NameEnd (w : str).

Definition word_char (c : ascii) : bool :=
  let n := N_of_ascii c in
  bool_decide (97 <= n <= 122)%N || bool_decide (65 <= n <= 90)%N || bool_decide (48 <= n <= 57)%N ||
  bool_decide (c = "_"%char) || bool_decide (c = "$"%char).
Definition blank (c : ascii) : bool :=
  bool_decide (c = " "%char) || bool_decide (c = "010"%char) || bool_decide (c = "013"%char) || bool_decide (c = "009"%char).

Section Lexer.
  (** The quote of names. *)
  Variable q : ascii.

Definition lex_open (c : ascii) : list Tok * LexState :=
  if bool_decide (c = q) then ([], InName [])
  else if word_char c then ([], InWord [c])
  else if blank c then ([], Between) else ([TPunct c], Between).
Definition after (t : Tok) (r : list Tok * LexState) : list Tok * LexState := (t :: r.1, r.2).
(** A doubled quote inside a name is a quote of the name. *)
Definition lex_char (st : LexState) (c : ascii) : list Tok * LexState :=
  match st with
  | Between => lex_open c
  | InWord w => if word_char c then ([], InWord (w ++ [c])) else after (TWord w) (lex_open c)
  | InName w => if bool_decide (c = q) then ([], NameEnd w) else ([], InName (w ++ [c]))
  | NameEnd w => if bool_decide (c = q) then ([], InName (w ++ [c])) else after (TName w) (lex_open c)
  end.
Fixpoint scan (st : LexState) (s : str) : list Tok * LexState :=
  match s with
  | [] => ([], st)
  | c :: s => let '(ts, st') := lex_char st c in let '(ts', st'') := scan st' s in (ts ++ ts', st'')
  end.
Definition lex (s : str) : option (list Tok) :=
  let '(ts, st) := scan Between s in
  match st with
  | Between => Some ts
  | InWord w => Some (ts ++ [TWord w])
  | NameEnd w => Some (ts ++ [TName w])
  | InName _ => None
  end.

Lemma scan_app st x y ts st' ts' st'' :
  scan st x = (ts, st') -> scan st' y = (ts', st'') -> scan st (x ++ y) = (ts ++ ts', st'').
Proof.
  revert st ts. induction x as [|c x IH]; intros st ts; cbn [app scan].
  - by intros [= <- ->] ->.
  - destruct (lex_char st c) as [t1 s1]. destruct (scan s1 x) as [t2 s2] eqn:E. intros [= <- <-] Hy.
    rewrite (IH _ _ E Hy). by rewrite app_assoc.
Qed.

Lemma scan_inner w v : (q ∉ v) -> scan (InName w) (v ++ [q]) = ([], NameEnd (w ++ v)).
Proof.
  revert w. induction v as [|c v IH]; intros w Hv; cbn [app scan lex_char].
  - rewrite bool_decide_eq_true_2 by done. by rewrite (app_nil_r w).
  - apply not_elem_of_cons in Hv as [Hc Hv]. rewrite bool_decide_eq_false_2 by done. rewrite IH by done.
    by rewrite <- app_assoc.
Qed.
Lemma scan_name v : (q ∉ v) -> scan Between (q :: v ++ [q]) = ([], NameEnd v).
Proof.
  intros Hv. cbn [scan lex_char]. unfold lex_open. rewrite bool_decide_eq_true_2 by done. by rewrite scan_inner.
Qed.

Lemma scan_in_word w v : forallb word_char v = true -> scan (InWord w) v = ([], InWord (w ++ v)).
Proof.
  revert w. induction v as [|c v IH]; intros w; cbn [forallb scan lex_char]; [by rewrite app_nil_r|].
  intros [-> Hv]%andb_true_iff. rewrite IH by done. by rewrite <- app_assoc.
Qed.
Lemma scan_word v :
  word_char q = false -> v <> [] -> forallb word_char v = true -> scan Between v = ([], InWord v).
Proof.
  intros Hq. destruct v as [|c v]; [done|]. intros _ [Hc Hv]%andb_true_iff. cbn [scan lex_char]. unfold lex_open.
  rewrite bool_decide_eq_false_2 by (intros ->; congruence). rewrite Hc. by rewrite scan_in_word.
Qed.
End Lexer.

(** ** Forms of statements *)

(** Names that may stand in a statement without quotes: an unquoted name is folded
    to one case, and must not be a reserved word. *)
Definition plain (s : str) : bool :=
  match s with
  | c :: _ => bool_decide (97 <= N_of_ascii c <= 122)%N &&
      forallb (fun c => bool_decide (97 <= N_of_ascii c <= 122 \/ 48 <= N_of_ascii c <= 57 \/ c = "_"%char)%N) s
  | [] => false
  end.
Lemma plain_words s : plain s = true -> s <> [] /\ forallb word_char s = true.
Proof.
  destruct s as [|c s]; [done|]. unfold plain. intros [_ Ha]%andb_true_iff. split; [done|].
  rewrite forallb_forall in *. intros x Hx. specialize (Ha x Hx). apply bool_decide_eq_true in Ha. unfold word_char.
  destruct Ha as [Hc|[Hc|Hc]]; rewrite (bool_decide_eq_true_2 _ Hc); by rewrite ?orb_true_r.
Qed.

(** A keyword, a sign, a name, a number. *)
Inductive Pat : Type := Key (w : string) | Sign (c : ascii) | Name | Num.
Inductive Val : Type := VName (s : str) | VNum (n : Z).

Record Grammar : Type := mkGrammar {
  g_quote : ascii;
  g_reserved : str -> bool;
  (** The placeholder of the [n]th bound value. *)
  g_hole : nat -> Pat;
  (** How an insertion that may replace a row starts and ends. *)
  g_insert : list Pat;
  g_upsert : list Pat;
}.

Fixpoint matches (reserved : str -> bool) (ps : list Pat) (ts : list Tok) : option (list Val) :=
  match ps, ts with
  | [], [] => Some []
  | Key w :: ps, TWord s :: ts => if bool_decide (s = b w) then matches reserved ps ts else None
  | Sign c :: ps, TPunct d :: ts => if bool_decide (d = c) then matches reserved ps ts else None
  | Name :: ps, TName s :: ts => cons (VName s) <$> matches reserved ps ts
  | Name :: ps, TWord s :: ts => if plain s && negb (reserved s) then cons (VName s) <$> matches reserved ps ts else None
  | Num :: ps, TWord s :: ts => n ← parse_u64 s; cons (VNum n) <$> matches reserved ps ts
  | Num :: ps, TPunct d :: TWord s :: ts =>
      if bool_decide (d = "-"%char) then n ← parse_u64 s; cons (VNum (- n)) <$> matches reserved ps ts else None
  | _, _ => None
  end.

(** Of a table with a key column and a value column: the value of a key; a row put
    in or replaced; the row of a key deleted; the keys like a pattern, in order;
    bytes [y], counted from 1, and on of the value of a key, [z] of them, with
    its length; and the number of keys like a pattern. *)
Inductive Stmt : Type :=
  | SGet (table key value : str)
  | SPut (table key value : str)
  | SDelete (table key : str)
  | SList (table key : str)
  | SRange (table key value : str) (y z : Z)
  | SCount (table key : str).

Section Forms.
  Variable g : Grammar.

Definition get_form : list Pat :=
  [Key "SELECT"; Name; Key "FROM"; Name; Key "WHERE"; Name; Sign "="; g_hole g 1; Key "LIMIT"; Key "1"].
Definition put_form : list Pat :=
  g_insert g ++ [Key "INTO"; Name; Sign "("; Name; Sign ","; Name; Sign ")"; Key "VALUES"; Sign "("; g_hole g 1; Sign ","; g_hole g 2; Sign ")"] ++ g_upsert g.
Definition delete_form : list Pat := [Key "DELETE"; Key "FROM"; Name; Key "WHERE"; Name; Sign "="; g_hole g 1].
Definition list_form : list Pat :=
  [Key "SELECT"; Name; Key "FROM"; Name; Key "WHERE"; Name; Key "LIKE"; g_hole g 1; Key "ORDER"; Key "BY"; Name].
Definition range_form : list Pat :=
  [Key "SELECT"; Key "SUBSTR"; Sign "("; Name; Sign ","; Num; Sign ","; Num; Sign ")"; Sign ","; Key "LENGTH"; Sign "("; Name; Sign ")"; Key "FROM"; Name;
   Key "WHERE"; Name; Sign "="; g_hole g 1; Key "LIMIT"; Key "1"].
Definition count_form : list Pat :=
  [Key "SELECT"; Key "COUNT"; Sign "("; Sign "*"; Sign ")"; Key "FROM"; Name; Key "WHERE"; Name; Key "LIKE"; g_hole g 1; Key "LIMIT"; Key "1"].

(** Columns that are named again must be the same. *)
Definition agree (x : str) (xs : list Val) : bool := forallb (fun y => match y with VName y => bool_decide (y = x) | _ => false end) xs.
(** *** Statements of each form *)

Definition stmt_get (vs : list Val) : option Stmt :=
  match vs with [VName v; VName t; VName k] => Some (SGet t k v) | _ => None end.
(** What is replaced is found by the key column and set from the value column. *)
Definition stmt_put (vs : list Val) : option Stmt :=
  match vs with
  | VName t :: VName k :: VName v :: rest =>
      if (match rest with
          | [] => true
          | [set; new] => agree v [set; new]
          | [on; set; new] => agree k [on] && agree v [set; new]
          | _ => false
          end) then Some (SPut t k v) else None
  | _ => None
  end.
Definition stmt_delete (vs : list Val) : option Stmt := match vs with [VName t; VName k] => Some (SDelete t k) | _ => None end.
Definition stmt_list (vs : list Val) : option Stmt :=
  match vs with VName k :: VName t :: rest => if agree k rest then Some (SList t k) else None | _ => None end.
Definition stmt_range (vs : list Val) : option Stmt :=
  match vs with
  | [VName v; VNum y; VNum z; v'; VName t; VName k] => if agree v [v'] then Some (SRange t k v y z) else None
  | _ => None
  end.
Definition stmt_count (vs : list Val) : option Stmt := match vs with [VName t; VName k] => Some (SCount t k) | _ => None end.

Definition form (ts : list Tok) (ps : list Pat) (read : list Val -> option Stmt) : option Stmt :=
  matches (g_reserved g) ps ts ≫= read.
Definition parse_tokens (ts : list Tok) : option Stmt :=
  head (omap (fun x => x)
    [form ts get_form stmt_get; form ts put_form stmt_put; form ts delete_form stmt_delete;
     form ts list_form stmt_list; form ts range_form stmt_range; form ts count_form stmt_count]).
Definition sql_parse (sql : str) : option Stmt := lex (g_quote g) sql ≫= parse_tokens.
End Forms.

(** ** The three databases *)

Section Databases.
  Variable reserved : str -> bool.

(** [$1] and double quotes; a conflict on the key is told what to do. *)
Definition postgresql_grammar : Grammar := {|
  g_quote := "034"%char; g_reserved := reserved;
  g_hole n := Key (match n with 1 => "$1" | _ => "$2" end)%string;
  g_insert := [Key "INSERT"];
  g_upsert := [Key "ON"; Key "CONFLICT"; Sign "("; Name; Sign ")"; Key "DO"; Key "UPDATE"; Key "SET"; Name; Sign "="; Key "EXCLUDED"; Sign "."; Name] |}.
(** [?] in the order of the values; a row with the key of the new one is updated. *)
Definition mysql_grammar : Grammar := {|
  g_quote := "`"%char; g_reserved := reserved; g_hole _ := Sign "?";
  g_insert := [Key "INSERT"];
  g_upsert := [Key "ON"; Key "DUPLICATE"; Key "KEY"; Key "UPDATE"; Name; Sign "="; Key "VALUES"; Sign "("; Name; Sign ")"] |}.
(** [INSERT OR REPLACE] deletes the row with the key first. *)
Definition sqlite_grammar : Grammar := {|
  g_quote := "`"%char; g_reserved := reserved;
  g_hole n := Key (match n with 1 => "$1" | _ => "$2" end)%string;
  g_insert := [Key "INSERT"; Key "OR"; Key "REPLACE"]; g_upsert := [] |}.
End Databases.

(** ** Reading a text piece by piece *)

(** The tokens of a text made of literals, quoted names and plain words. *)
Lemma lex_between q s ts : scan q Between s = (ts, Between) -> lex q s = Some ts.
Proof. unfold lex. by intros ->. Qed.
Lemma lex_in_word q s ts w : scan q Between s = (ts, InWord w) -> lex q s = Some (ts ++ [TWord w]).
Proof. unfold lex. by intros ->. Qed.
Lemma lex_name_end q s ts w : scan q Between s = (ts, NameEnd w) -> lex q s = Some (ts ++ [TName w]).
Proof. unfold lex. by intros ->. Qed.

Ltac scan_piece :=
  lazymatch goal with
  | |- scan _ _ (_ :: _ ++ [_]) = _ => apply scan_name; assumption
  | H : scan _ _ ?v = _ |- scan _ _ ?v = _ => exact H
  | H : plain ?v = true |- scan _ _ ?v = _ =>
      apply scan_word; [reflexivity | exact (proj1 (plain_words v H)) | exact (proj2 (plain_words v H))]
  | |- _ => vm_compute; reflexivity
  end.
Ltac scan_text :=
  lazymatch goal with
  | |- scan _ _ (_ ++ _) = _ => eapply scan_app; [scan_piece|scan_text]
  | |- _ => scan_piece
  end.
Ltac lex_text := first [eapply lex_between; scan_text | eapply lex_in_word; scan_text | eapply lex_name_end; scan_text].
Lemma agree_one x : agree x [VName x] = true.
Proof. unfold agree. cbn [forallb]. by rewrite bool_decide_eq_true_2. Qed.
Lemma agree_two x : agree x [VName x; VName x] = true.
Proof. unfold agree. cbn [forallb]. by rewrite bool_decide_eq_true_2. Qed.

(** The forms are tried on tokens that are known, but for the names. *)
Ltac parse_known :=
  lazy -[plain parse_u64 agree];
  repeat (match goal with
          | |- context [agree _ _] => first [rewrite agree_two | rewrite agree_one]
          | H : plain ?s = true |- context [plain ?s] => rewrite H
          | H : ?f ?s = false |- context [?f ?s] => rewrite H
          | H : parse_u64 ?s = Some _ |- context [parse_u64 ?s] => rewrite H
          end; lazy -[plain parse_u64 agree]);
  try reflexivity.
