(* ===== verification/Sql.v ===== *)
(** * SQL services ([services/postgresql], [services/mysql], [services/sqlite], [services/surrealdb])

    Objects are rows of a table with a key and a value column.  The cores build
    the text of their statements and run it through [sqlx] or [surrealdb], which
    are classes.  What the database promises is about statements as [SqlText]
    reads them; that the texts of the services are read as what they are meant to
    be is proved here.  PostgreSQL,
    MySQL and SurrealDB have the backend of the key-value services; MySQL lists
    with [LIKE]; sqlite reads ranges with [SUBSTR] and knows directories. *)

From S2P Require Import Prelude Errors Path Range Buffer Types Access Listers Deleters Readers Memory Streams Text Uris Kv KvServices KvMongo KvFamily SqlText.
From stdpp Require Import sorting options.

(** ** Statements *)

Record SqlNames : Type := mkNames { sn_table : str; sn_key_field : str; sn_value_field : str }.

(** [sqlx::Error]. *)
Inductive SqlxError : Type :=
  | SxDatabase (code : option str) (message : str)
  | SxOther (message : str).
Definition show_sqlx (e : SqlxError) : str := match e with SxDatabase _ m | SxOther m => m end.

Inductive SqlBind : Type := BindText (s : str) | BindBytes (v : bytes).

(** A pool of connections, with the database behind it. *)
Class Sqlx (D : Type) : Type := {
  (** [Pool::connect_with]. *)
  sx_connect : str -> M D SqlxError unit;
  (** [parse::<ConnectOptions>]: the options in a printed form. *)
  sx_options : str -> outcome SqlxError str;
  (** [query_scalar(sql).bind(key).fetch_optional]. *)
  sx_fetch_value : str -> str -> M D SqlxError (option bytes);
  (** [query_as(sql).bind(key).fetch_optional] of a value and a number. *)
  sx_fetch_pair : str -> str -> M D SqlxError (option (bytes * Z));
  (** [query_scalar(sql).bind(pattern).fetch_all] of texts. *)
  sx_fetch_texts : str -> str -> M D SqlxError (list str);
  (** [query_scalar(sql).bind(pattern).fetch_one] of a number. *)
  sx_fetch_count : str -> str -> M D SqlxError Z;
  (** [query(sql).bind(..).execute]. *)
  sx_execute : str -> list SqlBind -> M D SqlxError unit;
}.

Definition wrapped (q : ascii) (s : str) : str := q :: s ++ [q].
Definition dq : ascii := "034"%char.
Definition bq : ascii := "`"%char.
(** A line break in a literal and the spaces that follow it. *)
Definition line (indent : nat) : str := "010"%char :: replicate indent " "%char.

(** The statements of a service. *)
Record SqlDialect : Type := mkDialect {
  dl_get : SqlNames -> str; dl_set : SqlNames -> str; dl_delete : SqlNames -> str;
  dl_error : SqlxError -> Error;
}.

Definition parse_postgres_error (err : SqlxError) : Error :=
  set_source (show_sqlx err) (error Unexpected "unhandled error from postgresql").
(** The identifiers of [DELETE] are not quoted. *)
Definition postgresql : SqlDialect := {|
  dl_get n := b "SELECT " ++ wrapped dq (sn_value_field n) ++ b " FROM " ++ wrapped dq (sn_table n) ++
    b " WHERE " ++ wrapped dq (sn_key_field n) ++ b " = $1 LIMIT 1";
  dl_set n := b "INSERT INTO " ++ wrapped dq (sn_table n) ++ b " (" ++ wrapped dq (sn_key_field n) ++ b ", " ++
    wrapped dq (sn_value_field n) ++ b ")" ++ line 16 ++ b "VALUES ($1, $2)" ++ line 16 ++ b "ON CONFLICT (" ++
    wrapped dq (sn_key_field n) ++ b ")" ++ line 20 ++ b "DO UPDATE SET " ++ wrapped dq (sn_value_field n) ++
    b " = EXCLUDED." ++ wrapped dq (sn_value_field n);
  dl_delete n := b "DELETE FROM " ++ sn_table n ++ b " WHERE " ++ sn_key_field n ++ b " = $1";
  dl_error := parse_postgres_error |}.

Definition parse_mysql_error (err : SqlxError) : Error :=
  set_source (show_sqlx err) (error Unexpected "unhandled error from mysql").
(** Nor is the column in [VALUES()]. *)
Definition mysql : SqlDialect := {|
  dl_get n := b "SELECT " ++ wrapped bq (sn_value_field n) ++ b " FROM " ++ wrapped bq (sn_table n) ++
    b " WHERE " ++ wrapped bq (sn_key_field n) ++ b " = ? LIMIT 1";
  dl_set n := b "INSERT INTO " ++ wrapped bq (sn_table n) ++ b " (" ++ wrapped bq (sn_key_field n) ++ b ", " ++
    wrapped bq (sn_value_field n) ++ b ") VALUES (?, ?)" ++ line 12 ++ b "ON DUPLICATE KEY UPDATE " ++
    wrapped bq (sn_value_field n) ++ b " = VALUES(" ++ sn_value_field n ++ b ")";
  dl_delete n := b "DELETE FROM " ++ wrapped bq (sn_table n) ++ b " WHERE " ++ wrapped bq (sn_key_field n) ++ b " = ?";
  dl_error := parse_mysql_error |}.
Definition mysql_list_sql (n : SqlNames) : str :=
  b "SELECT " ++ wrapped bq (sn_key_field n) ++ b " FROM " ++ wrapped bq (sn_table n) ++ b " WHERE " ++
  wrapped bq (sn_key_field n) ++ b " LIKE ?" ++ b " ORDER BY " ++ wrapped bq (sn_key_field n).

(** Locked and busy databases may be tried again. *)
Definition parse_sqlite_error (err : SqlxError) : Error :=
  let is_temporary :=
    match err with
    | SxDatabase (Some c) _ => bool_decide (c = b "5") || bool_decide (c = b "6")
    | _ => false
    end in
  let message := if is_temporary then "database is locked or busy"%string else "unhandled error from sqlite"%string in
  let e := set_source (show_sqlx err) (error Unexpected message) in
  if is_temporary then set_temporary e else e.
Definition sqlite : SqlDialect := {|
  dl_get n := b "SELECT " ++ wrapped bq (sn_value_field n) ++ b " FROM " ++ wrapped bq (sn_table n) ++
    b " WHERE " ++ wrapped bq (sn_key_field n) ++ b " = $1 LIMIT 1";
  dl_set n := b "INSERT OR REPLACE INTO " ++ wrapped bq (sn_table n) ++ b " (" ++ wrapped bq (sn_key_field n) ++ b ", " ++
    wrapped bq (sn_value_field n) ++ b ") VALUES ($1, $2)";
  dl_delete n := b "DELETE FROM " ++ wrapped bq (sn_table n) ++ b " WHERE " ++ wrapped bq (sn_key_field n) ++ b " = $1";
  dl_error := parse_sqlite_error |}.

(** ** The cores *)

(** [OnceCell] of the pool: whether it has been connected. *)
Record SqlCore (dl : SqlDialect) (D : Type) : Type := mkSqlCore {
  sq_connected : bool; sq_config : str; sq_names : SqlNames; sq_db : D;
}.
Arguments mkSqlCore {dl D}.
Arguments sq_connected {dl D}.
Arguments sq_config {dl D}.
Arguments sq_names {dl D}.
Arguments sq_db {dl D}.

Section Cores.
  Context {dl : SqlDialect} {D : Type} `{Sqlx D}.

Definition on_sql {X} (m : M D SqlxError X) : M (SqlCore dl D) Error X :=
  zoom sq_db (fun d c => mkSqlCore (sq_connected c) (sq_config c) (sq_names c) d) (err_of (dl_error dl) m).

(** [get_or_try_init]: a connection that fails is tried again by the next call. *)
Definition sql_get_client : M (SqlCore dl D) Error unit :=
  c ← get;
  if sq_connected c then mret tt
  else on_sql (sx_connect (sq_config c));; modify (fun c => mkSqlCore true (sq_config c) (sq_names c) (sq_db c)).

Definition sql_get (path : str) : M (SqlCore dl D) Error (option Buffer) :=
  sql_get_client;;
  c ← get;
  value ← on_sql (sx_fetch_value (dl_get dl (sq_names c)) path);
  mret (buffer_of value).
Definition sql_set (path : str) (value : Buffer) : M (SqlCore dl D) Error unit :=
  sql_get_client;;
  c ← get;
  on_sql (sx_execute (dl_set dl (sq_names c)) [BindText path; BindBytes (contents value)]).
Definition sql_delete (path : str) : M (SqlCore dl D) Error unit :=
  sql_get_client;;
  c ← get;
  on_sql (sx_execute (dl_delete dl (sq_names c)) [BindText path]).

#[global] Instance sql_core : KvCore (SqlCore dl D) := {| kv_get := sql_get; kv_set := sql_set; kv_delete := sql_delete |}.
End Cores.

(** ** The builders *)

Record SqlConfig : Type := mkSqlConfig {
  sc_root : option str; sc_connection_string : option str; sc_table : option str;
  sc_key_field : option str; sc_value_field : option str;
}.
(** The setters ignore an empty argument; an empty root resets it. *)
Definition given (v : str) (old : option str) : option str := if bool_decide (v = []) then old else Some v.
Definition sql_connection_string (v : str) (c : SqlConfig) : SqlConfig :=
  mkSqlConfig (sc_root c) (given v (sc_connection_string c)) (sc_table c) (sc_key_field c) (sc_value_field c).
Definition sql_root (v : str) (c : SqlConfig) : SqlConfig :=
  mkSqlConfig (given v None) (sc_connection_string c) (sc_table c) (sc_key_field c) (sc_value_field c).
Definition sql_table (v : str) (c : SqlConfig) : SqlConfig :=
  mkSqlConfig (sc_root c) (sc_connection_string c) (given v (sc_table c)) (sc_key_field c) (sc_value_field c).
Definition sql_key_field (v : str) (c : SqlConfig) : SqlConfig :=
  mkSqlConfig (sc_root c) (sc_connection_string c) (sc_table c) (given v (sc_key_field c)) (sc_value_field c).
Definition sql_value_field (v : str) (c : SqlConfig) : SqlConfig :=
  mkSqlConfig (sc_root c) (sc_connection_string c) (sc_table c) (sc_key_field c) (given v (sc_value_field c)).

Section Builders.
  Context {D : Type} `{Sqlx D}.
  Variable scheme : str.
  Variable no_connection_string : string.

(** The core and the root. *)
Definition sql_build (dl : SqlDialect) (config : SqlConfig) (db : D) : result (SqlCore dl D * str) :=
  let invalid (message : string) := with_context (b "service") scheme (error ConfigInvalid message) in
  conn ← ok_or (invalid no_connection_string) (sc_connection_string config);
  options ← map_err (fun err => set_source (show_sqlx err) (invalid "connection_string is invalid")) (sx_options conn);
  table ← ok_or (invalid "table is empty") (sc_table config);
  let key_field := default (b "key") (sc_key_field config) in
  let value_field := default (b "value") (sc_value_field config) in
  let root := normalize_root (default [slash] (sc_root config)) in
  Ok (mkSqlCore false options (mkNames table key_field value_field) db, root).
End Builders.

(** *** postgresql and mysql *)

Section Postgresql.
  Context {D : Type} `{Sqlx D}.

Definition postgresql_build : SqlConfig -> D -> result (SqlCore postgresql D * str) :=
  sql_build (b "postgresql") "connection_string is empty" postgresql.
Definition postgresql_Write : Write (KvBackend (SqlCore postgresql D) * KvWriter) := KvWriter_Write.
Definition postgresql_delete_once : str -> str -> OpDelete -> M (KvBackend (SqlCore postgresql D)) Error unit := kv_delete_once.
Definition postgresql_Delete : Types.Delete (KvBackend (SqlCore postgresql D) * KvDeleter) := kv_deleter postgresql_delete_once.
Definition postgresql_new (core : SqlCore postgresql D) : KvBackend (SqlCore postgresql D) :=
  mkKv (kv_info (b "postgresql") (sn_table (sq_names core)) (kv_capability false false false false true)) core.
Definition postgresql_access (root : str) : Access (KvBackend (SqlCore postgresql D)) Buffer KvWriter unit KvDeleter unit :=
  kv_access "kv not found in postgresql" root.
End Postgresql.

Definition backslash : ascii := "\"%char.
(** The loop over the characters; only ASCII ones are special. *)
Definition escape_char (ch : ascii) : str :=
  if bool_decide (ch = backslash) then [backslash; backslash]
  else if bool_decide (ch = "%"%char) || bool_decide (ch = "_"%char) then [backslash; ch]
  else [ch].
Definition escape_like (s : str) : str := concat (escape_char <$> s).

Record MysqlLister : Type := mkMysqlLister { my_root : str; my_entries : list str }.
#[export] Instance MysqlLister_List : List MysqlLister := fun s =>
  match my_entries s with
  | key :: rest =>
      (path ← build_rel_path (my_root s) key;
       let path := if bool_decide (path = []) then [slash] else path in
       Ok (Some (entry_new path (meta_new (from_path path)))),
       mkMysqlLister (my_root s) rest)
  | [] => (Ok None, s)
  end.

Section Mysql.
  Context {D : Type} `{Sqlx D}.

Definition mysql_build : SqlConfig -> D -> result (SqlCore mysql D * str) :=
  sql_build (b "mysql") "connection_string is empty" mysql.
Definition mysql_list (path : str) : M (SqlCore mysql D) Error (list str) :=
  sql_get_client;;
  c ← get;
  on_sql (sx_fetch_texts (mysql_list_sql (sq_names c)) (escape_like path ++ b "%")).

Definition mysql_Write : Write (KvBackend (SqlCore mysql D) * KvWriter) := KvWriter_Write.
Definition mysql_delete_once : str -> str -> OpDelete -> M (KvBackend (SqlCore mysql D)) Error unit := kv_delete_once.
Definition mysql_Delete : Types.Delete (KvBackend (SqlCore mysql D) * KvDeleter) := kv_deleter mysql_delete_once.
Definition mysql_new (core : SqlCore mysql D) : KvBackend (SqlCore mysql D) :=
  mkKv (kv_info (b "mysql") (sn_table (sq_names core)) (kv_capability true true false false true)) core.

Definition mysql_lister_new (root path : str) : M (KvBackend (SqlCore mysql D)) Error MysqlLister :=
  p ← lift (build_abs_path root path);
  entries ← on_core (mysql_list p);
  mret (mkMysqlLister root entries).
Definition mysql_list_dir (root path : str) (args : OpList) : M (KvBackend (SqlCore mysql D)) Error (HierarchyLister MysqlLister) :=
  lister ← mysql_lister_new root path;
  mret (hierarchy_new lister path (list_recursive args)).
Definition mysql_access (root : str)
  : Access (KvBackend (SqlCore mysql D)) Buffer KvWriter (HierarchyLister MysqlLister) KvDeleter unit :=
  let missing := "kv not found in mysql"%string in
  {| a_info := kb_info; a_create_dir _ := throw not_supported;
     a_stat := kv_stat missing root; a_read := kv_read missing root; a_write := kv_write root;
     a_delete := mret (mkKvDeleter root); a_list := mysql_list_dir root;
     a_copy _ _ _ _ := throw not_supported; a_rename _ _ := throw not_supported |}.
End Mysql.

(** *** sqlite *)

(** [{}] of an [isize]. *)
Definition show_isize (n : Z) : str := if bool_decide (n < 0)%Z then "-"%char :: show_u64 (- n) else show_u64 n.

Definition sqlite_range_sql (n : SqlNames) (start limit : Z) : str :=
  b "SELECT SUBSTR(" ++ wrapped bq (sn_value_field n) ++ b ", " ++ show_isize (wrap_i64 (start + 1)) ++ b ", " ++
  show_isize limit ++ b "), LENGTH(" ++ wrapped bq (sn_value_field n) ++ b ") FROM " ++ wrapped bq (sn_table n) ++
  b " WHERE " ++ wrapped bq (sn_key_field n) ++ b " = $1 LIMIT 1".
Definition sqlite_count_sql (n : SqlNames) : str :=
  b "SELECT COUNT(*) FROM " ++ wrapped bq (sn_table n) ++ b " WHERE " ++ wrapped bq (sn_key_field n) ++ b " LIKE $1 LIMIT 1".

Section Sqlite.
  Context {D : Type} `{Sqlx D}.

Definition sqlite_build : SqlConfig -> D -> result (SqlCore sqlite D * str) :=
  sql_build (b "sqlite") "connection_string is required but not set" sqlite.

Definition sqlite_get_range (path : str) (start limit : Z) : M (SqlCore sqlite D) Error (option (Buffer * Z)) :=
  sql_get_client;;
  c ← get;
  value ← on_sql (sx_fetch_pair (sqlite_range_sql (sq_names c) start limit) path);
  mret (match value with Some (bs, size) => Some (from_bytes bs, size) | None => None end).
(** The number of keys below a directory; its path is the pattern as it is. *)
Definition sqlite_count (dir_path : str) : M (SqlCore sqlite D) Error Z :=
  c ← get;
  sql_get_client;;
  on_sql (sx_fetch_count (sqlite_count_sql (sq_names c)) (dir_path ++ b "%")).

Definition sqlite_Write : Write (KvBackend (SqlCore sqlite D) * KvWriter) := KvWriter_Write.
Definition sqlite_delete_once : str -> str -> OpDelete -> M (KvBackend (SqlCore sqlite D)) Error unit := kv_delete_once.
Definition sqlite_Delete : Types.Delete (KvBackend (SqlCore sqlite D) * KvDeleter) := kv_deleter sqlite_delete_once.
Definition sqlite_new (core : SqlCore sqlite D) : KvBackend (SqlCore sqlite D) :=
  mkKv (kv_info (b "sqlite") (sn_table (sq_names core)) (kv_capability false false true false false)) core.

  Variable root : str.
Definition sqlite_not_found : Error := error NotFound "key not found in sqlite".
Definition as_dir (p : str) : str := if ends_with [slash] p then p else p ++ [slash].

Definition sqlite_stat (path : str) (_ : OpStat) : M (KvBackend (SqlCore sqlite D)) Error Metadata :=
  p ← lift (build_abs_path root path);
  r ← lift (build_abs_path root []);
  if bool_decide (p = r) then mret (meta_new DIR)
  else
    bs ← on_core (sql_get p);
    match bs with
    | Some bs => mret (set_content_length (Z.of_nat (blen bs)) (meta_new (from_path p)))
    | None =>
        count ← on_core (sqlite_count (as_dir p));
        if bool_decide (0 < count)%Z then mret (meta_new DIR) else throw sqlite_not_found
    end.

Definition sqlite_read (path : str) (args : OpRead) : M (KvBackend (SqlCore sqlite D)) Error (option Metadata * Buffer) :=
  p ← lift (build_abs_path root path);
  let range := read_range args in
  '(buffer, content_length) ←
    (if is_full range then
       r ← on_core (sql_get p);
       match r with
       | Some bs => mret (bs, Z.of_nat (blen bs))
       | None => throw sqlite_not_found
       end
     else
       let start := as_i64 (Range.offset range) in
       let limit := match Range.size range with Some size => as_i64 size | None => (-1)%Z end in
       r ← on_core (sqlite_get_range p start limit);
       match r with
       | Some (bs, content_length) => mret (bs, wrap64 content_length)
       | None => throw sqlite_not_found
       end);
  mret (Some (set_content_length content_length (meta_new FILE)), buffer).

Definition sqlite_create_dir (path : str) : M (KvBackend (SqlCore sqlite D)) Error unit :=
  p ← lift (build_abs_path root path);
  on_core (sql_set (as_dir p) Buffer.new).

Definition sqlite_access : Access (KvBackend (SqlCore sqlite D)) Buffer KvWriter unit KvDeleter unit :=
  {| a_info := kb_info; a_create_dir := sqlite_create_dir;
     a_stat := sqlite_stat; a_read := sqlite_read; a_write := kv_write root;
     a_delete := mret (mkKvDeleter root); a_list _ _ := throw not_supported;
     a_copy _ _ _ _ := throw not_supported; a_rename _ _ := throw not_supported |}.
End Sqlite.

(** *** surrealdb *)

(** The connection and its queries, with the values bound by name. *)
Class SurrealCrate (D : Type) : Type := {
  su_connect : str -> M D str unit;
  su_signin : str -> str -> str -> str -> M D str unit;
  su_use : str -> str -> M D str unit;
  (** [query(..).await]: an error of the statement itself is in the response. *)
  su_query : str -> list (str * SqlBind) -> M D str (outcome str unit);
  (** [query(..)] and [take((0, field))]. *)
  su_take : str -> list (str * SqlBind) -> str -> M D str (option bytes);
}.

Record SurrealdbCore (D : Type) : Type := mkSurreal {
  su_connected : bool; su_connection_string : str; su_username : str; su_password : str;
  su_namespace : str; su_database : str; su_names : SqlNames; su_db : D;
}.
Arguments mkSurreal {D}.
Arguments su_connected {D}.
Arguments su_connection_string {D}.
Arguments su_username {D}.
Arguments su_password {D}.
Arguments su_namespace {D}.
Arguments su_database {D}.
Arguments su_names {D}.
Arguments su_db {D}.

Definition parse_surrealdb_error (err : str) : Error := set_source err (error Unexpected "unhandled error from surrealdb").
Definition surreal_get_sql (n : SqlNames) : str :=
  if bool_decide (sn_key_field n = b "id") then b "SELECT type::field($value_field) FROM type::thing($table, $path)"
  else b "SELECT type::field($value_field) FROM type::table($table) WHERE " ++ sn_key_field n ++ b " = $path LIMIT 1".
Definition surreal_set_sql (n : SqlNames) : str :=
  b "INSERT INTO " ++ sn_table n ++ b " (" ++ sn_key_field n ++ b ", " ++ sn_value_field n ++ b ") " ++
  b "VALUES ($path, $value) " ++ b "ON DUPLICATE KEY UPDATE " ++ sn_value_field n ++ b " = $value".
Definition surreal_delete_sql (n : SqlNames) : str :=
  if bool_decide (sn_key_field n = b "id") then b "DELETE FROM type::thing($table, $path)"
  else b "DELETE FROM type::table($table) WHERE " ++ sn_key_field n ++ b " = $path".

Section Surreal.
  Context {D : Type} `{SurrealCrate D}.

Definition on_surreal {X} (m : M D str X) : M (SurrealdbCore D) Error X :=
  zoom su_db (fun d c => mkSurreal (su_connected c) (su_connection_string c) (su_username c) (su_password c)
                           (su_namespace c) (su_database c) (su_names c) d)
    (err_of parse_surrealdb_error m).
Definition surreal_connection : M (SurrealdbCore D) Error unit :=
  c ← get;
  if su_connected c then mret tt
  else
    on_surreal (su_connect (su_connection_string c));;
    (if negb (bool_decide (su_username c = [])) && negb (bool_decide (su_password c = []))
     then on_surreal (su_signin (su_namespace c) (su_database c) (su_username c) (su_password c)) else mret tt);;
    on_surreal (su_use (su_namespace c) (su_database c));;
    modify (fun c => mkSurreal true (su_connection_string c) (su_username c) (su_password c)
                       (su_namespace c) (su_database c) (su_names c) (su_db c)).

Definition surreal_get (path : str) : M (SurrealdbCore D) Error (option Buffer) :=
  surreal_connection;;
  c ← get;
  value ← on_surreal (su_take (surreal_get_sql (su_names c))
    [(b "namespace", BindText (b "opendal")); (b "path", BindText path); (b "table", BindText (sn_table (su_names c)));
     (b "value_field", BindText (sn_value_field (su_names c)))] (sn_value_field (su_names c)));
  mret (buffer_of value).
Definition surreal_set (path : str) (value : Buffer) : M (SurrealdbCore D) Error unit :=
  surreal_connection;;
  c ← get;
  on_surreal (su_query (surreal_set_sql (su_names c)) [(b "path", BindText path); (b "value", BindBytes (contents value))]);;
  mret tt.
Definition surreal_delete (path : str) : M (SurrealdbCore D) Error unit :=
  surreal_connection;;
  c ← get;
  on_surreal (su_query (surreal_delete_sql (su_names c)) [(b "path", BindText path); (b "table", BindText (sn_table (su_names c)))]);;
  mret tt.

#[global] Instance surreal_core : KvCore (SurrealdbCore D) :=
  {| kv_get := surreal_get; kv_set := surreal_set; kv_delete := surreal_delete |}.
Definition surreal_Write : Write (KvBackend (SurrealdbCore D) * KvWriter) := KvWriter_Write.
Definition surreal_delete_once : str -> str -> OpDelete -> M (KvBackend (SurrealdbCore D)) Error unit := kv_delete_once.
Definition surreal_Delete : Types.Delete (KvBackend (SurrealdbCore D) * KvDeleter) := kv_deleter surreal_delete_once.
Definition surreal_new (core : SurrealdbCore D) : KvBackend (SurrealdbCore D) :=
  mkKv (kv_info (b "surrealdb") (sn_table (su_names core)) (kv_capability false false false false true)) core.
Definition surreal_access (root : str) : Access (KvBackend (SurrealdbCore D)) Buffer KvWriter unit KvDeleter unit :=
  kv_access "kv not found in surrealdb" root.

Definition surreal_build (connection_string namespace database : option str) (username password : option str)
    (config : SqlConfig) (db : D) : result (SurrealdbCore D * str) :=
  let invalid (message : string) := with_context (b "service") (b "surrealdb") (error ConfigInvalid message) in
  connection_string ← ok_or (invalid "connection_string is empty") connection_string;
  namespace ← ok_or (invalid "namespace is empty") namespace;
  database ← ok_or (invalid "database is empty") database;
  table ← ok_or (invalid "table is empty") (sc_table config);
  let username := default [] username in
  let password := default [] password in
  let key_field := default (b "key") (sc_key_field config) in
  let value_field := default (b "value") (sc_value_field config) in
  let root := normalize_root (default [slash] (sc_root config)) in
  Ok (mkSurreal false connection_string username password namespace database (mkNames table key_field value_field) db, root).
End Surreal.

(** ** What the statements mean *)

(** [LIKE]: [%] stands for any text, [_] for one character, and an escape
    character for the next one; characters are compared after [fold]. *)
Definition is_cont (c : ascii) : bool := bool_decide (128 <= N_of_ascii c < 192)%N.
Fixpoint skip_cont (s : str) : str := match s with c :: t => if is_cont c then skip_cont t else s | [] => [] end.
Fixpoint suffix_any (f : str -> bool) (s : str) : bool :=
  f s || match s with [] => false | _ :: s => suffix_any f s end.
Fixpoint like (esc : bool) (fold : ascii -> ascii) (pat s : str) : bool :=
  match pat with
  | [] => bool_decide (s = [])
  | c :: p =>
      if bool_decide (c = "%"%char) then suffix_any (like esc fold p) s
      else if bool_decide (c = "_"%char) then match s with _ :: s => like esc fold p (skip_cont s) | [] => false end
      else if esc && bool_decide (c = backslash) then
        match p, s with
        | d :: p, x :: s => bool_decide (fold x = fold d) && like esc fold p s
        | _, _ => false
        end
      else match s with x :: s => bool_decide (fold x = fold c) && like esc fold p s | [] => false end
  end.
Definition lower (c : ascii) : ascii :=
  let n := N_of_ascii c in if bool_decide (65 <= n <= 90)%N then ascii_of_N (n + 32) else c.
(** MySQL, with a key column that compares bytes. *)
Definition mysql_like : str -> str -> bool := like true id.
(** sqlite: no escape character unless the statement names one, and ASCII letters
    in either case. *)
Definition sqlite_like : str -> str -> bool := like false lower.

(** sqlite's [SUBSTR] of a blob from the byte [y], counted from 1: [z] bytes from
    there on, or when [z] is negative the [-z] bytes before it. *)
Definition substr (v : bytes) (y z : Z) : bytes :=
  if bool_decide (0 <= z)%Z then take (Z.to_nat z) (drop (Z.to_nat (y - 1)) v)
  else take (Z.to_nat (Z.min (- z) (y - 1))) (drop (Z.to_nat (y - 1 + z)) v).

(** The names each service may be given: what it quotes has no quote in it, what it
    does not quote may stand without. *)
Section Names.
  Variable reserved : str -> bool.
Definition postgresql_names (n : SqlNames) : Prop :=
  plain (sn_table n) = true /\ plain (sn_key_field n) = true /\ reserved (sn_table n) = false /\ reserved (sn_key_field n) = false /\
  (dq ∉ sn_table n) /\ (dq ∉ sn_key_field n) /\ (dq ∉ sn_value_field n).
Definition mysql_names (n : SqlNames) : Prop :=
  (bq ∉ sn_table n) /\ (bq ∉ sn_key_field n) /\ (bq ∉ sn_value_field n) /\ plain (sn_value_field n) = true /\
  reserved (sn_value_field n) = false.
Definition sqlite_names (n : SqlNames) : Prop := (bq ∉ sn_table n) /\ (bq ∉ sn_key_field n) /\ (bq ∉ sn_value_field n).
End Names.

(** *** The statements of the services, read *)

(** A service speaks to a database when its statements are read as what they are
    meant to be. *)
Class Speaks (dl : SqlDialect) (g : Grammar) (names_ok : SqlNames -> Prop) : Prop := {
  speaks_get n : names_ok n -> sql_parse g (dl_get dl n) = Some (SGet (sn_table n) (sn_key_field n) (sn_value_field n));
  speaks_set n : names_ok n -> sql_parse g (dl_set dl n) = Some (SPut (sn_table n) (sn_key_field n) (sn_value_field n));
  speaks_delete n : names_ok n -> sql_parse g (dl_delete dl n) = Some (SDelete (sn_table n) (sn_key_field n));
}.

Lemma sql_parse_lex g sql ts stmt : lex (g_quote g) sql = Some ts -> parse_tokens g ts = Some stmt -> sql_parse g sql = Some stmt.
Proof. unfold sql_parse. by intros ->. Qed.
Ltac read_statement :=
  eapply sql_parse_lex;
  [cbn [g_quote postgresql_grammar mysql_grammar sqlite_grammar dl_get dl_set dl_delete postgresql mysql sqlite
        sn_table sn_key_field sn_value_field]; unfold wrapped, line; lex_text
  | parse_known].

#[export] Instance postgresql_speaks reserved : Speaks postgresql (postgresql_grammar reserved) (postgresql_names reserved).
Proof. split; intros [t k v] (Ht & Hk & Hrt & Hrk & Hqt & Hqk & Hqv); cbn [sn_table sn_key_field sn_value_field] in *; read_statement. Qed.
#[export] Instance mysql_speaks reserved : Speaks mysql (mysql_grammar reserved) (mysql_names reserved).
Proof. split; intros [t k v] (Hqt & Hqk & Hqv & Hv & Hrv); cbn [sn_table sn_key_field sn_value_field] in *; read_statement. Qed.
#[export] Instance sqlite_speaks reserved : Speaks sqlite (sqlite_grammar reserved) sqlite_names.
Proof. split; intros [t k v] (Hqt & Hqk & Hqv); cbn [sn_table sn_key_field sn_value_field] in *; read_statement. Qed.

Lemma mysql_list_read reserved n :
  mysql_names reserved n -> sql_parse (mysql_grammar reserved) (mysql_list_sql n) = Some (SList (sn_table n) (sn_key_field n)).
Proof. destruct n as [t k v]. intros (Hqt & Hqk & _). cbn [sn_table sn_key_field sn_value_field] in *. unfold mysql_list_sql. read_statement. Qed.
Lemma sqlite_count_read reserved n :
  sqlite_names n -> sql_parse (sqlite_grammar reserved) (sqlite_count_sql n) = Some (SCount (sn_table n) (sn_key_field n)).
Proof. destruct n as [t k v]. intros (Hqt & Hqk & _). cbn [sn_table sn_key_field sn_value_field] in *. unfold sqlite_count_sql. read_statement. Qed.

Lemma show_u64_words n : forallb word_char (show_u64 n) = true.
Proof.
  apply forallb_forall. intros c Hc%list_elem_of_In. destruct (digit_value c) as [d|] eqn:E.
  - revert E. clear. destruct c as [[] [] [] [] [] [] [] []]; vm_compute; done.
  - by apply (show_u64_no_sep n) in E.
Qed.
Lemma scan_u64 n : scan bq Between (show_u64 n) = ([], InWord (show_u64 n)).
Proof. apply scan_word; [done | apply show_u64_not_nil | apply show_u64_words]. Qed.

(** The two numbers of a range: a start that is positive, a length that may be -1. *)
Lemma sqlite_range_read reserved n start limit :
  sqlite_names n -> (0 <= start < i64_max)%Z -> (-1 <= limit <= i64_max)%Z ->
  sql_parse (sqlite_grammar reserved) (sqlite_range_sql n start limit) =
    Some (SRange (sn_table n) (sn_key_field n) (sn_value_field n) (start + 1) limit).
Proof.
  destruct n as [t k v]. intros (Hqt & Hqk & Hqv) Hs Hl. cbn [sn_table sn_key_field sn_value_field] in *.
  unfold sqlite_range_sql. cbn [sn_table sn_key_field sn_value_field].
  assert (wrap_i64 (start + 1) = (start + 1)%Z) as ->.
  { rewrite wrap_i64_small by (unfold i64_max in *; lia). unfold as_i64. rewrite bool_decide_eq_true_2; [done | lia]. }
  assert (show_isize (start + 1) = show_u64 (start + 1)) as -> by (unfold show_isize; by rewrite bool_decide_eq_false_2 by lia).
  assert (parse_u64 (show_u64 (start + 1)) = Some (start + 1)%Z) as Hy
    by (apply parse_show_u64; unfold is_u64, u64_max, i64_max in *; lia).
  pose proof (scan_u64 (start + 1)) as Hsy. revert Hy Hsy. generalize (show_u64 (start + 1)). intros y Hy Hsy.
  unfold show_isize. case_bool_decide as Hneg.
  - assert (limit = (-1)%Z) as -> by lia. change (show_u64 (- -1)) with (b "1").
    assert (parse_u64 (b "1") = Some 1%Z) as Hz by reflexivity. change (b "1") with (["1"%char] : str) in Hz.
    read_statement.
  - assert (parse_u64 (show_u64 limit) = Some limit) as Hz
      by (apply parse_show_u64; unfold is_u64, u64_max, i64_max in *; lia).
    pose proof (scan_u64 limit) as Hsz. revert Hz Hsz. generalize (show_u64 limit). intros z Hz Hsz. read_statement.
Qed.

(** *** What the databases promise *)

(** A database with such a table, whose key column is unique and compares bytes:
    what statements that can be read do.  A failed one may have been done. *)
Class SqlLaws (g : Grammar) (D : Type) `{Sqlx D} : Type := {
  sq_rows : SqlNames -> D -> table;
  sx_connect_law config n d : let '(r, d') := sx_connect config d in sq_rows n d' = sq_rows n d /\ r <> Panic;
  sx_get_law n sql k d :
    sql_parse g sql = Some (SGet (sn_table n) (sn_key_field n) (sn_value_field n)) ->
    let '(r, d') := sx_fetch_value sql k d in
    sq_rows n d' = sq_rows n d /\ match r with Ok v => v = sq_rows n d !! k | Err _ => True | Panic => False end;
  sx_set_law n sql k v d :
    sql_parse g sql = Some (SPut (sn_table n) (sn_key_field n) (sn_value_field n)) ->
    let '(r, d') := sx_execute sql [BindText k; BindBytes v] d in
    match r with
    | Ok _ => sq_rows n d' = <[k := v]> (sq_rows n d)
    | Err _ => same_but k (sq_rows n d) (sq_rows n d')
    | Panic => False
    end;
  sx_delete_law n sql k d :
    sql_parse g sql = Some (SDelete (sn_table n) (sn_key_field n)) ->
    let '(r, d') := sx_execute sql [BindText k] d in
    match r with
    | Ok _ => sq_rows n d' = delete k (sq_rows n d)
    | Err _ => same_but k (sq_rows n d) (sq_rows n d')
    | Panic => False
    end;
}.
Class MysqlLaws (reserved : str -> bool) (D : Type) `{SqlLaws (mysql_grammar reserved) D} : Prop := sx_list_law n sql pat d :
  sql_parse (mysql_grammar reserved) sql = Some (SList (sn_table n) (sn_key_field n)) ->
  let '(r, d') := sx_fetch_texts sql pat d in
  sq_rows n d' = sq_rows n d /\
  match r with Ok ks => ks = filter (fun k => mysql_like pat k = true) (keys_of (sq_rows n d)) | Err _ => True | Panic => False end.
Class SqliteLaws (reserved : str -> bool) (D : Type) `{SqlLaws (sqlite_grammar reserved) D} : Prop := {
  sx_range_law n sql y z k d :
    sql_parse (sqlite_grammar reserved) sql = Some (SRange (sn_table n) (sn_key_field n) (sn_value_field n) y z) ->
    (1 <= y)%Z ->
    let '(r, d') := sx_fetch_pair sql k d in
    sq_rows n d' = sq_rows n d /\
    match r with
    | Ok v => v = (fun v => (substr v y z, Z.of_nat (length v))) <$> (sq_rows n d !! k)
    | Err _ => True
    | Panic => False
    end;
  sx_count_law n sql pat d :
    sql_parse (sqlite_grammar reserved) sql = Some (SCount (sn_table n) (sn_key_field n)) ->
    let '(r, d') := sx_fetch_count sql pat d in
    sq_rows n d' = sq_rows n d /\
    match r with
    | Ok c => c = Z.of_nat (length (filter (fun k => sqlite_like pat k = true) (keys_of (sq_rows n d))))
    | Err _ => True
    | Panic => False
    end;
}.

Lemma starts_with_step c p s :
  starts_with (c :: p) s = match s with x :: s => bool_decide (x = c) && starts_with p s | [] => false end.
Proof.
  apply eq_bool_prop_intro. rewrite !Is_true_true, starts_with_true. destruct s as [|x s]; [naive_solver|].
  rewrite andb_true_iff, starts_with_true, bool_decide_eq_true. naive_solver.
Qed.

(** The escaped path followed by [%] is the pattern of a prefix. *)
Lemma like_prefix p s : mysql_like (escape_like p ++ b "%") s = starts_with p s.
Proof.
  unfold mysql_like. revert s. induction p as [|c p IH]; intros s.
  - simpl. induction s as [|x s IHs]; [done|]. simpl. simpl in IHs. exact IHs.
  - rewrite starts_with_step. unfold escape_like. rewrite fmap_cons. simpl. rewrite <- app_assoc. fold (escape_like p).
    unfold escape_char. case_bool_decide as Hb.
    { subst c. simpl. destruct s as [|x s]; [done|]. by rewrite IH. }
    case_bool_decide as Hp; simpl.
    { subst c. destruct s as [|x s]; [done|]. by rewrite IH. }
    case_bool_decide as Hu; simpl.
    { subst c. destruct s as [|x s]; [done|]. by rewrite IH. }
    rewrite !bool_decide_eq_false_2 by done. destruct s as [|x s]; [done|]. by rewrite IH.
Qed.

(** ** The services are maps *)

Section SqlMap.
  Context {dl : SqlDialect} {g : Grammar} {names_ok : SqlNames -> Prop} {D : Type} `{!Speaks dl g names_ok} `{SqlLaws g D}.

Lemma sql_client_keeps (c : SqlCore dl D) :
  let '(r, c') := sql_get_client c in
  sq_names c' = sq_names c /\ sq_rows (sq_names c) (sq_db c') = sq_rows (sq_names c) (sq_db c) /\
  match r with Ok _ => True | Err e => exists err, e = dl_error dl err | Panic => False end.
Proof.
  unfold sql_get_client, on_sql. run_core. destruct (sq_connected c); [done|].
  pose proof (sx_connect_law (sq_config c) (sq_names c) (sq_db c)) as Hl.
  destruct (sx_connect (sq_config c) (sq_db c)) as [[[]|e|] d]; simpl; destruct Hl; by eauto.
Qed.

(** A statement run after the connection is there. *)
Lemma sql_client_then {X} (m : M (SqlCore dl D) Error X) (P : table -> result X -> table -> Prop) c :
  (forall c1, sq_names c1 = sq_names c -> sq_rows (sq_names c) (sq_db c1) = sq_rows (sq_names c) (sq_db c) ->
    let '(r, c') := m c1 in sq_names c' = sq_names c /\ P (sq_rows (sq_names c) (sq_db c1)) r (sq_rows (sq_names c) (sq_db c'))) ->
  (forall t err, P t (Err (dl_error dl err)) t) ->
  let '(r, c') := (sql_get_client;; m) c in
  sq_names c' = sq_names c /\ P (sq_rows (sq_names c) (sq_db c)) r (sq_rows (sq_names c) (sq_db c')).
Proof.
  intros Hm He. unfold mbind, M_bind. pose proof (sql_client_keeps c) as Hk. destruct (sql_get_client c) as [[[]|e|] c1].
  - destruct Hk as (Hn & Hr & _). rewrite <- Hr. by apply Hm.
  - destruct Hk as (Hn & -> & err & ->). split; [done|]. apply He.
  - by destruct Hk as (_ & _ & ?).
Qed.

#[export] Instance sql_map : KvExact (SqlCore dl D).
Proof using All.
  refine {| ke_view c := sq_rows (sq_names c) (sq_db c); ke_ok c := names_ok (sq_names c) |}.
  - intros k c Hok. unfold kv_get, sql_core, sql_get.
    pose proof (sql_client_then (c ← get; value ← on_sql (sx_fetch_value (dl_get dl (sq_names c)) k); mret (buffer_of value))
      (fun t r t' => t' = t /\ match r with Ok (Some v) => wf v /\ t !! k = Some (contents v) | Ok None => t !! k = None | Err _ => True | Panic => False end) c) as Hl.
    destruct ((sql_get_client;; _) c) as [r c']. destruct Hl as (Hn & Hv & Hr); [|done|by rewrite Hn, Hv].
    intros c1 Hn1 _. unfold on_sql. run_core. rewrite Hn1. pose proof (sx_get_law (sq_names c) _ k (sq_db c1) (speaks_get _ Hok)) as Hg.
    destruct (sx_fetch_value _ _ _) as [r1 d1]. destruct Hg as [Hv Hr]. apply buffer_of_map in Hr. destruct r1; simpl; by rewrite ?Hn1.
  - intros k v c Hok Hv. unfold kv_set, sql_core, sql_set.
    pose proof (sql_client_then (c ← get; on_sql (sx_execute (dl_set dl (sq_names c)) [BindText k; BindBytes (contents v)]))
      (fun t r t' => match r with Ok _ => t' = <[k := contents v]> t | Err _ => same_but k t t' | Panic => False end) c) as Hl.
    destruct ((sql_get_client;; _) c) as [r c']. destruct Hl as (Hn & Hr); [|done|by rewrite Hn].
    intros c1 Hn1 _. unfold on_sql. run_core. rewrite Hn1. pose proof (sx_set_law (sq_names c) _ k (contents v) (sq_db c1) (speaks_set _ Hok)) as Hg.
    destruct (sx_execute _ _ _) as [r1 d1]. destruct r1; simpl; by rewrite ?Hn1.
  - intros k c Hok. unfold kv_delete, sql_core, sql_delete.
    pose proof (sql_client_then (c ← get; on_sql (sx_execute (dl_delete dl (sq_names c)) [BindText k]))
      (fun t r t' => match r with Ok _ => t' = delete k t | Err _ => same_but k t t' | Panic => False end) c) as Hl.
    destruct ((sql_get_client;; _) c) as [r c']. destruct Hl as (Hn & Hr); [|done|by rewrite Hn].
    intros c1 Hn1 _. unfold on_sql. run_core. rewrite Hn1. pose proof (sx_delete_law (sq_names c) _ k (sq_db c1) (speaks_delete _ Hok)) as Hg.
    destruct (sx_execute _ _ _) as [r1 d1]. destruct r1; simpl; by rewrite ?Hn1.
Defined.
End SqlMap.

(** A recursive listing on MySQL. *)
Definition key_entry (root k : str) : Entry :=
  let p := drop (length (tail root)) k in mkEntry p (meta_new (from_path p)).
Lemma mysql_lister_lists root ks path visited fuel :
  normalized_root root -> starts_char (tail root) -> Forall (object_key root) ks ->
  lists (hierarchy_next (S fuel)) (mkHierarchy (mkMysqlLister root ks) path visited true) (key_entry root <$> ks).
Proof.
  intros Hr Hrc. unfold lists. induction 1 as [|k ks Hk _ IH]; csimpl.
  - by eapply Lists_nil.
  - eapply Lists_cons; [|exact IH]. cbn [hierarchy_next h_lister h_path h_visited h_recursive].
    unfold list_next, MysqlLister_List. simpl. destruct Hk as (p & Hn & Hs & Hc & ->).
    destruct (rel_path_of_abs root p Hr Hrc Hn Hs Hc) as [Hrel _]. rewrite (kv_abs root Hr Hrc) in Hrel.
    unfold kv_key in Hrel. rewrite bool_decide_eq_false_2 in Hrel by done. simpl in Hrel. rewrite Hrel. simpl.
    unfold key_entry. rewrite drop_app_length. destruct (normalized_no_lead p Hn Hs) as (x & q & -> & _).
    by rewrite bool_decide_eq_false_2 by done.
Qed.

Lemma key_entries (root prefix : str) (m : table) :
  map_Forall (fun k _ => object_key root k) m ->
  let ks := filter (fun k : str => starts_with prefix k = true) (keys_of m) in
  Forall (object_key root) ks /\ NoDup (e_path <$> (key_entry root <$> ks)) /\
  (forall p, p ∈ e_path <$> (key_entry root <$> ks) <->
    is_Some (m !! (tail root ++ p)) /\ starts_with prefix (tail root ++ p) = true).
Proof.
  intros Hkeys ks. assert (forall k, k ∈ ks <-> is_Some (m !! k) /\ starts_with prefix k = true) as Hel.
  { intros k. unfold ks. rewrite list_elem_of_filter, elem_keys_of. tauto. }
  assert (Forall (object_key root) ks) as Hall.
  { apply Forall_forall. intros k [[d Hd] _]%Hel. by apply (Hkeys k d). }
  assert (forall k, k ∈ ks -> tail root ++ e_path (key_entry root k) = k) as Hp.
  { intros k Hk. rewrite Forall_forall in Hall. destruct (Hall k Hk) as (p & _ & _ & _ & ->). simpl. by rewrite drop_app_length. }
  split; [done|]. split.
  - apply (NoDup_fmap_1 (tail root ++.)). rewrite <- !list_fmap_compose.
    rewrite (list_fmap_ext _ id ks), list_fmap_id; [|intros i k Hk%list_elem_of_lookup_2; by apply Hp].
    unfold ks. apply NoDup_filter. unfold keys_of. rewrite merge_sort_Permutation. apply NoDup_elements.
  - intros p. split.
    + intros (e & -> & (k & -> & Hk)%list_elem_of_fmap)%list_elem_of_fmap. rewrite (Hp k Hk). by apply Hel.
    + intros Hk%Hel. assert (p = e_path (key_entry root (tail root ++ p))) as E by (apply (app_inv_head (tail root)); by rewrite Hp).
      rewrite E. by do 2 apply list_elem_of_fmap_2.
Qed.

Section MysqlList.
  Context {reserved : str -> bool} {D : Type} `{MysqlLaws reserved D}.

Lemma mysql_list_keys path (c : SqlCore mysql D) :
  ke_ok c ->
  let '(r, c') := mysql_list path c in
  ke_ok c' /\ ke_view c' = ke_view c /\
  match r with
  | Ok ks => ks = filter (fun k => starts_with path k = true) (keys_of (ke_view c))
  | Err _ => True
  | Panic => False
  end.
Proof using All.
  intros Hok. unfold mysql_list.
  pose proof (sql_client_then (c ← get; on_sql (sx_fetch_texts (mysql_list_sql (sq_names c)) (escape_like path ++ b "%")))
    (fun t r t' => t' = t /\ match r with Ok ks => ks = filter (fun k => starts_with path k = true) (keys_of t) | Err _ => True | Panic => False end) c) as Hl.
  destruct ((sql_get_client;; _) c) as [r c']. destruct Hl as (Hn & Hv & Hr); [|done|unfold ke_ok, ke_view in *; simpl in *; by rewrite Hn, Hv].
  intros c1 Hn1 _. unfold on_sql. run_core. rewrite Hn1.
  pose proof (sx_list_law (sq_names c) _ (escape_like path ++ b "%") (sq_db c1) (mysql_list_read reserved _ Hok)) as Hg.
  destruct (sx_fetch_texts _ _ _) as [r1 d1]. destruct Hg as [Hv Hr].
  destruct r1 as [ks|e|]; simpl; rewrite ?Hn1; split_and!; try done. subst ks. clear Hv.
  apply list_filter_iff. intros k. by rewrite like_prefix.
Qed.
End MysqlList.

Section Services.
  Context {reserved : str -> bool} {PD MD : Type}.
  Context `{SqlLaws (postgresql_grammar reserved) PD} `{MysqlLaws reserved MD}.
  Variable root : str.
  Hypothesis root_ok : normalized_root root.
  Hypothesis root_char : starts_char (tail root).

(** C21.  The PostgreSQL and MySQL services are maps from paths to bytes.  The texts
    of their statements are read, by a grammar that does not know them, as the
    lookup, the upsert and the deletion of one row, for names that may be written
    the way the statements write them; over any database that does what such
    statements say, and whose key column is unique and compares bytes, every
    history of writes, ranged reads, stats and deletes is one of a map, also when
    the connection or a statement fails at any call. *)
Theorem sql_services_refine_map :
  refines_map postgresql_Write postgresql_Delete "kv not found in postgresql" root (postgresql_access (D := PD) root) /\
  refines_map mysql_Write mysql_Delete "kv not found in mysql" root (mysql_access (D := MD) root).
Proof using All. split; intros cs s; by apply kv_like_refines. Qed.

(** Listing on MySQL: whatever characters the path holds, the escaped
    pattern selects exactly the keys below it, and the recursive listing has each
    of them once, with its mode. *)
Theorem mysql_lists_prefix path args fuel (s : KvBackend (SqlCore mysql MD)) :
  core_ok s -> list_recursive args = true -> map_Forall (fun k _ => object_key root k) (stored s) ->
  let '(r, s') := a_list (mysql_access root) path args s in
  core_ok s' /\ stored s' = stored s /\
  match r with
  | Ok l => exists es, lists (hierarchy_next (S fuel)) l es /\ NoDup (e_path <$> es) /\
      (forall p, p ∈ e_path <$> es <-> is_Some (stored s !! (tail root ++ p)) /\
        starts_with (kv_key root path) (tail root ++ p) = true) /\
      (forall e, e ∈ es -> e_meta e = meta_new (from_path (e_path e)))
  | Err _ => True
  | Panic => False
  end.
Proof using All.
  intros Hok Hrec Hkeys. unfold mysql_access, a_list, mysql_list_dir, mysql_lister_new, on_core. run_core.
  rewrite (kv_abs root root_ok root_char). simpl. pose proof (mysql_list_keys (kv_key root path) (kb_core s) Hok) as Hl.
  destruct (mysql_list (kv_key root path) (kb_core s)) as [r c']. destruct Hl as (Hok' & Hv & Hr).
  destruct r as [ks|e|]; simpl; [|done..]. split_and!; [done..|]. subst ks.
  destruct (key_entries root (kv_key root path) _ Hkeys) as (Hall & Hnd & Hin). eexists.
  split; [unfold hierarchy_new; rewrite Hrec; by apply mysql_lister_lists|]. split; [done|]. split; [done|].
  by intros e (k & -> & _)%list_elem_of_fmap.
Qed.

End Services.

(** ** sqlite *)

Section SqliteServes.
  Context {reserved : str -> bool} {D : Type} `{SqliteLaws reserved D}.
  Variable root : str.
  Hypothesis root_ok : normalized_root root.
  Hypothesis root_char : starts_char (tail root).

Definition sqlite_failure (e : Error) : Prop := exists err, e = parse_sqlite_error err.

Lemma sqlite_get_spec k (c : SqlCore sqlite D) :
  ke_ok c ->
  let '(r, c') := sql_get k c in
  ke_ok c' /\ ke_view c' = ke_view c /\
  match r with
  | Ok (Some v) => wf v /\ ke_view c !! k = Some (contents v)
  | Ok None => ke_view c !! k = None
  | Err e => sqlite_failure e
  | Panic => False
  end.
Proof using Type.
  intros Hok. pose proof (ke_get_law k c Hok) as Hl. unfold kv_get, sql_core in Hl.
  destruct (sql_get k c) as [[v|e|] c'] eqn:E; [done| |done]. destruct Hl as (? & ? & _). split; [done|]. split; [done|].
  revert E. unfold sql_get, sql_get_client, on_sql. run_core. unfold sqlite_failure.
  destruct (sq_connected c); simpl.
  - destruct (sx_fetch_value _ _ _) as [[]]; simpl; intros E; by simplify_eq; eauto.
  - destruct (sx_connect _ _) as [[]]; simpl; [|intros E; by simplify_eq; eauto..].
    destruct (sx_fetch_value _ _ _) as [[]]; simpl; intros E; by simplify_eq; eauto.
Qed.

Lemma sqlite_range_spec k start limit (c : SqlCore sqlite D) :
  ke_ok c -> (0 <= start < i64_max)%Z -> (-1 <= limit <= i64_max)%Z ->
  let '(r, c') := sqlite_get_range k start limit c in
  ke_ok c' /\ ke_view c' = ke_view c /\
  match r with
  | Ok (Some (v, n)) => wf v /\ exists data, ke_view c !! k = Some data /\ contents v = substr data (start + 1) limit /\ n = Z.of_nat (length data)
  | Ok None => ke_view c !! k = None
  | Err e => sqlite_failure e
  | Panic => False
  end.
Proof using Type*.
  intros Hok Hs Hli. unfold sqlite_get_range.
  pose proof (sql_client_then (c ← get; value ← on_sql (sx_fetch_pair (sqlite_range_sql (sq_names c) start limit) k);
      mret (match value with Some (bs, size) => Some (from_bytes bs, size) | None => None end))
    (fun t r t' => t' = t /\ match r with
      | Ok (Some (v, n)) => wf v /\ exists data, t !! k = Some data /\ contents v = substr data (start + 1) limit /\ n = Z.of_nat (length data)
      | Ok None => t !! k = None | Err e => sqlite_failure e | Panic => False end) c) as Hl.
  destruct ((sql_get_client;; _) c) as [r c'].
  destruct Hl as (Hn & Hv & Hr); [| |unfold ke_ok, ke_view in *; simpl in *; by rewrite Hn, Hv].
  - intros c1 Hn1 _. unfold on_sql. run_core. rewrite Hn1.
    pose proof (sx_range_law (sq_names c) _ _ _ k (sq_db c1) (sqlite_range_read reserved _ _ _ Hok Hs Hli) ltac:(lia)) as Hg.
    destruct (sx_fetch_pair _ _ _) as [r1 d1]. destruct Hg as [Hv Hr]. unfold sqlite_failure.
    destruct r1 as [v|e|]; simpl; rewrite ?Hn1; split_and!; try done; [|by eauto]. subst v.
    destruct (sq_rows (sq_names c) (sq_db c1) !! k) as [data|]; simpl; [|done]. split; [done|]. by exists data.
  - intros t err. unfold sqlite_failure. split; [done|]. by eauto.
Qed.

Lemma sqlite_count_spec dir (c : SqlCore sqlite D) :
  ke_ok c ->
  let '(r, c') := sqlite_count dir c in
  ke_ok c' /\ ke_view c' = ke_view c /\
  match r with
  | Ok n => (0 < n)%Z <-> exists k, is_Some (ke_view c !! k) /\ sqlite_like (dir ++ b "%") k = true
  | Err e => sqlite_failure e
  | Panic => False
  end.
Proof using Type*.
  intros Hok. unfold sqlite_count.
  pose proof (sql_client_then (on_sql (sx_fetch_count (sqlite_count_sql (sq_names c)) (dir ++ b "%")))
    (fun t r t' => t' = t /\ match r with
      | Ok n => (0 < n)%Z <-> exists k, is_Some (t !! k) /\ sqlite_like (dir ++ b "%") k = true
      | Err e => sqlite_failure e | Panic => False end) c) as Hl.
  unfold get at 1. unfold mbind at 1, M_bind at 1. 
  destruct ((sql_get_client;; _) c) as [r c'].
  destruct Hl as (Hn & Hv & Hr); [| |unfold ke_ok, ke_view in *; simpl in *; by rewrite Hn, Hv].
  - intros c1 Hn1 _. unfold on_sql. run_core.
    pose proof (sx_count_law (sq_names c) _ (dir ++ b "%") (sq_db c1) (sqlite_count_read reserved _ Hok)) as Hg.
    destruct (sx_fetch_count _ _ _) as [r1 d1]. destruct Hg as [Hv Hr]. unfold sqlite_failure.
    destruct r1 as [n|e|]; simpl; split_and!; try done; [|by eauto]. subst n. split.
    + intros Hn. set (l := filter _ _) in Hn. destruct l as [|k l'] eqn:E; [simpl in Hn; lia|]. exists k.
      assert (k ∈ filter (fun k : str => sqlite_like (dir ++ b "%") k = true) (keys_of (sq_rows (sq_names c) (sq_db c1)))) as Hk
        by (unfold l in E; rewrite E; constructor).
      apply list_elem_of_filter in Hk as [Hk Hin]. by apply elem_keys_of in Hin.
    + intros (k & Hin & Hk). apply elem_keys_of in Hin.
      assert (k ∈ filter (fun k : str => sqlite_like (dir ++ b "%") k = true) (keys_of (sq_rows (sq_names c) (sq_db c1)))) as Hf
        by (by apply list_elem_of_filter).
      destruct (filter _ _); [by apply not_elem_of_nil in Hf | simpl; lia].
  - intros t err. unfold sqlite_failure. split; [done|]. by eauto.
Qed.
(** Reading on sqlite: with the whole range or with a length, a read returns
    the bytes of the range that the object has, and the length of the object; it
    never panics, and it changes nothing.  With an open end it returns the byte
    before the offset: the statement says [-1] for the length, which sqlite reads
    as the one byte before. *)
Theorem sqlite_reads path args (s : KvBackend (SqlCore sqlite D)) :
  core_ok s -> map_Forall (fun _ v => Z.of_nat (length v) <= u64_max)%Z (stored s) ->
  (0 <= Range.offset (read_range args) < i64_max)%Z ->
  from_option (fun n => 0 <= n <= i64_max)%Z True (Range.size (read_range args)) ->
  let '(r, s') := a_read (sqlite_access root) path args s in
  core_ok s' /\ stored s' = stored s /\
  match r with
  | Ok (meta, buf) => exists data, stored s !! kv_key root path = Some data /\ wf buf /\
      (meta ≫= m_content_length) = Some (Z.of_nat (length data)) /\
      contents buf = if bool_decide (Range.size (read_range args) = None /\ Range.offset (read_range args) <> 0%Z)
                     then take 1 (drop (Z.to_nat (Range.offset (read_range args)) - 1) data)
                     else sub data (read_range args)
  | Err e => stored s !! kv_key root path = None /\ e = sqlite_not_found \/ sqlite_failure e
  | Panic => False
  end.
Proof using All.
  intros Hok Hlen Ho Hs. unfold sqlite_access, a_read, sqlite_read, on_core. run_core.
  rewrite (kv_abs root root_ok root_char). simpl. destruct (read_range args) as [off size]. simpl in *.
  unfold core_ok, stored in *. simpl in *. destruct (is_full (mkRange off size)) eqn:Efull.
  - unfold is_full in Efull. simpl in Efull. apply andb_true_iff in Efull as [->%bool_decide_eq_true ->%bool_decide_eq_true].
    pose proof (sqlite_get_spec (kv_key root path) (kb_core s) Hok) as Hl.
    destruct (sql_get (kv_key root path) (kb_core s)) as [r c']. destruct Hl as (Hok' & Hv & Hr).
    destruct r as [[v|]|e|]; simpl; split; try done; split; try done; [| by left | by right].
    destruct Hr as [Hw Hk]. exists (contents v). split; [done|]. split; [done|]. rewrite (contents_length v Hw).
    split; [done|]. done.
  - assert (as_i64 off = off) as -> by (unfold as_i64; rewrite bool_decide_eq_true_2; [done | lia]).
    set (limit := match size with Some _ => _ | None => _ end).
    assert (-1 <= limit <= i64_max)%Z as Hli.
    { unfold limit, as_i64. destruct size as [n|]; simpl in Hs; [rewrite bool_decide_eq_true_2 by lia; lia | done]. }
    pose proof (sqlite_range_spec (kv_key root path) off limit (kb_core s) Hok Ho Hli) as Hl.
    destruct (sqlite_get_range (kv_key root path) off limit (kb_core s)) as [r c']. destruct Hl as (Hok' & Hv & Hr).
    destruct r as [[[v n]|]|e|]; simpl; split; try done; split; try done; [| by left | by right].
    destruct Hr as (Hw & data & Hk & Hc & ->). exists data. split; [done|]. split; [done|]. split.
    { f_equal. pose proof (Hlen _ _ Hk) as Hl. simpl in Hl. unfold wrap64. apply Z.mod_small. lia. }
    rewrite Hc. unfold substr, sub, limit. simpl. rewrite Z.add_simpl_r. destruct size as [n|]; simpl in *.
    + unfold as_i64.
      rewrite (bool_decide_eq_true_2 (n <= i64_max)%Z), bool_decide_eq_true_2 by lia. done.
    + assert (off <> 0%Z) as Hne by (by intros ->).
      rewrite (bool_decide_eq_true_2 (_ /\ _)) by done. f_equal; [lia|]. f_equal. lia.
Qed.

(** Stat on sqlite: the root is a directory; an object is stated with its
    length; a path without an object is a directory exactly when some key matches
    the path, closed with a slash and read as a [LIKE] pattern, followed by
    anything; otherwise it is not found. *)
Theorem sqlite_stats path (s : KvBackend (SqlCore sqlite D)) :
  core_ok s ->
  let k := kv_key root path in
  let children := exists j, is_Some (stored s !! j) /\ sqlite_like (as_dir k ++ b "%") j = true in
  let '(r, s') := a_stat (sqlite_access root) path op_stat s in
  core_ok s' /\ stored s' = stored s /\
  match r with
  | Ok meta => k = tail root /\ meta = meta_new DIR \/
      (exists data, k <> tail root /\ stored s !! k = Some data /\
         meta = set_content_length (Z.of_nat (length data)) (meta_new (from_path k))) \/
      k <> tail root /\ stored s !! k = None /\ children /\ meta = meta_new DIR
  | Err e => k <> tail root /\ stored s !! k = None /\ ~ children /\ e = sqlite_not_found \/ sqlite_failure e
  | Panic => False
  end.
Proof using All.
  intros Hok k children. unfold sqlite_access, a_stat, sqlite_stat, on_core. run_core.
  rewrite (kv_abs root root_ok root_char), (kv_abs_nil root root_ok root_char). simpl. fold k.
  case_bool_decide as Hroot; [split_and!; by auto|].
  pose proof (sqlite_get_spec k (kb_core s) Hok) as Hl.
  destruct (sql_get k (kb_core s)) as [r c']. destruct Hl as (Hok' & Hv & Hr).
  unfold core_ok, stored in *. cbv [exact_map] in *. simpl kv_view in *. simpl kv_ok in *.
  destruct r as [[v|]|e|]; simpl; [|clear Hok|by split_and!; [| |right]|done].
  - destruct Hr as [Hw Hk]. split_and!; [done | done|]. right. left. exists (contents v). by rewrite (contents_length v Hw).
  - pose proof (sqlite_count_spec (as_dir k) c' Hok') as Hl. destruct (sqlite_count (as_dir k) c') as [r c'']. destruct Hl as (Hok'' & Hv' & Hr').
    rewrite Hv in Hv', Hr'. destruct r as [n|e|]; simpl; [|by split_and!; [| |right]|done].
    case_bool_decide as Hn; simpl; split; try done; split; try done.
    + right. right. split_and!; try done. by apply Hr'.
    + left. split_and!; try done. intros Hch. apply Hn, Hr', Hch.
Qed.
End SqliteServes.

(** ** A database with one table

    It reads its statements and does what they say; a statement it cannot read, or
    about another table or column, is an error.  Keys are compared after [fold]. *)
Record MapDb (g : Grammar) (fold : ascii -> ascii) : Type := mkDb { md_names : SqlNames; md_rows : table }.
Arguments mkDb {g fold}.
Arguments md_names {g fold}.
Arguments md_rows {g fold}.

Section MapDb.
  Context {g : Grammar} {fold : ascii -> ascii}.

Definition has_key (t k : str) (d : MapDb g fold) : bool :=
  bool_decide (t = sn_table (md_names d)) && bool_decide (k = sn_key_field (md_names d)).
Definition has_columns (t k v : str) (d : MapDb g fold) : bool :=
  has_key t k d && bool_decide (v = sn_value_field (md_names d)).
Definition folded (k : str) : str := fold <$> k.
Definition set_rows (m : table) (d : MapDb g fold) : MapDb g fold := mkDb (md_names d) m.
Definition refused {X} (d : MapDb g fold) : outcome SqlxError X * MapDb g fold := (Err (SxOther (b "syntax error or unknown name")), d).

#[export] Instance MapDb_sqlx : Sqlx (MapDb g fold) :=
  {| sx_connect _ d := (Ok tt, d); sx_options s := Ok s;
     sx_fetch_value sql k d :=
       match sql_parse g sql with
       | Some (SGet t k' v) => if has_columns t k' v d then (Ok (md_rows d !! folded k), d) else refused d
       | _ => refused d
       end;
     sx_fetch_pair sql k d :=
       match sql_parse g sql with
       | Some (SRange t k' v y z) =>
           if has_columns t k' v d then (Ok ((fun v => (substr v y z, Z.of_nat (length v))) <$> md_rows d !! folded k), d) else refused d
       | _ => refused d
       end;
     sx_fetch_texts sql pat d :=
       match sql_parse g sql with
       | Some (SList t k') => if has_key t k' d then (Ok (filter (fun k => mysql_like pat k = true) (keys_of (md_rows d))), d) else refused d
       | _ => refused d
       end;
     sx_fetch_count sql pat d :=
       match sql_parse g sql with
       | Some (SCount t k') =>
           if has_key t k' d
           then (Ok (Z.of_nat (length (filter (fun k => sqlite_like pat k = true) (keys_of (md_rows d))))), d) else refused d
       | _ => refused d
       end;
     sx_execute sql binds d :=
       match sql_parse g sql, binds with
       | Some (SPut t k' v'), [BindText k; BindBytes v] =>
           if has_columns t k' v' d then (Ok tt, set_rows (<[folded k := v]> (md_rows d)) d) else refused d
       | Some (SDelete t k'), [BindText k] =>
           if has_key t k' d then (Ok tt, set_rows (delete (folded k) (md_rows d)) d) else refused d
       | _, _ => refused d
       end |}.
(** The rows of the table with these names. *)
Definition db_rows (n : SqlNames) (d : MapDb g fold) : table :=
  if has_key (sn_table n) (sn_key_field n) d then md_rows d else ∅.
End MapDb.

(** With a key column that compares bytes it keeps the promises. *)
Lemma folded_id k : folded (fold := id) k = k.
Proof. apply list_fmap_id. Qed.
Lemma has_key_set {g fold} t k m (d : MapDb g fold) : has_key t k (set_rows m d) = has_key t k d.
Proof. done. Qed.
(** The cases of a statement: about this table, its columns, or refused. *)
Ltac db_cases :=
  unfold has_columns, refused, db_rows;
  match goal with d : MapDb _ _ |- _ => destruct (has_key _ _ d) eqn:?; cbn [andb]; [try case_bool_decide|] end;
  rewrite ?folded_id, ?has_key_set; repeat match goal with E : has_key _ _ _ = _ |- _ => rewrite E; clear E end; try done.
#[export] Instance MapDb_laws g : SqlLaws g (MapDb g id).
Proof.
  refine {| sq_rows := db_rows |}.
  - done.
  - intros n sql k d E. unfold sx_fetch_value, MapDb_sqlx. rewrite E. db_cases.
  - intros n sql k v d E. unfold sx_execute, MapDb_sqlx. rewrite E. db_cases.
  - intros n sql k d E. unfold sx_execute, MapDb_sqlx. rewrite E. db_cases.
Defined.
#[export] Instance MapDb_mysql reserved : MysqlLaws reserved (MapDb (mysql_grammar reserved) id).
Proof. intros n sql pat d E. unfold sx_fetch_texts, MapDb_sqlx. rewrite E. simpl. db_cases. Qed.
#[export] Instance MapDb_sqlite reserved : SqliteLaws reserved (MapDb (sqlite_grammar reserved) id).
Proof.
  split.
  - intros n sql y z k d E _. unfold sx_fetch_pair, MapDb_sqlx. rewrite E. simpl. db_cases.
  - intros n sql pat d E. unfold sx_fetch_count, MapDb_sqlx. rewrite E. simpl. db_cases.
Qed.

(** Some of the words that must be quoted. *)
Definition sql_words (s : str) : bool :=
  bool_decide (s ∈ b <$> ["select"; "from"; "where"; "table"; "order"; "group"; "user"; "limit"; "values"; "insert"; "update"; "delete"])%string.
Abbreviation PgDb := (MapDb (postgresql_grammar sql_words) id).
Abbreviation MyDb := (MapDb (mysql_grammar sql_words) id).
Abbreviation LiteDb := (MapDb (sqlite_grammar sql_words) id).

(** ** Witnesses *)

Definition files : SqlNames := mkNames (b "files") (b "key") (b "value").
Definition sample_rows : table := {[ b "d/a_1" := [x01; x02; x03]; b "d/ab1/x" := [] ]}.
Definition sql_sample (dl : SqlDialect) {g fold} : SqlCore dl (MapDb g fold) :=
  mkSqlCore false (b "db") files (mkDb files sample_rows).

Lemma d_root : normalized_root (b "/d/").
Proof. apply (root_dir [b "d"]); [done|]. repeat constructor; [done|]. apply (bool_decide_unpack _). vm_compute. exact I. Defined.

Lemma sql_services_refine_map_witness :
  (kv_run (mysql_access (D := MyDb) (b "/d/")) [KDelete (b "a_1"); KStat (b "a_1")] (mysql_new (sql_sample mysql))).1
    = [(KDelete (b "a_1"), ADelete (Ok tt)); (KStat (b "a_1"), AStat (Err (error NotFound "kv not found in mysql")))] /\
  postgresql_names sql_words files /\
  refines_map postgresql_Write postgresql_Delete "kv not found in postgresql" (b "/d/") (postgresql_access (D := PgDb) (b "/d/")) /\
  refines_map mysql_Write mysql_Delete "kv not found in mysql" (b "/d/") (mysql_access (D := MyDb) (b "/d/")).
Proof.
  split; [vm_compute; reflexivity|]. split.
  - split_and!; try done; apply (bool_decide_unpack _); vm_compute; exact I.
  - exact (sql_services_refine_map (reserved := sql_words) (PD := PgDb) (MD := MyDb) (b "/d/") d_root eq_refl).
Defined.

Lemma sample_keys : map_Forall (fun k _ => object_key (b "/d/") k) sample_rows.
Proof.
  unfold sample_rows. intros k v. rewrite lookup_insert_Some, lookup_singleton_Some. intros [[<- _]|[_ [<- _]]].
  - exists (b "a_1"). split; [exact (normalized_path (b "a_1"))|]. done.
  - exists (b "ab1/x"). split; [exact (normalized_path (b "ab1/x"))|]. done.
Qed.
Lemma sample_names : mysql_names sql_words files.
Proof. split_and!; [apply (bool_decide_unpack _); vm_compute; exact I.. | done | done]. Qed.

Lemma mysql_lists_prefix_witness :
  let s := mysql_new (sql_sample mysql) in
  let '(r, s') := a_list (mysql_access (D := MyDb) (b "/d/")) (b "a_") (list_with_recursive true op_list) s in
  core_ok s' /\ stored s' = stored s /\
  match r with
  | Ok l => exists es, lists (hierarchy_next 1) l es /\ NoDup (e_path <$> es) /\
      (forall p, p ∈ e_path <$> es <-> is_Some (stored s !! (tail (b "/d/") ++ p)) /\ starts_with (kv_key (b "/d/") (b "a_")) (tail (b "/d/") ++ p) = true) /\
      (forall e, e ∈ es -> e_meta e = meta_new (from_path (e_path e)))
  | Err _ => True
  | Panic => False
  end.
Proof.
  exact (mysql_lists_prefix (reserved := sql_words) (MD := MyDb) (PD := PgDb) (b "/d/") d_root eq_refl (b "a_") (list_with_recursive true op_list) 0
    (mysql_new (sql_sample mysql)) sample_names eq_refl sample_keys).
Defined.
(** What that listing finds: the underscore is no wildcard. *)
Example mysql_escaped_listing :
  (fun l => my_entries (h_lister l)) <$> (a_list (mysql_access (D := MyDb) (b "/d/")) (b "a_") op_list (mysql_new (sql_sample mysql))).1
    = Ok [b "d/a_1"].
Proof. vm_compute. reflexivity. Qed.

Lemma sample_core_ok : core_ok (sqlite_new (sql_sample sqlite : SqlCore sqlite LiteDb)).
Proof. split_and!; apply (bool_decide_unpack _); vm_compute; exact I. Defined.

Lemma sqlite_reads_witness :
  let s := sqlite_new (sql_sample sqlite) in
  let args := read_with_range (mkRange 1 (Some 9%Z)) op_read in
  let '(r, s') := a_read (sqlite_access (D := LiteDb) (b "/d/")) (b "a_1") args s in
  core_ok s' /\ stored s' = stored s /\
  match r with
  | Ok (meta, buf) => exists data, stored s !! kv_key (b "/d/") (b "a_1") = Some data /\ wf buf /\
      (meta ≫= m_content_length) = Some (Z.of_nat (length data)) /\
      contents buf = if bool_decide (Range.size (read_range args) = None /\ Range.offset (read_range args) <> 0%Z)
                     then take 1 (drop (Z.to_nat (Range.offset (read_range args)) - 1) data)
                     else sub data (read_range args)
  | Err e => stored s !! kv_key (b "/d/") (b "a_1") = None /\ e = sqlite_not_found \/ sqlite_failure e
  | Panic => False
  end.
Proof.
  apply (sqlite_reads (reserved := sql_words) (D := LiteDb) (b "/d/") d_root eq_refl (b "a_1") _ (sqlite_new (sql_sample sqlite)) sample_core_ok).
  - change (stored _) with sample_rows. unfold sample_rows. intros k v. rewrite lookup_insert_Some, lookup_singleton_Some. intros [[_ <-]|[_ [_ <-]]]; vm_compute; discriminate.
  - vm_compute. split; [discriminate | reflexivity].
  - vm_compute. split; discriminate.
Defined.

Lemma sqlite_stats_witness :
  let s := sqlite_new (sql_sample sqlite) in
  let k := kv_key (b "/d/") (b "ab1") in
  let children := exists j, is_Some (stored s !! j) /\ sqlite_like (as_dir k ++ b "%") j = true in
  let '(r, s') := a_stat (sqlite_access (D := LiteDb) (b "/d/")) (b "ab1") op_stat s in
  core_ok s' /\ stored s' = stored s /\
  match r with
  | Ok meta => k = tail (b "/d/") /\ meta = meta_new DIR \/
      (exists data, k <> tail (b "/d/") /\ stored s !! k = Some data /\
         meta = set_content_length (Z.of_nat (length data)) (meta_new (from_path k))) \/
      k <> tail (b "/d/") /\ stored s !! k = None /\ children /\ meta = meta_new DIR
  | Err e => k <> tail (b "/d/") /\ stored s !! k = None /\ ~ children /\ e = sqlite_not_found \/ sqlite_failure e
  | Panic => False
  end.
Proof. exact (sqlite_stats (reserved := sql_words) (D := LiteDb) (b "/d/") d_root eq_refl (b "ab1") (sqlite_new (sql_sample sqlite)) sample_core_ok). Defined.

(** ** What goes wrong *)

(** A key column of MySQL that does not compare bytes, as the default collation of
    a text column ignores the case of letters, makes one object of two: what is
    written to ["A"] is read at ["a"], where nothing was written, and the next
    write to ["a"] replaces it. *)
Theorem mysql_collation_conflates :
  let put path v s := (put_session (mysql_access (D := MapDb (mysql_grammar sql_words) lower) (b "/d/")) path [Contiguous v] s).2 in
  let get path s := option_map contents (option_map snd
    (match (a_read (mysql_access (D := MapDb (mysql_grammar sql_words) lower) (b "/d/")) path op_read s).1 with Ok x => Some x | _ => None end)) in
  let s1 := put (b "A") [x01] (mysql_new (sql_sample mysql)) in
  let s2 := put (b "a") [x02] s1 in
  get (b "a") s1 = Some [x01] /\ get (b "A") s2 = Some [x02].
Proof. vm_compute. done. Qed.

(** From the byte 1 on, of the bytes 1, 2 and 3: the byte 1. *)
Theorem sqlite_open_range_wrong :
  (a_read (sqlite_access (D := LiteDb) (b "/d/")) (b "a_1") (read_with_range (mkRange 1 None) op_read) (sqlite_new (sql_sample sqlite))).1
    = Ok (Some (set_content_length 3 (meta_new FILE)), Contiguous [x01]).
Proof. vm_compute. reflexivity. Qed.

(** The path is a pattern: ["A_1"], below which nothing is stored, is a directory
    because of ["ab1/x"]. *)
Theorem sqlite_stat_pattern :
  (a_stat (sqlite_access (D := LiteDb) (b "/d/")) (b "A_1") op_stat (sqlite_new (sql_sample sqlite))).1 = Ok (meta_new DIR).
Proof. vm_compute. reflexivity. Qed.

(** An unquoted name is folded to lower case: [DELETE] names another table than
    [SELECT] and [INSERT] when the name has a capital. *)
Theorem postgresql_delete_unquoted :
  dl_get postgresql (mkNames (b "Files") (b "key") (b "value"))
    = b "SELECT " ++ wrapped dq (b "value") ++ b " FROM " ++ wrapped dq (b "Files") ++ b " WHERE " ++ wrapped dq (b "key") ++ b " = $1 LIMIT 1" /\
  dl_delete postgresql (mkNames (b "Files") (b "key") (b "value")) = b "DELETE FROM Files WHERE key = $1" /\
  sql_parse (postgresql_grammar sql_words) (dl_get postgresql (mkNames (b "Files") (b "key") (b "value")))
    = Some (SGet (b "Files") (b "key") (b "value")) /\
  sql_parse (postgresql_grammar sql_words) (dl_delete postgresql (mkNames (b "Files") (b "key") (b "value"))) = None.
Proof. vm_compute. done. Qed.

(** A server whose statements fail, in the response to the query. *)
#[local] Instance FailingSurreal : SurrealCrate table :=
  {| su_connect _ d := (Ok tt, d); su_signin _ _ _ _ d := (Ok tt, d); su_use _ _ d := (Ok tt, d);
     su_query _ _ d := (Ok (Err (b "the table is read-only")), d); su_take _ _ _ d := (Ok None, d) |}.
(** The response is not looked at: a write whose statement failed succeeds. *)
Theorem surreal_failed_write_is_ok :
  let s := surreal_new (mkSurreal false (b "ws") [] [] (b "ns") (b "db") files (∅ : table)) in
  let '(r, s') := put_session (surreal_access (b "/d/")) (b "a") [Contiguous [x01]] s in
  r = Ok (set_content_length 1 (meta_new FILE)) /\ su_db (kb_core s') = ∅.
Proof. vm_compute. done. Qed.
