(* ===== verification/Caches.v ===== *)
(** * In-process caches ([services/dashmap], [services/moka], [services/mini_moka])

    Three services keep objects with their metadata in a concurrent map of a
    crate: [dashmap], which keeps everything, and the caches [moka] and
    [mini_moka], which may drop entries.  Their backends differ in how they read
    ranges, state paths and list. *)

From S2P Require Import Prelude Errors Path Range Buffer Types Access Listers Deleters Readers Memory Text Kv KvServices.
From stdpp Require Import sorting options.

(** [DashmapValue], [MokaValue] and [MiniMokaValue]. *)
Record CacheValue : Type := mkCached { cv_metadata : Metadata; cv_content : Buffer }.
Abbreviation vmap := (gmap (list ascii) CacheValue).

(** The calls of the crates: [get], [insert], [remove] or [invalidate], and [iter]. *)
Class CacheCrate (C : Type) : Type := {
  cc_get : str -> C -> option CacheValue * C;
  cc_insert : str -> CacheValue -> C -> C;
  cc_invalidate : str -> C -> C;
  cc_iter : C -> list (str * CacheValue);
}.

Record CacheBackend (C : Type) : Type := mkCacheB { cb_info : AccessorInfo; cb_core : C }.
Arguments mkCacheB {C}.
Arguments cb_info {C}.
Arguments cb_core {C}.
Record CacheWriter : Type := mkCacheW { cw_path : str; cw_op : OpWrite; cw_buf : QueueBuf }.
Definition cache_writer_new (path : str) (op : OpWrite) : CacheWriter := mkCacheW path op [].
Record CacheDeleter : Type := mkCacheD { cd_root : str }.

(** [if let Some(v) = .. { meta.set(v) }]. *)
Definition set_opt {A} (set : A -> Metadata -> Metadata) (v : option A) (m : Metadata) : Metadata :=
  match v with Some v => set v m | None => m end.
Definition dashmap_meta (now : Z) (path : str) (op : OpWrite) (len : Z) : Metadata :=
  let meta := set_last_modified now (set_content_length len (meta_new (from_path path))) in
  let meta := set_opt set_content_type (write_content_type op) meta in
  let meta := set_opt set_content_disposition (write_content_disposition op) meta in
  let meta := set_opt set_cache_control (write_cache_control op) meta in
  set_opt set_content_encoding (write_content_encoding op) meta.
Definition moka_meta (path : str) (op : OpWrite) (len : Z) : Metadata :=
  let meta := set_content_length len (meta_new (from_path path)) in
  let meta := set_opt set_content_type (write_content_type op) meta in
  let meta := set_opt set_content_disposition (write_content_disposition op) meta in
  let meta := set_opt set_cache_control (write_cache_control op) meta in
  set_opt set_content_encoding (write_content_encoding op) meta.
Definition mini_moka_meta (now : Z) (path : str) (op : OpWrite) (len : Z) : Metadata :=
  let meta := set_last_modified now (set_content_length len (meta_new (from_path path))) in
  let meta := set_opt set_content_type (write_content_type op) meta in
  let meta := set_opt set_content_disposition (write_content_disposition op) meta in
  let meta := set_opt set_content_encoding (write_content_encoding op) meta in
  set_opt set_cache_control (write_cache_control op) meta.

(** What a service returns of a value for a range.  The sum of offset and size is
    computed in [u64]. *)
Definition clip_slice (content : Buffer) (r : BytesRange) : result Buffer :=
  if is_full r then Ok content
  else
    let len := Z.of_nat (blen content) in
    let end_ := match Range.size r with Some size => wrap64 (Range.offset r + size) | None => len end in
    slice content (Included (Range.offset r)) (Excluded (Z.min end_ len)).
Definition range_not_satisfied : Error := error RangeNotSatisfied "range start offset exceeds content length".
Definition checked_slice (content : Buffer) (r : BytesRange) : result Buffer :=
  if is_full r then Ok content
  else
    let len := Z.of_nat (blen content) in
    if bool_decide (len <= Range.offset r)%Z then Err range_not_satisfied
    else
      let end_ := match Range.size r with Some size => Z.min (wrap64 (Range.offset r + size)) len | None => len end in
      slice content (Included (Range.offset r)) (Excluded end_).

Section Service.
  Context {C : Type} `{CacheCrate C}.

Definition on_cache {X} (f : C -> X * C) : M (CacheBackend C) Error X := fun s =>
  let '(x, c) := f (cb_core s) in (Ok x, mkCacheB (cb_info s) c).
Definition cache_get (key : str) : M (CacheBackend C) Error (option CacheValue) := on_cache (cc_get key).
Definition cache_set (key : str) (value : CacheValue) : M (CacheBackend C) Error unit := on_cache (fun c => (tt, cc_insert key value c)).
Definition cache_delete (key : str) : M (CacheBackend C) Error unit := on_cache (fun c => (tt, cc_invalidate key c)).

Definition cache_write_buf (bs : Buffer) : M (CacheBackend C * CacheWriter) Error unit :=
  modify (fun '(s, w) => (s, mkCacheW (cw_path w) (cw_op w) (qpush (cw_buf w) bs))).
Definition cache_close (mk : str -> OpWrite -> Z -> Metadata) : M (CacheBackend C * CacheWriter) Error Metadata :=
  '(_, w) ← get;
  content ← lift (qcollect (cw_buf w));
  let meta := mk (cw_path w) (cw_op w) (Z.of_nat (blen content)) in
  zoom fst (fun s x => (s, x.2)) (cache_set (cw_path w) (mkCached meta content));;
  mret meta.
Definition cache_abort : M (CacheBackend C * CacheWriter) Error unit :=
  modify (fun '(s, w) => (s, mkCacheW (cw_path w) (cw_op w) (qclear (cw_buf w)))).
Definition cache_Write (mk : str -> OpWrite -> Z -> Metadata) : Write (CacheBackend C * CacheWriter) :=
  {| w_write := cache_write_buf; w_close := cache_close mk; w_abort := cache_abort |}.

Definition cache_delete_once (root path : str) (_ : OpDelete) : M (CacheBackend C) Error unit :=
  p ← lift (build_abs_path root path);
  cache_delete p.
#[global] Instance cache_Delete : Types.Delete (CacheBackend C * CacheDeleter) :=
  {| d_delete path args x :=
       zoom (fun x => mkOneShotDeleter x.1) (fun d x => (osd_inner d, x.2))
         (@one_shot_delete _ (cache_delete_once (cd_root x.2)) path args) x;
     d_close := mret tt |}.

  Variable root : str.
Definition cache_write (path : str) (op : OpWrite) : M (CacheBackend C) Error CacheWriter :=
  p ← lift (build_abs_path root path);
  mret (cache_writer_new p op).
Definition cache_read (missing : Error) (cut : Buffer -> BytesRange -> result Buffer) (path : str) (args : OpRead)
  : M (CacheBackend C) Error (option Metadata * Buffer) :=
  p ← lift (build_abs_path root path);
  v ← cache_get p;
  match v with
  | Some value =>
      let total_size := Z.of_nat (blen (cv_content value)) in
      buffer ← lift (cut (cv_content value) (read_range args));
      mret (Some (set_content_length total_size (meta_new FILE)), buffer)
  | None => throw missing
  end.

Definition has_child (p : str) (c : C) : bool :=
  existsb (fun kv => starts_with p kv.1 && bool_decide (length p < length kv.1)) (cc_iter c).

(** *** dashmap *)
Definition dashmap_not_found : Error := error NotFound "key not found in dashmap".
Definition dashmap_stat (path : str) (_ : OpStat) : M (CacheBackend C) Error Metadata :=
  p ← lift (build_abs_path root path);
  v ← cache_get p;
  s ← get;
  match v with
  | Some value => mret (cv_metadata value)
  | None =>
      if ends_with [slash] p && existsb (fun kv => starts_with p kv.1) (cc_iter (cb_core s)) then mret (meta_new DIR)
      else throw dashmap_not_found
  end.

(** *** moka *)
Definition moka_not_found : Error := error NotFound "key not found in moka".
Definition moka_stat (path : str) (_ : OpStat) : M (CacheBackend C) Error Metadata :=
  p ← lift (build_abs_path root path);
  r ← lift (build_abs_path root []);
  if bool_decide (p = r) then mret (meta_new DIR)
  else
    v ← cache_get p;
    s ← get;
    match v with
    | Some value =>
        let metadata := cv_metadata value in
        mret (if ends_with [slash] p && negb (bool_decide (m_mode metadata = DIR)) then set_mode DIR metadata else metadata)
    | None =>
        if ends_with [slash] p then if has_child p (cb_core s) then mret (meta_new DIR) else throw moka_not_found
        else throw moka_not_found
    end.

(** *** mini_moka *)
Definition mini_moka_not_found : Error := error NotFound "path not found".
Definition mini_moka_stat (path : str) (_ : OpStat) : M (CacheBackend C) Error Metadata :=
  p ← lift (build_abs_path root path);
  v ← cache_get p;
  s ← get;
  match v with
  | Some value => mret (set_mode (if ends_with [slash] p then DIR else FILE) (cv_metadata value))
  | None =>
      if ends_with [slash] p && existsb (fun kv => starts_with p kv.1 && negb (bool_decide (kv.1 = p))) (cc_iter (cb_core s))
      then mret (set_mode DIR (meta_new Unknown))
      else throw mini_moka_not_found
  end.
End Service.

(** ** Listing *)

Record DashmapLister : Type := mkDashmapL { dl_root : str; dl_path : str; dl_iter : list (str * Metadata) }.
(** The loop takes entries until one is below the path. *)
Fixpoint dashmap_next (root path : str) (it : list (str * Metadata)) : result (option Entry) * list (str * Metadata) :=
  match it with
  | [] => (Ok None, [])
  | (key, metadata) :: it =>
      if starts_with path key then ((p ← build_rel_path root key; Ok (Some (entry_new p metadata))), it)
      else dashmap_next root path it
  end.
#[export] Instance DashmapLister_List : List DashmapLister := fun s =>
  let '(r, it) := dashmap_next (dl_root s) (dl_path s) (dl_iter s) in (r, mkDashmapL (dl_root s) (dl_path s) it).

Record MokaLister : Type := mkMokaL { ml_root : str; ml_entries : list (str * Metadata) }.
#[export] Instance MokaLister_List : List MokaLister := fun s =>
  match ml_entries s with
  | (key, metadata) :: rest =>
      ((path ← build_rel_path (ml_root s) key;
        Ok (Some (entry_new (if bool_decide (path = []) then [slash] else path) metadata))), mkMokaL (ml_root s) rest)
  | [] => (Ok None, s)
  end.
Record MiniMokaLister : Type := mkMiniL { mi_root : str; mi_entries : list (str * Metadata) }.
#[export] Instance MiniMokaLister_List : List MiniMokaLister := fun s =>
  match mi_entries s with
  | (key, metadata) :: rest =>
      ((rel_path ← build_rel_path (mi_root s) key; Ok (Some (entry_new rel_path metadata))), mkMiniL (mi_root s) rest)
  | [] => (Ok None, s)
  end.

Section Listing.
  Context {C : Type} `{CacheCrate C}.
  Variable root : str.

Definition keys_meta (c : C) : list (str * Metadata) := (fun kv => (kv.1, cv_metadata kv.2)) <$> cc_iter c.
Definition dashmap_list (path : str) (args : OpList) : M (CacheBackend C) Error (HierarchyLister DashmapLister) :=
  s ← get;
  p ← lift (build_abs_path root path);
  mret (hierarchy_new (mkDashmapL root p (keys_meta (cb_core s))) path (list_recursive args)).
Definition moka_list (path : str) (args : OpList) : M (CacheBackend C) Error (HierarchyLister MokaLister) :=
  s ← get;
  mret (hierarchy_new (mkMokaL root (keys_meta (cb_core s))) path (list_recursive args)).
(** The path the lister is given is not used. *)
Definition mini_moka_list (path : str) (args : OpList) : M (CacheBackend C) Error (HierarchyLister MiniMokaLister) :=
  p ← lift (build_abs_path root path);
  s ← get;
  mret (hierarchy_new (mkMiniL root (keys_meta (cb_core s))) path (list_recursive args)).

Definition dashmap_new (core : C) : CacheBackend C :=
  mkCacheB (set_root root (kv_info (b "dashmap") (b "dashmap") (kv_capability true false false true false))) core.
Definition moka_new (name : option str) (core : C) : CacheBackend C :=
  mkCacheB (set_root root (kv_info (b "moka") (default (b "moka") name) (kv_capability true false false true false))) core.
Definition mini_moka_new (core : C) : CacheBackend C :=
  mkCacheB (set_native_capability (kv_capability true false false false false) (set_root root (set_scheme (b "mini-moka") info_default))) core.

Definition dashmap_access : Access (CacheBackend C) Buffer CacheWriter (HierarchyLister DashmapLister) CacheDeleter unit :=
  {| a_info := cb_info; a_create_dir _ := throw not_supported;
     a_stat := dashmap_stat root; a_read := cache_read root dashmap_not_found clip_slice; a_write := cache_write root;
     a_delete := mret (mkCacheD root); a_list := dashmap_list;
     a_copy _ _ _ _ := throw not_supported; a_rename _ _ := throw not_supported |}.
Definition moka_access : Access (CacheBackend C) Buffer CacheWriter (HierarchyLister MokaLister) CacheDeleter unit :=
  {| a_info := cb_info; a_create_dir _ := throw not_supported;
     a_stat := moka_stat root; a_read := cache_read root moka_not_found clip_slice; a_write := cache_write root;
     a_delete := mret (mkCacheD root); a_list := moka_list;
     a_copy _ _ _ _ := throw not_supported; a_rename _ _ := throw not_supported |}.
Definition mini_moka_access : Access (CacheBackend C) Buffer CacheWriter (HierarchyLister MiniMokaLister) CacheDeleter unit :=
  {| a_info := cb_info; a_create_dir _ := throw not_supported;
     a_stat := mini_moka_stat root; a_read := cache_read root mini_moka_not_found checked_slice; a_write := cache_write root;
     a_delete := mret (mkCacheD root); a_list := mini_moka_list;
     a_copy _ _ _ _ := throw not_supported; a_rename _ _ := throw not_supported |}.
End Listing.

(** ** What the crates promise *)

(** Around every call entries may be lost as [cc_loses] allows: a map loses none. *)
Class CacheLaws (C : Type) `{CacheCrate C} : Type := {
  cc_view : C -> vmap;
  cc_loses : vmap -> vmap -> Prop;
  cc_loses_sub m m' : cc_loses m m' -> m' ⊆ m;
  cc_get_law k c : let '(v, c') := cc_get k c in exists m, cc_loses (cc_view c) m /\ v = m !! k /\ cc_loses m (cc_view c');
  cc_insert_law k v c : cc_loses (<[k := v]> (cc_view c)) (cc_view (cc_insert k v c));
  cc_invalidate_law k c : cc_loses (delete k (cc_view c)) (cc_view (cc_invalidate k c));
  cc_iter_law c : NoDup (cc_iter c).*1 /\ exists m, cc_loses (cc_view c) m /\ (forall k v, (k, v) ∈ cc_iter c <-> m !! k = Some v);
}.

(** Open a writer with options, write the buffers, close it. *)
Definition cache_put {C Rd Ls Cp} (w : Write (CacheBackend C * CacheWriter)) (acc : Access (CacheBackend C) Rd CacheWriter Ls CacheDeleter Cp)
    (path : str) (op : OpWrite) (bss : list Buffer) : M (CacheBackend C) Error Metadata := fun s =>
  match a_write acc path op s with
  | (Ok w, s) => let '(r, (s, _)) := (write_buffers bss;; w_close) (s, w) in (r, s)
  | (Err e, s) => (Err e, s)
  | (Panic, s) => (Panic, s)
  end.

(** What a read of the range returns of the bytes. *)
Definition reads_or_panics (data : bytes) (r : BytesRange) (o : result Buffer) : Prop :=
  match o with
  | Ok buf => wf buf /\ contents buf = sub data r /\ (Range.offset r <= Z.of_nat (length data))%Z
  | Err _ => False
  | Panic => (Z.of_nat (length data) < Range.offset r)%Z
  end.
Definition reads_or_refuses (data : bytes) (r : BytesRange) (o : result Buffer) : Prop :=
  match o with
  | Ok buf => wf buf /\ contents buf = sub data r /\ (is_full r = true \/ Range.offset r < Z.of_nat (length data))%Z
  | Err e => e = range_not_satisfied /\ is_full r = false /\ (Z.of_nat (length data) <= Range.offset r)%Z
  | Panic => False
  end.
Definition range_in_u64 (r : BytesRange) : Prop :=
  (0 <= Range.offset r)%Z /\ from_option (fun n => 0 <= n /\ Range.offset r + n <= u64_max)%Z True (Range.size r).

Lemma slice_clipped content r (hi : Z) :
  wf content -> (0 <= Range.offset r)%Z ->
  hi = match Range.size r with Some n => Z.min (Range.offset r + n) (Z.of_nat (blen content)) | None => Z.of_nat (blen content) end ->
  (Range.offset r <= Z.of_nat (blen content))%Z -> from_option (fun n => 0 <= n)%Z True (Range.size r) ->
  exists buf, slice content (Included (Range.offset r)) (Excluded hi) = Ok buf /\ wf buf /\ contents buf = sub (contents content) r.
Proof.
  intros Hw Ho -> Hle Hs. pose proof (contents_length content Hw) as Hl. unfold sub.
  set (hi := match Range.size r with Some n => _ | None => _ end).
  assert (Range.offset r <= hi <= Z.of_nat (blen content))%Z as Hhi by (unfold hi; destruct (Range.size r); simpl in *; lia).
  destruct (slice_ok content (Z.to_nat (Range.offset r)) (Z.to_nat hi) Hw) as (buf & E & Hwb & Hc); [lia|].
  rewrite !Z2Nat.id in E by lia. exists buf. split; [done|]. split; [done|]. rewrite Hc. unfold hi.
  destruct (Range.size r) as [n|]; simpl in *.
  - destruct (decide (Range.offset r + n <= Z.of_nat (blen content))%Z).
    + f_equal. lia.
    + rewrite !take_ge; rewrite ?length_drop; [done | lia..].
  - rewrite take_ge; [done|]. rewrite length_drop. lia.
Qed.
Lemma clip_slice_spec content r : wf content -> range_in_u64 r -> reads_or_panics (contents content) r (clip_slice content r).
Proof.
  intros Hw [Ho Hs]. pose proof (contents_length content Hw) as Hl. unfold reads_or_panics, clip_slice.
  destruct (is_full r) eqn:Ef.
  - unfold is_full in Ef. apply andb_true_iff in Ef as [E0%bool_decide_eq_true E1%bool_decide_eq_true].
    unfold sub. rewrite E0, E1. split_and!; [done | done | lia].
  - set (hi := Z.min _ _). assert (hi = match Range.size r with Some n => Z.min (Range.offset r + n) (Z.of_nat (blen content)) | None => Z.of_nat (blen content) end) as Ehi.
    { unfold hi. destruct (Range.size r) as [n|]; simpl in *; [|lia]. unfold wrap64. rewrite Z.mod_small by lia. done. }
    destruct (decide (Range.offset r <= Z.of_nat (blen content))%Z) as [Hle|Hgt].
    + destruct (slice_clipped content r hi Hw Ho Ehi Hle) as (buf & -> & Hwb & Hc); [by destruct (Range.size r); simpl in *; [lia|]|].
      split_and!; [done | done | lia].
    + unfold slice. simpl. rewrite bool_decide_eq_false_2; [lia|]. rewrite Ehi. destruct (Range.size r); simpl in *; lia.
Qed.
Lemma checked_slice_spec content r : wf content -> range_in_u64 r -> reads_or_refuses (contents content) r (checked_slice content r).
Proof.
  intros Hw [Ho Hs]. pose proof (contents_length content Hw) as Hl. unfold reads_or_refuses, checked_slice.
  destruct (is_full r) eqn:Ef.
  - unfold is_full in Ef. apply andb_true_iff in Ef as [E0%bool_decide_eq_true E1%bool_decide_eq_true].
    unfold sub. rewrite E0, E1. split_and!; [done | done | by left].
  - case_bool_decide as Hle; [split_and!; [done | done | lia]|]. set (hi := match Range.size r with Some _ => _ | None => _ end).
    destruct (slice_clipped content r hi Hw Ho) as (buf & -> & Hwb & Hc).
    + unfold hi. destruct (Range.size r) as [n|]; simpl in *; [|done]. unfold wrap64. rewrite Z.mod_small by lia. done.
    + lia.
    + by destruct (Range.size r); simpl in *; [lia|].
    + split_and!; [done | done | right; lia].
Qed.

(** ** The contract *)

Section Contract.
  Context {C : Type} `{CacheLaws C}.
  Variable root : str.
  Hypothesis root_ok : normalized_root root.
  Hypothesis root_char : starts_char (tail root).

Definition cached (s : CacheBackend C) : vmap := cc_view (cb_core s).
Definition values_ok (s : CacheBackend C) : Prop := map_Forall (fun _ v => wf (cv_content v)) (cached s).

(** A cache from paths to metadata and bytes. *)
Definition cache_contract {Ls} (mk : str -> OpWrite -> Z -> Metadata) (missing : Error)
    (cut_ok : bytes -> BytesRange -> result Buffer -> Prop)
    (acc : Access (CacheBackend C) Buffer CacheWriter Ls CacheDeleter unit) : Prop :=
  forall s, values_ok s ->
  (forall p op bss, Forall wf bss ->
    let '(r, s') := cache_put (cache_Write mk) acc p op bss s in
    values_ok s' /\ exists buf, wf buf /\ contents buf = concat (contents <$> bss) /\
    let meta := mk (kv_key root p) op (Z.of_nat (length (contents buf))) in
    r = Ok meta /\ cc_loses (<[kv_key root p := mkCached meta buf]> (cached s)) (cached s')) /\
  (forall p args, range_in_u64 (read_range args) ->
    let '(r, s') := a_read acc p args s in
    values_ok s' /\ exists m, cc_loses (cached s) m /\ cc_loses m (cached s') /\
    match m !! kv_key root p with
    | Some v => exists o, cut_ok (contents (cv_content v)) (read_range args) o /\
        r = (fun buf => (Some (set_content_length (Z.of_nat (length (contents (cv_content v)))) (meta_new FILE)), buf)) <$> o
    | None => r = Err missing
    end) /\
  (forall p,
    let '(r, s') := delete_session acc p s in
    values_ok s' /\ r = Ok tt /\ cc_loses (delete (kv_key root p) (cached s)) (cached s')).

Lemma values_ok_sub (m : vmap) (s : CacheBackend C) :
  map_Forall (fun _ v => wf (cv_content v)) m -> cc_loses m (cached s) -> values_ok s.
Proof using Type. intros Hm Hl%cc_loses_sub k v Hk. apply (Hm k). by eapply lookup_weaken. Qed.

Lemma cache_write_buffers mk bss (s : CacheBackend C) w :
  Forall wf bss -> qwf (cw_buf w) ->
  exists q, write_buffers (H := cache_Write mk) bss (s, w) = (Ok tt, (s, mkCacheW (cw_path w) (cw_op w) q)) /\ qwf q /\
    qcontents q = qcontents (cw_buf w) ++ concat (contents <$> bss).
Proof using Type.
  intros Hall. revert w. induction Hall as [|bs bss Hb _ IH]; intros w Hq; simpl.
  { exists (cw_buf w). rewrite app_nil_r. by destruct w. }
  unfold mbind, M_bind, cache_write_buf, modify. simpl. destruct (qpush_spec _ bs Hq Hb) as [Hq' Hc'].
  destruct (IH (mkCacheW (cw_path w) (cw_op w) (qpush (cw_buf w) bs))) as (q & E & Hqq & Hcc); [done|].
  simpl in *. exists q. split_and!; [done..|]. by rewrite Hcc, Hc', <- app_assoc.
Qed.

Lemma cache_contract_holds {Ls} mk missing cut cut_ok (acc : Access (CacheBackend C) Buffer CacheWriter Ls CacheDeleter unit) :
  a_write acc = cache_write root -> a_read acc = cache_read root missing cut -> a_delete acc = mret (mkCacheD root) ->
  (forall content r, wf content -> range_in_u64 r -> cut_ok (contents content) r (cut content r)) ->
  cache_contract mk missing cut_ok acc.
Proof using root_ok root_char.
  intros Hw Hr Hd Hcut s Hs. split_and!.
  - intros p op bss Hall. unfold cache_put. rewrite Hw. unfold cache_write. run_core. rewrite (kv_abs root root_ok root_char). simpl.
    destruct (cache_write_buffers mk bss s (cache_writer_new (kv_key root p) op) Hall) as (q & -> & Hq & Hcq); [apply qwf_nil|].
    simpl in *. unfold cache_close, cache_set, on_cache. run_core.
    destruct (qcollect_ok q Hq) as (buf & -> & Hb & Hcb). rewrite Hcq in Hcb. simpl.
    rewrite <- (contents_length buf Hb). set (meta := mk _ _ _).
    pose proof (cc_insert_law (kv_key root p) (mkCached meta buf) (cb_core s)) as Hl. split.
    + eapply values_ok_sub; [|exact Hl]. by apply map_Forall_insert_2.
    + by exists buf.
  - intros p args Hrange. rewrite Hr. unfold cache_read, cache_get, on_cache. run_core. rewrite (kv_abs root root_ok root_char). simpl.
    pose proof (cc_get_law (kv_key root p) (cb_core s)) as Hl. destruct (cc_get (kv_key root p) (cb_core s)) as [v c'].
    destruct Hl as (m & Hlm & -> & Hml).
    assert (map_Forall (fun _ v => wf (cv_content v)) m) as Hm.
    { intros k v Hk. apply (Hs k). eapply lookup_weaken; [done|]. by apply cc_loses_sub. }
    assert (values_ok (mkCacheB (cb_info s) c')) as Hok' by (by eapply values_ok_sub).
    destruct (m !! kv_key root p) as [v|] eqn:Ev; simpl.
    + pose proof (Hcut (cv_content v) (read_range args) (Hm _ _ Ev) Hrange) as Hc.
      rewrite <- (contents_length (cv_content v) (Hm _ _ Ev)).
      destruct (cut (cv_content v) (read_range args)) as [buf|e|] eqn:Eo; simpl; (split; [done|]);
        exists m; (split; [done|]; split; [done|]); rewrite Ev; eexists; (split; [exact Hc | done]).
    + split; [done|]. exists m. by rewrite Ev.
  - intros p. unfold delete_session. rewrite Hd. simpl.
    unfold mbind, M_bind, zoom, one_shot_delete, zoom, delete_one, cache_delete_once, mbind, M_bind, lift. simpl.
    rewrite (kv_abs root root_ok root_char). simpl. pose proof (cc_invalidate_law (kv_key root p) (cb_core s)) as Hl.
    split_and!; [|done|done]. eapply values_ok_sub; [|exact Hl]. by apply map_Forall_delete.
Qed.
End Contract.

(** ** Listing one level *)

Section Levels.
  Variable root : str.
  Hypothesis root_ok : normalized_root root.
  Hypothesis root_char : starts_char (tail root).

(** The entry of a key. *)
Definition meta_entry (km : str * Metadata) : Entry := mkEntry (drop (length (tail root)) km.1) km.2.

Lemma rel_of_key k : object_key root k -> build_rel_path root k = Ok (drop (length (tail root)) k) /\ drop (length (tail root)) k <> [].
Proof using All.
  intros (p & Hn & Hs & Hc & ->). destruct (rel_path_of_abs root p root_ok root_char Hn Hs Hc) as [Hrel _].
  rewrite (kv_abs root root_ok root_char) in Hrel. unfold kv_key in Hrel. rewrite bool_decide_eq_false_2 in Hrel by done.
  simpl in Hrel. rewrite drop_app_length. split; [done|]. by destruct (normalized_no_lead p Hn Hs) as (x & q & -> & _).
Qed.
Lemma entry_of_key km : object_key root km.1 ->
  (p ← build_rel_path root km.1; Ok (Some (entry_new p km.2))) = Ok (Some (meta_entry km)) :> result (option Entry).
Proof using All.
  intros Hk. destruct (rel_of_key _ Hk) as [-> Hne]. simpl. unfold entry_new, meta_entry.
  by destruct (drop (length (tail root)) km.1).
Qed.

Definition keys_ok (it : list (str * Metadata)) : Prop := Forall (fun km => object_key root km.1) it.
Lemma dashmap_lists path it :
  keys_ok it -> exists es, es = meta_entry <$> filter (fun km => starts_with path km.1 = true) it /\ lists list_next (mkDashmapL root path it) es.
Proof using All.
  intros Hk. eexists. split; [done|]. unfold lists. induction Hk as [|km it Hk _ IH]; csimpl.
  - by eapply Lists_nil.
  - rewrite filter_cons. destruct km as [k md]. simpl in *. case_decide as Hp.
    + csimpl. eapply Lists_cons; [|exact IH]. unfold list_next, DashmapLister_List. simpl. rewrite Hp.
      pose proof (entry_of_key (k, md) Hk) as E. simpl in E. by rewrite E.
    + eapply Lists_same_next; [|exact IH]. unfold list_next, DashmapLister_List. simpl. by destruct (starts_with path k).
Qed.
Lemma moka_lists it : keys_ok it -> lists list_next (mkMokaL root it) (meta_entry <$> it).
Proof using All.
  intros Hk. unfold lists. induction Hk as [|[k md] it Hk _ IH]; csimpl; [by eapply Lists_nil|].
  eapply Lists_cons; [|exact IH]. unfold list_next, MokaLister_List. simpl. pose proof (entry_of_key (k, md) Hk) as E. simpl in *.
  destruct (rel_of_key k Hk) as [Hrel Hne]. rewrite Hrel in *. simpl in *. by rewrite bool_decide_eq_false_2, E by done.
Qed.
Lemma mini_moka_lists it : keys_ok it -> lists list_next (mkMiniL root it) (meta_entry <$> it).
Proof using All.
  intros Hk. unfold lists. induction Hk as [|[k md] it Hk _ IH]; csimpl; [by eapply Lists_nil|].
  eapply Lists_cons; [|exact IH]. unfold list_next, MiniMokaLister_List. simpl. pose proof (entry_of_key (k, md) Hk) as E.
  simpl in E. by rewrite E.
Qed.
End Levels.

(** What a listing of one level has: the children of the path in which some
    object of [m] lies, as the object's entry or as a directory. *)
Definition lists_level (root path : str) (m : vmap) (out : list Entry) : Prop :=
  let prefix := if bool_decide (path = [slash]) then [] else path in
  (forall o, o ∈ out -> exists p v, m !! (tail root ++ p) = Some v /\ starts_with prefix p = true /\
     e_path o = child prefix p /\ (o = mkEntry p (cv_metadata v) \/ e_mode o = DIR)) /\
  (forall p v, m !! (tail root ++ p) = Some v -> starts_with prefix p = true -> child prefix p ∈ e_path <$> out) /\
  NoDup (filter (subdir prefix) (e_path <$> out)).

Section LevelListing.
  Context {C : Type} `{CacheLaws C}.
  Variable root : str.
  Hypothesis root_ok : normalized_root root.
  Hypothesis root_char : starts_char (tail root).

Definition level_contract {L} `{List L}
    (acc : Access (CacheBackend C) Buffer CacheWriter (HierarchyLister L) CacheDeleter unit) : Prop :=
  forall path args fuel s,
  list_recursive args = false -> map_Forall (fun k _ => object_key root k) (cached s) -> length (cc_iter (cb_core s)) < fuel ->
  let '(r, s') := a_list acc path args s in
  s' = s /\ exists l m out, r = Ok l /\ cc_loses (cached s) m /\ lists (hierarchy_next fuel) l out /\ lists_level root path m out.

Lemma out_of_iter path (c : C) m (keep : str * Metadata -> bool) es :
  map_Forall (fun k _ => object_key root k) m ->
  (forall k v, (k, v) ∈ cc_iter c <-> m !! k = Some v) ->
  (forall km, starts_with (if bool_decide (path = [slash]) then [] else path) (drop (length (tail root)) km.1) = true ->
    object_key root km.1 -> keep km = true) ->
  es = meta_entry root <$> filter (fun km => keep km = true) (keys_meta c) ->
  lists_level root path m (hierarchy_out (if bool_decide (path = [slash]) then [] else path) ∅ es).
Proof using Type.
  intros Hkeys Hiter Hkeep ->. set (prefix := if bool_decide (path = [slash]) then [] else path) in *.
  set (es := meta_entry root <$> _).
  destruct (hierarchy_out_spec prefix ∅ es) as (H1 & H2 & H3 & _); [by intros ? []%elem_of_empty|].
  assert (forall e, e ∈ es -> exists p v, m !! (tail root ++ p) = Some v /\ e = mkEntry p (cv_metadata v)) as Hes.
  { intros e (km & -> & [_ (kv & -> & Hkv)%list_elem_of_fmap]%list_elem_of_filter)%list_elem_of_fmap. destruct kv as [k v]. apply Hiter in Hkv.
    destruct (Hkeys _ _ Hkv) as (p & _ & _ & _ & ->). exists p, v. split; [done|]. unfold meta_entry. simpl. by rewrite drop_app_length. }
  split; [|split; [|done]].
  - intros o Ho. destruct (H1 o Ho) as (e & He & Hpre & Hp & Ho'). destruct (Hes e He) as (p & v & Hm & ->). simpl in *. by exists p, v.
  - intros p v Hm Hpre. assert (mkEntry p (cv_metadata v) ∈ es) as He.
    { apply list_elem_of_fmap. exists (tail root ++ p, cv_metadata v). split; [unfold meta_entry; simpl; by rewrite drop_app_length|].
      apply list_elem_of_filter. split.
      - apply Hkeep; simpl; [by rewrite drop_app_length | by apply (Hkeys _ _ Hm)].
      - apply list_elem_of_fmap. exists (tail root ++ p, v). split; [done|]. by apply Hiter. }
    by destruct (H2 _ He Hpre) as [?|[]%elem_of_empty].
Qed.

Lemma level_of_lister {L} `{List L} (acc : Access (CacheBackend C) Buffer CacheWriter (HierarchyLister L) CacheDeleter unit)
    (make : str -> list (str * Metadata) -> L) (keep : str -> str * Metadata -> bool) :
  (forall path args s, list_recursive args = false ->
     a_list acc path args s = (Ok (hierarchy_new (make path (keys_meta (cb_core s))) path false), s)) ->
  (forall path it, keys_ok root it -> lists list_next (make path it) (meta_entry root <$> filter (fun km => keep path km = true) it)) ->
  (forall path km, starts_with (if bool_decide (path = [slash]) then [] else path) (drop (length (tail root)) km.1) = true ->
    object_key root km.1 -> keep path km = true) ->
  level_contract acc.
Proof using root_ok root_char.
  intros Hacc Hlists Hkeep path args fuel s Hrec Hkeys Hfuel. rewrite Hacc by done. split; [done|].
  destruct (cc_iter_law (cb_core s)) as (_ & m & Hl & Hiter).
  assert (map_Forall (fun k _ => object_key root k) m) as Hkm.
  { intros k v Hk. apply (Hkeys k v). eapply lookup_weaken; [done|]. by apply cc_loses_sub. }
  assert (keys_ok root (keys_meta (cb_core s))) as Hok.
  { apply Forall_forall. intros km (kv & -> & Hkv)%list_elem_of_fmap. destruct kv as [k v]. apply Hiter in Hkv. by apply (Hkm _ _ Hkv). }
  eexists _, m, _. split; [done|]. split; [done|]. split.
  - unfold hierarchy_new. apply hierarchy_lists; [by apply Hlists|]. rewrite length_fmap.
    eapply Nat.le_lt_trans; [apply length_filter|]. unfold keys_meta. by rewrite length_fmap.
  - by eapply (out_of_iter path (cb_core s) m (keep path)); [| |apply Hkeep|].
Qed.
End LevelListing.

Lemma keep_all {A} (l : list A) : filter (fun _ => true = true) l = l.
Proof. induction l as [|x l IH]; [done|]. by rewrite filter_cons_True, IH. Qed.

Section Caches.
  Context {DC MC NC : Type} `{CacheLaws DC} `{CacheLaws MC} `{CacheLaws NC}.
  Variable root : str.
  Hypothesis root_ok : normalized_root root.
  Hypothesis root_char : starts_char (tail root).
  Variable now : Z.

(** The in-process caches: closing a writer stores the bytes written with
    the metadata of its options, which it returns; deleting removes the path and
    nothing else; a read returns the bytes of the range the object has, with its
    length, or says that there is none.  An offset past the end makes dashmap and
    moka panic, and mini_moka refuse the read.  Entries are lost only as the
    crate allows. *)
Theorem caches_keep_contract :
  cache_contract (C := DC) root (dashmap_meta now) dashmap_not_found reads_or_panics (dashmap_access root) /\
  cache_contract (C := MC) root moka_meta moka_not_found reads_or_panics (moka_access root) /\
  cache_contract (C := NC) root (mini_moka_meta now) mini_moka_not_found reads_or_refuses (mini_moka_access root).
Proof using root_ok root_char.
  split_and!; (eapply cache_contract_holds; [done..|]); [apply clip_slice_spec | apply clip_slice_spec | apply checked_slice_spec].
Qed.

(** A listing of one level on the in-process caches ends and has exactly
    the children of the path in which some object lies, each directory once, and
    an object at that level with the metadata it was written with: moka and
    mini_moka list every object and leave it to [HierarchyLister] to select. *)
Theorem caches_list_levels :
  level_contract (C := DC) root (dashmap_access root) /\
  level_contract (C := MC) root (moka_access root) /\
  level_contract (C := NC) root (mini_moka_access root).
Proof using root_ok root_char.
  split_and!.
  - apply (level_of_lister root root_ok root_char _ (fun path it => mkDashmapL root (kv_key root path) it)
      (fun path km => starts_with (kv_key root path) km.1)).
    + intros path args s Hrec. unfold dashmap_access, a_list, dashmap_list. run_core. rewrite (kv_abs root root_ok root_char). simpl. by rewrite Hrec.
    + intros path it Hk. by destruct (dashmap_lists root root_ok root_char (kv_key root path) it Hk) as (es & -> & ?).
    + intros path km Hpre (p & _ & _ & _ & E). rewrite E in *. rewrite drop_app_length in Hpre. unfold kv_key.
      apply starts_with_true in Hpre as [t Ht]. apply starts_with_true. case_bool_decide; [by exists p|].
      exists t. by rewrite Ht, app_assoc.
  - apply (level_of_lister root root_ok root_char _ (fun _ it => mkMokaL root it) (fun _ _ => true)); [|intros path it Hk|done].
    + intros path args s Hrec. unfold moka_access, a_list, moka_list. run_core. by rewrite Hrec.
    + rewrite keep_all. by apply moka_lists.
  - apply (level_of_lister root root_ok root_char _ (fun _ it => mkMiniL root it) (fun _ _ => true)); [|intros path it Hk|done].
    + intros path args s Hrec. unfold mini_moka_access, a_list, mini_moka_list. run_core. rewrite (kv_abs root root_ok root_char). simpl. by rewrite Hrec.
    + rewrite keep_all. by apply mini_moka_lists.
Qed.
End Caches.

(** ** A map, and a cache of bounded size *)

#[export] Instance MapCache : CacheCrate vmap :=
  {| cc_get k c := (c !! k, c); cc_insert k v c := <[k := v]> c; cc_invalidate k c := delete k c; cc_iter c := map_to_list c |}.
#[export] Instance MapCache_laws : CacheLaws vmap.
Proof.
  refine {| cc_view c := c; cc_loses := eq |}; try done.
  - by intros m m' ->.
  - intros k c. simpl. by exists c.
  - intros c. split; [apply NoDup_fst_map_to_list|]. exists c. split; [done|]. intros k v. apply elem_of_map_to_list.
Defined.

(** One that holds one entry: an insertion drops the others. *)
Inductive Single : Type := mkSingle (entry : option (str * CacheValue)).
Definition single_view (c : Single) : vmap := let '(mkSingle e) := c in match e with Some (k, v) => {[ k := v ]} | None => ∅ end.
#[export] Instance Single_cache : CacheCrate Single :=
  {| cc_get k c := (single_view c !! k, c); cc_insert k v c := mkSingle (Some (k, v));
     cc_invalidate k c := let '(mkSingle e) := c in mkSingle (e' ← e; if bool_decide (e'.1 = k) then None else Some e');
     cc_iter c := let '(mkSingle e) := c in option_list e |}.
#[export] Instance Single_laws : CacheLaws Single.
Proof.
  refine {| cc_view := single_view; cc_loses m m' := m' ⊆ m |}; try done.
  - intros k c. simpl. by exists (single_view c).
  - intros k v c. simpl. rewrite <- insert_empty. apply insert_mono, map_empty_subseteq.
  - intros k [[[j v]|]]; simpl; [|apply map_empty_subseteq]. case_bool_decide; simpl; [apply map_empty_subseteq|].
    by rewrite delete_singleton_ne.
  - intros [[[j w]|]]; simpl.
    + split; [apply NoDup_singleton|]. exists {[ j := w ]}. split; [done|]. intros k v. rewrite list_elem_of_singleton, lookup_singleton_Some. naive_solver.
    + split; [constructor|]. exists ∅. split; [done|]. intros k v. rewrite elem_of_nil. done.
Defined.

Lemma cache_root : normalized_root (b "/d/").
Proof. apply (root_dir [b "d"]); [done|]. repeat constructor; [done|]. apply (bool_decide_unpack _). vm_compute. exact I. Defined.
Definition html : OpWrite := mkOpWrite false 0 (Some (b "text/html")) None None None None None false None.

Lemma caches_keep_contract_witness :
  (let '(r, s) := cache_put (cache_Write (dashmap_meta 7)) (dashmap_access (b "/d/")) (b "a") html [Contiguous [x01; x02]]
                    (dashmap_new (b "/d/") (∅ : vmap)) in
   (r, (a_read (dashmap_access (b "/d/")) (b "a") (read_with_range (mkRange 1 (Some 9%Z)) op_read) s).1)) =
  (Ok (set_content_type (b "text/html") (set_last_modified 7 (set_content_length 2 (meta_new FILE)))),
   Ok (Some (set_content_length 2 (meta_new FILE)), Contiguous [x02])) /\
  cache_contract (b "/d/") (dashmap_meta 7) dashmap_not_found reads_or_panics (dashmap_access (C := vmap) (b "/d/")) /\
  cache_contract (b "/d/") moka_meta moka_not_found reads_or_panics (moka_access (C := Single) (b "/d/")) /\
  cache_contract (b "/d/") (mini_moka_meta 7) mini_moka_not_found reads_or_refuses (mini_moka_access (C := Single) (b "/d/")).
Proof.
  split; [vm_compute; reflexivity|].
  exact (caches_keep_contract (DC := vmap) (MC := Single) (NC := Single) (b "/d/") cache_root eq_refl 7).
Defined.

Lemma caches_list_levels_witness :
  level_contract (b "/d/") (dashmap_access (C := vmap) (b "/d/")) /\
  level_contract (b "/d/") (moka_access (C := Single) (b "/d/")) /\
  level_contract (b "/d/") (mini_moka_access (C := Single) (b "/d/")).
Proof. exact (caches_list_levels (DC := vmap) (MC := Single) (NC := Single) (b "/d/") cache_root eq_refl). Defined.

(** A read past the end of an object panics. *)
Theorem dashmap_read_past_end_panics :
  (a_read (dashmap_access [slash]) (b "a") (read_with_range (mkRange 5 None) op_read)
     (dashmap_new [slash] ({[ b "a" := mkCached (meta_new FILE) (Contiguous [x01]) ]} : vmap))).1 = Panic.
Proof. vm_compute. reflexivity. Qed.
