(* ===== verification/KvRemote.v ===== *)
(** * redis, etcd and cacache

    Key-value services with backends of their own: redis reads ranges with
    [GETRANGE], etcd refuses ranges past the end and knows directories and
    prefixes, cacache keeps its objects in a directory under the paths as they
    are. *)

From S2P Require Import Prelude Errors Path Range Buffer Types Access Listers Deleters Readers Memory Streams Text Kv KvServices KvMongo KvFamily Caches.
From stdpp Require Import sorting options.

(** ** redis *)

(** The pool, whose answer is [None] when ten seconds pass, and the commands on
    one of its connections; a [RedisError] is its category and its printed form. *)
Record RedisError : Type := mkRedisError { re_category : string; re_display : str }.
Class RedisCrate (D : Type) : Type := {
  redis_pool_get : M D Error (option unit);
  rd_get : str -> M D RedisError (option bytes);
  rd_getrange : str -> Z -> Z -> M D RedisError (option bytes);
  rd_set : str -> bytes -> M D RedisError unit;
  rd_set_ex : str -> bytes -> Z -> M D RedisError unit;
  rd_del : str -> M D RedisError unit;
  rd_ping : M D RedisError str;
}.
Record RedisCore (D : Type) : Type := mkRedis { rc_addr : str; rc_default_ttl : option Z; rc_db : D }.
Arguments mkRedis {D}.
Arguments rc_addr {D}.
Arguments rc_default_ttl {D}.
Arguments rc_db {D}.

Definition format_redis_error (e : RedisError) : Error :=
  set_temporary (set_source (re_display e) (error Unexpected (re_category e))).

Section Redis.
  Context {D : Type} `{RedisCrate D}.

(** [ManageObject::is_recyclable]. *)
Definition redis_is_recyclable : M D Error unit :=
  pong ← err_of format_redis_error rd_ping;
  if bool_decide (pong = b "PONG") then mret tt else throw (error Unexpected "PING ERROR").

Definition on_redis {X} (m : M D Error X) : M (RedisCore D) Error X :=
  zoom rc_db (fun d c => mkRedis (rc_addr c) (rc_default_ttl c) d) m.
Definition redis_conn : M (RedisCore D) Error unit :=
  r ← on_redis redis_pool_get;
  match r with
  | None => throw (set_temporary (error Unexpected "connection request: timeout"))
  | Some conn => mret conn
  end.
Definition redis_get (key : str) : M (RedisCore D) Error (option Buffer) :=
  redis_conn;;
  result ← on_redis (err_of format_redis_error (rd_get key));
  mret (buffer_of result).
Definition redis_get_range (key : str) (start end_ : Z) : M (RedisCore D) Error (option Buffer) :=
  redis_conn;;
  result ← on_redis (err_of format_redis_error (rd_getrange key start end_));
  mret (buffer_of result).
Definition redis_set (key : str) (value : Buffer) : M (RedisCore D) Error unit :=
  redis_conn;;
  c ← get;
  match rc_default_ttl c with
  | Some dur => on_redis (err_of format_redis_error (rd_set_ex key (contents value) dur))
  | None => on_redis (err_of format_redis_error (rd_set key (contents value)))
  end.
Definition redis_delete (key : str) : M (RedisCore D) Error unit :=
  redis_conn;;
  on_redis (err_of format_redis_error (rd_del key)).

#[global] Instance redis_core : KvCore (RedisCore D) := {| kv_get := redis_get; kv_set := redis_set; kv_delete := redis_delete |}.
Definition redis_Write : Write (KvBackend (RedisCore D) * KvWriter) := KvWriter_Write.
Definition redis_delete_once : str -> str -> OpDelete -> M (KvBackend (RedisCore D)) Error unit := kv_delete_once.
Definition redis_Delete : Types.Delete (KvBackend (RedisCore D) * KvDeleter) := kv_deleter redis_delete_once.
Definition redis_new (core : RedisCore D) : KvBackend (RedisCore D) :=
  mkKv (kv_info (b "redis") (rc_addr core) (kv_capability false false false false true)) core.

  Variable root : str.
Definition redis_missing : string := "key not found in redis".
(** The metadata is known only of a full read; the end of the range is inclusive. *)
Definition redis_read (path : str) (args : OpRead) : M (KvBackend (RedisCore D)) Error (option Metadata * Buffer) :=
  p ← lift (build_abs_path root path);
  let range := read_range args in
  '(buffer, metadata) ←
    (if is_full range then
       r ← on_core (redis_get p);
       match r with
       | Some bs => mret (bs, Some (set_content_length (Z.of_nat (blen bs)) (meta_new FILE)))
       | None => throw (kv_not_found redis_missing)
       end
     else
       let start := as_i64 (Range.offset range) in
       let end_ := match Range.size range with Some size => as_i64 (wrap64 (Range.offset range + size - 1)) | None => (-1)%Z end in
       r ← on_core (redis_get_range p start end_);
       match r with
       | Some bs => mret (bs, None)
       | None => throw (kv_not_found redis_missing)
       end);
  mret (metadata, buffer).
Definition redis_access : Access (KvBackend (RedisCore D)) Buffer KvWriter unit KvDeleter unit :=
  {| a_info := kb_info; a_create_dir _ := throw not_supported;
     a_stat := kv_stat redis_missing root; a_read := redis_read; a_write := kv_write root;
     a_delete := mret (mkKvDeleter root); a_list _ _ := throw not_supported;
     a_copy _ _ _ _ := throw not_supported; a_rename _ _ := throw not_supported |}.
End Redis.

(** [GETRANGE]: both ends included, negative ones counted from the end; of a key
    that does not exist it is the empty string. *)
Definition getrange (v : bytes) (start end_ : Z) : bytes :=
  let len := Z.of_nat (length v) in
  if bool_decide (start < 0 /\ end_ < 0 /\ end_ < start)%Z then []
  else
    let start := Z.max 0 (if bool_decide (start < 0)%Z then len + start else start)%Z in
    let end_ := Z.max 0 (if bool_decide (end_ < 0)%Z then len + end_ else end_)%Z in
    let end_ := Z.min end_ (len - 1) in
    if bool_decide (end_ < start \/ len = 0)%Z then []
    else take (Z.to_nat (end_ - start + 1)) (drop (Z.to_nat start) v).

(** A server from which keys may vanish. *)
Class RedisLaws (D : Type) `{RedisCrate D} : Type := {
  rd_view : D -> table;
  redis_pool_law d : let '(r, d') := redis_pool_get d in rd_view d' ⊆ rd_view d /\ r <> Panic;
  rd_get_law k d :
    let '(r, d') := rd_get k d in
    exists m, m ⊆ rd_view d /\ rd_view d' ⊆ m /\ match r with Ok v => v = m !! k | Err _ => True | Panic => False end;
  rd_getrange_law k start end_ d :
    let '(r, d') := rd_getrange k start end_ d in
    exists m, m ⊆ rd_view d /\ rd_view d' ⊆ m /\
    match r with Ok v => v = Some (getrange (default [] (m !! k)) start end_) | Err _ => True | Panic => False end;
  rd_set_law k v d :
    let '(r, d') := rd_set k v d in
    exists m m', m ⊆ rd_view d /\ rd_view d' ⊆ m' /\
    match r with Ok _ => m' = <[k := v]> m | Err _ => same_but k m m' | Panic => False end;
  rd_set_ex_law k v ttl d :
    let '(r, d') := rd_set_ex k v ttl d in
    exists m m', m ⊆ rd_view d /\ rd_view d' ⊆ m' /\
    match r with Ok _ => m' = <[k := v]> m | Err _ => same_but k m m' | Panic => False end;
  rd_del_law k d :
    let '(r, d') := rd_del k d in
    exists m m', m ⊆ rd_view d /\ rd_view d' ⊆ m' /\
    match r with Ok _ => m' = delete k m | Err _ => same_but k m m' | Panic => False end;
}.

Section RedisMap.
  Context {D : Type} `{RedisLaws D}.

(** The pool's errors, its timeout, and those of the server. *)
Definition redis_failure (e : Error) : Prop :=
  (exists d : D, (redis_pool_get d).1 = Err e) \/ e = set_temporary (error Unexpected "connection request: timeout") \/
  exists re, e = format_redis_error re.

Lemma redis_conn_keeps (c : RedisCore D) :
  let '(r, c') := redis_conn c in
  rd_view (rc_db c') ⊆ rd_view (rc_db c) /\ match r with Ok _ => True | Err e => redis_failure e | Panic => False end.
Proof.
  unfold redis_conn, on_redis, redis_failure. run_core. pose proof (redis_pool_law (rc_db c)) as Hl.
  destruct (redis_pool_get (rc_db c)) as [[[[]|]|e|] d] eqn:E; simpl; destruct Hl as [Hl Hp]; (split; [done|]); [done | by auto | | done].
  left. exists (rc_db c). by rewrite E.
Qed.
(** A command on a connection of the pool. *)
Lemma redis_then {X} (m : M (RedisCore D) Error X) (P : table -> result X -> table -> Prop) c :
  (forall c1, let '(r, c') := m c1 in exists t t', t ⊆ rd_view (rc_db c1) /\ rd_view (rc_db c') ⊆ t' /\ P t r t') ->
  (forall t e, redis_failure e -> P t (Err e) t) ->
  let '(r, c') := (redis_conn;; m) c in
  exists t t', t ⊆ rd_view (rc_db c) /\ rd_view (rc_db c') ⊆ t' /\ P t r t'.
Proof.
  intros Hm He. unfold mbind, M_bind. pose proof (redis_conn_keeps c) as Hk. destruct (redis_conn c) as [[[]|e|] c1].
  - destruct Hk as (Hv & _). specialize (Hm c1). destruct (m c1) as [r c']. destruct Hm as (t & t' & Ht & Ht' & HP).
    exists t, t'. split_and!; [by etrans | done..].
  - destruct Hk as (Hv & He'). exists (rd_view (rc_db c)), (rd_view (rc_db c)). by split_and!; [| |apply He].
  - by destruct Hk as (_ & ?).
Qed.
Lemma redis_get_spec k (c : RedisCore D) :
  let '(r, c') := redis_get k c in
  exists m, m ⊆ rd_view (rc_db c) /\ rd_view (rc_db c') ⊆ m /\
  match r with
  | Ok (Some v) => wf v /\ m !! k = Some (contents v)
  | Ok None => m !! k = None
  | Err e => redis_failure e
  | Panic => False
  end.
Proof.
  unfold redis_get.
  pose proof (redis_then (result ← on_redis (err_of format_redis_error (rd_get k)); mret (buffer_of result))
    (fun t r t' => t' = t /\ match r with Ok (Some v) => wf v /\ t !! k = Some (contents v) | Ok None => t !! k = None | Err e => redis_failure e | Panic => False end) c) as Hl.
  destruct ((redis_conn;; _) c) as [r c']. destruct Hl as (t & t' & Ht & Ht' & -> & Hr); [|done|by exists t].
  intros c1. unfold on_redis. run_core. pose proof (rd_get_law k (rc_db c1)) as Hg.
  destruct (rd_get k (rc_db c1)) as [r1 d1]. destruct Hg as (m & Hm & Hm' & Hr). apply buffer_of_map in Hr.
  destruct r1 as [v|e|]; simpl; exists m, m; split_and!; try done. unfold redis_failure. by eauto.
Qed.
Lemma redis_range_spec k start end_ (c : RedisCore D) :
  let '(r, c') := redis_get_range k start end_ c in
  exists m, m ⊆ rd_view (rc_db c) /\ rd_view (rc_db c') ⊆ m /\
  match r with
  | Ok (Some v) => wf v /\ contents v = getrange (default [] (m !! k)) start end_
  | Ok None => False
  | Err e => redis_failure e
  | Panic => False
  end.
Proof.
  unfold redis_get_range.
  pose proof (redis_then (result ← on_redis (err_of format_redis_error (rd_getrange k start end_)); mret (buffer_of result))
    (fun t r t' => t' = t /\ match r with Ok (Some v) => wf v /\ contents v = getrange (default [] (t !! k)) start end_ | Ok None => False | Err e => redis_failure e | Panic => False end) c) as Hl.
  destruct ((redis_conn;; _) c) as [r c']. destruct Hl as (t & t' & Ht & Ht' & -> & Hr); [|done|by exists t].
  intros c1. unfold on_redis. run_core. pose proof (rd_getrange_law k start end_ (rc_db c1)) as Hg.
  destruct (rd_getrange k start end_ (rc_db c1)) as [r1 d1]. destruct Hg as (m & Hm & Hm' & Hr).
  destruct r1 as [v|e|]; simpl; exists m, m; split_and!; try done; [by subst v|]. unfold redis_failure. by eauto.
Qed.
#[export] Instance redis_map : KvMap (RedisCore D).
Proof using All.
  refine {| kv_view c := rd_view (rc_db c); kv_ok _ := True; kv_loses m m' := m' ⊆ m; kv_accepts _ _ := True |}.
  - done.
  - intros k c _ _. unfold kv_get, redis_core. pose proof (redis_get_spec k c) as Hl. destruct (redis_get k c) as [r c'].
    split; [done|]. destruct Hl as (m & ? & ? & ?). exists m. by destruct r as [[]|e|].
  - intros k v c _ Hv _. unfold kv_set, redis_core, redis_set.
    pose proof (redis_then (c ← get; match rc_default_ttl c with
        | Some dur => on_redis (err_of format_redis_error (rd_set_ex k (contents v) dur))
        | None => on_redis (err_of format_redis_error (rd_set k (contents v))) end)
      (fun t r t' => match r with Ok _ => t' = <[k := contents v]> t | Err _ => same_but k t t' | Panic => False end) c) as Hl.
    destruct ((redis_conn;; _) c) as [r c']. split; [done|]. apply Hl; [|done]. clear Hl.
    intros c1. unfold on_redis. run_core. destruct (rc_default_ttl c1) as [dur|]; run_core.
    + pose proof (rd_set_ex_law k (contents v) dur (rc_db c1)) as Hg. destruct (rd_set_ex _ _ _ _) as [[[]|e|] d1]; exact Hg.
    + pose proof (rd_set_law k (contents v) (rc_db c1)) as Hg. destruct (rd_set _ _ _) as [[[]|e|] d1]; exact Hg.
  - intros k c _ _. unfold kv_delete, redis_core, redis_delete.
    pose proof (redis_then (on_redis (err_of format_redis_error (rd_del k)))
      (fun t r t' => match r with Ok _ => t' = delete k t | Err _ => same_but k t t' | Panic => False end) c) as Hl.
    destruct ((redis_conn;; _) c) as [r c']. split; [done|]. apply Hl; [|done]. clear Hl.
    intros c1. unfold on_redis. run_core. pose proof (rd_del_law k (rc_db c1)) as Hg.
    destruct (rd_del _ _) as [[[]|e|] d1]; exact Hg.
Defined.
End RedisMap.

Lemma getrange_sub v r :
  (0 <= Range.offset r)%Z -> from_option (fun n => 1 <= n)%Z True (Range.size r) ->
  getrange v (Range.offset r) (match Range.size r with Some n => Range.offset r + n - 1 | None => -1 end)%Z = sub v r.
Proof.
  intros Ho Hs. unfold getrange, sub. set (off := Range.offset r) in *. rewrite bool_decide_eq_false_2 by lia.
  rewrite (bool_decide_eq_false_2 (off < 0)%Z) by lia. rewrite (Z.max_r 0 off) by lia.
  destruct (Range.size r) as [n|]; simpl in *.
  - rewrite (bool_decide_eq_false_2 (off + n - 1 < 0)%Z) by lia. rewrite (Z.max_r 0 (off + n - 1)) by lia. case_bool_decide as Hc.
    + rewrite drop_ge by lia. by rewrite take_nil.
    + destruct (decide (off + n - 1 <= Z.of_nat (length v) - 1)%Z).
      * rewrite Z.min_l by lia. f_equal. lia.
      * rewrite Z.min_r by lia. rewrite !take_ge; [done|rewrite length_drop; lia..].
  - case_bool_decide as Hc.
    + rewrite drop_ge; [done|]. lia.
    + rewrite take_ge; [done|]. rewrite length_drop. lia.
Qed.

Section RedisReads.
  Context {D : Type} `{RedisLaws D}.
  Variable root : str.
  Hypothesis root_ok : normalized_root root.
  Hypothesis root_char : starts_char (tail root).

(** C22.  redis is a cache of a map: puts, stats and deletes are those of a map
    from which keys may vanish, and a read of the whole object returns it or says
    that there is none.  A read of a range returns the bytes of the range that the
    object has, and of an object that does not exist the empty string. *)
Theorem redis_serves :
  (forall p bss (s : KvBackend (RedisCore D)), Forall wf bss ->
    let '(r, s') := put_session (redis_access root) p bss s in
    kv_step root (kv_not_found redis_missing) get_failure kv_loses (stored s) (KPut p bss) (APut r) (stored s')) /\
  (forall p (s : KvBackend (RedisCore D)),
    let '(r, s') := a_stat (redis_access root) p op_stat s in
    kv_step root (kv_not_found redis_missing) get_failure kv_loses (stored s) (KStat p) (AStat r) (stored s')) /\
  (forall p (s : KvBackend (RedisCore D)),
    let '(r, s') := delete_session (redis_access root) p s in
    kv_step root (kv_not_found redis_missing) get_failure kv_loses (stored s) (KDelete p) (ADelete r) (stored s')) /\
  (forall p args (s : KvBackend (RedisCore D)),
    (0 <= Range.offset (read_range args) <= i64_max)%Z ->
    from_option (fun n => 1 <= n /\ Range.offset (read_range args) + n <= i64_max)%Z True (Range.size (read_range args)) ->
    let '(r, s') := a_read (redis_access root) p args s in
    exists m, m ⊆ stored s /\ stored s' ⊆ m /\
    match r with
    | Ok (meta, buf) => wf buf /\
        if is_full (read_range args)
        then m !! kv_key root p = Some (contents buf) /\ meta = Some (set_content_length (Z.of_nat (length (contents buf))) (meta_new FILE))
        else contents buf = sub (default [] (m !! kv_key root p)) (read_range args) /\ meta = None
    | Err e => is_full (read_range args) = true /\ m !! kv_key root p = None /\ e = kv_not_found redis_missing \/ redis_failure (D := D) e
    | Panic => False
    end).
Proof using All.
  split_and!.
  - intros p bss s Hall.
    pose proof (kv_put_spec redis_missing root root_ok root_char (redis_access root) p bss s eq_refl I (conj Hall I)) as Hl.
    destruct (put_session _ _ _ _) as [r s']. by destruct Hl.
  - intros p s. pose proof (kv_stat_spec redis_missing root root_ok root_char p op_stat s I (fun _ => I)) as Hl. simpl.
    destruct (kv_stat _ _ _ _ _) as [r s']. by destruct Hl.
  - intros p s. pose proof (kv_delete_spec redis_missing root root_ok root_char (redis_access root) p s eq_refl I I) as Hl.
    destruct (delete_session _ _ _) as [r s']. by destruct Hl.
  - intros p args s Ho Hs. unfold redis_access, a_read, redis_read, on_core. run_core.
    rewrite (kv_abs root root_ok root_char). simpl. destruct (is_full (read_range args)) eqn:Ef; simpl.
    + pose proof (redis_get_spec (kv_key root p) (kb_core s)) as Hl. destruct (redis_get (kv_key root p) (kb_core s)) as [r c'].
      destruct Hl as (m & Hm & Hm' & Hr). destruct r as [[v|]|e|]; simpl; [| |by exists m; split_and!; [| |right]|done].
      * destruct Hr as [Hw Hk]. exists m. rewrite (contents_length v Hw). by split_and!.
      * exists m. split_and!; [done..|]. by left.
    + assert (as_i64 (Range.offset (read_range args)) = Range.offset (read_range args)) as ->.
      { unfold as_i64. rewrite bool_decide_eq_true_2; [done | lia]. }
      set (end_ := match Range.size (read_range args) with Some _ => _ | None => _ end).
      assert (end_ = match Range.size (read_range args) with Some n => Range.offset (read_range args) + n - 1 | None => -1 end)%Z as ->.
      { unfold end_. destruct (Range.size (read_range args)) as [n|]; simpl in Hs; [|done]. unfold wrap64, as_i64.
        rewrite Z.mod_small by (unfold i64_max, u64_max in *; lia). rewrite bool_decide_eq_true_2; [done | lia]. }
      pose proof (redis_range_spec (kv_key root p) (Range.offset (read_range args))
        (match Range.size (read_range args) with Some n => Range.offset (read_range args) + n - 1 | None => -1 end)%Z (kb_core s)) as Hl.
      destruct (redis_get_range _ _ _ (kb_core s)) as [r c']. destruct Hl as (m & Hm & Hm' & Hr).
      destruct r as [[v|]|e|]; simpl; [| done | by exists m; split_and!; [| |right] | done].
      exists m. destruct Hr as [Hw Hc]. split_and!; [done..| |done]. rewrite Hc. apply getrange_sub; [lia|].
      destruct (Range.size (read_range args)); simpl in *; [lia | done].
Qed.
End RedisReads.

(** ** etcd *)

(** The pool and the calls on one of its clients; an [etcd_client::Error] is its
    printed form.  [ec_prefix] is [get] with [with_prefix] and [with_keys_only]. *)
Class EtcdCrate (D : Type) : Type := {
  etcd_pool_get : M D Error (option unit);
  ec_get : str -> M D str (option bytes);
  ec_prefix : str -> option Z -> M D str (list str);
  ec_put : str -> bytes -> M D str unit;
  ec_delete : str -> M D str unit;
}.
Record EtcdCore (D : Type) : Type := mkEtcd { et_endpoints : list str; et_db : D }.
Arguments mkEtcd {D}.
Arguments et_endpoints {D}.
Arguments et_db {D}.

(** The message of the error is the printed form too. *)
Definition format_etcd_error (e : str) : Error :=
  set_temporary (set_source e (mkError Unexpected e Permanent [] [] None)).

Record EtcdLister : Type := mkEtcdL { el_root : str; el_path : str; el_iter : list str }.
Fixpoint etcd_next (root path : str) (it : list str) : result (option Entry) * list str :=
  match it with
  | [] => (Ok None, [])
  | key :: it =>
      if starts_with path key
      then ((p ← build_rel_path root key; Ok (Some (entry_new p (meta_new (from_path key))))), it)
      else etcd_next root path it
  end.
#[export] Instance EtcdLister_List : List EtcdLister := fun s =>
  let '(r, it) := etcd_next (el_root s) (el_path s) (el_iter s) in (r, mkEtcdL (el_root s) (el_path s) it).

Section Etcd.
  Context {D : Type} `{EtcdCrate D}.

Definition on_etcd {X} (m : M D Error X) : M (EtcdCore D) Error X := zoom et_db (fun d c => mkEtcd (et_endpoints c) d) m.
Definition etcd_conn : M (EtcdCore D) Error unit :=
  r ← on_etcd etcd_pool_get;
  match r with
  | None => throw (set_temporary (error Unexpected "connection request: timeout"))
  | Some conn => mret conn
  end.
Definition etcd_has_prefix (prefix : str) : M (EtcdCore D) Error bool :=
  etcd_conn;;
  resp ← on_etcd (err_of format_etcd_error (ec_prefix prefix (Some 1%Z)));
  mret (negb (bool_decide (resp = []))).
Definition etcd_get (key : str) : M (EtcdCore D) Error (option Buffer) :=
  etcd_conn;;
  resp ← on_etcd (err_of format_etcd_error (ec_get key));
  mret (buffer_of resp).
Definition etcd_set (key : str) (value : Buffer) : M (EtcdCore D) Error unit :=
  etcd_conn;;
  on_etcd (err_of format_etcd_error (ec_put key (contents value))).
Definition etcd_delete (key : str) : M (EtcdCore D) Error unit :=
  etcd_conn;;
  on_etcd (err_of format_etcd_error (ec_delete key)).
#[global] Instance etcd_core : KvCore (EtcdCore D) := {| kv_get := etcd_get; kv_set := etcd_set; kv_delete := etcd_delete |}.
Definition etcd_Write : Write (KvBackend (EtcdCore D) * KvWriter) := KvWriter_Write.
Definition etcd_delete_once : str -> str -> OpDelete -> M (KvBackend (EtcdCore D)) Error unit := kv_delete_once.
Definition etcd_Delete : Types.Delete (KvBackend (EtcdCore D) * KvDeleter) := kv_deleter etcd_delete_once.

  Variable root : str.
Definition etcd_new (core : EtcdCore D) : KvBackend (EtcdCore D) :=
  mkKv (set_root root (kv_info (b "etcd") (b "etcd") (kv_capability true false false false true))) core.

Definition etcd_not_found : Error := error NotFound "path not found".
Definition closed (p : str) : str := if ends_with [slash] p then p else p ++ [slash].
Definition etcd_create_dir (path : str) : M (KvBackend (EtcdCore D)) Error unit :=
  p ← lift (build_abs_path root path);
  on_core (etcd_set (closed p) Buffer.new).
Definition etcd_stat (path : str) (_ : OpStat) : M (KvBackend (EtcdCore D)) Error Metadata :=
  p ← lift (build_abs_path root path);
  r ← on_core (etcd_get p);
  match r with
  | Some buffer => mret (set_content_length (Z.of_nat (blen buffer)) (meta_new (from_path p)))
  | None =>
      has_children ← on_core (etcd_has_prefix (closed p));
      if has_children : bool then mret (meta_new DIR) else throw etcd_not_found
  end.
Definition etcd_read (path : str) (args : OpRead) : M (KvBackend (EtcdCore D)) Error (option Metadata * Buffer) :=
  p ← lift (build_abs_path root path);
  r ← on_core (etcd_get p);
  match r with
  | Some buffer =>
      let total_size := Z.of_nat (blen buffer) in
      sliced ← lift (checked_slice buffer (read_range args));
      mret (Some (set_content_length total_size (meta_new FILE)), sliced)
  | None => throw etcd_not_found
  end.

(** Keys that are not UTF-8 are an error. *)
Fixpoint etcd_keys (kvs : list str) : result (list str) :=
  match kvs with
  | [] => Ok []
  | kv :: kvs =>
      key ← ok_or (set_source (b "invalid utf-8 sequence") (error Unexpected "store key is not valid utf-8 string"))
              (from_utf8 (as_bytes kv));
      keys ← etcd_keys kvs;
      Ok (key :: keys)
  end.
Definition etcd_lister_new (path : str) : M (KvBackend (EtcdCore D)) Error EtcdLister :=
  p ← lift (build_abs_path root path);
  resp ← on_core (etcd_conn;; on_etcd (err_of format_etcd_error (ec_prefix p None)));
  keys ← lift (etcd_keys resp);
  mret (mkEtcdL root p keys).
Definition etcd_list (path : str) (args : OpList) : M (KvBackend (EtcdCore D)) Error (HierarchyLister EtcdLister) :=
  lister ← etcd_lister_new path;
  mret (hierarchy_new lister path (list_recursive args)).
Definition etcd_access : Access (KvBackend (EtcdCore D)) Buffer KvWriter (HierarchyLister EtcdLister) KvDeleter unit :=
  {| a_info := kb_info; a_create_dir := etcd_create_dir; a_stat := etcd_stat; a_read := etcd_read; a_write := kv_write root;
     a_delete := mret (mkKvDeleter root); a_list := etcd_list;
     a_copy _ _ _ _ := throw not_supported; a_rename _ _ := throw not_supported |}.
End Etcd.

(** The keys with a prefix come in order, up to the limit. *)
Class EtcdLaws (D : Type) `{EtcdCrate D} : Type := {
  ev_view : D -> table;
  etcd_pool_law d : let '(r, d') := etcd_pool_get d in ev_view d' = ev_view d /\ r <> Panic;
  ec_get_law k d :
    let '(r, d') := ec_get k d in
    ev_view d' = ev_view d /\ match r with Ok v => v = ev_view d !! k | Err _ => True | Panic => False end;
  ec_prefix_law p limit d :
    let '(r, d') := ec_prefix p limit d in
    ev_view d' = ev_view d /\
    match r with
    | Ok ks => let all := filter (fun k => starts_with p k = true) (keys_of (ev_view d)) in
               ks = match limit with Some n => take (Z.to_nat n) all | None => all end
    | Err _ => True
    | Panic => False
    end;
  ec_put_law k v d :
    let '(r, d') := ec_put k v d in
    match r with Ok _ => ev_view d' = <[k := v]> (ev_view d) | Err _ => same_but k (ev_view d) (ev_view d') | Panic => False end;
  ec_delete_law k d :
    let '(r, d') := ec_delete k d in
    match r with Ok _ => ev_view d' = delete k (ev_view d) | Err _ => same_but k (ev_view d) (ev_view d') | Panic => False end;
}.

Section EtcdMap.
  Context {D : Type} `{EtcdLaws D}.

Definition etcd_failure (e : Error) : Prop :=
  (exists d : D, (etcd_pool_get d).1 = Err e) \/ e = set_temporary (error Unexpected "connection request: timeout") \/
  exists s, e = format_etcd_error s.

(** A call on a client of the pool. *)
Lemma etcd_then {X} (m : M (EtcdCore D) Error X) (P : table -> result X -> table -> Prop) c :
  (forall c1, let '(r, c') := m c1 in P (ev_view (et_db c1)) r (ev_view (et_db c'))) ->
  (forall t e, etcd_failure e -> P t (Err e) t) ->
  let '(r, c') := (etcd_conn;; m) c in P (ev_view (et_db c)) r (ev_view (et_db c')).
Proof.
  intros Hm He. unfold mbind at 1, M_bind at 1. unfold etcd_conn, on_etcd. run_core. pose proof (etcd_pool_law (et_db c)) as Hl.
  destruct (etcd_pool_get (et_db c)) as [[[[]|]|e|] d] eqn:E; destruct Hl as [Hv Hp]; simpl; [| | |done].
  - specialize (Hm (mkEtcd (et_endpoints c) d)). simpl in Hm. by rewrite <- Hv.
  - rewrite Hv. apply He. right. by left.
  - rewrite Hv. apply He. left. exists (et_db c). by rewrite E.
Qed.
Lemma etcd_get_spec k (c : EtcdCore D) :
  let '(r, c') := etcd_get k c in
  ev_view (et_db c') = ev_view (et_db c) /\
  match r with
  | Ok (Some v) => wf v /\ ev_view (et_db c) !! k = Some (contents v)
  | Ok None => ev_view (et_db c) !! k = None
  | Err e => etcd_failure e
  | Panic => False
  end.
Proof.
  unfold etcd_get.
  pose proof (etcd_then (resp ← on_etcd (err_of format_etcd_error (ec_get k)); mret (buffer_of resp))
    (fun t r t' => t' = t /\ match r with Ok (Some v) => wf v /\ t !! k = Some (contents v) | Ok None => t !! k = None | Err e => etcd_failure e | Panic => False end) c) as Hl.
  destruct ((etcd_conn;; _) c) as [r c']. apply Hl; [|done]. clear Hl. intros c1. unfold on_etcd. run_core.
  pose proof (ec_get_law k (et_db c1)) as Hg. destruct (ec_get k (et_db c1)) as [r1 d1]. destruct Hg as [Hv Hr].
  apply buffer_of_map in Hr. destruct r1 as [v|e|]; simpl; try done. split; [done|]. unfold etcd_failure. eauto.
Qed.
Lemma etcd_prefix_spec p limit (c : EtcdCore D) :
  let '(r, c') := (etcd_conn;; on_etcd (err_of format_etcd_error (ec_prefix p limit))) c in
  ev_view (et_db c') = ev_view (et_db c) /\
  match r with
  | Ok ks => let all := filter (fun k => starts_with p k = true) (keys_of (ev_view (et_db c))) in
             ks = match limit with Some n => take (Z.to_nat n) all | None => all end
  | Err e => etcd_failure e
  | Panic => False
  end.
Proof.
  apply (etcd_then _ (fun t r t' => t' = t /\ match r with
    | Ok ks => let all := filter (fun k => starts_with p k = true) (keys_of t) in ks = match limit with Some n => take (Z.to_nat n) all | None => all end
    | Err e => etcd_failure e | Panic => False end)); [|done].
  intros c1. unfold on_etcd. run_core. pose proof (ec_prefix_law p limit (et_db c1)) as Hg.
  destruct (ec_prefix p limit (et_db c1)) as [r1 d1]. destruct Hg as [Hv Hr]. destruct r1 as [ks|e|]; simpl; try done.
  split; [done|]. unfold etcd_failure. eauto.
Qed.
#[export] Instance etcd_map : KvExact (EtcdCore D).
Proof using All.
  refine {| ke_view c := ev_view (et_db c); ke_ok _ := True |}.
  - intros k c _. unfold kv_get, etcd_core. pose proof (etcd_get_spec k c) as Hl. destruct (etcd_get k c) as [r c'].
    destruct Hl as [Hv Hr]. split_and!; [done | done|]. by destruct r as [[]|e|].
  - intros k v c _ Hv. unfold kv_set, etcd_core, etcd_set.
    pose proof (etcd_then (on_etcd (err_of format_etcd_error (ec_put k (contents v))))
      (fun t r t' => match r with Ok _ => t' = <[k := contents v]> t | Err _ => same_but k t t' | Panic => False end) c) as Hl.
    destruct ((etcd_conn;; _) c) as [r c']. split; [done|]. apply Hl; [|done]. clear Hl. intros c1. unfold on_etcd. run_core.
    pose proof (ec_put_law k (contents v) (et_db c1)) as Hg. destruct (ec_put _ _ _) as [[[]|e|] d1]; exact Hg.
  - intros k c _. unfold kv_delete, etcd_core, etcd_delete.
    pose proof (etcd_then (on_etcd (err_of format_etcd_error (ec_delete k)))
      (fun t r t' => match r with Ok _ => t' = delete k t | Err _ => same_but k t t' | Panic => False end) c) as Hl.
    destruct ((etcd_conn;; _) c) as [r c']. split; [done|]. apply Hl; [|done]. clear Hl. intros c1. unfold on_etcd. run_core.
    pose proof (ec_delete_law k (et_db c1)) as Hg. destruct (ec_delete _ _) as [[[]|e|] d1]; exact Hg.
Defined.
End EtcdMap.

(** A child of the closed path. *)
Definition etcd_child (m : table) (k : str) : Prop := exists j, is_Some (m !! j) /\ starts_with (closed k) j = true.

Section EtcdServes.
  Context {D : Type} `{EtcdLaws D}.
  Variable root : str.
  Hypothesis root_ok : normalized_root root.
  Hypothesis root_char : starts_char (tail root).

Lemma etcd_has_prefix_spec p (c : EtcdCore D) :
  let '(r, c') := etcd_has_prefix p c in
  ev_view (et_db c') = ev_view (et_db c) /\
  match r with
  | Ok h => h = true <-> exists j, is_Some (ev_view (et_db c) !! j) /\ starts_with p j = true
  | Err e => etcd_failure (D := D) e
  | Panic => False
  end.
Proof using Type.
  pose proof (etcd_prefix_spec p (Some 1%Z) c) as Hl. unfold etcd_has_prefix, mbind, M_bind in *.
  destruct (etcd_conn c) as [[[]|e|] c1]; [|done..].
  destruct (on_etcd _ c1) as [[ks|e|] c2]; [|done..]. destruct Hl as [Hv Hks]. simpl in Hks. split; [done|].
  set (all := filter _ _) in Hks. rewrite negb_true_iff, bool_decide_eq_false. split.
  - intros Hne. destruct all as [|j l] eqn:E; [by subst ks|]. exists j.
    assert (j ∈ filter (fun k : str => starts_with p k = true) (keys_of (ev_view (et_db c)))) as Hj by (fold all; rewrite E; by left).
    apply list_elem_of_filter in Hj as [Hj Hin]. by apply elem_keys_of in Hin.
  - intros (j & Hin%elem_keys_of & Hj) ->. assert (j ∈ all) as Ha by by apply list_elem_of_filter.
    destruct all; [by apply not_elem_of_nil in Ha | done].
Qed.

(** etcd is a map with directories: puts and deletes are those of a map;
    creating a directory stores an empty object under its closed path; a read
    returns the bytes of the range that the object has, refuses an offset that is
    not in it, and never panics; a stat tells an object's length, a path with an
    object below it is a directory, and anything else is not found. *)
Theorem etcd_serves :
  (forall p bss (s : KvBackend (EtcdCore D)), Forall wf bss ->
    let '(r, s') := put_session (etcd_access root) p bss s in
    kv_spec root etcd_not_found etcd_failure (stored s) (KPut p bss) (APut r) (stored s')) /\
  (forall p (s : KvBackend (EtcdCore D)),
    let '(r, s') := delete_session (etcd_access root) p s in
    kv_spec root etcd_not_found etcd_failure (stored s) (KDelete p) (ADelete r) (stored s')) /\
  (forall p (s : KvBackend (EtcdCore D)),
    let '(r, s') := a_create_dir (etcd_access root) p s in
    match r with
    | Ok _ => stored s' = <[closed (kv_key root p) := []]> (stored s)
    | Err _ => same_but (closed (kv_key root p)) (stored s) (stored s')
    | Panic => False
    end) /\
  (forall p args (s : KvBackend (EtcdCore D)), range_in_u64 (read_range args) ->
    let '(r, s') := a_read (etcd_access root) p args s in
    stored s' = stored s /\
    (match stored s !! kv_key root p with
     | Some data => exists o, reads_or_refuses data (read_range args) o /\
         r = (fun buf => (Some (set_content_length (Z.of_nat (length data)) (meta_new FILE)), buf)) <$> o
     | None => r = Err etcd_not_found
     end \/ exists e, r = Err e /\ etcd_failure e)) /\
  (forall p (s : KvBackend (EtcdCore D)),
    let '(r, s') := a_stat (etcd_access root) p op_stat s in
    stored s' = stored s /\
    (match stored s !! kv_key root p with
     | Some data => r = Ok (set_content_length (Z.of_nat (length data)) (meta_new (from_path (kv_key root p))))
     | None => etcd_child (stored s) (kv_key root p) /\ r = Ok (meta_new DIR) \/
               ~ etcd_child (stored s) (kv_key root p) /\ r = Err etcd_not_found
     end \/ exists e, r = Err e /\ etcd_failure e)).
Proof using All.
  split_and!.
  - intros p bss s Hall.
    pose proof (kv_put_spec "path not found" root root_ok root_char (etcd_access root) p bss s eq_refl I (conj Hall I)) as Hl.
    destruct (put_session _ _ _ _) as [r s']. destruct Hl as (_ & m & m' & -> & Hspec & <-). by destruct r.
  - intros p s. pose proof (kv_delete_spec "path not found" root root_ok root_char (etcd_access root) p s eq_refl I I) as Hl.
    destruct (delete_session _ _ _) as [r s']. destruct Hl as (_ & m & m' & -> & Hspec & <-). by destruct r.
  - intros p s. unfold etcd_access, a_create_dir, etcd_create_dir, on_core. run_core. rewrite (kv_abs root root_ok root_char). simpl.
    pose proof (ke_set_law (closed (kv_key root p)) Buffer.new (kb_core s) I) as Hl. unfold kv_set, etcd_core in Hl.
    destruct (etcd_set _ _ (kb_core s)) as [r c']. destruct Hl as [_ Hl]; [done|]. exact Hl.
  - intros p args s Hr. unfold etcd_access, a_read, etcd_read, on_core. run_core. rewrite (kv_abs root root_ok root_char). simpl.
    pose proof (etcd_get_spec (kv_key root p) (kb_core s)) as Hl. destruct (etcd_get _ (kb_core s)) as [r c']. destruct Hl as [Hv Hl].
    unfold stored. simpl. destruct r as [[v|]|e|]; simpl; [| | |done].
    + destruct Hl as [Hw Hk]. pose proof (checked_slice_spec v (read_range args) Hw Hr) as Hc.
      destruct (checked_slice v (read_range args)) as [buf|e|] eqn:E; simpl; (split; [done|]); left; rewrite Hk; eexists;
        (split; [exact Hc|]); by rewrite (contents_length v Hw).
    + split; [done|]. left. by rewrite Hl.
    + split; [done|]. right. by eauto.
  - intros p s. unfold etcd_access, a_stat, etcd_stat, on_core. run_core. rewrite (kv_abs root root_ok root_char). simpl.
    pose proof (etcd_get_spec (kv_key root p) (kb_core s)) as Hl. destruct (etcd_get _ (kb_core s)) as [r c']. destruct Hl as [Hv Hl].
    unfold stored. simpl. destruct r as [[v|]|e|]; simpl; [| | |done].
    + destruct Hl as [Hw Hk]. split; [done|]. left. by rewrite Hk, (contents_length v Hw).
    + pose proof (etcd_has_prefix_spec (closed (kv_key root p)) c') as Hp. destruct (etcd_has_prefix _ c') as [r c'']. destruct Hp as [Hv' Hp].
      rewrite Hv in Hv', Hp. destruct r as [[]|e|]; simpl; [| | |done]; (split; [done|]).
      * left. rewrite Hl. left. split; [|done]. by apply Hp.
      * left. rewrite Hl. right. split; [|done]. intros Hch. by apply Hp in Hch.
      * right. by eauto.
    + split; [done|]. right. by eauto.
Qed.
End EtcdServes.

(** ** cacache *)

Inductive CacacheError : Type := EntryNotFound (cache key : str) | CacacheOther (message : str).
Definition show_cacache (e : CacacheError) : str := match e with EntryNotFound _ k => k | CacacheOther m => m end.
(** The functions of the crate on a cache directory; an index entry has the size
    of the content and a time in milliseconds. *)
Record CacacheMeta : Type := mkCacacheMeta { ca_size : Z; ca_time : Z }.
Class CacacheCrate (D : Type) : Type := {
  ca_read : str -> str -> M D CacacheError bytes;
  ca_write : str -> str -> bytes -> M D CacacheError unit;
  ca_remove : str -> str -> M D CacacheError unit;
  ca_metadata : str -> str -> M D CacacheError (option CacacheMeta);
  (** [Timestamp::from_millisecond]. *)
  from_millisecond : Z -> option Z;
}.
Record CacacheCore (D : Type) : Type := mkCacache { ca_path : str; ca_db : D }.
Arguments mkCacache {D}.
Arguments ca_path {D}.
Arguments ca_db {D}.
Definition cacache_error (op : string) (message : string) (e : CacacheError) : Error :=
  set_source (show_cacache e) (with_operation (b op) (error Unexpected message)).

Section Cacache.
  Context {D : Type} `{CacacheCrate D}.

Definition on_cacache {X} (m : str -> M D CacacheError X) : M (CacacheCore D) CacacheError X := fun c =>
  let '(r, d) := m (ca_path c) (ca_db c) in (r, mkCacache (ca_path c) d).
Definition cacache_get (key : str) : M (CacacheCore D) Error (option bytes) := fun c =>
  let '(r, c) := on_cacache (fun path => ca_read path key) c in
  (match r with
   | Ok bs => Ok (Some bs)
   | Err (EntryNotFound _ _) => Ok None
   | Err e => Err (cacache_error "CacacheCore::get" "cacache get failed" e)
   | Panic => Panic
   end, c).
Definition cacache_set (key : str) (value : bytes) : M (CacacheCore D) Error unit :=
  err_of (cacache_error "CacacheCore::set" "cacache set failed") (on_cacache (fun path => ca_write path key value)).
Definition cacache_delete (key : str) : M (CacacheCore D) Error unit :=
  err_of (cacache_error "CacacheCore::delete" "cacache delete failed") (on_cacache (fun path => ca_remove path key)).
Definition cacache_metadata (key : str) : M (CacacheCore D) Error (option CacacheMeta) := fun c =>
  let '(r, c) := on_cacache (fun path => ca_metadata path key) c in
  (match r with
   | Ok md => Ok md
   | Err (EntryNotFound _ _) => Ok None
   | Err e => Err (cacache_error "CacacheCore::metadata" "cacache metadata failed" e)
   | Panic => Panic
   end, c).

Definition cacache_writer_close : M (KvBackend (CacacheCore D) * KvWriter) Error Metadata :=
  '(_, w) ← get;
  buf ← lift (qcollect (kw_buffer w));
  let length := Z.of_nat (blen buf) in
  zoom fst (fun s x => (s, x.2)) (on_core (cacache_set (kw_path w) (contents buf)));;
  mret (set_content_length length (meta_new (from_path (kw_path w)))).
#[global] Instance cacache_Write : Write (KvBackend (CacacheCore D) * KvWriter) :=
  {| w_write bs := modify (fun '(s, w) => (s, mkKvWriter (kw_path w) (qpush (kw_buffer w) bs)));
     w_close := cacache_writer_close;
     w_abort := modify (fun '(s, w) => (s, mkKvWriter (kw_path w) (qclear (kw_buffer w)))) |}.
Definition cacache_delete_once (path : str) (_ : OpDelete) : M (KvBackend (CacacheCore D)) Error unit := on_core (cacache_delete path).
#[global] Instance cacache_Delete : Types.Delete (KvBackend (CacacheCore D) * unit) :=
  {| d_delete path args x :=
       zoom (fun x => mkOneShotDeleter x.1) (fun d x => (osd_inner d, x.2)) (@one_shot_delete _ cacache_delete_once path args) x;
     d_close := mret tt |}.

Definition cacache_build (datadir : option str) (db : D) : result (KvBackend (CacacheCore D)) :=
  datadir_path ← ok_or (with_context (b "service") (b "cacache") (error ConfigInvalid "datadir is required but not set")) datadir;
  let cap := kv_capability_with false false false false false false in
  Ok (mkKv (kv_info (b "cacache") datadir_path cap) (mkCacache datadir_path db)).

Definition entry_not_found : Error := error NotFound "entry not found".
Definition cacache_stat (path : str) (_ : OpStat) : M (KvBackend (CacacheCore D)) Error Metadata :=
  metadata ← on_core (cacache_metadata path);
  match metadata with
  | Some meta =>
      let md := set_content_length (ca_size meta) (meta_new FILE) in
      let millis := as_i64 (wrap64 (ca_time meta)) in
      mret (match from_millisecond millis with Some dt => set_last_modified dt md | None => md end)
  | None => throw entry_not_found
  end.
Definition cacache_read (path : str) (args : OpRead) : M (KvBackend (CacacheCore D)) Error (option Metadata * Buffer) :=
  data ← on_core (cacache_get path);
  match data with
  | Some bs =>
      let content_length := Z.of_nat (length bs) in
      buffer ← lift (clip_slice (from_bytes bs) (read_range args));
      mret (Some (set_content_length content_length (meta_new FILE)), buffer)
  | None => throw entry_not_found
  end.
Definition cacache_access : Access (KvBackend (CacacheCore D)) Buffer KvWriter unit unit unit :=
  {| a_info := kb_info; a_create_dir _ := throw not_supported; a_stat := cacache_stat; a_read := cacache_read;
     a_write path _ := mret (kv_writer_new path); a_delete := mret tt; a_list _ _ := throw not_supported;
     a_copy _ _ _ _ := throw not_supported; a_rename _ _ := throw not_supported |}.
End Cacache.

(** A cache directory: the index and the content agree. *)
Class CacacheLaws (D : Type) `{CacacheCrate D} : Type := {
  ca_view : str -> D -> table;
  ca_read_law path k d :
    let '(r, d') := ca_read path k d in
    ca_view path d' = ca_view path d /\
    match r with Ok v => ca_view path d !! k = Some v | Err (EntryNotFound _ _) => ca_view path d !! k = None | Err _ => True | Panic => False end;
  ca_write_law path k v d :
    let '(r, d') := ca_write path k v d in
    match r with Ok _ => ca_view path d' = <[k := v]> (ca_view path d) | Err _ => same_but k (ca_view path d) (ca_view path d') | Panic => False end;
  ca_remove_law path k d :
    let '(r, d') := ca_remove path k d in
    match r with Ok _ => ca_view path d' = delete k (ca_view path d) | Err _ => same_but k (ca_view path d) (ca_view path d') | Panic => False end;
  ca_metadata_law path k d :
    let '(r, d') := ca_metadata path k d in
    ca_view path d' = ca_view path d /\
    match r with
    | Ok md => ca_size <$> md = (fun v => Z.of_nat (length v)) <$> (ca_view path d !! k)
    | Err (EntryNotFound _ _) => ca_view path d !! k = None
    | Err _ => True
    | Panic => False
    end;
}.

Section CacacheServes.
  Context {D : Type} `{CacacheLaws D}.
Definition ca_stored (s : KvBackend (CacacheCore D)) : table := ca_view (ca_path (kb_core s)) (ca_db (kb_core s)).

Lemma cacache_write_buffers bss (s : KvBackend (CacacheCore D)) w :
  Forall wf bss -> qwf (kw_buffer w) ->
  exists q, write_buffers bss (s, w) = (Ok tt, (s, mkKvWriter (kw_path w) q)) /\ qwf q /\
    qcontents q = qcontents (kw_buffer w) ++ concat (contents <$> bss).
Proof.
  intros Hall. revert w. induction Hall as [|bs bss Hb _ IH]; intros w Hq; simpl.
  { exists (kw_buffer w). rewrite app_nil_r. by destruct w. }
  unfold mbind, M_bind, modify. simpl. destruct (qpush_spec _ bs Hq Hb) as [Hq' Hc'].
  destruct (IH (mkKvWriter (kw_path w) (qpush (kw_buffer w) bs))) as (q & E & Hqq & Hcc); [done|].
  simpl in *. exists q. split_and!; [done..|]. by rewrite Hcc, Hc', <- app_assoc.
Qed.

(** cacache is a map under the paths as they are: a completed write stores
    exactly its bytes, a delete removes the path, a read returns the bytes of the
    range that the object has and panics on an offset past its end, a stat tells
    its length; a failed call touches no other path. *)
Theorem cacache_serves :
  (forall p bss (s : KvBackend (CacacheCore D)), Forall wf bss ->
    let '(r, s') := put_session cacache_access p bss s in
    let data := concat (contents <$> bss) in
    match r with
    | Ok meta => ca_stored s' = <[p := data]> (ca_stored s) /\ meta = set_content_length (Z.of_nat (length data)) (meta_new (from_path p))
    | Err e => same_but p (ca_stored s) (ca_stored s') /\ kind e = Unexpected
    | Panic => False
    end) /\
  (forall p (s : KvBackend (CacacheCore D)),
    let '(r, s') := delete_session cacache_access p s in
    match r with
    | Ok _ => ca_stored s' = delete p (ca_stored s)
    | Err e => same_but p (ca_stored s) (ca_stored s') /\ kind e = Unexpected
    | Panic => False
    end) /\
  (forall p args (s : KvBackend (CacacheCore D)), range_in_u64 (read_range args) ->
    let '(r, s') := a_read cacache_access p args s in
    ca_stored s' = ca_stored s /\
    (match ca_stored s !! p with
     | Some data => exists o, reads_or_panics data (read_range args) o /\
         r = (fun buf => (Some (set_content_length (Z.of_nat (length data)) (meta_new FILE)), buf)) <$> o
     | None => r = Err entry_not_found
     end \/ exists e, r = Err e /\ kind e = Unexpected)) /\
  (forall p (s : KvBackend (CacacheCore D)),
    let '(r, s') := a_stat cacache_access p op_stat s in
    ca_stored s' = ca_stored s /\
    match r with
    | Ok meta => m_mode meta = FILE /\ exists data, ca_stored s !! p = Some data /\ m_content_length meta = Some (Z.of_nat (length data))
    | Err e => ca_stored s !! p = None /\ e = entry_not_found \/ kind e = Unexpected
    | Panic => False
    end).
Proof using All.
  unfold ca_stored. split_and!.
  - intros p bss s Hall. unfold put_session. simpl.
    destruct (cacache_write_buffers bss s (kv_writer_new p) Hall) as (q & E & Hq & Hcq); [apply qwf_nil|].
    unfold mbind at 1, M_bind at 1. simpl in E. rewrite E. simpl. unfold cacache_writer_close, cacache_set, on_cacache, on_core. run_core.
    destruct (qcollect_ok q Hq) as (buf & -> & Hb & Hcb). simpl in *. rewrite Hcq in Hcb. simpl.
    pose proof (ca_write_law (ca_path (kb_core s)) p (contents buf) (ca_db (kb_core s))) as Hl.
    destruct (ca_write _ _ _ _) as [[[]|e|] d]; simpl; [|done..]. rewrite <- (contents_length buf Hb), <- Hcb. done.
  - intros p s. unfold delete_session. simpl. unfold mbind, M_bind, zoom, one_shot_delete, zoom, delete_one, cacache_delete_once, cacache_delete, on_cacache, on_core. run_core.
    pose proof (ca_remove_law (ca_path (kb_core s)) p (ca_db (kb_core s))) as Hl. destruct (ca_remove _ _ _) as [[[]|e|] d]; done.
  - intros p args s Hr. simpl. unfold cacache_read, cacache_get, on_cacache, on_core. run_core.
    pose proof (ca_read_law (ca_path (kb_core s)) p (ca_db (kb_core s))) as Hl. destruct (ca_read _ _ _) as [[v|[|]|] d]; simpl; destruct Hl as [Hv Hl]; [| | |done].
    + pose proof (clip_slice_spec (from_bytes v) (read_range args) I Hr) as Hc.
      destruct (clip_slice (from_bytes v) (read_range args)) as [buf|e|] eqn:E; simpl; (split; [done|]); left; rewrite Hl; eexists; (split; [exact Hc | done]).
    + split; [done|]. left. by rewrite Hl.
    + split; [done|]. right. by eexists.
  - intros p s. simpl. unfold cacache_stat, cacache_metadata, on_cacache, on_core. run_core.
    pose proof (ca_metadata_law (ca_path (kb_core s)) p (ca_db (kb_core s))) as Hl.
    destruct (ca_metadata _ _ _) as [[md|[|]|] d]; simpl; destruct Hl as [Hv Hl]; [| | |done].
    + destruct md as [md|]; simpl in *; (split; [done|]).
      * destruct (ca_view _ _ !! p) as [data|]; [|done]. simpl in Hl. injection Hl as ->.
        destruct (from_millisecond _); simpl; by eauto.
      * left. by destruct (ca_view _ _ !! p).
    + split; [done|]. by left.
    + split; [done|]. by right.
Qed.
End CacacheServes.

(** ** Servers that do what they promise *)

#[export] Instance MapRedis : RedisCrate table :=
  {| redis_pool_get d := (Ok (Some tt), d); rd_get k d := (Ok (d !! k), d);
     rd_getrange k s e d := (Ok (Some (getrange (default [] (d !! k)) s e)), d);
     rd_set k v d := (Ok tt, <[k := v]> d); rd_set_ex k v _ d := (Ok tt, <[k := v]> d); rd_del k d := (Ok tt, delete k d);
     rd_ping d := (Ok (b "PONG"), d) |}.
#[export] Instance MapRedis_laws : RedisLaws table.
Proof.
  refine {| rd_view d := d |}; simpl.
  - done.
  - intros k d. by exists d.
  - intros k s e d. by exists d.
  - intros k v d. by exists d, (<[k := v]> d).
  - intros k v ttl d. by exists d, (<[k := v]> d).
  - intros k d. by exists d, (delete k d).
Defined.
#[export] Instance MapEtcd : EtcdCrate table :=
  {| etcd_pool_get d := (Ok (Some tt), d); ec_get k d := (Ok (d !! k), d);
     ec_prefix p limit d :=
       let all := filter (fun k => starts_with p k = true) (keys_of d) in
       (Ok (match limit with Some n => take (Z.to_nat n) all | None => all end), d);
     ec_put k v d := (Ok tt, <[k := v]> d); ec_delete k d := (Ok tt, delete k d) |}.
#[export] Instance MapEtcd_laws : EtcdLaws table.
Proof. by refine {| ev_view d := d |}. Defined.
#[export] Instance MapCacache : CacacheCrate table :=
  {| ca_read p k d := (match d !! k with Some v => Ok v | None => Err (EntryNotFound p k) end, d);
     ca_write _ k v d := (Ok tt, <[k := v]> d); ca_remove _ k d := (Ok tt, delete k d);
     ca_metadata _ k d := (Ok ((fun v => mkCacacheMeta (Z.of_nat (length v)) 0) <$> d !! k), d);
     from_millisecond n := Some n |}.
#[export] Instance MapCacache_laws : CacacheLaws table.
Proof.
  refine {| ca_view _ d := d |}; try done.
  - intros p k d. simpl. by destruct (d !! k).
  - intros p k d. simpl. split; [done|]. by destruct (d !! k).
Defined.

Definition redis_sample : KvBackend (RedisCore table) := redis_new (mkRedis (b "localhost") None {[ b "d/a" := [x01; x02; x03] ]}).

Lemma redis_serves_witness :
  (a_read (redis_access (b "/d/")) (b "a") (read_with_range (mkRange 1 (Some 9%Z)) op_read) redis_sample).1 = Ok (None, Contiguous [x02; x03]) /\
  let '(r, s') := delete_session (redis_access (b "/d/")) (b "a") redis_sample in
  kv_step (b "/d/") (kv_not_found redis_missing) (get_failure (C := RedisCore table)) (kv_loses (C := RedisCore table)) (stored redis_sample) (KDelete (b "a")) (ADelete r) (stored s').
Proof.
  split; [vm_compute; reflexivity|].
  exact (proj1 (proj2 (proj2 (redis_serves (D := table) (b "/d/") cache_root eq_refl))) (b "a") redis_sample).
Defined.

Definition etcd_sample : KvBackend (EtcdCore table) := etcd_new (b "/d/") (mkEtcd [b "localhost"] {[ b "d/a/x" := [x01; x02; x03] ]}).
Lemma etcd_serves_witness :
  (a_stat (etcd_access (b "/d/")) (b "a") op_stat etcd_sample).1 = Ok (meta_new DIR) /\
  let '(r, s') := delete_session (etcd_access (b "/d/")) (b "a/x") etcd_sample in
  kv_spec (b "/d/") etcd_not_found (etcd_failure (D := table)) (stored etcd_sample) (KDelete (b "a/x")) (ADelete r) (stored s').
Proof.
  split; [vm_compute; reflexivity|].
  exact (proj1 (proj2 (etcd_serves (D := table) (b "/d/") cache_root eq_refl)) (b "a/x") etcd_sample).
Defined.

Lemma cacache_serves_witness :
  let s := mkKv info_default (mkCacache (b "/tmp") ({[ b "a" := [x01; x02] ]} : table)) in
  let '(r, s') := delete_session cacache_access (b "a") s in
  match r with
  | Ok _ => ca_stored s' = delete (b "a") (ca_stored s)
  | Err e => same_but (b "a") (ca_stored s) (ca_stored s') /\ kind e = Unexpected
  | Panic => False
  end.
Proof. exact (proj1 (proj2 (cacache_serves (D := table))) (b "a") (mkKv info_default (mkCacache (b "/tmp") {[ b "a" := [x01; x02] ]}))). Defined.

(** ** What goes wrong *)

(** A range of an object that does not exist is an empty object. *)
Theorem redis_range_of_missing :
  (a_read (redis_access (b "/d/")) (b "zz") (read_with_range (mkRange 0 (Some 4%Z)) op_read) redis_sample).1 = Ok (None, Contiguous []).
Proof. vm_compute. reflexivity. Qed.
(** An empty range at the start is the whole object: the end wraps around to -1. *)
Theorem redis_empty_range_is_all :
  (a_read (redis_access (b "/d/")) (b "a") (read_with_range (mkRange 0 (Some 0%Z)) op_read) redis_sample).1 = Ok (None, Contiguous [x01; x02; x03]).
Proof. vm_compute. reflexivity. Qed.
