(* ===== verification/SmallLayers.v ===== *)
(** * Small layers ([core/src/layers/capability_override.rs], [layers/mime-guess], [layers/chaos], [layers/throttle])

    Overriding the capabilities of an accessor from a text, guessing content
    types, injecting faults into reads and limiting the rate of writes. *)

From S2P Require Import Prelude Errors Path Range Buffer Types Access Listers Deleters Readers Retry Memory Text.
From Stdlib Require Import Floats.SpecFloat.
From stdpp Require Import options.

(** ** Capabilities as JSON

    [#[derive(Serialize, Deserialize)]] of [Capability], with
    [deny_unknown_fields]: booleans, and sizes that may be absent or [null]. *)

Inductive Json : Type := JNull | JBool (v : bool) | JNum (n : nat).
#[export] Instance Json_eq_dec : EqDecision Json.
Proof. solve_decision. Defined.
Abbreviation object := (gmap (list ascii) Json).

Definition bool_names : list str := b <$> [
  "stat"; "stat_with_if_match"; "stat_with_if_none_match"; "stat_with_if_modified_since";
  "stat_with_if_unmodified_since"; "stat_with_override_cache_control"; "stat_with_override_content_disposition";
  "stat_with_override_content_type"; "stat_with_version"; "read"; "read_with_if_match"; "read_with_if_none_match";
  "read_with_if_modified_since"; "read_with_if_unmodified_since"; "read_with_override_cache_control";
  "read_with_override_content_disposition"; "read_with_override_content_type"; "read_with_version"; "write";
  "write_can_multi"; "write_can_empty"; "write_can_append"; "write_with_content_type";
  "write_with_content_disposition"; "write_with_content_encoding"; "write_with_cache_control"; "write_with_if_match";
  "write_with_if_none_match"; "write_with_if_not_exists"; "write_with_user_metadata"; "create_dir"; "delete";
  "delete_with_version"; "delete_with_recursive"; "copy"; "copy_with_if_not_exists"; "copy_with_if_match";
  "copy_can_multi"; "rename"; "list"; "list_with_limit"; "list_with_start_after"; "list_with_recursive";
  "list_with_versions"; "list_with_deleted"; "presign"; "presign_read"; "presign_stat"; "presign_write";
  "presign_delete"; "shared"].
Definition size_names : list str := b <$> [
  "write_multi_max_size"; "write_multi_min_size"; "write_total_max_size"; "delete_max_size"; "copy_multi_max_size";
  "copy_multi_min_size"].
Definition cap_bools (c : Capability) : list bool := [
  cap_stat c; cap_stat_with_if_match c; cap_stat_with_if_none_match c; cap_stat_with_if_modified_since c;
  cap_stat_with_if_unmodified_since c; cap_stat_with_override_cache_control c;
  cap_stat_with_override_content_disposition c; cap_stat_with_override_content_type c; cap_stat_with_version c;
  cap_read c; cap_read_with_if_match c; cap_read_with_if_none_match c; cap_read_with_if_modified_since c;
  cap_read_with_if_unmodified_since c; cap_read_with_override_cache_control c;
  cap_read_with_override_content_disposition c; cap_read_with_override_content_type c; cap_read_with_version c;
  cap_write c; cap_write_can_multi c; cap_write_can_empty c; cap_write_can_append c; cap_write_with_content_type c;
  cap_write_with_content_disposition c; cap_write_with_content_encoding c; cap_write_with_cache_control c;
  cap_write_with_if_match c; cap_write_with_if_none_match c; cap_write_with_if_not_exists c;
  cap_write_with_user_metadata c; cap_create_dir c; cap_delete c; cap_delete_with_version c;
  cap_delete_with_recursive c; cap_copy c; cap_copy_with_if_not_exists c; cap_copy_with_if_match c;
  cap_copy_can_multi c; cap_rename c; cap_list c; cap_list_with_limit c; cap_list_with_start_after c;
  cap_list_with_recursive c; cap_list_with_versions c; cap_list_with_deleted c; cap_presign c; cap_presign_read c;
  cap_presign_stat c; cap_presign_write c; cap_presign_delete c; cap_shared c].
Definition cap_sizes (c : Capability) : list (option nat) := [
  cap_write_multi_max_size c; cap_write_multi_min_size c; cap_write_total_max_size c; cap_delete_max_size c;
  cap_copy_multi_max_size c; cap_copy_multi_min_size c].
Definition cap_of_lists (bs : list bool) (ss : list (option nat)) : Capability :=
  let f i := nth i bs false in
  let g i := nth i ss None in
  {|
    cap_stat := f 0; cap_stat_with_if_match := f 1; cap_stat_with_if_none_match := f 2;
    cap_stat_with_if_modified_since := f 3; cap_stat_with_if_unmodified_since := f 4;
    cap_stat_with_override_cache_control := f 5; cap_stat_with_override_content_disposition := f 6;
    cap_stat_with_override_content_type := f 7; cap_stat_with_version := f 8; cap_read := f 9;
    cap_read_with_if_match := f 10; cap_read_with_if_none_match := f 11; cap_read_with_if_modified_since := f 12;
    cap_read_with_if_unmodified_since := f 13; cap_read_with_override_cache_control := f 14;
    cap_read_with_override_content_disposition := f 15; cap_read_with_override_content_type := f 16;
    cap_read_with_version := f 17; cap_write := f 18; cap_write_can_multi := f 19; cap_write_can_empty := f 20;
    cap_write_can_append := f 21; cap_write_with_content_type := f 22; cap_write_with_content_disposition := f 23;
    cap_write_with_content_encoding := f 24; cap_write_with_cache_control := f 25; cap_write_with_if_match := f 26;
    cap_write_with_if_none_match := f 27; cap_write_with_if_not_exists := f 28; cap_write_with_user_metadata := f 29;
    cap_create_dir := f 30; cap_delete := f 31; cap_delete_with_version := f 32; cap_delete_with_recursive := f 33;
    cap_copy := f 34; cap_copy_with_if_not_exists := f 35; cap_copy_with_if_match := f 36;
    cap_copy_can_multi := f 37; cap_rename := f 38; cap_list := f 39; cap_list_with_limit := f 40;
    cap_list_with_start_after := f 41; cap_list_with_recursive := f 42; cap_list_with_versions := f 43;
    cap_list_with_deleted := f 44; cap_presign := f 45; cap_presign_read := f 46; cap_presign_stat := f 47;
    cap_presign_write := f 48; cap_presign_delete := f 49; cap_shared := f 50; cap_write_multi_max_size := g 0;
    cap_write_multi_min_size := g 1; cap_write_total_max_size := g 2; cap_delete_max_size := g 3;
    cap_copy_multi_max_size := g 4; cap_copy_multi_min_size := g 5 |}.

Definition size_value (v : option nat) : Json := match v with Some n => JNum n | None => JNull end.
Definition cap_pairs (c : Capability) : list (str * Json) :=
  zip bool_names (JBool <$> cap_bools c) ++ zip size_names (size_value <$> cap_sizes c).
Definition to_value (c : Capability) : object := list_to_map (cap_pairs c).

Definition get_bool (o : object) (name : str) : option bool :=
  match o !! name with Some (JBool v) => Some v | _ => None end.
Definition get_size (o : object) (name : str) : option (option nat) :=
  match o !! name with Some (JNum n) => Some (Some n) | Some JNull | None => Some None | _ => None end.
Definition known (o : object) : bool := forallb (fun kv => bool_decide (kv.1 ∈ bool_names ++ size_names)) (map_to_list o).
Definition from_value (o : object) : option Capability :=
  if known o then
    match mapM (get_bool o) bool_names, mapM (get_size o) size_names with
    | Some bs, Some ss => Some (cap_of_lists bs ss)
    | _, _ => None
    end
  else None.

(** *** Values and capabilities *)

(** A value the field of this name can take. *)
Definition field_value (name : str) (v : Json) : Prop :=
  match v with
  | JBool _ => name ∈ bool_names
  | JNum _ | JNull => name ∈ size_names
  end.
Definition field_values (o : object) : Prop := forall name v, o !! name = Some v -> field_value name v.

Lemma names_disjoint name : name ∈ bool_names -> name ∈ size_names -> False.
Proof.
  assert (Forall (fun n => n ∉ size_names) bool_names) as Hd by (apply (bool_decide_unpack _); vm_compute; exact I).
  rewrite Forall_forall in Hd. intros Hb. by apply Hd.
Qed.

Lemma map_nth_seq {X} (d : X) xs : map (fun i => nth i xs d) (seq 0 (length xs)) = xs.
Proof.
  induction xs as [|x xs IH]; [done|]. cbn [length seq map]. rewrite <- seq_shift, map_map. cbn [nth]. by rewrite IH.
Qed.
Lemma cap_lists bs ss :
  length bs = length bool_names -> length ss = length size_names ->
  cap_bools (cap_of_lists bs ss) = bs /\ cap_sizes (cap_of_lists bs ss) = ss.
Proof.
  intros Hb Hs. split.
  - transitivity (map (fun i => nth i bs false) (seq 0 (length bool_names))); [reflexivity|]. rewrite <- Hb. apply map_nth_seq.
  - transitivity (map (fun i => nth i ss None) (seq 0 (length size_names))); [reflexivity|]. rewrite <- Hs. apply map_nth_seq.
Qed.

Lemma cap_pairs_names c : (cap_pairs c).*1 = bool_names ++ size_names.
Proof. reflexivity. Qed.
Lemma to_value_some c name : is_Some (to_value c !! name) <-> name ∈ bool_names ++ size_names.
Proof.
  rewrite <- (cap_pairs_names c). unfold to_value. split.
  - intros [v Hv%elem_of_list_to_map_2]. by apply (list_elem_of_fmap_2' _ _ (name, v)).
  - intros Hn. destruct (list_to_map (M := object) (cap_pairs c) !! name) eqn:E; [done|].
    by apply not_elem_of_list_to_map in E.
Qed.

(** An object that has what the list says, and no other names, is that list. *)
Lemma list_to_map_agree (o : object) l :
  (forall k v, (k, v) ∈ l -> o !! k = Some v) -> (forall k, is_Some (o !! k) -> k ∈ l.*1) -> list_to_map l = o.
Proof.
  intros Hl Ho. apply map_eq. intros k. destruct (list_to_map (M := object) l !! k) as [v|] eqn:E.
  - symmetry. by apply Hl, elem_of_list_to_map_2.
  - apply not_elem_of_list_to_map_2 in E. destruct (o !! k) eqn:Ek; [|done]. destruct E. by apply Ho.
Qed.
Lemma zip_forall2 {X} (f : X -> Json) (o : object) names vs k v :
  Forall2 (fun n x => o !! n = Some (f x)) names vs -> (k, v) ∈ zip names (f <$> vs) -> o !! k = Some v.
Proof.
  induction 1 as [|n x names vs E _ IH]; cbn; [by intros ?%elem_of_nil|].
  intros [[= -> ->]|Hi]%elem_of_cons; [done | by apply IH].
Qed.

Lemma get_sizes (o : object) names ss :
  Forall (fun n => is_Some (o !! n)) names -> Forall2 (fun n x => get_size o n = Some x) names ss ->
  Forall2 (fun n x => o !! n = Some (size_value x)) names ss.
Proof.
  intros Hn. induction 1 as [|n x names ss E _ IH]; inversion Hn as [|? ? [v Hv] Hn']; subst; constructor; [|by apply IH].
  unfold get_size in E. rewrite Hv in E. destruct v; simplify_eq; by rewrite Hv.
Qed.

(** [from_value] takes the objects that name every field, with a value of its
    type: the capability it makes is written as that object. *)
Lemma from_value_full (o : object) :
  field_values o -> (forall name, is_Some (o !! name) <-> name ∈ bool_names ++ size_names) ->
  exists c, from_value o = Some c /\ to_value c = o.
Proof.
  intros Hf Hd. unfold from_value.
  assert (known o = true) as ->.
  { apply forallb_forall. intros [k v] Hi%list_elem_of_In%elem_of_map_to_list. apply bool_decide_eq_true.
    apply Hd. by exists v. }
  assert (exists bs, mapM (get_bool o) bool_names = Some bs) as [bs Eb].
  { apply mapM_is_Some, Forall_forall. intros name Hn. unfold compose, get_bool.
    destruct (proj2 (Hd name)) as [v Ev]; [apply elem_of_app; by left|]. rewrite Ev. specialize (Hf _ _ Ev).
    destruct v; [|by eexists|]; by destruct (names_disjoint name). }
  assert (exists ss, mapM (get_size o) size_names = Some ss) as [ss Es].
  { apply mapM_is_Some, Forall_forall. intros name Hn. unfold compose, get_size.
    destruct (proj2 (Hd name)) as [v Ev]; [apply elem_of_app; by right|]. rewrite Ev. specialize (Hf _ _ Ev).
    destruct v; [by eexists| |by eexists]. by destruct (names_disjoint name). }
  rewrite Eb, Es. eexists. split; [reflexivity|].
  apply mapM_Some in Eb, Es. destruct (cap_lists bs ss) as [Hb Hs]; [by symmetry; eapply Forall2_length..|].
  unfold to_value. apply list_to_map_agree.
  - intros k v. unfold cap_pairs. rewrite Hb, Hs. intros [Hi|Hi]%elem_of_app; revert Hi; apply zip_forall2.
    + eapply Forall2_impl; [exact Eb|]. intros name x. unfold get_bool. by repeat case_match; intros; simplify_eq.
    + apply get_sizes; [|done]. apply Forall_forall. intros name Hn. apply Hd, elem_of_app. by right.
  - intros k Hk. rewrite cap_pairs_names. by apply Hd.
Qed.

Lemma mapM_elem {X Y} (f : X -> option Y) l k x : mapM f l = Some k -> x ∈ l -> is_Some (f x).
Proof. intros E. assert (is_Some (mapM f l)) as Hm by (by exists k). apply mapM_is_Some in Hm. by rewrite Forall_forall in Hm; apply Hm. Qed.
Lemma from_value_inv o c : from_value o = Some c -> field_values o.
Proof.
  unfold from_value. destruct (known o) eqn:Ek; [|done]. intros E name v Ev.
  assert (name ∈ bool_names ++ size_names) as [Hn|Hn]%elem_of_app.
  { unfold known in Ek. rewrite forallb_forall in Ek. specialize (Ek (name, v)). apply bool_decide_eq_true in Ek; [done|].
    by apply list_elem_of_In, elem_of_map_to_list. }
  - destruct (mapM (get_bool o) bool_names) as [bs|] eqn:Eb; [|done].
    destruct (mapM_elem _ _ _ _ Eb Hn) as [x Hx]. unfold get_bool in Hx. rewrite Ev in Hx. by destruct v.
  - destruct (mapM (get_bool o) bool_names); [|done]. destruct (mapM (get_size o) size_names) as [ss|] eqn:Es; [|done].
    destruct (mapM_elem _ _ _ _ Es Hn) as [x Hx]. unfold get_size in Hx. rewrite Ev in Hx. by destruct v.
Qed.

Lemma to_value_fields c : field_values (to_value c).
Proof.
  intros name v Hv%elem_of_list_to_map_2. unfold cap_pairs in Hv. apply elem_of_app in Hv as [Hv|Hv].
  - pose proof (elem_of_zip_l _ _ _ _ Hv) as Hn. apply elem_of_zip_r in Hv. apply list_elem_of_fmap in Hv as (x & -> & _). done.
  - pose proof (elem_of_zip_l _ _ _ _ Hv) as Hn. apply elem_of_zip_r in Hv. apply list_elem_of_fmap in Hv as (x & -> & _). by destruct x.
Qed.

(** ** [CapabilityOverrideLayer] *)

Definition invalid_capability_override (token reason : str) : Error :=
  mkError ConfigInvalid (b "invalid capability override entry `" ++ token ++ b "`: " ++ reason) Permanent [] [] None.

Definition expected_value : Error := error ConfigInvalid "expected a boolean, non-negative integer, or `none`".
Definition parse_capability_value (value : str) : result Json :=
  if bool_decide (value ∈ [b "true"; b "on"; b "yes"]) then Ok (JBool true)
  else if bool_decide (value ∈ [b "false"; b "off"; b "no"]) then Ok (JBool false)
  else if bool_decide (value ∈ [b "none"; b "null"; b "unset"]) then Ok JNull
  else match parse_u64 value with Some n => Ok (JNum (Z.to_nat n)) | None => Err expected_value end.

(** [split_once('=')]. *)
Definition split_eq (token : str) : option (str * str) :=
  match find_char "="%char token with Some i => Some (take i token, drop (S i) token) | None => None end.
Definition parse_capability_override (token : str) : result (str * Json) :=
  match split_eq token with
  | None => Err (invalid_capability_override token (b "expected `capability=value`"))
  | Some (name, value) =>
      v ← map_err (fun err => invalid_capability_override token (show_error err)) (parse_capability_value (trim value));
      Ok (trim name, v)
  end.

Section Overrides.
  (** What serde reports of an object that is no capability. *)
  Variable de_error : object -> str.

Definition try_apply (values : object) (cap : Capability) : result Capability :=
  let o := values ∪ to_value cap in
  match from_value o with
  | Some cap => Ok cap
  | None => Err (mkError ConfigInvalid (b "failed to deserialize capability overrides: " ++ de_error o) Permanent [] [] None)
  end.

Fixpoint overrides_loop (tokens : list str) (values : object) : result object :=
  match tokens with
  | [] => Ok values
  | token :: tokens =>
      '(name, value) ← parse_capability_override token;
      let values := <[name := value]> values in
      map_err (fun err => invalid_capability_override token (b "failed to apply override: " ++ show_error err))
        (try_apply values capability_default);;
      overrides_loop tokens values
  end.
(** [input.split(',').map(str::trim).filter(|v| !v.is_empty())]. *)
Definition override_tokens (input : str) : list str := filter (fun v => v <> []) (trim <$> split ","%char input).
Definition overrides_parse (input : str) : result object := overrides_loop (override_tokens input) ∅.
(** Panics when the overrides do not apply. *)
Definition overrides_apply (values : object) (cap : Capability) : result Capability :=
  match try_apply values cap with Ok cap => Ok cap | _ => Panic end.

(** [layer]: the info of the accessor is changed in place. *)
Definition override_layer (values : object) (info : AccessorInfo) : result AccessorInfo :=
  cap ← overrides_apply values (full_capability info);
  Ok (update_full_capability (fun _ => cap) info).

(** *** What overriding does *)

Lemma try_apply_ok (ov : object) c :
  field_values ov -> exists c', try_apply ov c = Ok c' /\ to_value c' = ov ∪ to_value c.
Proof.
  intros Hov. unfold try_apply. destruct (from_value_full (ov ∪ to_value c)) as (c' & -> & Hc').
  - intros name v [Hv|[_ Hv]]%lookup_union_Some_raw; [by apply Hov | by apply (to_value_fields c)].
  - intros name. rewrite lookup_union_is_Some, (to_value_some c). split; [|by right].
    intros [[v Hv]|?]; [|done]. apply elem_of_app. specialize (Hov _ _ Hv). destruct v; auto.
  - by exists c'.
Qed.
Lemma try_apply_inv (ov : object) c c' : try_apply ov c = Ok c' -> field_values ov.
Proof.
  unfold try_apply. destruct (from_value _) as [c0|] eqn:E; [|done]. intros _ name v Hv.
  by apply (from_value_inv _ _ E), lookup_union_Some_l.
Qed.

Lemma overrides_loop_ok tokens values ov :
  overrides_loop tokens values = Ok ov -> field_values values ->
  field_values ov /\ exists entries,
    Forall2 (fun token entry => parse_capability_override token = Ok entry) tokens entries /\
    ov = foldl (fun m entry => <[entry.1 := entry.2]> m) values entries.
Proof.
  revert values. induction tokens as [|token tokens IH]; intros values; cbn [overrides_loop].
  { intros [= <-] Hv. split; [done|]. by exists []. }
  unfold mbind, outcome_bind. destruct (parse_capability_override token) as [[name v]|e|] eqn:Ep; [|done..].
  destruct (try_apply _ _) as [c| |] eqn:Et; simpl; [|done..]. intros E _. apply try_apply_inv in Et.
  destruct (IH _ E Et) as (Hov & entries & Hf & ->). split; [done|]. exists ((name, v) :: entries).
  by split; [constructor|].
Qed.

(** C27.  An override text that is accepted can be applied to every capability
    without a panic: each entry of the text parses, the last one of a name wins,
    and applying them changes exactly the capabilities they name, to the values
    they give; the native capability, the scheme, the root and the name of the
    accessor stay as they were. *)
Theorem overrides_take_effect input ov info :
  overrides_parse input = Ok ov ->
  exists entries info',
    Forall2 (fun token entry => parse_capability_override token = Ok entry) (override_tokens input) entries /\
    (forall name, ov !! name = snd <$> last (filter (fun entry => entry.1 = name) entries)) /\
    override_layer ov info = Ok info' /\
    to_value (full_capability info') = ov ∪ to_value (full_capability info) /\
    info' = update_full_capability (fun _ => full_capability info') info.
Proof.
  intros Hp. apply overrides_loop_ok in Hp as (Hov & entries & Hf & Eov); [|by intros ? ?].
  destruct (try_apply_ok ov (full_capability info) Hov) as (c' & Hc & Hv).
  exists entries, (update_full_capability (fun _ => c') info). split; [exact Hf|]. split; [|split].
  - intros name. rewrite Eov, foldl_insert_last. by destruct (last _).
  - unfold override_layer, overrides_apply. by rewrite Hc.
  - by split.
Qed.
End Overrides.

Lemma overrides_take_effect_witness :
  let input := b "read=no, delete_max_size = 7,, read=yes" in
  let ov := <[b "delete_max_size" := JNum 7]> {[b "read" := JBool true]} : object in
  exists entries info',
    Forall2 (fun token entry => parse_capability_override token = Ok entry) (override_tokens input) entries /\
    (forall name, ov !! name = snd <$> last (filter (fun entry => entry.1 = name) entries)) /\
    override_layer (fun _ => []) ov info_default = Ok info' /\
    to_value (full_capability info') = ov ∪ to_value (full_capability info_default) /\
    info' = update_full_capability (fun _ => full_capability info') info_default.
Proof.
  intros input ov. apply (overrides_take_effect (fun _ => [])).
  assert (bool_decide (overrides_parse (fun _ => []) input = Ok ov) = true) as H by (vm_compute; reflexivity).
  by apply bool_decide_eq_true in H.
Defined.

(** ** [MimeGuessLayer] *)

Section MimeGuess.
  (** [mime_guess::from_path(path).first_raw()]. *)
  Variable mime_from_path : str -> option str.

Definition op_write_with_content_type (v : str) (o : OpWrite) : OpWrite :=
  mkOpWrite (write_append o) (write_concurrent o) (Some v) (write_content_disposition o) (write_content_encoding o)
    (write_cache_control o) (write_if_match o) (write_if_none_match o) (write_if_not_exists o) (write_user_metadata o).
Definition opwrite_with_mime (path : str) (op : OpWrite) : OpWrite :=
  if bool_decide (is_Some (write_content_type op)) then op
  else match mime_from_path path with Some mime => op_write_with_content_type mime op | None => op end.
Definition rpstat_with_mime (path : str) (metadata : Metadata) : Metadata :=
  if bool_decide (is_Some (m_content_type metadata)) then metadata
  else match mime_from_path path with Some mime => set_content_type mime metadata | None => metadata end.

  Context {A Rd Wr Ls Dl Cp : Type}.
  Variable inner : Access A Rd Wr Ls Dl Cp.

Definition mime_guess_layer : Access A Rd Wr Ls Dl Cp :=
  {| a_info := a_info inner; a_create_dir := a_create_dir inner;
     a_stat path args s := let '(r, s') := a_stat inner path args s in (rpstat_with_mime path <$> r, s');
     a_read := a_read inner;
     a_write path args := a_write inner path (opwrite_with_mime path args);
     a_delete := a_delete inner; a_list := a_list inner; a_copy := a_copy inner; a_rename := a_rename inner |}.

(** The content type that is set stays; the one that is missing is guessed, when
    there is a guess; nothing else changes. *)
Theorem mime_guess_stat path args s meta s' :
  a_stat inner path args s = (Ok meta, s') ->
  exists meta', a_stat mime_guess_layer path args s = (Ok meta', s') /\
    m_content_type meta' = (match m_content_type meta with Some v => Some v | None => mime_from_path path end) /\
    (forall v, set_content_type v meta' = set_content_type v meta).
Proof.
  intros E. simpl. rewrite E. eexists. split; [reflexivity|]. unfold rpstat_with_mime.
  destruct (m_content_type meta) as [v|] eqn:Ev.
  - by rewrite bool_decide_eq_true_2.
  - rewrite bool_decide_eq_false_2 by (by intros []). destruct (mime_from_path path) as [mime|]; by rewrite ?Ev.
Qed.
Theorem mime_guess_write path args s :
  exists args', a_write mime_guess_layer path args s = a_write inner path args' s /\
    write_content_type args' = (match write_content_type args with Some v => Some v | None => mime_from_path path end) /\
    (forall v, op_write_with_content_type v args' = op_write_with_content_type v args).
Proof.
  eexists. split; [reflexivity|]. unfold opwrite_with_mime. destruct (write_content_type args) as [v|] eqn:Ev.
  - by rewrite bool_decide_eq_true_2.
  - rewrite bool_decide_eq_false_2 by (by intros []). destruct (mime_from_path path) as [mime|]; by rewrite ?Ev.
Qed.
End MimeGuess.

(** ** [ChaosLayer]

    [error_ratio] is a double.  The generator is shared by the readers of an
    operator: which of its points a reader gets depends on all of them, so a
    reader has the points it will get, and the accessor those of its readers, in
    the order they are opened. *)

Definition f64_of (n : Z) : spec_float := binary_normalize 53 1024 n 0 false.
Definition f64_mul : spec_float -> spec_float -> spec_float := SFmul 53 1024.
(** [v as u32]: truncates, saturates, and takes a NaN to zero. *)
Definition f64_as_u32 (v : spec_float) : Z :=
  match v with
  | S754_finite false m e => Z.min (2 ^ 32 - 1) (Z.shiftl (Zpos m) e)
  | S754_infinity false => 2 ^ 32 - 1
  | _ => 0
  end.

Record ChaosLayer : Type := mkChaos { error_ratio : spec_float }.
Definition chaos_new (ratio : spec_float) : result ChaosLayer :=
  if SFleb (f64_of 0) ratio && SFleb ratio (f64_of 1) then Ok (mkChaos ratio) else Panic.

Record ChaosReader (R : Type) : Type := mkChaosReader { ch_inner : R; ch_points : nat -> Z; ch_ratio : spec_float }.
Arguments mkChaosReader {R}.
Arguments ch_inner {R}.
Arguments ch_points {R}.
Arguments ch_ratio {R}.

Definition chaos_unexpected_eof : Error :=
  set_temporary (with_operation (b "chaos") (error Unexpected "I am your chaos!")).
Definition lucky_point (point : Z) (ratio : spec_float) : bool :=
  bool_decide (f64_as_u32 (f64_mul ratio (f64_of 100)) <= point)%Z.
Definition i_feel_lucky {R} (s : ChaosReader R) : bool * ChaosReader R :=
  (lucky_point (ch_points s 0) (ch_ratio s), mkChaosReader (ch_inner s) (fun i => ch_points s (S i)) (ch_ratio s)).

#[export] Instance ChaosReader_Read {R} `{Read R} : Read (ChaosReader R) := fun s =>
  let '(lucky, s) := i_feel_lucky s in
  if lucky then
    let '(r, inner) := read_buf (ch_inner s) in (r, mkChaosReader inner (ch_points s) (ch_ratio s))
  else (Err chaos_unexpected_eof, s).

Section Chaos.
  Context `{Backon} {A Rd Wr Ls Dl Cp : Type} `{Read Rd}.
  Variable layer : ChaosLayer.
  Variable inner : Access A Rd Wr Ls Dl Cp.

(** The accessor, and the points of the readers to come. *)
Abbreviation chaotic := (A * (nat -> nat -> Z))%type.
Definition chaos_lift {X} (m : M A Error X) : M chaotic Error X := fun '(s, points) =>
  let '(r, s') := m s in (r, (s', points)).
Definition chaos_read (path : str) (args : OpRead) : M chaotic Error (option Metadata * ChaosReader Rd) := fun '(s, points) =>
  match a_read inner path args s with
  | (Ok (rp, r), s') => (Ok (rp, mkChaosReader r (points 0) (error_ratio layer)), (s', fun i => points (S i)))
  | (Err e, s') => (Err e, (s', points))
  | (Panic, s') => (Panic, (s', points))
  end.
Definition chaos_layer : Access chaotic (ChaosReader Rd) Wr Ls Dl Cp :=
  {| a_info s := a_info inner s.1;
     a_create_dir path := chaos_lift (a_create_dir inner path);
     a_stat path args := chaos_lift (a_stat inner path args);
     a_read := chaos_read;
     a_write path args := chaos_lift (a_write inner path args);
     a_delete := chaos_lift (a_delete inner);
     a_list path args := chaos_lift (a_list inner path args);
     a_copy from to args opts := chaos_lift (a_copy inner from to args opts);
     a_rename from to := chaos_lift (a_rename inner from to) |}.

(** Chaos delays what a reader delivers, and never changes it. *)
Lemma chaos_serves strict (r : Rd) bs n points ratio :
  Serves read_buf strict r bs n -> Serves read_buf false (mkChaosReader r points ratio) bs n.
Proof.
  intros Hs. revert points. induction Hs as [r buf r' E Hb Hz|r buf r' bs n E Hb Hz Hs IH|r e r' bs n Hst E]; intros points;
    (destruct (lucky_point (points 0) ratio) eqn:El;
      [|eapply Serves_fail; [done|]; unfold read_buf, ChaosReader_Read, i_feel_lucky; cbn; by rewrite El]).
  - eapply Serves_end; [|done..]. unfold read_buf, ChaosReader_Read, i_feel_lucky. cbn. by rewrite El, E.
  - eapply Serves_more; [|done|done|apply IH]. unfold read_buf, ChaosReader_Read, i_feel_lucky. cbn. by rewrite El, E.
  - eapply Serves_fail; [done|]. unfold read_buf, ChaosReader_Read, i_feel_lucky. cbn. by rewrite El, E.
Qed.
Lemma chaos_flaky data path args : flaky_service inner data path args -> flaky_service chaos_layer data path args.
Proof.
  intros Hf [s points] range Hr. specialize (Hf s range Hr). simpl. unfold chaos_read.
  destruct (a_read inner path _ s) as [[[rp r]|e|] s']; simpl in *; [|done|done].
  destruct Hf as [n Hf]. exists n. by apply (chaos_serves false).
Qed.

#[local] Instance chaos_retry_reader : Read (RetryReader chaotic (ChaosReader Rd)) := retry_reader_read chaos_layer.

(** Whatever points the generator draws and whatever the error ratio, a
    read through the retry layer over the chaos layer never repeats, skips or
    invents a byte: it ends, with exactly the requested bytes of the object, or
    with an error because a read exhausted its retries or failed for good. *)
Theorem chaos_under_retry (data : bytes) path args st rp w st' fuel :
  (Z.of_nat (length data) <= u64_max)%Z -> flaky_service inner data path args ->
  range_u64 (read_range args) -> (Range.offset (read_range args) <= u64_max)%Z ->
  a_read (retry_layer chaos_layer) path args st = (Ok (rp, w), st') -> length (sub data (read_range args)) < fuel ->
  match (read_all fuel w).1 with
  | Ok buf => contents buf = sub data (read_range args)
  | Err e => gave_up (retry_reader_read chaos_layer) e
  | Panic => False
  end.
Proof.
  intros Hd Hf%chaos_flaky Hu Ho E Hfuel. destruct (retry_read_opens chaos_layer data path args st rp w st' Hf Hu Ho E) as (s & -> & Hs).
  destruct (retry_wrapper_serves chaos_layer data path args _ _ [] Hd Hf Hs) as (n & Hn & Hsv).
  pose proof (read_all_ok false (wrapper_new s) _ n fuel Hsv ltac:(lia)) as Hall.
  destruct (read_all fuel _) as [[buf|e|] w'] eqn:Eall; simpl in *; [by destruct Hall | | done].
  by apply collect_gave_up in Eall.
Qed.
End Chaos.

(** The ratio in percent is cut, not rounded: 0.29 makes 28 reads of 100 fail. *)
Example chaos_percent_truncated :
  let ratio := SFdiv 53 1024 (f64_of 29) (f64_of 100) in
  chaos_new ratio = Ok (mkChaos ratio) /\ lucky_point 28 ratio = true /\
  chaos_new (f64_of 2) = Panic /\ lucky_point 99 (f64_of 1) = false /\ lucky_point 0 (f64_of 0) = true.
Proof. vm_compute. by split_and!. Qed.

(** The points of the first reader are unlucky at once, those of the others
    only later. *)
Definition sample_points (reader read : nat) : Z := if bool_decide (reader = 0 \/ read = 1) then 10 else 90.
Lemma chaos_under_retry_witness :
  let chaos := mkChaos (SFdiv 53 1024 (f64_of 1) (f64_of 2)) in
  let opened := a_read (@retry_layer (backon_times 9) _ _ _ _ _ _ (chaos_layer chaos breaking_access)) [] op_read
                  ((0, sample_points), []) in
  exists rp w st', opened = (Ok (rp, w), st') /\
    let out := (read_all (H := @RetryWrapper_Read (backon_times 9) _ (retry_reader_read (chaos_layer chaos breaking_access))) 4 w).1 in
    contents <$> out = Ok sample_data /\
    match out with
    | Ok buf => contents buf = sample_data
    | Err e => @gave_up (backon_times 9) _ _ (retry_reader_read (chaos_layer chaos breaking_access)) e
    | Panic => False
    end.
Proof.
  intros chaos opened. eexists _, _, _. split; [reflexivity|]. intros out. split; [vm_compute; reflexivity|].
  eapply (@chaos_under_retry (backon_times 9) _ _ _ _ _ _ _ chaos breaking_access sample_data [] op_read
    ((0, sample_points), []));
    [simpl; unfold u64_max; lia | apply breaking_flaky | done | done | reflexivity | simpl; lia].
Defined.

(** ** [ThrottleLayer]

    The rate limiter is the [governor] crate's. *)

(** [admitted l]: the cells the limiter has let through. *)
Class RateLimiter (L : Type) : Type := {
  burst : L -> Z;
  admitted : L -> Z;
  until_n_ready : Z -> L -> bool * L;
}.
(** [until_n_ready] waits until [n] cells conform, and takes them; it reports at
    once, and takes nothing, when so many never will. *)
Class RateLimiterLaws (L : Type) `{RateLimiter L} : Prop := {
  until_n_ready_ok n l : (0 < n <= burst l)%Z ->
    exists l', until_n_ready n l = (true, l') /\ admitted l' = (admitted l + n)%Z /\ burst l' = burst l;
  until_n_ready_err n l : (burst l < n)%Z -> until_n_ready n l = (false, l);
}.

(** [ThrottleLayer::new], with the limiter that [Quota::per_second(..)] makes. *)
Definition throttle_new (bandwidth burst : Z) : result (Z * Z) :=
  if bool_decide (0 < bandwidth)%Z && bool_decide (0 < burst)%Z then Ok (bandwidth, burst) else Panic.

Definition throttle_too_big : Error := error RateLimited "request size exceeds throttle quota capacity".
Definition throttle_over_burst : Error := error RateLimited "burst size is smaller than the request size".

Section Throttle.
  Context {L R : Type} `{RateLimiter L}.

(** The limiter is shared by the handles of an operator: a handle runs on the
    limiter and its own state. *)
Definition throttled {X} (m : M R Error X) : M (L * R) Error X := fun '(l, w) => let '(r, w') := m w in (r, (l, w')).
Definition throttle_write `{Write R} (bs : Buffer) : M (L * R) Error unit := fun '(l, w) =>
  let len := Z.of_nat (blen bs) in
  if bool_decide (len = 0)%Z then throttled (w_write bs) (l, w)
  else if bool_decide (2 ^ 32 - 1 < len)%Z then (Err throttle_too_big, (l, w))
  else match until_n_ready len l with
       | (true, l) => throttled (w_write bs) (l, w)
       | (false, l) => (Err throttle_over_burst, (l, w))
       end.
#[global] Instance Throttle_Write `{Write R} : Write (L * R) :=
  {| w_write := throttle_write; w_close := throttled w_close; w_abort := throttled w_abort |}.
#[global] Instance Throttle_Read `{Read R} : Read (L * R) := throttled read_buf.

(** A sequence of writes, through the throttle and without it. *)
Fixpoint throttle_writes `{Write R} (bufs : list Buffer) (s : L * R) : list (result unit) * (L * R) :=
  match bufs with
  | [] => ([], s)
  | bs :: bufs => let '(r, s) := throttle_write bs s in let '(rs, s) := throttle_writes bufs s in (r :: rs, s)
  end.
Fixpoint plain_writes `{Write R} (bufs : list Buffer) (s : R) : list (result unit) * R :=
  match bufs with
  | [] => ([], s)
  | bs :: bufs => let '(r, s) := w_write bs s in let '(rs, s) := plain_writes bufs s in (r :: rs, s)
  end.

(** The buffers that fit the burst, in the order written. *)
Definition fits (cap : Z) (bs : Buffer) : Prop := (Z.of_nat (blen bs) <= Z.min cap (2 ^ 32 - 1))%Z.
#[global] Instance fits_dec cap bs : Decision (fits cap bs).
Proof. unfold fits. apply _. Defined.

Lemma throttle_write_spec `{!RateLimiterLaws L} `{Write R} bs l w :
  (0 <= burst l)%Z ->
  if decide (fits (burst l) bs) then
    exists l', throttle_write bs (l, w) = ((w_write bs w).1, (l', (w_write bs w).2)) /\
      admitted l' = (admitted l + Z.of_nat (blen bs))%Z /\ burst l' = burst l
  else (exists e, throttle_write bs (l, w) = (Err e, (l, w)) /\ kind e = RateLimited).
Proof.
  intros Hb. unfold throttle_write, throttled, fits. destruct (w_write bs w) as [r w'] eqn:E. cbn [fst snd].
  destruct (decide _) as [Hf|Hf]; case_bool_decide as Hz.
  - exists l. split; [done|]. split; [lia | done].
  - rewrite bool_decide_eq_false_2 by lia.
    destruct (until_n_ready_ok (Z.of_nat (blen bs)) l) as (l' & -> & Ha & Hl); [lia|]. by exists l'.
  - lia.
  - case_bool_decide; [by exists throttle_too_big|]. rewrite until_n_ready_err by lia. by exists throttle_over_burst.
Qed.

(** Writes through the throttle reach the writer inside exactly when they
    fit the burst, in order and with its own results; each of them is charged
    its length, no more and no less, and one that can never pass fails as rate
    limited without reaching the writer or the budget. *)
Theorem throttle_charges_writes `{!RateLimiterLaws L} `{Write R} bufs l w :
  (0 <= burst l)%Z ->
  let passed := filter (fits (burst l)) bufs in
  let '(rs, (l', w')) := throttle_writes bufs (l, w) in
  let '(prs, pw) := plain_writes passed w in
  w' = pw /\ admitted l' = (admitted l + foldr Z.add 0 ((fun bs => Z.of_nat (blen bs)) <$> passed))%Z /\
  length rs = length bufs /\
  (zip passed prs = filter (fun br => fits (burst l) br.1) (zip bufs rs)) /\
  Forall (fun br => ~ fits (burst l) br.1 -> exists e, br.2 = Err e /\ kind e = RateLimited) (zip bufs rs).
Proof.
  intros Hb passed. unfold passed. clear passed. revert l w Hb. induction bufs as [|bs bufs IH]; intros l w Hb.
  { simpl. split_and!; try done. lia. }
  cbn [throttle_writes]. pose proof (throttle_write_spec bs l w Hb) as Hs. destruct (decide (fits (burst l) bs)) as [Hf|Hf].
  - destruct Hs as (l1 & -> & Ha & Hl). rewrite filter_cons_True by done. cbn [plain_writes].
    specialize (IH l1 (w_write bs w).2). rewrite Hl in IH. specialize (IH Hb). destruct (w_write bs w) as [r w1]. cbn [fst snd] in *.
    destruct (throttle_writes bufs (l1, w1)) as [rs [l' w']]. destruct (plain_writes _ w1) as [prs pw].
    destruct IH as (-> & Ha' & Hlen & Hp & Hall). cbn [fmap list_fmap foldr length zip zip_with snd].
    split; [done|]. split; [lia|]. split; [lia|]. split; [|by constructor].
    rewrite filter_cons_True by done. by f_equal.
  - destruct Hs as (e & -> & He). rewrite filter_cons_False by done. specialize (IH l w Hb).
    destruct (throttle_writes bufs (l, w)) as [rs [l' w']]. destruct (plain_writes _ w) as [prs pw].
    destruct IH as (-> & Ha' & Hlen & Hp & Hall). cbn [length zip zip_with fmap list_fmap snd].
    split; [done|]. split; [done|]. split; [lia|]. split.
    + by rewrite filter_cons_False.
    + constructor; [|done]. intros _. by exists e.
Qed.

(** Reads are not limited, however little the quota leaves. *)
Theorem throttle_reads_free `{Read R} l r :
  read_buf (l, r) = ((read_buf r).1, (l, (read_buf r).2)).
Proof. unfold read_buf at 1, Throttle_Read, throttled. by destruct (read_buf r). Qed.
End Throttle.

(** The accessor: what it opens runs on its limiter. *)
Definition throttle_layer {L A Rd Wr Ls Dl Cp : Type} (inner : Access A Rd Wr Ls Dl Cp) : Access (L * A) Rd Wr Ls Dl Cp :=
  {| a_info s := a_info inner s.2;
     a_create_dir path := throttled (a_create_dir inner path);
     a_stat path args := throttled (a_stat inner path args);
     a_read path args := throttled (a_read inner path args);
     a_write path args := throttled (a_write inner path args);
     a_delete := throttled (a_delete inner);
     a_list path args := throttled (a_list inner path args);
     a_copy from to args opts := throttled (a_copy inner from to args opts);
     a_rename from to := throttled (a_rename inner from to) |}.

(** A limiter that lets everything within the burst through. *)
Definition Meter : Type := Z * Z.
#[export] Instance Meter_limiter : RateLimiter Meter :=
  {| burst l := l.1; admitted l := l.2;
     until_n_ready n l := if bool_decide (n <= l.1)%Z then (true, (l.1, l.2 + n)%Z) else (false, l) |}.
#[export] Instance Meter_laws : RateLimiterLaws Meter.
Proof.
  split.
  - intros n l Hn. exists (l.1, l.2 + n)%Z. simpl. by rewrite bool_decide_eq_true_2 by (simpl in *; lia).
  - intros n l Hn. simpl in *. by rewrite bool_decide_eq_false_2 by lia.
Qed.
(** A writer that keeps what it is given. *)
#[local] Instance Sink_Write : Write (list Buffer) :=
  {| w_write bs w := (Ok tt, w ++ [bs]); w_close w := (Ok (meta_new FILE), w); w_abort w := (Ok tt, []) |}.

Lemma throttle_charges_writes_witness :
  let bufs := Contiguous <$> [[x01; x02]; []; [x01; x02; x03; x04]; [x05]] in
  let '(rs, (l', w')) := throttle_writes bufs ((3, 0)%Z : Meter, []) in
  w' = Contiguous <$> [[x01; x02]; []; [x05]] /\ admitted l' = 3%Z /\ rs !! 2 = Some (Err throttle_over_burst).
Proof.
  intros bufs. pose proof (throttle_charges_writes (L := Meter) (R := list Buffer) bufs (3, 0)%Z [] (Zle_0_pos 3)) as H.
  cbv beta zeta in H. destruct (throttle_writes bufs _) as [rs [l' w']] eqn:E.
  vm_compute in E. injection E as <- <- <-. destruct H as (H1 & H2 & _). split; [exact H1|]. split; [exact H2 | reflexivity].
Defined.
