(* ===== verification/Futures.v ===== *)
(** * Builders of calls ([types/operator/operator_futures.rs])

    [op.read_with(path).range(..).version(..).await] and its relatives: a future
    that holds the options, methods that set them, and the call it becomes. *)

From S2P Require Import Prelude Errors Path Range Buffer Types Access Context Writers Tasks Listers Deleters Readers Copiers Streams Operator.
From stdpp Require Import options.

(** ** Options, one field at a time *)

(** [HashMap::from_iter]: a later entry of the same key wins. *)
Definition collect_metadata (data : list (str * str)) : gmap (list ascii) (list ascii) := list_to_map (rev data).

Definition with_so_if_match (x : str) '(mkStatOptions a _ c d e f g h) : StatOptions :=
  mkStatOptions a (Some x) c d e f g h.
Definition with_so_if_none_match (x : str) '(mkStatOptions a b _ d e f g h) : StatOptions :=
  mkStatOptions a b (Some x) d e f g h.
Definition with_so_if_modified_since (x : Z) '(mkStatOptions a b c _ e f g h) : StatOptions :=
  mkStatOptions a b c (Some x) e f g h.
Definition with_so_if_unmodified_since (x : Z) '(mkStatOptions a b c d _ f g h) : StatOptions :=
  mkStatOptions a b c d (Some x) f g h.
Definition with_so_version (x : str) '(mkStatOptions _ b c d e f g h) : StatOptions :=
  mkStatOptions (Some x) b c d e f g h.

Definition with_ro_range (x : BytesRange) '(mkReadOptions _ b c d e f g h i j k l m) : ReadOptions :=
  mkReadOptions x b c d e f g h i j k l m.
Definition with_ro_content_length_hint (x : Z) '(mkReadOptions a b c d e f _ h i j k l m) : ReadOptions :=
  mkReadOptions a b c d e f (Some x) h i j k l m.
Definition with_ro_concurrent (x : nat) '(mkReadOptions a b c d e f g _ i j k l m) : ReadOptions :=
  mkReadOptions a b c d e f g x i j k l m.
Definition with_ro_chunk (x : nat) '(mkReadOptions a b c d e f g h _ j k l m) : ReadOptions :=
  mkReadOptions a b c d e f g h (Some x) j k l m.
Definition with_ro_version (x : str) '(mkReadOptions a _ c d e f g h i j k l m) : ReadOptions :=
  mkReadOptions a (Some x) c d e f g h i j k l m.
Definition with_ro_if_match (x : str) '(mkReadOptions a b _ d e f g h i j k l m) : ReadOptions :=
  mkReadOptions a b (Some x) d e f g h i j k l m.
Definition with_ro_if_none_match (x : str) '(mkReadOptions a b c _ e f g h i j k l m) : ReadOptions :=
  mkReadOptions a b c (Some x) e f g h i j k l m.
Definition with_ro_if_modified_since (x : Z) '(mkReadOptions a b c d _ f g h i j k l m) : ReadOptions :=
  mkReadOptions a b c d (Some x) f g h i j k l m.
Definition with_ro_if_unmodified_since (x : Z) '(mkReadOptions a b c d e _ g h i j k l m) : ReadOptions :=
  mkReadOptions a b c d e (Some x) g h i j k l m.

Definition with_rdo_version (x : str) '(mkReaderOptions _ b c d e f g h i j) : ReaderOptions :=
  mkReaderOptions (Some x) b c d e f g h i j.
Definition with_rdo_concurrent (x : nat) '(mkReaderOptions a b c d e f _ h i j) : ReaderOptions :=
  mkReaderOptions a b c d e f x h i j.
Definition with_rdo_chunk (x : nat) '(mkReaderOptions a b c d e f g _ i j) : ReaderOptions :=
  mkReaderOptions a b c d e f g (Some x) i j.
Definition with_rdo_content_length_hint (x : Z) '(mkReaderOptions a b c d e _ g h i j) : ReaderOptions :=
  mkReaderOptions a b c d e (Some x) g h i j.
Definition with_rdo_gap (x : nat) '(mkReaderOptions a b c d e f g h _ j) : ReaderOptions :=
  mkReaderOptions a b c d e f g h (Some x) j.
Definition with_rdo_if_match (x : str) '(mkReaderOptions a _ c d e f g h i j) : ReaderOptions :=
  mkReaderOptions a (Some x) c d e f g h i j.
Definition with_rdo_if_none_match (x : str) '(mkReaderOptions a b _ d e f g h i j) : ReaderOptions :=
  mkReaderOptions a b (Some x) d e f g h i j.
Definition with_rdo_if_modified_since (x : Z) '(mkReaderOptions a b c _ e f g h i j) : ReaderOptions :=
  mkReaderOptions a b c (Some x) e f g h i j.
Definition with_rdo_if_unmodified_since (x : Z) '(mkReaderOptions a b c d _ f g h i j) : ReaderOptions :=
  mkReaderOptions a b c d (Some x) f g h i j.

Definition with_wo_append (x : bool) '(mkWriteOptions _ b c d e f g h i j k) : WriteOptions :=
  mkWriteOptions x b c d e f g h i j k.
Definition with_wo_chunk (x : nat) '(mkWriteOptions a b c d e f g h i j _) : WriteOptions :=
  mkWriteOptions a b c d e f g h i j (Some x).
Definition with_wo_concurrent (x : nat) '(mkWriteOptions a b c d e f g h i _ k) : WriteOptions :=
  mkWriteOptions a b c d e f g h i x k.
Definition with_wo_cache_control (x : str) '(mkWriteOptions a _ c d e f g h i j k) : WriteOptions :=
  mkWriteOptions a (Some x) c d e f g h i j k.
Definition with_wo_content_type (x : str) '(mkWriteOptions a b _ d e f g h i j k) : WriteOptions :=
  mkWriteOptions a b (Some x) d e f g h i j k.
Definition with_wo_content_disposition (x : str) '(mkWriteOptions a b c _ e f g h i j k) : WriteOptions :=
  mkWriteOptions a b c (Some x) e f g h i j k.
Definition with_wo_content_encoding (x : str) '(mkWriteOptions a b c d _ f g h i j k) : WriteOptions :=
  mkWriteOptions a b c d (Some x) f g h i j k.
Definition with_wo_if_match (x : str) '(mkWriteOptions a b c d e f _ h i j k) : WriteOptions :=
  mkWriteOptions a b c d e f (Some x) h i j k.
Definition with_wo_if_none_match (x : str) '(mkWriteOptions a b c d e f g _ i j k) : WriteOptions :=
  mkWriteOptions a b c d e f g (Some x) i j k.
Definition with_wo_if_not_exists (x : bool) '(mkWriteOptions a b c d e f g h _ j k) : WriteOptions :=
  mkWriteOptions a b c d e f g h x j k.
Definition with_wo_user_metadata (x : gmap (list ascii) (list ascii)) '(mkWriteOptions a b c d e _ g h i j k) : WriteOptions :=
  mkWriteOptions a b c d e (Some x) g h i j k.

Definition with_do_version (x : str) '(mkDeleteOptions _ b) : DeleteOptions := mkDeleteOptions (Some x) b.
Definition with_do_recursive (x : bool) '(mkDeleteOptions a _) : DeleteOptions := mkDeleteOptions a x.

Definition with_lo_limit (x : nat) '(mkListOptions _ b c d e) : ListOptions := mkListOptions (Some x) b c d e.
Definition with_lo_start_after (x : str) '(mkListOptions a _ c d e) : ListOptions := mkListOptions a (Some x) c d e.
Definition with_lo_recursive (x : bool) '(mkListOptions a b _ d e) : ListOptions := mkListOptions a b x d e.
Definition with_lo_versions (x : bool) '(mkListOptions a b c _ e) : ListOptions := mkListOptions a b c x e.
Definition with_lo_deleted (x : bool) '(mkListOptions a b c d _) : ListOptions := mkListOptions a b c d x.

Definition with_co_if_not_exists (x : bool) '(mkCopyOptions _ b c d e) : CopyOptions := mkCopyOptions x b c d e.
Definition with_co_if_match (x : str) '(mkCopyOptions a _ c d e) : CopyOptions := mkCopyOptions a (Some x) c d e.
Definition with_co_concurrent (x : nat) '(mkCopyOptions a b c _ e) : CopyOptions := mkCopyOptions a b c x e.
Definition with_co_chunk (x : nat) '(mkCopyOptions a b c d _) : CopyOptions := mkCopyOptions a b c d (Some x).
Definition with_co_source_content_length_hint (x : Z) '(mkCopyOptions a b _ d e) : CopyOptions :=
  mkCopyOptions a b (Some x) d e.

(** ** The futures *)

(** [acc] is the state the call [f] runs on. *)
Record OperatorFuture (A I O : Type) : Type := mkFuture { fut_path : str; fut_args : I; fut_f : str -> I -> M A Error O }.
Arguments mkFuture {A I O}.
Arguments fut_path {A I O}.
Arguments fut_args {A I O}.
Arguments fut_f {A I O}.

Definition into_future {A I O} (fut : OperatorFuture A I O) : M A Error O := fut_f fut (fut_path fut) (fut_args fut).

(** [self.args = ..; self]. *)
Definition map_args {A I O} (f : I -> I) (fut : OperatorFuture A I O) : OperatorFuture A I O :=
  mkFuture (fut_path fut) (f (fut_args fut)) (fut_f fut).
(** [self.args.0 = ..; self]. *)
Definition map_options {A I X O} (f : I -> I) : OperatorFuture A (I * X) O -> OperatorFuture A (I * X) O :=
  map_args (prod_map f id).

(** The methods of the futures, as calls. *)

Inductive StatCall : Type :=
  | Stat_if_match (v : str) | Stat_if_none_match (v : str) | Stat_if_modified_since (v : Z)
  | Stat_if_unmodified_since (v : Z) | Stat_version (v : str).

Inductive ReadCall : Type :=
  | Read_range (v : Bound * Bound) | Read_content_length_hint (v : Z) | Read_concurrent (v : nat)
  | Read_chunk (v : nat) | Read_version (v : str) | Read_if_match (v : str) | Read_if_none_match (v : str)
  | Read_if_modified_since (v : Z) | Read_if_unmodified_since (v : Z).

Inductive ReaderCall : Type :=
  | Reader_version (v : str) | Reader_concurrent (v : nat) | Reader_chunk (v : nat)
  | Reader_content_length_hint (v : Z) | Reader_gap (v : nat) | Reader_if_match (v : str)
  | Reader_if_none_match (v : str) | Reader_if_modified_since (v : Z) | Reader_if_unmodified_since (v : Z).

Inductive WriteCall : Type :=
  | Write_append (v : bool) | Write_chunk (v : nat) | Write_concurrent (v : nat)
  | Write_cache_control (v : str) | Write_content_type (v : str) | Write_content_disposition (v : str)
  | Write_content_encoding (v : str) | Write_if_match (v : str) | Write_if_none_match (v : str)
  | Write_if_not_exists (v : bool) | Write_user_metadata (v : list (str * str)).

Inductive DeleteCall : Type :=
  | Delete_version (v : str) | Delete_recursive (v : bool).

Inductive ListCall : Type :=
  | List_limit (v : nat) | List_start_after (v : str) | List_recursive (v : bool) | List_versions (v : bool)
  | List_deleted (v : bool).

Inductive CopyCall : Type :=
  | Copy_if_not_exists (v : bool) | Copy_if_match (v : str) | Copy_concurrent (v : nat) | Copy_chunk (v : nat)
  | Copy_source_content_length_hint (v : Z).

Definition FutureStat_call {A O} (fut : OperatorFuture A StatOptions O) (call : StatCall) : OperatorFuture A StatOptions O :=
  match call with
  | Stat_if_match v => map_args (with_so_if_match v) fut
  | Stat_if_none_match v => map_args (with_so_if_none_match v) fut
  | Stat_if_modified_since v => map_args (with_so_if_modified_since v) fut
  | Stat_if_unmodified_since v => map_args (with_so_if_unmodified_since v) fut
  | Stat_version v => map_args (with_so_version v) fut
  end.

Definition FutureRead_call {A O} (fut : OperatorFuture A ReadOptions O) (call : ReadCall) : OperatorFuture A ReadOptions O :=
  match call with
  | Read_range v => map_args (with_ro_range (from_bounds v.1 v.2)) fut
  | Read_content_length_hint v => map_args (with_ro_content_length_hint v) fut
  | Read_concurrent v => map_args (with_ro_concurrent (Nat.max v 1)) fut
  | Read_chunk v => map_args (with_ro_chunk v) fut
  | Read_version v => map_args (with_ro_version v) fut
  | Read_if_match v => map_args (with_ro_if_match v) fut
  | Read_if_none_match v => map_args (with_ro_if_none_match v) fut
  | Read_if_modified_since v => map_args (with_ro_if_modified_since v) fut
  | Read_if_unmodified_since v => map_args (with_ro_if_unmodified_since v) fut
  end.

Definition FutureReader_call {A O} (fut : OperatorFuture A ReaderOptions O) (call : ReaderCall) : OperatorFuture A ReaderOptions O :=
  match call with
  | Reader_version v => map_args (with_rdo_version v) fut
  | Reader_concurrent v => map_args (with_rdo_concurrent (Nat.max v 1)) fut
  | Reader_chunk v => map_args (with_rdo_chunk v) fut
  | Reader_content_length_hint v => map_args (with_rdo_content_length_hint v) fut
  | Reader_gap v => map_args (with_rdo_gap v) fut
  | Reader_if_match v => map_args (with_rdo_if_match v) fut
  | Reader_if_none_match v => map_args (with_rdo_if_none_match v) fut
  | Reader_if_modified_since v => map_args (with_rdo_if_modified_since v) fut
  | Reader_if_unmodified_since v => map_args (with_rdo_if_unmodified_since v) fut
  end.

Definition FutureWrite_call {A O} (fut : OperatorFuture A (WriteOptions * Buffer) O) (call : WriteCall) : OperatorFuture A (WriteOptions * Buffer) O :=
  match call with
  | Write_append v => map_options (with_wo_append v) fut
  | Write_chunk v => map_options (with_wo_chunk v) fut
  | Write_concurrent v => map_options (with_wo_concurrent (Nat.max v 1)) fut
  | Write_cache_control v => map_options (with_wo_cache_control v) fut
  | Write_content_type v => map_options (with_wo_content_type v) fut
  | Write_content_disposition v => map_options (with_wo_content_disposition v) fut
  | Write_content_encoding v => map_options (with_wo_content_encoding v) fut
  | Write_if_match v => map_options (with_wo_if_match v) fut
  | Write_if_none_match v => map_options (with_wo_if_none_match v) fut
  | Write_if_not_exists v => map_options (with_wo_if_not_exists v) fut
  | Write_user_metadata v => map_options (with_wo_user_metadata (collect_metadata v)) fut
  end.

Definition FutureWriter_call {A O} (fut : OperatorFuture A WriteOptions O) (call : WriteCall) : OperatorFuture A WriteOptions O :=
  match call with
  | Write_append v => map_args (with_wo_append v) fut
  | Write_chunk v => map_args (with_wo_chunk v) fut
  | Write_concurrent v => map_args (with_wo_concurrent (Nat.max v 1)) fut
  | Write_cache_control v => map_args (with_wo_cache_control v) fut
  | Write_content_type v => map_args (with_wo_content_type v) fut
  | Write_content_disposition v => map_args (with_wo_content_disposition v) fut
  | Write_content_encoding v => map_args (with_wo_content_encoding v) fut
  | Write_if_match v => map_args (with_wo_if_match v) fut
  | Write_if_none_match v => map_args (with_wo_if_none_match v) fut
  | Write_if_not_exists v => map_args (with_wo_if_not_exists v) fut
  | Write_user_metadata v => map_args (with_wo_user_metadata (collect_metadata v)) fut
  end.

Definition FutureDelete_call {A O} (fut : OperatorFuture A DeleteOptions O) (call : DeleteCall) : OperatorFuture A DeleteOptions O :=
  match call with
  | Delete_version v => map_args (with_do_version v) fut
  | Delete_recursive v => map_args (with_do_recursive v) fut
  end.

Definition FutureList_call {A O} (fut : OperatorFuture A ListOptions O) (call : ListCall) : OperatorFuture A ListOptions O :=
  match call with
  | List_limit v => map_args (with_lo_limit v) fut
  | List_start_after v => map_args (with_lo_start_after v) fut
  | List_recursive v => map_args (with_lo_recursive v) fut
  | List_versions v => map_args (with_lo_versions v) fut
  | List_deleted v => map_args (with_lo_deleted v) fut
  end.

Definition FutureLister_call {A O} (fut : OperatorFuture A ListOptions O) (call : ListCall) : OperatorFuture A ListOptions O :=
  match call with
  | List_limit v => map_args (with_lo_limit v) fut
  | List_start_after v => map_args (with_lo_start_after v) fut
  | List_recursive v => map_args (with_lo_recursive v) fut
  | List_versions v => map_args (with_lo_versions v) fut
  | List_deleted v => map_args (with_lo_deleted v) fut
  end.

Definition FutureCopy_call {A O} (fut : OperatorFuture A (CopyOptions * str) O) (call : CopyCall) : OperatorFuture A (CopyOptions * str) O :=
  match call with
  | Copy_if_not_exists v => map_options (with_co_if_not_exists v) fut
  | Copy_if_match v => map_options (with_co_if_match v) fut
  | Copy_concurrent v => map_options (with_co_concurrent (Nat.max v 1)) fut
  | Copy_chunk v => map_options (with_co_chunk v) fut
  | Copy_source_content_length_hint v => map_options (with_co_source_content_length_hint v) fut
  end.

Definition FutureCopier_call {A O} (fut : OperatorFuture A (CopyOptions * str) O) (call : CopyCall) : OperatorFuture A (CopyOptions * str) O :=
  match call with
  | Copy_if_not_exists v => map_options (with_co_if_not_exists v) fut
  | Copy_if_match v => map_options (with_co_if_match v) fut
  | Copy_source_content_length_hint v => map_options (with_co_source_content_length_hint v) fut
  | Copy_concurrent v => map_options (with_co_concurrent (Nat.max v 1)) fut
  | Copy_chunk v => map_options (with_co_chunk v) fut
  end.

(** ** Chains of calls

    What a chain of calls chooses for a field is what the last of them that sets
    it says. *)

Definition chosen {C X : Type} (f : C -> option X) (calls : list C) : option X := last (omap f calls).
Lemma chosen_snoc {C X : Type} (f : C -> option X) calls c :
  chosen f (calls ++ [c]) = match f c with Some x => Some x | None => chosen f calls end.
Proof. unfold chosen. rewrite omap_app, last_app. simpl. by destruct (f c). Qed.

(** The options a chain stands for; [clamp] is what is kept of [concurrent]. *)

Definition Stat_chosen (calls : list StatCall) : StatOptions :=
  mkStatOptions
    (chosen (fun c => match c with Stat_version v => Some v | _ => None end) calls)
    (chosen (fun c => match c with Stat_if_match v => Some v | _ => None end) calls)
    (chosen (fun c => match c with Stat_if_none_match v => Some v | _ => None end) calls)
    (chosen (fun c => match c with Stat_if_modified_since v => Some v | _ => None end) calls)
    (chosen (fun c => match c with Stat_if_unmodified_since v => Some v | _ => None end) calls)
    None
    None
    None.

Definition Read_chosen (clamp : nat -> nat) (calls : list ReadCall) : ReadOptions :=
  mkReadOptions
    (default (mkRange 0 None) (chosen (fun c => match c with Read_range v => Some (from_bounds v.1 v.2) | _ => None end) calls))
    (chosen (fun c => match c with Read_version v => Some v | _ => None end) calls)
    (chosen (fun c => match c with Read_if_match v => Some v | _ => None end) calls)
    (chosen (fun c => match c with Read_if_none_match v => Some v | _ => None end) calls)
    (chosen (fun c => match c with Read_if_modified_since v => Some v | _ => None end) calls)
    (chosen (fun c => match c with Read_if_unmodified_since v => Some v | _ => None end) calls)
    (chosen (fun c => match c with Read_content_length_hint v => Some v | _ => None end) calls)
    (default 0 (chosen (fun c => match c with Read_concurrent v => Some (clamp v) | _ => None end) calls))
    (chosen (fun c => match c with Read_chunk v => Some v | _ => None end) calls)
    None
    None
    None
    None.

Definition Reader_chosen (clamp : nat -> nat) (calls : list ReaderCall) : ReaderOptions :=
  mkReaderOptions
    (chosen (fun c => match c with Reader_version v => Some v | _ => None end) calls)
    (chosen (fun c => match c with Reader_if_match v => Some v | _ => None end) calls)
    (chosen (fun c => match c with Reader_if_none_match v => Some v | _ => None end) calls)
    (chosen (fun c => match c with Reader_if_modified_since v => Some v | _ => None end) calls)
    (chosen (fun c => match c with Reader_if_unmodified_since v => Some v | _ => None end) calls)
    (chosen (fun c => match c with Reader_content_length_hint v => Some v | _ => None end) calls)
    (default 0 (chosen (fun c => match c with Reader_concurrent v => Some (clamp v) | _ => None end) calls))
    (chosen (fun c => match c with Reader_chunk v => Some v | _ => None end) calls)
    (chosen (fun c => match c with Reader_gap v => Some v | _ => None end) calls)
    0.

Definition Write_chosen (clamp : nat -> nat) (calls : list WriteCall) : WriteOptions :=
  mkWriteOptions
    (default false (chosen (fun c => match c with Write_append v => Some v | _ => None end) calls))
    (chosen (fun c => match c with Write_cache_control v => Some v | _ => None end) calls)
    (chosen (fun c => match c with Write_content_type v => Some v | _ => None end) calls)
    (chosen (fun c => match c with Write_content_disposition v => Some v | _ => None end) calls)
    (chosen (fun c => match c with Write_content_encoding v => Some v | _ => None end) calls)
    (chosen (fun c => match c with Write_user_metadata v => Some (collect_metadata v) | _ => None end) calls)
    (chosen (fun c => match c with Write_if_match v => Some v | _ => None end) calls)
    (chosen (fun c => match c with Write_if_none_match v => Some v | _ => None end) calls)
    (default false (chosen (fun c => match c with Write_if_not_exists v => Some v | _ => None end) calls))
    (default 0 (chosen (fun c => match c with Write_concurrent v => Some (clamp v) | _ => None end) calls))
    (chosen (fun c => match c with Write_chunk v => Some v | _ => None end) calls).

Definition Delete_chosen (calls : list DeleteCall) : DeleteOptions :=
  mkDeleteOptions
    (chosen (fun c => match c with Delete_version v => Some v | _ => None end) calls)
    (default false (chosen (fun c => match c with Delete_recursive v => Some v | _ => None end) calls)).

Definition List_chosen (calls : list ListCall) : ListOptions :=
  mkListOptions
    (chosen (fun c => match c with List_limit v => Some v | _ => None end) calls)
    (chosen (fun c => match c with List_start_after v => Some v | _ => None end) calls)
    (default false (chosen (fun c => match c with List_recursive v => Some v | _ => None end) calls))
    (default false (chosen (fun c => match c with List_versions v => Some v | _ => None end) calls))
    (default false (chosen (fun c => match c with List_deleted v => Some v | _ => None end) calls)).

Definition Copy_chosen (clamp : nat -> nat) (calls : list CopyCall) : CopyOptions :=
  mkCopyOptions
    (default false (chosen (fun c => match c with Copy_if_not_exists v => Some v | _ => None end) calls))
    (chosen (fun c => match c with Copy_if_match v => Some v | _ => None end) calls)
    (chosen (fun c => match c with Copy_source_content_length_hint v => Some v | _ => None end) calls)
    (default 0 (chosen (fun c => match c with Copy_concurrent v => Some (clamp v) | _ => None end) calls))
    (chosen (fun c => match c with Copy_chunk v => Some v | _ => None end) calls).

(** A future after a chain of calls that set options: the path and the call stay,
    and the options are what each call in turn makes of them. *)
Lemma chain_args {A I O C} (call : OperatorFuture A I O -> C -> OperatorFuture A I O) (choice : list C -> I) path f calls :
  (forall args c, exists g, call (mkFuture path args f) c = mkFuture path (g args) f /\
     forall cs, args = choice cs -> g args = choice (cs ++ [c])) ->
  foldl call (mkFuture path (choice []) f) calls = mkFuture path (choice calls) f.
Proof.
  intros Hc. induction calls as [|c calls IH] using rev_ind; [done|]. rewrite foldl_app, IH. simpl.
  destruct (Hc (choice calls) c) as (g & -> & Hg). by rewrite (Hg calls).
Qed.

(** Setting one field of what a chain chose is what the longer chain chooses. *)
Ltac chain choice :=
  apply (chain_args _ choice); intros args c; destruct c;
  (eexists; split; [reflexivity|]; intros cs ->;
   unfold Stat_chosen, Read_chosen, Reader_chosen, Write_chosen, Delete_chosen, List_chosen, Copy_chosen, prod_map;
   cbn; rewrite !chosen_snoc; reflexivity).

Abbreviation at_least_one := (fun v => Nat.max v 1).

Section Chains.
  Context {A O : Type}.

Lemma stat_chain path (f : str -> _ -> M A Error O) calls :
  foldl FutureStat_call (mkFuture path stat_options_default f) calls = mkFuture path (Stat_chosen calls) f.
Proof. chain Stat_chosen. Qed.
Lemma read_chain path (f : str -> _ -> M A Error O) calls :
  foldl FutureRead_call (mkFuture path read_options_default f) calls = mkFuture path (Read_chosen at_least_one calls) f.
Proof. chain (Read_chosen at_least_one). Qed.
Lemma reader_chain path (f : str -> _ -> M A Error O) calls :
  foldl FutureReader_call (mkFuture path reader_options_default f) calls = mkFuture path (Reader_chosen at_least_one calls) f.
Proof. chain (Reader_chosen at_least_one). Qed.
Lemma write_chain path bs (f : str -> _ -> M A Error O) calls :
  foldl FutureWrite_call (mkFuture path (write_options_default, bs) f) calls = mkFuture path (Write_chosen at_least_one calls, bs) f.
Proof. chain (fun calls => (Write_chosen at_least_one calls, bs)). Qed.
Lemma writer_chain path (f : str -> _ -> M A Error O) calls :
  foldl FutureWriter_call (mkFuture path write_options_default f) calls = mkFuture path (Write_chosen at_least_one calls) f.
Proof. chain (Write_chosen at_least_one). Qed.
Lemma delete_chain path (f : str -> _ -> M A Error O) calls :
  foldl FutureDelete_call (mkFuture path delete_options_default f) calls = mkFuture path (Delete_chosen calls) f.
Proof. chain Delete_chosen. Qed.
Lemma list_chain path (f : str -> _ -> M A Error O) calls :
  foldl FutureList_call (mkFuture path list_options_default f) calls = mkFuture path (List_chosen calls) f.
Proof. chain List_chosen. Qed.
Lemma lister_chain path (f : str -> _ -> M A Error O) calls :
  foldl FutureLister_call (mkFuture path list_options_default f) calls = mkFuture path (List_chosen calls) f.
Proof. chain List_chosen. Qed.
Lemma copy_chain path to (f : str -> _ -> M A Error O) calls :
  foldl FutureCopy_call (mkFuture path (copy_options_default, to) f) calls = mkFuture path (Copy_chosen at_least_one calls, to) f.
Proof. chain (fun calls => (Copy_chosen at_least_one calls, to)). Qed.
Lemma copier_chain path to (f : str -> _ -> M A Error O) calls :
  foldl FutureCopier_call (mkFuture path (copy_options_default, to) f) calls = mkFuture path (Copy_chosen at_least_one calls, to) f.
Proof. chain (fun calls => (Copy_chosen at_least_one calls, to)). Qed.
End Chains.

(** ** The builders of [Operator] *)

Section With.
  Context {A Rd Wr Ls Dl Cp : Type} `{Read Rd} `{Write (A * Wr)} `{Delete (A * Dl)} `{Copy Cp}.
  Variable acc : Access A Rd Wr Ls Dl Cp.
  Variable lnext : A -> M Ls Error (option Entry).
  Variable fuel : nat.

Definition operator_stat_with (path : str) : OperatorFuture A StatOptions Metadata :=
  mkFuture (normalize_path path) stat_options_default (stat_inner acc).
Definition operator_read_with (path : str) : OperatorFuture A ReadOptions Buffer :=
  mkFuture (normalize_path path) read_options_default (read_inner acc fuel).
Definition operator_reader_with (path : str) : OperatorFuture A ReaderOptions Reader :=
  mkFuture (normalize_path path) reader_options_default (reader_inner acc).
Definition operator_write_with (path : str) (bs : Buffer) : OperatorFuture A (WriteOptions * Buffer) Metadata :=
  mkFuture (normalize_path path) (write_options_default, bs) (fun path '(opts, bs) => write_inner acc fuel path bs opts).
Definition operator_writer_with (path : str) : OperatorFuture A WriteOptions (WriteGenerator (A * Wr)) :=
  mkFuture (normalize_path path) write_options_default (writer_inner acc).
Definition operator_copy_with (from to : str) : OperatorFuture A (CopyOptions * str) (result Metadata * Copier) :=
  mkFuture (normalize_path from) (copy_options_default, normalize_path to)
    (fun from '(opts, to) => copy_inner acc fuel from to opts).
Definition operator_copier_with (from to : str) : OperatorFuture A (CopyOptions * str) Copier :=
  mkFuture (normalize_path from) (copy_options_default, normalize_path to)
    (fun from '(opts, to) => copier_inner acc from to opts).
Definition operator_delete_with (path : str) : OperatorFuture A DeleteOptions unit :=
  mkFuture (normalize_path path) delete_options_default (delete_inner acc).
Definition operator_list_with (path : str) : OperatorFuture A ListOptions (list Entry) :=
  mkFuture (normalize_path path) list_options_default (list_inner acc lnext fuel).
Definition operator_lister_with (path : str) : OperatorFuture A ListOptions (Lister Ls) :=
  mkFuture (normalize_path path) list_options_default (lister_inner acc).

(** [concurrent] is at least one twice: once when it is set, once when the
    options become arguments. *)
Lemma clamp_twice {C : Type} (f' f : C -> option nat) calls :
  (forall c, f' c = at_least_one <$> f c) ->
  Nat.max (default 0 (chosen f' calls)) 1 = Nat.max (default 0 (chosen f calls)) 1.
Proof.
  intros Hf. induction calls as [|c calls IH] using rev_ind; [done|]. rewrite !chosen_snoc, Hf.
  destruct (f c); simpl; [lia | done].
Qed.

Ltac same_args :=
  unfold read_args, reader_args, write_args, copy_args, Read_chosen, Reader_chosen, Write_chosen, Copy_chosen;
  cbn -[Nat.max default chosen];
  match goal with |- ?l = ?r =>
    match l with context [Nat.max (default 0 (chosen ?f' _)) 1] =>
    match r with context [Nat.max (default 0 (chosen ?f _)) 1] =>
      by rewrite (clamp_twice f' f) by (by intros [])
    end end
  end.

Lemma read_args_clamp calls : read_args (Read_chosen at_least_one calls) = read_args (Read_chosen id calls).
Proof. same_args. Qed.
Lemma reader_args_clamp calls : reader_args (Reader_chosen at_least_one calls) = reader_args (Reader_chosen id calls).
Proof. same_args. Qed.
Lemma write_args_clamp calls : write_args (Write_chosen at_least_one calls) = write_args (Write_chosen id calls).
Proof. same_args. Qed.
Lemma copy_args_clamp calls : copy_args (Copy_chosen at_least_one calls) = copy_args (Copy_chosen id calls).
Proof. same_args. Qed.

(** C29.  The builders and the option records are two ways to write the same
    call: whatever methods are called on the future of an operation, how often
    and in whatever order, awaiting it is the operation with the options in which
    every field has the value last given to it, and its default when none was;
    that the builder raises a concurrency of zero to one makes no difference. *)
Theorem futures_are_options path other bs :
  (forall calls, into_future (foldl FutureStat_call (operator_stat_with path) calls) =
     operator_stat_options acc path (Stat_chosen calls)) /\
  (forall calls, into_future (foldl FutureRead_call (operator_read_with path) calls) =
     operator_read_options acc fuel path (Read_chosen id calls)) /\
  (forall calls, into_future (foldl FutureReader_call (operator_reader_with path) calls) =
     operator_reader_options acc path (Reader_chosen id calls)) /\
  (forall calls, into_future (foldl FutureWrite_call (operator_write_with path bs) calls) =
     operator_write_options acc fuel path bs (Write_chosen id calls)) /\
  (forall calls, into_future (foldl FutureWriter_call (operator_writer_with path) calls) =
     operator_writer_options acc path (Write_chosen id calls)) /\
  (forall calls, into_future (foldl FutureCopy_call (operator_copy_with path other) calls) =
     operator_copy_options acc fuel path other (Copy_chosen id calls)) /\
  (forall calls, into_future (foldl FutureCopier_call (operator_copier_with path other) calls) =
     operator_copier_options acc path other (Copy_chosen id calls)) /\
  (forall calls, into_future (foldl FutureDelete_call (operator_delete_with path) calls) =
     operator_delete_options acc path (Delete_chosen calls)) /\
  (forall calls, into_future (foldl FutureList_call (operator_list_with path) calls) =
     operator_list_options acc lnext fuel path (List_chosen calls)) /\
  (forall calls, into_future (foldl FutureLister_call (operator_lister_with path) calls) =
     lister_inner acc (normalize_path path) (List_chosen calls)).
Proof.
  unfold operator_stat_with, operator_read_with, operator_reader_with, operator_write_with, operator_writer_with,
    operator_copy_with, operator_copier_with, operator_delete_with, operator_list_with, operator_lister_with.
  split_and!; intros calls.
  - by rewrite stat_chain.
  - rewrite read_chain. unfold into_future, operator_read_options, read_inner. cbn [fut_f fut_path fut_args]. by rewrite read_args_clamp.
  - rewrite reader_chain. unfold into_future, operator_reader_options, reader_inner. cbn [fut_f fut_path fut_args]. by rewrite reader_args_clamp.
  - rewrite write_chain. unfold into_future, operator_write_options, write_inner. cbn [fut_f fut_path fut_args]. by rewrite write_args_clamp.
  - rewrite writer_chain. unfold into_future, operator_writer_options, writer_inner. cbn [fut_f fut_path fut_args]. by rewrite write_args_clamp.
  - rewrite copy_chain. unfold into_future, operator_copy_options, copy_inner, copier_inner. cbn [fut_f fut_path fut_args]. by rewrite copy_args_clamp.
  - rewrite copier_chain. unfold into_future, operator_copier_options, copier_inner. cbn [fut_f fut_path fut_args]. by rewrite copy_args_clamp.
  - by rewrite delete_chain.
  - by rewrite list_chain.
  - by rewrite lister_chain.
Qed.

End With.
