(* ===== verification/Config.v ===== *)
(** * Configurations from maps of strings ([raw/serde_util.rs], [types/builder.rs])

    [ConfigDeserializer] makes the configuration of a service from string keys
    and values; [Configurator::from_iter] is its use. *)

From S2P Require Import Prelude Errors Path Text.
From stdpp Require Import options.

(** ** Numbers *)

(** [core::num::IntErrorKind]. *)
Inductive IntErrorKind : Type := IntEmpty | InvalidDigit | PosOverflow | NegOverflow.
#[export] Instance IntErrorKind_eq_dec : EqDecision IntErrorKind.
Proof. solve_decision. Defined.
Definition int_error_name (e : IntErrorKind) : string :=
  match e with
  | IntEmpty => "Empty" | InvalidDigit => "InvalidDigit" | PosOverflow => "PosOverflow" | NegOverflow => "NegOverflow"
  end.
(** [Debug] of [ParseIntError]. *)
Definition show_int_error (e : IntErrorKind) : str := b "ParseIntError { kind: " ++ b (int_error_name e) ++ b " }".

(** [str::parse] of an integer type with the values from [lo] to [hi]. *)
Fixpoint int_loop (lo hi : Z) (neg : bool) (s : str) (acc : Z) : outcome IntErrorKind Z :=
  match s with
  | [] => Ok acc
  | c :: s =>
      match digit_value c with
      | None => Err InvalidDigit
      | Some d =>
          if neg then if bool_decide (lo <= acc * 10 - d)%Z then int_loop lo hi neg s (acc * 10 - d) else Err NegOverflow
          else if bool_decide (acc * 10 + d <= hi)%Z then int_loop lo hi neg s (acc * 10 + d) else Err PosOverflow
      end
  end.
Definition parse_int (lo hi : Z) (s : str) : outcome IntErrorKind Z :=
  match s with
  | [] => Err IntEmpty
  | ["+"%char] | ["-"%char] => Err InvalidDigit
  | c :: rest =>
      if bool_decide (c = "+"%char) then int_loop lo hi false rest 0
      else if bool_decide (c = "-"%char /\ (lo < 0)%Z) then int_loop lo hi true rest 0
      else int_loop lo hi false s 0
  end.

(** ** [Pair] *)

(** The types a configuration has, and their values; floats are left out. *)
Inductive CType : Type := TBool | TInt (lo hi : Z) | TString | TOption (t : CType) | TVec (t : CType).
Inductive CValue : Type :=
  | VBool (v : bool) | VInt (n : Z) | VString (s : str) | VNone | VSome (v : CValue) | VVec (vs : list CValue).

(** The fields of a configuration with their types, and those it is given; one
    that is not given has its default, as [#[serde(default)]] says. *)
Abbreviation schema := (gmap (list ascii) CType).
Abbreviation config := (gmap (list ascii) CValue).

Definition quoted (s : string) : str := "034"%char :: b s ++ ["034"%char].
(** ["parse config '{}' with value '{}' failed for {:?}"]. *)
Definition config_failed (key value reason : str) : str :=
  b "parse config '" ++ key ++ b "' with value '" ++ value ++ b "' failed for " ++ reason.

Section Deserialize.
  (** [str::to_lowercase], of all of Unicode. *)
  Variable to_lowercase : str -> str.
  (** [Debug] of serde's error, which holds a text. *)
  Variable debug_error : str -> str.

Definition deserialize_bool (key value : str) : outcome str CValue :=
  let v := to_lowercase value in
  if bool_decide (v ∈ [b "true"; b "on"]) then Ok (VBool true)
  else if bool_decide (v ∈ [b "false"; b "off"]) then Ok (VBool false)
  else Err (config_failed key value (quoted "invalid bool value")).
Definition deserialize_int (lo hi : Z) (key value : str) : outcome str CValue :=
  match parse_int lo hi value with
  | Ok n => Ok (VInt n)
  | Err e => Err (config_failed key value (show_int_error e))
  | Panic => Panic
  end.
(** [deserialize_seq]: the items that a visitor of a [Vec] takes one after the
    other. *)
Definition seq_items (value : str) : list str :=
  if bool_decide (value = []) then [] else trim <$> split ","%char value.
Fixpoint deserialize (t : CType) (key value : str) : outcome str CValue :=
  match t with
  | TBool => deserialize_bool key value
  | TInt lo hi => deserialize_int lo hi key value
  | TString => Ok (VString value)
  | TOption t => if bool_decide (value = []) then Ok VNone else VSome <$> deserialize t key value
  | TVec t =>
      let items := fix items vs :=
        match vs with
        | [] => Ok []
        | v :: vs => x ← deserialize t key v; xs ← items vs; Ok (x :: xs)
        end in
      map_err (fun e => config_failed key value (debug_error e)) (VVec <$> items (seq_items value))
  end.

(** ** [ConfigDeserializer] *)

Definition duplicate_field (name : str) : str := b "duplicate field `" ++ name ++ b "`".
(** [Pairs::next] and what a derived visitor does with it: names are compared in
    lower case, unknown ones are skipped, known ones may come once. *)
Fixpoint visit_map (fields : schema) (entries : list (str * str)) (cfg : config) : outcome str config :=
  match entries with
  | [] => Ok cfg
  | (k, v) :: entries =>
      let name := to_lowercase k in
      match fields !! name with
      | None => visit_map fields entries cfg
      | Some t =>
          if bool_decide (is_Some (cfg !! name)) then Err (duplicate_field name)
          else x ← deserialize t k v; visit_map fields entries (<[name := x]> cfg)
      end
  end.

  (** The order in which a [HashMap] is enumerated. *)
  Variable hash_order : gmap (list ascii) (list ascii) -> list (str * str).

(** [iter.into_iter().collect()] into a [HashMap]. *)
Definition collect_map (iter : list (str * str)) : gmap (list ascii) (list ascii) :=
  foldl (fun m entry => <[entry.1 := entry.2]> m) ∅ iter.
Definition deserialize_config (fields : schema) (m : gmap (list ascii) (list ascii)) : outcome str config :=
  visit_map fields (hash_order m) ∅.

Definition config_from_iter (fields : schema) (iter : list (str * str)) : result config :=
  map_err (fun e => set_source e (error ConfigInvalid "failed to deserialize config"))
    (deserialize_config fields (collect_map iter)).

(** *** What a configuration is *)

(** The fields that entries speak of, with what their values are read as. *)
Definition readings (fields : schema) (entries : list (str * str)) : list (str * outcome str CValue) :=
  omap (fun '(k, v) => t ← fields !! to_lowercase k; Some (to_lowercase k, deserialize t k v)) entries.

Lemma readings_cons fields k v entries :
  readings fields ((k, v) :: entries) =
  match fields !! to_lowercase k with
  | Some t => (to_lowercase k, deserialize t k v) :: readings fields entries
  | None => readings fields entries
  end.
Proof. unfold readings. simpl. by destruct (fields !! to_lowercase k). Qed.

Lemma parse_int_no_panic lo hi s : parse_int lo hi s <> Panic.
Proof.
  assert (forall neg s acc, int_loop lo hi neg s acc <> Panic) as Hl.
  { intros neg t. induction t as [|c t IH]; intros acc; [done|]. cbn [int_loop]. repeat case_match; done || apply IH. }
  unfold parse_int. repeat case_match; done || apply Hl.
Qed.
Lemma deserialize_no_panic t k v : deserialize t k v <> Panic.
Proof.
  revert v. induction t as [|lo hi| |t IH|t IH]; intros v; cbn [deserialize].
  - unfold deserialize_bool. by repeat case_bool_decide.
  - unfold deserialize_int. pose proof (parse_int_no_panic lo hi v). by destruct (parse_int lo hi v).
  - done.
  - case_bool_decide; [done|]. specialize (IH v). by destruct (deserialize t k v).
  - generalize (seq_items v). intros vs. match goal with |- map_err _ (_ <$> ?f vs) <> _ => set (items := f) end.
    assert (items vs <> Panic); [|by destruct (items vs)]. induction vs as [|x vs IHvs]; [done|].
    cbn [items]. unfold mbind, outcome_bind. specialize (IH x). destruct (deserialize t k x); [|done|done].
    fold items. by destruct (items vs).
Qed.

(** Nothing is read twice, and nothing that cannot be read is there. *)
Definition acceptable (found : list (str * outcome str CValue)) : Prop :=
  NoDup found.*1 /\ Forall (fun r => is_ok r.2 = true) found.

Lemma visit_map_spec fields entries cfg :
  let found := readings fields entries in
  (acceptable found -> (forall name, name ∈ found.*1 -> cfg !! name = None) ->
     exists cfg', visit_map fields entries cfg = Ok cfg' /\
       forall name v, cfg' !! name = Some v <-> (name, Ok v) ∈ found \/ cfg !! name = Some v) /\
  (~ (acceptable found /\ (forall name, name ∈ found.*1 -> cfg !! name = None)) ->
     exists e, visit_map fields entries cfg = Err e).
Proof.
  revert cfg. induction entries as [|[k v] entries IH]; intros cfg found; unfold found; clear found.
  { split; [intros _ _; exists cfg; split; [done|]; intros name v; split; [by right | by intros [?%elem_of_nil|?]]|].
    intros []. split; [split; constructor | by intros ? ?%elem_of_nil]. }
  rewrite readings_cons. cbn [visit_map]. destruct (fields !! to_lowercase k) as [t|]; [|apply IH].
  set (name := to_lowercase k). set (found := readings fields entries) in *.
  case_bool_decide as Hs.
  { split; [|intros _; by eexists]. intros _ Hnew. destruct Hs as [x Hx]. rewrite Hnew in Hx; [done|]. by left. }
  destruct (deserialize t k v) as [x|e|] eqn:Ed.
  2: { split; [|intros _; by exists e]. intros [_ Hok]. by inversion Hok. }
  2: { by destruct (deserialize_no_panic t k v). }
  unfold mbind, outcome_bind. destruct (IH (<[name := x]> cfg)) as [IH1 IH2]. split.
  - intros [Hnd Hok] Hnew. apply NoDup_cons in Hnd as [Hin Hnd]. inversion Hok as [|? ? _ Hok']; subst.
    destruct IH1 as (cfg' & -> & Hc); [by split | |].
    { intros name' Hn. rewrite lookup_insert_ne by (by intros <-). apply Hnew. by right. }
    exists cfg'. split; [done|]. intros name' v'. rewrite Hc, elem_of_cons. destruct (decide (name = name')) as [<-|Hne].
    + rewrite lookup_insert_eq. split; [intros [?|[= ->]]; auto|]. intros [[[= ->]|?]|Hv]; auto.
      rewrite Hnew in Hv; [done|]. by left.
    + rewrite lookup_insert_ne by done. split; [intros [?|?]; auto|]. intros [[[= <- _]|?]|?]; [done|auto|auto].
  - intros Hbad. apply IH2. intros [[Hnd Hok] Hnew]. destruct Hbad. split; [split|].
    + apply NoDup_cons. split; [|done]. intros Hin. specialize (Hnew _ Hin). by rewrite lookup_insert_eq in Hnew.
    + by constructor.
    + intros name' [->|Hn]%elem_of_cons.
      * apply eq_None_not_Some. done.
      * specialize (Hnew _ Hn). by apply lookup_insert_None in Hnew as [? _].
Qed.

  Hypothesis hash_order_all : forall m, hash_order m ≡ₚ map_to_list m.

Lemma readings_perm fields entries entries' : entries ≡ₚ entries' -> readings fields entries ≡ₚ readings fields entries'.
Proof. intros Hp. unfold readings. by rewrite Hp. Qed.
Lemma acceptable_perm found found' : found ≡ₚ found' -> acceptable found -> acceptable found'.
Proof. intros Hp [H1 H2]. split; by rewrite <- Hp. Qed.

Lemma config_from_iter_ok fields iter :
  let found := readings fields (map_to_list (collect_map iter)) in
  acceptable found ->
  exists cfg, config_from_iter fields iter = Ok cfg /\ forall name v, cfg !! name = Some v <-> (name, Ok v) ∈ found.
Proof using All.
  intros found Ha. pose proof (readings_perm fields _ _ (hash_order_all (collect_map iter))) as Hp. fold found in Hp.
  destruct (visit_map_spec fields (hash_order (collect_map iter)) ∅) as [Hok _].
  destruct Hok as (cfg & Hv & Hc); [by eapply acceptable_perm | done |]. exists cfg.
  split; [unfold config_from_iter, deserialize_config; by rewrite Hv|].
  intros name v. rewrite Hc, Hp. split; [by intros [?|?] | by left].
Qed.
Lemma config_from_iter_err fields iter :
  ~ acceptable (readings fields (map_to_list (collect_map iter))) ->
  exists e, config_from_iter fields iter = Err e /\ kind e = ConfigInvalid.
Proof using All.
  intros Ha. pose proof (readings_perm fields _ _ (hash_order_all (collect_map iter))) as Hp.
  destruct (visit_map_spec fields (hash_order (collect_map iter)) ∅) as [_ Herr].
  destruct Herr as [e He]; [intros [Ha' _]; by eapply Ha, acceptable_perm|].
  unfold config_from_iter, deserialize_config. rewrite He. by eexists.
Qed.

(** C28.  A configuration is made from string pairs field by field, whatever the
    order of the hash map: of pairs with the same key the last one counts, names
    are matched in lower case and unknown ones ignored; when no field is given
    twice and every given value can be read as the type of its field, the fields
    given have just these values, and otherwise the error is ConfigInvalid. *)
Theorem config_from_iter_spec fields iter :
  let found := readings fields (map_to_list (collect_map iter)) in
  (forall key, collect_map iter !! key = snd <$> last (filter (fun entry => entry.1 = key) iter)) /\
  (acceptable found ->
     exists cfg, config_from_iter fields iter = Ok cfg /\ forall name v, cfg !! name = Some v <-> (name, Ok v) ∈ found) /\
  (~ acceptable found -> exists e, config_from_iter fields iter = Err e /\ kind e = ConfigInvalid).
Proof using All.
  intros found. split; [|split; [apply config_from_iter_ok|apply config_from_iter_err]].
  intros key. unfold collect_map. rewrite foldl_insert_last. by destruct (last _).
Qed.

End Deserialize.

(** *** Integers *)

(** One step of reading digits, as [parse_u64] takes it. *)
Lemma parse_step_some a c n :
  parse_step (Some a) c = Some n -> exists d, digit_value c = Some d /\ (0 <= d)%Z /\ n = (a * 10 + d)%Z.
Proof.
  unfold parse_step. simpl. destruct (digit_value c) as [d|] eqn:Ed; [|done]. simpl.
  destruct (checked_mul a 10) as [m|] eqn:Em; [|done]. simpl. intros Ea. exists d. split; [done|].
  apply checked_mul_Some in Em as [-> _]. apply checked_add_Some in Ea as [Ea _].
  unfold digit_value in Ed. case_bool_decide; simplify_eq. lia.
Qed.
Lemma parse_step_none s : fold_left parse_step s None = None.
Proof. by induction s. Qed.
Lemma digits_grow s a n : fold_left parse_step s (Some a) = Some n -> (0 <= a)%Z -> (a <= n)%Z.
Proof.
  revert a. induction s as [|c s IH]; intros a; cbn [fold_left]; [intros [= ->]; lia|].
  destruct (parse_step (Some a) c) as [a'|] eqn:E; [|by rewrite parse_step_none].
  apply parse_step_some in E as (d & _ & Hd & ->). intros Hs Ha. specialize (IH _ Hs). lia.
Qed.
Lemma int_loop_digits lo hi s a n :
  fold_left parse_step s (Some a) = Some n -> (0 <= a)%Z ->
  ((n <= hi)%Z -> int_loop lo hi false s a = Ok n) /\ ((lo <= - n)%Z -> int_loop lo hi true s (- a) = Ok (- n)%Z).
Proof.
  revert a. induction s as [|c s IH]; intros a; cbn [fold_left int_loop]; [by intros [= ->]|].
  destruct (parse_step (Some a) c) as [a'|] eqn:E; [|by rewrite parse_step_none].
  apply parse_step_some in E as (d & -> & Hd & ->). intros Hs Ha. pose proof (digits_grow _ _ _ Hs ltac:(lia)) as Hle.
  destruct (IH _ Hs ltac:(lia)) as [H1 H2]. split; intros Hb.
  - rewrite bool_decide_eq_true_2 by lia. by apply H1.
  - rewrite bool_decide_eq_true_2 by lia. replace (- a * 10 - d)%Z with (- (a * 10 + d))%Z by lia. by apply H2.
Qed.

Lemma int_loop_bounds lo hi neg s a n :
  int_loop lo hi neg s a = Ok n -> (lo <= a <= hi)%Z -> (neg = true -> a <= 0)%Z -> (neg = false -> 0 <= a)%Z ->
  (lo <= n <= hi)%Z.
Proof.
  revert a. induction s as [|c s IH]; intros a; cbn [int_loop]; [by intros [= ->]|].
  destruct (digit_value c) as [d|] eqn:Ed; [|done].
  assert (0 <= d)%Z by (unfold digit_value in Ed; case_bool_decide; simplify_eq; lia).
  destruct neg; case_bool_decide; try done; intros E Ha Hn Hp; apply IH in E; try done; try lia;
    try specialize (Hn eq_refl); try specialize (Hp eq_refl); lia.
Qed.

Lemma parse_int_digits lo hi s :
  s <> [] -> "+"%char ∉ s -> "-"%char ∉ s -> parse_int lo hi s = int_loop lo hi false s 0.
Proof.
  intros Hn Hp Hm. destruct s as [|c s]; [done|]. apply not_elem_of_cons in Hp as [Hp _], Hm as [Hm _].
  unfold parse_int. rewrite (bool_decide_eq_false_2 (c = _)) by congruence.
  rewrite bool_decide_eq_false_2 by (intros []; congruence). by repeat case_match; simplify_eq.
Qed.

(** [to_string] of an integer. *)
Definition show_int (n : Z) : str := if bool_decide (n < 0)%Z then "-"%char :: show_u64 (- n) else show_u64 n.

(** An integer option takes exactly the values of its type: what is read
    lies within the type's bounds, and every value within them, printed, is read
    back as itself. *)
Theorem config_int_exact lo hi n s :
  (- u64_max <= lo <= 0)%Z -> (0 <= hi <= u64_max)%Z ->
  (parse_int lo hi s = Ok n -> (lo <= n <= hi)%Z) /\ ((lo <= n <= hi)%Z -> parse_int lo hi (show_int n) = Ok n).
Proof.
  intros Hlo Hhi. split.
  - unfold parse_int. repeat case_match; try done; intros Hl;
      (eapply int_loop_bounds; [exact Hl | lia | intros; lia | intros; lia]).
  - intros Hn. unfold show_int. assert (is_u64 (Z.abs n)) as Hu by (split; lia).
    pose proof (parse_dec_rev 20 (Z.abs n) ltac:(lia)) as Hd. fold (show_u64 (Z.abs n)) in Hd.
    destruct (int_loop_digits lo hi (show_u64 (Z.abs n)) 0 (Z.abs n)) as [H1 H2]; [|done|].
    { apply Hd; [|lia]. unfold is_u64, u64_max in Hu. change (10 ^ Z.of_nat 20)%Z with 100000000000000000000%Z. lia. }
    pose proof (show_u64_not_nil (Z.abs n)) as Hnil. case_bool_decide as Hneg.
    + rewrite <- Z.abs_neq by lia. destruct (show_u64 (Z.abs n)) as [|c t] eqn:Es; [done|].
      unfold parse_int. rewrite bool_decide_eq_false_2 by done. rewrite bool_decide_eq_true_2 by (split; [done|lia]).
      rewrite <- Es in *. change (- 0)%Z with 0%Z in H2. rewrite H2 by lia. f_equal. lia.
    + rewrite <- (Z.abs_eq n) at 1 by lia. pose proof (show_u64_no_sep (Z.abs n) "+"%char eq_refl) as Hp.
      pose proof (show_u64_no_sep (Z.abs n) "-"%char eq_refl) as Hm. rewrite parse_int_digits by done. rewrite H1 by lia. f_equal. lia.
Qed.

Lemma config_int_exact_witness :
  (parse_int (-128) 127 (b "-0128") = Ok (-128) -> (-128 <= -128 <= 127))%Z /\
  ((-128 <= -128 <= 127)%Z -> parse_int (-128) 127 (b "-128") = Ok (-128)%Z).
Proof. apply (config_int_exact (-128) 127 (-128)); unfold u64_max; lia. Defined.

(** A key in both cases is given twice; a value out of range is refused. *)
Definition sample_schema : schema := <[b "root" := TOption TString]> (<[b "port" := TInt 0 65535]> {[b "hosts" := TVec TString]}).
Lemma config_from_iter_spec_witness :
  let from iter := config_from_iter lower id map_to_list sample_schema iter in
  (exists cfg, from [(b "ROOT", b "/a"); (b "port", b "80"); (b "hosts", b "x, y"); (b "other", b "?")] = Ok cfg /\
     cfg !! b "hosts" = Some (VVec [VString (b "x"); VString (b "y")])) /\
  (exists e, from [(b "ROOT", b "/a"); (b "root", b "/b")] = Err e /\ kind e = ConfigInvalid).
Proof.
  intros from. split.
  - destruct (config_from_iter_spec lower id map_to_list (fun m => reflexivity _) sample_schema
      [(b "ROOT", b "/a"); (b "port", b "80"); (b "hosts", b "x, y"); (b "other", b "?")]) as (_ & Hok & _).
    destruct Hok as (cfg & Hc & Hv).
    + split; [apply (bool_decide_unpack _); vm_compute; exact I | vm_compute; repeat constructor].
    + exists cfg. split; [exact Hc|]. apply Hv. vm_compute. repeat constructor.
  - destruct (config_from_iter_spec lower id map_to_list (fun m => reflexivity _) sample_schema
      [(b "ROOT", b "/a"); (b "root", b "/b")]) as (_ & _ & Herr).
    apply Herr. intros [Hnd _].
    assert (bool_decide (NoDup (readings lower id sample_schema
      (map_to_list (collect_map [(b "ROOT", b "/a"); (b "root", b "/b")]))).*1) = false) as Hd by (vm_compute; reflexivity).
    by apply bool_decide_eq_false in Hd.
Defined.
