(* ===== verification/Registry.v ===== *)
(** * URIs, the registry and construction ([types/operator/uri.rs],
      [types/operator/registry.rs], [types/operator/builder.rs])

    An operator is made from a URI or a scheme with options: the text is parsed
    and its options merged, the scheme chooses a factory, and the factory makes a
    configuration and builds the service. *)

From S2P Require Import Prelude Errors Path Types Access Text Uris Memory Stack Config.
From stdpp Require Import options.

(** ** [OperatorUri] *)

(** What the [url] crate makes of a text. *)
Record Url : Type := mkUrl {
  url_scheme : str; url_username : str; url_password : option str; url_host_str : option str; url_port : option Z;
  url_path : str; url_query_pairs : list (str * str);
}.
Class UrlParser : Type := { url_parse : str -> outcome str Url }.

Record OperatorUri : Type := mkUri {
  u_scheme : str; u_authority : option str; u_name : option str; u_username : option str; u_password : option str;
  u_root : option str; u_options : gmap (list ascii) (list ascii);
}.

(** [trim_matches('/')]. *)
Definition trim_matches (s : str) : str := trim_end_slashes (trim_slashes s).
(** [options.insert(key, value)] for each pair. *)
Definition insert_all (m : gmap (list ascii) (list ascii)) (pairs : list (str * str)) : gmap (list ascii) (list ascii) :=
  foldl (fun m entry => <[entry.1 := entry.2]> m) m pairs.
Definition lower_keys (pairs : list (str * str)) : list (str * str) := (fun kv => (lower kv.1, kv.2)) <$> pairs.

Section Uri.
  Context `{UrlParser} `{PercentEncoding}.

Definition non_empty (s : option str) : option str := s ≫= (fun v => if bool_decide (v = []) then None else Some v).
Definition uri_new (base : str) (extra_options : list (str * str)) : result OperatorUri :=
  let extra_opts := lower_keys extra_options in
  match find_str (b "://") base with
  | None => Ok (mkUri (lower base) None None None None None (insert_all ∅ extra_opts))
  | Some _ =>
      url ← map_err (fun err => set_source err (error ConfigInvalid "failed to parse uri")) (url_parse base);
      let host := non_empty (url_host_str url) in
      let authority := (fun host => match url_port url with
                                    | Some port => host ++ b ":" ++ show_u64 port
                                    | None => host
                                    end) <$> host in
      let trimmed := trim_matches (from_utf8_lossy (percent_decode (url_path url))) in
      Ok (mkUri (lower (url_scheme url)) authority host (non_empty (Some (url_username url))) (url_password url)
            (non_empty (Some trimmed))
            (insert_all (insert_all ∅ (lower_keys (url_query_pairs url))) extra_opts))
  end.

(** [option]: by a key of any case. *)
Definition uri_option (u : OperatorUri) (key : str) : option str := u_options u !! lower key.

(** *** Conversions *)

(** What an operator can be made from; [U] is the [http] crate's [Uri]. *)
Inductive UriInput (U : Type) : Type :=
  | FromOperatorUri (u : OperatorUri) | FromUri (u : U) | FromStr (s : str)
  | FromUriWith (u : U) (extra : list (str * str)) | FromStrWith (s : str) (extra : list (str * str)).
Definition into_operator_uri {U} (to_string : U -> str) (input : UriInput U) : result OperatorUri :=
  match input with
  | FromOperatorUri _ u => Ok u
  | FromUri _ u => uri_new (to_string u) []
  | FromStr _ s => uri_new s []
  | FromUriWith _ u extra => uri_new (to_string u) extra
  | FromStrWith _ s extra => uri_new s extra
  end.

(** *** What a parsed URI holds *)

Lemma lower_char_idem c : lower_char (lower_char c) = lower_char c.
Proof. by destruct c as [[] [] [] [] [] [] [] []]. Qed.
Lemma lower_idem s : lower (lower s) = lower s.
Proof. unfold lower. rewrite <- list_fmap_compose. apply list_fmap_ext. intros. apply lower_char_idem. Qed.

(** The value given last under a key, whatever its case. *)
Definition given (pairs : list (str * str)) (key : str) : option str :=
  snd <$> last (filter (fun kv => lower kv.1 = lower key) pairs).

Lemma last_lower_keys pairs key :
  snd <$> last (filter (fun kv => kv.1 = lower key) (lower_keys pairs)) = given pairs key.
Proof.
  unfold given, lower_keys. induction pairs as [|[k v] pairs IH] using rev_ind; [done|].
  rewrite fmap_app, !filter_app, !last_app. simpl. destruct (decide (lower k = lower key)) as [E|E].
  - by rewrite !filter_cons_True.
  - by rewrite !filter_cons_False.
Qed.
Lemma insert_all_given m pairs key :
  insert_all m (lower_keys pairs) !! lower key = match given pairs key with Some v => Some v | None => m !! lower key end.
Proof.
  unfold insert_all. rewrite foldl_insert_last, <- last_lower_keys. by destruct (last _).
Qed.

(** [trim_matches] takes away slashes only, and all of them at the ends. *)
Lemma trim_slashes_split s : exists k, s = replicate k slash ++ trim_slashes s.
Proof.
  induction s as [|x s [k IH]]; [by exists 0|]. simpl. case_decide as E; [|by exists 0]. exists (S k). simpl. by rewrite <- IH, E.
Qed.
Lemma trim_matches_spec s :
  (exists i j, s = replicate i slash ++ trim_matches s ++ replicate j slash) /\
  head (trim_matches s) <> Some slash /\ last (trim_matches s) <> Some slash.
Proof.
  unfold trim_matches, trim_end_slashes. set (t := trim_slashes s). set (u := trim_slashes (rev t)).
  destruct (trim_slashes_split s) as [i Hi]. fold t in Hi. destruct (trim_slashes_split (rev t)) as [j Hj]. fold u in Hj.
  assert (t = rev u ++ replicate j slash) as Ht.
  { rewrite <- (rev_involutive t), Hj, rev_app_distr. f_equal. rewrite rev_alt. apply reverse_replicate. }
  split; [exists i, j; by rewrite <- Ht|]. split.
  - destruct (trim_slashes_head s) as [E|(x & t' & E & Hx)]; fold t in E.
    + rewrite E in Ht. symmetry in Ht. by apply app_nil in Ht as [-> _].
    + rewrite E in Ht. destruct (rev u); simpl in *; [done|]. injection Ht as <- _. by intros [=].
  - rewrite (rev_alt u : rev u = reverse u), last_reverse.
    destruct (trim_slashes_head (rev t)) as [E|(x & t' & E & Hx)]; fold u in E; rewrite E; [done|]. by intros [=].
Qed.

End Uri.

(** ** [Configurator] and [OperatorRegistry] *)

(** What a service's configuration does: read a URI, and build the service, which
    is put into the default stack. *)
Class Configurator (Cfg Op : Type) : Type := {
  cfg_from_uri : OperatorUri -> result Cfg;
  cfg_build : Cfg -> result Op;
}.
(** The [from_uri] of a configuration that has none of its own. *)
Definition default_from_uri {Cfg} (_ : OperatorUri) : result Cfg := Err (error Unsupported "uri is not supported").

Definition operator_from_config {Cfg Op} `{Configurator Cfg Op} (cfg : Cfg) : result Op := cfg_build cfg.
Definition factory {Cfg Op} `{Configurator Cfg Op} (uri : OperatorUri) : result Op :=
  cfg ← cfg_from_uri uri; operator_from_config cfg.

Record OperatorRegistry (Op : Type) : Type := mkRegistry { factories : gmap (list ascii) (OperatorUri -> result Op) }.
Arguments mkRegistry {Op}.
Arguments factories {Op}.

Section Registry.
  Context `{UrlParser} `{PercentEncoding} {Op U : Type}.
  Variable to_string : U -> str.

Definition register (scheme : str) (f : OperatorUri -> result Op) (reg : OperatorRegistry Op) : OperatorRegistry Op :=
  mkRegistry (<[lower scheme := f]> (factories reg)).

Definition not_registered (scheme : str) : Error :=
  with_context (b "scheme") scheme (error Unsupported "scheme is not registered").
Definition load (reg : OperatorRegistry Op) (uri : UriInput U) : result Op :=
  parsed ← into_operator_uri to_string uri;
  factory ← ok_or (not_registered (u_scheme parsed)) (factories reg !! u_scheme parsed);
  factory parsed.
Definition operator_from_uri := load.
Definition operator_via_iter (reg : OperatorRegistry Op) (scheme : str) (iter : list (str * str)) : result Op :=
  operator_from_uri reg (FromStrWith U scheme iter).

(** Services registered one after the other. *)
Definition register_all (regs : list (str * (OperatorUri -> result Op))) (reg : OperatorRegistry Op) : OperatorRegistry Op :=
  foldl (fun reg r => register r.1 r.2 reg) reg regs.

Lemma register_all_lookup regs scheme :
  factories (register_all regs (mkRegistry ∅)) !! lower scheme =
  snd <$> last (filter (fun r => lower r.1 = lower scheme) regs).
Proof.
  unfold register_all. induction regs as [|[s f] regs IH] using rev_ind; [done|].
  rewrite foldl_app, filter_app, last_app. cbn [foldl register factories fst snd].
  destruct (decide (lower s = lower scheme)) as [E|E].
  - rewrite filter_cons_True by done. rewrite E. by rewrite lookup_insert_eq.
  - rewrite filter_cons_False by done. by rewrite lookup_insert_ne.
Qed.

(** What a text says: the scheme in lower case, and for a key of any case the
    option given last, those of the call before those of the query. *)
Lemma uri_new_spec base extra u :
  uri_new base extra = Ok u ->
  lower (u_scheme u) = u_scheme u /\
  (find_str (b "://") base = None -> u_scheme u = lower base /\ u_root u = None /\
     forall key, uri_option u key = given extra key) /\
  (forall url, find_str (b "://") base <> None -> url_parse base = Ok url ->
     u_scheme u = lower (url_scheme url) /\
     (forall key, uri_option u key = match given extra key with Some v => Some v | None => given (url_query_pairs url) key end) /\
     (forall root, u_root u = Some root -> exists i j,
        from_utf8_lossy (percent_decode (url_path url)) = replicate i slash ++ root ++ replicate j slash /\
        root <> [] /\ head root <> Some slash /\ last root <> Some slash)).
Proof.
  unfold uri_new. destruct (find_str (b "://") base) eqn:Ef.
  - destruct (url_parse base) as [url|e|]; simpl; [|done|done]. intros [= <-]. cbn [u_scheme u_root].
    split; [apply lower_idem|]. split; [done|]. intros url' _ [= <-]. split; [done|]. split.
    + intros key. unfold uri_option. cbn [u_options]. rewrite insert_all_given. destruct (given extra key); [done|].
      rewrite insert_all_given. by destruct (given (url_query_pairs url) key).
    + intros root. simpl. case_bool_decide as Hn; [done|]. intros [= <-].
      destruct (trim_matches_spec (from_utf8_lossy (percent_decode (url_path url)))) as ((i & j & Hs) & Hh & Hl).
      by exists i, j.
  - intros [= <-]. cbn [u_scheme u_root]. split; [apply lower_idem|]. split; [|done]. intros _. split_and!; [done|done|].
    intros key. unfold uri_option. cbn [u_options]. rewrite insert_all_given. by destruct (given extra key).
Qed.

(** An operator made from a scheme or a URI is the one the factory
    registered last for that scheme makes, whatever the case of the scheme: the
    factory is given the options by keys of any case, where an option of the call
    overrides one of the query and a later one an earlier one; with no factory
    registered the error is Unsupported, and a text that is no URI fails as it
    does in the parser. *)
Theorem registry_loads regs base extra :
  let loaded := load (register_all regs (mkRegistry ∅)) (FromStrWith U base extra) in
  match uri_new base extra with
  | Ok u =>
      match last (filter (fun r => lower r.1 = u_scheme u) regs) with
      | Some (_, f) => loaded = f u
      | None => exists e, loaded = Err e /\ kind e = Unsupported
      end /\
      (find_str (b "://") base = None -> u_scheme u = lower base) /\
      forall key, uri_option u key =
        match given extra key with
        | Some v => Some v
        | None => if bool_decide (find_str (b "://") base = None) then None
                  else match url_parse base with Ok url => given (url_query_pairs url) key | _ => None end
        end
  | Err e => loaded = Err e /\ kind e = ConfigInvalid
  | Panic => loaded = Panic
  end.
Proof.
  intros loaded. unfold loaded, load, into_operator_uri. destruct (uri_new base extra) as [u|e|] eqn:Eu.
  - destruct (uri_new_spec base extra u Eu) as (Hl & Hplain & Hurl). split.
    + pose proof (register_all_lookup regs (u_scheme u)) as Hr. rewrite Hl in Hr. unfold mbind, outcome_bind. rewrite Hr.
      destruct (last _) as [[s f]|]; [done|]. simpl. by eexists.
    + split; [by intros Hf; apply Hplain|]. intros key. case_bool_decide as Hf.
      * rewrite (proj2 (proj2 (Hplain Hf))). by destruct (given extra key).
      * destruct (url_parse base) as [url|e|] eqn:Ep; [by apply (Hurl url)|..];
          unfold uri_new in Eu; destruct (find_str _ _); simplify_eq; rewrite Ep in Eu; done.
  - split; [done|]. unfold uri_new in Eu. destruct (find_str _ _); [|done].
    destruct (url_parse base); simplify_eq/=. done.
  - done.
Qed.
End Registry.

(** ** The memory service *)

Definition memory_fields : schema := {[b "root" := TOption TString]}.
Definition root_key : str := b "root".

(** An operator on a memory service: the root of the service and its state; the
    name is the address of the store. *)
Record MemoryOperator : Type := mkMemoryOp { mo_root : str; mo_state : MemoryState }.

Section MemoryConfig.
  Variable to_lowercase : str -> str.
  Variable debug_error : str -> str.
  Variable hash_order : gmap (list ascii) (list ascii) -> list (str * str).
  Variable name : str.

Definition memory_from_uri (uri : OperatorUri) : result config :=
  let map := u_options uri in
  let map :=
    if bool_decide (is_Some (map !! root_key)) then map
    else match non_empty (u_root uri) with Some root => <[root_key := root]> map | None => map end in
  config_from_iter to_lowercase debug_error hash_order memory_fields (hash_order map).

(** [config.root]. *)
Definition config_root (cfg : config) : option str :=
  match cfg !! root_key with Some (VSome (VString root)) => Some root | _ => None end.
Definition memory_build (cfg : config) : result MemoryOperator :=
  let root := normalize_root (default [slash] (config_root cfg)) in
  Ok (mkMemoryOp root (mkMemory (stacked_info root name) ∅)).

#[global] Instance memory_Configurator : Configurator config MemoryOperator :=
  {| cfg_from_uri := memory_from_uri; cfg_build := memory_build |}.
(** [register_memory_service]. *)
Definition register_memory_service (reg : OperatorRegistry MemoryOperator) : OperatorRegistry MemoryOperator :=
  register MEMORY_SCHEME factory reg.

  (** The two keys that matter are ASCII. *)
  Hypothesis to_lowercase_ascii : forall s, Forall (fun c => N_of_ascii c < 128)%N s -> to_lowercase s = lower s.
  Hypothesis hash_order_all : forall m, hash_order m ≡ₚ map_to_list m.

Lemma collect_hash_order m : collect_map (hash_order m) = m.
Proof using hash_order_all.
  apply map_eq. intros k. unfold collect_map. rewrite foldl_insert_last.
  assert (NoDup (hash_order m).*1) as Hnd by (rewrite hash_order_all; apply NoDup_fst_map_to_list).
  assert (forall v, (k, v) ∈ hash_order m <-> m !! k = Some v) as Hin
    by (intros v; rewrite hash_order_all; apply elem_of_map_to_list).
  destruct (last (filter _ _)) as [[k' v]|] eqn:El.
  - apply last_Some_elem_of, list_elem_of_filter in El as [<- Hi]. symmetry. by apply Hin.
  - apply last_None in El. destruct (m !! k) as [v|]; [|done].
    assert ((k, v) ∈ filter (fun entry => entry.1 = k) (hash_order m)) as Hf by (by apply list_elem_of_filter; split; [|apply Hin]).
    rewrite El in Hf. by apply elem_of_nil in Hf.
Qed.

(** The configuration of the memory service always reads, when the keys are in
    lower case already: it has just the root. *)
Lemma memory_readings entries :
  Forall (fun kv => to_lowercase kv.1 = kv.1) entries ->
  readings to_lowercase debug_error memory_fields entries =
  (fun kv => (root_key, deserialize to_lowercase debug_error (TOption TString) root_key kv.2)) <$>
    filter (fun kv => kv.1 = root_key) entries.
Proof.
  induction 1 as [|[k v] entries Hk _ IH]; [done|]. rewrite readings_cons. simpl in Hk. rewrite Hk.
  destruct (decide (k = root_key)) as [->|Hne].
  - rewrite filter_cons_True by done. unfold memory_fields at 1. rewrite lookup_singleton_eq. simpl. by rewrite IH.
  - rewrite filter_cons_False by done. unfold memory_fields at 1. by rewrite lookup_singleton_ne.
Qed.
Lemma filter_key {V} (m : gmap (list ascii) V) (k : str) :
  filter (fun kv => kv.1 = k) (map_to_list m) = match m !! k with Some v => [(k, v)] | None => [] end.
Proof.
  assert (NoDup (filter (fun kv => kv.1 = k) (map_to_list m))) as Hnd by apply NoDup_filter, NoDup_map_to_list.
  assert (forall kv, kv ∈ filter (fun kv => kv.1 = k) (map_to_list m) <-> kv.1 = k /\ m !! k = Some kv.2) as Hin.
  { intros [k' v]. rewrite list_elem_of_filter, elem_of_map_to_list. simpl. split; [by intros [-> ?] | by intros [-> ?]]. }
  destruct (m !! k) as [v|].
  - apply Permutation_singleton_r, NoDup_Permutation; [done | apply NoDup_singleton |].
    intros [k' v']. rewrite Hin, list_elem_of_singleton. simpl. split; [by intros [-> [= ->]] | by intros [= -> ->]].
  - destruct (filter _ _) as [|kv l]; [done|]. by destruct (proj1 (Hin kv) ltac:(by left)).
Qed.
Lemma memory_config m :
  map_Forall (fun k _ => to_lowercase k = k) m ->
  exists cfg, config_from_iter to_lowercase debug_error hash_order memory_fields (hash_order m) = Ok cfg /\
    config_root cfg = non_empty (m !! root_key).
Proof using hash_order_all.
  intros Hk. pose proof (config_from_iter_ok to_lowercase debug_error hash_order hash_order_all memory_fields (hash_order m)) as Hok.
  cbn zeta in Hok. rewrite collect_hash_order, memory_readings, filter_key in Hok
    by (apply Forall_forall; intros [k v] Hi%elem_of_map_to_list; by apply (Hk k v)).
  unfold config_root, non_empty. destruct (m !! root_key) as [raw|]; simpl in *.
  - destruct (bool_decide (raw = [])) eqn:Er; (destruct Hok as (cfg & Hcfg & Hv);
      [split; [apply NoDup_singleton | by repeat constructor]|]; exists cfg; split; [done|]).
    + by rewrite (proj2 (Hv root_key VNone)) by (by left).
    + by rewrite (proj2 (Hv root_key (VSome (VString raw)))) by (by left).
  - destruct Hok as (cfg & Hcfg & Hv); [split; constructor|]. exists cfg. split; [done|].
    destruct (cfg !! root_key) as [v|] eqn:Ev; [|done]. apply Hv in Ev. by apply elem_of_nil in Ev.
Qed.

(** *** From a URI to a map *)

  Context `{UrlParser} `{PercentEncoding} {U : Type}.
  Variable to_string : U -> str.

Lemma insert_all_keys (P : str -> Prop) m pairs :
  map_Forall (fun k _ => P k) m -> Forall (fun kv => P kv.1) pairs -> map_Forall (fun k _ => P k) (insert_all m pairs).
Proof.
  intros Hm Hp. unfold insert_all. revert m Hm. induction Hp as [|[k v] pairs Hk _ IH]; intros m Hm; [done|]. simpl.
  apply IH. by apply map_Forall_insert_2.
Qed.
Lemma uri_keys_lower base extra u : uri_new base extra = Ok u -> map_Forall (fun k _ => lower k = k) (u_options u).
Proof.
  assert (forall pairs, Forall (fun kv => lower kv.1 = kv.1) (lower_keys pairs)) as Hl
    by (intros pairs; apply Forall_fmap, Forall_forall; intros kv _; apply lower_idem).
  unfold uri_new. destruct (find_str _ _).
  - destruct (url_parse base); simpl; [|done|done]. intros [= <-]. cbn [u_options].
    apply insert_all_keys; [|done]. by apply insert_all_keys; [apply map_Forall_empty|].
  - intros [= <-]. cbn [u_options]. by apply insert_all_keys; [apply map_Forall_empty|].
Qed.

(** The root a URI asks for: its option, when it is there, and its path. *)
Definition requested_root (u : OperatorUri) : option str :=
  match uri_option u root_key with Some root => non_empty (Some root) | None => u_root u end.

Lemma memory_from_uri_ok base extra u :
  uri_new base extra = Ok u -> map_Forall (fun k _ => Forall (fun c => N_of_ascii c < 128)%N k) (u_options u) ->
  exists cfg, memory_from_uri u = Ok cfg /\ config_root cfg = requested_root u.
Proof using to_lowercase_ascii hash_order_all.
  intros Hu Ha. pose proof (uri_keys_lower base extra u Hu) as Hl.
  assert (map_Forall (fun k _ => to_lowercase k = k) (u_options u)) as Hk.
  { intros k v Hv. rewrite to_lowercase_ascii by (by apply (Ha k v)). by apply (Hl k v). }
  unfold memory_from_uri, requested_root, uri_option. change (lower root_key) with root_key.
  assert (forall root, u_root u = Some root -> non_empty (Some root) = Some root) as Hr.
  { unfold uri_new in Hu. destruct (find_str _ _); [|simplify_eq; done]. destruct (url_parse base); simplify_eq/=.
    intros root. case_bool_decide as Hn; [done|]. intros [= <-]. by rewrite bool_decide_eq_false_2. }
  destruct (u_options u !! root_key) as [raw|] eqn:Eo.
  - rewrite bool_decide_eq_true_2 by done. destruct (memory_config _ Hk) as (cfg & -> & Hc). exists cfg. by rewrite Hc, Eo.
  - rewrite bool_decide_eq_false_2 by (by intros [? ?]).
    destruct (u_root u) as [root|] eqn:Er.
    + rewrite (Hr root eq_refl). destruct (memory_config (<[root_key := root]> (u_options u))) as (cfg & -> & Hc).
      * apply map_Forall_insert_2; [|done]. by apply to_lowercase_ascii; repeat constructor.
      * exists cfg. rewrite Hc, lookup_insert_eq. by rewrite (Hr root eq_refl).
    + simpl. destruct (memory_config _ Hk) as (cfg & -> & Hc). exists cfg. by rewrite Hc, Eo.
Qed.

(** C18.  From a text to a working store: a URI or scheme of the memory service,
    in any case, with options by keys of any case, opens an operator on the root
    that the option "root" names, or else the path of the URI, in normal form;
    and every sequence of writes, reads, stats, existence checks, directory
    creations and deletions on it answers as an empty map from paths to bytes
    does. *)
Theorem memory_opens_as_map reg base extra u fuel cs :
  uri_new base extra = Ok u -> u_scheme u = MEMORY_SCHEME ->
  map_Forall (fun k _ => Forall (fun c => N_of_ascii c < 128)%N k) (u_options u) ->
  let root := normalize_root (default [slash] (requested_root u)) in
  starts_char (tail root) -> 4 <= fuel -> Forall fs_call_ok cs ->
  exists op, operator_from_uri to_string (register_memory_service reg) (FromStrWith U base extra) = Ok op /\
    mo_root op = root /\ normalized_root root /\ run_ops root fuel cs (mo_state op) = fs_steps cs ∅.
Proof using to_lowercase_ascii hash_order_all.
  intros Hu Hs Ha root Hc Hf Hcs. destruct (memory_from_uri_ok base extra u Hu Ha) as (cfg & Hcfg & Hroot).
  pose proof (proj1 (normalize_root_spec (default [slash] (requested_root u)))) as Hn. fold root in Hn.
  exists (mkMemoryOp root (mkMemory (stacked_info root name) ∅)). split; [|split; [done|split; [done|]]].
  - unfold operator_from_uri, load, into_operator_uri, register_memory_service, register. rewrite Hu. cbn [mbind outcome_bind].
    rewrite Hs. cbn [factories]. change (lower MEMORY_SCHEME) with MEMORY_SCHEME. rewrite lookup_insert_eq.
    unfold factory. cbn. rewrite Hcfg. unfold operator_from_config. cbn. unfold memory_build. by rewrite Hroot.
  - apply (run_ops_steps root name fuel Hn Hc Hf); [|done]. by apply (represents_empty root name fuel Hn Hc Hf).
Qed.
End MemoryConfig.

(** ** Witness *)

(** A parser that knows one URI. *)
Definition sample_url : Url :=
  mkUrl (b "memory") [] None None None (b "/data/in/") [(b "Root", b "/other"); (b "x", b "1")].
Definition sample_parser : UrlParser :=
  {| url_parse s := if bool_decide (s = b "memory:///data/in/?Root=/other&x=1") then Ok sample_url else Err (b "no url") |}.
Definition sample_decoder : PercentEncoding := {| utf8_percent_encode _ s := s; percent_decode s := s |}.

Lemma memory_opens_as_map_witness :
  let opened := @operator_from_uri sample_parser sample_decoder _ unit (fun _ => [])
    (register_memory_service lower id map_to_list (b "0x0") (mkRegistry ∅)) in
  let input := FromStrWith unit (b "memory:///data/in/?Root=/other&x=1") [(b "ROOT", b "a//b")] in
  exists op, opened input = Ok op /\ mo_root op = b "/a/b/" /\
    run_ops (b "/a/b/") 4 sample_calls (mo_state op) = fs_steps sample_calls ∅.
Proof.
  intros opened input.
  destruct (@memory_opens_as_map lower id map_to_list (b "0x0") (fun s _ => eq_refl) (fun m => reflexivity _)
    sample_parser sample_decoder unit (fun _ => []) (mkRegistry ∅) (b "memory:///data/in/?Root=/other&x=1")
    [(b "ROOT", b "a//b")] (mkUri (b "memory") None None None None (Some (b "data/in"))
      (<[b "root" := b "a//b"]> {[b "x" := b "1"]})) 4 sample_calls) as (op & H1 & H2 & _ & H4).
  - vm_compute. reflexivity.
  - reflexivity.
  - apply (bool_decide_unpack _). vm_compute. exact I.
  - vm_compute. reflexivity.
  - apply le_n.
  - repeat constructor; unfold u64_max; simpl; try lia; done.
  - exists op. split; [exact H1|]. split; [exact H2 | exact H4].
Defined.
