(* ===== verification/S3Core.v ===== *)
(** * Requests of the S3 service ([services/s3/src/core.rs])

    Every request the service sends, as a method, a URL, headers and a body; and
    what a server that follows the S3 API reads from it.  Signing, checksums, the
    formatting of dates and XML are those of crates. *)

From S2P Require Import Prelude Errors Path Range Buffer Types Access Uploads Http Text Uris.
From stdpp Require Import options.

(** ** The [http] crate's request builder *)

Record Parts : Type := mkParts { pt_method : str; pt_uri : str; pt_headers : list (str * str) }.
Record HttpRequest : Type := mkHttp { hr_parts : Parts; hr_body : Buffer }.
(** A builder keeps the first error for [body] to report. *)
Abbreviation Builder := (outcome str Parts).

Section Builder.
  Context `{HttpCrate}.
  (** What the crate says of a text that is no URI. *)
  Variable uri_error : str -> str.

Definition request_new (method : string) (url : str) : Builder :=
  match uri_from_str url with
  | Some _ => Ok (mkParts (b method) url [])
  | None => Err (uri_error url)
  end.
Definition header (name value : str) (req : Builder) : Builder :=
  parts ← req; name ← name_from_str name; value ← value_from_str value;
  Ok (mkParts (pt_method parts) (pt_uri parts) (pt_headers parts ++ [(name, value)])).
(** [if let Some(v) = value { req = req.header(name, v) }]. *)
Definition header_if (name : str) (value : option str) (req : Builder) : Builder :=
  match value with Some v => header name v req | None => req end.

Definition new_request_build_error (err : str) : Error :=
  set_source err (with_operation (b "http::Request::build") (error Unexpected "building http request")).
Definition request_body (body : Buffer) (req : Builder) : result HttpRequest :=
  parts ← map_err new_request_build_error req; Ok (mkHttp parts body).
End Builder.

(** ** [S3Core] *)

Inductive ChecksumAlgorithm : Type := Crc32c | Md5.
Definition to_header_name (a : ChecksumAlgorithm) : str :=
  match a with Crc32c => b "x-amz-checksum-crc32c" | Md5 => b "content-md5" end.
Definition show_checksum (a : ChecksumAlgorithm) : str := match a with Crc32c => b "CRC32C" | Md5 => b "MD5" end.

(** The signer is a parameter of what sends requests. *)
Record S3Core : Type := mkS3Core {
  s3_info : AccessorInfo; s3_bucket : str; s3_endpoint : str; s3_root : str;
  server_side_encryption : option str; server_side_encryption_aws_kms_key_id : option str;
  server_side_encryption_customer_algorithm : option str; server_side_encryption_customer_key : option str;
  server_side_encryption_customer_key_md5 : option str; default_storage_class : option str;
  skip_signature : bool; disable_list_objects_v2 : bool; enable_request_payer : bool; default_acl : option str;
  checksum_algorithm : option ChecksumAlgorithm;
}.

(** The parts of an upload, as the request that completes it names them. *)
Record CompletePart : Type := mkCompletePart {
  cp_part_number : nat; cp_etag : str; cp_checksum_crc32c : option str;
}.
Record DeleteObject : Type := mkDeleteObject { dl_key : str; dl_version_id : option str }.

(** [base64] of digests, dates, and the XML the requests carry. *)
Class S3Crates : Type := {
  crc32c_base64 : bytes -> str;
  md5_base64 : bytes -> str;
  format_http_date : Z -> str;
  xml_complete : list CompletePart -> outcome str str;
  xml_delete : bool -> list DeleteObject -> outcome str str;
  (** The order in which a [HashMap] is enumerated. *)
  hash_pairs : gmap (list ascii) (list ascii) -> list (str * str);
  uri_error : str -> str;
}.

Definition new_xml_serialize_error (e : str) : Error := set_source e (error Unexpected "serialize xml").
Definition new_xml_deserialize_error (e : str) : Error := set_source e (error Unexpected "deserialize xml").

Section Requests.
  Context `{HttpCrate} `{PercentEncoding} `{S3Crates}.
  Variable core : S3Core.

Definition insert_sse_headers (is_write : bool) (req : Builder) : Builder :=
  let req :=
    if is_write then
      header_if (b "x-amz-server-side-encryption-aws-kms-key-id") (server_side_encryption_aws_kms_key_id core)
        (header_if (b "x-amz-server-side-encryption") (server_side_encryption core) req)
    else req in
  let req := header_if (b "x-amz-server-side-encryption-customer-algorithm") (server_side_encryption_customer_algorithm core) req in
  let req := header_if (b "x-amz-server-side-encryption-customer-key") (server_side_encryption_customer_key core) req in
  header_if (b "x-amz-server-side-encryption-customer-key-md5") (server_side_encryption_customer_key_md5 core) req.

(** The headers of a copy that say how its source is encrypted. *)
Definition insert_copy_source_headers (req : Builder) : Builder :=
  let req := header_if (b "x-amz-copy-source-server-side-encryption-customer-algorithm")
               (server_side_encryption_customer_algorithm core) req in
  let req := header_if (b "x-amz-copy-source-server-side-encryption-customer-key")
               (server_side_encryption_customer_key core) req in
  header_if (b "x-amz-copy-source-server-side-encryption-customer-key-md5")
    (server_side_encryption_customer_key_md5 core) req.

Definition calculate_checksum (body : Buffer) : option str :=
  match checksum_algorithm core with
  | None => None
  | Some Crc32c => Some (crc32c_base64 (contents body))
  | Some Md5 => Some (md5_base64 (contents body))
  end.
Definition insert_checksum_header (checksum : str) (req : Builder) : Builder :=
  match checksum_algorithm core with Some a => header (to_header_name a) checksum req | None => req end.
Definition insert_checksum_type_header (req : Builder) : Builder :=
  match checksum_algorithm core with
  | Some a => header (b "x-amz-checksum-algorithm") (show_checksum a) req
  | None => req
  end.

Definition X_AMZ_META_PREFIX : str := b "x-amz-meta-".
Definition user_metadata_headers (m : option (gmap (list ascii) (list ascii))) (req : Builder) : Builder :=
  match m with
  | Some m => foldl (fun req kv => header (X_AMZ_META_PREFIX ++ kv.1) kv.2 req) req (hash_pairs m)
  | None => req
  end.
Definition insert_metadata_headers (size : option Z) (args : OpWrite) (req : Builder) : Builder :=
  let req := header_if (b "content-length") (show_u64 <$> size) req in
  let req := header_if (b "content-type") (write_content_type args) req in
  let req := header_if (b "content-disposition") (write_content_disposition args) req in
  let req := header_if (b "content-encoding") (write_content_encoding args) req in
  let req := header_if (b "cache-control") (write_cache_control args) req in
  let req := header_if (b "if-match") (write_if_match args) req in
  let req := if write_if_not_exists args then header (b "if-none-match") (b "*") req else req in
  let req := header_if (b "x-amz-storage-class") (default_storage_class core) req in
  let req := user_metadata_headers (write_user_metadata args) req in
  header_if (b "x-amz-acl") (default_acl core) req.

Definition insert_request_payer_header (req : Builder) : Builder :=
  if enable_request_payer core then header (b "x-amz-request-payer") (b "requester") req else req.

(** [format!("{}/{}", self.endpoint, percent_encode_path(&p))]. *)
Definition object_url (p : str) : str := s3_endpoint core ++ b "/" ++ percent_encode_path p.
Definition with_query (url : str) (query_args : list str) : str :=
  if bool_decide (query_args = []) then url else url ++ b "?" ++ join (b "&") query_args.
Definition query_arg (name : string) (value : option str) : list str :=
  match value with Some v => [b name ++ b "=" ++ v] | None => [] end.

Definition override_args (disposition content_type cache_control version : option str) : list str :=
  query_arg "response-content-disposition" (percent_encode_path <$> disposition) ++
  query_arg "response-content-type" (percent_encode_path <$> content_type) ++
  query_arg "response-cache-control" (percent_encode_path <$> cache_control) ++
  query_arg "versionId" (percent_decode_path <$> version).

Definition s3_head_object_request (path : str) (args : OpStat) : result HttpRequest :=
  p ← build_abs_path (s3_root core) path;
  let url := with_query (object_url p)
    (override_args (stat_override_content_disposition args) (stat_override_content_type args)
       (stat_override_cache_control args) (stat_version args)) in
  let req := request_new uri_error "HEAD" url in
  let req := insert_sse_headers false req in
  let req := header_if (b "if-none-match") (stat_if_none_match args) req in
  let req := header_if (b "if-match") (stat_if_match args) req in
  let req := header_if (b "if-modified-since") (format_http_date <$> stat_if_modified_since args) req in
  let req := header_if (b "if-unmodified-since") (format_http_date <$> stat_if_unmodified_since args) req in
  request_body Buffer.new (insert_request_payer_header req).

Definition s3_get_object_request (path : str) (range : BytesRange) (args : OpRead) : result HttpRequest :=
  p ← build_abs_path (s3_root core) path;
  let url := with_query (object_url p)
    (override_args (read_override_content_disposition args) (read_override_content_type args)
       (read_override_cache_control args) (read_version args)) in
  let req := request_new uri_error "GET" url in
  req ← (if is_full range then Ok req else h ← Range.to_header range; Ok (header (b "range") h req));
  let req := header_if (b "if-none-match") (read_if_none_match args) req in
  let req := header_if (b "if-match") (read_if_match args) req in
  let req := header_if (b "if-modified-since") (format_http_date <$> read_if_modified_since args) req in
  let req := header_if (b "if-unmodified-since") (format_http_date <$> read_if_unmodified_since args) req in
  request_body Buffer.new (insert_sse_headers false (insert_request_payer_header req)).

Definition with_checksum (body : Buffer) (req : Builder) : Builder :=
  match calculate_checksum body with Some checksum => insert_checksum_header checksum req | None => req end.
Definition s3_put_object_request (path : str) (size : option Z) (args : OpWrite) (body : Buffer) : result HttpRequest :=
  p ← build_abs_path (s3_root core) path;
  let req := insert_metadata_headers size args (request_new uri_error "PUT" (object_url p)) in
  let req := insert_sse_headers true (insert_request_payer_header req) in
  request_body body (with_checksum body req).

Definition s3_append_object_request (path : str) (position size : Z) (args : OpWrite) (body : Buffer) : result HttpRequest :=
  p ← build_abs_path (s3_root core) path;
  let req := request_new uri_error "PUT" (object_url p) in
  let req := if bool_decide (position = 0)%Z then insert_metadata_headers (Some size) args req
             else header (b "content-length") (show_u64 size) req in
  let req := header (b "x-amz-write-offset-bytes") (show_u64 position) req in
  let req := insert_sse_headers true (insert_request_payer_header req) in
  request_body body (with_checksum body req).

Definition s3_delete_object_request (path : str) (args : OpDelete) : result HttpRequest :=
  p ← build_abs_path (s3_root core) path;
  let url := with_query (object_url p) (query_arg "versionId" (percent_encode_path <$> del_version args)) in
  request_body Buffer.new (insert_request_payer_header (request_new uri_error "DELETE" url)).

Definition s3_copy_object_request (from to : str) (args : OpCopy) : result HttpRequest :=
  from ← build_abs_path (s3_root core) from;
  to ← build_abs_path (s3_root core) to;
  let source := s3_bucket core ++ b "/" ++ percent_encode_path from in
  let req := request_new uri_error "PUT" (object_url to) in
  let req := if copy_if_not_exists args then header (b "if-none-match") (b "*") req else req in
  let req := header_if (b "if-match") (copy_if_match args) req in
  let req := insert_copy_source_headers (insert_sse_headers true req) in
  let req := insert_request_payer_header req in
  request_body Buffer.new (header (b "x-amz-copy-source") source req).

(** [if !text.is_empty() { url = url.push(key, ..) }]. *)
Definition push_if (key : string) (text value : str) (w : QueryPairsWriter) : QueryPairsWriter :=
  if bool_decide (text = []) then w else query_push w (b key) value.
Definition push_some (key : string) (value : option str) (w : QueryPairsWriter) : QueryPairsWriter :=
  match value with Some v => query_push w (b key) v | None => w end.
Definition show_limit (limit : option nat) : option str := (fun n => show_u64 (Z.of_nat n)) <$> limit.

Definition s3_list_objects_v1_request (path marker delimiter : str) (limit : option nat) : result HttpRequest :=
  p ← build_abs_path (s3_root core) path;
  let url := query_new (s3_endpoint core) in
  let url := push_if "prefix" p (percent_encode_path p) url in
  let url := push_if "delimiter" delimiter delimiter url in
  let url := push_some "max-keys" (show_limit limit) url in
  let url := push_if "marker" marker (percent_encode_path marker) url in
  request_body Buffer.new (insert_request_payer_header (request_new uri_error "GET" (query_finish url))).

Definition s3_list_objects_v2_request (path continuation_token delimiter : str) (limit : option nat) (start_after : option str)
  : result HttpRequest :=
  p ← build_abs_path (s3_root core) path;
  let url := query_push (query_new (s3_endpoint core)) (b "list-type") (b "2") in
  let url := push_if "prefix" p (percent_encode_path p) url in
  let url := push_if "delimiter" delimiter delimiter url in
  let url := push_some "max-keys" (show_limit limit) url in
  let url := push_some "start-after" (percent_encode_path <$> start_after) url in
  let url := push_if "continuation-token" continuation_token (percent_encode_path continuation_token) url in
  request_body Buffer.new (insert_request_payer_header (request_new uri_error "GET" (query_finish url))).

(** [if !text.is_empty() { write!(url, "&name={}", ..) }]. *)
Definition write_if (name : string) (text value : str) : str :=
  if bool_decide (text = []) then [] else b "&" ++ b name ++ b "=" ++ value.
Definition s3_list_object_versions_request (prefix delimiter : str) (limit : option nat) (key_marker version_id_marker : str)
  : result HttpRequest :=
  p ← build_abs_path (s3_root core) prefix;
  let url := s3_endpoint core ++ b "?versions" ++ write_if "prefix" p (percent_encode_path p) ++ write_if "delimiter" delimiter delimiter ++
    match show_limit limit with Some limit => b "&max-keys=" ++ limit | None => [] end ++
    write_if "key-marker" key_marker (percent_encode_path key_marker) ++
    write_if "version-id-marker" version_id_marker (percent_encode_path version_id_marker) in
  request_body Buffer.new (insert_request_payer_header (request_new uri_error "GET" url)).

Definition md5_not_supported : Error :=
  mkError Unsupported (b "checksum_algorithm " ++ "034"%char :: b "md5" ++ "034"%char ::
    b " is not supported for multipart uploads. S3 CreateMultipartUpload only accepts: CRC32, CRC32C, SHA1, SHA256.")
    Permanent [] [] None.
Definition s3_initiate_multipart_upload_request (path : str) (args : OpWrite) : result HttpRequest :=
  p ← build_abs_path (s3_root core) path;
  let req := request_new uri_error "POST" (object_url p ++ b "?uploads") in
  let req := header_if (b "content-type") (write_content_type args) req in
  let req := header_if (b "content-disposition") (write_content_disposition args) req in
  let req := header_if (b "cache-control") (write_cache_control args) req in
  let req := header_if (b "content-encoding") (write_content_encoding args) req in
  let req := header_if (b "x-amz-storage-class") (default_storage_class core) req in
  let req := user_metadata_headers (write_user_metadata args) req in
  let req := header_if (b "x-amz-acl") (default_acl core) req in
  let req := insert_sse_headers true (insert_request_payer_header req) in
  match checksum_algorithm core with
  | Some Md5 => Err md5_not_supported
  | _ => request_body Buffer.new (insert_checksum_type_header req)
  end.
Definition s3_initiate_multipart_copy_request (path : str) : result HttpRequest :=
  p ← build_abs_path (s3_root core) path;
  let req := request_new uri_error "POST" (object_url p ++ b "?uploads") in
  let req := header_if (b "x-amz-storage-class") (default_storage_class core) req in
  let req := header_if (b "x-amz-acl") (default_acl core) req in
  request_body Buffer.new (insert_sse_headers true (insert_request_payer_header req)).

Definition part_url (p upload_id : str) (part_number : nat) : str :=
  object_url p ++ b "?partNumber=" ++ show_u64 (Z.of_nat part_number) ++ b "&uploadId=" ++ percent_encode_path upload_id.
Definition upload_url (p upload_id : str) : str := object_url p ++ b "?uploadId=" ++ percent_encode_path upload_id.

Definition s3_upload_part_copy_request (from to upload_id : str) (part_number : nat) (range : BytesRange) : result HttpRequest :=
  from ← build_abs_path (s3_root core) from;
  to ← build_abs_path (s3_root core) to;
  let source := s3_bucket core ++ b "/" ++ percent_encode_path from in
  let req := request_new uri_error "PUT" (part_url to upload_id part_number) in
  let req := insert_copy_source_headers (insert_sse_headers true req) in
  let req := header (b "x-amz-copy-source") source (insert_request_payer_header req) in
  h ← Range.to_header range;
  request_body Buffer.new (header (b "x-amz-copy-source-range") h req).
Definition s3_upload_part_request (path upload_id : str) (part_number : nat) (size : Z) (body : Buffer) (checksum : option str)
  : result HttpRequest :=
  p ← build_abs_path (s3_root core) path;
  let req := header (b "content-length") (show_u64 size) (request_new uri_error "PUT" (part_url p upload_id part_number)) in
  let req := insert_sse_headers true (insert_request_payer_header req) in
  let req := match checksum with Some checksum => insert_checksum_header checksum req | None => req end in
  request_body body req.

Definition text_body (content : str) : Buffer := Contiguous (as_bytes content).
(** The request that completes an upload, with the conditions of a write or a
    copy in their order. *)
Definition complete_request (path upload_id : str) (parts : list CompletePart) (conditions : Builder -> Builder) : result HttpRequest :=
  p ← build_abs_path (s3_root core) path;
  let req := insert_sse_headers true (request_new uri_error "POST" (upload_url p upload_id)) in
  content ← map_err new_xml_serialize_error (xml_complete parts);
  let req := header (b "content-length") (show_u64 (Z.of_nat (length content))) req in
  let req := header (b "content-type") (b "application/xml") req in
  request_body (text_body content) (insert_request_payer_header (conditions req)).
Definition s3_complete_multipart_upload_request (path upload_id : str) (parts : list CompletePart) (args : OpWrite) : result HttpRequest :=
  complete_request path upload_id parts (fun req =>
    let req := header_if (b "if-match") (write_if_match args) req in
    if write_if_not_exists args then header (b "if-none-match") (b "*") req else req).
Definition s3_complete_multipart_copy_request (path upload_id : str) (parts : list CompletePart) (args : OpCopy) : result HttpRequest :=
  complete_request path upload_id parts (fun req =>
    header_if (b "if-match") (copy_if_match args)
      (if copy_if_not_exists args then header (b "if-none-match") (b "*") req else req)).
(** The same for writes and copies. *)
Definition s3_abort_multipart_request (path upload_id : str) : result HttpRequest :=
  p ← build_abs_path (s3_root core) path;
  request_body Buffer.new (insert_request_payer_header (request_new uri_error "DELETE" (upload_url p upload_id))).

Fixpoint delete_objects_of (paths : list (str * OpDelete)) : result (list DeleteObject) :=
  match paths with
  | [] => Ok []
  | (path, op) :: paths =>
      key ← build_abs_path (s3_root core) path;
      objects ← delete_objects_of paths;
      Ok (mkDeleteObject key (del_version op) :: objects)
  end.
Definition s3_delete_objects_request (paths : list (str * OpDelete)) : result HttpRequest :=
  let req := request_new uri_error "POST" (s3_endpoint core ++ b "/?delete") in
  objects ← delete_objects_of paths;
  content ← map_err new_xml_serialize_error (xml_delete true objects);
  let req := header (b "content-length") (show_u64 (Z.of_nat (length content))) req in
  let req := header (b "content-type") (b "application/xml") req in
  let req := header (b "CONTENT-MD5") (md5_base64 (as_bytes content)) req in
  request_body (text_body content) (insert_request_payer_header req).
End Requests.

(** ** What a server reads

    A server splits the URL into the endpoint, the key and the pairs of the query,
    and decodes the key and the values. *)

Section Server.
  Context `{PercentEncoding}.

Definition decode_pair (kv : str * str) : str * str := (kv.1, percent_decode kv.2).
Definition s3_read (endpoint : str) (r : HttpRequest) : option (option str * list (str * str)) :=
  let '(base, pairs) := read_url (pt_uri (hr_parts r)) in
  let params := decode_pair <$> pairs in
  if bool_decide (base = endpoint) then Some (None, params)
  else (fun key => (Some (percent_decode key), params)) <$> Prelude.strip_prefix (endpoint ++ b "/") base.

(** The request, as the server takes it: the method, the key when it is about an
    object, the parameters, all the headers (but for those signing adds) and the
    body.  The only other result is that the [http] crate refuses the URL or a
    header. *)
Definition reads_as (endpoint : str) (r : result HttpRequest) (method : string) (key : option str)
    (params headers : list (str * str)) (body : Buffer) : Prop :=
  match r with
  | Ok req => pt_method (hr_parts req) = b method /\ s3_read endpoint req = Some (key, params) /\
      pt_headers (hr_parts req) = headers /\ hr_body req = body
  | Err e => exists msg, e = new_request_build_error msg
  | Panic => False
  end.
End Server.

(** *** The headers that are meant

    Each group of headers, from what the caller and the configuration ask for. *)

Definition some_param (name : string) (v : option str) : list (str * str) := match v with Some v => [(b name, v)] | None => [] end.
Definition when (c : bool) (name value : string) : list (str * str) := if c then [(b name, b value)] else [].

Section Headers.
  Context `{PercentEncoding} `{S3Crates}.
  Variable core : S3Core.

(** Server-side encryption: of what is stored, and the keys of the customer. *)
Definition customer_headers (prefix : string) : list (str * str) :=
  let named suffix := String.append prefix suffix in
  some_param (named "-algorithm") (server_side_encryption_customer_algorithm core) ++
  some_param (named "-key") (server_side_encryption_customer_key core) ++
  some_param (named "-key-md5") (server_side_encryption_customer_key_md5 core).
Definition sse_headers (is_write : bool) : list (str * str) :=
  (if is_write then
     some_param "x-amz-server-side-encryption" (server_side_encryption core) ++
     some_param "x-amz-server-side-encryption-aws-kms-key-id" (server_side_encryption_aws_kms_key_id core)
   else []) ++ customer_headers "x-amz-server-side-encryption-customer".
Definition payer_headers : list (str * str) := when (enable_request_payer core) "x-amz-request-payer" "requester".
Definition storage_class : list (str * str) := some_param "x-amz-storage-class" (default_storage_class core).
Definition acl : list (str * str) := some_param "x-amz-acl" (default_acl core).
Definition user_headers (m : option (gmap (list ascii) (list ascii))) : list (str * str) :=
  match m with Some m => (fun kv => (lower (b "x-amz-meta-" ++ kv.1), kv.2)) <$> hash_pairs m | None => [] end.
Definition checksum_named (checksum : option str) : list (str * str) :=
  match checksum, checksum_algorithm core with
  | Some c, Some Crc32c => [(b "x-amz-checksum-crc32c", c)]
  | Some c, Some Md5 => [(b "content-md5", c)]
  | _, _ => []
  end.
Definition checksum_of (body : Buffer) : list (str * str) :=
  match checksum_algorithm core with
  | Some Crc32c => [(b "x-amz-checksum-crc32c", crc32c_base64 (contents body))]
  | Some Md5 => [(b "content-md5", md5_base64 (contents body))]
  | None => []
  end.
Definition checksum_type : list (str * str) :=
  match checksum_algorithm core with
  | Some Crc32c => [(b "x-amz-checksum-algorithm", b "CRC32C")]
  | Some Md5 => [(b "x-amz-checksum-algorithm", b "MD5")]
  | None => []
  end.
Definition xml_headers (content : str) : list (str * str) :=
  [(b "content-length", show_u64 (Z.of_nat (length content))); (b "content-type", b "application/xml")].
Definition conditions (none_match match_ : option str) (modified unmodified : option Z) : list (str * str) :=
  some_param "if-none-match" none_match ++ some_param "if-match" match_ ++
  some_param "if-modified-since" (format_http_date <$> modified) ++
  some_param "if-unmodified-since" (format_http_date <$> unmodified).
Definition range_headers (range : BytesRange) : list (str * str) :=
  if is_full range then [] else match Range.to_header range with Ok h => [(b "range", h)] | _ => [] end.

(** What is said of an object that is written, and the conditions of the write. *)
Definition metadata_headers (size : option Z) (args : OpWrite) : list (str * str) :=
  some_param "content-length" (show_u64 <$> size) ++ some_param "content-type" (write_content_type args) ++
  some_param "content-disposition" (write_content_disposition args) ++
  some_param "content-encoding" (write_content_encoding args) ++ some_param "cache-control" (write_cache_control args) ++
  some_param "if-match" (write_if_match args) ++ when (write_if_not_exists args) "if-none-match" "*" ++
  storage_class ++ user_headers (write_user_metadata args) ++ acl.

Definition head_headers (args : OpStat) : list (str * str) :=
  sse_headers false ++ conditions (stat_if_none_match args) (stat_if_match args) (stat_if_modified_since args)
    (stat_if_unmodified_since args) ++ payer_headers.
Definition get_headers (range : BytesRange) (args : OpRead) : list (str * str) :=
  range_headers range ++ conditions (read_if_none_match args) (read_if_match args) (read_if_modified_since args)
    (read_if_unmodified_since args) ++ payer_headers ++ sse_headers false.
Definition put_headers (size : option Z) (args : OpWrite) (body : Buffer) : list (str * str) :=
  metadata_headers size args ++ payer_headers ++ sse_headers true ++ checksum_of body.
(** The metadata goes with the first piece. *)
Definition append_headers (position size : Z) (args : OpWrite) (body : Buffer) : list (str * str) :=
  (if bool_decide (position = 0)%Z then metadata_headers (Some size) args else [(b "content-length", show_u64 size)]) ++
  [(b "x-amz-write-offset-bytes", show_u64 position)] ++ payer_headers ++ sse_headers true ++ checksum_of body.
Definition copy_source (f : str) : str * str := (b "x-amz-copy-source", s3_bucket core ++ b "/" ++ percent_encode_path f).
Definition source_headers (f : str) : list (str * str) :=
  sse_headers true ++ customer_headers "x-amz-copy-source-server-side-encryption-customer" ++ payer_headers ++ [copy_source f].
Definition copy_headers (f : str) (args : OpCopy) : list (str * str) :=
  when (copy_if_not_exists args) "if-none-match" "*" ++ some_param "if-match" (copy_if_match args) ++ source_headers f.
Definition initiate_headers (args : OpWrite) : list (str * str) :=
  some_param "content-type" (write_content_type args) ++ some_param "content-disposition" (write_content_disposition args) ++
  some_param "cache-control" (write_cache_control args) ++ some_param "content-encoding" (write_content_encoding args) ++
  storage_class ++ user_headers (write_user_metadata args) ++ acl ++ payer_headers ++ sse_headers true ++ checksum_type.
Definition initiate_copy_headers : list (str * str) := storage_class ++ acl ++ payer_headers ++ sse_headers true.
Definition part_headers (size : Z) (checksum : option str) : list (str * str) :=
  [(b "content-length", show_u64 size)] ++ payer_headers ++ sse_headers true ++ checksum_named checksum.
Definition part_copy_headers (f : str) (range : str) : list (str * str) :=
  source_headers f ++ [(b "x-amz-copy-source-range", range)].
Definition complete_headers (content : str) (args : OpWrite) : list (str * str) :=
  sse_headers true ++ xml_headers content ++ some_param "if-match" (write_if_match args) ++
  when (write_if_not_exists args) "if-none-match" "*" ++ payer_headers.
Definition complete_copy_headers (content : str) (args : OpCopy) : list (str * str) :=
  sse_headers true ++ xml_headers content ++ when (copy_if_not_exists args) "if-none-match" "*" ++
  some_param "if-match" (copy_if_match args) ++ payer_headers.
Definition delete_headers (content : str) : list (str * str) :=
  xml_headers content ++ [(b "content-md5", md5_base64 (as_bytes content))] ++ payer_headers.

(** The server takes the source of a copy from its header: the bucket up to the
    first slash, then the key, decoded. *)
Definition header_value (name : string) (hs : list (str * str)) : option str :=
  snd <$> List.find (fun kv => bool_decide (kv.1 = b name)) hs.
Definition read_copy_source (hs : list (str * str)) : option (str * str) :=
  v ← header_value "x-amz-copy-source" hs;
  i ← find_char slash v;
  Some (take i v, percent_decode (drop (S i) v)).
End Headers.

(** A builder for a method, a URL and headers. *)
Definition builds (method : string) (url : str) (hs : list (str * str)) (req : Builder) : Prop :=
  match req with
  | Ok parts => pt_method parts = b method /\ pt_uri parts = url /\ pt_headers parts = hs
  | Err _ => True
  | Panic => False
  end.
(** The crate answers whether a text is the name or the value of a header; names
    are kept in lower case, values as they are. *)
Class HttpTotal `{HttpCrate} : Prop := {
  name_total s : name_from_str s <> Panic;
  value_total s : value_from_str s <> Panic;
  name_law s n : name_from_str s = Ok n -> n = lower s;
  value_law s v : value_from_str s = Ok v -> v = s;
}.

Section Builds.
  Context `{HttpTotal}.
#[local] Set Default Proof Using "All".

Lemma builds_new err method url : builds method url [] (request_new err method url).
Proof. unfold request_new. by destruct (uri_from_str url). Qed.
Lemma builds_named method url hs name name' value req :
  lower name = name' -> builds method url hs req -> builds method url (hs ++ [(name', value)]) (header name value req).
Proof.
  intros <- Hb. unfold header. destruct req as [p|e|]; [|done..]. simpl. pose proof (name_total name).
  destruct (name_from_str name) as [n|e|] eqn:En; [|done..]. apply name_law in En as ->. simpl. pose proof (value_total value).
  destruct (value_from_str value) as [v|e|] eqn:Ev; [|done..]. apply value_law in Ev as ->.
  destruct Hb as (? & ? & <-). by split_and!.
Qed.
Lemma builds_header method url hs name value req :
  lower name = name -> builds method url hs req -> builds method url (hs ++ [(name, value)]) (header name value req).
Proof. apply builds_named. Qed.
Lemma builds_header_if method url hs name value req :
  lower (b name) = b name -> builds method url hs req ->
  builds method url (hs ++ some_param name value) (header_if (b name) value req).
Proof. intros. destruct value; [by apply builds_header | by rewrite app_nil_r]. Qed.
Lemma builds_header_when method url hs (c : bool) name value req :
  lower (b name) = b name -> builds method url hs req ->
  builds method url (hs ++ when c name value) (if c then header (b name) (b value) req else req).
Proof. intros. destruct c; [by apply builds_header | by rewrite app_nil_r]. Qed.
Lemma builds_eq method url hs hs' req : builds method url hs req -> hs = hs' -> builds method url hs' req.
Proof using Type. by intros ? <-. Qed.
(** A finished request, when what its URL means is known. *)
Lemma request_body_reads `{PercentEncoding} endpoint method url hs body req key params :
  builds method url hs req ->
  (forall parts, pt_uri parts = url -> s3_read endpoint (mkHttp parts body) = Some (key, params)) ->
  reads_as endpoint (request_body body req) method key params hs body.
Proof.
  intros Hb Hr. destruct req as [p|e|]; [|by exists e|done]. destruct Hb as (Hm & Hu & Hh). split_and!; [done|by apply Hr|done..].
Qed.

  Context `{S3Crates}.
  Variable core : S3Core.
Lemma builds_sse method url hs w req :
  builds method url hs req -> builds method url (hs ++ sse_headers core w) (insert_sse_headers core w req).
Proof.
  intros Hr. unfold insert_sse_headers, sse_headers, customer_headers. destruct w; cbn [app]; rewrite !app_assoc.
  all: repeat apply builds_header_if; done.
Qed.
Lemma builds_copy_source method url hs req :
  builds method url hs req ->
  builds method url (hs ++ customer_headers core "x-amz-copy-source-server-side-encryption-customer")
    (insert_copy_source_headers core req).
Proof. intros Hr. unfold insert_copy_source_headers, customer_headers. rewrite !app_assoc. by repeat apply builds_header_if. Qed.
Lemma builds_checksum method url hs c req :
  builds method url hs req ->
  builds method url (hs ++ checksum_named core c)
    (match c with Some checksum => insert_checksum_header core checksum req | None => req end).
Proof.
  intros Hr. unfold insert_checksum_header, checksum_named. destruct c, (checksum_algorithm core) as [[]|]; rewrite ?app_nil_r;
    [by apply builds_header..|done|done|done|done].
Qed.
Lemma builds_with_checksum method url hs body req :
  builds method url hs req -> builds method url (hs ++ checksum_of core body) (with_checksum core body req).
Proof.
  intros Hr. unfold with_checksum, calculate_checksum, insert_checksum_header, checksum_of.
  destruct (checksum_algorithm core) as [[]|]; rewrite ?app_nil_r; [by apply builds_header..|done].
Qed.
Lemma builds_checksum_type method url hs req :
  builds method url hs req -> builds method url (hs ++ checksum_type core) (insert_checksum_type_header core req).
Proof.
  intros Hr. unfold insert_checksum_type_header, checksum_type.
  destruct (checksum_algorithm core) as [[]|]; rewrite ?app_nil_r; [by apply builds_header..|done].
Qed.
Lemma builds_user_metadata method url hs m req :
  builds method url hs req -> builds method url (hs ++ user_headers m) (user_metadata_headers m req).
Proof.
  unfold user_metadata_headers, user_headers. destruct m as [m|]; [|by rewrite app_nil_r].
  revert hs req. induction (hash_pairs m) as [|kv kvs IH]; intros hs req Hr; [by rewrite app_nil_r|].
  cbn [foldl fmap list_fmap]. rewrite cons_middle, app_assoc. apply IH. by apply builds_named.
Qed.
Lemma builds_payer method url hs req :
  builds method url hs req -> builds method url (hs ++ payer_headers core) (insert_request_payer_header core req).
Proof. intros Hr. by apply builds_header_when. Qed.
Lemma builds_metadata method url hs size args req :
  builds method url hs req -> builds method url (hs ++ metadata_headers core size args) (insert_metadata_headers core size args req).
Proof.
  intros Hr. unfold insert_metadata_headers, metadata_headers, storage_class, acl. rewrite !app_assoc.
  apply builds_header_if; [done|]. apply builds_user_metadata. apply builds_header_if; [done|].
  apply builds_header_when; [done|]. by repeat apply builds_header_if.
Qed.
End Builds.
(** A builder is taken apart from its last header to its first. *)
Ltac build_step :=
  lazymatch goal with
  | |- builds _ _ _ (request_new _ _ _) => apply builds_new
  | |- builds _ _ _ (header_if _ _ _) => apply builds_header_if; [vm_compute; reflexivity|]
  | |- builds _ _ _ (if _ then header _ _ _ else _) => apply builds_header_when; [vm_compute; reflexivity|]
  | |- builds _ _ _ (header _ _ _) => first [apply builds_header; [vm_compute; reflexivity|] | apply builds_named; [vm_compute; reflexivity|]]
  | |- builds _ _ _ (insert_sse_headers _ _ _) => apply builds_sse
  | |- builds _ _ _ (insert_copy_source_headers _ _) => apply builds_copy_source
  | |- builds _ _ _ (match _ with Some _ => insert_checksum_header _ _ _ | None => _ end) => apply builds_checksum
  | |- builds _ _ _ (with_checksum _ _ _) => apply builds_with_checksum
  | |- builds _ _ _ (insert_checksum_type_header _ _) => apply builds_checksum_type
  | |- builds _ _ _ (user_metadata_headers _ _) => apply builds_user_metadata
  | |- builds _ _ _ (insert_request_payer_header _ _) => apply builds_payer
  | |- builds _ _ _ (insert_metadata_headers _ _ _ _) => apply builds_metadata
  | |- _ => eassumption
  end.
(** The headers that were built are the ones meant. *)
Ltac built :=
  eapply builds_eq; [repeat build_step|];
  cbv beta delta [head_headers get_headers put_headers append_headers copy_headers source_headers initiate_headers
    initiate_copy_headers part_headers part_copy_headers xml_headers delete_headers conditions storage_class acl];
  rewrite <- ?app_assoc; reflexivity.

(** *** Reading URLs *)

Section ReadUrl.
  Context `{PercentLaws}.
#[local] Set Default Proof Using "All".

Lemma encoded_no_char c p : url_char c = false -> c ∉ percent_encode_path p.
Proof. intros Hc Hin. pose proof (encoded_chars p) as Ha. rewrite Forall_forall in Ha. specialize (Ha _ Hin). congruence. Qed.
Lemma decode_plain s : (percent ∉ s) -> percent_decode s = s.
Proof.
  induction s as [|c s IH]; intros Hs; [apply decode_nil|]. apply not_elem_of_cons in Hs as [Hc Hs].
  rewrite decode_other by done. by rewrite IH.
Qed.
Lemma decode_decimal n : percent_decode (show_u64 n) = show_u64 n.
Proof. by apply decode_plain, show_u64_no_sep. Qed.

Lemma read_query base texts :
  ("?"%char ∉ base) -> texts <> [] -> Forall (fun t => "&"%char ∉ t) texts ->
  read_url (base ++ b "?" ++ join (b "&") texts) = (base, read_pair <$> texts).
Proof.
  intros Hb Hne Ht. unfold read_url. change (b "?" ++ join (b "&") texts) with ("?"%char :: join ["&"%char] texts).
  rewrite find_char_first, take_app_length by done. f_equal. replace (S (length base)) with (length base + 1) by lia.
  rewrite <- drop_drop, drop_app_length. change (drop 1 ("?"%char :: ?l)) with l. by rewrite split_join.
Qed.

(** ["name=value"] is read as the pair, the value decoded. *)
Definition pair_text (name : str) (value : str) : str := name ++ b "=" ++ value.
Definition name_ok (name : str) : bool := bool_decide (("="%char ∉ name) /\ ("&"%char ∉ name)).
Lemma read_pair_text name value : name_ok name = true -> read_pair (pair_text name value) = (name, value).
Proof.
  intros [Hn _]%bool_decide_eq_true. unfold read_pair, pair_text. change (name ++ b "=" ++ value) with (name ++ "="%char :: value).
  rewrite find_char_first, take_app_length by done. replace (S (length name)) with (length name + 1) by lia.
  by rewrite <- drop_drop, drop_app_length.
Qed.
Lemma pair_text_amp name value : name_ok name = true -> ("&"%char ∉ value) -> "&"%char ∉ pair_text name value.
Proof.
  intros [_ Hn]%bool_decide_eq_true Hv. unfold pair_text. rewrite !not_elem_of_app. split_and!; [done| |done].
  apply (bool_decide_unpack _). vm_compute. exact I.
Qed.

  Variable core : S3Core.
  Hypothesis endpoint_ok : "?"%char ∉ s3_endpoint core.

Lemma object_url_query p : "?"%char ∉ object_url core p.
Proof.
  unfold object_url. rewrite !not_elem_of_app. split_and!; [done| |by apply encoded_no_char].
  apply (bool_decide_unpack _). vm_compute. exact I.
Qed.

(** A request about an object: the key is read back, and the query. *)
Lemma read_object parts body p texts :
  pt_uri parts = (if bool_decide (texts = []) then object_url core p else object_url core p ++ b "?" ++ join (b "&") texts) ->
  Forall (fun t => "&"%char ∉ t) texts ->
  s3_read (s3_endpoint core) (mkHttp parts body) = Some (Some p, decode_pair <$> (read_pair <$> texts)).
Proof.
  intros Hu Ht. unfold s3_read. cbn [hr_parts]. rewrite Hu.
  assert (read_url (if bool_decide (texts = []) then object_url core p else object_url core p ++ b "?" ++ join (b "&") texts) =
          (object_url core p, read_pair <$> texts)) as ->.
  { case_bool_decide as Hn; [|by apply read_query; [apply object_url_query|..]]. subst texts. unfold read_url.
    by rewrite find_char_absent by apply object_url_query. }
  rewrite bool_decide_eq_false_2.
  - unfold object_url at 1. rewrite app_assoc, strip_prefix_app. simpl. by rewrite percent_decode_encode.
  - unfold object_url. intros E. apply (f_equal length) in E. rewrite !length_app in E. simpl in E. lia.
Qed.

(** A request about the bucket. *)
Lemma read_bucket parts body texts :
  pt_uri parts = s3_endpoint core ++ b "?" ++ join (b "&") texts -> texts <> [] -> Forall (fun t => "&"%char ∉ t) texts ->
  s3_read (s3_endpoint core) (mkHttp parts body) = Some (None, decode_pair <$> (read_pair <$> texts)).
Proof.
  intros Hu Hne Ht. unfold s3_read. cbn [hr_parts]. rewrite Hu, read_query by done. by rewrite bool_decide_eq_true_2.
Qed.
End ReadUrl.

(** ** Requests mean what was meant *)

Definition text_param (name : string) (v : str) : list (str * str) := if bool_decide (v = []) then [] else [(b name, v)].
Definition override_params (disposition content_type cache_control version : option str) : list (str * str) :=
  some_param "response-content-disposition" disposition ++ some_param "response-content-type" content_type ++
  some_param "response-cache-control" cache_control ++ some_param "versionId" version.

(** A version that is the same encoded and decoded. *)
Definition plain_version (v : str) : Prop := Forall (fun c => url_char c = true /\ c <> percent) v.

Section Meaning.
  Context `{HttpTotal} `{PercentLaws} `{S3Crates}.
  Variable core : S3Core.
  Hypothesis endpoint_ok : "?"%char ∉ s3_endpoint core.
#[local] Set Default Proof Using "All".

Lemma plain_version_decode v : plain_version v -> percent_decode_path v = v /\ percent_decode v = v /\ ("&"%char ∉ v).
Proof.
  intros Hv. assert (percent ∉ v) as Hp.
  { intros Hin. unfold plain_version in Hv. rewrite Forall_forall in Hv. by destruct (Hv _ Hin). }
  unfold percent_decode_path. rewrite decode_plain by done. split; [by destruct (valid_utf8 _)|]. split; [done|].
  intros Hin. unfold plain_version in Hv. rewrite Forall_forall in Hv. destruct (Hv _ Hin) as [Hc _]. by vm_compute in Hc.
Qed.

(** One optional argument of a query. *)
Lemma query_arg_encoded name v :
  name_ok (b name) = true ->
  decode_pair <$> (read_pair <$> query_arg name (percent_encode_path <$> v)) = some_param name v /\
  Forall (fun t => "&"%char ∉ t) (query_arg name (percent_encode_path <$> v)).
Proof.
  intros Hn. destruct v as [v|]; [|done]. cbn [query_arg fmap option_fmap option_map list_fmap]. change (b name ++ b "=" ++ percent_encode_path v) with (pair_text (b name) (percent_encode_path v)).
  rewrite read_pair_text by done. unfold decode_pair. cbn [fst snd]. rewrite percent_decode_encode. split; [done|]. constructor; [|done].
  apply pair_text_amp; [done|]. by apply encoded_no_char.
Qed.
Lemma query_arg_version v :
  from_option plain_version True v ->
  decode_pair <$> (read_pair <$> query_arg "versionId" (percent_decode_path <$> v)) = some_param "versionId" v /\
  Forall (fun t => "&"%char ∉ t) (query_arg "versionId" (percent_decode_path <$> v)).
Proof.
  destruct v as [v|]; [|done]. intros (Hx1 & Hx2 & Hx3)%plain_version_decode.
  cbn [query_arg fmap option_fmap option_map list_fmap]. rewrite Hx1.
  change (b "versionId" ++ b "=" ++ v) with (pair_text (b "versionId") v). rewrite read_pair_text by done.
  unfold decode_pair. cbn [fst snd]. rewrite Hx2. split; [done|]. constructor; [|done]. by apply pair_text_amp.
Qed.
Lemma override_args_read d t c v :
  from_option plain_version True v ->
  decode_pair <$> (read_pair <$> override_args d t c v) = override_params d t c v /\
  Forall (fun t => "&"%char ∉ t) (override_args d t c v).
Proof.
  intros [Hv Hv']%query_arg_version. unfold override_args, override_params.
  destruct (query_arg_encoded "response-content-disposition" d eq_refl) as [Hx1 Hx1'].
  destruct (query_arg_encoded "response-content-type" t eq_refl) as [Hx2 Hx2'].
  destruct (query_arg_encoded "response-cache-control" c eq_refl) as [Hx3 Hx3'].
  rewrite !fmap_app, Hx1, Hx2, Hx3, Hv. split; [done|]. rewrite !Forall_app. by split_and!.
Qed.

Lemma reads_object r method hs body req p texts params :
  r = request_body body req ->
  builds method (if bool_decide (texts = []) then object_url core p else object_url core p ++ b "?" ++ join (b "&") texts) hs req ->
  decode_pair <$> (read_pair <$> texts) = params -> Forall (fun t => "&"%char ∉ t) texts ->
  reads_as (s3_endpoint core) r method (Some p) params hs body.
Proof.
  intros -> Hb Hp Ht. eapply request_body_reads; [exact Hb|]. intros parts Hu.
  by rewrite (read_object core endpoint_ok parts body p texts Hu Ht), Hp.
Qed.
Lemma reads_bucket r method hs body req texts params :
  r = request_body body req -> builds method (s3_endpoint core ++ b "?" ++ join (b "&") texts) hs req -> texts <> [] ->
  decode_pair <$> (read_pair <$> texts) = params -> Forall (fun t => "&"%char ∉ t) texts ->
  reads_as (s3_endpoint core) r method None params hs body.
Proof.
  intros -> Hb Hne Hp Ht. eapply request_body_reads; [exact Hb|]. intros parts Hu.
  by rewrite (read_bucket core endpoint_ok parts body texts Hu Hne Ht), Hp.
Qed.

Lemma head_reads path p args :
  build_abs_path (s3_root core) path = Ok p -> from_option plain_version True (stat_version args) ->
  reads_as (s3_endpoint core) (s3_head_object_request core path args) "HEAD" (Some p)
    (override_params (stat_override_content_disposition args) (stat_override_content_type args)
       (stat_override_cache_control args) (stat_version args)) (head_headers core args) Buffer.new.
Proof.
  intros Hp Hv. unfold s3_head_object_request. rewrite Hp. cbn [mbind outcome_bind].
  destruct (override_args_read (stat_override_content_disposition args) (stat_override_content_type args)
    (stat_override_cache_control args) (stat_version args) Hv) as [Hx1 Hx2].
  eapply reads_object; [reflexivity| |exact Hx1|exact Hx2]. fold (with_query (object_url core p)). built.
Qed.
Lemma get_reads path p range args :
  build_abs_path (s3_root core) path = Ok p -> is_full range || is_ok (Range.to_header range) = true ->
  from_option plain_version True (read_version args) ->
  reads_as (s3_endpoint core) (s3_get_object_request core path range args) "GET" (Some p)
    (override_params (read_override_content_disposition args) (read_override_content_type args)
       (read_override_cache_control args) (read_version args)) (get_headers core range args) Buffer.new.
Proof.
  intros Hp Hr Hv. unfold s3_get_object_request. rewrite Hp. cbn [mbind outcome_bind].
  destruct (override_args_read (read_override_content_disposition args) (read_override_content_type args)
    (read_override_cache_control args) (read_version args) Hv) as [Hx1 Hx2].
  unfold get_headers, range_headers. fold (with_query (object_url core p)).
  destruct (is_full range); [|destruct (Range.to_header range) as [h|e|]; cbn [mbind outcome_bind is_ok orb] in *; [|done..]];
    (eapply reads_object; [reflexivity| |exact Hx1|exact Hx2]; built).
Qed.

Lemma put_reads path p size args body :
  build_abs_path (s3_root core) path = Ok p ->
  reads_as (s3_endpoint core) (s3_put_object_request core path size args body) "PUT" (Some p) []
    (put_headers core size args body) body.
Proof.
  intros Hp. unfold s3_put_object_request. rewrite Hp. cbn [mbind outcome_bind].
  eapply (reads_object _ _ _ _ _ p []); [reflexivity| |done|done]. built.
Qed.
Lemma append_reads path p position size args body :
  build_abs_path (s3_root core) path = Ok p ->
  reads_as (s3_endpoint core) (s3_append_object_request core path position size args body) "PUT" (Some p) []
    (append_headers core position size args body) body.
Proof.
  intros Hp. unfold s3_append_object_request. rewrite Hp. cbn [mbind outcome_bind].
  eapply (reads_object _ _ _ _ _ p []); [reflexivity| |done|done].
  unfold append_headers. destruct (bool_decide (position = 0)%Z); built.
Qed.
Lemma delete_reads path p args :
  build_abs_path (s3_root core) path = Ok p ->
  reads_as (s3_endpoint core) (s3_delete_object_request core path args) "DELETE" (Some p)
    (some_param "versionId" (del_version args)) (payer_headers core) Buffer.new.
Proof.
  intros Hp. unfold s3_delete_object_request. rewrite Hp. cbn [mbind outcome_bind].
  destruct (query_arg_encoded "versionId" (del_version args) eq_refl) as [Hx1 Hx2].
  eapply reads_object; [reflexivity| |exact Hx1|exact Hx2]. fold (with_query (object_url core p)). built.
Qed.
Lemma copy_reads from f to p args :
  build_abs_path (s3_root core) from = Ok f -> build_abs_path (s3_root core) to = Ok p ->
  reads_as (s3_endpoint core) (s3_copy_object_request core from to args) "PUT" (Some p) []
    (copy_headers core f args) Buffer.new.
Proof.
  intros Hf Hp. unfold s3_copy_object_request. rewrite Hf, Hp. cbn [mbind outcome_bind].
  eapply (reads_object _ _ _ _ _ p []); [reflexivity| |done|done]. built.
Qed.

(** *** Uploads *)

Definition part_texts (upload_id : str) (part_number : nat) : list str :=
  [pair_text (b "partNumber") (show_u64 (Z.of_nat part_number)); pair_text (b "uploadId") (percent_encode_path upload_id)].
Definition part_params (upload_id : str) (part_number : nat) : list (str * str) :=
  [(b "partNumber", show_u64 (Z.of_nat part_number)); (b "uploadId", upload_id)].
Lemma part_texts_read upload_id n :
  decode_pair <$> (read_pair <$> part_texts upload_id n) = part_params upload_id n /\
  Forall (fun t => "&"%char ∉ t) (part_texts upload_id n).
Proof.
  unfold part_texts. cbn [fmap list_fmap]. rewrite !read_pair_text by done. unfold decode_pair. cbn [fst snd].
  rewrite percent_decode_encode, decode_decimal. split; [done|].
  constructor; [by apply pair_text_amp; [|apply show_u64_no_sep]|]. constructor; [|done].
  apply pair_text_amp; [done|]. by apply encoded_no_char.
Qed.
Lemma part_url_texts p upload_id n : part_url core p upload_id n = object_url core p ++ b "?" ++ join (b "&") (part_texts upload_id n).
Proof. unfold part_url, part_texts, pair_text. cbn [join]. by rewrite <- !app_assoc. Qed.
Lemma upload_url_texts p upload_id :
  upload_url core p upload_id = object_url core p ++ b "?" ++ join (b "&") [pair_text (b "uploadId") (percent_encode_path upload_id)].
Proof. unfold upload_url, pair_text. cbn [join]. by rewrite <- ?app_assoc. Qed.
Lemma upload_text_read upload_id :
  decode_pair <$> (read_pair <$> [pair_text (b "uploadId") (percent_encode_path upload_id)]) = [(b "uploadId", upload_id)] /\
  Forall (fun t => "&"%char ∉ t) [pair_text (b "uploadId") (percent_encode_path upload_id)].
Proof.
  cbn [fmap list_fmap]. rewrite read_pair_text by done. unfold decode_pair. cbn [fst snd]. rewrite percent_decode_encode. split; [done|].
  constructor; [|done]. apply pair_text_amp; [done|]. by apply encoded_no_char.
Qed.

Lemma initiate_reads path p args :
  build_abs_path (s3_root core) path = Ok p -> checksum_algorithm core <> Some Md5 ->
  reads_as (s3_endpoint core) (s3_initiate_multipart_upload_request core path args) "POST" (Some p) [(b "uploads", [])]
    (initiate_headers core args) Buffer.new.
Proof.
  intros Hp Hm. unfold s3_initiate_multipart_upload_request. rewrite Hp. cbn [mbind outcome_bind].
  assert (decode_pair <$> (read_pair <$> [b "uploads"]) = [(b "uploads", [])]) as Hu by (unfold decode_pair; simpl; by rewrite decode_nil).
  assert (Forall (fun t => "&"%char ∉ t) [b "uploads"]) as Ha by (constructor; [apply (bool_decide_unpack _); vm_compute; exact I|done]).
  destruct (checksum_algorithm core) as [[]|]; [|done|];
    (eapply (reads_object _ _ _ _ _ p [b "uploads"]); [reflexivity| |exact Hu|exact Ha]; built).
Qed.
Lemma initiate_copy_reads path p :
  build_abs_path (s3_root core) path = Ok p ->
  reads_as (s3_endpoint core) (s3_initiate_multipart_copy_request core path) "POST" (Some p) [(b "uploads", [])]
    (initiate_copy_headers core) Buffer.new.
Proof.
  intros Hp. unfold s3_initiate_multipart_copy_request. rewrite Hp. cbn [mbind outcome_bind].
  eapply (reads_object _ _ _ _ _ p [b "uploads"]); [reflexivity| | |]; [built| |].
  - unfold decode_pair; simpl; by rewrite decode_nil.
  - constructor; [apply (bool_decide_unpack _); vm_compute; exact I|done].
Qed.
Lemma part_reads path p upload_id n size body checksum :
  build_abs_path (s3_root core) path = Ok p ->
  reads_as (s3_endpoint core) (s3_upload_part_request core path upload_id n size body checksum) "PUT" (Some p)
    (part_params upload_id n) (part_headers core size checksum) body.
Proof.
  intros Hp. unfold s3_upload_part_request. rewrite Hp. cbn [mbind outcome_bind].
  destruct (part_texts_read upload_id n) as [Hx1 Hx2]. eapply reads_object; [reflexivity| |exact Hx1|exact Hx2].
  change (bool_decide (part_texts upload_id n = [])) with false. cbv iota. rewrite <- part_url_texts.
  built.
Qed.
Lemma part_copy_reads from f to p upload_id n range h :
  build_abs_path (s3_root core) from = Ok f -> build_abs_path (s3_root core) to = Ok p -> Range.to_header range = Ok h ->
  reads_as (s3_endpoint core) (s3_upload_part_copy_request core from to upload_id n range) "PUT" (Some p)
    (part_params upload_id n) (part_copy_headers core f h) Buffer.new.
Proof.
  intros Hf Hp Hr. unfold s3_upload_part_copy_request. rewrite Hf, Hp, Hr. cbn [mbind outcome_bind].
  destruct (part_texts_read upload_id n) as [Hx1 Hx2]. eapply reads_object; [reflexivity| |exact Hx1|exact Hx2].
  change (bool_decide (part_texts upload_id n = [])) with false. cbv iota. rewrite <- part_url_texts. built.
Qed.
Lemma complete_reads path p upload_id parts conditions hs content :
  build_abs_path (s3_root core) path = Ok p -> xml_complete parts = Ok content ->
  (forall method url hs' req, builds method url hs' req -> builds method url (hs' ++ hs) (conditions req)) ->
  reads_as (s3_endpoint core) (complete_request core path upload_id parts conditions) "POST" (Some p)
    [(b "uploadId", upload_id)] (sse_headers core true ++ xml_headers content ++ hs ++ payer_headers core) (text_body content).
Proof.
  intros Hp Hx Hc. unfold complete_request. rewrite Hp, Hx. cbn [mbind outcome_bind map_err].
  destruct (upload_text_read upload_id) as [Hx1 Hx2]. eapply reads_object; [reflexivity| |exact Hx1|exact Hx2].
  change (bool_decide ([_] = [])) with false. cbv iota. rewrite <- upload_url_texts.
  eapply builds_eq; [apply builds_payer, Hc; repeat build_step|]. cbn [app]. by rewrite <- !app_assoc.
Qed.
Lemma abort_reads path p upload_id :
  build_abs_path (s3_root core) path = Ok p ->
  reads_as (s3_endpoint core) (s3_abort_multipart_request core path upload_id) "DELETE" (Some p) [(b "uploadId", upload_id)]
    (payer_headers core) Buffer.new.
Proof.
  intros Hp. unfold s3_abort_multipart_request. rewrite Hp. cbn [mbind outcome_bind].
  destruct (upload_text_read upload_id) as [Hx1 Hx2]. eapply reads_object; [reflexivity| |exact Hx1|exact Hx2].
  change (bool_decide ([_] = [])) with false. cbv iota. rewrite <- upload_url_texts. built.
Qed.
Lemma delete_objects_reads paths objects content :
  delete_objects_of core paths = Ok objects -> xml_delete true objects = Ok content ->
  reads_as (s3_endpoint core) (s3_delete_objects_request core paths) "POST" (Some []) [(b "delete", [])]
    (delete_headers core content) (text_body content).
Proof.
  intros Ho Hx. unfold s3_delete_objects_request. rewrite Ho. cbn [mbind outcome_bind map_err]. rewrite Hx. cbn [map_err].
  eapply (reads_object _ _ _ _ _ [] [b "delete"]); [reflexivity| | |].
  - assert (object_url core [] = s3_endpoint core ++ b "/") as Hu.
    { unfold object_url. unfold percent_encode_path. rewrite encode_law. simpl. done. }
    rewrite Hu. cbn [join]. change (bool_decide ([_] = [])) with false. cbv iota. rewrite <- app_assoc. built.
  - unfold decode_pair; simpl; by rewrite decode_nil.
  - constructor; [apply (bool_decide_unpack _); vm_compute; exact I|done].
Qed.

(** *** Listings *)

Definition raw_text (name : string) (text value : str) : list (str * str) := if bool_decide (text = []) then [] else [(b name, value)].
Lemma push_if_all base ps name text value :
  push_if name text value (push_all base ps) = push_all base (ps ++ raw_text name text value).
Proof. unfold push_if, raw_text. case_bool_decide; [by rewrite app_nil_r|]. unfold push_all. by rewrite foldl_app. Qed.
Lemma push_some_all base ps name v : push_some name v (push_all base ps) = push_all base (ps ++ some_param name v).
Proof. unfold push_some, some_param. destruct v; [|by rewrite app_nil_r]. unfold push_all. by rewrite foldl_app. Qed.

(** A pair that is read back, and what the server decodes it to. *)
Definition carries (raw params : list (str * str)) : Prop := Forall pair_ok raw /\ decode_pair <$> raw = params.
Lemma carries_app raw raw' params params' : carries raw params -> carries raw' params' -> carries (raw ++ raw') (params ++ params').
Proof. intros [Hr <-] [Hr' <-]. split; [by apply Forall_app | by rewrite fmap_app]. Qed.
Lemma carries_encoded name v : name_ok (b name) = true -> carries (raw_text name v (percent_encode_path v)) (text_param name v).
Proof.
  intros Hn. unfold carries, raw_text, text_param. case_bool_decide; [done|]. cbn [fmap list_fmap]. unfold decode_pair. cbn [fst snd].
  rewrite percent_decode_encode. split; [|done]. constructor; [|done]. apply bool_decide_eq_true in Hn as [He Ha].
  split_and!; [done | done | by apply encoded_no_char].
Qed.
Lemma carries_some name v : name_ok (b name) = true -> carries (some_param name (percent_encode_path <$> v)) (some_param name v).
Proof.
  intros Hn. unfold carries, some_param. destruct v as [v|]; [|done]. cbn [fmap option_fmap option_map list_fmap]. unfold decode_pair. cbn [fst snd].
  rewrite percent_decode_encode. split; [|done]. constructor; [|done]. apply bool_decide_eq_true in Hn as [He Ha].
  split_and!; [done | done | by apply encoded_no_char].
Qed.
Lemma carries_limit limit : carries (some_param "max-keys" (show_limit limit)) (some_param "max-keys" (show_limit limit)).
Proof.
  unfold carries, some_param, show_limit. destruct limit as [n|]; [|done]. cbn [fmap option_fmap option_map list_fmap].
  unfold decode_pair. cbn [fst snd]. rewrite decode_decimal. split; [|done]. constructor; [|done].
  split_and!; [apply (bool_decide_unpack _); vm_compute; exact I..|by apply show_u64_no_sep].
Qed.
Lemma carries_delimiter d : d ∈ [[]; [slash]] -> carries (raw_text "delimiter" d d) (text_param "delimiter" d).
Proof.
  intros [->|[->|[]%elem_of_nil]%elem_of_cons]%elem_of_cons; [done|]. split.
  - repeat constructor; apply (bool_decide_unpack _); vm_compute; exact I.
  - unfold raw_text, text_param, decode_pair. simpl. by rewrite decode_plain by (apply (bool_decide_unpack _); vm_compute; exact I).
Qed.
Lemma reads_pushed r hs req raw params :
  r = request_body Buffer.new req -> builds "GET" (query_finish (push_all (s3_endpoint core) raw)) hs req -> carries raw params ->
  reads_as (s3_endpoint core) r "GET" None params hs Buffer.new.
Proof.
  intros -> Hb [Hok <-]. eapply request_body_reads; [exact Hb|]. intros parts Hu.
  unfold s3_read. cbn [hr_parts]. rewrite Hu, query_pairs_read_back by done. by rewrite bool_decide_eq_true_2.
Qed.

Definition list_v1_params (p marker delimiter : str) (limit : option nat) : list (str * str) :=
  text_param "prefix" p ++ text_param "delimiter" delimiter ++ some_param "max-keys" (show_limit limit) ++ text_param "marker" marker.
Definition list_v2_params (p token delimiter : str) (limit : option nat) (start_after : option str) : list (str * str) :=
  [(b "list-type", b "2")] ++ text_param "prefix" p ++ text_param "delimiter" delimiter ++
  some_param "max-keys" (show_limit limit) ++ some_param "start-after" start_after ++ text_param "continuation-token" token.

Lemma list_v1_reads path p marker delimiter limit :
  build_abs_path (s3_root core) path = Ok p -> delimiter ∈ [[]; [slash]] ->
  reads_as (s3_endpoint core) (s3_list_objects_v1_request core path marker delimiter limit) "GET" None
    (list_v1_params p marker delimiter limit) (payer_headers core) Buffer.new.
Proof.
  intros Hp Hd. unfold s3_list_objects_v1_request. rewrite Hp. cbn [mbind outcome_bind].
  change (query_new (s3_endpoint core)) with (push_all (s3_endpoint core) []).
  rewrite !push_if_all, push_some_all, push_if_all, <- !app_assoc. eapply reads_pushed; [reflexivity|built|].
  unfold list_v1_params. cbn [app]. apply carries_app; [by apply carries_encoded|]. apply carries_app; [by apply carries_delimiter|].
  apply carries_app; [apply carries_limit | by apply carries_encoded].
Qed.
Lemma list_v2_reads path p token delimiter limit start_after :
  build_abs_path (s3_root core) path = Ok p -> delimiter ∈ [[]; [slash]] ->
  reads_as (s3_endpoint core) (s3_list_objects_v2_request core path token delimiter limit start_after) "GET" None
    (list_v2_params p token delimiter limit start_after) (payer_headers core) Buffer.new.
Proof.
  intros Hp Hd. unfold s3_list_objects_v2_request. rewrite Hp. cbn [mbind outcome_bind].
  change (query_push (query_new (s3_endpoint core)) (b "list-type") (b "2")) with (push_all (s3_endpoint core) [(b "list-type", b "2")]).
  rewrite !push_if_all, !push_some_all, push_if_all, <- !app_assoc. eapply reads_pushed; [reflexivity|built|].
  unfold list_v2_params. apply carries_app.
  { split; [|unfold decode_pair; cbn [fmap list_fmap fst snd]; by rewrite decode_plain by (apply (bool_decide_unpack _); vm_compute; exact I)].
    repeat constructor; apply (bool_decide_unpack _); vm_compute; exact I. }
  apply carries_app; [by apply carries_encoded|]. apply carries_app; [by apply carries_delimiter|].
  apply carries_app; [apply carries_limit|]. apply carries_app; [by apply carries_some | by apply carries_encoded].
Qed.

Definition versions_params (p delimiter : str) (limit : option nat) (key_marker version_id_marker : str) : list (str * str) :=
  [(b "versions", [])] ++ text_param "prefix" p ++ text_param "delimiter" delimiter ++
  some_param "max-keys" (show_limit limit) ++ text_param "key-marker" key_marker ++ text_param "version-id-marker" version_id_marker.

(** The pairs of a query written by hand. *)
Definition written (raw : list (str * str)) : str := concat ((fun kv => b "&" ++ pair_text kv.1 kv.2) <$> raw).
Lemma written_join first raw :
  first ++ written raw = join (b "&") (first :: ((fun kv => pair_text kv.1 kv.2) <$> raw)).
Proof.
  unfold written. revert first. induction raw as [|kv raw IH]; intros first; [simpl; by rewrite app_nil_r|].
  transitivity (first ++ b "&" ++ join (b "&") (pair_text kv.1 kv.2 :: ((fun kv => pair_text kv.1 kv.2) <$> raw))); [|reflexivity].
  rewrite <- IH. cbn [fmap list_fmap concat]. by rewrite <- !app_assoc.
Qed.
Lemma write_if_written name text value : write_if name text value = written (raw_text name text value).
Proof. unfold write_if, written, raw_text. case_bool_decide; [done|]. simpl. by rewrite app_nil_r. Qed.
Lemma written_app raw raw' : written (raw ++ raw') = written raw ++ written raw'.
Proof. unfold written. by rewrite fmap_app, concat_app. Qed.

Lemma versions_reads path p delimiter limit key_marker version_id_marker :
  build_abs_path (s3_root core) path = Ok p -> delimiter ∈ [[]; [slash]] ->
  reads_as (s3_endpoint core) (s3_list_object_versions_request core path delimiter limit key_marker version_id_marker) "GET" None
    (versions_params p delimiter limit key_marker version_id_marker) (payer_headers core) Buffer.new.
Proof.
  intros Hp Hd. unfold s3_list_object_versions_request. rewrite Hp. cbn [mbind outcome_bind].
  set (raw := raw_text "prefix" p (percent_encode_path p) ++ raw_text "delimiter" delimiter delimiter ++
    some_param "max-keys" (show_limit limit) ++ raw_text "key-marker" key_marker (percent_encode_path key_marker) ++
    raw_text "version-id-marker" version_id_marker (percent_encode_path version_id_marker)).
  assert (carries raw (text_param "prefix" p ++ text_param "delimiter" delimiter ++ some_param "max-keys" (show_limit limit) ++
    text_param "key-marker" key_marker ++ text_param "version-id-marker" version_id_marker)) as [Hok Hdec].
  { apply carries_app; [by apply carries_encoded|]. apply carries_app; [by apply carries_delimiter|].
    apply carries_app; [apply carries_limit|]. apply carries_app; by apply carries_encoded. }
  assert (Forall (fun kv => name_ok kv.1 = true) raw) as Hn.
  { eapply Forall_impl; [exact Hok|]. intros kv (? & ? & ?). by apply bool_decide_eq_true. }
  assert (match show_limit limit with Some limit => b "&max-keys=" ++ limit | None => [] end =
          written (some_param "max-keys" (show_limit limit))) as ->.
  { unfold written. destruct (show_limit limit); [|done]. simpl. by rewrite app_nil_r. }
  rewrite !write_if_written, <- !written_app. fold raw.
  eapply (reads_bucket _ _ _ _ _ (b "versions" :: ((fun kv => pair_text kv.1 kv.2) <$> raw))); [reflexivity| |done| |].
  - rewrite <- written_join. change (b "?versions" ++ written raw) with (b "?" ++ b "versions" ++ written raw). built.
  - cbn [fmap list_fmap]. unfold versions_params. cbn [app]. f_equal; [unfold decode_pair; simpl; by rewrite decode_nil|].
    rewrite <- Hdec. f_equal. rewrite <- list_fmap_compose. transitivity (id <$> raw); [|apply list_fmap_id]. apply list_fmap_ext.
    intros i kv Hkv. rewrite Forall_lookup in Hn. unfold compose. simpl. rewrite read_pair_text by (by eapply Hn). by destruct kv.
  - constructor; [apply (bool_decide_unpack _); vm_compute; exact I|]. apply Forall_fmap.
    apply Forall_forall. intros kv Hkv. rewrite Forall_forall in Hn, Hok. simpl. apply pair_text_amp; [by apply Hn | by apply (Hok kv)].
Qed.

Lemma complete_upload_reads path p upload_id parts args content :
  build_abs_path (s3_root core) path = Ok p -> xml_complete parts = Ok content ->
  reads_as (s3_endpoint core) (s3_complete_multipart_upload_request core path upload_id parts args) "POST" (Some p)
    [(b "uploadId", upload_id)] (complete_headers core content args) (text_body content).
Proof.
  intros Hp Hx. unfold complete_headers. rewrite (app_assoc (some_param "if-match" _)). apply complete_reads; [done..|].
  intros. cbv beta zeta. built.
Qed.
Lemma complete_copy_reads path p upload_id parts args content :
  build_abs_path (s3_root core) path = Ok p -> xml_complete parts = Ok content ->
  reads_as (s3_endpoint core) (s3_complete_multipart_copy_request core path upload_id parts args) "POST" (Some p)
    [(b "uploadId", upload_id)] (complete_copy_headers core content args) (text_body content).
Proof.
  intros Hp Hx. unfold complete_copy_headers. rewrite (app_assoc (when _ _ _)). apply complete_reads; [done..|].
  intros. cbv beta zeta. built.
Qed.

(** *** The source of a copy, read back *)

Definition without (name : string) (hs : list (str * str)) : Prop := Forall (fun kv => kv.1 <> b name) hs.
Lemma without_app name hs hs' : without name hs -> without name hs' -> without name (hs ++ hs').
Proof using Type. intros. by apply Forall_app. Qed.
Lemma without_some name n v : bool_decide (b n = b name) = false -> without name (some_param n v).
Proof using Type. intros Hn%bool_decide_eq_false. destruct v; by repeat constructor. Qed.
Lemma without_when name c n v : bool_decide (b n = b name) = false -> without name (when c n v).
Proof using Type. intros Hn%bool_decide_eq_false. destruct c; by repeat constructor. Qed.
Lemma header_value_skip name hs hs' : without name hs -> header_value name (hs ++ hs') = header_value name hs'.
Proof using Type.
  induction 1 as [|kv hs Hk _ IH]; [done|]. unfold header_value in *. cbn [app List.find].
  by rewrite bool_decide_eq_false_2.
Qed.

Lemma source_read f before after :
  slash ∉ s3_bucket core -> without "x-amz-copy-source" before ->
  read_copy_source (before ++ source_headers core f ++ after) = Some (s3_bucket core, f).
Proof.
  intros Hs Hb. unfold read_copy_source, source_headers, sse_headers, customer_headers, payer_headers. cbn [app].
  rewrite header_value_skip by done. rewrite <- !app_assoc.
  rewrite !header_value_skip by (by first [apply without_some | apply without_when]).
  unfold header_value, copy_source. cbn [app List.find fst snd]. rewrite bool_decide_eq_true_2 by done. cbn.
  rewrite find_char_first by done. cbn. rewrite take_app_length. replace (S (length (s3_bucket core))) with (length (s3_bucket core) + 1) by lia.
  rewrite <- drop_drop, drop_app_length. change (drop 1 (_ :: ?l)) with l. by rewrite percent_decode_encode.
Qed.
Lemma copy_source_read f args :
  slash ∉ s3_bucket core -> read_copy_source (copy_headers core f args) = Some (s3_bucket core, f).
Proof.
  intros Hs. unfold copy_headers. rewrite app_assoc, <- (app_nil_r (source_headers core f)). apply source_read; [done|].
  apply without_app; [by apply without_when | by apply without_some].
Qed.
Lemma part_source_read f h :
  slash ∉ s3_bucket core -> read_copy_source (part_copy_headers core f h) = Some (s3_bucket core, f).
Proof. intros Hs. apply (source_read f [] [(b "x-amz-copy-source-range", h)]); [done|constructor]. Qed.
Lemma range_read range :
  range_wf range -> Range.size range <> Some 0%Z -> is_full range = false ->
  exists h, range_headers range = [(b "range", h)] /\ range_from_str h = Ok range.
Proof.
  intros Hw Hn Hf. destruct (range_header_roundtrip range Hw Hn) as (h & Hh & Hr). exists h.
  unfold range_headers. by rewrite Hf, Hh.
Qed.

(** C26.  Every request of the S3 service means to a server what the service
    meant, unless the [http] crate refuses a header or the URL: whatever
    characters the path, the markers, the tokens and the upload id hold, the server
    reads the method, the key below the root, exactly the parameters that were
    asked for, each with its value, exactly the headers that were meant (the
    metadata, the conditions, the encryption, the checksum, the offset of an
    append, the range and the source of a copy), and the body as it was given.
    The source of a copy is read back as the bucket and the key of the object to
    copy (a bucket's name has no slash), and the range of a read as that range.
    The requests meant are those the service makes: delimiters are empty or a
    slash, ranges can be printed, lists of parts and of objects can be written as
    XML, and an upload in parts does not start with MD5 checksums, which the
    service refuses.  For the version of an object to be read or examined it
    holds of versions that need no encoding. *)
Theorem s3_requests_mean path p from f :
  build_abs_path (s3_root core) path = Ok p -> build_abs_path (s3_root core) from = Ok f ->
  let reads := reads_as (s3_endpoint core) in
  (forall size args body,
     reads (s3_put_object_request core path size args body) "PUT"%string (Some p) [] (put_headers core size args body) body) /\
  (forall position size args body,
     reads (s3_append_object_request core path position size args body) "PUT"%string (Some p) []
       (append_headers core position size args body) body) /\
  (forall range args, is_full range || is_ok (Range.to_header range) = true -> from_option plain_version True (read_version args) ->
     reads (s3_get_object_request core path range args) "GET"%string (Some p)
       (override_params (read_override_content_disposition args) (read_override_content_type args)
          (read_override_cache_control args) (read_version args)) (get_headers core range args) Buffer.new) /\
  (forall range, range_wf range -> Range.size range <> Some 0%Z -> is_full range = false ->
     exists h, range_headers range = [(b "range", h)] /\ range_from_str h = Ok range) /\
  (forall args, from_option plain_version True (stat_version args) ->
     reads (s3_head_object_request core path args) "HEAD"%string (Some p)
       (override_params (stat_override_content_disposition args) (stat_override_content_type args)
          (stat_override_cache_control args) (stat_version args)) (head_headers core args) Buffer.new) /\
  (forall args, reads (s3_delete_object_request core path args) "DELETE"%string (Some p)
     (some_param "versionId" (del_version args)) (payer_headers core) Buffer.new) /\
  (forall args, reads (s3_copy_object_request core from path args) "PUT"%string (Some p) [] (copy_headers core f args) Buffer.new /\
     (slash ∉ s3_bucket core -> read_copy_source (copy_headers core f args) = Some (s3_bucket core, f))) /\
  (forall marker delimiter limit, delimiter ∈ [[]; [slash]] ->
     reads (s3_list_objects_v1_request core path marker delimiter limit) "GET"%string None
       (list_v1_params p marker delimiter limit) (payer_headers core) Buffer.new) /\
  (forall token delimiter limit start_after, delimiter ∈ [[]; [slash]] ->
     reads (s3_list_objects_v2_request core path token delimiter limit start_after) "GET"%string None
       (list_v2_params p token delimiter limit start_after) (payer_headers core) Buffer.new) /\
  (forall delimiter limit key_marker version_id_marker, delimiter ∈ [[]; [slash]] ->
     reads (s3_list_object_versions_request core path delimiter limit key_marker version_id_marker) "GET"%string None
       (versions_params p delimiter limit key_marker version_id_marker) (payer_headers core) Buffer.new) /\
  (forall args, checksum_algorithm core <> Some Md5 ->
     reads (s3_initiate_multipart_upload_request core path args) "POST"%string (Some p) [(b "uploads", [])]
       (initiate_headers core args) Buffer.new) /\
  reads (s3_initiate_multipart_copy_request core path) "POST"%string (Some p) [(b "uploads", [])]
    (initiate_copy_headers core) Buffer.new /\
  (forall upload_id n size body checksum,
     reads (s3_upload_part_request core path upload_id n size body checksum) "PUT"%string (Some p) (part_params upload_id n)
       (part_headers core size checksum) body) /\
  (forall upload_id n range h, Range.to_header range = Ok h ->
     reads (s3_upload_part_copy_request core from path upload_id n range) "PUT"%string (Some p) (part_params upload_id n)
       (part_copy_headers core f h) Buffer.new /\
     (slash ∉ s3_bucket core -> read_copy_source (part_copy_headers core f h) = Some (s3_bucket core, f))) /\
  (forall upload_id parts args content, xml_complete parts = Ok content ->
     reads (s3_complete_multipart_upload_request core path upload_id parts args) "POST"%string (Some p)
       [(b "uploadId", upload_id)] (complete_headers core content args) (text_body content)) /\
  (forall upload_id parts args content, xml_complete parts = Ok content ->
     reads (s3_complete_multipart_copy_request core path upload_id parts args) "POST"%string (Some p)
       [(b "uploadId", upload_id)] (complete_copy_headers core content args) (text_body content)) /\
  (forall upload_id, reads (s3_abort_multipart_request core path upload_id) "DELETE"%string (Some p)
     [(b "uploadId", upload_id)] (payer_headers core) Buffer.new) /\
  (forall paths objects content, delete_objects_of core paths = Ok objects -> xml_delete true objects = Ok content ->
     reads (s3_delete_objects_request core paths) "POST"%string (Some []) [(b "delete", [])]
       (delete_headers core content) (text_body content)).
Proof.
  intros Hp Hf reads.
  repeat match goal with |- _ /\ _ => split end; intros; repeat match goal with |- _ /\ _ => split end; intros.
  - by apply put_reads.
  - by apply append_reads.
  - by apply get_reads.
  - by apply range_read.
  - by apply head_reads.
  - by apply delete_reads.
  - by eapply copy_reads.
  - by apply copy_source_read.
  - by apply list_v1_reads.
  - by apply list_v2_reads.
  - by apply versions_reads.
  - by apply initiate_reads.
  - by apply initiate_copy_reads.
  - by apply part_reads.
  - by eapply part_copy_reads.
  - by apply part_source_read.
  - by apply complete_upload_reads.
  - by apply complete_copy_reads.
  - by apply abort_reads.
  - by eapply delete_objects_reads.
Qed.
End Meaning.

(** ** Crates, for examples *)

Module SimpleS3.
Import SimpleHttp SimplePercent.

#[export] Instance simple_crates : S3Crates := {|
  crc32c_base64 _ := b "crc"; md5_base64 _ := b "md5"; format_http_date _ := b "date";
  xml_complete parts := Ok (concat ((fun p => b "<Part>" ++ cp_etag p) <$> parts));
  xml_delete _ objects := Ok (concat ((fun o => b "<Object>" ++ dl_key o) <$> objects));
  hash_pairs m := map_to_list m; uri_error s := s;
|}.
Definition sample_core : S3Core :=
  mkS3Core info_default (b "bucket") (b "http://s3/bucket") (b "/data/") None None None None None None true false true None
    (Some Crc32c).

#[export] Instance simple_total : HttpTotal.
Proof.
  split; intros s; simpl; try (intros n); destruct (valid_name s), (valid_value s); try done; by intros [= <-].
Qed.
Lemma sample_endpoint : "?"%char ∉ s3_endpoint sample_core.
Proof. apply (bool_decide_unpack _). vm_compute. exact I. Qed.

Lemma s3_requests_mean_witness :
  (reads_as (b "http://s3/bucket") (s3_list_objects_v2_request sample_core (b "a b/") (b "t=1&2") [] (Some 3) None) "GET"%string None
     [(b "list-type", b "2"); (b "prefix", b "data/a b/"); (b "max-keys", b "3"); (b "continuation-token", b "t=1&2")]
     [(b "x-amz-request-payer", b "requester")] Buffer.new /\
   is_ok (s3_list_objects_v2_request sample_core (b "a b/") (b "t=1&2") [] (Some 3) None) = true) /\
  reads_as (b "http://s3/bucket") (s3_copy_object_request sample_core (b "x") (b "a b/") (mkOpCopy false None)) "PUT"%string (Some (b "data/a b/")) []
    [(b "x-amz-request-payer", b "requester"); (b "x-amz-copy-source", b "bucket/data/x")] Buffer.new.
Proof.
  destruct (s3_requests_mean sample_core sample_endpoint (b "a b/") (b "data/a b/") (b "x") (b "data/x") eq_refl eq_refl)
    as (_ & _ & _ & _ & _ & _ & Hc & _ & Hl & _).
  split; [split; [|vm_compute; reflexivity]|].
  - exact (Hl (b "t=1&2") [] (Some 3) None ltac:(by left)).
  - destruct (Hc (mkOpCopy false None)) as [Hc' _]. revert Hc'.
    assert (copy_headers sample_core (b "data/x") (mkOpCopy false None) =
      [(b "x-amz-request-payer", b "requester"); (b "x-amz-copy-source", b "bucket/data/x")]) as -> by (vm_compute; reflexivity).
    intros Hc'. exact Hc'.
Defined.

(** The version of an object to be read is decoded, where the one to be deleted
    is encoded: with the version "a&b" the server is asked for version "a". *)
Theorem s3_version_not_encoded :
  let args := mkOpRead (mkRange 0 None) None None None None None None None (Some (b "a&b")) in
  match s3_get_object_request sample_core (b "x") (read_range args) args with
  | Ok r => s3_read (s3_endpoint sample_core) r = Some (Some (b "data/x"), [(b "versionId", b "a"); (b "b", [])])
  | _ => False
  end /\
  match s3_delete_object_request sample_core (b "x") (del_with_version (b "a&b") op_delete) with
  | Ok r => s3_read (s3_endpoint sample_core) r = Some (Some (b "data/x"), [(b "versionId", b "a&b")])
  | _ => False
  end.
Proof. vm_compute. by split. Qed.
End SimpleS3.
