(* ===== verification/S3.v ===== *)
(** * The S3 service ([services/s3/src/{error,writer,lister,deleter,copier,backend}.rs])

    What the service makes of the answers to the requests of [S3Core]: errors,
    the parts of an upload or a copy, the pages of a listing and the objects of a
    batch that were not deleted.  The signer and the HTTP client are parameters,
    and so are the deserializers of [quick_xml]. *)

From S2P Require Import Prelude Errors Path Range Buffer Types Access Writers Tasks Uploads Copiers Listers Deleters TailCut Http Text Uris S3Core.
From stdpp Require Import options.

(** ** Answers *)

Record S3Error : Type := mkS3Error { er_code : str; er_message : str; er_resource : str; er_request_id : str }.
(** The fields of an answer to an upload that was completed, or to a copy. *)
Record CompleteResult : Type := mkCompleteResult {
  cr_bucket : str; cr_key : str; cr_location : str; cr_etag : str; cr_code : str; cr_message : str; cr_request_id : str;
}.
Record CopyObjectResult : Type := mkCopyResult {
  co_etag : str; co_last_modified : str; co_code : str; co_message : str; co_request_id : str;
}.
Record DeleteError : Type := mkDeleteError { de_code : str; de_key : str; de_message : str; de_version_id : option str }.
Record OutputContent : Type := mkContent { oc_key : str; oc_size : Z; oc_last_modified : str; oc_etag : option str }.
Record ListOutputV1 : Type := mkOutputV1 {
  v1_is_truncated : option bool; v1_next_marker : option str; v1_common_prefixes : list str; v1_contents : list OutputContent;
}.
Record ListOutputV2 : Type := mkOutputV2 {
  v2_is_truncated : option bool; v2_next_continuation_token : option str; v2_common_prefixes : list str;
  v2_contents : list OutputContent;
}.
Record OutputVersion : Type := mkVersion {
  ov_key : str; ov_version_id : str; ov_is_latest : bool; ov_size : Z; ov_last_modified : str; ov_etag : option str;
}.
Record OutputDeleteMarker : Type := mkMarker { om_key : str; om_version_id : str; om_is_latest : bool; om_last_modified : str }.
Record VersionsOutput : Type := mkVersionsOutput {
  vo_is_truncated : option bool; vo_next_key_marker : option str; vo_next_version_id_marker : option str;
  vo_common_prefixes : list str; vo_version : list OutputVersion; vo_delete_marker : list OutputDeleteMarker;
}.

(** The deserializers, and what Rust's [Debug] prints. *)
Class S3Xml : Type := {
  de_error : bytes -> outcome str S3Error;
  de_initiate : bytes -> outcome str str;
  de_complete : bytes -> outcome str CompleteResult;
  de_copy : bytes -> outcome str CopyObjectResult;
  de_delete : bytes -> outcome str (list DeleteError);
  de_list_v1 : bytes -> outcome str ListOutputV1;
  de_list_v2 : bytes -> outcome str ListOutputV2;
  de_versions : bytes -> outcome str VersionsOutput;
  debug_s3_error : S3Error -> str;
  debug_delete_error : DeleteError -> str;
  (** [str::parse::<Timestamp>], of the [jiff] crate. *)
  parse_timestamp : str -> result Z;
  (** [Timestamp::parse_rfc2822]. *)
  parse_rfc2822 : str -> result Z;
}.

(** The signer and the client, over the state [W] of the network. *)
Class S3Client (W : Type) `{HttpCrate} : Type := {
  status_as_u16 : StatusCode -> Z;
  hm_remove : str -> HeaderMap -> HeaderMap;
  response_uri : Response Buffer -> option str;
  debug_parts : StatusCode -> Version -> HeaderMap -> str;
  sign : Parts -> option Z -> outcome str Parts;
  client_send : HttpRequest -> M W Error (Response Buffer);
  client_fetch : HttpRequest -> M W Error (Response HttpBody);
}.

(** ** Errors *)

Definition parse_s3_error_code (code : str) : option (ErrorKind * bool) :=
  let eqs (s : string) := bool_decide (code = b s) in
  if eqs "NoSuchBucket" then Some (ConfigInvalid, false)
  else if eqs "RequestTimeout" then Some (Unexpected, true)
  else if eqs "InternalError" then Some (Unexpected, true)
  else if eqs "OperationAborted" then Some (Unexpected, true)
  else if eqs "SlowDown" then Some (RateLimited, true)
  else if eqs "ServiceUnavailable" then Some (Unexpected, true)
  else if eqs "TooManyRequests" then Some (RateLimited, true)
  else if eqs "ExceedAccountQPSLimit" || eqs "ExceedAccountRateLimit" || eqs "ExceedBucketQPSLimit" || eqs "ExceedBucketRateLimit"
  then Some (RateLimited, true)
  else if eqs "InvalidRange" then Some (RangeNotSatisfied, false)
  else None.

Definition new_request_sign_error (err : str) : Error :=
  set_source err (with_operation (b "reqsign::Sign") (error Unexpected "signing http request")).

(** [status.as_u16()] to a kind, and whether to try again. *)
Definition kind_of_status (status : Z) : ErrorKind * bool :=
  let eqs (n : Z) := bool_decide (status = n) in
  if eqs 403%Z then (PermissionDenied, false)
  else if eqs 404%Z then (NotFound, false)
  else if eqs 304%Z || eqs 412%Z then (ConditionNotMatch, false)
  else if eqs 409%Z then (ConditionNotMatch, true)
  else if eqs 499%Z then (Unexpected, true)
  else if eqs 500%Z || eqs 502%Z || eqs 503%Z || eqs 504%Z then (Unexpected, true)
  else if eqs 429%Z then (RateLimited, true)
  else (Unexpected, false).

Section Service.
  Context {W : Type} `{HttpCrate} `{PercentEncoding} `{S3Crates} `{S3Xml} {client : S3Client W}.

Definition with_error_response_context (err : Error) (resp : Response Buffer) : Error :=
  let err := match response_uri resp with Some uri => with_context (b "uri") uri err | None => err end in
  let headers := hm_remove (b "proxy-authenticate") (hm_remove (b "www-authenticate") (hm_remove (b "set-cookie") (rs_headers resp))) in
  with_context (b "response") (debug_parts (rs_status resp) (rs_version resp) headers) err.

Definition status_of {B} (resp : Response B) : Z := status_as_u16 (rs_status resp).
Definition parse_error (resp : Response Buffer) : Error :=
  let bs := contents (rs_body resp) in
  let '(kind, retryable) := kind_of_status (status_of resp) in
  let '(message, s3_err) :=
    match de_error bs with
    | Ok s3_err => (debug_s3_error s3_err, Some s3_err)
    | _ => (from_utf8_lossy (ascii_of_byte <$> bs), None)
    end in
  let '(kind, retryable) :=
    match s3_err with Some s3_err => default (kind, retryable) (parse_s3_error_code (er_code s3_err)) | None => (kind, retryable) end in
  with_temporary retryable (with_error_response_context (mkError kind message Permanent [] [] None) resp).
Definition from_s3_error (s3_error : S3Error) (resp : Response Buffer) : Error :=
  let '(kind, retryable) := default (Unexpected, false) (parse_s3_error_code (er_code s3_error)) in
  with_temporary retryable (with_error_response_context (mkError kind (debug_s3_error s3_error) Permanent [] [] None) resp).

(** ** Sending *)

Definition remove_host (parts : Parts) : Parts :=
  mkParts (pt_method parts) (pt_uri parts) (List.filter (fun kv => negb (bool_decide (kv.1 = b "host"))) (pt_headers parts)).
Definition signed (core : S3Core) (expire : option Z) (req : HttpRequest) : result HttpRequest :=
  if skip_signature core then Ok req
  else parts ← map_err new_request_sign_error (sign (hr_parts req) expire); Ok (mkHttp (remove_host parts) (hr_body req)).
Definition send (core : S3Core) (req : HttpRequest) : M W Error (Response Buffer) :=
  req ← lift (signed core None req); client_send req.
Definition s3_fetch (core : S3Core) (req : HttpRequest) : M W Error (Response HttpBody) :=
  req ← lift (signed core None req); client_fetch req.
(** Build a request and send it. *)
Definition send_built (core : S3Core) (req : result HttpRequest) : M W Error (Response Buffer) := req ← lift req; send core req.

(** ** [S3Writer] *)

Record S3Writer : Type := mkS3Writer { sw_core : S3Core; sw_op : OpWrite; sw_path : str }.

Definition X_AMZ_VERSION_ID : str := b "x-amz-version-id".
Definition parse_header_into_meta (path : str) (headers : HeaderMap) : result Metadata :=
  let meta := meta_new (from_path path) in
  etag ← parse_etag headers; let meta := set_if set_etag etag meta in
  version ← parse_header_to_str headers X_AMZ_VERSION_ID; let meta := set_if set_version version meta in
  size ← parse_header_to_str headers (b "x-amz-object-size");
  Ok (set_if set_content_length (size ≫= parse_u64) meta).

Definition s3_write_once (s : S3Writer) (size : Z) (body : Buffer) : M W Error Metadata :=
  resp ← send_built (sw_core s) (s3_put_object_request (sw_core s) (sw_path s) (Some size) (sw_op s) body);
  meta ← lift (parse_header_into_meta (sw_path s) (rs_headers resp));
  if bool_decide (status_of resp ∈ [201; 200]%Z) then mret meta else throw (parse_error resp).

(** The answer to a request that opens an upload, of a write or a copy. *)
Definition initiated (resp : Response Buffer) : result str :=
  if bool_decide (status_of resp = 200%Z) then map_err new_xml_deserialize_error (de_initiate (contents (rs_body resp)))
  else Err (parse_error resp).
Definition s3_initiate_part (s : S3Writer) : M W Error str :=
  resp ← send_built (sw_core s) (s3_initiate_multipart_upload_request (sw_core s) (sw_path s) (sw_op s)); lift (initiated resp).

Definition s3_write_part (s : S3Writer) (upload_id : str) (part_number : nat) (size : Z) (body : Buffer) : M W Error MultipartPart :=
  let part_number := part_number + 1 in
  let checksum := calculate_checksum (sw_core s) body in
  resp ← send_built (sw_core s) (s3_upload_part_request (sw_core s) (sw_path s) upload_id part_number size body checksum);
  if bool_decide (status_of resp = 200%Z) then
    etag ← lift (parse_etag (rs_headers resp));
    etag ← lift (ok_or (error Unexpected "ETag not present in returning response") etag);
    mret (mkPart part_number etag checksum None)
  else throw (parse_error resp).

Definition complete_part_of (core : S3Core) (p : MultipartPart) : CompletePart :=
  mkCompletePart (p_part_number p) (p_etag p)
    (match checksum_algorithm core with Some Crc32c => p_checksum p | Some Md5 | None => None end).
Definition s3_complete_part (s : S3Writer) (upload_id : str) (parts : list MultipartPart) : M W Error Metadata :=
  let parts := complete_part_of (sw_core s) <$> parts in
  resp ← send_built (sw_core s) (s3_complete_multipart_upload_request (sw_core s) (sw_path s) upload_id parts (sw_op s));
  meta ← lift (parse_header_into_meta (sw_path s) (rs_headers resp));
  if bool_decide (status_of resp = 200%Z) then
    ret ← lift (map_err new_xml_deserialize_error (de_complete (contents (rs_body resp))));
    if negb (bool_decide (cr_code ret = [])) then
      throw (from_s3_error (mkS3Error (cr_code ret) (cr_message ret) [] (cr_request_id ret)) resp)
    else mret (set_etag (cr_etag ret) meta)
  else throw (parse_error resp).

Definition no_content (resp : Response Buffer) : result unit :=
  if bool_decide (status_of resp = 204%Z) then Ok tt else Err (parse_error resp).
Definition s3_abort_part (s : S3Writer) (upload_id : str) : M W Error unit :=
  resp ← send_built (sw_core s) (s3_abort_multipart_request (sw_core s) (sw_path s) upload_id); lift (no_content resp).

(** What the network answers while an upload is written. *)
#[export] Instance S3Writer_Multipart : MultipartWrite (S3Writer * W) := {|
  mp_write_once s size body := (s3_write_once s.1 size body s.2).1;
  mp_initiate_part s := (s3_initiate_part s.1 s.2).1;
  mp_write_part s upload_id part_number size body := (s3_write_part s.1 upload_id part_number size body s.2).1;
  mp_complete_part s upload_id parts := (s3_complete_part s.1 upload_id parts s.2).1;
  mp_abort_part s upload_id := (s3_abort_part s.1 upload_id s.2).1;
|}.

(** A method of the writer, which only changes the network. *)
Definition on_network {S A} (f : S -> M W Error A) : M (S * W) Error A := fun s => let '(r, w) := f s.1 s.2 in (r, (s.1, w)).

Definition s3_offset (s : S3Writer) : M W Error Z :=
  resp ← send_built (sw_core s) (s3_head_object_request (sw_core s) (sw_path s) op_stat);
  if bool_decide (status_of resp = 200%Z) then n ← lift (parse_content_length (rs_headers resp)); mret (default 0%Z n)
  else if bool_decide (status_of resp = 404%Z) then mret 0%Z
  else throw (parse_error resp).
Definition s3_append (offset size : Z) (body : Buffer) (s : S3Writer) : M W Error Metadata :=
  resp ← send_built (sw_core s) (s3_append_object_request (sw_core s) (sw_path s) offset size (sw_op s) body);
  meta ← lift (parse_header_into_meta (sw_path s) (rs_headers resp));
  if bool_decide (status_of resp ∈ [201; 200]%Z) then mret meta else throw (parse_error resp).
#[export] Instance S3Writer_Append : AppendWrite (S3Writer * W) := {|
  append_offset := on_network s3_offset;
  append offset size body := on_network (s3_append offset size body);
|}.

(** ** Listers *)

Record S3Lister : Type := mkS3Lister {
  sl_core : S3Core; sl_path : str; sl_args : OpList; sl_delimiter : str; sl_abs_start_after : option str;
}.
Definition abs_start_after (core : S3Core) (args : OpList) : result (option str) :=
  match list_start_after args with Some v => Some <$> build_abs_path (s3_root core) v | None => Ok None end.
(** The three listers are made alike. *)
Definition s3_lister_new (core : S3Core) (path : str) (args : OpList) : result S3Lister :=
  start_after ← abs_start_after core args;
  Ok (mkS3Lister core path args (if list_recursive args then [] else [slash]) start_after).

Definition set_done_token (done : bool) (token : str) : M PageContext Error unit :=
  modify (fun ctx => mkPage done token (pg_entries ctx)).
Definition push_entry (e : Entry) : M PageContext Error unit :=
  modify (fun ctx => mkPage (pg_done ctx) (pg_token ctx) (pg_entries ctx ++ [e])).
Fixpoint for_each {X} (f : X -> M PageContext Error unit) (xs : list X) : M PageContext Error unit :=
  match xs with [] => mret tt | x :: xs => f x;; for_each f xs end.

Definition push_prefix (core : S3Core) (prefix : str) : M PageContext Error unit :=
  path ← lift (build_rel_path (s3_root core) prefix); push_entry (entry_new path (meta_new DIR)).
(** [build_rel_path], with ["/"] for the root. *)
Definition object_path_of (core : S3Core) (key : str) : result str :=
  path ← build_rel_path (s3_root core) key; Ok (if bool_decide (path = []) then [slash] else path).
Definition push_content (core : S3Core) (object : OutputContent) : M PageContext Error unit :=
  path ← lift (object_path_of core (oc_key object));
  let meta := set_is_current true (meta_new (from_path path)) in
  let meta := set_content_length (oc_size object) (set_if set_etag (oc_etag object) meta) in
  last_modified ← lift (parse_timestamp (oc_last_modified object));
  push_entry (mkEntry path (set_last_modified last_modified meta)).

(** The body of an answer to a listing; one that cannot be parsed may be retried. *)
Definition list_output {X} (de : bytes -> outcome str X) (resp : Response Buffer) : result X :=
  if negb (bool_decide (status_of resp = 200%Z)) then Err (parse_error resp)
  else map_err set_temporary (map_err new_xml_deserialize_error (de (contents (rs_body resp)))).

Definition v1_next_token (output : ListOutputV1) : str :=
  match v1_next_marker output, last (v1_contents output), last (v1_common_prefixes output) with
  | Some next_marker, _, _ => next_marker
  | None, Some content, _ => oc_key content
  | None, None, Some prefix => prefix
  | None, None, None => []
  end.
Definition v1_done (output : ListOutputV1) : bool :=
  match v1_is_truncated output with
  | Some is_truncated => negb is_truncated
  | None => bool_decide (v1_common_prefixes output = []) && bool_decide (v1_contents output = [])
  end.
Definition v1_next_page (s : S3Lister) (w : W) : M PageContext Error unit :=
  ctx ← get;
  let marker := if bool_decide (pg_token ctx = []) then default [] (sl_abs_start_after s) else pg_token ctx in
  resp ← lift ((send_built (sl_core s)
    (s3_list_objects_v1_request (sl_core s) (sl_path s) marker (sl_delimiter s) (list_limit (sl_args s))) w).1);
  output ← lift (list_output de_list_v1 resp);
  set_done_token (v1_done output) (v1_next_token output);;
  for_each (push_prefix (sl_core s)) (v1_common_prefixes output);;
  for_each (push_content (sl_core s)) (v1_contents output).

Definition v2_done (output : ListOutputV2) : bool :=
  match v2_is_truncated output, v2_next_continuation_token output with
  | Some is_truncated, _ => negb is_truncated
  | None, Some token => bool_decide (token = [])
  | None, None => bool_decide (v2_common_prefixes output = []) && bool_decide (v2_contents output = [])
  end.
Definition v2_next_page (s : S3Lister) (w : W) : M PageContext Error unit :=
  ctx ← get;
  let start_after := if bool_decide (pg_token ctx = []) then sl_abs_start_after s else None in
  resp ← lift ((send_built (sl_core s)
    (s3_list_objects_v2_request (sl_core s) (sl_path s) (pg_token ctx) (sl_delimiter s) (list_limit (sl_args s)) start_after) w).1);
  output ← lift (list_output de_list_v2 resp);
  set_done_token (v2_done output) (default [] (v2_next_continuation_token output));;
  for_each (push_prefix (sl_core s)) (v2_common_prefixes output);;
  for_each (push_content (sl_core s)) (v2_contents output).

Definition rsplit_once (c : ascii) (s : str) : option (str * str) :=
  (fun n => (take n s, drop (S n) s)) <$> rfind_char c s.
Definition versions_markers (token : str) (abs_start_after : option str) : str * str :=
  match rsplit_once " "%char token, abs_start_after with
  | Some data, _ => data
  | None, Some start_after => (start_after, [])
  | None, None => ([], [])
  end.
Definition push_version (s : S3Lister) (object : OutputVersion) : M PageContext Error unit :=
  if negb (list_versions (sl_args s) || ov_is_latest object) then mret tt
  else
    path ← lift (object_path_of (sl_core s) (ov_key object));
    let meta := set_is_current (ov_is_latest object) (set_version (ov_version_id object) (meta_new (from_path path))) in
    let meta := set_content_length (ov_size object) meta in
    last_modified ← lift (parse_timestamp (ov_last_modified object));
    push_entry (entry_new path (set_if set_etag (ov_etag object) (set_last_modified last_modified meta))).
Definition push_delete_marker (s : S3Lister) (marker : OutputDeleteMarker) : M PageContext Error unit :=
  path ← lift (object_path_of (sl_core s) (om_key marker));
  let meta := set_is_deleted true (set_version (om_version_id marker) (meta_new (from_path path))) in
  let meta := set_is_current (om_is_latest marker) meta in
  last_modified ← lift (parse_timestamp (om_last_modified marker));
  push_entry (entry_new path (set_last_modified last_modified meta)).
Definition versions_next_page (s : S3Lister) (w : W) : M PageContext Error unit :=
  ctx ← get;
  let '(key_marker, version_id_marker) := versions_markers (pg_token ctx) (sl_abs_start_after s) in
  resp ← lift ((send_built (sl_core s)
    (s3_list_object_versions_request (sl_core s) (sl_path s) (sl_delimiter s) (list_limit (sl_args s)) key_marker version_id_marker) w).1);
  output ← lift (list_output de_versions resp);
  set_done_token (match vo_is_truncated output with Some is_truncated => negb is_truncated | None => false end)
    (default [] (vo_next_key_marker output) ++ b " " ++ default [] (vo_next_version_id_marker output));;
  for_each (push_prefix (sl_core s)) (vo_common_prefixes output);;
  for_each (push_version s) (vo_version output);;
  if list_deleted (sl_args s) then for_each (push_delete_marker s) (vo_delete_marker output) else mret tt.

(** ** [S3Deleter] *)

Definition parse_delete_objects_result_error (err : DeleteError) : Error :=
  let '(kind, retryable) := default (Unexpected, false) (parse_s3_error_code (de_code err)) in
  with_temporary retryable (mkError kind (debug_delete_error err) Permanent [] [] None).

Definition s3_delete_once (path : str) (args : OpDelete) (core : S3Core) : M W Error unit :=
  if bool_decide (s3_root core = [slash]) && bool_decide (path = [slash]) then mret tt
  else
    resp ← send_built core (s3_delete_object_request core path args);
    if bool_decide (status_of resp ∈ [204; 404]%Z) then mret tt else throw (parse_error resp).

(** [Vec::swap_remove] at an index that is in range. *)
Definition swap_remove {X} (i : nat) (xs : list X) : list X :=
  match last xs with
  | Some x => take (length xs - 1) (<[i := x]> xs)
  | None => []
  end.
(** The error the server reported about a target. *)
Definition is_error_of (abs_path : str) (op : OpDelete) (e : DeleteError) : bool :=
  bool_decide (de_key e = abs_path) && bool_decide (de_version_id e = del_version op).
Fixpoint sort_results (core : S3Core) (batch : list target) (errors : list DeleteError) (result : BatchDeleteResult)
  : Errors.result BatchDeleteResult :=
  match batch with
  | [] => Ok result
  | (path, op) :: batch =>
      abs_path ← build_abs_path (s3_root core) path;
      match list_find (is_error_of abs_path op) errors with
      | Some (idx, error) =>
          sort_results core batch (swap_remove idx errors)
            (mkBatchResult (br_succeeded result) (br_failed result ++ [((path, op), parse_delete_objects_result_error error)]))
      | None => sort_results core batch errors (mkBatchResult (br_succeeded result ++ [(path, op)]) (br_failed result))
      end
  end.
(** [Vec::with_capacity] of a number that has wrapped around panics, in every build. *)
Definition s3_delete_batch (batch : list target) (core : S3Core) : M W Error BatchDeleteResult :=
  resp ← send_built core (s3_delete_objects_request core batch);
  if negb (bool_decide (status_of resp = 200%Z)) then throw (parse_error resp)
  else
    errors ← lift (map_err new_xml_deserialize_error (de_delete (contents (rs_body resp))));
    if bool_decide (length batch < length errors) then panic
    else lift (sort_results core batch errors (mkBatchResult [] [])).
#[export] Instance S3Deleter_Batch : BatchDelete (S3Core * W) := {|
  delete_once path args := on_network (s3_delete_once path args);
  delete_batch batch := on_network (s3_delete_batch batch);
|}.

(** ** [S3Copier] *)

Record S3Copier : Type := mkS3Copier { sc_core : S3Core; sc_from : str; sc_to : str; sc_args : OpCopy }.

Definition s3_source_metadata (s : S3Copier) : M W Error Metadata :=
  resp ← send_built (sc_core s) (s3_head_object_request (sc_core s) (sc_from s) op_stat);
  if bool_decide (status_of resp = 200%Z) then lift (parse_into_metadata parse_rfc2822 (sc_from s) (rs_headers resp))
  else throw (parse_error resp).

(** A success whose body has no ETag is an error that S3 has sent late. *)
Definition copy_result (resp : Response Buffer) : result CopyObjectResult :=
  result ← map_err new_xml_deserialize_error (de_copy (contents (rs_body resp)));
  if bool_decide (co_etag result = [])
  then Err (from_s3_error (mkS3Error (co_code result) (co_message result) [] (co_request_id result)) resp)
  else Ok result.
Definition s3_copy_once (s : S3Copier) : M W Error Metadata :=
  resp ← send_built (sc_core s) (s3_copy_object_request (sc_core s) (sc_from s) (sc_to s) (sc_args s));
  if bool_decide (status_of resp = 200%Z) then
    version ← lift (parse_header_to_str (rs_headers resp) X_AMZ_VERSION_ID);
    result ← lift (copy_result resp);
    let meta := set_etag (co_etag result) (meta_new (from_path (sc_to s))) in
    meta ← (if bool_decide (co_last_modified result = []) then mret meta
            else t ← lift (parse_timestamp (co_last_modified result)); mret (set_last_modified t meta));
    mret (set_if set_version version meta)
  else throw (parse_error resp).
Definition s3_initiate_copy (s : S3Copier) : M W Error str :=
  resp ← send_built (sc_core s) (s3_initiate_multipart_copy_request (sc_core s) (sc_to s)); lift (initiated resp).
Definition s3_copy_part (s : S3Copier) (upload_id : str) (part_number : nat) (range : BytesRange) : M W Error MultipartPart :=
  size ← lift (expect (Range.size range));
  let part_number := part_number + 1 in
  resp ← send_built (sc_core s) (s3_upload_part_copy_request (sc_core s) (sc_from s) (sc_to s) upload_id part_number range);
  if bool_decide (status_of resp = 200%Z) then
    result ← lift (copy_result resp); mret (mkPart part_number (co_etag result) None (Some size))
  else throw (parse_error resp).
Definition s3_complete_copy (s : S3Copier) (upload_id : str) (parts : list MultipartPart) : M W Error Metadata :=
  let parts := (fun p => mkCompletePart (p_part_number p) (p_etag p) None) <$> parts in
  resp ← send_built (sc_core s) (s3_complete_multipart_copy_request (sc_core s) (sc_to s) upload_id parts (sc_args s));
  if bool_decide (status_of resp = 200%Z) then
    version ← lift (parse_header_to_str (rs_headers resp) X_AMZ_VERSION_ID);
    ret ← lift (map_err new_xml_deserialize_error (de_complete (contents (rs_body resp))));
    if bool_decide (cr_etag ret = [])
    then throw (from_s3_error (mkS3Error (cr_code ret) (cr_message ret) [] (cr_request_id ret)) resp)
    else mret (set_if set_version version (set_etag (cr_etag ret) (meta_new (from_path (sc_to s)))))
  else throw (parse_error resp).
Definition s3_abort_copy (s : S3Copier) (upload_id : str) : M W Error unit :=
  resp ← send_built (sc_core s) (s3_abort_multipart_request (sc_core s) (sc_to s) upload_id); lift (no_content resp).
#[export] Instance S3Copier_Multipart : MultipartCopy (S3Copier * W) := {|
  mcp_source_metadata s := (s3_source_metadata s.1 s.2).1;
  mcp_copy_once s := (s3_copy_once s.1 s.2).1;
  mcp_initiate_copy s := (s3_initiate_copy s.1 s.2).1;
  mcp_copy_part s upload_id part_number range := (s3_copy_part s.1 upload_id part_number range s.2).1;
  mcp_complete_copy s upload_id parts := (s3_complete_copy s.1 upload_id parts s.2).1;
  mcp_abort_copy s upload_id := (s3_abort_copy s.1 upload_id s.2).1;
|}.

Definition new_s3_copier (core : S3Core) (from to : str) (args : OpCopy) (opts : OpCopier) : result (S3Copier * MultipartCopier) :=
  let capability := full_capability (s3_info core) in
  max_part_size ← ok_or (error Unexpected "multipart copy requires copy_multi_max_size capability") (cap_copy_multi_max_size capability);
  '(copy_once_threshold, part_size) ←
    match copier_chunk opts with
    | Some chunk =>
        min_part_size ← ok_or (error Unexpected "multipart copy requires copy_multi_min_size capability")
          (cap_copy_multi_min_size capability);
        part_size ← clamp (Z.of_nat chunk) (Z.of_nat min_part_size) (Z.of_nat max_part_size);
        Ok (Z.max 0 (part_size - 1), part_size)%Z
    | None => Ok (Z.of_nat max_part_size, Z.of_nat max_part_size)
    end;
  Ok (mkS3Copier core from to args,
      multipart_copier_new (s3_info core) (copier_source_content_length_hint opts) copy_once_threshold part_size (copier_concurrent opts)).

(** ** [S3Backend] *)

Definition s3_stat (core : S3Core) (path : str) (args : OpStat) : M W Error Metadata :=
  resp ← send_built core (s3_head_object_request core path args);
  if bool_decide (status_of resp = 200%Z) then
    let headers := rs_headers resp in
    meta ← lift (parse_into_metadata parse_rfc2822 path headers);
    let user_meta := parse_prefixed_headers headers X_AMZ_META_PREFIX in
    let meta := if bool_decide (user_meta = ∅) then meta else with_user_metadata user_meta meta in
    v ← lift (parse_header_to_str headers X_AMZ_VERSION_ID);
    mret (set_if set_version v meta)
  else throw (parse_error resp).

Definition s3_open (fuel : nat) (core : S3Core) (path : str) (args : OpRead) : M W Error (Metadata * HttpBody) :=
  req ← lift (s3_get_object_request core path (read_range args) args);
  resp ← s3_fetch core req;
  if bool_decide (status_of resp ∈ [200; 206]%Z) then
    meta ← lift (parse_into_metadata parse_rfc2822 path (rs_headers resp)); mret (meta, rs_body resp)
  else
    buf ← lift ((to_buffer fuel (rs_body resp)).1);
    throw (parse_error (mkResponse (rs_status resp) (rs_version resp) (rs_headers resp) buf)).

(** [TwoWays<MultipartWriter<S3Writer>, AppendWriter<S3Writer>>]. *)
Definition s3_write (core : S3Core) (path : str) (args : OpWrite) (w : W) : (S3Writer * MultipartWriter) + AppendWriter (S3Writer * W) :=
  let writer := mkS3Writer core args path in
  if write_append args then inr (append_new (writer, w)) else inl (writer, Uploads.multipart_new (write_concurrent args)).
Definition s3_delete (core : S3Core) (w : W) : BatchDeleter (S3Core * W) :=
  batch_new (core, w) (cap_delete_max_size (full_capability (s3_info core))).

(** A lister with what the network answers, in the order of [ThreeWays]. *)
Record ListerV1 : Type := mkListerV1 { l1_lister : S3Lister; l1_network : W }.
Record ListerV2 : Type := mkListerV2 { l2_lister : S3Lister; l2_network : W }.
Record VersionsLister : Type := mkVersionsLister { lv_lister : S3Lister; lv_network : W }.
#[export] Instance ListerV1_Page : PageList ListerV1 := fun l => v1_next_page (l1_lister l) (l1_network l).
#[export] Instance ListerV2_Page : PageList ListerV2 := fun l => v2_next_page (l2_lister l) (l2_network l).
#[export] Instance VersionsLister_Page : PageList VersionsLister := fun l => versions_next_page (lv_lister l) (lv_network l).
Inductive S3Listers : Type :=
  | One (l : PageLister ListerV1) | Two (l : PageLister ListerV2) | Three (l : PageLister VersionsLister).
Definition s3_list (core : S3Core) (path : str) (args : OpList) (w : W) : result S3Listers :=
  l ← s3_lister_new core path args;
  Ok (if list_versions args || list_deleted args then Three (page_new (mkVersionsLister l w))
      else if disable_list_objects_v2 core then One (page_new (mkListerV1 l w))
      else Two (page_new (mkListerV2 l w))).

Inductive PresignOperation : Type :=
  | PresignStat (v : OpStat) | PresignRead (v : OpRead) | PresignWrite (v : OpWrite) | PresignDelete (v : OpDelete).
Definition s3_presign (core : S3Core) (path : str) (expire : Z) (op : PresignOperation) : result Parts :=
  req ← match op with
        | PresignStat v => s3_head_object_request core path v
        | PresignRead v => s3_get_object_request core path (mkRange 0 None) v
        | PresignWrite v => s3_put_object_request core path None v Buffer.new
        | PresignDelete _ => Err (error Unsupported "operation is not supported")
        end;
  req ← signed core (Some expire) req; Ok (hr_parts req).
End Service.

(** ** Batches are reported target by target *)

Section DeleteSpec.
  Context {W : Type} `{HttpCrate} `{PercentEncoding} `{S3Crates} `{S3Xml} {client : S3Client W}.

Lemma swap_remove_perm {X} i (xs : list X) x : xs !! i = Some x -> x :: swap_remove i xs ≡ₚ xs.
Proof.
  intros Hx. destruct (exists_last (l := xs)) as (ys & l & ->); [by intros ->|].
  unfold swap_remove. rewrite last_snoc, length_app. simpl. rewrite Nat.add_sub.
  destruct (decide (i < length ys)) as [Hi|Hi].
  - rewrite insert_app_l, take_app_le, take_ge by (rewrite ?length_insert; lia).
    rewrite lookup_app_l in Hx by done. rewrite insert_take_drop by done. pose proof (take_drop_middle ys i x Hx) as Hy.
    set (u := take i ys) in *. set (v := drop (S i) ys) in *. clearbody u v. subst ys. rewrite <- app_assoc. simpl.
    rewrite <- !Permutation_middle. constructor. by rewrite app_nil_r.
  - pose proof (lookup_lt_Some _ _ _ Hx) as Hlt. rewrite length_app in Hlt. simpl in Hlt.
    assert (i = length ys) as -> by lia. rewrite lookup_app_r, Nat.sub_diag in Hx by lia. injection Hx as <-.
    rewrite insert_app_r_alt, Nat.sub_diag, take_app_le, take_ge by lia. by rewrite Permutation_cons_append.
Qed.

(** What the request and the answer know an object by, below the prefix [r]. *)
Definition target_id (r : str) (t : target) : str * option str :=
  (if bool_decide (t.1 = [slash]) then r else r ++ t.1, del_version t.2).
Definition error_id (e : DeleteError) : str * option str := (de_key e, de_version_id e).

  Variables (core : S3Core) (r : str).
  Hypothesis root_ok : build_abs_path (s3_root core) [slash] = Ok r.
#[local] Set Default Proof Using "All".

Lemma abs_path_of t : build_abs_path (s3_root core) t.1 = Ok (target_id r t).1.
Proof.
  revert root_ok. unfold build_abs_path, target_id. destruct (slice_from (s3_root core) 1) as [p|e|]; simpl; [|done..].
  intros [= ->]. by case_bool_decide.
Qed.
Lemma is_error_of_id t e : is_error_of (target_id r t).1 t.2 e = true <-> error_id e = target_id r t.
Proof.
  unfold is_error_of, error_id. rewrite andb_true_iff, !bool_decide_eq_true. unfold target_id. simpl. split; [by intros [-> ->]|].
  by intros [= -> ->].
Qed.

Lemma sort_results_spec batch errors res0 :
  exists good failed,
    sort_results core batch errors res0 = Ok (mkBatchResult (br_succeeded res0 ++ good) (br_failed res0 ++ failed)) /\
    good ++ (fst <$> failed) ≡ₚ batch /\
    (forall t x, (t, x) ∈ failed -> exists e, e ∈ errors /\ error_id e = target_id r t /\ x = parse_delete_objects_result_error e) /\
    (NoDup (target_id r <$> batch) -> forall t e, t ∈ good -> e ∈ errors -> error_id e <> target_id r t).
Proof.
  revert errors res0. induction batch as [|t batch IH]; intros errors res0.
  { exists [], []. rewrite !app_nil_r. destruct res0. split_and!; [done|done|set_solver|set_solver]. }
  destruct t as [path op] eqn:Ht. cbn [sort_results].
  change (build_abs_path (s3_root core) path) with (build_abs_path (s3_root core) (path, op).1).
  rewrite abs_path_of. cbn [mbind outcome_bind]. rewrite <- Ht.
  destruct (list_find _ errors) as [[i e]|] eqn:Hf.
  - apply list_find_Some in Hf as (Hi & He & _). change op with (path, op).2 in He. rewrite <- Ht in He.
    apply Is_true_true, is_error_of_id in He. pose proof (swap_remove_perm _ _ _ Hi) as Hperm.
    destruct (IH (swap_remove i errors) (mkBatchResult (br_succeeded res0) (br_failed res0 ++ [(t, parse_delete_objects_result_error e)])))
      as (good & failed & -> & Hp & Hfail & Hsucc). cbn [br_succeeded br_failed].
    exists good, ((t, parse_delete_objects_result_error e) :: failed). rewrite <- app_assoc. split_and!; [done| | |].
    + cbn [fmap list_fmap fst]. by rewrite <- Permutation_middle, Hp.
    + intros t' x [[= -> ->]|Hin]%elem_of_cons; [exists e; split; [by eapply list_elem_of_lookup_2|done]|].
      destruct (Hfail _ _ Hin) as (e' & Hin' & ?). exists e'. split; [|done]. rewrite <- Hperm. set_solver.
    + intros [Hni Hnd]%NoDup_cons t' e' Ht' He' Heq. rewrite <- Hperm in He'.
      apply elem_of_cons in He' as [->|He']; [|by eapply (Hsucc Hnd)]. apply Hni.
      assert (t' ∈ batch) as Hb by (rewrite <- Hp; set_solver). rewrite He in Heq. rewrite Heq. by apply list_elem_of_fmap_2.
  - apply list_find_None in Hf. destruct (IH errors (mkBatchResult (br_succeeded res0 ++ [t]) (br_failed res0)))
      as (good & failed & -> & Hp & Hfail & Hsucc). cbn [br_succeeded br_failed].
    exists (t :: good), failed. rewrite <- app_assoc. split_and!; [done| |done|].
    + simpl. by rewrite Hp.
    + intros [Hni Hnd]%NoDup_cons t' e' [->|Ht']%elem_of_cons He'; [|by apply Hsucc].
      rewrite Forall_forall in Hf. intros Heq. apply (Hf e' He'). apply Is_true_true. change op with (path, op).2. rewrite <- Ht.
      by apply is_error_of_id.
Qed.

(** C25.  A batch that the server has answered is reported target by target: every
    target is reported once, as failed exactly when the answer has an error for
    its key and version, and then with that error, and as deleted otherwise. *)
Theorem s3_delete_batch_reports batch w resp w' errors :
  send_built core (s3_delete_objects_request core batch) w = (Ok resp, w') -> status_of resp = 200%Z ->
  de_delete (contents (rs_body resp)) = Ok errors -> length errors <= length batch -> NoDup (target_id r <$> batch) ->
  exists res, delete_batch batch (core, w) = (Ok res, (core, w')) /\
    br_succeeded res ++ (fst <$> br_failed res) ≡ₚ batch /\
    (forall t, t ∈ br_succeeded res <-> t ∈ batch /\ forall e, e ∈ errors -> error_id e <> target_id r t) /\
    (forall t x, (t, x) ∈ br_failed res ->
       exists e, e ∈ errors /\ error_id e = target_id r t /\ x = parse_delete_objects_result_error e).
Proof.
  intros Hsend Hst Hde Hlen Hnd. destruct (sort_results_spec batch errors (mkBatchResult [] [])) as (good & failed & Hs & Hp & Hf & Hok).
  exists (mkBatchResult good failed). cbn [br_succeeded br_failed]. split_and!; [|done| |done].
  - unfold delete_batch, S3Deleter_Batch, on_network, s3_delete_batch, mbind, M_bind. cbn [fst snd]. rewrite Hsend, Hst.
    rewrite bool_decide_eq_true_2 by done. cbn [negb]. unfold lift. rewrite Hde. cbn [map_err].
    rewrite bool_decide_eq_false_2 by lia. by rewrite Hs.
  - intros t. split.
    + intros Ht. split; [rewrite <- Hp; set_solver|]. intros e He. by apply (Hok Hnd).
    + intros [Ht He]. rewrite <- Hp in Ht. apply elem_of_app in Ht as [Ht|([t' x] & -> & Hx)%list_elem_of_fmap]; [done|].
      destruct (Hf _ _ Hx) as (e & Hin & Heq & _). by destruct (He e Hin).
Qed.
End DeleteSpec.

(** ** An upload stores what was written *)

Section UploadSpec.
  Context {W : Type} `{HttpTotal} `{PercentLaws} `{S3Crates} `{S3Xml} {client : S3Client W}.
  Variable core : S3Core.
  Hypothesis endpoint_ok : "?"%char ∉ s3_endpoint core.
#[local] Set Default Proof Using "All".

(** The server has read this request from the network and answered it. *)
Definition sent (w : W) (method : string) (key : option str) (params : list (str * str)) (body : Buffer) (resp : Response Buffer) : Prop :=
  exists req, pt_method (hr_parts req) = b method /\ s3_read (s3_endpoint core) req = Some (key, params) /\ hr_body req = body /\
    (send core req w).1 = Ok resp.

Lemma send_built_sent built w resp w' method key params headers body :
  reads_as (s3_endpoint core) built method key params headers body -> send_built core built w = (Ok resp, w') ->
  sent w method key params body resp.
Proof.
  intros Hr Hs. destruct built as [req|e|]; [|done..]. destruct Hr as (Hm & Hk & _ & Hb). exists req. split_and!; [done..|].
  by rewrite (f_equal fst Hs : (send core req w).1 = Ok resp).
Qed.

  Variables (op : OpWrite) (path p : str).
  Hypothesis path_ok : build_abs_path (s3_root core) path = Ok p.
Abbreviation writer := (mkS3Writer core op path).

(** Part [n] of the upload [u] was sent, and the server answered with an ETag. *)
Definition uploaded (u : str) (n : nat) (body : Buffer) (etag : str) : Prop :=
  exists w resp, sent w "PUT" (Some p) (part_params u n) body resp /\ status_of resp = 200%Z /\
    parse_etag (rs_headers resp) = Ok (Some etag).
(** The upload was completed with these parts, and the server did not report an
    error in its answer. *)
Definition completed (w : W) (u : str) (parts : list MultipartPart) : Prop :=
  exists content resp ret, xml_complete (complete_part_of core <$> parts) = Ok content /\
    sent w "POST" (Some p) [(b "uploadId", u)] (text_body content) resp /\ status_of resp = 200%Z /\
    de_complete (contents (rs_body resp)) = Ok ret /\ cr_code ret = [].

Definition s3_acked (i : PartInput) (part : MultipartPart) : Prop :=
  exists w : W, mp_write_part (writer, w) (pi_upload_id i) (pi_part_number i) (Z.of_nat (blen (pi_bytes i))) (pi_bytes i) = Ok part.

Lemma s3_part_ok w timeout :
  (forall u n size body, mp_write_part (writer, w) u n size body <> Panic) ->
  await_ok s3_acked anything (part_task (writer, w) timeout).
Proof.
  intros Hp i _. unfold part_task, with_timeout, outcome_ok.
  assert (match mp_write_part (writer, w) (pi_upload_id i) (pi_part_number i) (Z.of_nat (blen (pi_bytes i))) (pi_bytes i) with
          | Ok o => s3_acked i o | Err _ => stands_for s3_acked anything i i | Panic => False end) as Hok.
  { destruct (mp_write_part _ _ _ _ _) eqn:E; [by exists w | by apply stands_for_refl | by apply Hp in E]. }
  destruct timeout as [fires|]; simpl; [|exact Hok]. destruct (fires i); [by apply stands_for_refl | exact Hok].
Qed.

Lemma acked_uploaded i part :
  s3_acked i part ->
  p_part_number part = pi_part_number i + 1 /\ uploaded (pi_upload_id i) (pi_part_number i + 1) (pi_bytes i) (p_etag part).
Proof.
  intros [w Hw]. unfold mp_write_part, S3Writer_Multipart, s3_write_part in Hw. cbn [fst snd sw_core sw_path] in Hw.
  unfold mbind, M_bind, lift, throw, mret, M_ret in Hw.
  destruct (send_built _ _ _) as [[resp|e|] w1] eqn:Es; [|done..].
  case_bool_decide as Hst; [|done]. destruct (parse_etag _) as [[etag|]|e|] eqn:Et; simpl in Hw; [|done..].
  injection Hw as <-. split; [done|]. exists w, resp. split_and!; [|done..]. eapply send_built_sent; [|exact Es]. by apply part_reads.
Qed.

Lemma complete_completed w u parts meta : mp_complete_part (writer, w) u parts = Ok meta -> completed w u parts.
Proof.
  unfold mp_complete_part, S3Writer_Multipart, s3_complete_part. cbn [fst snd sw_core sw_path sw_op].
  unfold mbind, M_bind, lift, throw, mret, M_ret.
  destruct (send_built _ _ _) as [[resp|e|] w1] eqn:Es; [|done..].
  destruct (parse_header_into_meta _ _) as [m|e|]; [|done..]. case_bool_decide as Hst; [|done].
  destruct (de_complete _) as [ret|e|] eqn:Ed; simpl; [|done..]. case_bool_decide as Hc; [|done]. intros _.
  destruct (xml_complete (complete_part_of core <$> parts)) as [content|e|] eqn:Ex.
  - exists content, resp, ret. split_and!; [done| |done..]. eapply send_built_sent; [|exact Es]. by apply complete_upload_reads.
  - exfalso. revert Es. unfold send_built, s3_complete_multipart_upload_request, complete_request. rewrite path_ok.
    cbn [mbind outcome_bind]. rewrite Ex. done.
  - exfalso. revert Es. unfold send_built, s3_complete_multipart_upload_request, complete_request. rewrite path_ok.
    cbn [mbind outcome_bind]. rewrite Ex. done.
Qed.

Lemma write_once_sent w size body meta :
  mp_write_once (writer, w) size body = Ok meta ->
  exists resp, sent w "PUT" (Some p) [] body resp /\ status_of resp ∈ [201; 200]%Z.
Proof.
  unfold mp_write_once, S3Writer_Multipart, s3_write_once. cbn [fst snd sw_core sw_path sw_op].
  unfold mbind, M_bind, lift, throw, mret, M_ret.
  destruct (send_built _ _ _) as [[resp|e|] w1] eqn:Es; [|done..].
  destruct (parse_header_into_meta _ _) as [m|e|]; [|done..]. case_bool_decide as Hst; [|done]. intros _.
  exists resp. split; [|done]. eapply send_built_sent; [|exact Es]. by apply put_reads.
Qed.

(** C23.  A writer of S3 that is closed successfully has stored exactly the data
    whose writes returned [Ok]: in one PUT of the object's key, or in the parts
    1, 2, 3, ... of one upload, each sent in a request that the server reads as
    that part of that object, completed by a request that names each part with
    the ETag the server gave for it, and to which the server answered without an
    error, also in the body. *)
Theorem s3_upload_stores concurrent acc s w timeout meta s' :
  multipart_reach (W := S3Writer * W) s3_acked concurrent acc s ->
  (forall u n size body, mp_write_part (writer, w) u n size body <> Panic) ->
  multipart_close (writer, w) timeout s = (Ok meta, s') ->
  match mw_upload_id s with
  | None => exists body resp, contents body = concat acc /\ sent w "PUT" (Some p) [] body resp /\ status_of resp ∈ [201; 200]%Z
  | Some u => exists bodies,
      concat (contents <$> bodies) = concat acc /\ p_part_number <$> mw_parts s' = seq 1 (length bodies) /\
      Forall2 (fun body part => uploaded u (p_part_number part) body (p_etag part)) bodies (mw_parts s') /\
      completed w u (mw_parts s')
  end.
Proof.
  intros Hr Hp Hc. pose proof (multipart_reach_inv _ _ _ _ Hr) as Hi.
  apply (multipart_close_inv _ _ _ _ _ _ _ (s3_part_ok w timeout Hp) Hi) in Hc. destruct (mw_upload_id s) as [u|].
  - destruct Hc as (inputs & Hcomp & Hack & Hn & Hu & Hd). exists (pi_bytes <$> inputs). rewrite <- list_fmap_compose. split_and!.
    + exact Hd.
    + rewrite length_fmap. rewrite <- fmap_S_seq, <- Hn, <- list_fmap_compose. clear -Hack endpoint_ok path_ok H0 H2.
      induction Hack as [|i part inputs parts Ha _ IH]; [done|].
      apply acked_uploaded in Ha as [Ha _]. rewrite !fmap_cons, Ha. f_equal; [unfold compose; lia | exact IH].
    + rewrite Forall2_fmap_l. clear -Hack Hu endpoint_ok path_ok H0 H2. induction Hack as [|i part inputs parts Ha _ IH]; [done|].
      apply Forall_cons in Hu as [<- Hu]. constructor; [|by apply IH]. apply acked_uploaded in Ha as [Hn' Ha]. unfold compose. by rewrite Hn'.
    + by eapply complete_completed.
  - destruct Hc as (body & Hd & Ho). apply write_once_sent in Ho as (resp & Hs & Hst). by exists body, resp.
Qed.
End UploadSpec.

(** ** Listings *)

(** What a server answers to a chain of requests, each asking for what follows. *)
Inductive Chain {T O : Type} (answers : T -> O -> Prop) (follows : O -> option T -> Prop) : T -> list O -> Prop :=
  | Chain_last t o : answers t o -> follows o None -> Chain answers follows t [o]
  | Chain_more t o t' os : answers t o -> follows o (Some t') -> Chain answers follows t' os -> Chain answers follows t (o :: os).

Section ChainPages.
  Context {P : Type} `{PageList P} {T O : Type}.
  Variables (answers : T -> O -> Prop) (follows : O -> option T -> Prop) (inner : P) (token_of : T -> str -> Prop)
    (listed : O -> list Entry -> Prop).
  (** One page, and the token for the next. *)
  Hypothesis step : forall t token o next es, token_of t token -> answers t o -> follows o next -> listed o es ->
    exists token', next_page inner (mkPage false token []) = (Ok tt, mkPage (match next with None => true | Some _ => false end) token' es) /\
      match next with None => True | Some t' => token_of t' token' end.
#[local] Set Default Proof Using "All".

Lemma chain_pages t os token pages :
  Chain answers follows t os -> token_of t token -> Forall2 listed os pages -> Pages inner token pages.
Proof.
  intros Hc. revert token pages. induction Hc as [t o Ha Hf|t o t' os Ha Hf _ IH]; intros token pages Ht Hl;
    apply Forall2_cons_inv_l in Hl as (es & pages' & He & Hl & ->).
  - apply Forall2_nil_inv_l in Hl as ->. destruct (step _ _ _ _ _ Ht Ha Hf He) as (token' & E & _). by eapply Pages_last.
  - destruct (step _ _ _ _ _ Ht Ha Hf He) as (token' & E & Ht'). eapply Pages_more; [exact E|]. by apply IH.
Qed.
Lemma chain_lists t os pages fuel :
  Chain answers follows t os -> token_of t [] -> Forall2 listed os pages -> length os < fuel ->
  lists (page_next fuel) (page_new inner) (concat pages).
Proof.
  intros Hc Ht Hl Hf. apply page_lister_lists; [by eapply chain_pages|]. by rewrite <- (Forall2_length _ _ _ Hl).
Qed.
End ChainPages.

(** Pushing entries. *)
Definition add_entries (es : list Entry) (ctx : PageContext) : PageContext := mkPage (pg_done ctx) (pg_token ctx) (pg_entries ctx ++ es).
Lemma for_each_adds {X} (R : X -> Entry -> Prop) f xs es ctx :
  (forall x e ctx, R x e -> f x ctx = (Ok tt, add_entries [e] ctx)) -> Forall2 R xs es ->
  for_each f xs ctx = (Ok tt, add_entries es ctx).
Proof.
  intros Hf Hxs. revert ctx. induction Hxs as [|x e xs es Hx _ IH]; intros ctx.
  - destruct ctx. unfold add_entries. cbn. by rewrite app_nil_r.
  - cbn [for_each]. unfold mbind, M_bind. rewrite (Hf _ _ _ Hx), IH. unfold add_entries. cbn. by rewrite <- app_assoc.
Qed.
Lemma for_each_filter {X} (c : X -> bool) f xs ctx :
  (forall x ctx, c x = false -> f x ctx = (Ok tt, ctx)) -> for_each f xs ctx = for_each f (List.filter c xs) ctx.
Proof.
  intros Hf. revert ctx. induction xs as [|x xs IH]; intros ctx; [done|]. cbn [for_each List.filter].
  destruct (c x) eqn:Hc; cbn [for_each]; unfold mbind, M_bind.
  - destruct (f x ctx) as [[]?]; [apply IH|done..].
  - by rewrite (Hf _ _ Hc).
Qed.

Lemma Forall2_filter {X Y} (c : X -> bool) (R : X -> Y -> Prop) xs ys :
  Forall2 R (List.filter c xs) ys -> Forall2 (fun x y => c x = true /\ R x y) (List.filter c xs) ys.
Proof.
  revert ys. induction xs as [|x xs IH]; intros ys; cbn [List.filter]; [by intros ->%Forall2_nil_inv_l|].
  destruct (c x) eqn:Hc; [|apply IH]. intros (y & ys' & Hx & Hr & ->)%Forall2_cons_inv_l. constructor; [done|]. by apply IH.
Qed.

Section ListSpec.
  Context {W : Type} `{HttpTotal} `{PercentLaws} `{S3Crates} `{S3Xml} {client : S3Client W}.
  Variables (core : S3Core) (w : W).
  Hypothesis endpoint_ok : "?"%char ∉ s3_endpoint core.
  Hypothesis root_norm : normalized_root (s3_root core).
  Hypothesis root_char : starts_char (tail (s3_root core)).
  (** Signing adds headers. *)
  Hypothesis sign_ok : forall parts, exists headers, sign parts None = Ok (mkParts (pt_method parts) (pt_uri parts) headers).
#[local] Set Default Proof Using "All".

(** Every request for the bucket with these parameters is answered with [o]. *)
Definition serves {O} (de : bytes -> outcome str O) (params : list (str * str)) (o : O) : Prop :=
  forall req, pt_method (hr_parts req) = b "GET" -> s3_read (s3_endpoint core) req = Some (None, params) ->
    exists resp, (client_send req w).1 = Ok resp /\ status_of resp = 200%Z /\ de (contents (rs_body resp)) = Ok o.

Lemma served_output {O} (de : bytes -> outcome str O) built params headers o :
  reads_as (s3_endpoint core) built "GET" None params headers Buffer.new -> is_ok built = true -> serves de params o ->
  exists resp, (send_built core built w).1 = Ok resp /\ list_output de resp = Ok o.
Proof.
  intros Hr Hb Hs. destruct built as [req|e|]; [|done..]. destruct Hr as (Hm & Hk & _).
  assert (exists parts, signed core None req = Ok (mkHttp parts (hr_body req)) /\ pt_method parts = pt_method (hr_parts req) /\
    pt_uri parts = pt_uri (hr_parts req)) as (parts & Hsg & Hm' & Hu').
  { unfold signed. destruct (skip_signature core); [exists (hr_parts req); by destruct req|].
    destruct (sign_ok (hr_parts req)) as [hs ->]. cbn. by eexists. }
  destruct (Hs (mkHttp parts (hr_body req))) as (resp & Hresp & Hst & Ho).
  { cbn [hr_parts]. by rewrite Hm'. }
  { rewrite <- Hk. unfold s3_read. cbn [hr_parts]. by rewrite Hu'. }
  exists resp. split.
  - unfold send_built, send, lift, mbind, M_bind. by rewrite Hsg.
  - unfold list_output. rewrite bool_decide_eq_true_2 by done. cbn [negb]. by rewrite Ho.
Qed.

(** The path of an entry, and the key of the object. *)
Definition path_key (path key : str) : Prop := normalized path /\ starts_char path /\ build_abs_path (s3_root core) path = Ok key.
Lemma path_key_rel path key :
  path_key path key -> exists rel, build_rel_path (s3_root core) key = Ok rel /\ (if bool_decide (rel = []) then [slash] else rel) = path.
Proof.
  intros (Hn & Hc & Ha). destruct (decide (path = [slash])) as [->|Hne].
  - destruct (normalized_root_shape _ root_norm) as (r & Hr & Hrs). rewrite Hr in Ha, root_char |- *. unfold build_abs_path in Ha.
    rewrite (slice_from_app [slash] r) in Ha by done. cbn in Ha. injection Ha as <-. exists []. split; [|done].
    unfold build_rel_path. assert (starts_with [slash] r = false) as -> by (by destruct Hrs as [->|]).
    cbn [length]. rewrite Nat.sub_succ, Nat.sub_0_r. rewrite <- (app_nil_r r) at 1. by apply slice_from_app.
  - destruct (rel_path_of_abs _ path root_norm root_char Hn Hne Hc) as [Hrel _]. rewrite Ha in Hrel. cbn in Hrel. exists path. split; [done|].
    rewrite bool_decide_eq_false_2; [done|]. intros ->. by destruct (normalized_no_lead _ Hn Hne) as (? & ? & ? & _).
Qed.
Lemma object_path_key path key : path_key path key -> object_path_of core key = Ok path.
Proof. intros (rel & Hr & <-)%path_key_rel. unfold object_path_of. by rewrite Hr. Qed.

(** How what the server lists appears to the user. *)
Definition prefix_listed (prefix : str) (e : Entry) : Prop := path_key (e_path e) prefix /\ e_meta e = meta_new DIR.
Definition content_listed (o : OutputContent) (e : Entry) : Prop :=
  path_key (e_path e) (oc_key o) /\ exists t, parse_timestamp (oc_last_modified o) = Ok t /\
    e_meta e = set_last_modified t (set_content_length (oc_size o) (set_if set_etag (oc_etag o)
      (set_is_current true (meta_new (from_path (e_path e)))))).
Definition version_listed (o : OutputVersion) (e : Entry) : Prop :=
  path_key (e_path e) (ov_key o) /\ exists t, parse_timestamp (ov_last_modified o) = Ok t /\
    e_meta e = set_if set_etag (ov_etag o) (set_last_modified t (set_content_length (ov_size o)
      (set_is_current (ov_is_latest o) (set_version (ov_version_id o) (meta_new (from_path (e_path e))))))).
Definition marker_listed (o : OutputDeleteMarker) (e : Entry) : Prop :=
  path_key (e_path e) (om_key o) /\ exists t, parse_timestamp (om_last_modified o) = Ok t /\
    e_meta e = set_last_modified t (set_is_current (om_is_latest o) (set_is_deleted true
      (set_version (om_version_id o) (meta_new (from_path (e_path e)))))).

Lemma path_key_entry path key meta : path_key path key -> entry_new path meta = mkEntry path meta.
Proof.
  intros [Hn _]. unfold entry_new. rewrite bool_decide_eq_false_2; [done|]. intros ->.
  by destruct (normalized_no_lead [] Hn) as (? & ? & ? & _).
Qed.
Lemma push_prefix_adds prefix e ctx : prefix_listed prefix e -> push_prefix core prefix ctx = (Ok tt, add_entries [e] ctx).
Proof.
  intros [(rel & Hr & Hp)%path_key_rel Hm]. unfold push_prefix, lift, mbind, M_bind. rewrite Hr. unfold entry_new. rewrite Hp.
  destruct e. cbn in *. by subst.
Qed.
Lemma push_content_adds o e ctx : content_listed o e -> push_content core o ctx = (Ok tt, add_entries [e] ctx).
Proof.
  intros [Hk (t & Ht & Hm)]. unfold push_content, lift, mbind, M_bind. rewrite (object_path_key _ _ Hk), Ht. rewrite <- Hm. by destruct e.
Qed.
Lemma push_version_adds l o e ctx :
  sl_core l = core -> list_versions (sl_args l) || ov_is_latest o = true -> version_listed o e ->
  push_version l o ctx = (Ok tt, add_entries [e] ctx).
Proof.
  intros Hl Hc [Hk (t & Ht & Hm)]. unfold push_version, lift, mbind, M_bind. rewrite Hc, Hl. cbn [negb].
  rewrite (object_path_key _ _ Hk), Ht, (path_key_entry _ _ _ Hk). rewrite <- Hm. by destruct e.
Qed.
Lemma push_marker_adds l o e ctx :
  sl_core l = core -> marker_listed o e -> push_delete_marker l o ctx = (Ok tt, add_entries [e] ctx).
Proof.
  intros Hl [Hk (t & Ht & Hm)]. unfold push_delete_marker, lift, mbind, M_bind. rewrite Hl.
  rewrite (object_path_key _ _ Hk), Ht, (path_key_entry _ _ _ Hk). rewrite <- Hm. by destruct e.
Qed.

  Variables (path p : str) (args : OpList) (l : S3Lister).
  Hypothesis path_ok : build_abs_path (s3_root core) path = Ok p.
  Hypothesis lister_ok : s3_lister_new core path args = Ok l.

Lemma lister_fields :
  sl_core l = core /\ sl_path l = path /\ sl_args l = args /\ sl_delimiter l ∈ [[]; [slash]].
Proof.
  revert lister_ok. unfold s3_lister_new. destruct (abs_start_after core args); [|done..]. intros [= <-]. cbn.
  split_and!; [done..|]. destruct (list_recursive args); set_solver.
Qed.

(** A page of the second and of the first interface. *)
Definition page_listed (prefixes : list str) (objects : list OutputContent) (es : list Entry) : Prop :=
  exists es1 es2, Forall2 prefix_listed prefixes es1 /\ Forall2 content_listed objects es2 /\ es = es1 ++ es2.
Lemma push_page prefixes objects es done token token0 :
  page_listed prefixes objects es ->
  (set_done_token done token;; for_each (push_prefix core) prefixes;; for_each (push_content core) objects) (mkPage false token0 [])
    = (Ok tt, mkPage done token es).
Proof.
  intros (es1 & es2 & H1' & H2' & ->). unfold set_done_token, modify, mbind, M_bind.
  rewrite (for_each_adds prefix_listed _ _ _ _ push_prefix_adds H1'), (for_each_adds content_listed _ _ _ _ push_content_adds H2').
  done.
Qed.

(** The second interface: pages are named by the tokens of the server. *)
Definition v2_answers (token : str) (o : ListOutputV2) : Prop :=
  let start_after := if bool_decide (token = []) then sl_abs_start_after l else None in
  is_ok (s3_list_objects_v2_request core path token (sl_delimiter l) (list_limit args) start_after) = true /\
  serves de_list_v2 (list_v2_params p token (sl_delimiter l) (list_limit args) start_after) o.
Definition v2_follows (o : ListOutputV2) (next : option str) : Prop :=
  match next with
  | None => v2_is_truncated o = Some false
  | Some token => v2_is_truncated o = Some true /\ v2_next_continuation_token o = Some token
  end.
Lemma v2_step t token o next es :
  t = token -> v2_answers t o -> v2_follows o next -> page_listed (v2_common_prefixes o) (v2_contents o) es ->
  exists token', next_page (mkListerV2 l w) (mkPage false token []) =
      (Ok tt, mkPage (match next with None => true | Some _ => false end) token' es) /\
    match next with None => True | Some t' => t' = token' end.
Proof.
  intros -> [Hb Hs] Hf Hl. destruct lister_fields as (Hc & Hp & Ha & Hd). exists (default [] (v2_next_continuation_token o)).
  destruct (served_output _ _ _ _ _ (list_v2_reads core endpoint_ok path p token _ _ _ path_ok Hd) Hb Hs) as (resp & Hresp & Ho).
  assert (v2_done o = match next with None => true | Some _ => false end) as Hdone.
  { unfold v2_done. destruct next; [destruct Hf as [-> _] | rewrite Hf]; done. }
  split; [|destruct next; [by destruct Hf as [_ ->] | done]].
  unfold next_page, ListerV2_Page, v2_next_page, lift, get. cbn [l2_lister l2_network]. rewrite Hc, Hp, Ha.
  unfold mbind at 1 2 3, M_bind at 1 2 3. cbn [pg_token]. rewrite Hresp, Ho, Hdone. by apply push_page.
Qed.

(** The first interface: the marker is given by the server or is the last key. *)
Definition v1_answers (marker : str) (o : ListOutputV1) : Prop :=
  is_ok (s3_list_objects_v1_request core path marker (sl_delimiter l) (list_limit args)) = true /\
  serves de_list_v1 (list_v1_params p marker (sl_delimiter l) (list_limit args)) o.
Definition v1_follows (o : ListOutputV1) (next : option str) : Prop :=
  match next with
  | None => v1_is_truncated o = Some false
  | Some marker => v1_is_truncated o = Some true /\ marker <> [] /\
      (v1_next_marker o = Some marker \/ v1_next_marker o = None /\ oc_key <$> last (v1_contents o) = Some marker)
  end.
Definition v1_token (marker token : str) : Prop := marker = if bool_decide (token = []) then default [] (sl_abs_start_after l) else token.
Lemma v1_step t token o next es :
  v1_token t token -> v1_answers t o -> v1_follows o next -> page_listed (v1_common_prefixes o) (v1_contents o) es ->
  exists token', next_page (mkListerV1 l w) (mkPage false token []) =
      (Ok tt, mkPage (match next with None => true | Some _ => false end) token' es) /\
    match next with None => True | Some t' => v1_token t' token' end.
Proof.
  intros Ht [Hb Hs] Hf Hl. destruct lister_fields as (Hc & Hp & Ha & Hd). exists (v1_next_token o).
  destruct (served_output _ _ _ _ _ (list_v1_reads core endpoint_ok path p t _ _ path_ok Hd) Hb Hs) as (resp & Hresp & Ho).
  assert (v1_done o = match next with None => true | Some _ => false end) as Hdone.
  { unfold v1_done. destruct next; [destruct Hf as [-> _] | rewrite Hf]; done. }
  split.
  - unfold next_page, ListerV1_Page, v1_next_page, lift, get. cbn [l1_lister l1_network]. rewrite Hc, Hp, Ha.
    unfold mbind at 1 2 3, M_bind at 1 2 3. cbn [pg_token]. rewrite <- Ht, Hresp, Ho, Hdone. by apply push_page.
  - destruct next as [m|]; [|done]. destruct Hf as (_ & Hne & Hm). unfold v1_token, v1_next_token.
    destruct Hm as [->|[-> Hm]]; [by rewrite bool_decide_eq_false_2|].
    destruct (last (v1_contents o)); [|done]. injection Hm as <-. by rewrite bool_decide_eq_false_2.
Qed.

(** Versions: pages are named by a key and a version. *)
Definition versions_answers (t : str * str) (o : VersionsOutput) : Prop :=
  is_ok (s3_list_object_versions_request core path (sl_delimiter l) (list_limit args) t.1 t.2) = true /\
  serves de_versions (versions_params p (sl_delimiter l) (list_limit args) t.1 t.2) o.
Definition versions_follows (o : VersionsOutput) (next : option (str * str)) : Prop :=
  match next with
  | None => vo_is_truncated o = Some false
  | Some (key, version) => vo_is_truncated o = Some true /\ default [] (vo_next_key_marker o) = key /\
      default [] (vo_next_version_id_marker o) = version /\ " "%char ∉ version
  end.
Definition shown (o : OutputVersion) : bool := list_versions args || ov_is_latest o.
Definition versions_listed (o : VersionsOutput) (es : list Entry) : Prop :=
  exists es1 es2 es3, Forall2 prefix_listed (vo_common_prefixes o) es1 /\
    Forall2 version_listed (List.filter shown (vo_version o)) es2 /\
    Forall2 marker_listed (if list_deleted args then vo_delete_marker o else []) es3 /\ es = es1 ++ es2 ++ es3.
Definition versions_token (t : str * str) (token : str) : Prop := t = versions_markers token (sl_abs_start_after l).
Lemma rsplit_once_last c s v : c ∉ v -> rsplit_once c (s ++ [c] ++ v) = Some (s, v).
Proof.
  intros Hv. unfold rsplit_once. cbn [app]. rewrite rfind_char_app by done. cbn [fmap option_fmap option_map].
  rewrite take_app_length. replace (S (length s)) with (length s + 1) by lia. by rewrite <- drop_drop, drop_app_length.
Qed.
Lemma push_versions o es done token token0 :
  versions_listed o es ->
  (set_done_token done token;; for_each (push_prefix core) (vo_common_prefixes o);; for_each (push_version l) (vo_version o);;
   if list_deleted args then for_each (push_delete_marker l) (vo_delete_marker o) else mret tt) (mkPage false token0 [])
    = (Ok tt, mkPage done token es).
Proof.
  intros (es1 & es2 & es3 & Hx1 & Hx2 & Hx3 & ->). destruct lister_fields as (Hc & Hp & Ha & Hd).
  unfold set_done_token, modify, mbind, M_bind. rewrite (for_each_adds prefix_listed _ _ _ _ push_prefix_adds Hx1).
  rewrite (for_each_filter shown).
  2: { intros x ctx Hsh. unfold push_version. rewrite Ha. unfold shown in Hsh. by rewrite Hsh. }
  rewrite (for_each_adds (fun x e => shown x = true /\ version_listed x e) _ _ es2).
  2: { intros x e ctx [Hsh Hv]. apply push_version_adds; [done| |done]. by rewrite Ha. }
  2: { by apply Forall2_filter. }
  destruct (list_deleted args).
  - rewrite (for_each_adds marker_listed _ _ es3); [by unfold add_entries; cbn; rewrite <- app_assoc| |done].
    intros x e ctx. by apply push_marker_adds.
  - apply Forall2_nil_inv_l in Hx3 as ->. unfold add_entries. cbn. by rewrite app_nil_r.
Qed.
Lemma versions_step t token o next es :
  versions_token t token -> versions_answers t o -> versions_follows o next -> versions_listed o es ->
  exists token', next_page (mkVersionsLister l w) (mkPage false token []) =
      (Ok tt, mkPage (match next with None => true | Some _ => false end) token' es) /\
    match next with None => True | Some t' => versions_token t' token' end.
Proof.
  intros Ht [Hb Hs] Hf Hl. destruct lister_fields as (Hc & Hp & Ha & Hd). eexists.
  destruct (served_output _ _ _ _ _ (versions_reads core endpoint_ok path p _ _ t.1 t.2 path_ok Hd) Hb Hs) as (resp & Hresp & Ho).
  assert (match vo_is_truncated o with Some t => negb t | None => false end = match next with None => true | Some _ => false end) as Hdone.
  { destruct next as [[]|]; [destruct Hf as [-> _] | rewrite Hf]; done. }
  split.
  - unfold next_page, VersionsLister_Page, versions_next_page, lift, get. cbn [lv_lister lv_network]. rewrite Hc, Hp, Ha.
    unfold mbind at 1, M_bind at 1. cbn [pg_token]. rewrite <- Ht. destruct t as [key version].
    unfold mbind at 1 2, M_bind at 1 2. cbn [fst snd] in Hresp. rewrite Hresp, Ho, Hdone. by apply push_versions.
  - destruct next as [[key version]|]; [|done]. destruct Hf as (_ & <- & <- & Hv). unfold versions_token, versions_markers.
    change (b " ") with [" "%char]. by rewrite rsplit_once_last.
Qed.

(** C24.  Listing a bucket returns what it holds: when the server serves a chain of
    pages, each reached by the token, the marker or the key and version of the one
    before, the lister of that interface returns the entries of all the pages in
    their order and then ends.  The entry of an object has the path that leads to
    its key, and the size, ETag, time and version the server gave; versions that
    are not current and delete markers are listed when they were asked for.
    Every request is one that a server reads as meant, whatever the keys are. *)
Theorem s3_lists fuel :
  (forall os pages, Chain v2_answers v2_follows [] os ->
     Forall2 (fun o => page_listed (v2_common_prefixes o) (v2_contents o)) os pages -> length os < fuel ->
     lists (page_next fuel) (page_new (mkListerV2 l w)) (concat pages)) /\
  (forall os pages, Chain v1_answers v1_follows (default [] (sl_abs_start_after l)) os ->
     Forall2 (fun o => page_listed (v1_common_prefixes o) (v1_contents o)) os pages -> length os < fuel ->
     lists (page_next fuel) (page_new (mkListerV1 l w)) (concat pages)) /\
  (forall os pages, Chain versions_answers versions_follows (default [] (sl_abs_start_after l), []) os ->
     Forall2 versions_listed os pages -> length os < fuel ->
     lists (page_next fuel) (page_new (mkVersionsLister l w)) (concat pages)).
Proof.
  split_and!; intros os pages Hc Hl Hf.
  - eapply (chain_lists _ _ _ eq _ v2_step); by try done.
  - eapply (chain_lists _ _ _ v1_token _ v1_step); by try done.
  - eapply (chain_lists _ _ _ versions_token _ versions_step); try done.
    unfold versions_token, versions_markers. cbn. by destruct (sl_abs_start_after l).
Qed.
End ListSpec.

(** ** A server, for examples *)

Module SimpleServer.
Import SimpleHttp SimplePercent SimpleS3.

Definition object (key : string) : OutputContent := mkContent (b key) 1 (b "now") None.
Definition page1 : ListOutputV2 := mkOutputV2 (Some true) (Some (b "t&2")) [b "data/d/"] [object "data/a b"].
Definition page2 : ListOutputV2 := mkOutputV2 (Some false) None [] [object "data/e"].

#[export] Instance simple_xml : S3Xml := {|
  de_error _ := Err (b "no error");
  de_initiate bs := Ok (ascii_of_byte <$> bs);
  de_complete _ := Ok (mkCompleteResult [] [] [] (b "etag") [] [] []);
  de_copy _ := Ok (mkCopyResult (b "etag") [] [] [] []);
  de_delete bs := Ok ((fun _ => mkDeleteError (b "InternalError") (b "data/b") [] None) <$> bs);
  de_list_v1 _ := Ok (mkOutputV1 (Some false) None [] []);
  de_list_v2 bs := Ok (if bool_decide (bs = [x02]) then page2 else page1);
  de_versions bs := Ok (mkVersionsOutput (if bool_decide (bs = [x03]) then None else Some false) None None []
    [mkVersion (b "data/a") (b "v") true 1 (b "now") None] []);
  debug_s3_error e := er_code e;
  debug_delete_error e := de_code e;
  parse_timestamp _ := Ok 0%Z;
  parse_rfc2822 _ := Ok 0%Z;
|}.
(** A network is what is answered to each request: headers and a body. *)
Definition Network : Type := HttpRequest -> list (str * str) * bytes.
#[export] Instance simple_s3_client : S3Client (H := simple_http) Network := {|
  status_as_u16 n := n;
  hm_remove k m := List.filter (fun kv => negb (bool_decide (kv.1 = k))) m;
  response_uri _ := None;
  debug_parts _ _ _ := [];
  sign parts _ := Ok parts;
  client_send req w := (Ok (mkResponse 200%Z tt (w req).1 (Contiguous (w req).2)), w);
  client_fetch req w := (Ok (mkResponse 200%Z tt (w req).1 (http_body_new [Ok (Contiguous (w req).2)] None)), w);
|}.

Lemma simple_send built w req :
  built = Ok req ->
  send_built sample_core built w = (Ok (@mkResponse simple_http _ 200%Z tt (w req).1 (Contiguous (w req).2)), w).
Proof. by intros ->. Qed.

(** *** Deleting *)

Definition two_targets : list target := [(b "a", op_delete); (b "b", op_delete)].
Definition two_targets_request : HttpRequest :=
  Eval vm_compute in
    match s3_delete_objects_request sample_core two_targets with Ok req => req | _ => mkHttp (mkParts [] [] []) Buffer.new end.
Definition one_error : Network := fun _ => ([], [x01]).
Lemma s3_delete_batch_reports_witness :
  exists res, delete_batch two_targets (sample_core, one_error) = (Ok res, (sample_core, one_error)) /\
    br_succeeded res ++ (fst <$> br_failed res) ≡ₚ two_targets /\
    (forall t, t ∈ br_succeeded res <-> t ∈ two_targets /\
       forall e, e ∈ [mkDeleteError (b "InternalError") (b "data/b") [] None] -> error_id e <> target_id (b "data/") t) /\
    (forall t x, (t, x) ∈ br_failed res -> exists e, e ∈ [mkDeleteError (b "InternalError") (b "data/b") [] None] /\
       error_id e = target_id (b "data/") t /\ x = parse_delete_objects_result_error e).
Proof.
  apply (s3_delete_batch_reports (client := simple_s3_client) sample_core (b "data/") eq_refl two_targets one_error
    (@mkResponse simple_http _ 200%Z tt [] (Contiguous [x01])) one_error).
  - apply (simple_send (s3_delete_objects_request sample_core two_targets) one_error two_targets_request). vm_compute. reflexivity.
  - reflexivity.
  - reflexivity.
  - simpl. lia.
  - apply (bool_decide_unpack _). vm_compute. exact I.
Defined.

(** More errors than targets: the batch panics. *)
Theorem s3_delete_errors_panic :
  delete_batch [(b "a", op_delete)] (sample_core, (fun _ => ([], [x01; x02])) : Network) =
    (Panic, (sample_core, fun _ => ([], [x01; x02]))).
Proof. vm_compute. reflexivity. Qed.

(** *** Listing, in two pages *)

Definition sample_lister : S3Lister := mkS3Lister sample_core [slash] op_list [slash] None.
Definition second_params : list (str * str) := list_v2_params (b "data/") (b "t&2") [slash] None None.
Definition two_pages : Network := fun req =>
  ([], if bool_decide (s3_read (s3_endpoint sample_core) req = Some (None, second_params)) then [x02] else [x01]).
Definition entry_of (path : string) : Entry :=
  mkEntry (b path) (set_last_modified 0 (set_content_length 1 (set_is_current true (meta_new FILE)))).

Lemma sample_components : Forall component [b "a b"; b "d"; b "e"].
Proof. repeat constructor; done || (vm_compute; set_solver). Qed.
Lemma sample_key path key :
  path ∈ [b "a b"; b "e"] -> build_abs_path (b "/data/") path = Ok key -> path_key sample_core path key.
Proof.
  intros Hp Hk. pose proof sample_components as Hc. rewrite !Forall_cons in Hc. destruct Hc as (Ha & _ & He & _).
  apply elem_of_cons in Hp as [->|Hp]; [|apply elem_of_cons in Hp as [->|[]%elem_of_nil]]; (split_and!; [|done|exact Hk]).
  - apply (norm_file [b "a b"]); [done|by apply Forall_singleton].
  - apply (norm_file [b "e"]); [done|by apply Forall_singleton].
Qed.

Lemma s3_lists_witness :
  lists (page_next 3) (page_new (mkListerV2 sample_lister two_pages))
    [mkEntry (b "d/") (meta_new DIR); entry_of "a b"; entry_of "e"].
Proof.
  pose proof sample_components as Hc. rewrite !Forall_cons in Hc. destruct Hc as (_ & Hd & _).
  assert (normalized_root (b "/data/")) as Hroot.
  { apply (root_dir [b "data"]); [done|]. repeat constructor; done || (vm_compute; set_solver). }
  destruct (s3_lists (client := simple_s3_client) sample_core two_pages sample_endpoint Hroot eq_refl
    ltac:(intros [m u hs]; by exists hs) [slash] (b "data/") op_list sample_lister eq_refl eq_refl 3) as (Hl & _).
  apply (Hl [page1; page2] [[mkEntry (b "d/") (meta_new DIR); entry_of "a b"]; [entry_of "e"]]).
  - eapply Chain_more; [split; [vm_compute; reflexivity|]|split; reflexivity|eapply Chain_last; [split; [vm_compute; reflexivity|]|reflexivity]].
    + intros req _ Hr. eexists. split; [reflexivity|]. split; [reflexivity|]. unfold two_pages. rewrite Hr.
      vm_compute. reflexivity.
    + intros req _ Hr. eexists. split; [reflexivity|]. split; [reflexivity|]. unfold two_pages. rewrite Hr.
      vm_compute. reflexivity.
  - constructor; [|constructor; [|done]].
    + exists [mkEntry (b "d/") (meta_new DIR)], [entry_of "a b"]. split_and!; [| |done].
      * constructor; [|done]. split; [|done]. split_and!; [|done|reflexivity]. apply (norm_dir [b "d"]); [done|by apply Forall_singleton].
      * constructor; [|done]. split; [apply sample_key; [set_solver|reflexivity]|]. by exists 0%Z.
    + exists [], [entry_of "e"]. split_and!; [done| |done].
      constructor; [|done]. split; [apply sample_key; [set_solver|reflexivity]|]. by exists 0%Z.
  - simpl. lia.
Defined.

(** Without [IsTruncated] the versions are never done, and the next page is the
    first one again: the listing does not end. *)
Theorem s3_versions_endless :
  exists e, forall token, token ∈ [[]; b " "] ->
    next_page (mkVersionsLister sample_lister ((fun _ => ([], [x03])) : Network)) (mkPage false token []) =
      (Ok tt, mkPage false (b " ") [e]).
Proof.
  eexists. intros token [->|[->|[]%elem_of_nil]%elem_of_cons]%elem_of_cons; vm_compute; reflexivity.
Qed.

(** *** Uploading, in two parts *)

Definition tagging : Network := fun _ => ([(b "etag", b "tag")], [x75]).
Definition sample_writer : S3Writer := mkS3Writer sample_core op_write (b "x").
Lemma sample_no_panic u n size body : mp_write_part (sample_writer, tagging) u n size body <> Panic.
Proof.
  unfold mp_write_part, S3Writer_Multipart, s3_write_part, send_built, send, mbind, M_bind, lift. cbn [fst snd sample_writer sw_core sw_path].
  pose proof (part_reads sample_core sample_endpoint (b "x") (b "data/x") u (n + 1) size body
    (calculate_checksum sample_core body) eq_refl) as Hr.
  by destruct (s3_upload_part_request _ _ _ _ _ _ _).
Qed.

Definition upload_after (k : nat) : MultipartWriter :=
  let step bs s := (multipart_write (sample_writer, tagging) None (Contiguous bs) s).2 in
  match k with 0 => Uploads.multipart_new 1 | 1 => step [x01] (Uploads.multipart_new 1) | _ => step [x02] (step [x01] (Uploads.multipart_new 1)) end.
Lemma upload_reach : multipart_reach (W := S3Writer * Network) (s3_acked sample_core op_write (b "x")) 1 [[x01]; [x02]] (upload_after 2).
Proof.
  assert (await_ok (s3_acked sample_core op_write (b "x")) anything (part_task (sample_writer, tagging) None)) as Hok
    by apply (s3_part_ok sample_core sample_endpoint op_write (b "x") (b "data/x") eq_refl), sample_no_panic.
  apply (reach_write _ 1 [[x01]] (upload_after 1) (sample_writer, tagging) None (Contiguous [x02])); [|exact Hok|vm_compute; reflexivity].
  apply (reach_write _ 1 [] (upload_after 0) (sample_writer, tagging) None (Contiguous [x01])); [constructor|exact Hok|vm_compute; reflexivity].
Qed.

Lemma s3_upload_stores_witness :
  exists bodies s', concat (contents <$> bodies) = [x01; x02] /\ p_part_number <$> mw_parts s' = seq 1 (length bodies) /\
    Forall2 (fun body part => uploaded (W := Network) sample_core (b "data/x") (b "u") (p_part_number part) body (p_etag part))
      bodies (mw_parts s') /\
    completed sample_core (b "data/x") tagging (b "u") (mw_parts s').
Proof.
  destruct (multipart_close (sample_writer, tagging) None (upload_after 2)) as [r s'] eqn:E.
  assert (exists meta, r = Ok meta) as [meta ->] by (vm_compute in E; injection E as <- _; by eexists).
  pose proof (s3_upload_stores sample_core sample_endpoint op_write (b "x") (b "data/x") eq_refl 1 _ _ tagging None meta s'
    upload_reach sample_no_panic E) as Hs.
  assert (mw_upload_id (upload_after 2) = Some (b "u")) as Hu by (vm_compute; reflexivity). rewrite Hu in Hs.
  destruct Hs as [bodies Hs]. exists bodies, s'. exact Hs.
Defined.
End SimpleServer.
